(* ===== verification/_CoqProject ===== *)
-Q . S2P
Prelude.v
Ints.v
BitVec.v
Wah.v
Vectors.v
FragTables.v
Queues.v
Compare.v
Arrays.v
Trees.v
AvlTree.v
TreeBag.v
Links.v
BiDiList.v
TextOps.v
Lists.v
Binomial.v
Avl.v
STree.v
Streams.v
Output.v
Input.v
Version.v
Checksum.v
Ini.v
VarExpander.v
Text.v
Json.v
Hash.v
Rtti.v
Strings.v
Alloc.v
Collectors.v
GroupedGC.v
JobSched.v
Path.v
Dtd.v
Options.v
