(* ===== verification/Prelude.v ===== *)
(** * ELM: verification library

    ELM (Embedded Library Manager) is a C++ library of containers, strings, streams,
    memory allocators and tools. This development models its core as functions over
    explicit states and proves what makes each part correct. Sources are under src/:
    [X.cpp] below stands for src/src/X.cpp and [X.h] for src/include/elm/X.h. Each
    modelling definition is preceded by the file, lines and name of the code it
    translates.

    ** Conventions

    - A C++ function is a function from the state of its object to [outcome]: [Ret],
      or [Crash] with a fault: a failed assertion, an access out of its block, an
      undefined operation, or a loop that used up its fuel. "It runs" is a theorem.
    - Functions that may throw are in [IO S A]: a result or [Throw], with a new state.
    - Machine words are [Z], wrapped by [u8 .. u64] and [s32], [s64] where the code
      computes on them; an [int] that overflows is [Crash Undefined] where sizes are
      added, doubled or shifted ([int_of], [Ints.shl_int]), and the theorems state how
      many elements are enough for it not to happen; strings are lists of bytes ([str]).
    - Loops are [loop] and [scan] ([for] loops, bounded by their range), [iter] and
      [io_iter] (with fuel). Every theorem with a fuel gives one that is enough: the
      number of nodes, characters or turns left, plus one; no result is stated "if the
      fuel is enough" only.
    - Where pointers matter (queues, hash tables, strings, allocators) the heap is
      explicit and the invariant says which cells belong to whom.
    - Code out of the repository is a parameter: [operator new] (class [Alloc.Heap]
      with laws), the streams of the system ([Streams.ReliableOut], [ReliableByte] for
      those read by characters, [ReliableIn] for those read by blocks),
      the application behind a factory, a collector or a producer of jobs.
    - Bugs found on the way are [Example]s at the end of the files.

    ** Files

    - [Prelude]: faults and monads, checked memory, loops and their rules, words, the
      lists and tactics shared by all.
    - [Ints] (int.cpp), [BitVec] (util_BitVector.cpp, util/BitVector.h), [Wah]
      (util_WAHVector.cpp): bit counting, bit vectors as packed bytes, compressed bit
      vectors. Each operation is proved to compute the expected bits; [Wah] shows its
      binary operations pointwise on the bits, whatever the compression.
    - [Vectors] (array.h, data/Vector.h), [FragTables] (data/FragTable.h), [Queues]
      (data/VectorQueue.h, ListQueue.h, StaticStack.h), [Lists] (data/List.h,
      SortedList.h, ListSet.h, ListMap.h): refinement of lists, sets and maps; growth,
      wrap-around of the ring, nodes in a heap, iterators that insert and remove.
    - [Compare] (compare.h): the interface of comparators, against which [Lists] and
      [Avl] are proved; [Avl] (avl_GenTree.cpp, avl headers): AVL trees with the explicit
      stack of the code; balance, order, and the tree as an association list.
    - [Hash] (hash.h, util_HashKey.cpp, data/HashTable.h, HashSet.h, HashMap.h): chains
      of nodes that look ups reorder, live iterators; tables, sets and maps up to order.
    - [Streams] (io stream files, block_DynBlock.cpp): streams as a class of operations
      with laws; buffers and tees are transparent over reliable streams. [Output]
      (io_Output.cpp) and [Input] (io_Input.cpp) print and scan on any stream: formats,
      and what is printed is read back. [Text] (string_Char.cpp, string_utf8.cpp and string_utf16.cpp):
      classes of characters, UTF-8. [Json] (json.cpp, json_Parser.cpp) is built on
      [Output] and [Input]: an object saved is the text of this object and of no other
      value, and [Parser] reads it.
    - [Strings] (string/String.h, string_String.cpp, string/StringBuffer.h): buffers
      shared by counted references; programs over strings never free a buffer in use,
      and their texts are those of a machine without sharing.
    - [Alloc] (alloc_StackAllocator.cpp, alloc/BlockAllocator.h,
      alloc_BlockAllocatorWithGC.cpp, alloc_ListGC.cpp): blocks given never overlap;
      collections, for any client, free the unmarked blocks and them only.
    - [Collectors] (alloc_SimpleGC.cpp): blocks cut at the end of free ones, mark and
      sweep of granules, on [STree] for the chunks and [BitVec] for the marks.
      [GroupedGC] (alloc_GroupedGC.cpp): chunks of blocks of one size, with collections
      that only free blocks of full chunks.
    - [JobSched] (sys_JobScheduler.cpp): a transition system with all interleavings of
      threads; mutual exclusion, each job run and harvested once, bounded executions
      without deadlock.
    - [Path] (system_Path.cpp): canonical and relative paths, parts, lists of paths.
    - [Dtd] (xom_dtd.cpp, xom/dtd.h): the backtracking parser of XML contents against
      a reference semantics without state, itself sound for regular expressions.
    - [TextOps]: searches and parts of texts, shared by [Strings], [Path], [Version] and
      [Options]; [Version] (util_Version.cpp, util/Version.h): printing and reading back.
    - [Options] (option_Manager.cpp, option headers): options as a class of what the
      manager asks of them; tables of commands, reading of command lines against a
      relation that defines their language, help, exit status of [manage].
    - [Binomial] (data/BinomialQueue.h): binomial queues as bags with a least element.
    - [STree] (stree headers): trees of segments built from segments or marks, in one
      array; look up in the tree built is look up in the list of segments.
    - [Arrays] (data/Array.h, data/Slice.h, data/quicksort.h): quicksort ends, stays in its
      array and its stack of intervals, and sorts for any total preorder.
    - [Trees] (inhstruct/BinTree.h, inhstruct/SortedBinTree.h): intrusive binary trees over a
      heap, sorted insertion, removal and the visits; [TreeBag] (data/TreeBag.h, TreeMap.h):
      bags and maps over them, as multisets of their elements; [AvlTree] (avl_Tree.cpp,
      avl/Tree.h): balanced trees on the same nodes, their balance, order and contents.
    - [Links] (inhstruct/SLList.h, DLList.h, Tree.h): chained nodes with and without back
      links, trees of children; [BiDiList] (data/BiDiList.h): lists in two directions refine
      lists, their cells being disjoint.
    - [Rtti] (rtti.cpp, rtti headers): conversions of pointers along the bases of classes keep
      the part of the object they point to; names of enumerations; registry of types.
    - [Ini] (ini.cpp, ini.h): loading of files of sections against their format, on any stream.
    - [VarExpander] (io_VarExpander.cpp): a filter that expands variables, as a state machine
      against the language of its texts.
    - [Checksum] (checksum_MD5.cpp, checksum_Fletcher.cpp): MD5 by blocks and streams is the
      function of RFC 1321 on the whole; Fletcher sums modulo 65535 without overflow.

    How the parts call each other is how the files require each other: [FragTables]
    on [Vectors] and [Ints]; [Queues] on [Ints]; [Lists], [Avl] on [Compare]; [Output], [Input] on
    [Streams]; [Json] on both; [Strings] on [Output] and the blocks of [Streams];
    [Alloc] on [BitVec] for the marks; [TreeBag], [AvlTree] on [Trees] and [BiDiList] on [Links].

    ** Not modelled

    Floating point numbers (printing and scanning); what only calls the system
    (files, directories, processes, sockets, plug-ins, threads themselves); the
    wrappers of libxml2; the operations of the types at run time and the
    serialisation (tables of pointers to members and templates over classes of the
    application); crash handlers and logs; documentation headers (concepts.h, data.h); the
    containers kept for compatibility (genstruct, dyndata). *)

From Stdlib Require Export ZArith Lia Bool Permutation.
From Stdlib Require Import Ascii String.
From stdpp Require Export base tactics option list list_numbers numbers sorting.
Export AsciiSyntax StringSyntax.
#[global] Open Scope Z_scope.
#[export] Set Warnings "-clear-no-such-hyp".

(** ** Faults and the fault monad

    The C++ code stops on a failed [ASSERT]/[ASSERTP], may access memory out of
    the block it owns, or may execute an operation that C++ leaves undefined.
    Each of these is a value, so that "the operation runs" is provable. *)

Inductive fault :=
  | AssertFailed        (* ELM_ASSERT / ELM_ASSERTP: the program crashes *)
  | OutOfBounds         (* access out of the allocated block *)
  | Undefined           (* undefined behaviour of the language *)
  | OutOfFuel.          (* the loop did not end within the given fuel *)

#[export] Instance fault_eq_dec : EqDecision fault.
Proof. solve_decision. Defined.

Inductive outcome (A : Type) :=
  | Ret (x : A)
  | Crash (f : fault).
Arguments Ret {A} _.
Arguments Crash {A} _.

#[export] Instance outcome_ret : MRet outcome := fun A x => Ret x.
#[export] Instance outcome_bind : MBind outcome := fun A B k m =>
  match m with Ret x => k x | Crash f => Crash f end.
#[export] Instance outcome_fmap : FMap outcome := fun A B g m =>
  match m with Ret x => Ret (g x) | Crash f => Crash f end.

Definition assertP (b : bool) : outcome unit :=
  if b then Ret tt else Crash AssertFailed.

Definition runs {A} (m : outcome A) : Prop := exists x, m = Ret x.

Lemma bind_Ret {A B} (x : A) (k : A -> outcome B) : (Ret x ≫= k) = k x.
Proof. reflexivity. Qed.
Lemma assertP_true (b : bool) : b = true -> assertP b = Ret tt.
Proof. by intros ->. Qed.
Lemma bind_Ret_inv {A B} (m : outcome A) (k : A -> outcome B) y :
  (m ≫= k) = Ret y -> exists x, m = Ret x /\ k x = Ret y.
Proof. destruct m as [x|f]; [by eauto | done]. Qed.

(** Reduces the monad and the boolean connectives and nothing else. *)
Ltac mred :=
  cbn [mbind outcome_bind mret outcome_ret fmap outcome_fmap assertP negb andb orb].

(** ** Exceptions: a state monad whose commands may throw

    [IO S A] is a command on a state [S]: it may stop on a fault, or end with a
    value or an exception, in both cases with a new state. *)

Inductive result (A : Type) := Val (x : A) | Throw.
Arguments Val {A} _.
Arguments Throw {A}.

Definition IO (S A : Type) : Type := S -> outcome (result A * S).
#[export] Instance io_ret {S} : MRet (IO S) := fun A x s => Ret (Val x, s).
#[export] Instance io_bind {S} : MBind (IO S) := fun A B k m s =>
  match m s with
  | Ret (Val x, s') => k x s'
  | Ret (Throw, s') => Ret (Throw, s')
  | Crash f => Crash f
  end.
Definition throw {S A} : IO S A := fun s => Ret (Throw, s).
Definition get_st {S} : IO S S := fun s => Ret (Val s, s).
Definition put_st {S} (s : S) : IO S unit := fun _ => Ret (Val tt, s).
Definition lift {S A} (m : outcome A) : IO S A := fun s => x ← m; Ret (Val x, s).

(** A loop of commands, as [iter] below. *)
Fixpoint io_iter {S St R} (fuel : nat) (step : St -> IO S (St + R)) (st : St) : IO S R :=
  match fuel with
  | O => fun _ => Crash OutOfFuel
  | Datatypes.S fuel => step st ≫= fun r => match r with inl st' => io_iter fuel step st' | inr x => mret x end
  end.

Lemma io_bind_Val {S A B} (m : IO S A) (k : A -> IO S B) s x s' :
  m s = Ret (Val x, s') -> (m ≫= k) s = k x s'.
Proof. intros E. unfold mbind, io_bind. by rewrite E. Qed.
Lemma io_bind_Throw {S A B} (m : IO S A) (k : A -> IO S B) s s' :
  m s = Ret (Throw, s') -> (m ≫= k) s = Ret (Throw, s').
Proof. intros E. unfold mbind, io_bind. by rewrite E. Qed.

Lemma io_lift_Ret {S A B} (x : A) (k : A -> IO S B) s : (lift (Ret x) ≫= k) s = k x s.
Proof. reflexivity. Qed.

Lemma io_iter_inl {S St R} n (step : St -> IO S (St + R)) st s st' s' :
  step st s = Ret (Val (inl st'), s') -> io_iter (Datatypes.S n) step st s = io_iter n step st' s'.
Proof. intros E. cbn [io_iter]. by rewrite (io_bind_Val _ _ _ _ _ E). Qed.
Lemma io_iter_inr {S St R} n (step : St -> IO S (St + R)) st s x s' :
  step st s = Ret (Val (inr x), s') -> io_iter (Datatypes.S n) step st s = Ret (Val x, s').
Proof. intros E. cbn [io_iter]. by rewrite (io_bind_Val _ _ _ _ _ E). Qed.

(** ** Checked access to a block of memory *)

Abbreviation zlen l := (Z.of_nat (length l)).

Definition rd {A} (l : list A) (i : Z) : outcome A :=
  if 0 <=? i then
    match l !! Z.to_nat i with Some x => Ret x | None => Crash OutOfBounds end
  else Crash OutOfBounds.

Definition wr {A} (l : list A) (i : Z) (x : A) : outcome (list A) :=
  if (0 <=? i) && (i <? zlen l) then Ret (<[Z.to_nat i := x]> l)
  else Crash OutOfBounds.

Arguments rd : simpl never.
Arguments wr : simpl never.

Lemma rd_ok {A} (l : list A) i x :
  0 <= i -> l !! Z.to_nat i = Some x -> rd l i = Ret x.
Proof. intros Hi Hl. unfold rd. rewrite (proj2 (Z.leb_le _ _) Hi), Hl. done. Qed.

Lemma rd_inv {A} (l : list A) i x :
  rd l i = Ret x -> 0 <= i < zlen l /\ l !! Z.to_nat i = Some x.
Proof.
  unfold rd. destruct (Z.leb_spec 0 i); [|done].
  destruct (l !! Z.to_nat i) eqn:E; [|done]. intros [= ->].
  split; [|done]. apply lookup_lt_Some in E. lia.
Qed.

Lemma rd_runs {A} (l : list A) i : 0 <= i < zlen l -> runs (rd l i).
Proof.
  intros Hi. destruct (lookup_lt_is_Some_2 l (Z.to_nat i)) as [x Hx]; [lia|].
  exists x. apply rd_ok; [lia|done].
Qed.

Lemma rd_out {A} (l : list A) i : ~ (0 <= i < zlen l) -> rd l i = Crash OutOfBounds.
Proof.
  intros Hi. unfold rd. destruct (Z.leb_spec 0 i); [|done].
  rewrite lookup_ge_None_2; [done|lia].
Qed.

Lemma wr_ok {A} (l : list A) i x :
  0 <= i < zlen l -> wr l i x = Ret (<[Z.to_nat i := x]> l).
Proof.
  intros Hi. unfold wr.
  rewrite (proj2 (Z.leb_le _ _)), (proj2 (Z.ltb_lt _ _)) by lia. done.
Qed.

(** ** Loops

    [loop a b body s] is [for(int i = a; i < b; i++) body]; [scan a b p] is the
    same loop when its body only tests and returns from the function; [iter]
    is a general loop whose body ends with [inl] (go on) or [inr] (leave),
    run with fuel. *)

Fixpoint for_ {S} (n : nat) (i : Z) (body : Z -> S -> outcome S) (s : S) : outcome S :=
  match n with
  | O => Ret s
  | Datatypes.S n => s' ← body i s; for_ n (i + 1) body s'
  end.
Definition loop {S} (a b : Z) (body : Z -> S -> outcome S) (s : S) : outcome S :=
  for_ (Z.to_nat (b - a)) a body s.

Fixpoint scan_ {R} (n : nat) (i : Z) (p : Z -> outcome (option R)) : outcome (option R) :=
  match n with
  | O => Ret None
  | S n => r ← p i; match r with Some x => Ret (Some x) | None => scan_ n (i + 1) p end
  end.
Definition scan {R} (a b : Z) (p : Z -> outcome (option R)) : outcome (option R) :=
  scan_ (Z.to_nat (b - a)) a p.

Fixpoint iter {S R} (fuel : nat) (step : S -> outcome (S + R)) (s : S) : outcome R :=
  match fuel with
  | O => Crash OutOfFuel
  | Datatypes.S fuel =>
      r ← step s;
      match r with inl s' => iter fuel step s' | inr x => Ret x end
  end.

Arguments loop : simpl never.
Arguments scan : simpl never.

(** Invariant rule of [for] loops: the loop runs and ends with the invariant. *)
Lemma loop_inv {S} (I : Z -> S -> Prop) a b body s :
  a <= b -> I a s ->
  (forall i s, a <= i < b -> I i s -> exists s', body i s = Ret s' /\ I (i + 1) s') ->
  exists s', loop a b body s = Ret s' /\ I b s'.
Proof.
  intros Hab. unfold loop. remember (Z.to_nat (b - a)) as n eqn:Hn. revert a s Hab Hn.
  induction n as [|n IH]; intros a s Hab Hn HI Hb; cbn [for_].
  - assert (a = b) as -> by lia. eauto.
  - destruct (Hb a s) as (s' & -> & HI'); [lia|done|]. mred.
    apply IH; [lia..|done|]. intros i s2 Hi. apply Hb. lia.
Qed.

(** Runs the first [for] loop of the goal with invariant [I]: three goals for
    the premises of the rule, then the goal with the result [r] of the loop and
    the invariant [Hr] at the end. *)
Tactic Notation "loop_with" uconstr(I) :=
  match goal with
  | |- context [loop ?a ?b ?f ?s] =>
      let r := fresh "r" in let H := fresh "Hr" in
      destruct (loop_inv I a b f s) as (r & -> & H)
  end.

Lemma scan_spec {R} (f : Z -> option R) a b p :
  (forall i, a <= i < b -> p i = Ret (f i)) ->
  exists r, scan a b p = Ret r /\
    match r with
    | None => forall i, a <= i < b -> f i = None
    | Some x => exists i, a <= i < b /\ f i = Some x /\
                  forall j, a <= j < i -> f j = None
    end.
Proof.
  unfold scan. remember (Z.to_nat (b - a)) as n eqn:Hn. revert a Hn.
  induction n as [|n IH]; intros a Hn Hp; cbn [scan_].
  - exists None. split; [done|]. intros; lia.
  - rewrite Hp by lia. mred. destruct (f a) as [x|] eqn:E.
    + exists (Some x). split; [done|]. exists a. split_and!; [lia|lia|done|]. intros; lia.
    + destruct (IH (a + 1)) as (r & -> & Hr); [lia|intros; apply Hp; lia|].
      exists r. split; [done|]. destruct r as [x|].
      * destruct Hr as (i & Hi & Hf & Hj). exists i. split_and!; [lia|lia|done|].
        intros j Hj'. destruct (Z.eq_dec j a) as [->|]; [done|]. apply Hj. lia.
      * intros i Hi. destruct (Z.eq_dec i a) as [->|]; [done|]. apply Hr. lia.
Qed.

(** Total-correctness rule of [iter]: an invariant and a measure. *)
Lemma iter_total {S R} (I : S -> Prop) (m : S -> nat) (Q : R -> Prop) step :
  (forall s, I s -> exists r, step s = Ret r /\
     match r with inl s' => I s' /\ (m s' < m s)%nat | inr x => Q x end) ->
  forall fuel s, I s -> (m s < fuel)%nat -> exists x, iter fuel step s = Ret x /\ Q x.
Proof.
  intros Hs. induction fuel as [|fuel IH]; intros s HI Hm; [lia|]. cbn [iter].
  destruct (Hs s HI) as (r & -> & Hr). mred. destruct r as [s'|x].
  - destruct Hr. apply IH; [done|lia].
  - eauto.
Qed.

(** A loop that overwrites each cell of [l0] in turn, reading at step [i] cells
    that are not written yet, computes the target. *)
Lemma loop_update {A} (l0 tgt : list A) (n : Z) body :
  n = zlen l0 -> length l0 = length tgt ->
  (forall i l, 0 <= i < n -> length l = length l0 ->
     l !! Z.to_nat i = l0 !! Z.to_nat i ->
     exists x, tgt !! Z.to_nat i = Some x /\ body i l = wr l i x) ->
  loop 0 n body l0 = Ret tgt.
Proof.
  intros -> Hlen Hb.
  destruct (loop_inv (fun i l => length l = length l0 /\
     (forall j, 0 <= j < i -> l !! Z.to_nat j = tgt !! Z.to_nat j) /\
     (forall j, i <= j -> l !! Z.to_nat j = l0 !! Z.to_nat j)) 0 (zlen l0) body l0)
    as (r & -> & Hr & Hr1 & _).
  - lia.
  - split_and!; [done|intros; lia|done].
  - intros i l Hi (Hl & H1 & H2).
    destruct (Hb i l) as (x & Hx & ->); [done|done|apply H2; lia|].
    rewrite wr_ok by lia. eexists; split; [done|].
    rewrite length_insert. split_and!; [done| |].
    + intros j Hj. destruct (Z.eq_dec j i) as [->|].
      * rewrite list_lookup_insert_eq by lia. done.
      * rewrite list_lookup_insert_ne by lia. apply H1. lia.
    + intros j Hj. rewrite list_lookup_insert_ne by lia. apply H2. lia.
  - f_equal. apply list_eq_same_length with (length l0); [lia|done|].
    intros i x y Hi E1 E2. pose proof (Hr1 (Z.of_nat i) ltac:(lia)) as E.
    rewrite Nat2Z.id, E1, E2 in E. congruence.
Qed.

(** Runs the first [iter] loop of the goal with invariant [I], measure [m] and
    postcondition [Q]; the goals are the step, the invariant at the start, the
    measure against the fuel, then the goal with the result [r] and [Hr : Q r]. *)
Tactic Notation "iter_with" uconstr(I) uconstr(m) uconstr(Q) :=
  match goal with
  | |- context [iter ?n ?st ?s0] =>
      let r := fresh "r" in let H := fresh "Hr" in
      let T := constr:(iter_total I m Q st) in
      let X := fresh in
      pose proof T as X;
      destruct (fun Hstep => X Hstep n s0) as (r & -> & H); clear X
  end.

(** ** Blocks of memory: [memset], [memcpy] on word arrays *)

Definition memset {A} (dst : list A) (from : Z) (x : A) (n : Z) : outcome (list A) :=
  if (0 <=? n) && (0 <=? from) && (from + n <=? zlen dst) then
    Ret (take (Z.to_nat from) dst ++ replicate (Z.to_nat n) x
         ++ drop (Z.to_nat (from + n)) dst)
  else Crash OutOfBounds.

(** [memcpy dst from src n]: the [n] first cells of [src] go to [dst + from]. *)
Definition memcpy {A} (dst : list A) (from : Z) (src : list A) (n : Z) : outcome (list A) :=
  if (0 <=? n) && (0 <=? from) && (from + n <=? zlen dst) && (n <=? zlen src) then
    Ret (take (Z.to_nat from) dst ++ take (Z.to_nat n) src
         ++ drop (Z.to_nat (from + n)) dst)
  else Crash OutOfBounds.

Lemma memset_all {A} (l : list A) x : memset l 0 x (zlen l) = Ret (replicate (length l) x).
Proof.
  unfold memset. rewrite !(proj2 (Z.leb_le _ _)) by lia. mred. f_equal.
  rewrite Z.add_0_l, Nat2Z.id, drop_all, app_nil_r. done.
Qed.
Lemma memcpy_all {A} (dst src : list A) :
  length dst = length src -> memcpy dst 0 src (zlen src) = Ret src.
Proof.
  intros E. unfold memcpy. rewrite !(proj2 (Z.leb_le _ _)) by lia. mred. f_equal.
  rewrite Z.add_0_l, Nat2Z.id, (drop_ge dst), app_nil_r by lia. by rewrite firstn_all.
Qed.
Lemma memcpy_ok {A} (dst src : list A) from n :
  0 <= n <= zlen src -> 0 <= from -> from + n <= zlen dst ->
  memcpy dst from src n =
    Ret (take (Z.to_nat from) dst ++ take (Z.to_nat n) src ++ drop (Z.to_nat (from + n)) dst).
Proof. intros. unfold memcpy. by rewrite !(proj2 (Z.leb_le _ _)) by lia. Qed.
Lemma memcpy_start {A} (dst src : list A) n : 0 <= n <= zlen src -> n <= zlen dst ->
  memcpy dst 0 src n = Ret (take (Z.to_nat n) src ++ drop (Z.to_nat n) dst).
Proof. intros. by rewrite memcpy_ok, Z.add_0_l by lia. Qed.
Arguments memset : simpl never.
Arguments memcpy : simpl never.

(** ** Machine words: a word of width [w] is a [Z] in [0, 2^w) *)

Definition inw (w z : Z) : Prop := 0 <= z < 2 ^ w.
Definition wrap (w z : Z) : Z := z mod 2 ^ w.
Abbreviation u8 := (wrap 8).
Abbreviation u16 := (wrap 16).
Abbreviation u32 := (wrap 32).
Abbreviation u64 := (wrap 64).

(** Conversion to a signed word of width [w] (two's complement). *)
Definition swrap (w z : Z) : Z :=
  let r := wrap w z in if r <? 2 ^ (w - 1) then r else r - 2 ^ w.
Abbreviation s16 := (swrap 16).
Abbreviation s32 := (swrap 32).
Abbreviation s64 := (swrap 64).

(** Signed arithmetic does not wrap: an [int] operation that overflows is undefined. *)
Definition int_of (z : Z) : outcome Z :=
  if (-2147483648 <=? z) && (z <? 2147483648) then Ret z else Crash Undefined.
Lemma int_of_ok z : -2147483648 <= z < 2147483648 -> int_of z = Ret z.
Proof. intros. unfold int_of. by rewrite (proj2 (Z.leb_le _ _)), (proj2 (Z.ltb_lt _ _)) by lia. Qed.
Arguments int_of : simpl never.

Arguments wrap : simpl never.
Arguments swrap : simpl never.
Arguments Z.pow : simpl never.
Arguments Z.shiftr : simpl never.
Arguments Z.shiftl : simpl never.
Arguments Z.land : simpl never.
Arguments Z.lor : simpl never.
Arguments Z.testbit : simpl never.
Arguments Z.modulo : simpl never.
Arguments Z.div : simpl never.

#[export] Instance inw_dec w z : Decision (inw w z).
Proof. unfold inw. apply _. Defined.

Create HintDb elm discriminated.
#[export] Hint Extern 4 (_ <= _)%Z => lia : elm.
#[export] Hint Extern 4 (_ < _)%Z => lia : elm.
#[export] Hint Extern 4 (_ <= _)%nat => lia : elm.
#[export] Hint Extern 4 (_ < _)%nat => lia : elm.

Lemma wrap_inw w z : 0 <= w -> inw w (wrap w z).
Proof. intros. apply Z.mod_pos_bound. lia. Qed.
Lemma wrap_small w z : inw w z -> wrap w z = z.
Proof. intros H. by apply Z.mod_small. Qed.
Lemma swrap_small w z : 0 < w -> - 2 ^ (w - 1) <= z < 2 ^ (w - 1) -> swrap w z = z.
Proof.
  intros Hw Hz. assert (2 ^ w = 2 * 2 ^ (w - 1)) as E.
  { rewrite <- Z.pow_succ_r by lia. f_equal. lia. }
  unfold swrap, wrap. destruct (Z.leb_spec 0 z).
  - rewrite Z.mod_small by lia. case_match; [done|].
    match goal with H : (_ <? _) = false |- _ => apply Z.ltb_ge in H end. lia.
  - replace (z mod 2 ^ w) with (z + 2 ^ w).
    + case_match; [|lia].
      match goal with H : (_ <? _) = true |- _ => apply Z.ltb_lt in H end. lia.
    + rewrite <- (Z.mod_add z 1) by lia. rewrite Z.mod_small; lia.
Qed.

(** *** Bits of a word *)

Lemma testbit_high w z i : inw w z -> w <= i -> Z.testbit z i = false.
Proof.
  intros [H0 H1] Hi. destruct (Z.leb_spec 0 w).
  - rewrite <- (Z.mod_small z (2 ^ w)) by lia. apply Z.mod_pow2_bits_high. lia.
  - rewrite Z.pow_neg_r in H1 by lia. lia.
Qed.

Lemma inw_of_bits w z :
  0 <= w -> 0 <= z -> (forall i, w <= i -> Z.testbit z i = false) -> inw w z.
Proof.
  intros Hw Hz Hb. split; [done|].
  destruct (Z.eq_dec z 0) as [->|Hne]; [by apply Z.pow_pos_nonneg|].
  apply Z.log2_lt_pow2; [lia|].
  destruct (Z.ltb_spec (Z.log2 z) w); [done|].
  pose proof (Hb (Z.log2 z) ltac:(lia)) as E. rewrite Z.bit_log2 in E by lia. done.
Qed.

Lemma word_ext w a b :
  inw w a -> inw w b ->
  (forall i, 0 <= i < w -> Z.testbit a i = Z.testbit b i) -> a = b.
Proof.
  intros Ha Hb H. apply Z.bits_inj'. intros i Hi.
  destruct (Z.ltb_spec i w); [apply H; lia|].
  by rewrite !(testbit_high w).
Qed.

Lemma testbit_wrap w z i :
  0 <= w -> 0 <= i -> Z.testbit (wrap w z) i = (i <? w) && Z.testbit z i.
Proof.
  intros Hw Hi. unfold wrap. destruct (Z.ltb_spec i w); simpl.
  - by rewrite Z.mod_pow2_bits_low.
  - apply Z.mod_pow2_bits_high. lia.
Qed.

Lemma inw_land w a b : 0 <= w -> inw w a -> 0 <= b -> inw w (Z.land a b).
Proof.
  intros Hw Ha Hb. apply inw_of_bits; [done| |].
  - apply Z.land_nonneg. left. apply Ha.
  - intros i Hi. by rewrite Z.land_spec, (testbit_high w a).
Qed.
Lemma inw_land_l w a b : 0 <= w -> inw w a -> inw w (Z.land a b).
Proof.
  intros Hw Ha. apply inw_of_bits; [done| |].
  - apply Z.land_nonneg. left. apply Ha.
  - intros i Hi. by rewrite Z.land_spec, (testbit_high w a).
Qed.
Lemma inw_land_r w a b : 0 <= w -> inw w b -> inw w (Z.land a b).
Proof. intros. rewrite Z.land_comm. by apply inw_land_l. Qed.
Lemma inw_lor w a b : 0 <= w -> inw w a -> inw w b -> inw w (Z.lor a b).
Proof.
  intros Hw Ha Hb. apply inw_of_bits; [done| |].
  - apply Z.lor_nonneg. split; [apply Ha | apply Hb].
  - intros i Hi. by rewrite Z.lor_spec, !(testbit_high w).
Qed.
Lemma inw_shiftl_1 w i : 0 <= i < w -> inw w (Z.shiftl 1 i).
Proof.
  intros Hi. rewrite Z.shiftl_1_l. split; [apply Z.pow_nonneg; lia|].
  apply Z.pow_lt_mono_r; lia.
Qed.
Lemma inw_0 w : 0 <= w -> inw w 0.
Proof. intros. split; [done|]. by apply Z.pow_pos_nonneg. Qed.

#[export] Hint Resolve wrap_inw inw_land_l inw_land_r inw_lor inw_shiftl_1 inw_0 : elm.

Lemma testbit_shiftl_1 b i : 0 <= b -> 0 <= i -> Z.testbit (Z.shiftl 1 b) i = (b =? i).
Proof. intros. by rewrite Z.shiftl_1_l, Z.pow2_bits_eqb. Qed.

(** The C idiom [(w & (1 << b)) != 0] tests a bit. *)
Lemma land_bit_test w b :
  0 <= b -> negb (Z.land w (Z.shiftl 1 b) =? 0) = Z.testbit w b.
Proof.
  intros Hb. destruct (Z.testbit w b) eqn:E.
  - apply negb_true_iff, Z.eqb_neq. intros H0.
    assert (Z.testbit (Z.land w (Z.shiftl 1 b)) b = false) as H1
      by (rewrite H0; apply Z.bits_0).
    rewrite Z.land_spec, E, testbit_shiftl_1, Z.eqb_refl in H1 by lia. done.
  - apply negb_false_iff, Z.eqb_eq. apply Z.bits_inj'. intros i Hi.
    rewrite Z.land_spec, testbit_shiftl_1, Z.bits_0 by lia.
    destruct (Z.eqb_spec b i) as [->|]; [by rewrite E|]. by rewrite andb_false_r.
Qed.

Lemma shiftr_div8 i : Z.shiftr i 3 = i / 8.
Proof. by rewrite Z.shiftr_div_pow2. Qed.
Lemma land_mod8 i : Z.land i 7 = i mod 8.
Proof. change 7 with (Z.ones 3). by rewrite Z.land_ones. Qed.

(** Number of bits to one among the [n] low bits: what the compiler's
    [__builtin_popcount] computes on an [n]-bit word. *)
Fixpoint popcount (n : nat) (z : Z) : Z :=
  match n with
  | O => 0
  | S n => Z.b2z (Z.testbit z (Z.of_nat n)) + popcount n z
  end.

Lemma popcount_bound n z : 0 <= popcount n z <= Z.of_nat n.
Proof. induction n as [|n IH]; simpl; [lia|]. destruct (Z.testbit z _); simpl; lia. Qed.

Lemma popcount_ext n a b :
  (forall i, 0 <= i < Z.of_nat n -> Z.testbit a i = Z.testbit b i) ->
  popcount n a = popcount n b.
Proof.
  induction n as [|n IH]; intros H; simpl; [done|].
  rewrite H by lia. f_equal. apply IH. intros i Hi. apply H. lia.
Qed.

Lemma popcount_add n m z :
  popcount (n + m) z = popcount n z + popcount m (Z.shiftr z (Z.of_nat n)).
Proof.
  induction m as [|m IH]; [rewrite Nat.add_0_r; simpl; lia|].
  rewrite Nat.add_succ_r. simpl. rewrite IH, Z.shiftr_spec by lia.
  replace (Z.of_nat (n + m)) with (Z.of_nat m + Z.of_nat n) by lia. lia.
Qed.

(** ** Characters and strings: a string is the list of its bytes *)

Abbreviation str := (list Z) (only parsing).
Definition code (a : ascii) : Z := Z.of_N (N_of_ascii a).
Definition text (s : string) : list Z := code <$> list_ascii_of_string s.
Notation "'ch' c" := (code c%char) (at level 9, c at level 0, only parsing).

(** Decides a closed property. *)
Ltac by_decide := apply (bool_decide_eq_true_1 _); vm_compute; reflexivity.

(** [lia] with divisions and remainders by constants. *)
Ltac dlia := Z.to_euclidean_division_equations; lia.

Lemma filter_none {A} (P : A -> Prop) `{!forall x, Decision (P x)} (l : list A) :
  (forall x, x ∈ l -> ~ P x) -> filter P l = [].
Proof.
  induction l as [|x l IH]; intros HP; [done|].
  rewrite filter_cons_False by (apply HP; left). apply IH. intros y Hy. apply HP. by right.
Qed.

Lemma filter_all {A} (P : A -> Prop) `{!forall x, Decision (P x)} (l : list A) :
  (forall x, x ∈ l -> P x) -> filter P l = l.
Proof.
  induction l as [|x l IH]; intros HP; [done|].
  rewrite filter_cons_True by (apply HP; left). f_equal. apply IH. intros y Hy. apply HP. by right.
Qed.

(** Evaluates the comparisons of the goal that are between closed terms. *)
Ltac eval_tests :=
  repeat match goal with
  | |- context [Z.eqb ?a ?b] =>
      let v := eval vm_compute in (Z.eqb a b) in
      match v with true => idtac | false => idtac end; change (Z.eqb a b) with v
  end; cbn [orb andb negb].

(** Concatenations to the right, conses in front. *)
Ltac app_norm := repeat (rewrite <- ?app_assoc; progress cbn [app]); rewrite <- ?app_assoc.

(** *** Sorted lists *)

Lemma seqZ_strongly_sorted a n : StronglySorted Z.lt (seqZ a n).
Proof.
  destruct (Z.leb_spec 0 n); [|rewrite seqZ_nil by lia; constructor].
  rewrite <- (Z2Nat.id n) by lia. generalize (Z.to_nat n). clear.
  intros k. revert a. induction k as [|k IH]; intros a; [constructor|].
  rewrite Nat2Z.inj_succ, seqZ_cons, Z.pred_succ by lia. constructor; [apply IH|].
  apply list.Forall_forall. intros z Hz. apply elem_of_seqZ in Hz. lia.
Qed.

Lemma StronglySorted_lookup {A} (R : A -> A -> Prop) (l : list A) n m x y :
  StronglySorted R l -> (n < m)%nat -> l !! n = Some x -> l !! m = Some y -> R x y.
Proof.
  intros HS. revert n m. induction HS as [|a l HS IH Ha]; intros n m Hnm; [done|].
  destruct m as [|m]; [lia|]. destruct n as [|n]; cbn.
  - intros [= ->] Hy. eapply Forall_lookup_1 in Ha; eauto.
  - apply IH. lia.
Qed.

Lemma StronglySorted_filter_Z {A} (R : A -> A -> Prop) (P : A -> Prop)
    `{!forall x, Decision (P x)} l :
  StronglySorted R l -> StronglySorted R (filter P l).
Proof.
  induction 1 as [|a l HS IH Ha]; [constructor|]. rewrite filter_cons. case_decide; [|done].
  constructor; [done|]. apply list.Forall_forall. intros x Hx.
  apply list_elem_of_filter in Hx as [_ Hx]. rewrite list.Forall_forall in Ha. by apply Ha.
Qed.
