(* ===== verification/Ints.v ===== *)
(** * Integer utilities ([src/int.cpp], [include/elm/int.h])

    Bit counting, most significant bit, powers of two, rounding and
    overflow-checking products on 32- and 64-bit words.  Words are [Z];
    a shift of the [int] constant 1 by 32 or more is [Undefined]. *)

From S2P Require Import Prelude.

(* src/include/elm/int.h:32-32 countOnes(t::uint8) *)
Definition countOnes8 (i : Z) : Z := popcount 8 i.
(* src/include/elm/int.h:34-34 countOnes(t::uint32) *)
Definition countOnes32 (i : Z) : Z := popcount 32 i.
(* src/include/elm/int.h:35-35 countOnes(t::uint64) *)
Definition countOnes64 (i : Z) : Z := popcount 64 i.

(* src/src/int.cpp:171-188 ones tab *)
Definition ones_tab : list Z :=
  [0; 1; 1; 2; 1; 2; 2; 3; 1; 2; 2; 3; 2; 3; 3; 4;
   1; 2; 2; 3; 2; 3; 3; 4; 2; 3; 3; 4; 3; 4; 4; 5;
   1; 2; 2; 3; 2; 3; 3; 4; 2; 3; 3; 4; 3; 4; 4; 5;
   2; 3; 3; 4; 3; 4; 4; 5; 3; 4; 4; 5; 4; 5; 5; 6;
   1; 2; 2; 3; 2; 3; 3; 4; 2; 3; 3; 4; 3; 4; 4; 5;
   2; 3; 3; 4; 3; 4; 4; 5; 3; 4; 4; 5; 4; 5; 5; 6;
   2; 3; 3; 4; 3; 4; 4; 5; 3; 4; 4; 5; 4; 5; 5; 6;
   3; 4; 4; 5; 4; 5; 5; 6; 4; 5; 5; 6; 5; 6; 6; 7;
   1; 2; 2; 3; 2; 3; 3; 4; 2; 3; 3; 4; 3; 4; 4; 5;
   2; 3; 3; 4; 3; 4; 4; 5; 3; 4; 4; 5; 4; 5; 5; 6;
   2; 3; 3; 4; 3; 4; 4; 5; 3; 4; 4; 5; 4; 5; 5; 6;
   3; 4; 4; 5; 4; 5; 5; 6; 4; 5; 5; 6; 5; 6; 6; 7;
   2; 3; 3; 4; 3; 4; 4; 5; 3; 4; 4; 5; 4; 5; 5; 6;
   3; 4; 4; 5; 4; 5; 5; 6; 4; 5; 5; 6; 5; 6; 6; 7;
   3; 4; 4; 5; 4; 5; 5; 6; 4; 5; 5; 6; 5; 6; 6; 7;
   4; 5; 5; 6; 5; 6; 6; 7; 5; 6; 6; 7; 6; 7; 7; 8].

Arguments ones_tab : simpl never.

(** The versions for compilers without [__builtin_popcount]. *)
(* src/src/int.cpp:170-190 ones(t::uint8) *)
Definition ones8 (i : Z) : outcome Z := rd ones_tab i.
(* src/include/elm/int.h:38-38 countOnes(t::uint16) *)
Definition ones16 (i : Z) : outcome Z :=
  a ← ones8 (u8 i); b ← ones8 (u8 (Z.shiftr i 8)); Ret (a + b).
(* src/include/elm/int.h:39-39 countOnes(t::uint32) *)
Definition ones32 (i : Z) : outcome Z :=
  a ← ones16 (u16 i); b ← ones16 (u16 (Z.shiftr i 16)); Ret (a + b).
(* src/include/elm/int.h:40-40 countOnes(t::uint64) *)
Definition ones64 (i : Z) : outcome Z :=
  a ← ones32 (u32 i); b ← ones32 (u32 (Z.shiftr i 32)); Ret (a + b).

(* src/src/int.cpp:127-132 msb tab *)
Definition msb_tab : list Z :=
  let LT n := replicate 16 n in
  [-1; 0; 1; 1; 2; 2; 2; 2; 3; 3; 3; 3; 3; 3; 3; 3]
  ++ LT 4 ++ LT 5 ++ LT 5 ++ LT 6 ++ LT 6 ++ LT 6 ++ LT 6
  ++ LT 7 ++ LT 7 ++ LT 7 ++ LT 7 ++ LT 7 ++ LT 7 ++ LT 7 ++ LT 7.

Arguments msb_tab : simpl never.

(* src/src/int.cpp:126-145 msb(t::uint32) *)
Definition msb32 (i : Z) : outcome Z :=
  let m := Z.shiftr i 16 in
  if negb (m =? 0) then
    let n := Z.shiftr m 8 in
    if negb (n =? 0) then t ← rd msb_tab n; Ret (t + 24)
    else t ← rd msb_tab m; Ret (t + 16)
  else
    let n := Z.shiftr i 8 in
    if negb (n =? 0) then t ← rd msb_tab n; Ret (t + 8)
    else rd msb_tab i.

(* src/src/int.cpp:154-160 msb(t::uint64) *)
Definition msb64 (i : Z) : outcome Z :=
  let uw := u32 (Z.shiftr i 32) in
  if negb (uw =? 0) then t ← msb32 uw; Ret (t + 32)
  else msb32 (u32 i).

(** The expression [1 << n] on the [int] constant 1. *)
Definition shl_int (n : Z) : outcome Z :=
  if (0 <=? n) && (n <? 32) then Ret (s32 (Z.shiftl 1 n)) else Crash Undefined.
Lemma shl_int_small n : 0 <= n <= 30 -> shl_int n = Ret (2 ^ n).
Proof.
  intros Hn. unfold shl_int. rewrite (proj2 (Z.leb_le _ _)), (proj2 (Z.ltb_lt _ _)) by lia. mred.
  rewrite Z.shiftl_1_l. assert (0 < 2 ^ n <= 2 ^ 30) as Hp.
  { split; [apply Z.pow_pos_nonneg; lia|apply Z.pow_le_mono_r; lia]. }
  change (2 ^ 30) with 1073741824 in Hp. unfold swrap.
  rewrite wrap_small by (unfold inw; change (2 ^ 32) with 4294967296; lia).
  cbn [Z.sub]. change (2 ^ (32 - 1)) with 2147483648. by rewrite (proj2 (Z.ltb_lt _ _)) by lia.
Qed.

(* src/src/int.cpp:226-234 leastUpperPowerOf2(t::uint32) *)
Definition leastUpperPowerOf2_32 (v : Z) : outcome Z :=
  m ← msb32 v;
  if m <? 0 then Ret 0
  else if v =? u32 (Z.shiftl 1 m) then Ret v
  else r ← shl_int (m + 1); Ret (u32 r).

(* src/src/int.cpp:244-252 leastUpperPowerOf2(t::uint64) *)
Definition leastUpperPowerOf2_64 (v : Z) : outcome Z :=
  m ← msb64 v;
  if m <? 0 then Ret 0
  else if v =? u64 (Z.shiftl 1 m) then Ret v
  else r ← shl_int (m + 1); Ret (u64 r).

(* src/src/int.cpp:263-267 mult(t::uint32, t::uint32, bool&) *)
Definition mult32 (a b : Z) : Z * bool :=
  let r := u32 (a * b) in (r, (r <? a) || (r <? b)).

(* src/src/int.cpp:278-282 mult(t::uint64, t::uint64, bool&) *)
Definition mult64 (a b : Z) : Z * bool :=
  let r := u64 (a * b) in (r, (r <? a) || (r <? b)).

(* src/include/elm/int.h:52-52 abs(t::int32) *)
Definition abs32 (v : Z) : outcome Z :=
  if 0 <=? v then Ret (u32 v)
  else if v =? - 2 ^ 31 then Crash Undefined else Ret (u32 (- v)).

(* src/include/elm/int.h:54-55 roundup *)
Definition roundup (v m : Z) : outcome Z :=
  if countOnes32 m =? 1 then
    Ret (Z.land (u32 (u32 (v + m) - 1)) (u32 (Z.lnot (u32 (m - 1)))))
  else if m =? 0 then Crash Undefined
  else Ret (u32 (u32 (u32 (v - 1) / m + 1) * m)).

(* src/include/elm/int.h:56-57 rounddown *)
Definition rounddown (v m : Z) : outcome Z :=
  if countOnes32 m =? 1 then Ret (Z.land v (u32 (Z.lnot (u32 (m - 1)))))
  else if m =? 0 then Crash Undefined
  else Ret (u32 (v / m * m)).

(** ** Lemmas *)

Definition msb_spec (v : Z) : Z := if v =? 0 then -1 else Z.log2 v.

Lemma msb_tab_spec n : 0 <= n < 256 -> rd msb_tab n = Ret (msb_spec n).
Proof.
  intros Hn.
  assert (Forall (fun k => rd msb_tab k = Ret (msb_spec k)) (seqZ 0 256)) as H
    by (vm_compute; repeat constructor).
  rewrite list.Forall_forall in H. apply H. apply elem_of_seqZ. lia.
Qed.

Lemma msb_spec_shiftr v k :
  0 <= k -> 0 <= v -> Z.shiftr v k <> 0 ->
  msb_spec (Z.shiftr v k) + k = msb_spec v.
Proof.
  intros Hk Hv Hs. unfold msb_spec.
  destruct (Z.eqb_spec (Z.shiftr v k) 0); [done|].
  destruct (Z.eqb_spec v 0) as [->|]; [by rewrite Z.shiftr_0_l in Hs|].
  rewrite Z.log2_shiftr by lia.
  assert (k <= Z.log2 v); [|lia].
  apply Z.log2_le_pow2; [lia|].
  rewrite Z.shiftr_div_pow2 in Hs by lia.
  destruct (Z.leb_spec (2 ^ k) v); [done|].
  rewrite Z.div_small in Hs by lia. done.
Qed.

Lemma shiftr_bounds v k b : 0 <= k -> 0 <= v < 2 ^ (k + b) -> 0 <= b ->
  0 <= Z.shiftr v k < 2 ^ b.
Proof.
  intros. rewrite Z.shiftr_div_pow2 by lia. rewrite Z.pow_add_r in * by lia.
  split; [apply Z.div_pos; lia|]. apply Z.div_lt_upper_bound; lia.
Qed.

Lemma shiftr_0_small v k : 0 <= k -> 0 <= v -> Z.shiftr v k = 0 -> v < 2 ^ k.
Proof.
  intros Hk Hv. rewrite Z.shiftr_div_pow2 by lia. intros H.
  apply Z.div_small_iff in H; lia.
Qed.

Lemma msb32_correct v : inw 32 v -> msb32 v = Ret (msb_spec v).
Proof.
  intros [H0 H1]. unfold msb32.
  destruct (Z.eqb_spec (Z.shiftr v 16) 0) as [E|E]; mred.
  - destruct (Z.eqb_spec (Z.shiftr v 8) 0) as [E'|E']; mred.
    + apply msb_tab_spec. split; [lia|]. by apply shiftr_0_small in E'.
    + rewrite msb_tab_spec; mred.
      * by rewrite msb_spec_shiftr.
      * apply shiftr_0_small in E; [|lia..]. by apply (shiftr_bounds v 8 8).
  - pose proof (shiftr_bounds v 16 16 ltac:(lia) ltac:(done) ltac:(lia)) as B.
    destruct (Z.eqb_spec (Z.shiftr (Z.shiftr v 16) 8) 0) as [E'|E']; mred.
    + rewrite msb_tab_spec; mred.
      * by rewrite msb_spec_shiftr.
      * split; [lia|]. apply shiftr_0_small in E'; lia.
    + rewrite Z.shiftr_shiftr in * by lia. replace (8 + 16) with 24 in * by lia. replace (16 + 8) with 24 in * by lia.
      rewrite msb_tab_spec; mred.
      * by rewrite msb_spec_shiftr.
      * by apply (shiftr_bounds v 24 8).
Qed.

Lemma msb64_correct v : inw 64 v -> msb64 v = Ret (msb_spec v).
Proof.
  intros [H0 H1]. unfold msb64.
  pose proof (shiftr_bounds v 32 32 ltac:(lia) ltac:(done) ltac:(lia)) as B.
  rewrite (wrap_small 32 (Z.shiftr v 32)) by done.
  destruct (Z.eqb_spec (Z.shiftr v 32) 0) as [E|E]; mred.
  - apply shiftr_0_small in E; [|lia..]. rewrite wrap_small by done.
    by apply msb32_correct.
  - rewrite msb32_correct by done. mred. by rewrite msb_spec_shiftr.
Qed.

(** ** Properties *)

(** [msb] gives the index of the most significant one of any 32- or 64-bit
    word (the base-2 logarithm), and -1 for 0; its table is never read out
    of its bounds. *)
Theorem msb_is_log2 v :
  (inw 32 v -> msb32 v = Ret (if v =? 0 then -1 else Z.log2 v)) /\
  (inw 64 v -> msb64 v = Ret (if v =? 0 then -1 else Z.log2 v)).
Proof. split; [apply msb32_correct | apply msb64_correct]. Qed.

Lemma msb_is_log2_witness : inw 32 40 /\ msb32 40 = Ret 5.
Proof. split; [vm_compute; split; congruence | apply (proj1 (msb_is_log2 40))]. vm_compute; split; congruence. Defined.

Lemma pow2_between v : 0 < v -> 2 ^ Z.log2 v <= v < 2 ^ (Z.log2 v + 1).
Proof. intros. pose proof (Z.log2_spec v ltac:(lia)). by rewrite <- Z.add_1_r in *. Qed.

Lemma shl_int_u32 n : 0 <= n < 32 -> exists r, shl_int n = Ret r /\ u32 r = 2 ^ n.
Proof.
  intros Hn. unfold shl_int.
  rewrite (proj2 (Z.leb_le _ _)), (proj2 (Z.ltb_lt _ _)) by lia. mred.
  eexists; split; [done|]. rewrite Z.shiftl_1_l. unfold swrap.
  pose proof (Z.pow_lt_mono_r 2 n 32 ltac:(lia) ltac:(lia) ltac:(lia)).
  pose proof (Z.pow_nonneg 2 n ltac:(lia)).
  rewrite (wrap_small 32 (2 ^ n)) by (unfold inw; lia).
  case_match; [by apply wrap_small|].
  unfold wrap. rewrite <- (Z.mod_add (2 ^ n - 2 ^ 32) 1) by lia.
  rewrite Z.mod_small; lia.
Qed.

Lemma least_upper_ok v :
  0 <= v <= 2 ^ 31 ->
  exists r, leastUpperPowerOf2_32 v = Ret r /\
    ((v = 0 /\ r = 0) \/
     (0 < v /\ exists k, 0 <= k /\ r = 2 ^ k /\ v <= r /\
        forall j, 0 <= j -> v <= 2 ^ j -> r <= 2 ^ j)).
Proof.
  intros Hv. unfold leastUpperPowerOf2_32.
  rewrite msb32_correct by (unfold inw; lia). mred. unfold msb_spec.
  destruct (Z.eqb_spec v 0) as [->|Hne]; [simpl; by eauto|].
  pose proof (pow2_between v ltac:(lia)) as [B1 B2].
  pose proof (Z.log2_nonneg v) as L0.
  destruct (Z.ltb_spec (Z.log2 v) 0); [lia|].
  assert (Z.log2 v <= 31) as L31.
  { replace 31 with (Z.log2 (2 ^ 31)) by done. apply Z.log2_le_mono. lia. }
  rewrite Z.shiftl_1_l, (wrap_small 32 (2 ^ Z.log2 v)) by (unfold inw; lia).
  destruct (Z.eqb_spec v (2 ^ Z.log2 v)) as [E|E].
  - exists v. split; [done|]. right. split; [lia|]. exists (Z.log2 v).
    split_and!; [lia|done|lia|]. done.
  - assert (Z.log2 v + 1 < 32) as L32.
    { destruct (Z.eq_dec (Z.log2 v) 31) as [E31|]; [|lia].
      rewrite E31 in *. lia. }
    destruct (shl_int_u32 (Z.log2 v + 1)) as (r & -> & Hr); [lia|]. mred.
    exists (u32 r). split; [done|]. right. split; [lia|].
    exists (Z.log2 v + 1). rewrite Hr. split_and!; [lia|done|lia|].
    intros j Hj Hle. apply Z.pow_le_mono_r; [lia|].
    destruct (Z.leb_spec (Z.log2 v + 1) j); [done|].
    pose proof (Z.pow_le_mono_r 2 j (Z.log2 v) ltac:(lia) ltac:(lia)). lia.
Qed.

(** For a 32-bit [v] of at most 2^31, [leastUpperPowerOf2] returns the least
    power of two that is not less than [v] (and 0 for 0). *)
Theorem leastUpperPowerOf2_least v :
  0 <= v <= 2 ^ 31 ->
  exists r, leastUpperPowerOf2_32 v = Ret r /\
    ((v = 0 /\ r = 0) \/
     (0 < v /\ exists k, 0 <= k /\ r = 2 ^ k /\ v <= r /\
        forall j, 0 <= j -> v <= 2 ^ j -> r <= 2 ^ j)).
Proof. apply least_upper_ok. Qed.

Lemma leastUpperPowerOf2_least_witness :
  0 <= 5 <= 2 ^ 31 /\ leastUpperPowerOf2_32 5 = Ret 8.
Proof.
  split; [lia|].
  destruct (leastUpperPowerOf2_least 5 ltac:(lia)) as (r & E & _).
  rewrite E. vm_compute in E. by injection E as <-.
Defined.

(** Above 2^31 the shift is by 32: undefined behaviour.  The 64-bit version
    shifts an [int] too, so it goes wrong from 2^30 on. *)
Example leastUpperPowerOf2_32_undefined :
  leastUpperPowerOf2_32 (2 ^ 31 + 1) = Crash Undefined.
Proof. reflexivity. Qed.
Example leastUpperPowerOf2_64_sign_extends :
  leastUpperPowerOf2_64 (2 ^ 30 + 1) = Ret (2 ^ 64 - 2 ^ 31).
Proof. reflexivity. Qed.
Example leastUpperPowerOf2_64_undefined :
  leastUpperPowerOf2_64 (2 ^ 40 + 1) = Crash Undefined.
Proof. reflexivity. Qed.

(** The overflow flag of [mult] misses products that wrap to a large word
    and is raised by products by 0. *)
Example mult32_misses_overflow : mult32 65537 65537 = (131073, false).
Proof. reflexivity. Qed.
Example mult32_false_alarm : mult32 3 0 = (0, true).
Proof. reflexivity. Qed.

(** *** Rounding to a multiple *)

Lemma popcount_0 n z :
  popcount n z = 0 -> forall i, 0 <= i < Z.of_nat n -> Z.testbit z i = false.
Proof.
  induction n as [|n IH]; intros H i Hi; [lia|]. cbn [popcount] in H.
  pose proof (popcount_bound n z).
  destruct (Z.testbit z (Z.of_nat n)) eqn:E; cbn in H; [lia|].
  destruct (Z.eq_dec i (Z.of_nat n)) as [->|]; [done|]. apply IH; lia.
Qed.

Lemma popcount_1 n z :
  popcount n z = 1 ->
  exists k, 0 <= k < Z.of_nat n /\
    forall i, 0 <= i < Z.of_nat n -> Z.testbit z i = (k =? i).
Proof.
  induction n as [|n IH]; intros H; [done|]. cbn [popcount] in H.
  destruct (Z.testbit z (Z.of_nat n)) eqn:E; cbn in H.
  - exists (Z.of_nat n). split; [lia|]. intros i Hi.
    destruct (Z.eqb_spec (Z.of_nat n) i) as [<-|]; [done|].
    apply (popcount_0 n); lia.
  - destruct IH as (k & Hk & HI); [lia|]. exists k. split; [lia|]. intros i Hi.
    destruct (Z.eqb_spec k i) as [<-|].
    + rewrite HI by lia. apply Z.eqb_refl.
    + destruct (Z.eq_dec i (Z.of_nat n)) as [->|]; [done|].
      rewrite HI by lia. by apply Z.eqb_neq.
Qed.

Lemma countOnes32_pow2 m :
  inw 32 m -> countOnes32 m = 1 -> exists k, 0 <= k < 32 /\ m = 2 ^ k.
Proof.
  intros Hm H. destruct (popcount_1 32 m H) as (k & Hk & HI).
  exists k. split; [lia|]. rewrite <- Z.shiftl_1_l.
  apply (word_ext 32); [done|by apply inw_shiftl_1|].
  intros i Hi. rewrite HI, testbit_shiftl_1 by lia. done.
Qed.

(** Masking with the complement of [2^k - 1] rounds down to a multiple. *)
Lemma land_lnot_word w x k :
  inw w x -> 0 <= k < w ->
  Z.land x (wrap w (Z.lnot (wrap w (2 ^ k - 1)))) = x / 2 ^ k * 2 ^ k.
Proof.
  intros Hx Hk. rewrite <- Z.shiftr_div_pow2, <- Z.shiftl_mul_pow2 by lia.
  replace (2 ^ k - 1) with (Z.ones k) by (rewrite Z.ones_equiv; lia).
  apply Z.bits_inj'. intros i Hi.
  rewrite Z.land_spec, testbit_wrap, Z.lnot_spec, testbit_wrap by lia.
  destruct (Z.ltb_spec i k).
  - rewrite Z.shiftl_spec_low by lia. rewrite Z.ones_spec_low by lia.
    destruct (i <? w) eqn:E; [|apply Z.ltb_ge in E; lia]. by rewrite andb_false_r.
  - rewrite Z.shiftl_spec_high, Z.shiftr_spec by lia.
    rewrite Z.ones_spec_high by lia. rewrite andb_false_r, andb_true_r.
    replace (i - k + k) with i by lia.
    destruct (Z.ltb_spec i w); [by rewrite andb_true_r|].
    rewrite (testbit_high w x) by done. done.
Qed.
Lemma land_lnot_ones x k :
  inw 32 x -> 0 <= k < 32 ->
  Z.land x (u32 (Z.lnot (u32 (2 ^ k - 1)))) = x / 2 ^ k * 2 ^ k.
Proof. apply land_lnot_word. Qed.

(** As long as the sum does not overflow, [roundup] (for a positive value)
    and [rounddown] return the nearest multiple of [m] above and below the
    value, by the bit trick for powers of two and by a division otherwise. *)
Theorem round_nearest_multiple v m :
  inw 32 v -> inw 32 m -> 0 < m ->
  (exists r, rounddown v m = Ret r /\ (m | r) /\ r <= v < r + m) /\
  (0 < v -> v + m <= 2 ^ 32 ->
   exists r, roundup v m = Ret r /\ (m | r) /\ r - m < v <= r).
Proof.
  unfold inw. intros Hv Hm H0. unfold rounddown, roundup.
  destruct (Z.eqb_spec (countOnes32 m) 1) as [E|E].
  - destruct (countOnes32_pow2 m Hm E) as (k & Hk & ->).
    pose proof (Z.pow_pos_nonneg 2 k ltac:(lia) ltac:(lia)).
    split; [|intros Hv0 Hs].
    + rewrite land_lnot_ones by done. eexists; split; [done|].
      pose proof (Z.div_mod v (2 ^ k) ltac:(lia)).
      pose proof (Z.mod_pos_bound v (2 ^ k) ltac:(lia)).
      split; [by apply Z.divide_factor_r|lia].
    + assert (u32 (u32 (v + 2 ^ k) - 1) = v + 2 ^ k - 1) as ->.
      { unfold wrap. rewrite Zminus_mod_idemp_l. apply Z.mod_small. lia. }
      rewrite land_lnot_ones by (unfold inw; lia). eexists; split; [done|].
      pose proof (Z.div_mod (v + 2 ^ k - 1) (2 ^ k) ltac:(lia)).
      pose proof (Z.mod_pos_bound (v + 2 ^ k - 1) (2 ^ k) ltac:(lia)).
      split; [by apply Z.divide_factor_r|lia].
  - destruct (Z.eqb_spec m 0); [lia|].
    split; [|intros Hv0 Hs].
    + pose proof (Z.div_mod v m ltac:(lia)).
      pose proof (Z.mod_pos_bound v m ltac:(lia)).
      pose proof (Z.div_pos v m ltac:(lia) ltac:(lia)). set (q := v / m) in *.
      rewrite wrap_small by (unfold inw; nia). eexists; split; [done|].
      split; [exists q; lia|nia].
    + rewrite (wrap_small 32 (v - 1)) by (unfold inw; lia).
      pose proof (Z.div_mod (v - 1) m ltac:(lia)).
      pose proof (Z.mod_pos_bound (v - 1) m ltac:(lia)).
      assert (0 <= (v - 1) / m) by (apply Z.div_pos; lia).
      assert ((v - 1) / m + 1 <= v) by nia.
      rewrite (wrap_small 32 ((v - 1) / m + 1)) by (unfold inw; lia).
      rewrite Z.mul_add_distr_r, Z.mul_1_l.
      set (q := (v - 1) / m) in *.
      rewrite wrap_small by (unfold inw; nia). eexists; split; [done|].
      split; [exists (q + 1); lia|nia].
Qed.

Lemma round_nearest_multiple_witness :
  inw 32 10 /\ inw 32 4 /\ inw 32 3 /\ roundup 10 4 = Ret 12 /\ rounddown 10 3 = Ret 9.
Proof.
  assert (inw 32 10 /\ inw 32 4 /\ inw 32 3) as (H1 & H2 & H3) by (unfold inw; lia).
  refine (conj H1 (conj H2 (conj H3 (conj _ _)))).
  - destruct (proj2 (round_nearest_multiple 10 4 H1 H2 ltac:(lia))) as (r & E & _); [lia..|].
    rewrite E. vm_compute in E. by injection E as <-.
  - destruct (proj1 (round_nearest_multiple 10 3 H1 H3 ltac:(lia))) as (r & E & _).
    rewrite E. vm_compute in E. by injection E as <-.
Defined.

(** Rounding 0 up to a multiple of a number that is not a power of two
    subtracts 1 from the unsigned 0. *)
Example roundup_0_wraps : roundup 0 3 = Ret 2.
Proof. reflexivity. Qed.

(** *** Counting the ones *)

Lemma ones_tab_spec n : 0 <= n < 256 -> rd ones_tab n = Ret (popcount 8 n).
Proof.
  intros Hn.
  assert (forallb (fun k => match rd ones_tab k with
                            | Ret x => x =? popcount 8 k | _ => false end)
            (seqZ 0 256) = true) as H by (vm_compute; reflexivity).
  rewrite forallb_forall in H. specialize (H n).
  destruct (rd ones_tab n); [|discriminate H; apply list_elem_of_In, elem_of_seqZ; lia].
  f_equal. apply Z.eqb_eq, H, list_elem_of_In, elem_of_seqZ. lia.
Qed.

Lemma popcount_wrap n z : popcount n (wrap (Z.of_nat n) z) = popcount n z.
Proof.
  apply popcount_ext. intros i Hi. rewrite testbit_wrap by lia.
  destruct (Z.ltb_spec i (Z.of_nat n)); [done|lia].
Qed.

Lemma popcount_half n z :
  popcount n (wrap (Z.of_nat n) z) +
  popcount n (wrap (Z.of_nat n) (Z.shiftr z (Z.of_nat n))) = popcount (n + n) z.
Proof. by rewrite !popcount_wrap, popcount_add. Qed.

Lemma ones8_popcount i : ones8 (u8 i) = Ret (popcount 8 (u8 i)).
Proof. apply ones_tab_spec. by apply wrap_inw. Qed.
Lemma ones16_popcount i : ones16 i = Ret (popcount 16 i).
Proof. unfold ones16. rewrite !ones8_popcount. mred. f_equal. apply (popcount_half 8). Qed.
Lemma ones32_popcount i : ones32 i = Ret (popcount 32 i).
Proof. unfold ones32. rewrite !ones16_popcount. mred. f_equal. apply (popcount_half 16). Qed.
Lemma ones64_popcount i : ones64 i = Ret (popcount 64 i).
Proof. unfold ones64. rewrite !ones32_popcount. mred. f_equal. apply (popcount_half 32). Qed.

(** The portable bit counters (a table of 256 entries applied to each byte
    of the halves of the word) agree with the compiler's population count, and
    never read out of the table. *)
Theorem ones_agree i :
  ones8 (u8 i) = Ret (countOnes8 (u8 i)) /\
  ones32 i = Ret (countOnes32 i) /\ ones64 i = Ret (countOnes64 i).
Proof. split_and!; [apply ones8_popcount | apply ones32_popcount | apply ones64_popcount]. Qed.
