(* ===== verification/BitVec.v ===== *)
(** * Bit vectors ([src/util_BitVector.cpp], [include/elm/util/BitVector.h])

    A vector of [bv_size] bits packed in bytes.  The private [mask()] method is
    [const] in C++ but clears the padding bits of the last byte in place, so
    the observers that call it return the updated object too.  The members
    under [#ifdef EXPERIMENTAL] are not compiled and not modelled. *)

From S2P Require Import Prelude Ints.

(* src/include/elm/util/BitVector.h:190-192 BitVector *)
Record BitVector := mkBV { bv_bits : list Z; bv_size : Z }.

(** ** Layout *)

(* src/include/elm/util/BitVector.h:194-197 inWords *)
Definition BitVector_inWords (s : Z) : Z := Z.shiftr (s + 8 - 1) 3.
(* src/include/elm/util/BitVector.h:197-197 wcount *)
Definition BitVector_wcount (v : BitVector) : Z := BitVector_inWords (bv_size v).
(* src/include/elm/util/BitVector.h:198-198 windex *)
Definition BitVector_windex (i : Z) : Z := Z.shiftr i 3.
(* src/include/elm/util/BitVector.h:199-199 bindex *)
Definition BitVector_bindex (i : Z) : Z := Z.land i (8 - 1).
(* src/include/elm/util/BitVector.h:201-205 mask *)
Definition BitVector_mask (v : BitVector) : outcome BitVector :=
  let m := Z.shiftr 255 (8 - BitVector_bindex (bv_size v)) in
  if negb (m =? 0) then
    w ← rd (bv_bits v) (BitVector_wcount v - 1);
    l ← wr (bv_bits v) (BitVector_wcount v - 1) (Z.land w m);
    Ret (mkBV l (bv_size v))
  else Ret v.

(** ** Construction and copy; [new_mem n] is what [new word_t[n]] returns *)

(* src/include/elm/util/BitVector.h:34-34 BitVector::BitVector *)
Definition BitVector_empty : BitVector := mkBV [] 0.

(* src/src/util_BitVector.cpp:46-51 BitVector::BitVector *)
Definition BitVector_make (size : Z) (set : bool) : outcome BitVector :=
  assertP (0 <? size) ;;
  Ret (mkBV (replicate (Z.to_nat (BitVector_inWords size)) (if set then 255 else 0)) size).

Section WithMemory.
Context (new_mem : Z -> list Z).

(* src/src/util_BitVector.cpp:59-63 BitVector::BitVector *)
Definition BitVector_clone (vec : BitVector) : outcome BitVector :=
  l ← memcpy (new_mem (BitVector_wcount vec)) 0 (bv_bits vec) (BitVector_wcount vec);
  Ret (mkBV l (bv_size vec)).

(* src/src/util_BitVector.cpp:71-82 BitVector::BitVector *)
Definition BitVector_cloneResized (vec : BitVector) (new_size : Z) : outcome BitVector :=
  assertP (0 <? new_size) ;;
  let n := BitVector_inWords new_size in
  if bv_size vec <=? new_size then
    l ← memcpy (new_mem n) 0 (bv_bits vec) (bv_size vec);
    l ← memset l (BitVector_wcount vec) 0 (n - BitVector_wcount vec);
    Ret (mkBV l new_size)
  else
    l ← memcpy (new_mem n) 0 (bv_bits vec) n;
    BitVector_mask (mkBV l new_size).

(* src/src/util_BitVector.cpp:512-523 BitVector::resize *)
Definition BitVector_resize (v : BitVector) (new_size : Z) : outcome BitVector :=
  let n := BitVector_inWords new_size in
  if negb (BitVector_wcount v =? n) then
    l ← memcpy (new_mem n) 0 (bv_bits v) (Z.min (BitVector_wcount v) n);
    Ret (mkBV l new_size)
  else Ret (mkBV (bv_bits v) new_size).

(* src/src/util_BitVector.cpp:211-214 BitVector::copy *)
Definition BitVector_copy (v vec : BitVector) : outcome BitVector :=
  assertP (bv_size v =? bv_size vec) ;;
  l ← memcpy (bv_bits v) 0 (bv_bits vec) (BitVector_wcount v);
  Ret (mkBV l (bv_size v)).

(* src/src/util_BitVector.cpp:88-103 BitVector::operator= *)
Definition BitVector_assign (v vec : BitVector) : outcome BitVector :=
  if negb (BitVector_wcount v =? 0) && (BitVector_wcount v =? BitVector_wcount vec) then
    BitVector_copy v vec
  else match bv_bits vec with
  | [] => Ret (mkBV [] (bv_size v))
  | _ => BitVector_copy (mkBV (new_mem (BitVector_wcount vec)) (bv_size vec)) vec
  end.
End WithMemory.

(** ** Bits *)

(* src/include/elm/util/BitVector.h:41-44 BitVector::bit *)
Definition BitVector_bit (v : BitVector) (i : Z) : outcome bool :=
  assertP (i <? bv_size v) ;;
  w ← rd (bv_bits v) (BitVector_windex i);
  Ret (negb (Z.land w (Z.shiftl 1 (BitVector_bindex i)) =? 0)).

(* src/include/elm/util/BitVector.h:60-61 BitVector::set *)
Definition BitVector_set (v : BitVector) (i : Z) : outcome BitVector :=
  assertP (i <? bv_size v) ;;
  w ← rd (bv_bits v) (BitVector_windex i);
  l ← wr (bv_bits v) (BitVector_windex i) (u8 (Z.lor w (Z.shiftl 1 (BitVector_bindex i))));
  Ret (mkBV l (bv_size v)).

(* src/include/elm/util/BitVector.h:64-65 BitVector::clear *)
Definition BitVector_clear (v : BitVector) (i : Z) : outcome BitVector :=
  assertP (i <? bv_size v) ;;
  w ← rd (bv_bits v) (BitVector_windex i);
  l ← wr (bv_bits v) (BitVector_windex i)
        (u8 (Z.land w (Z.lnot (Z.shiftl 1 (BitVector_bindex i)))));
  Ret (mkBV l (bv_size v)).

(* src/include/elm/util/BitVector.h:62-63 BitVector::set *)
Definition BitVector_setTo (v : BitVector) (i : Z) (value : bool) : outcome BitVector :=
  assertP (i <? bv_size v) ;;
  if value then BitVector_set v i else BitVector_clear v i.

(* src/include/elm/util/BitVector.h:144-153 BitVector::Ref *)
Definition BitVector_Ref_set (v : BitVector) (i : Z) (b : bool) : outcome BitVector :=
  if b then BitVector_set v i else BitVector_clear v i.

(* src/src/util_BitVector.cpp:184-187 BitVector::set *)
Definition BitVector_setAll (v : BitVector) : outcome BitVector :=
  l ← memset (bv_bits v) 0 255 (BitVector_wcount v);
  BitVector_mask (mkBV l (bv_size v)).

(* src/src/util_BitVector.cpp:220-222 BitVector::clear *)
Definition BitVector_clearAll (v : BitVector) : outcome BitVector :=
  l ← memset (bv_bits v) 0 0 (BitVector_wcount v);
  Ret (mkBV l (bv_size v)).

(** ** Comparisons *)

(* src/include/elm/util/BitVector.h:46-51 BitVector::isEmpty *)
Definition BitVector_isEmpty (v : BitVector) : outcome (BitVector * bool) :=
  v ← BitVector_mask v;
  r ← scan 0 (BitVector_wcount v) (fun i =>
        w ← rd (bv_bits v) i;
        Ret (if negb (w =? 0) then Some false else None));
  Ret (v, default true r).

(* src/src/util_BitVector.cpp:134-141 BitVector::includes *)
Definition BitVector_includes (v vec : BitVector) : outcome (BitVector * bool) :=
  assertP (bv_size v =? bv_size vec) ;;
  v ← BitVector_mask v;
  r ← scan 0 (BitVector_wcount v) (fun i =>
        a ← rd (bv_bits v) i; b ← rd (bv_bits vec) i;
        Ret (if negb (Z.land (Z.lnot a) b =? 0) then Some false else None));
  Ret (v, default true r).

(* src/src/util_BitVector.cpp:149-160 BitVector::includesStrictly *)
Definition BitVector_includesStrictly (v vec : BitVector) : outcome (BitVector * bool) :=
  assertP (bv_size v =? bv_size vec) ;;
  v ← BitVector_mask v;
  r ← loop 0 (BitVector_wcount v) (fun i r =>
        match r with
        | Some equal =>
            a ← rd (bv_bits v) i; b ← rd (bv_bits vec) i;
            Ret (if negb (Z.land (Z.lnot a) b =? 0) then None
                 else Some (if negb (a =? b) then false else equal))
        | None => Ret None                           (* returned false *)
        end) (Some true);
  Ret (v, match r with Some equal => negb equal | None => false end).

(* src/src/util_BitVector.cpp:168-175 BitVector::equals *)
Definition BitVector_equals (v vec : BitVector) : outcome (BitVector * bool) :=
  assertP (bv_size v =? bv_size vec) ;;
  v ← BitVector_mask v;
  r ← scan 0 (BitVector_wcount v) (fun i =>
        a ← rd (bv_bits v) i; b ← rd (bv_bits vec) i;
        Ret (if negb (a =? b) then Some false else None));
  Ret (v, default true r).

(* src/src/util_BitVector.cpp:462-468 BitVector::meets *)
Definition BitVector_meets (v bv : BitVector) : outcome bool :=
  r ← scan 0 (Z.min (BitVector_wcount v) (BitVector_wcount bv)) (fun i =>
        a ← rd (bv_bits v) i; b ← rd (bv_bits bv) i;
        Ret (if negb (Z.land a b =? 0) then Some true else None));
  Ret (default false r).

(** ** Word-wise operations *)

(** [for(i = 0; i < wcount(); i++) bits[i] = f(bits[i], vec.bits[i]);] *)
Definition apply_words (f : Z -> Z -> Z) (v vec : BitVector) : outcome BitVector :=
  assertP (bv_size v =? bv_size vec) ;;
  l ← loop 0 (BitVector_wcount v) (fun i l =>
        a ← rd l i; b ← rd (bv_bits vec) i; wr l i (f a b)) (bv_bits v);
  Ret (mkBV l (bv_size v)).

(** [BitVector res(_size); for(...) res.bits[i] = f(bits[i], vec.bits[i]);] *)
Definition make_words (f : Z -> Z -> Z) (v vec : BitVector) : outcome BitVector :=
  assertP (bv_size v =? bv_size vec) ;;
  res ← BitVector_make (bv_size v) false;
  l ← loop 0 (BitVector_wcount v) (fun i l =>
        a ← rd (bv_bits v) i; b ← rd (bv_bits vec) i; wr l i (f a b)) (bv_bits res);
  Ret (mkBV l (bv_size v)).

(* src/src/util_BitVector.cpp:241-245 BitVector::applyOr *)
Definition BitVector_applyOr : BitVector -> BitVector -> outcome BitVector :=
  apply_words (fun a b => u8 (Z.lor a b)).
(* src/src/util_BitVector.cpp:253-257 BitVector::applyAnd *)
Definition BitVector_applyAnd : BitVector -> BitVector -> outcome BitVector :=
  apply_words (fun a b => u8 (Z.land a b)).
(* src/src/util_BitVector.cpp:266-271 BitVector::applyReset *)
Definition BitVector_applyReset (v vec : BitVector) : outcome BitVector :=
  v ← apply_words (fun a b => u8 (Z.land a (Z.lnot b))) v vec;
  BitVector_mask v.
(* src/src/util_BitVector.cpp:229-232 BitVector::applyNot *)
Definition BitVector_applyNot (v : BitVector) : outcome BitVector :=
  l ← loop 0 (BitVector_wcount v) (fun i l => a ← rd l i; wr l i (u8 (Z.lnot a))) (bv_bits v);
  Ret (mkBV l (bv_size v)).
(* src/src/util_BitVector.cpp:292-298 BitVector::makeOr *)
Definition BitVector_makeOr : BitVector -> BitVector -> outcome BitVector :=
  make_words (fun a b => u8 (Z.lor a b)).
(* src/src/util_BitVector.cpp:307-313 BitVector::makeAnd *)
Definition BitVector_makeAnd : BitVector -> BitVector -> outcome BitVector :=
  make_words (fun a b => u8 (Z.land a b)).
(* src/src/util_BitVector.cpp:322-328 BitVector::makeReset *)
Definition BitVector_makeReset : BitVector -> BitVector -> outcome BitVector :=
  make_words (fun a b => u8 (Z.land a (Z.lnot b))).
(* src/src/util_BitVector.cpp:279-284 BitVector::makeNot *)
Definition BitVector_makeNot (v : BitVector) : outcome BitVector :=
  vec ← BitVector_make (bv_size v) false;
  l ← loop 0 (BitVector_wcount v) (fun i l =>
        a ← rd (bv_bits v) i; wr l i (u8 (Z.lnot a))) (bv_bits vec);
  Ret (mkBV l (bv_size v)).

(** ** Counting, printing, iterators *)

(* src/src/util_BitVector.cpp:493-498 BitVector::countOnes *)
Definition BitVector_countOnes (v : BitVector) : outcome Z :=
  loop 0 (BitVector_wcount v) (fun i cnt => w ← rd (bv_bits v) i; Ret (cnt + countOnes8 w)) 0.
(* src/src/util_BitVector.cpp:449-454 BitVector::countBits *)
Definition BitVector_countBits (v : BitVector) : outcome Z :=
  loop 0 (BitVector_wcount v) (fun i cnt => w ← rd (bv_bits v) i; Ret (cnt + countOnes8 w)) 0.
(* src/include/elm/util/BitVector.h:97-97 BitVector::countZeroes *)
Definition BitVector_countZeroes (v : BitVector) : outcome Z :=
  b ← BitVector_countBits v; o ← BitVector_countOnes v; Ret (b - o).

(* src/src/util_BitVector.cpp:437-443 BitVector::print *)
Definition BitVector_print (v : BitVector) : outcome str :=
  loop 0 (bv_size v) (fun k (out : str) =>
    let i := bv_size v - 1 - k in
    b ← BitVector_bit v i;
    Ret (out ++ [if (b : bool) then ch "1" else ch "0"]
             ++ (if Z.land i 7 =? 0 then [ch " "] else []))) [].

(* src/include/elm/util/BitVector.h:102-102 BitVector::Iter::ended *)
Definition BitVector_ended (v : BitVector) (i : Z) : bool := bv_size v <=? i.

(** [do i++; while(i < size && bit(i) != stop)]. *)
Definition seek (stop : bool) (v : BitVector) (i : Z) : outcome Z :=
  iter (S (Z.to_nat (bv_size v - i))) (fun i =>
    let i := i + 1 in
    if i <? bv_size v then
      b ← BitVector_bit v i;
      Ret (if Bool.eqb b stop then inr i else inl i)
    else Ret (inr i)) i.

(* src/include/elm/util/BitVector.h:120-128 BitVector::OneIterator::next *)
Definition OneIterator_next : BitVector -> Z -> outcome Z := seek true.
(* src/include/elm/util/BitVector.h:122-122 BitVector::OneIterator::OneIterator *)
Definition OneIterator_make (v : BitVector) (ii : Z) : outcome Z := OneIterator_next v (ii - 1).
(* src/include/elm/util/BitVector.h:133-141 BitVector::ZeroIterator::next *)
Definition ZeroIterator_next : BitVector -> Z -> outcome Z := seek false.
(* src/include/elm/util/BitVector.h:135-135 BitVector::ZeroIterator::ZeroIterator *)
Definition ZeroIterator_make (v : BitVector) : outcome Z := ZeroIterator_next v (-1).

(** [for(OneIterator i(v); i(); i++) l.add( *i)]. *)
Definition iterate_ones (v : BitVector) : outcome (list Z) :=
  i ← OneIterator_make v 0;
  iter (S (Z.to_nat (bv_size v))) (fun '(i, l) =>
    if BitVector_ended v i then Ret (inr l)
    else j ← OneIterator_next v i; Ret (inl (j, l ++ [i]))) (i, []).

(** ** The bits of a vector, and its invariant *)

Definition word_at (l : list Z) (n : Z) : Z := default 0 (l !! Z.to_nat n).
Definition bits_at (l : list Z) (i : Z) : bool := Z.testbit (word_at l (i / 8)) (i mod 8).
Definition bv_get (v : BitVector) (i : Z) : bool := bits_at (bv_bits v) i.

(** The block has the right number of bytes, each of which is a byte. *)
Record bv_wf (v : BitVector) : Prop := {
  bv_size_pos : 0 <= bv_size v;
  bv_length : zlen (bv_bits v) = BitVector_wcount v;
  bv_bytes : Forall (inw 8) (bv_bits v) }.

(** The padding bits are 0. *)
Definition bv_masked (v : BitVector) : Prop := forall i, bv_size v <= i -> bv_get v i = false.

(** Same size and same bits, padding apart. *)
Definition bv_eq (v w : BitVector) : Prop :=
  bv_size v = bv_size w /\ forall i, 0 <= i < bv_size v -> bv_get v i = bv_get w i.

#[export] Instance bv_eq_equiv : Equivalence bv_eq.
Proof.
  split.
  - by intros v.
  - intros v w [E H]. split; [done|]. intros i Hi. rewrite H by lia. done.
  - intros u v w [E1 H1] [E2 H2]. split; [congruence|].
    intros i Hi. rewrite H1 by lia. apply H2. lia.
Qed.

Lemma wcount_div v : BitVector_wcount v = (bv_size v + 7) / 8.
Proof. unfold BitVector_wcount, BitVector_inWords. rewrite shiftr_div8. f_equal. lia. Qed.
Lemma windex_div i : BitVector_windex i = i / 8.
Proof. apply shiftr_div8. Qed.
Lemma bindex_mod i : BitVector_bindex i = i mod 8.
Proof. apply land_mod8. Qed.

Lemma word_in l n : Forall (inw 8) l -> inw 8 (word_at l n).
Proof.
  intros Hl. unfold word_at. destruct (l !! Z.to_nat n) eqn:E; [|done].
  by eapply Forall_lookup_1.
Qed.

Lemma rd_word l n : 0 <= n < zlen l -> rd l n = Ret (word_at l n).
Proof.
  intros Hn. destruct (rd_runs l n Hn) as [x E]. rewrite E.
  apply rd_inv in E as [_ E]. unfold word_at. by rewrite E.
Qed.

Lemma word_at_insert l n m x :
  0 <= n < zlen l -> 0 <= m ->
  word_at (<[Z.to_nat n := x]> l) m = if m =? n then x else word_at l m.
Proof.
  intros Hn Hm. unfold word_at. destruct (Z.eqb_spec m n) as [->|].
  - by rewrite list_lookup_insert_eq by lia.
  - by rewrite list_lookup_insert_ne by lia.
Qed.

Lemma bits_at_word l n k : 0 <= k < 8 -> bits_at l (8 * n + k) = Z.testbit (word_at l n) k.
Proof.
  intros Hk. unfold bits_at.
  replace ((8 * n + k) / 8) with n by dlia. by replace ((8 * n + k) mod 8) with k by dlia.
Qed.

Lemma bits_at_out l i : 8 * zlen l <= i -> bits_at l i = false.
Proof.
  intros Hi. unfold bits_at, word_at. rewrite lookup_ge_None_2 by dlia. apply Z.bits_0.
Qed.

(** Two vectors of words are compared bit by bit. *)
Lemma words_bits (l k : list Z) (R : bool -> bool -> Prop) n :
  (forall w, 0 <= w < n -> forall b, 0 <= b < 8 ->
     R (Z.testbit (word_at l w) b) (Z.testbit (word_at k w) b)) <->
  (forall i, 0 <= i < 8 * n -> R (bits_at l i) (bits_at k i)).
Proof.
  split.
  - intros H i Hi. apply H; dlia.
  - intros H w Hw b Hb. rewrite <- !bits_at_word by done. apply H. lia.
Qed.

Ltac bv_case := rewrite ?wcount_div, ?windex_div, ?bindex_mod in *.

Lemma BitVector_make_clear size : 0 < size ->
  exists v, BitVector_make size false = Ret v /\ bv_wf v /\ bv_size v = size /\ forall n, 0 <= n -> bv_get v n = false.
Proof.
  intros Hs. unfold BitVector_make. rewrite (proj2 (Z.ltb_lt _ _)) by done. mred.
  eexists. split; [done|]. split; [|split; [done|]].
  - split; cbn; [lia| |].
    + rewrite length_replicate. unfold BitVector_wcount. cbn. unfold BitVector_inWords.
      rewrite Z2Nat.id; [done|]. rewrite shiftr_div8. apply Z.div_pos; lia.
    + apply Forall_replicate. unfold inw. lia.
  - intros n Hn. unfold bv_get, bits_at, word_at. cbn. destruct (_ !! _) as [x|] eqn:E; cbn.
    + apply lookup_replicate in E as [-> _]. apply Z.bits_0.
    + apply Z.bits_0.
Qed.

Section Wf.
Context (v : BitVector) (Hv : bv_wf v).

Lemma wf_rd n : 0 <= n < BitVector_wcount v -> rd (bv_bits v) n = Ret (word_at (bv_bits v) n).
Proof. intros. apply rd_word. by rewrite (bv_length v Hv). Qed.

Lemma wf_windex i : 0 <= i < bv_size v -> 0 <= i / 8 < BitVector_wcount v.
Proof. intros. bv_case. dlia. Qed.

Lemma wf_len : zlen (bv_bits v) = (bv_size v + 7) / 8.
Proof. rewrite (bv_length v Hv). apply wcount_div. Qed.

Lemma BitVector_bit_ok i : 0 <= i < bv_size v -> BitVector_bit v i = Ret (bv_get v i).
Proof.
  intros Hi. unfold BitVector_bit. rewrite (proj2 (Z.ltb_lt _ _)) by lia. mred.
  rewrite windex_div, wf_rd by by apply wf_windex. mred.
  rewrite bindex_mod, land_bit_test by dlia. done.
Qed.

(** Writing the byte of bit [i]. *)
Lemma put_byte i x :
  0 <= i < bv_size v -> inw 8 x ->
  exists l, wr (bv_bits v) (i / 8) x = Ret l /\ bv_wf (mkBV l (bv_size v)) /\
    forall j, 0 <= j -> bits_at l j = if j / 8 =? i / 8 then Z.testbit x (j mod 8) else bv_get v j.
Proof.
  intros Hi Hx. pose proof (wf_windex i Hi) as Hw. pose proof wf_len as HL.
  rewrite <- (bv_length v Hv) in Hw. rewrite wr_ok by done.
  eexists; split; [done|]. destruct Hv as [H0 Hl Hb]. split.
  - split; cbn; [done| |by apply Forall_insert]. rewrite length_insert. exact Hl.
  - intros j Hj. unfold bv_get, bits_at. rewrite word_at_insert by dlia.
    by destruct (j / 8 =? i / 8).
Qed.

Lemma BitVector_set_ok i :
  0 <= i < bv_size v ->
  exists v', BitVector_set v i = Ret v' /\ bv_wf v' /\ bv_size v' = bv_size v /\
    forall j, 0 <= j -> bv_get v' j = (j =? i) || bv_get v j.
Proof.
  intros Hi. unfold BitVector_set. rewrite (proj2 (Z.ltb_lt _ _)) by lia. mred.
  rewrite windex_div, bindex_mod, wf_rd by by apply wf_windex. mred.
  destruct (put_byte i (u8 (Z.lor (word_at (bv_bits v) (i / 8)) (Z.shiftl 1 (i mod 8)))))
    as (l & -> & Hl & Hb); [done|by apply wrap_inw|]. mred.
  eexists; split; [done|]. split_and!; [done|done|]. intros j Hj.
  change (bv_get (mkBV l _) j) with (bits_at l j). rewrite Hb by done.
  rewrite testbit_wrap, Z.lor_spec, testbit_shiftl_1 by dlia.
  rewrite (proj2 (Z.ltb_lt (j mod 8) 8)) by dlia. unfold bv_get, bits_at.
  destruct (Z.eqb_spec (j / 8) (i / 8)) as [E|].
  - cbn. rewrite E, orb_comm. f_equal. apply eq_true_iff_eq. rewrite !Z.eqb_eq. dlia.
  - destruct (Z.eqb_spec j i) as [->|]; [done|]. done.
Qed.

Lemma BitVector_clear_ok i :
  0 <= i < bv_size v ->
  exists v', BitVector_clear v i = Ret v' /\ bv_wf v' /\ bv_size v' = bv_size v /\
    forall j, 0 <= j -> bv_get v' j = negb (j =? i) && bv_get v j.
Proof.
  intros Hi. unfold BitVector_clear. rewrite (proj2 (Z.ltb_lt _ _)) by lia. mred.
  rewrite windex_div, bindex_mod, wf_rd by by apply wf_windex. mred.
  destruct (put_byte i (u8 (Z.land (word_at (bv_bits v) (i / 8))
    (Z.lnot (Z.shiftl 1 (i mod 8)))))) as (l & -> & Hl & Hb); [done|by apply wrap_inw|].
  mred. eexists; split; [done|]. split_and!; [done|done|]. intros j Hj.
  change (bv_get (mkBV l _) j) with (bits_at l j). rewrite Hb by done.
  rewrite testbit_wrap, Z.land_spec, Z.lnot_spec, testbit_shiftl_1 by dlia.
  rewrite (proj2 (Z.ltb_lt (j mod 8) 8)) by dlia. unfold bv_get, bits_at.
  destruct (Z.eqb_spec (j / 8) (i / 8)) as [E|].
  - cbn. rewrite E, andb_comm. do 2 f_equal. apply eq_true_iff_eq. rewrite !Z.eqb_eq. dlia.
  - destruct (Z.eqb_spec j i) as [->|]; [done|]. done.
Qed.

(** [mask()] clears the padding and nothing else. *)
Lemma BitVector_mask_ok :
  exists v', BitVector_mask v = Ret v' /\ bv_wf v' /\ bv_masked v' /\ bv_eq v' v.
Proof.
  unfold BitVector_mask. rewrite bindex_mod. pose proof wf_len as HL.
  destruct Hv as [H0 Hl Hb].
  destruct (Z.eq_dec (bv_size v mod 8) 0) as [E|E].
  - rewrite E. cbn. exists v. split_and!; [done|done| |done].
    intros i Hi. apply bits_at_out. dlia.
  - assert (Z.shiftr 255 (8 - bv_size v mod 8) = Z.ones (bv_size v mod 8)) as ->.
    { assert (0 < bv_size v mod 8 < 8) as B by dlia. clear E.
      set (m := bv_size v mod 8) in *. clearbody m.
      assert (m = 1 \/ m = 2 \/ m = 3 \/ m = 4 \/ m = 5 \/ m = 6 \/ m = 7) as D by lia.
      by repeat destruct D as [->|D]; [..|subst m]. }
    assert (Z.ones (bv_size v mod 8) <> 0) as Hne.
    { rewrite Z.ones_equiv. assert (1 < 2 ^ (bv_size v mod 8)); [|lia].
      apply Z.pow_gt_1; dlia. }
    rewrite (proj2 (Z.eqb_neq _ _) Hne). mred.
    rewrite wf_rd by (bv_case; dlia). mred.
    replace (BitVector_wcount v - 1) with ((bv_size v - 1) / 8) by (bv_case; dlia).
    destruct (put_byte (bv_size v - 1) (Z.land (word_at (bv_bits v) ((bv_size v - 1) / 8))
      (Z.ones (bv_size v mod 8)))) as (l & -> & Hwf & Hb').
    { dlia. }
    { apply inw_land_l; [done|]. by apply word_in. }
    mred. eexists; split; [done|]. split; [done|]. split; [|split; [done|]]; cbn.
    + intros i Hi. change (bv_get (mkBV l _) i) with (bits_at l i). cbn in Hi.
      rewrite Hb' by lia. destruct (Z.eqb_spec (i / 8) ((bv_size v - 1) / 8)).
      * rewrite Z.land_spec, Z.ones_spec_high by dlia. by rewrite andb_false_r.
      * apply bits_at_out. dlia.
    + intros i Hi. change (bv_get (mkBV l _) i) with (bits_at l i).
      rewrite Hb' by lia. destruct (Z.eqb_spec (i / 8) ((bv_size v - 1) / 8)) as [E'|]; [|done].
      rewrite Z.land_spec, Z.ones_spec_low by dlia. rewrite andb_true_r, <- E'. done.
Qed.
End Wf.

(** *** Word-wise operations are bit-wise operations *)

Definition bitwise (f : Z -> Z -> Z) (g : bool -> bool -> bool) : Prop :=
  forall a b, inw 8 a -> inw 8 b -> inw 8 (f a b) /\
    forall k, 0 <= k < 8 -> Z.testbit (f a b) k = g (Z.testbit a k) (Z.testbit b k).

(** [r] is the bit-wise image of [v] and [w]. *)
Definition bits_are (g : bool -> bool -> bool) (v w r : BitVector) : Prop :=
  bv_wf r /\ bv_size r = bv_size v /\
  forall i, 0 <= i -> bv_get r i = g (bv_get v i) (bv_get w i).

Lemma bitwise_or : bitwise (fun a b => u8 (Z.lor a b)) orb.
Proof.
  intros a b _ _. split; [by apply wrap_inw|]. intros k Hk.
  by rewrite testbit_wrap, Z.lor_spec, (proj2 (Z.ltb_lt _ _)) by lia.
Qed.
Lemma bitwise_and : bitwise (fun a b => u8 (Z.land a b)) andb.
Proof.
  intros a b _ _. split; [by apply wrap_inw|]. intros k Hk.
  by rewrite testbit_wrap, Z.land_spec, (proj2 (Z.ltb_lt _ _)) by lia.
Qed.
Lemma bitwise_reset : bitwise (fun a b => u8 (Z.land a (Z.lnot b))) (fun x y => x && negb y).
Proof.
  intros a b _ _. split; [by apply wrap_inw|]. intros k Hk.
  by rewrite testbit_wrap, Z.land_spec, Z.lnot_spec, (proj2 (Z.ltb_lt _ _)) by lia.
Qed.

Lemma zip_words f g v w :
  bitwise f g -> g false false = false -> bv_wf v -> bv_wf w -> bv_size v = bv_size w ->
  bits_are g v w (mkBV (zip_with f (bv_bits v) (bv_bits w)) (bv_size v)).
Proof.
  intros Hf Hg Hv Hw E. pose proof (wf_len v Hv) as Lv. pose proof (wf_len w Hw) as Lw.
  assert (length (bv_bits v) = length (bv_bits w)) as EL by (rewrite <- E in Lw; lia).
  split; [|split; [done|]].
  - split; cbn; [apply Hv| |].
    + rewrite length_zip_with, <- EL, Nat.min_id. apply Hv.
    + apply Forall_lookup_2. intros n x Hx. rewrite lookup_zip_with in Hx.
      destruct (bv_bits v !! n) eqn:E1; [|done]. destruct (bv_bits w !! n) eqn:E2; [|done].
      injection Hx as <-.
      apply Hf; [eapply Forall_lookup_1; [apply Hv|done] | eapply Forall_lookup_1; [apply Hw|done]].
  - intros i Hi. unfold bv_get. cbn. destruct (Z.ltb_spec i (8 * zlen (bv_bits v))).
    + unfold bits_at, word_at. rewrite lookup_zip_with.
      destruct (lookup_lt_is_Some_2 (bv_bits v) (Z.to_nat (i / 8))) as [x Hx]; [dlia|].
      destruct (lookup_lt_is_Some_2 (bv_bits w) (Z.to_nat (i / 8))) as [y Hy]; [dlia|].
      rewrite Hx, Hy. cbn.
      apply Hf; [eapply Forall_lookup_1; [apply Hv|done]
                |eapply Forall_lookup_1; [apply Hw|done] |dlia].
    + rewrite !bits_at_out by (rewrite ?length_zip_with; lia). done.
Qed.

(** The loops that write, word after word, the image by [f]. *)
Lemma zip_loop f v w (l0 : list Z) body :
  bv_wf v -> bv_wf w -> bv_size v = bv_size w -> zlen l0 = BitVector_wcount v ->
  (forall i (l : list Z), 0 <= i < BitVector_wcount v -> length l = length l0 ->
     l !! Z.to_nat i = l0 !! Z.to_nat i ->
     body i l = wr l i (f (word_at (bv_bits v) i) (word_at (bv_bits w) i))) ->
  loop 0 (BitVector_wcount v) body l0 = Ret (zip_with f (bv_bits v) (bv_bits w)).
Proof.
  intros Hv Hw E H0 Hb. pose proof (wf_len v Hv). pose proof (wf_len w Hw).
  pose proof (bv_length v Hv). rewrite E in *.
  apply loop_update; [done|rewrite length_zip_with; lia|]. intros i l Hi Hl El.
  eexists; split; [|by apply Hb]. rewrite lookup_zip_with. unfold word_at.
  destruct (lookup_lt_is_Some_2 (bv_bits v) (Z.to_nat i)) as [x Hx]; [lia|].
  destruct (lookup_lt_is_Some_2 (bv_bits w) (Z.to_nat i)) as [y Hy]; [lia|].
  by rewrite Hx, Hy.
Qed.

Lemma apply_words_ok f g v w :
  bitwise f g -> g false false = false -> bv_wf v -> bv_wf w -> bv_size v = bv_size w ->
  exists r, apply_words f v w = Ret r /\ bits_are g v w r.
Proof.
  intros Hf Hg Hv Hw E. unfold apply_words. rewrite (proj2 (Z.eqb_eq _ _) E). mred.
  rewrite (zip_loop f v w); try done.
  - mred. eexists; split; [done|]. by apply zip_words.
  - apply Hv.
  - intros i l Hi Hl El. pose proof (bv_length v Hv). pose proof (bv_length w Hw).
    assert (BitVector_wcount v = BitVector_wcount w) by (unfold BitVector_wcount; congruence).
    rewrite !rd_word by lia. mred. unfold word_at. by rewrite El.
Qed.

Lemma make_words_ok f g v w :
  bitwise f g -> g false false = false -> bv_wf v -> bv_wf w -> bv_size v = bv_size w ->
  0 < bv_size v ->
  exists r, make_words f v w = Ret r /\ bits_are g v w r.
Proof.
  intros Hf Hg Hv Hw E H0. unfold make_words, BitVector_make.
  rewrite (proj2 (Z.eqb_eq _ _) E), (proj2 (Z.ltb_lt _ _) H0). mred.
  rewrite (zip_loop f v w); try done.
  - mred. eexists; split; [done|]. by apply zip_words.
  - cbn. rewrite length_replicate. pose proof (bv_length v Hv).
    unfold BitVector_wcount in *. lia.
  - intros i l Hi Hl El. pose proof (bv_length v Hv). pose proof (bv_length w Hw).
    assert (BitVector_wcount v = BitVector_wcount w) by (unfold BitVector_wcount; congruence).
    by rewrite !rd_word by lia.
Qed.

Lemma bits_are_masked g v w r :
  g false false = false -> bits_are g v w r -> bv_size v = bv_size w -> 0 <= bv_size v ->
  bv_masked v -> bv_masked w -> bv_masked r.
Proof.
  intros Hg (_ & Es & Hr) E H0 Mv Mw i Hi. rewrite Hr, Mv, Mw by lia. done.
Qed.

(** *** Comparisons *)

(** On bytes, [~a & b] is 0 when the ones of [b] are ones of [a]. *)
Lemma land_zero a b :
  inw 8 b -> 
  Z.land a b = 0 <-> (forall k, 0 <= k < 8 -> Z.testbit b k = true -> Z.testbit a k = false).
Proof.
  intros Hb. split.
  - intros H k Hk E. assert (Z.testbit (Z.land a b) k = false) as H1
      by (rewrite H; apply Z.bits_0).
    by rewrite Z.land_spec, E, andb_true_r in H1.
  - intros H. apply Z.bits_inj'. intros k Hk. rewrite Z.land_spec, Z.bits_0.
    destruct (Z.testbit b k) eqn:E; [|by rewrite andb_false_r].
    destruct (Z.ltb_spec k 8); [by rewrite H|]. by rewrite (testbit_high 8) in E.
Qed.

Lemma word_eqb a b :
  inw 8 a -> inw 8 b ->
  (a =? b) = true <-> (forall k, 0 <= k < 8 -> Z.testbit a k = Z.testbit b k).
Proof.
  intros Ha Hb. rewrite Z.eqb_eq. split; [by intros ->|]. intros H. by apply (word_ext 8).
Qed.

(** The loop that stops on the first word whose test fails: it returns [x] when
    some word fails. *)
Lemma scan_all (l k : list Z) n (c : Z -> Z -> bool) (x : bool) p :
  (forall i, 0 <= i < n ->
     p i = Ret (if c (word_at l i) (word_at k i) then None else Some x)) ->
  exists r, scan 0 n p = Ret r /\
    (r = None \/ r = Some x) /\
    (r = None <-> forall i, 0 <= i < n -> c (word_at l i) (word_at k i) = true).
Proof.
  intros Hp. destruct (scan_spec _ _ _ _ Hp) as (r & -> & Hr). exists r. split; [done|].
  destruct r as [y|].
  - destruct Hr as (i & Hi & E & _). destruct (c _ _) eqn:Ec; [done|]. injection E as <-.
    split; [by right|]. split; [done|]. intros H. by rewrite H in Ec.
  - split; [by left|]. split; [|done]. intros _ i Hi. specialize (Hr i Hi).
    by destruct (c _ _).
Qed.

Section Compare.
Context (v w : BitVector) (Hv : bv_wf v) (Hw : bv_wf w).
Context (E : bv_size v = bv_size w) (Mw : bv_masked w).

Lemma same_wcount : BitVector_wcount v = BitVector_wcount w.
Proof. unfold BitVector_wcount. congruence. Qed.

(** [c] is a test of words that holds when [R] holds on each bit. *)
Lemma compare_ok (c : Z -> Z -> bool) (R : bool -> bool -> Prop) v' :
  (forall a b, inw 8 a -> inw 8 b ->
     c a b = true <-> forall k, 0 <= k < 8 -> R (Z.testbit a k) (Z.testbit b k)) ->
  R false false -> bv_wf v' -> bv_masked v' -> bv_eq v' v ->
  (forall i, 0 <= i < BitVector_wcount v' ->
     c (word_at (bv_bits v') i) (word_at (bv_bits w) i) = true) <->
  (forall i, 0 <= i < bv_size v -> R (bv_get v i) (bv_get w i)).
Proof.
  intros Hc HR Hv' Mv' [Es Eb].
  transitivity (forall i, 0 <= i < BitVector_wcount v' -> forall k, 0 <= k < 8 ->
    R (Z.testbit (word_at (bv_bits v') i) k) (Z.testbit (word_at (bv_bits w) i) k)).
  { assert (forall i, c (word_at (bv_bits v') i) (word_at (bv_bits w) i) = true <->
      forall k, 0 <= k < 8 ->
      R (Z.testbit (word_at (bv_bits v') i) k) (Z.testbit (word_at (bv_bits w) i) k)) as Hi.
    { intros i. apply Hc; apply word_in; [apply Hv'|apply Hw]. }
    split; intros H i Hb; by apply Hi, H. }
  rewrite words_bits.
  change (bits_at (bv_bits v')) with (bv_get v'). change (bits_at (bv_bits w)) with (bv_get w).
  assert (BitVector_wcount v' = BitVector_wcount v) as -> by (unfold BitVector_wcount; congruence).
  split; intros H i Hi.
  - rewrite <- Eb by lia. apply H. pose proof (wf_windex v i Hi). dlia.
  - destruct (Z.ltb_spec i (bv_size v)).
    + rewrite Eb by lia. apply H. lia.
    + unfold bv_masked in *. rewrite Mv', Mw by lia. done.
Qed.

Lemma empty_word a (b : Z) :
  inw 8 a ->
  (a =? 0) = true <-> forall k, 0 <= k < 8 -> Z.testbit a k = false.
Proof.
  intros Ha. rewrite (word_eqb a 0) by done. split; intros H k Hk; by rewrite H, Z.bits_0.
Qed.

Lemma includes_word a b :
  inw 8 a -> inw 8 b ->
  (Z.land (Z.lnot a) b =? 0) = true <->
  forall k, 0 <= k < 8 -> Z.testbit b k = true -> Z.testbit a k = true.
Proof.
  intros Ha Hb. rewrite Z.eqb_eq, land_zero by done. split; intros H k Hk Ht.
  - specialize (H k Hk Ht). rewrite Z.lnot_spec in H by lia. by apply negb_false_iff.
  - rewrite Z.lnot_spec, H by lia || done. done.
Qed.

(** The tests, once the vector is masked. *)
Context (v' : BitVector) (Hm : BitVector_mask v = Ret v').
Context (Hv' : bv_wf v') (Mv' : bv_masked v') (Ev' : bv_eq v' v).

Lemma masked_wcount : BitVector_wcount v' = BitVector_wcount w.
Proof. unfold BitVector_wcount. destruct Ev'. congruence. Qed.

Lemma scan_test (c : Z -> Z -> bool) (R : bool -> bool -> Prop) p :
  (forall a b, inw 8 a -> inw 8 b ->
     c a b = true <-> forall k, 0 <= k < 8 -> R (Z.testbit a k) (Z.testbit b k)) ->
  R false false ->
  (forall i, 0 <= i < BitVector_wcount v' ->
     p i = Ret (if c (word_at (bv_bits v') i) (word_at (bv_bits w) i)
                then None else Some false)) ->
  exists r, scan 0 (BitVector_wcount v') p = Ret r /\
    (default true r = true <-> forall i, 0 <= i < bv_size v -> R (bv_get v i) (bv_get w i)).
Proof.
  intros Hc HR Hp. destruct (scan_all _ _ _ c false p Hp) as (r & -> & D & Hr).
  exists r. split; [done|].
  rewrite <- (compare_ok c R v') by done. rewrite <- Hr. by destruct D as [->| ->].
Qed.

Lemma rd_both i : 0 <= i < BitVector_wcount v' ->
  rd (bv_bits v') i = Ret (word_at (bv_bits v') i) /\
  rd (bv_bits w) i = Ret (word_at (bv_bits w) i).
Proof.
  intros Hi. split; apply wf_rd; try done. by rewrite <- masked_wcount.
Qed.

Lemma isEmpty_ok : exists b, BitVector_isEmpty v = Ret (v', b) /\
  (b = true <-> forall i, 0 <= i < bv_size v -> bv_get v i = false).
Proof.
  unfold BitVector_isEmpty. rewrite Hm. mred.
  edestruct (scan_test (fun a _ => a =? 0) (fun x _ => x = false)) as (r & -> & Hr);
    [intros; by apply empty_word|done| |mred; by eauto].
  intros i Hi. cbn. destruct (rd_both i Hi) as [-> _]. mred. by destruct (_ =? 0).
Qed.

Lemma includes_ok : exists b, BitVector_includes v w = Ret (v', b) /\
  (b = true <-> forall i, 0 <= i < bv_size v -> bv_get w i = true -> bv_get v i = true).
Proof.
  unfold BitVector_includes. rewrite Hm, (proj2 (Z.eqb_eq _ _) E). mred.
  edestruct (scan_test (fun a b => Z.land (Z.lnot a) b =? 0)
    (fun x y => y = true -> x = true)) as (r & -> & Hr);
    [intros; by apply includes_word|done| |mred; by eauto].
  intros i Hi. cbn. destruct (rd_both i Hi) as [-> ->]. mred. by destruct (_ =? 0).
Qed.

Lemma equals_ok : exists b, BitVector_equals v w = Ret (v', b) /\
  (b = true <-> forall i, 0 <= i < bv_size v -> bv_get v i = bv_get w i).
Proof.
  unfold BitVector_equals. rewrite Hm, (proj2 (Z.eqb_eq _ _) E). mred.
  edestruct (scan_test Z.eqb eq) as (r & -> & Hr);
    [intros; by apply word_eqb|done| |mred; by eauto].
  intros i Hi. cbn. destruct (rd_both i Hi) as [-> ->]. mred. by destruct (_ =? _).
Qed.

(** The result of [includesStrictly] is the one of two loops in one. *)
Lemma includesStrictly_ok : exists b, BitVector_includesStrictly v w = Ret (v', b) /\
  (b = true <-> (forall i, 0 <= i < bv_size v -> bv_get w i = true -> bv_get v i = true) /\
                ~ (forall i, 0 <= i < bv_size v -> bv_get v i = bv_get w i)).
Proof.
  unfold BitVector_includesStrictly. rewrite Hm, (proj2 (Z.eqb_eq _ _) E). mred.
  set (inc i := Z.land (Z.lnot (word_at (bv_bits v') i)) (word_at (bv_bits w) i) =? 0).
  set (equ i := word_at (bv_bits v') i =? word_at (bv_bits w) i).
  loop_with (fun i r => match r with
    | None => exists j, 0 <= j < i /\ inc j = false
    | Some e => (forall j, 0 <= j < i -> inc j = true) /\
                (e = true <-> forall j, 0 <= j < i -> equ j = true) end).
  - bv_case. destruct Hv'. dlia.
  - split; [intros; lia|]. split; [intros; lia|done].
  - intros i r Hi Hr. cbn beta. destruct (rd_both i Hi) as [-> ->]. mred.
    fold (inc i) (equ i). destruct r as [e|]; [|eexists; split; [done|];
      destruct Hr as (j & Hj & Ej); exists j; split; [lia|done]].
    destruct Hr as [H1 H2]. eexists; split; [done|].
    destruct (inc i) eqn:Ei; cbn; [|exists i; split; [lia|done]].
    assert (forall P : Z -> Prop, (forall j, 0 <= j < i + 1 -> P j) <->
              (forall j, 0 <= j < i -> P j) /\ P i) as Hstep.
    { intros P. split; [intros H; split; [intros; apply H; lia|apply H; lia]|].
      intros [Ha Hb] j Hj. destruct (Z.eq_dec j i) as [->|]; [done|apply Ha; lia]. }
    rewrite !Hstep. split; [done|]. destruct (equ i) eqn:Eq; cbn; [tauto|].
    split; [done|]. by intros [_ ?].
  - mred. eexists; split; [done|].
    pose proof (compare_ok _ (fun x y => y = true -> x = true) v'
                  includes_word ltac:(done) Hv' Mv' Ev') as C1.
    pose proof (compare_ok _ eq v' word_eqb eq_refl Hv' Mv' Ev') as C2.
    cbn beta in C1, C2. rewrite <- C1, <- C2.
    destruct r as [e|].
    + destruct Hr as [H1 H2]. destruct e; cbn.
      * split; [done|]. intros [_ H]. destruct H. by apply H2.
      * split; [|done]. intros _. split; [done|]. intros H. by apply H2 in H.
    + destruct Hr as (j & Hj & Ej). split; [done|]. intros [H _]. unfold inc in Ej.
      by rewrite H in Ej.
Qed.
End Compare.

(** *** Iterators *)

(** [i] is the first position after [i0] holding [stop], or the end. *)
Definition next_at (stop : bool) (v : BitVector) (i0 i : Z) : Prop :=
  i0 < i <= bv_size v /\ (i < bv_size v -> bv_get v i = stop) /\
  forall j, i0 < j < i -> bv_get v j = negb stop.

Lemma seek_ok stop v i0 :
  bv_wf v -> -1 <= i0 < bv_size v ->
  exists i, seek stop v i0 = Ret i /\ next_at stop v i0 i.
Proof.
  intros Hv Hi. unfold seek.
  apply (iter_total (fun i => i0 <= i < bv_size v /\ forall j, i0 < j <= i -> bv_get v j = negb stop)
    (fun i => Z.to_nat (bv_size v - i))); [|split; [lia|intros; lia]|lia].
  intros i [Hb Hj]. cbn. destruct (Z.ltb_spec (i + 1) (bv_size v)).
  - rewrite BitVector_bit_ok by (done || lia). mred. eexists; split; [done|].
    destruct (bv_get v (i + 1)) eqn:Eb, stop; cbn;
      try (split_and!; [lia|lia|done|intros; apply Hj; lia]);
      (split; [split; [lia|]|lia]; intros j Hj'; 
       destruct (Z.eq_dec j (i + 1)) as [->|]; [done|apply Hj; lia]).
  - eexists; split; [done|]. assert (i + 1 = bv_size v) as Ei by lia.
    cbn. split_and!; [lia|lia|lia|]. intros j Hj'. apply Hj. lia.
Qed.

(** The positions of the ones in [a, b). *)
Definition ones_in (v : BitVector) (a b : Z) : list Z :=
  filter (fun i => bv_get v i = true) (seqZ a (b - a)).

Lemma ones_in_app v a b c :
  a <= b <= c -> ones_in v a c = ones_in v a b ++ ones_in v b c.
Proof.
  intros H. unfold ones_in. rewrite <- list.filter_app. f_equal.
  replace (c - a) with ((b - a) + (c - b)) by lia. rewrite seqZ_app by lia.
  do 2 f_equal; lia.
Qed.
Lemma ones_in_none v a b : (forall j, a <= j < b -> bv_get v j = false) -> ones_in v a b = [].
Proof.
  intros H. unfold ones_in. apply filter_none.
  intros j Hj. apply elem_of_seqZ in Hj. rewrite H by lia. done.
Qed.
Lemma ones_in_one v a : bv_get v a = true -> ones_in v a (a + 1) = [a].
Proof.
  intros H. unfold ones_in. replace (a + 1 - a) with 1 by lia.
  change (seqZ a 1) with [Z.of_nat 0 + a]. rewrite Z.add_0_l. by rewrite filter_cons_True.
Qed.

Lemma iterate_ones_ok v : bv_wf v -> iterate_ones v = Ret (ones_in v 0 (bv_size v)).
Proof.
  intros Hv. pose proof (bv_size_pos v Hv) as H0. unfold iterate_ones, OneIterator_make.
  unfold OneIterator_next.
  assert (exists i, seek true v (0 - 1) = Ret i /\ 0 <= i <= bv_size v /\
    (i < bv_size v -> bv_get v i = true) /\ forall j, 0 <= j < i -> bv_get v j = false)
    as (i & -> & Hi & Hb & Hj).
  { destruct (seek_ok true v (0 - 1)) as (i & -> & Hr & Hb & Hj); [done|lia|].
    exists i. split; [done|]. split; [lia|]. split; [done|]. intros j Hj'. apply Hj. lia. }
  mred.
  assert (forall s, (let '(i, l) := s in 0 <= i <= bv_size v /\
      (i < bv_size v -> bv_get v i = true) /\ l = ones_in v 0 i) ->
    exists r, (let '(i, l) := s in
      if BitVector_ended v i then Ret (inr l)
      else j ← seek true v i; Ret (inl (j, l ++ [i]))) = Ret r /\
      match r with
      | inl s' => (let '(i, l) := s' in 0 <= i <= bv_size v /\
          (i < bv_size v -> bv_get v i = true) /\ l = ones_in v 0 i) /\
          (Z.to_nat (bv_size v - s'.1) < Z.to_nat (bv_size v - s.1))%nat
      | inr l => l = ones_in v 0 (bv_size v)
      end) as Hstep.
  { intros [k l] (Hk & Hbk & ->). unfold BitVector_ended.
    destruct (Z.leb_spec (bv_size v) k).
    - eexists; split; [done|]. cbn. f_equal. lia.
    - destruct (seek_ok true v k) as (k' & -> & Hr & Hb' & Hj'); [done|lia|]. mred.
      eexists; split; [done|]. cbn. split; [|lia]. split_and!; [lia|lia|done|].
      rewrite (ones_in_app v 0 k k') by lia. f_equal.
      rewrite (ones_in_app v k (k + 1) k'), ones_in_one by (apply Hbk || idtac; lia).
      rewrite (ones_in_none v (k + 1)); [done|]. intros j ?. apply Hj'. lia. }
  destruct (iter_total _ _ _ _ Hstep (S (Z.to_nat (bv_size v))) (i, [])) as (l & E & El).
  - split_and!; [lia|lia|done|]. by rewrite ones_in_none.
  - cbn. lia.
  - cbn in El. rewrite <- El. exact E.
Qed.

(** *** Counting *)

Lemma popcount_ones_in v n :
  Forall (inw 8) (bv_bits v) -> 0 <= n ->
  Z.of_nat (length (ones_in v (8 * n) (8 * n + 8))) = popcount 8 (word_at (bv_bits v) n).
Proof.
  intros Hv Hn.
  assert (forall m : nat, (m <= 8)%nat -> 
    Z.of_nat (length (ones_in v (8 * n) (8 * n + Z.of_nat m)))
      = popcount m (word_at (bv_bits v) n)) as H; [|by apply (H 8%nat)].
  induction m as [|m IH]; intros Hm.
  - by rewrite ones_in_none by lia.
  - rewrite (ones_in_app v (8 * n) (8 * n + Z.of_nat m)) by lia.
    rewrite length_app, Nat2Z.inj_add, IH by lia. cbn [popcount].
    rewrite <- (bits_at_word _ n) by lia. rewrite Nat2Z.inj_succ.
    replace (8 * n + Z.succ (Z.of_nat m)) with (8 * n + Z.of_nat m + 1) by lia.
    change (bits_at (bv_bits v)) with (bv_get v).
    destruct (bv_get v (8 * n + Z.of_nat m)) eqn:E.
    + rewrite ones_in_one by done. cbn. lia.
    + rewrite ones_in_none; [cbn; lia|]. intros j Hj.
      by replace j with (8 * n + Z.of_nat m) by lia.
Qed.

Lemma countOnes_words v :
  bv_wf v ->
  BitVector_countOnes v = Ret (Z.of_nat (length (ones_in v 0 (8 * BitVector_wcount v)))).
Proof.
  intros Hv. unfold BitVector_countOnes.
  loop_with (fun i cnt => cnt = Z.of_nat (length (ones_in v 0 (8 * i)))).
  - rewrite wcount_div. destruct Hv. dlia.
  - done.
  - intros i cnt Hi ->. rewrite wf_rd by done. mred. eexists; split; [done|].
    replace (8 * (i + 1)) with (8 * i + 8) by lia.
    rewrite (ones_in_app v 0 (8 * i) (8 * i + 8)), length_app, Nat2Z.inj_add by lia. f_equal.
    unfold countOnes8. by rewrite popcount_ones_in by (apply Hv || lia).
  - by subst.
Qed.

Lemma ones_in_padding v :
  bv_wf v -> bv_masked v ->
  ones_in v 0 (8 * BitVector_wcount v) = ones_in v 0 (bv_size v).
Proof.
  intros Hv Mv. pose proof (bv_size_pos v Hv). rewrite wcount_div.
  rewrite (ones_in_app v 0 (bv_size v)) by dlia.
  rewrite (ones_in_none v (bv_size v)), app_nil_r; [done|]. intros. apply Mv. lia.
Qed.

(** ** Properties *)

(** [C32] Setting and clearing bit [i] of a well-formed vector succeeds, keeps
    the vector well formed and its padding clear, gives bit [i] the value
    asked for and leaves all the other bits; reading a bit then returns it. *)
Theorem BitVector_update_bit v i b :
  bv_wf v -> 0 <= i < bv_size v ->
  exists v', BitVector_setTo v i b = Ret v' /\ BitVector_Ref_set v i b = Ret v' /\
    bv_wf v' /\ bv_size v' = bv_size v /\ (bv_masked v -> bv_masked v') /\
    BitVector_bit v' i = Ret b /\
    forall j, 0 <= j < bv_size v -> j <> i -> BitVector_bit v' j = BitVector_bit v j.
Proof.
  intros Hv Hi. unfold BitVector_setTo, BitVector_Ref_set.
  rewrite (proj2 (Z.ltb_lt _ _)) by lia. mred.
  assert (exists v', (if b then BitVector_set v i else BitVector_clear v i) = Ret v' /\
    bv_wf v' /\ bv_size v' = bv_size v /\
    forall j, 0 <= j -> bv_get v' j = if j =? i then b else bv_get v j)
    as (v' & E & Hv' & Es & Hb).
  { destruct b.
    - destruct (BitVector_set_ok v Hv i Hi) as (v' & -> & ? & ? & Hb).
      exists v'. split; [done|]. split; [done|]. split; [done|].
      intros j Hj. rewrite Hb by done. by destruct (_ =? _).
    - destruct (BitVector_clear_ok v Hv i Hi) as (v' & -> & ? & ? & Hb).
      exists v'. split; [done|]. split; [done|]. split; [done|].
      intros j Hj. rewrite Hb by done. by destruct (_ =? _). }
  exists v'. split_and!; try done.
  - intros Mv j Hj. rewrite Hb by lia. destruct (Z.eqb_spec j i); [lia|]. apply Mv. lia.
  - rewrite BitVector_bit_ok, Hb, Z.eqb_refl by (done || lia). done.
  - intros j Hj Hne. rewrite !BitVector_bit_ok, Hb by (done || lia).
    by rewrite (proj2 (Z.eqb_neq _ _) Hne).
Qed.

Lemma BitVector_update_bit_witness :
  exists v, BitVector_setTo (mkBV [3; 0] 10) 9 true = Ret v /\ BitVector_bit v 9 = Ret true.
Proof.
  destruct (BitVector_update_bit (mkBV [3; 0] 10) 9 true) as (v & E & _ & _ & _ & _ & B & _).
  - split; [done|done|]. repeat constructor; done.
  - done.
  - eauto.
Defined.

(** The union, intersection and difference of two vectors of the same size,
    in place or in a new vector, are those of their bits; the results are
    well formed, and have clear padding as soon as the arguments have it. *)
Theorem BitVector_bitwise_ops v w :
  bv_wf v -> bv_wf w -> bv_size v = bv_size w -> 0 < bv_size v ->
  (exists r, BitVector_makeOr v w = Ret r /\ BitVector_applyOr v w = Ret r /\
     bits_are orb v w r /\ (bv_masked v -> bv_masked w -> bv_masked r)) /\
  (exists r, BitVector_makeAnd v w = Ret r /\ BitVector_applyAnd v w = Ret r /\
     bits_are andb v w r /\ (bv_masked v -> bv_masked w -> bv_masked r)) /\
  (exists r, BitVector_makeReset v w = Ret r /\
     bits_are (fun x y => x && negb y) v w r /\ (bv_masked v -> bv_masked w -> bv_masked r)) /\
  (exists r, BitVector_applyReset v w = Ret r /\ bv_wf r /\ bv_masked r /\
     forall i, 0 <= i < bv_size v -> bv_get r i = bv_get v i && negb (bv_get w i)).
Proof.
  intros Hv Hw E H0.
  assert (forall f g, bitwise f g -> g false false = false ->
    apply_words f v w = make_words f v w) as Hsame.
  { intros f g Hf Hg. destruct (apply_words_ok f g v w) as (r & E1 & B1); try done.
    destruct (make_words_ok f g v w) as (r' & E2 & B2); try done.
    rewrite E1, E2. unfold apply_words, make_words in *.
    rewrite (proj2 (Z.eqb_eq _ _) E) in *. mred.
    revert E1 E2. mred. unfold BitVector_make. rewrite (proj2 (Z.ltb_lt _ _) H0). mred.
    rewrite !(zip_loop f v w); try done; try apply Hv.
    - mred. congruence.
    - pose proof (bv_length v Hv). cbn. rewrite length_replicate.
      unfold BitVector_wcount in *. lia.
    - intros i l Hi _ _. by rewrite (wf_rd v), (wf_rd w) by
        (done || by rewrite <- (same_wcount v w)).
    - intros i l Hi Hl El. pose proof (bv_length v Hv).
      rewrite (wf_rd w) by (done || by rewrite <- (same_wcount v w)).
      rewrite rd_word by lia. mred. unfold word_at. by rewrite El. }
  split_and!.
  - destruct (make_words_ok _ _ v w bitwise_or eq_refl Hv Hw E H0) as (r & E1 & B).
    exists r. unfold BitVector_makeOr, BitVector_applyOr.
    rewrite (Hsame _ _ bitwise_or eq_refl), E1. split_and!; try done.
    intros. apply (bits_are_masked orb v w); try done. lia.
  - destruct (make_words_ok _ _ v w bitwise_and eq_refl Hv Hw E H0) as (r & E1 & B).
    exists r. unfold BitVector_makeAnd, BitVector_applyAnd.
    rewrite (Hsame _ _ bitwise_and eq_refl), E1. split_and!; try done.
    intros. apply (bits_are_masked andb v w); try done. lia.
  - destruct (make_words_ok _ _ v w bitwise_reset eq_refl Hv Hw E H0) as (r & E1 & B).
    exists r. unfold BitVector_makeReset. rewrite E1. split_and!; try done.
    intros. apply (bits_are_masked (fun x y => x && negb y) v w); try done. lia.
  - unfold BitVector_applyReset.
    destruct (apply_words_ok _ _ v w bitwise_reset eq_refl Hv Hw E) as (r & -> & Hr & Es & B).
    mred. destruct (BitVector_mask_ok r Hr) as (r' & -> & Hr' & Mr' & Es' & Eb).
    exists r'. split_and!; try done. intros i Hi. rewrite Eb, B by lia. done.
Qed.

Lemma BitVector_bitwise_ops_witness :
  exists r, BitVector_makeReset (mkBV [7; 1] 9) (mkBV [2; 0] 9) = Ret r /\ bv_masked r.
Proof.
  assert (bv_wf (mkBV [7; 1] 9) /\ bv_wf (mkBV [2; 0] 9)) as [H1 H2]
    by (split; (split; [done|done|repeat constructor; done])).
  destruct (BitVector_bitwise_ops (mkBV [7; 1] 9) (mkBV [2; 0] 9) H1 H2 eq_refl ltac:(done))
    as (_ & _ & (r & E & _) & _).
  exists r. split; [done|]. vm_compute in E. injection E as <-.
  intros i Hi. cbn in Hi. unfold bv_get, bits_at, word_at. cbn.
  destruct (Z.eq_dec (i / 8) 1) as [Ei|].
  - rewrite Ei. apply (testbit_high 1); [done|]. dlia.
  - rewrite lookup_ge_None_2 by (cbn; dlia). apply Z.bits_0.
Defined.

(** The comparisons of a vector with one of the same size and clear padding
    decide emptiness, inclusion, strict inclusion and equality of their sets
    of bits; the vector they mask in passing keeps its bits. *)
Theorem BitVector_comparisons v w :
  bv_wf v -> bv_wf w -> bv_size v = bv_size w -> bv_masked w ->
  exists v' be bi bs bq, bv_wf v' /\ bv_masked v' /\ bv_eq v' v /\
    let sub := forall i, 0 <= i < bv_size v -> bv_get w i = true -> bv_get v i = true in
    let same := forall i, 0 <= i < bv_size v -> bv_get v i = bv_get w i in
    BitVector_isEmpty v = Ret (v', be) /\
      (be = true <-> forall i, 0 <= i < bv_size v -> bv_get v i = false) /\
    BitVector_includes v w = Ret (v', bi) /\ (bi = true <-> sub) /\
    BitVector_includesStrictly v w = Ret (v', bs) /\ (bs = true <-> sub /\ ~ same) /\
    BitVector_equals v w = Ret (v', bq) /\ (bq = true <-> same).
Proof.
  intros Hv Hw E Mw. destruct (BitVector_mask_ok v Hv) as (v' & Hm & Hv' & Mv' & Ev').
  destruct (isEmpty_ok v w Hw E Mw v' Hm Hv' Mv' Ev') as (be & ? & ?).
  destruct (includes_ok v w Hw E Mw v' Hm Hv' Mv' Ev') as (bi & ? & ?).
  destruct (includesStrictly_ok v w Hw E Mw v' Hm Hv' Mv' Ev') as (bs & ? & ?).
  destruct (equals_ok v w Hw E Mw v' Hm Hv' Mv' Ev') as (bq & ? & ?).
  exists v', be, bi, bs, bq. by split_and!.
Qed.

Lemma BitVector_comparisons_witness :
  exists v', BitVector_includes (mkBV [255; 255] 9) (mkBV [2; 1] 9) = Ret (v', true).
Proof.
  destruct (BitVector_comparisons (mkBV [255; 255] 9) (mkBV [2; 1] 9))
    as (v' & be & bi & bs & bq & _ & _ & _ & _ & _ & E & _).
  1,2: split; [done|done|repeat constructor; done].
  - done.
  - intros i Hi. cbn in Hi. unfold bv_get, bits_at, word_at. cbn.
    destruct (Z.eq_dec (i / 8) 1) as [Ei|].
    + rewrite Ei. apply (testbit_high 1); [done|]. dlia.
    + rewrite lookup_ge_None_2 by (cbn; dlia). apply Z.bits_0.
  - exists v'. rewrite E. vm_compute in E. by injection E as <- <-.
Defined.

(** The iterator on the ones visits exactly the positions of the ones, in
    increasing order, and ends; [countOnes] is their number when the padding
    is clear. *)
Theorem BitVector_ones_enumerated v :
  bv_wf v ->
  exists l, iterate_ones v = Ret l /\
    (forall i, i ∈ l <-> 0 <= i < bv_size v /\ bv_get v i = true) /\
    (forall n m x y, (n < m)%nat -> l !! n = Some x -> l !! m = Some y -> x < y) /\
    (bv_masked v -> BitVector_countOnes v = Ret (zlen l)).
Proof.
  intros Hv. exists (ones_in v 0 (bv_size v)). split_and!.
  - by apply iterate_ones_ok.
  - intros i. unfold ones_in. rewrite list_elem_of_filter, elem_of_seqZ.
    split; (intros [? ?]; split; [done || lia|done || lia]).
  - intros n m x y. apply StronglySorted_lookup.
    apply StronglySorted_filter_Z, seqZ_strongly_sorted.
  - intros Mv. by rewrite countOnes_words, ones_in_padding.
Qed.

Lemma BitVector_ones_enumerated_witness :
  iterate_ones (mkBV [130; 1] 9) = Ret [1; 7; 8].
Proof.
  destruct (BitVector_ones_enumerated (mkBV [130; 1] 9)) as (l & E & _).
  - split; [done|done|repeat constructor; done].
  - rewrite E. vm_compute in E. by injection E as <-.
Defined.

(** *** What goes wrong *)

(** Enlarging a copy copies [_size] bytes instead of [wcount()]. *)
Example cloneResized_overflows :
  BitVector_cloneResized (fun n => replicate (Z.to_nat n) 0) (mkBV [3] 8) 10
    = Crash OutOfBounds.
Proof. reflexivity. Qed.

(** The complement leaves ones in the padding; the comparisons mask only their
    left operand, so a full vector differs from the complement of an empty
    one, and a complemented vector counts too many ones. *)
Example makeNot_not_masked :
  BitVector_makeNot (mkBV [0] 3) = Ret (mkBV [255] 3) /\
  BitVector_equals (mkBV [7] 3) (mkBV [255] 3) = Ret (mkBV [7] 3, false) /\
  BitVector_countOnes (mkBV [255] 3) = Ret 8.
Proof. by vm_compute. Qed.

(** Assignment between vectors of the same number of words and different sizes
    stops on the assertion of [copy]. *)
Example assign_asserts : BitVector_assign (fun _ => []) (mkBV [0] 3) (mkBV [0] 4) = Crash AssertFailed.
Proof. reflexivity. Qed.

(** [countZeroes] is always 0: [countBits] counts the ones. *)
Lemma countZeroes_is_0 v : bv_wf v -> BitVector_countZeroes v = Ret 0.
Proof.
  intros Hv. unfold BitVector_countZeroes. change (BitVector_countBits v) with (BitVector_countOnes v).
  rewrite countOnes_words by done. mred. f_equal. lia.
Qed.
