(* ===== verification/Wah.v ===== *)
(** * Compressed bit vectors ([src/util_WAHVector.cpp], [include/elm/util/WAHVector.h])

    A vector is a list of 32-bit words: a literal holds 31 bits of the vector, a
    fill (bit 31 set) stands for a number of 31-bit words all equal to the
    bit 30 of the fill.  Values read from the words are [Z]; the [int]
    positions of the iterators stay below the size of the vector plus 31 and
    are not wrapped. *)

From S2P Require Import Prelude Ints.

(* src/src/util_WAHVector.cpp:38-43 FILL *)
Definition FILL : Z := 0x80000000.
Definition ONES : Z := 0x40000000.
Definition ALL_ONES : Z := 0x7fffffff.
Definition ALL_ZEROES : Z := 0.

(* src/src/util_WAHVector.cpp:45-45 isFill *)
Definition WAH_isFill (w : Z) : bool := negb (Z.land w FILL =? 0).
(* src/src/util_WAHVector.cpp:46-46 isLite *)
Definition WAH_isLite (w : Z) : bool := Z.land w FILL =? 0.
(* src/src/util_WAHVector.cpp:47-47 isOnes *)
Definition WAH_isOnes (w : Z) : bool := negb (Z.land w ONES =? 0).
(* src/src/util_WAHVector.cpp:48-48 isZeroes *)
Definition WAH_isZeroes (w : Z) : bool := Z.land w ONES =? 0.
(* src/src/util_WAHVector.cpp:49-49 fillCount *)
Definition WAH_fillCount (w : Z) : Z := Z.land w (u32 (Z.lnot (Z.lor FILL ONES))).
(* src/src/util_WAHVector.cpp:50-50 mask *)
Definition WAH_mask (n : Z) : Z := u32 (Z.shiftl 1 n - 1).
(* src/src/util_WAHVector.cpp:52-53 fill *)
Definition WAH_fill (size : Z) (init : bool) : Z :=
  Z.lor (Z.lor FILL (if init then ONES else 0)) (u32 size).
(* src/src/util_WAHVector.cpp:55-55 times *)
Definition WAH_times (v : Z) : Z := Z.shiftl v 5 - v.
(* src/src/util_WAHVector.cpp:57-57 div *)
Definition WAH_div (v : Z) : Z :=
  s32 (Z.shiftr (u64 ((2 ^ 32 / 31 + 30) * u64 v)) 32).
(* src/src/util_WAHVector.cpp:58-58 mod *)
Definition WAH_mod (v : Z) : Z := v - WAH_times (WAH_div v).

(** ** The builder *)

(* src/src/util_WAHVector.cpp:152-154 builder *)
Record builder := mkBuilder { b_cap : Z; b_words : list Z }.
Abbreviation b_size b := (zlen (b_words b)).

(* src/src/util_WAHVector.cpp:62-62 builder::builder *)
Definition builder_make (capacity : Z) : builder := mkBuilder capacity [].

(** [allocate] only changes the capacity; the element is then stored at [size]. *)
(* src/src/util_WAHVector.cpp:90-95 builder::pushRaw *)
Definition builder_pushRaw (b : builder) (w : Z) : outcome builder :=
  let cap := if b_size b =? b_cap b then b_cap b * 2 else b_cap b in
  if b_size b <? cap then Ret (mkBuilder cap (b_words b ++ [w])) else Crash OutOfBounds.

(* src/src/util_WAHVector.cpp:102-106 builder::copy *)
Definition builder_copy (b : builder) (w : Z) : outcome builder := builder_pushRaw b w.

(* src/src/util_WAHVector.cpp:108-113 builder::copy *)
Definition builder_copyAll (b : builder) (ws : list Z) : outcome builder :=
  let cap := if b_cap b <? b_size b + zlen ws then b_size b + zlen ws else b_cap b in
  Ret (mkBuilder cap (b_words b ++ ws)).

(* src/src/util_WAHVector.cpp:74-80 builder::pushFill *)
Definition builder_pushFill (b : builder) (w : Z) : outcome builder :=
  if b_size b =? 0 then builder_pushRaw b w
  else
    l ← rd (b_words b) (b_size b - 1);
    if Z.land w (Z.lor FILL ONES) =? Z.land l (Z.lor FILL ONES) then
      ws ← wr (b_words b) (b_size b - 1) (u32 (l + WAH_fillCount w));
      Ret (mkBuilder (b_cap b) ws)
    else builder_pushRaw b w.

(* src/src/util_WAHVector.cpp:64-72 builder::pushLite *)
Definition builder_pushLite (b : builder) (w : Z) : outcome builder :=
  if w =? 0 then builder_pushFill b (WAH_fill 1 false)
  else if w =? ALL_ONES then builder_pushFill b (WAH_fill 1 true)
  else builder_pushRaw b w.

(* src/src/util_WAHVector.cpp:82-88 builder::push *)
Definition builder_push (b : builder) (w : Z) : outcome builder :=
  if negb (Z.land w FILL =? 0) then builder_pushFill b w else builder_pushLite b w.

(** The words and the size left in the vector: the size may be one less than
    the number of words the block holds. *)
(* src/src/util_WAHVector.cpp:118-141 builder::fix *)
Definition builder_fix (b : builder) (rem : Z) : outcome (list Z) :=
  let ws := b_words b in
  let n := b_size b in
  if rem =? 0 then Ret ws else
  l ← rd ws (n - 1);
  if negb (WAH_isLite l) then Ret ws else
  let l := Z.land l (WAH_mask rem) in
  ws ← wr ws (n - 1) l;
  let collapse (same : Z -> bool) (v : bool) :=
    if 2 <=? n then
      p ← rd ws (n - 2);
      if same p then
        ws ← wr ws (n - 2) (u32 (p + 1));
        Ret (take (Z.to_nat (n - 1)) ws)
      else wr ws (n - 1) (WAH_fill 1 v)
    else wr ws (n - 1) (WAH_fill 1 v) in
  if l =? 0 then collapse WAH_isZeroes false
  else if l =? WAH_mask rem then collapse WAH_isOnes true
  else Ret ws.

(** ** The iterator: [w_rest] holds the words from [cur] to [end] *)

(* src/src/util_WAHVector.cpp:202-207 iter *)
Record witer := mkIter {
  w_rest : list Z; w_fill : bool; w_val : Z; w_cnt : Z; w_i : Z; w_ii : Z }.

(* src/src/util_WAHVector.cpp:184-201 iter::step *)
Definition witer_step (it : witer) : outcome witer :=
  w ← rd (w_rest it) 0;
  if WAH_isFill w then
    let cnt := WAH_fillCount w in
    Ret (mkIter (w_rest it) true (if WAH_isOnes w then ALL_ONES else ALL_ZEROES) cnt
           (w_ii it) (w_ii it + WAH_times cnt))
  else Ret (mkIter (w_rest it) false w 1 (w_ii it) (w_ii it + WAH_times 1)).

(* src/src/util_WAHVector.cpp:159-159 iter::iter *)
Definition witer_make (ws : list Z) : outcome witer :=
  witer_step (mkIter ws false 0 0 0 0).

(* src/src/util_WAHVector.cpp:161-161 iter::ended *)
Definition witer_ended (it : witer) : bool := match w_rest it with [] => true | _ => false end.

(* src/src/util_WAHVector.cpp:162-162 iter::next *)
Definition witer_next (it : witer) : outcome witer :=
  match w_rest it with
  | [] => Crash OutOfBounds
  | [_] => Ret (mkIter [] (w_fill it) (w_val it) (w_cnt it) (w_i it) (w_ii it))
  | _ :: rest => witer_step (mkIter rest (w_fill it) (w_val it) (w_cnt it) (w_i it) (w_ii it))
  end.

(* src/src/util_WAHVector.cpp:169-169 iter::consume *)
Definition witer_consume (it : witer) (c : Z) : outcome witer :=
  assertP (c <=? w_cnt it) ;;
  let it := mkIter (w_rest it) (w_fill it) (w_val it) (w_cnt it - c)
              (w_i it + WAH_times c) (w_ii it) in
  if w_cnt it =? 0 then witer_next it else Ret it.

(* src/src/util_WAHVector.cpp:172-172 iter::copy *)
Definition witer_copy (it : witer) (b : builder) : outcome builder :=
  w ← rd (w_rest it) 0; builder_copy b w.

(* src/src/util_WAHVector.cpp:173-180 iter::pushTail *)
Definition witer_pushTail (it : witer) (b : builder) : outcome builder :=
  match w_rest it with
  | _ :: w :: rest => b ← builder_push b w; builder_copyAll b rest
  | _ => Ret b
  end.

(* src/src/util_WAHVector.cpp:181-181 iter::isLast *)
Definition witer_isLast (it : witer) : bool :=
  match w_rest it with [_] => true | _ => false end.

(** ** The vector *)

(* src/include/elm/util/WAHVector.h:107-110 WAHVector *)
Record WAHVector := mkWAH { wah_rem : Z; wah_words : list Z }.

(* src/include/elm/util/WAHVector.h:33-33 WAHVector::WAHVector *)
Definition WAHVector_empty : WAHVector := mkWAH 0 [].

(* src/src/util_WAHVector.cpp:231-234 WAHVector::WAHVector *)
Definition WAHVector_make (size : Z) (init : bool) : WAHVector :=
  let rem := u32 (WAH_mod size) in
  mkWAH rem [WAH_fill (WAH_div size + (if negb (rem =? 0) then 1 else 0)) init].

(** The copy constructor and the assignment leave the words and [rem] of [v]. *)
(* src/src/util_WAHVector.cpp:530-550 WAHVector::copy *)
Definition WAHVector_copy (self v : WAHVector) : WAHVector := mkWAH (wah_rem v) (wah_words v).

(** [for(iter i(words, _size); i; i++) body]; [body] returns [inr] to leave the
    function. *)
Definition for_words {S R} (ws : list Z) (body : witer -> S -> outcome (S + R)) (s : S)
    : outcome (S + R) :=
  it ← witer_make ws;
  iter (Datatypes.S (length ws)) (fun '(it, s) =>
    if witer_ended it then Ret (inr (inl s)) else
    r ← body it s;
    match r with
    | inr x => Ret (inr (inr x))
    | inl s => it ← witer_next it; Ret (inl (it, s))
    end) (it, s).

(* src/src/util_WAHVector.cpp:258-265 WAHVector::bit *)
Definition WAHVector_bit (v : WAHVector) (index : Z) : outcome bool :=
  r ← for_words (wah_words v) (fun it (_ : unit) =>
        if (w_i it <=? index) && (index <? w_ii it) then
          Ret (inr (negb (Z.land (w_val it) (u32 (Z.shiftl 1 (WAH_mod index))) =? 0)))
        else Ret (inl tt)) tt;
  match r with inr b => Ret b | inl _ => Crash AssertFailed end.

(* src/src/util_WAHVector.cpp:272-280 WAHVector::isEmpty *)
Definition WAHVector_isEmpty (v : WAHVector) : outcome bool :=
  w0 ← rd (wah_words v) 0;
  if negb (WAH_isZeroes w0) then Ret false
  else if zlen (wah_words v) =? 1 then Ret true
  else if zlen (wah_words v) =? 2 then w1 ← rd (wah_words v) 1; Ret (w1 =? 0)
  else Ret false.

(* src/src/util_WAHVector.cpp:288-296 WAHVector::isFull *)
Definition WAHVector_isFull (v : WAHVector) : outcome bool :=
  w0 ← rd (wah_words v) 0;
  if negb (WAH_isOnes w0) then Ret false
  else if zlen (wah_words v) =? 1 then Ret true
  else if zlen (wah_words v) =? 2 then
    w1 ← rd (wah_words v) 1; Ret (w1 =? u32 (Z.shiftl 1 (wah_rem v) - 1))
  else Ret false.

(* src/src/util_WAHVector.cpp:304-310 WAHVector::equals *)
Definition WAHVector_equals (v vec : WAHVector) : outcome bool :=
  if negb (zlen (wah_words v) =? zlen (wah_words vec)) then Ret false else
  r ← scan 0 (zlen (wah_words v)) (fun i =>
        a ← rd (wah_words v) i; b ← rd (wah_words vec) i;
        Ret (if negb (a =? b) then Some false else None));
  Ret (default true r).

(** The loops on two vectors.  [both] is the fast path on two fills, given the
    number of words it works on, [word] the path word by word; each may leave
    with a result. *)
Definition for_pairs {S R} (n : nat) (both : witer -> witer -> Z -> S -> outcome (S + R))
    (word : witer -> witer -> S -> outcome (S + R)) (stop : witer -> witer -> outcome bool)
    (i j : witer) (s : S) : outcome (witer * witer * S + R) :=
  iter n (fun '(i, j, s) =>
    e ← stop i j;
    if (e : bool) then Ret (inr (inl (i, j, s))) else
    if w_fill i && w_fill j then
      let m := Z.min (w_cnt i) (w_cnt j) in
      r ← both i j m s;
      match r with
      | inr x => Ret (inr (inr x))
      | inl s => i ← witer_consume i m; j ← witer_consume j m; Ret (inl (i, j, s))
      end
    else
      r ← word i j s;
      match r with
      | inr x => Ret (inr (inr x))
      | inl s => i ← witer_consume i 1; j ← witer_consume j 1; Ret (inl (i, j, s))
      end) (i, j, s).

(* src/src/util_WAHVector.cpp:319-342 WAHVector::includes *)
Definition WAHVector_includes (v vec : WAHVector) : outcome bool :=
  i ← witer_make (wah_words v); j ← witer_make (wah_words vec);
  r ← for_pairs (S (length (wah_words v) + length (wah_words vec)))
        (fun i j _ (_ : unit) =>
           Ret (if (w_val i =? 0) && negb (w_val j =? 0) then inr false else inl tt))
        (fun i j _ =>
           Ret (if negb (Z.land (u32 (Z.lnot (w_val i))) (w_val j) =? 0)
                then inr false else inl tt))
        (fun i j => Ret (witer_ended i || witer_ended j)) i j tt;
  match r with
  | inr b => Ret b
  | inl (i, j, _) => assertP (witer_ended i && witer_ended j) ;; Ret true
  end.

(* src/src/util_WAHVector.cpp:350-352 WAHVector::includesStrictly *)
Definition WAHVector_includesStrictly (v vec : WAHVector) : outcome bool :=
  e ← WAHVector_equals v vec;
  if (e : bool) then Ret false else WAHVector_includes v vec.

(* src/src/util_WAHVector.cpp:359-367 WAHVector::size *)
Definition WAHVector_size (v : WAHVector) : outcome Z :=
  r ← for_words (R := unit) (wah_words v) (fun it r => Ret (inl (r + w_cnt it))) 0;
  match r with
  | inl r => Ret (if negb (wah_rem v =? 0) then WAH_times r - (31 - wah_rem v)
                  else WAH_times r)
  | inr _ => Crash Undefined
  end.

(* src/src/util_WAHVector.cpp:374-388 WAHVector::countOnes *)
Definition WAHVector_countOnes (v : WAHVector) : outcome Z :=
  let rem := wah_rem v in
  r ← for_words (R := unit) (wah_words v) (fun it r =>
        let last := negb (rem =? 0) && witer_isLast it in
        Ret (inl (if w_fill it then
                    if negb (w_val it =? 0) then
                      r + WAH_times (w_cnt it) - (if last then 31 - rem else 0)
                    else r
                  else r + countOnes32 (if last then Z.land (w_val it) (WAH_mask rem)
                                        else w_val it)))) 0;
  match r with inl r => Ret r | inr _ => Crash Undefined end.

(* src/include/elm/util/WAHVector.h:47-47 WAHVector::countZeroes *)
Definition WAHVector_countZeroes (v : WAHVector) : outcome Z :=
  s ← WAHVector_size v; o ← WAHVector_countOnes v; Ret (s - o).

(** [set(index)] and [clear(index)] differ by the fills they leave unchanged
    ([keep]) and by the bit operation [op]; the words before [fix]. *)
Definition WAH_put_words (keep : Z -> bool) (op : Z -> Z -> Z) (v : WAHVector) (index : Z)
    : outcome builder :=
  let bit := u32 (Z.shiftl 1 (WAH_mod index)) in
  r ← for_words (wah_words v) (fun it b =>
        if (index <? w_i it) || (w_ii it <=? index) then
          b ← witer_copy it b; Ret (inl b)
        else
          b ← (if negb (w_fill it) then builder_pushLite b (op (w_val it) bit)
               else if keep (w_val it) then witer_copy it b
               else
                 let before := WAH_div (index - w_i it) in
                 let after := w_cnt it - before - 1 in
                 let ones := negb (w_val it =? 0) in
                 b ← (if negb (before =? 0) then builder_pushRaw b (WAH_fill before ones)
                      else Ret b);
                 b ← builder_pushLite b (op (w_val it) bit);
                 if negb (after =? 0) then builder_pushRaw b (WAH_fill after ones)
                 else Ret b);
          b ← witer_pushTail it b;
          Ret (inr b))
      (builder_make (zlen (wah_words v) + 2));
  match r with inr b => Ret b | inl _ => Crash AssertFailed end.

Definition WAH_put (keep : Z -> bool) (op : Z -> Z -> Z) (v : WAHVector) (index : Z)
    : outcome WAHVector :=
  b ← WAH_put_words keep op v index;
  ws ← builder_fix b (wah_rem v);
  Ret (mkWAH (wah_rem v) ws).

(* src/src/util_WAHVector.cpp:408-454 WAHVector::set *)
Definition WAHVector_set : WAHVector -> Z -> outcome WAHVector :=
  WAH_put (fun x => negb (x =? 0)) Z.lor.
(* src/src/util_WAHVector.cpp:461-507 WAHVector::clear *)
Definition WAHVector_clear : WAHVector -> Z -> outcome WAHVector :=
  WAH_put (fun x => x =? 0) (fun x b => Z.land x (u32 (Z.lnot b))).
(* src/include/elm/util/WAHVector.h:49-49 WAHVector::set *)
Definition WAHVector_setTo (v : WAHVector) (index : Z) (value : bool) : outcome WAHVector :=
  if value then WAHVector_set v index else WAHVector_clear v index.

(* src/src/util_WAHVector.cpp:513-515 WAHVector::clear *)
Definition WAHVector_clearAll (v : WAHVector) : outcome WAHVector :=
  ws ← wr (wah_words v) 0 (WAH_fill (WAH_div (zlen (wah_words v))
         + (if negb (wah_rem v =? 0) then 1 else 0)) false);
  Ret (mkWAH (wah_rem v) ws).
(* src/src/util_WAHVector.cpp:521-523 WAHVector::set *)
Definition WAHVector_setAll (v : WAHVector) : outcome WAHVector :=
  ws ← wr (wah_words v) 0 (WAH_fill (WAH_div (zlen (wah_words v))
         + (if negb (wah_rem v =? 0) then 1 else 0)) true);
  Ret (mkWAH (wah_rem v) ws).

(** The three binary operations: [op] on the 31-bit values of the words. *)
Definition WAH_combine_words (op : Z -> Z -> Z) (v1 v2 : WAHVector) : outcome builder :=
  i1 ← witer_make (wah_words v1); i2 ← witer_make (wah_words v2);
  r ← for_pairs (R := unit) (S (length (wah_words v1) + length (wah_words v2)))
        (fun i1 i2 n b =>
           b ← builder_pushFill b (WAH_fill n (negb (op (w_val i1) (w_val i2) =? 0)));
           Ret (inl b))
        (fun i1 i2 b => b ← builder_pushLite b (op (w_val i1) (w_val i2)); Ret (inl b))
        (fun i1 i2 =>
           if witer_ended i1 then Ret true
           else assertP (negb (witer_ended i2)) ;; Ret false)
        i1 i2 (builder_make (Z.max (zlen (wah_words v1)) (zlen (wah_words v2))));
  match r with inl (_, _, b) => Ret b | inr _ => Crash Undefined end.

(** The words are put in [r], which keeps its own [rem]. *)
Definition WAH_combine (op : Z -> Z -> Z) (r v1 v2 : WAHVector) : outcome WAHVector :=
  b ← WAH_combine_words op v1 v2;
  ws ← builder_fix b (wah_rem v1);
  Ret (mkWAH (wah_rem r) ws).

(* src/src/util_WAHVector.cpp:559-587 WAHVector::doAnd *)
Definition WAHVector_doAnd : WAHVector -> WAHVector -> WAHVector -> outcome WAHVector := WAH_combine Z.land.
(* src/src/util_WAHVector.cpp:596-624 WAHVector::doOr *)
Definition WAHVector_doOr : WAHVector -> WAHVector -> WAHVector -> outcome WAHVector := WAH_combine Z.lor.
(* src/src/util_WAHVector.cpp:633-661 WAHVector::doReset *)
Definition WAHVector_doReset : WAHVector -> WAHVector -> WAHVector -> outcome WAHVector :=
  WAH_combine (fun a b => Z.land a (u32 (Z.lnot b))).

(* src/src/util_WAHVector.cpp:669-686 WAHVector::doNot *)
Definition WAHVector_doNot (r v : WAHVector) : outcome WAHVector :=
  l ← for_words (R := unit) (wah_words v) (fun it b =>
        b ← (if w_fill it then builder_pushFill b (WAH_fill (w_cnt it) (w_val it =? 0))
             else builder_pushLite b (Z.land (u32 (Z.lnot (w_val it))) ALL_ONES));
        Ret (inl b)) (builder_make (zlen (wah_words v)));
  match l with
  | inl b => ws ← builder_fix b (wah_rem v); Ret (mkWAH (wah_rem r) ws)
  | inr _ => Crash Undefined
  end.

(* src/include/elm/util/WAHVector.h:56-56 WAHVector::applyAnd *)
Definition WAHVector_applyAnd (self v : WAHVector) : outcome WAHVector := WAHVector_doAnd self self v.
(* src/include/elm/util/WAHVector.h:57-57 WAHVector::makeAnd *)
Definition WAHVector_makeAnd (self v : WAHVector) : outcome WAHVector := WAHVector_doAnd WAHVector_empty self v.
(* src/include/elm/util/WAHVector.h:58-58 WAHVector::applyOr *)
Definition WAHVector_applyOr (self v : WAHVector) : outcome WAHVector := WAHVector_doOr self self v.
(* src/include/elm/util/WAHVector.h:59-59 WAHVector::makeOr *)
Definition WAHVector_makeOr (self v : WAHVector) : outcome WAHVector := WAHVector_doOr WAHVector_empty self v.
(* src/include/elm/util/WAHVector.h:60-60 WAHVector::applyReset *)
Definition WAHVector_applyReset (self v : WAHVector) : outcome WAHVector := WAHVector_doReset self self v.
(* src/include/elm/util/WAHVector.h:61-61 WAHVector::makeReset *)
Definition WAHVector_makeReset (self v : WAHVector) : outcome WAHVector := WAHVector_doReset WAHVector_empty self v.
(* src/include/elm/util/WAHVector.h:62-62 WAHVector::applyNot *)
Definition WAHVector_applyNot (self : WAHVector) : outcome WAHVector := WAHVector_doNot self self.
(* src/include/elm/util/WAHVector.h:63-63 WAHVector::makeNot *)
Definition WAHVector_makeNot (self : WAHVector) : outcome WAHVector := WAHVector_doNot WAHVector_empty self.

(** ** What the words stand for *)

(** The division by a product is exact for the sizes below about 4.6 millions. *)
Lemma WAH_div_ok v : 0 <= v < 4638194 -> WAH_div v = v / 31.
Proof.
  intros Hv. unfold WAH_div. change (2 ^ 32 / 31 + 30) with 138547362.
  rewrite (wrap_small 64 v) by (unfold inw; lia).
  rewrite (wrap_small 64 _) by (unfold inw; lia). rewrite Z.shiftr_div_pow2 by lia.
  assert (138547362 * v / 2 ^ 32 = v / 31) as -> by (change (2 ^ 32) with 4294967296; dlia).
  apply swrap_small; [lia|]. change (2 ^ (32 - 1)) with 2147483648. dlia.
Qed.

Lemma WAH_times_ok v : WAH_times v = 31 * v.
Proof. unfold WAH_times. rewrite Z.shiftl_mul_pow2 by lia. lia. Qed.

Lemma WAH_mod_ok v : 0 <= v < 4638194 -> WAH_mod v = v mod 31.
Proof. intros Hv. unfold WAH_mod. rewrite WAH_times_ok, WAH_div_ok by done. dlia. Qed.

(** The parts of a word, arithmetically. *)
Section Word.
Context (w : Z) (Hw : inw 32 w).

Lemma testbit_top n : 0 <= n -> Z.testbit w n = Z.odd (w / 2 ^ n).
Proof. intros. by rewrite Z.testbit_odd, Z.shiftr_div_pow2. Qed.

Lemma isFill_hdr : WAH_isFill w = (2 <=? w / 2 ^ 30).
Proof.
  unfold WAH_isFill, FILL. change 0x80000000 with (Z.shiftl 1 31).
  rewrite land_bit_test, testbit_top by lia. destruct Hw as [H0 H1].
  change (2 ^ 32) with 4294967296 in H1. change (2 ^ 31) with 2147483648.
  change (2 ^ 30) with 1073741824.
  destruct (Z.leb_spec 2 (w / 1073741824)).
  - by replace (w / 2147483648) with 1 by dlia.
  - by replace (w / 2147483648) with 0 by dlia.
Qed.

Lemma isOnes_hdr : WAH_isOnes w = Z.odd (w / 2 ^ 30).
Proof.
  unfold WAH_isOnes, ONES. change 0x40000000 with (Z.shiftl 1 30).
  by rewrite land_bit_test, testbit_top by lia.
Qed.

Lemma fillCount_mod : WAH_fillCount w = w mod 2 ^ 30.
Proof.
  unfold WAH_fillCount.
  replace (u32 (Z.lnot (Z.lor FILL ONES))) with (Z.ones 30) by reflexivity.
  by rewrite Z.land_ones.
Qed.

Lemma header_div : Z.land w (Z.lor FILL ONES) = 2 ^ 30 * (w / 2 ^ 30).
Proof.
  rewrite <- Z.shiftr_div_pow2, Z.mul_comm, <- Z.shiftl_mul_pow2 by lia.
  apply Z.bits_inj'. intros i Hi. rewrite Z.land_spec.
  change (Z.lor FILL ONES) with (Z.shiftl 3 30).
  destruct (Z.ltb_spec i 30).
  - rewrite !Z.shiftl_spec_low by lia. by rewrite andb_false_r.
  - rewrite !Z.shiftl_spec_high, Z.shiftr_spec by lia.
    replace (i - 30 + 30) with i by lia.
    destruct (Z.ltb_spec i 32).
    + replace (Z.testbit 3 (i - 30)) with true; [by rewrite andb_true_r|].
      assert (i = 30 \/ i = 31) as [->| ->] by lia; done.
    + by rewrite (testbit_high 32 w).
Qed.

Lemma isLite_hdr : WAH_isLite w = negb (WAH_isFill w).
Proof. unfold WAH_isLite, WAH_isFill. by rewrite negb_involutive. Qed.
Lemma isZeroes_hdr : WAH_isZeroes w = negb (WAH_isOnes w).
Proof. unfold WAH_isZeroes, WAH_isOnes. by rewrite negb_involutive. Qed.
End Word.

Lemma WAH_fill_sum n b :
  0 <= n < 2 ^ 30 -> WAH_fill n b = (if b then 3 else 2) * 2 ^ 30 + n.
Proof.
  intros Hn. unfold WAH_fill. rewrite (wrap_small 32 n) by (unfold inw; lia).
  assert (Z.lor FILL (if b then ONES else 0) = Z.shiftl (if b then 3 else 2) 30) as ->
    by (by destruct b).
  rewrite <- (Z.shiftl_mul_pow2 _ 30) by lia.
  assert (Z.land (Z.shiftl (if b then 3 else 2) 30) n = 0) as E.
  { apply Z.bits_inj'. intros i Hi. rewrite Z.land_spec, Z.bits_0.
    destruct (Z.ltb_spec i 30); [by rewrite Z.shiftl_spec_low by lia|].
    by rewrite (testbit_high 30 n), andb_false_r. }
  by rewrite Z.add_nocarry_lxor, Z.lxor_lor.
Qed.

Definition fill_val (b : bool) : Z := if b then ALL_ONES else ALL_ZEROES.

(** The 31-bit words a word stands for. *)
Definition decode1 (w : Z) : list Z :=
  if WAH_isFill w then replicate (Z.to_nat (WAH_fillCount w)) (fill_val (WAH_isOnes w))
  else [w].
Definition decode (ws : list Z) : list Z := concat (decode1 <$> ws).

Arguments decode : simpl never.
Arguments decode1 : simpl never.
Arguments WAH_fill : simpl never.

(** A word as the code makes them: fills are not empty. *)
Definition wok (w : Z) : Prop := inw 32 w /\ (WAH_isFill w = true -> 0 < WAH_fillCount w).

Lemma decode_app a b : decode (a ++ b) = decode a ++ decode b.
Proof. unfold decode. by rewrite fmap_app, concat_app. Qed.
Lemma decode_cons a b : decode (a :: b) = decode1 a ++ decode b.
Proof. done. Qed.
Lemma decode_one a : decode [a] = decode1 a.
Proof. unfold decode. cbn. apply app_nil_r. Qed.

(** The header and the count determine the word. *)
Lemma hdr_cases w : inw 32 w -> 0 <= w / 2 ^ 30 < 4.
Proof. intros [H0 H1]. change (2 ^ 32) with 4294967296 in H1. change (2 ^ 30) with 1073741824. dlia. Qed.

Lemma WAH_fill_parts n b :
  0 <= n < 2 ^ 30 ->
  inw 32 (WAH_fill n b) /\ WAH_isFill (WAH_fill n b) = true /\
  WAH_isOnes (WAH_fill n b) = b /\ WAH_fillCount (WAH_fill n b) = n /\
  WAH_fill n b / 2 ^ 30 = if b then 3 else 2.
Proof.
  intros Hn. rewrite WAH_fill_sum by done.
  assert (inw 32 ((if b then 3 else 2) * 2 ^ 30 + n)) as Hw
    by (unfold inw; change (2 ^ 32) with (4 * 2 ^ 30); destruct b; lia).
  assert (((if b then 3 else 2) * 2 ^ 30 + n) / 2 ^ 30 = if b then 3 else 2) as E.
  { rewrite Z.div_add_l, Z.div_small by lia. lia. }
  split_and!; [done| | | |done].
  - rewrite isFill_hdr, E by done. by destruct b.
  - rewrite isOnes_hdr, E. by destruct b.
  - rewrite fillCount_mod, Z.add_comm, Z.mod_add, Z.mod_small by lia. done.
Qed.

Lemma decode1_fill n b :
  0 <= n < 2 ^ 30 -> decode1 (WAH_fill n b) = replicate (Z.to_nat n) (fill_val b).
Proof.
  intros Hn. destruct (WAH_fill_parts n b Hn) as (_ & E1 & E2 & E3 & _).
  unfold decode1. by rewrite E1, E2, E3.
Qed.

Lemma wok_fill n b : 0 < n < 2 ^ 30 -> wok (WAH_fill n b).
Proof.
  intros Hn. destruct (WAH_fill_parts n b) as (H1 & _ & _ & H3 & _); [lia|].
  split; [done|]. lia.
Qed.

Lemma lite_31 w : inw 32 w -> WAH_isFill w = false <-> inw 31 w.
Proof.
  intros Hw. rewrite isFill_hdr, Z.leb_gt by done. destruct Hw as [H0 H1]. unfold inw.
  change (2 ^ 31) with 2147483648. change (2 ^ 30) with 1073741824. dlia.
Qed.

Lemma inw_31_32 w : inw 31 w -> inw 32 w.
Proof. unfold inw. change (2 ^ 32) with (2 * 2 ^ 31). lia. Qed.

Lemma decode1_lite w : inw 31 w -> decode1 w = [w] /\ wok w.
Proof.
  intros Hw. pose proof (inw_31_32 w Hw) as H32.
  assert (WAH_isFill w = false) as E by by apply lite_31.
  unfold decode1, wok. rewrite E. done.
Qed.

Lemma decode_in ws : Forall wok ws -> Forall (inw 31) (decode ws).
Proof.
  induction 1 as [|w ws Hw _ IH]; [constructor|]. rewrite decode_cons. apply Forall_app.
  split; [|done]. unfold decode1. destruct (WAH_isFill w) eqn:E.
  - apply Forall_replicate. by destruct (WAH_isOnes w).
  - constructor; [|constructor]. apply lite_31; [apply Hw|done].
Qed.

(** ** The builder *)

Record b_ok (b : builder) : Prop := {
  b_cap_pos : 1 <= b_cap b; b_in_cap : b_size b <= b_cap b; b_wok : Forall wok (b_words b) }.

(** [b'] is [b] with the words [l] at its end. *)
Definition pushed (b b' : builder) (l : list Z) : Prop :=
  b_ok b' /\ decode (b_words b') = decode (b_words b) ++ l.

Lemma pushRaw_ok b w :
  b_ok b -> wok w -> exists b', builder_pushRaw b w = Ret b' /\ pushed b b' (decode1 w).
Proof.
  intros [H1 H2 H3] Hw. unfold builder_pushRaw.
  set (cap := if b_size b =? b_cap b then b_cap b * 2 else b_cap b).
  assert (b_size b < cap) as Hc.
  { unfold cap. destruct (Z.eqb_spec (b_size b) (b_cap b)); lia. }
  rewrite (proj2 (Z.ltb_lt _ _) Hc). eexists; split; [done|]. split; [split|]; cbn.
  - lia.
  - rewrite length_app. cbn. lia.
  - apply Forall_app. by split; [|constructor].
  - by rewrite decode_app, decode_one.
Qed.

Lemma copyAll_ok b ws :
  b_ok b -> Forall wok ws ->
  exists b', builder_copyAll b ws = Ret b' /\ pushed b b' (decode ws).
Proof.
  intros [H1 H2 H3] Hw. unfold builder_copyAll.
  eexists; split; [done|]. split; [split|]; cbn.
  - destruct (Z.ltb_spec (b_cap b) (b_size b + zlen ws)); lia.
  - rewrite length_app. destruct (Z.ltb_spec (b_cap b) (b_size b + zlen ws)); lia.
  - apply Forall_app. by split.
  - apply decode_app.
Qed.

Lemma pushFill_ok b n v :
  b_ok b -> 0 < n -> zlen (decode (b_words b)) + n < 2 ^ 30 ->
  exists b', builder_pushFill b (WAH_fill n v) = Ret b' /\
    pushed b b' (replicate (Z.to_nat n) (fill_val v)).
Proof.
  intros Hb Hn HN. unfold builder_pushFill.
  assert (exists b', builder_pushRaw b (WAH_fill n v) = Ret b' /\
    pushed b b' (replicate (Z.to_nat n) (fill_val v))) as Hraw.
  { rewrite <- decode1_fill by lia. apply pushRaw_ok; [done|]. apply wok_fill. lia. }
  destruct (Z.eqb_spec (b_size b) 0) as [|Hne]; [done|].
  destruct b as [cap ws]. destruct Hb as [H1 H2 H3]. cbn [b_cap b_words] in *.
  destruct ws as [|l ws _] using rev_ind; [done|].
  rewrite length_app in *. cbn [length] in *.
  replace (Z.of_nat (length ws + 1) - 1) with (zlen ws) by lia.
  assert ((ws ++ [l]) !! Z.to_nat (zlen ws) = Some l) as El
    by (rewrite Nat2Z.id; by apply list_lookup_middle).
  rewrite (rd_ok _ _ l) by (done || lia). mred.
  destruct (WAH_fill_parts n v) as (F1 & F2 & F3 & F4 & F5); [lia|].
  apply Forall_app in H3 as [H3 Hl]. apply Forall_cons in Hl as [[Hl Hl0] _].
  rewrite !header_div, F5, F4 by done.
  destruct (Z.eqb_spec (2 ^ 30 * (if v then 3 else 2)) (2 ^ 30 * (l / 2 ^ 30))) as [E|]; [|done].
  assert (l / 2 ^ 30 = if v then 3 else 2) as Eh by nia.
  assert (l = WAH_fill (l mod 2 ^ 30) v) as Elf.
  { rewrite WAH_fill_sum by (apply Z.mod_pos_bound; lia). rewrite <- Eh.
    pose proof (Z.div_mod l (2 ^ 30) ltac:(lia)). lia. }
  set (c := l mod 2 ^ 30) in *. assert (0 <= c < 2 ^ 30) by (apply Z.mod_pos_bound; lia).
  rewrite decode_app, decode_one, length_app, Elf, decode1_fill, length_replicate in HN by done.
  assert (u32 (l + n) = WAH_fill (c + n) v) as ->.
  { rewrite Elf, !WAH_fill_sum by lia. rewrite wrap_small; [lia|].
    unfold inw. change (2 ^ 32) with (4 * 2 ^ 30). destruct v; lia. }
  rewrite wr_ok by (rewrite length_app; cbn; lia). mred. eexists; split; [done|].
  replace (<[Z.to_nat (zlen ws) := WAH_fill (c + n) v]> (ws ++ [l]))
    with (ws ++ [WAH_fill (c + n) v])
    by (rewrite Nat2Z.id, insert_app_r_alt, Nat.sub_diag by lia; done).
  split; [split|]; cbn.
  - done.
  - rewrite length_app. cbn. lia.
  - apply Forall_app. split; [done|]. constructor; [|done]. apply wok_fill. lia.
  - rewrite !decode_app, !decode_one, decode1_fill, Elf, decode1_fill by lia.
    rewrite <- app_assoc, <- replicate_add. do 2 f_equal. lia.
Qed.

Lemma pushLite_ok b w :
  b_ok b -> inw 31 w -> zlen (decode (b_words b)) + 1 < 2 ^ 30 ->
  exists b', builder_pushLite b w = Ret b' /\ pushed b b' [w].
Proof.
  intros Hb Hw HN. unfold builder_pushLite.
  destruct (Z.eqb_spec w 0) as [->|]; [by apply (pushFill_ok b 1 false)|].
  destruct (Z.eqb_spec w ALL_ONES) as [->|]; [by apply (pushFill_ok b 1 true)|].
  destruct (decode1_lite w Hw) as [<- Hwok]. by apply pushRaw_ok.
Qed.

Lemma push_ok b w :
  b_ok b -> wok w -> zlen (decode (b_words b)) + zlen (decode1 w) < 2 ^ 30 ->
  exists b', builder_push b w = Ret b' /\ pushed b b' (decode1 w).
Proof.
  intros Hb [Hw Hc] HN. unfold builder_push. fold (WAH_isFill w).
  destruct (WAH_isFill w) eqn:E.
  - assert (w = WAH_fill (WAH_fillCount w) (WAH_isOnes w)) as Ew.
    { rewrite fillCount_mod, isOnes_hdr, WAH_fill_sum by (apply Z.mod_pos_bound; lia).
      rewrite isFill_hdr in E by done. apply Z.leb_le in E. pose proof (hdr_cases w Hw).
      pose proof (Z.div_mod w (2 ^ 30) ltac:(lia)).
      assert (w / 2 ^ 30 = 2 \/ w / 2 ^ 30 = 3) as [E'|E'] by lia; rewrite E' in *; cbn; lia. }
    assert (0 <= WAH_fillCount w < 2 ^ 30) by (rewrite fillCount_mod; apply Z.mod_pos_bound; lia).
    specialize (Hc eq_refl). rewrite Ew in HN |- *. rewrite decode1_fill in * by done.
    apply pushFill_ok; [done|done|]. rewrite length_replicate in HN. lia.
  - apply lite_31 in E; [|done]. destruct (decode1_lite w E) as [Ed _]. rewrite Ed in *.
    by apply pushLite_ok.
Qed.

(** ** The iterator *)

(** The 31-bit words still to visit. *)
Definition pend (it : witer) : list Z :=
  match w_rest it with
  | [] => []
  | _ :: rest => replicate (Z.to_nat (w_cnt it)) (w_val it) ++ decode rest
  end.

Definition it_ok (it : witer) : Prop :=
  match w_rest it with
  | [] => True
  | w :: rest =>
      Forall wok (w :: rest) /\ w_fill it = WAH_isFill w /\
      w_val it = (if w_fill it then fill_val (WAH_isOnes w) else w) /\
      0 < w_cnt it /\ (w_fill it = false -> w_cnt it = 1) /\
      w_ii it = w_i it + 31 * w_cnt it
  end.

(** The iterator has just entered the word [w]. *)
Definition entered (it : witer) (w : Z) : Prop :=
  w_cnt it = zlen (decode1 w) /\
  (w_fill it = true -> w_cnt it = WAH_fillCount w).

Lemma step_ok it w rest :
  w_rest it = w :: rest -> Forall wok (w :: rest) ->
  exists it', witer_step it = Ret it' /\ it_ok it' /\ w_rest it' = w :: rest /\
    pend it' = decode (w :: rest) /\ w_i it' = w_ii it /\ entered it' w.
Proof.
  intros Er Hw. unfold witer_step. rewrite Er. change (rd (w :: rest) 0) with (Ret w).
  mred. pose proof Hw as [[Hw1 Hw2] _]%Forall_cons.
  unfold it_ok, pend, entered, decode1. rewrite decode_cons. unfold decode1.
  destruct (WAH_isFill w) eqn:E; eexists; (split; [done|]); cbn [w_rest w_fill w_val w_cnt w_i w_ii].
  - specialize (Hw2 eq_refl). rewrite WAH_times_ok, length_replicate, E.
    split_and!; try done; lia.
  - rewrite WAH_times_ok, E. by split_and!.
Qed.

Lemma make_ok ws :
  Forall wok ws -> ws <> [] ->
  exists it, witer_make ws = Ret it /\ it_ok it /\ w_rest it = ws /\
    pend it = decode ws /\ w_i it = 0 /\ entered it (hd 0 ws).
Proof.
  intros Hws Hne. destruct ws as [|w ws]; [done|].
  destruct (step_ok (mkIter (w :: ws) false 0 0 0 0) w ws eq_refl Hws)
    as (it & E & H1 & H2 & H3 & H4 & H5). exists it. by split_and!.
Qed.

Lemma next_ok it w rest :
  w_rest it = w :: rest -> it_ok it ->
  exists it', witer_next it = Ret it' /\ it_ok it' /\ w_rest it' = rest /\
    pend it' = decode rest /\ (rest <> [] -> w_i it' = w_ii it /\ entered it' (hd 0 rest)).
Proof.
  intros Er Hok. unfold witer_next. unfold it_ok in Hok. rewrite Er in Hok |- *.
  destruct Hok as [Hw _]. apply Forall_cons in Hw as [_ Hw].
  destruct rest as [|w' rest].
  - eexists; split; [done|]. done.
  - edestruct step_ok as (it' & -> & H1 & H2 & H3 & H4 & H5); [|exact Hw|]; [done|].
    exists it'. by split_and!.
Qed.

Lemma pend_nil it : it_ok it -> witer_ended it = true <-> pend it = [].
Proof.
  unfold it_ok, witer_ended, pend. destruct (w_rest it); [done|].
  intros (_ & _ & _ & Hc & _). split; [done|].
  destruct (Z.to_nat (w_cnt it)) eqn:E; [lia|done].
Qed.

(** [consume c] goes over [c] words equal to the current value; unless it
    leaves the current word the rest of the block is the same. *)
Lemma consume_ok it c :
  it_ok it -> witer_ended it = false -> 0 < c <= w_cnt it ->
  exists it', witer_consume it c = Ret it' /\ it_ok it' /\
    pend it = replicate (Z.to_nat c) (w_val it) ++ pend it' /\
    (length (w_rest it') <= length (w_rest it))%nat /\
    (c = w_cnt it -> (length (w_rest it') < length (w_rest it))%nat).
Proof.
  intros Hok He Hc. unfold witer_consume. rewrite (proj2 (Z.leb_le _ _)) by lia. mred.
  unfold witer_ended in He. destruct (w_rest it) as [|w rest] eqn:Er; [done|].
  set (it1 := mkIter _ _ _ _ _ _). pose proof Hok as Hok'. unfold it_ok in Hok'.
  rewrite Er in Hok'. destruct Hok' as (Hw & Hf & Hv & Hc0 & Hl & Hii).
  assert (pend it = replicate (Z.to_nat c) (w_val it) ++
            replicate (Z.to_nat (w_cnt it - c)) (w_val it) ++ decode rest) as Ep.
  { unfold pend. rewrite Er, app_assoc, <- replicate_add. do 2 f_equal. lia. }
  destruct (Z.eqb_spec (w_cnt it1) 0) as [E|E]; cbn in E.
  - assert (exists it', witer_next it1 = Ret it' /\ it_ok it' /\ w_rest it' = rest /\
      pend it' = decode rest) as (it' & -> & H1 & H2 & H3).
    { unfold witer_next. cbn. apply Forall_cons in Hw as [_ Hw]. 
      destruct rest as [|w' rest]; [by eexists|].
      edestruct step_ok as (it' & -> & H1 & H2 & H3 & _); [|exact Hw|]; [done|by eexists]. }
    exists it'. rewrite H2. cbn. split_and!; [done|done| |lia|lia].
    rewrite Ep, H3. by replace (Z.to_nat (w_cnt it - c)) with 0%nat by lia.
  - exists it1. split; [done|]. split; [|split; [done|cbn; lia]].
    unfold it_ok. cbn. rewrite WAH_times_ok. split_and!; try done; try lia.
    intros Ef. specialize (Hl Ef). lia.
Qed.

Lemma pend_cons it : it_ok it -> witer_ended it = false ->
  0 < w_cnt it /\ exists l, pend it = w_val it :: l.
Proof.
  unfold it_ok, witer_ended, pend. destruct (w_rest it); [done|].
  intros (_ & _ & _ & Hc & _) _. split; [done|].
  destruct (Z.to_nat (w_cnt it)) eqn:E; [lia|]. cbn. by eexists.
Qed.

Lemma val_in it : it_ok it -> witer_ended it = false -> inw 31 (w_val it).
Proof.
  unfold it_ok, witer_ended. destruct (w_rest it) as [|w rest]; [done|].
  intros (Hw & Hf & Hv & _) _. rewrite Hv, Hf. apply Forall_cons in Hw as [[Hw _] _].
  destruct (WAH_isFill w) eqn:E; [by destruct (WAH_isOnes w)|by apply lite_31].
Qed.

Lemma fill_val_in it :
  it_ok it -> witer_ended it = false -> w_fill it = true ->
  exists b, w_val it = fill_val b.
Proof.
  unfold it_ok, witer_ended. destruct (w_rest it) as [|w rest]; [done|].
  intros (Hw & Hf & Hv & _) _ E. rewrite Hv, E. by eexists.
Qed.

(** ** Well-formed vectors and their bits *)

Record wah_wf (v : WAHVector) : Prop := {
  wah_nonempty : wah_words v <> [];
  wah_wok : Forall wok (wah_words v);
  wah_small : 31 * zlen (decode (wah_words v)) < 4638194;
  wah_rem_ok : 0 <= wah_rem v < 31 }.

(** The number of bits the vector is made of. *)
Definition wah_bits (v : WAHVector) : Z :=
  31 * zlen (decode (wah_words v)) - (if wah_rem v =? 0 then 0 else 31 - wah_rem v).

Definition bit31 (l : list Z) (k : Z) : bool :=
  Z.testbit (default 0 (l !! Z.to_nat (k / 31))) (k mod 31).
Definition wah_get (v : WAHVector) (k : Z) : bool := bit31 (decode (wah_words v)) k.

(** Rule of the loops on the words of a vector: an invariant on the 31-bit
    words visited so far. *)
Lemma for_words_ok {S R} (I : list Z -> S -> Prop) (Q : R -> Prop) ws body s :
  Forall wok ws -> ws <> [] -> I [] s ->
  (forall done w rest it s,
     ws = done ++ w :: rest -> w_rest it = w :: rest -> it_ok it -> entered it w ->
     w_i it = 31 * zlen (decode done) -> w_ii it = 31 * zlen (decode (done ++ [w])) ->
     I done s ->
     exists r, body it s = Ret r /\
       match r with inl s' => I (done ++ [w]) s' | inr x => Q x end) ->
  exists r, for_words ws body s = Ret r /\
    match r with inl s' => I ws s' | inr x => Q x end.
Proof.
  intros Hws Hne HI Hb. unfold for_words.
  destruct (make_ok ws Hws Hne) as (it0 & -> & Hok & Er & _ & Hi & He). mred.
  apply (iter_total (fun '(it, s) => exists done, ws = done ++ w_rest it /\ it_ok it /\
      I done s /\ (w_rest it <> [] -> w_i it = 31 * zlen (decode done) /\
                     entered it (hd 0 (w_rest it))))
    (fun '(it, _) => length (w_rest it))).
  - intros [it s'] (done & Ews & Hok' & HI' & Hpos).
    unfold witer_ended. destruct (w_rest it) as [|w rest] eqn:Er'.
    { eexists; split; [done|]. cbn. rewrite app_nil_r in Ews. by subst. }
    destruct Hpos as [Hi' He']; [done|]. change (hd 0 (w :: rest)) with w in He'.
    destruct (Hb done w rest it s') as (r & -> & Hr); try done.
    { pose proof Hok' as Hok2. unfold it_ok in Hok2. rewrite Er' in Hok2.
      destruct Hok2 as (_ & _ & _ & _ & _ & ->).
      rewrite decode_app, decode_one, length_app, Hi'. destruct He' as [-> _]. lia. }
    mred. destruct r as [s2|x]; [|by eexists].
    destruct (next_ok it w rest Er' Hok') as (it' & -> & Hok2 & Er2 & _ & Hn). mred.
    eexists; split; [done|]. cbn beta iota. rewrite Er2. split; [|cbn; lia].
    exists (done ++ [w]). split_and!; [by rewrite <- app_assoc|done|done|].
    intros Hr2. destruct (Hn Hr2) as [-> He2]. split; [|done].
    unfold it_ok in Hok'. rewrite Er' in Hok'. destruct Hok' as (_ & _ & _ & _ & _ & ->).
    rewrite decode_app, decode_one, length_app, Hi'. destruct He' as [-> _]. lia.
  - exists []. rewrite Er. split_and!; [done|done|done|]. by intros _.
  - rewrite Er. lia.
Qed.

(** ** The binary operations *)

(** [op] acts as [g] on each of the 31 bits. *)
Definition bitwise31 (op : Z -> Z -> Z) (g : bool -> bool -> bool) : Prop :=
  forall a b, inw 31 a -> inw 31 b ->
    inw 31 (op a b) /\ forall k, 0 <= k < 31 -> Z.testbit (op a b) k = g (Z.testbit a k) (Z.testbit b k).

Lemma fill_val_bit x k : 0 <= k < 31 -> Z.testbit (fill_val x) k = x.
Proof.
  intros Hk. destruct x; cbn [fill_val]; [|apply Z.bits_0].
  change ALL_ONES with (Z.ones 31). by apply Z.ones_spec_low.
Qed.
Lemma fill_val_31 x : inw 31 (fill_val x).
Proof. by destruct x. Qed.

Lemma bitwise31_fill op g x y :
  bitwise31 op g -> fill_val (negb (op (fill_val x) (fill_val y) =? 0)) = op (fill_val x) (fill_val y).
Proof.
  intros Hop. destruct (Hop (fill_val x) (fill_val y)) as [H31 Hb]; [apply fill_val_31..|].
  assert (op (fill_val x) (fill_val y) = fill_val (g x y)) as ->.
  { apply (word_ext 31); [done|apply fill_val_31|]. intros k Hk.
    by rewrite Hb, !fill_val_bit. }
  by destruct (g x y).
Qed.

Lemma bitwise31_and : bitwise31 Z.land andb.
Proof. intros a b Ha Hb. split; [by apply inw_land_l|]. intros. apply Z.land_spec. Qed.
Lemma bitwise31_or : bitwise31 Z.lor orb.
Proof. intros a b Ha Hb. split; [by apply inw_lor|]. intros. apply Z.lor_spec. Qed.
Lemma bitwise31_reset :
  bitwise31 (fun a b => Z.land a (u32 (Z.lnot b))) (fun x y => x && negb y).
Proof.
  intros a b Ha Hb. split; [by apply inw_land_l|]. intros k Hk.
  by rewrite Z.land_spec, testbit_wrap, Z.lnot_spec, (proj2 (Z.ltb_lt _ _)) by lia.
Qed.

Lemma zip_replicate_app {A B C} (f : A -> B -> C) n x y l k :
  zip_with f (replicate n x ++ l) (replicate n y ++ k)
    = replicate n (f x y) ++ zip_with f l k.
Proof. induction n as [|n IH]; cbn; [done|]. by rewrite IH. Qed.

Lemma combine_words_ok op g v1 v2 :
  bitwise31 op g -> wah_wf v1 -> wah_wf v2 ->
  length (decode (wah_words v1)) = length (decode (wah_words v2)) ->
  exists b, WAH_combine_words op v1 v2 = Ret b /\ b_ok b /\
    decode (b_words b) = zip_with op (decode (wah_words v1)) (decode (wah_words v2)).
Proof.
  intros Hop H1 H2 EL. unfold WAH_combine_words.
  destruct (make_ok (wah_words v1)) as (i & -> & Hi & Eri & Epi & _ & _); [apply H1..|]. mred.
  destruct (make_ok (wah_words v2)) as (j & -> & Hj & Erj & Epj & _ & _); [apply H2..|]. mred.
  set (tgt := zip_with op (decode (wah_words v1)) (decode (wah_words v2))).
  assert (zlen tgt < 2 ^ 30) as HN.
  { unfold tgt. rewrite length_zip_with. pose proof (wah_small v1 H1).
    change (2 ^ 30) with 1073741824. lia. }
  unfold for_pairs.
  iter_with
    (fun '(i, j, b) => it_ok i /\ it_ok j /\ b_ok b /\ length (pend i) = length (pend j) /\
       decode (b_words b) ++ zip_with op (pend i) (pend j) = tgt)
    (fun '(i, j, _) => length (w_rest i) + length (w_rest j))%nat
    (fun r => match r with
              | inl (_, _, b) => b_ok b /\ decode (b_words b) = tgt
              | inr _ => False end).
  - intros [[i1 i2] b] (O1 & O2 & Ob & Elen & Etgt).
    destruct (witer_ended i1) eqn:E1; mred.
    { eexists; split; [done|]. cbn. split; [done|]. apply pend_nil in E1; [|done].
      rewrite E1 in Etgt. cbn in Etgt. by rewrite app_nil_r in Etgt. }
    destruct (pend_cons i1 O1 E1) as (C1 & l1 & P1).
    assert (witer_ended i2 = false) as E2.
    { destruct (witer_ended i2) eqn:E2; [|done]. apply pend_nil in E2; [|done].
      by rewrite P1, E2 in Elen. }
    destruct (pend_cons i2 O2 E2) as (C2 & _).
    rewrite E2. mred. pose proof (val_in i1 O1 E1) as V1. pose proof (val_in i2 O2 E2) as V2.
    assert (forall c, 0 < c <= w_cnt i1 -> c <= w_cnt i2 ->
      c = w_cnt i1 \/ c = w_cnt i2 ->
      (forall v, v = op (w_val i1) (w_val i2) -> zlen (decode (b_words b)) + c < 2 ^ 30 ->
         exists b', (if w_fill i1 && w_fill i2 then
            builder_pushFill b (WAH_fill c (negb (op (w_val i1) (w_val i2) =? 0)))
            else builder_pushLite b (op (w_val i1) (w_val i2))) = Ret b' /\
           pushed b b' (replicate (Z.to_nat c) v)) ->
      exists b' i1' i2',
        (if w_fill i1 && w_fill i2 then
            builder_pushFill b (WAH_fill c (negb (op (w_val i1) (w_val i2) =? 0)))
            else builder_pushLite b (op (w_val i1) (w_val i2))) = Ret b' /\
        witer_consume i1 c = Ret i1' /\ witer_consume i2 c = Ret i2' /\
        (it_ok i1' /\ it_ok i2' /\ b_ok b' /\ length (pend i1') = length (pend i2') /\
         decode (b_words b') ++ zip_with op (pend i1') (pend i2') = tgt) /\
        (length (w_rest i1') + length (w_rest i2') < length (w_rest i1) + length (w_rest i2))%nat)
      as Hstep.
    { intros c Hc1 Hc2 Hcc Hpush.
      destruct (consume_ok i1 c O1 E1) as (i1' & -> & O1' & Q1 & L1 & S1); [done|].
      destruct (consume_ok i2 c O2 E2) as (i2' & -> & O2' & Q2 & L2 & S2); [lia|].
      rewrite Q1, Q2, zip_replicate_app, app_assoc in Etgt.
      destruct (Hpush _ eq_refl) as (b' & -> & Ob' & Eb').
      { apply (f_equal length) in Etgt. rewrite !length_app, length_replicate in Etgt. lia. }
      exists b', i1', i2'. split_and!; try done.
      - apply (f_equal length) in Q1, Q2. rewrite !length_app, !length_replicate in *. lia.
      - by rewrite Eb'.
      - destruct Hcc as [Hcc|Hcc]; [specialize (S1 Hcc)|specialize (S2 Hcc)]; lia. }
    destruct (w_fill i1 && w_fill i2) eqn:Ef.
    + destruct (Hstep (Z.min (w_cnt i1) (w_cnt i2))) as (b' & i1' & i2' & -> & R); [lia|lia|lia| |].
      { intros v -> Hn. apply andb_true_iff in Ef as [F1 F2].
        destruct (fill_val_in i1 O1 E1 F1) as [x Ex]. destruct (fill_val_in i2 O2 E2 F2) as [y Ey].
        pose proof (pushFill_ok b (Z.min (w_cnt i1) (w_cnt i2))
          (negb (op (w_val i1) (w_val i2) =? 0)) Ob ltac:(lia) Hn) as P.
        rewrite Ex, Ey in P |- *. by rewrite (bitwise31_fill op g) in P. }
      mred. destruct R as (-> & R). mred. destruct R as (-> & R & Hm). mred.
      by eexists.
    + assert (w_cnt i1 = 1 \/ w_cnt i2 = 1) as Hc.
      { unfold it_ok in O1, O2. unfold witer_ended in E1, E2.
        destruct (w_rest i1); [done|]. destruct (w_rest i2); [done|].
        apply andb_false_iff in Ef as [Ef|Ef]; [left; by apply O1|right; by apply O2]. }
      destruct (Hstep 1) as (b' & i1' & i2' & -> & R); [lia|lia|lia| |].
      { intros v -> Hn. apply pushLite_ok; [done|by apply Hop|done]. }
      mred. destruct R as (-> & R). mred. destruct R as (-> & R & Hm). mred. by eexists.
  - split_and!; try done.
    + split; cbn; [|lia|constructor]. pose proof (wah_nonempty v1 H1).
      destruct (wah_words v1); [done|]. cbn. lia.
    + by rewrite Epi, Epj.
    + cbn. by rewrite Epi, Epj.
  - rewrite Eri, Erj. lia.
  - destruct r as [[[? ?] b]|]; [|done]. exists b. split; [done|]. done.
Qed.

(** ** The end of the construction: [fix] *)

Lemma fill_form w :
  inw 32 w -> WAH_isFill w = true ->
  w = WAH_fill (WAH_fillCount w) (WAH_isOnes w) /\ 0 <= WAH_fillCount w < 2 ^ 30.
Proof.
  intros Hw E. rewrite fillCount_mod, isOnes_hdr.
  assert (0 <= w mod 2 ^ 30 < 2 ^ 30) by (apply Z.mod_pos_bound; lia).
  split; [|done]. rewrite WAH_fill_sum by done.
  rewrite isFill_hdr in E by done. apply Z.leb_le in E. pose proof (hdr_cases w Hw).
  pose proof (Z.div_mod w (2 ^ 30) ltac:(lia)).
  assert (w / 2 ^ 30 = 2 \/ w / 2 ^ 30 = 3) as [E'|E'] by lia; rewrite E' in *; cbn; lia.
Qed.

Lemma decode1_succ p :
  wok p -> WAH_isFill p = true -> zlen (decode1 p) + 1 < 2 ^ 30 ->
  wok (u32 (p + 1)) /\ decode1 (u32 (p + 1)) = decode1 p ++ [fill_val (WAH_isOnes p)].
Proof.
  intros [Hp Hc] E Hn. destruct (fill_form p Hp E) as [Ep Hb]. specialize (Hc E).
  set (c := WAH_fillCount p) in *. set (b := WAH_isOnes p) in *.
  rewrite Ep, decode1_fill, length_replicate in Hn by done.
  assert (u32 (p + 1) = WAH_fill (c + 1) b) as ->.
  { rewrite Ep, !WAH_fill_sum by lia. rewrite wrap_small; [lia|].
    unfold inw. change (2 ^ 32) with (4 * 2 ^ 30). destruct b; lia. }
  split; [apply wok_fill; lia|]. rewrite Ep, !decode1_fill by lia.
  change [fill_val b] with (replicate 1 (fill_val b)). rewrite <- replicate_add.
  f_equal. lia.
Qed.

Lemma WAH_mask_ones rem : 0 <= rem < 31 -> WAH_mask rem = Z.ones rem.
Proof.
  intros Hr. unfold WAH_mask. rewrite wrap_small.
  - rewrite Z.ones_equiv, Z.shiftl_1_l. lia.
  - rewrite Z.shiftl_1_l. pose proof (Z.pow_pos_nonneg 2 rem ltac:(lia) ltac:(lia)).
    pose proof (Z.pow_lt_mono_r 2 rem 32 ltac:(lia) ltac:(lia) ltac:(lia)). unfold inw. lia.
Qed.

(** The result is right when the code does not take a literal for a fill: the
    last word, once masked, is not trivial or follows a fill. *)
Definition fix_safe (ws : list Z) (rem : Z) : bool :=
  (rem =? 0) ||
  match reverse ws with
  | l :: p :: _ =>
      WAH_isFill l || WAH_isFill p ||
      negb ((Z.land l (WAH_mask rem) =? 0) || (Z.land l (WAH_mask rem) =? WAH_mask rem))
  | _ => true
  end.

Lemma bit31_last D l x rem k :
  0 <= rem < 31 -> (forall b, 0 <= b < rem -> Z.testbit x b = Z.testbit l b) ->
  0 <= k < 31 * zlen D + rem -> bit31 (D ++ [x]) k = bit31 (D ++ [l]) k.
Proof.
  intros Hr Hb Hk. unfold bit31. destruct (Z.ltb_spec (k / 31) (zlen D)).
  - by rewrite !lookup_app_l by dlia.
  - rewrite !lookup_app_r by dlia. replace (Z.to_nat (k / 31) - length D)%nat with 0%nat by dlia.
    cbn. apply Hb. dlia.
Qed.

Lemma builder_fix_ok b rem :
  b_ok b -> b_words b <> [] -> 0 <= rem < 31 -> fix_safe (b_words b) rem = true ->
  zlen (decode (b_words b)) < 2 ^ 30 ->
  exists ws, builder_fix b rem = Ret ws /\ ws <> [] /\ Forall wok ws /\
    length (decode ws) = length (decode (b_words b)) /\
    forall k, 0 <= k < 31 * zlen (decode ws) - (if rem =? 0 then 0 else 31 - rem) ->
      bit31 (decode ws) k = bit31 (decode (b_words b)) k.
Proof.
  intros [H1 H2 Hw] Hne Hrem Hs HN. unfold builder_fix.
  destruct (Z.eqb_spec rem 0) as [|Hr0]; [eexists; split; [done|]; by split_and!|].
  destruct b as [cap ws0]. cbn [b_cap b_words] in *.
  destruct ws0 as [|l D _] using rev_ind; [done|]. clear Hne.
  assert (rd (D ++ [l]) (zlen (D ++ [l]) - 1) = Ret l) as ->.
  { rewrite length_app. cbn. apply rd_ok; [lia|].
    replace (Z.to_nat _) with (length D) by lia. by apply list_lookup_middle. }
  mred. apply Forall_app in Hw as [HwD Hl]. apply Forall_cons in Hl as [Hl _].
  rewrite isLite_hdr, negb_involutive. destruct (WAH_isFill l) eqn:El.
  { eexists; split; [done|]. split; [by destruct D|]. split; [rewrite Forall_app, Forall_singleton; by split|]. by split. }
  apply lite_31 in El as Hl31; [|apply Hl].
  assert (wr (D ++ [l]) (zlen (D ++ [l]) - 1) (Z.land l (WAH_mask rem))
          = Ret (D ++ [Z.land l (WAH_mask rem)])) as ->.
  { rewrite wr_ok by (rewrite length_app; cbn; lia). f_equal. rewrite length_app. cbn.
    replace (Z.to_nat _) with (length D) by lia.
    by rewrite insert_app_r_alt, Nat.sub_diag by lia. }
  mred. rewrite WAH_mask_ones in * by done.
  set (l' := Z.land l (Z.ones rem)) in *.
  assert (inw 31 l') as Hl' by by apply inw_land_l.
  assert (forall x, 0 <= x < rem -> Z.testbit l' x = Z.testbit l x) as Hb.
  { intros x Hx. unfold l'. by rewrite Z.land_spec, Z.ones_spec_low, andb_true_r by lia. }
  assert (forall ws x, decode ws = decode D ++ [x] -> ws <> [] -> Forall wok ws ->
    (forall k, 0 <= k < rem -> Z.testbit x k = Z.testbit l' k) ->
    ws <> [] /\ Forall wok ws /\ length (decode ws) = length (decode (D ++ [l])) /\
    forall k, 0 <= k < 31 * zlen (decode ws) - (31 - rem) ->
      bit31 (decode ws) k = bit31 (decode (D ++ [l])) k) as Hend.
  { intros ws x E ? ? Hx. rewrite E, decode_app, decode_one.
    rewrite (proj1 (decode1_lite l Hl31)). rewrite !length_app. split_and!; try done.
    intros k Hk. cbn in Hk. apply bit31_last with rem; [done| |lia].
    intros y Hy. rewrite Hx, Hb by done. done. }
  (* replacing the last word by a fill of one word *)
  assert (forall v, (forall k, 0 <= k < rem -> Z.testbit (fill_val v) k = Z.testbit l' k) ->
    exists ws, wr (D ++ [l']) (zlen (D ++ [l]) - 1) (WAH_fill 1 v) = Ret ws /\
    ws <> [] /\ Forall wok ws /\ length (decode ws) = length (decode (D ++ [l])) /\
    forall k, 0 <= k < 31 * zlen (decode ws) - (31 - rem) ->
      bit31 (decode ws) k = bit31 (decode (D ++ [l])) k) as Hone.
  { intros v Hv. rewrite wr_ok by (rewrite !length_app; cbn; lia). eexists; split; [done|].
    rewrite length_app. cbn. replace (Z.to_nat _) with (length D) by lia.
    rewrite insert_app_r_alt, Nat.sub_diag by lia. cbn. apply (Hend _ (fill_val v)); [|by destruct D| |done].
    - by rewrite decode_app, decode_one, decode1_fill.
    - rewrite Forall_app, Forall_singleton. split; [done|]. by apply wok_fill. }
  assert (forall (same : Z -> bool) v,
    (l' = 0 \/ l' = Z.ones rem) ->
    (forall p, wok p -> same p = true -> WAH_isOnes p = v) ->
    (forall k, 0 <= k < rem -> Z.testbit (fill_val v) k = Z.testbit l' k) ->
    exists ws, (if 2 <=? zlen (D ++ [l]) then
       p ← rd (D ++ [l']) (zlen (D ++ [l]) - 2);
       if same p then
         ws ← wr (D ++ [l']) (zlen (D ++ [l]) - 2) (u32 (p + 1));
         Ret (take (Z.to_nat (zlen (D ++ [l]) - 1)) ws)
       else wr (D ++ [l']) (zlen (D ++ [l]) - 1) (WAH_fill 1 v)
     else wr (D ++ [l']) (zlen (D ++ [l]) - 1) (WAH_fill 1 v)) = Ret ws /\
    ws <> [] /\ Forall wok ws /\ length (decode ws) = length (decode (D ++ [l])) /\
    forall k, 0 <= k < 31 * zlen (decode ws) - (31 - rem) ->
      bit31 (decode ws) k = bit31 (decode (D ++ [l])) k) as Hcol.
  { intros same v Htriv Hsame Hv. destruct (Z.leb_spec 2 (zlen (D ++ [l]))); [|by apply Hone].
    destruct D as [|p D' _] using rev_ind; [done|].
    assert (zlen ((D' ++ [p]) ++ [l]) - 2 = zlen D') as -> by (rewrite !length_app; cbn; lia).
    rewrite (rd_ok _ _ p); [|lia|].
    2: { rewrite Nat2Z.id, <- app_assoc. by apply list_lookup_middle. }
    mred. destruct (same p) eqn:Es; [|by apply Hone].
    assert (WAH_isFill p = true) as Ep.
    { unfold fix_safe in Hs. rewrite (proj2 (Z.eqb_neq _ _) Hr0), !reverse_snoc in Hs.
      cbn in Hs. rewrite El, WAH_mask_ones in Hs by done. fold l' in Hs.
      destruct (WAH_isFill p); [done|]. cbn in Hs.
      destruct Htriv as [E|E]; rewrite E, Z.eqb_refl in Hs; [done|].
      by rewrite orb_true_r in Hs. }
    apply Forall_app in HwD as [HwD' Hp]. apply Forall_cons in Hp as [Hp _].
    rewrite !decode_app, !decode_one, !length_app in HN.
    destruct (decode1_succ p Hp Ep) as [Hp1 Ep1].
    { rewrite (proj1 (decode1_lite l Hl31)) in HN. cbn in HN. lia. }
    rewrite wr_ok by (rewrite !length_app; cbn; lia). mred. eexists; split; [done|].
    assert (take (Z.to_nat (zlen ((D' ++ [p]) ++ [l]) - 1))
      (<[Z.to_nat (zlen D') := u32 (p + 1)]> ((D' ++ [p]) ++ [l'])) = D' ++ [u32 (p + 1)]) as ->.
    { replace (Z.to_nat (zlen ((D' ++ [p]) ++ [l]) - 1)) with (length D' + 1)%nat
        by (rewrite !length_app; cbn; lia).
      rewrite <- app_assoc, Nat2Z.id, insert_app_r_alt, Nat.sub_diag by lia. cbn.
      rewrite (cons_middle _ D' [l']). rewrite app_assoc. apply take_app_length'.
      rewrite length_app. cbn. lia. }
    apply (Hend _ (fill_val v)).
    - rewrite !decode_app, !decode_one, Ep1, (Hsame p Hp Es). by rewrite app_assoc.
    - by destruct D'.
    - rewrite Forall_app, Forall_singleton. by split.
    - done. }
  destruct (Z.eqb_spec l' 0) as [E0|E0].
  - apply Hcol.
    + by left.
    + intros p Hp. rewrite isZeroes_hdr. by intros ?%negb_true_iff.
    + intros k Hk. by rewrite E0.
  - destruct (Z.eqb_spec l' (Z.ones rem)) as [E1|E1].
    + apply Hcol; [by right|done|]. intros k Hk.
      rewrite E1, fill_val_bit by lia. by rewrite Z.ones_spec_low.
    + eexists; split; [done|]. destruct (decode1_lite l' Hl') as [Ed Hwk].
      apply (Hend _ l'); [by rewrite decode_app, decode_one, Ed|by destruct D| |done].
      rewrite Forall_app, Forall_singleton. by split.
Qed.

(** ** Reading and writing one bit *)

Lemma entered_decode it w rest :
  w_rest it = w :: rest -> it_ok it -> entered it w ->
  decode1 w = replicate (Z.to_nat (w_cnt it)) (w_val it).
Proof.
  intros Er Hok [Hc _]. unfold it_ok in Hok. rewrite Er in Hok.
  destruct Hok as (Hw & Hf & Hv & _). rewrite Hv, Hc, Nat2Z.id, Hf. unfold decode1.
  destruct (WAH_isFill w); [by rewrite length_replicate|done].
Qed.

(** A position inside the word the iterator is on. *)
Lemma in_word it w rest done k :
  w_rest it = w :: rest -> it_ok it -> entered it w ->
  31 * zlen (decode done) <= k < 31 * zlen (decode (done ++ [w])) ->
  let n := k / 31 - zlen (decode done) in
  0 <= n < w_cnt it /\
  decode (done ++ w :: rest) !! Z.to_nat (k / 31) = Some (w_val it).
Proof.
  intros Er Hok He Hk n. pose proof (entered_decode it w rest Er Hok He) as Ed.
  rewrite decode_app, decode_one, Ed, length_app, length_replicate in Hk.
  assert (0 < w_cnt it) by (unfold it_ok in Hok; rewrite Er in Hok; apply Hok).
  assert (0 <= n < w_cnt it) as Hn by (unfold n; dlia). split; [done|].
  rewrite decode_app, decode_cons, Ed.
  rewrite lookup_app_r by (unfold n in *; lia). rewrite lookup_app_l.
  - apply lookup_replicate. split; [done|]. unfold n in *. lia.
  - rewrite length_replicate. unfold n in *. lia.
Qed.

Lemma WAHVector_bit_ok v k :
  wah_wf v -> 0 <= k < 31 * zlen (decode (wah_words v)) ->
  WAHVector_bit v k = Ret (wah_get v k).
Proof.
  intros Hv Hk. unfold WAHVector_bit. pose proof (wah_small v Hv).
  match goal with |- context [for_words ?ws ?body ?s] => destruct (for_words_ok
    (fun done _ => 31 * zlen (decode done) <= k) (fun b => b = wah_get v k) ws body s)
    as (r & -> & Hr) end.
  - apply Hv.
  - apply Hv.
  - unfold decode. cbn. lia.
  - intros done w rest it [] Ews Er Hok He Hi Hii Hd. cbn beta.
    destruct (Z.leb_spec (w_i it) k); [|lia]. destruct (Z.ltb_spec k (w_ii it)); mred.
    + eexists; split; [reflexivity|]. cbn beta iota.
      destruct (in_word it w rest done k Er Hok He) as [_ El]; [lia|].
      unfold wah_get, bit31. rewrite Ews, El. cbn [default from_option id].
      rewrite WAH_mod_ok by lia. rewrite wrap_small.
      * apply land_bit_test. dlia.
      * apply inw_shiftl_1. dlia.
    + eexists; split; [reflexivity|]. cbn beta iota. lia.
  - mred. destruct r; cbn beta iota in Hr; [lia|by subst].
Qed.

(** The word-level update of [set] and [clear]. *)
Definition put_op (value : bool) (keep : Z -> bool) (op : Z -> Z -> Z) : Prop :=
  (forall b, keep (fill_val b) = Bool.eqb b value) /\
  forall x m, inw 31 x -> 0 <= m < 31 ->
    inw 31 (op x (Z.shiftl 1 m)) /\
    forall j, 0 <= j < 31 ->
      Z.testbit (op x (Z.shiftl 1 m)) j = if j =? m then value else Z.testbit x j.

Lemma put_op_set : put_op true (fun x => negb (x =? 0)) Z.lor.
Proof.
  split; [by intros []|]. intros x m Hx Hm. split; [by apply inw_lor; [|done|apply inw_shiftl_1]|].
  intros j Hj. rewrite Z.lor_spec, testbit_shiftl_1, (Z.eqb_sym j) by lia.
  destruct (m =? j); [apply orb_true_r|apply orb_false_r].
Qed.

Lemma put_op_clear : put_op false (fun x => x =? 0) (fun x b => Z.land x (u32 (Z.lnot b))).
Proof.
  split; [by intros []|]. intros x m Hx Hm. split; [by apply inw_land_l|].
  intros j Hj. rewrite Z.land_spec, testbit_wrap, Z.lnot_spec, testbit_shiftl_1 by lia.
  rewrite (proj2 (Z.ltb_lt _ _)), (Z.eqb_sym j) by lia.
  destruct (m =? j); [apply andb_false_r|apply andb_true_r].
Qed.

(** The three words a fill is split in. *)
Lemma split_ok b before cnt x y :
  b_ok b -> 0 <= before < cnt -> zlen (decode (b_words b)) + cnt < 2 ^ 30 -> inw 31 y ->
  exists b', (b1 ← (if negb (before =? 0) then builder_pushRaw b (WAH_fill before x) else Ret b);
     b2 ← builder_pushLite b1 y;
     if negb (cnt - before - 1 =? 0) then builder_pushRaw b2 (WAH_fill (cnt - before - 1) x)
     else Ret b2) = Ret b' /\
    pushed b b' (<[Z.to_nat before := y]> (replicate (Z.to_nat cnt) (fill_val x))).
Proof.
  intros Hb Hc HN Hy.
  assert (forall b n, b_ok b -> 0 <= n < 2 ^ 30 -> exists b',
    (if negb (n =? 0) then builder_pushRaw b (WAH_fill n x) else Ret b) = Ret b' /\
    pushed b b' (replicate (Z.to_nat n) (fill_val x))) as Hfill.
  { intros b0 n Hb0 Hn. destruct (Z.eqb_spec n 0) as [->|]; cbn.
    - eexists; split; [done|]. split; [done|]. by rewrite app_nil_r.
    - rewrite <- decode1_fill by done. apply pushRaw_ok; [done|]. apply wok_fill. lia. }
  destruct (Hfill b before) as (b1 & -> & Hb1 & E1); [done|lia|]. mred.
  destruct (pushLite_ok b1 y) as (b2 & -> & Hb2 & E2); [done|done| |].
  { rewrite E1, length_app, length_replicate. lia. }
  mred. destruct (Hfill b2 (cnt - before - 1)) as (b3 & -> & Hb3 & E3); [done|lia|].
  exists b3. split; [done|]. split; [done|]. rewrite E3, E2, E1, <- !app_assoc. f_equal.
  replace (Z.to_nat cnt) with (Z.to_nat before + S (Z.to_nat (cnt - before - 1)))%nat by lia.
  rewrite replicate_add, insert_app_r_alt by (rewrite length_replicate; lia).
  by rewrite length_replicate, Nat.sub_diag.
Qed.

Lemma put_words_ok value keep op v k :
  put_op value keep op -> wah_wf v -> 0 <= k < 31 * zlen (decode (wah_words v)) ->
  exists b, WAH_put_words keep op v k = Ret b /\ b_ok b /\
    decode (b_words b) = <[Z.to_nat (k / 31) :=
      op (default 0 (decode (wah_words v) !! Z.to_nat (k / 31))) (Z.shiftl 1 (k mod 31))]>
      (decode (wah_words v)).
Proof.
  intros [Hkeep Hop] Hv Hk. unfold WAH_put_words. pose proof (wah_small v Hv) as Hsm.
  rewrite WAH_mod_ok, (wrap_small 32) by (lia || (apply inw_shiftl_1; dlia)).
  set (x := Z.shiftl 1 (k mod 31)). set (L := decode (wah_words v)).
  assert (zlen L < 2 ^ 30) as HN by (change (2 ^ 30) with 1073741824; unfold L; lia).
  match goal with |- context [for_words ?ws ?body ?s] => destruct (for_words_ok
    (fun done b => b_ok b /\ decode (b_words b) = decode done /\ 31 * zlen (decode done) <= k)
    (fun b => b_ok b /\ decode (b_words b) =
       <[Z.to_nat (k / 31) := op (default 0 (L !! Z.to_nat (k / 31))) x]> L) ws body s)
    as (r & -> & Hr) end.
  - apply Hv.
  - apply Hv.
  - split_and!; [split; cbn; [lia|lia|constructor]|done|unfold decode; cbn; lia].
  - intros done w rest it b Ews Er Hok He Hi Hii (Hb & Edec & Hd). cbn beta.
    pose proof (wah_wok v Hv) as Hws. rewrite Ews in Hws.
    apply Forall_app in Hws as [_ [Hw Hrest]%Forall_cons].
    assert (exists b', witer_copy it b = Ret b' /\ pushed b b' (decode1 w)) as Hcopy.
    { unfold witer_copy. rewrite Er. change (rd (w :: rest) 0) with (Ret w). mred.
      by apply pushRaw_ok. }
    destruct (Z.ltb_spec k (w_i it)); [lia|]. cbn [orb].
    destruct (Z.leb_spec (w_ii it) k).
    { destruct Hcopy as (b' & -> & Hb' & E'). mred. eexists; split; [reflexivity|].
      cbn beta iota. split; [done|]. rewrite E', Edec, decode_app, decode_one.
      split; [done|]. rewrite decode_app, decode_one in Hii. lia. }
    destruct (in_word it w rest done k Er Hok He) as [Hn El]; [lia|].
    pose proof (entered_decode it w rest Er Hok He) as Ed.
    set (n := k / 31 - zlen (decode done)) in *.
    assert (L = decode done ++ replicate (Z.to_nat (w_cnt it)) (w_val it) ++ decode rest) as EL.
    { unfold L. by rewrite Ews, decode_app, decode_cons, Ed. }
    assert (WAH_div (k - w_i it) = n) as -> by (rewrite WAH_div_ok by lia; unfold n; dlia).
    assert (0 <= k mod 31 < 31) as Hm by dlia.
    assert (witer_ended it = false) as Een by (unfold witer_ended; by rewrite Er).
    pose proof (val_in it Hok Een) as Hval. destruct (Hop (w_val it) (k mod 31) Hval Hm) as [Hop1 Hop2].
    fold x in Hop1, Hop2.
    assert (zlen (decode (b_words b)) + w_cnt it + zlen (decode rest) = zlen L) as Elen.
    { rewrite EL, Edec, !length_app, length_replicate. lia. }
    match goal with |- exists r, (b' ← ?m; _) = _ /\ _ =>
      assert (exists b', m = Ret b' /\ pushed b b'
        (<[Z.to_nat n := op (w_val it) x]> (replicate (Z.to_nat (w_cnt it)) (w_val it))))
        as (b1 & -> & Hb1 & E1) end.
    { destruct (w_fill it) eqn:Ef; cbn [negb].
      - destruct (fill_val_in it Hok Een Ef) as [bv Ebv]. 
        destruct (keep (w_val it)) eqn:Ek.
        + destruct Hcopy as (b' & -> & Hb'). exists b'. split; [done|]. rewrite Ed in Hb'.
          rewrite list_insert_id; [done|]. apply lookup_replicate. split; [|lia].
          rewrite Ebv, Hkeep in Ek. apply eqb_prop in Ek as ->. rewrite Ebv in *.
          apply (word_ext 31); [done|apply fill_val_31|]. intros j Hj.
          rewrite Hop2, !fill_val_bit by done. by destruct (j =? _).
        + assert (w_val it = fill_val (negb (w_val it =? 0))) as Ev.
          { rewrite Ebv. by destruct bv. }
          pose proof (split_ok b n (w_cnt it) (negb (w_val it =? 0)) (op (w_val it) x)
            Hb ltac:(lia) ltac:(lia) Hop1) as P. by rewrite <- Ev in P.
      - assert (w_cnt it = 1) as E1.
        { unfold it_ok in Hok. rewrite Er in Hok. by apply Hok. }
        rewrite E1. replace n with 0 by lia. cbn. apply pushLite_ok; [done|done|lia]. }
    mred. assert (exists b2, witer_pushTail it b1 = Ret b2 /\ pushed b1 b2 (decode rest))
      as (b2 & -> & Hb2 & E2).
    { unfold witer_pushTail. rewrite Er. destruct rest as [|w' rest].
      - exists b1. split; [done|]. split; [done|]. by rewrite app_nil_r.
      - apply Forall_cons in Hrest as [Hw' Hrest]. rewrite decode_cons, length_app in Elen.
        destruct (push_ok b1 w') as (b' & -> & Hb' & E'); [done|done| |].
        { rewrite E1, length_app, length_insert, length_replicate. lia. }
        mred. destruct (copyAll_ok b' rest) as (b'' & -> & Hb'' & E''); [done|done|].
        exists b''. split; [done|]. split; [done|]. by rewrite E'', E', <- app_assoc. }
    mred. eexists; split; [reflexivity|]. cbn beta iota. split; [done|].
    fold L in El. rewrite <- Ews in El. fold L in El. rewrite El. cbn [default from_option id].
    rewrite E2, E1, Edec, EL, <- app_assoc.
    rewrite insert_app_r_alt by (unfold n in *; lia).
    rewrite insert_app_l by (rewrite length_replicate; unfold n in *; lia).
    do 3 f_equal. unfold n. lia.
  - mred. destruct r as [b'|b']; cbn beta iota in Hr; [unfold L in *; lia|]. by exists b'.
Qed.

(** ** Properties *)

(** [fix] cannot go wrong on the words [ws]. *)
Definition safe_end (words : outcome builder) (rem : Z) : Prop :=
  rem = 0 \/ forall b, words = Ret b -> fix_safe (b_words b) rem = true.

Lemma safe_end_spec words rem b :
  safe_end words rem -> words = Ret b -> fix_safe (b_words b) rem = true.
Proof. intros [->|H] E; [done|by apply H]. Qed.

(** [r] has the size of [v] and the bits given by [f]. *)
Definition wah_is (v r : WAHVector) (f : Z -> bool) : Prop :=
  wah_wf r /\ wah_rem r = wah_rem v /\ wah_bits r = wah_bits v /\
  forall k, 0 <= k < wah_bits v -> WAHVector_bit r k = Ret (f k).

Lemma wah_bits_le v : wah_wf v -> wah_bits v <= 31 * zlen (decode (wah_words v)).
Proof. intros Hv. pose proof (wah_rem_ok v Hv). unfold wah_bits. case_match; lia. Qed.

Lemma fix_is b v (f : Z -> bool) :
  b_ok b -> wah_wf v -> fix_safe (b_words b) (wah_rem v) = true ->
  length (decode (b_words b)) = length (decode (wah_words v)) ->
  (forall k, 0 <= k < wah_bits v -> bit31 (decode (b_words b)) k = f k) ->
  exists r, (ws ← builder_fix b (wah_rem v); Ret (mkWAH (wah_rem v) ws)) = Ret r /\
    wah_is v r f.
Proof.
  intros Hb Hv Hs El Hf. pose proof (wah_small v Hv) as Hsm.
  assert (decode (wah_words v) <> []) as Hne.
  { destruct (make_ok (wah_words v)) as (it & _ & Hit & Er & Ep & _); [apply Hv..|].
    rewrite <- Ep. intros E%pend_nil; [|done]. unfold witer_ended in E. rewrite Er in E.
    pose proof (wah_nonempty v Hv). by destruct (wah_words v). }
  destruct (builder_fix_ok b (wah_rem v)) as (ws & -> & Hne' & Hw & El' & Hbits);
    [done| |apply Hv|done|change (2 ^ 30) with 1073741824; lia|].
  { intros E. rewrite E in El. by destruct (decode (wah_words v)). }
  mred. eexists; split; [done|].
  assert (wah_wf (mkWAH (wah_rem v) ws)) as Hr by (split; cbn; [done|done|lia|apply Hv]).
  assert (wah_bits (mkWAH (wah_rem v) ws) = wah_bits v) as Es
    by (unfold wah_bits; cbn; rewrite El', El; done).
  split_and!; [done|done|done|]. intros k Hk.
  rewrite WAHVector_bit_ok; [|done|cbn; pose proof (wah_bits_le v Hv); lia].
  f_equal. unfold wah_get. cbn. rewrite Hbits, Hf; [done|done|].
  unfold wah_bits in *. cbn in *. rewrite El', El. lia.
Qed.

Lemma combine_is op g v1 v2 :
  bitwise31 op g -> wah_wf v1 -> wah_wf v2 -> wah_bits v1 = wah_bits v2 ->
  wah_rem v1 = wah_rem v2 -> safe_end (WAH_combine_words op v1 v2) (wah_rem v1) ->
  (exists r, WAH_combine op v1 v1 v2 = Ret r /\
    wah_is v1 r (fun k => g (wah_get v1 k) (wah_get v2 k))) /\
  (wah_rem v1 = 0 -> WAH_combine op WAHVector_empty v1 v2 = WAH_combine op v1 v1 v2).
Proof.
  intros Hop H1 H2 Es Er Hs. split; [|by unfold WAH_combine; cbn [wah_rem WAHVector_empty]; intros ->].
  assert (length (decode (wah_words v1)) = length (decode (wah_words v2))) as EL.
  { unfold wah_bits in Es. rewrite Er in Es. lia. }
  destruct (combine_words_ok op g v1 v2) as (b & E & Hb & Ed); try done.
  unfold WAH_combine. pose proof (safe_end_spec _ _ b Hs E). rewrite E. mred.
  apply fix_is; try done.
  - rewrite Ed, length_zip_with. lia.
  - intros k Hk. pose proof (wah_bits_le v1 H1). unfold wah_get, bit31. rewrite Ed, lookup_zip_with.
    destruct (lookup_lt_is_Some_2 (decode (wah_words v1)) (Z.to_nat (k / 31))) as [x Hx]; [dlia|].
    destruct (lookup_lt_is_Some_2 (decode (wah_words v2)) (Z.to_nat (k / 31))) as [y Hy]; [dlia|].
    rewrite Hx, Hy. cbn. pose proof (decode_in _ (wah_wok v1 H1)) as D1.
    pose proof (decode_in _ (wah_wok v2 H2)) as D2.
    apply Hop; [by eapply (Forall_lookup_1 _ _ _ _ D1)|by eapply (Forall_lookup_1 _ _ _ _ D2)|dlia].
Qed.

(** [C29] The intersection, union and difference of two compressed vectors of the
    same size, applied to the first one, are those of their bits, whatever the mix
    of fills and literals: the result is well formed and has the same size.  Making
    a new vector gives the same result for a size that is a multiple of 31.  The
    vectors have at most 4638193 bits, padding included (the division by 31 of the
    code is exact up to there); when the size is not a multiple of 31, the last word
    must not be one that [fix] takes for the continuation of a literal. *)
Theorem WAHVector_ops_pointwise v1 v2 :
  wah_wf v1 -> wah_wf v2 -> wah_bits v1 = wah_bits v2 -> wah_rem v1 = wah_rem v2 ->
  (safe_end (WAH_combine_words Z.land v1 v2) (wah_rem v1) ->
   (exists r, WAHVector_applyAnd v1 v2 = Ret r /\
     wah_is v1 r (fun k => wah_get v1 k && wah_get v2 k)) /\
   (wah_rem v1 = 0 -> WAHVector_makeAnd v1 v2 = WAHVector_applyAnd v1 v2)) /\
  (safe_end (WAH_combine_words Z.lor v1 v2) (wah_rem v1) ->
   (exists r, WAHVector_applyOr v1 v2 = Ret r /\
     wah_is v1 r (fun k => wah_get v1 k || wah_get v2 k)) /\
   (wah_rem v1 = 0 -> WAHVector_makeOr v1 v2 = WAHVector_applyOr v1 v2)) /\
  (safe_end (WAH_combine_words (fun a b => Z.land a (u32 (Z.lnot b))) v1 v2) (wah_rem v1) ->
   (exists r, WAHVector_applyReset v1 v2 = Ret r /\
     wah_is v1 r (fun k => wah_get v1 k && negb (wah_get v2 k))) /\
   (wah_rem v1 = 0 -> WAHVector_makeReset v1 v2 = WAHVector_applyReset v1 v2)).
Proof.
  intros H1 H2 Es Er. split_and!; intros Hs.
  - by apply (combine_is _ _ v1 v2 bitwise31_and).
  - by apply (combine_is _ _ v1 v2 bitwise31_or).
  - by apply (combine_is _ _ v1 v2 bitwise31_reset).
Qed.

Definition wah_ex1 : WAHVector := mkWAH 0 [2147483650; 5].      (* 62 zeroes, 101.. *)
Definition wah_ex2 : WAHVector := mkWAH 0 [3; 3221225474].      (* 11.., 62 ones *)

Lemma wah_ex_wf : wah_wf wah_ex1 /\ wah_wf wah_ex2.
Proof.
  split; (split; [done|repeat constructor; done|vm_compute; done|done]).
Qed.

Lemma WAHVector_ops_pointwise_witness :
  exists r, WAHVector_applyOr wah_ex1 wah_ex2 = Ret r /\ WAHVector_bit r 32 = Ret true /\
    WAHVector_bit r 5 = Ret false.
Proof.
  destruct (WAHVector_ops_pointwise wah_ex1 wah_ex2 (proj1 wah_ex_wf) (proj2 wah_ex_wf)
    eq_refl eq_refl) as (_ & H & _).
  destruct H as [(r & E & _ & _ & _ & Hb) _]; [by left|]. exists r.
  split; [exact E|]. split; (rewrite Hb; [reflexivity|by split]).
Defined.

(** Setting or clearing a bit of a compressed vector changes that bit and
    no other, and keeps the vector well formed and of the same size: the
    literal or the fill that holds the bit is split and its neighbours are
    merged again ([fix] being safe as above). *)
Theorem WAHVector_set_bit v i (value : bool) :
  wah_wf v -> 0 <= i < wah_bits v ->
  safe_end (if value then WAH_put_words (fun x => negb (x =? 0)) Z.lor v i
            else WAH_put_words (fun x => x =? 0) (fun x b => Z.land x (u32 (Z.lnot b))) v i)
    (wah_rem v) ->
  exists r, WAHVector_setTo v i value = Ret r /\
    wah_is v r (fun k => if k =? i then value else wah_get v k).
Proof.
  intros Hv Hi. pose proof (wah_bits_le v Hv) as Hle.
  assert (forall keep op, put_op value keep op ->
    safe_end (WAH_put_words keep op v i) (wah_rem v) ->
    exists r, WAH_put keep op v i = Ret r /\
      wah_is v r (fun k => if k =? i then value else wah_get v k)) as H.
  { intros keep op Hop Hs.
    destruct (put_words_ok value keep op v i Hop Hv) as (b & E & Hb & Ed); [lia|].
    pose proof (safe_end_spec _ _ b Hs E). unfold WAH_put. rewrite E. mred.
    apply fix_is; try done; [by rewrite Ed, length_insert|].
    intros k Hk. unfold wah_get, bit31. rewrite Ed.
    destruct (lookup_lt_is_Some_2 (decode (wah_words v)) (Z.to_nat (i / 31))) as [x Hx]; [dlia|].
    rewrite Hx. cbn [default from_option id].
    destruct Hop as [_ Hop]. destruct (Hop x (i mod 31)) as [_ Hbit]; [|dlia|].
    { by eapply (Forall_lookup_1 _ _ _ _ (decode_in _ (wah_wok v Hv))). }
    destruct (Z.eq_dec (k / 31) (i / 31)) as [Ek|].
    - rewrite Ek, list_lookup_insert_eq by dlia. cbn. rewrite Hbit, Hx by dlia.
      assert ((k mod 31 =? i mod 31) = (k =? i)) as ->; [|by destruct (k =? i)].
      apply eq_true_iff_eq. rewrite !Z.eqb_eq. dlia.
    - rewrite list_lookup_insert_ne by dlia. by destruct (Z.eqb_spec k i) as [->|]. }
  destruct value; [apply (H _ _ put_op_set)|apply (H _ _ put_op_clear)].
Qed.

Lemma WAHVector_set_bit_witness :
  exists r, WAHVector_setTo wah_ex1 40 true = Ret r /\ WAHVector_bit r 40 = Ret true /\
    WAHVector_bit r 41 = Ret false.
Proof.
  destruct (WAHVector_set_bit wah_ex1 40 true (proj1 wah_ex_wf)) as (r & E & _ & _ & _ & Hb);
    [vm_compute; done|by left|].
  exists r. split; [exact E|]. split; (rewrite Hb; [reflexivity|by split]).
Defined.

(** A vector made with a size between 1 and about 4.6 millions is well
    formed, has that [size()], and all its bits have the initial value. *)
Theorem WAHVector_make_bits size init :
  0 < size < 4638000 ->
  wah_wf (WAHVector_make size init) /\
  WAHVector_size (WAHVector_make size init) = Ret size /\
  forall k, 0 <= k < size -> WAHVector_bit (WAHVector_make size init) k = Ret init.
Proof.
  intros Hs. unfold WAHVector_make. rewrite WAH_mod_ok, WAH_div_ok by lia.
  rewrite (wrap_small 32) by (unfold inw; dlia).
  set (n := size / 31 + (if negb (size mod 31 =? 0) then 1 else 0)).
  assert (0 < n < 149700 /\ size <= 31 * n <= size + 31 /\ 31 * n - (if size mod 31 =? 0 then 0 else 31 - size mod 31) = size)
    as (Hn & Hn31 & Esz).
  { unfold n. destruct (Z.eqb_spec (size mod 31) 0); cbn; dlia. }
  assert (decode [WAH_fill n init] = replicate (Z.to_nat n) (fill_val init)) as Ed.
  { rewrite decode_one, decode1_fill; [done|]. change (2 ^ 30) with 1073741824. lia. }
  assert (wah_wf (mkWAH (size mod 31) [WAH_fill n init])) as Hwf.
  { split; cbn; [done| | |dlia].
    - constructor; [|done]. apply wok_fill. change (2 ^ 30) with 1073741824. lia.
    - rewrite Ed, length_replicate. lia. }
  split_and!; [done| |].
  - unfold WAHVector_size. cbn [wah_words wah_rem].
    match goal with |- context [for_words ?ws ?body ?s] => destruct (for_words_ok
      (fun done r => r = zlen (decode done)) (fun _ => False) ws body s) as (r & -> & Hr) end.
    + apply Hwf.
    + done.
    + done.
    + intros done w rest it s _ Er Hok He _ _ ->. eexists; split; [done|]. cbn beta iota.
      destruct He as [-> _]. rewrite decode_app, decode_one, length_app. lia.
    + mred. destruct r as [r|]; [|done]. cbn beta iota in Hr. subst r.
      rewrite Ed, length_replicate, WAH_times_ok. f_equal.
      destruct (Z.eqb_spec (size mod 31) 0) as [E|]; cbn; lia.
  - intros k Hk. rewrite WAHVector_bit_ok; [|done|].
    + f_equal. unfold wah_get, bit31. cbn [wah_words]. rewrite Ed.
      rewrite (proj2 (lookup_replicate _ _ _ _)) by (split; [done|dlia]).
      apply fill_val_bit. dlia.
    + cbn [wah_words]. rewrite Ed, length_replicate. revert Esz. case_match; lia.
Qed.

Lemma WAHVector_make_bits_witness :
  WAHVector_size (WAHVector_make 100 true) = Ret 100 /\
  WAHVector_bit (WAHVector_make 100 true) 99 = Ret true.
Proof.
  destruct (WAHVector_make_bits 100 true ltac:(done)) as (_ & H1 & H2).
  split; [exact H1|]. by apply H2.
Defined.

(** *** What goes wrong *)

(** When the last word becomes trivial, [fix] increments the word before it
    without checking that it is a fill: the vector loses its last bits. *)
Example fix_increments_literal :
  foldl (fun m i => v ← m; WAHVector_set v i) (Ret (WAHVector_make 40 false)) (seqZ 30 10)
    = Ret (mkWAH 9 [0x40000001]).
Proof. by vm_compute. Qed.

(** [set()] and [clear()] compute the fill from the number of words. *)
Example setAll_wrong_size : WAHVector_setAll (WAHVector_make 310 false) = Ret (mkWAH 0 [3221225472]).
Proof. by vm_compute. Qed.

(** A vector made by an operation does not get the [rem] of its operands: it has
    the bits of the padding of its last word in addition. *)
Example makeOr_wrong_size :
  (v ← WAHVector_makeOr (WAHVector_make 40 true) (WAHVector_make 40 false); WAHVector_size v) = Ret 62 /\
  (v ← WAHVector_applyOr (WAHVector_make 40 true) (WAHVector_make 40 false); WAHVector_size v) = Ret 40.
Proof. by vm_compute. Qed.
