(* ===== verification/Vectors.v ===== *)
(** * Arrays, vectors and fragmented tables
      ([include/elm/array.h], [include/elm/data/Vector.h], [FragTable.h])

    A vector owns a block [v_tab] of [v_cap] cells of which the [v_cnt] first
    ones are the elements; cells made by [new] hold [dflt].  A fragmented table
    is a vector of pages of [2^shf] cells each. *)

From S2P Require Import Prelude.

(** ** Moving cells inside a block *)

Section Arrays.
Context {A : Type}.

(* src/include/elm/array.h:53-54 array::slow::copy *)
Definition array_copy (l : list A) (dst src n : Z) : outcome (list A) :=
  loop 0 n (fun i l => x ← rd l (src + i); wr l (dst + i) x) l.

(* src/include/elm/array.h:55-56 array::slow::copy_back *)
Definition array_copy_back (l : list A) (dst src n : Z) : outcome (list A) :=
  loop 0 n (fun k l => let i := n - 1 - k in x ← rd l (src + i); wr l (dst + i) x) l.

(** [memmove] fails on a size that is negative, or out of the block. *)
(* src/include/elm/array.h:40-41 array::fast::move *)
Definition array_memmove (l : list A) (dst src n : Z) : outcome (list A) :=
  if (0 <=? n) && (0 <=? dst) && (0 <=? src)
     && (dst + n <=? zlen l) && (src + n <=? zlen l) then
    Ret (take (Z.to_nat dst) l ++ take (Z.to_nat n) (drop (Z.to_nat src) l)
         ++ drop (Z.to_nat (dst + n)) l)
  else Crash OutOfBounds.

(** [is_deep] selects the element-wise version. *)
(* src/include/elm/array.h:57-58 array::move *)
Definition array_move (is_deep : bool) (l : list A) (dst src n : Z) : outcome (list A) :=
  if is_deep then
    if dst <? src then array_copy l dst src n else array_copy_back l dst src n
  else array_memmove l dst src n.

(* src/include/elm/array.h:95-96 array::reverse *)
Definition array_reverse (l : list A) (n : Z) : outcome (list A) :=
  loop 0 (n / 2) (fun i l =>
    a ← rd l i; b ← rd l (n - 1 - i); l ← wr l i b; wr l (n - 1 - i) a) l.

(** What a move inside a block has to do: the [n] cells from [src] are found
    at [dst] and the other cells do not change. *)
Definition moved (l : list A) (dst src n : Z) (l' : list A) : Prop :=
  length l' = length l /\
  forall j, 0 <= j -> l' !! Z.to_nat j =
    if (dst <=? j) && (j <? dst + n) then l !! Z.to_nat (j - dst + src) else l !! Z.to_nat j.

Definition in_block (l : list A) (from n : Z) : Prop := 0 <= from /\ 0 <= n /\ from + n <= zlen l.

Ltac zcase := repeat match goal with
  | |- context [?a <=? ?b] => destruct (Z.leb_spec a b)
  | |- context [?a <? ?b] => destruct (Z.ltb_spec a b) end; cbn [andb]; try lia.

Lemma array_copy_ok l dst src n :
  in_block l dst n -> in_block l src n -> dst <= src ->
  exists l', array_copy l dst src n = Ret l' /\ moved l dst src n l'.
Proof.
  intros (D0 & N0 & D1) (S0 & _ & S1) Hle. unfold array_copy.
  loop_with (fun i l' => moved l dst src i l').
  - done.
  - split; [done|]. intros j Hj. by zcase.
  - intros i l' Hi [Hl Hm]. cbn beta.
    destruct (lookup_lt_is_Some_2 l (Z.to_nat (src + i))) as [x Hx]; [lia|].
    rewrite (rd_ok l' (src + i) x); [|lia|rewrite Hm by lia; zcase; rewrite <- Hx; try (f_equal; lia)].
    mred. rewrite wr_ok by lia. eexists; split; [done|]. split; [by rewrite length_insert|].
    intros j Hj. destruct (Z.eq_dec j (dst + i)) as [->|Hne].
    + rewrite list_lookup_insert_eq by lia. zcase. rewrite <- Hx. f_equal. lia.
    + rewrite list_lookup_insert_ne by lia. rewrite Hm by done. by zcase.
  - by eexists.
Qed.

Lemma array_copy_back_ok l dst src n :
  in_block l dst n -> in_block l src n -> src <= dst ->
  exists l', array_copy_back l dst src n = Ret l' /\ moved l dst src n l'.
Proof.
  intros (D0 & N0 & D1) (S0 & _ & S1) Hle. unfold array_copy_back.
  loop_with (fun k l' => moved l (dst + (n - k)) (src + (n - k)) k l').
  - done.
  - split; [done|]. intros j Hj. by zcase.
  - intros k l' Hk [Hl Hm]. cbn beta zeta.
    destruct (lookup_lt_is_Some_2 l (Z.to_nat (src + (n - 1 - k)))) as [x Hx]; [lia|].
    rewrite (rd_ok l' _ x); [|lia|rewrite Hm by lia; zcase; rewrite <- Hx; try (f_equal; lia)].
    mred. rewrite wr_ok by lia. eexists; split; [done|]. split; [by rewrite length_insert|].
    intros j Hj. destruct (Z.eq_dec j (dst + (n - 1 - k))) as [->|Hne].
    + rewrite list_lookup_insert_eq by lia. zcase. rewrite <- Hx. f_equal. lia.
    + rewrite list_lookup_insert_ne by lia. rewrite Hm by done. zcase; f_equal; lia.
  - eexists; split; [done|]. destruct Hr as [Hl Hm]. split; [done|]. intros j Hj.
    rewrite Hm by done. rewrite !Z.sub_diag, !Z.add_0_r. done.
Qed.

Lemma array_memmove_ok l dst src n :
  in_block l dst n -> in_block l src n ->
  exists l', array_memmove l dst src n = Ret l' /\ moved l dst src n l'.
Proof.
  intros (D0 & N0 & D1) (S0 & _ & S1). unfold array_memmove.
  rewrite !(proj2 (Z.leb_le _ _)) by lia. cbn. eexists; split; [done|].
  assert (length (take (Z.to_nat n) (drop (Z.to_nat src) l)) = Z.to_nat n) as El
    by (rewrite length_take, length_drop; lia).
  split.
  - rewrite !length_app, El, length_take, length_drop. lia.
  - intros j Hj. zcase.
    + rewrite lookup_app_r by (rewrite length_take; lia). rewrite length_take.
      rewrite lookup_app_l by (rewrite El; lia). rewrite lookup_take_lt, lookup_drop by lia.
      f_equal. lia.
    + rewrite lookup_app_r by (rewrite length_take; lia). rewrite length_take.
      rewrite lookup_app_r by (rewrite El; lia). rewrite El, lookup_drop. f_equal. lia.
    + rewrite lookup_app_l by (rewrite length_take; lia). by rewrite lookup_take_lt by lia.
Qed.

Lemma array_move_ok deep l dst src n :
  in_block l dst n -> in_block l src n ->
  exists l', array_move deep l dst src n = Ret l' /\ moved l dst src n l'.
Proof.
  intros Hd Hs. unfold array_move. destruct deep; [|by apply array_memmove_ok].
  destruct (Z.ltb_spec dst src); [apply array_copy_ok|apply array_copy_back_ok]; done || lia.
Qed.

Lemma moved_fun l dst src n l1 l2 :
  moved l dst src n l1 -> moved l dst src n l2 -> l1 = l2.
Proof.
  intros [_ H1] [_ H2]. apply list_eq. intros i.
  specialize (H1 (Z.of_nat i) ltac:(lia)). specialize (H2 (Z.of_nat i) ltac:(lia)).
  rewrite Nat2Z.id in *. congruence.
Qed.
End Arrays.

(** Moving cells inside a block is right even when the two zones overlap:
    the element-wise version, which chooses the direction of the copy, does
    what [memmove] does. *)
Theorem array_move_overlap {A} (l : list A) dst src n :
  in_block l dst n -> in_block l src n ->
  exists l', array_move true l dst src n = Ret l' /\ array_move false l dst src n = Ret l' /\
    moved l dst src n l'.
Proof.
  intros Hd Hs. destruct (array_move_ok true l dst src n Hd Hs) as (l1 & E1 & M1).
  destruct (array_move_ok false l dst src n Hd Hs) as (l2 & E2 & M2).
  rewrite (moved_fun _ _ _ _ _ _ M2 M1) in E2. by exists l1.
Qed.

Lemma array_move_overlap_witness :
  exists l, array_move true [1; 2; 3; 4; 5] 1 0 4 = Ret l /\ l = [1; 1; 2; 3; 4].
Proof.
  destruct (array_move_overlap [1; 2; 3; 4; 5] 1 0 4) as (l & E & _).
  1,2: unfold in_block; cbn; lia.
  exists l. split; [exact E|]. vm_compute in E. by injection E as <-.
Defined.

(** ** Vectors *)

(* src/include/elm/data/Vector.h:194-196 Vector *)
Record Vector (A : Type) := mkVec { v_tab : list A; v_cap : Z; v_cnt : Z }.
Arguments mkVec {A} _ _ _.
Arguments v_tab {A} _.
Arguments v_cap {A} _.
Arguments v_cnt {A} _.

Section Vector.
Context {A : Type} (dflt : A) (deep : bool) (equals : A -> A -> bool).
Implicit Types v : Vector A.

(* src/include/elm/data/Vector.h:35-37 Vector::newVec *)
Definition Vector_newVec (size : Z) : list A := replicate (Z.to_nat size) dflt.
(* src/include/elm/data/Vector.h:44-44 Vector::Vector *)
Definition Vector_make (cap : Z) : Vector A := mkVec (Vector_newVec cap) cap 0.

(* src/include/elm/data/Vector.h:55-56 Vector::detach *)
Definition Vector_detach v : Vector A * list A := (mkVec [] (v_cap v) 0, take (Z.to_nat (v_cnt v)) (v_tab v)).

(* src/include/elm/data/Vector.h:57-59 Vector::grow *)
Definition Vector_grow v (new_cap : Z) : outcome (Vector A) :=
  assertP (v_cap v <=? new_cap) ;;
  t ← memcpy (Vector_newVec new_cap) 0 (v_tab v) (v_cnt v);
  Ret (mkVec t new_cap (v_cnt v)).

(** [for(new_cap = 1; new_cap < new_length; new_cap *= 2);] *)
Definition grow_cap (new_length : Z) : outcome Z :=
  iter (S (Z.to_nat new_length)) (fun c =>
    if c <? new_length then c ← int_of (c * 2); Ret (inl c) else Ret (inr c)) 1.

(* src/include/elm/data/Vector.h:60-63 Vector::setLength *)
Definition Vector_setLength v (new_length : Z) : outcome (Vector A) :=
  assertP (0 <=? new_length) ;;
  new_cap ← grow_cap new_length;
  v ← (if v_cap v <? new_cap then Vector_grow v new_cap else Ret v);
  Ret (mkVec (v_tab v) (v_cap v) new_length).

(** [if(cnt >= cap) grow(cap * 2);] *)
Definition Vector_room v : outcome (Vector A) :=
  if v_cap v <=? v_cnt v then c ← int_of (v_cap v * 2); Vector_grow v c else Ret v.

(* src/include/elm/data/Vector.h:115-115 Vector::add *)
Definition Vector_add v (x : A) : outcome (Vector A) :=
  v ← Vector_room v;
  t ← wr (v_tab v) (v_cnt v) x;
  Ret (mkVec t (v_cap v) (v_cnt v + 1)).

(** The cell is returned by reference, that is, its index: it keeps its value. *)
(* src/include/elm/data/Vector.h:64-64 Vector::addNew *)
Definition Vector_addNew v : outcome (Z * Vector A) :=
  v ← Vector_room v; rd (v_tab v) (v_cnt v) ;;
  Ret (v_cnt v, mkVec (v_tab v) (v_cap v) (v_cnt v + 1)).

(* src/include/elm/data/Vector.h:116-117 Vector::addAll *)
Fixpoint Vector_addAll v (c : list A) : outcome (Vector A) :=
  match c with [] => Ret v | x :: c => v ← Vector_add v x; Vector_addAll v c end.

(* src/include/elm/data/Vector.h:114-114 Vector::clear *)
Definition Vector_clear v : Vector A := mkVec (v_tab v) (v_cap v) 0.
(* src/include/elm/data/Vector.h:88-88 Vector::count *)
Definition Vector_count v : Z := v_cnt v.
(* src/include/elm/data/Vector.h:93-94 Vector::isEmpty *)
Definition Vector_isEmpty v : bool := v_cnt v =? 0.

(* src/include/elm/data/Vector.h:131-132 Vector::get *)
Definition Vector_get v (i : Z) : outcome A :=
  assertP ((0 <=? i) && (i <? v_cnt v)) ;; rd (v_tab v) i.
(** The version on mutable vectors does not test negative indices. *)
(* src/include/elm/data/Vector.h:147-148 Vector::get *)
Definition Vector_getRef v (i : Z) : outcome A := assertP (i <? v_cnt v) ;; rd (v_tab v) i.
(* src/include/elm/data/Vector.h:144-145 Vector::set *)
Definition Vector_set v (i : Z) (x : A) : outcome (Vector A) :=
  assertP ((0 <=? i) && (i <? v_cnt v)) ;;
  t ← wr (v_tab v) i x; Ret (mkVec t (v_cap v) (v_cnt v)).

(* src/include/elm/data/Vector.h:133-135 Vector::indexOf *)
Definition Vector_indexOf v (x : A) (p : Z) : outcome Z :=
  assertP ((0 <=? p) && (p <=? v_cnt v)) ;;
  r ← scan p (v_cnt v) (fun i =>
        y ← rd (v_tab v) i; Ret (if equals x y then Some i else None));
  Ret (default (-1) r).

(* src/include/elm/data/Vector.h:136-138 Vector::lastIndexOf *)
Definition Vector_lastIndexOf v (x : A) (p : Z) : outcome Z :=
  assertP (p <=? v_cnt v) ;;
  let top := if p <? 0 then v_cnt v else p in
  r ← scan 0 top (fun k => let i := top - 1 - k in
        y ← rd (v_tab v) i; Ret (if equals x y then Some i else None));
  Ret (default (-1) r).

(* src/include/elm/data/Vector.h:89-90 Vector::contains *)
Definition Vector_contains v (x : A) : outcome bool :=
  r ← scan 0 (v_cnt v) (fun i => y ← Vector_get v i; Ret (if equals x y then Some true else None));
  Ret (default false r).

(* src/include/elm/data/Vector.h:91-92 Vector::containsAll *)
Fixpoint Vector_containsAll v (items : list A) : outcome bool :=
  match items with
  | [] => Ret true
  | x :: items => b ← Vector_contains v x;
      if (b : bool) then Vector_containsAll v items else Ret false
  end.

(* src/include/elm/data/Vector.h:96-98 Vector::equals *)
Definition Vector_equals v (c : list A) : outcome bool :=
  r ← scan 0 (zlen c) (fun i =>
        x ← rd c i;
        if v_cnt v <=? i then Ret (Some false) else
        y ← rd (v_tab v) i; Ret (if negb (equals y x) then Some false else None));
  Ret (default (zlen c =? v_cnt v) r).

(* src/include/elm/data/Vector.h:165-166 Vector::find *)
Definition Vector_find v (x : A) : outcome Z :=
  r ← scan 0 (v_cnt v) (fun i => y ← Vector_get v i; Ret (if equals y x then Some i else None));
  Ret (default (v_cnt v) r).

(* src/include/elm/data/Vector.h:142-143 Vector::shrink *)
Definition Vector_shrink v (l : Z) : outcome (Vector A) :=
  assertP ((0 <=? l) && (l <=? v_cnt v)) ;; Ret (mkVec (v_tab v) (v_cap v) l).

(* src/include/elm/data/Vector.h:152-155 Vector::insert *)
Definition Vector_insert v (i : Z) (x : A) : outcome (Vector A) :=
  assertP ((0 <=? i) && (i <=? v_cnt v)) ;;
  v ← Vector_room v;
  t ← array_move deep (v_tab v) (i + 1) i (v_cnt v - i);
  t ← wr t i x;
  Ret (mkVec t (v_cap v) (v_cnt v + 1)).

(* src/include/elm/data/Vector.h:157-159 Vector::removeAt *)
Definition Vector_removeAt v (i : Z) : outcome (Vector A) :=
  assertP ((0 <=? i) && (i <=? v_cnt v)) ;;
  t ← array_move deep (v_tab v) i (i + 1) (v_cnt v - i - 1);
  Ret (mkVec t (v_cap v) (v_cnt v - 1)).

(* src/include/elm/data/Vector.h:118-118 Vector::remove *)
Definition Vector_remove v (x : A) : outcome (Vector A) :=
  i ← Vector_indexOf v x 0; if 0 <=? i then Vector_removeAt v i else Ret v.
(* src/include/elm/data/Vector.h:119-120 Vector::removeAll *)
Fixpoint Vector_removeAll v (c : list A) : outcome (Vector A) :=
  match c with [] => Ret v | x :: c => v ← Vector_remove v x; Vector_removeAll v c end.

(* src/include/elm/data/Vector.h:124-127 Vector::copy *)
Definition Vector_copy v (vec : Vector A) : outcome (Vector A) :=
  let '(tab, cap) := match v_tab v with
    | [] => (Vector_newVec (v_cap vec), v_cap vec)
    | t => if v_cap v <? v_cnt vec then (Vector_newVec (v_cap vec), v_cap vec)
           else (t, v_cap v) end in
  t ← memcpy tab 0 (v_tab vec) (v_cnt vec);
  Ret (mkVec t cap (v_cnt vec)).

(* src/include/elm/data/Vector.h:163-163 Vector::first *)
Definition Vector_first v : outcome A := assertP (0 <? v_cnt v) ;; rd (v_tab v) 0.
(* src/include/elm/data/Vector.h:164-164 Vector::last *)
Definition Vector_last v : outcome A := assertP (0 <? v_cnt v) ;; rd (v_tab v) (v_cnt v - 1).
(* src/include/elm/data/Vector.h:174-174 Vector::addFirst *)
Definition Vector_addFirst v (x : A) : outcome (Vector A) := Vector_insert v 0 x.
(* src/include/elm/data/Vector.h:176-176 Vector::removeFirst *)
Definition Vector_removeFirst v : outcome (Vector A) := Vector_removeAt v 0.
(* src/include/elm/data/Vector.h:177-177 Vector::removeLast *)
Definition Vector_removeLast v : outcome (Vector A) := Vector_removeAt v (v_cnt v - 1).
(* src/include/elm/data/Vector.h:178-181 Vector::addAfter *)
Definition Vector_addAfter v (i : Z) (x : A) : outcome (Vector A) := Vector_insert v (i + 1) x.
(* src/include/elm/data/Vector.h:184-185 Vector::top *)
Definition Vector_top v : outcome A := Vector_last v.
(* src/include/elm/data/Vector.h:186-186 Vector::pop *)
Definition Vector_pop v : outcome (A * Vector A) :=
  assertP (0 <? v_cnt v) ;;
  x ← rd (v_tab v) (v_cnt v - 1); Ret (x, mkVec (v_tab v) (v_cap v) (v_cnt v - 1)).
(* src/include/elm/data/Vector.h:187-188 Vector::push *)
Definition Vector_push v (x : A) : outcome (Vector A) := Vector_add v x.
End Vector.

(** ** A vector is the list of its elements *)

Section VectorSpec.
Context {A : Type} (dflt : A) (deep : bool) (equals : A -> A -> bool).
Implicit Types v : Vector A.

(** The vector [v] holds the list [l]. *)
Record vec_rep (v : Vector A) (l : list A) : Prop := {
  vr_cap : 1 <= v_cap v;
  vr_tab : zlen (v_tab v) = v_cap v;
  vr_cnt : zlen l = v_cnt v;
  vr_le : v_cnt v <= v_cap v;
  vr_get : forall j, 0 <= j < v_cnt v -> v_tab v !! Z.to_nat j = l !! Z.to_nat j }.

(** The effect of the operations on lists. *)
Definition list_insert (i : Z) (x : A) (l : list A) : list A :=
  take (Z.to_nat i) l ++ x :: drop (Z.to_nat i) l.
Definition list_remove (i : Z) (l : list A) : list A :=
  take (Z.to_nat i) l ++ drop (S (Z.to_nat i)) l.

Lemma list_insert_lookup i x l j :
  0 <= i <= zlen l -> 0 <= j ->
  list_insert i x l !! Z.to_nat j =
    if j <? i then l !! Z.to_nat j else if j =? i then Some x else l !! Z.to_nat (j - 1).
Proof.
  intros Hi Hj. unfold list_insert. destruct (Z.ltb_spec j i).
  - rewrite lookup_app_l by (rewrite length_take; lia). by rewrite lookup_take_lt by lia.
  - rewrite lookup_app_r by (rewrite length_take; lia). rewrite length_take.
    destruct (Z.eqb_spec j i) as [->|].
    + by replace (Z.to_nat i - _)%nat with 0%nat by lia.
    + replace (Z.to_nat j - _)%nat with (S (Z.to_nat (j - 1 - i))) by lia.
      change ((x :: ?k) !! S ?n) with (k !! n).
      rewrite lookup_drop. f_equal. lia.
Qed.
Lemma list_insert_length i x l : length (list_insert i x l) = S (length l).
Proof. unfold list_insert. rewrite length_app. cbn. rewrite length_take, length_drop. lia. Qed.

Lemma list_remove_lookup i l j :
  0 <= i < zlen l -> 0 <= j ->
  list_remove i l !! Z.to_nat j = if j <? i then l !! Z.to_nat j else l !! Z.to_nat (j + 1).
Proof.
  intros Hi Hj. unfold list_remove. destruct (Z.ltb_spec j i).
  - rewrite lookup_app_l by (rewrite length_take; lia). by rewrite lookup_take_lt by lia.
  - rewrite lookup_app_r by (rewrite length_take; lia). rewrite length_take, lookup_drop.
    f_equal. lia.
Qed.
Lemma list_remove_length i l : 0 <= i < zlen l -> zlen (list_remove i l) = zlen l - 1.
Proof. intros. unfold list_remove. rewrite length_app, length_take, length_drop. lia. Qed.

Lemma vec_rep_take v l : vec_rep v l -> l = take (Z.to_nat (v_cnt v)) (v_tab v).
Proof.
  intros [H1 H2 H3 H4 H5]. apply list_eq_same_length with (length l); [|done|].
  - rewrite length_take. lia.
  - intros i x y Hi Hx Hy. rewrite lookup_take_lt in Hy by lia.
    specialize (H5 (Z.of_nat i) ltac:(lia)). rewrite Nat2Z.id in H5. congruence.
Qed.

Lemma make_rep cap : 1 <= cap -> vec_rep (Vector_make dflt cap) [].
Proof.
  intros. split; cbn; try lia. unfold Vector_newVec. rewrite length_replicate. lia.
Qed.

Lemma grow_rep v l c :
  vec_rep v l -> v_cap v <= c ->
  exists v', Vector_grow dflt v c = Ret v' /\ vec_rep v' l /\ v_cap v' = c.
Proof.
  intros [H1 H2 H3 H4 H5] Hc. unfold Vector_grow, memcpy.
  rewrite (proj2 (Z.leb_le _ _)) by lia. mred. unfold Vector_newVec. rewrite length_replicate.
  rewrite !(proj2 (Z.leb_le _ _)) by lia. mred. eexists; split; [done|].
  split; [|done]. split; cbn.
  - lia.
  - rewrite !length_app, !length_take, length_drop, length_replicate. lia.
  - done.
  - lia.
  - intros j Hj. change (Z.to_nat 0) with 0%nat. rewrite take_0, app_nil_l.
    rewrite lookup_app_l by (rewrite length_take; lia).
    rewrite lookup_take_lt by lia. by apply H5.
Qed.

(** Makes room for one element: below this number of elements, the capacity is
    doubled in an [int]. *)
Definition VEC_MAX : Z := 1073741824.
Lemma room_rep v l :
  vec_rep v l -> zlen l < VEC_MAX ->
  exists v', Vector_room dflt v = Ret v' /\ vec_rep v' l /\ v_cnt v' < v_cap v'.
Proof.
  intros Hv Hmax. pose proof Hv as [H1 H2 H3 H4 H5]. unfold Vector_room, VEC_MAX in *.
  destruct (Z.leb_spec (v_cap v) (v_cnt v)).
  - rewrite int_of_ok by lia. mred. destruct (grow_rep v l (v_cap v * 2) Hv) as (v' & E & Hv' & Ec); [lia|].
    exists v'. split; [done|]. split; [done|]. pose proof (vr_cnt _ _ Hv'). lia.
  - exists v. by split_and!.
Qed.

Lemma add_rep v l x :
  vec_rep v l -> zlen l < VEC_MAX -> exists v', Vector_add dflt v x = Ret v' /\ vec_rep v' (l ++ [x]).
Proof.
  intros Hv Hmax. unfold Vector_add. destruct (room_rep v l Hv Hmax) as (v1 & -> & [H1 H2 H3 H4 H5] & Hr).
  mred. rewrite wr_ok by lia. mred. eexists; split; [done|]. split; cbn; try lia.
  - by rewrite length_insert.
  - rewrite length_app. cbn. lia.
  - intros j Hj. destruct (Z.eq_dec j (v_cnt v1)) as [->|].
    + rewrite list_lookup_insert_eq by lia. rewrite <- H3, Nat2Z.id. by rewrite list_lookup_middle.
    + rewrite list_lookup_insert_ne by lia. rewrite lookup_app_l by lia. apply H5. lia.
Qed.

Lemma get_rep v l i :
  vec_rep v l -> 0 <= i < zlen l -> exists x, Vector_get v i = Ret x /\ l !! Z.to_nat i = Some x.
Proof.
  intros [H1 H2 H3 H4 H5] Hi. unfold Vector_get.
  rewrite (proj2 (Z.leb_le _ _)), (proj2 (Z.ltb_lt _ _)) by lia. mred.
  destruct (rd_runs (v_tab v) i) as [x E]; [lia|]. exists x. split; [done|].
  apply rd_inv in E as [_ <-]. symmetry. apply H5. lia.
Qed.

Lemma set_rep v l i x :
  vec_rep v l -> 0 <= i < zlen l ->
  exists v', Vector_set v i x = Ret v' /\ vec_rep v' (<[Z.to_nat i := x]> l).
Proof.
  intros [H1 H2 H3 H4 H5] Hi. unfold Vector_set.
  rewrite (proj2 (Z.leb_le _ _)), (proj2 (Z.ltb_lt _ _)) by lia. mred.
  rewrite wr_ok by lia. mred. eexists; split; [done|]. split; cbn; rewrite ?length_insert; try lia.
  intros j Hj. destruct (Z.eq_dec j i) as [->|].
  - by rewrite !list_lookup_insert_eq by lia.
  - rewrite !list_lookup_insert_ne by lia. by apply H5.
Qed.

Lemma insert_rep v l i x :
  vec_rep v l -> zlen l < VEC_MAX -> 0 <= i <= zlen l ->
  exists v', Vector_insert dflt deep v i x = Ret v' /\ vec_rep v' (list_insert i x l).
Proof.
  intros Hv Hmax Hi. unfold Vector_insert. pose proof (vr_cnt _ _ Hv) as Hc.
  rewrite (proj2 (Z.leb_le 0 i)), (proj2 (Z.leb_le i (v_cnt v))) by lia. mred.
  destruct (room_rep v l Hv Hmax) as (v1 & -> & [H1 H2 H3 H4 H5] & Hr). mred.
  destruct (array_move_ok deep (v_tab v1) (i + 1) i (v_cnt v1 - i)) as (t & -> & Hl & Hm);
    [unfold in_block; lia..|]. mred.
  rewrite wr_ok by lia. mred. eexists; split; [done|].
  split; cbn; rewrite ?length_insert, ?list_insert_length; try lia.
  intros j Hj. rewrite list_insert_lookup by lia.
  destruct (Z.ltb_spec j i).
  - rewrite list_lookup_insert_ne, Hm by lia. destruct (Z.leb_spec (i + 1) j); [lia|].
    apply H5. lia.
  - destruct (Z.eqb_spec j i) as [->|]; [by rewrite list_lookup_insert_eq by lia|].
    rewrite list_lookup_insert_ne, Hm by lia. rewrite (proj2 (Z.leb_le _ _)), (proj2 (Z.ltb_lt _ _)) by lia.
    cbn. rewrite <- H5 by lia. f_equal. lia.
Qed.

Lemma removeAt_rep v l i :
  vec_rep v l -> 0 <= i < zlen l ->
  exists v', Vector_removeAt deep v i = Ret v' /\ vec_rep v' (list_remove i l).
Proof.
  intros [H1 H2 H3 H4 H5] Hi. unfold Vector_removeAt.
  rewrite !(proj2 (Z.leb_le _ _)) by lia. mred.
  destruct (array_move_ok deep (v_tab v) i (i + 1) (v_cnt v - i - 1)) as (t & -> & Hl & Hm);
    [unfold in_block; lia..|]. mred. eexists; split; [done|].
  split; cbn; rewrite ?list_remove_length by lia; try lia.
  intros j Hj. rewrite list_remove_lookup, Hm by lia. destruct (Z.ltb_spec j i).
  - destruct (Z.leb_spec i j); [lia|]. apply H5. lia.
  - rewrite (proj2 (Z.leb_le _ _)), (proj2 (Z.ltb_lt _ _)) by lia. cbn.
    rewrite <- H5 by lia. f_equal. lia.
Qed.

Lemma shrink_rep v l n :
  vec_rep v l -> 0 <= n <= zlen l ->
  exists v', Vector_shrink v n = Ret v' /\ vec_rep v' (take (Z.to_nat n) l).
Proof.
  intros [H1 H2 H3 H4 H5] Hn. unfold Vector_shrink.
  rewrite !(proj2 (Z.leb_le _ _)) by lia. mred. eexists; split; [done|].
  split; cbn; rewrite ?length_take; try lia. intros j Hj.
  rewrite lookup_take_lt by lia. apply H5. lia.
Qed.

Lemma pop_rep v l x :
  vec_rep v (l ++ [x]) -> exists v', Vector_pop v = Ret (x, v') /\ vec_rep v' l.
Proof.
  intros [H1 H2 H3 H4 H5]. rewrite length_app in H3. cbn in H3. unfold Vector_pop.
  rewrite (proj2 (Z.ltb_lt _ _)) by lia. mred.
  rewrite (rd_ok _ _ x); [|lia|]. mred.
  2: { rewrite H5 by lia. replace (Z.to_nat (v_cnt v - 1)) with (length l) by lia.
       by apply list_lookup_middle. }
  eexists; split; [done|]. split; cbn; try lia. intros j Hj. rewrite H5 by lia.
  by rewrite lookup_app_l by lia.
Qed.

Lemma indexOf_rep v l x p :
  vec_rep v l -> 0 <= p <= zlen l ->
  exists i, Vector_indexOf equals v x p = Ret i /\
    ((i = -1 /\ forall j y, p <= j -> l !! Z.to_nat j = Some y -> equals x y = false) \/
     (p <= i < zlen l /\ (exists y, l !! Z.to_nat i = Some y /\ equals x y = true) /\
      forall j y, p <= j < i -> l !! Z.to_nat j = Some y -> equals x y = false)).
Proof.
  intros [H1 H2 H3 H4 H5] Hp. unfold Vector_indexOf.
  rewrite !(proj2 (Z.leb_le _ _)) by lia. mred.
  match goal with |- context [scan p ?n ?f] =>
    destruct (scan_spec (fun i => match l !! Z.to_nat i with
      | Some y => if equals x y then Some i else None | None => None end) p n f)
      as (r & -> & Hr) end.
  { intros i Hi. destruct (lookup_lt_is_Some_2 l (Z.to_nat i)) as [y Hy]; [lia|].
    rewrite (rd_ok _ _ y) by (lia || (rewrite H5 by lia; done)). mred. by rewrite Hy. }
  mred. eexists; split; [done|]. destruct r as [k|]; cbn.
  - right. destruct Hr as (i & Hi & E & Hj).
    destruct (l !! Z.to_nat i) as [y|] eqn:Ey; [|done].
    destruct (equals x y) eqn:Ex; [|done]. injection E as ->. split_and!; [lia|lia|by eauto|].
    intros j z Hjz Ez. specialize (Hj j Hjz). rewrite Ez in Hj. by destruct (equals x z).
  - left. split; [done|]. intros j y Hj Ey.
    pose proof (lookup_lt_Some _ _ _ Ey). specialize (Hr j ltac:(lia)).
    rewrite Ey in Hr. by destruct (equals x y).
Qed.

(** A vector as a stack. *)
Lemma top_rep v l x : vec_rep v (l ++ [x]) -> Vector_top v = Ret x.
Proof.
  intros [H1 H2 H3 H4 H5]. rewrite length_app in H3. cbn in H3. unfold Vector_top, Vector_last.
  rewrite (proj2 (Z.ltb_lt _ _)) by lia. mred. apply rd_ok; [lia|]. rewrite H5 by lia.
  rewrite lookup_app_r by lia. by replace (Z.to_nat (v_cnt v - 1) - length l)%nat with 0%nat by lia.
Qed.
Lemma empty_rep v l : vec_rep v l -> Vector_isEmpty v = bool_decide (l = []).
Proof.
  intros [H1 H2 H3 H4 H5]. unfold Vector_isEmpty. rewrite <- H3. destruct l; [done|]. cbn.
  by rewrite (proj2 (Z.eqb_neq _ _)) by lia.
Qed.
End VectorSpec.

(** *** Sequences of operations *)

Inductive vec_op (A : Type) :=
  | VAdd (x : A) | VInsert (i : Z) (x : A) | VRemoveAt (i : Z) | VSet (i : Z) (x : A)
  | VShrink (n : Z) | VPop | VClear | VAddAll (c : list A).
Arguments VAdd {A} _. Arguments VInsert {A} _ _. Arguments VRemoveAt {A} _.
Arguments VSet {A} _ _. Arguments VShrink {A} _. Arguments VPop {A}.
Arguments VClear {A}. Arguments VAddAll {A} _.

Definition vec_exec {A} (dflt : A) (deep : bool) (v : Vector A) (o : vec_op A) : outcome (Vector A) :=
  match o with
  | VAdd x => Vector_add dflt v x
  | VInsert i x => Vector_insert dflt deep v i x
  | VRemoveAt i => Vector_removeAt deep v i
  | VSet i x => Vector_set v i x
  | VShrink n => Vector_shrink v n
  | VPop => r ← Vector_pop v; Ret r.2
  | VClear => Ret (Vector_clear v)
  | VAddAll c => Vector_addAll dflt v c
  end.

(** The specification: the operation on the list of the elements, where it is
    allowed: the indices are valid and a vector has [VEC_MAX] elements at most. *)
Definition list_exec {A} (l : list A) (o : vec_op A) : option (list A) :=
  let n := zlen l in
  match o with
  | VAdd x => if n <? VEC_MAX then Some (l ++ [x]) else None
  | VInsert i x => if (n <? VEC_MAX) && ((0 <=? i) && (i <=? n)) then Some (list_insert i x l) else None
  | VRemoveAt i => if (0 <=? i) && (i <? n) then Some (list_remove i l) else None
  | VSet i x => if (0 <=? i) && (i <? n) then Some (<[Z.to_nat i := x]> l) else None
  | VShrink k => if (0 <=? k) && (k <=? n) then Some (take (Z.to_nat k) l) else None
  | VPop => if 0 <? n then Some (take (length l - 1) l) else None
  | VClear => Some []
  | VAddAll c => if n + zlen c <=? VEC_MAX then Some (l ++ c) else None
  end.

Fixpoint exec_all {S O} (step : S -> O -> outcome S) (s : S) (os : list O) : outcome S :=
  match os with [] => Ret s | o :: os => s ← step s o; exec_all step s os end.
Fixpoint spec_all {S O} (step : S -> O -> option S) (s : S) (os : list O) : option S :=
  match os with [] => Some s | o :: os => s ← step s o; spec_all step s os end.

Lemma addAll_rep {A} (dflt : A) c : forall v l,
  vec_rep v l -> zlen l + zlen c <= VEC_MAX ->
  exists v', Vector_addAll dflt v c = Ret v' /\ vec_rep v' (l ++ c).
Proof.
  induction c as [|x c IH]; intros v l Hv Hmax; cbn [Vector_addAll length] in *.
  - exists v. by rewrite app_nil_r.
  - destruct (add_rep dflt v l x Hv) as (v1 & -> & H1); [lia|]. mred.
    destruct (IH v1 _ H1) as (v2 & E & H2); [rewrite length_app; cbn [length]; lia|]. exists v2. split; [done|].
    by rewrite <- app_assoc in H2.
Qed.

Lemma vec_exec_rep {A} (dflt : A) deep v l o l' :
  vec_rep v l -> list_exec l o = Some l' ->
  exists v', vec_exec dflt deep v o = Ret v' /\ vec_rep v' l'.
Proof.
  intros Hv. pose proof (vr_cnt _ _ Hv) as Hc. destruct o; cbn -[Z.ltb].
  - destruct (Z.ltb_spec (zlen l) VEC_MAX); [|done]. intros [= <-]. by apply add_rep.
  - destruct (Z.ltb_spec (zlen l) VEC_MAX), (Z.leb_spec 0 i), (Z.leb_spec i (zlen l)); cbn; try done. intros [= <-].
    by apply insert_rep.
  - destruct (Z.leb_spec 0 i), (Z.ltb_spec i (zlen l)); cbn; try done. intros [= <-].
    by apply removeAt_rep.
  - destruct (Z.leb_spec 0 i), (Z.ltb_spec i (zlen l)); cbn; try done. intros [= <-].
    by apply set_rep.
  - destruct (Z.leb_spec 0 n), (Z.leb_spec n (zlen l)); cbn; try done. intros [= <-].
    by apply shrink_rep.
  - destruct (Z.ltb_spec 0 (zlen l)); [|done]. intros [= <-].
    destruct l as [|x l _] using rev_ind; [done|].
    destruct (pop_rep v l x Hv) as (v' & -> & Hv'). mred. exists v'. split; [done|].
    rewrite length_app. cbn. rewrite Nat.add_sub, take_app_length. done.
  - intros [= <-]. eexists; split; [done|]. destruct Hv. split; cbn; try lia.
  - destruct (Z.leb_spec (zlen l + zlen c) VEC_MAX); [|done]. intros [= <-]. by apply addAll_rep.
Qed.

(** [C28] A vector built with a positive capacity behaves as the list of its
    elements: any sequence of additions, insertions, removals, writes, pops
    and truncations whose indices are valid for the list, and which never makes
    more than 2^30 elements, runs on the vector, whatever the reallocations, and
    leaves it holding the same list; reading an element and counting then agree
    with the list.  (The capacity is doubled in an [int].) *)
Theorem Vector_refines_list {A} (dflt : A) deep cap ops l :
  1 <= cap -> spec_all list_exec [] ops = Some l ->
  exists v, exec_all (vec_exec dflt deep) (Vector_make dflt cap) ops = Ret v /\
    Vector_count v = zlen l /\
    (forall i, 0 <= i < zlen l -> exists x, l !! Z.to_nat i = Some x /\ Vector_get v i = Ret x) /\
    (forall i, ~ (0 <= i < zlen l) -> Vector_get v i = Crash AssertFailed).
Proof.
  intros Hcap Hops.
  assert (forall ops v l0, vec_rep v l0 -> spec_all list_exec l0 ops = Some l ->
    exists v', exec_all (vec_exec dflt deep) v ops = Ret v' /\ vec_rep v' l) as H.
  { clear ops Hops. induction ops as [|o ops IH]; intros v l0 Hv; cbn; [intros [= <-]; by eauto|].
    destruct (list_exec l0 o) as [l1|] eqn:E; [|done]. cbn. intros Hs.
    destruct (vec_exec_rep dflt deep v l0 o l1 Hv E) as (v1 & -> & Hv1). mred. by apply (IH v1 l1). }
  destruct (H ops (Vector_make dflt cap) [] (make_rep dflt cap Hcap) Hops) as (v & -> & Hv).
  exists v. split_and!; [done| | |].
  - symmetry. apply Hv.
  - intros i Hi. destruct (get_rep v l i Hv Hi) as (x & ? & ?). by exists x.
  - intros i Hi. unfold Vector_get. pose proof (vr_cnt _ _ Hv).
    destruct (Z.leb_spec 0 i), (Z.ltb_spec i (v_cnt v)); done || lia.
Qed.

Lemma Vector_refines_list_witness :
  exists v, exec_all (vec_exec 0 true) (Vector_make 0 1)
    [VAdd 1; VAdd 2; VInsert 1 3; VRemoveAt 0; VPop] = Ret v /\ Vector_get v 0 = Ret 3.
Proof.
  destruct (Vector_refines_list 0 true 1 [VAdd 1; VAdd 2; VInsert 1 3; VRemoveAt 0; VPop] [3])
    as (v & E & _ & Hg & _); [done|done|].
  exists v. split; [exact E|]. destruct (Hg 0) as (x & Hx & Hv); [done|].
  injection Hx as <-. exact Hv.
Defined.

(** *** What goes wrong *)

(** A vector without capacity never grows. *)
Example Vector_0_add : Vector_add 0 (Vector_make 0 0) 1 = Crash OutOfBounds.
Proof. reflexivity. Qed.
(** [detach] keeps the capacity of the block it gives up. *)
Example Vector_detach_add : forall v : Vector Z, 1 <= v_cap v ->
  Vector_add 0 (Vector_detach v).1 1 = Crash OutOfBounds.
Proof.
  intros v Hv. unfold Vector_add, Vector_room, Vector_detach. cbn -[Z.leb].
  destruct (Z.leb_spec (v_cap v) 0); [lia|]. reflexivity.
Qed.
(** The assertion of [removeAt] lets the past-the-end index through. *)
Example Vector_removeAt_end :
  Vector_removeAt true (mkVec [5; 6] 2 1) 1 = Ret (mkVec [5; 6] 2 0).
Proof. reflexivity. Qed.
