(* ===== verification/FragTables.v ===== *)
(** * Fragmented tables ([include/elm/data/FragTable.h])

    A table kept as pages of [2^shf] cells: the vector of pages [tab] is the list
    of its elements (see [Vectors.Vector_refines_list]), each page a block of
    memory.  [used] counts the cells used in the last page. *)

From S2P Require Import Prelude Ints Vectors.

(* src/include/elm/data/FragTable.h:152-154 FragTable *)
Record FragTable (A : Type) := mkFrag {
  ft_tab : list (list A); ft_size : Z; ft_msk : Z; ft_shf : Z; ft_used : Z }.
Arguments mkFrag {A} _ _ _ _ _.
Arguments ft_tab {A} _.
Arguments ft_size {A} _.
Arguments ft_msk {A} _.
Arguments ft_shf {A} _.
Arguments ft_used {A} _.

Section FragTable.
Context {A : Type} (dflt : A) (equals : A -> A -> bool).
Implicit Types t : FragTable A.
Abbreviation with_tab t tab used := (mkFrag tab (ft_size t) (ft_msk t) (ft_shf t) used).
Abbreviation new_page t := (replicate (Z.to_nat (ft_size t)) dflt).

(* src/include/elm/data/FragTable.h:36-38 FragTable::FragTable *)
Definition FragTable_make (size_pow : Z) : outcome (FragTable A) :=
  size ← shl_int size_pow;
  msk ← int_of (size - 1);
  assertP (0 <? size_pow) ;; Ret (mkFrag [] size msk size_pow size).

(* src/include/elm/data/FragTable.h:46-46 FragTable::pageFull *)
Definition FragTable_pageFull t : bool := ft_size t <=? ft_used t.
(** The count of pages minus one may be negative: it is shifted as C++20 defines it
    and compilers did before. *)
(* src/include/elm/data/FragTable.h:114-114 FragTable::length *)
Definition FragTable_length t : Z := Z.shiftl (zlen (ft_tab t) - 1) (ft_shf t) + ft_used t.
(* src/include/elm/data/FragTable.h:76-77 FragTable::isEmpty *)
Definition FragTable_isEmpty t : bool := zlen (ft_tab t) =? 0.
(* src/include/elm/data/FragTable.h:96-97 FragTable::clear *)
Definition FragTable_clear t : FragTable A := with_tab t [] (ft_size t).

(* src/include/elm/data/FragTable.h:115-116 FragTable::get *)
Definition FragTable_get t (i : Z) : outcome A :=
  assertP ((0 <=? i) && (i <? FragTable_length t)) ;;
  p ← rd (ft_tab t) (Z.shiftr i (ft_shf t)); rd p (Z.land i (ft_msk t)).

(** [tab[p][k] = x]. *)
Definition put_cell t (p k : Z) (x : A) : outcome (list (list A)) :=
  pg ← rd (ft_tab t) p; pg ← wr pg k x; wr (ft_tab t) p pg.

(* src/include/elm/data/FragTable.h:130-131 FragTable::set *)
Definition FragTable_set t (i : Z) (x : A) : outcome (FragTable A) :=
  assertP ((0 <=? i) && (i <? FragTable_length t)) ;;
  tab ← put_cell t (Z.shiftr i (ft_shf t)) (Z.land i (ft_msk t)) x;
  Ret (with_tab t tab (ft_used t)).

(* src/include/elm/data/FragTable.h:98-100 FragTable::add *)
Definition FragTable_add t (x : A) : outcome (FragTable A) :=
  let t := if ft_size t <=? ft_used t then with_tab t (ft_tab t ++ [new_page t]) 0 else t in
  tab ← put_cell t (zlen (ft_tab t) - 1) (ft_used t) x;
  Ret (with_tab t tab (ft_used t + 1)).

(* src/include/elm/data/FragTable.h:72-73 FragTable::contains *)
Definition FragTable_contains t (x : A) : outcome bool :=
  r ← scan 0 (FragTable_length t) (fun i =>
        y ← FragTable_get t i; Ret (if equals y x then Some true else None));
  Ret (default false r).
(* src/include/elm/data/FragTable.h:74-75 FragTable::containsAll *)
Fixpoint FragTable_containsAll t (c : list A) : outcome bool :=
  match c with
  | [] => Ret false
  | x :: c => b ← FragTable_contains t x;
      if (b : bool) then FragTable_containsAll t c else Ret false
  end.
(* src/include/elm/data/FragTable.h:120-122 FragTable::lastIndexOf *)
Definition FragTable_lastIndexOf t (x : A) (start : Z) : outcome Z :=
  let top := if start <? 0 then FragTable_length t else start in
  r ← scan 0 top (fun k => let i := top - 1 - k in
        y ← FragTable_get t i; Ret (if equals y x then Some i else None));
  Ret (default (-1) r).

(* src/include/elm/data/FragTable.h:126-129 FragTable::shrink *)
Definition FragTable_shrink t (length : Z) : outcome (FragTable A) :=
  assertP (length <? FragTable_length t) ;;
  let nl := Z.shiftr (length + ft_msk t) (ft_shf t) in
  assertP (0 <=? nl) ;;                                  (* Vector::setLength *)
  let used := Z.land length (ft_msk t) in
  Ret (with_tab t (take (Z.to_nat nl) (ft_tab t)) (if used =? 0 then ft_size t else used)).

(* src/include/elm/data/FragTable.h:148-150 FragTable::alloc *)
Definition FragTable_alloc t (count : Z) : outcome (Z * FragTable A) :=
  let res := FragTable_length t in
  iter (S (S (Z.to_nat count))) (fun '(count, tab, used) =>
    Ret (if ft_size t - used <=? count
         then inl (count - (ft_size t - used), tab ++ [new_page t], 0)
         else inr (res, with_tab t tab (used + count)))) (count, ft_tab t, ft_used t).

(* src/include/elm/data/FragTable.h:136-138 FragTable::insert *)
Definition FragTable_insert t (index : Z) (item : A) : outcome (FragTable A) :=
  assertP ((0 <=? index) && (index <=? FragTable_length t)) ;;
  let len := FragTable_length t in
  r ← FragTable_alloc t 1;
  t ← loop 0 (len - index) (fun k t => let i := len - 1 - k in
        x ← FragTable_get t i; FragTable_set t (i + 1) x) r.2;
  FragTable_set t index item.

(* src/include/elm/data/FragTable.h:141-144 FragTable::removeAt *)
Definition FragTable_removeAt t (index : Z) : outcome (FragTable A) :=
  let len := FragTable_length t in
  t ← loop 0 (len - (index + 1)) (fun k t => let i := index + 1 + k in
        x ← FragTable_get t i; FragTable_set t (i - 1) x) t;
  let used := ft_used t - 1 in
  if used =? 0 then
    Ret (with_tab t (take (length (ft_tab t) - 1) (ft_tab t)) (ft_size t))
  else Ret (with_tab t (ft_tab t) used).
End FragTable.

(** ** The table is the list of its elements *)

Section FragSpec.
Context {A : Type} (dflt : A).
Implicit Types t : FragTable A.

Record ft_rep (t : FragTable A) (l : list A) : Prop := {
  fr_shf : 0 < ft_shf t;
  fr_size : ft_size t = 2 ^ ft_shf t;
  fr_msk : ft_msk t = ft_size t - 1;
  fr_pages : Forall (fun p => zlen p = ft_size t) (ft_tab t);
  fr_used : 0 < ft_used t <= ft_size t;
  fr_empty : ft_tab t = [] -> ft_used t = ft_size t;
  fr_length : zlen l = FragTable_length t;
  fr_get : forall j, 0 <= j < zlen l ->
    ∃ p, ft_tab t !! Z.to_nat (j / ft_size t) = Some p /\ p !! Z.to_nat (j mod ft_size t) = l !! Z.to_nat j }.

Lemma ft_len t l : ft_rep t l -> zlen l = (zlen (ft_tab t) - 1) * ft_size t + ft_used t.
Proof.
  intros H. rewrite (fr_length t l H). unfold FragTable_length.
  rewrite Z.shiftl_mul_pow2, (fr_size t l H) by (pose proof (fr_shf t l H); lia). done.
Qed.

Lemma ft_size_pos t l : ft_rep t l -> 2 <= ft_size t.
Proof.
  intros H. rewrite (fr_size t l H). pose proof (fr_shf t l H).
  pose proof (Z.pow_le_mono_r 2 1 (ft_shf t)). change (2 ^ 1) with 2 in *. lia.
Qed.

Lemma ft_split t l j : ft_rep t l ->
  Z.shiftr j (ft_shf t) = j / ft_size t /\ Z.land j (ft_msk t) = j mod ft_size t.
Proof.
  intros H. pose proof (fr_shf t l H). rewrite (fr_msk t l H), (fr_size t l H).
  split; [by rewrite Z.shiftr_div_pow2 by lia|].
  replace (2 ^ ft_shf t - 1) with (Z.ones (ft_shf t)) by (rewrite Z.ones_equiv; lia).
  by rewrite Z.land_ones by lia.
Qed.

(** The cell of an index is in the pages. *)
Lemma ft_cell t l j : ft_rep t l -> 0 <= j < zlen l ->
  0 <= j / ft_size t < zlen (ft_tab t) /\ 0 <= j mod ft_size t < ft_size t.
Proof.
  intros H Hj. pose proof (ft_size_pos t l H). pose proof (ft_len t l H). pose proof (fr_used t l H).
  split; [|apply Z.mod_pos_bound; lia]. split; [apply Z.div_pos; lia|].
  apply Z.div_lt_upper_bound; nia.
Qed.

Lemma make_ft p : 0 < p <= 30 -> exists t, FragTable_make p = Ret t /\ ft_rep t [].
Proof.
  intros Hp. unfold FragTable_make. rewrite shl_int_small by lia. mred.
  pose proof (Z.pow_pos_nonneg 2 p ltac:(lia) ltac:(lia)).
  pose proof (Z.pow_le_mono_r 2 p 30 ltac:(lia) ltac:(lia)). change (2 ^ 30) with 1073741824 in *.
  rewrite int_of_ok, (proj2 (Z.ltb_lt _ _)) by lia. mred. eexists; split; [done|].
  split; cbn; rewrite ?Z.shiftl_1_l; try done; try lia.
  - unfold FragTable_length. cbn. rewrite Z.shiftl_mul_pow2 by lia. rewrite ?Z.shiftl_1_l. lia.
Qed.

Lemma ft_get_ok t l j : ft_rep t l -> 0 <= j < zlen l ->
  exists x, FragTable_get t j = Ret x /\ l !! Z.to_nat j = Some x.
Proof.
  intros H Hj. unfold FragTable_get. rewrite <- (fr_length t l H).
  rewrite (proj2 (Z.leb_le _ _)), (proj2 (Z.ltb_lt _ _)) by lia. mred.
  destruct (ft_split t l j H) as [-> ->]. destruct (ft_cell t l j H Hj) as [C1 C2].
  destruct (fr_get t l H j Hj) as (p & Ep & Ex). rewrite (rd_ok _ _ p) by (done || lia). mred.
  destruct (lookup_lt_is_Some_2 l (Z.to_nat j)) as [x Hx]; [lia|].
  exists x. split; [|done]. apply rd_ok; [lia|]. by rewrite Ex.
Qed.

(** Writing the cell of index [j]. *)
Lemma put_cell_ok t l j x : ft_rep t l -> 0 <= j ->
  0 <= j / ft_size t < zlen (ft_tab t) ->
  exists tab, put_cell t (j / ft_size t) (j mod ft_size t) x = Ret tab /\
    length tab = length (ft_tab t) /\ Forall (fun p => zlen p = ft_size t) tab /\
    (exists p, tab !! Z.to_nat (j / ft_size t) = Some p /\ p !! Z.to_nat (j mod ft_size t) = Some x) /\
    forall k, 0 <= k -> k <> j -> forall y,
      (∃ p, ft_tab t !! Z.to_nat (k / ft_size t) = Some p /\ p !! Z.to_nat (k mod ft_size t) = y) ->
      ∃ p, tab !! Z.to_nat (k / ft_size t) = Some p /\ p !! Z.to_nat (k mod ft_size t) = y.
Proof.
  intros H Hj Hp. pose proof (ft_size_pos t l H) as Hs. unfold put_cell.
  destruct (lookup_lt_is_Some_2 (ft_tab t) (Z.to_nat (j / ft_size t))) as [p Ep]; [lia|].
  rewrite (rd_ok _ _ p) by (done || lia). mred.
  pose proof (Forall_lookup_1 _ _ _ _ (fr_pages t l H) Ep) as Lp. cbn in Lp.
  pose proof (Z.mod_pos_bound j (ft_size t) ltac:(lia)).
  rewrite wr_ok by lia. mred. rewrite wr_ok by lia. eexists; split; [done|].
  split_and!.
  - by rewrite length_insert.
  - apply Forall_insert; [apply H|]. by rewrite length_insert.
  - eexists. rewrite list_lookup_insert_eq by lia. split; [done|].
    by rewrite list_lookup_insert_eq by lia.
  - intros k Hk Hne y (q & Eq & Ey).
    assert (0 <= k / ft_size t) by (apply Z.div_pos; lia).
    pose proof (Z.mod_pos_bound k (ft_size t) ltac:(lia)).
    destruct (Z.eq_dec (k / ft_size t) (j / ft_size t)) as [E|].
    + rewrite E in *. rewrite Ep in Eq. injection Eq as <-. eexists.
      rewrite list_lookup_insert_eq by lia. split; [done|].
      rewrite list_lookup_insert_ne; [done|]. intros E2%Z2Nat.inj; [|lia|lia]. apply Hne.
      pose proof (Z.div_mod k (ft_size t) ltac:(lia)). pose proof (Z.div_mod j (ft_size t) ltac:(lia)).
      congruence.
    + exists q. rewrite list_lookup_insert_ne; [done|]. lia.
Qed.

Lemma ft_set_ok t l j x : ft_rep t l -> 0 <= j < zlen l ->
  exists t', FragTable_set t j x = Ret t' /\ ft_rep t' (<[Z.to_nat j := x]> l).
Proof.
  intros H Hj. unfold FragTable_set. rewrite <- (fr_length t l H).
  rewrite (proj2 (Z.leb_le _ _)), (proj2 (Z.ltb_lt _ _)) by lia. mred.
  destruct (ft_split t l j H) as [-> ->]. destruct (ft_cell t l j H Hj) as [C1 C2].
  destruct (put_cell_ok t l j x H ltac:(lia) ltac:(lia)) as (tab & -> & L & Hp & Hx & Hk). mred.
  eexists; split; [done|]. destruct H as [H1 H2 H3 H4 H5 H6 H7 H8].
  split; cbn; try done.
  - intros ->. apply H6. by destruct (ft_tab t).
  - rewrite length_insert, H7. unfold FragTable_length. cbn. by rewrite L.
  - intros k. rewrite length_insert. intros Hk'. destruct (Z.eq_dec k j) as [->|Hne].
    + rewrite list_lookup_insert_eq by lia. done.
    + rewrite list_lookup_insert_ne by lia. apply Hk; [lia|done|]. by apply H8.
Qed.

Lemma ft_add_ok t l x : ft_rep t l ->
  exists t', FragTable_add dflt t x = Ret t' /\ ft_rep t' (l ++ [x]).
Proof.
  intros H. pose proof (ft_size_pos t l H) as Hs. pose proof (ft_len t l H) as Hl.
  pose proof H as [H1 H2 H3 H4 H5 H6 H7 H8]. unfold FragTable_add.
  (* the table with room for a cell, which is the one of index [zlen l] *)
  set (t1 := if ft_size t <=? ft_used t then _ else t).
  assert (ft_size t1 = ft_size t /\ ft_msk t1 = ft_msk t /\ ft_shf t1 = ft_shf t /\
    Forall (fun p => zlen p = ft_size t) (ft_tab t1) /\ 0 <= ft_used t1 < ft_size t /\
    zlen l = (zlen (ft_tab t1) - 1) * ft_size t + ft_used t1 /\ ft_tab t1 <> [] /\
    forall j, 0 <= j < zlen l -> ∃ p, ft_tab t1 !! Z.to_nat (j / ft_size t) = Some p /\
      p !! Z.to_nat (j mod ft_size t) = l !! Z.to_nat j)
    as (S1 & S2 & S3 & S4 & S5 & S6 & S7 & S8).
  { unfold t1. destruct (Z.leb_spec (ft_size t) (ft_used t)); cbn.
    - split_and!; try done; try lia.
      + apply Forall_app. split; [done|]. repeat constructor. rewrite length_replicate. lia.
      + rewrite length_app. cbn. nia.
      + by destruct (ft_tab t).
      + intros j Hj. destruct (ft_cell t l j H Hj) as [C1 C2]. rewrite lookup_app_l by lia. by apply H8.
    - split_and!; try done; try lia. intros E. apply H6 in E. lia. }
  assert (zlen l / ft_size t = zlen (ft_tab t1) - 1 /\ zlen l mod ft_size t = ft_used t1) as [D1 D2].
  { rewrite S6. rewrite Z.div_add_l, Z.div_small by lia.
    rewrite (Z.add_comm (_ * _)), Z.mod_add, Z.mod_small by lia. lia. }
  assert (0 < zlen (ft_tab t1)) by (destruct (ft_tab t1); [done|cbn; lia]).
  unfold put_cell.
  destruct (lookup_lt_is_Some_2 (ft_tab t1) (Z.to_nat (zlen (ft_tab t1) - 1))) as [p Ep]; [lia|].
  rewrite (rd_ok _ _ p) by (done || lia). mred.
  pose proof (Forall_lookup_1 _ _ _ _ S4 Ep) as Lp. cbn in Lp.
  rewrite wr_ok by lia. mred. rewrite wr_ok by lia. mred. eexists; split; [done|].
  split; cbn; rewrite ?S1, ?S2, ?S3; try done; try lia.
  - apply Forall_insert; [done|]. by rewrite length_insert.
  - intros E. apply (f_equal length) in E. rewrite length_insert in E. cbn in E. lia.
  - rewrite length_app. unfold FragTable_length. cbn. rewrite length_insert, ?S3.
    rewrite Z.shiftl_mul_pow2, <- H2 by lia. lia.
  - intros j. rewrite length_app. cbn. intros Hj.
    destruct (Z.eq_dec j (zlen l)) as [->|].
    + rewrite D1, D2. eexists. rewrite list_lookup_insert_eq by lia. split; [done|].
      rewrite list_lookup_insert_eq by lia. rewrite Nat2Z.id. by rewrite list_lookup_middle.
    + destruct (S8 j ltac:(lia)) as (q & Eq & Ex). rewrite lookup_app_l by lia.
      assert (0 <= j / ft_size t) by (apply Z.div_pos; lia).
      pose proof (Z.mod_pos_bound j (ft_size t) ltac:(lia)).
      destruct (Z.eq_dec (j / ft_size t) (zlen (ft_tab t1) - 1)) as [E|].
      * rewrite E in *. rewrite Ep in Eq. injection Eq as <-. eexists.
        rewrite list_lookup_insert_eq by lia. split; [done|].
        rewrite list_lookup_insert_ne; [done|]. intros E2%Z2Nat.inj; [|lia|lia].
        pose proof (Z.div_mod j (ft_size t) ltac:(lia)).
        pose proof (Z.div_mod (zlen l) (ft_size t) ltac:(lia)). nia.
      * exists q. rewrite list_lookup_insert_ne; [done|]. lia.
Qed.

(** Dropping the elements from [n] on: the pages that hold the others. *)
Lemma ft_trunc t l n tab used : ft_rep t l -> 0 <= n <= zlen l ->
  n = (zlen tab - 1) * ft_size t + used -> 0 < used <= ft_size t ->
  (tab = [] -> used = ft_size t) -> tab = take (length tab) (ft_tab t) ->
  ft_rep (mkFrag tab (ft_size t) (ft_msk t) (ft_shf t) used) (take (Z.to_nat n) l).
Proof.
  intros H Hn En Hu He Et. pose proof (ft_size_pos t l H) as Hs.
  pose proof H as [H1 H2 H3 H4 H5 H6 H7 H8]. split; cbn; try done.
  - rewrite Et. by apply Forall_take.
  - rewrite length_take. unfold FragTable_length. cbn. rewrite Z.shiftl_mul_pow2, <- H2 by lia. lia.
  - intros j. rewrite length_take. intros Hj.
    destruct (H8 j ltac:(lia)) as (p & Ep & Ex). exists p. rewrite lookup_take_lt by lia.
    split; [|done]. rewrite Et. 
    assert (0 <= j / ft_size t) by (apply Z.div_pos; lia).
    assert (j / ft_size t < zlen tab) by (apply Z.div_lt_upper_bound; nia).
    by rewrite lookup_take_lt by lia.
Qed.

Lemma ft_shrink_ok t l n : ft_rep t l -> 0 <= n < zlen l ->
  exists t', FragTable_shrink t n = Ret t' /\ ft_rep t' (take (Z.to_nat n) l).
Proof.
  intros H Hn. unfold FragTable_shrink. rewrite <- (fr_length t l H).
  rewrite (proj2 (Z.ltb_lt _ _)) by lia. mred.
  destruct (ft_split t l (n + ft_msk t) H) as [-> _]. destruct (ft_split t l n H) as [_ ->].
  pose proof (ft_size_pos t l H) as Hs.
  assert (n + ft_msk t = n + (ft_size t - 1)) as -> by (rewrite (fr_msk t l H); done).
  set (s := ft_size t) in *. pose proof (Z.div_mod n s ltac:(lia)) as D.
  pose proof (Z.mod_pos_bound n s ltac:(lia)) as M. assert (0 <= n / s) by (apply Z.div_pos; lia).
  assert ((n + (s - 1)) / s = n / s + (if n mod s =? 0 then 0 else 1)) as ->.
  { destruct (Z.eqb_spec (n mod s) 0).
    - rewrite Z.add_0_r. symmetry. apply Z.div_unique with (s - 1); [lia|]. lia.
    - symmetry. apply Z.div_unique with (n mod s - 1); lia. }
  rewrite (proj2 (Z.leb_le _ _)) by (destruct (n mod s =? 0); lia). mred.
  eexists; split; [done|].
  pose proof (ft_len t l H) as Hl. fold s in Hl. pose proof (fr_used t l H) as Hu. fold s in Hu.
  assert (n / s + (if n mod s =? 0 then 0 else 1) <= zlen (ft_tab t)) as Hle.
  { destruct (Z.eqb_spec (n mod s) 0); nia. }
  apply ft_trunc; [done|lia|..]; fold s; rewrite ?length_take.
  - destruct (Z.eqb_spec (n mod s) 0); nia.
  - destruct (Z.eqb_spec (n mod s) 0); lia.
  - intros E. apply (f_equal length) in E. rewrite length_take in E. cbn in E.
    destruct (Z.eqb_spec (n mod s) 0); lia.
  - f_equal. lia.
Qed.

Lemma ft_removeAt_ok t l i : ft_rep t l -> 0 <= i < zlen l ->
  exists t', FragTable_removeAt t i = Ret t' /\ ft_rep t' (list_remove i l).
Proof.
  intros H Hi. unfold FragTable_removeAt. rewrite <- (fr_length t l H).
  loop_with (fun k t' => exists l', ft_rep t' l' /\ moved l i (i + 1) k l' /\
     ft_size t' = ft_size t /\ zlen (ft_tab t') = zlen (ft_tab t) /\ ft_used t' = ft_used t).
  - lia.
  - exists l. split; [done|]. split; [|done]. split; [done|]. intros j Hj.
    destruct (Z.leb_spec i j), (Z.ltb_spec j (i + 0)); cbn; done || lia.
  - intros k t' Hk (l' & H' & [Ml Mm] & E1 & E2 & E3). cbn beta zeta.
    destruct (ft_get_ok t' l' (i + 1 + k) H') as (x & -> & Ex); [lia|]. mred.
    replace (i + 1 + k - 1) with (i + k) by lia.
    destruct (ft_set_ok t' l' (i + k) x H') as (t2 & E & H2); [lia|]. rewrite E.
    eexists; split; [done|]. exists (<[Z.to_nat (i + k) := x]> l'). split; [done|].
    assert (ft_size t2 = ft_size t' /\ zlen (ft_tab t2) = zlen (ft_tab t') /\ ft_used t2 = ft_used t')
      as (-> & -> & ->).
    { clear - E. unfold FragTable_set in E. apply bind_Ret_inv in E as (u & _ & E).
      apply bind_Ret_inv in E as (tab & Et & E). injection E as <-. cbn.
      split; [done|]. split; [|done]. unfold put_cell in Et.
      apply bind_Ret_inv in Et as (p & _ & Et). apply bind_Ret_inv in Et as (p' & _ & Et).
      revert Et. unfold wr. case_match; [|done]. intros [= <-]. by rewrite length_insert. }
    split; [|done]. split; [by rewrite length_insert|]. intros j Hj.
    destruct (Z.eq_dec j (i + k)) as [->|].
    + rewrite list_lookup_insert_eq by lia. rewrite (proj2 (Z.leb_le _ _)), (proj2 (Z.ltb_lt _ _)) by lia.
      cbn. rewrite Mm in Ex by lia. destruct (Z.leb_spec i (i + 1 + k)), (Z.ltb_spec (i + 1 + k) (i + k)); cbn in Ex; try lia.
      rewrite <- Ex. f_equal. lia.
    + rewrite list_lookup_insert_ne, Mm by lia.
      destruct (Z.leb_spec i j), (Z.ltb_spec j (i + k)), (Z.ltb_spec j (i + (k + 1))); cbn; done || lia.
  - mred. destruct Hr as (l' & H' & [Ml Mm] & E1 & E2 & E3).
    assert (take (Z.to_nat (zlen l - 1)) l' = list_remove i l) as <-.
    { apply list_eq. intros j. pose proof (list_remove_lookup i l (Z.of_nat j) ltac:(lia) ltac:(lia)) as R.
      rewrite Nat2Z.id in R. rewrite R. specialize (Mm (Z.of_nat j) ltac:(lia)). rewrite Nat2Z.id in Mm.
      destruct (Z.ltb_spec (Z.of_nat j) (zlen l - 1)).
      - rewrite lookup_take_lt, Mm by lia.
        destruct (Z.leb_spec i (Z.of_nat j)), (Z.ltb_spec (Z.of_nat j) i), (Z.ltb_spec (Z.of_nat j) (i + (zlen l - (i + 1))));
          cbn; try lia; [f_equal; lia|done].
      - rewrite lookup_take_ge by lia. destruct (Z.ltb_spec (Z.of_nat j) i); [lia|].
        rewrite lookup_ge_None_2 by lia. done. }
    pose proof (ft_len r l' H') as Hl. pose proof (fr_used r l' H') as Hu.
    pose proof (ft_size_pos r l' H') as Hs.
    destruct (Z.eqb_spec (ft_used r - 1) 0); eexists; (split; [done|]).
    + apply ft_trunc; rewrite ?length_take; try done; try lia; [nia|]. f_equal. lia.
    + apply ft_trunc; try done; try lia.
      * intros E. exfalso. rewrite E in Hl. cbn in Hl. lia.
      * by rewrite firstn_all.
Qed.
End FragSpec.

(** *** Sequences of operations *)

Inductive ft_op (A : Type) := FAdd (x : A) | FSet (i : Z) (x : A) | FRemoveAt (i : Z) | FShrink (n : Z) | FClear.
Arguments FAdd {A} _. Arguments FSet {A} _ _. Arguments FRemoveAt {A} _.
Arguments FShrink {A} _. Arguments FClear {A}.

Definition ft_exec {A} (dflt : A) (t : FragTable A) (o : ft_op A) : outcome (FragTable A) :=
  match o with
  | FAdd x => FragTable_add dflt t x
  | FSet i x => FragTable_set t i x
  | FRemoveAt i => FragTable_removeAt t i
  | FShrink n => FragTable_shrink t n
  | FClear => Ret (FragTable_clear t)
  end.

Definition ft_spec {A} (l : list A) (o : ft_op A) : option (list A) :=
  match o with
  | FAdd x => if zlen l <? VEC_MAX then Some (l ++ [x]) else None
  | FSet i x => if (0 <=? i) && (i <? zlen l) then Some (<[Z.to_nat i := x]> l) else None
  | FRemoveAt i => if (0 <=? i) && (i <? zlen l) then Some (list_remove i l) else None
  | FShrink n => if (0 <=? n) && (n <? zlen l) then Some (take (Z.to_nat n) l) else None
  | FClear => Some []
  end.

Lemma ft_exec_rep {A} (dflt : A) t l o l' :
  ft_rep t l -> ft_spec l o = Some l' -> exists t', ft_exec dflt t o = Ret t' /\ ft_rep t' l'.
Proof.
  intros Ht. destruct o; cbn -[Z.ltb Z.leb].
  - destruct (Z.ltb_spec (zlen l) VEC_MAX); [|done]. intros [= <-]. by apply ft_add_ok.
  - destruct (Z.leb_spec 0 i), (Z.ltb_spec i (zlen l)); cbn; try done. intros [= <-]. by apply ft_set_ok.
  - destruct (Z.leb_spec 0 i), (Z.ltb_spec i (zlen l)); cbn; try done. intros [= <-]. by apply ft_removeAt_ok.
  - destruct (Z.leb_spec 0 n), (Z.ltb_spec n (zlen l)); cbn; try done. intros [= <-]. by apply ft_shrink_ok.
  - intros [= <-]. eexists; split; [done|]. pose proof (ft_size_pos t l Ht).
    destruct Ht as [H1 H2 H3 H4 H5 H6 H7 H8]. split; cbn; try done; try lia.
    unfold FragTable_length. cbn. rewrite Z.shiftl_mul_pow2, <- H2 by lia. lia.
Qed.

(** [C31] A fragmented table with pages of 2 to 2^30 cells behaves as the list of
    its elements: any sequence of additions, writes, removals and truncations with
    valid indices, which never makes more than 2^30 elements, runs on its pages and
    leaves it holding the same list; the length and the elements read are those of
    the list.  (Sizes, lengths and shifts are computed in an [int].) *)
Theorem FragTable_refines_list {A} (dflt : A) pow ops l :
  0 < pow <= 30 -> spec_all ft_spec [] ops = Some l ->
  exists t0 t, FragTable_make pow = Ret t0 /\ exec_all (ft_exec dflt) t0 ops = Ret t /\
    FragTable_length t = zlen l /\
    forall i, 0 <= i < zlen l -> exists x, l !! Z.to_nat i = Some x /\ FragTable_get t i = Ret x.
Proof.
  intros Hp Hops. destruct (make_ft (A := A) pow Hp) as (t0 & E0 & H0). exists t0.
  assert (forall ops t l0, ft_rep t l0 -> spec_all ft_spec l0 ops = Some l ->
    exists t', exec_all (ft_exec dflt) t ops = Ret t' /\ ft_rep t' l) as H.
  { clear. induction ops as [|o ops IH]; intros t l0 Ht; cbn; [intros [= <-]; by eauto|].
    destruct (ft_spec l0 o) as [l1|] eqn:E; [|done]. cbn. intros Hs.
    destruct (ft_exec_rep dflt t l0 o l1 Ht E) as (t1 & -> & Ht1). mred. by apply (IH t1 l1). }
  destruct (H ops t0 [] H0 Hops) as (t & E & Ht). exists t. split_and!; [done|done| |].
  - symmetry. apply Ht.
  - intros i Hi. destruct (ft_get_ok t l i Ht Hi) as (x & ? & ?). by exists x.
Qed.

Lemma FragTable_refines_list_witness :
  exists t0 t, FragTable_make 1 = Ret t0 /\
    exec_all (ft_exec 0) t0 [FAdd 7; FAdd 8; FAdd 9; FRemoveAt 0] = Ret t /\ FragTable_get t 1 = Ret 9.
Proof.
  destruct (FragTable_refines_list 0 1 [FAdd 7; FAdd 8; FAdd 9; FRemoveAt 0] [8; 9])
    as (t0 & t & E0 & E & _ & Hg); [done|done|].
  exists t0, t. split; [exact E0|]. split; [exact E|].
  destruct (Hg 1) as (x & Hx & Ht); [done|]. injection Hx as <-. exact Ht.
Defined.

(** *** What goes wrong *)

(** An [alloc] that fills a page opens the next one with no cell used; removing
    an element then leaves [used] negative, and the next addition writes
    before the page. *)
Example FragTable_alloc_then_add :
  (t ← FragTable_make 1; t ← FragTable_insert 0 t 0 7; t ← FragTable_insert 0 t 1 8;
   t ← FragTable_removeAt t 0; FragTable_add 0 t 9) = Crash OutOfBounds.
Proof. by vm_compute. Qed.
(** [containsAll] never returns true. *)
Example FragTable_containsAll_false {A} eq (t : FragTable A) : FragTable_containsAll eq t [] = Ret false.
Proof. reflexivity. Qed.
