(* ===== verification/Queues.v ===== *)
(** * Queues and stacks
      ([include/elm/data/VectorQueue.h], [ListQueue.h], [StaticStack.h])

    The two queues implement one interface, [Queue]: a representation of the
    list of the waiting elements and laws for [put], [get], [head] and
    [isEmpty].  The first-in first-out theorem is proved once against the
    interface. *)

From stdpp Require Import gmap.
From S2P Require Import Prelude Ints.
#[local] Open Scope Z_scope.

(** ** The interface *)

Class QueueOps (A Q : Type) := {
  q_put : Q -> A -> outcome Q;
  q_get : Q -> outcome (A * Q);
  q_head : Q -> outcome A;
  q_isEmpty : Q -> bool }.

Class Queue (A Q : Type) `{QueueOps A Q} := {
  q_rep : Q -> list A -> Prop;
  q_room : list A -> bool;       (* there may be one more element *)
  q_put_law q l x : q_rep q l -> q_room l = true -> exists q', q_put q x = Ret q' /\ q_rep q' (l ++ [x]);
  q_get_law q l x : q_rep q (x :: l) -> exists q', q_get q = Ret (x, q') /\ q_rep q' l;
  q_head_law q l x : q_rep q (x :: l) -> q_head q = Ret x;
  q_isEmpty_law q l : q_rep q l -> q_isEmpty q = true <-> l = [];
  q_get_empty q : q_rep q [] -> q_get q = Crash AssertFailed }.

Inductive queue_op (A : Type) := QPut (x : A) | QGet.
Arguments QPut {A} _.
Arguments QGet {A}.

Section Fifo.
Context {A Q : Type} `{Queue A Q}.

(** The elements taken from the queue, in order. *)
Fixpoint queue_run (q : Q) (os : list (queue_op A)) : outcome (Q * list A) :=
  match os with
  | [] => Ret (q, [])
  | QPut x :: os => q ← q_put q x; queue_run q os
  | QGet :: os => r ← q_get q; s ← queue_run r.2 os; Ret (s.1, r.1 :: s.2)
  end.

(** The specification: no more elements are taken than [l] holds, and an element is
    put only if there is room for it. *)
Fixpoint fifo (room : list A -> bool) (l : list A) (os : list (queue_op A)) : option (list A * list A) :=
  match os with
  | [] => Some (l, [])
  | QPut x :: os => if room l then fifo room (l ++ [x]) os else None
  | QGet :: os => match l with
                  | [] => None
                  | x :: l => r ← fifo room l os; Some (r.1, x :: r.2)
                  end
  end.

Lemma queue_fifo os : forall q l l' out,
  q_rep q l -> fifo q_room l os = Some (l', out) ->
  exists q', queue_run q os = Ret (q', out) /\ q_rep q' l'.
Proof.
  induction os as [|[x|] os IH]; intros q l l' out Hq; cbn.
  - intros [= <- <-]. by eexists.
  - destruct (q_room l) eqn:Hr; [|done]. intros Hf.
    destruct (q_put_law q l x Hq Hr) as (q1 & -> & H1). mred. by apply (IH q1 (l ++ [x])).
  - destruct l as [|x l]; [done|]. destruct (fifo q_room l os) as [[l1 out1]|] eqn:E; [|done].
    cbn. intros [= <- <-]. destruct (q_get_law q l x Hq) as (q1 & -> & H1). mred. cbn.
    destruct (IH q1 l l1 out1 H1 E) as (q2 & -> & H2). mred. by eexists.
Qed.

(** The elements come out in the order they came in. *)
Lemma fifo_order room os : forall l l' out,
  fifo room l os = Some (l', out) ->
  out ++ l' = l ++ omap (fun o => match o with QPut x => Some x | QGet => None end) os.
Proof.
  induction os as [|[x|] os IH]; intros l l' out; cbn.
  - intros [= <- <-]. by rewrite app_nil_r.
  - destruct (room l); [|done]. intros E. rewrite (IH _ _ _ E), <- app_assoc. done.
  - destruct l as [|x l]; [done|]. destruct (fifo room l os) as [[l1 out1]|] eqn:E; [|done].
    cbn. intros [= <- <-]. cbn. f_equal. by apply IH.
Qed.
End Fifo.

(** ** Circular queue in a vector *)

(* src/include/elm/data/VectorQueue.h:31-33 VectorQueue *)
Record VectorQueue (A : Type) := mkVQ { vq_hd : Z; vq_tl : Z; vq_cap : Z; vq_buffer : list A }.
Arguments mkVQ {A} _ _ _ _.
Arguments vq_hd {A} _.
Arguments vq_tl {A} _.
Arguments vq_cap {A} _.
Arguments vq_buffer {A} _.

Section VectorQueue.
Context {A : Type} (dflt : A) (equals : A -> A -> bool).
Implicit Types q : VectorQueue A.

(** [new T[cap]], which no allocator does for a negative size. *)
Definition vq_new (cap : Z) : outcome (list A) :=
  if 0 <=? cap then Ret (replicate (Z.to_nat cap) dflt) else Crash Undefined.
(* src/include/elm/data/VectorQueue.h:80-83 VectorQueue::VectorQueue *)
Definition VectorQueue_make (capacity : Z) : outcome (VectorQueue A) :=
  cap ← shl_int capacity;
  buffer ← vq_new cap;
  assertP (0 <=? cap) ;; Ret (mkVQ 0 0 cap buffer).

(* src/include/elm/data/VectorQueue.h:63-78 VectorQueue::enlarge *)
Definition VectorQueue_enlarge q : outcome (VectorQueue A) :=
  new_cap ← int_of (vq_cap q * 2);
  nb ← vq_new new_cap;
  let wraps := vq_tl q <? vq_hd q in
  let off := if wraps then vq_cap q - vq_hd q else 0 in
  nb ← loop 0 off (fun i nb => x ← rd (vq_buffer q) (vq_hd q + i); wr nb i x) nb;
  let hd := if wraps then 0 else vq_hd q in
  nb ← loop hd (vq_tl q) (fun i nb => x ← rd (vq_buffer q) i; wr nb (off + i - hd) x) nb;
  Ret (mkVQ hd (off + vq_tl q - hd) new_cap nb).

(* src/include/elm/data/VectorQueue.h:104-112 VectorQueue::put *)
Definition VectorQueue_put q (x : A) : outcome (VectorQueue A) :=
  let new_tl := Z.land (vq_tl q + 1) (vq_cap q - 1) in
  if new_tl =? vq_hd q then
    q ← VectorQueue_enlarge q;
    b ← wr (vq_buffer q) (vq_tl q) x; Ret (mkVQ (vq_hd q) (vq_tl q + 1) (vq_cap q) b)
  else b ← wr (vq_buffer q) (vq_tl q) x; Ret (mkVQ (vq_hd q) new_tl (vq_cap q) b).

(* src/include/elm/data/VectorQueue.h:114-119 VectorQueue::get *)
Definition VectorQueue_get q : outcome (A * VectorQueue A) :=
  assertP (negb (vq_hd q =? vq_tl q)) ;;
  x ← rd (vq_buffer q) (vq_hd q);
  Ret (x, mkVQ (Z.land (vq_hd q + 1) (vq_cap q - 1)) (vq_tl q) (vq_cap q) (vq_buffer q)).

(* src/include/elm/data/VectorQueue.h:121-124 VectorQueue::head *)
Definition VectorQueue_head q : outcome A :=
  assertP (negb (vq_hd q =? vq_tl q)) ;; rd (vq_buffer q) (vq_hd q).
(* src/include/elm/data/VectorQueue.h:126-129 VectorQueue::reset *)
Definition VectorQueue_reset q : VectorQueue A := mkVQ 0 0 (vq_cap q) (vq_buffer q).
(* src/include/elm/data/VectorQueue.h:100-102 VectorQueue::isEmpty *)
Definition VectorQueue_isEmpty q : bool := vq_hd q =? vq_tl q.
(* src/include/elm/data/VectorQueue.h:93-98 VectorQueue::size *)
Definition VectorQueue_size q : Z :=
  if vq_hd q <? vq_tl q then vq_tl q - vq_hd q else (vq_cap q - vq_hd q) + vq_tl q.
(* src/include/elm/data/VectorQueue.h:43-48 VectorQueue::contains *)
Definition VectorQueue_contains q (x : A) : outcome bool :=
  iter (S (Z.to_nat (vq_cap q))) (fun i =>
    if i =? vq_tl q then Ret (inr false) else
    y ← rd (vq_buffer q) i;
    Ret (if equals y x then inr true else inl (Z.land (i + 1) (vq_cap q - 1)))) (vq_hd q).

(** The cell of the [i]-th element. *)
Definition vq_cell q (i : Z) : Z := (vq_hd q + i) mod vq_cap q.

Record vq_rep q (l : list A) : Prop := {
  vq_pow : exists k, 0 <= k /\ vq_cap q = 2 ^ k;
  vq_buf : zlen (vq_buffer q) = vq_cap q;
  vq_hd_in : 0 <= vq_hd q < vq_cap q;
  vq_tl_in : vq_tl q = vq_cell q (zlen l);
  vq_len : zlen l < vq_cap q;
  vq_elem : forall i, 0 <= i < zlen l -> vq_buffer q !! Z.to_nat (vq_cell q i) = l !! Z.to_nat i }.

Lemma vq_and q l i : vq_rep q l -> Z.land i (vq_cap q - 1) = i mod vq_cap q.
Proof.
  intros [(k & Hk & ->) _ _ _ _ _].
  replace (2 ^ k - 1) with (Z.ones k) by (rewrite Z.ones_equiv; lia). by apply Z.land_ones.
Qed.

Lemma vq_cap_pos q l : vq_rep q l -> 1 <= vq_cap q.
Proof. intros [(k & Hk & ->) _ _ _ _ _]. pose proof (Z.pow_pos_nonneg 2 k). lia. Qed.

(** Cells are the indices, with one wrap at most. *)
Lemma vq_cell_cases q l i : vq_rep q l -> 0 <= i < vq_cap q ->
  vq_cell q i = if vq_hd q + i <? vq_cap q then vq_hd q + i else vq_hd q + i - vq_cap q.
Proof.
  intros Hq Hi. pose proof (vq_hd_in q l Hq). unfold vq_cell.
  destruct (Z.ltb_spec (vq_hd q + i) (vq_cap q)); [by apply Z.mod_small; lia|].
  symmetry. apply Z.mod_unique with 1; lia.
Qed.

Lemma VectorQueue_make_rep c : 0 <= c <= 30 ->
  exists q, VectorQueue_make c = Ret q /\ vq_rep q [].
Proof.
  intros Hc. unfold VectorQueue_make, vq_new. rewrite shl_int_small by lia. mred.
  pose proof (Z.pow_pos_nonneg 2 c ltac:(lia) ltac:(lia)).
  rewrite (proj2 (Z.leb_le _ _)) by lia. mred. eexists; split; [done|]. split; cbn.
  - exists c. split; [lia|done].
  - rewrite length_replicate. lia.
  - lia.
  - unfold vq_cell. cbn. by rewrite Z.mod_0_l by lia.
  - lia.
  - intros; lia.
Qed.

(** With more elements the capacity could not be doubled in an [int]. *)
Definition VQ_MAX : Z := 1073741823.
Definition vq_room (l : list A) : bool := zlen l <? VQ_MAX.

(** Enlarging a full queue unrolls it from the start of a block twice as large. *)
Lemma enlarge_rep q l : vq_rep q l -> zlen l < VQ_MAX -> zlen l = vq_cap q - 1 ->
  exists q', VectorQueue_enlarge q = Ret q' /\ vq_rep q' l /\ vq_hd q' = 0 /\
    vq_tl q' = zlen l /\ vq_cap q' = 2 * vq_cap q.
Proof.
  intros Hq Hmax Hfull. pose proof (vq_cap_pos q l Hq) as Hc. pose proof (vq_hd_in q l Hq) as Hh.
  pose proof (vq_buf q l Hq) as Hb. pose proof (vq_elem q l Hq) as He.
  assert (vq_tl q = if vq_hd q =? 0 then vq_cap q - 1 else vq_hd q - 1) as Et.
  { rewrite (vq_tl_in q l Hq), (vq_cell_cases q l) by (done || lia).
    destruct (Z.eqb_spec (vq_hd q) 0), (Z.ltb_spec (vq_hd q + zlen l) (vq_cap q)); lia. }
  unfold VectorQueue_enlarge, vq_new, VQ_MAX in *. rewrite int_of_ok by lia. mred.
  rewrite (proj2 (Z.leb_le 0 (vq_cap q * 2))) by lia. mred.
  set (P n (nb : list A) := zlen nb = 2 * vq_cap q /\
    forall j, 0 <= j < n -> nb !! Z.to_nat j = l !! Z.to_nat j).
  assert (forall n nb i c, P n nb -> 0 <= n < zlen l -> i = n -> c = vq_cell q n ->
    exists nb', (x ← rd (vq_buffer q) c; wr nb i x) = Ret nb' /\ P (n + 1) nb') as Hstep.
  { intros n nb i c [Hl Hn] Hlt -> ->.
    destruct (lookup_lt_is_Some_2 l (Z.to_nat n)) as [x Hx]; [lia|].
    pose proof (Z.mod_pos_bound (vq_hd q + n) (vq_cap q) ltac:(lia)).
    rewrite (rd_ok _ _ x); [|unfold vq_cell; lia|rewrite He by lia; done]. mred.
    rewrite wr_ok by lia. eexists; split; [done|]. split; [by rewrite length_insert|].
    intros j Hj. destruct (Z.eq_dec j n) as [->|].
    - by rewrite list_lookup_insert_eq by lia.
    - rewrite list_lookup_insert_ne by lia. apply Hn. lia. }
  assert (forall nb, P (zlen l) nb -> vq_rep (mkVQ 0 (zlen l) (vq_cap q * 2) nb) l) as Hend.
  { intros nb [Hl Hn]. destruct (vq_pow q l Hq) as (k & Hk & Ek). split; cbn.
    - exists (k + 1). rewrite Z.pow_add_r, Ek by lia. split; [lia|]. change (2 ^ 1) with 2. lia.
    - lia.
    - lia.
    - unfold vq_cell. cbn. rewrite Z.mod_small; lia.
    - lia.
    - intros i Hi. unfold vq_cell. cbn. rewrite Z.mod_small by lia. by apply Hn. }
  destruct (Z.eqb_spec (vq_hd q) 0) as [E0|E0].
  - destruct (Z.ltb_spec (vq_tl q) (vq_hd q)); [lia|]. cbn zeta.
    loop_with (fun i nb => P i nb).
    + done.
    + split; [rewrite length_replicate; lia|intros; lia].
    + intros; lia.
    + mred. rewrite E0. loop_with (fun i nb => P i nb).
      * lia.
      * done.
      * intros i nb Hi HP. cbn beta. apply (Hstep i nb); [done|lia|lia|].
        rewrite (vq_cell_cases q l) by (done || lia).
        destruct (Z.ltb_spec (vq_hd q + i) (vq_cap q)); lia.
      * mred. eexists; split; [done|]. rewrite Z.add_0_l, Z.sub_0_r.
        replace (vq_tl q) with (zlen l) in * by lia. cbn. split_and!; [by apply Hend|done|done|lia].
  - destruct (Z.ltb_spec (vq_tl q) (vq_hd q)); [|lia]. cbn zeta.
    loop_with (fun i nb => P i nb).
    + lia.
    + split; [rewrite length_replicate; lia|intros; lia].
    + intros i nb Hi HP. cbn beta. apply (Hstep i nb); [done|lia|lia|].
      rewrite (vq_cell_cases q l) by (done || lia).
      destruct (Z.ltb_spec (vq_hd q + i) (vq_cap q)); lia.
    + mred. loop_with (fun i nb => P (vq_cap q - vq_hd q + i) nb).
      * lia.
      * by rewrite Z.add_0_r.
      * intros i nb Hi HP. cbn beta. rewrite Z.add_assoc.
        apply (Hstep _ nb); [done|lia|lia|].
        rewrite (vq_cell_cases q l) by (done || lia).
        destruct (Z.ltb_spec (vq_hd q + (vq_cap q - vq_hd q + i)) (vq_cap q)); lia.
      * mred. eexists; split; [done|]. rewrite Z.sub_0_r.
        replace (vq_cap q - vq_hd q + vq_tl q) with (zlen l) in * by lia.
        cbn. split_and!; [by apply Hend|done|done|lia].
Qed.

(** Writing at [tl] when the block has room. *)
Lemma write_rep q l x : vq_rep q l -> zlen l + 1 < vq_cap q ->
  exists b, wr (vq_buffer q) (vq_tl q) x = Ret b /\
    vq_rep (mkVQ (vq_hd q) (vq_cell q (zlen l + 1)) (vq_cap q) b) (l ++ [x]).
Proof.
  intros Hq Hr. pose proof (vq_cap_pos q l Hq) as Hc. pose proof (vq_hd_in q l Hq) as Hh.
  pose proof (vq_buf q l Hq) as Hb. pose proof (vq_elem q l Hq) as He.
  rewrite (vq_tl_in q l Hq).
  assert (forall i, 0 <= vq_cell q i < vq_cap q) as Hin by (intros; apply Z.mod_pos_bound; lia).
  specialize (Hin (zlen l)) as Hl. rewrite wr_ok by lia. eexists; split; [done|].
  split; cbn; try done.
  - apply Hq.
  - by rewrite length_insert.
  - rewrite length_app. unfold vq_cell. cbn. f_equal. lia.
  - rewrite length_app. cbn. lia.
  - intros i. rewrite length_app. cbn. intros Hi. unfold vq_cell at 1. cbn. fold (vq_cell q i).
    destruct (Z.eq_dec i (zlen l)) as [->|].
    + rewrite list_lookup_insert_eq by lia. rewrite Nat2Z.id. by rewrite list_lookup_middle.
    + rewrite list_lookup_insert_ne, lookup_app_l, He by lia || (
        pose proof (Hin i); intros E%Z2Nat.inj; try lia; revert E;
        rewrite !(vq_cell_cases q l) by (done || lia);
        destruct (Z.ltb_spec (vq_hd q + zlen l) (vq_cap q)), (Z.ltb_spec (vq_hd q + i) (vq_cap q)); lia).
      done.
Qed.

Lemma VectorQueue_put_rep q l x :
  vq_rep q l -> vq_room l = true -> exists q', VectorQueue_put q x = Ret q' /\ vq_rep q' (l ++ [x]).
Proof.
  intros Hq Hroom%Z.ltb_lt. unfold VectorQueue_put. pose proof (vq_cap_pos q l Hq) as Hc.
  pose proof (vq_hd_in q l Hq) as Hh. pose proof (vq_len q l Hq) as Hl.
  rewrite (vq_and q l _ Hq).
  assert ((vq_tl q + 1) mod vq_cap q = vq_cell q (zlen l + 1)) as ->.
  { rewrite (vq_tl_in q l Hq). unfold vq_cell. rewrite Zplus_mod_idemp_l. f_equal. lia. }
  destruct (Z.eq_dec (zlen l + 1) (vq_cap q)) as [E|E].
  - assert (vq_cell q (zlen l + 1) = vq_hd q) as ->.
    { rewrite E. unfold vq_cell. rewrite <- (Z.mul_1_l (vq_cap q)) at 1.
      rewrite Z.mod_add, Z.mod_small by lia. done. }
    rewrite Z.eqb_refl.
    destruct (enlarge_rep q l Hq Hroom) as (q1 & -> & H1 & Eh & Et & Ec); [lia|]. mred.
    destruct (write_rep q1 l x H1) as (b & -> & Hb); [lia|]. mred. eexists; split; [done|].
    rewrite Et. replace (vq_cell q1 (zlen l + 1)) with (zlen l + 1) in Hb; [done|].
    unfold vq_cell. rewrite Eh, Z.add_0_l, Z.mod_small; lia.
  - destruct (Z.eqb_spec (vq_cell q (zlen l + 1)) (vq_hd q)) as [E2|_].
    { rewrite (vq_cell_cases q l) in E2 by (done || lia).
      destruct (Z.ltb_spec (vq_hd q + (zlen l + 1)) (vq_cap q)); lia. }
    destruct (write_rep q l x Hq) as (b & -> & Hb); [lia|]. mred. by eexists.
Qed.

Lemma vq_not_empty q x l : vq_rep q (x :: l) -> (vq_hd q =? vq_tl q) = false.
Proof.
  intros Hq. pose proof (vq_hd_in q _ Hq). pose proof (vq_len q _ Hq) as Hl. cbn in Hl.
  apply Z.eqb_neq. rewrite (vq_tl_in q _ Hq). cbn.
  rewrite (vq_cell_cases q (x :: l)) by (done || lia).
  destruct (Z.ltb_spec (vq_hd q + Z.of_nat (S (length l))) (vq_cap q)); lia.
Qed.

Lemma vq_cell_0 q l : vq_rep q l -> vq_cell q 0 = vq_hd q.
Proof. intros Hq. pose proof (vq_hd_in q _ Hq). unfold vq_cell. rewrite Z.mod_small; lia. Qed.

Lemma vq_empty_eq q : vq_rep q [] -> vq_tl q = vq_hd q.
Proof. intros Hq. rewrite <- (vq_cell_0 q [] Hq). apply (vq_tl_in q [] Hq). Qed.

Lemma vq_head_rd q x l : vq_rep q (x :: l) -> rd (vq_buffer q) (vq_hd q) = Ret x.
Proof.
  intros Hq. pose proof (vq_hd_in q _ Hq). pose proof (vq_elem q _ Hq 0) as He.
  rewrite (vq_cell_0 q _ Hq) in He. apply rd_ok; [lia|]. rewrite He; [done|]. cbn. lia.
Qed.

Lemma VectorQueue_get_rep q x l :
  vq_rep q (x :: l) -> exists q', VectorQueue_get q = Ret (x, q') /\ vq_rep q' l.
Proof.
  intros Hq. unfold VectorQueue_get. rewrite (vq_not_empty q x l Hq). mred.
  rewrite (vq_head_rd q x l Hq). mred. eexists; split; [done|].
  pose proof (vq_cap_pos q _ Hq) as Hc. pose proof (vq_len q _ Hq) as Hl. cbn in Hl.
  rewrite (vq_and q _ _ Hq).
  assert (forall i, ((vq_hd q + 1) mod vq_cap q + i) mod vq_cap q = vq_cell q (i + 1)) as Hcell.
  { intros i. rewrite Zplus_mod_idemp_l. unfold vq_cell. f_equal. lia. }
  split; cbn.
  - apply Hq.
  - apply Hq.
  - apply Z.mod_pos_bound. lia.
  - unfold vq_cell. cbn. rewrite Hcell, (vq_tl_in q _ Hq). cbn. f_equal. lia.
  - lia.
  - intros i Hi. unfold vq_cell. cbn. rewrite Hcell, (vq_elem q _ Hq) by (cbn; lia).
    by replace (Z.to_nat (i + 1)) with (S (Z.to_nat i)) by lia.
Qed.

#[export] Instance VectorQueue_ops : QueueOps A (VectorQueue A) := {
  q_put := VectorQueue_put; q_get := VectorQueue_get;
  q_head := VectorQueue_head; q_isEmpty := VectorQueue_isEmpty }.

#[export] Program Instance VectorQueue_queue : Queue A (VectorQueue A) := {
  q_rep := vq_rep; q_room := vq_room; q_put_law := VectorQueue_put_rep }.
Next Obligation. intros q l x. apply VectorQueue_get_rep. Qed.
Next Obligation.
  intros q l x Hq. cbn. unfold VectorQueue_head. rewrite (vq_not_empty q x l Hq). mred.
  by apply (vq_head_rd q x l).
Qed.
Next Obligation.
  intros q l Hq. cbn. unfold VectorQueue_isEmpty. destruct l as [|x l].
  - by rewrite (vq_empty_eq q Hq), Z.eqb_refl.
  - by rewrite (vq_not_empty q x l Hq).
Qed.
Next Obligation.
  intros q Hq. cbn. unfold VectorQueue_get.
  by rewrite (vq_empty_eq q Hq), Z.eqb_refl.
Qed.

Lemma VectorQueue_size_nonempty q x l : vq_rep q (x :: l) -> VectorQueue_size q = zlen (x :: l).
Proof.
  intros Hq. unfold VectorQueue_size. pose proof (vq_hd_in q _ Hq). pose proof (vq_len q _ Hq) as Hl.
  rewrite (vq_tl_in q _ Hq), (vq_cell_cases q (x :: l)) by (done || lia). cbn in *.
  destruct (Z.ltb_spec (vq_hd q + Z.of_nat (S (length l))) (vq_cap q)).
  - rewrite (proj2 (Z.ltb_lt _ _)); lia.
  - destruct (Z.ltb_spec (vq_hd q) (vq_hd q + Z.of_nat (S (length l)) - vq_cap q)); lia.
Qed.
End VectorQueue.

(** ** Linked queue: nodes in a heap *)

(** A node: its value and the address of the next one (0 for null). *)
Abbreviation node_heap A := (gmap Z (A * Z)).

(** Distinct nodes of a heap are not more than its cells: the size of the heap bounds
    the loops that follow them. *)
Lemma nodup_size {N} (h : gmap Z N) l : NoDup l -> (forall a, a ∈ l -> is_Some (h !! a)) -> (length l <= size h)%nat.
Proof.
  intros Nd Hl. rewrite <- size_dom, <- (size_list_to_set (C := gset Z)) by done.
  apply subseteq_size. intros a Ha%elem_of_list_to_set. by apply elem_of_dom, Hl.
Qed.

(* src/include/elm/data/ListQueue.h:63-66 ListQueue *)
Record ListQueue (A : Type) := mkLQ { lq_h : Z; lq_t : Z; lq_heap : node_heap A }.
Arguments mkLQ {A} _ _ _.
Arguments lq_h {A} _.
Arguments lq_t {A} _.
Arguments lq_heap {A} _.

Section ListQueue.
Context {A : Type} (equals : A -> A -> bool).
(** The allocator gives the address of a block that is not in use. *)
Context (new_node : node_heap A -> Z).

Definition deref (hp : node_heap A) (a : Z) : outcome (A * Z) :=
  match hp !! a with Some n => Ret n | None => Crash OutOfBounds end.

(* src/include/elm/data/ListQueue.h:44-44 ListQueue::ListQueue *)
Definition ListQueue_make : ListQueue A := mkLQ 0 0 ∅.
(* src/include/elm/data/ListQueue.h:47-47 ListQueue::isEmpty *)
Definition ListQueue_isEmpty (q : ListQueue A) : bool := lq_h q =? 0.
(* src/include/elm/data/ListQueue.h:48-48 ListQueue::head *)
Definition ListQueue_head (q : ListQueue A) : outcome A :=
  assertP (negb (lq_h q =? 0)) ;; n ← deref (lq_heap q) (lq_h q); Ret n.1.
(* src/include/elm/data/ListQueue.h:54-55 ListQueue::put *)
Definition ListQueue_put (q : ListQueue A) (item : A) : outcome (ListQueue A) :=
  let n := new_node (lq_heap q) in
  let hp := <[n := (item, 0)]> (lq_heap q) in
  if negb (lq_h q =? 0) then
    t ← deref hp (lq_t q);
    Ret (mkLQ (lq_h q) n (<[lq_t q := (t.1, n)]> hp))
  else Ret (mkLQ n n hp).
(* src/include/elm/data/ListQueue.h:49-50 ListQueue::get *)
Definition ListQueue_get (q : ListQueue A) : outcome (A * ListQueue A) :=
  assertP (negb (lq_h q =? 0)) ;;
  n ← deref (lq_heap q) (lq_h q);
  Ret (n.1, mkLQ n.2 (if n.2 =? 0 then 0 else lq_t q) (delete (lq_h q) (lq_heap q))).
(* src/include/elm/data/ListQueue.h:51-52 ListQueue::contains *)
Definition ListQueue_contains (q : ListQueue A) (x : A) : outcome bool :=
  iter (S (size (lq_heap q))) (fun a =>
    if a =? 0 then Ret (inr false) else
    n ← deref (lq_heap q) a;
    Ret (if equals n.1 x then inr true else inl n.2)) (lq_h q).
(** [reset] frees the nodes and keeps the pointers. *)
(* src/include/elm/data/ListQueue.h:56-57 ListQueue::reset *)
Definition ListQueue_reset (q : ListQueue A) : outcome (ListQueue A) :=
  hp ← iter (S (size (lq_heap q))) (fun '(a, hp) =>
    if a =? 0 then Ret (inr hp) else
    n ← deref hp a; Ret (inl (n.2, delete a hp))) (lq_h q, lq_heap q);
  Ret (mkLQ (lq_h q) (lq_t q) hp).

Hypothesis new_node_ok : forall hp, new_node hp <> 0 /\ hp !! new_node hp = None.

(** The nodes at the addresses [ads] hold the elements of [l], chained. *)
Fixpoint nodes (hp : node_heap A) (ads : list Z) (l : list A) : Prop :=
  match ads, l with
  | [], [] => True
  | a :: ads, x :: l => a <> 0 /\ hp !! a = Some (x, hd 0 ads) /\ nodes hp ads l
  | _, _ => False
  end.

(** The nodes of [l], and no other, are in the heap. *)
Definition lq_rep (q : ListQueue A) (l : list A) : Prop :=
  exists ads, nodes (lq_heap q) ads l /\ NoDup ads /\
    lq_h q = hd 0 ads /\ (ads <> [] -> lq_t q = List.last ads 0) /\
    forall a, is_Some (lq_heap q !! a) -> a ∈ ads.

Lemma nodes_frame hp ads l a v : a ∉ ads -> nodes hp ads l -> nodes (<[a := v]> hp) ads l.
Proof.
  revert l. induction ads as [|b ads IH]; intros [|x l]; cbn; try done.
  intros Ha (H1 & H2 & H3). apply not_elem_of_cons in Ha as [Hab Ha].
  rewrite lookup_insert_ne by done. split_and!; [done|done|by apply IH].
Qed.

Lemma nodes_in hp ads l a : nodes hp ads l -> a ∈ ads -> a <> 0 /\ is_Some (hp !! a).
Proof.
  revert l. induction ads as [|b ads IH]; intros [|x l]; cbn; try done.
  - intros _ Ha. by apply not_elem_of_nil in Ha.
  - intros (H1 & H2 & H3) [->|Ha]%elem_of_cons; [by rewrite H2|by eapply IH].
Qed.

Lemma nodes_snoc hp ads a n l y :
  NoDup (ads ++ [a]) -> n ∉ ads ++ [a] -> n <> 0 ->
  nodes hp (ads ++ [a]) l ->
  exists x, hp !! a = Some (x, 0) /\
    nodes (<[a := (x, n)]> (<[n := (y, 0)]> hp)) (ads ++ [a; n]) (l ++ [y]).
Proof.
  revert l. induction ads as [|b ads IH]; intros l Hnd Hn Hn0; destruct l as [|x l]; cbn; try done.
  - intros (H1 & H2 & H3). destruct l; [|done]. exists x. split; [done|].
    cbn in *. apply not_elem_of_cons in Hn as [Hn _].
    rewrite lookup_insert_eq, lookup_insert_ne, lookup_insert_eq by done. done.
  - intros (H1 & H2 & H3). cbn in Hnd, Hn. apply NoDup_cons in Hnd as [Hb Hnd].
    apply not_elem_of_cons in Hn as [Hnb Hn].
    destruct (IH l Hnd Hn Hn0 H3) as (z & Ez & Hz). exists z. split; [done|].
    split; [done|]. split; [|done].
    assert (b <> a) by (intros ->; apply Hb; apply elem_of_app; right; by left).
    rewrite !lookup_insert_ne by done. rewrite H2. by destruct ads.
Qed.

Lemma last_snoc (ads : list Z) a d : List.last (ads ++ [a]) d = a.
Proof. apply List.last_last. Qed.

Lemma ListQueue_put_rep q l x :
  lq_rep q l -> (fun _ : list A => true) l = true -> exists q', ListQueue_put q x = Ret q' /\ lq_rep q' (l ++ [x]).
Proof.
  intros (ads & Hn & Hnd & Hh & Ht & Hall) _. unfold ListQueue_put.
  destruct (new_node_ok (lq_heap q)) as [Hn0 Hnew]. set (n := new_node (lq_heap q)) in *.
  assert (n ∉ ads) as Hfr.
  { intros Hin. destruct (nodes_in _ _ _ _ Hn Hin) as [_ [v Hv]]. congruence. }
  destruct ads as [|a ads _] using rev_ind.
  - rewrite Hh. cbn. destruct l; [|done]. eexists; split; [done|].
    exists [n]. cbn. rewrite lookup_insert_eq. split_and!; try done.
    + apply NoDup_singleton.
    + intros a. destruct (decide (a = n)) as [->|]; [by left|]. rewrite lookup_insert_ne by done.
      intros Ha%Hall. by apply not_elem_of_nil in Ha.
  - destruct (nodes_snoc _ _ a n l x Hnd Hfr Hn0 Hn) as (z & Ez & Hz).
    assert (lq_h q <> 0) as H0.
    { rewrite Hh. destruct ads as [|b ads]; destruct l; cbn in *; try done; apply Hn. }
    rewrite (proj2 (Z.eqb_neq _ _) H0). cbn. rewrite (Ht ltac:(by destruct ads)), last_snoc.
    assert (a <> n) by (intros ->; apply Hfr, elem_of_app; right; by left).
    assert (<[n := (x, 0)]> (lq_heap q) !! a = Some (z, 0)) as E by (by rewrite lookup_insert_ne).
    unfold deref. rewrite E. mred. eexists; split; [done|].
    exists (ads ++ [a; n]). cbn. split_and!; [done| | | |].
    + change [a; n] with ([a] ++ [n]). rewrite app_assoc. apply NoDup_app. split_and!; [done| |apply NoDup_singleton].
      intros c Hc ->%list_elem_of_singleton. done.
    + rewrite Hh. by destruct ads.
    + intros _. change [a; n] with ([a] ++ [n]). by rewrite app_assoc, last_snoc.
    + intros b Hb. change [a; n] with ([a] ++ [n]). rewrite app_assoc. apply elem_of_app.
      destruct (decide (b = n)) as [->|]; [right; by left|left].
      destruct (decide (b = a)) as [->|]; [apply elem_of_app; right; by left|].
      rewrite !lookup_insert_ne in Hb by done. by apply Hall.
Qed.

Lemma nodes_delete hp ads l a : a ∉ ads -> nodes hp ads l -> nodes (delete a hp) ads l.
Proof.
  revert l. induction ads as [|b ads IH]; intros [|x l]; cbn; try done.
  intros Ha (H1 & H2 & H3). apply not_elem_of_cons in Ha as [Hab Ha].
  rewrite lookup_delete_ne by done. split_and!; [done|done|by apply IH].
Qed.

Lemma ListQueue_get_rep q x l :
  lq_rep q (x :: l) -> exists q', ListQueue_get q = Ret (x, q') /\ lq_rep q' l.
Proof.
  intros (ads & Hn & Hnd & Hh & Ht & Hall). destruct ads as [|a ads]; [done|].
  destruct Hn as (Ha & Ea & Hn). cbn in Hh. unfold ListQueue_get, deref.
  rewrite Hh, (proj2 (Z.eqb_neq _ _) Ha), Ea. mred. eexists; split; [done|].
  apply NoDup_cons in Hnd as [Hna Hnd]. exists ads. cbn. split_and!; [by apply nodes_delete|done|done| |].
  - intros Hne. rewrite Ht by done. destruct ads as [|b ads]; [done|].
    destruct l; [done|]. destruct Hn as (Hb & _). cbn. by rewrite (proj2 (Z.eqb_neq _ _) Hb).
  - intros b. destruct (decide (b = a)) as [->|]; [by rewrite lookup_delete_eq; intros []|].
    rewrite lookup_delete_ne by done. by intros [?|?]%Hall%elem_of_cons.
Qed.

Lemma lq_h_cases q l : lq_rep q l -> (lq_h q =? 0) = match l with [] => true | _ => false end.
Proof.
  intros (ads & Hn & _ & Hh & _ & _). rewrite Hh. destruct ads as [|a ads], l; try done.
  destruct Hn as (Ha & _). by apply Z.eqb_neq.
Qed.

#[local] Instance ListQueue_ops : QueueOps A (ListQueue A) := {
  q_put := ListQueue_put; q_get := ListQueue_get;
  q_head := ListQueue_head; q_isEmpty := ListQueue_isEmpty }.

#[local] Program Instance ListQueue_queue : Queue A (ListQueue A) := {
  q_rep := lq_rep; q_room := fun _ => true; q_put_law := ListQueue_put_rep }.
Next Obligation. intros q l x. apply ListQueue_get_rep. Qed.
Next Obligation.
  intros q l x Hq. cbn. unfold ListQueue_head. rewrite (lq_h_cases q _ Hq). mred.
  destruct Hq as (ads & Hn & _ & Hh & _ & _). destruct ads as [|a ads]; [done|].
  destruct Hn as (_ & Ea & _). cbn in Hh. unfold deref. by rewrite Hh, Ea.
Qed.
Next Obligation.
  intros q l Hq. cbn. unfold ListQueue_isEmpty. rewrite (lq_h_cases q _ Hq). by destruct l.
Qed.
Next Obligation. intros q Hq. cbn. unfold ListQueue_get. by rewrite (lq_h_cases q _ Hq). Qed.

Lemma nodes_length hp ads l : nodes hp ads l -> length ads = length l.
Proof.
  revert l. induction ads as [|a ads IH]; intros [|x l]; cbn; try done. intros (_ & _ & H). by rewrite (IH l H).
Qed.
Lemma lq_rep_size q l : lq_rep q l -> size (lq_heap q) = length l.
Proof.
  intros (ads & Hn & Hnd & _ & _ & Hall). rewrite <- (nodes_length _ _ _ Hn), <- size_dom.
  rewrite <- (size_list_to_set (C := gset Z) ads) by done. f_equal. apply set_eq. intros a.
  rewrite elem_of_dom, elem_of_list_to_set. split; [apply Hall|]. intros Ha. by eapply nodes_in.
Qed.

Lemma ListQueue_make_rep : lq_rep ListQueue_make [].
Proof. exists []. split_and!; try done; [constructor|]. intros a [v Hv]. cbn in Hv. by rewrite lookup_empty in Hv. Qed.
End ListQueue.

(** ** Bounded stack *)

(* src/include/elm/data/StaticStack.h:82-84 StaticStack *)
Record StaticStack (A : Type) := mkSS { ss_s : list A; ss_t : Z }.
Arguments mkSS {A} _ _.
Arguments ss_s {A} _.
Arguments ss_t {A} _.

Section StaticStack.
Context {A : Type} (dflt : A) (equals : A -> A -> bool) (N : Z).

(* src/include/elm/data/StaticStack.h:33-33 StaticStack::StaticStack *)
Definition StaticStack_make : StaticStack A := mkSS (replicate (Z.to_nat N) dflt) 0.
(* src/include/elm/data/StaticStack.h:35-36 StaticStack::copy *)
Definition StaticStack_copy (s s' : StaticStack A) : outcome (StaticStack A) :=
  l ← memcpy (ss_s s) 0 (ss_s s') (ss_t s'); Ret (mkSS l (ss_t s')).
(* src/include/elm/data/StaticStack.h:41-41 StaticStack::isEmpty *)
Definition StaticStack_isEmpty (s : StaticStack A) : bool := ss_t s =? 0.
(* src/include/elm/data/StaticStack.h:42-42 StaticStack::top *)
Definition StaticStack_top (s : StaticStack A) : outcome A := rd (ss_s s) (ss_t s - 1).
(* src/include/elm/data/StaticStack.h:43-43 StaticStack::pop *)
Definition StaticStack_pop (s : StaticStack A) : outcome (A * StaticStack A) :=
  assertP (negb (ss_t s =? 0)) ;;
  x ← rd (ss_s s) (ss_t s - 1); Ret (x, mkSS (ss_s s) (ss_t s - 1)).
(* src/include/elm/data/StaticStack.h:44-44 StaticStack::push *)
Definition StaticStack_push (s : StaticStack A) (x : A) : outcome (StaticStack A) :=
  assertP (negb (ss_t s =? N)) ;;
  l ← wr (ss_s s) (ss_t s) x; Ret (mkSS l (ss_t s + 1)).
(* src/include/elm/data/StaticStack.h:45-45 StaticStack::reset *)
Definition StaticStack_reset (s : StaticStack A) : StaticStack A := mkSS (ss_s s) 0.
(* src/include/elm/data/StaticStack.h:61-62 StaticStack::contains *)
Definition StaticStack_contains (s : StaticStack A) (x : A) : outcome bool :=
  r ← scan 0 (ss_t s + 1) (fun k => y ← rd (ss_s s) (ss_t s - k);
        Ret (if equals y x then Some true else None));
  Ret (default false r).
(* src/include/elm/data/StaticStack.h:71-72 StaticStack::equals *)
Definition StaticStack_equals (s s' : StaticStack A) : outcome bool :=
  if negb (ss_t s =? ss_t s') then Ret false else
  r ← scan 0 (ss_t s) (fun i => x ← rd (ss_s s) i; y ← rd (ss_s s') i;
        Ret (if negb (equals x y) then Some false else None));
  Ret (default true r).

(** The stack holds [l], bottom first. *)
Definition ss_rep (s : StaticStack A) (l : list A) : Prop :=
  zlen (ss_s s) = N /\ zlen l = ss_t s /\ ss_t s <= N /\
  forall i, 0 <= i < ss_t s -> ss_s s !! Z.to_nat i = l !! Z.to_nat i.

Lemma ss_push_rep s l x : ss_rep s l -> zlen l < N ->
  exists s', StaticStack_push s x = Ret s' /\ ss_rep s' (l ++ [x]).
Proof.
  intros (H1 & H2 & H3 & H4) Hn. unfold StaticStack_push.
  rewrite (proj2 (Z.eqb_neq _ _)) by lia. mred. rewrite wr_ok by lia. mred.
  eexists; split; [done|]. unfold ss_rep. cbn. rewrite length_insert, length_app. cbn.
  split_and!; try lia. intros i Hi. destruct (Z.eq_dec i (ss_t s)) as [->|].
  - rewrite list_lookup_insert_eq by lia. rewrite <- H2, Nat2Z.id. by rewrite list_lookup_middle.
  - rewrite list_lookup_insert_ne by lia. rewrite lookup_app_l by lia. apply H4. lia.
Qed.

Lemma ss_pop_rep s l x : ss_rep s (l ++ [x]) ->
  exists s', StaticStack_pop s = Ret (x, s') /\ ss_rep s' l /\ StaticStack_top s = Ret x.
Proof.
  intros (H1 & H2 & H3 & H4). rewrite length_app in H2. cbn in H2.
  unfold StaticStack_pop, StaticStack_top. rewrite (proj2 (Z.eqb_neq _ _)) by lia. mred.
  rewrite (rd_ok _ _ x); [|lia|].
  - mred. eexists; split; [done|]. split; [|done]. unfold ss_rep. cbn. split_and!; try lia.
    intros i Hi. rewrite H4 by lia. by rewrite lookup_app_l by lia.
  - rewrite H4 by lia. replace (Z.to_nat (ss_t s - 1)) with (length l) by lia.
    by apply list_lookup_middle.
Qed.
End StaticStack.

(** ** Properties *)

(** The circular queue is first-in first-out: from an empty queue, any
    sequence of [put] and [get] that never takes more than it has put, nor holds
    more than 2^30 - 1 elements, gives the elements in the order they were put,
    across the wrap-arounds and the enlargements of the buffer. *)
Theorem VectorQueue_fifo {A} (dflt : A) capacity os l out :
  0 <= capacity <= 30 -> fifo vq_room [] os = Some (l, out) ->
  exists q0 q, VectorQueue_make dflt capacity = Ret q0 /\
    queue_run (H := VectorQueue_ops dflt) q0 os = Ret (q, out) /\
    out ++ l = omap (fun o => match o with QPut x => Some x | QGet => None end) os /\
    VectorQueue_isEmpty q = bool_decide (l = []).
Proof.
  intros Hc Hf. destruct (VectorQueue_make_rep dflt capacity Hc) as (q0 & E0 & H0).
  destruct (queue_fifo (H0 := VectorQueue_queue dflt) os q0 [] l out H0 Hf) as (q & E & Hq).
  exists q0, q. split_and!; [done|done|apply (fifo_order _ os [] l out Hf)|].
  pose proof (q_isEmpty_law (Queue := VectorQueue_queue dflt) q l Hq) as He. cbn in He.
  destruct (VectorQueue_isEmpty q), (bool_decide_reflect (l = [])); try done; [|];
    exfalso; naive_solver.
Qed.

Lemma VectorQueue_fifo_witness :
  exists q0 q, VectorQueue_make 0 1 = Ret q0 /\
    queue_run (H := VectorQueue_ops 0) q0 [QPut 1; QGet; QPut 2; QPut 3; QPut 4; QGet; QGet]
      = Ret (q, [1; 2; 3]).
Proof.
  destruct (VectorQueue_fifo 0 1 [QPut 1; QGet; QPut 2; QPut 3; QPut 4; QGet; QGet] [4] [1; 2; 3])
    as (q0 & q & E0 & E & _); [done|done|]. by exists q0, q.
Defined.

(** [C30] The linked queue is first-in first-out too, provided the allocator
    returns addresses that are not in use: its nodes stay chained from [h] to
    [t], no node is read after it is freed, and the heap holds the nodes of the
    waiting elements and no other: every node taken has been freed, no other one. *)
Theorem ListQueue_fifo {A} (new_node : node_heap A -> Z) os l out :
  (forall hp, new_node hp <> 0 /\ hp !! new_node hp = None) ->
  fifo (fun _ => true) [] os = Some (l, out) ->
  exists q, queue_run (H := ListQueue_ops new_node) ListQueue_make os = Ret (q, out) /\
    lq_rep q l /\ size (lq_heap q) = length l /\
    out ++ l = omap (fun o => match o with QPut x => Some x | QGet => None end) os.
Proof.
  intros Hnew Hf.
  destruct (queue_fifo (H0 := ListQueue_queue new_node Hnew) os ListQueue_make [] l out) as (q & E & Hq);
    [apply ListQueue_make_rep|done|].
  exists q. split_and!; [done|done|by apply lq_rep_size|apply (fifo_order _ os [] l out Hf)].
Qed.

Definition fresh_node {N} (hp : gmap Z N) : Z := fresh ({[0]} ∪ dom hp : gset Z).

Lemma fresh_node_ok {N} (hp : gmap Z N) : fresh_node hp <> 0 /\ hp !! fresh_node hp = None.
Proof.
  pose proof (is_fresh ({[0]} ∪ dom hp : gset Z)) as H. unfold fresh_node.
  apply not_elem_of_union in H as [H1 H2]. split; [by intros E; rewrite E in H1; apply H1, elem_of_singleton|].
  by apply not_elem_of_dom.
Qed.

Lemma ListQueue_fifo_witness :
  exists q, queue_run (H := ListQueue_ops fresh_node) ListQueue_make [QPut 1; QPut 2; QGet; QPut 3; QGet]
    = Ret (q, [1; 2]).
Proof.
  destruct (ListQueue_fifo fresh_node [QPut 1; QPut 2; QGet; QPut 3; QGet] [3] [1; 2] fresh_node_ok eq_refl)
    as (q & E & _). by exists q.
Defined.

(** The bounded stack is last-in first-out up to its [N] elements, and a
    push beyond them stops on the assertion without writing. *)
Theorem StaticStack_lifo {A} N (s : StaticStack A) l x :
  ss_rep N s l ->
  (zlen l < N -> exists s' s'', StaticStack_push N s x = Ret s' /\
     StaticStack_top s' = Ret x /\ StaticStack_pop s' = Ret (x, s'') /\ ss_rep N s'' l) /\
  (zlen l = N -> StaticStack_push N s x = Crash AssertFailed) /\
  (l = [] -> StaticStack_pop s = Crash AssertFailed).
Proof.
  intros Hs. split_and!.
  - intros Hn. destruct (ss_push_rep N s l x Hs Hn) as (s' & E & H').
    destruct (ss_pop_rep N s' l x H') as (s'' & E2 & H2 & E3). by exists s', s''.
  - intros Hn. destruct Hs as (_ & H2 & _ & _). unfold StaticStack_push.
    by rewrite (proj2 (Z.eqb_eq _ _)) by lia.
  - intros ->. destruct Hs as (_ & H2 & _ & _). unfold StaticStack_pop.
    by rewrite (proj2 (Z.eqb_eq _ _)) by (cbn in H2; lia).
Qed.

Lemma StaticStack_lifo_witness :
  exists s', StaticStack_push 2 (mkSS [7; 0] 1) 8 = Ret s' /\ StaticStack_top s' = Ret 8.
Proof.
  destruct (StaticStack_lifo 2 (mkSS [7; 0] 1) [7] 8) as [H _].
  - split_and!; try done. intros i Hi. by replace i with 0 by (cbn in Hi; lia).
  - destruct H as (s' & s'' & E & T & _); [done|]. by exists s'.
Defined.

(** *** What goes wrong *)

(** The size of an empty circular queue is its capacity. *)
Example VectorQueue_size_empty : (q ← VectorQueue_make 0 2; Ret (VectorQueue_size q)) = Ret 4.
Proof. by vm_compute. Qed.
(** [reset] leaves the linked queue pointing to freed nodes. *)
Example ListQueue_reset_dangles :
  (q ← ListQueue_put fresh_node ListQueue_make 1; q ← ListQueue_reset q; ListQueue_get q)
    = Crash OutOfBounds.
Proof. by vm_compute. Qed.
(** The search in a bounded stack starts above the top. *)
Example StaticStack_contains_above : StaticStack_contains Z.eqb (mkSS [1; 5] 1) 5 = Ret true.
Proof. by vm_compute. Qed.
