(* ===== verification/Compare.v ===== *)
(** * Comparators ([include/elm/compare.h])

    The interface between the containers and the order of their elements: a
    three-way comparison ([Comparator]) and the laws a container needs
    ([TotalOrder]).  The sorted containers are proved against the laws. *)

From S2P Require Import Prelude.

(* src/include/elm/compare.h:34-40 Comparator *)
Class Comparator (A : Type) := doCompare : A -> A -> Z.

Class TotalOrder (A : Type) `{Comparator A} := {
  compare_eq x y : doCompare x y = 0 <-> x = y;
  compare_opp x y : doCompare x y < 0 <-> 0 < doCompare y x;
  compare_trans x y z : doCompare x y < 0 -> doCompare y z < 0 -> doCompare x z < 0 }.

(** The comparator of a type with [==] and [>]. *)
(* src/include/elm/compare.h:37-38 Comparator::compare *)
Definition compare_gt {A} (eqb gtb : A -> A -> bool) (v1 v2 : A) : Z :=
  if eqb v1 v2 then 0 else if gtb v1 v2 then 1 else -1.

#[export] Instance Z_comparator : Comparator Z := compare_gt Z.eqb Z.gtb.

(* src/include/elm/compare.h:82-92 ReverseComparator *)
Definition ReverseComparator {A} (c : Comparator A) : Comparator A := fun v1 v2 => - c v1 v2.

(* src/include/elm/compare.h:62-76 AssocComparator *)
Definition AssocComparator {K T} (c : Comparator K) : Comparator (K * T) :=
  fun v1 v2 => c v1.1 v2.1.

(* src/include/elm/compare.h:104-105 min *)
Definition compare_min {A} `{Comparator A} (x y : A) : A := if 0 <=? doCompare x y then y else x.
(* src/include/elm/compare.h:108-109 max *)
Definition compare_max {A} `{Comparator A} (x y : A) : A := if 0 <=? doCompare x y then x else y.
(** The least element of a collection; [m] is its first one. *)
(* src/include/elm/compare.h:113-115 min *)
Definition collection_min {A} `{Comparator A} (m : A) (c : list A) : A :=
  foldl (fun m x => if doCompare x m <? 0 then x else m) m c.
(* src/include/elm/compare.h:119-121 max *)
Definition collection_max {A} `{Comparator A} (m : A) (c : list A) : A :=
  foldl (fun m x => if 0 <? doCompare x m then x else m) m c.

(** ** Consequences of the laws *)

Definition clt {A} `{Comparator A} (x y : A) : Prop := doCompare x y < 0.
Definition cle {A} `{Comparator A} (x y : A) : Prop := doCompare x y <= 0.

Section Laws.
Context {A : Type} `{TotalOrder A}.

Lemma compare_refl x : doCompare x x = 0.
Proof. by apply compare_eq. Qed.
Lemma clt_irrefl x : ~ clt x x.
Proof. unfold clt. rewrite compare_refl. lia. Qed.
Lemma clt_trans x y z : clt x y -> clt y z -> clt x z.
Proof. apply compare_trans. Qed.
Lemma clt_asym x y : clt x y -> ~ clt y x.
Proof. intros H1 H2. by apply (clt_irrefl x), (clt_trans x y x). Qed.
Lemma clt_gt x y : 0 < doCompare x y <-> clt y x.
Proof. symmetry. apply compare_opp. Qed.

(** The three outcomes of a comparison. *)
Inductive compare_spec (x y : A) : Z -> Prop :=
  | CmpEq : x = y -> compare_spec x y 0
  | CmpLt c : clt x y -> c < 0 -> compare_spec x y c
  | CmpGt c : clt y x -> 0 < c -> compare_spec x y c.

Lemma compareP x y : compare_spec x y (doCompare x y).
Proof.
  destruct (Z.lt_trichotomy (doCompare x y) 0) as [Hc|[Hc|Hc]].
  - by apply CmpLt.
  - rewrite Hc. apply CmpEq. by apply compare_eq.
  - apply CmpGt; [|done]. by apply clt_gt.
Qed.

Lemma clt_cases x y : clt x y \/ x = y \/ clt y x.
Proof. destruct (compareP x y); tauto. Qed.

#[export] Instance clt_dec x y : Decision (clt x y).
Proof. unfold clt. apply _. Defined.

Lemma cle_not_gt x y : cle x y <-> ~ clt y x.
Proof. unfold cle. rewrite <- clt_gt. lia. Qed.
Lemma cle_or_gt x y : cle x y \/ clt y x.
Proof. rewrite cle_not_gt. destruct (decide (clt y x)); tauto. Qed.
Lemma cle_refl x : cle x x.
Proof. unfold cle. by rewrite compare_refl. Qed.
Lemma clt_cle x y : clt x y -> cle x y.
Proof. unfold clt, cle. lia. Qed.
Lemma cle_cases x y : cle x y -> clt x y \/ x = y.
Proof. unfold cle. destruct (compareP x y); [by right|by left|lia]. Qed.
Lemma clt_cle_trans x y z : clt x y -> cle y z -> clt x z.
Proof. intros Hx [Hy| ->]%cle_cases; [by eapply clt_trans|done]. Qed.
Lemma cle_clt_trans x y z : cle x y -> clt y z -> clt x z.
Proof. intros [Hx| ->]%cle_cases Hy; [by eapply clt_trans|done]. Qed.
Lemma cle_trans x y z : cle x y -> cle y z -> cle x z.
Proof. intros [Hx| ->]%cle_cases Hy; [by eapply clt_cle, clt_cle_trans|done]. Qed.

(** A list in strictly increasing order: a set. *)
Abbreviation csorted := (StronglySorted (clt (A := A))).

Lemma csorted_cons_inv x l : csorted (x :: l) -> csorted l /\ forall y, y ∈ l -> clt x y.
Proof.
  intros Hs. apply StronglySorted_inv in Hs as [H1 H2]. split; [done|].
  by apply list.Forall_forall.
Qed.
Lemma csorted_cons x l : csorted l -> (forall y, y ∈ l -> clt x y) -> csorted (x :: l).
Proof. intros Hs Hx. constructor; [done|]. by apply list.Forall_forall. Qed.

(** Sorted lists with the same elements are equal. *)
Lemma csorted_ext l k : csorted l -> csorted k -> (forall x, x ∈ l <-> x ∈ k) -> l = k.
Proof.
  revert k. induction l as [|x l IH]; intros k Hl Hk E.
  - destruct k as [|y k]; [done|]. exfalso. by apply (not_elem_of_nil y), E, elem_of_cons; left.
  - destruct k as [|y k].
    { exfalso. by apply (not_elem_of_nil x), E, elem_of_cons; left. }
    apply csorted_cons_inv in Hl as [Hl Hx]. apply csorted_cons_inv in Hk as [Hk Hy].
    assert (x = y) as <-.
    { pose proof (proj1 (E x) ltac:(by left)) as [E1|E1]%elem_of_cons; [done|].
      pose proof (proj2 (E y) ltac:(by left)) as [E2|E2]%elem_of_cons; [done|].
      exfalso. eapply clt_asym; eauto. }
    f_equal. apply IH; [done|done|]. intros z. specialize (E z).
    rewrite !elem_of_cons in E. split; intros Hz.
    + destruct (proj1 E (or_intror Hz)) as [->|]; [|done]. exfalso. eapply clt_irrefl, Hx, Hz.
    + destruct (proj2 E (or_intror Hz)) as [->|]; [|done]. exfalso. eapply clt_irrefl, Hy, Hz.
Qed.
End Laws.
Abbreviation csorted := (StronglySorted clt).

Lemma compare_gt_law {A} (eqb gtb : A -> A -> bool) :
  (forall x y, eqb x y = true <-> x = y) -> (forall x, gtb x x = false) ->
  (forall x y, x <> y -> gtb x y = negb (gtb y x)) ->
  (forall x y z, gtb y x = true -> gtb z y = true -> gtb z x = true) ->
  @TotalOrder A (compare_gt eqb gtb).
Proof.
  intros He Hi Ha Ht.
  assert (forall x y, eqb x y = false <-> x <> y) as Hn.
  { intros x y. rewrite <- not_true_iff_false, He. done. }
  assert (forall x y, compare_gt eqb gtb x y < 0 <-> gtb y x = true) as Hlt.
  { intros x y. unfold compare_gt. destruct (eqb x y) eqn:E.
    - apply He in E as ->. rewrite Hi. split; [lia|done].
    - apply Hn in E. rewrite (Ha x y E). destruct (gtb y x); cbn; split; (lia || done). }
  split.
  - intros x y. unfold doCompare, compare_gt. destruct (eqb x y) eqn:E; [by apply He in E|].
    apply Hn in E. destruct (gtb x y); split; (lia || done).
  - intros x y. unfold doCompare. rewrite Hlt. unfold compare_gt. destruct (eqb y x) eqn:E.
    + apply He in E as ->. rewrite Hi. split; [done|lia].
    + destruct (gtb y x); split; (lia || done).
  - intros x y z. unfold doCompare. rewrite !Hlt. apply Ht.
Qed.

#[export] Instance Z_total_order : TotalOrder Z.
Proof.
  apply compare_gt_law.
  - apply Z.eqb_eq.
  - intros x. rewrite Z.gtb_ltb. apply Z.ltb_irrefl.
  - intros x y Hxy. rewrite !Z.gtb_ltb, <- Z.leb_antisym.
    apply eq_true_iff_eq. rewrite Z.ltb_lt, Z.leb_le. lia.
  - intros x y z. rewrite !Z.gtb_ltb, !Z.ltb_lt. lia.
Qed.

Lemma Z_clt x y : clt x y <-> x < y.
Proof.
  unfold clt, doCompare, Z_comparator, compare_gt. rewrite Z.gtb_ltb.
  destruct (Z.eqb_spec x y), (Z.ltb_spec y x); lia.
Qed.
Lemma Z_cle x y : cle x y <-> x <= y.
Proof. rewrite cle_not_gt, Z_clt. lia. Qed.

Lemma reverse_total_order {A} (c : Comparator A) :
  TotalOrder A -> @TotalOrder A (ReverseComparator c).
Proof.
  intros Ho. split; unfold doCompare, ReverseComparator.
  - intros x y. rewrite <- (compare_eq (H := c)). unfold doCompare. lia.
  - intros x y. pose proof (compare_opp (H := c) y x) as H. unfold doCompare in H. lia.
  - intros x y z H1 H2. pose proof (compare_trans (H := c) z y x) as Ht.
    pose proof (compare_opp (H := c) y x) as O1. pose proof (compare_opp (H := c) z y) as O2.
    pose proof (compare_opp (H := c) z x) as O3. unfold doCompare in *.
    assert (0 < c x z); [|lia]. apply O3, Ht; [apply O2; lia|apply O1; lia].
Qed.

Section SortedApp.
Context {A : Type} `{TotalOrder A}.

Lemma csorted_app (l k : list A) :
  csorted (l ++ k) <-> csorted l /\ csorted k /\ forall x y, x ∈ l -> y ∈ k -> clt x y.
Proof.
  induction l as [|a l IH]; cbn.
  - split; [intros Hk; split_and!; [constructor|done|]|by intros (_ & ? & _)].
    intros x y Hx. by apply not_elem_of_nil in Hx.
  - split.
    + intros [Hs Ha]%csorted_cons_inv. apply IH in Hs as (H1 & H2 & H3). split_and!; [|done|].
      * apply csorted_cons; [done|]. intros y Hy. apply Ha, elem_of_app. by left.
      * intros x y [->|Hx]%elem_of_cons Hy; [apply Ha, elem_of_app; by right|by apply H3].
    + intros ([H1 Ha]%csorted_cons_inv & H2 & H3). apply csorted_cons.
      * apply IH. split_and!; [done|done|]. intros x y Hx Hy. apply H3; [by right|done].
      * intros y [Hy|Hy]%elem_of_app; [by apply Ha|apply H3; [by left|done]].
Qed.

Lemma csorted_snoc (l : list A) x : csorted l -> (forall y, y ∈ l -> clt y x) -> csorted (l ++ [x]).
Proof.
  intros Hl Hx. apply csorted_app. split_and!; [done|by repeat constructor|].
  intros y z Hy ->%list_elem_of_singleton. by apply Hx.
Qed.
End SortedApp.

(** *** Weak orders

    Elements that compare equal may differ, such as pairs compared on their keys. *)

Class WeakOrder (A : Type) `{Comparator A} := {
  weak_total x y : 0 <= doCompare x y -> cle y x;
  weak_trans x y z : cle x y -> cle y z -> cle x z }.

#[export] Instance total_weak {A} `{TotalOrder A} : WeakOrder A.
Proof.
  split; [|intros; by eapply cle_trans]. intros x y Hxy. apply cle_not_gt. unfold clt. lia.
Qed.
#[export] Instance assoc_weak {K T} (c : Comparator K) `{!WeakOrder K} : @WeakOrder (K * T) (AssocComparator c).
Proof.
  split; unfold cle, doCompare, AssocComparator.
  - intros x y. apply weak_total.
  - intros x y z. apply weak_trans.
Qed.

(** *** Orders on a key: the sign of the comparison is that of an order, elements
    that compare equal may differ. *)
Class KeyOrder (A : Type) `{Comparator A} := {
  key_sym x y : doCompare x y < 0 <-> 0 < doCompare y x;
  key_trans x y z : cle x y -> cle y z -> cle x z }.

#[export] Instance total_key {A} `{TotalOrder A} : KeyOrder A.
Proof. split; [|intros; by eapply cle_trans]. intros x y. by rewrite clt_gt. Qed.
#[export] Instance assoc_key {K T} (c : Comparator K) `{!KeyOrder K} : @KeyOrder (K * T) (AssocComparator c).
Proof.
  split; unfold cle, doCompare, AssocComparator.
  - intros x y. apply key_sym.
  - intros x y z. apply key_trans.
Qed.

Section KeyOrder.
Context {A : Type} `{KeyOrder A}.
Lemma key_clt_not_cle x y : clt x y <-> ~ cle y x.
Proof. unfold clt, cle. pose proof (key_sym x y). pose proof (key_sym y x). lia. Qed.
Lemma key_refl x : cle x x.
Proof. unfold cle. pose proof (key_sym x x). lia. Qed.
Lemma key_cle_clt x y z : cle x y -> clt y z -> clt x z.
Proof.
  rewrite !key_clt_not_cle. intros Hxy Hyz Hzx. apply Hyz. by eapply key_trans.
Qed.
Lemma key_clt_cle x y z : clt x y -> cle y z -> clt x z.
Proof.
  rewrite !key_clt_not_cle. intros Hxy Hyz Hzx. apply Hxy. by eapply key_trans.
Qed.
Lemma key_clt_le x y : clt x y -> cle x y.
Proof. unfold clt, cle. lia. Qed.
Lemma key_ge x y : 0 <= doCompare x y <-> cle y x.
Proof. unfold cle. pose proof (key_sym x y). lia. Qed.
Lemma key_equal x y : doCompare x y = 0 <-> cle x y /\ cle y x.
Proof. unfold cle. pose proof (key_sym x y). pose proof (key_sym y x). lia. Qed.
End KeyOrder.
