(* ===== verification/Arrays.v ===== *)
(** * Arrays, slices and sorting ([include/elm/data/Array.h], [Slice.h], [quicksort.h])

    An [Array] is a count and a buffer it may not own; a [Slice] is an interval of
    an indexed collection, here an array. [quicksort] sorts an array in place with an
    explicit stack of intervals in two local blocks of 300 integers: it never leaves them. *)

From stdpp Require Import sets.
From S2P Require Import Prelude Compare.
#[local] Open Scope Z_scope.

(** ** Arrays *)

(* src/include/elm/data/Array.h:151-152 Array *)
Record Array (A : Type) := mkArray { ar_cnt : Z; ar_buf : list A }.
Arguments mkArray {A}.
Arguments ar_cnt {A}.
Arguments ar_buf {A}.

(** The elements, which are in the buffer. *)
Definition array_holds {A} (a : Array A) (l : list A) : Prop :=
  ar_cnt a = zlen l /\ take (length l) (ar_buf a) = l.

Section Array.
Context {A : Type} `{EqDecision A}.
Implicit Type a : Array A.

(* src/include/elm/data/Array.h:133-133 Array::get *)
Definition Array_get a (idx : Z) : outcome A :=
  assertP ((0 <=? idx) && (idx <? ar_cnt a)) ;; rd (ar_buf a) idx.
(* src/include/elm/data/Array.h:141-141 Array::set *)
Definition Array_set a (idx : Z) (val : A) : outcome (Array A) :=
  assertP ((0 <=? idx) && (idx <? ar_cnt a)) ;; b ← wr (ar_buf a) idx val; Ret (mkArray (ar_cnt a) b).
(* src/include/elm/data/Array.h:46-46 Array::copy *)
Definition Array_copy a (t : Array A) : outcome (Array A) :=
  let cnt := Z.min (ar_cnt a) (ar_cnt t) in
  b ← loop 0 cnt (fun i b => x ← rd (ar_buf t) i; wr b i x) (ar_buf a); Ret (mkArray cnt b).
(* src/include/elm/data/Array.h:47-47 Array::fill *)
Definition Array_fill a (val : A) : outcome (Array A) :=
  b ← loop 0 (ar_cnt a) (fun i b => wr b i val) (ar_buf a); Ret (mkArray (ar_cnt a) b).
(* src/include/elm/data/Array.h:134-135 Array::indexOf *)
Definition Array_indexOf a (v : A) (i : Z) : outcome Z :=
  r ← scan i (ar_cnt a) (fun i => x ← Array_get a i; Ret (if decide (v = x) then Some i else None));
  Ret (default (-1) r).
(* src/include/elm/data/Array.h:136-137 Array::lastIndexOf *)
Definition Array_lastIndexOf a (v : A) (i : Z) : outcome Z :=
  let i := if i <? 0 then ar_cnt a - 1 else i in
  r ← scan 0 (i + 1) (fun k => x ← Array_get a (i - k); Ret (if decide (v = x) then Some (i - k) else None));
  Ret (default (-1) r).
(* src/include/elm/data/Array.h:112-113 Array::contains *)
Definition Array_contains a (item : A) : outcome bool :=
  r ← scan 0 (ar_cnt a) (fun i => x ← rd (ar_buf a) i; Ret (if decide (x = item) then Some true else None));
  Ret (default false r).
(* src/include/elm/data/Array.h:114-115 Array::containsAll *)
Fixpoint Array_containsAll a (c : list A) : outcome bool :=
  match c with
  | [] => Ret true
  | x :: c => b ← Array_contains a x; if negb b then Ret false else Array_containsAll a c
  end.
(* src/include/elm/data/Array.h:118-123 Array::equals *)
Definition Array_equals a (b : Array A) : outcome bool :=
  if negb (ar_cnt a =? ar_cnt b) then Ret false else
  r ← scan 0 (ar_cnt a) (fun i =>
        x ← rd (ar_buf a) i; y ← rd (ar_buf b) i; Ret (if decide (x = y) then None else Some false));
  Ret (default true r).
(** [AllocArray] owns its buffer; [dflt] is what [new] puts in its cells. *)
(* src/include/elm/data/Array.h:170-172 AllocArray::copy *)
Definition AllocArray_copy (dflt : A) a (t : Array A) : outcome (Array A) :=
  Array_copy (if ar_cnt a <? ar_cnt t then mkArray (ar_cnt t) (replicate (Z.to_nat (ar_cnt t)) dflt) else a) t.
(* src/include/elm/data/Array.h:165-165 AllocArray *)
Definition AllocArray_make (count : Z) (val : A) : outcome (Array A) :=
  Array_fill (mkArray count (replicate (Z.to_nat count) val)) val.
End Array.

(** ** Slices *)

(* src/include/elm/data/Slice.h:98-100 Slice *)
Record Slice (A : Type) := mkSlice { sl_a : Array A; sl_f : Z; sl_c : Z }.
Arguments mkSlice {A}.
Arguments sl_a {A}.
Arguments sl_f {A}.
Arguments sl_c {A}.

Section Slice.
Context {A : Type} `{EqDecision A}.
Implicit Type s : Slice A.

(* src/include/elm/data/Slice.h:39-39 Slice::lastIndex *)
Definition Slice_lastIndex s : Z := sl_f s + sl_c s - 1.
(* src/include/elm/data/Slice.h:42-43 Slice::get *)
Definition Slice_get s (i : Z) : outcome A := Array_get (sl_a s) (sl_f s + i).
(* src/include/elm/data/Slice.h:61-62 Slice::indexOf *)
Definition Slice_indexOf s (x : A) (i : Z) : outcome Z :=
  r ← scan i (sl_c s) (fun i => y ← Slice_get s i; Ret (if decide (x = y) then Some i else None));
  Ret (default (-1) r).
(* src/include/elm/data/Slice.h:63-64 Slice::lastIndexOf *)
Definition Slice_lastIndexOf s (x : A) (i : Z) : outcome Z :=
  let i := if i =? -1 then sl_c s - 1 else i in
  r ← scan 0 (i + 1) (fun k => y ← Slice_get s (i - k); Ret (if decide (x = y) then Some (i - k) else None));
  Ret (default (Z.min i (-1)) r).
(* src/include/elm/data/Slice.h:75-76 Slice::contains *)
Definition Slice_contains s (x : A) : outcome bool :=
  i ← Slice_indexOf s x 0; Ret (negb (i =? -1)).
(** The loop reads the elements of [s2] one by one. *)
(* src/include/elm/data/Slice.h:77-78 Slice::containsAll *)
Definition Slice_containsAll s (s2 : Slice A) : outcome bool :=
  r ← scan 0 (sl_c s2) (fun i => x ← Slice_get s2 i; b ← Slice_contains s x; Ret (if negb b then Some false else None));
  Ret (default true r).
(* src/include/elm/data/Slice.h:81-85 Slice::equals *)
Definition Slice_equals s (s2 : Slice A) : outcome bool :=
  if negb (sl_c s =? sl_c s2) then Ret false else
  r ← scan 0 (sl_c s) (fun i =>
        x ← Slice_get s i; y ← Slice_get s2 i; Ret (if decide (x = y) then None else Some false));
  Ret (default true r).
End Slice.

(** ** Quicksort *)

(* src/include/elm/data/quicksort.h:31-32 quicksort *)
Definition qs_max : Z := 300.

(** The intervals still to sort are the [qs_i + 1] first cells of two blocks that are
    not initialised. *)
(* src/include/elm/data/quicksort.h:31-33 quicksort *)
Record qs (A : Type) := mkQs { qs_a : Array A; qs_beg : list (option Z); qs_end : list (option Z); qs_i : Z }.
Arguments mkQs {A}.
Arguments qs_a {A}.
Arguments qs_beg {A}.
Arguments qs_end {A}.
Arguments qs_i {A}.

Section Quicksort.
Context {A : Type} `{Comparator A}.
Implicit Type a : Array A.

(** A read of a local block of integers: a cell that is not written is undefined. *)
(* src/include/elm/data/quicksort.h:32-32 quicksort *)
Definition rd_int (l : list (option Z)) (i : Z) : outcome Z :=
  x ← rd l i; match x with Some x => Ret x | None => Crash Undefined end.

(* src/include/elm/data/quicksort.h:41-41 quicksort *)
Definition qs_down a (piv : A) (L R : Z) : outcome Z :=
  iter (1 + Z.to_nat (R - L)) (fun R =>
    x ← Array_get a R; Ret (if (0 <=? doCompare x piv) && (L <? R) then inl (R - 1) else inr R)) R.
(* src/include/elm/data/quicksort.h:42-42 quicksort *)
Definition qs_up a (piv : A) (L R : Z) : outcome Z :=
  iter (1 + Z.to_nat (R - L)) (fun L =>
    x ← Array_get a L; Ret (if (doCompare x piv <=? 0) && (L <? R) then inl (L + 1) else inr L)) L.
(* src/include/elm/data/quicksort.h:40-43 quicksort *)
Definition qs_turn (piv : A) (st : Array A * Z * Z) : outcome (Array A * Z * Z + Array A * Z) :=
  let '(a, L, R) := st in
  if L <? R then
    R ← qs_down a piv L R;
    '(a, L) ← if L <? R then x ← Array_get a R; a ← Array_set a L x; Ret (a, L + 1) else Ret (a, L);
    L ← qs_up a piv L R;
    '(a, R) ← if L <? R then x ← Array_get a L; a ← Array_set a R x; Ret (a, R - 1) else Ret (a, R);
    Ret (inl (a, L, R))
  else Ret (inr (a, L)).
(* src/include/elm/data/quicksort.h:39-44 quicksort *)
Definition qs_partition a (L R : Z) : outcome (Array A * Z) :=
  piv ← Array_get a L;
  '(a, L) ← iter (2 + Z.to_nat (R - L)) (qs_turn piv) (a, L, R);
  a ← Array_set a L piv; Ret (a, L).
(** The two last intervals are exchanged when the last one is the longer. *)
(* src/include/elm/data/quicksort.h:45-48 quicksort *)
Definition qs_order (beg fin : list (option Z)) (i : Z) : outcome (list (option Z) * list (option Z)) :=
  b1 ← rd_int beg i; e1 ← rd_int fin i; b0 ← rd_int beg (i - 1); e0 ← rd_int fin (i - 1);
  if e0 - b0 <? e1 - b1 then
    beg ← wr beg i (Some b0); beg ← wr beg (i - 1) (Some b1);
    fin ← wr fin i (Some e0); fin ← wr fin (i - 1) (Some e1);
    Ret (beg, fin)
  else Ret (beg, fin).
(* src/include/elm/data/quicksort.h:36-52 quicksort *)
Definition quicksort_turn (s : qs A) : outcome (qs A + Array A) :=
  let i := qs_i s in
  if 0 <=? i then
    L ← rd_int (qs_beg s) i; R ← rd_int (qs_end s) i;
    if L <? R - 1 then
      '(a, L) ← qs_partition (qs_a s) L (R - 1);
      beg ← wr (qs_beg s) (i + 1) (Some (L + 1));
      e ← rd_int (qs_end s) i; fin ← wr (qs_end s) (i + 1) (Some e);
      fin ← wr fin i (Some L);
      '(beg, fin) ← qs_order beg fin (i + 1);
      Ret (inl (mkQs a beg fin (i + 1)))
    else Ret (inl (mkQs (qs_a s) (qs_beg s) (qs_end s) (i - 1)))
  else Ret (inr (qs_a s)).
(* src/include/elm/data/quicksort.h:29-53 quicksort *)
Definition quicksort (fuel : nat) a : outcome (Array A) :=
  let none := replicate (Z.to_nat qs_max) None in
  iter fuel quicksort_turn (mkQs a (<[0%nat := Some 0]> none) (<[0%nat := Some (ar_cnt a)]> none) 0).
End Quicksort.

Example quicksort_5 : quicksort 20 (mkArray 5 [3; 1; 2; 5; 1]) = Ret (mkArray 5 [1; 1; 2; 3; 5]).
Proof. reflexivity. Qed.

(** *** What the operations of arrays do *)

Section ArrayProofs.
Context {A : Type} `{EqDecision A}.
Implicit Types (a t : Array A) (l : list A).

Lemma array_cell a l i : array_holds a l -> 0 <= i < zlen l -> ar_buf a !! Z.to_nat i = l !! Z.to_nat i.
Proof. intros [_ E] Hi. rewrite <- E at 1. rewrite lookup_take_lt by lia. done. Qed.
Lemma array_length a l : array_holds a l -> zlen l <= zlen (ar_buf a).
Proof. intros [_ E]. rewrite <- E at 1. rewrite length_take. lia. Qed.
Lemma rd_array a l i x : array_holds a l -> 0 <= i -> l !! Z.to_nat i = Some x -> rd (ar_buf a) i = Ret x.
Proof. intros Ha Hi Hx. apply rd_ok; [done|]. rewrite (array_cell a l); [done|done|]. apply lookup_lt_Some in Hx. lia. Qed.

Lemma Array_get_spec a l i : array_holds a l ->
  Array_get a i = if (0 <=? i) && (i <? zlen l) then rd l i else Crash AssertFailed.
Proof.
  intros Ha. unfold Array_get. destruct Ha as [Ec E]. rewrite Ec. destruct (Z.leb_spec 0 i), (Z.ltb_spec i (zlen l)); cbn [andb assertP]; try done.
  mred. destruct (lookup_lt_is_Some_2 l (Z.to_nat i)) as [x Hx]; [lia|].
  rewrite (rd_array a l i x), (rd_ok l i x) by (done || lia || by split). done.
Qed.
(** [operator[]] gives a reference: the cell written is the one read. *)
Lemma Array_set_spec a l i x : array_holds a l -> 0 <= i < zlen l ->
  exists a', Array_set a i x = Ret a' /\ array_holds a' (<[Z.to_nat i := x]> l).
Proof.
  intros Ha Hi. pose proof (array_length _ _ Ha) as Hl. destruct Ha as [Ec E]. unfold Array_set.
  rewrite Ec, (proj2 (Z.leb_le _ _)), (proj2 (Z.ltb_lt _ _)), wr_ok by lia. mred. eexists. split; [done|].
  split; cbn [ar_cnt ar_buf]; rewrite length_insert; [done|]. by rewrite take_insert_lt, E by lia.
Qed.

Lemma Array_equals_ok a l t k : array_holds a l -> array_holds t k -> Array_equals a t = Ret (bool_decide (l = k)).
Proof.
  intros Ha Hk. unfold Array_equals. pose proof Ha as [-> _]. pose proof Hk as [-> _]. destruct (Z.eqb_spec (zlen l) (zlen k)) as [E|E]; cbn [negb].
  2: { rewrite bool_decide_false; [done|]. by intros ->. }
  destruct (scan_spec (fun i => if decide (l !! Z.to_nat i = k !! Z.to_nat i) then None else Some false) 0 (zlen l)
    (fun i => x ← rd (ar_buf a) i; y ← rd (ar_buf t) i; Ret (if decide (x = y) then None else Some false))) as (r & -> & Hr).
  - intros i Hi. destruct (lookup_lt_is_Some_2 l (Z.to_nat i)) as [x Hx]; [lia|]. destruct (lookup_lt_is_Some_2 k (Z.to_nat i)) as [y Hy]; [lia|].
    rewrite (rd_array a l i x), (rd_array t k i y), Hx, Hy by (done || lia). mred. destruct (decide (x = y)), (decide (Some x = Some y)); congruence.
  - mred. f_equal. destruct r as [b|]; cbn [default].
    + destruct Hr as (i & Hi & Hr & _). destruct (decide (l !! Z.to_nat i = k !! Z.to_nat i)); [done|]. injection Hr as <-.
      rewrite bool_decide_false; [done|]. by intros ->.
    + rewrite bool_decide_true; [done|]. apply list_eq. intros i. destruct (decide (i < length l)%nat).
      * specialize (Hr (Z.of_nat i) ltac:(lia)). rewrite Nat2Z.id in Hr. by destruct (decide (l !! i = k !! i)).
      * rewrite !lookup_ge_None_2 by lia. done.
Qed.

Lemma Array_contains_ok a l x : array_holds a l -> Array_contains a x = Ret (bool_decide (x ∈ l)).
Proof.
  intros Ha. unfold Array_contains. pose proof Ha as [-> _].
  destruct (scan_spec (fun i => if decide (l !! Z.to_nat i = Some x) then Some true else None) 0 (zlen l)
    (fun i => y ← rd (ar_buf a) i; Ret (if decide (y = x) then Some true else None))) as (r & -> & Hr).
  - intros i Hi. destruct (lookup_lt_is_Some_2 l (Z.to_nat i)) as [y Hy]; [lia|]. rewrite (rd_array a l i y), Hy by (done || lia). mred.
    destruct (decide (y = x)), (decide (Some y = Some x)); congruence.
  - mred. f_equal. destruct r as [b|]; cbn [default].
    + destruct Hr as (i & Hi & Hr & _). case_decide as E; [|done]. injection Hr as <-. rewrite bool_decide_true; [done|].
      by apply list_elem_of_lookup_2 in E.
    + rewrite bool_decide_false; [done|]. intros [i Hx]%list_elem_of_lookup_1. pose proof (lookup_lt_Some _ _ _ Hx).
      specialize (Hr (Z.of_nat i) ltac:(lia)). rewrite Nat2Z.id in Hr. by destruct (decide (l !! i = Some x)).
Qed.
Lemma Array_containsAll_ok a l c : array_holds a l -> Array_containsAll a c = Ret (bool_decide (c ⊆ l)).
Proof.
  intros Ha. induction c as [|x c IH]; cbn [Array_containsAll].
  { by rewrite bool_decide_true by set_solver. }
  rewrite (Array_contains_ok a l) by done. mred. destruct (decide (x ∈ l)).
  - rewrite (bool_decide_true (x ∈ l)) by done. cbn [negb]. rewrite IH. f_equal. apply bool_decide_ext. set_solver.
  - rewrite (bool_decide_false (x ∈ l)) by done. cbn [negb]. rewrite bool_decide_false; [done|]. set_solver.
Qed.

(** A copy takes the elements of the other array, as many as it has room for. *)
Lemma Array_copy_ok a l t k : array_holds a l -> array_holds t k ->
  exists a', Array_copy a t = Ret a' /\ array_holds a' (take (length l) k).
Proof.
  intros Ha Hk. pose proof (array_length _ _ Ha) as La. pose proof Ha as [Ca _]. pose proof Hk as [Ck _]. unfold Array_copy. rewrite Ca, Ck.
  set (c := Z.min (zlen l) (zlen k)).
  loop_with (fun i b => length b = length (ar_buf a) /\ forall j, (Z.of_nat j < i) -> b !! j = k !! j).
  - lia.
  - split; [done|]. lia.
  - intros i b Hi [Hb Hj]. destruct (lookup_lt_is_Some_2 k (Z.to_nat i)) as [x Hx]; [lia|].
    rewrite (rd_array t k i x) by (done || lia). mred. rewrite wr_ok by lia. eexists. split; [done|]. rewrite length_insert. split; [done|].
    intros j Hj'. destruct (decide (j = Z.to_nat i)) as [->|]; [rewrite list_lookup_insert_eq by lia; done|].
    rewrite list_lookup_insert_ne by done. apply Hj. lia.
  - destruct Hr as [Hb Hj]. mred. eexists. split; [done|]. split; cbn [ar_cnt ar_buf]; rewrite length_take; [lia|].
    apply list_eq. intros j. destruct (decide (Z.of_nat j < c)).
    + rewrite !lookup_take_lt by lia. by apply Hj.
    + rewrite lookup_take_ge by lia. symmetry. apply lookup_ge_None_2. rewrite length_take. lia.
Qed.
Lemma AllocArray_copy_ok dflt a l t k : array_holds a l -> array_holds t k ->
  exists a', AllocArray_copy dflt a t = Ret a' /\ array_holds a' k.
Proof.
  intros Ha Hk. unfold AllocArray_copy. pose proof Ha as [Ca _]. pose proof Hk as [Ck _]. rewrite Ca, Ck, Nat2Z.id.
  destruct (Z.ltb_spec (zlen l) (zlen k)).
  - assert (array_holds (mkArray (zlen k) (replicate (length k) dflt)) (replicate (length k) dflt)) as Hr.
    { split; cbn [ar_cnt ar_buf]; rewrite length_replicate; [done|]. by rewrite take_ge by (rewrite length_replicate; lia). }
    destruct (Array_copy_ok _ _ t k Hr Hk) as (a' & E & W). exists a'. rewrite length_replicate, take_ge in W by lia. done.
  - destruct (Array_copy_ok a l t k Ha Hk) as (a' & E & W). exists a'. rewrite take_ge in W by lia. done.
Qed.
End ArrayProofs.

(** *** Exchanges inside an interval *)

Section Exchange.
Context {A : Type}.
Implicit Type l : list A.

Definition in_seg (b e : Z) (i : nat) : Prop := b <= Z.of_nat i < e.

(** [l'] has the elements of [l], in another order between [b] and [e]. *)
Record seg_perm (b e : Z) l l' : Prop := {
  sp_perm : l' ≡ₚ l;
  sp_out i : ~ in_seg b e i -> l' !! i = l !! i;
  sp_in i : in_seg b e i -> exists j, in_seg b e j /\ l' !! i = l !! j }.

#[export] Instance seg_perm_preorder b e : PreOrder (seg_perm b e).
Proof.
  split; [intros l; split; eauto|]. intros l1 l2 l3 [P1 O1 I1] [P2 O2 I2]. split.
  - by rewrite P2.
  - intros i Hi. by rewrite O2, O1.
  - intros i Hi. destruct (I2 i Hi) as (j & Hj & ->). by apply I1.
Qed.
Lemma seg_perm_length b e l l' : seg_perm b e l l' -> length l' = length l.
Proof. intros [P _ _]. by apply Permutation_length. Qed.
Lemma seg_perm_wide b e l l' c f : c <= b -> e <= f -> seg_perm b e l l' -> seg_perm c f l l'.
Proof.
  intros Hc Hf [P O I]. split; [done| |].
  - intros i Hi. apply O. unfold in_seg in *. lia.
  - intros i Hi. destruct (decide (in_seg b e i)) as [Hb|Hb].
    + destruct (I i Hb) as (j & Hj & E). exists j. split; [unfold in_seg in *; lia|done].
    + exists i. split; [done|by apply O].
Qed.

Lemma swap_perm l i j x y : (i < j)%nat -> l !! i = Some x -> l !! j = Some y -> <[j := x]> (<[i := y]> l) ≡ₚ l.
Proof.
  intros Hij Hi Hj. pose proof (lookup_lt_Some _ _ _ Hi). pose proof (lookup_lt_Some _ _ _ Hj).
  rewrite <- (take_drop_middle l i x Hi) at 1 2. set (p := take i l). set (r := drop (S i) l).
  assert (length p = i) as Hp by (subst p; rewrite length_take; lia).
  assert (r !! (j - S i)%nat = Some y) as Hr by (subst r; rewrite lookup_drop; by replace (S i + (j - S i))%nat with j by lia).
  rewrite insert_app_r_alt, Hp, Nat.sub_diag by lia. change (<[0%nat := y]> (x :: r)) with (y :: r).
  rewrite insert_app_r_alt by lia. rewrite Hp. replace (j - i)%nat with (S (j - S i)) by lia.
  change (<[S (j - S i) := x]> (y :: r)) with (y :: <[(j - S i)%nat := x]> r).
  rewrite <- (take_drop_middle r _ y Hr) at 2. rewrite insert_take_drop by (by apply lookup_lt_Some in Hr).
  apply Permutation_app_head. rewrite <- !Permutation_middle. constructor.
Qed.
Lemma seg_perm_swap b e l i j x y : in_seg b e i -> in_seg b e j -> i <> j -> l !! i = Some x -> l !! j = Some y ->
  seg_perm b e l (<[j := x]> (<[i := y]> l)).
Proof.
  intros Bi Bj Hij Hi Hj. pose proof (lookup_lt_Some _ _ _ Hi). pose proof (lookup_lt_Some _ _ _ Hj). split.
  - destruct (decide (i < j)%nat); [by apply swap_perm|]. rewrite list_insert_insert_ne by done. apply swap_perm; (done || lia).
  - intros k Hk. rewrite !list_lookup_insert_ne; [done|intros ->; tauto..].
  - intros k Hk. destruct (decide (k = j)) as [->|Hkj].
    { exists i. rewrite list_lookup_insert_eq by (rewrite length_insert; lia). by rewrite Hi. }
    rewrite list_lookup_insert_ne by done. destruct (decide (k = i)) as [->|Hki].
    { exists j. rewrite list_lookup_insert_eq by lia. by rewrite Hj. }
    exists k. by rewrite list_lookup_insert_ne by done.
Qed.
End Exchange.

Lemma Array_get_ok {A} n (l : list A) i x : 0 <= i < n -> l !! Z.to_nat i = Some x -> Array_get (mkArray n l) i = Ret x.
Proof.
  intros Hi Hx. unfold Array_get. cbn [ar_cnt ar_buf].
  rewrite (proj2 (Z.leb_le _ _)), (proj2 (Z.ltb_lt _ _)) by lia. cbn. apply rd_ok; (done || lia).
Qed.
Lemma Array_set_ok {A} n (l : list A) i x : 0 <= i < n -> n <= zlen l -> Array_set (mkArray n l) i x = Ret (mkArray n (<[Z.to_nat i := x]> l)).
Proof.
  intros Hi Hl. unfold Array_set. cbn [ar_cnt ar_buf].
  rewrite (proj2 (Z.leb_le _ _)), (proj2 (Z.ltb_lt _ _)), wr_ok by lia. done.
Qed.

(** *** Partition

    During the partition the cell [h] of the block is free: with the pivot there,
    the block is a permutation of the first one. *)

Section Partition.
Context {A : Type} `{WeakOrder A}.
Variables (n b e : Z) (l0 : list A) (piv : A).
Hypotheses (Hb : 0 <= b) (He : e <= n) (Hn : n <= zlen l0).

Record parted (l : list A) (L R h : Z) : Prop := {
  pt_range : b <= L <= R /\ R < e;
  pt_hole : L <= h <= R;
  pt_perm : seg_perm b e l0 (<[Z.to_nat h := piv]> l);
  pt_low i x : in_seg b L i -> l !! i = Some x -> cle x piv;
  pt_high i x : in_seg (R + 1) e i -> l !! i = Some x -> cle piv x }.

Lemma parted_length l L R h : parted l L R h -> length l = length l0.
Proof. intros [_ _ P _ _]. apply seg_perm_length in P. by rewrite length_insert in P. Qed.
Lemma parted_cell l L R h i : parted l L R h -> L <= i <= R -> exists x, l !! Z.to_nat i = Some x.
Proof.
  intros W Hi. pose proof (parted_length _ _ _ _ W). destruct W as [? _ _ _ _]. apply lookup_lt_is_Some. lia.
Qed.

(** The two scans stop on an element of the other side, or meet. *)
Lemma qs_down_ok l L R : parted l L R L ->
  exists R', qs_down (mkArray n l) piv L R = Ret R' /\ parted l L R' L /\ R' <= R /\
    (R' = L \/ exists x, l !! Z.to_nat R' = Some x /\ cle x piv).
Proof.
  intros W. unfold qs_down.
  apply (iter_total (fun R' => parted l L R' L /\ R' <= R) (fun R' => Z.to_nat (R' - L))); [|done|].
  2: { destruct W as [? _ _ _ _]. lia. }
  clear W. intros R' [W Hr]. pose proof W as [Wr Wh Wp Wl Wu]. destruct (parted_cell _ _ _ _ R' W) as [x Hx]; [lia|].
  rewrite (Array_get_ok n l R' x) by (done || lia). mred. destruct (Z.leb_spec 0 (doCompare x piv)), (Z.ltb_spec L R'); cbn [andb].
  - eexists. split; [done|]. split; [split|lia]; [|lia]. split; [lia|lia|done|done|]. intros i y Hi Hy.
    destruct (decide (i = Z.to_nat R')) as [->|]; [|eapply Wu; [|done]; unfold in_seg in *; lia].
    simplify_eq. by apply weak_total.
  - eexists. split; [done|]. split; [done|]. split; [done|]. left. lia.
  - eexists. split; [done|]. split; [done|]. split; [done|]. right. exists x. split; [done|]. unfold cle. lia.
  - eexists. split; [done|]. split; [done|]. split; [done|]. left. lia.
Qed.
Lemma qs_up_ok l L R : parted l L R R ->
  exists L', qs_up (mkArray n l) piv L R = Ret L' /\ parted l L' R R /\ L <= L' /\
    (L' = R \/ exists x, l !! Z.to_nat L' = Some x /\ cle piv x).
Proof.
  intros W. unfold qs_up.
  apply (iter_total (fun L' => parted l L' R R /\ L <= L') (fun L' => Z.to_nat (R - L'))); [|done|].
  2: { destruct W as [? _ _ _ _]. lia. }
  clear W. intros L' [W Hr]. pose proof W as [Wr Wh Wp Wl Wu]. destruct (parted_cell _ _ _ _ L' W) as [x Hx]; [lia|].
  rewrite (Array_get_ok n l L' x) by (done || lia). mred. destruct (Z.leb_spec (doCompare x piv) 0), (Z.ltb_spec L' R); cbn [andb].
  - eexists. split; [done|]. split; [split|lia]; [|lia]. split; [lia|lia|done| |done]. intros i y Hi Hy.
    destruct (decide (i = Z.to_nat L')) as [->|]; [|eapply Wl; [|done]; unfold in_seg in *; lia].
    simplify_eq. done.
  - eexists. split; [done|]. split; [done|]. split; [done|]. left. lia.
  - eexists. split; [done|]. split; [done|]. split; [done|]. right. exists x. split; [done|]. apply weak_total. lia.
  - eexists. split; [done|]. split; [done|]. split; [done|]. left. lia.
Qed.

(** An element moves to the free cell, which moves to where it was. *)
Lemma hole_move l h k x : in_seg b e (Z.to_nat h) -> in_seg b e (Z.to_nat k) -> 0 <= h -> 0 <= k -> h <> k ->
  seg_perm b e l0 (<[Z.to_nat h := piv]> l) -> l !! Z.to_nat k = Some x ->
  seg_perm b e l0 (<[Z.to_nat k := piv]> (<[Z.to_nat h := x]> l)).
Proof.
  intros Bh Bk Hh Hk Hne P Hx. pose proof (seg_perm_length _ _ _ _ P) as Hl. rewrite length_insert in Hl. etransitivity; [exact P|].
  replace (<[Z.to_nat h := x]> l) with (<[Z.to_nat h := x]> (<[Z.to_nat h := piv]> l)) by apply list_insert_insert_eq.
  apply seg_perm_swap; [done|done|lia| |].
  - apply list_lookup_insert_eq. unfold in_seg in Bh. lia.
  - rewrite list_lookup_insert_ne by lia. done.
Qed.
Lemma move_low l L R x : parted l L R L -> L < R -> l !! Z.to_nat R = Some x -> cle x piv ->
  parted (<[Z.to_nat L := x]> l) (L + 1) R R.
Proof.
  intros [Wr Wh Wp Wl Wu] Hlt Hx Hc. split; [lia|lia| | |].
  - apply hole_move; (done || lia || unfold in_seg; lia).
  - intros i y Hi Hy. destruct (decide (i = Z.to_nat L)) as [->|].
    + rewrite list_lookup_insert_eq in Hy by (apply lookup_lt_Some in Hx; lia). by simplify_eq.
    + rewrite list_lookup_insert_ne in Hy by done. apply (Wl i); [unfold in_seg in *; lia|done].
  - intros i y Hi Hy. rewrite list_lookup_insert_ne in Hy by (unfold in_seg in Hi; lia). by apply (Wu i).
Qed.
Lemma move_high l L R x : parted l L R R -> L < R -> l !! Z.to_nat L = Some x -> cle piv x ->
  parted (<[Z.to_nat R := x]> l) L (R - 1) L.
Proof.
  intros W Hlt Hx Hc. pose proof (parted_length _ _ _ _ W) as Hl. destruct W as [Wr Wh Wp Wl Wu]. split; [lia|lia| | |].
  - apply hole_move; (done || lia || unfold in_seg; lia).
  - intros i y Hi Hy. rewrite list_lookup_insert_ne in Hy by (unfold in_seg in Hi; lia). by apply (Wl i).
  - intros i y Hi Hy. destruct (decide (i = Z.to_nat R)) as [->|].
    + rewrite list_lookup_insert_eq in Hy by lia. by simplify_eq.
    + rewrite list_lookup_insert_ne in Hy by done. apply (Wu i); [unfold in_seg in *; lia|done].
Qed.

Lemma qs_turn_ok l L R : parted l L R L ->
  exists r, qs_turn piv (mkArray n l, L, R) = Ret r /\
    match r with
    | inl (a, L', R') => exists l', a = mkArray n l' /\ parted l' L' R' L' /\ R' - L' < R - L
    | inr (a, L') => a = mkArray n l /\ L' = L /\ L = R
    end.
Proof.
  intros W. cbn [qs_turn]. destruct (Z.ltb_spec L R) as [Hlt|Hge].
  2: { eexists. split; [done|]. destruct W. split_and!; (done || lia). }
  destruct (qs_down_ok l L R W) as (R1 & -> & W1 & HR1 & Hx). mred.
  assert (exists l1 L1, (if L <? R1 then x ← Array_get (mkArray n l) R1; a ← Array_set (mkArray n l) L x; Ret (a, L + 1)
                         else Ret (mkArray n l, L)) = Ret (mkArray n l1, L1) /\ parted l1 L1 R1 R1 /\ R1 - L1 < R - L)
    as (l1 & L1 & -> & W2 & Hm).
  { pose proof (parted_length _ _ _ _ W1) as Hl. pose proof W1 as [? _ _ _ _]. destruct (Z.ltb_spec L R1).
    - destruct Hx as [?|(x & Hx & Hc)]; [lia|]. rewrite (Array_get_ok n l R1 x) by (done || lia). mred.
      rewrite Array_set_ok by lia. eexists _, _. split; [done|]. split; [by apply move_low|lia].
    - exists l, L. split; [done|]. assert (R1 = L) as -> by lia. split; [done|lia]. }
  mred. destruct (qs_up_ok l1 L1 R1 W2) as (L2 & -> & W3 & HL2 & Hy). mred.
  pose proof (parted_length _ _ _ _ W3) as Hl. pose proof W3 as [? _ _ _ _]. destruct (Z.ltb_spec L2 R1).
  - destruct Hy as [?|(y & Hy & Hc)]; [lia|]. rewrite (Array_get_ok n l1 L2 y) by (done || lia). mred.
    rewrite Array_set_ok by lia. eexists. split; [done|]. eexists. split; [done|]. split; [by apply move_high|lia].
  - eexists. split; [done|]. exists l1. assert (R1 = L2) as -> by lia. split_and!; (done || lia).
Qed.
End Partition.

(** *** The stack of intervals *)

Section QuicksortProofs.
Context {A : Type} `{WeakOrder A}.
Implicit Type l : list A.

Lemma qs_partition_ok n b e l : 0 <= b -> b + 1 < e -> e <= n -> n <= zlen l ->
  exists l' p piv, qs_partition (mkArray n l) b (e - 1) = Ret (mkArray n l', p) /\ b <= p < e /\ seg_perm b e l l' /\
    l' !! Z.to_nat p = Some piv /\
    (forall i x, in_seg b p i -> l' !! i = Some x -> cle x piv) /\ (forall i x, in_seg (p + 1) e i -> l' !! i = Some x -> cle piv x).
Proof.
  intros Hb Hbe He Hn. unfold qs_partition. destruct (lookup_lt_is_Some_2 l (Z.to_nat b)) as [piv Hp]; [lia|].
  rewrite (Array_get_ok n l b piv) by (done || lia). mred.
  edestruct (iter_total (fun st : Array A * Z * Z => exists l', st.1.1 = mkArray n l' /\ parted b e l piv l' st.1.2 st.2 st.1.2)
    (fun st => Z.to_nat (st.2 - st.1.2)) (fun r : Array A * Z => exists l', r.1 = mkArray n l' /\ parted b e l piv l' r.2 r.2 r.2)
    (qs_turn piv)) with (s := (mkArray n l, b, e - 1)) as ([a p] & -> & l' & Ea & W); [|  |cbn; lia|].
  - intros [[a L] R] (l' & Ea & W). cbn [fst snd] in Ea, W |- *. subst a. destruct (qs_turn_ok n b e l piv Hb He Hn l' L R W) as (r & -> & Hr).
    exists r. split; [done|]. destruct r as [[[a' L'] R']|[a' L']]; cbn [fst snd].
    + destruct Hr as (l2 & -> & W2 & Hm). split; [by exists l2|]. destruct W as [? _ _ _ _], W2 as [? _ _ _ _]. lia.
    + destruct Hr as (-> & -> & ->). by exists l'.
  - exists l. split; [done|]. cbn [fst snd]. split; [lia|lia| | |].
    + by rewrite list_insert_id.
    + unfold in_seg. lia.
    + unfold in_seg. lia.
  - cbn in Ea. subst a. mred. pose proof (parted_length _ _ _ _ _ _ _ _ W) as Hl. cbn [fst snd] in W. destruct W as [Wr Wh Wp Wl Wu].
    rewrite Array_set_ok by lia. mred. eexists _, p, piv. split_and!; [done|lia|lia|done| | |].
    + apply list_lookup_insert_eq. lia.
    + intros i x Hi Hx. rewrite list_lookup_insert_ne in Hx by (unfold in_seg in Hi; lia). by apply (Wl i).
    + intros i x Hi Hx. rewrite list_lookup_insert_ne in Hx by (unfold in_seg in Hi; lia). by apply (Wu i).
Qed.

(** The stack, the last interval first: they are disjoint and the lengths at
    least halve from one to the next. *)
Fixpoint stacked (n : Z) (beg fin : list (option Z)) (segs : list (Z * Z)) : Prop :=
  match segs with
  | [] => True
  | (b, e) :: segs =>
      beg !! length segs = Some (Some b) /\ fin !! length segs = Some (Some e) /\
      0 <= b <= e /\ e <= n /\ (e - b) * 2 ^ zlen segs <= n /\
      Forall (fun s => e <= s.1 \/ s.2 <= b) segs /\ stacked n beg fin segs
  end.
Definition stack_size (segs : list (Z * Z)) : Z := foldr (fun s k => 2 * (s.2 - s.1) + 1 + k) 0 segs.

Lemma stacked_write n segs : forall beg fin k x y, (length segs <= k)%nat -> stacked n beg fin segs ->
  stacked n (<[k := x]> beg) (<[k := y]> fin) segs.
Proof.
  induction segs as [|[b e] segs IH]; [done|]. cbn [stacked length]. intros beg fin k x y Hk (E1 & E2 & Hr & Hn & Hs & Hd & W).
  rewrite !list_lookup_insert_ne by lia. split_and!; try done; try lia. apply IH; [lia|done].
Qed.
Lemma stack_size_pos n beg fin segs : stacked n beg fin segs -> 0 <= stack_size segs.
Proof.
  induction segs as [|[b e] segs IH]; [done|]. cbn [stacked stack_size foldr fst snd]. intros (_ & _ & Hr & _ & _ & _ & W).
  apply IH in W. unfold stack_size in W. lia.
Qed.
(** An interval of two elements or more is not deep. *)
Lemma stacked_depth n beg fin b e segs : n < 2 ^ 31 -> b + 1 < e -> stacked n beg fin ((b, e) :: segs) -> zlen segs < 31.
Proof.
  intros Hn Hbe (_ & _ & _ & _ & Hs & _). destruct (decide (zlen segs < 31)) as [|Hge]; [done|].
  assert (2 ^ 31 <= 2 ^ zlen segs) by (apply Z.pow_le_mono_r; lia). nia.
Qed.

(** Two intervals taken from one, the shorter on top. *)
Lemma stacked_split n beg fin b e segs b1 e1 b2 e2 :
  stacked n beg fin segs -> Forall (fun s => e <= s.1 \/ s.2 <= b) segs -> e <= n -> (e - b) * 2 ^ zlen segs <= n -> 0 <= b ->
  b <= b1 <= e1 /\ e1 <= e -> b <= b2 <= e2 /\ e2 <= e -> e1 <= b2 \/ e2 <= b1 -> e2 - b2 <= e1 - b1 ->
  beg !! length segs = Some (Some b1) -> fin !! length segs = Some (Some e1) ->
  beg !! S (length segs) = Some (Some b2) -> fin !! S (length segs) = Some (Some e2) ->
  stacked n beg fin ((b2, e2) :: (b1, e1) :: segs).
Proof.
  intros W Hd Hn Hs Hb H1 H2 H12 Hle E1 E2 E3 E4. cbn [stacked length fst snd].
  assert (2 ^ Z.of_nat (S (length segs)) = 2 * 2 ^ zlen segs) as E by (rewrite Nat2Z.inj_succ, Z.pow_succ_r by lia; done).
  assert (0 < 2 ^ zlen segs) by lia. split_and!; try done; try lia; try (rewrite E; nia); try nia.
  - constructor; [cbn; lia|]. eapply Forall_impl; [exact Hd|]. cbn. lia.
  - eapply Forall_impl; [exact Hd|]. cbn. lia.
Qed.

Lemma rd_int_ok (l : list (option Z)) i x : 0 <= i -> l !! Z.to_nat i = Some (Some x) -> rd_int l i = Ret x.
Proof. intros Hi E. unfold rd_int. by rewrite (rd_ok _ _ _ Hi E). Qed.

Lemma qs_push_ok n beg fin b e p segs : let k := length segs in
  stacked n beg fin ((b, e) :: segs) -> b <= p < e -> zlen beg = qs_max -> zlen fin = qs_max -> zlen segs < 31 ->
  exists beg' fin' s1 s2, qs_order (<[S k := Some (p + 1)]> beg) (<[k := Some p]> (<[S k := Some e]> fin)) (zlen segs + 1) = Ret (beg', fin') /\
    zlen beg' = qs_max /\ zlen fin' = qs_max /\ (s1 = (b, p) /\ s2 = (p + 1, e) \/ s1 = (p + 1, e) /\ s2 = (b, p)) /\
    stacked n beg' fin' (s2 :: s1 :: segs).
Proof.
  intros k (E1 & E2 & Hr & Hn & Hs & Hd & W) Hp Lb Lf Hk. fold k in E1, E2. unfold qs_max in *.
  assert (Z.to_nat (zlen segs + 1) = S k) as Ek by lia. assert (Z.to_nat (zlen segs + 1 - 1) = k) as Ek' by lia.
  assert (stacked n (<[S k := Some (p + 1)]> beg) (<[k := Some p]> (<[S k := Some e]> fin)) segs) as W'.
  { pose proof (stacked_write n segs beg fin (S k) (Some (p + 1)) (Some e) ltac:(lia) W) as W1.
    pose proof (stacked_write n segs _ _ k (Some b) (Some p) ltac:(lia) W1) as W2.
    rewrite list_insert_id in W2; [done|]. by rewrite list_lookup_insert_ne by lia. }
  assert (<[S k := Some (p + 1)]> beg !! k = Some (Some b)) as B0 by (by rewrite list_lookup_insert_ne by lia).
  assert (<[S k := Some (p + 1)]> beg !! S k = Some (Some (p + 1))) as B1 by (apply list_lookup_insert_eq; lia).
  assert (<[k := Some p]> (<[S k := Some e]> fin) !! k = Some (Some p)) as F0 by (apply list_lookup_insert_eq; rewrite length_insert; lia).
  assert (<[k := Some p]> (<[S k := Some e]> fin) !! S k = Some (Some e)) as F1
    by (rewrite list_lookup_insert_ne by lia; apply list_lookup_insert_eq; lia).
  assert (length (<[S k := Some (p + 1)]> beg) = 300%nat) as Lb' by (rewrite length_insert; lia).
  assert (length (<[k := Some p]> (<[S k := Some e]> fin)) = 300%nat) as Lf' by (rewrite !length_insert; lia).
  generalize dependent (<[S k := Some (p + 1)]> beg). generalize dependent (<[k := Some p]> (<[S k := Some e]> fin)).
  intros f F0 F1 Lf' g W' B0 B1 Lb'. unfold qs_order.
  rewrite (rd_int_ok g (zlen segs + 1) (p + 1)), (rd_int_ok f (zlen segs + 1) e), (rd_int_ok g (zlen segs + 1 - 1) b),
    (rd_int_ok f (zlen segs + 1 - 1) p) by (lia || congruence).
  mred. destruct (Z.ltb_spec (p - b) (e - (p + 1))).
  - repeat (rewrite wr_ok by (rewrite ?length_insert; lia); mred). rewrite Ek, Ek'. eexists _, _, (p + 1, e), (b, p). split; [done|].
    rewrite !length_insert. split_and!; [lia|lia|by right|]. apply (stacked_split n _ _ b e); try done; try lia.
    + apply stacked_write; [lia|]. apply stacked_write; [lia|done].
    + apply list_lookup_insert_eq. rewrite length_insert. lia.
    + apply list_lookup_insert_eq. rewrite length_insert. lia.
    + rewrite list_lookup_insert_ne by lia. apply list_lookup_insert_eq. lia.
    + rewrite list_lookup_insert_ne by lia. apply list_lookup_insert_eq. lia.
  - eexists _, _, (b, p), (p + 1, e). split; [done|]. split_and!; [lia|lia|by left|]. apply (stacked_split n _ _ b e); try done; lia.
Qed.

(** Two elements in the wrong order are in a same interval of the stack. *)
Definition ordered (n : Z) l (segs : list (Z * Z)) : Prop :=
  forall i j x y, (i < j)%nat -> Z.of_nat j < n -> l !! i = Some x -> l !! j = Some y ->
    cle x y \/ Exists (fun s => s.1 <= Z.of_nat i /\ Z.of_nat j < s.2) segs.

Lemma ordered_pop n l b e segs : e <= b + 1 -> ordered n l ((b, e) :: segs) -> ordered n l segs.
Proof.
  intros He Ho i j x y Hij Hj Hx Hy. destruct (Ho i j x y Hij Hj Hx Hy) as [?|[Hs|Hs]%Exists_cons]; [by left| |by right].
  cbn in Hs. lia.
Qed.
Lemma ordered_split n l l' b e p piv segs s1 s2 :
  ordered n l ((b, e) :: segs) -> Forall (fun s => e <= s.1 \/ s.2 <= b) segs -> seg_perm b e l l' -> 0 <= b <= p -> p < e <= n ->
  l' !! Z.to_nat p = Some piv ->
  (forall i x, in_seg b p i -> l' !! i = Some x -> cle x piv) -> (forall i x, in_seg (p + 1) e i -> l' !! i = Some x -> cle piv x) ->
  s1 = (b, p) /\ s2 = (p + 1, e) \/ s1 = (p + 1, e) /\ s2 = (b, p) -> ordered n l' (s2 :: s1 :: segs).
Proof.
  intros Ho Hd [_ Pout Pin] Hb Hp Epiv Hlow Hhigh Hs.
  assert (forall i j x y, (i < j)%nat -> Z.of_nat j < n -> ~ (in_seg b e i /\ in_seg b e j) -> l !! i = Some x -> l !! j = Some y ->
    (forall i' j', (in_seg b e i <-> in_seg b e i') -> (in_seg b e j <-> in_seg b e j') -> (in_seg b e i' \/ i' = i) -> (in_seg b e j' \/ j' = j) ->
      cle x y \/ Exists (fun s => s.1 <= Z.of_nat i' /\ Z.of_nat j' < s.2) (s2 :: s1 :: segs))) as Hout.
  { intros i j x y Hij Hj Hn Hx Hy i' j' Hi' Hj' Ei Ej. destruct (Ho i j x y Hij Hj Hx Hy) as [?|[Hs'|Hs']%Exists_cons]; [by left| |].
    - cbn in Hs'. unfold in_seg in Hn. lia.
    - right. do 2 right. apply Exists_exists in Hs' as (s & Hin & H1 & H2). apply Exists_exists. exists s. split; [done|].
      rewrite list.Forall_forall in Hd. specialize (Hd s Hin). unfold in_seg in *. destruct Ei as [?| ->], Ej as [?| ->]; lia. }
  intros i j x y Hij Hj Hx Hy. destruct (decide (in_seg b e i)) as [Bi|Bi], (decide (in_seg b e j)) as [Bj|Bj].
  - destruct (decide (Z.of_nat j < p)); [right|destruct (decide (p < Z.of_nat i)); [right|left]].
    + unfold in_seg in *. destruct Hs as [[-> ->]|[-> ->]]; [apply Exists_cons_tl|]; apply Exists_cons_hd; cbn; lia.
    + unfold in_seg in *. destruct Hs as [[-> ->]|[-> ->]]; [|apply Exists_cons_tl]; apply Exists_cons_hd; cbn; lia.
    + unfold in_seg in *. destruct (decide (i = Z.to_nat p)) as [->|].
      { simplify_eq. apply (Hhigh j); [unfold in_seg; lia|done]. }
      assert (cle x piv) by (apply (Hlow i); [unfold in_seg; lia|done]).
      destruct (decide (j = Z.to_nat p)) as [->|]; [by simplify_eq|].
      apply (weak_trans _ piv); [done|]. apply (Hhigh j); [unfold in_seg; lia|done].
  - destruct (Pin i Bi) as (i0 & Bi0 & E). rewrite E in Hx. rewrite Pout in Hy by done.
    apply (Hout i0 j); try done; try tauto. unfold in_seg in *. lia.
  - destruct (Pin j Bj) as (j0 & Bj0 & E). rewrite E in Hy. rewrite Pout in Hx by done.
    apply (Hout i j0); try done; try tauto; unfold in_seg in *; lia.
  - rewrite Pout in Hx, Hy by done. apply (Hout i j); try done; try tauto.
Qed.

Record qs_ok (n : Z) l0 (s : qs A) (segs : list (Z * Z)) l : Prop := {
  qo_array : qs_a s = mkArray n l;
  qo_perm : seg_perm 0 n l0 l;
  qo_ordered : ordered n l segs;
  qo_beg : zlen (qs_beg s) = qs_max;
  qo_end : zlen (qs_end s) = qs_max;
  qo_i : qs_i s = zlen segs - 1;
  qo_stack : stacked n (qs_beg s) (qs_end s) segs }.

Lemma quicksort_turn_ok n l0 s segs l : 0 <= n <= zlen l0 -> n < 2 ^ 31 -> qs_ok n l0 s segs l ->
  exists r, quicksort_turn s = Ret r /\
    match r with
    | inl s' => exists segs' l', qs_ok n l0 s' segs' l' /\ stack_size segs' < stack_size segs
    | inr a => a = mkArray n l /\ segs = []
    end.
Proof.
  intros Hn Hmax [Ea P O Lb Lf Ei W]. unfold quicksort_turn. pose proof (seg_perm_length _ _ _ _ P) as Hl.
  destruct segs as [|[b e] segs].
  { cbn in Ei. rewrite Ei. cbn [Z.leb Z.compare Z.sub Z.add Z.opp]. eexists. split; [done|]. done. }
  cbn [length] in Ei. assert (qs_i s = zlen segs) as Ei' by lia. rewrite Ei', (proj2 (Z.leb_le _ _)) by lia. clear Ei.
  pose proof W as (E1 & E2 & Hr & He & Hs & Hd & W0).
  rewrite (rd_int_ok (qs_beg s) _ b), (rd_int_ok (qs_end s) _ e) by (rewrite ?Nat2Z.id; (done || lia)). mred. destruct (Z.ltb_spec b (e - 1)) as [Hlt|Hge].
  - rewrite Ea. destruct (qs_partition_ok n b e l) as (l' & p & piv & -> & Hp & P' & Epiv & Hlow & Hhigh); [lia..|]. mred.
    pose proof (stacked_depth n _ _ b e segs Hmax ltac:(lia) W) as Hk.
    destruct (qs_push_ok n _ _ b e p segs W Hp Lb Lf Hk) as (beg' & fin' & s1 & s2 & Eo & Lb' & Lf' & Es & W'). unfold qs_max in *.
    rewrite !wr_ok by lia. mred.
    rewrite wr_ok by (rewrite length_insert; lia). mred. replace (Z.to_nat (zlen segs + 1)) with (S (length segs)) by lia. rewrite Nat2Z.id, Eo. mred.
    eexists. split; [done|]. exists (s2 :: s1 :: segs), l'. split.
    + split; [done| | |done|done|cbn [length qs_i]; lia|done].
      * etransitivity; [exact P|]. apply (seg_perm_wide b e); (done || lia).
      * apply (ordered_split n l l' b e p piv); (done || lia).
    + destruct Es as [[-> ->]|[-> ->]]; cbn [stack_size foldr fst snd]; lia.
  - eexists. split; [done|]. exists segs, l. split; [|cbn [stack_size foldr fst snd]; unfold stack_size; lia].
    split; cbn [qs_a qs_beg qs_end qs_i]; try done. by apply (ordered_pop n l b e); [lia|].
Qed.

Lemma sorted_of_lookup (R : A -> A -> Prop) l :
  (forall i j x y, (i < j)%nat -> l !! i = Some x -> l !! j = Some y -> R x y) -> StronglySorted R l.
Proof.
  induction l as [|a l IH]; [constructor|]. intros Hl. constructor.
  - apply IH. intros i j x y Hij Hx Hy. apply (Hl (S i) (S j)); (done || lia).
  - apply Forall_lookup_2. intros i x Hx. apply (Hl 0%nat (S i)); (done || lia).
Qed.
Lemma seg_perm_frame l rest l' : seg_perm 0 (zlen l) (l ++ rest) l' -> exists k, l' = k ++ rest /\ k ≡ₚ l.
Proof.
  intros [P O _]. exists (take (length l) l').
  assert (drop (length l) l' = rest) as E.
  { apply list_eq. intros i. rewrite lookup_drop, O by (unfold in_seg; lia). rewrite lookup_app_r by lia. f_equal. lia. }
  assert (l' = take (length l) l' ++ rest) as E' by (rewrite <- E; by rewrite take_drop).
  split; [done|]. rewrite E' in P. by apply Permutation_app_inv_r in P.
Qed.

Lemma quicksort_loop_ok n l0 fuel : 0 <= n <= zlen l0 -> n < 2 ^ 31 -> forall s segs l, qs_ok n l0 s segs l -> stack_size segs < Z.of_nat fuel ->
  exists l', iter (S fuel) quicksort_turn s = Ret (mkArray n l') /\ seg_perm 0 n l0 l' /\ ordered n l' [].
Proof.
  intros Hn Hmax. induction fuel as [|fuel IH]; intros s segs l W Hf.
  { pose proof (stack_size_pos _ _ _ _ (qo_stack _ _ _ _ _ W)). lia. }
  destruct (quicksort_turn_ok n l0 s segs l Hn Hmax W) as (r & E & Hr). remember (S fuel) as m. cbn [iter]. rewrite E. mred. subst m.
  destruct r as [s'|a].
  - destruct Hr as (segs' & l' & W' & Hlt). apply (IH s' segs' l' W'). lia.
  - destruct Hr as [-> ->]. exists l. destruct W. done.
Qed.
End QuicksortProofs.

(** [C14] [quicksort] sorts the elements of an array, up to the largest count an [int] can
    hold: it ends, within 2 n + 3 turns for n elements, never reads or
    writes out of the array, nor out of its stack of 300 intervals, permutes the elements and leaves them in increasing order for
    any comparison that is total and transitive, even if elements that compare
    equal differ; the rest of the buffer does not change. *)
Theorem quicksort_sorts {A} `{WeakOrder A} (l rest : list A) fuel :
  zlen l < 2 ^ 31 -> (2 * length l + 3 <= fuel)%nat ->
  exists l', quicksort fuel (mkArray (zlen l) (l ++ rest)) = Ret (mkArray (zlen l) (l' ++ rest)) /\
    l' ≡ₚ l /\ StronglySorted cle l'.
Proof.
  intros Hmax Hf. unfold quicksort. cbn [ar_cnt].
  destruct (quicksort_loop_ok (zlen l) (l ++ rest) (pred fuel) ltac:(rewrite length_app; lia) Hmax
    (mkQs (mkArray (zlen l) (l ++ rest)) (<[0%nat := Some 0]> (replicate 300 None)) (<[0%nat := Some (zlen l)]> (replicate 300 None)) 0)
    [(0, zlen l)] (l ++ rest)) as (l' & E & P & O).
  - split; try done. intros i j x y Hij Hj _ _. right. apply Exists_cons_hd. cbn. lia.
    cbn [stacked length]. split_and!; (done || lia || constructor).
  - cbn [stack_size foldr fst snd]. lia.
  - replace (S (pred fuel)) with fuel in E by lia. change (Z.to_nat qs_max) with 300%nat. rewrite E.
    destruct (seg_perm_frame l rest l' P) as (k & -> & Pk). exists k. split_and!; [done|done|]. apply sorted_of_lookup.
    intros i j x y Hij Hx Hy. pose proof (Permutation_length Pk). pose proof (lookup_lt_Some _ _ _ Hy).
    destruct (O i j x y Hij) as [?|[]%Exists_nil]; [lia|by rewrite lookup_app_l by (apply lookup_lt_Some in Hx; lia)|
      by rewrite lookup_app_l by lia|done].
Qed.

Lemma quicksort_sorts_witness : exists l', quicksort (H := AssocComparator Z_comparator) 9 (mkArray 3 ([(2, 5); (1, 7); (2, 4)] ++ [(0, 0)])) = Ret (mkArray 3 (l' ++ [(0, 0)])) /\
  l' = [(1, 7); (2, 5); (2, 4)] /\ StronglySorted (cle (H := AssocComparator Z_comparator)) l'.
Proof.
  destruct (quicksort_sorts (H := AssocComparator Z_comparator) [(2, 5); (1, 7); (2, 4)] [(0, 0)] 9 ltac:(cbn; lia) ltac:(cbn; lia)) as (l' & E & _ & S).
  exists l'. split; [exact E|]. split; [|exact S].
  assert (Ret (mkArray 3 ([(1, 7); (2, 5); (2, 4)] ++ [(0, 0)])) = Ret (mkArray 3 (l' ++ [(0, 0)]))) as [= E'] by (change 3 with (zlen [(2, 5); (1, 7); (2, 4)]) at 2; rewrite <- E; vm_compute; reflexivity).
  symmetry. apply (app_inv_tail [(0, 0)]). exact E'.
Defined.
