(* ===== verification/Trees.v ===== *)
(** * Binary trees ([src/inhstruct_BinTree.cpp], [src/inhstruct_SortedBinTree.cpp],
      [data/TreeBag.h], [data/TreeMap.h])

    The trees of this part are nodes linked by pointers, changed in place: the model
    is a heap of nodes and the operations follow the pointers. [tree_at] relates the
    nodes reachable from a pointer with a term, on which the order of the elements is
    stated. *)

From stdpp Require Import gmap sets.
From S2P Require Import Prelude Compare Vectors Queues.
#[local] Open Scope Z_scope.

(** ** Nodes in a heap

    A node has its two links and what the class that inherits it adds; the null
    pointer is 0. *)

(* src/include/elm/inhstruct/BinTree.h:16-25 BinTree::Node *)
Record tnode (V : Type) := mkTN { tn_l : Z; tn_r : Z; tn_v : V }.
Arguments mkTN {V} _ _ _.
Arguments tn_l {V} _.
Arguments tn_r {V} _.
Arguments tn_v {V} _.
Abbreviation tree_heap V := (gmap Z (tnode V)).

Section BinTree.
Context {V : Type}.
Implicit Types h : tree_heap V.

Definition node_of h (p : Z) : outcome (tnode V) :=
  match h !! p with Some n => Ret n | None => Crash OutOfBounds end.
(** [delete] of a node. *)
Definition free_node h (p : Z) : outcome (tree_heap V) := node_of h p ;; Ret (delete p h).

(* src/include/elm/inhstruct/BinTree.h:66-67 BinTree::Node::Node *)
Definition BinNode_make (x : V) : tnode V := mkTN 0 0 x.
(* src/include/elm/inhstruct/BinTree.h:60-62 BinTree::Node::insertLeft *)
Definition insertLeft h (p node : Z) : outcome (tree_heap V) :=
  n ← node_of h p; Ret (<[p := mkTN node (tn_r n) (tn_v n)]> h).
(* src/include/elm/inhstruct/BinTree.h:63-65 BinTree::Node::insertRight *)
Definition insertRight h (p node : Z) : outcome (tree_heap V) :=
  n ← node_of h p; Ret (<[p := mkTN (tn_l n) node (tn_v n)]> h).

(** The recursive functions have the depth of the recursion as fuel. *)
(* src/src/inhstruct_BinTree.cpp:30-35 BinTree::count *)
Fixpoint BinTree_count (fuel : nat) h (node : Z) : outcome Z :=
  match fuel with
  | O => Crash OutOfFuel
  | S fuel =>
      if node =? 0 then Ret 0 else
      n ← node_of h node;
      a ← BinTree_count fuel h (tn_l n); b ← BinTree_count fuel h (tn_r n); Ret (1 + a + b)
  end.
(* src/src/inhstruct_BinTree.cpp:43-52 BinTree::contains *)
Fixpoint BinTree_contains (fuel : nat) h (current node : Z) : outcome bool :=
  match fuel with
  | O => Crash OutOfFuel
  | S fuel =>
      if current =? 0 then Ret false
      else if current =? node then Ret true
      else
        n ← node_of h current;
        b ← BinTree_contains fuel h (tn_l n) node;
        if (b : bool) then Ret true else BinTree_contains fuel h (tn_r n) node
  end.

(** A visitor: what [process] returns on a node, and its own state. *)
Section Visit.
Context {S : Type} (process : Z -> S -> Z * S).

(** [visitor->process(node)] as a condition. *)
Definition processed (node : Z) (s : S) : outcome (bool * S) :=
  let r := process node s in Ret (negb (r.1 =? 0), r.2).
(** [a && b] *)
Definition and_then (a b : S -> outcome (bool * S)) (s : S) : outcome (bool * S) :=
  r ← a s; if (r.1 : bool) then b r.2 else Ret r.

(* src/src/inhstruct_BinTree.cpp:59-67 BinTree::visit *)
Fixpoint BinTree_visit (fuel : nat) h (node : Z) (s : S) : outcome (bool * S) :=
  match fuel with
  | O => Crash OutOfFuel
  | Datatypes.S fuel =>
      if node =? 0 then Ret (true, s) else
      n ← node_of h node;
      and_then (BinTree_visit fuel h (tn_l n)) (and_then (processed node) (BinTree_visit fuel h (tn_r n))) s
  end.
(** The two others visit the children in order: only the root is treated first or
    last. *)
(* src/src/inhstruct_BinTree.cpp:74-82 BinTree::visitPreOrder *)
Definition BinTree_visitPreOrder (fuel : nat) h (node : Z) (s : S) : outcome (bool * S) :=
  if node =? 0 then Ret (true, s) else
  n ← node_of h node;
  and_then (processed node) (and_then (BinTree_visit fuel h (tn_l n)) (BinTree_visit fuel h (tn_r n))) s.
(* src/src/inhstruct_BinTree.cpp:89-97 BinTree::visitPostOrder *)
Definition BinTree_visitPostOrder (fuel : nat) h (node : Z) (s : S) : outcome (bool * S) :=
  if node =? 0 then Ret (true, s) else
  n ← node_of h node;
  and_then (BinTree_visit fuel h (tn_l n)) (and_then (BinTree_visit fuel h (tn_r n)) (processed node)) s.
(* src/src/inhstruct_BinTree.cpp:104-116 BinTree::search *)
Fixpoint BinTree_search (fuel : nat) h (node : Z) (s : S) : outcome S :=
  match fuel with
  | O => Crash OutOfFuel
  | Datatypes.S fuel =>
      if node =? 0 then Ret s else
      let r := process node s in
      if r.1 =? 0 then Ret r.2 else
      n ← node_of h node;
      BinTree_search fuel h (if r.1 <? 0 then tn_l n else tn_r n) r.2
  end.
End Visit.

(** [clear] deletes the nodes; the root keeps its value. *)
(* src/src/inhstruct_BinTree.cpp:125-131 BinTree::clear *)
Fixpoint BinTree_clear (fuel : nat) h (node : Z) : outcome (tree_heap V) :=
  match fuel with
  | O => Crash OutOfFuel
  | S fuel =>
      if node =? 0 then Ret h else
      n ← node_of h node;
      h ← BinTree_clear fuel h (tn_l n);
      n ← node_of h node;
      h ← BinTree_clear fuel h (tn_r n);
      free_node h node
  end.
End BinTree.

(** ** Sorted trees: the class that inherits the nodes compares them *)

Section SortedBinTree.
Context {V : Type} `{Comparator V}.
Implicit Types h : tree_heap V.

Definition compare_nodes h (node1 node2 : Z) : outcome Z :=
  a ← node_of h node1; b ← node_of h node2; Ret (doCompare (tn_v a) (tn_v b)).

(* src/src/inhstruct_SortedBinTree.cpp:83-91 SortedBinTree::get *)
Definition sbt_get_step h (node cur : Z) : outcome (Z + Z) :=
  if cur =? 0 then Ret (inr cur) else
  result ← compare_nodes h node cur;
  if result =? 0 then Ret (inr cur) else
  c ← node_of h cur;
  Ret (inl (if result <? 0 then tn_l c else tn_r c)).
(* src/src/inhstruct_SortedBinTree.cpp:80-93 SortedBinTree::get *)
Definition SortedBinTree_get h (root node : Z) : outcome Z :=
  assertP (negb (node =? 0)) ;; iter (S (size h)) (sbt_get_step h node) root.
(* src/include/elm/inhstruct/SortedBinTree.h:51-53 SortedBinTree::contains *)
Definition SortedBinTree_contains h (root node : Z) : outcome bool :=
  p ← SortedBinTree_get h root node; Ret (negb (p =? 0)).

(* src/src/inhstruct_SortedBinTree.cpp:147-161 SortedBinTree::insert *)
Fixpoint sbt_insert (fuel : nat) h (node new_node : Z) : outcome (tree_heap V) :=
  match fuel with
  | O => Crash OutOfFuel
  | S fuel =>
      result ← compare_nodes h new_node node;
      n ← node_of h node;
      if result <? 0 then
        if tn_l n =? 0 then insertLeft h node new_node else sbt_insert fuel h (tn_l n) new_node
      else
        if tn_r n =? 0 then insertRight h node new_node else sbt_insert fuel h (tn_r n) new_node
  end.
(** The new root and the heap. *)
(* src/src/inhstruct_SortedBinTree.cpp:123-129 SortedBinTree::insert *)
Definition SortedBinTree_insert h (root node : Z) : outcome (Z * tree_heap V) :=
  assertP (negb (node =? 0)) ;;
  if root =? 0 then Ret (node, h)
  else h ← sbt_insert (S (size h)) h root node; Ret (root, h).

(* src/src/inhstruct_SortedBinTree.cpp:170-188 SortedBinTree::relink *)
Fixpoint relink (fuel : nat) h (left right : Z) : outcome (Z * tree_heap V) :=
  match fuel with
  | O => Crash OutOfFuel
  | S fuel =>
      if left =? 0 then Ret (right, h)
      else if right =? 0 then Ret (left, h)
      else
        l ← node_of h left;
        if tn_r l =? 0 then h ← insertRight h left right; Ret (left, h) else
        r ← node_of h right;
        if tn_l r =? 0 then h ← insertLeft h right left; Ret (right, h) else
        q ← relink fuel h (tn_l l) (tn_r l);
        h ← insertLeft q.2 left q.1;
        h ← insertRight h left right;
        Ret (left, h)
  end.
(* src/src/inhstruct_SortedBinTree.cpp:197-213 SortedBinTree::remove *)
Fixpoint sbt_remove (fuel : nat) h (node rem_node : Z) : outcome (Z * tree_heap V) :=
  match fuel with
  | O => Crash OutOfFuel
  | S fuel =>
      if node =? 0 then Ret (node, h) else
      result ← compare_nodes h rem_node node;
      n ← node_of h node;
      if result =? 0 then
        q ← relink (S (size h)) h (tn_l n) (tn_r n);
        h ← free_node q.2 node; Ret (q.1, h)
      else if result <? 0 then
        q ← sbt_remove fuel h (tn_l n) rem_node;
        h ← insertLeft q.2 node q.1; Ret (node, h)
      else
        q ← sbt_remove fuel h (tn_r n) rem_node;
        h ← insertRight q.2 node q.1; Ret (node, h)
  end.
(* src/src/inhstruct_SortedBinTree.cpp:136-139 SortedBinTree::remove *)
Definition SortedBinTree_remove h (root node : Z) : outcome (Z * tree_heap V) :=
  assertP (negb (node =? 0)) ;; sbt_remove (S (size h)) h root node.
End SortedBinTree.

(** ** The term of a tree *)

Inductive btree (V : Type) := BL | BN (l : btree V) (a : Z) (x : V) (r : btree V).
Arguments BL {V}.
Arguments BN {V} _ _ _ _.

#[export] Instance is_leaf {V} (t : btree V) : Decision (t = BL).
Proof. destruct t; [by left|by right]. Defined.

Definition ptr {V} (t : btree V) : Z := match t with BL => 0 | BN _ a _ _ => a end.
(** The nodes and their values, in order. *)
Fixpoint nodes_in {V} (t : btree V) : list (Z * V) :=
  match t with BL => [] | BN l a x r => nodes_in l ++ (a, x) :: nodes_in r end.
Definition addrs {V} (t : btree V) : list Z := (nodes_in t).*1.
Definition vals {V} (t : btree V) : list V := (nodes_in t).*2.

Fixpoint tree_at {V} (h : tree_heap V) (t : btree V) : Prop :=
  match t with
  | BL => True
  | BN l a x r => a <> 0 /\ h !! a = Some (mkTN (ptr l) (ptr r) x) /\ tree_at h l /\ tree_at h r
  end.

Section Terms.
Context {V : Type}.
Implicit Types (h : tree_heap V) (t : btree V).

Lemma addrs_BN l a (x : V) r : addrs (BN l a x r) = addrs l ++ a :: addrs r.
Proof. unfold addrs. cbn. by rewrite fmap_app. Qed.
Lemma vals_BN l a (x : V) r : vals (BN l a x r) = vals l ++ x :: vals r.
Proof. unfold vals. cbn. by rewrite fmap_app. Qed.
Lemma elem_addrs b l a (x : V) r : b ∈ addrs (BN l a x r) <-> b ∈ addrs l \/ b = a \/ b ∈ addrs r.
Proof. by rewrite addrs_BN, elem_of_app, elem_of_cons. Qed.
Lemma length_addrs t : length (addrs t) = length (nodes_in t).
Proof. apply length_fmap. Qed.

Lemma node_of_ok h p n : h !! p = Some n -> node_of h p = Ret n.
Proof. unfold node_of. by intros ->. Qed.

Lemma tree_at_same h h' t : tree_at h t -> (forall a, a ∈ addrs t -> h' !! a = h !! a) -> tree_at h' t.
Proof.
  induction t as [|l IHl a x r IHr]; [done|]. rewrite addrs_BN. intros (H0 & Ha & Hl & Hr) E. split_and!.
  - done.
  - rewrite E; [done|]. apply elem_of_app. right. by left.
  - apply IHl; [done|]. intros b Hb. apply E, elem_of_app. by left.
  - apply IHr; [done|]. intros b Hb. apply E, elem_of_app. right. by right.
Qed.
Lemma tree_at_insert h t a n : tree_at h t -> a ∉ addrs t -> tree_at (<[a := n]> h) t.
Proof. intros Ht Ha. eapply tree_at_same; [done|]. intros b Hb. apply lookup_insert_ne. by intros ->. Qed.
Lemma tree_at_delete h t a : tree_at h t -> a ∉ addrs t -> tree_at (delete a h) t.
Proof. intros Ht Ha. eapply tree_at_same; [done|]. intros b Hb. apply lookup_delete_ne. by intros ->. Qed.

Lemma tree_at_nonzero h t a : tree_at h t -> a ∈ addrs t -> a <> 0 /\ is_Some (h !! a).
Proof.
  induction t as [|l IHl b x r IHr]; [intros _ Ha; by apply not_elem_of_nil in Ha|].
  intros (H0 & Hb & Hl & Hr). rewrite addrs_BN, elem_of_app, elem_of_cons. intros [Ha|[->|Ha]].
  - by apply IHl.
  - by rewrite Hb.
  - by apply IHr.
Qed.
Lemma ptr_0 h t : tree_at h t -> ptr t = 0 -> t = BL.
Proof. destruct t; [done|]. by intros [? _]. Qed.
Lemma ptr_in t : t <> BL -> ptr t ∈ addrs t.
Proof. destruct t; [done|]. intros _. rewrite addrs_BN. apply elem_of_app. right. by left. Qed.
Lemma ptr_test h t : tree_at h t -> (ptr t =? 0) = match t with BL => true | _ => false end.
Proof. destruct t; [done|]. intros [? _]. by apply Z.eqb_neq. Qed.

Lemma NoDup_BN l a (x : V) r : NoDup (addrs (BN l a x r)) ->
  NoDup (addrs l) /\ NoDup (addrs r) /\ ~ (a ∈ addrs l) /\ ~ (a ∈ addrs r) /\
  (forall b, b ∈ addrs l -> ~ (b ∈ addrs r)).
Proof.
  rewrite addrs_BN. intros (N1 & N2 & N3)%NoDup_app. apply NoDup_cons in N3 as [N3 N4].
  split_and!; try done.
  - intros Ha. apply (N2 a); [done|by left].
  - intros b Hb Hb'. apply (N2 b); [done|by right].
Qed.

(** The nodes of a tree are in the heap, so its size bounds every loop. *)
Lemma tree_size h t : tree_at h t -> NoDup (addrs t) -> (length (addrs t) <= size h)%nat.
Proof.
  intros Ht N. apply nodup_size; [done|]. intros a Ha. by destruct (tree_at_nonzero h t a Ht Ha).
Qed.
End Terms.

(** ** Visits *)

(** The visit of a list of nodes, until the visitor returns 0. *)
Fixpoint visit_list {S} (process : Z -> S -> Z * S) (l : list Z) (s : S) : bool * S :=
  match l with
  | [] => (true, s)
  | a :: l => let r := process a s in if r.1 =? 0 then (false, r.2) else visit_list process l r.2
  end.

Section Visits.
Context {V S : Type} (process : Z -> S -> Z * S).
Implicit Types (h : tree_heap V) (t : btree V).

Lemma visit_list_app l k s : visit_list process (l ++ k) s =
  let r := visit_list process l s in if r.1 then visit_list process k r.2 else r.
Proof.
  revert s. induction l as [|a l IH]; intros s; cbn; [done|]. destruct ((process a s).1 =? 0); [done|]. apply IH.
Qed.
Lemma and_then_ok (a b : S -> outcome (bool * S)) l k s :
  a s = Ret (visit_list process l s) -> (forall s, b s = Ret (visit_list process k s)) ->
  and_then a b s = Ret (visit_list process (l ++ k) s).
Proof.
  intros Ea Eb. unfold and_then. rewrite Ea, visit_list_app. mred. cbn zeta.
  destruct (visit_list process l s) as [[] s']; cbn; [apply Eb|done].
Qed.
Lemma processed_ok a s : processed process a s = Ret (visit_list process [a] s).
Proof. unfold processed. cbn. by destruct ((process a s).1 =? 0). Qed.

Lemma visit_ok t : forall fuel h s, tree_at h t -> (length (addrs t) < fuel)%nat ->
  BinTree_visit process fuel h (ptr t) s = Ret (visit_list process (addrs t) s).
Proof.
  induction t as [|l IHl a x r IHr]; intros fuel h s Ht Hf; destruct fuel as [|fuel]; try lia; [done|].
  cbn [BinTree_visit]. rewrite (ptr_test h) by done. destruct Ht as (H0 & Ha & Hl & Hr).
  rewrite addrs_BN in *. rewrite length_app in Hf. cbn in Hf. cbn [ptr].
  rewrite (node_of_ok _ _ _ Ha). mred. cbn [tn_l tn_r].
  apply and_then_ok; [apply IHl; (done || lia)|]. intros s'.
  apply (and_then_ok _ _ [a]); [apply processed_ok|]. intros s''. apply IHr; (done || lia).
Qed.

End Visits.

Section Whole.
Context {V : Type}.
Implicit Types (h : tree_heap V) (t : btree V).

Lemma count_ok t : forall fuel h, tree_at h t -> (length (addrs t) < fuel)%nat ->
  BinTree_count fuel h (ptr t) = Ret (zlen (addrs t)).
Proof.
  induction t as [|l IHl a x r IHr]; intros fuel h Ht Hf; destruct fuel as [|fuel]; try lia; [done|].
  cbn [BinTree_count]. rewrite (ptr_test h) by done. destruct Ht as (H0 & Ha & Hl & Hr).
  rewrite addrs_BN in *. rewrite length_app in *. cbn [length ptr] in *.
  rewrite (node_of_ok _ _ _ Ha). mred. cbn [tn_l tn_r].
  rewrite IHl by (done || lia). mred. rewrite IHr by (done || lia). mred. f_equal. lia.
Qed.

Lemma contains_ok t : forall fuel h node, tree_at h t -> (length (addrs t) < fuel)%nat ->
  BinTree_contains fuel h (ptr t) node = Ret (bool_decide (node ∈ addrs t)).
Proof.
  induction t as [|l IHl a x r IHr]; intros fuel h node Ht Hf; destruct fuel as [|fuel]; try lia; [done|].
  cbn [BinTree_contains]. rewrite (ptr_test h) by done. destruct Ht as (H0 & Ha & Hl & Hr).
  rewrite addrs_BN in *. rewrite length_app in Hf. cbn [length ptr] in *.
  destruct (Z.eqb_spec a node) as [<-|Hne].
  { rewrite bool_decide_eq_true_2; [done|]. apply elem_of_app. right. by left. }
  rewrite (node_of_ok _ _ _ Ha). mred. cbn [tn_l tn_r].
  rewrite IHl, IHr by (done || lia). mred.
  case_bool_decide as E1; f_equal.
  - symmetry. apply bool_decide_eq_true_2, elem_of_app. by left.
  - apply bool_decide_ext. rewrite elem_of_app, elem_of_cons. naive_solver.
Qed.

Lemma clear_ok t : forall fuel h, tree_at h t -> NoDup (addrs t) -> (length (addrs t) < fuel)%nat ->
  exists h', BinTree_clear fuel h (ptr t) = Ret h' /\
    forall a, h' !! a = if decide (a ∈ addrs t) then None else h !! a.
Proof.
  induction t as [|l IHl a x r IHr]; intros fuel h Ht N Hf; destruct fuel as [|fuel]; try lia; [by exists h|].
  cbn [BinTree_clear]. rewrite (ptr_test h) by done. destruct Ht as (H0 & Ha & Hl & Hr).
  apply NoDup_BN in N as (Nl & Nr & Al & Ar & D). rewrite addrs_BN in *. rewrite length_app in Hf. cbn [length ptr] in *.
  rewrite (node_of_ok _ _ _ Ha). mred. cbn [tn_l tn_r].
  destruct (IHl fuel h) as (h1 & -> & E1); [done|done|lia|]. mred.
  assert (h1 !! a = h !! a) as Ea by (rewrite E1; by rewrite decide_False).
  rewrite (node_of_ok h1 a _ (eq_trans Ea Ha)). mred. cbn [tn_r].
  destruct (IHr fuel h1) as (h2 & -> & E2); [|done|lia|].
  { eapply tree_at_same; [done|]. intros b Hb. rewrite E1, decide_False; [done|]. intros Hb'. by apply (D b). }
  mred. unfold free_node. rewrite (node_of_ok h2 a (mkTN (ptr l) (ptr r) x)) by (rewrite E2, decide_False, Ea; done). mred.
  eexists. split; [done|]. intros b. destruct (decide (b = a)) as [->|Hb].
  - rewrite lookup_delete_eq, decide_True; [done|]. apply elem_of_app. right. by left.
  - rewrite lookup_delete_ne, E2, E1 by done.
    repeat case_decide; rewrite ?elem_of_app, ?elem_of_cons in *; naive_solver.
Qed.
End Whole.

(** ** Sorted trees *)

Section SortedTerms.
Context {V : Type} `{KeyOrder V}.
Implicit Types (h : tree_heap V) (t l r : btree V) (x y : V).

(** The insertion of the code on terms, and what it does on the list of values. *)
Fixpoint bt_insert t (n : Z) x : btree V :=
  match t with
  | BL => BN BL n x BL
  | BN l a y r => if doCompare x y <? 0 then BN (bt_insert l n x) a y r else BN l a y (bt_insert r n x)
  end.
Fixpoint bag_add {B} (key : B -> V) (b : B) (l : list B) : list B :=
  match l with
  | [] => [b]
  | c :: l => if doCompare (key b) (key c) <? 0 then b :: c :: l else c :: bag_add key b l
  end.

(** What is before a node is less, what is after is not. *)
Fixpoint bst t : Prop :=
  match t with
  | BL => True
  | BN l a y r => (forall z, z ∈ vals l -> clt z y) /\ (forall z, z ∈ vals r -> cle y z) /\ bst l /\ bst r
  end.

Lemma bag_add_app {B} (key : B -> V) b (l k : list B) :
  (forall c, c ∈ l -> cle (key c) (key b)) -> bag_add key b (l ++ k) = l ++ bag_add key b k.
Proof.
  induction l as [|c l IH]; intros Hl; cbn; [done|].
  rewrite (proj2 (Z.ltb_ge _ _)).
  - f_equal. apply IH. intros d Hd. apply Hl. by right.
  - apply key_ge, Hl. by left.
Qed.
Lemma bag_add_before {B} (key : B -> V) b (l k : list B) c :
  doCompare (key b) (key c) < 0 -> bag_add key b (l ++ c :: k) = bag_add key b l ++ c :: k.
Proof.
  intros Hc. induction l as [|d l IH]; cbn; [by rewrite (proj2 (Z.ltb_lt _ _) Hc)|].
  destruct (doCompare (key b) (key d) <? 0); [done|]. cbn. by rewrite IH.
Qed.
Lemma bag_add_perm {B} (key : B -> V) b (l : list B) : bag_add key b l ≡ₚ b :: l.
Proof.
  induction l as [|c l IH]; cbn; [done|]. destruct (_ <? 0); [done|]. rewrite IH. constructor.
Qed.

Lemma nodes_in_insert t n x : bst t -> nodes_in (bt_insert t n x) = bag_add snd (n, x) (nodes_in t).
Proof.
  induction t as [|l IHl a y r IHr]; intros Hb; cbn; [done|]. destruct Hb as (Hl & Hr & Bl & Br).
  destruct (Z.ltb_spec (doCompare x y) 0) as [Hc|Hc]; cbn.
  - rewrite IHl, bag_add_before by done. done.
  - rewrite bag_add_app, IHr; [|done|].
    + cbn. by rewrite (proj2 (Z.ltb_ge _ _) Hc).
    + intros c Hc'. apply (key_trans _ y); [|by apply key_ge].
      apply key_clt_le, Hl. by apply list_elem_of_fmap_2.
Qed.
Lemma bst_insert t n x : bst t -> bst (bt_insert t n x).
Proof.
  assert (forall t z, bst t -> z ∈ vals (bt_insert t n x) -> z = x \/ z ∈ vals t) as In.
  { clear t. intros t z Hb. unfold vals. rewrite nodes_in_insert by done. rewrite (bag_add_perm snd). cbn.
    by rewrite elem_of_cons. }
  induction t as [|l IHl a y r IHr]; intros Hb; cbn.
  { split_and!; try done; intros z Hz; by apply not_elem_of_nil in Hz. }
  destruct Hb as (Hl & Hr & Bl & Br). destruct (Z.ltb_spec (doCompare x y) 0) as [Hc|Hc]; split_and!; auto.
  - intros z [->|Hz]%In; [done|by apply Hl|done].
  - intros z [->|Hz]%In; [by apply key_ge|by apply Hr|done].
Qed.

Lemma compare_nodes_ok h n c v w : h !! n = Some v -> h !! c = Some w ->
  compare_nodes h n c = Ret (doCompare (tn_v v) (tn_v w)).
Proof. intros En Ec. unfold compare_nodes. by rewrite (node_of_ok _ _ _ En), (node_of_ok _ _ _ Ec). Qed.

(** The loop of the insertion, on the heap. *)
Lemma sbt_insert_ok t n x : forall fuel h, t <> BL -> tree_at h t -> NoDup (addrs t) -> n <> 0 -> n ∉ addrs t ->
  h !! n = Some (BinNode_make x) -> (length (addrs t) <= fuel)%nat ->
  exists h', sbt_insert fuel h (ptr t) n = Ret h' /\ tree_at h' (bt_insert t n x) /\
    forall a, a ∉ addrs t -> h' !! a = h !! a.
Proof.
  induction t as [|l IHl a y r IHr]; [done|]. intros fuel h _ (Ha0 & Ha & Hl & Hr) N Hn0 Hn En Hf.
  apply NoDup_BN in N as (Nl & Nr & Al & Ar & D). rewrite addrs_BN in *. rewrite length_app in Hf.
  apply not_elem_of_app in Hn as [Hn1 [Hn2 Hn3]%not_elem_of_cons].
  destruct fuel as [|fuel]; [cbn in Hf; lia|]. cbn [sbt_insert length ptr bt_insert] in *.
  rewrite (compare_nodes_ok _ _ _ _ _ En Ha), (node_of_ok _ _ _ Ha). mred. cbn [tn_v tn_l tn_r BinNode_make].
  rewrite !(ptr_test h) by done. destruct (doCompare x y <? 0).
  - destruct l as [|ll b z lr]; [|].
    + unfold insertLeft. rewrite (node_of_ok _ _ _ Ha). mred. eexists. split; [done|]. cbn [bt_insert tree_at ptr tn_l tn_r tn_v]. split.
      * rewrite lookup_insert_eq, lookup_insert_ne by done. split_and!; try done. by apply tree_at_insert.
      * intros b Hb. apply lookup_insert_ne. intros ->. apply Hb. by left.
    + destruct (IHl fuel h) as (h' & -> & T & F); try done; [lia|]. eexists. split; [done|]. split.
      * cbn [tree_at]. rewrite F by done. split_and!; [done| |done|].
        -- rewrite Ha. cbn. by destruct (doCompare x z <? 0).
        -- eapply tree_at_same; [done|]. intros c Hc. apply F. intros Hc'. by apply (D c).
      * intros c Hc. apply F. intros Hc'. apply Hc, elem_of_app. by left.
  - destruct r as [|rl b z rr]; [|].
    + unfold insertRight. rewrite (node_of_ok _ _ _ Ha). mred. eexists. split; [done|]. cbn [bt_insert tree_at ptr tn_l tn_r tn_v]. split.
      * rewrite lookup_insert_eq, lookup_insert_ne by done. split_and!; try done. by apply tree_at_insert.
      * intros b Hb. apply lookup_insert_ne. intros ->. apply Hb, elem_of_app. right. by left.
    + destruct (IHr fuel h) as (h' & -> & T & F); try done; [lia|]. eexists. split; [done|]. split.
      * cbn [tree_at]. rewrite F by done. split_and!; [done| | |done].
        -- rewrite Ha. cbn. by destruct (doCompare x z <? 0).
        -- eapply tree_at_same; [done|]. intros c Hc. apply F. by apply D.
      * intros c Hc. apply F. intros Hc'. apply Hc, elem_of_app. right. by right.
Qed.

(** The search on terms, and on the list: the first element that compares equal. *)
Fixpoint bt_find t x : option (Z * V) :=
  match t with
  | BL => None
  | BN l a y r =>
      if doCompare x y =? 0 then Some (a, y) else if doCompare x y <? 0 then bt_find l x else bt_find r x
  end.
Fixpoint bag_find {B} (key : B -> V) x (l : list B) : option B :=
  match l with
  | [] => None
  | b :: l => if doCompare x (key b) =? 0 then Some b else bag_find key x l
  end.

Lemma bag_find_app {B} (key : B -> V) x (l k : list B) :
  (forall b, b ∈ l -> doCompare x (key b) <> 0) -> bag_find key x (l ++ k) = bag_find key x k.
Proof.
  induction l as [|b l IH]; intros Hl; cbn; [done|].
  rewrite (proj2 (Z.eqb_neq _ _)) by (apply Hl; left). apply IH. intros c Hc. apply Hl. by right.
Qed.
Lemma bag_find_none {B} (key : B -> V) x (l : list B) :
  (forall b, b ∈ l -> doCompare x (key b) <> 0) -> bag_find key x l = None.
Proof. intros Hl. rewrite <- (app_nil_r l). by rewrite bag_find_app. Qed.
Lemma bag_find_front {B} (key : B -> V) x (l k : list B) :
  (forall b, b ∈ k -> doCompare x (key b) <> 0) -> bag_find key x (l ++ k) = bag_find key x l.
Proof.
  intros Hk. induction l as [|b l IH]; cbn; [by apply bag_find_none|]. by destruct (_ =? 0).
Qed.

Lemma in_vals a x t : (a, x) ∈ nodes_in t -> x ∈ vals t.
Proof. intros Hx. by apply (list_elem_of_fmap_2 snd _ (a, x)). Qed.
(** What is on the other side of a node does not compare equal. *)
Lemma bst_left_apart l y x : (forall z, z ∈ vals l -> clt z y) -> 0 <= doCompare x y ->
  forall b, b ∈ nodes_in l -> doCompare x b.2 <> 0.
Proof.
  intros Hl Hx [a z] Hb%in_vals E%key_equal. cbn in *. apply (key_clt_not_cle z y); [by apply Hl|].
  apply key_trans with x; [by apply key_ge|apply E].
Qed.
Lemma bst_right_apart r y x : (forall z, z ∈ vals r -> cle y z) -> doCompare x y < 0 ->
  forall b, b ∈ nodes_in r -> doCompare x b.2 <> 0.
Proof.
  intros Hr Hx [a z] Hb%in_vals E%key_equal. cbn in *. apply (key_clt_not_cle x y); [done|].
  apply key_trans with z; [by apply Hr|apply E].
Qed.

Lemma bt_find_list t x : bst t -> bt_find t x = bag_find snd x (nodes_in t).
Proof.
  induction t as [|l IHl a y r IHr]; intros Hb; cbn; [done|]. destruct Hb as (Hl & Hr & Bl & Br).
  destruct (Z.eqb_spec (doCompare x y) 0) as [E|E].
  - rewrite bag_find_app by (apply (bst_left_apart l y); (done || lia)). cbn. by rewrite E.
  - destruct (Z.ltb_spec (doCompare x y) 0).
    + rewrite bag_find_front; [by apply IHl|]. intros b [->|Hb]%elem_of_cons; [done|].
      by apply (bst_right_apart r y).
    + rewrite bag_find_app by (apply (bst_left_apart l y); (done || lia)). cbn.
      rewrite (proj2 (Z.eqb_neq _ _) E). by apply IHr.
Qed.

Lemma sbt_get_step_ok h n v l a y r : h !! n = Some v -> tree_at h (BN l a y r) ->
  sbt_get_step h n a = Ret (let c := doCompare (tn_v v) y in
    if c =? 0 then inr a else inl (if c <? 0 then ptr l else ptr r)).
Proof.
  intros En (Ha0 & Ha & _). unfold sbt_get_step. rewrite (proj2 (Z.eqb_neq _ _) Ha0).
  rewrite (compare_nodes_ok _ _ _ _ _ En Ha), (node_of_ok _ _ _ Ha). mred. cbn. by destruct (_ =? 0).
Qed.
Lemma sbt_get_ok t n v : forall h fuel, tree_at h t -> h !! n = Some v -> (length (addrs t) < fuel)%nat ->
  iter fuel (sbt_get_step h n) (ptr t) = Ret (default 0 (fst <$> bt_find t (tn_v v))).
Proof.
  induction t as [|l IHl a y r IHr]; intros h fuel Ht En Hf; destruct fuel as [|fuel]; try lia; [done|].
  cbn [iter ptr bt_find]. rewrite (sbt_get_step_ok _ _ _ _ _ _ _ En Ht). destruct Ht as (_ & _ & Hl & Hr).
  rewrite addrs_BN, length_app in Hf. cbn [length] in *. mred. cbn zeta. destruct (_ =? 0); [done|].
  destruct (_ <? 0); [apply IHl|apply IHr]; (done || lia).
Qed.
End SortedTerms.

(** *** Removal: the nodes are kept, not their order *)

Section Relink.
Context {V : Type} `{Comparator V}.
Implicit Types (h : tree_heap V) (t l r : btree V).

Fixpoint bt_relink l r : btree V :=
  match l with
  | BL => r
  | BN ll a x lr =>
      match r with
      | BL => l
      | BN rl b y rr =>
          match lr, rl with
          | BL, _ => BN ll a x r
          | _, BL => BN l b y rr
          | _, _ => BN (bt_relink ll lr) a x r
          end
      end
  end.

Lemma bt_relink_nodes l r : nodes_in (bt_relink l r) ≡ₚ nodes_in l ++ nodes_in r.
Proof.
  revert r. induction l as [|ll IH a x lr _]; intros r; [by destruct r|].
  destruct r as [|rl b y rr]; [cbn; by rewrite app_nil_r|]. cbn [bt_relink].
  destruct lr as [|lrl c z lrr]; [by cbn; app_norm|]. destruct rl as [|rll d w rlr]; [done|].
  set (lr := BN lrl c z lrr). set (r := BN (BN rll d w rlr) b y rr).
  change (nodes_in (bt_relink ll lr) ++ (a, x) :: nodes_in r ≡ₚ (nodes_in ll ++ (a, x) :: nodes_in lr) ++ nodes_in r).
  rewrite IH. app_norm. f_equiv. by rewrite Permutation_middle.
Qed.

(** The addresses of two trees that share no node. *)
Definition apart_trees l r : Prop := NoDup (addrs l ++ addrs r).

Lemma insertLeft_ok h a pl pr x q : h !! a = Some (mkTN pl pr x) -> insertLeft h a q = Ret (<[a := mkTN q pr x]> h).
Proof. intros Ha. unfold insertLeft. by rewrite (node_of_ok _ _ _ Ha). Qed.
Lemma insertRight_ok h a pl pr x q : h !! a = Some (mkTN pl pr x) -> insertRight h a q = Ret (<[a := mkTN pl q x]> h).
Proof. intros Ha. unfold insertRight. by rewrite (node_of_ok _ _ _ Ha). Qed.
(** A node put above two trees of the heap that do not contain it. *)
Lemma tree_at_BN h l a x r : a <> 0 -> tree_at h l -> tree_at h r -> ~ (a ∈ addrs l) -> ~ (a ∈ addrs r) ->
  tree_at (<[a := mkTN (ptr l) (ptr r) x]> h) (BN l a x r).
Proof. intros H0 Hl Hr Al Ar. split_and!; [done|apply lookup_insert_eq|by apply tree_at_insert..]. Qed.

Lemma addrs_relink l r : addrs (bt_relink l r) ≡ₚ addrs l ++ addrs r.
Proof. unfold addrs. by rewrite bt_relink_nodes, fmap_app. Qed.

Lemma relink_ok l : forall fuel h r, tree_at h l -> tree_at h r -> apart_trees l r -> (length (addrs l) < fuel)%nat ->
  exists h', relink fuel h (ptr l) (ptr r) = Ret (ptr (bt_relink l r), h') /\ tree_at h' (bt_relink l r) /\
    forall a, ~ (a ∈ addrs l ++ addrs r) -> h' !! a = h !! a.
Proof.
  induction l as [|ll IH a x lr _]; intros fuel h r Hl Hr N Hf; destruct fuel as [|fuel]; try lia; cbn [relink].
  { exists h. by destruct r. }
  rewrite !(ptr_test h) by done. destruct r as [|rl b y rr]; [by exists h|].
  pose proof Hl as (Ha0 & Ha & Hll & Hlr). pose proof Hr as (Hb0 & Hb & Hrl & Hrr). cbn [ptr].
  unfold apart_trees in N. apply NoDup_app in N as (Nl & N & Nr).
  pose proof (NoDup_BN _ _ _ _ Nl) as (N1 & N2 & A1 & A2 & D). pose proof (NoDup_BN _ _ _ _ Nr) as (N3 & N4 & B1 & B2 & D').
  assert (~ (a ∈ addrs (BN rl b y rr))) as Hra by (apply N, elem_addrs; auto).
  assert (~ (b ∈ addrs (BN ll a x lr))) as Hlb by (intros E; apply (N b E), elem_addrs; auto).
  rewrite addrs_BN in Hf. rewrite length_app in Hf. cbn [length] in Hf.
  rewrite (node_of_ok _ _ _ Ha), (node_of_ok _ _ _ Hb). mred. cbn [tn_l tn_r]. rewrite !(ptr_test h) by done.
  destruct lr as [|lrl c z lrr].
  { rewrite (insertRight_ok _ _ _ _ _ _ Ha). mred. eexists. split; [done|].
    split; [exact (tree_at_BN h ll a x (BN rl b y rr) Ha0 Hll Hr A1 Hra)|].
    intros d Hd. apply lookup_insert_ne. intros ->. apply Hd, elem_of_app. left. apply elem_addrs. auto. }
  destruct rl as [|rll d w rlr].
  { rewrite (insertLeft_ok _ _ _ _ _ _ Hb). mred. eexists. split; [done|].
    split; [exact (tree_at_BN h (BN ll a x (BN lrl c z lrr)) b y rr Hb0 Hl Hrr Hlb B2)|].
    intros d Hd. apply lookup_insert_ne. intros ->. apply Hd, elem_of_app. right. apply elem_addrs. auto. }
  destruct (IH fuel h (BN lrl c z lrr)) as (h1 & -> & T & F); [done|done| |lia|].
  { apply NoDup_app. split_and!; [done|exact D|done]. }
  mred. cbn [fst snd]. set (lr := BN lrl c z lrr) in *. set (rl := BN rll d w rlr) in *.
  assert (h1 !! a = h !! a) as Ea by (by apply F, not_elem_of_app).
  rewrite (insertLeft_ok _ _ _ _ _ _ (eq_trans Ea Ha)). mred.
  rewrite (insertRight_ok _ _ _ _ _ _ (lookup_insert_eq _ _ _)). mred.
  eexists. split; [done|]. rewrite insert_insert_eq. split.
  - change (tree_at (<[a := mkTN (ptr (bt_relink ll lr)) (ptr (BN rl b y rr)) x]> h1) (BN (bt_relink ll lr) a x (BN rl b y rr))).
    apply tree_at_BN; [done|done| |by rewrite addrs_relink, not_elem_of_app|done].
    eapply tree_at_same; [done|]. intros e He. apply F. intros He'. apply (N e); [|done].
    apply elem_addrs. apply elem_of_app in He' as [?|?]; auto.
  - intros e He. rewrite elem_of_app, elem_addrs in He. rewrite lookup_insert_ne, F; [done| |]; [|naive_solver].
    rewrite elem_of_app. naive_solver.
Qed.
End Relink.

Section Remove.
Context {V : Type} `{KeyOrder V}.
Implicit Types (h : tree_heap V) (t l r : btree V).

Fixpoint bt_sremove t (x : V) : btree V :=
  match t with
  | BL => BL
  | BN l a y r =>
      if doCompare x y =? 0 then bt_relink l r
      else if doCompare x y <? 0 then BN (bt_sremove l x) a y r else BN l a y (bt_sremove r x)
  end.

Lemma bt_find_in t x n : bt_find t x = Some n -> n ∈ nodes_in t.
Proof.
  induction t as [|l IHl a y r IHr]; cbn; [done|]. rewrite elem_of_app, elem_of_cons.
  destruct (_ =? 0); [intros [= <-]; auto|]. destruct (_ <? 0); auto.
Qed.
Lemma bt_sremove_nodes t x :
  nodes_in t ≡ₚ option_list (bt_find t x) ++ nodes_in (bt_sremove t x).
Proof.
  induction t as [|l IHl a y r IHr]; cbn; [done|]. destruct (_ =? 0); cbn.
  - by rewrite bt_relink_nodes, Permutation_middle.
  - destruct (_ <? 0); cbn.
    + rewrite IHl at 1. by rewrite app_assoc.
    + rewrite IHr at 1. rewrite (Permutation_app_swap_app (option_list _) (nodes_in l)).
      apply Permutation_app_head, Permutation_middle.
Qed.
Lemma addrs_sremove t x a : a ∈ addrs (bt_sremove t x) -> a ∈ addrs t.
Proof.
  unfold addrs. intros Ha. rewrite (bt_sremove_nodes t x), fmap_app. apply elem_of_app. by right.
Qed.

Lemma sbt_remove_ok t m v : forall fuel h, tree_at h t -> NoDup (addrs t) -> h !! m = Some v ->
  (length (addrs t) < fuel)%nat ->
  exists h', sbt_remove fuel h (ptr t) m = Ret (ptr (bt_sremove t (tn_v v)), h') /\
    tree_at h' (bt_sremove t (tn_v v)) /\ (forall a, ~ (a ∈ addrs t) -> h' !! a = h !! a) /\
    (forall n, bt_find t (tn_v v) = Some n -> h' !! n.1 = None).
Proof.
  induction t as [|l IHl a y r IHr]; intros fuel h Ht N Em Hf; destruct fuel as [|fuel]; try lia; cbn [sbt_remove].
  { by exists h. }
  rewrite (ptr_test h) by done. destruct Ht as (Ha0 & Ha & Hl & Hr).
  pose proof (NoDup_BN _ _ _ _ N) as (Nl & Nr & Al & Ar & D). rewrite addrs_BN, length_app in Hf. cbn [ptr length] in *.
  rewrite (compare_nodes_ok _ _ _ _ _ Em Ha), (node_of_ok _ _ _ Ha). mred. cbn [bt_sremove bt_find tn_v tn_l tn_r].
  destruct (doCompare (tn_v v) y =? 0).
  - pose proof (tree_size h l Hl Nl).
    destruct (relink_ok l (S (size h)) h r) as (h1 & -> & T & F); [done|done|by apply NoDup_app|lia|].
    mred. cbn [fst snd]. assert (h1 !! a = h !! a) as Ea by (by apply F, not_elem_of_app).
    unfold free_node. rewrite (node_of_ok _ _ _ (eq_trans Ea Ha)). mred. eexists. split; [done|]. split_and!.
    + apply tree_at_delete; [done|]. by rewrite addrs_relink, elem_of_app; intros [?|?].
    + intros b Hb. rewrite elem_addrs in Hb. rewrite lookup_delete_ne, F; [done| |]; [rewrite elem_of_app|]; naive_solver.
    + intros n [= <-]. apply lookup_delete_eq.
  - destruct (doCompare (tn_v v) y <? 0).
    + destruct (IHl fuel h) as (h1 & -> & T & F & G); [done|done|done|lia|]. mred. cbn [fst snd].
      rewrite (insertLeft_ok _ _ _ _ _ _ (eq_trans (F a Al) Ha)). mred. eexists. split; [done|]. split_and!.
      * apply tree_at_BN; [done|done| |by intros ?%addrs_sremove|done].
        eapply tree_at_same; [done|]. intros b Hb. apply F. intros Hb'. by apply (D b).
      * intros b Hb. rewrite elem_addrs in Hb. rewrite lookup_insert_ne, F; naive_solver.
      * intros n En. rewrite lookup_insert_ne; [by apply G|]. intros ->. apply Al.
        by apply list_elem_of_fmap_2, (bt_find_in l (tn_v v)).
    + destruct (IHr fuel h) as (h1 & -> & T & F & G); [done|done|done|lia|]. mred. cbn [fst snd].
      rewrite (insertRight_ok _ _ _ _ _ _ (eq_trans (F a Ar) Ha)). mred. eexists. split; [done|]. split_and!.
      * apply tree_at_BN; [done| |done|done|by intros ?%addrs_sremove].
        eapply tree_at_same; [done|]. intros b Hb. apply F. intros Hb'. by apply (D b).
      * intros b Hb. rewrite elem_addrs in Hb. rewrite lookup_insert_ne, F; naive_solver.
      * intros n En. rewrite lookup_insert_ne; [by apply G|]. intros ->. apply Ar.
        by apply list_elem_of_fmap_2, (bt_find_in r (tn_v v)).
Qed.
End Remove.

(** ** Properties *)

(** A sorted tree in the heap: its term, from its root. *)
Record sbt_rep {V} `{Comparator V} (h : tree_heap V) (root : Z) (t : btree V) : Prop := {
  sr_root : root = ptr t;
  sr_at : tree_at h t;
  sr_nodup : NoDup (addrs t);
  sr_bst : bst t }.

(** A tree with values, as a check of the statements below on concrete heaps. *)
Fixpoint heap_of {V} (t : btree V) : tree_heap V :=
  match t with BL => ∅ | BN l a x r => <[a := mkTN (ptr l) (ptr r) x]> (heap_of l ∪ heap_of r) end.
Definition demo_tree : btree Z := BN (BN (BN BL 3 3 BL) 5 5 (BN BL 7 7 BL)) 10 10 (BN (BN BL 15 15 BL) 20 20 BL).

(** [visit] calls the visitor on the nodes in order until it returns 0; [count] and
    [contains] see each node of the tree, [clear] frees them all and no other. *)
Theorem BinTree_operations {V S} (process : Z -> S -> Z * S) (h : tree_heap V) t s node :
  tree_at h t -> NoDup (addrs t) ->
  let fuel := Datatypes.S (size h) in
  BinTree_visit process fuel h (ptr t) s = Ret (visit_list process (addrs t) s) /\
  BinTree_count fuel h (ptr t) = Ret (zlen (addrs t)) /\
  BinTree_contains fuel h (ptr t) node = Ret (bool_decide (node ∈ addrs t)) /\
  exists h', BinTree_clear fuel h (ptr t) = Ret h' /\
    forall a, h' !! a = if decide (a ∈ addrs t) then None else h !! a.
Proof.
  intros Ht N fuel. pose proof (tree_size h t Ht N). subst fuel.
  split_and!.
  - apply visit_ok; (done || lia).
  - apply count_ok; (done || lia).
  - apply contains_ok; (done || lia).
  - apply clear_ok; (done || lia).
Qed.

(** Insertion puts the node after those that are not greater and keeps the tree
    sorted; a search then finds the first node that compares equal, and no node when
    there is none. *)
Theorem SortedBinTree_insert_get {V} `{KeyOrder V} (h : tree_heap V) root t n x :
  sbt_rep h root t -> n <> 0 -> ~ (n ∈ addrs t) -> h !! n = Some (BinNode_make x) ->
  exists h' t', SortedBinTree_insert h root n = Ret (ptr t', h') /\ sbt_rep h' (ptr t') t' /\
    nodes_in t' = bag_add snd (n, x) (nodes_in t) /\
    forall m v, m <> 0 -> h' !! m = Some v ->
      SortedBinTree_get h' (ptr t') m = Ret (default 0 (fst <$> bag_find snd (tn_v v) (nodes_in t'))).
Proof.
  intros [-> Ht N B] Hn0 Hn En. unfold SortedBinTree_insert. rewrite (proj2 (Z.eqb_neq _ _) Hn0). mred.
  set (t' := bt_insert t n x). pose proof (bst_insert t n x B) as B'.
  pose proof (nodes_in_insert t n x B) as E. fold t' in B', E.
  assert (NoDup (addrs t')) as N'.
  { unfold addrs. rewrite E, (bag_add_perm snd). cbn. by apply NoDup_cons. }
  assert (exists h', (if ptr t =? 0 then Ret (n, h) else h ← sbt_insert (S (size h)) h (ptr t) n; Ret (ptr t, h)) =
    Ret (ptr t', h') /\ tree_at h' t') as (h' & -> & Ht').
  { rewrite (ptr_test h) by done. destruct t as [|l a y r]; [by exists h|].
    pose proof (tree_size h _ Ht N). destruct (sbt_insert_ok (BN l a y r) n x (S (size h)) h) as (h' & -> & T & _); try done; [lia|].
    exists h'. split; [|done]. unfold t'. cbn. by destruct (_ <? 0). }
  exists h', t'. split_and!; [done|by split|done|]. intros m v Hm Em. unfold SortedBinTree_get.
  rewrite (proj2 (Z.eqb_neq _ _) Hm). mred. pose proof (tree_size h' t' Ht' N').
  rewrite (sbt_get_ok _ _ v) by (done || lia). by rewrite bt_find_list.
Qed.

Lemma SortedBinTree_insert_get_witness : exists h' t',
  SortedBinTree_insert (<[8 := BinNode_make 5]> (heap_of demo_tree)) 10 8 = Ret (ptr t', h') /\
  nodes_in t' = [(3, 3); (5, 5); (8, 5); (7, 7); (10, 10); (15, 15); (20, 20)].
Proof.
  destruct (SortedBinTree_insert_get (<[8 := BinNode_make 5]> (heap_of demo_tree)) 10 demo_tree 8 5)
    as (h' & t' & E & _ & L & _).
  - split; [done| | |].
    + cbn. split_and!; done.
    + by_decide.
    + cbn [bst demo_tree]. split_and!; try done; apply list.Forall_forall; repeat (constructor; [by vm_compute|]); constructor.
  - lia.
  - by_decide.
  - apply lookup_insert_eq.
  - exists h', t'. by split.
Defined.

(** Removal deletes the node found by the search and keeps every other node in the
    tree; nothing else changes in the heap. *)
Theorem SortedBinTree_remove_keeps {V} `{KeyOrder V} (h : tree_heap V) t m v :
  tree_at h t -> NoDup (addrs t) -> m <> 0 -> h !! m = Some v ->
  exists h' t', SortedBinTree_remove h (ptr t) m = Ret (ptr t', h') /\ tree_at h' t' /\
    nodes_in t ≡ₚ option_list (bt_find t (tn_v v)) ++ nodes_in t' /\
    (forall n, bt_find t (tn_v v) = Some n -> h' !! n.1 = None) /\
    (forall a, ~ (a ∈ addrs t) -> h' !! a = h !! a).
Proof.
  intros Ht N Hm Em. unfold SortedBinTree_remove. rewrite (proj2 (Z.eqb_neq _ _) Hm). mred.
  pose proof (tree_size h t Ht N). destruct (sbt_remove_ok t m v (S (size h)) h) as (h' & E & T & F & G); [done..|lia|].
  exists h', (bt_sremove t (tn_v v)). split_and!; try done. apply bt_sremove_nodes.
Qed.

(** ** What the code does and should not *)

(** The node 7, greater than 5, ends on the left of 5: the search misses it. *)
Example relink_loses_order : (q ← SortedBinTree_remove (heap_of demo_tree) 10 10; 
    b ← BinTree_contains 10 q.2 q.1 7; p ← SortedBinTree_get (<[1 := BinNode_make 7]> q.2) q.1 1; Ret (b, p)) = Ret (true, 0).
Proof. vm_compute. reflexivity. Qed.
(** The visit in "preorder" reaches the left child after the nodes on its left. *)
Example preorder_only_at_root : BinTree_visitPreOrder (fun a s => (1, s ++ [a])) 10 (heap_of demo_tree) 10 [] =
  Ret (true, [10; 3; 5; 7; 15; 20]).
Proof. vm_compute. reflexivity. Qed.
(** After [clear] the root is the address of a freed node. *)
Example clear_keeps_root : (h ← BinTree_clear 10 (heap_of demo_tree) 10; BinTree_count 10 h 10) = Crash OutOfBounds.
Proof. vm_compute. reflexivity. Qed.
