(* ===== verification/AvlTree.v ===== *)
(** * Intrusive AVL trees

    [avl::Tree] (avl_Tree.cpp, avl/Tree.h): the nodes are those of [Trees], in a heap,
    with a height; the class that inherits the tree compares them. Insertion, search and
    removal follow the pointers and are related with functions on terms. *)

From stdpp Require Import gmap sets.
From S2P Require Import Prelude Compare Vectors Queues Trees.
#[local] Open Scope Z_scope.

(** ** Operations *)

(** A node has its height and what its class adds, on which nodes are compared. *)
Abbreviation avl_heap W := (tree_heap (Z * W)).

Section AvlTree.
Context {W : Type} `{Comparator W}.
Implicit Types h : avl_heap W.

(* src/include/elm/avl/Tree.h:34-41 Tree::Node *)
Definition AvlNode_make (w : W) : tnode (Z * W) := BinNode_make (0, w).
Definition set_height h (p k : Z) : outcome (avl_heap W) :=
  n ← node_of h p; Ret (<[p := mkTN (tn_l n) (tn_r n) (k, (tn_v n).2)]> h).
(* src/include/elm/avl/Tree.h:59-59 Tree::height *)
Definition AvlTree_height h (node : Z) : outcome Z :=
  if node =? 0 then Ret 0 else n ← node_of h node; Ret (tn_v n).1.
(* src/include/elm/avl/Tree.h:61-67 Tree::computeHeight *)
Definition computeHeight h (node : Z) : outcome (avl_heap W) :=
  n ← node_of h node;
  hleft ← AvlTree_height h (tn_l n); hright ← AvlTree_height h (tn_r n);
  set_height h node (if hright <? hleft then hleft + 1 else hright + 1).
(** [compare()] of the class that inherits the tree. *)
Definition avl_compare h (node1 node2 : Z) : outcome Z :=
  a ← node_of h node1; b ← node_of h node2; Ret (doCompare (tn_v a).2 (tn_v b).2).
(** [height(node->_left()) - height(node->_right())] *)
Definition lean h (node : Z) : outcome Z :=
  n ← node_of h node; a ← AvlTree_height h (tn_l n); b ← AvlTree_height h (tn_r n); Ret (a - b).

(* src/src/avl_Tree.cpp:127-134 Tree::get *)
Definition avl_get_step h (node cur : Z) : outcome (Z + Z) :=
  if cur =? 0 then Ret (inr cur) else
  result ← avl_compare h node cur;
  if result =? 0 then Ret (inr cur) else
  c ← node_of h cur;
  Ret (inl (if result <? 0 then tn_l c else tn_r c)).
(* src/src/avl_Tree.cpp:123-136 Tree::get *)
Definition AvlTree_get h (root node : Z) : outcome Z :=
  assertP (negb (node =? 0)) ;; iter (S (size h)) (avl_get_step h node) root.
(* src/include/elm/avl/Tree.h:79-79 Tree::contains *)
Definition AvlTree_contains h (root node : Z) : outcome bool :=
  p ← AvlTree_get h root node; Ret (negb (p =? 0)).

(** The rotations return the new root. *)
(* src/src/avl_Tree.cpp:225-233 Tree::rotateSingleLeft *)
Definition rotateSingleLeft h (root : Z) : outcome (Z * avl_heap W) :=
  assertP (negb (root =? 0)) ;;
  r ← node_of h root;
  let new_root := tn_l r in
  n ← node_of h new_root;
  h ← insertLeft h root (tn_r n);
  h ← insertRight h new_root root;
  h ← computeHeight h root;
  h ← computeHeight h new_root;
  Ret (new_root, h).
(* src/src/avl_Tree.cpp:236-244 Tree::rotateSingleRight *)
Definition rotateSingleRight h (root : Z) : outcome (Z * avl_heap W) :=
  assertP (negb (root =? 0)) ;;
  r ← node_of h root;
  let new_root := tn_r r in
  n ← node_of h new_root;
  h ← insertRight h root (tn_l n);
  h ← insertLeft h new_root root;
  h ← computeHeight h root;
  h ← computeHeight h new_root;
  Ret (new_root, h).
(* src/src/avl_Tree.cpp:247-250 Tree::rotateDoubleLeft *)
Definition rotateDoubleLeft h (root : Z) : outcome (Z * avl_heap W) :=
  r ← node_of h root;
  q ← rotateSingleRight h (tn_l r);
  h ← insertLeft q.2 root q.1;
  rotateSingleLeft h root.
(* src/src/avl_Tree.cpp:253-256 Tree::rotateDoubleRight *)
Definition rotateDoubleRight h (root : Z) : outcome (Z * avl_heap W) :=
  r ← node_of h root;
  q ← rotateSingleLeft h (tn_r r);
  h ← insertRight q.2 root q.1;
  rotateSingleRight h root.

(** [ASSERT(abs(height(node->_left()) - height(node->_right())) < 2)] *)
Definition assert_balanced h (node : Z) : outcome unit := d ← lean h node; assertP (Z.abs d <? 2).

(* src/src/avl_Tree.cpp:182-222 Tree::insert *)
Fixpoint avl_insert (fuel : nat) h (cur node : Z) : outcome (Z * avl_heap W) :=
  match fuel with
  | O => Crash OutOfFuel
  | S fuel =>
      assertP (negb (node =? 0)) ;;
      if cur =? 0 then h ← set_height h node 1; Ret (node, h)
      else
        res ← avl_compare h cur node;
        c ← node_of h cur;
        if res =? 0 then Ret (cur, h)
        else
          q ← (if 0 <? res then
                 q ← avl_insert fuel h (tn_l c) node;
                 h ← insertLeft q.2 cur q.1;
                 d ← lean h cur;
                 if 2 <=? d then
                   c ← node_of h cur;
                   res ← avl_compare h (tn_l c) node;
                   if 0 <? res then rotateSingleLeft h cur else rotateDoubleLeft h cur
                 else Ret (cur, h)
               else
                 q ← avl_insert fuel h (tn_r c) node;
                 h ← insertRight q.2 cur q.1;
                 d ← lean h cur;
                 if d <=? -2 then
                   c ← node_of h cur;
                   res ← avl_compare h (tn_r c) node;
                   if res <? 0 then rotateSingleRight h cur else rotateDoubleRight h cur
                 else Ret (cur, h));
          h ← computeHeight q.2 q.1;
          assert_balanced h q.1 ;;
          Ret (q.1, h)
  end.
(** The new root and the heap. *)
(* src/src/avl_Tree.cpp:167-169 Tree::insert *)
Definition AvlTree_insert h (root node : Z) : outcome (Z * avl_heap W) := avl_insert (S (size h)) h root node.

(** The new root, the node removed and the heap. *)
(* src/src/avl_Tree.cpp:446-467 Tree::removeGreatest *)
Fixpoint removeGreatest (fuel : nat) h (root : Z) : outcome (Z * Z * avl_heap W) :=
  match fuel with
  | O => Crash OutOfFuel
  | S fuel =>
      assertP (negb (root =? 0)) ;;
      n ← node_of h root;
      '(top, res, h) ← (if tn_r n =? 0 then Ret (tn_l n, root, h)
        else
          '(pr, res, h) ← removeGreatest fuel h (tn_r n);
          h ← insertRight h root pr;
          d ← lean h root;
          if 2 <=? d then q ← rotateSingleLeft h root; Ret (q.1, res, q.2)
          else h ← computeHeight h root; Ret (root, res, h));
      (if top =? 0 then Ret tt else assert_balanced h top) ;;
      Ret (top, res, h)
  end.
(* src/src/avl_Tree.cpp:476-497 Tree::removeLeast *)
Fixpoint removeLeast (fuel : nat) h (root : Z) : outcome (Z * Z * avl_heap W) :=
  match fuel with
  | O => Crash OutOfFuel
  | S fuel =>
      assertP (negb (root =? 0)) ;;
      n ← node_of h root;
      '(top, res, h) ← (if tn_l n =? 0 then Ret (tn_r n, root, h)
        else
          '(pl, res, h) ← removeLeast fuel h (tn_l n);
          h ← insertLeft h root pl;
          d ← lean h root;
          if d <=? -2 then q ← rotateSingleRight h root; Ret (q.1, res, q.2)
          else h ← computeHeight h root; Ret (root, res, h));
      (if top =? 0 then Ret tt else assert_balanced h top) ;;
      Ret (top, res, h)
  end.

(** A test of the balance that a parenthesis makes always true: the absolute value of
    a boolean. The trees printed on the way are left out. *)
(* src/src/avl_Tree.cpp:385-437 Tree::remove *)
Fixpoint avl_remove (fuel : nat) h (root node : Z) : outcome (Z * avl_heap W) :=
  match fuel with
  | O => Crash OutOfFuel
  | S fuel =>
      assertP (negb (node =? 0)) ;;
      (if root =? 0 then Ret tt else assert_balanced h root) ;;
      cmp ← avl_compare h root node;
      n ← node_of h root;
      q ← (if cmp <? 0 then
             q ← avl_remove fuel h (tn_r n) node;
             h ← insertRight q.2 root q.1;
             d ← lean h root;
             q ← (if 2 <=? d then rotateSingleLeft h root else Ret (root, h));
             assert_balanced q.2 q.1 ;;
             Ret q
           else if 0 <? cmp then
             q ← avl_remove fuel h (tn_l n) node;
             h ← insertLeft q.2 root q.1;
             d ← lean h root;
             q ← (if d <=? -2 then rotateSingleRight h root else Ret (root, h));
             assert_balanced q.2 q.1 ;;
             Ret q
           else
             let pl := tn_l n in
             let pr := tn_r n in
             h ← free_node h root;
             if pl =? 0 then Ret (pr, h)
             else if pr =? 0 then Ret (pl, h)
             else
               hl ← AvlTree_height h pl; hr ← AvlTree_height h pr;
               if hr <? hl then
                 '(pl, root, h) ← removeGreatest (S (size h)) h pl;
                 h ← insertLeft h root pl;
                 h ← insertRight h root pr;
                 Ret (root, h)
               else
                 '(pr, root, h) ← removeLeast (S (size h)) h pr;
                 h ← insertRight h root pr;
                 h ← insertLeft h root pl;
                 Ret (root, h));
      if q.1 =? 0 then Ret q
      else h ← computeHeight q.2 q.1; assert_balanced h q.1 ;; Ret (q.1, h)
  end.
(* src/src/avl_Tree.cpp:176-178 Tree::remove *)
Definition AvlTree_remove h (root node : Z) : outcome (Z * avl_heap W) := avl_remove (S (size h)) h root node.

(** [free] is what the class that inherits the tree does with a node; the root keeps its
    value. *)
(* src/src/avl_Tree.cpp:368-376 Tree::clean *)
Fixpoint AvlTree_clean {S} (free : Z -> S -> outcome S) (fuel : nat) h (node : Z) (s : S) : outcome S :=
  match fuel with
  | O => Crash OutOfFuel
  | Datatypes.S fuel =>
      if node =? 0 then Ret s else
      n ← node_of h node;
      s ← AvlTree_clean free fuel h (tn_l n) s;
      s ← AvlTree_clean free fuel h (tn_r n) s;
      free node s
  end.
End AvlTree.

(** ** Trees with heights *)

Abbreviation htree W := (btree (Z * W)).

Section Heights.
Context {W : Type}.
Implicit Types (t l r : htree W) (h : avl_heap W).

(** The height a tree stores at its root. *)
Definition hgt t : Z := match t with BL => 0 | BN _ _ x _ => x.1 end.
(** A node that computes its height. *)
Definition mkb l (a : Z) (w : W) r : htree W := BN l a (1 + Z.max (hgt l) (hgt r), w) r.
Definition fix_h t : htree W := match t with BL => BL | BN l a x r => mkb l a x.2 r end.

(** Heights are right and differ by one at most. *)
Fixpoint avl t : Prop :=
  match t with
  | BL => True
  | BN l a x r => x.1 = 1 + Z.max (hgt l) (hgt r) /\ Z.abs (hgt l - hgt r) < 2 /\ avl l /\ avl r
  end.
(** The elements in order, with their nodes. *)
Definition items t : list (Z * W) := (fun n => (n.1, n.2.2)) <$> nodes_in t.

Definition rot_sl t : htree W :=
  match t with BN (BN ll b y lr) a x r => mkb ll b y.2 (mkb lr a x.2 r) | _ => t end.
Definition rot_sr t : htree W :=
  match t with BN l a x (BN rl b y rr) => mkb (mkb l a x.2 rl) b y.2 rr | _ => t end.
Definition rot_dl t : htree W := match t with BN l a x r => rot_sl (BN (rot_sr l) a x r) | BL => BL end.
Definition rot_dr t : htree W := match t with BN l a x r => rot_sr (BN l a x (rot_sl r)) | BL => BL end.

Lemma hgt_nonneg t : avl t -> 0 <= hgt t.
Proof. induction t as [|l IHl a x r IHr]; [done|]. intros (E & _ & Hl & Hr). cbn. specialize (IHl Hl). specialize (IHr Hr). lia. Qed.
Lemma hgt_0 t : avl t -> hgt t = 0 -> t = BL.
Proof. destruct t as [|l a x r]; [done|]. intros (E & _ & Hl%hgt_nonneg & Hr%hgt_nonneg). cbn. lia. Qed.
Lemma avl_mkb l a w r : avl l -> avl r -> Z.abs (hgt l - hgt r) < 2 -> avl (mkb l a w r).
Proof. intros Hl Hr Hb. unfold mkb. cbn [avl fst]. by split_and!. Qed.
Lemma avl_fix t : avl t -> fix_h t = t.
Proof. destruct t as [|l a [k w] r]; [done|]. intros (E & _). cbn in *. unfold mkb. by rewrite <- E. Qed.

Lemma items_BN l a x r : items (BN l a x r) = items l ++ (a, x.2) :: items r.
Proof. unfold items. cbn. by rewrite fmap_app. Qed.
Lemma items_mkb l a w r : items (mkb l a w r) = items l ++ (a, w) :: items r.
Proof. apply items_BN. Qed.
Lemma items_fix t : items (fix_h t) = items t.
Proof. destruct t; [done|]. cbn [fix_h]. by rewrite items_mkb, items_BN. Qed.
Lemma items_rot_sl t : items (rot_sl t) = items t.
Proof. destruct t as [|[|ll b y lr] a x r]; try done. cbn [rot_sl]. rewrite !items_BN, !items_mkb. by app_norm. Qed.
Lemma items_rot_sr t : items (rot_sr t) = items t.
Proof. destruct t as [|l a x [|rl b y rr]]; try done. cbn [rot_sr]. rewrite !items_BN, !items_mkb. by app_norm. Qed.
Lemma items_rot_dl t : items (rot_dl t) = items t.
Proof. destruct t as [|l a x r]; [done|]. cbn [rot_dl]. by rewrite items_rot_sl, !items_BN, items_rot_sr. Qed.
Lemma items_rot_dr t : items (rot_dr t) = items t.
Proof. destruct t as [|l a x r]; [done|]. cbn [rot_dr]. by rewrite items_rot_sr, !items_BN, items_rot_sl. Qed.
Lemma addrs_items t : addrs t = (items t).*1.
Proof. unfold addrs, items. rewrite <- list_fmap_compose. by apply list_fmap_ext. Qed.

(** What the rotations do on a tree out of balance: single ones if the taller child does
    not lean inwards, double ones if it does. *)
Lemma avl_rot_sl ll b y lr a x r : avl (BN ll b y lr) -> avl r -> y.1 = hgt r + 2 -> hgt lr <= hgt ll ->
  let t := rot_sl (BN (BN ll b y lr) a x r) in avl t /\ y.1 <= hgt t <= y.1 + 1 /\ (hgt lr < hgt ll -> hgt t = y.1).
Proof.
  intros (E & Hb & Hll & Hlr) Hr Hh Hle. cbn [rot_sl]. split; [apply avl_mkb; [done|apply avl_mkb|]|]; try done; cbn in *; lia.
Qed.
Lemma avl_rot_sr l a x rl b y rr : avl (BN rl b y rr) -> avl l -> y.1 = hgt l + 2 -> hgt rl <= hgt rr ->
  let t := rot_sr (BN l a x (BN rl b y rr)) in avl t /\ y.1 <= hgt t <= y.1 + 1 /\ (hgt rl < hgt rr -> hgt t = y.1).
Proof.
  intros (E & Hb & Hll & Hlr) Hr Hh Hle. cbn [rot_sr]. split; [apply avl_mkb; [apply avl_mkb|done|]|]; try done; cbn in *; lia.
Qed.
Lemma avl_rot_dl ll b y lr a x r : avl (BN ll b y lr) -> avl r -> y.1 = hgt r + 2 -> hgt lr = hgt ll + 1 ->
  let t := rot_dl (BN (BN ll b y lr) a x r) in avl t /\ hgt t = y.1.
Proof.
  intros (E & Hb & Hll & Hlr) Hr Hh Hle. pose proof (hgt_nonneg ll Hll).
  destruct lr as [|lrl c z lrr]; [cbn in *; lia|]. destruct Hlr as (E' & Hb' & H1 & H2).
  cbn [rot_dl rot_sr rot_sl mkb fst snd]. split; [apply avl_mkb; [apply avl_mkb|apply avl_mkb|]|]; try done; cbn in *; lia.
Qed.
Lemma avl_rot_dr l a x rl b y rr : avl (BN rl b y rr) -> avl l -> y.1 = hgt l + 2 -> hgt rl = hgt rr + 1 ->
  let t := rot_dr (BN l a x (BN rl b y rr)) in avl t /\ hgt t = y.1.
Proof.
  intros (E & Hb & Hrl & Hrr) Hl Hh Hle. pose proof (hgt_nonneg rr Hrr).
  destruct rl as [|rll c z rlr]; [cbn in *; lia|]. destruct Hrl as (E' & Hb' & H1 & H2).
  cbn [rot_dr rot_sr rot_sl mkb fst snd]. split; [apply avl_mkb; [apply avl_mkb|apply avl_mkb|]|]; try done; cbn in *; lia.
Qed.
End Heights.

(** ** Insertion on terms *)

Section Insertion.
Context {W : Type} `{KeyOrder W}.
Implicit Types (t : htree W) (w : W).

(** The comparison of the root of a tree with an element. *)
Definition root_cmp t w : Z := match t with BL => 0 | BN _ _ x _ => doCompare x.2 w end.

Fixpoint av_insert t (n : Z) w : htree W :=
  match t with
  | BL => BN BL n (1, w) BL
  | BN l a x r =>
      let c := doCompare x.2 w in
      if c =? 0 then t
      else if 0 <? c then
        let l := av_insert l n w in
        let t := BN l a x r in
        fix_h (if 2 <=? hgt l - hgt r then if 0 <? root_cmp l w then rot_sl t else rot_dl t else t)
      else
        let r := av_insert r n w in
        let t := BN l a x r in
        fix_h (if hgt l - hgt r <=? -2 then if root_cmp r w <? 0 then rot_sr t else rot_dr t else t)
  end.

(** On the list of the elements: nothing when one is equal. *)
Fixpoint set_add (n : Z) w (l : list (Z * W)) : list (Z * W) :=
  match l with
  | [] => [(n, w)]
  | b :: l' =>
      let c := doCompare b.2 w in
      if c =? 0 then l else if 0 <? c then (n, w) :: l else b :: set_add n w l'
  end.

Lemma set_add_app n w l1 l2 : (forall b, b ∈ l1 -> clt b.2 w) -> set_add n w (l1 ++ l2) = l1 ++ set_add n w l2.
Proof.
  induction l1 as [|b l1 IH]; intros Hl; [done|]. cbn. pose proof (Hl b ltac:(by left)) as Hb. unfold clt in Hb.
  rewrite (proj2 (Z.eqb_neq _ 0)), (proj2 (Z.ltb_ge 0 _)) by lia. f_equal. apply IH. intros c Hc. apply Hl. by right.
Qed.
Lemma set_add_before n w l1 b l2 : 0 < doCompare b.2 w -> set_add n w (l1 ++ b :: l2) = set_add n w l1 ++ b :: l2.
Proof.
  intros Hb. induction l1 as [|c l1 IH]; cbn.
  - by rewrite (proj2 (Z.eqb_neq _ 0)), (proj2 (Z.ltb_lt 0 _)) by lia.
  - destruct (_ =? 0); [done|]. destruct (0 <? _); [done|]. cbn. by rewrite IH.
Qed.

(** Sorted: no two elements are equal. *)
Definition sorted_items (l : list (Z * W)) : Prop := StronglySorted (fun b c => clt b.2 c.2) l.

Lemma sorted_app l1 b l2 : sorted_items (l1 ++ b :: l2) <->
  sorted_items l1 /\ sorted_items l2 /\ (forall c, c ∈ l1 -> clt c.2 b.2) /\ (forall c, c ∈ l2 -> clt b.2 c.2).
Proof.
  unfold sorted_items. induction l1 as [|d l1 IH]; cbn.
  - split.
    + intros [Hs Hb]%StronglySorted_inv. split_and!; [constructor|done|by intros c ?%elem_of_nil|].
      intros c Hc. rewrite list.Forall_forall in Hb. by apply Hb.
    + intros (_ & Hs & _ & Hb). constructor; [done|]. by apply list.Forall_forall.
  - split.
    + intros [(H1 & H2 & H3 & H4)%IH Hd]%StronglySorted_inv. apply Forall_app in Hd as [Hd1 [Hd2 Hd3]%Forall_cons].
      split_and!; [by constructor|done| |done]. intros c [->|Hc]%elem_of_cons; [done|by apply H3].
    + intros ([H1 Hd]%StronglySorted_inv & H2 & H3 & H4). assert (clt d.2 b.2) as Hdb by (apply H3; by left). constructor.
      * apply IH. split_and!; try done. intros c Hc. apply H3. by right.
      * apply Forall_app. split; [done|]. constructor; [done|]. apply list.Forall_forall. intros c Hc.
        eapply key_clt_cle; [done|]. by apply key_clt_le, H4.
Qed.

Lemma items_insert t n w : sorted_items (items t) -> items (av_insert t n w) = set_add n w (items t).
Proof.
  induction t as [|l IHl a x r IHr]; intros Hs; [done|]. rewrite items_BN in Hs. apply sorted_app in Hs as (Hl & Hr & Hlx & Hxr).
  cbn [av_insert]. cbn [fst snd] in *. rewrite (items_BN l). destruct (Z.eqb_spec (doCompare x.2 w) 0) as [E|E].
  - rewrite set_add_app. { cbn [set_add fst snd]. by rewrite E, items_BN. } intros b Hb. eapply key_clt_cle; [by apply Hlx|]. by apply key_equal in E as [? _].
  - destruct (Z.ltb_spec 0 (doCompare x.2 w)) as [Hc|Hc]; rewrite items_fix.
    + rewrite set_add_before, <- IHl by done. rewrite <- (items_BN (av_insert l n w) a x r).
      destruct (2 <=? _); [|done]. destruct (0 <? root_cmp _ _); [apply items_rot_sl|apply items_rot_dl].
    + assert (clt x.2 w) as Hxw by (unfold clt; lia). rewrite set_add_app.
      2:{ intros b Hb. eapply key_clt_cle; [by apply Hlx|]. by apply key_clt_le. }
      cbn [set_add snd]. rewrite (proj2 (Z.eqb_neq _ 0)), (proj2 (Z.ltb_ge 0 _)) by lia. rewrite <- IHr by done.
      rewrite <- (items_BN l a x (av_insert r n w)).
      destruct (_ <=? -2); [|done]. destruct (root_cmp _ _ <? 0); [apply items_rot_sr|apply items_rot_dr].
Qed.

(** The tree stays balanced and grows by one at most; when it grows and was not empty,
    it grows on the side of the element. *)
Definition grown t t' w : Prop :=
  hgt t' = hgt t \/
  hgt t' = hgt t + 1 /\ (t = BL \/ exists l a x r, t' = BN l a x r /\
     ((0 < doCompare x.2 w /\ hgt l = hgt r + 1) \/ (doCompare x.2 w < 0 /\ hgt r = hgt l + 1))).

Lemma avl_insert_term t n w : avl t -> avl (av_insert t n w) /\ grown t (av_insert t n w) w.
Proof.
  induction t as [|l IHl a x r IHr]; intros Ht.
  { split; [cbn; split_and!; done|]. right. cbn. split; [lia|by left]. }
  pose proof Ht as (E & Hb & Hl & Hr). cbn [av_insert]. destruct (Z.eqb_spec (doCompare x.2 w) 0) as [E0|E0]; [split; [done|by left]|].
  pose proof (hgt_nonneg l Hl). pose proof (hgt_nonneg r Hr).
  destruct (Z.ltb_spec 0 (doCompare x.2 w)) as [Hc|Hc].
  - destruct (IHl Hl) as [Hl' G]. set (l' := av_insert l n w) in *. clearbody l'.
    destruct (Z.leb_spec 2 (hgt l' - hgt r)) as [Hbal|Hbal].
    + destruct G as [G|[G [->|(ll & b & y & lr & -> & Hg)]]]; [lia|cbn in *; lia|]. cbn [root_cmp hgt] in *.
      destruct Hg as [[Hy Hg]|[Hy Hg]].
      * rewrite (proj2 (Z.ltb_lt 0 _)) by lia. destruct (avl_rot_sl ll b y lr a x r) as (A & _ & Eh); [done|done|lia|lia|].
        rewrite avl_fix by done. split; [done|]. left. rewrite Eh by lia. cbn [hgt]. lia.
      * rewrite (proj2 (Z.ltb_ge 0 _)) by lia. destruct (avl_rot_dl ll b y lr a x r) as (A & Eh); [done|done|lia|lia|].
        rewrite avl_fix by done. split; [done|]. left. rewrite Eh. cbn [hgt]. lia.
    + cbn [fix_h]. assert (hgt l' = hgt l \/ hgt l' = hgt l + 1) as G' by (destruct G as [?|[? _]]; auto).
      split; [by apply avl_mkb; [| |lia]|]. unfold grown. cbn [hgt mkb fst]. rewrite E.
      destruct (Z.eq_dec (hgt l') (hgt r + 1)) as [Eg|]; [|left; lia]. destruct G' as [G'|G']; [left; lia|right].
      split; [lia|]. right. exists l', a, (1 + Z.max (hgt l') (hgt r), x.2), r. split; [done|]. left. cbn. lia.
  - destruct (IHr Hr) as [Hr' G]. set (r' := av_insert r n w) in *. clearbody r'.
    destruct (Z.leb_spec (hgt l - hgt r') (-2)) as [Hbal|Hbal].
    + destruct G as [G|[G [->|(rl & b & y & rr & -> & Hg)]]]; [lia|cbn in *; lia|]. cbn [root_cmp hgt] in *.
      destruct Hg as [[Hy Hg]|[Hy Hg]].
      * rewrite (proj2 (Z.ltb_ge _ 0)) by lia. destruct (avl_rot_dr l a x rl b y rr) as (A & Eh); [done|done|lia|lia|].
        rewrite avl_fix by done. split; [done|]. left. rewrite Eh. cbn [hgt]. lia.
      * rewrite (proj2 (Z.ltb_lt _ 0)) by lia. destruct (avl_rot_sr l a x rl b y rr) as (A & _ & Eh); [done|done|lia|lia|].
        rewrite avl_fix by done. split; [done|]. left. rewrite Eh by lia. cbn [hgt]. lia.
    + cbn [fix_h]. assert (hgt r' = hgt r \/ hgt r' = hgt r + 1) as G' by (destruct G as [?|[? _]]; auto).
      split; [by apply avl_mkb; [| |lia]|]. unfold grown. cbn [hgt mkb fst]. rewrite E.
      destruct (Z.eq_dec (hgt r') (hgt l + 1)) as [Eg|]; [|left; lia]. destruct G' as [G'|G']; [left; lia|right].
      split; [lia|]. right. exists l, a, (1 + Z.max (hgt l) (hgt r'), x.2), r'. split; [done|]. right. cbn. lia.
Qed.
End Insertion.

(** ** The operations on the heap *)

Section Heap.
Context {W : Type} `{Comparator W}.
Implicit Types (h : avl_heap W) (t l r : htree W).

Lemma height_ok h t : tree_at h t -> AvlTree_height h (ptr t) = Ret (hgt t).
Proof.
  intros Ht. unfold AvlTree_height. rewrite (ptr_test h) by done. destruct t as [|l a x r]; [done|].
  destruct Ht as (_ & Ha & _). cbn [ptr]. by rewrite (node_of_ok _ _ _ Ha).
Qed.
Lemma lean_ok h l a x r : tree_at h (BN l a x r) -> lean h a = Ret (hgt l - hgt r).
Proof.
  intros (_ & Ha & Hl & Hr). unfold lean. rewrite (node_of_ok _ _ _ Ha). mred. cbn [tn_l tn_r].
  by rewrite !height_ok.
Qed.
Lemma avl_compare_ok h n c v u : h !! n = Some v -> h !! c = Some u ->
  avl_compare h n c = Ret (doCompare (tn_v v).2 (tn_v u).2).
Proof. intros En Ec. unfold avl_compare. by rewrite (node_of_ok _ _ _ En), (node_of_ok _ _ _ Ec). Qed.

Lemma set_value h l a x y r : tree_at h (BN l a x r) -> NoDup (addrs (BN l a x r)) ->
  tree_at (<[a := mkTN (ptr l) (ptr r) y]> h) (BN l a y r).
Proof. intros (H0 & Ha & Hl & Hr) (_ & _ & Al & Ar & _)%NoDup_BN. by apply tree_at_BN. Qed.

Lemma computeHeight_ok h l a x r : tree_at h (BN l a x r) -> NoDup (addrs (BN l a x r)) ->
  exists h', computeHeight h a = Ret h' /\ tree_at h' (mkb l a x.2 r) /\ forall c, c <> a -> h' !! c = h !! c.
Proof.
  intros Ht N. pose proof Ht as (_ & Ha & Hl & Hr). unfold computeHeight. rewrite (node_of_ok _ _ _ Ha). mred. cbn [tn_l tn_r].
  rewrite !height_ok by done. mred. unfold set_height. rewrite (node_of_ok _ _ _ Ha). mred. eexists. split; [done|]. split.
  - cbn [tn_l tn_r tn_v]. replace (if hgt r <? hgt l then hgt l + 1 else hgt r + 1) with (1 + Z.max (hgt l) (hgt r))
      by (destruct (Z.ltb_spec (hgt r) (hgt l)); lia). by apply (set_value h l a x).
  - intros c Hc. by apply lookup_insert_ne.
Qed.

(** A child is replaced by a tree made of other nodes than the rest. *)
Lemma put_left h h1 l l' a x r : tree_at h (BN l a x r) -> NoDup (addrs (BN l a x r)) -> tree_at h1 l' ->
  (forall c, c = a \/ c ∈ addrs r -> h1 !! c = h !! c /\ ~ (c ∈ addrs l')) ->
  exists h2, insertLeft h1 a (ptr l') = Ret h2 /\ tree_at h2 (BN l' a x r) /\ forall c, c <> a -> h2 !! c = h1 !! c.
Proof.
  intros (H0 & Ha & Hl & Hr) (_ & _ & Al & Ar & _)%NoDup_BN Hl' Hc. destruct (Hc a) as [Ea Al']; [by left|].
  rewrite Ha in Ea. rewrite (insertLeft_ok _ _ _ _ _ _ Ea). eexists. split; [done|]. split.
  - apply tree_at_BN; [done|done| |done|done]. eapply tree_at_same; [done|]. intros b Hb. apply Hc. by right.
  - intros c Hca. by apply lookup_insert_ne.
Qed.
Lemma put_right h h1 l r r' a x : tree_at h (BN l a x r) -> NoDup (addrs (BN l a x r)) -> tree_at h1 r' ->
  (forall c, c = a \/ c ∈ addrs l -> h1 !! c = h !! c /\ ~ (c ∈ addrs r')) ->
  exists h2, insertRight h1 a (ptr r') = Ret h2 /\ tree_at h2 (BN l a x r') /\ forall c, c <> a -> h2 !! c = h1 !! c.
Proof.
  intros (H0 & Ha & Hl & Hr) (_ & _ & Al & Ar & _)%NoDup_BN Hr' Hc. destruct (Hc a) as [Ea Ar']; [by left|].
  rewrite Ha in Ea. rewrite (insertRight_ok _ _ _ _ _ _ Ea). eexists. split; [done|]. split.
  - apply tree_at_BN; [done| |done|done|done]. eapply tree_at_same; [done|]. intros b Hb. apply Hc. by right.
  - intros c Hca. by apply lookup_insert_ne.
Qed.

(** What an operation does on the tree [t], of root [a]: it gives [t'] and changes the
    nodes of [t] only. *)
Definition does h t t' (q : Z * avl_heap W) : Prop :=
  q.1 = ptr t' /\ tree_at q.2 t' /\ forall c, ~ (c ∈ addrs t) -> q.2 !! c = h !! c.

Lemma rotateSingleLeft_ok h ll b y lr a x r : let t := BN (BN ll b y lr) a x r in
  tree_at h t -> NoDup (addrs t) -> exists q, rotateSingleLeft h a = Ret q /\ does h t (rot_sl t) q.
Proof.
  intros t Ht N. pose proof Ht as (H0 & Ha & (H1 & Hb & Hll & Hlr) & Hr).
  pose proof (NoDup_BN _ _ _ _ N) as (Nl & Nr & Al & Ar & D). pose proof (NoDup_BN _ _ _ _ Nl) as (Nll & Nlr & Bl & Br & D').
  rewrite elem_addrs in Al. assert (b <> a) as Hba by (intros ->; apply Al; auto).
  assert (~ (b ∈ addrs r)) as Hbr by (apply D, elem_addrs; auto).
  unfold rotateSingleLeft. rewrite (proj2 (Z.eqb_neq a 0)) by done. mred. rewrite (node_of_ok _ _ _ Ha). mred. cbn [tn_l ptr].
  rewrite (node_of_ok _ _ _ Hb). mred. cbn [tn_r]. rewrite (insertLeft_ok _ _ _ _ _ _ Ha). mred.
  set (h1 := <[a := mkTN (ptr lr) (ptr r) x]> h). assert (h1 !! b = Some (mkTN (ptr ll) (ptr lr) y)) as Hb1 by (unfold h1; by rewrite lookup_insert_ne by congruence).
  rewrite (insertRight_ok _ _ _ _ _ _ Hb1). mred. set (h2 := <[b := mkTN (ptr ll) a y]> h1).
  assert (tree_at h2 (BN lr a x r)) as T2.
  { apply tree_at_insert; [|rewrite elem_addrs; naive_solver]. apply tree_at_BN; [done..| |done]. naive_solver. }
  assert (NoDup (addrs (BN lr a x r))) as N2.
  { unfold t in N. rewrite !addrs_BN, <- app_assoc in N. apply NoDup_app in N as (_ & _ & [_ N]%NoDup_cons). by rewrite addrs_BN. }
  destruct (computeHeight_ok h2 lr a x r T2 N2) as (h3 & -> & T3 & F3). mred.
  assert (tree_at h3 (BN ll b y (mkb lr a x.2 r))) as T4.
  { split_and!; [done| | |done].
    - rewrite F3 by done. unfold h2. by rewrite lookup_insert_eq.
    - eapply (tree_at_same h); [done|]. intros c Hc. assert (c <> a) by (intros ->; apply Al; auto).
      rewrite F3 by done. unfold h2, h1. rewrite !lookup_insert_ne; [done|congruence|]. intros ->. done. }
  assert (NoDup (addrs (BN ll b y (mkb lr a x.2 r)))) as N4 by (unfold mkb; unfold t in N; rewrite !addrs_BN in *; by rewrite <- app_assoc in N).
  destruct (computeHeight_ok h3 _ _ _ _ T4 N4) as (h4 & -> & T5 & F5). mred. eexists. split; [done|]. split_and!; [done|done|].
  intros c Hc. cbn [snd]. unfold t in Hc. rewrite !elem_addrs in Hc. rewrite F5, F3 by naive_solver. unfold h2, h1.
  rewrite !lookup_insert_ne by naive_solver. done.
Qed.
Lemma rotateSingleRight_ok h l a x rl b y rr : let t := BN l a x (BN rl b y rr) in
  tree_at h t -> NoDup (addrs t) -> exists q, rotateSingleRight h a = Ret q /\ does h t (rot_sr t) q.
Proof.
  intros t Ht N. pose proof Ht as (H0 & Ha & Hl & (H1 & Hb & Hrl & Hrr)).
  pose proof (NoDup_BN _ _ _ _ N) as (Nl & Nr & Al & Ar & D). pose proof (NoDup_BN _ _ _ _ Nr) as (Nrl & Nrr & Bl & Br & D').
  rewrite elem_addrs in Ar. assert (b <> a) as Hba by (intros ->; apply Ar; auto).
  assert (~ (b ∈ addrs l)) as Hbl by (intros Hb'; apply (D b Hb'), elem_addrs; auto).
  unfold rotateSingleRight. rewrite (proj2 (Z.eqb_neq a 0)) by done. mred. rewrite (node_of_ok _ _ _ Ha). mred. cbn [tn_r ptr].
  rewrite (node_of_ok _ _ _ Hb). mred. cbn [tn_l]. rewrite (insertRight_ok _ _ _ _ _ _ Ha). mred.
  set (h1 := <[a := mkTN (ptr l) (ptr rl) x]> h). assert (h1 !! b = Some (mkTN (ptr rl) (ptr rr) y)) as Hb1 by (unfold h1; by rewrite lookup_insert_ne by congruence).
  rewrite (insertLeft_ok _ _ _ _ _ _ Hb1). mred. set (h2 := <[b := mkTN a (ptr rr) y]> h1).
  assert (tree_at h2 (BN l a x rl)) as T2.
  { apply tree_at_insert; [|rewrite elem_addrs; naive_solver]. apply tree_at_BN; [done..|]. naive_solver. }
  assert (NoDup (addrs (BN l a x rl))) as N2.
  { unfold t in N. rewrite !addrs_BN, app_comm_cons, app_assoc in N. apply NoDup_app in N as (N & _ & _). by rewrite addrs_BN. }
  destruct (computeHeight_ok h2 l a x rl T2 N2) as (h3 & -> & T3 & F3). mred.
  assert (tree_at h3 (BN (mkb l a x.2 rl) b y rr)) as T4.
  { split_and!; [done| |done|].
    - rewrite F3 by done. unfold h2. by rewrite lookup_insert_eq.
    - eapply (tree_at_same h); [done|]. intros c Hc. assert (c <> a) by (intros ->; apply Ar; auto).
      rewrite F3 by done. unfold h2, h1. rewrite !lookup_insert_ne; [done|congruence|]. intros ->. done. }
  assert (NoDup (addrs (BN (mkb l a x.2 rl) b y rr))) as N4.
  { unfold mkb; unfold t in N; rewrite !addrs_BN in *. by rewrite <- app_assoc. }
  destruct (computeHeight_ok h3 _ _ _ _ T4 N4) as (h4 & -> & T5 & F5). mred. eexists. split; [done|]. split_and!; [done|done|].
  intros c Hc. cbn [snd]. unfold t in Hc. rewrite !elem_addrs in Hc. rewrite F5, F3 by naive_solver. unfold h2, h1.
  rewrite !lookup_insert_ne by naive_solver. done.
Qed.

Lemma addrs_rot t : addrs (rot_sl t) = addrs t /\ addrs (rot_sr t) = addrs t /\ addrs (rot_dl t) = addrs t /\ addrs (rot_dr t) = addrs t.
Proof. rewrite !addrs_items. by rewrite items_rot_sl, items_rot_sr, items_rot_dl, items_rot_dr. Qed.

(** An operation on a child, then the child put back. *)
Lemma put_left_does h l l' a x r q : tree_at h (BN l a x r) -> NoDup (addrs (BN l a x r)) -> does h l l' q ->
  (forall c, c ∈ addrs l' -> c ∈ addrs l) ->
  exists h2, insertLeft q.2 a q.1 = Ret h2 /\ tree_at h2 (BN l' a x r) /\ forall c, ~ (c ∈ addrs (BN l a x r)) -> h2 !! c = h !! c.
Proof.
  intros Ht N (-> & Hl' & F) Hsub. pose proof (NoDup_BN _ _ _ _ N) as (_ & _ & Al & _ & D).
  destruct (put_left h q.2 l l' a x r Ht N Hl') as (h2 & E & T & F2).
  - intros c Hc. assert (~ (c ∈ addrs l)) as Hcl by (destruct Hc as [->|Hc]; [done|intros Hc'; by apply (D c)]).
    split; [by apply F|]. intros Hc'. by apply Hcl, Hsub.
  - exists h2. split; [done|]. split; [done|]. intros c Hc. rewrite elem_addrs in Hc. rewrite F2, F; naive_solver.
Qed.
Lemma put_right_does h l r r' a x q : tree_at h (BN l a x r) -> NoDup (addrs (BN l a x r)) -> does h r r' q ->
  (forall c, c ∈ addrs r' -> c ∈ addrs r) ->
  exists h2, insertRight q.2 a q.1 = Ret h2 /\ tree_at h2 (BN l a x r') /\ forall c, ~ (c ∈ addrs (BN l a x r)) -> h2 !! c = h !! c.
Proof.
  intros Ht N (-> & Hr' & F) Hsub. pose proof (NoDup_BN _ _ _ _ N) as (_ & _ & _ & Ar & D).
  destruct (put_right h q.2 l r r' a x Ht N Hr') as (h2 & E & T & F2).
  - intros c Hc. assert (~ (c ∈ addrs r)) as Hcr by (destruct Hc as [->|Hc]; [done|by apply D]).
    split; [by apply F|]. intros Hc'. by apply Hcr, Hsub.
  - exists h2. split; [done|]. split; [done|]. intros c Hc. rewrite elem_addrs in Hc. rewrite F2, F; naive_solver.
Qed.

Lemma rotateDoubleLeft_ok h ll b y lrl c z lrr a x r : let t := BN (BN ll b y (BN lrl c z lrr)) a x r in
  tree_at h t -> NoDup (addrs t) -> exists q, rotateDoubleLeft h a = Ret q /\ does h t (rot_dl t) q.
Proof.
  intros t Ht N. pose proof Ht as (H0 & Ha & Hl & Hr). pose proof (NoDup_BN _ _ _ _ N) as (Nl & _).
  destruct (rotateSingleRight_ok h ll b y lrl c z lrr Hl Nl) as (q & Eq & Hq).
  unfold rotateDoubleLeft. rewrite (node_of_ok _ _ _ Ha). mred. cbn [tn_l ptr]. rewrite Eq. mred.
  set (l := BN ll b y (BN lrl c z lrr)) in *. assert (addrs (rot_sr l) = addrs l) as El by apply addrs_rot.
  destruct (put_left_does h l (rot_sr l) a x r q Ht N Hq) as (h2 & -> & T2 & F2); [intros d; by rewrite El|]. mred.
  destruct (rotateSingleLeft_ok h2 (mkb ll b y.2 lrl) c (1 + Z.max (hgt (mkb ll b y.2 lrl)) (hgt lrr), z.2) lrr a x r T2) as (q' & Eq' & D1 & D2 & D3).
  { change (NoDup (addrs (BN (rot_sr l) a x r))). rewrite addrs_BN, El. by rewrite <- (addrs_BN l a x r). }
  exists q'. split; [done|]. split_and!; [done|done|]. intros d Hd. rewrite D3; [by apply F2|].
  change (~ (d ∈ addrs (BN (rot_sr l) a x r))). rewrite addrs_BN, El. by rewrite <- (addrs_BN l a x r).
Qed.
Lemma rotateDoubleRight_ok h l a x rll c z rlr b y rr : let t := BN l a x (BN (BN rll c z rlr) b y rr) in
  tree_at h t -> NoDup (addrs t) -> exists q, rotateDoubleRight h a = Ret q /\ does h t (rot_dr t) q.
Proof.
  intros t Ht N. pose proof Ht as (H0 & Ha & Hl & Hr). pose proof (NoDup_BN _ _ _ _ N) as (_ & Nr & _).
  destruct (rotateSingleLeft_ok h rll c z rlr b y rr Hr Nr) as (q & Eq & Hq).
  unfold rotateDoubleRight. rewrite (node_of_ok _ _ _ Ha). mred. cbn [tn_r ptr]. rewrite Eq. mred.
  set (r := BN (BN rll c z rlr) b y rr) in *. assert (addrs (rot_sl r) = addrs r) as Er by apply addrs_rot.
  destruct (put_right_does h l r (rot_sl r) a x q Ht N Hq) as (h2 & -> & T2 & F2); [intros d; by rewrite Er|]. mred.
  destruct (rotateSingleRight_ok h2 l a x rll c (1 + Z.max (hgt rll) (hgt (mkb rlr b y.2 rr)), z.2) (mkb rlr b y.2 rr) T2) as (q' & Eq' & D1 & D2 & D3).
  { change (NoDup (addrs (BN l a x (rot_sl r)))). rewrite addrs_BN, Er. by rewrite <- (addrs_BN l a x r). }
  exists q'. split; [done|]. split_and!; [done|done|]. intros d Hd. rewrite D3; [by apply F2|].
  change (~ (d ∈ addrs (BN l a x (rot_sl r)))). rewrite addrs_BN, Er. by rewrite <- (addrs_BN l a x r).
Qed.

(** The end of the functions: the height of the root, then the check of the balance. *)
Lemma finish_ok h t : t <> BL -> tree_at h t -> NoDup (addrs t) -> avl (fix_h t) ->
  exists h', computeHeight h (ptr t) = Ret h' /\ assert_balanced h' (ptr t) = Ret tt /\ tree_at h' (fix_h t) /\
    forall c, c <> ptr t -> h' !! c = h !! c.
Proof.
  destruct t as [|l a x r]; [done|]. intros _ Ht N (_ & Hb & _). cbn [ptr].
  destruct (computeHeight_ok h l a x r Ht N) as (h' & E & T & F). exists h'. split_and!; [done| |done|done].
  unfold assert_balanced. rewrite (lean_ok _ _ _ _ _ T). mred. by rewrite (proj2 (Z.ltb_lt _ _)).
Qed.

(** The value of a node. *)
Definition holds h (n : Z) (w : W) : Prop := exists m, h !! n = Some m /\ (tn_v m).2 = w.
Lemma items_hold h t n w : tree_at h t -> (n, w) ∈ items t -> holds h n w.
Proof.
  induction t as [|l IHl a x r IHr]; [by intros _ ?%elem_of_nil|]. intros (H0 & Ha & Hl & Hr).
  rewrite items_BN, elem_of_app, elem_of_cons. intros [?|[[= -> ->]|?]]; [by apply IHl| |by apply IHr]. by eexists.
Qed.
Lemma hold_items h t n w : tree_at h t -> n ∈ addrs t -> holds h n w -> (n, w) ∈ items t.
Proof.
  intros Ht Hn (m & Em & Ew). induction t as [|l IHl a x r IHr]; [by apply elem_of_nil in Hn|]. destruct Ht as (H0 & Ha & Hl & Hr).
  rewrite items_BN, elem_of_app, elem_of_cons. rewrite elem_addrs in Hn. destruct Hn as [?|[->|?]]; [left; by apply IHl| |right; right; by apply IHr].
  right. left. rewrite Ha in Em. injection Em as <-. by rewrite <- Ew.
Qed.
Lemma holds_kept h h' t t' n w : tree_at h t -> tree_at h' t' -> items t' = items t -> (forall c, ~ (c ∈ addrs t) -> h' !! c = h !! c) ->
  holds h n w -> holds h' n w.
Proof.
  intros Ht Ht' E F Hn. destruct (decide (n ∈ addrs t)) as [Hin|Hin].
  - apply (items_hold h' t'); [done|]. rewrite E. by apply (hold_items h).
  - destruct Hn as (m & Em & Ew). exists m. by rewrite F.
Qed.

Lemma ptr_fix t : ptr (fix_h t) = ptr t.
Proof. by destruct t. Qed.
Lemma tail_ok h t t' q : tree_at h t -> NoDup (addrs t) -> does h t t' q -> items t' = items t -> t' <> BL -> avl (fix_h t') ->
  exists h', computeHeight q.2 q.1 = Ret h' /\ assert_balanced h' q.1 = Ret tt /\ does h t (fix_h t') (q.1, h') /\
    forall n w, holds h n w -> holds h' n w.
Proof.
  intros Ht N (-> & T & F) Ei Hne Ha. assert (addrs t' = addrs t) as Ea by (by rewrite !addrs_items, Ei).
  destruct (finish_ok q.2 t' Hne T) as (h' & E1 & E2 & T' & F'); [by rewrite Ea|done|]. exists h'.
  assert (forall c, ~ (c ∈ addrs t) -> h' !! c = h !! c) as F2.
  { intros c Hc. rewrite F'; [by apply F|]. intros ->. apply Hc. rewrite <- Ea. by apply ptr_in. }
  split_and!; [done|done| |].
  - split_and!; [by rewrite ptr_fix|done|done].
  - intros n w. apply (holds_kept h h' t (fix_h t')); [done|done|by rewrite items_fix|done].
Qed.
Lemma does_nothing h t : tree_at h t -> does h t t (ptr t, h).
Proof. done. Qed.
End Heap.

Section InsertHeap.
Context {W : Type} `{KeyOrder W}.
Implicit Types (h : avl_heap W) (t l r : htree W).

Lemma items_insert_perm t n w : items (av_insert t n w) ≡ₚ items t \/ items (av_insert t n w) ≡ₚ (n, w) :: items t.
Proof.
  induction t as [|l IHl a x r IHr]; [by right|]. cbn [av_insert]. destruct (_ =? 0); [by left|].
  destruct (0 <? _); rewrite items_fix.
  - assert (forall b c : bool, items (if b then if c then rot_sl (BN (av_insert l n w) a x r) else rot_dl (BN (av_insert l n w) a x r)
      else BN (av_insert l n w) a x r) = items (av_insert l n w) ++ (a, x.2) :: items r) as ->.
    { intros [] []; rewrite ?items_rot_sl, ?items_rot_dl; apply items_BN. }
    rewrite !items_BN. destruct IHl as [->| ->]; [by left|by right].
  - assert (forall b c : bool, items (if b then if c then rot_sr (BN l a x (av_insert r n w)) else rot_dr (BN l a x (av_insert r n w))
      else BN l a x (av_insert r n w)) = items l ++ (a, x.2) :: items (av_insert r n w)) as ->.
    { intros [] []; rewrite ?items_rot_sr, ?items_rot_dr; apply items_BN. }
    rewrite !items_BN. destruct IHr as [->| ->]; [by left|right]. rewrite (perm_swap (n, w)). by rewrite <- Permutation_middle.
Qed.
Lemma addrs_insert t n w c : c ∈ addrs (av_insert t n w) -> c = n \/ c ∈ addrs t.
Proof. rewrite !addrs_items. destruct (items_insert_perm t n w) as [->| ->]; [by right|]. cbn. by rewrite elem_of_cons. Qed.
Lemma NoDup_insert t n w : NoDup (addrs t) -> ~ (n ∈ addrs t) -> NoDup (addrs (av_insert t n w)).
Proof. rewrite !addrs_items. intros N Hn. destruct (items_insert_perm t n w) as [->| ->]; [done|]. by apply NoDup_cons. Qed.

(** The rotation of a tree whose child has grown. *)
Lemma left_rotations h l a x r n w : let t := BN l a x r in tree_at h t -> NoDup (addrs t) -> l <> BL -> holds h n w ->
  (root_cmp l w <= 0 -> exists ll b y lrl c z lrr, l = BN ll b y (BN lrl c z lrr)) ->
  exists res q, avl_compare h (ptr l) n = Ret res /\ (if 0 <? res then rotateSingleLeft h a else rotateDoubleLeft h a) = Ret q /\
    does h t (if 0 <? root_cmp l w then rot_sl t else rot_dl t) q.
Proof.
  intros t Ht N Hl (m & Em & <-) Hin. destruct l as [|ll b y lr]; [done|].
  pose proof Ht as (_ & _ & (_ & Hb & _) & _). exists (doCompare y.2 (tn_v m).2). cbn [ptr root_cmp] in *.
  rewrite (avl_compare_ok _ _ _ _ _ Hb Em). cbn [tn_v]. destruct (Z.ltb_spec 0 (doCompare y.2 (tn_v m).2)) as [Hc|Hc].
  - destruct (rotateSingleLeft_ok h ll b y lr a x r Ht N) as (q & Eq & Hq). by exists q.
  - destruct (Hin Hc) as (ll' & b' & y' & lrl & c & z & lrr & [= -> -> -> ->]).
    destruct (rotateDoubleLeft_ok h ll' b' y' lrl c z lrr a x r Ht N) as (q & Eq & Hq). by exists q.
Qed.
Lemma right_rotations h l a x r n w : let t := BN l a x r in tree_at h t -> NoDup (addrs t) -> r <> BL -> holds h n w ->
  (0 <= root_cmp r w -> exists rll c z rlr b y rr, r = BN (BN rll c z rlr) b y rr) ->
  exists res q, avl_compare h (ptr r) n = Ret res /\ (if res <? 0 then rotateSingleRight h a else rotateDoubleRight h a) = Ret q /\
    does h t (if root_cmp r w <? 0 then rot_sr t else rot_dr t) q.
Proof.
  intros t Ht N Hr (m & Em & <-) Hin. destruct r as [|rl b y rr]; [done|].
  pose proof Ht as (_ & _ & _ & (_ & Hb & _)). exists (doCompare y.2 (tn_v m).2). cbn [ptr root_cmp] in *.
  rewrite (avl_compare_ok _ _ _ _ _ Hb Em). cbn [tn_v]. destruct (Z.ltb_spec (doCompare y.2 (tn_v m).2) 0) as [Hc|Hc].
  - destruct (rotateSingleRight_ok h l a x rl b y rr Ht N) as (q & Eq & Hq). by exists q.
  - destruct (Hin Hc) as (rll & c & z & rlr & b' & y' & rr' & [= -> -> -> ->]).
    destruct (rotateDoubleRight_ok h l a x rll c z rlr b' y' rr' Ht N) as (q & Eq & Hq). by exists q.
Qed.

(** A child that needs a rotation has grown, so has a child itself on its side. *)
Lemma grown_left l l' r w : avl l -> avl l' -> avl r -> grown l l' w -> 2 <= hgt l' - hgt r -> hgt l - hgt r < 2 ->
  l' <> BL /\ (root_cmp l' w <= 0 -> exists ll b y lrl c z lrr, l' = BN ll b y (BN lrl c z lrr)).
Proof.
  intros Hl Hl' Hr G Hh Hb. pose proof (hgt_nonneg r Hr). destruct G as [G|[G [->|(ll & b & y & lr & -> & Hg)]]]; [lia|cbn in *; lia|].
  split; [done|]. cbn [root_cmp]. intros Hc. destruct Hl' as (_ & _ & Hll & Hlr). pose proof (hgt_nonneg ll Hll).
  destruct lr as [|lrl c z lrr]; [cbn in Hg; lia|]. by exists ll, b, y, lrl, c, z, lrr.
Qed.
Lemma grown_right l r r' w : avl r -> avl r' -> avl l -> grown r r' w -> hgt l - hgt r' <= -2 -> -2 < hgt l - hgt r ->
  r' <> BL /\ (0 <= root_cmp r' w -> exists rll c z rlr b y rr, r' = BN (BN rll c z rlr) b y rr).
Proof.
  intros Hr Hr' Hl G Hh Hb. pose proof (hgt_nonneg l Hl). destruct G as [G|[G [->|(rl & b & y & rr & -> & Hg)]]]; [lia|cbn in *; lia|].
  split; [done|]. cbn [root_cmp]. intros Hc. destruct Hr' as (_ & _ & Hrl & Hrr). pose proof (hgt_nonneg rr Hrr).
  destruct rl as [|rll c z rlr]; [cbn in Hg; lia|]. by exists rll, c, z, rlr, b, y, rr.
Qed.

(** What [insert] gives: the nodes of the tree and the new one change only. *)
Definition inserted h t n w (q : Z * avl_heap W) : Prop :=
  q.1 = ptr (av_insert t n w) /\ tree_at q.2 (av_insert t n w) /\ holds q.2 n w /\
  forall c, ~ (c ∈ addrs t) -> c <> n -> q.2 !! c = h !! c.

Lemma insert_left_case h l a x r n w q : let t := BN l a x r in let l' := av_insert l n w in
  avl t -> tree_at h t -> NoDup (addrs t) -> ~ (n ∈ addrs t) -> 0 < doCompare x.2 w -> inserted h l n w q ->
  exists q', (h ← insertLeft q.2 a q.1; d ← lean h a;
      (if 2 <=? d then c ← node_of h a; res ← avl_compare h (tn_l c) n; if 0 <? res then rotateSingleLeft h a else rotateDoubleLeft h a
       else Ret (a, h))) = Ret q' /\
    exists h', computeHeight q'.2 q'.1 = Ret h' /\ assert_balanced h' q'.1 = Ret tt /\ inserted h t n w (q'.1, h').
Proof.
  intros t l' Ha Ht N Hn Hc (-> & T & Hh & F). pose proof (NoDup_BN _ _ _ _ N) as (Nl & Nr & Al & Ar & D).
  unfold t in Hn. rewrite elem_addrs in Hn. destruct (avl_insert_term t n w Ha) as [Ha' _]. unfold t in Ha'. unfold inserted, t.
  cbn [av_insert] in *. rewrite (proj2 (Z.eqb_neq _ 0)), (proj2 (Z.ltb_lt 0 _)) in * by lia. fold l' in T, Ha' |- *.
  destruct (put_left h q.2 l l' a x r Ht N T) as (h2 & -> & T2 & F2).
  { intros c Hc'. assert (c <> n) by (intros ->; naive_solver). split; [apply F; [|done]; naive_solver|].
    intros [?|?]%addrs_insert; naive_solver. }
  mred. rewrite (lean_ok _ _ _ _ _ T2). mred. assert (NoDup (addrs (BN l' a x r))) as N2.
  { rewrite addrs_BN. apply NoDup_app. split_and!; [apply NoDup_insert; naive_solver| |by apply NoDup_cons].
    intros c [->|Hc']%addrs_insert; rewrite elem_of_cons; naive_solver. }
  assert (holds h2 n w) as Hh2 by (destruct Hh as (m & Em & Ew); exists m; rewrite F2 by naive_solver; done).
  assert (forall t' q', t' <> BL -> does h2 (BN l' a x r) t' q' -> items t' = items (BN l' a x r) -> avl (fix_h t') ->
    exists h', computeHeight q'.2 q'.1 = Ret h' /\ assert_balanced h' q'.1 = Ret tt /\
      ptr (fix_h t') = q'.1 /\ tree_at h' (fix_h t') /\ holds h' n w /\ forall c, ~ (c ∈ addrs t) -> c <> n -> h' !! c = h !! c) as Htail.
  { intros t' q' Hne Hq' Ei Hav. destruct (tail_ok h2 _ t' q' T2 N2 Hq' Ei Hne Hav) as (h' & E1 & E2 & (D1 & D2 & D3) & Hk).
    cbn [fst snd] in *. exists h'. split_and!; [done..|by apply Hk|]. intros c Hc1 Hc2. unfold t in Hc1; rewrite elem_addrs in Hc1.
    rewrite (D3 c), F2, F; [done|naive_solver..|]. rewrite elem_addrs. intros [[?|?]%addrs_insert|?]; naive_solver. }
  destruct Ha as (_ & Hb & Hl & Hr). destruct (avl_insert_term l n w Hl) as [Hl' G]. fold l' in Hl', G.
  revert Ha'. destruct (Z.leb_spec 2 (hgt l' - hgt r)) as [Hbal|Hbal]; intros Ha'.
  - destruct (grown_left l l' r w Hl Hl' Hr G) as [Hne Hin]; [lia|lia|].
    destruct (left_rotations h2 l' a x r n w T2 N2 Hne Hh2 Hin) as (res & q' & E1 & E2 & Hq').
    pose proof T2 as (_ & Ea & _). rewrite (node_of_ok _ _ _ Ea). mred. cbn [tn_l]. rewrite E1. mred. rewrite E2.
    exists q'. split; [done|]. destruct (Htail (if 0 <? root_cmp l' w then rot_sl (BN l' a x r) else rot_dl (BN l' a x r)) q') as (h' & ? & ? & ? & ? & ? & ?); [|exact Hq'| |exact Ha'|].
    + destruct l' as [|ll b y lr]; [done|]. destruct (0 <? _); [done|]. destruct lr; done.
    + destruct (0 <? _); [apply items_rot_sl|apply items_rot_dl].
    + exists h'. split_and!; done.
  - exists (a, h2). split; [done|]. destruct (Htail (BN l' a x r) (a, h2)) as (h' & ? & ? & ? & ? & ? & ?); [done|by apply (does_nothing h2)|done|exact Ha'|].
    exists h'. split_and!; done.
Qed.

Lemma insert_right_case h l a x r n w q : let t := BN l a x r in let r' := av_insert r n w in
  avl t -> tree_at h t -> NoDup (addrs t) -> ~ (n ∈ addrs t) -> doCompare x.2 w < 0 -> inserted h r n w q ->
  exists q', (h ← insertRight q.2 a q.1; d ← lean h a;
      (if d <=? -2 then c ← node_of h a; res ← avl_compare h (tn_r c) n; if res <? 0 then rotateSingleRight h a else rotateDoubleRight h a
       else Ret (a, h))) = Ret q' /\
    exists h', computeHeight q'.2 q'.1 = Ret h' /\ assert_balanced h' q'.1 = Ret tt /\ inserted h t n w (q'.1, h').
Proof.
  intros t r' Ha Ht N Hn Hc (-> & T & Hh & F). pose proof (NoDup_BN _ _ _ _ N) as (Nl & Nr & Al & Ar & D).
  unfold t in Hn. rewrite elem_addrs in Hn. destruct (avl_insert_term t n w Ha) as [Ha' _]. unfold t in Ha'. unfold inserted, t.
  cbn [av_insert] in *. rewrite (proj2 (Z.eqb_neq _ 0)), (proj2 (Z.ltb_ge 0 _)) in * by lia. fold r' in T, Ha' |- *.
  destruct (put_right h q.2 l r r' a x Ht N T) as (h2 & -> & T2 & F2).
  { intros c Hc'. assert (c <> n) by (intros ->; naive_solver). split; [apply F; [|done]; naive_solver|].
    intros [?|?]%addrs_insert; naive_solver. }
  mred. rewrite (lean_ok _ _ _ _ _ T2). mred. assert (NoDup (addrs (BN l a x r'))) as N2.
  { rewrite addrs_BN. apply NoDup_app. split_and!; [done| |apply NoDup_cons; split; [|apply NoDup_insert; naive_solver]].
    - intros c Hc' [->|[->|?]%addrs_insert]%elem_of_cons; naive_solver.
    - intros [?|?]%addrs_insert; naive_solver. }
  assert (holds h2 n w) as Hh2 by (destruct Hh as (m & Em & Ew); exists m; rewrite F2 by naive_solver; done).
  assert (forall t' q', t' <> BL -> does h2 (BN l a x r') t' q' -> items t' = items (BN l a x r') -> avl (fix_h t') ->
    exists h', computeHeight q'.2 q'.1 = Ret h' /\ assert_balanced h' q'.1 = Ret tt /\
      ptr (fix_h t') = q'.1 /\ tree_at h' (fix_h t') /\ holds h' n w /\ forall c, ~ (c ∈ addrs t) -> c <> n -> h' !! c = h !! c) as Htail.
  { intros t' q' Hne Hq' Ei Hav. destruct (tail_ok h2 _ t' q' T2 N2 Hq' Ei Hne Hav) as (h' & E1 & E2 & (D1 & D2 & D3) & Hk).
    cbn [fst snd] in *. exists h'. split_and!; [done..|by apply Hk|]. intros c Hc1 Hc2. unfold t in Hc1; rewrite elem_addrs in Hc1.
    rewrite (D3 c), F2, F; [done|naive_solver..|]. rewrite elem_addrs. intros [?|[?|[?|?]%addrs_insert]]; naive_solver. }
  destruct Ha as (_ & Hb & Hl & Hr). destruct (avl_insert_term r n w Hr) as [Hr' G]. fold r' in Hr', G.
  revert Ha'. destruct (Z.leb_spec (hgt l - hgt r') (-2)) as [Hbal|Hbal]; intros Ha'.
  - destruct (grown_right l r r' w Hr Hr' Hl G) as [Hne Hin]; [lia|lia|].
    destruct (right_rotations h2 l a x r' n w T2 N2 Hne Hh2 Hin) as (res & q' & E1 & E2 & Hq').
    pose proof T2 as (_ & Ea & _). rewrite (node_of_ok _ _ _ Ea). mred. cbn [tn_r]. rewrite E1. mred. rewrite E2.
    exists q'. split; [done|]. destruct (Htail (if root_cmp r' w <? 0 then rot_sr (BN l a x r') else rot_dr (BN l a x r')) q') as (h' & ? & ? & ? & ? & ? & ?); [|exact Hq'| |exact Ha'|].
    + destruct r' as [|rl b y rr]; [done|]. destruct (_ <? 0); [done|]. destruct rl; done.
    + destruct (_ <? 0); [apply items_rot_sr|apply items_rot_dr].
    + exists h'. split_and!; done.
  - exists (a, h2). split; [done|]. destruct (Htail (BN l a x r') (a, h2)) as (h' & ? & ? & ? & ? & ? & ?); [done|by apply (does_nothing h2)|done|exact Ha'|].
    exists h'. split_and!; done.
Qed.

Lemma avl_insert_ok t n w : forall fuel h, avl t -> tree_at h t -> NoDup (addrs t) -> n <> 0 -> ~ (n ∈ addrs t) ->
  h !! n = Some (AvlNode_make w) -> (length (addrs t) < fuel)%nat ->
  exists q, avl_insert fuel h (ptr t) n = Ret q /\ inserted h t n w q.
Proof.
  induction t as [|l IHl a x r IHr]; intros fuel h Ha Ht N Hn0 Hn En Hf; (destruct fuel as [|fuel]; [lia|]); cbn [avl_insert].
  { rewrite (proj2 (Z.eqb_neq n 0)) by done. mred. cbn [ptr Z.eqb]. unfold set_height. rewrite (node_of_ok _ _ _ En). mred.
    eexists. split; [done|]. split_and!; [done|..].
    - split_and!; [done|apply lookup_insert_eq|done|done].
    - eexists. cbn [snd]. rewrite lookup_insert_eq. done.
    - intros c _ Hc. by apply lookup_insert_ne. }
  pose proof Ha as (_ & _ & Hal & Har). pose proof Ht as (Ha0 & Ea & Hl & Hr). pose proof (NoDup_BN _ _ _ _ N) as (Nl & Nr & Al & Ar & D).
  pose proof Hn as Hn'. rewrite elem_addrs in Hn'. rewrite addrs_BN, length_app in Hf. cbn [length] in Hf.
  rewrite (proj2 (Z.eqb_neq n 0)) by done. mred. cbn [ptr]. rewrite (proj2 (Z.eqb_neq a 0)) by done.
  rewrite (avl_compare_ok _ _ _ _ _ Ea En), (node_of_ok _ _ _ Ea). mred. cbn [tn_v tn_l tn_r snd AvlNode_make BinNode_make].
  destruct (Z.eqb_spec (doCompare x.2 w) 0) as [E|E].
  { eexists. split; [done|]. unfold inserted. cbn [av_insert]. rewrite E. cbn. split_and!; [done|done..| |done]. by eexists. }
  destruct (Z.ltb_spec 0 (doCompare x.2 w)) as [Hc|Hc].
  - destruct (IHl fuel h) as (q & -> & Hq); try done; [naive_solver|lia|]. rewrite bind_Ret.
    destruct (insert_left_case h l a x r n w q Ha Ht N Hn Hc Hq) as (q' & -> & h' & E1 & E2 & Hi). mred.
    rewrite E1. mred. rewrite E2. mred. eexists. split; [done|exact Hi].
  - destruct (IHr fuel h) as (q & -> & Hq); try done; [naive_solver|lia|]. rewrite bind_Ret.
    destruct (insert_right_case h l a x r n w q Ha Ht N Hn ltac:(lia) Hq) as (q' & -> & h' & E1 & E2 & Hi). mred.
    rewrite E1. mred. rewrite E2. mred. eexists. split; [done|exact Hi].
Qed.
End InsertHeap.

(** ** Search *)

Section Search.
Context {W : Type} `{KeyOrder W}.
Implicit Types (h : avl_heap W) (t : htree W) (w : W).

Fixpoint av_find t w : option (Z * W) :=
  match t with
  | BL => None
  | BN l a x r =>
      let c := doCompare w x.2 in
      if c =? 0 then Some (a, x.2) else if c <? 0 then av_find l w else av_find r w
  end.
(** On the list: the element that compares equal. *)
Definition set_find w (l : list (Z * W)) : option (Z * W) := bag_find snd w l.

Lemma av_find_list t w : sorted_items (items t) -> av_find t w = set_find w (items t).
Proof.
  unfold set_find. induction t as [|l IHl a x r IHr]; intros Hs; [done|]. rewrite items_BN in *.
  apply sorted_app in Hs as (Hl & Hr & Hlx & Hxr). cbn [av_find fst snd] in *.
  destruct (Z.eqb_spec (doCompare w x.2) 0) as [E|E].
  - rewrite bag_find_app; [cbn; by rewrite E|]. intros b Hb E2%key_equal. apply (key_clt_not_cle b.2 x.2); [by apply Hlx|].
    apply key_equal in E. eapply key_trans; [apply E|apply E2].
  - destruct (Z.ltb_spec (doCompare w x.2) 0) as [Hc|Hc].
    + rewrite bag_find_front; [by apply IHl|]. intros b [->|Hb]%elem_of_cons; [done|]. intros E2%key_equal.
      apply (key_clt_not_cle w x.2); [done|]. eapply key_trans; [apply key_clt_le; by apply Hxr|apply E2].
    + rewrite bag_find_app.
      * cbn [bag_find snd]. rewrite (proj2 (Z.eqb_neq _ _) E). by apply IHr.
      * intros b Hb E2%key_equal. apply (key_clt_not_cle b.2 x.2); [by apply Hlx|]. apply key_ge in Hc. eapply key_trans; [apply Hc|apply E2].
Qed.

Lemma avl_get_ok t n w : forall h fuel, tree_at h t -> holds h n w -> (length (addrs t) < fuel)%nat ->
  iter fuel (avl_get_step h n) (ptr t) = Ret (default 0 (fst <$> av_find t w)).
Proof.
  induction t as [|l IHl a x r IHr]; intros h fuel Ht Hh Hf; (destruct fuel as [|fuel]; [lia|]); [done|].
  cbn [iter ptr av_find]. destruct Ht as (H0' & Ha & Hl & Hr). pose proof Hh as (m & Em & <-).
  unfold avl_get_step at 2. rewrite (proj2 (Z.eqb_neq a 0)) by done. rewrite (avl_compare_ok _ _ _ _ _ Em Ha). mred. cbn [tn_v].
  rewrite addrs_BN, length_app in Hf. cbn [length] in Hf. destruct (_ =? 0); [done|]. rewrite (node_of_ok _ _ _ Ha). mred. cbn [tn_l tn_r].
  destruct (_ <? 0); [apply IHl|apply IHr]; (done || lia).
Qed.
End Search.

(** ** Removal on terms *)

Section Removal.
Context {W : Type} `{KeyOrder W}.
Implicit Types (t l r : htree W) (w : W).

(** The check of the balance of the root. *)
Definition balanced t : bool := match t with BL => true | BN l _ _ r => Z.abs (hgt l - hgt r) <? 2 end.

(** After a removal on the right, or on the left. *)
Definition up_sl t : htree W :=
  match t with BL => BL | BN l _ _ r => if 2 <=? hgt l - hgt r then rot_sl t else fix_h t end.
Definition up_sr t : htree W :=
  match t with BL => BL | BN l _ _ r => if hgt l - hgt r <=? -2 then rot_sr t else fix_h t end.

(** The removals fail when a check does: a single rotation is done where a double one is
    needed. *)
Fixpoint av_greatest t : outcome (htree W * (Z * W)) :=
  match t with
  | BL => Crash AssertFailed
  | BN l a x BL => Ret (l, (a, x.2))
  | BN l a x r =>
      '(r, m) ← av_greatest r;
      let t := up_sl (BN l a x r) in assertP (balanced t) ;; Ret (t, m)
  end.
Fixpoint av_least t : outcome (htree W * (Z * W)) :=
  match t with
  | BL => Crash AssertFailed
  | BN BL a x r => Ret (r, (a, x.2))
  | BN l a x r =>
      '(l, m) ← av_least l;
      let t := up_sr (BN l a x r) in assertP (balanced t) ;; Ret (t, m)
  end.
Definition av_join l r : outcome (htree W) :=
  match l, r with
  | BL, _ => Ret r
  | _, BL => Ret l
  | _, _ =>
      if hgt r <? hgt l then '(l, m) ← av_greatest l; Ret (mkb l m.1 m.2 r)
      else '(r, m) ← av_least r; Ret (mkb l m.1 m.2 r)
  end.
Fixpoint av_remove t w : outcome (htree W) :=
  match t with
  | BL => Crash OutOfBounds
  | BN l a x r =>
      let c := doCompare x.2 w in
      if c <? 0 then
        r ← av_remove r w;
        let t := up_sl (BN l a x r) in assertP (balanced t) ;; Ret t
      else if 0 <? c then
        l ← av_remove l w;
        let t := up_sr (BN l a x r) in assertP (balanced t) ;; Ret t
      else av_join l r
  end.

Lemma assertP_Ret {A} b (x y : A) : (assertP b ;; Ret x) = Ret y -> b = true /\ y = x.
Proof. destruct b; [|done]. by intros [= ->]. Qed.
Lemma assertP_pair {A B} b (x x' : A) (y y' : B) : (assertP b ;; Ret (x, y)) = Ret (x', y') -> b = true /\ x' = x /\ y' = y.
Proof. destruct b; [|done]. by intros [= -> ->]. Qed.

(** A rotation that passes the check gives a balanced tree. *)
Lemma checked_sl l a x r : avl l -> avl r -> hgt l - hgt r <= 2 ->
  let t' := up_sl (BN l a x r) in balanced t' = true ->
  -2 < hgt l - hgt r -> avl t' /\ (2 <= hgt l - hgt r -> hgt l <= hgt t' <= hgt l + 1) /\ (hgt l - hgt r < 2 -> hgt t' = 1 + Z.max (hgt l) (hgt r)).
Proof.
  intros Hl Hr Hb t'. unfold t', up_sl, up_sr. destruct (Z.leb_spec 2 (hgt l - hgt r)) as [H2|H2]; intros Hbal Hlow.
  - pose proof (hgt_nonneg r Hr). destruct l as [|ll b y lr]; [cbn in *; lia|]. pose proof Hl as (E & Hbl & Hll & Hlr).
    cbn [rot_sl balanced mkb] in Hbal. apply Z.ltb_lt in Hbal. unfold mkb in Hbal. cbn [hgt fst] in *.
    destruct (avl_rot_sl ll b y lr a x r) as (A & Eh & _); [done|done|lia|lia|]. split; [done|]. split; [intros _; exact Eh|lia].
  - split; [apply avl_mkb; (done || lia)|]. split; [lia|done].
Qed.
Lemma checked_sr l a x r : avl l -> avl r -> -2 <= hgt l - hgt r ->
  let t' := up_sr (BN l a x r) in balanced t' = true ->
  hgt l - hgt r < 2 -> avl t' /\ (hgt l - hgt r <= -2 -> hgt r <= hgt t' <= hgt r + 1) /\ (-2 < hgt l - hgt r -> hgt t' = 1 + Z.max (hgt l) (hgt r)).
Proof.
  intros Hl Hr Hb t'. unfold t', up_sl, up_sr. destruct (Z.leb_spec (hgt l - hgt r) (-2)) as [H2|H2]; intros Hbal Hlow.
  - pose proof (hgt_nonneg l Hl). destruct r as [|rl b y rr]; [cbn in *; lia|]. pose proof Hr as (E & Hbr & Hrl & Hrr).
    cbn [rot_sr balanced mkb] in Hbal. apply Z.ltb_lt in Hbal. unfold mkb in Hbal. cbn [hgt fst] in *.
    destruct (avl_rot_sr l a x rl b y rr) as (A & Eh & _); [done|done|lia|lia|]. split; [done|]. split; [intros _; exact Eh|lia].
  - split; [apply avl_mkb; (done || lia)|]. split; [lia|done].
Qed.
Lemma items_up_sl t : items (up_sl t) = items t.
Proof. destruct t; [done|]. unfold up_sl. destruct (2 <=? _); [apply items_rot_sl|apply items_fix]. Qed.
Lemma items_up_sr t : items (up_sr t) = items t.
Proof. destruct t; [done|]. unfold up_sr. destruct (_ <=? -2); [apply items_rot_sr|apply items_fix]. Qed.

Lemma av_greatest_right l a x r : r <> BL -> av_greatest (BN l a x r) =
  ('(r, m) ← av_greatest r;
   let t := up_sl (BN l a x r) in assertP (balanced t) ;; Ret (t, m)).
Proof. by destruct r. Qed.
Lemma av_least_left l a x r : l <> BL -> av_least (BN l a x r) =
  ('(l, m) ← av_least l;
   let t := up_sr (BN l a x r) in assertP (balanced t) ;; Ret (t, m)).
Proof. by destruct l. Qed.

Lemma av_greatest_spec t : forall t' m, avl t -> av_greatest t = Ret (t', m) ->
  avl t' /\ hgt t - 1 <= hgt t' <= hgt t /\ items t = items t' ++ [m].
Proof.
  induction t as [|l IHl a x r IHr]; intros t' m Ha E; [done|]. destruct Ha as (Eh & Hb & Hl & Hr). cbn [hgt].
  destruct (decide (r = BL)) as [->|Hr0].
  { injection E as <- <-. rewrite items_BN. split; [done|]. split; [|done]. pose proof (hgt_nonneg l Hl). cbn in *. lia. }
  rewrite av_greatest_right in E by done. destruct (av_greatest r) as [[r' m']|] eqn:Er; [|done]. rewrite bind_Ret in E. cbv zeta in E.
  destruct (IHr r' m' Hr eq_refl) as (Hr' & Hh & Ei). apply assertP_pair in E as (Hbal & -> & ->).
  destruct (checked_sl l a x r' Hl Hr') with (2 := Hbal) as (A & E1 & E2); [lia|lia|].
  split; [done|]. split; [|rewrite items_up_sl, !items_BN, Ei; by app_norm].
  destruct (Z.le_gt_cases 2 (hgt l - hgt r')) as [H2|H2]; [specialize (E1 H2); lia|rewrite E2 by lia; lia].
Qed.
Lemma av_least_spec t : forall t' m, avl t -> av_least t = Ret (t', m) ->
  avl t' /\ hgt t - 1 <= hgt t' <= hgt t /\ items t = m :: items t'.
Proof.
  induction t as [|l IHl a x r IHr]; intros t' m Ha E; [done|]. destruct Ha as (Eh & Hb & Hl & Hr). cbn [hgt].
  destruct (decide (l = BL)) as [->|Hl0].
  { injection E as <- <-. rewrite items_BN. split; [done|]. split; [|done]. pose proof (hgt_nonneg r Hr). cbn in *. lia. }
  rewrite av_least_left in E by done. destruct (av_least l) as [[l' m']|] eqn:El; [|done]. rewrite bind_Ret in E. cbv zeta in E.
  destruct (IHl l' m' Hl eq_refl) as (Hl' & Hh & Ei). apply assertP_pair in E as (Hbal & -> & ->).
  destruct (checked_sr l' a x r Hl' Hr) with (2 := Hbal) as (A & E1 & E2); [lia|lia|].
  split; [done|]. split; [|rewrite items_up_sr, !items_BN, Ei; by app_norm].
  destruct (Z.le_gt_cases (hgt l' - hgt r) (-2)) as [H2|H2]; [specialize (E1 H2); lia|rewrite E2 by lia; lia].
Qed.

Lemma av_join_spec l r t' : avl l -> avl r -> Z.abs (hgt l - hgt r) < 2 -> av_join l r = Ret t' ->
  avl t' /\ Z.max (hgt l) (hgt r) <= hgt t' <= 1 + Z.max (hgt l) (hgt r) /\ items t' = items l ++ items r.
Proof.
  intros Hl Hr Hb E. pose proof (hgt_nonneg l Hl). pose proof (hgt_nonneg r Hr).
  destruct (decide (l = BL)) as [->|Hl0].
  { injection E as <-. split; [done|]. split; [|done]. cbn in *. lia. }
  destruct (decide (r = BL)) as [->|Hr0].
  { destruct l; [done|]. injection E as <-. split; [done|]. split; [cbn in *; lia|]. by rewrite app_nil_r. }
  assert (av_join l r = if hgt r <? hgt l then '(l, m) ← av_greatest l; Ret (mkb l m.1 m.2 r)
    else '(r, m) ← av_least r; Ret (mkb l m.1 m.2 r)) as E' by (by destruct l, r).
  rewrite E' in E. destruct (Z.ltb_spec (hgt r) (hgt l)).
  - destruct (av_greatest l) as [[l' m]|] eqn:El; [|done]. rewrite bind_Ret in E.
    destruct (av_greatest_spec l l' m Hl El) as (Hl' & Hh & Ei). assert (t' = mkb l' m.1 m.2 r) as -> by congruence.
    split; [apply avl_mkb; (done || lia)|]. split; [cbn [hgt mkb fst]; lia|]. rewrite items_mkb, Ei. app_norm. by destruct m.
  - destruct (av_least r) as [[r' m]|] eqn:Er; [|done]. rewrite bind_Ret in E.
    destruct (av_least_spec r r' m Hr Er) as (Hr' & Hh & Ei). assert (t' = mkb l m.1 m.2 r') as -> by congruence.
    split; [apply avl_mkb; (done || lia)|]. split; [cbn [hgt mkb fst]; lia|]. rewrite items_mkb, Ei. by destruct m.
Qed.

(** On the list: the element that compares equal is taken out. *)
Fixpoint set_del w (k : list (Z * W)) : list (Z * W) :=
  match k with [] => [] | b :: k => if doCompare b.2 w =? 0 then k else b :: set_del w k end.
Lemma set_del_app w k1 k2 : (forall b, b ∈ k1 -> doCompare b.2 w <> 0) -> set_del w (k1 ++ k2) = k1 ++ set_del w k2.
Proof.
  induction k1 as [|b k1 IH]; intros Hk; [done|]. cbn. rewrite (proj2 (Z.eqb_neq _ _)) by (apply Hk; by left).
  f_equal. apply IH. intros c Hc. apply Hk. by right.
Qed.
Lemma set_del_none w k : (forall b, b ∈ k -> doCompare b.2 w <> 0) -> set_del w k = k.
Proof. intros Hk. rewrite <- (app_nil_r k) at 1. rewrite set_del_app by done. by rewrite app_nil_r. Qed.
Lemma set_del_front w k1 k2 : (forall b, b ∈ k2 -> doCompare b.2 w <> 0) -> set_del w (k1 ++ k2) = set_del w k1 ++ k2.
Proof.
  intros Hk. induction k1 as [|b k1 IH]; cbn; [by apply set_del_none|]. destruct (_ =? 0); [done|]. cbn. by rewrite IH.
Qed.

Lemma av_remove_spec t w : forall t', avl t -> sorted_items (items t) -> av_remove t w = Ret t' ->
  avl t' /\ hgt t - 1 <= hgt t' <= hgt t /\ items t' = set_del w (items t).
Proof.
  induction t as [|l IHl a x r IHr]; intros t' Ha Hs E; [done|]. destruct Ha as (Eh & Hb & Hl & Hr). cbn [hgt].
  rewrite items_BN in *. apply sorted_app in Hs as (Sl & Sr & Hlx & Hxr). cbn [fst snd] in Hlx, Hxr. cbn [av_remove] in E.
  destruct (Z.ltb_spec (doCompare x.2 w) 0) as [Hc|Hc].
  - destruct (av_remove r w) as [r'|] eqn:Er; [|done]. rewrite bind_Ret in E. cbv zeta in E.
    destruct (IHr r' Hr Sr eq_refl) as (Hr' & Hh & Ei). apply assertP_Ret in E as (Hbal & ->).
    destruct (checked_sl l a x r' Hl Hr') with (2 := Hbal) as (A & E1 & E2); [lia|lia|]. split; [done|]. split.
    + destruct (Z.le_gt_cases 2 (hgt l - hgt r')) as [H2|H2]; [specialize (E1 H2); lia|rewrite E2 by lia; lia].
    + rewrite items_up_sl, items_BN, Ei, set_del_app.
      * cbn [set_del snd]. by rewrite (proj2 (Z.eqb_neq (doCompare x.2 w) 0)) by lia.
      * intros b Hbl. assert (clt b.2 w) as Hbw by (eapply key_clt_cle; [by apply Hlx|by apply key_clt_le]). unfold clt in Hbw. lia.
  - destruct (Z.ltb_spec 0 (doCompare x.2 w)) as [Hc'|Hc'].
    + destruct (av_remove l w) as [l'|] eqn:El; [|done]. rewrite bind_Ret in E. cbv zeta in E.
      destruct (IHl l' Hl Sl eq_refl) as (Hl' & Hh & Ei). apply assertP_Ret in E as (Hbal & ->).
      destruct (checked_sr l' a x r Hl' Hr) with (2 := Hbal) as (A & E1 & E2); [lia|lia|]. split; [done|]. split.
      * destruct (Z.le_gt_cases (hgt l' - hgt r) (-2)) as [H2|H2]; [specialize (E1 H2); lia|rewrite E2 by lia; lia].
      * rewrite items_up_sr, items_BN, Ei, set_del_front; [done|]. assert (clt w x.2) as Hwx by (apply key_sym; lia).
        intros b [->|Hbr]%elem_of_cons; [cbn; lia|]. assert (clt w b.2) as Hwb by (eapply key_clt_cle; [done|by apply key_clt_le, Hxr]).
        apply key_sym in Hwb. lia.
    + assert (doCompare x.2 w = 0) as E0 by lia. destruct (av_join_spec l r t' Hl Hr Hb E) as (A & Hh & Ei). split; [done|]. split; [lia|].
      rewrite Ei, set_del_app; [cbn; by rewrite E0|]. intros b Hbl. apply key_equal in E0.
      assert (clt b.2 w) as Hbw by (eapply key_clt_cle; [by apply Hlx|apply E0]). unfold clt in Hbw. lia.
Qed.

(** *** When the removals do not fail *)

(** No child that is taller than its sibling leans inwards. *)
Fixpoint outer t : Prop :=
  match t with
  | BL => True
  | BN l a x r =>
      (hgt r < hgt l -> match l with BN ll _ _ lr => hgt lr <= hgt ll | BL => True end) /\
      (hgt l < hgt r -> match r with BN rl _ _ rr => hgt rl <= hgt rr | BL => True end) /\
      outer l /\ outer r
  end.

Lemma outer_sl l a x r r' : avl l -> avl r' -> Z.abs (hgt l - hgt r) < 2 -> hgt r - 1 <= hgt r' <= hgt r -> outer (BN l a x r) ->
  balanced (up_sl (BN l a x r')) = true.
Proof.
  intros Hl Hr' Hb Hh (Ho & _). pose proof (hgt_nonneg r' Hr'). unfold up_sl. destruct (Z.leb_spec 2 (hgt l - hgt r')) as [H2|H2].
  - destruct l as [|ll b y lr]; [cbn in *; lia|]. destruct Hl as (E & Hbl & _). specialize (Ho ltac:(lia)).
    cbn [rot_sl balanced mkb hgt fst] in *. apply Z.ltb_lt. lia.
  - cbn [fix_h mkb balanced]. apply Z.ltb_lt. lia.
Qed.
Lemma outer_sr l a x r l' : avl r -> avl l' -> Z.abs (hgt l - hgt r) < 2 -> hgt l - 1 <= hgt l' <= hgt l -> outer (BN l a x r) ->
  balanced (up_sr (BN l' a x r)) = true.
Proof.
  intros Hr Hl' Hb Hh (_ & Ho & _). pose proof (hgt_nonneg l' Hl'). unfold up_sr. destruct (Z.leb_spec (hgt l' - hgt r) (-2)) as [H2|H2].
  - destruct r as [|rl b y rr]; [cbn in *; lia|]. destruct Hr as (E & Hbr & _). specialize (Ho ltac:(lia)).
    cbn [rot_sr balanced mkb hgt fst] in *. apply Z.ltb_lt. lia.
  - cbn [fix_h mkb balanced]. apply Z.ltb_lt. lia.
Qed.

Lemma av_greatest_runs t : avl t -> outer t -> t <> BL -> exists t' m, av_greatest t = Ret (t', m).
Proof.
  induction t as [|l IHl a x r IHr]; intros Ha Ho Hne; [done|]. destruct (decide (r = BL)) as [->|Hr0]; [by exists l, (a, x.2)|].
  pose proof Ha as (Eh & Hb & Hl & Hr). pose proof Ho as (_ & _ & _ & Hor).
  destruct (IHr Hr Hor Hr0) as (r' & m & Er). destruct (av_greatest_spec r r' m Hr Er) as (Hr' & Hh & _).
  rewrite av_greatest_right, Er, bind_Ret by done. cbv zeta. rewrite (outer_sl l a x r r') by done. by eexists _, m.
Qed.
Lemma av_least_runs t : avl t -> outer t -> t <> BL -> exists t' m, av_least t = Ret (t', m).
Proof.
  induction t as [|l IHl a x r IHr]; intros Ha Ho Hne; [done|]. destruct (decide (l = BL)) as [->|Hl0]; [by exists r, (a, x.2)|].
  pose proof Ha as (Eh & Hb & Hl & Hr). pose proof Ho as (_ & _ & Hol & _).
  destruct (IHl Hl Hol Hl0) as (l' & m & El). destruct (av_least_spec l l' m Hl El) as (Hl' & Hh & _).
  rewrite av_least_left, El, bind_Ret by done. cbv zeta. rewrite (outer_sr l a x r l') by done. by eexists _, m.
Qed.
Lemma av_join_runs l r : avl l -> avl r -> outer l -> outer r -> exists t', av_join l r = Ret t'.
Proof.
  intros Hl Hr Hol Hor. destruct (decide (l = BL)) as [->|Hl0]; [by exists r|].
  destruct (decide (r = BL)) as [->|Hr0]; [destruct l; [done|by eexists]|].
  assert (av_join l r = if hgt r <? hgt l then '(l, m) ← av_greatest l; Ret (mkb l m.1 m.2 r)
    else '(r, m) ← av_least r; Ret (mkb l m.1 m.2 r)) as -> by (by destruct l, r).
  destruct (_ <? _).
  - destruct (av_greatest_runs l Hl Hol Hl0) as (l' & m & ->). by eexists.
  - destruct (av_least_runs r Hr Hor Hr0) as (r' & m & ->). by eexists.
Qed.

Lemma av_remove_runs t w : avl t -> sorted_items (items t) -> outer t -> (exists b, b ∈ items t /\ doCompare b.2 w = 0) ->
  exists t', av_remove t w = Ret t'.
Proof.
  induction t as [|l IHl a x r IHr]; intros Ha Hs Ho (b & Hb & E); [by apply elem_of_nil in Hb|].
  pose proof Ha as (Eh & Hbal & Hl & Hr). pose proof Ho as (_ & _ & Hol & Hor). rewrite items_BN in Hs, Hb.
  apply sorted_app in Hs as (Sl & Sr & Hlx & Hxr). cbn [fst snd] in Hlx, Hxr. rewrite elem_of_app, elem_of_cons in Hb. cbn [av_remove].
  pose proof E as [E1 E2]%key_equal. destruct (Z.ltb_spec (doCompare x.2 w) 0) as [Hc|Hc]; [|destruct (Z.ltb_spec 0 (doCompare x.2 w)) as [Hc'|Hc']].
  - destruct Hb as [Hb|[->|Hb]]; [|cbn in E; lia|].
    { exfalso. apply (key_clt_not_cle b.2 x.2); [by apply Hlx|]. eapply key_trans; [by apply key_clt_le|done]. }
    destruct (IHr Hr Sr Hor) as (r' & Er); [by exists b|]. destruct (av_remove_spec r w r' Hr Sr Er) as (Hr' & Hh & _).
    rewrite Er, bind_Ret. cbv zeta. rewrite (outer_sl l a x r r') by done. by eexists.
  - destruct Hb as [Hb|[->|Hb]]; [|cbn in E; lia|].
    2:{ exfalso. apply (key_clt_not_cle x.2 b.2); [by apply Hxr|]. eapply key_trans; [done|]. apply key_clt_le, key_sym. lia. }
    destruct (IHl Hl Sl Hol) as (l' & El); [by exists b|]. destruct (av_remove_spec l w l' Hl Sl El) as (Hl' & Hh & _).
    rewrite El, bind_Ret. cbv zeta. rewrite (outer_sr l a x r l') by done. by eexists.
  - by apply av_join_runs.
Qed.
End Removal.

(** ** Removal on the heap *)

Section RemoveHeap.
Context {W : Type} `{KeyOrder W}.
Implicit Types (h : avl_heap W) (t l r : htree W) (w : W).

Lemma assert_balanced_ok h t : tree_at h t -> t <> BL -> assert_balanced h (ptr t) = assertP (balanced t).
Proof. destruct t as [|l a x r]; [done|]. intros Ht _. unfold assert_balanced. cbn [ptr]. by rewrite (lean_ok _ _ _ _ _ Ht). Qed.
Lemma check_top h t p : p = ptr t -> tree_at h t -> (if p =? 0 then Ret tt else assert_balanced h p) = assertP (balanced t).
Proof.
  intros -> Ht. rewrite (ptr_test h) by done. destruct t as [|l a x r]; [done|]. by apply (assert_balanced_ok h (BN l a x r)).
Qed.

(** A tree is rotated or its height is computed again. *)
Lemma up_sl_ok h l a x r : let t := BN l a x r in tree_at h t -> NoDup (addrs t) -> avl r ->
  lean h a = Ret (hgt l - hgt r) /\
  if 2 <=? hgt l - hgt r then exists q, rotateSingleLeft h a = Ret q /\ does h t (up_sl t) q
  else exists h', computeHeight h a = Ret h' /\ does h t (up_sl t) (a, h').
Proof.
  intros t Ht N Hr. split; [exact (lean_ok h l a x r Ht)|]. unfold t, up_sl. destruct (Z.leb_spec 2 (hgt l - hgt r)) as [Hd|Hd].
  - pose proof (hgt_nonneg r Hr). destruct l as [|ll b y lr]; [cbn in *; lia|]. by apply rotateSingleLeft_ok.
  - destruct (computeHeight_ok h l a x r Ht N) as (h' & E & T & F). exists h'. split; [done|]. split_and!; [done|done|].
    intros c Hc. apply F. intros ->. apply Hc, elem_addrs. auto.
Qed.
Lemma up_sr_ok h l a x r : let t := BN l a x r in tree_at h t -> NoDup (addrs t) -> avl l ->
  lean h a = Ret (hgt l - hgt r) /\
  if hgt l - hgt r <=? -2 then exists q, rotateSingleRight h a = Ret q /\ does h t (up_sr t) q
  else exists h', computeHeight h a = Ret h' /\ does h t (up_sr t) (a, h').
Proof.
  intros t Ht N Hl. split; [exact (lean_ok h l a x r Ht)|]. unfold t, up_sr. destruct (Z.leb_spec (hgt l - hgt r) (-2)) as [Hd|Hd].
  - pose proof (hgt_nonneg l Hl). destruct r as [|rl b y rr]; [cbn in *; lia|]. by apply rotateSingleRight_ok.
  - destruct (computeHeight_ok h l a x r Ht N) as (h' & E & T & F). exists h'. split; [done|]. split_and!; [done|done|].
    intros c Hc. apply F. intros ->. apply Hc, elem_addrs. auto.
Qed.

(** What the removal of an end of the tree gives: the rest, and the node apart. *)
Definition cut_off h t t' (m : Z * W) (q : Z * Z * avl_heap W) : Prop :=
  q.1.1 = ptr t' /\ q.1.2 = m.1 /\ tree_at q.2 t' /\ holds q.2 m.1 m.2 /\ forall c, ~ (c ∈ addrs t) -> q.2 !! c = h !! c.

Lemma addrs_greatest t t' m : avl t -> av_greatest t = Ret (t', m) -> addrs t = addrs t' ++ [m.1].
Proof. intros Ha E. destruct (av_greatest_spec t t' m Ha E) as (_ & _ & Ei). by rewrite !addrs_items, Ei, fmap_app. Qed.
Lemma addrs_least t t' m : avl t -> av_least t = Ret (t', m) -> addrs t = m.1 :: addrs t'.
Proof. intros Ha E. destruct (av_least_spec t t' m Ha E) as (_ & _ & Ei). by rewrite !addrs_items, Ei. Qed.
Lemma addrs_up_sl t : addrs (up_sl t) = addrs t.
Proof. by rewrite !addrs_items, items_up_sl. Qed.
Lemma addrs_up_sr t : addrs (up_sr t) = addrs t.
Proof. by rewrite !addrs_items, items_up_sr. Qed.

Lemma removeGreatest_ok t : forall fuel h, t <> BL -> avl t -> tree_at h t -> NoDup (addrs t) -> (length (addrs t) < fuel)%nat ->
  match av_greatest t with
  | Ret (t', m) => exists q, removeGreatest fuel h (ptr t) = Ret q /\ cut_off h t t' m q
  | Crash f => removeGreatest fuel h (ptr t) = Crash f
  end.
Proof.
  induction t as [|l IHl a x r IHr]; intros fuel h Hne Ha Ht N Hf; [done|]. destruct fuel as [|fuel]; [lia|].
  pose proof Ha as (_ & _ & Hal & Har). pose proof Ht as (H0' & Ea & Hl & Hr). pose proof (NoDup_BN _ _ _ _ N) as (Nl & Nr & Al & Ar & D).
  rewrite addrs_BN, length_app in Hf. cbn [length] in Hf. cbn [removeGreatest ptr]. rewrite (proj2 (Z.eqb_neq a 0)) by done. mred.
  rewrite (node_of_ok _ _ _ Ea). mred. cbn [tn_r tn_l]. rewrite (ptr_test h r) by done. destruct (decide (r = BL)) as [->|Hr0].
  { mred. rewrite (check_top h l) by done. assert (balanced l = true) as -> by (destruct l; [done|apply Z.ltb_lt, Hal]). mred.
    eexists. split; [done|]. split_and!; try done. by eexists. }
  rewrite av_greatest_right by done. specialize (IHr fuel h Hr0 Har Hr Nr ltac:(lia)).
  assert (match r with BL => true | BN _ _ _ _ => false end = false) as -> by (by destruct r).
  destruct (av_greatest r) as [[r' m]|f] eqn:Er; [|by rewrite IHr].
  destruct IHr as (q & -> & Q1 & Q2 & Q3 & Q4 & Q5). destruct q as [[q1 q2] h1]. cbn [fst snd] in *. subst q1 q2. mred.
  pose proof (addrs_greatest r r' m Har Er) as Eaddr. destruct (av_greatest_spec r r' m Har Er) as (Har' & _ & _).
  assert (forall c, c ∈ addrs r' -> c ∈ addrs r) as Hsub by (intros c Hc; rewrite Eaddr; apply elem_of_app; by left).
  assert (m.1 ∈ addrs r) as Hm by (rewrite Eaddr; apply elem_of_app; right; by left).
  destruct (put_right h h1 l r r' a x Ht N Q3) as (h2 & -> & T2 & F2).
  { intros c Hc. assert (~ (c ∈ addrs r)) by (destruct Hc as [->|Hc]; [done|by apply D]). split; [by apply Q5|]. by intros ?%Hsub. }
  mred. assert (NoDup (addrs (BN l a x r'))) as N2.
  { rewrite addrs_BN, Eaddr, app_comm_cons, app_assoc in N. apply NoDup_app in N as (N & _). by rewrite addrs_BN. }
  assert (~ (m.1 ∈ addrs (BN l a x r'))) as Hm'.
  { rewrite addrs_BN, Eaddr, app_comm_cons, app_assoc in N. apply NoDup_app in N as (_ & N & _). rewrite addrs_BN. intros Hin. apply (N _ Hin). by left. }
  destruct (up_sl_ok h2 l a x r' T2 N2 Har') as [-> Hup]. mred.
  assert (forall q, does h2 (BN l a x r') (up_sl (BN l a x r')) q ->
    cut_off h (BN l a x r) (up_sl (BN l a x r')) m (q.1, m.1, q.2)) as Hcut.
  { intros q (D1 & D2 & D3). split_and!; [done|done|done| |]; cbn [fst snd].
    - destruct Q4 as (n & En & Ew). exists n. rewrite D3, F2; [done| |done]. intros E. apply Hm', elem_addrs. rewrite E. auto.
    - intros c Hc. rewrite elem_addrs in Hc. rewrite D3, F2, Q5; [done|intros ?; apply Hc; auto|intros ->; apply Hc; auto|].
      rewrite elem_addrs. intros [?|[?|?%Hsub]]; apply Hc; auto. }
  destruct (2 <=? hgt l - hgt r'); [destruct Hup as (q & -> & Hq)|destruct Hup as (h3 & -> & Hq)]; mred; pose proof Hq as (Q1 & Q2 & _); cbn [fst snd] in *.
  - rewrite (check_top _ _ _ Q1 Q2). destruct (balanced _); mred; [|done]. eexists. split; [done|by apply Hcut].
  - rewrite (check_top _ _ _ Q1 Q2). destruct (balanced _); mred; [|done]. eexists. split; [done|exact (Hcut _ Hq)].
Qed.

Lemma removeLeast_ok t : forall fuel h, t <> BL -> avl t -> tree_at h t -> NoDup (addrs t) -> (length (addrs t) < fuel)%nat ->
  match av_least t with
  | Ret (t', m) => exists q, removeLeast fuel h (ptr t) = Ret q /\ cut_off h t t' m q
  | Crash f => removeLeast fuel h (ptr t) = Crash f
  end.
Proof.
  induction t as [|l IHl a x r IHr]; intros fuel h Hne Ha Ht N Hf; [done|]. destruct fuel as [|fuel]; [lia|].
  pose proof Ha as (_ & _ & Hal & Har). pose proof Ht as (H0' & Ea & Hl & Hr). pose proof (NoDup_BN _ _ _ _ N) as (Nl & Nr & Al & Ar & D).
  rewrite addrs_BN, length_app in Hf. cbn [length] in Hf. cbn [removeLeast ptr]. rewrite (proj2 (Z.eqb_neq a 0)) by done. mred.
  rewrite (node_of_ok _ _ _ Ea). mred. cbn [tn_r tn_l]. rewrite (ptr_test h l) by done. destruct (decide (l = BL)) as [->|Hl0].
  { mred. rewrite (check_top h r) by done. assert (balanced r = true) as -> by (destruct r; [done|apply Z.ltb_lt, Har]). mred.
    eexists. split; [done|]. split_and!; try done. { by eexists. } }
  rewrite av_least_left by done. specialize (IHl fuel h Hl0 Hal Hl Nl ltac:(lia)).
  assert (match l with BL => true | BN _ _ _ _ => false end = false) as -> by (by destruct l).
  destruct (av_least l) as [[l' m]|f] eqn:El; [|by rewrite IHl].
  destruct IHl as (q & -> & Q1 & Q2 & Q3 & Q4 & Q5). destruct q as [[q1 q2] h1]. cbn [fst snd] in *. subst q1 q2. mred.
  pose proof (addrs_least l l' m Hal El) as Eaddr. destruct (av_least_spec l l' m Hal El) as (Hal' & _ & _).
  assert (forall c, c ∈ addrs l' -> c ∈ addrs l) as Hsub by (intros c Hc; rewrite Eaddr; by right).
  assert (m.1 ∈ addrs l) as Hm by (rewrite Eaddr; by left).
  destruct (put_left h h1 l l' a x r Ht N Q3) as (h2 & -> & T2 & F2).
  { intros c Hc. assert (~ (c ∈ addrs l)) by (destruct Hc as [->|Hc]; [done|intros ?; by apply (D c)]). split; [by apply Q5|]. by intros ?%Hsub. }
  mred. assert (NoDup (addrs (BN l' a x r))) as N2.
  { rewrite addrs_BN, Eaddr in N. apply NoDup_cons in N as [_ N]. by rewrite addrs_BN. }
  assert (~ (m.1 ∈ addrs (BN l' a x r))) as Hm'.
  { rewrite addrs_BN, Eaddr in N. apply NoDup_cons in N as [N _]. by rewrite addrs_BN. }
  destruct (up_sr_ok h2 l' a x r T2 N2 Hal') as [-> Hup]. mred.
  assert (forall q, does h2 (BN l' a x r) (up_sr (BN l' a x r)) q ->
    cut_off h (BN l a x r) (up_sr (BN l' a x r)) m (q.1, m.1, q.2)) as Hcut.
  { intros q (D1 & D2 & D3). split_and!; [done|done|done| |]; cbn [fst snd].
    - destruct Q4 as (n & En & Ew). exists n. rewrite D3, F2; [done| |done]. intros E. apply Hm', elem_addrs. rewrite E. auto.
    - intros c Hc. rewrite elem_addrs in Hc. rewrite D3, F2, Q5; [done|intros ?; apply Hc; auto|intros ->; apply Hc; auto|].
      rewrite elem_addrs. intros [?%Hsub|[?|?]]; apply Hc; auto. }
  destruct (hgt l' - hgt r <=? -2); [destruct Hup as (q & -> & Hq)|destruct Hup as (h3 & -> & Hq)]; mred; pose proof Hq as (Q1 & Q2 & _); cbn [fst snd] in *.
  - rewrite (check_top _ _ _ Q1 Q2). destruct (balanced _); mred; [|done]. eexists. split; [done|by apply Hcut].
  - rewrite (check_top _ _ _ Q1 Q2). destruct (balanced _); mred; [|done]. eexists. split; [done|exact (Hcut _ Hq)].
Qed.

(** The node removed from the end of a child becomes the root of two trees. *)
Lemma new_root h l r m : tree_at h l -> tree_at h r -> holds h m.1 m.2 -> m.1 <> 0 -> NoDup (addrs l ++ m.1 :: addrs r) ->
  exists n, h !! m.1 = Some n /\ forall h', h' = <[m.1 := mkTN (ptr l) (ptr r) (tn_v n)]> h ->
    exists k, tree_at h' (BN l m.1 (k, m.2) r).
Proof.
  intros Hl Hr (n & En & Ew) H0' N. exists n. split; [done|]. intros h' ->. exists (tn_v n).1. rewrite <- Ew.
  rewrite <- (addrs_BN l m.1 (tn_v n) r) in N. apply NoDup_BN in N as (_ & _ & Al & Ar & _).
  replace ((tn_v n).1, (tn_v n).2) with (tn_v n) by (by destruct (tn_v n)). by apply tree_at_BN.
Qed.

(** The last steps of [remove()], on a tree whose height may be wrong at the root. *)
Lemma settle_ok h t q : q.1 = ptr t -> tree_at q.2 t -> NoDup (addrs t) -> avl (fix_h t) ->
  (forall c, ~ (c ∈ addrs t) -> q.2 !! c = h !! c) ->
  exists h', (if q.1 =? 0 then Ret q else h ← computeHeight q.2 q.1; assert_balanced h q.1 ;; Ret (q.1, h)) = Ret (ptr t, h') /\
    tree_at h' (fix_h t) /\ (forall c, ~ (c ∈ addrs t) -> h' !! c = h !! c).
Proof.
  intros E Ht N Ha F. destruct q as [p h1]. cbn [fst snd] in *. subst p. rewrite (ptr_test h1) by done.
  destruct t as [|l a x r]; [by exists h1|]. destruct (finish_ok h1 (BN l a x r)) as (h' & -> & E & T & F'); [done..|].
  rewrite bind_Ret, E, bind_Ret. exists h'. split; [done|]. split; [done|]. intros c Hc. rewrite F'; [by apply F|].
  intros ->. by apply Hc, ptr_in.
Qed.

Lemma raw_sl_ok h l a x r : let t := BN l a x r in tree_at h t -> NoDup (addrs t) -> avl r ->
  exists q t0, (d ← lean h a; q ← (if 2 <=? d then rotateSingleLeft h a else Ret (a, h)); assert_balanced q.2 q.1 ;; Ret q) =
      (assertP (balanced (up_sl t)) ;; Ret q) /\ does h t t0 q /\ fix_h t0 = up_sl t /\ items t0 = items t.
Proof.
  intros t Ht N Hr. rewrite (lean_ok h l a x r Ht). mred. unfold t, up_sl. destruct (Z.leb_spec 2 (hgt l - hgt r)) as [Hd|Hd].
  - pose proof (hgt_nonneg r Hr). destruct l as [|ll b y lr]; [cbn in *; lia|].
    destruct (rotateSingleLeft_ok h ll b y lr a x r Ht N) as (q & -> & Hq). mred. exists q, (rot_sl (BN (BN ll b y lr) a x r)).
    pose proof Hq as (-> & T & _). rewrite (assert_balanced_ok _ _ T) by done. split_and!; [done|exact Hq|done|apply items_rot_sl].
  - mred. exists (a, h), t. cbn [fst snd]. pose proof (assert_balanced_ok h t Ht ltac:(done)) as E.
    unfold t in E. cbn [ptr] in E. rewrite E. split_and!; done.
Qed.
Lemma raw_sr_ok h l a x r : let t := BN l a x r in tree_at h t -> NoDup (addrs t) -> avl l ->
  exists q t0, (d ← lean h a; q ← (if d <=? -2 then rotateSingleRight h a else Ret (a, h)); assert_balanced q.2 q.1 ;; Ret q) =
      (assertP (balanced (up_sr t)) ;; Ret q) /\ does h t t0 q /\ fix_h t0 = up_sr t /\ items t0 = items t.
Proof.
  intros t Ht N Hl. rewrite (lean_ok h l a x r Ht). mred. unfold t, up_sr. destruct (Z.leb_spec (hgt l - hgt r) (-2)) as [Hd|Hd].
  - pose proof (hgt_nonneg l Hl). destruct r as [|rl b y rr]; [cbn in *; lia|].
    destruct (rotateSingleRight_ok h l a x rl b y rr Ht N) as (q & -> & Hq). mred. exists q, (rot_sr (BN l a x (BN rl b y rr))).
    pose proof Hq as (-> & T & _). rewrite (assert_balanced_ok _ _ T) by done. split_and!; [done|exact Hq|done|apply items_rot_sr].
  - mred. exists (a, h), t. cbn [fst snd]. pose proof (assert_balanced_ok h t Ht ltac:(done)) as E.
    unfold t in E. cbn [ptr] in E. rewrite E. split_and!; done.
Qed.

(** The two trees left by a node that is taken out. *)
Definition join_code h (pl pr : Z) : outcome (Z * avl_heap W) :=
  if pl =? 0 then Ret (pr, h)
  else if pr =? 0 then Ret (pl, h)
  else
    hl ← AvlTree_height h pl; hr ← AvlTree_height h pr;
    if hr <? hl then
      '(pl, root, h) ← removeGreatest (S (size h)) h pl; h ← insertLeft h root pl; h ← insertRight h root pr; Ret (root, h)
    else
      '(pr, root, h) ← removeLeast (S (size h)) h pr; h ← insertRight h root pr; h ← insertLeft h root pl; Ret (root, h).

Lemma join_greatest h l r l' m : tree_at h l -> tree_at h r -> NoDup (addrs l ++ addrs r) -> avl l -> l <> BL -> av_greatest l = Ret (l', m) ->
  exists q k, ('(pl, root, h) ← removeGreatest (S (size h)) h (ptr l); h ← insertLeft h root pl; h ← insertRight h root (ptr r); Ret (root, h)) = Ret q /\
    q.1 = m.1 /\ tree_at q.2 (BN l' m.1 (k, m.2) r) /\ forall c, ~ (c ∈ addrs l) -> q.2 !! c = h !! c.
Proof.
  intros Tl Tr N Hl Hl0 El. apply NoDup_app in N as (Nl & D & Nr). pose proof (tree_size h l Tl Nl) as Hsz.
  pose proof (removeGreatest_ok l (S (size h)) h Hl0 Hl Tl Nl ltac:(lia)) as R. rewrite El in R. destruct R as ([[q1 q2] h1] & -> & Q1 & Q2 & Q3 & Q4 & Q5).
  cbn [fst snd] in *. subst q1 q2. mred. pose proof (addrs_greatest l l' m Hl El) as Ea.
  assert (m.1 ∈ addrs l) as Hm by (rewrite Ea; apply elem_of_app; right; by left).
  destruct (new_root h1 l' r m Q3) as (n & En & Hroot); [|done|by destruct (tree_at_nonzero h l m.1)| |].
  - eapply tree_at_same; [done|]. intros c Hc. apply Q5. intros Hc'. by apply (D c).
  - rewrite Ea in Nl. apply NoDup_app in Nl as (N1 & N2 & _). apply NoDup_app. split_and!; [done| |apply NoDup_cons; split; [by apply D|done]].
    intros c Hc [->|Hc']%elem_of_cons; [apply (N2 m.1 Hc); by left|]. apply (D c); [rewrite Ea; apply elem_of_app; by left|done].
  - unfold insertLeft, insertRight. rewrite (node_of_ok _ _ _ En). mred. rewrite (node_of_ok _ _ _ (lookup_insert_eq _ _ _)). mred.
    rewrite insert_insert_eq. destruct (Hroot _ eq_refl) as (k & T). eexists _, k. split; [done|]. split_and!; [done|exact T|].
    intros c Hc. cbn [snd]. rewrite lookup_insert_ne; [by apply Q5|]. intros E. apply Hc. by rewrite <- E.
Qed.
Lemma join_least h l r r' m : tree_at h l -> tree_at h r -> NoDup (addrs l ++ addrs r) -> avl r -> r <> BL -> av_least r = Ret (r', m) ->
  exists q k, ('(pr, root, h) ← removeLeast (S (size h)) h (ptr r); h ← insertRight h root pr; h ← insertLeft h root (ptr l); Ret (root, h)) = Ret q /\
    q.1 = m.1 /\ tree_at q.2 (BN l m.1 (k, m.2) r') /\ forall c, ~ (c ∈ addrs r) -> q.2 !! c = h !! c.
Proof.
  intros Tl Tr N Hr Hr0 Er. apply NoDup_app in N as (Nl & D & Nr). pose proof (tree_size h r Tr Nr) as Hsz.
  pose proof (removeLeast_ok r (S (size h)) h Hr0 Hr Tr Nr ltac:(lia)) as R. rewrite Er in R. destruct R as ([[q1 q2] h1] & -> & Q1 & Q2 & Q3 & Q4 & Q5).
  cbn [fst snd] in *. subst q1 q2. mred. pose proof (addrs_least r r' m Hr Er) as Ea.
  assert (m.1 ∈ addrs r) as Hm by (rewrite Ea; by left).
  destruct (new_root h1 l r' m) as (n & En & Hroot); [|done|done|by destruct (tree_at_nonzero h r m.1)| |].
  - eapply tree_at_same; [done|]. intros c Hc. apply Q5. by apply D.
  - apply NoDup_app. split_and!; [done| |by rewrite Ea in Nr]. intros c Hc. rewrite <- Ea. by apply D.
  - unfold insertLeft, insertRight. rewrite (node_of_ok _ _ _ En). mred. rewrite (node_of_ok _ _ _ (lookup_insert_eq _ _ _)). mred.
    rewrite insert_insert_eq. destruct (Hroot _ eq_refl) as (k & T). eexists _, k. split; [done|]. split_and!; [done|exact T|].
    intros c Hc. cbn [snd]. rewrite lookup_insert_ne; [by apply Q5|]. intros E. apply Hc. by rewrite <- E.
Qed.

Lemma join_code_ok h l r : tree_at h l -> tree_at h r -> NoDup (addrs l ++ addrs r) -> avl l -> avl r ->
  match av_join l r with
  | Ret t' => exists q t0, join_code h (ptr l) (ptr r) = Ret q /\ q.1 = ptr t0 /\ tree_at q.2 t0 /\ fix_h t0 = t' /\
      items t0 = items l ++ items r /\ forall c, ~ (c ∈ addrs l ++ addrs r) -> q.2 !! c = h !! c
  | Crash f => join_code h (ptr l) (ptr r) = Crash f
  end.
Proof.
  intros Tl Tr N Hl Hr. unfold join_code. rewrite !(ptr_test h), !height_ok by done.
  destruct (decide (l = BL)) as [->|Hl0]; [exists (ptr r, h), r; split_and!; try done; by apply avl_fix|].
  assert (match l with BL => true | BN _ _ _ _ => false end = false) as -> by (by destruct l).
  destruct (decide (r = BL)) as [->|Hr0].
  { destruct l as [|ll b y lr]; [done|]. cbn [av_join]. exists (b, h), (BN ll b y lr). rewrite app_nil_r. split_and!; try done. by apply avl_fix. }
  assert (match r with BL => true | BN _ _ _ _ => false end = false) as -> by (by destruct r). mred.
  assert (av_join l r = if hgt r <? hgt l then '(l, m) ← av_greatest l; Ret (mkb l m.1 m.2 r)
    else '(r, m) ← av_least r; Ret (mkb l m.1 m.2 r)) as -> by (by destruct l, r).
  pose proof N as (Nl & _ & Nr)%NoDup_app. pose proof (tree_size h l Tl Nl). pose proof (tree_size h r Tr Nr). destruct (_ <? _).
  - pose proof (removeGreatest_ok l (S (size h)) h Hl0 Hl Tl Nl ltac:(lia)) as R.
    destruct (av_greatest l) as [[l' m]|f] eqn:El; [|by rewrite R]. mred.
    destruct (join_greatest h l r l' m Tl Tr N Hl Hl0 El) as (q & k & -> & Q1 & Q2 & Q3). exists q, (BN l' m.1 (k, m.2) r).
    destruct (av_greatest_spec l l' m Hl El) as (_ & _ & Ei). split_and!; [done|done|done|done| |].
    + rewrite items_BN, Ei. app_norm. by destruct m.
    + intros c Hc. apply Q3. intros ?. apply Hc, elem_of_app. by left.
  - pose proof (removeLeast_ok r (S (size h)) h Hr0 Hr Tr Nr ltac:(lia)) as R.
    destruct (av_least r) as [[r' m]|f] eqn:Er; [|by rewrite R]. mred.
    destruct (join_least h l r r' m Tl Tr N Hr Hr0 Er) as (q & k & -> & Q1 & Q2 & Q3). exists q, (BN l m.1 (k, m.2) r').
    destruct (av_least_spec r r' m Hr Er) as (_ & _ & Ei). split_and!; [done|done|done|done| |].
    + rewrite items_BN, Ei. by destruct m.
    + intros c Hc. apply Q3. intros ?. apply Hc, elem_of_app. by right.
Qed.

(** What [remove] gives: a node that compares equal is freed. *)
Definition removed h t t' w (q : Z * avl_heap W) : Prop :=
  does h t t' q /\ exists m, m ∈ items t /\ doCompare m.2 w = 0 /\ q.2 !! m.1 = None.

Lemma items_addrs t m : m ∈ items t -> m.1 ∈ addrs t.
Proof. intros Hm. rewrite addrs_items. by apply list_elem_of_fmap_2. Qed.

Lemma set_del_split w k m : sorted_items k -> m ∈ k -> doCompare m.2 w = 0 -> exists k1 k2, k = k1 ++ m :: k2 /\ set_del w k = k1 ++ k2.
Proof.
  induction k as [|b k IH]; intros Hs Hm E; [by apply elem_of_nil in Hm|]. apply StronglySorted_inv in Hs as [Hs Hb]. cbn [set_del].
  apply elem_of_cons in Hm as [<-|Hm]; [rewrite E; by exists [], k|]. rewrite list.Forall_forall in Hb. specialize (Hb m Hm).
  destruct (Z.eqb_spec (doCompare b.2 w) 0) as [E'|E'].
  - exfalso. apply key_equal in E as [E _]. apply key_equal in E' as [_ E']. apply (key_clt_not_cle b.2 m.2); [done|by eapply key_trans].
  - destruct (IH Hs Hm E) as (k1 & k2 & -> & ->). by exists (b :: k1), k2.
Qed.
Lemma removed_addrs t t' w m : sorted_items (items t) -> items t' = set_del w (items t) -> m ∈ items t -> doCompare m.2 w = 0 -> NoDup (addrs t) ->
  NoDup (addrs t') /\ (forall c, c ∈ addrs t' -> c ∈ addrs t) /\ ~ (m.1 ∈ addrs t').
Proof.
  intros Hs Ei Hm E. destruct (set_del_split w (items t) m Hs Hm E) as (k1 & k2 & E1 & E2). rewrite (addrs_items t), (addrs_items t'), Ei, E2, E1, !fmap_app.
  cbn [fmap list_fmap]. intros (N1 & N2 & [N3 N4]%NoDup_cons)%NoDup_app. split_and!.
  - apply NoDup_app. split_and!; [done| |done]. intros c Hc Hc'. apply (N2 c Hc). by right.
  - intros c [?|?]%elem_of_app; apply elem_of_app; [by left|right; by right].
  - intros [?|?]%elem_of_app; [apply (N2 m.1); [done|by left]|done].
Qed.

Lemma remove_right h l a x r r' w q : let t := BN l a x r in avl t -> sorted_items (items t) -> tree_at h t -> NoDup (addrs t) ->
  av_remove r w = Ret r' -> removed h r r' w q ->
  let code := (q ← (h ← insertRight q.2 a q.1;
      (d ← lean h a; q ← (if 2 <=? d then rotateSingleLeft h a else Ret (a, h)); assert_balanced q.2 q.1 ;; Ret q));
    if q.1 =? 0 then Ret q else h ← computeHeight q.2 q.1; assert_balanced h q.1 ;; Ret (q.1, h)) in
  if balanced (up_sl (BN l a x r')) then exists q', code = Ret q' /\ removed h t (up_sl (BN l a x r')) w q' else code = Crash AssertFailed.
Proof.
  intros t Ha Hs Ht N Er (Hq & m & Hm & Em & Hn) code. pose proof Ha as (_ & Hb & Hl & Hr). pose proof (NoDup_BN _ _ _ _ N) as (Nl & Nr & Al & Ar & D).
  unfold t in Hs. rewrite items_BN in Hs. apply sorted_app in Hs as (_ & Sr & _). destruct (av_remove_spec r w r' Hr Sr Er) as (Hr' & Hh & Ei).
  destruct (removed_addrs r r' w m Sr Ei Hm Em Nr) as (Nr' & Hsub & Hmr). pose proof (items_addrs r m Hm) as Hmr0.
  destruct Hq as (Q1 & Q2 & Q3). destruct (put_right h q.2 l r r' a x Ht N Q2) as (h2 & E2 & T2 & F2).
  { intros c Hc. assert (~ (c ∈ addrs r)) by (destruct Hc as [->|Hc]; [done|by apply D]). split; [by apply Q3|]. by intros ?%Hsub. }
  assert (NoDup (addrs (BN l a x r'))) as N2.
  { rewrite addrs_BN. apply NoDup_app. split_and!; [done| |apply NoDup_cons; split; [by intros ?%Hsub|done]].
    intros c Hc [->|?%Hsub]%elem_of_cons; [done|by apply (D c)]. }
  assert (~ (m.1 ∈ addrs (BN l a x r'))) as Hmt by (rewrite elem_addrs; intros [?|[E|?]]; [by apply (D m.1)|by rewrite E in Hmr0|done]).
  assert (h2 !! m.1 = None) as Hm2 by (rewrite F2; [done|]; intros E; by rewrite E in Hmr0).
  destruct (raw_sl_ok h2 l a x r' T2 N2 Hr') as (q1 & t0 & Eq & (D1 & D2 & D3) & Efix & Eit).
  unfold code. rewrite Q1, E2, bind_Ret, Eq. destruct (balanced (up_sl (BN l a x r'))) eqn:Ebal; mred; [|done].
  destruct (checked_sl l a x r' Hl Hr') with (2 := Ebal) as (A & _); [lia|lia|].
  assert (addrs t0 = addrs (BN l a x r')) as E0 by (by rewrite !addrs_items, Eit).
  destruct (settle_ok h2 t0 q1 D1 D2) as (h' & -> & T' & F'); [by rewrite E0|by rewrite Efix|by rewrite E0|].
  exists (ptr t0, h'). split; [done|]. rewrite Efix in T'. rewrite E0 in F'. split; [split_and!|]; cbn [fst snd].
  - by rewrite <- Efix, ptr_fix.
  - done.
  - intros c Hc. unfold t in Hc. rewrite elem_addrs in Hc. rewrite F', F2, Q3; [done|intros ?; apply Hc; auto|intros ->; apply Hc; auto|].
    rewrite elem_addrs. intros [?|[?|?%Hsub]]; apply Hc; auto.
  - exists m. split_and!; [|done|by rewrite F']. unfold t. rewrite items_BN, elem_of_app, elem_of_cons. auto.
Qed.
Lemma remove_left h l a x r l' w q : let t := BN l a x r in avl t -> sorted_items (items t) -> tree_at h t -> NoDup (addrs t) ->
  av_remove l w = Ret l' -> removed h l l' w q ->
  let code := (q ← (h ← insertLeft q.2 a q.1;
      (d ← lean h a; q ← (if d <=? -2 then rotateSingleRight h a else Ret (a, h)); assert_balanced q.2 q.1 ;; Ret q));
    if q.1 =? 0 then Ret q else h ← computeHeight q.2 q.1; assert_balanced h q.1 ;; Ret (q.1, h)) in
  if balanced (up_sr (BN l' a x r)) then exists q', code = Ret q' /\ removed h t (up_sr (BN l' a x r)) w q' else code = Crash AssertFailed.
Proof.
  intros t Ha Hs Ht N El (Hq & m & Hm & Em & Hn) code. pose proof Ha as (_ & Hb & Hl & Hr). pose proof (NoDup_BN _ _ _ _ N) as (Nl & Nr & Al & Ar & D).
  unfold t in Hs. rewrite items_BN in Hs. apply sorted_app in Hs as (Sl & _). destruct (av_remove_spec l w l' Hl Sl El) as (Hl' & Hh & Ei).
  destruct (removed_addrs l l' w m Sl Ei Hm Em Nl) as (Nl' & Hsub & Hml). pose proof (items_addrs l m Hm) as Hml0.
  destruct Hq as (Q1 & Q2 & Q3). destruct (put_left h q.2 l l' a x r Ht N Q2) as (h2 & E2 & T2 & F2).
  { intros c Hc. assert (~ (c ∈ addrs l)) by (destruct Hc as [->|Hc]; [done|intros ?; by apply (D c)]). split; [by apply Q3|]. by intros ?%Hsub. }
  assert (NoDup (addrs (BN l' a x r))) as N2.
  { rewrite addrs_BN. apply NoDup_app. split_and!; [done| |by apply NoDup_cons].
    intros c Hc%Hsub [->|?]%elem_of_cons; [done|by apply (D c)]. }
  assert (~ (m.1 ∈ addrs (BN l' a x r))) as Hmt by (rewrite elem_addrs; intros [?|[E|?]]; [done|by rewrite E in Hml0|by apply (D m.1)]).
  assert (h2 !! m.1 = None) as Hm2 by (rewrite F2; [done|]; intros E; by rewrite E in Hml0).
  destruct (raw_sr_ok h2 l' a x r T2 N2 Hl') as (q1 & t0 & Eq & (D1 & D2 & D3) & Efix & Eit).
  unfold code. rewrite Q1, E2, bind_Ret, Eq. destruct (balanced (up_sr (BN l' a x r))) eqn:Ebal; mred; [|done].
  destruct (checked_sr l' a x r Hl' Hr) with (2 := Ebal) as (A & _); [lia|lia|].
  assert (addrs t0 = addrs (BN l' a x r)) as E0 by (by rewrite !addrs_items, Eit).
  destruct (settle_ok h2 t0 q1 D1 D2) as (h' & -> & T' & F'); [by rewrite E0|by rewrite Efix|by rewrite E0|].
  exists (ptr t0, h'). split; [done|]. rewrite Efix in T'. rewrite E0 in F'. split; [split_and!|]; cbn [fst snd].
  - by rewrite <- Efix, ptr_fix.
  - done.
  - intros c Hc. unfold t in Hc. rewrite elem_addrs in Hc. rewrite F', F2, Q3; [done|intros ?; apply Hc; auto|intros ->; apply Hc; auto|].
    rewrite elem_addrs. intros [?%Hsub|[?|?]]; apply Hc; auto.
  - exists m. split_and!; [|done|by rewrite F']. unfold t. rewrite items_BN, elem_of_app, elem_of_cons. auto.
Qed.

Lemma avl_remove_ok t w n : n <> 0 -> forall fuel h, h !! 0 = None -> avl t -> sorted_items (items t) -> tree_at h t -> NoDup (addrs t) ->
  holds h n w -> (length (addrs t) < fuel)%nat ->
  match av_remove t w with
  | Ret t' => exists q, avl_remove fuel h (ptr t) n = Ret q /\ removed h t t' w q
  | Crash f => avl_remove fuel h (ptr t) n = Crash f
  end.
Proof.
  intros Hn0. induction t as [|l IHl a x r IHr]; intros fuel h Hz Ha Hs Ht N Hh Hf; (destruct fuel as [|fuel]; [lia|]); cbn [avl_remove].
  { cbn [av_remove ptr]. rewrite (proj2 (Z.eqb_neq n 0)) by done. cbn [negb assertP Z.eqb]. rewrite !bind_Ret.
    unfold avl_compare, node_of. by rewrite Hz. }
  pose proof Ha as (_ & Hb & Hal & Har). pose proof Ht as (Ha0 & Ea & Hl & Hr). pose proof (NoDup_BN _ _ _ _ N) as (Nl & Nr & Al & Ar & D).
  pose proof Hs as Hs'. rewrite items_BN in Hs'. apply sorted_app in Hs' as (Sl & Sr & _). rewrite addrs_BN, length_app in Hf. cbn [length] in Hf.
  rewrite (proj2 (Z.eqb_neq n 0)) by done. cbn [negb assertP ptr]. rewrite bind_Ret, (proj2 (Z.eqb_neq a 0)) by done.
  assert (assert_balanced h a = Ret tt) as -> by (unfold assert_balanced; rewrite (lean_ok _ _ _ _ _ Ht), bind_Ret, (proj2 (Z.ltb_lt _ 2)); done).
  rewrite bind_Ret.
  pose proof Hh as (v & Ev & Ew). rewrite (avl_compare_ok _ _ _ _ _ Ea Ev), bind_Ret, (node_of_ok _ _ _ Ea), bind_Ret.
  cbn [tn_l tn_r tn_v]. rewrite Ew. cbn [av_remove]. destruct (Z.ltb_spec (doCompare x.2 w) 0) as [Hc|Hc]; [|destruct (Z.ltb_spec 0 (doCompare x.2 w)) as [Hc'|Hc']].
  - specialize (IHr fuel h Hz Har Sr Hr Nr Hh ltac:(lia)). destruct (av_remove r w) as [r'|f] eqn:Er; [|by rewrite IHr].
    destruct IHr as (q & -> & Hq). rewrite !bind_Ret. pose proof (remove_right h l a x r r' w q Ha Hs Ht N Er Hq) as R. cbv zeta in R |- *.
    destruct (balanced _); exact R.
  - specialize (IHl fuel h Hz Hal Sl Hl Nl Hh ltac:(lia)). destruct (av_remove l w) as [l'|f] eqn:El; [|by rewrite IHl].
    destruct IHl as (q & -> & Hq). rewrite !bind_Ret. pose proof (remove_left h l a x r l' w q Ha Hs Ht N El Hq) as R. cbv zeta in R |- *.
    destruct (balanced _); exact R.
  - assert (doCompare x.2 w = 0) as E0 by lia. unfold free_node. rewrite (node_of_ok _ _ _ Ea), !bind_Ret. cbv zeta.
    pose proof (join_code_ok (delete a h) l r) as J. fold (join_code (delete a h) (ptr l) (ptr r)).
    specialize (J ltac:(by apply tree_at_delete) ltac:(by apply tree_at_delete) ltac:(by apply NoDup_app) Hal Har).
    destruct (av_join l r) as [t'|f] eqn:Ej; [|by rewrite J]. destruct J as (q & t0 & -> & J1 & J2 & J3 & J4 & J5). rewrite bind_Ret.
    destruct (av_join_spec l r t' Hal Har Hb Ej) as (Ha' & _). assert (addrs t0 = addrs l ++ addrs r) as E1 by (rewrite !addrs_items, J4; apply fmap_app).
    destruct (settle_ok (delete a h) t0 q J1 J2) as (h' & -> & T & F); [rewrite E1; by apply NoDup_app|by rewrite J3|by rewrite E1|].
    rewrite E1 in F. eexists. split; [done|]. split; [split_and!|]; cbn [fst snd].
    + by rewrite <- J3, ptr_fix.
    + by rewrite <- J3.
    + intros c Hcc. rewrite elem_addrs in Hcc. rewrite F, lookup_delete_ne; [done|intros ->; apply Hcc; auto|].
      intros [?|?]%elem_of_app; apply Hcc; auto.
    + exists (a, x.2). split_and!; [rewrite items_BN, elem_of_app, elem_of_cons; auto|done|]. cbn [fst].
      rewrite F, lookup_delete_eq; [done|]. by intros [?|?]%elem_of_app.
Qed.

(** [clean()] calls [free()] on the children before their parent. *)
Fixpoint post_order t : list Z :=
  match t with BL => [] | BN l a _ r => post_order l ++ post_order r ++ [a] end.
Lemma clean_ok {S} (free : Z -> S -> outcome S) t : forall fuel h s, tree_at h t -> (length (addrs t) < fuel)%nat ->
  AvlTree_clean free fuel h (ptr t) s = foldl (fun m a => s ← m; free a s) (Ret s) (post_order t).
Proof.
  assert (forall (k : list Z) f, foldl (fun m a => s ← m; free a s) (Crash f) k = Crash f) as Hcrash by (induction k; done).
  induction t as [|l IHl a x r IHr]; intros fuel h s Ht Hf; (destruct fuel as [|fuel]; [lia|]); [done|].
  cbn [AvlTree_clean ptr post_order]. destruct Ht as (H0' & Ha & Hl & Hr). rewrite addrs_BN, length_app in Hf. cbn [length] in Hf.
  rewrite (proj2 (Z.eqb_neq a 0)) by done. rewrite (node_of_ok _ _ _ Ha), bind_Ret. cbn [tn_l tn_r]. rewrite !foldl_app.
  rewrite IHl by (done || lia). destruct (foldl _ (Ret s) (post_order l)) as [s1|f]; [|by rewrite Hcrash].
  rewrite bind_Ret, IHr by (done || lia). by destruct (foldl _ (Ret s1) (post_order r)).
Qed.
End RemoveHeap.

(** ** Theorems *)

Section SetAdd.
Context {W : Type} `{KeyOrder W}.
Lemma elem_set_add n w (k : list (Z * W)) b : b ∈ set_add n w k -> b = (n, w) \/ b ∈ k.
Proof.
  induction k as [|c k IH]; cbn; [by intros ?%list_elem_of_singleton; left|].
  destruct (_ =? 0); [by right|]. destruct (0 <? _); [by intros [?|?]%elem_of_cons; [left|right]|].
  intros [->|[?|?]%IH]%elem_of_cons; [right; by left|by left|right; by right].
Qed.
Lemma sorted_set_add n w (k : list (Z * W)) : sorted_items k -> sorted_items (set_add n w k).
Proof.
  unfold sorted_items. induction k as [|b k IH]; intros Hs; cbn; [by repeat constructor|].
  pose proof Hs as [Hk Hb]%StronglySorted_inv. destruct (Z.eqb_spec (doCompare b.2 w) 0) as [|Hne]; [done|].
  rewrite list.Forall_forall in Hb. destruct (Z.ltb_spec 0 (doCompare b.2 w)) as [Hc|Hc].
  - constructor; [done|]. assert (clt w b.2) as Hw by (by apply key_sym). apply list.Forall_forall.
    intros c [->|Hin]%elem_of_cons; [done|]. eapply key_clt_cle; [done|]. by apply key_clt_le, Hb.
  - constructor; [by apply IH|]. apply list.Forall_forall. intros c [->|Hin]%elem_set_add; [unfold clt; cbn; lia|by apply Hb].
Qed.
End SetAdd.

(** What a root pointer stands for: a balanced tree of distinct nodes, sorted without
    duplicates. *)
Record avl_rep {W} `{Comparator W} (h : avl_heap W) (root : Z) (t : htree W) : Prop := {
  avl_root : root = ptr t; avl_at : tree_at h t; avl_nodes : NoDup (addrs t);
  avl_balanced : avl t; avl_sorted : sorted_items (items t) }.

(** [C40] Insertion keeps the tree balanced, with the heights right, and sorted: the new
    node goes to its place, or stays out when an equal one is there; the nodes out of the
    tree are untouched. A search then finds the node that compares equal, or nothing. *)
Theorem AvlTree_insert_get {W} `{KeyOrder W} (h : avl_heap W) root t n w :
  avl_rep h root t -> n <> 0 -> ~ (n ∈ addrs t) -> h !! n = Some (AvlNode_make w) ->
  exists root' h' t', AvlTree_insert h root n = Ret (root', h') /\ avl_rep h' root' t' /\
    items t' = set_add n w (items t) /\
    (forall c, ~ (c ∈ addrs t) -> c <> n -> h' !! c = h !! c) /\
    forall m v, m <> 0 -> holds h' m v -> AvlTree_get h' root' m = Ret (default 0 (fst <$> set_find v (items t'))).
Proof.
  intros [-> Ht N Ha Hs] Hn0 Hn En. pose proof (tree_size h t Ht N).
  destruct (avl_insert_ok t n w (S (size h)) h Ha Ht N Hn0 Hn En ltac:(lia)) as ([p h'] & E & Ep & Ht' & _ & F). cbn [fst snd] in *. subst p.
  pose proof (items_insert t n w Hs) as Ei. set (t' := av_insert t n w) in *.
  assert (NoDup (addrs t')) as N' by by apply NoDup_insert.
  assert (sorted_items (items t')) as Hs' by (rewrite Ei; by apply sorted_set_add).
  exists (ptr t'), h', t'. split_and!; [exact E| |done|done|].
  - split; try done. by apply avl_insert_term.
  - intros m v Hm Hv. unfold AvlTree_get. rewrite (proj2 (Z.eqb_neq _ _) Hm). mred. pose proof (tree_size h' t' Ht' N').
    rewrite (avl_get_ok t' m v) by (done || lia). by rewrite av_find_list.
Qed.

(** Removal, when no assertion stops it, keeps the tree balanced and sorted, takes out
    the element that compares equal and frees its node. *)
Theorem AvlTree_remove_keeps {W} `{KeyOrder W} (h : avl_heap W) root t n w root' h' :
  avl_rep h root t -> n <> 0 -> h !! 0 = None -> holds h n w -> AvlTree_remove h root n = Ret (root', h') ->
  exists t' m, avl_rep h' root' t' /\ items t' = set_del w (items t) /\
    m ∈ items t /\ doCompare m.2 w = 0 /\ h' !! m.1 = None /\ forall c, ~ (c ∈ addrs t) -> h' !! c = h !! c.
Proof.
  intros [-> Ht N Ha Hs] Hn0 Hz Hh E. pose proof (tree_size h t Ht N).
  pose proof (avl_remove_ok t w n Hn0 (S (size h)) h Hz Ha Hs Ht N Hh ltac:(lia)) as R. unfold AvlTree_remove in E.
  destruct (av_remove t w) as [t'|f] eqn:Et; [|by rewrite R in E]. destruct R as (q & Eq & (Q1 & Q2 & Q3) & m & Hm & Em & Hf).
  rewrite Eq in E. injection E as ->. cbn [fst snd] in *. destruct (av_remove_spec t w t' Ha Hs Et) as (Ha' & _ & Ei).
  destruct (removed_addrs t t' w m Hs Ei Hm Em N) as (N' & _). exists t', m. split_and!; try done.
  split; try done. rewrite Ei. destruct (set_del_split w (items t) m Hs Hm Em) as (k1 & k2 & E1 & ->). rewrite E1 in Hs.
  pose proof Hs as (S1 & S2 & L1 & L2)%sorted_app. destruct k2 as [|b k2]; [by rewrite app_nil_r|].
  apply sorted_app. pose proof S2 as [S3 L3]%StronglySorted_inv. rewrite list.Forall_forall in L3. split_and!; [done|done| |done].
  intros c Hc. eapply key_clt_cle; [by apply L1|]. apply key_clt_le, L2. by left.
Qed.
(** It is not stopped when an equal element is there and no child that is taller than its
    sibling leans inwards. *)
Theorem AvlTree_remove_runs {W} `{KeyOrder W} (h : avl_heap W) root t n w :
  avl_rep h root t -> outer t -> n <> 0 -> h !! 0 = None -> holds h n w -> (exists b, b ∈ items t /\ doCompare b.2 w = 0) ->
  exists q, AvlTree_remove h root n = Ret q.
Proof.
  intros [-> Ht N Ha Hs] Ho Hn0 Hz Hh Hb. pose proof (tree_size h t Ht N).
  pose proof (avl_remove_ok t w n Hn0 (S (size h)) h Hz Ha Hs Ht N Hh ltac:(lia)) as R.
  destruct (av_remove_runs t w Ha Hs Ho Hb) as (t' & Et). rewrite Et in R. destruct R as (q & E & _). by exists q.
Qed.

(** A tree for the examples: the node of a key [k] is at [10 * k]. *)
Definition at_key l (k : Z) r : htree Z := mkb l (10 * k) k r.
Definition demo_avl : htree Z := at_key (at_key BL 1 BL) 3 (at_key (at_key BL 5 BL) 7 BL).

Lemma demo_avl_rep : avl_rep (heap_of demo_avl) 30 demo_avl.
Proof.
  split; [done| | | |].
  - cbn. split_and!; done.
  - by_decide.
  - cbn. split_and!; done.
  - by cbn; repeat constructor.
Defined.

Lemma AvlTree_insert_get_witness : exists root h' t',
  AvlTree_insert (<[60 := AvlNode_make 6]> (heap_of demo_avl)) 30 60 = Ret (root, h') /\ avl_rep h' root t' /\
  items t' = [(10, 1); (30, 3); (50, 5); (60, 6); (70, 7)].
Proof.
  destruct (AvlTree_insert_get (<[60 := AvlNode_make 6]> (heap_of demo_avl)) 30 demo_avl 60 6)
    as (root & h' & t' & E & R & L & _).
  - destruct demo_avl_rep. by split.
  - lia.
  - by_decide.
  - apply lookup_insert_eq.
  - exists root, h', t'. by split_and!.
Defined.

(** ** What the code does and should not *)

(** The removals know no double rotation: on a valid tree, their assertion fails. *)
Example remove_asserts : AvlTree_remove (heap_of demo_avl) 30 10 = Crash AssertFailed.
Proof. vm_compute. reflexivity. Qed.
(** An absent element is compared with the null pointer. *)
Example remove_absent : AvlTree_remove (<[60 := AvlNode_make 6]> (heap_of demo_avl)) 30 60 = Crash OutOfBounds.
Proof. vm_compute. reflexivity. Qed.
