(* ===== verification/TreeBag.v ===== *)
(** * Bags and maps as search trees ([data/TreeBag.h], [data/TreeMap.h])

    A bag owns its nodes: its heap holds the nodes of its tree and nothing else. The
    allocator is a parameter, with the promise that the address it gives is not null
    and not in use. Iterators keep a [Vector] of the nodes above the current one, and
    [clear] a [VectorQueue] of the nodes to free; both are those of their files. *)

From stdpp Require Import gmap sets.
From S2P Require Import Prelude Compare Vectors Queues Trees.
#[local] Open Scope Z_scope.

(* src/include/elm/data/TreeBag.h:201-201 TreeBag *)
Record TreeBag (T : Type) := mkTB { tb_root : Z; tb_heap : tree_heap T }.
Arguments mkTB {T} _ _.
Arguments tb_root {T} _.
Arguments tb_heap {T} _.

(** The iterator keeps nothing but the vector [s]. *)
Abbreviation tb_iter := (Vector Z).

Section TreeBag.
Context {T : Type} `{Comparator T}.
Context (new_node : tree_heap T -> Z).
Implicit Types (t : TreeBag T) (h : tree_heap T) (x : T).

(* src/include/elm/data/TreeBag.h:51-51 TreeBag::TreeBag *)
Definition TreeBag_make : TreeBag T := mkTB 0 ∅.
(* src/include/elm/data/TreeBag.h:61-61 TreeBag::isEmpty *)
Definition TreeBag_isEmpty t : bool := tb_root t =? 0.
(* src/include/elm/data/TreeBag.h:59-59 TreeBag::count *)
Definition TreeBag_count t : outcome Z := BinTree_count (S (size (tb_heap t))) (tb_heap t) (tb_root t).

(* src/include/elm/data/TreeBag.h:127-145 TreeBag::add *)
Definition tb_add_step h x (new_node node : Z) : outcome (Z + tree_heap T) :=
  if node =? 0 then Ret (inr h) else
  n ← node_of h node;
  if 0 <=? doCompare x (tn_v n) then
    if tn_r n =? 0 then h ← insertRight h node new_node; Ret (inr h) else Ret (inl (tn_r n))
  else
    if tn_l n =? 0 then h ← insertLeft h node new_node; Ret (inr h) else Ret (inl (tn_l n)).
(* src/include/elm/data/TreeBag.h:121-146 TreeBag::add *)
Definition TreeBag_add t x : outcome (TreeBag T) :=
  let node := tb_root t in
  let a := new_node (tb_heap t) in
  let h := <[a := BinNode_make x]> (tb_heap t) in
  if node =? 0 then Ret (mkTB a h)
  else h ← iter (S (size h)) (tb_add_step h x a) node; Ret (mkTB node h).
(* src/include/elm/data/TreeBag.h:148-149 TreeBag::addAll *)
Fixpoint TreeBag_addAll t (c : list T) : outcome (TreeBag T) :=
  match c with [] => Ret t | x :: c => t ← TreeBag_add t x; TreeBag_addAll t c end.

(* src/include/elm/data/TreeBag.h:188-196 TreeBag::find *)
Definition tb_find_step h x (node : Z) : outcome (Z + option T) :=
  if node =? 0 then Ret (inr None) else
  n ← node_of h node;
  let cmp := doCompare x (tn_v n) in
  Ret (if cmp =? 0 then inr (Some (tn_v n)) else if 0 <? cmp then inl (tn_r n) else inl (tn_l n)).
(** The value at the pointer returned. *)
(* src/include/elm/data/TreeBag.h:186-198 TreeBag::find *)
Definition TreeBag_find t x : outcome (option T) :=
  iter (S (size (tb_heap t))) (tb_find_step (tb_heap t) x) (tb_root t).
(* src/include/elm/data/TreeBag.h:60-60 TreeBag::contains *)
Definition TreeBag_contains t x : outcome bool :=
  r ← TreeBag_find t x; Ret (match r with Some _ => true | None => false end).
(* src/include/elm/data/TreeBag.h:64-65 TreeBag::containsAll *)
Fixpoint TreeBag_containsAll t (c : list T) : outcome bool :=
  match c with
  | [] => Ret true
  | x :: c => b ← TreeBag_contains t x; if negb b then Ret false else TreeBag_containsAll t c
  end.

(** [node] and [parent]. *)
(* src/include/elm/data/TreeBag.h:152-162 TreeBag::remove *)
Definition tb_seek h x (st : Z * Z) : outcome ((Z * Z) + (Z * Z)) :=
  let '(node, parent) := st in
  assertP (negb (node =? 0)) ;;
  n ← node_of h node;
  let cmp := doCompare x (tn_v n) in
  Ret (if cmp =? 0 then inr (node, parent)
       else inl (if 0 <? cmp then tn_r n else tn_l n, node)).
(* src/include/elm/data/TreeBag.h:203-210 TreeBag::replace *)
Definition TreeBag_replace t (parent old new : Z) : outcome (TreeBag T) :=
  if parent =? 0 then Ret (mkTB new (tb_heap t))
  else
    p ← node_of (tb_heap t) parent;
    h ← (if tn_l p =? old then insertLeft (tb_heap t) parent new else insertRight (tb_heap t) parent new);
    Ret (mkTB (tb_root t) h).
(* src/include/elm/data/TreeBag.h:171-171 TreeBag::remove *)
Definition tb_right_step h (node : Z) : outcome (Z + Z) :=
  n ← node_of h node; Ret (if tn_r n =? 0 then inr node else inl (tn_r n)).
(** The node is freed before its children are linked; only its address is compared
    afterwards. *)
(* src/include/elm/data/TreeBag.h:163-173 TreeBag::remove *)
Definition tb_unlink t (node parent : Z) : outcome (TreeBag T) :=
  n ← node_of (tb_heap t) node;
  let left := tn_l n in let right := tn_r n in
  h ← free_node (tb_heap t) node;
  let t := mkTB (tb_root t) h in
  if left =? 0 then TreeBag_replace t parent node right
  else if right =? 0 then TreeBag_replace t parent node left
  else
    t ← TreeBag_replace t parent node left;
    node ← iter (S (size (tb_heap t))) (tb_right_step (tb_heap t)) left;
    h ← insertRight (tb_heap t) node right; Ret (mkTB (tb_root t) h).
(* src/include/elm/data/TreeBag.h:150-174 TreeBag::remove *)
Definition TreeBag_remove t x : outcome (TreeBag T) :=
  q ← iter (S (size (tb_heap t))) (tb_seek (tb_heap t) x) (tb_root t, 0);
  tb_unlink t q.1 q.2.
(* src/include/elm/data/TreeBag.h:176-177 TreeBag::removeAll *)
Fixpoint TreeBag_removeAll t (c : list T) : outcome (TreeBag T) :=
  match c with [] => Ret t | x :: c => t ← TreeBag_remove t x; TreeBag_removeAll t c end.

(** The root is not changed. *)
(* src/include/elm/data/TreeBag.h:110-117 TreeBag::clear *)
Definition tb_clear_step (st : VectorQueue Z * tree_heap T) : outcome ((VectorQueue Z * tree_heap T) + tree_heap T) :=
  let '(todo, h) := st in
  if VectorQueue_isEmpty todo then Ret (inr h) else
  g ← VectorQueue_get todo;
  n ← node_of h g.1;
  todo ← (if tn_l n =? 0 then Ret g.2 else VectorQueue_put 0 g.2 (tn_l n));
  todo ← (if tn_r n =? 0 then Ret todo else VectorQueue_put 0 todo (tn_r n));
  h ← free_node h g.1;
  Ret (inl (todo, h)).
(* src/include/elm/data/TreeBag.h:105-118 TreeBag::clear *)
Definition TreeBag_clear t : outcome (TreeBag T) :=
  if TreeBag_isEmpty t then Ret t else
  todo ← VectorQueue_make 0 4;
  todo ← VectorQueue_put 0 todo (tb_root t);
  h ← iter (S (size (tb_heap t))) tb_clear_step (todo, tb_heap t);
  Ret (mkTB (tb_root t) h).

(** *** Iterator: the nodes from the root to the current one *)

(* src/include/elm/data/TreeBag.h:82-83 TreeBag::Iter::downLeft *)
Definition tb_downLeft_step h (s : tb_iter) : outcome (tb_iter + tb_iter) :=
  a ← Vector_top s; n ← node_of h a;
  if tn_l n =? 0 then Ret (inr s) else s ← Vector_push 0 s (tn_l n); Ret (inl s).
(* src/include/elm/data/TreeBag.h:82-83 TreeBag::Iter::downLeft *)
Definition tb_downLeft h (s : tb_iter) (n : Z) : outcome tb_iter :=
  s ← Vector_push 0 s n; iter (S (size h)) (tb_downLeft_step h) s.
(* src/include/elm/data/TreeBag.h:84-85 TreeBag::Iter::upRight *)
Definition tb_upRight_step h (st : tb_iter * Z) : outcome ((tb_iter * Z) + tb_iter) :=
  let '(s, n) := st in
  if Vector_isEmpty s then Ret (inr s) else
  a ← Vector_top s; v ← node_of h a;
  if tn_r v =? n then p ← Vector_pop s; Ret (inl (p.2, p.1)) else Ret (inr s).
(* src/include/elm/data/TreeBag.h:71-72 TreeBag::Iter::Iter *)
Definition TreeBagIter_make t : outcome tb_iter :=
  let s := Vector_make 0 8 in
  if tb_root t =? 0 then Ret s else tb_downLeft (tb_heap t) s (tb_root t).
(* src/include/elm/data/TreeBag.h:73-73 TreeBag::Iter::ended *)
Definition TreeBagIter_ended (s : tb_iter) : bool := Vector_isEmpty s.
(* src/include/elm/data/TreeBag.h:74-76 TreeBag::Iter::next *)
Definition TreeBagIter_next t (s : tb_iter) : outcome tb_iter :=
  let h := tb_heap t in
  a ← Vector_top s; v ← node_of h a;
  if negb (tn_r v =? 0) then tb_downLeft h s (tn_r v)
  else
    p ← Vector_pop s;
    let n := p.1 in let s := p.2 in
    if Vector_isEmpty s then Ret s else
    a ← Vector_top s; v ← node_of h a;
    if n =? tn_r v then iter (S (size h)) (tb_upRight_step h) (s, n) else Ret s.
(* src/include/elm/data/TreeBag.h:77-77 TreeBag::Iter::item *)
Definition TreeBagIter_item t (s : tb_iter) : outcome T :=
  a ← Vector_top s; v ← node_of (tb_heap t) a; Ret (tn_v v).

(** The elements seen by a loop on the iterator. *)
Fixpoint tb_items (fuel : nat) t (s : tb_iter) : outcome (list T) :=
  if TreeBagIter_ended s then Ret [] else
  match fuel with
  | O => Crash OutOfFuel
  | S fuel => x ← TreeBagIter_item t s; s ← TreeBagIter_next t s; l ← tb_items fuel t s; Ret (x :: l)
  end.
Definition TreeBag_items t : outcome (list T) :=
  s ← TreeBagIter_make t; tb_items (size (tb_heap t)) t s.

(* src/include/elm/data/TreeBag.h:180-184 TreeBag::copy *)
Definition TreeBag_copy t (from : TreeBag T) : outcome (TreeBag T) :=
  t ← TreeBag_clear t; c ← TreeBag_items from; TreeBag_addAll t c.
End TreeBag.

(** ** Maps: bags of pairs compared on their keys *)

Section TreeMap.
Context {K T : Type} `{Comparator K} (new_node : tree_heap (K * T) -> Z).
(** [T()], the value of the pairs made to look for a key. *)
Context (dflt : T).
#[local] Existing Instance AssocComparator.
Implicit Types m : TreeBag (K * T).

(* src/include/elm/data/TreeMap.h:35-35 TreeMap::TreeMap *)
Definition TreeMap_make : TreeBag (K * T) := TreeBag_make.
(* src/include/elm/data/TreeMap.h:111-111 TreeMap::key *)
Definition TreeMap_key (k : K) : K * T := (k, dflt).
(* src/include/elm/data/TreeMap.h:43-43 TreeMap::count *)
Definition TreeMap_count m : outcome Z := TreeBag_count m.
(* src/include/elm/data/TreeMap.h:45-45 TreeMap::isEmpty *)
Definition TreeMap_isEmpty m : bool := TreeBag_isEmpty m.
(* src/include/elm/data/TreeMap.h:44-44 TreeMap::contains *)
Definition TreeMap_contains m (k : K) : outcome bool := TreeBag_contains m (TreeMap_key k).
(* src/include/elm/data/TreeMap.h:68-71 TreeMap::get *)
Definition TreeMap_get m (k : K) : outcome (option T) :=
  res ← TreeBag_find m (k, dflt); Ret (match res with Some p => Some p.2 | None => None end).
(* src/include/elm/data/TreeMap.h:64-67 TreeMap::get *)
Definition TreeMap_get_default m (k : K) (def : T) : outcome T :=
  val ← TreeBag_find m (k, dflt); Ret (match val with Some p => p.2 | None => def end).
(* src/include/elm/data/TreeMap.h:72-72 TreeMap::hasKey *)
Definition TreeMap_hasKey m (k : K) : outcome bool := TreeBag_contains m (TreeMap_key k).
(* src/include/elm/data/TreeMap.h:103-104 TreeMap::put *)
Definition TreeMap_put m (k : K) (v : T) : outcome (TreeBag (K * T)) := TreeBag_add new_node m (k, v).
(* src/include/elm/data/TreeMap.h:105-106 TreeMap::remove *)
Definition TreeMap_remove m (k : K) : outcome (TreeBag (K * T)) := TreeBag_remove m (k, dflt).
(** The three iterators walk the same tree. *)
(* src/include/elm/data/TreeMap.h:88-99 TreeMap::PairIter *)
Definition TreeMap_pairs m : outcome (list (K * T)) := TreeBag_items m.
(* src/include/elm/data/TreeMap.h:74-85 TreeMap::KeyIter *)
Definition TreeMap_keys m : outcome (list K) := l ← TreeBag_items m; Ret (map fst l).
(* src/include/elm/data/TreeMap.h:48-59 TreeMap::Iter *)
Definition TreeMap_items m : outcome (list T) := l ← TreeBag_items m; Ret (map snd l).
End TreeMap.

(** ** Removal on terms *)

Section RemoveTerms.
Context {T : Type} `{KeyOrder T}.
Implicit Types (h : tree_heap T) (t l r : btree T) (x : T).

(** [r] as the last right child of [l]. *)
Fixpoint bt_append l r : btree T :=
  match l with BL => r | BN ll a x lr => BN ll a x (bt_append lr r) end.
Fixpoint bt_remove t x : btree T :=
  match t with
  | BL => BL
  | BN l a y r =>
      if doCompare x y =? 0 then bt_append l r
      else if doCompare x y <? 0 then BN (bt_remove l x) a y r else BN l a y (bt_remove r x)
  end.
Fixpoint bag_remove {B} (key : B -> T) x (l : list B) : list B :=
  match l with
  | [] => []
  | b :: l => if doCompare x (key b) =? 0 then l else b :: bag_remove key x l
  end.

Lemma nodes_append l r : nodes_in (bt_append l r) = nodes_in l ++ nodes_in r.
Proof. induction l as [|ll _ a x lr IH]; cbn; [done|]. by rewrite IH, <- app_assoc. Qed.
Lemma vals_append l r : vals (bt_append l r) = vals l ++ vals r.
Proof. unfold vals. by rewrite nodes_append, fmap_app. Qed.
Lemma addrs_append l r : addrs (bt_append l r) = addrs l ++ addrs r.
Proof. unfold addrs. by rewrite nodes_append, fmap_app. Qed.
Lemma append_BL l : bt_append l BL = l.
Proof. induction l as [|ll _ a x lr IH]; cbn; [done|]. by rewrite IH. Qed.

Lemma bst_append l r : bst l -> bst r -> (forall y z, y ∈ vals l -> z ∈ vals r -> cle y z) -> bst (bt_append l r).
Proof.
  induction l as [|ll _ a x lr IH]; cbn; [done|]. intros (H1 & H2 & H3 & H4) Hr Hlr.
  assert (forall y, y = x \/ y ∈ vals lr -> y ∈ vals (BN ll a x lr)) as Hin.
  { intros y Hy. rewrite vals_BN, elem_of_app, elem_of_cons. by right. }
  split_and!; [done| |done|].
  - intros z. rewrite vals_append, elem_of_app. intros [Hz|Hz]; [by apply H2|]. apply Hlr; [apply Hin; by left|done].
  - apply IH; [done|done|]. intros y z Hy. apply Hlr, Hin. by right.
Qed.

Lemma bag_remove_app {B} (key : B -> T) x (l k : list B) :
  (forall b, b ∈ l -> doCompare x (key b) <> 0) -> bag_remove key x (l ++ k) = l ++ bag_remove key x k.
Proof.
  induction l as [|b l IH]; intros Hl; cbn; [done|].
  rewrite (proj2 (Z.eqb_neq _ _)) by (apply Hl; left). f_equal. apply IH. intros c Hc. apply Hl. by right.
Qed.
Lemma bag_remove_front {B} (key : B -> T) x (l k : list B) :
  (forall b, b ∈ k -> doCompare x (key b) <> 0) -> bag_remove key x (l ++ k) = bag_remove key x l ++ k.
Proof.
  intros Hk. induction l as [|b l IH]; cbn.
  - rewrite <- (app_nil_r k) at 1. rewrite bag_remove_app by done. cbn. by rewrite app_nil_r.
  - destruct (_ =? 0); [done|]. cbn. by rewrite IH.
Qed.
Lemma bag_remove_sub {B} (key : B -> T) x (l : list B) b : b ∈ bag_remove key x l -> b ∈ l.
Proof.
  induction l as [|c l IH]; cbn; [done|]. rewrite elem_of_cons. destruct (_ =? 0); [auto|].
  rewrite elem_of_cons. naive_solver.
Qed.
Lemma bag_remove_sublist {B} (key : B -> T) x (l : list B) : bag_remove key x l `sublist_of` l.
Proof. induction l as [|c l IH]; cbn; [done|]. destruct (_ =? 0); [by apply sublist_cons|by apply sublist_skip]. Qed.
Lemma bag_remove_fmap {B} (key : B -> T) x (l : list B) : key <$> bag_remove key x l = bag_remove id x (key <$> l).
Proof. induction l as [|c l IH]; cbn; [done|]. destruct (_ =? 0); [done|]. cbn. by rewrite IH. Qed.
Lemma bag_add_fmap {B} (key : B -> T) b (l : list B) : key <$> bag_add key b l = bag_add id (key b) (key <$> l).
Proof. induction l as [|c l IH]; cbn; [done|]. destruct (_ <? 0); [done|]. cbn. by rewrite IH. Qed.
Lemma bag_find_fmap {B} (key : B -> T) x (l : list B) : key <$> bag_find key x l = bag_find id x (key <$> l).
Proof. induction l as [|c l IH]; cbn; [done|]. by destruct (_ =? 0). Qed.

Lemma nodes_remove t x : bst t -> nodes_in (bt_remove t x) = bag_remove snd x (nodes_in t).
Proof.
  induction t as [|l IHl a y r IHr]; intros Hb; cbn; [done|]. destruct Hb as (Hl & Hr & Bl & Br).
  destruct (Z.eqb_spec (doCompare x y) 0) as [E|E].
  - rewrite nodes_append, bag_remove_app by (apply (bst_left_apart l y); (done || lia)). cbn. by rewrite E.
  - destruct (Z.ltb_spec (doCompare x y) 0); cbn.
    + rewrite bag_remove_front; [by rewrite IHl|]. intros b [->|Hb]%elem_of_cons; [done|].
      by apply (bst_right_apart r y).
    + rewrite bag_remove_app by (apply (bst_left_apart l y); (done || lia)). cbn.
      rewrite (proj2 (Z.eqb_neq _ _) E). by rewrite IHr.
Qed.
Lemma vals_remove t x : bst t -> vals (bt_remove t x) = bag_remove id x (vals t).
Proof. intros Hb. unfold vals. by rewrite nodes_remove, bag_remove_fmap. Qed.
Lemma bst_remove t x : bst t -> bst (bt_remove t x).
Proof.
  induction t as [|l IHl a y r IHr]; intros Hb; cbn; [done|]. destruct Hb as (Hl & Hr & Bl & Br).
  destruct (_ =? 0).
  - apply bst_append; [done|done|]. intros z w Hz Hw. apply (key_trans _ y); [apply key_clt_le|]; auto.
  - destruct (_ <? 0); cbn; split_and!; auto; intros z; rewrite vals_remove by done; intros ?%bag_remove_sub; auto.
Qed.
End RemoveTerms.

(** ** The loops on the heap *)

Section Heap.
Context {T : Type} `{KeyOrder T}.
Implicit Types (h : tree_heap T) (t l r : btree T) (x : T).

(** The loop of [add] is the recursion of sorted trees. *)
Lemma tb_add_loop h a x fuel : forall node, h !! a = Some (BinNode_make x) -> node <> 0 ->
  iter fuel (tb_add_step h x a) node = sbt_insert fuel h node a.
Proof.
  induction fuel as [|fuel IH]; intros node Ea Hn; [done|]. cbn [iter sbt_insert].
  unfold tb_add_step at 2. unfold compare_nodes. rewrite (node_of_ok _ _ _ Ea). mred.
  rewrite (proj2 (Z.eqb_neq _ _) Hn). destruct (node_of h node) as [n|f]; [|done]. mred. cbn [tn_v BinNode_make].
  rewrite Z.leb_antisym. destruct (_ <? 0); mred.
  - destruct (Z.eqb_spec (tn_l n) 0); [by destruct (insertLeft h node a)|]. by apply IH.
  - destruct (Z.eqb_spec (tn_r n) 0); [by destruct (insertRight h node a)|]. by apply IH.
Qed.

Lemma tb_find_ok t x : forall h fuel, tree_at h t -> (length (addrs t) < fuel)%nat ->
  iter fuel (tb_find_step h x) (ptr t) = Ret (snd <$> bt_find t x).
Proof.
  induction t as [|l IHl a y r IHr]; intros h fuel Ht Hf; destruct fuel as [|fuel]; try lia; [done|].
  cbn [iter]. unfold tb_find_step at 2. rewrite (ptr_test h) by done. destruct Ht as (Ha0 & Ha & Hl & Hr).
  rewrite addrs_BN, length_app in Hf. cbn [length ptr bt_find] in *. rewrite (node_of_ok _ _ _ Ha). mred. cbn [tn_v tn_l tn_r].
  destruct (Z.eqb_spec (doCompare x y) 0); [done|].
  destruct (Z.ltb_spec 0 (doCompare x y)), (Z.ltb_spec (doCompare x y) 0); try lia; [apply IHr|apply IHl]; (done || lia).
Qed.

(** The loop to the rightmost node, and the link made there. *)
Lemma tb_right_ok l : forall h r fuel, l <> BL -> tree_at h l -> tree_at h r -> apart_trees l r ->
  (length (addrs l) < fuel)%nat ->
  exists node h', iter fuel (tb_right_step h) (ptr l) = Ret node /\ insertRight h node (ptr r) = Ret h' /\
    tree_at h' (bt_append l r) /\ node ∈ addrs l /\ forall b, b <> node -> h' !! b = h !! b.
Proof.
  induction l as [|ll _ a x lr IH]; intros h r fuel; [done|]. intros _ (Ha0 & Ha & Hll & Hlr) Hr N Hf.
  unfold apart_trees in N. apply NoDup_app in N as (N1 & N2 & N3). apply NoDup_BN in N1 as (Nl & Nr & Al & Ar & D).
  assert (~ (a ∈ addrs r)) as Hra by (apply N2, elem_addrs; auto).
  destruct fuel as [|fuel]; [lia|]. rewrite addrs_BN, length_app in Hf. cbn [iter length ptr] in *.
  unfold tb_right_step at 2. rewrite (node_of_ok _ _ _ Ha). mred. cbn [tn_r]. rewrite (ptr_test h) by done.
  destruct lr as [|lrl b y lrr].
  - exists a. eexists. split; [done|]. rewrite (insertRight_ok _ _ _ _ _ _ Ha). split; [done|]. split_and!.
    + by apply tree_at_BN.
    + apply elem_addrs. auto.
    + intros b Hb. by apply lookup_insert_ne.
  - destruct (IH h r fuel) as (node & h' & E & E' & T' & I & F); [done|done|done| |lia|].
    { apply NoDup_app. split_and!; [done| |done]. intros c Hc. apply N2, elem_addrs. auto. }
    exists node, h'. split_and!; [done|done| |apply elem_addrs; auto|done].
    assert (a <> node) by (by intros ->). split_and!; [done| | |done].
    + rewrite F by done. rewrite Ha. done.
    + eapply tree_at_same; [done|]. intros c Hc. apply F. intros ->. by apply (D node).
Qed.

(** What is outside a subtree [A] hanging from [p] when [old] is replaced by [q]. *)
Definition set_child (n : tnode T) (old q : Z) : tnode T :=
  if tn_l n =? old then mkTN q (tn_r n) (tn_v n) else mkTN (tn_l n) q (tn_v n).
Record replaced root h (p old q : Z) (A : list Z) (t' : TreeBag T) : Prop := {
  rp_root : tb_root t' = if p =? 0 then q else root;
  rp_same b : ~ (b ∈ A) -> (b = p -> p = 0) -> tb_heap t' !! b = h !! b;
  rp_parent n : p <> 0 -> h !! p = Some n -> tb_heap t' !! p = Some (set_child n old q) }.

Lemma TreeBag_replace_ok root h p old q : (p <> 0 -> is_Some (h !! p)) ->
  exists t2 : TreeBag T, TreeBag_replace (mkTB root h) p old q = Ret t2 /\ replaced root h p old q [] t2.
Proof.
  intros Hp. unfold TreeBag_replace. destruct (Z.eqb_spec p 0) as [->|Hp0].
  - eexists. split; [done|]. by split.
  - destruct (Hp Hp0) as [[pl pr v] Ep]. cbn [tb_heap]. rewrite (node_of_ok _ _ _ Ep). mred. cbn [tn_l].
    assert ((if pl =? old then insertLeft h p q else insertRight h p q) =
      Ret (<[p := set_child (mkTN pl pr v) old q]> h)) as ->.
    { unfold set_child. cbn. destruct (pl =? old); [by rewrite (insertLeft_ok _ _ _ _ _ _ Ep)|].
      by rewrite (insertRight_ok _ _ _ _ _ _ Ep). }
    mred. eexists. split; [done|]. split; cbn.
    + by rewrite (proj2 (Z.eqb_neq _ _) Hp0).
    + intros b _ Hb. apply lookup_insert_ne. intros ->. auto.
    + intros n _ En. rewrite Ep in En. injection En as <-. apply lookup_insert_eq.
Qed.

(** A tree that does not contain the node freed nor its parent is kept. *)
Lemma replaced_tree root h p a q t (t2 : TreeBag T) : replaced root (delete a h) p a q [] t2 -> tree_at h t ->
  ~ (p ∈ addrs t) -> ~ (a ∈ addrs t) -> tree_at (tb_heap t2) t.
Proof.
  intros R Ht Hp Ha. eapply tree_at_same; [by apply (tree_at_delete h t a)|]. intros b Hb.
  apply (rp_same _ _ _ _ _ _ _ R); [by apply not_elem_of_nil|by intros ->].
Qed.
Lemma replaced_freed root h p a q A (t2 : TreeBag T) : replaced root (delete a h) p a q [] t2 -> p <> a -> a ∈ A ->
  replaced root h p a q A t2 /\ tb_heap t2 !! a = None.
Proof.
  intros [R1 R2 R3] Hpa Ha. split.
  - split; [done| |].
    + intros b Hb Hbp. rewrite R2, lookup_delete_ne by (done || apply not_elem_of_nil || by intros ->). done.
    + intros n Hp En. apply R3; [done|]. by rewrite lookup_delete_ne.
  - rewrite R2, lookup_delete_eq by (done || apply not_elem_of_nil). done.
Qed.

Lemma tb_unlink_ok root h p l a y r : tree_at h (BN l a y r) -> NoDup (addrs (BN l a y r)) ->
  ~ (p ∈ addrs (BN l a y r)) -> (p <> 0 -> is_Some (h !! p)) ->
  exists t2 : TreeBag T, tb_unlink (mkTB root h) a p = Ret t2 /\ tree_at (tb_heap t2) (bt_append l r) /\
    replaced root h p a (ptr (bt_append l r)) (addrs (BN l a y r)) t2 /\ tb_heap t2 !! a = None.
Proof.
  intros (Ha0 & Ha & Hl & Hr) N Hp Ep. pose proof (NoDup_BN _ _ _ _ N) as (Nl & Nr & Al & Ar & D).
  assert (p <> a /\ ~ (p ∈ addrs l) /\ ~ (p ∈ addrs r)) as (Hpa & Hpl & Hpr).
  { split_and!; intros ?; apply Hp, elem_addrs; auto. }
  assert (a ∈ addrs (BN l a y r)) as Aa by (apply elem_addrs; auto).
  unfold tb_unlink. cbn [tb_heap tb_root]. rewrite (node_of_ok _ _ _ Ha). mred. unfold free_node. rewrite (node_of_ok _ _ _ Ha). mred.
  cbn [tn_l tn_r]. rewrite !(ptr_test h) by done.
  assert (forall q, exists t2 : TreeBag T, TreeBag_replace (mkTB root (delete a h)) p a q = Ret t2 /\
    replaced root (delete a h) p a q [] t2) as Rp.
  { intros q. apply TreeBag_replace_ok. rewrite lookup_delete_ne by done. done. }
  destruct l as [|ll b z lr].
  { destruct (Rp (ptr r)) as (t2 & -> & R). exists t2.
    split; [done|]. split; [by eapply replaced_tree|by apply replaced_freed]. }
  set (lt := BN ll b z lr) in *. change b with (ptr lt). destruct r as [|rl c w rr].
  { destruct (Rp (ptr lt)) as (t2 & -> & R). rewrite append_BL. exists t2.
    split; [done|]. split; [by eapply replaced_tree|by apply replaced_freed]. }
  set (rt := BN rl c w rr) in *. change c with (ptr rt). destruct (Rp (ptr lt)) as (t2 & -> & R). mred.
  pose proof (replaced_tree _ _ _ _ _ lt _ R Hl Hpl Al) as Tl.
  pose proof (replaced_tree _ _ _ _ _ rt _ R Hr Hpr Ar) as Tr. pose proof (tree_size _ _ Tl Nl).
  destruct (tb_right_ok lt (tb_heap t2) rt (S (size (tb_heap t2)))) as (node & h' & -> & E & T' & I & F); [done|done|done| |lia|].
  { apply NoDup_app. by split_and!. }
  mred. rewrite E. mred. eexists. split; [done|].
  destruct (replaced_freed _ _ _ _ _ (addrs (BN lt a y rt)) _ R Hpa Aa) as [[R1 R2 R3] Ra].
  assert (forall d, ~ (d ∈ addrs lt) -> h' !! d = tb_heap t2 !! d) as F' by (intros d Hd; apply F; by intros ->).
  split_and!; [done| |].
  - split; cbn [tb_root tb_heap].
    + by rewrite R1.
    + intros d Hd Hdp. rewrite F'; [by apply R2|]. intros Hd'. apply Hd, elem_addrs. auto.
    + intros n Hp0 En. rewrite F' by done. by apply R3.
  - cbn [tb_heap]. by rewrite F'.
Qed.

Lemma set_child_left (l : btree T) pr y q : set_child (mkTN (ptr l) pr y) (ptr l) q = mkTN q pr y.
Proof. unfold set_child. cbn. by rewrite Z.eqb_refl. Qed.
Lemma set_child_same (n : tnode T) a : tn_l n = a \/ tn_r n = a -> set_child n a a = n.
Proof.
  unfold set_child. destruct n as [nl nr v]. cbn. intros Ha. destruct (Z.eqb_spec nl a) as [->|]; [done|].
  by destruct Ha as [->| ->].
Qed.

Lemma addrs_remove t x b : b ∈ addrs (bt_remove t x) -> b ∈ addrs t.
Proof.
  induction t as [|l IHl a y r IHr]; cbn [bt_remove]; [done|].
  destruct (_ =? 0); [|destruct (_ <? 0)]; rewrite ?addrs_append, ?elem_of_app, !elem_addrs; naive_solver.
Qed.

(** One turn of the search. *)
Lemma tb_seek_ok h x l a y r p : tree_at h (BN l a y r) ->
  tb_seek h x (a, p) = Ret (if doCompare x y =? 0 then inr (a, p)
    else inl (if doCompare x y <? 0 then ptr l else ptr r, a)).
Proof.
  intros (Ha0 & Ha & _). unfold tb_seek. rewrite (proj2 (Z.eqb_neq _ _) Ha0). mred.
  rewrite (node_of_ok _ _ _ Ha). mred. cbn. destruct (Z.eqb_spec (doCompare x y) 0); [done|].
  destruct (Z.ltb_spec 0 (doCompare x y)), (Z.ltb_spec (doCompare x y) 0); try lia; done.
Qed.

(** The hypotheses of the removal on a node and its parent, and its result. *)
Record hangs root h p t : Prop := {
  hg_at : tree_at h t;
  hg_nodup : NoDup (addrs t);
  hg_out : ~ (p ∈ addrs t);
  hg_root : p = 0 -> root = ptr t;
  hg_parent : p <> 0 -> exists n, h !! p = Some n /\ (tn_l n = ptr t \/ tn_r n = ptr t) }.
Record removed root h p t t' (t2 : TreeBag T) : Prop := {
  rm_at : tree_at (tb_heap t2) t';
  rm_rest : replaced root h p (ptr t) (ptr t') (addrs t) t2;
  rm_free b : b ∈ addrs t -> is_Some (tb_heap t2 !! b) -> b ∈ addrs t' }.

(** A removal under [a] seen from the parent of [a]: nothing changes there. *)
Lemma removed_up root h p l a y r c c' A (t2 : TreeBag T) : hangs root h p (BN l a y r) ->
  replaced root h a c c' A t2 -> (forall b, b ∈ A -> b ∈ addrs (BN l a y r)) ->
  replaced root h p a a (addrs (BN l a y r)) t2.
Proof.
  intros [[Ha0 _] _ Hp Hr Hpar] [R1 R2 _] HA. split.
  - rewrite R1, (proj2 (Z.eqb_neq _ _) Ha0). destruct (Z.eqb_spec p 0); [by apply Hr|done].
  - intros b Hb _. apply R2; [auto|]. intros ->. destruct Hb. apply elem_addrs. auto.
  - intros n Hp0 En. destruct (Hpar Hp0) as (n' & En' & Hn). rewrite En in En'. injection En' as <-.
    rewrite set_child_same by done. rewrite R2, En; [done|auto|]. intros ->. destruct Hp. apply elem_addrs. auto.
Qed.

(** The search and the removal, from a node and its parent. *)
Lemma tb_remove_ok t x : forall fuel root h p, hangs root h p t -> is_Some (bt_find t x) -> (length (addrs t) < fuel)%nat ->
  exists t2 : TreeBag T, (q ← iter fuel (tb_seek h x) (ptr t, p); tb_unlink (mkTB root h) q.1 q.2) = Ret t2 /\
    removed root h p t (bt_remove t x) t2.
Proof.
  induction t as [|l IHl a y r IHr]; intros fuel root h p Hg; [by intros []|]. intros Hs Hf.
  destruct fuel as [|fuel]; [lia|]. cbn [iter ptr]. pose proof Hg as [Ht N Hp Hr Hpar].
  rewrite (tb_seek_ok h x l a y r) by done. pose proof (NoDup_BN _ _ _ _ N) as (Nl & Nr & Al & Ar & D).
  rewrite addrs_BN, length_app in Hf. pose proof Ht as (Ha0 & Ha & Hl & Hrt). cbn [length bt_find bt_remove] in *.
  destruct (doCompare x y =? 0); mred.
  - cbn [fst snd]. destruct (tb_unlink_ok root h p l a y r Ht N Hp) as (t2 & -> & T2 & R & F).
    { intros Hp0. destruct (Hpar Hp0) as (n & -> & _). done. }
    exists t2. split; [done|]. split; [done|done|]. intros b Hb [v Ev]. rewrite addrs_append, elem_of_app.
    rewrite elem_addrs in Hb. destruct Hb as [Hb|[->|Hb]]; [auto|congruence|auto].
  - destruct (doCompare x y <? 0).
    + destruct (IHl fuel root h a) as (t2 & -> & [R1 R2 R3]); [|done|lia|].
      { split; [done|done|done|done|]. intros _. eexists. split; [done|]. by left. }
      exists t2. split; [done|]. split.
      * split_and!; [done| |done|].
        -- rewrite (rp_parent _ _ _ _ _ _ _ R2 _ Ha0 Ha). by rewrite set_child_left.
        -- eapply tree_at_same; [done|]. intros b Hb. apply (rp_same _ _ _ _ _ _ _ R2); [|by intros ->].
           intros Hb'. by apply (D b).
      * apply (removed_up _ _ _ _ _ _ _ _ _ _ _ Hg R2). intros b Hb. apply elem_addrs. auto.
      * intros b. rewrite !elem_addrs. intros [Hb|[->|Hb]]; auto.
    + destruct (IHr fuel root h a) as (t2 & -> & [R1 R2 R3]); [|done|lia|].
      { split; [done|done|done|done|]. intros _. eexists. split; [done|]. by right. }
      exists t2. split; [done|]. split.
      * split_and!; [done| | |done].
        -- rewrite (rp_parent _ _ _ _ _ _ _ R2 _ Ha0 Ha). unfold set_child. cbn.
           destruct (Z.eqb_spec (ptr l) (ptr r)) as [E|]; [|done]. exfalso.
           destruct r as [|rl b z rr]; [by destruct Hs|]. destruct l as [|ll c w lr]; cbn in E.
           ++ by destruct Hrt.
           ++ subst c. apply (D b); apply elem_addrs; auto.
        -- eapply tree_at_same; [done|]. intros b Hb. apply (rp_same _ _ _ _ _ _ _ R2); [|by intros ->].
           by apply D.
      * apply (removed_up _ _ _ _ _ _ _ _ _ _ _ Hg R2). intros b Hb. apply elem_addrs. auto.
      * intros b. rewrite !elem_addrs. intros [Hb|[->|Hb]]; auto.
Qed.
Lemma tb_remove_none t x : forall fuel h p, tree_at h t -> bt_find t x = None -> (length (addrs t) < fuel)%nat ->
  iter fuel (tb_seek h x) (ptr t, p) = Crash AssertFailed.
Proof.
  induction t as [|l IHl a y r IHr]; intros fuel h p Ht Hs Hf; destruct fuel as [|fuel]; try lia; [done|].
  cbn [iter ptr]. rewrite (tb_seek_ok h x l a y r) by done. destruct Ht as (_ & _ & Hl & Hr).
  rewrite addrs_BN, length_app in Hf. cbn [bt_find length] in *. destruct (_ =? 0); [done|]. mred.
  destruct (_ <? 0); [apply IHl|apply IHr]; (done || lia).
Qed.
End Heap.

(** ** The iterator *)

Section IterProofs.
Context {T : Type}.
Implicit Types (h : tree_heap T) (t l r : btree T) (x : T).

(** The vectors and the queues that walk the tree grow without overflow as the heap has
    at most [VQ_MAX] nodes. *)
Lemma heap_room h (l : list Z) : Z.of_nat (size h) <= VQ_MAX -> (length l < size h)%nat -> zlen l < VEC_MAX.
Proof. unfold VQ_MAX, VEC_MAX. lia. Qed.

(** The nodes above the current one, from the nearest: gone left of it, with what is
    still to visit on its right, or gone right. *)
Inductive above := AboveLeft (b : Z) (y : T) (r : btree T) | AboveRight (pl b : Z) (y : T).
Definition above_addr (f : above) : Z := match f with AboveLeft b _ _ => b | AboveRight _ b _ => b end.
Definition path (c : list above) : list Z := rev (above_addr <$> c).
Fixpoint rest (c : list above) : list T :=
  match c with
  | [] => []
  | AboveLeft b y r :: c => y :: vals r ++ rest c
  | AboveRight _ _ _ :: c => rest c
  end.
(** The last node of the path is the parent of [child]; what is left to visit fits in
    the heap with the path. *)
Fixpoint above_ok h (c : list above) (child : Z) : Prop :=
  match c with
  | [] => True
  | AboveLeft b y r :: c => b <> 0 /\ h !! b = Some (mkTN child (ptr r) y) /\ ptr r <> child /\
      tree_at h r /\ NoDup (addrs r) /\ (length c + 1 + length (addrs r) <= size h)%nat /\ above_ok h c b
  | AboveRight pl b y :: c => b <> 0 /\ h !! b = Some (mkTN pl child y) /\ above_ok h c b
  end.
(** An iterator with the values [l] to come. *)
Record on_node h (s : tb_iter) a x r (c : list above) : Prop := {
  on_stack : vec_rep s (path c ++ [a]);
  on_cell : exists pl, h !! a = Some (mkTN pl (ptr r) x);
  on_nonzero : a <> 0;
  on_right : tree_at h r;
  on_nodup : NoDup (addrs r);
  on_size : (length c + 1 + length (addrs r) <= size h)%nat;
  on_max : Z.of_nat (size h) <= VQ_MAX;
  on_above : above_ok h c a }.
Definition iter_at h (s : tb_iter) (l : list T) : Prop :=
  (vec_rep s [] /\ l = []) \/ exists a x r c, on_node h s a x r c /\ l = x :: vals r ++ rest c.

Lemma path_cons f c : path (f :: c) = path c ++ [above_addr f].
Proof. unfold path. cbn. done. Qed.
Lemma length_path c : length (path c) = length c.
Proof. unfold path. by rewrite length_rev, length_fmap. Qed.

Lemma downLeft_loop t : forall h s c fuel, t <> BL -> tree_at h t -> NoDup (addrs t) ->
  (length c + length (addrs t) <= size h)%nat -> Z.of_nat (size h) <= VQ_MAX -> above_ok h c (ptr t) ->
  vec_rep s (path c ++ [ptr t]) -> (length (addrs t) <= fuel)%nat ->
  exists s', iter fuel (tb_downLeft_step h) s = Ret s' /\ iter_at h s' (vals t ++ rest c).
Proof.
  induction t as [|l IHl a x r _]; [done|]. intros h s c fuel _ Ht N Hsz Hmax Hc Hs Hf.
  pose proof Ht as (Ha0 & Ha & Hl & Hr). pose proof (NoDup_BN _ _ _ _ N) as (Nl & Nr & Al & Ar & D).
  rewrite addrs_BN, length_app in Hf, Hsz. cbn [length ptr] in *. destruct fuel as [|fuel]; [lia|].
  cbn [iter]. unfold tb_downLeft_step at 2. rewrite (top_rep _ _ _ Hs). mred. rewrite (node_of_ok _ _ _ Ha). mred.
  cbn [tn_l]. rewrite (ptr_test h) by done. destruct l as [|ll b y lr].
  - exists s. split; [done|]. right. exists a, x, r, c. split; [|done]. split; try done; [by eexists|lia].
  - destruct (add_rep 0 s _ (ptr (BN ll b y lr)) Hs) as (s1 & E1 & Hs1).
    { apply (heap_room h); [done|]. rewrite length_app, length_path. rewrite addrs_BN, !length_app in Hsz. cbn [length] in *. lia. }
    unfold Vector_push. rewrite E1. mred.
    set (lt := BN ll b y lr) in *. destruct (IHl h s1 (AboveLeft a x r :: c) fuel) as (s2 & E2 & H2); try done.
    + cbn [length]. lia.
    + cbn [above_ok]. split_and!; try done; [|lia]. intros E. destruct r as [|rl d z rr]; [cbn in E; by destruct Hl|].
      apply (D b); apply elem_addrs; [auto|]. cbn in E. subst. auto.
    + lia.
    + exists s2. split; [done|]. rewrite vals_BN. by app_norm.
Qed.
Lemma downLeft_ok t h s c : t <> BL -> tree_at h t -> NoDup (addrs t) ->
  (length c + length (addrs t) <= size h)%nat -> Z.of_nat (size h) <= VQ_MAX -> above_ok h c (ptr t) ->
  vec_rep s (path c) ->
  exists s', tb_downLeft h s (ptr t) = Ret s' /\ iter_at h s' (vals t ++ rest c).
Proof.
  intros Ht0 Ht N Hsz Hmax Hc Hs. unfold tb_downLeft, Vector_push. destruct (add_rep 0 s _ (ptr t) Hs) as (s1 & -> & Hs1).
  { apply (heap_room h); [done|]. rewrite length_path. destruct t; [done|]. rewrite addrs_BN, length_app in Hsz. cbn in Hsz. lia. }
  mred. apply downLeft_loop; (done || lia).
Qed.

Lemma upRight_loop h : Z.of_nat (size h) <= VQ_MAX -> forall c s n fuel, n <> 0 -> above_ok h c n -> vec_rep s (path c) -> (length c < fuel)%nat ->
  exists s', iter fuel (tb_upRight_step h) (s, n) = Ret s' /\ iter_at h s' (rest c).
Proof.
  intros Hmax. induction c as [|f c IH]; intros s n fuel Hn Hc Hs Hf; (destruct fuel as [|fuel]; [lia|]); cbn [iter];
    unfold tb_upRight_step at 2; rewrite (empty_rep _ _ Hs).
  - cbn. exists s. split; [done|]. by left.
  - rewrite path_cons in *. rewrite bool_decide_eq_false_2 by (by destruct (path c)). rewrite (top_rep _ _ _ Hs). mred.
    destruct f as [b y r|pl b y]; cbn [above_addr above_ok] in *.
    + destruct Hc as (Hb0 & Hb & Hne & Hr & N & Hsz & Hc). rewrite (node_of_ok _ _ _ Hb). mred. cbn [tn_r].
      rewrite (proj2 (Z.eqb_neq _ _) Hne). mred. exists s. split; [done|]. right. exists b, y, r, c. split; [|done].
      split; try done. by eexists.
    + destruct Hc as (Hb0 & Hb & Hc). rewrite (node_of_ok _ _ _ Hb). mred. cbn [tn_r].
      rewrite Z.eqb_refl. destruct (pop_rep _ _ _ Hs) as (s1 & E1 & Hs1). rewrite E1. mred. cbn [fst snd].
      apply IH; try done. cbn in Hf. lia.
Qed.

Lemma iter_item_ok (t : TreeBag T) s x (l : list T) : iter_at (tb_heap t) s (x :: l) -> TreeBagIter_item t s = Ret x.
Proof.
  intros [[_ ?]|(a & y & r & c & [Hs [pl Ha] _ _ _ _ _ _] & [= -> _])]; [done|]. unfold TreeBagIter_item.
  rewrite (top_rep _ _ _ Hs). mred. by rewrite (node_of_ok _ _ _ Ha).
Qed.
Lemma iter_ended_ok h s (l : list T) : iter_at h s l -> TreeBagIter_ended s = bool_decide (l = []).
Proof.
  unfold TreeBagIter_ended. intros [[Hs ->]|(a & y & r & c & Ho & ->)].
  - by rewrite (empty_rep _ _ Hs).
  - rewrite (empty_rep _ _ (on_stack _ _ _ _ _ _ Ho)). rewrite bool_decide_eq_false_2; [done|]. by destruct (path c).
Qed.
Lemma iter_next_ok (t : TreeBag T) s x (l : list T) : iter_at (tb_heap t) s (x :: l) ->
  exists s', TreeBagIter_next t s = Ret s' /\ iter_at (tb_heap t) s' l.
Proof.
  intros [[_ ?]|(a & y & r & c & [Hs [pl Ha] Ha0 Hr N Hsz Hmax Hc] & [= -> ->])]; [done|]. unfold TreeBagIter_next.
  rewrite (top_rep _ _ _ Hs). mred. rewrite (node_of_ok _ _ _ Ha). mred. cbn [tn_r]. rewrite (ptr_test (tb_heap t)) by done.
  destruct (decide (r = BL)) as [->|Hr0].
  - cbn [negb]. destruct (pop_rep _ _ _ Hs) as (s1 & -> & Hs1). mred. cbn [fst snd]. rewrite (empty_rep _ _ Hs1).
    destruct c as [|f c]; [rewrite bool_decide_eq_true_2 by done; exists s1; split; [done|by left]|].
    rewrite path_cons in *. rewrite bool_decide_eq_false_2 by (by destruct (path c)). rewrite (top_rep _ _ _ Hs1). mred.
    pose proof (upRight_loop (tb_heap t) Hmax (f :: c) s1 a (S (size (tb_heap t))) Ha0 Hc) as Up. rewrite path_cons in Up.
    destruct f as [b z r|ql b z]; cbn [above_addr above_ok rest] in *.
    + destruct Hc as (Hb0 & Hb & Hne & Hr' & N' & Hsz' & Hc). rewrite (node_of_ok _ _ _ Hb). mred. cbn [tn_r].
      rewrite (proj2 (Z.eqb_neq _ _)) by done. exists s1. split; [done|]. right. exists b, z, r, c. split; [|done].
      split; try done. by eexists.
    + destruct Hc as (Hb0 & Hb & Hc). rewrite (node_of_ok _ _ _ Hb). mred. cbn [tn_r]. rewrite Z.eqb_refl.
      apply Up; [done|]. cbn in *. lia.
  - assert (match r with BL => true | _ => false end = false) as -> by (by destruct r).
    mred. destruct (downLeft_ok r (tb_heap t) s (AboveRight pl a y :: c)) as (s' & -> & H'); try done.
    + cbn [length]. lia.
    + by exists s'.
Qed.

Lemma items_ok (t : TreeBag T) (l : list T) : forall fuel s, iter_at (tb_heap t) s l -> (length l <= fuel)%nat ->
  tb_items fuel t s = Ret l.
Proof.
  induction l as [|x l IH]; intros fuel s Hs Hf.
  - destruct fuel; cbn [tb_items]; by rewrite (iter_ended_ok _ _ _ Hs).
  - destruct fuel as [|fuel]; [cbn in Hf; lia|]. cbn [tb_items]. rewrite (iter_ended_ok _ _ _ Hs).
    rewrite bool_decide_eq_false_2 by done. rewrite (iter_item_ok _ _ _ _ Hs). mred.
    destruct (iter_next_ok _ _ _ _ Hs) as (s' & -> & Hs'). mred. rewrite IH by (done || (cbn in Hf; lia)). done.
Qed.
Lemma TreeBag_items_ok (t : btree T) h : tree_at h t -> NoDup (addrs t) -> Z.of_nat (size h) <= VQ_MAX ->
  TreeBag_items (mkTB (ptr t) h) = Ret (vals t).
Proof.
  intros Ht N Hmax. pose proof (tree_size h t Ht N) as Hsz. rewrite length_addrs in Hsz.
  unfold TreeBag_items, TreeBagIter_make. cbn [tb_root tb_heap]. rewrite (ptr_test h) by done.
  destruct (decide (t = BL)) as [->|Ht0].
  - mred. apply (items_ok (mkTB (ptr BL) h)); [|cbn; lia]. left. split; [|done]. by apply make_rep.
  - assert (match t with BL => true | _ => false end = false) as -> by (by destruct t).
    destruct (downLeft_ok t h (Vector_make 0 8) []) as (s & -> & Hs); try done.
    + cbn. by rewrite length_addrs.
    + by apply make_rep.
    + mred. cbn in Hs. rewrite app_nil_r in Hs. apply (items_ok (mkTB (ptr t) h)); [done|].
      unfold vals. by rewrite length_fmap.
Qed.
End IterProofs.

(** ** Clearing *)

Section Clear.
Context {T : Type}.
Implicit Types (h : tree_heap T) (t l r : btree T) (ts : list (btree T)).

Definition all_addrs ts : list Z := concat (addrs <$> ts).
(** The nodes of the heap are those of the trees to free. *)
Record to_free h ts : Prop := {
  fr_at t : t ∈ ts -> t <> BL /\ tree_at h t;
  fr_nodup : NoDup (all_addrs ts);
  fr_all a : is_Some (h !! a) -> a ∈ all_addrs ts }.
(** The children to put in the queue. *)
Definition child_list t : list (btree T) := match t with BL => [] | _ => [t] end.

Lemma all_addrs_app ts ts' : all_addrs (ts ++ ts') = all_addrs ts ++ all_addrs ts'.
Proof. unfold all_addrs. by rewrite fmap_app, concat_app. Qed.
Lemma all_addrs_child t : all_addrs (child_list t) = addrs t.
Proof. destruct t; [done|]. unfold all_addrs. cbn. by rewrite app_nil_r. Qed.
Lemma all_addrs_in t ts a : t ∈ ts -> a ∈ addrs t -> a ∈ all_addrs ts.
Proof. intros Ht Ha. apply list_elem_of_In, in_concat. exists (addrs t). rewrite <- !list_elem_of_In. split; [by apply list_elem_of_fmap_2|done]. Qed.

Lemma put_child (q : VectorQueue Z) ts t h : vq_rep q (ptr <$> ts) -> tree_at h t -> zlen ts < VQ_MAX ->
  exists q', (if ptr t =? 0 then Ret q else VectorQueue_put 0 q (ptr t)) = Ret q' /\ vq_rep q' (ptr <$> (ts ++ child_list t)).
Proof.
  intros Hq Ht Hmax. rewrite (ptr_test h) by done. rewrite fmap_app. destruct t as [|l a x r]; cbn [child_list].
  - rewrite app_nil_r. by exists q.
  - apply VectorQueue_put_rep; [done|]. apply Z.ltb_lt. by rewrite length_fmap.
Qed.

Lemma clear_step_ok q h l a x r ts : vq_rep q (ptr <$> (BN l a x r :: ts)) -> to_free h (BN l a x r :: ts) ->
  zlen ts + 1 < VQ_MAX ->
  exists q', tb_clear_step (q, h) = Ret (inl (q', delete a h)) /\
    vq_rep q' (ptr <$> (ts ++ child_list l ++ child_list r)) /\ to_free (delete a h) (ts ++ child_list l ++ child_list r).
Proof.
  intros Hq [F1 F2 F3] Hmax. destruct (F1 (BN l a x r)) as (_ & Ha0 & Ha & Hl & Hr); [by left|].
  assert (all_addrs (BN l a x r :: ts) ≡ₚ a :: all_addrs (ts ++ child_list l ++ child_list r)) as P.
  { change (all_addrs (BN l a x r :: ts)) with (addrs (BN l a x r) ++ all_addrs ts).
    rewrite addrs_BN, !all_addrs_app, !all_addrs_child. rewrite <- Permutation_middle. cbn. constructor.
    by rewrite (Permutation_app_comm (all_addrs ts)). }
  unfold tb_clear_step. cbn [fmap list_fmap ptr] in Hq. rewrite (vq_not_empty _ _ _ Hq : VectorQueue_isEmpty q = false).
  destruct (VectorQueue_get_rep _ _ _ Hq) as (q1 & -> & Hq1). mred. cbn [fst snd].
  rewrite (node_of_ok _ _ _ Ha). mred. cbn [tn_l tn_r].
  destruct (put_child q1 ts l h Hq1 Hl) as (q2 & -> & Hq2); [lia|]. mred.
  destruct (put_child q2 _ r h Hq2 Hr) as (q3 & -> & Hq3).
  { rewrite length_app. assert (length (child_list l) <= 1)%nat by (destruct l; cbn; lia). lia. }
  mred.
  unfold free_node. rewrite (node_of_ok _ _ _ Ha). mred. exists q3. rewrite <- app_assoc in Hq3. split_and!; [done|done|].
  rewrite P in F2. apply NoDup_cons in F2 as [F2 F4]. split; [|done|].
  - intros t Ht. assert (t <> BL /\ tree_at h t) as [? Ht'].
    { apply elem_of_app in Ht as [Ht|Ht]; [apply F1; by right|].
      apply elem_of_app in Ht as [Ht|Ht]; (destruct l, r; cbn in Ht; try by apply not_elem_of_nil in Ht);
        apply list_elem_of_singleton in Ht as ->; done. }
    split; [done|]. apply tree_at_delete; [done|]. intros Hin. by apply F2, (all_addrs_in t).
  - intros b [v Hb]. destruct (decide (b = a)) as [->|Hne]; [by rewrite lookup_delete_eq in Hb|].
    rewrite lookup_delete_ne in Hb by done. assert (b ∈ all_addrs (BN l a x r :: ts)) as Hin by (by apply F3).
    rewrite P in Hin. by apply elem_of_cons in Hin as [?|?].
Qed.

Lemma to_free_length h ts : to_free h ts -> (length ts <= length (all_addrs ts))%nat.
Proof.
  intros [F _ _]. induction ts as [|t ts IH]; [done|]. change (all_addrs (t :: ts)) with (addrs t ++ all_addrs ts).
  rewrite length_app. destruct (F t) as [Ht _]; [by left|]. destruct t as [|l a x r]; [done|].
  rewrite addrs_BN, length_app. cbn [length]. specialize (IH ltac:(intros t Hin; apply F; by right)). lia.
Qed.
Lemma clear_loop_ok : forall fuel q h ts, vq_rep q (ptr <$> ts) -> to_free h ts -> zlen (all_addrs ts) < VQ_MAX ->
  (length (all_addrs ts) < fuel)%nat ->
  iter fuel tb_clear_step (q, h) = Ret ∅.
Proof.
  induction fuel as [|fuel IH]; intros q h ts Hq F Hmax Hf; [lia|]. cbn [iter]. pose proof (to_free_length h ts F) as Hlen.
  destruct ts as [|t ts].
  - unfold tb_clear_step at 2. replace (VectorQueue_isEmpty q) with true.
    + mred. f_equal. apply map_eq. intros a. rewrite lookup_empty. destruct (h !! a) eqn:E; [|done].
      destruct (not_elem_of_nil a). by apply (fr_all _ _ F).
    + symmetry. unfold VectorQueue_isEmpty. cbn in Hq. rewrite (vq_empty_eq q Hq). apply Z.eqb_refl.
  - destruct (fr_at _ _ F t) as [Ht _]; [by left|]. destruct t as [|l a x r]; [done|].
    destruct (clear_step_ok _ _ _ _ _ _ _ Hq F) as (q' & -> & Hq' & F'); [cbn [length] in Hlen; lia|].
    mred. change (all_addrs (BN l a x r :: ts)) with (addrs (BN l a x r) ++ all_addrs ts) in Hf, Hmax.
    rewrite length_app, addrs_BN, length_app in Hf, Hmax. cbn [length] in Hf, Hmax.
    apply (IH _ _ _ Hq' F'); rewrite !all_addrs_app, !all_addrs_child, !length_app; lia.
Qed.
Lemma TreeBag_clear_ok h t : tree_at h t -> NoDup (addrs t) -> (forall a, is_Some (h !! a) -> a ∈ addrs t) ->
  Z.of_nat (size h) < VQ_MAX ->
  TreeBag_clear (mkTB (ptr t) h) = Ret (mkTB (ptr t) ∅).
Proof.
  intros Ht N Hall Hmax. unfold TreeBag_clear, TreeBag_isEmpty. cbn [tb_root tb_heap]. rewrite (ptr_test h) by done.
  destruct (decide (t = BL)) as [->|Ht0].
  - f_equal. f_equal. apply map_eq. intros a. rewrite lookup_empty. destruct (h !! a) eqn:E; [|done].
    destruct (not_elem_of_nil a). by apply Hall.
  - assert (match t with BL => true | _ => false end = false) as -> by (by destruct t).
    destruct (VectorQueue_make_rep 0 4 ltac:(lia)) as (q & -> & Hq). mred.
    destruct (VectorQueue_put_rep 0 q [] (ptr t) Hq eq_refl) as (q1 & -> & Hq1). mred.
    assert (all_addrs [t] = addrs t) as E by (unfold all_addrs; cbn; apply app_nil_r).
    rewrite (clear_loop_ok _ _ _ [t]); [done|done| | |].
    + split; [|by rewrite E|by intros a; rewrite E; auto]. by intros t' ->%list_elem_of_singleton.
    + rewrite E. pose proof (tree_size h t Ht N). lia.
    + rewrite E. pose proof (tree_size h t Ht N). lia.
Qed.
End Clear.

(** ** A bag is the sorted list of its elements *)

Inductive bag_op (T : Type) := BAdd (x : T) | BRemove (x : T) | BContains (x : T) | BFind (x : T) | BCount | BItems.
Arguments BAdd {T} _.
Arguments BRemove {T} _.
Arguments BContains {T} _.
Arguments BFind {T} _.
Arguments BCount {T}.
Arguments BItems {T}.
Inductive bag_out (T : Type) := OutUnit | OutBool (b : bool) | OutFound (r : option T) | OutNum (n : Z) | OutList (l : list T).
Arguments OutUnit {T}.
Arguments OutBool {T} _.
Arguments OutFound {T} _.
Arguments OutNum {T} _.
Arguments OutList {T} _.

Section Refinement.
Context {T : Type} `{KeyOrder T}.
Context (new_node : tree_heap T -> Z).
Implicit Types (b : TreeBag T) (h : tree_heap T) (t : btree T) (x : T) (l : list T).

Definition bag_exec b (o : bag_op T) : outcome (bag_out T * TreeBag T) :=
  match o with
  | BAdd x => b ← TreeBag_add new_node b x; Ret (OutUnit, b)
  | BRemove x => b ← TreeBag_remove b x; Ret (OutUnit, b)
  | BContains x => r ← TreeBag_contains b x; Ret (OutBool r, b)
  | BFind x => r ← TreeBag_find b x; Ret (OutFound r, b)
  | BCount => n ← TreeBag_count b; Ret (OutNum n, b)
  | BItems => l ← TreeBag_items b; Ret (OutList l, b)
  end.
(** The same on a sorted list: additions after the elements that are not greater,
    look up and removal of the first one that compares equal. *)
Definition list_exec l (o : bag_op T) : outcome (bag_out T * list T) :=
  match o with
  | BAdd x => Ret (OutUnit, bag_add id x l)
  | BRemove x => match bag_find id x l with Some _ => Ret (OutUnit, bag_remove id x l) | None => Crash AssertFailed end
  | BContains x => Ret (OutBool (match bag_find id x l with Some _ => true | None => false end), l)
  | BFind x => Ret (OutFound (bag_find id x l), l)
  | BCount => Ret (OutNum (zlen l), l)
  | BItems => Ret (OutList l, l)
  end.
Fixpoint run_ops {S} (exec : S -> bag_op T -> outcome (bag_out T * S)) (s : S) (os : list (bag_op T)) :
    outcome (list (bag_out T) * S) :=
  match os with
  | [] => Ret ([], s)
  | o :: os => r ← exec s o; q ← run_ops exec r.2 os; Ret (r.1 :: q.1, q.2)
  end.

Record tb_rep b t : Prop := {
  br_root : tb_root b = ptr t;
  br_at : tree_at (tb_heap b) t;
  br_nodup : NoDup (addrs t);
  br_bst : bst t;
  br_all a : is_Some (tb_heap b !! a) -> a ∈ addrs t }.

Hypothesis new_node_ok : forall h, new_node h <> 0 /\ h !! new_node h = None.

Lemma TreeBag_add_ok b t x : tb_rep b t ->
  exists b' t', TreeBag_add new_node b x = Ret b' /\ tb_rep b' t' /\ vals t' = bag_add id x (vals t).
Proof.
  destruct b as [root h]. intros [Hroot Ht N B Hall]. cbn [tb_heap tb_root] in *. subst root. unfold TreeBag_add. cbn [tb_root tb_heap].
  destruct (new_node_ok h) as [Hn0 Hn]. set (n := new_node h) in *.
  assert (~ (n ∈ addrs t)) as Hnt by (intros Hin; destruct (tree_at_nonzero h t n Ht Hin) as [_ [v E]]; congruence).
  set (t' := bt_insert t n x). set (h0 := <[n := BinNode_make x]> h).
  pose proof (bst_insert t n x B) as B'. pose proof (nodes_in_insert t n x B) as E. fold t' in B', E.
  assert (vals t' = bag_add id x (vals t)) as Ev by (unfold vals; by rewrite E, bag_add_fmap).
  assert (forall a, a ∈ addrs t' <-> a = n \/ a ∈ addrs t) as Ha.
  { intros a. unfold addrs. by rewrite E, (bag_add_perm snd), fmap_cons, elem_of_cons. }
  assert (NoDup (addrs t')) as N' by (unfold addrs; rewrite E, (bag_add_perm snd); by apply NoDup_cons).
  assert (forall h1, (forall a, ~ (a ∈ addrs t) -> h1 !! a = h0 !! a) -> forall a, is_Some (h1 !! a) -> a ∈ addrs t') as Hall'.
  { intros h1 F a Hs. apply Ha. destruct (decide (a = n)) as [|Hne]; [by left|right].
    destruct (decide (a ∈ addrs t)) as [|Hnin]; [done|]. apply Hall. rewrite F in Hs by done.
    unfold h0 in Hs. by rewrite lookup_insert_ne in Hs. }
  rewrite (ptr_test h) by done. destruct (decide (t = BL)) as [->|Ht0].
  - exists (mkTB n h0), t'. split; [done|]. split; [|done]. split; cbn [tb_heap tb_root]; try done; [|by apply Hall'].
    unfold t'. cbn. split_and!; try done. apply lookup_insert_eq.
  - assert (match t with BL => true | _ => false end = false) as -> by (by destruct t).
    assert (tree_at h0 t) as T0 by (by apply tree_at_insert). pose proof (tree_size h0 t T0 N).
    assert (ptr t <> 0) as Hp by (intros Hp; by apply Ht0, (ptr_0 h)).
    destruct (sbt_insert_ok t n x (S (size h0)) h0) as (h1 & E1 & T1 & F); try done; [apply lookup_insert_eq|lia|].
    rewrite (tb_add_loop h0 n x), E1 by (done || apply lookup_insert_eq). mred.
    exists (mkTB (ptr t) h1), t'. split; [done|]. split; [|done]. split; cbn [tb_heap tb_root]; try done; [|by apply Hall'].
    unfold t'. destruct t; [done|]. cbn. by destruct (_ <? 0).
Qed.

Lemma TreeBag_find_ok b t x : tb_rep b t -> TreeBag_find b x = Ret (bag_find id x (vals t)).
Proof.
  intros [Hr Ht N B _]. pose proof (tree_size _ t Ht N). unfold TreeBag_find. rewrite Hr.
  rewrite tb_find_ok by (done || lia). by rewrite bt_find_list, bag_find_fmap.
Qed.

Lemma TreeBag_remove_ok b t x : tb_rep b t ->
  match bag_find id x (vals t) with
  | Some _ => exists b' t', TreeBag_remove b x = Ret b' /\ tb_rep b' t' /\ vals t' = bag_remove id x (vals t)
  | None => TreeBag_remove b x = Crash AssertFailed
  end.
Proof.
  destruct b as [root h]. intros [Hroot Ht N B Hall]. cbn [tb_heap tb_root] in *. subst root. pose proof (tree_size _ t Ht N).
  unfold vals at 1. rewrite <- bag_find_fmap, <- bt_find_list by done. unfold TreeBag_remove. cbn [tb_root tb_heap].
  destruct (bt_find t x) as [n|] eqn:E; cbn [fmap option_fmap option_map].
  - assert (hangs (ptr t) h 0 t) as Hg.
    { split; try done. intros H0'. by destruct (tree_at_nonzero h t 0 Ht H0'). }
    destruct (tb_remove_ok t x (S (size h)) (ptr t) h 0 Hg) as (b' & -> & [R1 [R2 R3 _] R4]); [by rewrite E|lia|].
    exists b', (bt_remove t x). split; [done|]. split; [|by apply vals_remove]. split; [done|done| |by apply bst_remove|].
    + unfold addrs. rewrite nodes_remove by done. eapply sublist_NoDup; [exact N|]. apply fmap_sublist, bag_remove_sublist.
    + intros a Ha. destruct (decide (a ∈ addrs t)) as [Hin|Hnin]; [by apply R4|].
      exfalso. apply Hnin, Hall. rewrite <- R3; done.
  - by rewrite tb_remove_none by (done || lia).
Qed.

(** The heap has as many nodes as the bag has elements. *)
Lemma heap_size b t : tb_rep b t -> size (tb_heap b) = length (vals t).
Proof.
  intros [_ Ht N _ Hall]. unfold vals. rewrite length_fmap, <- length_addrs. apply Nat.le_antisymm; [|by apply tree_size].
  rewrite <- size_dom, <- (size_list_to_set (C := gset Z) (addrs t)) by done. apply subseteq_size.
  intros a Ha%elem_of_dom. by apply elem_of_list_to_set, Hall.
Qed.
Lemma list_exec_length l o out l' : list_exec l o = Ret (out, l') -> zlen l' <= zlen l + 1.
Proof.
  assert (forall x, length (bag_add id x l) = S (length l)) as Hadd.
  { intros x. by rewrite (Permutation_length (bag_add_perm id x l)). }
  destruct o as [x|x|x|x| |]; cbn [list_exec]; try (intros [= _ <-]; lia).
  - intros [= _ <-]. rewrite Hadd. lia.
  - destruct (bag_find id x l); [|done]. intros [= _ <-].
    pose proof (sublist_length _ _ (bag_remove_sublist id x l)). lia.
Qed.

Lemma bag_exec_ok b t o : tb_rep b t -> zlen (vals t) <= VQ_MAX ->
  match list_exec (vals t) o with
  | Ret (out, l) => exists b' t', bag_exec b o = Ret (out, b') /\ tb_rep b' t' /\ vals t' = l
  | Crash f => bag_exec b o = Crash f
  end.
Proof.
  intros Hb Hmax. pose proof (heap_size b t Hb) as Hsz. destruct o as [x|x|x|x| |]; cbn [list_exec bag_exec].
  - destruct (TreeBag_add_ok b t x Hb) as (b' & t' & -> & ? & ?). by exists b', t'.
  - pose proof (TreeBag_remove_ok b t x Hb) as Hr. destruct (bag_find id x (vals t)); [|by rewrite Hr].
    destruct Hr as (b' & t' & -> & ? & ?). by exists b', t'.
  - unfold TreeBag_contains. rewrite (TreeBag_find_ok b t x Hb). by exists b, t.
  - rewrite (TreeBag_find_ok b t x Hb). by exists b, t.
  - pose proof Hb as [Hr Ht N _ _]. pose proof (tree_size _ t Ht N). unfold TreeBag_count. rewrite Hr.
    rewrite count_ok by (done || lia). mred. exists b, t. split_and!; try done. by rewrite length_addrs; unfold vals; rewrite length_fmap.
  - pose proof Hb as [Hr Ht N _ _]. destruct b as [root h]. cbn in *. subst root.
    rewrite TreeBag_items_ok by (done || lia). by exists (mkTB (ptr t) h), t.
Qed.

Lemma bag_run_ok os : forall b t, tb_rep b t -> zlen (vals t) + zlen os <= VQ_MAX ->
  match run_ops list_exec (vals t) os with
  | Ret (outs, l) => exists b' t', run_ops bag_exec b os = Ret (outs, b') /\ tb_rep b' t' /\ vals t' = l
  | Crash f => run_ops bag_exec b os = Crash f
  end.
Proof.
  induction os as [|o os IH]; intros b t Hb Hmax; cbn [run_ops]; [by exists b, t|]. cbn [length] in Hmax.
  pose proof (bag_exec_ok b t o Hb ltac:(lia)) as Ho. pose proof (list_exec_length (vals t) o) as Hlen.
  destruct (list_exec (vals t) o) as [[out l]|f]; mred; [|by rewrite Ho]. specialize (Hlen _ _ eq_refl).
  destruct Ho as (b' & t' & -> & Hb' & <-). mred. cbn [fst snd]. specialize (IH b' t' Hb' ltac:(lia)).
  destruct (run_ops list_exec (vals t') os) as [[outs l]|f]; mred; [|by rewrite IH].
  destruct IH as (b2 & t2 & -> & ? & ?). by exists b2, t2.
Qed.

Lemma bst_sorted t : bst t -> StronglySorted cle (vals t).
Proof.
  induction t as [|l IHl a y r IHr]; [constructor|]. intros (Hl & Hr & Bl & Br). rewrite vals_BN.
  assert (StronglySorted cle (y :: vals r)) as Hs by (constructor; [auto|by apply list.Forall_forall]).
  assert (forall z w, z ∈ vals l -> w ∈ y :: vals r -> cle z w) as Hlr.
  { intros z w Hz [->|Hw]%elem_of_cons; [|apply (key_trans _ y); [|auto]]; apply key_clt_le; auto. }
  specialize (IHl Bl). clear Hl. revert Hlr. induction IHl as [|z k Hk IH Hz]; [done|]. intros Hlr. cbn. constructor.
  - apply IH. intros u w Hu. apply Hlr. by right.
  - apply Forall_app. split; [done|]. apply list.Forall_forall. intros w Hw. apply Hlr; [by left|done].
Qed.
End Refinement.

Section FirstAdded.
Context {T : Type} `{KeyOrder T}.
(** In a sorted list an addition does not hide the elements that are equal. *)
Lemma bag_find_add (x b : T) l : StronglySorted cle l ->
  bag_find id x (bag_add id b l) =
    match bag_find id x l with Some y => Some y | None => if doCompare x b =? 0 then Some b else None end.
Proof.
  induction 1 as [|c l Hl IH Hc]; [done|]. cbn [bag_add]. cbn [id].
  destruct (Z.ltb_spec (doCompare b c) 0) as [Hb|Hb]; cbn [bag_find id].
  - destruct (Z.eqb_spec (doCompare x b) 0) as [E|E].
    + apply key_equal in E as [Exb Ebx]. assert (clt x c) as Hx by (by apply (key_cle_clt _ b)).
      assert (bag_find id x (c :: l) = None) as Hn; [|by cbn in Hn; rewrite Hn].
      apply bag_find_none. intros y [->|Hy]%elem_of_cons; cbn; [unfold clt in Hx; lia|].
      rewrite list.Forall_forall in Hc. pose proof (key_clt_cle _ _ _ Hx (Hc y Hy)) as Hxy. unfold clt in Hxy. lia.
    + destruct (doCompare x c =? 0); [done|]. by destruct (bag_find id x l).
  - destruct (doCompare x c =? 0); [done|]. apply IH.
Qed.
End FirstAdded.

(** ** Properties *)

(** [C27] A bag behaves as the sorted list of its elements on every sequence of operations:
    additions, removals (that stop on the assertion when there is no element to
    remove), look ups, counts and iterations give the same results, the nodes freed
    are never read again, and the heap holds the nodes of the tree and no other. The
    bag has fewer than 2^30 elements: the stack of the iterator doubles its capacity
    in an [int]. *)
Theorem TreeBag_refines_list {T} `{KeyOrder T} (new_node : tree_heap T -> Z) os b t :
  (forall h, new_node h <> 0 /\ h !! new_node h = None) -> tb_rep b t -> zlen (vals t) + zlen os <= VQ_MAX ->
  StronglySorted cle (vals t) /\
  match run_ops list_exec (vals t) os with
  | Ret (outs, l) => exists b' t', run_ops (bag_exec new_node) b os = Ret (outs, b') /\ tb_rep b' t' /\ vals t' = l
  | Crash f => run_ops (bag_exec new_node) b os = Crash f
  end.
Proof. intros Hn Hb Hmax. split; [by apply bst_sorted, (br_bst _ _ Hb)|by apply bag_run_ok]. Qed.

Definition demo_ops : list (bag_op Z) :=
  [BAdd 5; BAdd 2; BAdd 8; BAdd 5; BAdd 7; BItems; BRemove 5; BFind 5; BContains 9; BItems; BCount].
Lemma TreeBag_empty_rep {T} `{KeyOrder T} : tb_rep (TreeBag_make (T := T)) BL.
Proof. split; try done; [apply NoDup_nil_2|]. intros a [v Ha]. cbn in Ha. by rewrite lookup_empty in Ha. Qed.
Lemma TreeBag_refines_list_witness : exists b',
  run_ops (bag_exec fresh_node) TreeBag_make demo_ops =
    Ret ([OutUnit; OutUnit; OutUnit; OutUnit; OutUnit; OutList [2; 5; 5; 7; 8]; OutUnit; OutFound (Some 5);
          OutBool false; OutList [2; 5; 7; 8]; OutNum 4], b').
Proof.
  destruct (TreeBag_refines_list fresh_node demo_ops TreeBag_make BL fresh_node_ok TreeBag_empty_rep ltac:(by vm_compute)) as [_ X].
  destruct (run_ops list_exec (vals BL) demo_ops) as [[outs l]|f] eqn:E; [|discriminate E].
  destruct X as (b' & t' & Eb & _). exists b'. rewrite Eb. injection E as <- _. reflexivity.
Defined.

(** [clear] frees every node of the bag, through its queue of nodes to do. *)
Lemma TreeBag_clear_frees {T} `{KeyOrder T} (b : TreeBag T) t : tb_rep b t -> zlen (vals t) < VQ_MAX ->
  TreeBag_clear b = Ret (mkTB (tb_root b) ∅).
Proof.
  intros Hb Hmax. rewrite <- (heap_size b t Hb) in Hmax. destruct b as [root h], Hb as [Hr Ht N _ Hall]. cbn in *.
  subst root. by apply TreeBag_clear_ok.
Qed.

(** A map finds the value put first for a key: [put] on a key that has a value adds a
    second pair, behind the first one. *)
Theorem TreeMap_first_put_wins {K T} `{KeyOrder K} (new_node : tree_heap (K * T) -> Z) (dflt : T) m t k v :
  (forall h, new_node h <> 0 /\ h !! new_node h = None) ->
  tb_rep (H := AssocComparator H) m t ->
  exists m' t', TreeMap_put new_node m k v = Ret m' /\ tb_rep (H := AssocComparator H) m' t' /\
    forall k', exists r, TreeMap_get dflt m k' = Ret r /\
      TreeMap_get dflt m' k' = Ret (match r with
        | Some w => Some w
        | None => if doCompare k' k =? 0 then Some v else None
        end).
Proof.
  intros Hn Hm. pose proof (assoc_key (T := T) H) as Ho. destruct (TreeBag_add_ok new_node Hn m t (k, v) Hm) as (m' & t' & E & Hm' & Ev).
  exists m', t'. split; [exact E|]. split; [exact Hm'|]. intros k'. unfold TreeMap_get.
  rewrite (TreeBag_find_ok m t (k', dflt) Hm), (TreeBag_find_ok m' t' (k', dflt) Hm'), Ev.
  rewrite bag_find_add by (apply bst_sorted, (br_bst _ _ Hm)). mred. eexists. split; [done|].
  destruct (bag_find id (k', dflt) (vals t)) as [[k2 w]|]; [done|].
  change (doCompare (k', dflt) (k, v)) with (doCompare k' k). by destruct (_ =? 0).
Qed.

(** ** What the code does and should not *)

(** The root still points to a freed node after [clear]: the bag is not empty, and
    using it reads freed memory. [copy] into a bag that has elements does so: when the
    allocator gives the address again, the new node becomes its own child. *)
Example TreeBag_clear_dangling :
  (b ← TreeBag_add fresh_node TreeBag_make 1; b ← TreeBag_clear b; Ret (TreeBag_isEmpty b)) = Ret false /\
  (b ← TreeBag_add fresh_node TreeBag_make 1; b ← TreeBag_clear b; TreeBag_contains b 1) = Crash OutOfBounds /\
  (b ← TreeBag_add fresh_node TreeBag_make 1; c ← TreeBag_add fresh_node TreeBag_make 2;
   b ← TreeBag_copy fresh_node b c; TreeBag_count b) = Crash OutOfFuel.
Proof. vm_compute. done. Qed.
(** A value put for a key that has one is not seen, until the first is removed. *)
Example TreeMap_put_twice :
  (m ← TreeMap_put fresh_node TreeMap_make 1 10; m ← TreeMap_put fresh_node m 1 20; r ← TreeMap_get 0 m 1;
   m ← TreeMap_remove 0 m 1; b ← TreeMap_hasKey 0 m 1; Ret (r, b)) = Ret (Some 10, true).
Proof. vm_compute. done. Qed.
