(* ===== verification/Links.v ===== *)
(** * Intrusive lists and trees of children ([include/elm/inhstruct/SLList.h],
      [DLList.h], [Tree.h], their files under [src/src], [data/Tree.h])

    The application inherits the nodes; the structures only change their links, on a
    heap. A singly linked list uses the cells of the linked queue: a value and the
    address of the next node. The null pointer is 0. *)

From stdpp Require Import gmap sets.
From S2P Require Import Prelude Queues.
#[local] Open Scope Z_scope.

(** ** Singly linked lists: the state of a list is its first node *)

Section SLList.
Context {V : Type}.
Implicit Types h : node_heap V.

(* src/include/elm/inhstruct/SLList.h:49-52 SLNode::insertAfter *)
Definition SLNode_insertAfter h (p node : Z) : outcome (node_heap V) :=
  t ← deref h p; n ← deref h node;
  let h := <[node := (n.1, t.2)]> h in
  t ← deref h p; Ret (<[p := (t.1, node)]> h).
(* src/include/elm/inhstruct/SLList.h:53-55 SLNode::removeNext *)
Definition SLNode_removeNext h (p : Z) : outcome (node_heap V) :=
  t ← deref h p; n ← deref h t.2; Ret (<[p := (t.1, n.2)]> h).

(* src/include/elm/inhstruct/SLList.h:58-59 SLList::SLList *)
Definition SLList_make : Z := 0.
(* src/include/elm/inhstruct/SLList.h:70-72 SLList::isEmpty *)
Definition SLList_isEmpty (fst : Z) : bool := fst =? 0.
(* src/include/elm/inhstruct/SLList.h:63-66 SLList::addFirst *)
Definition SLList_addFirst h (fst node : Z) : outcome (Z * node_heap V) :=
  n ← deref h node; Ret (node, <[node := (n.1, fst)]> h).
(* src/include/elm/inhstruct/SLList.h:67-69 SLList::removeFirst *)
Definition SLList_removeFirst h (fst : Z) : outcome Z := n ← deref h fst; Ret n.2.
(* src/src/inhstruct_SLList.cpp:64-65 SLList::last *)
Definition sl_last_step h (node : Z) : outcome (Z + Z) :=
  n ← deref h node; Ret (if n.2 =? 0 then inr node else inl n.2).
(* src/src/inhstruct_SLList.cpp:59-68 SLList::last *)
Definition SLList_last h (fst : Z) : outcome Z :=
  if fst =? 0 then Ret 0 else iter (S (size h)) (sl_last_step h) fst.
(* src/src/inhstruct_SLList.cpp:74-79 SLList::count *)
Definition SLList_count h (fst : Z) : outcome Z :=
  iter (S (size h)) (fun '(node, cnt) =>
    if node =? 0 then Ret (inr cnt) else n ← deref h node; Ret (inl (n.2, cnt + 1))) (fst, 0).
(* src/src/inhstruct_SLList.cpp:90-95 SLList::addLast *)
Definition SLList_addLast h (fst node : Z) : outcome (Z * node_heap V) :=
  if fst =? 0 then SLList_addFirst h fst node
  else p ← SLList_last h fst; h ← SLNode_insertAfter h p node; Ret (fst, h).
(** [node] and [prv]. *)
(* src/src/inhstruct_SLList.cpp:105-109 SLList::removeLast *)
Definition sl_before_last_step h (st : Z * Z) : outcome ((Z * Z) + (Z * Z)) :=
  n ← deref h st.1; Ret (if n.2 =? 0 then inr st else inl (n.2, st.1)).
(* src/src/inhstruct_SLList.cpp:102-116 SLList::removeLast *)
Definition SLList_removeLast h (fst : Z) : outcome (Z * node_heap V) :=
  q ← iter (S (size h)) (sl_before_last_step h) (fst, 0);
  if negb (q.2 =? 0) then h ← SLNode_removeNext h q.2; Ret (fst, h)
  else n ← deref h fst; Ret (n.2, h).
End SLList.

(** ** Doubly linked lists, between a head and a tail that belong to the list *)

(* src/include/elm/inhstruct/DLList.h:30-37 DLNode *)
Record dlnode (V : Type) := mkDL { dl_nxt : Z; dl_prv : Z; dl_val : V }.
Arguments mkDL {V} _ _ _.
Arguments dl_nxt {V} _.
Arguments dl_prv {V} _.
Arguments dl_val {V} _.
Abbreviation dl_heap V := (gmap Z (dlnode V)).

(** The addresses of [hd] and [tl]. *)
(* src/include/elm/inhstruct/DLList.h:67-68 DLList *)
Record DLList := mkDLL { dl_hd : Z; dl_tl : Z }.

Section DLList.
Context {V : Type}.
Implicit Types h : dl_heap V.

Definition dl_of h (p : Z) : outcome (dlnode V) := match h !! p with Some n => Ret n | None => Crash OutOfBounds end.
Definition set_nxt h (p q : Z) : outcome (dl_heap V) := n ← dl_of h p; Ret (<[p := mkDL q (dl_prv n) (dl_val n)]> h).
Definition set_prv h (p q : Z) : outcome (dl_heap V) := n ← dl_of h p; Ret (<[p := mkDL (dl_nxt n) q (dl_val n)]> h).

(* src/include/elm/inhstruct/DLList.h:36-36 DLNode::atBegin *)
Definition DLNode_atBegin h (p : Z) : outcome bool := n ← dl_of h p; Ret (dl_prv n =? 0).
(* src/include/elm/inhstruct/DLList.h:37-37 DLNode::atEnd *)
Definition DLNode_atEnd h (p : Z) : outcome bool := n ← dl_of h p; Ret (dl_nxt n =? 0).
(* src/include/elm/inhstruct/DLList.h:39-43 DLNode::replace *)
Definition DLNode_replace h (this node : Z) : outcome (dl_heap V) :=
  assertP (negb (node =? 0)) ;;
  t ← dl_of h this; h ← set_prv h (dl_nxt t) node;
  t ← dl_of h this; h ← set_nxt h node (dl_nxt t);
  t ← dl_of h this; h ← set_nxt h (dl_prv t) node;
  t ← dl_of h this; set_prv h node (dl_prv t).
(* src/include/elm/inhstruct/DLList.h:45-49 DLNode::insertAfter *)
Definition DLNode_insertAfter h (this node : Z) : outcome (dl_heap V) :=
  assertP (negb (node =? 0)) ;;
  t ← dl_of h this; h ← set_prv h (dl_nxt t) node;
  t ← dl_of h this; h ← set_nxt h node (dl_nxt t);
  h ← set_nxt h this node; set_prv h node this.
(* src/include/elm/inhstruct/DLList.h:51-55 DLNode::insertBefore *)
Definition DLNode_insertBefore h (this node : Z) : outcome (dl_heap V) :=
  assertP (negb (node =? 0)) ;;
  t ← dl_of h this; h ← set_nxt h (dl_prv t) node;
  t ← dl_of h this; h ← set_prv h node (dl_prv t);
  h ← set_prv h this node; set_nxt h node this.
(* src/include/elm/inhstruct/DLList.h:57-58 DLNode::remove *)
Definition DLNode_remove h (this : Z) : outcome (dl_heap V) :=
  t ← dl_of h this; h ← set_nxt h (dl_prv t) (dl_nxt t);
  t ← dl_of h this; set_prv h (dl_nxt t) (dl_prv t).
(* src/include/elm/inhstruct/DLList.h:59-60 DLNode::removeNext *)
Definition DLNode_removeNext h (this : Z) : outcome (dl_heap V) :=
  t ← dl_of h this; e ← DLNode_atEnd h (dl_nxt t); assertP (negb e) ;; DLNode_remove h (dl_nxt t).
(* src/include/elm/inhstruct/DLList.h:61-62 DLNode::removePrevious *)
Definition DLNode_removePrevious h (this : Z) : outcome (dl_heap V) :=
  t ← dl_of h this; b ← DLNode_atBegin h (dl_prv t); assertP (negb b) ;; DLNode_remove h (dl_prv t).

(** [hd] and [tl] are in the heap; [x] stands for what they have of a node. *)
(* src/include/elm/inhstruct/DLList.h:70-73 DLList::DLList *)
Definition DLList_make h (l : DLList) (x : V) : dl_heap V :=
  <[dl_tl l := mkDL 0 (dl_hd l) x]> (<[dl_hd l := mkDL (dl_tl l) 0 x]> h).
(* src/include/elm/inhstruct/DLList.h:95-95 DLList::isEmpty *)
Definition DLList_isEmpty h (l : DLList) : outcome bool := n ← dl_of h (dl_hd l); Ret (dl_nxt n =? dl_tl l).
(** The constructor from a list takes its nodes; the links of the list taken are set
    to null. *)
(* src/include/elm/inhstruct/DLList.h:75-91 DLList::DLList *)
Definition DLList_take h (l list : DLList) (x : V) : outcome (dl_heap V) :=
  let h := <[dl_tl l := mkDL 0 0 x]> (<[dl_hd l := mkDL 0 0 x]> h) in
  b ← DLList_isEmpty h list;
  if (b : bool) then h ← set_nxt h (dl_hd l) (dl_tl l); set_prv h (dl_tl l) (dl_hd l)
  else
    f ← dl_of h (dl_hd list); h ← set_nxt h (dl_hd l) (dl_nxt f);
    h ← set_nxt h (dl_hd list) 0;
    n ← dl_of h (dl_hd l); h ← set_prv h (dl_nxt n) (dl_hd l);
    e ← dl_of h (dl_tl list); h ← set_prv h (dl_tl l) (dl_prv e);
    h ← set_prv h (dl_tl list) 0;
    n ← dl_of h (dl_tl l); set_nxt h (dl_prv n) (dl_tl l).
(* src/include/elm/inhstruct/DLList.h:93-93 DLList::first *)
Definition DLList_first h (l : DLList) : outcome Z := n ← dl_of h (dl_hd l); Ret (dl_nxt n).
(* src/include/elm/inhstruct/DLList.h:94-94 DLList::last *)
Definition DLList_last h (l : DLList) : outcome Z := n ← dl_of h (dl_tl l); Ret (dl_prv n).
(* src/include/elm/inhstruct/DLList.h:99-104 DLList::count *)
Definition DLList_count h (l : DLList) : outcome Z :=
  n ← dl_of h (dl_hd l);
  iter (S (size h)) (fun '(cur, cnt) =>
    if cur =? dl_tl l then Ret (inr cnt) else n ← dl_of h cur; Ret (inl (dl_nxt n, cnt + 1))) (dl_nxt n, 0).
(* src/include/elm/inhstruct/DLList.h:106-107 DLList::addFirst *)
Definition DLList_addFirst h (l : DLList) (node : Z) : outcome (dl_heap V) :=
  assertP (negb (node =? 0)) ;; DLNode_insertAfter h (dl_hd l) node.
(* src/include/elm/inhstruct/DLList.h:108-109 DLList::addLast *)
Definition DLList_addLast h (l : DLList) (node : Z) : outcome (dl_heap V) :=
  assertP (negb (node =? 0)) ;; DLNode_insertBefore h (dl_tl l) node.
(* src/include/elm/inhstruct/DLList.h:110-111 DLList::removeFirst *)
Definition DLList_removeFirst h (l : DLList) : outcome (dl_heap V) :=
  b ← DLList_isEmpty h l; assertP (negb b) ;; DLNode_removeNext h (dl_hd l).
(* src/include/elm/inhstruct/DLList.h:112-113 DLList::removeLast *)
Definition DLList_removeLast h (l : DLList) : outcome (dl_heap V) :=
  b ← DLList_isEmpty h l; assertP (negb b) ;; DLNode_removePrevious h (dl_tl l).
End DLList.

(** ** Trees of children: the first child, and the next child of the parent *)

(* src/include/elm/inhstruct/Tree.h:91-93 Tree *)
Record trnode (V : Type) := mkTR { tr_children : Z; tr_sibling : Z; tr_val : V }.
Arguments mkTR {V} _ _ _.
Arguments tr_children {V} _.
Arguments tr_sibling {V} _.
Arguments tr_val {V} _.
Abbreviation tr_heap V := (gmap Z (trnode V)).

Section Children.
Context {V : Type}.
Implicit Types h : tr_heap V.

Definition tr_of h (p : Z) : outcome (trnode V) := match h !! p with Some n => Ret n | None => Crash OutOfBounds end.
Definition set_children h (p q : Z) : outcome (tr_heap V) := n ← tr_of h p; Ret (<[p := mkTR q (tr_sibling n) (tr_val n)]> h).
Definition set_sibling h (p q : Z) : outcome (tr_heap V) := n ← tr_of h p; Ret (<[p := mkTR (tr_children n) q (tr_val n)]> h).

(* src/include/elm/inhstruct/Tree.h:34-34 Tree::Tree *)
Definition Tree_make (x : V) : trnode V := mkTR 0 0 x.
(* src/include/elm/inhstruct/Tree.h:42-42 Tree::isEmpty *)
Definition Tree_isEmpty h (this : Z) : outcome bool := n ← tr_of h this; Ret (tr_children n =? 0).
(** The argument is not looked at. *)
(* src/include/elm/inhstruct/Tree.h:39-40 Tree::hasChild *)
Definition Tree_hasChild h (this tree : Z) : outcome bool := n ← tr_of h this; Ret (negb (tr_children n =? 0)).
(* src/include/elm/data/Tree.h:54-55 Tree::operator bool *)
Definition dataTree_bool h (this : Z) : outcome bool := Tree_isEmpty h this.

(** A loop on the children: [Iter] starts at the first child, stops at null and
    follows [sibling()]. *)
(* src/include/elm/inhstruct/Tree.h:46-65 Tree::Iter *)
Definition TreeIter_step {R} h (body : Z -> outcome (option R)) (at_end : outcome R) (cur : Z) : outcome (Z + R) :=
  if cur =? 0 then r ← at_end; Ret (inr r) else
  r ← body cur;
  match r with Some r => Ret (inr r) | None => n ← tr_of h cur; Ret (inl (tr_sibling n)) end.
(* src/src/inhstruct_Tree.cpp:76-81 Tree::count *)
Definition Tree_count h (this : Z) : outcome Z :=
  n ← tr_of h this;
  iter (S (size h)) (fun '(cur, cnt) =>
    if cur =? 0 then Ret (inr cnt) else n ← tr_of h cur; Ret (inl (tr_sibling n, cnt + 1))) (tr_children n, 0).
(* src/include/elm/inhstruct/Tree.h:68-72 Tree::prependChild *)
Definition Tree_prependChild h (this child : Z) : outcome (tr_heap V) :=
  assertP (negb (child =? 0)) ;;
  t ← tr_of h this; h ← set_sibling h child (tr_children t); set_children h this child.
(* src/src/inhstruct_Tree.cpp:115-125 Tree::appendChild *)
Definition Tree_appendChild h (this child : Z) : outcome (tr_heap V) :=
  assertP (negb (child =? 0)) ;;
  t ← tr_of h this;
  if tr_children t =? 0 then set_children h this child
  else iter (S (size h)) (TreeIter_step h (fun cur =>
         n ← tr_of h cur;
         if tr_sibling n =? 0 then h ← set_sibling h cur child; Ret (Some h) else Ret None) (Ret h)) (tr_children t).
(* src/include/elm/inhstruct/Tree.h:75-79 Tree::addSibling *)
Definition Tree_addSibling h (this newSibling : Z) : outcome (tr_heap V) :=
  t ← tr_of h this; h ← set_sibling h newSibling (tr_sibling t); set_sibling h this newSibling.
(* src/src/inhstruct_Tree.cpp:145-157 Tree::removeChild *)
Definition Tree_removeChild h (this child : Z) : outcome (tr_heap V) :=
  assertP (negb (child =? 0)) ;;
  t ← tr_of h this;
  if tr_children t =? child then c ← tr_of h (tr_children t); set_children h this (tr_sibling c)
  else iter (S (size h)) (TreeIter_step h (fun cur =>
         n ← tr_of h cur;
         if tr_sibling n =? child then c ← tr_of h child; h ← set_sibling h cur (tr_sibling c); Ret (Some h)
         else Ret None) (Crash AssertFailed)) (tr_children t).
(* src/include/elm/inhstruct/Tree.h:89-89 Tree::clear *)
Definition Tree_clear h (this : Z) : outcome (tr_heap V) := set_children h this 0.
End Children.

(** ** Chains of nodes *)

(** From [p] the successors are the nodes of [ads], then null. *)
Fixpoint chain (next : Z -> option Z) (p : Z) (ads : list Z) : Prop :=
  match ads with
  | [] => p = 0
  | a :: ads => p = a /\ a <> 0 /\ exists q, next a = Some q /\ chain next q ads
  end.

Section Chains.
Implicit Types next : Z -> option Z.

Lemma chain_same next next' ads : forall p, chain next p ads -> (forall a, a ∈ ads -> next' a = next a) -> chain next' p ads.
Proof.
  induction ads as [|a ads IH]; intros p; [done|]. intros (-> & Ha & q & Eq & Hq) E. split_and!; [done|done|].
  exists q. split; [rewrite E; [done|by left]|]. apply IH; [done|]. intros b Hb. apply E. by right.
Qed.
(** The end of a chain is changed after [a]. *)
Lemma chain_relink next next' l1 a k q l2 : forall p, chain next p (l1 ++ a :: k) ->
  (forall b, b ∈ l1 -> next' b = next b) -> next' a = Some q -> chain next' q l2 -> chain next' p (l1 ++ a :: l2).
Proof.
  induction l1 as [|b l1 IH]; intros p; cbn.
  - intros (-> & Ha & _) _ Eq Hq. split_and!; [done|done|]. by exists q.
  - intros (-> & Hb & r & Er & Hr) E Eq Hq. split_and!; [done|done|]. exists r. split; [rewrite E; [done|by left]|].
    apply IH; [done| |done|done]. intros c Hc. apply E. by right.
Qed.
Lemma chain_mid next l1 a k : forall p, chain next p (l1 ++ a :: k) -> a <> 0 /\ exists q, next a = Some q /\ chain next q k.
Proof.
  induction l1 as [|b l1 IH]; intros p; cbn; [by intros (-> & ? & ?)|]. intros (_ & _ & r & _ & Hr). by eapply IH.
Qed.
Lemma chain_last next l1 a p : chain next p (l1 ++ [a]) -> a <> 0 /\ next a = Some 0.
Proof. intros Hc. destruct (chain_mid _ _ _ _ _ Hc) as (Ha & q & Eq & ->). done. Qed.
Lemma chain_head next p a k : chain next p (a :: k) -> p = a.
Proof. by intros [? _]. Qed.
Lemma chain_nonempty next p ads : chain next p ads -> (p =? 0) = bool_decide (ads = []).
Proof.
  destruct ads as [|a ads]; [by intros ->|]. intros (-> & Ha & _). rewrite bool_decide_eq_false_2 by done. by apply Z.eqb_neq.
Qed.
(** The nodes of a chain are in the heap. *)
Lemma chain_size {N} (h : gmap Z N) next ads p : chain next p ads -> NoDup ads ->
  (forall a, is_Some (next a) -> is_Some (h !! a)) -> (length ads <= size h)%nat.
Proof.
  intros Hc Nd Hn. apply nodup_size; [done|]. intros a Ha. apply Hn.
  apply list_elem_of_split in Ha as (l1 & l2 & ->). destruct (chain_mid _ _ _ _ _ Hc) as (_ & q & -> & _). done.
Qed.
End Chains.

(** *** Singly linked lists *)

Section SLProofs.
Context {V : Type}.
Implicit Types (h : node_heap V) (ads : list Z).

Definition sl_next h (a : Z) : option Z := snd <$> h !! a.
Definition sl_rep h (fst : Z) ads : Prop := chain (sl_next h) fst ads /\ NoDup ads.

Lemma sl_next_inv h a q : sl_next h a = Some q -> exists v, h !! a = Some (v, q).
Proof. unfold sl_next. destruct (h !! a) as [[v r]|]; [|done]. intros [= <-]. by exists v. Qed.
Lemma sl_next_insert h a v q b : sl_next (<[a := (v, q)]> h) b = if decide (a = b) then Some q else sl_next h b.
Proof.
  unfold sl_next. destruct (decide (a = b)) as [<-|Hne]; [by rewrite lookup_insert_eq|by rewrite lookup_insert_ne].
Qed.
Lemma deref_cell h a n : h !! a = Some n -> deref h a = Ret n.
Proof. unfold deref. by intros ->. Qed.
Lemma sl_size h p ads : sl_rep h p ads -> (length ads <= size h)%nat.
Proof.
  intros [Hc Nd]. apply (chain_size h (sl_next h) ads p); [done|done|]. intros a [q (v & E)%sl_next_inv]. by rewrite E.
Qed.

Lemma sl_last_ok h ads a : forall p fuel, chain (sl_next h) p (ads ++ [a]) -> (length ads < fuel)%nat ->
  iter fuel (sl_last_step h) p = Ret a.
Proof.
  induction ads as [|b ads IH]; intros p fuel Hc Hf; (destruct fuel as [|fuel]; [cbn in Hf; lia|]); cbn [iter].
  - destruct Hc as (-> & Ha & q & (v & E)%sl_next_inv & ->). unfold sl_last_step at 2. rewrite (deref_cell _ _ _ E). done.
  - destruct Hc as (-> & Hb & q & (v & E)%sl_next_inv & Hq). unfold sl_last_step at 2. rewrite (deref_cell _ _ _ E). mred.
    cbn [snd]. rewrite (chain_nonempty _ _ _ Hq), bool_decide_eq_false_2 by (by destruct ads). mred.
    apply IH; [done|]. cbn in Hf. lia.
Qed.
Lemma sl_count_ok h ads : forall p cnt fuel, chain (sl_next h) p ads -> (length ads < fuel)%nat ->
  iter fuel (fun '(node, cnt) =>
    if node =? 0 then Ret (inr cnt) else n ← deref h node; Ret (inl (n.2, cnt + 1))) (p, cnt) = Ret (cnt + zlen ads).
Proof.
  induction ads as [|b ads IH]; intros p cnt fuel Hc Hf; (destruct fuel as [|fuel]; [cbn in Hf; lia|]); cbn [iter].
  - rewrite Hc. cbn. f_equal. lia.
  - destruct Hc as (-> & Hb & q & (v & E)%sl_next_inv & Hq). rewrite (proj2 (Z.eqb_neq _ _) Hb), (deref_cell _ _ _ E). mred.
    cbn [snd]. rewrite IH by (done || (cbn in Hf; lia)). f_equal. cbn. lia.
Qed.
Lemma last_default (c : Z) ads d d' : List.last (c :: ads) d = List.last (c :: ads) d'.
Proof. revert c. induction ads as [|b ads IH]; intros c; [done|]. apply IH. Qed.
Lemma sl_before_last_ok h ads a : forall p prv fuel, chain (sl_next h) p (ads ++ [a]) -> (length ads < fuel)%nat ->
  iter fuel (sl_before_last_step h) (p, prv) = Ret (a, List.last ads prv).
Proof.
  induction ads as [|b ads IH]; intros p prv fuel Hc Hf; (destruct fuel as [|fuel]; [cbn in Hf; lia|]); cbn [iter].
  - destruct Hc as (-> & Ha & q & (v & E)%sl_next_inv & ->). unfold sl_before_last_step at 2. cbn [fst].
    rewrite (deref_cell _ _ _ E). done.
  - destruct Hc as (-> & Hb & q & (v & E)%sl_next_inv & Hq). unfold sl_before_last_step at 2. cbn [fst].
    rewrite (deref_cell _ _ _ E). mred. cbn [snd].
    rewrite (chain_nonempty _ _ _ Hq), bool_decide_eq_false_2 by (by destruct ads). mred.
    rewrite (IH q b) by (done || (cbn in Hf; lia)). destruct ads as [|c ads]; [done|].
    change (List.last (b :: c :: ads) prv) with (List.last (c :: ads) prv). by rewrite (last_default c ads b prv).
Qed.

(** The values of the nodes. *)
Definition same_vals (h h' : node_heap V) : Prop := forall a, fst <$> h' !! a = fst <$> h !! a.
Lemma same_vals_insert h a v q r : h !! a = Some (v, q) -> same_vals h (<[a := (v, r)]> h).
Proof.
  intros E b. destruct (decide (a = b)) as [<-|Hne]; [by rewrite lookup_insert_eq, E|by rewrite lookup_insert_ne].
Qed.
Lemma same_vals_trans h h1 h2 : same_vals h h1 -> same_vals h1 h2 -> same_vals h h2.
Proof. intros H1 H2 a. by rewrite H2. Qed.

Lemma sl_insertAfter_ok h p l1 a k n y q : sl_rep h p (l1 ++ a :: k) -> n <> 0 -> ~ (n ∈ l1 ++ a :: k) ->
  h !! n = Some (y, q) ->
  exists h', SLNode_insertAfter h a n = Ret h' /\ sl_rep h' p (l1 ++ a :: n :: k) /\ same_vals h h'.
Proof.
  intros [Hc Nd] Hn Hnin En. destruct (chain_mid _ _ _ _ _ Hc) as (Ha & r & (v & Ea)%sl_next_inv & Hk).
  assert (n <> a) as Hna by (intros ->; apply Hnin, elem_of_app; right; by left).
  unfold SLNode_insertAfter. rewrite (deref_cell _ _ _ Ea). mred. rewrite (deref_cell _ _ _ En). mred. cbn [fst snd].
  assert (<[n := (y, r)]> h !! a = Some (v, r)) as Ea' by (by rewrite lookup_insert_ne).
  rewrite (deref_cell _ _ _ Ea'). mred. cbn [fst snd]. eexists. split; [done|]. split; [split|].
  - apply (chain_relink (sl_next h) _ l1 a k n); [done| |by rewrite sl_next_insert, decide_True|].
    + intros b Hb. rewrite !sl_next_insert, !decide_False; [done| |].
      * intros ->. apply Hnin, elem_of_app. by left.
      * intros ->. apply NoDup_app in Nd as (_ & Nd & _). apply (Nd b Hb). by left.
    + split_and!; [done|done|]. exists r. rewrite !sl_next_insert, decide_False, decide_True by done. split; [done|].
      eapply chain_same; [done|]. intros b Hb. rewrite !sl_next_insert, !decide_False; [done| |].
      * intros ->. apply Hnin, elem_of_app. right. by right.
      * intros ->. apply NoDup_app in Nd as (_ & _ & Nd). by apply NoDup_cons in Nd as [? _].
  - change (a :: n :: k) with ([a] ++ n :: k). rewrite app_assoc. rewrite <- Permutation_middle. cbn. apply NoDup_cons.
    rewrite <- app_assoc. done.
  - eapply same_vals_trans; [by eapply (same_vals_insert h n y q)|by eapply same_vals_insert].
Qed.
Lemma sl_removeNext_ok h p l1 a c k : sl_rep h p (l1 ++ a :: c :: k) ->
  exists h', SLNode_removeNext h a = Ret h' /\ sl_rep h' p (l1 ++ a :: k) /\ same_vals h h'.
Proof.
  intros [Hc Nd]. destruct (chain_mid _ _ _ _ _ Hc) as (Ha & r & (v & Ea)%sl_next_inv & Hk).
  destruct Hk as (-> & Hc0 & q & (w & Ec)%sl_next_inv & Hq).
  unfold SLNode_removeNext. rewrite (deref_cell _ _ _ Ea). mred. cbn [snd]. rewrite (deref_cell _ _ _ Ec). mred. cbn [fst snd].
  pose proof Nd as (N1 & N2 & N3)%NoDup_app. apply NoDup_cons in N3 as [N3 N4].
  eexists. split; [done|]. split; [split|by eapply same_vals_insert].
  - apply (chain_relink (sl_next h) _ l1 a (c :: k) q); [done| |by rewrite sl_next_insert, decide_True|].
    + intros b Hb. rewrite sl_next_insert, decide_False; [done|]. intros ->. apply (N2 b Hb). by left.
    + eapply chain_same; [done|]. intros b Hb. rewrite sl_next_insert, decide_False; [done|]. intros ->. apply N3. by right.
  - eapply sublist_NoDup; [exact Nd|]. apply sublist_app; [done|]. apply sublist_skip. by apply sublist_cons.
Qed.
End SLProofs.

(** A list that holds the nodes [ads]: every operation gives the list that the list of
    nodes says, and the nodes keep their values. *)
Lemma SLList_operations {V} (h : node_heap V) fst ads : sl_rep h fst ads ->
  SLList_isEmpty fst = bool_decide (ads = []) /\
  SLList_count h fst = Ret (zlen ads) /\
  SLList_last h fst = Ret (List.last ads 0) /\
  (forall n v q, n <> 0 -> ~ (n ∈ ads) -> h !! n = Some (v, q) ->
     (exists h', SLList_addFirst h fst n = Ret (n, h') /\ sl_rep h' n (n :: ads) /\ same_vals h h') /\
     (exists fst' h', SLList_addLast h fst n = Ret (fst', h') /\ sl_rep h' fst' (ads ++ [n]) /\ same_vals h h')) /\
  (forall a k, ads = a :: k -> exists fst', SLList_removeFirst h fst = Ret fst' /\ sl_rep h fst' k) /\
  (forall a k, ads = k ++ [a] -> exists fst' h', SLList_removeLast h fst = Ret (fst', h') /\ sl_rep h' fst' k /\ same_vals h h').
Proof.
  intros Hr. pose proof Hr as [Hc Nd]. pose proof (sl_size h fst ads Hr) as Hs.
  assert (SLList_last h fst = Ret (List.last ads 0)) as Hl.
  { unfold SLList_last. rewrite (chain_nonempty _ _ _ Hc). destruct ads as [|a ads _] using rev_ind; [done|].
    rewrite bool_decide_eq_false_2 by (by destruct ads). rewrite length_app in Hs. cbn in Hs.
    rewrite (sl_last_ok h ads a) by (done || lia). by rewrite last_snoc. }
  assert (forall n v q, n <> 0 -> ~ (n ∈ ads) -> h !! n = Some (v, q) ->
     exists h', SLList_addFirst h fst n = Ret (n, h') /\ sl_rep h' n (n :: ads) /\ same_vals h h') as Hf.
  { intros n v q Hn Hnin En. unfold SLList_addFirst. rewrite (deref_cell _ _ _ En). mred. eexists. split; [done|].
    split; [split|by eapply same_vals_insert]; [|by apply NoDup_cons].
    split_and!; [done|done|]. exists fst. rewrite sl_next_insert, decide_True by done. split; [done|].
    eapply chain_same; [done|]. intros b Hb. rewrite sl_next_insert, decide_False; [done|]. by intros ->. }
  split_and!; [apply (chain_nonempty _ _ _ Hc)| |exact Hl| | |].
  - unfold SLList_count. rewrite (sl_count_ok h ads) by (done || lia). f_equal.
  - intros n v q Hn Hnin En. split; [by eapply Hf|]. unfold SLList_addLast. rewrite (chain_nonempty _ _ _ Hc), Hl.
    destruct ads as [|a ads _] using rev_ind.
    + destruct (Hf n v q) as (h' & -> & ? & ?); [done..|]. by exists n, h'.
    + rewrite bool_decide_eq_false_2 by (by destruct ads). mred. rewrite last_snoc.
      destruct (sl_insertAfter_ok h fst ads a [] n v q) as (h' & -> & ? & ?); [done..|]. mred. exists fst, h'. by rewrite <- app_assoc.
  - intros a k ->. destruct Hc as (-> & Ha & q & (v & E)%sl_next_inv & Hq). unfold SLList_removeFirst.
    rewrite (deref_cell _ _ _ E). mred. exists q. split; [done|]. split; [done|]. by apply NoDup_cons in Nd as [_ ?].
  - intros a k ->. unfold SLList_removeLast. rewrite length_app in Hs. cbn in Hs. rewrite (sl_before_last_ok h k a) by (done || lia). mred.
    cbn [snd]. destruct k as [|b k _] using rev_ind.
    + destruct Hc as (-> & Ha & q & (v & E)%sl_next_inv & ->). cbn. rewrite (deref_cell _ _ _ E). mred. exists 0, h.
      split_and!; [done| |by intros ?]. split; [done|constructor].
    + rewrite last_snoc. rewrite <- app_assoc in *. destruct (chain_mid _ _ _ _ _ Hc) as (Hb & _).
      rewrite (proj2 (Z.eqb_neq _ _) Hb). mred. destruct (sl_removeNext_ok h fst k b a []) as (h' & -> & ? & ?); [done|].
      mred. by exists fst, h'.
Qed.

(** *** Children *)

Section ChildProofs.
Context {V : Type}.
Implicit Types (h : tr_heap V) (ads : list Z).

Definition tr_next h (a : Z) : option Z := tr_sibling <$> h !! a.
Record kids h (t : Z) ads : Prop := {
  kd_chain : exists n, h !! t = Some n /\ chain (tr_next h) (tr_children n) ads;
  kd_nodup : NoDup ads;
  kd_self : ~ (t ∈ ads) }.

Lemma tr_of_ok h a n : h !! a = Some n -> tr_of h a = Ret n.
Proof. unfold tr_of. by intros ->. Qed.
Lemma tr_next_inv h a q : tr_next h a = Some q -> exists n, h !! a = Some n /\ tr_sibling n = q.
Proof. unfold tr_next. destruct (h !! a) as [n|]; [|done]. intros [= <-]. by exists n. Qed.
Lemma tr_next_insert h a n b : tr_next (<[a := n]> h) b = if decide (a = b) then Some (tr_sibling n) else tr_next h b.
Proof.
  unfold tr_next. destruct (decide (a = b)) as [<-|Hne]; [by rewrite lookup_insert_eq|by rewrite lookup_insert_ne].
Qed.
Lemma set_sibling_ok h a n q : h !! a = Some n -> set_sibling h a q = Ret (<[a := mkTR (tr_children n) q (tr_val n)]> h).
Proof. intros E. unfold set_sibling. by rewrite (tr_of_ok _ _ _ E). Qed.
Lemma set_children_ok h a n q : h !! a = Some n -> set_children h a q = Ret (<[a := mkTR q (tr_sibling n) (tr_val n)]> h).
Proof. intros E. unfold set_children. by rewrite (tr_of_ok _ _ _ E). Qed.
Lemma kids_size h t ads : kids h t ads -> (length ads <= size h)%nat.
Proof.
  intros [(n & _ & Hc) Nd _]. apply (chain_size h (tr_next h) ads (tr_children n)); [done|done|].
  intros a [q (m & E & _)%tr_next_inv]. by rewrite E.
Qed.

Lemma tr_count_ok h ads : forall p cnt fuel, chain (tr_next h) p ads -> (length ads < fuel)%nat ->
  iter fuel (fun '(cur, cnt) =>
    if cur =? 0 then Ret (inr cnt) else n ← tr_of h cur; Ret (inl (tr_sibling n, cnt + 1))) (p, cnt) = Ret (cnt + zlen ads).
Proof.
  induction ads as [|b ads IH]; intros p cnt fuel Hc Hf; (destruct fuel as [|fuel]; [cbn in Hf; lia|]); cbn [iter].
  - rewrite Hc. cbn. f_equal. lia.
  - destruct Hc as (-> & Hb & q & (n & E & <-)%tr_next_inv & Hq). rewrite (proj2 (Z.eqb_neq _ _) Hb), (tr_of_ok _ _ _ E). mred.
    rewrite IH by (done || (cbn in Hf; lia)). f_equal. cbn. lia.
Qed.

(** The sibling of a child [a] is changed: what follows it is another chain. *)
Lemma kids_relink h t l1 a k n q l2 : kids h t (l1 ++ a :: k) -> h !! a = Some n ->
  chain (tr_next (<[a := mkTR (tr_children n) q (tr_val n)]> h)) q l2 -> NoDup (l1 ++ a :: l2) -> ~ (t ∈ l2) ->
  kids (<[a := mkTR (tr_children n) q (tr_val n)]> h) t (l1 ++ a :: l2).
Proof.
  intros [(m & Em & Hc) Nd Ht] Ea Hq N2 Ht2. rewrite elem_of_app, elem_of_cons in Ht.
  split; [|done|by rewrite elem_of_app, elem_of_cons; naive_solver].
  exists m. rewrite lookup_insert_ne by (intros ->; auto). split; [done|].
  apply (chain_relink (tr_next h) _ l1 a k q); [done| |by rewrite tr_next_insert, decide_True|done].
  intros b Hb. rewrite tr_next_insert, decide_False; [done|]. intros ->.
  apply NoDup_app in Nd as (_ & Nd & _). apply (Nd b Hb). by left.
Qed.

Lemma prependChild_ok h t ads c n : kids h t ads -> c <> 0 -> ~ (c ∈ t :: ads) -> h !! c = Some n ->
  exists h', Tree_prependChild h t c = Ret h' /\ kids h' t (c :: ads).
Proof.
  intros [(m & Em & Hc) Nd Ht] Hc0 Hn Ec. apply not_elem_of_cons in Hn as [Hct Hn]. unfold Tree_prependChild.
  rewrite (proj2 (Z.eqb_neq _ _) Hc0), (tr_of_ok _ _ _ Em). mred. rewrite (set_sibling_ok _ _ _ _ Ec). mred.
  rewrite (set_children_ok _ t m) by (by rewrite lookup_insert_ne). eexists. split; [done|]. split.
  - eexists. rewrite lookup_insert_eq. split; [done|]. cbn [tr_children]. split_and!; [done|done|].
    exists (tr_children m). rewrite !tr_next_insert, decide_False, decide_True by done. split; [done|].
    eapply chain_same; [done|]. intros b Hb. rewrite !tr_next_insert, !decide_False; [done|by intros ->|by intros ->].
  - by apply NoDup_cons.
  - rewrite elem_of_cons. by intros [->|?].
Qed.

(** The loop of [appendChild], to the last child. *)
Lemma append_loop h c l1 a n : forall p fuel, chain (tr_next h) p (l1 ++ [a]) -> h !! a = Some n -> (length l1 < fuel)%nat ->
  iter fuel (TreeIter_step h (fun cur =>
    n ← tr_of h cur; if tr_sibling n =? 0 then h ← set_sibling h cur c; Ret (Some h) else Ret None) (Ret h)) p =
  Ret (<[a := mkTR (tr_children n) c (tr_val n)]> h).
Proof.
  induction l1 as [|b l1 IH]; intros p fuel Hc Ea Hf; (destruct fuel as [|fuel]; [cbn in Hf; lia|]); cbn [iter];
    unfold TreeIter_step at 2.
  - destruct Hc as (-> & Ha & q & (m & E & Es)%tr_next_inv & ->). rewrite Ea in E. injection E as <-.
    rewrite (proj2 (Z.eqb_neq _ _) Ha), (tr_of_ok _ _ _ Ea). mred. rewrite Es. cbn [Z.eqb].
    by rewrite (set_sibling_ok _ _ _ _ Ea).
  - destruct Hc as (-> & Hb & q & (m & E & <-)%tr_next_inv & Hq). rewrite (proj2 (Z.eqb_neq _ _) Hb), (tr_of_ok _ _ _ E). mred.
    rewrite (chain_nonempty _ _ _ Hq), bool_decide_eq_false_2 by (by destruct l1). mred.
    apply IH; [done|done|]. cbn in Hf. lia.
Qed.
(** The new child is the last: it has no sibling of its own. *)
Lemma appendChild_ok h t ads c n : kids h t ads -> c <> 0 -> ~ (c ∈ t :: ads) -> h !! c = Some n -> tr_sibling n = 0 ->
  exists h', Tree_appendChild h t c = Ret h' /\ kids h' t (ads ++ [c]).
Proof.
  intros Hk Hc0 Hn Ec Es. pose proof (kids_size _ _ _ Hk) as Hs. pose proof Hk as [(m & Em & Hc) Nd Ht].
  apply not_elem_of_cons in Hn as [Hct Hn]. unfold Tree_appendChild.
  rewrite (proj2 (Z.eqb_neq _ _) Hc0), (tr_of_ok _ _ _ Em). mred. rewrite (chain_nonempty _ _ _ Hc).
  assert (forall h', h' !! c = Some n -> chain (tr_next h') c [c]) as Hend.
  { intros h' E. split_and!; [done|done|]. exists 0. split; [|done]. unfold tr_next. rewrite E. cbn. by rewrite Es. }
  destruct ads as [|a ads _] using rev_ind.
  - rewrite bool_decide_eq_true_2 by done. rewrite (set_children_ok _ _ _ _ Em). eexists. split; [done|].
    split; [|apply NoDup_singleton|by intros ->%list_elem_of_singleton].
    eexists. rewrite lookup_insert_eq. split; [done|]. apply Hend. by rewrite lookup_insert_ne.
  - rewrite bool_decide_eq_false_2 by (by destruct ads). destruct (chain_mid _ _ _ _ _ Hc) as (Ha & q & (k & Ea & _)%tr_next_inv & _).
    rewrite length_app in Hs. cbn in Hs. rewrite (append_loop h c ads a k) by (done || lia). eexists. split; [done|].
    rewrite <- app_assoc. assert (a <> c) as Hac by (intros ->; apply Hn, elem_of_app; right; by left).
    apply (kids_relink h t ads a []); [done|done| | |by intros ->%list_elem_of_singleton].
    + apply Hend. by rewrite lookup_insert_ne.
    + cbn. change [a; c] with ([a] ++ [c]). rewrite app_assoc. apply NoDup_app. split_and!; [done| |apply NoDup_singleton].
      by intros b Hb ->%list_elem_of_singleton.
Qed.

(** The loop of [removeChild], from the child before it or to the end. *)
Lemma remove_loop h l1 a c k n m : forall p fuel, chain (tr_next h) p (l1 ++ a :: c :: k) -> ~ (c ∈ l1 ++ [a]) ->
  h !! a = Some n -> h !! c = Some m -> (length l1 < fuel)%nat ->
  iter fuel (TreeIter_step h (fun cur =>
    n ← tr_of h cur; if tr_sibling n =? c then m ← tr_of h c; h ← set_sibling h cur (tr_sibling m); Ret (Some h) else Ret None)
    (Crash AssertFailed)) p = Ret (<[a := mkTR (tr_children n) (tr_sibling m) (tr_val n)]> h).
Proof.
  induction l1 as [|b l1 IH]; intros p fuel Hc Hn Ea Em Hf; (destruct fuel as [|fuel]; [cbn in Hf; lia|]); cbn [iter];
    unfold TreeIter_step at 2.
  - destruct Hc as (-> & Ha & q & (m' & E & Es)%tr_next_inv & Hq). rewrite Ea in E. injection E as <-.
    apply chain_head in Hq as ->. rewrite (proj2 (Z.eqb_neq _ _) Ha), (tr_of_ok _ _ _ Ea). mred. rewrite Es, Z.eqb_refl.
    rewrite (tr_of_ok _ _ _ Em). mred. by rewrite (set_sibling_ok _ _ _ _ Ea).
  - destruct Hc as (-> & Hb & q & (m' & E & <-)%tr_next_inv & Hq). rewrite (proj2 (Z.eqb_neq _ _) Hb), (tr_of_ok _ _ _ E). mred.
    apply not_elem_of_cons in Hn as [_ Hn].
    destruct (Z.eqb_spec (tr_sibling m') c) as [Eq|_].
    { exfalso. apply Hn. rewrite <- Eq. destruct l1 as [|d l1]; apply chain_head in Hq as ->; by left. }
    mred. apply IH; [done|done|done|done|]. cbn in Hf. lia.
Qed.
Lemma remove_loop_none h ads c : forall p fuel, chain (tr_next h) p ads -> c <> 0 -> ~ (c ∈ ads) -> (length ads < fuel)%nat ->
  iter fuel (TreeIter_step h (fun cur =>
    n ← tr_of h cur; if tr_sibling n =? c then m ← tr_of h c; h ← set_sibling h cur (tr_sibling m); Ret (Some h) else Ret None)
    (Crash AssertFailed)) p = Crash AssertFailed.
Proof.
  induction ads as [|b ads IH]; intros p fuel Hc Hc0 Hn Hf; (destruct fuel as [|fuel]; [cbn in Hf; lia|]); cbn [iter];
    unfold TreeIter_step at 2; [by rewrite Hc|].
  destruct Hc as (-> & Hb & q & (m' & E & <-)%tr_next_inv & Hq). rewrite (proj2 (Z.eqb_neq _ _) Hb), (tr_of_ok _ _ _ E). mred.
  apply not_elem_of_cons in Hn as [_ Hn]. destruct (Z.eqb_spec (tr_sibling m') c) as [Eq|_].
  { exfalso. destruct ads as [|d ads]; [cbn in Hq; congruence|]. apply chain_head in Hq as Eq'. apply Hn, elem_of_cons. left. congruence. }
  mred. apply IH; [done|done|done|]. cbn in Hf. lia.
Qed.
Lemma removeChild_ok h t l1 c l2 : kids h t (l1 ++ c :: l2) ->
  exists h', Tree_removeChild h t c = Ret h' /\ kids h' t (l1 ++ l2).
Proof.
  intros Hk. pose proof (kids_size _ _ _ Hk) as Hs. pose proof Hk as [(m & Em & Hc) Nd Ht].
  destruct (chain_mid _ _ _ _ _ Hc) as (Hc0 & q & (n & Ec & Es)%tr_next_inv & Hq). unfold Tree_removeChild.
  rewrite (proj2 (Z.eqb_neq _ _) Hc0), (tr_of_ok _ _ _ Em). mred. pose proof Nd as (N1 & N2 & N3)%NoDup_app.
  apply NoDup_cons in N3 as [N3 N4]. rewrite elem_of_app, elem_of_cons in Ht.
  destruct l1 as [|a l1 _] using rev_ind.
  - apply chain_head in Hc as E. rewrite E, Z.eqb_refl, (tr_of_ok _ _ _ Ec). mred. rewrite (set_children_ok _ _ _ _ Em).
    eexists. split; [done|]. split; [|done|naive_solver]. eexists. rewrite lookup_insert_eq. split; [done|]. cbn [tr_children].
    rewrite Es. eapply chain_same; [done|]. intros b Hb. rewrite tr_next_insert, decide_False; [done|]. intros ->. naive_solver.
  - rewrite <- app_assoc in *. cbn [app] in *. assert (~ (c ∈ l1 ++ [a])) as Hca by (intros Hin; apply (N2 c Hin); by left).
    destruct (Z.eqb_spec (tr_children m) c) as [E|_].
    { exfalso. apply Hca. rewrite <- E. destruct l1; apply chain_head in Hc as ->; by left. }
    destruct (chain_mid _ _ _ _ _ Hc) as (Ha & r & (na & Ea & _)%tr_next_inv & _). rewrite !length_app in Hs. cbn in Hs.
    rewrite (remove_loop h l1 a c l2 na n) by (done || lia). eexists. split; [done|]. rewrite Es.
    apply (kids_relink h t l1 a (c :: l2)); [done|done| | |naive_solver].
    + eapply chain_same; [done|]. intros b Hb. rewrite tr_next_insert, decide_False; [done|]. intros ->.
      apply (N2 b); [apply elem_of_app; right; by left|by right].
    + change (a :: l2) with ([a] ++ l2). rewrite app_assoc. apply NoDup_app. split_and!; [done| |done].
      intros b Hb Hb'. apply (N2 b Hb). by right.
Qed.
End ChildProofs.

(** The children of a tree: [prependChild], [appendChild] and [removeChild] change
    the list of children as their names say, and [removeChild] stops on the assertion
    for a node that is not a child. *)
Lemma Tree_operations {V} (h : tr_heap V) t ads : kids h t ads ->
  Tree_count h t = Ret (zlen ads) /\
  Tree_isEmpty h t = Ret (bool_decide (ads = [])) /\
  (forall c n, c <> 0 -> ~ (c ∈ t :: ads) -> h !! c = Some n ->
     exists h', Tree_prependChild h t c = Ret h' /\ kids h' t (c :: ads)) /\
  (forall c n, c <> 0 -> ~ (c ∈ t :: ads) -> h !! c = Some n -> tr_sibling n = 0 ->
     exists h', Tree_appendChild h t c = Ret h' /\ kids h' t (ads ++ [c])) /\
  (forall l1 c l2, ads = l1 ++ c :: l2 -> exists h', Tree_removeChild h t c = Ret h' /\ kids h' t (l1 ++ l2)) /\
  (forall c, c <> 0 -> ~ (c ∈ ads) -> Tree_removeChild h t c = Crash AssertFailed).
Proof.
  intros Hk. pose proof (kids_size _ _ _ Hk) as Hs. pose proof Hk as [(m & Em & Hc) Nd Ht]. split_and!.
  - unfold Tree_count. rewrite (tr_of_ok _ _ _ Em). mred. rewrite (tr_count_ok h ads) by (done || lia). done.
  - unfold Tree_isEmpty. rewrite (tr_of_ok _ _ _ Em). mred. by rewrite (chain_nonempty _ _ _ Hc).
  - intros c n. by apply prependChild_ok.
  - intros c n. by apply appendChild_ok.
  - intros l1 c l2 ->. by apply removeChild_ok.
  - intros c Hc0 Hn. unfold Tree_removeChild. rewrite (proj2 (Z.eqb_neq _ _) Hc0), (tr_of_ok _ _ _ Em). mred.
    destruct (Z.eqb_spec (tr_children m) c) as [E|_].
    + exfalso. destruct ads as [|a ads]; [cbn in Hc; congruence|]. apply chain_head in Hc as E'. apply Hn, elem_of_cons. left. congruence.
    + apply remove_loop_none with (ads := ads); (done || lia).
Qed.

(** *** Doubly linked lists *)

Section DLProofs.
Context {V : Type}.
Implicit Types (h : dl_heap V) (w k : list Z).

Definition nxt h (a : Z) : option Z := dl_nxt <$> h !! a.
Definition prv h (a : Z) : option Z := dl_prv <$> h !! a.
Definition same_dl h h' : Prop := forall a, dl_val <$> h' !! a = dl_val <$> h !! a.

(** Each node of the row is linked with the one after it, both ways. *)
Fixpoint row h w : Prop :=
  match w with
  | a :: ((b :: _) as k) => nxt h a = Some b /\ prv h b = Some a /\ row h k
  | _ => True
  end.
Record dl_rep h (L : DLList) (ads : list Z) : Prop := {
  dr_row : row h (dl_hd L :: ads ++ [dl_tl L]);
  dr_first : prv h (dl_hd L) = Some 0;
  dr_last : nxt h (dl_tl L) = Some 0;
  dr_nodup : NoDup (dl_hd L :: ads ++ [dl_tl L]);
  dr_null : ~ (0 ∈ dl_hd L :: ads ++ [dl_tl L]) }.

Lemma dl_of_ok h a n : h !! a = Some n -> dl_of h a = Ret n.
Proof. unfold dl_of. by intros ->. Qed.
Lemma nxt_inv h a q : nxt h a = Some q -> exists p v, h !! a = Some (mkDL q p v).
Proof. unfold nxt. destruct (h !! a) as [[n p v]|]; [|done]. intros [= <-]. by exists p, v. Qed.
Lemma prv_inv h a p : prv h a = Some p -> exists q v, h !! a = Some (mkDL q p v).
Proof. unfold prv. destruct (h !! a) as [[n q v]|]; [|done]. intros [= <-]. by exists n, v. Qed.

(** What a write of a link changes. *)
Lemma set_nxt_ok h a q : is_Some (h !! a) -> exists h', set_nxt h a q = Ret h' /\
  (forall x, nxt h' x = if decide (x = a) then Some q else nxt h x) /\ (forall x, prv h' x = prv h x) /\ same_dl h h' /\
  (forall x, is_Some (h' !! x) <-> is_Some (h !! x)).
Proof.
  intros [[n p v] E]. unfold set_nxt. rewrite (dl_of_ok _ _ _ E). mred. eexists. split; [done|].
  unfold nxt, prv, same_dl. split_and!; intros x; destruct (decide (x = a)) as [->|Hne];
    rewrite ?lookup_insert_eq, ?E by done; rewrite ?lookup_insert_ne by done; done.
Qed.
Lemma set_prv_ok h a q : is_Some (h !! a) -> exists h', set_prv h a q = Ret h' /\
  (forall x, prv h' x = if decide (x = a) then Some q else prv h x) /\ (forall x, nxt h' x = nxt h x) /\ same_dl h h' /\
  (forall x, is_Some (h' !! x) <-> is_Some (h !! x)).
Proof.
  intros [[n p v] E]. unfold set_prv. rewrite (dl_of_ok _ _ _ E). mred. eexists. split; [done|].
  unfold nxt, prv, same_dl. split_and!; intros x; destruct (decide (x = a)) as [->|Hne];
    rewrite ?lookup_insert_eq, ?E by done; rewrite ?lookup_insert_ne by done; done.
Qed.
Lemma same_dl_trans h h1 h2 : same_dl h h1 -> same_dl h1 h2 -> same_dl h h2.
Proof. intros H1 H2 a. by rewrite H2. Qed.
Lemma dl_of_nxt h a q : nxt h a = Some q -> exists n, dl_of h a = Ret n /\ dl_nxt n = q.
Proof. intros (p & v & E)%nxt_inv. exists (mkDL q p v). by rewrite (dl_of_ok _ _ _ E). Qed.
Lemma dl_of_prv h a p : prv h a = Some p -> exists n, dl_of h a = Ret n /\ dl_prv n = p.
Proof. intros (q & v & E)%prv_inv. exists (mkDL q p v). by rewrite (dl_of_ok _ _ _ E). Qed.
Lemma nxt_some h a q : nxt h a = Some q -> is_Some (h !! a).
Proof. intros (? & ? & ->)%nxt_inv. done. Qed.
Lemma prv_some h a q : prv h a = Some q -> is_Some (h !! a).
Proof. intros (? & ? & ->)%prv_inv. done. Qed.

(** The links after [n] is put between [a] and [b], or [n] is taken out. *)
Definition put_between h h' (a n b : Z) : Prop :=
  (forall x, nxt h' x = if decide (x = a) then Some n else if decide (x = n) then Some b else nxt h x) /\
  (forall x, prv h' x = if decide (x = b) then Some n else if decide (x = n) then Some a else prv h x) /\
  same_dl h h' /\ (forall x, is_Some (h' !! x) <-> is_Some (h !! x)).
Definition taken_out h h' (a b : Z) : Prop :=
  (forall x, nxt h' x = if decide (x = a) then Some b else nxt h x) /\
  (forall x, prv h' x = if decide (x = b) then Some a else prv h x) /\
  same_dl h h' /\ (forall x, is_Some (h' !! x) <-> is_Some (h !! x)).

Lemma row_app h w1 a w2 : row h (w1 ++ a :: w2) <-> row h (w1 ++ [a]) /\ row h (a :: w2).
Proof.
  induction w1 as [|c w1 IH]; [cbn; tauto|]. destruct w1 as [|d w1]; cbn in *; [tauto|]. tauto.
Qed.
Lemma row_same_left h h' w1 a : row h (w1 ++ [a]) -> (forall x, x ∈ w1 -> nxt h' x = nxt h x) ->
  (forall x, x ∈ w1 ++ [a] -> prv h' x = prv h x) -> row h' (w1 ++ [a]).
Proof.
  induction w1 as [|c w1 IH]; [done|]. intros Hw En Ep.
  assert (forall x, x ∈ w1 -> nxt h' x = nxt h x) as En' by (intros x Hx; apply En; by right).
  assert (forall x, x ∈ w1 ++ [a] -> prv h' x = prv h x) as Ep' by (intros x Hx; apply Ep; by right).
  assert (nxt h' c = nxt h c) as Ec by (apply En; left). clear En Ep.
  destruct w1 as [|d w1]; destruct Hw as (H1 & H2 & Hw); (split_and!; [congruence| |by apply IH]); rewrite Ep'; try done; by left.
Qed.
Lemma row_same_right h h' b w2 : row h (b :: w2) -> (forall x, x ∈ b :: w2 -> nxt h' x = nxt h x) ->
  (forall x, x ∈ w2 -> prv h' x = prv h x) -> row h' (b :: w2).
Proof.
  revert b. induction w2 as [|d w2 IH]; intros b; [done|]. intros (H1 & H2 & Hw) En Ep. split_and!.
  - rewrite En; [done|by left].
  - rewrite Ep; [done|by left].
  - apply IH; [done| |]; intros x Hx; [apply En|apply Ep]; by right.
Qed.

Lemma put_between_row h h' w1 a n b w2 : put_between h h' a n b -> row h (w1 ++ [a]) -> row h (b :: w2) ->
  NoDup (w1 ++ a :: b :: w2) -> ~ (n ∈ w1 ++ a :: b :: w2) -> row h' (w1 ++ a :: n :: b :: w2).
Proof.
  intros (En & Ep & _ & _) Hl Hr Nd Hn. apply NoDup_app in Nd as (N1 & N2 & N3).
  apply NoDup_cons in N3 as [N3 N4]. apply NoDup_cons in N4 as [N4 _]. rewrite elem_of_app, !elem_of_cons in Hn.
  assert (a <> b) by (intros ->; apply N3; by left). apply row_app.
  split; [|split; [|split; [|split; [|split]]]].
  - apply (row_same_left h); [done| |]; intros x Hx.
    + rewrite En, !decide_False; [done|by intros ->; naive_solver|]. intros ->. apply (N2 a Hx). by left.
    + rewrite Ep, !decide_False; [done| |]; intros ->; rewrite elem_of_app, list_elem_of_singleton in Hx.
      * naive_solver.
      * destruct Hx as [Hx|?]; [|done]. apply (N2 b Hx). right. by left.
  - by rewrite En, decide_True.
  - rewrite Ep, decide_False, decide_True by (done || naive_solver). done.
  - rewrite En, decide_False, decide_True by (done || naive_solver). done.
  - by rewrite Ep, decide_True.
  - apply (row_same_right h); [done| |]; intros x Hx.
    + rewrite En, !decide_False; [done| |]; intros ->; [|done]. rewrite elem_of_cons in Hx. naive_solver.
    + rewrite Ep, !decide_False; [done| |]; intros ->; [naive_solver|done].
Qed.
Lemma taken_out_row h h' w1 a n b w2 : taken_out h h' a b -> row h (w1 ++ a :: n :: b :: w2) ->
  NoDup (w1 ++ a :: n :: b :: w2) -> row h' (w1 ++ a :: b :: w2).
Proof.
  intros (En & Ep & _ & _) [Hl (_ & _ & _ & _ & Hr)]%row_app Nd. apply NoDup_app in Nd as (N1 & N2 & N3).
  apply NoDup_cons in N3 as [N3 N4]. apply NoDup_cons in N4 as [_ N4]. apply NoDup_cons in N4 as [N4 _].
  rewrite !elem_of_cons in N3. apply row_app. split; [|split_and!].
  - apply (row_same_left h); [done| |]; intros x Hx.
    + rewrite En, decide_False; [done|]. intros ->. apply (N2 a Hx). by left.
    + rewrite Ep, decide_False; [done|]. intros ->. rewrite elem_of_app, list_elem_of_singleton in Hx.
      destruct Hx as [Hx| ->]; [|naive_solver]. apply (N2 b Hx). right. right. by left.
  - by rewrite En, decide_True.
  - by rewrite Ep, decide_True.
  - apply (row_same_right h); [done| |]; intros x Hx.
    + rewrite En, decide_False; [done|]. intros ->. rewrite elem_of_cons in Hx. naive_solver.
    + rewrite Ep, decide_False; [done|]. by intros ->.
Qed.

(** The operations of a node between [a] and [b]. *)
Ltac link_step :=
  lazymatch goal with
  | |- context [set_nxt ?h ?x ?q] =>
      let g := fresh "h" in let N := fresh "N" in let P := fresh "P" in let D := fresh "D" in let S := fresh "S" in
      destruct (set_nxt_ok h x q) as (g & -> & N & P & S & D); [|mred]
  | |- context [set_prv ?h ?x ?q] =>
      let g := fresh "h" in let N := fresh "N" in let P := fresh "P" in let D := fresh "D" in let S := fresh "S" in
      destruct (set_prv_ok h x q) as (g & -> & P & N & S & D); [|mred]
  end.
Lemma insertAfter_ok h a n b : n <> 0 -> n <> a -> n <> b -> a <> b -> nxt h a = Some b -> prv h b = Some a -> is_Some (h !! n) ->
  exists h', DLNode_insertAfter h a n = Ret h' /\ put_between h h' a n b.
Proof.
  intros Hn0 Hna Hnb Hab Ea Eb Hn. unfold DLNode_insertAfter. rewrite (proj2 (Z.eqb_neq _ _) Hn0). mred.
  destruct (dl_of_nxt _ _ _ Ea) as (t & -> & Et). mred. rewrite Et. link_step; [by eapply prv_some|].
  destruct (dl_of_nxt h0 a b) as (t1 & -> & Et1); [by rewrite N|]. mred. rewrite Et1.
  link_step; [by apply D|]. link_step; [by apply D0, D, (nxt_some h a b)|].
  destruct (set_prv_ok h2 n a) as (h3 & -> & P2 & N2 & S2 & D2); [by apply D1, D0, D|].
  exists h3. split; [done|]. split_and!; intros x; rewrite ?N2, ?P2, ?N1, ?P1, ?N0, ?P0, ?N, ?P.
  - by repeat case_decide; subst.
  - by repeat case_decide; subst.
  - by rewrite S2, S1, S0, S.
  - by rewrite D2, D1, D0, D.
Qed.
Lemma insertBefore_ok h a n b : n <> 0 -> n <> a -> n <> b -> a <> b -> nxt h a = Some b -> prv h b = Some a -> is_Some (h !! n) ->
  exists h', DLNode_insertBefore h b n = Ret h' /\ put_between h h' a n b.
Proof.
  intros Hn0 Hna Hnb Hab Ea Eb Hn. unfold DLNode_insertBefore. rewrite (proj2 (Z.eqb_neq _ _) Hn0). mred.
  destruct (dl_of_prv _ _ _ Eb) as (t & -> & Et). mred. rewrite Et. link_step; [by eapply nxt_some|].
  destruct (dl_of_prv h0 b a) as (t1 & -> & Et1); [by rewrite P|]. mred. rewrite Et1.
  link_step; [by apply D|]. link_step; [by apply D0, D, (prv_some h b a)|].
  destruct (set_nxt_ok h2 n b) as (h3 & -> & N2 & P2 & S2 & D2); [by apply D1, D0, D|].
  exists h3. split; [done|]. split_and!; intros x; rewrite ?N2, ?P2, ?N1, ?P1, ?N0, ?P0, ?N, ?P.
  - by repeat case_decide; subst.
  - by repeat case_decide; subst.
  - by rewrite S2, S1, S0, S.
  - by rewrite D2, D1, D0, D.
Qed.
Lemma dl_remove_ok h a n b : n <> a -> n <> b -> a <> b -> nxt h a = Some n -> prv h n = Some a -> nxt h n = Some b -> prv h b = Some n ->
  exists h', DLNode_remove h n = Ret h' /\ taken_out h h' a b.
Proof.
  intros Hna Hnb Hab Ea Pn Nn Pb. unfold DLNode_remove.
  destruct (dl_of_prv _ _ _ Pn) as (t & Et & <-). rewrite Et. mred.
  assert (dl_nxt t = b) as Etb by (destruct (dl_of_nxt _ _ _ Nn) as (t' & Et' & ?); congruence). rewrite Etb.
  link_step; [by eapply nxt_some|].
  destruct (dl_of_prv h0 n (dl_prv t)) as (t1 & Et1 & Ep1); [by rewrite P|]. rewrite Et1. mred.
  assert (dl_nxt t1 = b) as ->.
  { destruct (dl_of_nxt h0 n b) as (t' & Et' & ?); [by rewrite N, decide_False|congruence]. }
  rewrite Ep1. destruct (set_prv_ok h0 b (dl_prv t)) as (h1 & -> & P1 & N1 & S1 & D1); [by apply D, (prv_some h b n)|].
  exists h1. split; [done|]. split_and!; intros x; rewrite ?N1, ?P1, ?N, ?P; [done|done|by rewrite S1, S|by rewrite D1, D].
Qed.
Lemma dl_replace_ok h a n b m : m <> 0 -> m <> a -> m <> b -> m <> n -> a <> b -> n <> a -> n <> b ->
  nxt h a = Some n -> prv h n = Some a -> nxt h n = Some b -> prv h b = Some n -> is_Some (h !! m) ->
  exists h', DLNode_replace h n m = Ret h' /\ put_between h h' a m b.
Proof.
  intros Hm0 Hma Hmb Hmn Hab Hna Hnb Ea Pn Nn Pb Hm. unfold DLNode_replace. rewrite (proj2 (Z.eqb_neq _ _) Hm0). mred.
  destruct (dl_of_nxt _ _ _ Nn) as (t & -> & Et). mred. rewrite Et. link_step; [by eapply prv_some|].
  destruct (dl_of_nxt h0 n b) as (t1 & -> & Et1); [by rewrite N|]. mred. rewrite Et1. link_step; [by apply D|].
  destruct (dl_of_prv h1 n a) as (t2 & -> & Et2); [by rewrite P0, P, decide_False|]. mred. rewrite Et2.
  link_step; [by apply D0, D, (nxt_some h a n)|].
  destruct (dl_of_prv h2 n a) as (t3 & -> & Et3); [by rewrite P1, P0, P, decide_False|]. mred. rewrite Et3.
  destruct (set_prv_ok h2 m a) as (h3 & -> & P2 & N2 & S2 & D2); [by apply D1, D0, D|].
  exists h3. split; [done|]. split_and!; intros x; rewrite ?N2, ?P2, ?N1, ?P1, ?N0, ?P0, ?N, ?P.
  - by repeat case_decide; subst.
  - by repeat case_decide; subst.
  - by rewrite S2, S1, S0, S.
  - by rewrite D2, D1, D0, D.
Qed.
End DLProofs.

(** *** The list as a row from its head to its tail *)

Section DLLists.
Context {V : Type}.
Implicit Types (h : dl_heap V) (L : DLList) (ads l : list Z).

(** The node before a place of the list and the node after it. *)
Definition at_place L l1 l2 (w1 : list Z) (a b : Z) (w2 : list Z) : Prop :=
  dl_hd L :: l1 = w1 ++ [a] /\ l2 ++ [dl_tl L] = b :: w2.
Lemma place_exists L l1 l2 : exists w1 a b w2, at_place L l1 l2 w1 a b w2.
Proof.
  destruct (exists_last (l := dl_hd L :: l1)) as (w1 & a & E); [done|].
  destruct l2 as [|b l2]; [by exists w1, a, (dl_tl L), []|by exists w1, a, b, (l2 ++ [dl_tl L])].
Qed.
Lemma place_row L l1 l2 w1 a b w2 k : at_place L l1 l2 w1 a b w2 ->
  dl_hd L :: (l1 ++ k ++ l2) ++ [dl_tl L] = w1 ++ a :: k ++ b :: w2.
Proof.
  intros [E1 E2]. rewrite <- !app_assoc, E2, app_comm_cons, E1, <- app_assoc. done.
Qed.
(** The head is before the place and the tail after it. *)
Lemma place_ends L l1 l2 w1 a b w2 : at_place L l1 l2 w1 a b w2 -> dl_hd L ∈ w1 ++ [a] /\ dl_tl L ∈ b :: w2.
Proof. intros [<- <-]. rewrite elem_of_app. split; [by left|right; by left]. Qed.
Lemma place_apart L l1 l2 w1 a b w2 h : at_place L l1 l2 w1 a b w2 -> dl_rep h L (l1 ++ l2) ->
  nxt h a = Some b /\ prv h b = Some a /\ a <> b /\ row h (w1 ++ [a]) /\ row h (b :: w2) /\
  (forall x, x ∈ w1 ++ [a] -> ~ (x ∈ b :: w2)).
Proof.
  intros Hp [R _ _ Nd _]. pose proof (place_row L l1 l2 w1 a b w2 [] Hp) as E. cbn in E. rewrite E in *.
  apply row_app in R as [Hl (H1 & H2 & Hr)]. change (a :: b :: w2) with ([a] ++ b :: w2) in Nd. rewrite app_assoc in Nd.
  apply NoDup_app in Nd as (_ & Nd & _). split_and!; try done. intros ->. apply (Nd b); [apply elem_of_app; right|]; by left.
Qed.

Lemma dl_put_ok h h' L l1 l2 w1 a b w2 n : at_place L l1 l2 w1 a b w2 -> dl_rep h L (l1 ++ l2) -> n <> 0 ->
  ~ (n ∈ dl_hd L :: (l1 ++ l2) ++ [dl_tl L]) -> put_between h h' a n b -> dl_rep h' L (l1 ++ n :: l2).
Proof.
  intros Hp Hr Hn0 Hn Hput. destruct (place_apart _ _ _ _ _ _ _ _ Hp Hr) as (H1 & H2 & Hab & Hl & Hrr & Ha).
  destruct (place_ends _ _ _ _ _ _ _ Hp) as [Hh Ht]. destruct Hr as [R Rf Rl Nd R0].
  pose proof (place_row L l1 l2 w1 a b w2 [] Hp) as E0. cbn in E0. rewrite E0 in *.
  pose proof (place_row L l1 l2 w1 a b w2 [n] Hp) as E1. cbn in E1.
  assert (n <> dl_hd L /\ n <> dl_tl L) as [Hnh Hnt].
  { split; intros ->; apply Hn; change (a :: b :: w2) with ([a] ++ b :: w2); rewrite app_assoc, elem_of_app; auto. }
  assert (w1 ++ a :: n :: b :: w2 ≡ₚ n :: w1 ++ a :: b :: w2) as P by (rewrite <- !Permutation_middle; constructor).
  pose proof Hput as (En & Ep & _). split; rewrite ?E1.
  - by apply (put_between_row h).
  - rewrite Ep, !decide_False; [done|done|]. intros E. apply (Ha (dl_hd L) Hh). rewrite E. by left.
  - rewrite En, !decide_False; [done|done|]. intros E. apply (Ha a); [apply elem_of_app; right; by left|]. by rewrite <- E.
  - rewrite P. by apply NoDup_cons.
  - rewrite P, elem_of_cons. by intros [?|?].
Qed.
Lemma dl_out_ok h h' L l1 l2 w1 a b w2 n : at_place L l1 l2 w1 a b w2 -> dl_rep h L (l1 ++ n :: l2) ->
  taken_out h h' a b -> dl_rep h' L (l1 ++ l2).
Proof.
  intros Hp [R Rf Rl Nd R0] Hout. destruct (place_ends _ _ _ _ _ _ _ Hp) as [Hh Ht].
  pose proof (place_row L l1 l2 w1 a b w2 [] Hp) as E0. cbn in E0.
  pose proof (place_row L l1 l2 w1 a b w2 [n] Hp) as E1. cbn in E1. rewrite E1 in *.
  assert (w1 ++ a :: n :: b :: w2 ≡ₚ n :: w1 ++ a :: b :: w2) as P by (rewrite <- !Permutation_middle; constructor).
  pose proof Nd as Nd'. rewrite P in Nd', R0. apply NoDup_cons in Nd' as [_ Nd'].
  assert (forall x, x ∈ w1 ++ [a] -> ~ (x ∈ b :: w2)) as Ha.
  { change (a :: b :: w2) with ([a] ++ b :: w2) in Nd'. rewrite app_assoc in Nd'. by apply NoDup_app in Nd' as (_ & ? & _). }
  pose proof Hout as (En & Ep & _). split; rewrite ?E0.
  - by apply (taken_out_row h h' w1 a n).
  - rewrite Ep, !decide_False; [done|]. intros E. apply (Ha (dl_hd L) Hh). rewrite E. by left.
  - rewrite En, !decide_False; [done|]. intros E. apply (Ha a); [apply elem_of_app; right; by left|]. by rewrite <- E.
  - done.
  - intros Hin. apply R0. by right.
Qed.
(** The links around a node of the list. *)
Lemma dl_around h L l1 l2 w1 a b w2 n : at_place L l1 l2 w1 a b w2 -> dl_rep h L (l1 ++ n :: l2) ->
  nxt h a = Some n /\ prv h n = Some a /\ nxt h n = Some b /\ prv h b = Some n /\ n <> a /\ n <> b /\ a <> b /\
  a <> 0 /\ n <> 0 /\ b <> 0.
Proof.
  intros Hp [R Rf Rl Nd R0]. pose proof (place_row L l1 l2 w1 a b w2 [n] Hp) as E1. cbn in E1. rewrite E1 in *.
  apply row_app in R as [_ (H1 & H2 & H3 & H4 & _)]. apply NoDup_app in Nd as (_ & _ & Nd).
  apply NoDup_cons in Nd as [Na Nd]. apply NoDup_cons in Nd as [Nn _]. rewrite !elem_of_app, !elem_of_cons in *.
  split_and!; try done; intros ->; naive_solver.
Qed.

Lemma dl_first_ok h L ads : dl_rep h L ads -> nxt h (dl_hd L) = Some (hd (dl_tl L) ads) /\ prv h (dl_tl L) = Some (List.last ads (dl_hd L)).
Proof.
  intros [R _ _ _ _]. split; [destruct ads; apply R|].
  destruct ads as [|a ads _] using rev_ind; [apply R|]. rewrite last_snoc.
  rewrite <- app_assoc in R. change (dl_hd L :: ads ++ [a] ++ [dl_tl L]) with ((dl_hd L :: ads) ++ a :: [dl_tl L]) in R.
  apply row_app in R as [_ R]. apply R.
Qed.
Lemma dl_isEmpty_ok h L ads : dl_rep h L ads -> DLList_isEmpty h L = Ret (bool_decide (ads = [])).
Proof.
  intros Hr. destruct (dl_first_ok h L ads Hr) as [H1 _]. unfold DLList_isEmpty.
  destruct (dl_of_nxt _ _ _ H1) as (n & -> & En). mred. rewrite En. destruct Hr as [_ _ _ Nd _]. destruct ads as [|a ads]; cbn.
  - by rewrite Z.eqb_refl.
  - f_equal. apply Z.eqb_neq. intros ->. apply NoDup_cons in Nd as [_ Nd].
    apply NoDup_cons in Nd as [Nd _]. apply Nd, elem_of_app. right. by left.
Qed.

(** Adding a node at a place, by the node before or the node after. *)
Lemma dl_insert_ok h L l1 l2 w1 a b w2 n : at_place L l1 l2 w1 a b w2 -> dl_rep h L (l1 ++ l2) -> n <> 0 ->
  ~ (n ∈ dl_hd L :: (l1 ++ l2) ++ [dl_tl L]) -> is_Some (h !! n) ->
  (exists h', DLNode_insertAfter h a n = Ret h' /\ dl_rep h' L (l1 ++ n :: l2) /\ same_dl h h' /\ forall x, is_Some (h' !! x) <-> is_Some (h !! x)) /\
  (exists h', DLNode_insertBefore h b n = Ret h' /\ dl_rep h' L (l1 ++ n :: l2) /\ same_dl h h' /\ forall x, is_Some (h' !! x) <-> is_Some (h !! x)).
Proof.
  intros Hp Hr Hn0 Hn En. destruct (place_apart _ _ _ _ _ _ _ _ Hp Hr) as (H1 & H2 & Hab & _).
  assert (n <> a /\ n <> b) as [Hna Hnb].
  { pose proof (place_row L l1 l2 w1 a b w2 [] Hp) as E0. cbn in E0. rewrite E0, elem_of_app, !elem_of_cons in Hn. naive_solver. }
  destruct (insertAfter_ok h a n b) as (h1 & -> & P1); try done. destruct (insertBefore_ok h a n b) as (h2 & -> & P2); try done.
  split; [exists h1|exists h2]; (split; [done|]); (split; [by eapply dl_put_ok|]); [apply P1|apply P2].
Qed.
Lemma dl_node_remove_ok h L l1 l2 n : dl_rep h L (l1 ++ n :: l2) ->
  exists h', DLNode_remove h n = Ret h' /\ dl_rep h' L (l1 ++ l2) /\ same_dl h h' /\ forall x, is_Some (h' !! x) <-> is_Some (h !! x).
Proof.
  intros Hr. destruct (place_exists L l1 l2) as (w1 & a & b & w2 & Hp).
  destruct (dl_around _ _ _ _ _ _ _ _ _ Hp Hr) as (H1 & H2 & H3 & H4 & Hna & Hnb & Hab & _).
  destruct (dl_remove_ok h a n b) as (h' & -> & Hout); try done. exists h'. split; [done|].
  split; [by eapply dl_out_ok|]. apply Hout.
Qed.
Lemma dl_node_replace_ok h L l1 l2 n m : dl_rep h L (l1 ++ n :: l2) -> m <> 0 ->
  ~ (m ∈ dl_hd L :: (l1 ++ n :: l2) ++ [dl_tl L]) -> is_Some (h !! m) ->
  exists h', DLNode_replace h n m = Ret h' /\ dl_rep h' L (l1 ++ m :: l2) /\ same_dl h h'.
Proof.
  intros Hr Hm0 Hm Em. destruct (place_exists L l1 l2) as (w1 & a & b & w2 & Hp).
  destruct (dl_around _ _ _ _ _ _ _ _ _ Hp Hr) as (H1 & H2 & H3 & H4 & Hna & Hnb & Hab & _).
  pose proof (place_row L l1 l2 w1 a b w2 [n] Hp) as E1. cbn in E1.
  assert (m <> a /\ m <> b /\ m <> n) as (Hma & Hmb & Hmn) by (rewrite E1, elem_of_app, !elem_of_cons in Hm; naive_solver).
  destruct (dl_remove_ok h a n b) as (g & _ & Hout); try done. pose proof (dl_out_ok _ _ _ _ _ _ _ _ _ _ Hp Hr Hout) as Hg.
  destruct (dl_replace_ok h a n b m) as (h' & -> & Hput); try done. exists h'. split; [done|]. split; [|apply Hput].
  pose proof (place_row L l1 l2 w1 a b w2 [] Hp) as E0. cbn in E0.
  apply (dl_put_ok g h' L l1 l2 w1 a b w2 m); try done.
  - intros Hin. apply Hm. rewrite E1. rewrite E0 in Hin. rewrite elem_of_app, !elem_of_cons in *. naive_solver.
  - destruct Hput as (P1 & P2 & P3 & P4). destruct Hout as (O1 & O2 & O3 & O4). split_and!; intros x.
    + rewrite P1, O1. by repeat case_decide.
    + rewrite P2, O2. by repeat case_decide.
    + by rewrite P3, O3.
    + by rewrite P4, O4.
Qed.
End DLLists.

Section DLOperations.
Context {V : Type}.
Implicit Types (h : dl_heap V) (L : DLList) (ads : list Z).

Lemma row_in h w : forall x, row h w -> (1 < length w)%nat -> x ∈ w -> is_Some (h !! x).
Proof.
  induction w as [|a [|b w] IH]; intros x; cbn [length]; [lia|lia|]. intros (H1 & H2 & Hw) _ [->|Hx]%elem_of_cons.
  - by eapply nxt_some.
  - destruct w as [|c w]; [apply list_elem_of_singleton in Hx as ->; by eapply prv_some|]. apply IH; [done|cbn; lia|done].
Qed.
Lemma dl_in h L ads x : dl_rep h L ads -> x ∈ dl_hd L :: ads ++ [dl_tl L] -> is_Some (h !! x).
Proof. intros [R _ _ _ _]. apply row_in; [done|]. cbn. rewrite length_app. cbn. lia. Qed.
Lemma row_frame h h' w : row h w -> (forall x, x ∈ w -> h' !! x = h !! x) -> row h' w.
Proof.
  induction w as [|a [|b w] IH]; [done|done|]. intros (H1 & H2 & Hw) E. split; [|split].
  - unfold nxt. rewrite E; [done|by left].
  - unfold prv. rewrite E; [done|right; by left].
  - apply IH; [done|]. intros x Hx. apply E. by right.
Qed.
Lemma dl_rep_frame h h' L ads : dl_rep h L ads -> (forall x, x ∈ dl_hd L :: ads ++ [dl_tl L] -> h' !! x = h !! x) -> dl_rep h' L ads.
Proof.
  intros [R Rf Rl Nd R0] E. split; [by eapply row_frame| | |done|done]; unfold nxt, prv in *; rewrite E; try done; [by left|].
  right. apply elem_of_app. right. by left.
Qed.
Lemma dl_size h L ads : dl_rep h L ads -> (length ads + 2 <= size h)%nat.
Proof.
  intros Hr. pose proof (nodup_size h _ (dr_nodup _ _ _ Hr)) as Hs. cbn in Hs. rewrite length_app in Hs. cbn in Hs.
  enough (S (length ads + 1) <= size h)%nat by lia. apply Hs. intros a. by apply dl_in.
Qed.
Lemma dl_count_loop h tl ads : forall p cnt fuel, row h (p :: ads ++ [tl]) -> ~ (tl ∈ ads) -> (length ads < fuel)%nat ->
  iter fuel (fun '(cur, cnt) =>
    if cur =? tl then Ret (inr cnt) else n ← dl_of h cur; Ret (inl (dl_nxt n, cnt + 1))) (hd tl ads, cnt) = Ret (cnt + zlen ads).
Proof.
  induction ads as [|a ads IH]; intros p cnt fuel Hr Ht Hf; (destruct fuel as [|fuel]; [cbn in Hf; lia|]); cbn [iter hd].
  - rewrite Z.eqb_refl. cbn. f_equal. lia.
  - apply not_elem_of_cons in Ht as [Hta Ht]. rewrite (proj2 (Z.eqb_neq a tl)) by done. destruct Hr as (_ & _ & Hr).
    assert (nxt h a = Some (hd tl ads)) as Ha by (destruct ads; apply Hr).
    destruct (dl_of_nxt _ _ _ Ha) as (n & -> & En). mred. rewrite En, (IH a) by (done || (cbn in Hf; lia)). f_equal. cbn. lia.
Qed.
Lemma dl_count_ok h L ads : dl_rep h L ads -> DLList_count h L = Ret (zlen ads).
Proof.
  intros Hr. pose proof (dl_size h L ads Hr). destruct (dl_first_ok h L ads Hr) as [H1 _]. unfold DLList_count.
  destruct (dl_of_nxt _ _ _ H1) as (n & -> & En). mred. rewrite En. destruct Hr as [R _ _ Nd _].
  rewrite (dl_count_loop h _ ads (dl_hd L)); [done|done| |lia]. apply NoDup_cons in Nd as [_ Nd]. apply NoDup_app in Nd as (_ & Nd & _).
  intros Hin. apply (Nd _ Hin). by left.
Qed.
Lemma dl_atEnd_ok h L l1 n l2 : dl_rep h L (l1 ++ n :: l2) -> DLNode_atEnd h n = Ret false /\ DLNode_atBegin h n = Ret false.
Proof.
  intros Hr. destruct (place_exists L l1 l2) as (w1 & a & b & w2 & Hp).
  destruct (dl_around _ _ _ _ _ _ _ _ _ Hp Hr) as (_ & H2 & H3 & _ & _ & _ & _ & Ha & _ & Hb). unfold DLNode_atEnd, DLNode_atBegin.
  destruct (dl_of_nxt _ _ _ H3) as (m & Em & <-), (dl_of_prv _ _ _ H2) as (m' & Em' & <-). rewrite Em in Em'. injection Em' as <-.
  rewrite Em. mred. by rewrite !(proj2 (Z.eqb_neq _ _)).
Qed.
End DLOperations.

(** ** Properties *)

(** [h'] holds the list [ads]; the values and the cells are those of [h]. *)
Definition dl_result {V} (h h' : dl_heap V) (L : DLList) (ads : list Z) : Prop :=
  dl_rep h' L ads /\ same_dl h h' /\ forall x, is_Some (h' !! x) <-> is_Some (h !! x).

Lemma DLList_make_rep {V} (h : dl_heap V) L x : dl_hd L <> 0 -> dl_tl L <> 0 -> dl_hd L <> dl_tl L ->
  dl_rep (DLList_make h L x) L [].
Proof.
  intros H1 H2 H3. unfold DLList_make. split; cbn [app row].
  - unfold nxt, prv. rewrite lookup_insert_ne, lookup_insert_eq, lookup_insert_eq by done. done.
  - unfold prv. by rewrite lookup_insert_ne, lookup_insert_eq.
  - unfold nxt. by rewrite lookup_insert_eq.
  - apply NoDup_cons. split; [by intros ?%list_elem_of_singleton|apply NoDup_singleton].
  - rewrite !elem_of_cons. intros [?|[?|?%not_elem_of_nil]]; congruence.
Qed.

Section DLResults.
Context {V : Type} (h : dl_heap V) (L : DLList).

Lemma DLList_addFirst_ok ads n : dl_rep h L ads -> n <> 0 -> ~ (n ∈ dl_hd L :: ads ++ [dl_tl L]) -> is_Some (h !! n) ->
  exists h', DLList_addFirst h L n = Ret h' /\ dl_result h h' L (n :: ads).
Proof.
  intros Hr Hn0 Hn En. unfold DLList_addFirst. rewrite (proj2 (Z.eqb_neq _ _) Hn0). mred.
  destruct (place_exists L [] ads) as (w1 & a & b & w2 & Hp). pose proof Hp as [E _].
  assert (a = dl_hd L) as -> by (destruct w1 as [|? [|]]; cbn in E; congruence).
  by apply (dl_insert_ok h L [] ads w1 _ b w2 n).
Qed.
Lemma DLList_addLast_ok ads n : dl_rep h L ads -> n <> 0 -> ~ (n ∈ dl_hd L :: ads ++ [dl_tl L]) -> is_Some (h !! n) ->
  exists h', DLList_addLast h L n = Ret h' /\ dl_result h h' L (ads ++ [n]).
Proof.
  intros Hr Hn0 Hn En. unfold DLList_addLast. rewrite (proj2 (Z.eqb_neq _ _) Hn0). mred.
  destruct (place_exists L ads []) as (w1 & a & b & w2 & Hp). pose proof Hp as [_ E]. injection E as <- _.
  apply (dl_insert_ok h L ads [] w1 a (dl_tl L) w2 n); rewrite ?app_nil_r; done.
Qed.
Lemma DLList_removeFirst_ok a k : dl_rep h L (a :: k) ->
  exists h', DLList_removeFirst h L = Ret h' /\ dl_result h h' L k.
Proof.
  intros Hr. unfold DLList_removeFirst. rewrite (dl_isEmpty_ok _ _ _ Hr). mred.
  destruct (dl_first_ok _ _ _ Hr) as [(n & En & Ea)%dl_of_nxt _]. unfold DLNode_removeNext. cbn [hd] in Ea. rewrite En. mred.
  rewrite Ea, (proj1 (dl_atEnd_ok h L [] a k Hr)). mred. by apply (dl_node_remove_ok h L []).
Qed.
Lemma DLList_removeLast_ok a k : dl_rep h L (k ++ [a]) ->
  exists h', DLList_removeLast h L = Ret h' /\ dl_result h h' L k.
Proof.
  intros Hr. unfold DLList_removeLast. rewrite (dl_isEmpty_ok _ _ _ Hr), bool_decide_eq_false_2 by (by destruct k). mred.
  destruct (dl_first_ok _ _ _ Hr) as [_ (n & En & Ea)%dl_of_prv]. unfold DLNode_removePrevious. rewrite last_snoc in Ea. rewrite En. mred.
  rewrite Ea, (proj2 (dl_atEnd_ok h L k a [] Hr)). mred. destruct (dl_node_remove_ok h L k [] a Hr) as (h' & -> & Hd).
  rewrite app_nil_r in Hd. by exists h'.
Qed.
(** The node after [n] in place of the place, from the node before. *)
Lemma DLNode_insert_ok l1 n l2 m : dl_rep h L (l1 ++ n :: l2) -> m <> 0 ->
  ~ (m ∈ dl_hd L :: (l1 ++ n :: l2) ++ [dl_tl L]) -> is_Some (h !! m) ->
  (exists h', DLNode_insertAfter h n m = Ret h' /\ dl_result h h' L (l1 ++ n :: m :: l2)) /\
  (exists h', DLNode_insertBefore h n m = Ret h' /\ dl_result h h' L (l1 ++ m :: n :: l2)).
Proof.
  intros Hr Hm0 Hm Em. split.
  - destruct (place_exists L (l1 ++ [n]) l2) as (w1 & a & b & w2 & Hp). pose proof Hp as [E _].
    rewrite app_comm_cons in E. apply app_inj_tail in E as [_ <-].
    destruct (dl_insert_ok h L (l1 ++ [n]) l2 w1 n b w2 m) as [X _]; rewrite <- ?app_assoc in *; done.
  - destruct (place_exists L l1 (n :: l2)) as (w1 & a & b & w2 & Hp). pose proof Hp as [_ E]. injection E as <- E.
    by apply (dl_insert_ok h L l1 (n :: l2) w1 a n w2 m).
Qed.
End DLResults.

(** A doubly linked list refines the list of its nodes: each operation changes it as
    its name says, on both directions of the links, keeps the values of the nodes, and
    does not touch the cells of other structures. *)
Theorem DLList_refines_list {V} (h : dl_heap V) L ads : dl_rep h L ads ->
  DLList_isEmpty h L = Ret (bool_decide (ads = [])) /\ DLList_count h L = Ret (zlen ads) /\
  DLList_first h L = Ret (hd (dl_tl L) ads) /\ DLList_last h L = Ret (List.last ads (dl_hd L)) /\
  (forall n, n <> 0 -> ~ (n ∈ dl_hd L :: ads ++ [dl_tl L]) -> is_Some (h !! n) ->
     (exists h', DLList_addFirst h L n = Ret h' /\ dl_result h h' L (n :: ads)) /\
     (exists h', DLList_addLast h L n = Ret h' /\ dl_result h h' L (ads ++ [n])) /\
     forall l1 m l2, ads = l1 ++ m :: l2 ->
       (exists h', DLNode_insertAfter h m n = Ret h' /\ dl_result h h' L (l1 ++ m :: n :: l2)) /\
       (exists h', DLNode_insertBefore h m n = Ret h' /\ dl_result h h' L (l1 ++ n :: m :: l2)) /\
       (exists h', DLNode_replace h m n = Ret h' /\ dl_rep h' L (l1 ++ n :: l2) /\ same_dl h h')) /\
  (forall a k, ads = a :: k -> exists h', DLList_removeFirst h L = Ret h' /\ dl_result h h' L k) /\
  (forall a k, ads = k ++ [a] -> exists h', DLList_removeLast h L = Ret h' /\ dl_result h h' L k) /\
  (forall l1 m l2, ads = l1 ++ m :: l2 -> exists h', DLNode_remove h m = Ret h' /\ dl_result h h' L (l1 ++ l2)) /\
  (ads = [] -> DLList_removeFirst h L = Crash AssertFailed /\ DLList_removeLast h L = Crash AssertFailed).
Proof.
  intros Hr. destruct (dl_first_ok h L ads Hr) as [(f & Ef & Hf)%dl_of_nxt (l & El & Hl)%dl_of_prv]. split_and!.
  - by apply dl_isEmpty_ok.
  - by apply dl_count_ok.
  - unfold DLList_first. rewrite Ef. mred. by rewrite Hf.
  - unfold DLList_last. rewrite El. mred. by rewrite Hl.
  - intros n Hn0 Hn En. split_and!; [by apply DLList_addFirst_ok|by apply DLList_addLast_ok|]. intros l1 m l2 ->.
    split_and!; [by apply DLNode_insert_ok..|by apply dl_node_replace_ok].
  - intros a k ->. by apply DLList_removeFirst_ok with (a := a).
  - intros a k ->. by apply DLList_removeLast_ok with (a := a).
  - intros l1 m l2 ->. by apply dl_node_remove_ok.
  - intros ->. unfold DLList_removeFirst, DLList_removeLast. by rewrite (dl_isEmpty_ok _ _ _ Hr).
Qed.

(** A list of head 1 and tail 2, with the node 5 free. *)
Definition demo_L : DLList := mkDLL 1 2.
Definition demo_dl : dl_heap Z := DLList_make (<[5 := mkDL 0 0 50]> ∅) demo_L 0.
Lemma DLList_refines_list_witness : exists h', DLList_addLast demo_dl demo_L 5 = Ret h' /\ DLList_count h' demo_L = Ret 1.
Proof.
  destruct (DLList_refines_list demo_dl demo_L []) as (_ & _ & _ & _ & X & _).
  - apply DLList_make_rep; done.
  - destruct (X 5) as (_ & (h' & E & _) & _); [done|by_decide|by eexists|]. exists h'. split; [exact E|].
    vm_compute in E. injection E as <-. reflexivity.
Defined.

(** ** What the code does and should not *)

(** [hasChild] and [contains] say yes for any node as soon as there is a child. *)
Example Tree_hasChild_any : Tree_hasChild (V := Z) (<[1 := mkTR 2 0 0]> (<[2 := mkTR 0 0 0]> ∅)) 1 77 = Ret true.
Proof. vm_compute. reflexivity. Qed.
(** As a condition, a [Tree] of data/Tree.h is true when it has no child. *)
Example dataTree_bool_inverted : dataTree_bool (V := Z) (<[1 := mkTR 0 0 0]> ∅) 1 = Ret true.
Proof. vm_compute. reflexivity. Qed.
(** After the constructor that takes the nodes of a list, this list is not empty and a
    loop on it follows the null pointer. *)
Example DLList_take_breaks :
  (h ← DLList_addLast demo_dl demo_L 5; h ← DLList_take h (mkDLL 3 4) demo_L 0;
   a ← DLList_count h (mkDLL 3 4); b ← DLList_isEmpty h demo_L; Ret (a, b)) = Ret (1, false) /\
  (h ← DLList_addLast demo_dl demo_L 5; h ← DLList_take h (mkDLL 3 4) demo_L 0; DLList_count h demo_L) = Crash OutOfBounds.
Proof. vm_compute. done. Qed.
