(* ===== verification/BiDiList.v ===== *)
(** * Lists in two directions ([data/BiDiList.h])

    A list of values on the doubly linked list of [Links.v]: the nodes are allocated
    and hold a value, but the head and the tail, which are parts of the list. The
    allocator is a parameter, with the promise that the address it gives is not null
    and not in use. An iterator is the address of its node. *)

From stdpp Require Import gmap sets.
From S2P Require Import Prelude Queues Links.
#[local] Open Scope Z_scope.

(** The head and the tail have no value. *)
Abbreviation bd_heap T := (dl_heap (option T)).

Section BiDiList.
Context {T : Type} (isEqual : T -> T -> bool).
Context (new_node : bd_heap T -> Z).
Implicit Types (h : bd_heap T) (l : DLList) (x : T) (i : Z).

(* src/include/elm/data/BiDiList.h:35-43 BiDiList::Node *)
Definition BiDiNode_new h x : Z * bd_heap T := let n := new_node h in (n, <[n := mkDL 0 0 (Some x)]> h).
(* src/include/elm/data/BiDiList.h:40-40 BiDiList::Node::free *)
Definition BiDiNode_free h (n : Z) : outcome (bd_heap T) := dl_of h n ;; Ret (delete n h).
(** The value of a node; the head and the tail are taken for nodes. *)
Definition node_val h (n : Z) : outcome T :=
  m ← dl_of h n; match dl_val m with Some x => Ret x | None => Crash Undefined end.

(* src/include/elm/data/BiDiList.h:60-60 BiDiList::Iter::Iter *)
Definition BiDiIter_make h l : outcome Z := DLList_first h l.
(* src/include/elm/data/BiDiList.h:63-63 BiDiList::Iter::ended *)
Definition BiDiIter_ended h i : outcome bool := DLNode_atEnd h i.
(* src/include/elm/data/BiDiList.h:64-64 BiDiList::Iter::item *)
Definition BiDiIter_item h i : outcome T := node_val h i.
(* src/include/elm/data/BiDiList.h:65-65 BiDiList::Iter::next *)
Definition BiDiIter_next h i : outcome Z := n ← dl_of h i; Ret (dl_nxt n).
Definition assert_in h i : outcome unit := e ← BiDiIter_ended h i; assertP (negb e).

(* src/include/elm/data/BiDiList.h:85-85 BiDiList::count *)
Definition BiDiList_count h l : outcome Z := DLList_count h l.
(* src/include/elm/data/BiDiList.h:90-90 BiDiList::isEmpty *)
Definition BiDiList_isEmpty h l : outcome bool := DLList_isEmpty h l.

(** The loops that look for an item, from an iterator. *)
(* src/include/elm/data/BiDiList.h:122-122 BiDiList::find *)
Definition bd_find_step h x i : outcome (Z + Z) :=
  e ← BiDiIter_ended h i;
  if (e : bool) then Ret (inr i) else
  y ← BiDiIter_item h i;
  if isEqual x y then Ret (inr i) else n ← BiDiIter_next h i; Ret (inl n).
(* src/include/elm/data/BiDiList.h:121-122 BiDiList::find *)
Definition BiDiList_find h l x : outcome Z := i ← BiDiIter_make h l; iter (S (size h)) (bd_find_step h x) i.
(* src/include/elm/data/BiDiList.h:123-124 BiDiList::find *)
Definition BiDiList_find_after h x (pos : Z) : outcome Z := i ← BiDiIter_next h pos; iter (S (size h)) (bd_find_step h x) i.
(* src/include/elm/data/BiDiList.h:86-87 BiDiList::contains *)
Definition BiDiList_contains h l x : outcome bool :=
  i ← BiDiIter_make h l;
  iter (S (size h)) (fun i =>
    e ← BiDiIter_ended h i;
    if (e : bool) then Ret (inr false) else
    y ← BiDiIter_item h i;
    if isEqual x y then Ret (inr true) else n ← BiDiIter_next h i; Ret (inl n)) i.
(* src/include/elm/data/BiDiList.h:88-89 BiDiList::containsAll *)
Fixpoint BiDiList_containsAll h l (c : list T) : outcome bool :=
  match c with
  | [] => Ret true
  | x :: c => b ← BiDiList_contains h l x; if negb b then Ret false else BiDiList_containsAll h l c
  end.
(* src/include/elm/data/BiDiList.h:94-95 BiDiList::equals *)
Definition bd_equals_step h (st : Z * Z) : outcome ((Z * Z) + bool) :=
  e1 ← BiDiIter_ended h st.1; e2 ← BiDiIter_ended h st.2;
  if negb e1 && negb e2 then
    x ← BiDiIter_item h st.1; y ← BiDiIter_item h st.2;
    if negb (isEqual x y) then Ret (inr false) else
    i1 ← BiDiIter_next h st.1; i2 ← BiDiIter_next h st.2; Ret (inl (i1, i2))
  else Ret (inr (e1 && e2)).
(* src/include/elm/data/BiDiList.h:94-95 BiDiList::equals *)
Definition BiDiList_equals h l1 l2 : outcome bool :=
  i1 ← BiDiIter_make h l1; i2 ← BiDiIter_make h l2; iter (S (size h)) (bd_equals_step h) (i1, i2).
(** [n] is decreased at each turn: a negative one never reaches 0. *)
(* src/include/elm/data/BiDiList.h:125-125 BiDiList::nth *)
Definition BiDiList_nth h l (n : Z) : outcome Z :=
  i ← BiDiIter_make h l;
  i ← iter (S (size h)) (fun '(i, n) =>
    if n =? 0 then Ret (inr i) else assert_in h i ;; i ← BiDiIter_next h i; Ret (inl (i, n - 1))) (i, n);
  assert_in h i ;; Ret i.
(* src/include/elm/data/BiDiList.h:126-126 BiDiList::operator[] *)
Definition BiDiList_get_at h l (k : Z) : outcome T := i ← BiDiList_nth h l k; BiDiIter_item h i.

(* src/include/elm/data/BiDiList.h:119-119 BiDiList::first *)
Definition BiDiList_first h l : outcome T := n ← DLList_first h l; node_val h n.
(* src/include/elm/data/BiDiList.h:120-120 BiDiList::last *)
Definition BiDiList_last h l : outcome T := n ← DLList_last h l; node_val h n.
(** The version for a list that can be changed. *)
(* src/include/elm/data/BiDiList.h:130-130 BiDiList::last *)
Definition BiDiList_last_ref h l : outcome T := n ← DLList_first h l; node_val h n.

(* src/include/elm/data/BiDiList.h:131-131 BiDiList::addFirst *)
Definition BiDiList_addFirst h l x : outcome (bd_heap T) := let '(n, h) := BiDiNode_new h x in DLList_addFirst h l n.
(* src/include/elm/data/BiDiList.h:132-132 BiDiList::addLast *)
Definition BiDiList_addLast h l x : outcome (bd_heap T) := let '(n, h) := BiDiNode_new h x in DLList_addLast h l n.
(* src/include/elm/data/BiDiList.h:103-103 BiDiList::add *)
Definition BiDiList_add h l x : outcome (bd_heap T) := BiDiList_addFirst h l x.
(* src/include/elm/data/BiDiList.h:104-105 BiDiList::addAll *)
Fixpoint BiDiList_addAll h l (c : list T) : outcome (bd_heap T) :=
  match c with [] => Ret h | x :: c => h ← BiDiList_add h l x; BiDiList_addAll h l c end.
(* src/include/elm/data/BiDiList.h:133-133 BiDiList::addAfter *)
Definition BiDiList_addAfter h i x : outcome (bd_heap T) :=
  assert_in h i ;; let '(n, h) := BiDiNode_new h x in DLNode_insertAfter h i n.
(* src/include/elm/data/BiDiList.h:134-134 BiDiList::addBefore *)
Definition BiDiList_addBefore h i x : outcome (bd_heap T) :=
  assert_in h i ;; let '(n, h) := BiDiNode_new h x in DLNode_insertBefore h i n.
(* src/include/elm/data/BiDiList.h:135-135 BiDiList::removeFirst *)
Definition BiDiList_removeFirst h l : outcome (bd_heap T) :=
  node ← DLList_first h l; h ← DLList_removeFirst h l; BiDiNode_free h node.
(* src/include/elm/data/BiDiList.h:136-136 BiDiList::removeLast *)
Definition BiDiList_removeLast h l : outcome (bd_heap T) :=
  node ← DLList_last h l; h ← DLList_removeLast h l; BiDiNode_free h node.
(* src/include/elm/data/BiDiList.h:137-137 BiDiList::removeBefore *)
Definition BiDiList_removeBefore h i : outcome (bd_heap T) :=
  m ← dl_of h i; let n := dl_prv m in h ← DLNode_removePrevious h i; BiDiNode_free h n.
(* src/include/elm/data/BiDiList.h:138-138 BiDiList::removeAfter *)
Definition BiDiList_removeAfter h i : outcome (bd_heap T) :=
  m ← dl_of h i; let n := dl_nxt m in h ← DLNode_removeNext h i; BiDiNode_free h n.
(** The iterator after the removal; the node is not freed. *)
(* src/include/elm/data/BiDiList.h:110-110 BiDiList::remove *)
Definition BiDiList_remove_at h i : outcome (bd_heap T * Z) :=
  assert_in h i ;; n ← BiDiIter_next h i; h ← DLNode_remove h i; Ret (h, n).
(* src/include/elm/data/BiDiList.h:106-106 BiDiList::remove *)
Definition BiDiList_remove h l x : outcome (bd_heap T) :=
  i ← BiDiList_find h l x; e ← BiDiIter_ended h i;
  if negb e then r ← BiDiList_remove_at h i; Ret r.1 else Ret h.
(* src/include/elm/data/BiDiList.h:107-108 BiDiList::removeAll *)
Fixpoint BiDiList_removeAll h l (c : list T) : outcome (bd_heap T) :=
  match c with [] => Ret h | x :: c => h ← BiDiList_remove h l x; BiDiList_removeAll h l c end.
(* src/include/elm/data/BiDiList.h:139-139 BiDiList::set *)
Definition BiDiList_set h i x : outcome (bd_heap T) :=
  assert_in h i ;; n ← dl_of h i; Ret (<[i := mkDL (dl_nxt n) (dl_prv n) (Some x)]> h).
(* src/include/elm/data/BiDiList.h:101-102 BiDiList::clear *)
Definition BiDiList_clear h l : outcome (bd_heap T) :=
  iter (S (size h)) (fun h =>
    e ← DLList_isEmpty h l;
    if (e : bool) then Ret (inr h) else h ← BiDiList_removeFirst h l; Ret (inl h)) h.
(* src/include/elm/data/BiDiList.h:145-145 BiDiList::pop *)
Definition BiDiList_pop h l : outcome (T * bd_heap T) :=
  r ← BiDiList_first h l; h ← BiDiList_removeFirst h l; Ret (r, h).
(* src/include/elm/data/BiDiList.h:146-146 BiDiList::push *)
Definition BiDiList_push h l x : outcome (bd_heap T) := BiDiList_addFirst h l x.
(* src/include/elm/data/BiDiList.h:151-151 BiDiList::get *)
Definition BiDiList_get h l : outcome (T * bd_heap T) :=
  b ← BiDiList_isEmpty h l; assertP (negb b) ;;
  r ← BiDiList_first h l; h ← BiDiList_removeFirst h l; Ret (r, h).
(* src/include/elm/data/BiDiList.h:152-152 BiDiList::put *)
Definition BiDiList_put h l x : outcome (bd_heap T) := BiDiList_addLast h l x.
End BiDiList.

(** ** Positions in a list *)

Section Positions.
Context {T : Type} (isEqual : T -> T -> bool).
Implicit Types (h : bd_heap T) (l : DLList) (x : T) (ads pre post : list Z) (xs ys : list T).

Definition vals_at h ads xs : Prop := Forall2 (fun a x => dl_val <$> h !! a = Some (Some x)) ads xs.
(** The tail has no value. *)
Definition tail_blank h l : Prop := dl_val <$> h !! dl_tl l = Some None.
Definition bd_rep h l xs : Prop := exists ads, dl_rep h l ads /\ vals_at h ads xs /\ tail_blank h l.
(** The node at the front of [post], the tail when there is none. *)
Definition pos l post : Z := hd (dl_tl l) post.

Lemma pos_next h l pre a post : dl_rep h l (pre ++ a :: post) -> BiDiIter_next h a = Ret (pos l post).
Proof.
  intros Hr. destruct (place_exists l pre post) as (w1 & c & b & w2 & Hp).
  destruct (dl_around _ _ _ _ _ _ _ _ _ Hp Hr) as (_ & _ & (n & En & E)%dl_of_nxt & _). unfold BiDiIter_next. rewrite En. mred.
  rewrite E. destruct Hp as [_ Hp]. destruct post; injection Hp as <- _; done.
Qed.
Lemma pos_ended h l pre post : dl_rep h l (pre ++ post) -> BiDiIter_ended h (pos l post) = Ret (bool_decide (post = [])).
Proof.
  intros Hr. destruct post as [|a post].
  - unfold BiDiIter_ended, DLNode_atEnd. cbn. destruct (dl_of_nxt _ _ _ (dr_last _ _ _ Hr)) as (n & -> & En). mred. by rewrite En.
  - apply (dl_atEnd_ok h l pre a post Hr).
Qed.
Lemma pos_assert h l pre post : dl_rep h l (pre ++ post) -> assert_in h (pos l post) = assertP (negb (bool_decide (post = []))).
Proof. intros Hr. unfold assert_in. by rewrite (pos_ended h l pre). Qed.
Lemma node_val_ok h a x : dl_val <$> h !! a = Some (Some x) -> node_val h a = Ret x.
Proof.
  unfold node_val. destruct (h !! a) as [n|] eqn:E; [|done]. intros [= Ev]. rewrite (dl_of_ok _ _ _ E). mred. by rewrite Ev.
Qed.

(** The first element that is equal, what is before and what is after. *)
Fixpoint split_at x xs : list T * list T :=
  match xs with
  | [] => ([], [])
  | y :: ys => if isEqual x y then ([], xs) else let r := split_at x ys in (y :: r.1, r.2)
  end.
Lemma split_at_app x xs : xs = (split_at x xs).1 ++ (split_at x xs).2.
Proof. induction xs as [|y ys IH]; cbn; [done|]. destruct (isEqual x y); cbn; [done|]. by rewrite <- IH. Qed.

Lemma find_loop h l x post : forall pre ys fuel, dl_rep h l (pre ++ post) -> vals_at h post ys -> (length post < fuel)%nat ->
  exists p1 p2, post = p1 ++ p2 /\ iter fuel (bd_find_step isEqual h x) (pos l post) = Ret (pos l p2) /\
    vals_at h p1 (split_at x ys).1 /\ vals_at h p2 (split_at x ys).2.
Proof.
  induction post as [|a post IH]; intros pre ys fuel Hr Hv Hf; (destruct fuel as [|fuel]; [cbn in Hf; lia|]); cbn [iter].
  - inversion Hv; subst. unfold bd_find_step at 2. rewrite (pos_ended h l pre) by done.
    exists [], []. split_and!; try done; constructor.
  - destruct ys as [|y ys]; [by inversion Hv|]. apply Forall2_cons in Hv as [Ha Hv].
    unfold bd_find_step at 2. rewrite (pos_ended h l pre) by done. rewrite bool_decide_eq_false_2 by done. mred.
    unfold BiDiIter_item. change (pos l (a :: post)) with a. rewrite (node_val_ok _ _ _ Ha). mred. cbn [split_at]. destruct (isEqual x y).
    + exists [], (a :: post). split_and!; try done; [constructor|]. by constructor.
    + rewrite (pos_next h l pre a post) by done. mred.
      destruct (IH (pre ++ [a]) ys fuel) as (p1 & p2 & -> & -> & H1 & H2); [by rewrite <- app_assoc|done|cbn in Hf; lia|].
      exists (a :: p1), p2. split_and!; try done. by constructor.
Qed.
Lemma contains_loop h l x post : forall pre ys fuel, dl_rep h l (pre ++ post) -> vals_at h post ys -> (length post < fuel)%nat ->
  iter fuel (fun i =>
    e ← BiDiIter_ended h i;
    if (e : bool) then Ret (inr false) else
    y ← BiDiIter_item h i;
    if isEqual x y then Ret (inr true) else n ← BiDiIter_next h i; Ret (inl n)) (pos l post) = Ret (existsb (isEqual x) ys).
Proof.
  induction post as [|a post IH]; intros pre ys fuel Hr Hv Hf; (destruct fuel as [|fuel]; [cbn in Hf; lia|]); cbn [iter].
  - inversion Hv; subst. by rewrite (pos_ended h l pre).
  - destruct ys as [|y ys]; [by inversion Hv|]. apply Forall2_cons in Hv as [Ha Hv].
    rewrite (pos_ended h l pre), bool_decide_eq_false_2 by done. mred.
    change (pos l (a :: post)) with a. change (BiDiIter_item h a) with (node_val h a). rewrite (node_val_ok _ _ _ Ha). mred. cbn [existsb]. destruct (isEqual x y); [done|]. rewrite (pos_next h l pre a post) by done. mred.
    apply (IH (pre ++ [a])); [by rewrite <- app_assoc|done|]. cbn in Hf. lia.
Qed.
Lemma nth_loop h l post : forall pre n fuel, dl_rep h l (pre ++ post) -> (length post < fuel)%nat ->
  iter fuel (fun '(i, n) => if n =? 0 then Ret (inr i) else assert_in h i ;; i ← BiDiIter_next h i; Ret (inl (i, n - 1))) (pos l post, n) =
  if (0 <=? n) && (n <=? zlen post) then Ret (pos l (drop (Z.to_nat n) post)) else Crash AssertFailed.
Proof.
  induction post as [|a post IH]; intros pre n fuel Hr Hf; (destruct fuel as [|fuel]; [cbn in Hf; lia|]); cbn [iter].
  - rewrite (pos_assert h l pre []) by done. destruct (Z.eqb_spec n 0) as [->|]; [done|]. mred. cbn [length].
    destruct (Z.leb_spec 0 n), (Z.leb_spec n (Z.of_nat 0)); try done. lia.
  - destruct (Z.eqb_spec n 0) as [->|]; [done|]. rewrite (pos_assert h l pre) by done. rewrite bool_decide_eq_false_2 by done. mred.
    change (pos l (a :: post)) with a. rewrite (pos_next h l pre a post) by done. mred. rewrite (IH (pre ++ [a])) by (rewrite <- ?app_assoc; (done || (cbn in Hf; lia))).
    cbn [length]. destruct (Z.leb_spec 0 (n - 1)), (Z.leb_spec (n - 1) (zlen post)), (Z.leb_spec 0 n),
      (Z.leb_spec n (Z.of_nat (S (length post)))); try done; try lia. cbn.
    by replace (Z.to_nat n) with (S (Z.to_nat (n - 1))) by lia.
Qed.
Lemma bd_nth_ok h l ads n : dl_rep h l ads ->
  BiDiList_nth h l n = if (0 <=? n) && (n <? zlen ads) then Ret (pos l (drop (Z.to_nat n) ads)) else Crash AssertFailed.
Proof.
  intros Hr. pose proof (dl_size h l ads Hr). destruct (dl_first_ok _ _ _ Hr) as [(f & Ef & E)%dl_of_nxt _].
  unfold BiDiList_nth, BiDiIter_make, DLList_first. rewrite Ef. mred. rewrite E. change (hd (dl_tl l) ads) with (pos l ads).
  rewrite (nth_loop h l ads []) by (done || lia). destruct (Z.leb_spec 0 n); [|done]. mred.
  destruct (Z.leb_spec n (zlen ads)), (Z.ltb_spec n (zlen ads)); try lia; mred; [| |done].
  - rewrite (pos_assert h l (take (Z.to_nat n) ads)) by (by rewrite take_drop). rewrite bool_decide_eq_false_2; [done|].
    intros E0%(f_equal length). rewrite length_drop in E0. cbn in E0. lia.
  - rewrite (pos_assert h l (take (Z.to_nat n) ads)) by (by rewrite take_drop). rewrite bool_decide_eq_true_2; [done|].
    apply drop_ge. lia.
Qed.
End Positions.

(** ** The operations on lists of values *)

Section Operations.
Context {T : Type} (isEqual : T -> T -> bool).
Context (new_node : bd_heap T -> Z).
Hypothesis new_node_ok : forall h, new_node h <> 0 /\ h !! new_node h = None.
Implicit Types (h : bd_heap T) (l : DLList) (x : T) (ads : list Z) (xs : list T).

Lemma vals_at_same h h' ads xs : vals_at h ads xs -> (forall a, a ∈ ads -> dl_val <$> h' !! a = dl_val <$> h !! a) -> vals_at h' ads xs.
Proof.
  intros Hv E. induction Hv as [|a x k ys Ha Hv IH]; constructor; [rewrite E; [done|by left]|].
  apply IH. intros b Hb. apply E. by right.
Qed.
Lemma bd_result h h' l ads xs : dl_result h h' l ads -> tail_blank h l -> vals_at h ads xs -> bd_rep h' l xs.
Proof.
  intros (Hr & S & _) Ht Hv. exists ads. split; [done|]. split; [|by unfold tail_blank; rewrite S].
  eapply vals_at_same; [done|]. intros a _. apply S.
Qed.

(** A new node is not in the list. *)
Lemma bd_new_ok h l ads xs x n h0 : dl_rep h l ads -> vals_at h ads xs -> tail_blank h l -> BiDiNode_new new_node h x = (n, h0) ->
  tail_blank h0 l /\ dl_rep h0 l ads /\ vals_at h0 ads xs /\ n <> 0 /\ ~ (n ∈ dl_hd l :: ads ++ [dl_tl l]) /\
  dl_val <$> h0 !! n = Some (Some x) /\ is_Some (h0 !! n).
Proof.
  intros Hr Hv Ht [= <- <-]. destruct (new_node_ok h) as [Hn0 Hn]. set (n := new_node h) in *.
  assert (~ (n ∈ dl_hd l :: ads ++ [dl_tl l])) as Hnin by (intros Hin; destruct (dl_in _ _ _ _ Hr Hin); congruence).
  assert (forall a, a ∈ dl_hd l :: ads ++ [dl_tl l] -> <[n := mkDL 0 0 (Some x)]> h !! a = h !! a) as E.
  { intros a Ha. apply lookup_insert_ne. by intros <-. }
  split_and!; try done; rewrite ?lookup_insert_eq; try done.
  - unfold tail_blank. rewrite E; [done|]. right. apply elem_of_app. right. by left.
  - by eapply dl_rep_frame.
  - eapply vals_at_same; [done|]. intros a Ha. rewrite E; [done|]. right. apply elem_of_app. by left.
Qed.
(** A node taken out is freed. *)
Lemma bd_free_ok h l ads xs a pre post : dl_rep h l ads -> vals_at h ads xs -> tail_blank h l -> is_Some (h !! a) ->
  ads = pre ++ post -> NoDup (dl_hd l :: (pre ++ a :: post) ++ [dl_tl l]) ->
  exists h', BiDiNode_free h a = Ret h' /\ bd_rep h' l xs.
Proof.
  intros Hr Hv Ht [n En] -> Nd. unfold BiDiNode_free. rewrite (dl_of_ok _ _ _ En). mred. eexists. split; [done|].
  assert (~ (a ∈ dl_hd l :: (pre ++ post) ++ [dl_tl l])) as Hn.
  { assert (dl_hd l :: (pre ++ a :: post) ++ [dl_tl l] ≡ₚ a :: dl_hd l :: (pre ++ post) ++ [dl_tl l]) as P.
    { rewrite <- !app_assoc. cbn. rewrite <- Permutation_middle. by rewrite (Permutation_swap a). }
    rewrite P in Nd. by apply NoDup_cons in Nd as [? _]. }
  exists (pre ++ post). split_and!.
  - eapply dl_rep_frame; [done|]. intros b Hb. apply lookup_delete_ne. by intros <-.
  - eapply vals_at_same; [done|]. intros b Hb. rewrite lookup_delete_ne; [done|]. intros <-. apply Hn. right. apply elem_of_app. by left.
  - unfold tail_blank. rewrite lookup_delete_ne; [done|]. intros ->. apply Hn. right. apply elem_of_app. right. by left.
Qed.

Lemma bd_addFirst_ok h l xs x : bd_rep h l xs -> exists h', BiDiList_addFirst new_node h l x = Ret h' /\ bd_rep h' l (x :: xs).
Proof.
  intros (ads & Hr & Hv & Hb0). unfold BiDiList_addFirst. destruct (BiDiNode_new new_node h x) as [n h0] eqn:E.
  destruct (bd_new_ok _ _ _ _ _ _ _ Hr Hv Hb0 E) as (Ht0 & Hr0 & Hv0 & Hn0 & Hn & Ev & En).
  destruct (DLList_addFirst_ok h0 l ads n) as (h' & -> & Hd); try done. exists h'. split; [done|].
  apply (bd_result _ _ _ _ _ Hd); [done|]. by constructor.
Qed.
Lemma bd_addLast_ok h l xs x : bd_rep h l xs -> exists h', BiDiList_addLast new_node h l x = Ret h' /\ bd_rep h' l (xs ++ [x]).
Proof.
  intros (ads & Hr & Hv & Hb0). unfold BiDiList_addLast. destruct (BiDiNode_new new_node h x) as [n h0] eqn:E.
  destruct (bd_new_ok _ _ _ _ _ _ _ Hr Hv Hb0 E) as (Ht0 & Hr0 & Hv0 & Hn0 & Hn & Ev & En).
  destruct (DLList_addLast_ok h0 l ads n) as (h' & -> & Hd); try done. exists h'. split; [done|].
  apply (bd_result _ _ _ _ _ Hd); [done|]. apply Forall2_app; [done|]. by repeat constructor.
Qed.
Lemma bd_first_ok h l x xs : bd_rep h l (x :: xs) -> BiDiList_first h l = Ret x.
Proof.
  intros (ads & Hr & Hv & Hb0). apply Forall2_cons_inv_r in Hv as (a & k & Ha & _ & ->).
  destruct (dl_first_ok _ _ _ Hr) as [(f & Ef & E)%dl_of_nxt _]. unfold BiDiList_first, DLList_first. rewrite Ef. mred.
  rewrite E. by apply node_val_ok.
Qed.
Lemma bd_last_ok h l x xs : bd_rep h l (xs ++ [x]) -> BiDiList_last h l = Ret x.
Proof.
  intros (ads & Hr & Hv & Hb0). apply Forall2_app_inv_r in Hv as (k & b & Hv & Hb & ->).
  apply Forall2_cons_inv_r in Hb as (a & b' & Ha & Hb & ->). inversion Hb; subst.
  destruct (dl_first_ok _ _ _ Hr) as [_ (f & Ef & E)%dl_of_prv]. unfold BiDiList_last, DLList_last. rewrite Ef. mred.
  rewrite E, last_snoc. by apply node_val_ok.
Qed.
Lemma bd_isEmpty_ok h l xs : bd_rep h l xs -> DLList_isEmpty h l = Ret (bool_decide (xs = [])).
Proof.
  intros (ads & Hr & Hv & Hb0). rewrite (dl_isEmpty_ok _ _ _ Hr). f_equal. apply bool_decide_ext. by destruct Hv.
Qed.

Lemma bd_removeFirst_ok h l xs : bd_rep h l xs ->
  match xs with
  | [] => BiDiList_removeFirst h l = Crash AssertFailed
  | x :: k => exists h', BiDiList_removeFirst h l = Ret h' /\ bd_rep h' l k
  end.
Proof.
  intros (ads & Hr & Hv & Hb0). unfold BiDiList_removeFirst, DLList_first.
  destruct (dl_first_ok _ _ _ Hr) as [(f & Ef & E)%dl_of_nxt _]. rewrite Ef. mred. rewrite E. destruct Hv as [|a x k xs Ha Hv].
  - unfold DLList_removeFirst. by rewrite (dl_isEmpty_ok _ _ _ Hr).
  - destruct (DLList_removeFirst_ok h l a k Hr) as (h' & -> & (Hr' & S & D)). mred. cbn [hd].
    apply (bd_free_ok h' l k xs a [] k); try done.
    + eapply vals_at_same; [done|]. intros b _. apply S.
    + unfold tail_blank. by rewrite S.
    + apply D. destruct (h !! a); [done|]. discriminate Ha.
    + apply Hr.
Qed.
Lemma bd_removeLast_ok h l xs : bd_rep h l xs ->
  match xs with
  | [] => BiDiList_removeLast h l = Crash AssertFailed
  | _ => exists h', BiDiList_removeLast h l = Ret h' /\ bd_rep h' l (removelast xs)
  end.
Proof.
  intros (ads & Hr & Hv & Hb0). unfold BiDiList_removeLast, DLList_last.
  destruct (dl_first_ok _ _ _ Hr) as [_ (f & Ef & E)%dl_of_prv]. rewrite Ef. mred. rewrite E. destruct xs as [|x xs _] using rev_ind.
  - inversion Hv; subst. unfold DLList_removeLast. by rewrite (dl_isEmpty_ok _ _ _ Hr).
  - apply Forall2_app_inv_r in Hv as (k & b & Hv & Hb & ->). apply Forall2_cons_inv_r in Hb as (a & b' & Ha & Hb & ->). inversion Hb; subst.
    rewrite removelast_last, last_snoc. destruct (DLList_removeLast_ok h l a k Hr) as (h' & -> & (Hr' & S & D)). mred.
    assert (exists h2, BiDiNode_free h' a = Ret h2 /\ bd_rep h2 l xs) as X.
    { apply (bd_free_ok h' l k xs a k []); try done.
      - eapply vals_at_same; [done|]. intros b _. apply S.
      - unfold tail_blank. by rewrite S.
      - apply D. destruct (h !! a); [done|]. discriminate Ha.
      - by rewrite app_nil_r.
      - apply Hr. }
    by destruct xs.
Qed.

(** The [k]-th node: what is before and after it, in nodes and in values. *)
Lemma bd_nth_split h l ads xs k : dl_rep h l ads -> vals_at h ads xs ->
  if (0 <=? k) && (k <? zlen xs) then
    exists pre a post ys x zs, ads = pre ++ a :: post /\ xs = ys ++ x :: zs /\ length ys = Z.to_nat k /\
      vals_at h pre ys /\ dl_val <$> h !! a = Some (Some x) /\ vals_at h post zs /\ BiDiList_nth h l k = Ret a
  else BiDiList_nth h l k = Crash AssertFailed.
Proof.
  intros Hr Hv. rewrite (bd_nth_ok h l ads k) by done. rewrite (Forall2_length _ _ _ Hv).
  destruct (Z.leb_spec 0 k), (Z.ltb_spec k (zlen xs)); cbn; try done.
  assert (exists x zs, drop (Z.to_nat k) xs = x :: zs) as (x & zs & Ez).
  { destruct (drop (Z.to_nat k) xs) eqn:E; [|by eexists _, _]. apply (f_equal length) in E. rewrite length_drop in E. cbn in E. lia. }
  rewrite <- (take_drop (Z.to_nat k) xs), Ez in Hv. apply Forall2_app_inv_r in Hv as (pre & b & Hp & Hb & ->).
  apply Forall2_cons_inv_r in Hb as (a & post & Ha & Hq & ->). exists pre, a, post, (take (Z.to_nat k) xs), x, zs.
  assert (length (take (Z.to_nat k) xs) = Z.to_nat k) as El by (rewrite length_take; lia).
  split_and!; try done; [by rewrite <- Ez, take_drop|]. f_equal. unfold pos.
  assert (Z.to_nat k = length pre) as -> by (rewrite <- El; symmetry; by eapply Forall2_length). by rewrite drop_app_length.
Qed.

Lemma bd_insert_ok h l ads xs k x : dl_rep h l ads -> vals_at h ads xs -> tail_blank h l -> 0 <= k < zlen xs ->
  exists i, BiDiList_nth h l k = Ret i /\
  (exists h', BiDiList_addAfter new_node h i x = Ret h' /\ bd_rep h' l (take (S (Z.to_nat k)) xs ++ x :: drop (S (Z.to_nat k)) xs)) /\
  (exists h', BiDiList_addBefore new_node h i x = Ret h' /\ bd_rep h' l (take (Z.to_nat k) xs ++ x :: drop (Z.to_nat k) xs)).
Proof.
  intros Hr Hv Hb0 Hk. pose proof (bd_nth_split h l ads xs k Hr Hv) as X.
  rewrite (proj2 (Z.leb_le _ _)), (proj2 (Z.ltb_lt _ _)) in X by lia. cbn in X.
  destruct X as (pre & a & post & ys & y & zs & -> & -> & El & Hp & Ha & Hq & En). exists a. split; [done|].
  unfold BiDiList_addAfter, BiDiList_addBefore. pose proof (pos_assert h l pre (a :: post) Hr) as Ea. cbn in Ea. rewrite Ea. mred.
  destruct (BiDiNode_new new_node h x) as [n h0] eqn:E.
  destruct (bd_new_ok _ _ _ _ _ _ _ Hr Hv Hb0 E) as (Ht0 & Hr0 & Hv0 & Hn0 & Hn & Ev & Es).
  destruct (DLNode_insert_ok h0 l pre a post n) as [(h1 & -> & H1) (h2 & -> & H2)]; try done.
  apply Forall2_app_inv in Hv0 as [Hp0 Hq0]; [|by eapply Forall2_length]. inversion Hq0; subst.
  split; [exists h1|exists h2]; (split; [done|]).
  - replace (take (S (Z.to_nat k)) (ys ++ y :: zs)) with (ys ++ [y]) by (rewrite <- El; change (y :: zs) with ([y] ++ zs); rewrite app_assoc, take_app_length'; [done|rewrite length_app; cbn; lia]).
    replace (drop (S (Z.to_nat k)) (ys ++ y :: zs)) with zs by (rewrite <- El; change (y :: zs) with ([y] ++ zs); rewrite app_assoc, drop_app_length'; [done|rewrite length_app; cbn; lia]).
    rewrite <- app_assoc. apply (bd_result _ _ _ _ _ H1); [done|]. apply Forall2_app; [done|]. by repeat constructor.
  - rewrite <- El, take_app_length, drop_app_length. apply (bd_result _ _ _ _ _ H2); [done|]. apply Forall2_app; [done|]. by repeat constructor.
Qed.
Lemma bd_set_ok h l ads xs k x : dl_rep h l ads -> vals_at h ads xs -> tail_blank h l -> 0 <= k < zlen xs ->
  exists i h', BiDiList_nth h l k = Ret i /\ BiDiList_set h i x = Ret h' /\ bd_rep h' l (<[Z.to_nat k := x]> xs).
Proof.
  intros Hr Hv Hb0 Hk. pose proof (bd_nth_split h l ads xs k Hr Hv) as X.
  rewrite (proj2 (Z.leb_le _ _)), (proj2 (Z.ltb_lt _ _)) in X by lia. cbn in X.
  destruct X as (pre & a & post & ys & y & zs & -> & -> & El & Hp & Ha & Hq & En). exists a.
  unfold BiDiList_set. pose proof (pos_assert h l pre (a :: post) Hr) as Ea. cbn in Ea. rewrite Ea. mred.
  destruct (h !! a) as [n|] eqn:Ean; [|done]. rewrite (dl_of_ok _ _ _ Ean). mred. eexists. split; [done|]. split; [done|].
  exists (pre ++ a :: post). rewrite <- El, insert_app_r_alt, Nat.sub_diag by lia. cbn.
  assert (forall b, nxt (<[a := mkDL (dl_nxt n) (dl_prv n) (Some x)]> h) b = nxt h b /\
    prv (<[a := mkDL (dl_nxt n) (dl_prv n) (Some x)]> h) b = prv h b) as Nx.
  { intros b. unfold nxt, prv. destruct (decide (a = b)) as [<-|]; [by rewrite lookup_insert_eq, Ean|by rewrite lookup_insert_ne]. }
  pose proof (dr_nodup _ _ _ Hr) as Nd. apply NoDup_cons in Nd as [_ Nd]. apply NoDup_app in Nd as (Nd & Ntl & _).
  apply NoDup_app in Nd as (_ & Nd1 & Nd2). apply NoDup_cons in Nd2 as [Nd2 _]. split_and!.
  - destruct Hr as [R Rf Rl N R0]. split; try done; [|by rewrite (proj2 (Nx _))|by rewrite (proj1 (Nx _))].
    revert R. generalize (dl_hd l :: (pre ++ a :: post) ++ [dl_tl l]). intros w. induction w as [|c [|d w] IH]; try done.
    intros (H1 & H2 & Hw). split; [by rewrite (proj1 (Nx c))|]. split; [by rewrite (proj2 (Nx d))|]. by apply IH.
  - apply Forall2_app; [|constructor].
    + eapply vals_at_same; [done|]. intros b Hb. rewrite lookup_insert_ne; [done|]. intros ->. apply (Nd1 b Hb). by left.
    + by rewrite lookup_insert_eq.
    + eapply vals_at_same; [done|]. intros b Hb. rewrite lookup_insert_ne; [done|]. by intros ->.
  - unfold tail_blank. rewrite lookup_insert_ne; [done|]. intros ->. apply (Ntl (dl_tl l)); [|by left].
    apply elem_of_app. right. by left.
Qed.

(** The list without its first element equal to [x]. *)
Definition del_first x xs : list T := (split_at isEqual x xs).1 ++ tail (split_at isEqual x xs).2.
Lemma bd_remove_ok h l xs x : bd_rep h l xs ->
  exists h', BiDiList_remove isEqual h l x = Ret h' /\ bd_rep h' l (del_first x xs).
Proof.
  intros (ads & Hr & Hv & Hb0). pose proof (dl_size h l ads Hr). destruct (dl_first_ok _ _ _ Hr) as [(f & Ef & E)%dl_of_nxt _].
  unfold BiDiList_remove, BiDiList_find, BiDiIter_make, DLList_first. rewrite Ef. mred. rewrite E. change (hd (dl_tl l) ads) with (pos l ads).
  destruct (find_loop isEqual h l x ads [] xs (S (size h))) as (p1 & p2 & -> & -> & H1 & H2); [done|done|lia|]. mred.
  rewrite (pos_ended h l p1) by done. mred. unfold del_first. destruct H2 as [|a y p2 ys Ha H2].
  - cbn. exists h. split; [done|]. exists p1. rewrite !app_nil_r in *. done.
  - cbn [negb bool_decide]. rewrite bool_decide_eq_false_2 by done. cbn [negb tail pos hd]. unfold BiDiList_remove_at.
    pose proof (pos_assert h l p1 (a :: p2) Hr) as Ea. cbn in Ea. rewrite Ea. mred. rewrite (pos_next h l p1 a p2) by done. mred.
    destruct (dl_node_remove_ok h l p1 p2 a Hr) as (h' & -> & Hd). mred. exists h'. split; [done|].
    apply (bd_result _ _ _ _ _ Hd); [done|]. by apply Forall2_app.
Qed.
Lemma bd_contains_ok h l xs x : bd_rep h l xs -> BiDiList_contains isEqual h l x = Ret (existsb (isEqual x) xs).
Proof.
  intros (ads & Hr & Hv & Hb0). pose proof (dl_size h l ads Hr). destruct (dl_first_ok _ _ _ Hr) as [(f & Ef & E)%dl_of_nxt _].
  unfold BiDiList_contains, BiDiIter_make, DLList_first. rewrite Ef. mred. rewrite E. apply (contains_loop isEqual h l x ads []); (done || lia).
Qed.
Lemma bd_clear_loop l : forall xs h fuel, bd_rep h l xs -> (length xs < fuel)%nat ->
  exists h', iter fuel (fun h => e ← DLList_isEmpty h l;
    if (e : bool) then Ret (inr h) else h ← BiDiList_removeFirst h l; Ret (inl h)) h = Ret h' /\ bd_rep h' l [].
Proof.
  induction xs as [|x xs IH]; intros h fuel Hb Hf; (destruct fuel as [|fuel]; [cbn in Hf; lia|]); cbn [iter];
    rewrite (bd_isEmpty_ok _ _ _ Hb).
  - by exists h.
  - destruct (bd_removeFirst_ok h l _ Hb) as (h' & -> & Hb'). mred. apply IH; [done|]. cbn in Hf. lia.
Qed.
End Operations.

(** ** A list in two directions is a list *)

Inductive bd_op (T : Type) :=
  | DPush (x : T) | DPut (x : T) | DPop | DGet | DRemoveFirst | DRemoveLast | DRemove (x : T)
  | DAddAfter (k : Z) (x : T) | DAddBefore (k : Z) (x : T) | DSet (k : Z) (x : T) | DNth (k : Z)
  | DContains (x : T) | DCount | DClear.
Arguments DPush {T} _. Arguments DPut {T} _. Arguments DPop {T}. Arguments DGet {T}.
Arguments DRemoveFirst {T}. Arguments DRemoveLast {T}. Arguments DRemove {T} _.
Arguments DAddAfter {T} _ _. Arguments DAddBefore {T} _ _. Arguments DSet {T} _ _. Arguments DNth {T} _.
Arguments DContains {T} _. Arguments DCount {T}. Arguments DClear {T}.
Inductive bd_out (T : Type) := DUnit | DVal (x : T) | DBool (b : bool) | DNum (n : Z).
Arguments DUnit {T}. Arguments DVal {T} _. Arguments DBool {T} _. Arguments DNum {T} _.

Section Refinement.
Context {T : Type} (isEqual : T -> T -> bool) (new_node : bd_heap T -> Z) (l : DLList).
Implicit Types (h : bd_heap T) (xs : list T).

Definition bd_exec h (o : bd_op T) : outcome (bd_out T * bd_heap T) :=
  match o with
  | DPush x => h ← BiDiList_push new_node h l x; Ret (DUnit, h)
  | DPut x => h ← BiDiList_put new_node h l x; Ret (DUnit, h)
  | DPop => r ← BiDiList_pop h l; Ret (DVal r.1, r.2)
  | DGet => r ← BiDiList_get h l; Ret (DVal r.1, r.2)
  | DRemoveFirst => h ← BiDiList_removeFirst h l; Ret (DUnit, h)
  | DRemoveLast => h ← BiDiList_removeLast h l; Ret (DUnit, h)
  | DRemove x => h ← BiDiList_remove isEqual h l x; Ret (DUnit, h)
  | DAddAfter k x => i ← BiDiList_nth h l k; h ← BiDiList_addAfter new_node h i x; Ret (DUnit, h)
  | DAddBefore k x => i ← BiDiList_nth h l k; h ← BiDiList_addBefore new_node h i x; Ret (DUnit, h)
  | DSet k x => i ← BiDiList_nth h l k; h ← BiDiList_set h i x; Ret (DUnit, h)
  | DNth k => x ← BiDiList_get_at h l k; Ret (DVal x, h)
  | DContains x => b ← BiDiList_contains isEqual h l x; Ret (DBool b, h)
  | DCount => n ← BiDiList_count h l; Ret (DNum n, h)
  | DClear => h ← BiDiList_clear h l; Ret (DUnit, h)
  end.
(** At an index of the list. *)
Definition at_index (k : Z) xs {A} (r : A) : outcome A := if (0 <=? k) && (k <? zlen xs) then Ret r else Crash AssertFailed.
Definition list_step xs (o : bd_op T) : outcome (bd_out T * list T) :=
  match o with
  | DPush x => Ret (DUnit, x :: xs)
  | DPut x => Ret (DUnit, xs ++ [x])
  | DPop => match xs with [] => Crash Undefined | x :: k => Ret (DVal x, k) end
  | DGet => match xs with [] => Crash AssertFailed | x :: k => Ret (DVal x, k) end
  | DRemoveFirst => match xs with [] => Crash AssertFailed | _ :: k => Ret (DUnit, k) end
  | DRemoveLast => match xs with [] => Crash AssertFailed | _ => Ret (DUnit, removelast xs) end
  | DRemove x => Ret (DUnit, del_first isEqual x xs)
  | DAddAfter k x => at_index k xs (DUnit, take (S (Z.to_nat k)) xs ++ x :: drop (S (Z.to_nat k)) xs)
  | DAddBefore k x => at_index k xs (DUnit, take (Z.to_nat k) xs ++ x :: drop (Z.to_nat k) xs)
  | DSet k x => at_index k xs (DUnit, <[Z.to_nat k := x]> xs)
  | DNth k => match (if 0 <=? k then xs !! Z.to_nat k else None) with Some x => Ret (DVal x, xs) | None => Crash AssertFailed end
  | DContains x => Ret (DBool (existsb (isEqual x) xs), xs)
  | DCount => Ret (DNum (zlen xs), xs)
  | DClear => Ret (DUnit, [])
  end.
Fixpoint steps {S} (exec : S -> bd_op T -> outcome (bd_out T * S)) (s : S) (os : list (bd_op T)) : outcome (list (bd_out T) * S) :=
  match os with
  | [] => Ret ([], s)
  | o :: os => r ← exec s o; q ← steps exec r.2 os; Ret (r.1 :: q.1, q.2)
  end.

Hypothesis new_node_ok : forall h, new_node h <> 0 /\ h !! new_node h = None.
(** The tail has no value, which [pop] reads when there is no element. *)
Lemma first_of_empty h : bd_rep h l [] -> BiDiList_first h l = Crash Undefined.
Proof.
  intros (ads & Hr & Hv & Ht). inversion Hv; subst. destruct (dl_first_ok _ _ _ Hr) as [(f & Ef & E)%dl_of_nxt _].
  unfold tail_blank in Ht. destruct (h !! dl_tl l) as [n|] eqn:En; [|done]. injection Ht as Ht.
  unfold BiDiList_first, DLList_first. rewrite Ef. mred. rewrite E. unfold node_val. cbn [hd]. rewrite (dl_of_ok _ _ _ En). mred. by rewrite Ht.
Qed.

(** The fault, or the output and a heap for the list that results. *)
Definition simulates (r : outcome (bd_out T * bd_heap T)) (s : outcome (bd_out T * list T)) : Prop :=
  match s with
  | Ret (out, xs) => exists h, r = Ret (out, h) /\ bd_rep h l xs
  | Crash f => r = Crash f
  end.
Lemma at_index_in k xs {A} (r : A) : 0 <= k < zlen xs -> at_index k xs r = Ret r.
Proof. intros Hk. unfold at_index. by rewrite (proj2 (Z.leb_le _ _)), (proj2 (Z.ltb_lt _ _)) by lia. Qed.
Lemma bd_nth_out h xs k : bd_rep h l xs -> ~ (0 <= k < zlen xs) -> BiDiList_nth h l k = Crash AssertFailed /\
  forall A (r : A), at_index k xs r = Crash AssertFailed.
Proof.
  intros (ads & Hr & Hv & Hb0) Hk. pose proof (bd_nth_split h l ads xs k Hr Hv) as X. unfold at_index.
  destruct (Z.leb_spec 0 k), (Z.ltb_spec k (zlen xs)); try lia; done.
Qed.

Lemma bd_index_ok h xs o : bd_rep h l xs ->
  match o with DAddAfter _ _ | DAddBefore _ _ | DSet _ _ | DNth _ => simulates (bd_exec h o) (list_step xs o) | _ => True end.
Proof.
  intros Hb. pose proof Hb as (ads & Hr & Hv & Hb0).
  assert (forall k, 0 <= k < zlen xs \/ ~ (0 <= k < zlen xs)) as In by (intros; lia).
  destruct o as [| | | | | | |k x|k x|k x|k| | |]; try exact I; cbn [bd_exec list_step]; destruct (In k) as [Hk|Hk].
  - rewrite at_index_in by done. destruct (bd_insert_ok new_node new_node_ok h l ads xs k x Hr Hv Hb0 Hk) as (i & -> & (h' & E & ?) & _).
    mred. rewrite E. mred. by exists h'.
  - destruct (bd_nth_out h xs k Hb Hk) as [-> ->]. done.
  - rewrite at_index_in by done. destruct (bd_insert_ok new_node new_node_ok h l ads xs k x Hr Hv Hb0 Hk) as (i & -> & _ & (h' & E & ?)).
    mred. rewrite E. mred. by exists h'.
  - destruct (bd_nth_out h xs k Hb Hk) as [-> ->]. done.
  - rewrite at_index_in by done. destruct (bd_set_ok h l ads xs k x Hr Hv Hb0 Hk) as (i & h' & -> & E & ?).
    mred. rewrite E. mred. by exists h'.
  - destruct (bd_nth_out h xs k Hb Hk) as [-> ->]. done.
  - pose proof (bd_nth_split h l ads xs k Hr Hv) as X. rewrite (proj2 (Z.leb_le _ _)), (proj2 (Z.ltb_lt _ _)) in * by lia. cbn in X.
    destruct X as (pre & a & post & ys & x & zs & -> & -> & <- & _ & Ha & _ & En). rewrite list_lookup_middle by done.
    unfold BiDiList_get_at. rewrite En. mred. unfold BiDiIter_item. rewrite (node_val_ok _ _ _ Ha). mred. by exists h.
  - unfold BiDiList_get_at. destruct (bd_nth_out h xs k Hb Hk) as [-> _]. destruct (Z.leb_spec 0 k); [|done].
    by rewrite lookup_ge_None_2 by lia.
Qed.

Lemma bd_exec_ok h xs o : bd_rep h l xs -> simulates (bd_exec h o) (list_step xs o).
Proof.
  intros Hb. pose proof (bd_index_ok h xs o Hb) as Hi.
  destruct o as [x|x| | | | |x|k x|k x|k x|k|x| |]; try exact Hi; clear Hi; cbn [bd_exec list_step simulates].
  - destruct (bd_addFirst_ok new_node new_node_ok h l xs x Hb) as (h' & E & ?). unfold BiDiList_push. rewrite E. mred. by exists h'.
  - destruct (bd_addLast_ok new_node new_node_ok h l xs x Hb) as (h' & E & ?). unfold BiDiList_put. rewrite E. mred. by exists h'.
  - unfold BiDiList_pop. pose proof (bd_removeFirst_ok h l xs Hb) as Hf. destruct xs as [|x xs]; [by rewrite first_of_empty|].
    rewrite (bd_first_ok _ _ _ _ Hb). destruct Hf as (h' & E & ?). mred. rewrite E. mred. by exists h'.
  - unfold BiDiList_get, BiDiList_isEmpty. rewrite (bd_isEmpty_ok _ _ _ Hb). pose proof (bd_removeFirst_ok h l xs Hb) as Hf.
    destruct xs as [|x xs]; [done|]. rewrite bool_decide_eq_false_2 by done. mred.
    rewrite (bd_first_ok _ _ _ _ Hb). destruct Hf as (h' & E & ?). mred. rewrite E. mred. by exists h'.
  - pose proof (bd_removeFirst_ok h l xs Hb) as Hf. destruct xs as [|x xs]; [by rewrite Hf|].
    destruct Hf as (h' & E & ?). rewrite E. by exists h'.
  - pose proof (bd_removeLast_ok h l xs Hb) as Hf. destruct xs as [|x xs]; [by rewrite Hf|].
    destruct Hf as (h' & E & ?). rewrite E. by exists h'.
  - destruct (bd_remove_ok isEqual h l xs x Hb) as (h' & E & ?). rewrite E. by exists h'.
  - rewrite (bd_contains_ok isEqual h l xs x Hb). by exists h.
  - pose proof Hb as (ads & Hr & Hv & Hb0). unfold BiDiList_count. rewrite (dl_count_ok _ _ _ Hr). mred. rewrite (Forall2_length _ _ _ Hv). by exists h.
  - pose proof Hb as (ads & Hr & Hv & Hb0). unfold BiDiList_clear. pose proof (dl_size _ _ _ Hr). pose proof (Forall2_length _ _ _ Hv).
    destruct (bd_clear_loop l xs h (S (size h)) Hb) as (h' & E & ?); [lia|]. rewrite E. by exists h'.
Qed.
End Refinement.

(** ** Properties *)

(** [C35] A list in two directions behaves as a list on every sequence of operations: the
    outputs are those of the list, an operation on an empty list or out of its range
    stops on the assertion ([pop], which has none, reads the tail), and no freed node
    is read again. *)
Theorem BiDiList_refines_list {T} (isEqual : T -> T -> bool) (new_node : bd_heap T -> Z) l os h xs :
  (forall h, new_node h <> 0 /\ h !! new_node h = None) -> bd_rep h l xs ->
  match steps (list_step isEqual) xs os with
  | Ret (outs, ys) => exists h', steps (bd_exec isEqual new_node l) h os = Ret (outs, h') /\ bd_rep h' l ys
  | Crash f => steps (bd_exec isEqual new_node l) h os = Crash f
  end.
Proof.
  intros Hn. revert h xs. induction os as [|o os IH]; intros h xs Hb; cbn [steps]; [by exists h|].
  pose proof (bd_exec_ok isEqual new_node l Hn h xs o Hb) as Ho. unfold simulates in Ho.
  destruct (list_step isEqual xs o) as [[out ys]|f]; mred; [|by rewrite Ho]. destruct Ho as (h' & -> & Hb'). mred. cbn [fst snd].
  specialize (IH h' ys Hb'). destruct (steps (list_step isEqual) ys os) as [[outs zs]|f]; mred; [|by rewrite IH].
  destruct IH as (h2 & -> & ?). by exists h2.
Qed.

Definition empty_bd : bd_heap Z := DLList_make ∅ demo_L None.
Definition demo_steps : list (bd_op Z) :=
  [DPut 1; DPut 2; DPush 0; DAddAfter 1 7; DRemove 2; DSet 0 9; DNth 1; DNth 2; DContains 2; DCount; DRemoveLast; DPop; DGet; DCount].
Lemma BiDiList_refines_list_witness : exists h',
  steps (bd_exec Z.eqb fresh_node demo_L) empty_bd demo_steps =
    Ret ([DUnit; DUnit; DUnit; DUnit; DUnit; DUnit; DVal 1; DVal 7; DBool false; DNum 3; DUnit; DVal 9; DVal 1; DNum 0], h').
Proof.
  assert (bd_rep empty_bd demo_L []) as Hb.
  { exists []. split; [by apply DLList_make_rep|]. split; [constructor|reflexivity]. }
  pose proof (BiDiList_refines_list Z.eqb fresh_node demo_L demo_steps empty_bd [] fresh_node_ok Hb) as X.
  destruct (steps (list_step Z.eqb) [] demo_steps) as [[outs ys]|f] eqn:E; [|discriminate E].
  destruct X as (h' & Eb & _). exists h'. rewrite Eb. vm_compute in E. injection E as <- _. reflexivity.
Defined.

(** ** What the code does and should not *)

(** The version of [last] for a list that can be changed gives the first element. *)
Example last_is_first :
  (h ← BiDiList_put fresh_node empty_bd demo_L 1; h ← BiDiList_put fresh_node h demo_L 2;
   a ← BiDiList_last h demo_L; b ← BiDiList_last_ref h demo_L; Ret (a, b)) = Ret (2, 1).
Proof. vm_compute. reflexivity. Qed.
(** [remove] takes the node out of the list and does not free it. *)
Example remove_leaks :
  (h ← BiDiList_put fresh_node empty_bd demo_L 1; h ← BiDiList_remove Z.eqb h demo_L 1;
   n ← BiDiList_count h demo_L; Ret (n, size h)) = Ret (0, 3%nat).
Proof. vm_compute. reflexivity. Qed.
