(* ===== verification/TextOps.v ===== *)
(** * Texts as values

    What the functions on strings compute, on the characters they hold: cutting,
    searching, splitting and comparing texts. The memory of strings is in [Strings];
    the parts that only use the value of strings ([Path], [Version], [Options]) are
    written with these. *)

From stdpp Require Import list.
From S2P Require Import Prelude Compare.
#[local] Open Scope Z_scope.

(** [s.substring(off, len)] and [s.substring(off)]. *)
Definition substring (s : str) (off len : Z) : outcome str :=
  if (0 <=? off) && (0 <=? len) && (off + len <=? zlen s)
  then Ret (take (Z.to_nat len) (drop (Z.to_nat off) s)) else Crash OutOfBounds.
Definition substring_from (s : str) (off : Z) : outcome str := substring s off (zlen s - off).
(** [s.startsWith(t)]. *)
Definition starts_with (s t : str) : bool := bool_decide (take (length t) s = t).

(** [for(int i = start; i < s.length(); i++) if(s[i] == c) return i; return -1;] *)
Definition index_of (c : Z) (s : str) (start : Z) : outcome Z :=
  r ← scan start (zlen s) (fun i => x ← rd s i; Ret (if x =? c then Some i else None));
  Ret (default (-1) r).
(** The same downwards, from the end. *)
Definition last_index_of (c : Z) (s : str) : outcome Z :=
  r ← scan 0 (zlen s) (fun i => x ← rd s (zlen s - 1 - i); Ret (if x =? c then Some (zlen s - 1 - i) else None));
  Ret (default (-1) r).

(** ** The order of texts *)

(** [memcmp]: the sign of the first difference of unsigned bytes. *)
Fixpoint memcmp (a b : list Z) : Z :=
  match a, b with
  | x :: a, y :: b => if x =? y then memcmp a b else if x <? y then -1 else 1
  | _, _ => 0
  end.

(** [s1.compare(s2)]: [memcmp] on the shortest length, then the lengths. *)
#[export] Instance text_comparator : Comparator str := fun s1 s2 =>
  let res := memcmp s1 s2 in if negb (res =? 0) then res else zlen s1 - zlen s2.

Lemma memcmp_sym a : forall b, memcmp b a = - memcmp a b.
Proof.
  induction a as [|x a IH]; intros [|y b]; try done. cbn. rewrite (Z.eqb_sym y x).
  destruct (Z.eqb_spec x y) as [->|Hn]; [apply IH|].
  destruct (Z.ltb_spec x y), (Z.ltb_spec y x); lia.
Qed.
Lemma text_compare_cons x (a : str) y b :
  doCompare (x :: a) (y :: b) = if x =? y then doCompare a b else if x <? y then -1 else 1.
Proof.
  unfold doCompare, text_comparator. cbn [memcmp]. destruct (Z.eqb_spec x y) as [->|Hn].
  - cbn [length]. destruct (negb (memcmp a b =? 0)); [done|lia].
  - by destruct (Z.ltb_spec x y).
Qed.
Lemma text_compare_refl (a : str) : doCompare a a = 0.
Proof.
  induction a as [|x a IH]; [done|]. by rewrite text_compare_cons, Z.eqb_refl.
Qed.

#[export] Instance text_total_order : TotalOrder str.
Proof.
  split.
  - intros x y. split; [|intros ->; apply text_compare_refl].
    revert y. induction x as [|c x IH]; intros [|d y]; try done;
      try (unfold doCompare, text_comparator; cbn; intros E; exfalso; lia).
    rewrite text_compare_cons. destruct (Z.eqb_spec c d) as [->|Hn].
    + intros E. f_equal. by apply IH.
    + destruct (c <? d); lia.
  - intros x y. unfold doCompare, text_comparator. rewrite (memcmp_sym x y).
    destruct (Z.eqb_spec (memcmp x y) 0) as [->|Hn]; cbn [negb].
    + change (- 0 =? 0) with true. cbn [negb]. lia.
    + rewrite (proj2 (Z.eqb_neq (- _) _)) by lia. cbn [negb]. lia.
  - induction x as [|c x IH]; intros [|d y] [|e z]; try (unfold doCompare, text_comparator; cbn; lia).
    rewrite !text_compare_cons.
    destruct (Z.eqb_spec c d), (Z.eqb_spec d e), (Z.eqb_spec c e);
      try (destruct (Z.ltb_spec c d), (Z.ltb_spec d e), (Z.ltb_spec c e); lia). apply IH.
Qed.

(** ** Texts cut by a character *)

Fixpoint split_on (c : Z) (s : str) : list str :=
  match s with
  | [] => [[]]
  | x :: s => if x =? c then [] :: split_on c s
              else match split_on c s with p :: l => (x :: p) :: l | [] => [[x]] end
  end.
Fixpoint join_with (c : Z) (l : list str) : str :=
  match l with [] => [] | [p] => p | p :: l => p ++ [c] ++ join_with c l end.

Lemma split_nonempty c s : split_on c s <> [].
Proof. destruct s as [|x s]; cbn; [done|]. destruct (x =? c); [done|]. by destruct (split_on c s). Qed.
Lemma split_none c s : c ∉ s -> split_on c s = [s].
Proof.
  induction s as [|x s IH]; cbn; [done|]. intros [H1 H2]%not_elem_of_cons.
  rewrite (proj2 (Z.eqb_neq _ _)), (IH H2) by congruence. done.
Qed.
Lemma split_app c p s : c ∉ p -> split_on c (p ++ c :: s) = p :: split_on c s.
Proof.
  induction p as [|x p IH]; cbn; [by rewrite Z.eqb_refl|]. intros [H1 H2]%not_elem_of_cons.
  by rewrite (proj2 (Z.eqb_neq _ _)), (IH H2) by congruence.
Qed.
Lemma split_no_sep c s : Forall (fun p => c ∉ p) (split_on c s).
Proof.
  induction s as [|x s IH]; cbn; [constructor; [apply not_elem_of_nil|constructor]|].
  destruct (Z.eqb_spec x c) as [->|Hn]; [constructor; [apply not_elem_of_nil|done]|].
  destruct (split_on c s) as [|p l]; inversion IH; subst; constructor; try done;
    apply not_elem_of_cons; (split; [congruence|]); [apply not_elem_of_nil|done].
Qed.
Lemma split_join c l : l <> [] -> Forall (fun p => c ∉ p) l -> split_on c (join_with c l) = l.
Proof.
  induction l as [|p l IH]; [done|]. intros _ F. inversion F as [|? ? Hp Fl]; subst.
  destruct l as [|q l]; [by apply split_none|]. cbn [join_with app].
  rewrite split_app by done. f_equal. by apply IH.
Qed.
Lemma join_split c s : join_with c (split_on c s) = s.
Proof.
  induction s as [|x s IH]; [done|]. cbn. pose proof (split_nonempty c s) as Hn.
  destruct (split_on c s) as [|p l]; [done|].
  destruct (Z.eqb_spec x c) as [->|_]; [cbn in *; by rewrite <- IH|].
  destruct l; cbn in *; by rewrite <- IH.
Qed.

(** ** Searches *)

Lemma rd_app_r {A} (l k : list A) i x : 0 <= i -> k !! Z.to_nat i = Some x -> rd (l ++ k) (zlen l + i) = Ret x.
Proof.
  intros Hi E. apply rd_ok; [lia|]. rewrite lookup_app_r by lia. rewrite <- E. f_equal. lia.
Qed.

Lemma index_of_none c pre s : c ∉ s -> index_of c (pre ++ s) (zlen pre) = Ret (-1).
Proof.
  intros Hc. unfold index_of. destruct (scan_spec (fun i => None) (zlen pre) (zlen (pre ++ s))
    (fun i => x ← rd (pre ++ s) i; Ret (if x =? c then Some i else None))) as (r & -> & Hr).
  - intros i Hi. rewrite length_app in Hi.
    destruct (lookup_lt_is_Some_2 s (Z.to_nat (i - zlen pre))) as [x Hx]; [lia|].
    replace i with (zlen pre + (i - zlen pre)) by lia. rewrite (rd_app_r _ _ _ x) by (done || lia). mred.
    rewrite (proj2 (Z.eqb_neq _ _)); [done|]. intros ->. apply Hc. by eapply list_elem_of_lookup_2.
  - destruct r; [|done]. by destruct Hr as (? & _ & ? & _).
Qed.
Lemma index_of_some c pre p s : c ∉ p -> index_of c (pre ++ p ++ c :: s) (zlen pre) = Ret (zlen pre + zlen p).
Proof.
  intros Hc. unfold index_of. set (t := pre ++ p ++ c :: s).
  destruct (scan_spec (fun i => if decide (t !! Z.to_nat i = Some c) then Some i else None)
    (zlen pre) (zlen t) (fun i => x ← rd t i; Ret (if x =? c then Some i else None))) as (r & -> & Hr).
  - intros i Hi. destruct (lookup_lt_is_Some_2 t (Z.to_nat i)) as [x Hx]; [lia|].
    rewrite (rd_ok _ _ x) by (done || lia). mred. rewrite Hx.
    destruct (Z.eqb_spec x c) as [->|Hn]; case_decide; congruence.
  - assert (t !! Z.to_nat (zlen pre + zlen p) = Some c) as Ht.
    { unfold t. rewrite app_assoc. apply list_lookup_middle. rewrite length_app. lia. }
    assert (forall i, zlen pre <= i < zlen pre + zlen p -> t !! Z.to_nat i <> Some c) as Hb.
    { intros i Hi E. apply Hc. unfold t in E. rewrite lookup_app_r in E by lia.
      rewrite lookup_app_l in E by lia. by eapply list_elem_of_lookup_2. }
    assert (zlen pre + zlen p < zlen t) as Hl by (unfold t; rewrite !length_app; cbn; lia).
    destruct r as [x|]; [destruct Hr as (i & Hi & E & Hj)|].
    + case_decide as Ei; [|done]. injection E as <-. cbn. f_equal.
      destruct (Z.lt_trichotomy i (zlen pre + zlen p)) as [L|[L|L]]; [|done|].
      * by destruct (Hb i ltac:(lia)).
      * specialize (Hj (zlen pre + zlen p) ltac:(lia)). by rewrite decide_True in Hj.
    + specialize (Hr (zlen pre + zlen p) ltac:(lia)). by rewrite decide_True in Hr.
Qed.

Lemma last_index_of_some c p s : c ∉ s -> last_index_of c (p ++ c :: s) = Ret (zlen p).
Proof.
  intros Hc. unfold last_index_of. set (t := p ++ c :: s).
  assert (zlen t = zlen p + 1 + zlen s) as Hl by (unfold t; rewrite length_app; cbn; lia).
  destruct (scan_spec (fun i => if decide (t !! Z.to_nat (zlen t - 1 - i) = Some c) then Some (zlen t - 1 - i) else None)
    0 (zlen t) (fun i => x ← rd t (zlen t - 1 - i); Ret (if x =? c then Some (zlen t - 1 - i) else None)))
    as (r & -> & Hr).
  - intros i Hi. destruct (lookup_lt_is_Some_2 t (Z.to_nat (zlen t - 1 - i))) as [x Hx]; [lia|].
    rewrite (rd_ok _ _ x) by (done || lia). mred. rewrite Hx.
    destruct (Z.eqb_spec x c) as [->|Hn]; case_decide; congruence.
  - assert (t !! Z.to_nat (zlen t - 1 - zlen s) = Some c) as Ht.
    { apply list_lookup_middle. lia. }
    assert (forall i, 0 <= i < zlen s -> t !! Z.to_nat (zlen t - 1 - i) <> Some c) as Hb.
    { intros i Hi E. apply Hc. unfold t in E. rewrite lookup_app_r in E by (fold t; lia).
      fold t in E. replace (Z.to_nat (zlen t - 1 - i) - length p)%nat with (S (Z.to_nat (zlen s - 1 - i))) in E by lia.
      cbn in E. by eapply list_elem_of_lookup_2. }
    destruct r as [x|]; [destruct Hr as (i & Hi & E & Hj)|].
    + case_decide as Ei; [|done]. injection E as <-. cbn. f_equal.
      destruct (Z.lt_trichotomy i (zlen s)) as [L|[L|L]]; [|lia|].
      * by destruct (Hb i ltac:(lia)).
      * specialize (Hj (zlen s) ltac:(lia)). by rewrite decide_True in Hj.
    + specialize (Hr (zlen s) ltac:(lia)). by rewrite decide_True in Hr.
Qed.
Lemma last_index_of_none c s : c ∉ s -> last_index_of c s = Ret (-1).
Proof.
  intros Hc. unfold last_index_of. destruct (scan_spec (fun i : Z => @None Z) 0 (zlen s)
    (fun i => x ← rd s (zlen s - 1 - i); Ret (if x =? c then Some (zlen s - 1 - i) else None))) as (r & -> & Hr).
  - intros i Hi. destruct (lookup_lt_is_Some_2 s (Z.to_nat (zlen s - 1 - i))) as [x Hx]; [lia|].
    rewrite (rd_ok _ _ x) by (done || lia). mred.
    rewrite (proj2 (Z.eqb_neq _ _)); [done|]. intros ->. apply Hc. by eapply list_elem_of_lookup_2.
  - destruct r; [|done]. by destruct Hr as (? & _ & ? & _).
Qed.

Lemma substring_mid (a b c : str) : substring (a ++ b ++ c) (zlen a) (zlen b) = Ret b.
Proof.
  unfold substring. rewrite !(proj2 (Z.leb_le _ _)) by (rewrite ?length_app; lia). cbn [andb].
  by rewrite !Nat2Z.id, drop_app_length, take_app_length.
Qed.
Lemma substring_start (a b : str) : substring (a ++ b) 0 (zlen a) = Ret a.
Proof. apply (substring_mid [] a b). Qed.
Lemma substring_end (a b : str) : substring_from (a ++ b) (zlen a) = Ret b.
Proof.
  unfold substring_from. rewrite length_app. replace (_ - zlen a) with (zlen b) by lia.
  rewrite <- (app_nil_r b) at 1. apply substring_mid.
Qed.

(** A text cut at its first [c]. *)
Lemma index_of_first c p s : c ∉ p -> index_of c (p ++ c :: s) 0 = Ret (zlen p).
Proof. intros Hc. apply (index_of_some c [] p s Hc). Qed.
Lemma index_of_no c s : c ∉ s -> index_of c s 0 = Ret (-1).
Proof. apply (index_of_none c [] s). Qed.
Lemma substring_after (p : str) c s : substring_from (p ++ c :: s) (zlen p + 1) = Ret s.
Proof.
  replace (p ++ c :: s) with ((p ++ [c]) ++ s) by by rewrite <- app_assoc.
  replace (zlen p + 1) with (zlen (p ++ [c])) by (rewrite length_app; cbn; lia). apply substring_end.
Qed.
