(* ===== verification/Lists.v ===== *)
(** * Linked lists and sorted lists
      ([include/elm/data/List.h], [SortedList.h], [ListSet.h], [ListMap.h])

    A single-linked list is the list of the values of its nodes.  The iterator
    that remembers its predecessor ([PrecIter]) is the pair of the nodes before
    it, in order, and of the nodes from it on; inserting before it and removing
    the node it is on change this pair. *)

From S2P Require Import Prelude Compare.

(** ** Lists *)

Section List.
Context {A : Type} (isEqual : A -> A -> bool).

(* src/include/elm/data/List.h:120-121 List::contains *)
Fixpoint List_contains (l : list A) (item : A) : bool :=
  match l with [] => false | x :: l => if isEqual item x then true else List_contains l item end.

(* src/include/elm/data/List.h:124-125 List::equals *)
Fixpoint List_equals (l k : list A) : bool :=
  match l, k with
  | x :: l, y :: k => if negb (isEqual x y) then false else List_equals l k
  | [], [] => true
  | _, _ => false
  end.

(** The nodes are copied one after the other behind [cur]. *)
(* src/include/elm/data/List.h:58-61 List::copy *)
Definition List_copy (l : list A) : list A :=
  match l with [] => [] | x :: l => foldl (fun copy y => copy ++ [y]) [x] l end.

(* src/include/elm/data/List.h:129-130 List::clear *)
Definition List_clear (l : list A) : list A := [].
(* src/include/elm/data/List.h:157-157 List::addFirst *)
Definition List_addFirst (l : list A) (x : A) : list A := x :: l.
(* src/include/elm/data/List.h:158-158 List::addLast *)
Definition List_addLast (l : list A) (x : A) : list A := l ++ [x].
(* src/include/elm/data/List.h:131-131 List::add *)
Definition List_add : list A -> A -> list A := List_addFirst.
(* src/include/elm/data/List.h:132-133 List::addAll *)
Definition List_addAll (l : list A) (items : list A) : list A := foldl List_add l items.

(* src/include/elm/data/List.h:136-140 List::remove *)
Definition List_remove (l : list A) (value : A) : list A :=
  match l with
  | [] => []
  | x :: l' =>
      if isEqual x value then l' else
      x :: (fix go l := match l with
            | [] => []
            | y :: l => if isEqual y value then l else y :: go l
            end) l'
  end.
(* src/include/elm/data/List.h:134-135 List::removeAll *)
Definition List_removeAll (l : list A) (items : list A) : list A := foldl List_remove l items.

(* src/include/elm/data/List.h:145-148 List::first *)
Definition List_first (l : list A) : outcome A :=
  match l with x :: _ => Ret x | [] => Crash OutOfBounds end.
(* src/include/elm/data/List.h:149-150 List::nth *)
Fixpoint List_nth (l : list A) (n : nat) : outcome A :=
  match l, n with
  | x :: _, O => Ret x
  | _ :: l, S n => List_nth l n
  | [], _ => Crash AssertFailed
  end.
(** The nodes from the one found on; none at the end. *)
(* src/include/elm/data/List.h:151-152 List::find *)
Fixpoint List_find (l : list A) (item : A) : list A :=
  match l with [] => [] | x :: l' => if isEqual item x then l else List_find l' item end.
(* src/include/elm/data/List.h:164-164 List::removeFirst *)
Definition List_removeFirst (l : list A) : outcome (list A) :=
  match l with _ :: l => Ret l | [] => Crash OutOfBounds end.
(* src/include/elm/data/List.h:165-165 List::removeLast *)
Definition List_removeLast (l : list A) : outcome (list A) :=
  match l with [] => Crash OutOfBounds | _ => Ret (take (length l - 1) l) end.
(* src/include/elm/data/List.h:170-170 List::pop *)
Definition List_pop (l : list A) : outcome (A * list A) :=
  r ← List_first l; l ← List_removeFirst l; Ret (r, l).

(* src/include/elm/data/List.h:86-101 List::PrecIter *)
Record PrecIter := mkPrec { before : list A; from : list A }.
(* src/include/elm/data/List.h:90-90 List::PrecIter::PrecIter *)
Definition PrecIter_make (l : list A) : PrecIter := mkPrec [] l.
(* src/include/elm/data/List.h:97-97 List::PrecIter::next *)
Definition PrecIter_next (i : PrecIter) : outcome PrecIter :=
  match from i with
  | x :: f => Ret (mkPrec (before i ++ [x]) f)
  | [] => Crash AssertFailed
  end.
(* src/include/elm/data/List.h:161-163 List::addBefore *)
Definition List_addBefore (i : PrecIter) (x : A) : PrecIter := mkPrec (before i ++ [x]) (from i).
(* src/include/elm/data/List.h:191-193 List::remove *)
Definition List_removeAt (i : PrecIter) : outcome PrecIter :=
  match from i with
  | _ :: f => Ret (mkPrec (before i) f)
  | [] => Crash AssertFailed
  end.
Definition PrecIter_list (i : PrecIter) : list A := before i ++ from i.
End List.
Arguments PrecIter : clear implicits.

(** ** Sorted lists and sets *)

Section Sorted.
Context {A : Type} `{Comparator A}.
Definition compare_equal (x y : A) : bool := doCompare x y =? 0.

(* src/include/elm/data/SortedList.h:85-92 SortedList::add *)
Definition SortedList_add (l : list A) (value : A) : list A :=
  (fix go (i : PrecIter A) (f : list A) := match f with
   | [] => List_addLast (PrecIter_list i) value
   | x :: f' => if doCompare value x <? 0 then PrecIter_list (List_addBefore i value)
                else go (mkPrec (before i ++ [x]) f') f'
   end) (PrecIter_make l) l.

(** The nodes from the one found on; none when the search fails. *)
(* src/include/elm/data/SortedList.h:106-112 SortedList::find *)
Fixpoint SortedList_find (item : A) (i : list A) : list A :=
  match i with
  | [] => []
  | x :: i' => let cmp := doCompare item x in
      if 0 <? cmp then SortedList_find item i' else if cmp =? 0 then i else []
  end.
(* src/include/elm/data/SortedList.h:53-53 SortedList::contains *)
Definition SortedList_contains (l : list A) (item : A) : bool :=
  match SortedList_find item l with [] => false | _ => true end.
(* src/include/elm/data/SortedList.h:54-55 SortedList::containsAll *)
Definition SortedList_containsAll (l c : list A) : bool := forallb (SortedList_contains l) c.
(* src/include/elm/data/SortedList.h:71-77 SortedList::equals *)
Fixpoint SortedList_equals (i j : list A) : bool :=
  match i, j with
  | x :: i, y :: j => if negb (doCompare x y =? 0) then false else SortedList_equals i j
  | [], [] => true
  | _, _ => false
  end.
(* src/include/elm/data/SortedList.h:94-95 SortedList::addAll *)
Definition SortedList_addAll (l c : list A) : list A := List_addAll l c.
(* src/include/elm/data/SortedList.h:96-96 SortedList::remove *)
Definition SortedList_remove (l : list A) (item : A) : list A := List_remove compare_equal l item.
(* src/include/elm/data/SortedList.h:115-115 SortedList::nth *)
Definition SortedList_nth (l : list A) (n : nat) : list A := drop n l.

(* src/include/elm/data/ListSet.h:38-39 ListSet::insert *)
Definition ListSet_insert (l : list A) (v : A) : list A :=
  if negb (SortedList_contains l v) then SortedList_add l v else l.
(* src/include/elm/data/ListSet.h:105-105 ListSet::add *)
Definition ListSet_add : list A -> A -> list A := ListSet_insert.

(** [j] iterates on [this], [i] on [l]. *)
(* src/include/elm/data/ListSet.h:41-51 ListSet::subsetOf *)
Definition ListSet_subsetOf (self l : list A) : bool :=
  (fix go (i j : list A) := match i, j with
   | x :: i', y :: j' => let cmp := doCompare x y in
       if 0 <? cmp then false else if cmp =? 0 then go i' j' else go i' j
   | _, [] => true
   | [], _ => false
   end) l self.

(* src/include/elm/data/ListSet.h:57-67 ListSet::join *)
Fixpoint join_loop (f : list A) : list A -> list A -> list A :=
  fix go (j : list A) (pre : list A) : list A :=
    match f, j with
    | x :: f', y :: j' => let c := doCompare x y in
        if c =? 0 then join_loop f' j' (pre ++ [x])
        else if c <? 0 then join_loop f' j (pre ++ [x])
        else go j' (pre ++ [y])
    | _, _ => pre ++ j ++ f
    end.
Definition ListSet_join (self set : list A) : list A := join_loop self set [].

(* src/include/elm/data/ListSet.h:69-79 ListSet::meet *)
Fixpoint meet_loop (f : list A) : list A -> list A -> list A :=
  fix go (j : list A) (pre : list A) : list A :=
    match f, j with
    | x :: f', y :: j' => let c := doCompare x y in
        if c =? 0 then meet_loop f' j' (pre ++ [x])
        else if c <? 0 then meet_loop f' j pre
        else go j' pre
    | _, _ => pre
    end.
Definition ListSet_meet (self set : list A) : list A := meet_loop self set [].

(* src/include/elm/data/ListSet.h:81-90 ListSet::diff *)
Fixpoint diff_loop (f : list A) : list A -> list A -> list A :=
  fix go (j : list A) (pre : list A) : list A :=
    match f, j with
    | x :: f', y :: j' => let c := doCompare x y in
        if c =? 0 then diff_loop f' j' pre
        else if c <? 0 then diff_loop f' j (pre ++ [x])
        else go j' pre
    | _, _ => pre ++ f
    end.
Definition ListSet_diff (self set : list A) : list A := diff_loop self set [].
End Sorted.

(** ** Maps: sorted lists of pairs *)

Section Map.
Context {K T : Type} `{Comparator K} (isEqual : T -> T -> bool).
#[local] Instance assoc_comparator : Comparator (K * T) := AssocComparator doCompare.

(** The pairs from the one found on. *)
(* src/include/elm/data/ListMap.h:122-131 ListMap::lookup *)
Fixpoint ListMap_lookup (i : list (K * T)) (k : K) : list (K * T) :=
  match i with
  | [] => []
  | p :: i' => let cmp := doCompare k p.1 in
      if cmp =? 0 then i else if cmp <? 0 then [] else ListMap_lookup i' k
  end.
(* src/include/elm/data/ListMap.h:98-99 ListMap::get *)
Definition ListMap_get (m : list (K * T)) (k : K) : option T :=
  match ListMap_lookup m k with p :: _ => Some p.2 | [] => None end.
(* src/include/elm/data/ListMap.h:100-101 ListMap::get *)
Definition ListMap_get_default (m : list (K * T)) (k : K) (d : T) : T :=
  match ListMap_lookup m k with p :: _ => p.2 | [] => d end.
(* src/include/elm/data/ListMap.h:102-102 ListMap::hasKey *)
Definition ListMap_hasKey (m : list (K * T)) (k : K) : bool :=
  match ListMap_lookup m k with [] => false | _ => true end.
(* src/include/elm/data/ListMap.h:79-80 ListMap::contains *)
Definition ListMap_contains (m : list (K * T)) (v : T) : bool :=
  existsb (fun p => isEqual p.2 v) m.
(** [set(i, pair)]: the node the iterator is on, [length i] nodes before the end. *)
(* src/include/elm/data/ListMap.h:110-116 ListMap::put *)
Definition ListMap_put (m : list (K * T)) (k : K) (v : T) : list (K * T) :=
  match ListMap_lookup m k with
  | [] => SortedList_add m (k, v)
  | i => <[(length m - length i)%nat := (k, v)]> m
  end.
(* src/include/elm/data/ListMap.h:118-119 ListMap::remove *)
Definition ListMap_remove (m : list (K * T)) (k : K) : list (K * T) :=
  match ListMap_lookup m k with [] => m | p :: _ => SortedList_remove m p end.
(* src/include/elm/data/ListMap.h:104-104 ListMap::keys *)
Definition ListMap_keys (m : list (K * T)) : list K := m.*1.
End Map.

(** ** Sorted lists *)

Section SortedSpec.
Context {A : Type} `{TotalOrder A}.

(** Sorted with possible duplicates. *)
Definition cle (x y : A) : Prop := ~ clt y x.

Lemma add_loop (f : list A) v i : from i = f ->
  exists a b, f = a ++ b /\
    (fix go (i : PrecIter A) (f : list A) := match f with
     | [] => List_addLast (PrecIter_list i) v
     | x :: f' => if doCompare v x <? 0 then PrecIter_list (List_addBefore i v)
                  else go (mkPrec (before i ++ [x]) f') f'
     end) i f = before i ++ a ++ v :: b /\
    (forall x, x ∈ a -> cle x v) /\ match b with y :: _ => clt v y | [] => True end.
Proof.
  revert i. induction f as [|x f IH]; intros i Hi.
  - exists [], []. split_and!; [done| |by intros x ?%not_elem_of_nil|done].
    unfold List_addLast, PrecIter_list. by rewrite Hi, app_nil_r.
  - destruct (Z.ltb_spec (doCompare v x) 0) as [Hc|Hc].
    + exists [], (x :: f). split_and!; [done| |by intros y ?%not_elem_of_nil|done].
      unfold PrecIter_list, List_addBefore. cbn. rewrite Hi, <- app_assoc. done.
    + destruct (IH (mkPrec (before i ++ [x]) f) eq_refl) as (a & b & -> & -> & Ha & Hb).
      exists (x :: a), b. split_and!; [done| | |done].
      * cbn. by rewrite <- app_assoc.
      * intros y [->|Hy]%elem_of_cons; [unfold cle, clt; lia|by apply Ha].
Qed.

Lemma add_split (l : list A) v :
  exists a b, l = a ++ b /\ SortedList_add l v = a ++ v :: b /\
    (forall x, x ∈ a -> cle x v) /\ match b with y :: _ => clt v y | [] => True end.
Proof. apply (add_loop l v (PrecIter_make l)). done. Qed.

Lemma find_spec (l : list A) x :
  csorted l ->
  (exists b, SortedList_find x l = x :: b /\ x ∈ l) \/ (SortedList_find x l = [] /\ x ∉ l).
Proof.
  induction l as [|y l IH]; cbn; intros Hs; [right; split; [done|apply not_elem_of_nil]|].
  apply csorted_cons_inv in Hs as [Hs Hy].
  destruct (compareP x y) as [->|c Hc Hlt|c Hc Hlt].
  - cbn. left. eexists; split; [done|by left].
  - rewrite (proj2 (Z.ltb_ge _ _)), (proj2 (Z.eqb_neq _ _)) by lia.
    right. split; [done|]. intros [->|Hx]%elem_of_cons; [by apply clt_irrefl in Hc|].
    by apply (clt_asym x y), Hy.
  - rewrite (proj2 (Z.ltb_lt _ _)) by lia. destruct (IH Hs) as [(b & E & Hx)|[E Hx]].
    + left. exists b. split; [done|by right].
    + right. split; [done|]. intros [->|Hx']%elem_of_cons; [by apply clt_irrefl in Hc|done].
Qed.

Lemma contains_elem (l : list A) x : csorted l -> SortedList_contains l x = true <-> x ∈ l.
Proof.
  intros Hs. unfold SortedList_contains. destruct (find_spec l x Hs) as [(b & -> & Hx)|[-> Hx]]; done.
Qed.

Lemma insert_sorted (l : list A) v : csorted l ->
  csorted (ListSet_insert l v) /\ forall x, x ∈ ListSet_insert l v <-> x = v \/ x ∈ l.
Proof.
  intros Hs. unfold ListSet_insert. destruct (SortedList_contains l v) eqn:E; cbn.
  - apply contains_elem in E; [|done]. split; [done|]. naive_solver.
  - assert (v ∉ l) as Hv by (rewrite <- contains_elem by done; by rewrite E).
    destruct (add_split l v) as (a & b & -> & -> & Ha & Hb).
    apply csorted_app in Hs as (Sa & Sb & Sab). split.
    + apply csorted_app. split_and!; [done| |].
      * apply csorted_cons; [done|]. intros y Hy. destruct b as [|z b]; [by apply not_elem_of_nil in Hy|].
        apply elem_of_cons in Hy as [->|Hy]; [done|]. apply csorted_cons_inv in Sb as [_ Sb].
        apply clt_trans with z; [done|by apply Sb].
      * intros x y Hx [->|Hy]%elem_of_cons; [|by apply Sab].
        destruct (clt_cases x v) as [?|[->|?]]; [done| |by apply Ha in Hx].
        exfalso. apply Hv, elem_of_app. by left.
    + intros x. rewrite !elem_of_app, elem_of_cons. tauto.
Qed.

Lemma remove_sorted (l : list A) v : csorted l ->
  csorted (SortedList_remove l v) /\ forall x, x ∈ SortedList_remove l v <-> x <> v /\ x ∈ l.
Proof.
  unfold SortedList_remove. intros Hs.
  assert (forall l, csorted l ->
    ((v ∉ l) /\ List_remove compare_equal l v = l) \/
    exists a b, l = a ++ v :: b /\ List_remove compare_equal l v = a ++ b) as Hr.
  { clear l Hs. intros l Hs.
    assert (forall y, compare_equal y v = true <-> y = v) as Heq.
    { intros y. unfold compare_equal. by rewrite Z.eqb_eq, compare_eq. }
    destruct l as [|y l]; [left; split; [apply not_elem_of_nil|done]|]. cbn.
    destruct (compare_equal y v) eqn:E.
    - apply Heq in E as ->. right. by exists [], l.
    - assert (y <> v) as Hne by (intros Ey%Heq; congruence).
      apply csorted_cons_inv in Hs as [Hs _].
      assert (((v ∉ l) /\ (fix go (l : list A) : list A := match l with
            | [] => [] | y :: l => if compare_equal y v then l else y :: go l end) l = l) \/
        exists a b, l = a ++ v :: b /\ (fix go (l : list A) : list A := match l with
            | [] => [] | y :: l => if compare_equal y v then l else y :: go l end) l = a ++ b) as Hgo.
      { clear Hs. induction l as [|z l IH]; [left; split; [apply not_elem_of_nil|done]|].
        destruct (compare_equal z v) eqn:Ez.
        - apply Heq in Ez as ->. right. by exists [], l.
        - assert (z <> v) by (intros Ezv%Heq; congruence).
          destruct IH as [[Hv ->]|(a & b & -> & ->)].
          + left. split; [|done]. rewrite elem_of_cons. naive_solver.
          + right. by exists (z :: a), b. }
      destruct Hgo as [[Hv ->]|(a & b & -> & ->)].
      + left. split; [|done]. rewrite elem_of_cons. naive_solver.
      + right. by exists (y :: a), b. }
  destruct (Hr l Hs) as [[Hv ->]|(a & b & -> & ->)].
  - split; [done|]. intros x. naive_solver.
  - apply csorted_app in Hs as (Sa & [Sb Hb]%csorted_cons_inv & Sab). split.
    + apply csorted_app. split_and!; [done|done|]. intros x y Hx Hy. apply Sab; [done|by right].
    + intros x. rewrite !elem_of_app, elem_of_cons.
      assert (forall x, x ∈ a -> x <> v) by (intros y Hy ->; apply (clt_irrefl v), Sab; [done|by left]).
      assert (forall x, x ∈ b -> x <> v) by (intros y Hy ->; by apply (clt_irrefl v), Hb).
      naive_solver.
Qed.

(** *** The two-pointer loops *)

Ltac two_lists f IHf j IHj :=
  induction f as [|x f IHf]; intros j; induction j as [|y j IHj]; intros pre; cbn [join_loop meet_loop diff_loop].

Lemma join_elem z f : forall j pre, z ∈ join_loop f j pre <-> z ∈ pre \/ z ∈ f \/ z ∈ j.
Proof.
  two_lists f IHf j IHj; rewrite ?app_nil_r, ?elem_of_app, ?elem_of_nil; try tauto.
  destruct (compareP x y) as [->|c Hc Hlt|c Hc Hlt].
  - cbn. rewrite IHf, elem_of_app, !elem_of_cons, elem_of_nil. tauto.
  - rewrite (proj2 (Z.eqb_neq _ _)), (proj2 (Z.ltb_lt _ _)) by lia.
    rewrite IHf, elem_of_app, !elem_of_cons, elem_of_nil. tauto.
  - rewrite (proj2 (Z.eqb_neq _ _)), (proj2 (Z.ltb_ge _ _)) by lia.
    rewrite IHj, elem_of_app, !elem_of_cons, elem_of_nil. tauto.
Qed.

Lemma join_sorted f : forall j pre,
  csorted pre -> csorted f -> csorted j ->
  (forall a b, a ∈ pre -> b ∈ f \/ b ∈ j -> clt a b) -> csorted (join_loop f j pre).
Proof.
  two_lists f IHf j IHj; intros Sp Sf Sj Hp; rewrite ?app_nil_r.
  - done.
  - apply csorted_app. split_and!; [done|done|]. intros; apply Hp; tauto.
  - apply csorted_app. split_and!; [done|done|]. intros; apply Hp; tauto.
  - pose proof (csorted_cons_inv _ _ Sf) as [Sf' Hf]. pose proof (csorted_cons_inv _ _ Sj) as [Sj' Hj].
    assert (forall a, a ∈ pre -> clt a x /\ clt a y) as Hxy.
    { intros a Ha. split; apply Hp; rewrite ?elem_of_cons; tauto. }
    destruct (compareP x y) as [->|c Hc Hlt|c Hc Hlt].
    + cbn. apply IHf; [|done|done|].
      * apply csorted_snoc; [done|]. intros a Ha. by apply Hxy.
      * intros a b [Ha| ->%list_elem_of_singleton]%elem_of_app Hb.
        -- apply Hp; [done|]. rewrite !elem_of_cons. tauto.
        -- destruct Hb; [by apply Hf|by apply Hj].
    + rewrite (proj2 (Z.eqb_neq _ _)), (proj2 (Z.ltb_lt _ _)) by lia. apply IHf; [|done|done|].
      * apply csorted_snoc; [done|]. intros a Ha. by apply Hxy.
      * intros a b [Ha| ->%list_elem_of_singleton]%elem_of_app Hb.
        -- apply Hp; [done|]. rewrite elem_of_cons. tauto.
        -- destruct Hb as [Hb|[->|Hb]%elem_of_cons]; [by apply Hf|done|].
           apply clt_trans with y; [done|by apply Hj].
    + rewrite (proj2 (Z.eqb_neq _ _)), (proj2 (Z.ltb_ge _ _)) by lia. apply IHj; [|done|done|].
      * apply csorted_snoc; [done|]. intros a Ha. by apply Hxy.
      * intros a b [Ha| ->%list_elem_of_singleton]%elem_of_app Hb.
        -- apply Hp; [done|]. rewrite (elem_of_cons j). tauto.
        -- destruct Hb as [[->|Hb]%elem_of_cons|Hb]; [done| |by apply Hj].
           apply clt_trans with x; [done|by apply Hf].
Qed.

(** An element below the head of a sorted list is not in it. *)
Lemma below_head x y (l : list A) : clt x y -> csorted (y :: l) -> x ∉ y :: l.
Proof.
  intros Hc [Hs Hy]%csorted_cons_inv [->|Hx]%elem_of_cons; [by apply clt_irrefl in Hc|].
  by apply (clt_asym x y), Hy.
Qed.

Lemma meet_elem z f : forall j pre, csorted f -> csorted j ->
  z ∈ meet_loop f j pre <-> z ∈ pre \/ (z ∈ f /\ z ∈ j).
Proof.
  two_lists f IHf j IHj; intros Sf Sj; rewrite ?elem_of_nil; try tauto.
  pose proof (csorted_cons_inv _ _ Sf) as [Sf' Hf]. pose proof (csorted_cons_inv _ _ Sj) as [Sj' Hj].
  destruct (compareP x y) as [->|c Hc Hlt|c Hc Hlt].
  - cbn. rewrite IHf, elem_of_app, !elem_of_cons, elem_of_nil by done.
    assert (z ∈ f -> z ≠ y) by (intros Hz ->; by apply (clt_irrefl y), Hf).
    assert (z ∈ j -> z ≠ y) by (intros Hz ->; by apply (clt_irrefl y), Hj). tauto.
  - rewrite (proj2 (Z.eqb_neq _ _)), (proj2 (Z.ltb_lt _ _)) by lia.
    rewrite IHf by done. pose proof (below_head x y j Hc Sj) as Hn.
    rewrite (elem_of_cons f). naive_solver.
  - rewrite (proj2 (Z.eqb_neq _ _)), (proj2 (Z.ltb_ge _ _)) by lia.
    rewrite IHj by done. pose proof (below_head y x f Hc Sf) as Hn.
    rewrite (elem_of_cons j). naive_solver.
Qed.

Lemma diff_elem z f : forall j pre, csorted f -> csorted j ->
  z ∈ diff_loop f j pre <-> z ∈ pre \/ (z ∈ f /\ z ∉ j).
Proof.
  two_lists f IHf j IHj; intros Sf Sj; rewrite ?app_nil_r, ?elem_of_app, ?elem_of_nil; try tauto.
  pose proof (csorted_cons_inv _ _ Sf) as [Sf' Hf]. pose proof (csorted_cons_inv _ _ Sj) as [Sj' Hj].
  destruct (compareP x y) as [->|c Hc Hlt|c Hc Hlt].
  - cbn. rewrite IHf, !elem_of_cons by done.
    assert (z ∈ f -> z ≠ y) by (intros Hz ->; by apply (clt_irrefl y), Hf). tauto.
  - rewrite (proj2 (Z.eqb_neq _ _)), (proj2 (Z.ltb_lt _ _)) by lia.
    rewrite IHf by done. pose proof (below_head x y j Hc Sj) as Hn.
    rewrite elem_of_app, (elem_of_cons f), list_elem_of_singleton. naive_solver.
  - rewrite (proj2 (Z.eqb_neq _ _)), (proj2 (Z.ltb_ge _ _)) by lia.
    rewrite IHj by done. pose proof (below_head y x f Hc Sf) as Hn.
    rewrite (elem_of_cons j). naive_solver.
Qed.

(** The elements kept by [meet] and [diff] come from the list, in its order. *)
Lemma meet_sub f : forall j pre, exists k, meet_loop f j pre = pre ++ k /\ sublist k f.
Proof.
  two_lists f IHf j IHj; try (exists []; rewrite app_nil_r; split; [done|apply sublist_nil_l]).
  destruct (_ =? 0).
  - destruct (IHf j (pre ++ [x])) as (k & -> & Hk). exists (x :: k). rewrite <- app_assoc.
    split; [done|by constructor].
  - destruct (_ <? 0); [destruct (IHf (y :: j) pre) as (k & E & Hk)|destruct (IHj pre) as (k & E & Hk)];
      exists k; (split; [exact E|]); [by constructor|done].
Qed.
Lemma diff_sub f : forall j pre, exists k, diff_loop f j pre = pre ++ k /\ sublist k f.
Proof.
  two_lists f IHf j IHj; try (eexists; split; [done|reflexivity]).
  destruct (_ =? 0).
  - destruct (IHf j pre) as (k & -> & Hk). exists k. split; [done|by constructor].
  - destruct (_ <? 0); [destruct (IHf (y :: j) (pre ++ [x])) as (k & -> & Hk)|destruct (IHj pre) as (k & E & Hk)].
    + exists (x :: k). rewrite <- app_assoc. split; [done|by constructor].
    + exists k. split; [exact E|done].
Qed.

Lemma csorted_sublist (k l : list A) : sublist k l -> csorted l -> csorted k.
Proof.
  induction 1 as [|x l1 l2 Hs IH|x l1 l2 Hs IH]; intros Hl; [done| |].
  - apply csorted_cons_inv in Hl as [Hl Hx]. apply csorted_cons; [by apply IH|].
    intros y Hy. apply Hx. by eapply elem_of_sublist.
  - apply csorted_cons_inv in Hl as [Hl _]. by apply IH.
Qed.

Lemma subsetOf_spec (l self : list A) : csorted l -> csorted self ->
  ListSet_subsetOf self l = true <-> forall x, x ∈ self -> x ∈ l.
Proof.
  unfold ListSet_subsetOf. revert self. induction l as [|x l IH]; intros self Sl Ss.
  - destruct self as [|y self].
    + split; [|done]. intros _ z Hz. by apply not_elem_of_nil in Hz.
    + split; [done|]. intros Hs. exfalso. apply (not_elem_of_nil y), Hs. by left.
  - destruct self as [|y self].
    { split; [|done]. intros _ z Hz. by apply not_elem_of_nil in Hz. }
    pose proof (csorted_cons_inv _ _ Sl) as [Sl' Hl]. pose proof (csorted_cons_inv _ _ Ss) as [Ss' Hs].
    destruct (compareP x y) as [->|c Hc Hlt|c Hc Hlt].
    + cbn. rewrite IH by done. split; intros Hin z.
      * rewrite !elem_of_cons. naive_solver.
      * intros Hz. specialize (Hin z). rewrite !elem_of_cons in Hin.
        destruct (Hin (or_intror Hz)) as [->|]; [|done]. by apply Hs, clt_irrefl in Hz.
    + rewrite (proj2 (Z.ltb_ge _ _)), (proj2 (Z.eqb_neq _ _)) by lia. rewrite IH by done.
      pose proof (below_head x y self Hc Ss) as Hn. split; intros Hin z Hz.
      * right. by apply Hin.
      * specialize (Hin z Hz). apply elem_of_cons in Hin as [->|]; done.
    + rewrite (proj2 (Z.ltb_lt _ _)) by lia. split; [done|]. intros Hin.
      exfalso. apply (below_head y x l Hc Sl), Hin. by left.
Qed.
End SortedSpec.

(** ** Maps *)

Section MapSpec.
Context {K T : Type} `{TotalOrder K}.
#[local] Existing Instance assoc_comparator.
Implicit Types m : list (K * T).

(** The keys are in strictly increasing order. *)
Definition map_ok m : Prop := csorted m.*1.

Lemma map_ok_app m1 k v m2 : map_ok (m1 ++ (k, v) :: m2) <->
  map_ok m1 /\ map_ok m2 /\ (forall p, p ∈ m1 -> clt p.1 k) /\ (forall p, p ∈ m2 -> clt k p.1) /\
  (forall p q, p ∈ m1 -> q ∈ m2 -> clt p.1 q.1).
Proof.
  unfold map_ok. rewrite fmap_app, fmap_cons, csorted_app. split.
  - intros (S1 & [S2 Hk]%csorted_cons_inv & S12). split_and!; [done|done| | |].
    + intros p Hp. apply S12; [by apply list_elem_of_fmap_2|by left].
    + intros p Hp. apply Hk. by apply list_elem_of_fmap_2.
    + intros p q Hp Hq. apply S12; [by apply list_elem_of_fmap_2|right; by apply list_elem_of_fmap_2].
  - intros (S1 & S2 & L1 & L2 & L12). split_and!; [done| |].
    + apply csorted_cons; [done|]. intros y (p & -> & Hp)%list_elem_of_fmap. by apply L2.
    + intros x y (p & -> & Hp)%list_elem_of_fmap [->|(q & -> & Hq)%list_elem_of_fmap]%elem_of_cons;
        [by apply L1|by apply L12].
Qed.

Lemma lookup_split m k : map_ok m ->
  (ListMap_lookup m k = [] /\ forall v, (k, v) ∉ m) \/
  exists m1 v m2, m = m1 ++ (k, v) :: m2 /\ ListMap_lookup m k = (k, v) :: m2.
Proof.
  induction m as [|[k' v'] m IH]; cbn; intros Hm; [left; split; [done|intros; apply not_elem_of_nil]|].
  pose proof (proj1 (map_ok_app [] k' v' m) Hm) as (_ & Hm' & _ & Hk' & _). cbn.
  destruct (compareP k k') as [->|c Hc Hlt|c Hc Hlt]; cbn.
  - right. by exists [], v', m.
  - rewrite (proj2 (Z.eqb_neq _ _)), (proj2 (Z.ltb_lt _ _)) by lia. left. split; [done|].
    intros v [E|Hv]%elem_of_cons.
    + injection E as -> ->. by apply clt_irrefl in Hc.
    + apply Hk' in Hv. by apply (clt_asym k k').
  - rewrite (proj2 (Z.eqb_neq _ _)), (proj2 (Z.ltb_ge _ _)) by lia.
    destruct (IH Hm') as [[E Hn]|(m1 & v & m2 & -> & E)].
    + left. split; [done|]. intros v [Ev|Hv]%elem_of_cons; [|by apply (Hn v)].
      injection Ev as -> ->. by apply clt_irrefl in Hc.
    + right. by exists ((k', v') :: m1), v, m2.
Qed.

Lemma get_elem m k v : map_ok m -> ListMap_get m k = Some v <-> (k, v) ∈ m.
Proof.
  intros Hm. unfold ListMap_get.
  destruct (lookup_split m k Hm) as [[-> Hn]|(m1 & w & m2 & -> & ->)].
  - split; [done|]. intros Hv. by apply Hn in Hv.
  - cbn. apply map_ok_app in Hm as (_ & _ & L1 & L2 & _). split.
    + intros [= ->]. apply elem_of_app. right. by left.
    + intros [Hv|[E|Hv]%elem_of_cons]%elem_of_app.
      * apply L1 in Hv. by apply clt_irrefl in Hv.
      * by injection E as ->.
      * apply L2 in Hv. by apply clt_irrefl in Hv.
Qed.

(** Maps with the same entries read the same. *)
Lemma get_ext m m' k : map_ok m -> map_ok m' -> (forall v, (k, v) ∈ m <-> (k, v) ∈ m') ->
  ListMap_get m k = ListMap_get m' k.
Proof.
  intros Hm Hm' E. apply option_eq. intros v. by rewrite !get_elem.
Qed.

Lemma put_ok m k v : map_ok m ->
  map_ok (ListMap_put m k v) /\ ListMap_get (ListMap_put m k v) k = Some v /\
  forall k', k' <> k -> ListMap_get (ListMap_put m k v) k' = ListMap_get m k'.
Proof.
  intros Hm.
  assert (exists m1 o m2, m = m1 ++ o ++ m2 /\ (o = [] \/ exists w, o = [(k, w)]) /\
    ListMap_put m k v = m1 ++ (k, v) :: m2 /\ map_ok (m1 ++ (k, v) :: m2))
    as (m1 & o & m2 & Em & Ho & Ep & Hp).
  { unfold ListMap_put. destruct (lookup_split m k Hm) as [[-> Hn]|(m1 & w & m2 & -> & ->)].
    - destruct (@add_split (K * T) assoc_comparator m (k, v)) as (a & b & E & -> & Ha & Hb).
      exists a, [], b. split_and!; [done|by left|done|].
      rewrite E in Hm. unfold map_ok in Hm. rewrite fmap_app, csorted_app in Hm.
      destruct Hm as (Sa & Sb & Sab).
      assert (forall p, p ∈ a -> clt p.1 k) as La.
      { intros [k' v'] Hp'. destruct (clt_cases k' k) as [?|[->|Hlt]]; [done| |].
        - exfalso. apply (Hn v'). rewrite E. apply elem_of_app. by left.
        - exfalso. by apply (Ha (k', v') Hp'). }
      assert (forall p, p ∈ b -> clt k p.1) as Lb.
      { intros p Hp'. destruct b as [|q b]; [by apply not_elem_of_nil in Hp'|].
        apply elem_of_cons in Hp' as [->|Hp']; [exact Hb|]. apply clt_trans with q.1; [exact Hb|].
        apply csorted_cons_inv in Sb as [_ Sb]. apply Sb. by apply list_elem_of_fmap_2. }
      apply map_ok_app. split_and!; [exact Sa|exact Sb|exact La|exact Lb|].
      intros p q Hp' Hq. apply Sab; by apply list_elem_of_fmap_2.
    - exists m1, [(k, w)], m2. split_and!; [done|right; by exists w| |].
      + rewrite length_app. cbn. replace (length m1 + S (length m2) - S (length m2))%nat with (length m1) by lia.
        by rewrite insert_app_r_alt, Nat.sub_diag by lia.
      + apply map_ok_app in Hm. by apply map_ok_app. }
  rewrite Ep. split_and!; [done| |].
  - apply get_elem; [done|]. apply elem_of_app. right. by left.
  - intros k' Hne. apply get_ext; [done|done|]. intros w. rewrite Em, !elem_of_app, elem_of_cons.
    assert ((k', w) ∉ o) as Hno.
    { destruct Ho as [->|[u ->]]; [apply not_elem_of_nil|]. rewrite list_elem_of_singleton. congruence. }
    assert ((k', w) <> (k, v)) by congruence. tauto.
Qed.

Lemma remove_split m1 k v m2 : map_ok (m1 ++ (k, v) :: m2) ->
  SortedList_remove (m1 ++ (k, v) :: m2) (k, v) = m1 ++ m2.
Proof.
  intros (_ & _ & L1 & _ & _)%map_ok_app. unfold SortedList_remove.
  assert (forall p, p ∈ m1 -> compare_equal p (k, v) = false) as Hne.
  { intros p Hp. apply Z.eqb_neq. apply L1 in Hp. unfold clt in Hp. cbn. unfold doCompare at 1.
    unfold assoc_comparator, AssocComparator. cbn. lia. }
  assert (compare_equal (k, v) (k, v) = true) as Heq.
  { apply Z.eqb_eq. unfold doCompare, assoc_comparator, AssocComparator. cbn. apply compare_refl. }
  destruct m1 as [|p m1]; cbn -[compare_equal]; [by rewrite Heq|].
  rewrite (Hne p) by (by left). f_equal.
  assert (forall q, q ∈ m1 -> compare_equal q (k, v) = false) as Hne'
    by (intros q Hq; apply Hne; by right).
  clear L1 Hne. induction m1 as [|q m1 IH]; cbn -[compare_equal]; [by rewrite Heq|].
  rewrite Hne' by (by left). f_equal. apply IH. intros r Hr. apply Hne'. by right.
Qed.

Lemma remove_ok m k : map_ok m ->
  map_ok (ListMap_remove m k) /\ ListMap_get (ListMap_remove m k) k = None /\
  forall k', k' <> k -> ListMap_get (ListMap_remove m k) k' = ListMap_get m k'.
Proof.
  intros Hm. unfold ListMap_remove.
  destruct (lookup_split m k Hm) as [[E Hn]|(m1 & v & m2 & -> & ->)].
  - rewrite E. split_and!; [done| |done]. unfold ListMap_get. by rewrite E.
  - rewrite remove_split by done. pose proof Hm as (S1 & S2 & L1 & L2 & L12)%map_ok_app.
    assert (map_ok (m1 ++ m2)) as Hr.
    { unfold map_ok. rewrite fmap_app. apply csorted_app. split_and!; [done|done|].
      intros x y (p & -> & Hp)%list_elem_of_fmap (q & -> & Hq)%list_elem_of_fmap. by apply L12. }
    split_and!; [done| |].
    + apply eq_None_not_Some. intros [w Hw]. apply get_elem in Hw; [|done].
      apply elem_of_app in Hw as [Hw|Hw]; [apply L1 in Hw|apply L2 in Hw]; by apply clt_irrefl in Hw.
    + intros k' Hne. apply get_ext; [done|done|]. intros w. rewrite !elem_of_app, elem_of_cons.
      assert ((k', w) <> (k, v)) by congruence. tauto.
Qed.
End MapSpec.

(** ** Properties *)

(** Adding to a sorted list keeps it sorted and adds exactly the new
    element, behind the elements equal to it. *)
Theorem SortedList_add_sorted {A} `{TotalOrder A} (l : list A) v :
  StronglySorted cle l ->
  StronglySorted cle (SortedList_add l v) /\ SortedList_add l v ≡ₚ v :: l /\
  exists a b, l = a ++ b /\ SortedList_add l v = a ++ v :: b /\ (forall y, y ∈ b -> clt v y).
Proof.
  intros Hs. destruct (add_split l v) as (a & b & -> & -> & Ha & Hb).
  assert (forall x y z : A, clt x y -> cle y z -> clt x z) as Htr.
  { intros x y z H1 H2. destruct (clt_cases y z) as [?|[->|?]]; [by apply clt_trans with y|done|done]. }
  apply StronglySorted_app in Hs as (Sab & Sa & Sb).
  assert (forall y, y ∈ b -> clt v y) as Lb.
  { intros y Hy. destruct b as [|z b]; [by apply not_elem_of_nil in Hy|].
    apply elem_of_cons in Hy as [->|Hy]; [done|]. apply StronglySorted_inv in Sb as [_ Sb].
    rewrite list.Forall_forall in Sb. apply Htr with z; [done|by apply Sb]. }
  split_and!.
  - apply StronglySorted_app. split_and!; [|done|].
    + intros x y Hx [->|Hy]%elem_of_cons; [by apply Ha|by apply Sab].
    + constructor; [done|]. apply list.Forall_forall. intros y Hy. by apply clt_asym, Lb.
  - symmetry. apply Permutation_middle.
  - by exists a, b.
Qed.

Lemma SortedList_add_sorted_witness :
  StronglySorted cle (SortedList_add [1; 3; 5] 4) /\ SortedList_add [1; 3; 5] 4 = [1; 3; 4; 5].
Proof.
  destruct (SortedList_add_sorted [1; 3; 5] 4) as [Hs _].
  - repeat constructor; unfold cle, clt; vm_compute; done.
  - split; [exact Hs|reflexivity].
Defined.

(** A set kept as a list stays strictly sorted by every operation, and the
    operations are those of sets: insertion, removal, membership, inclusion,
    and the in-place union, intersection and difference computed by walking
    the two lists together. *)
Theorem ListSet_is_set {A} `{TotalOrder A} (l k : list A) v :
  csorted l -> csorted k ->
  (csorted (ListSet_insert l v) /\ forall x, x ∈ ListSet_insert l v <-> x = v \/ x ∈ l) /\
  (csorted (SortedList_remove l v) /\ forall x, x ∈ SortedList_remove l v <-> x <> v /\ x ∈ l) /\
  (csorted (ListSet_join l k) /\ forall x, x ∈ ListSet_join l k <-> x ∈ l \/ x ∈ k) /\
  (csorted (ListSet_meet l k) /\ forall x, x ∈ ListSet_meet l k <-> x ∈ l /\ x ∈ k) /\
  (csorted (ListSet_diff l k) /\ forall x, x ∈ ListSet_diff l k <-> x ∈ l /\ x ∉ k) /\
  (SortedList_contains l v = true <-> v ∈ l) /\
  (ListSet_subsetOf l k = true <-> forall x, x ∈ l -> x ∈ k).
Proof.
  intros Sl Sk. split_and!.
  - by apply insert_sorted.
  - by apply insert_sorted.
  - by apply remove_sorted.
  - by apply remove_sorted.
  - apply join_sorted; [constructor|done|done|]. intros a b Ha. by apply not_elem_of_nil in Ha.
  - intros x. unfold ListSet_join. rewrite join_elem, elem_of_nil. tauto.
  - destruct (meet_sub l k []) as (j & E & Hj). unfold ListSet_meet. rewrite E.
    by apply csorted_sublist with l.
  - intros x. unfold ListSet_meet. rewrite meet_elem, elem_of_nil by done. tauto.
  - destruct (diff_sub l k []) as (j & E & Hj). unfold ListSet_diff. rewrite E.
    by apply csorted_sublist with l.
  - intros x. unfold ListSet_diff. rewrite diff_elem, elem_of_nil by done. tauto.
  - by apply contains_elem.
  - by apply subsetOf_spec.
Qed.

Lemma ListSet_is_set_witness :
  csorted (ListSet_join [1; 4; 6] [2; 4; 9]) /\ ListSet_join [1; 4; 6] [2; 4; 9] = [1; 2; 4; 6; 9].
Proof.
  destruct (ListSet_is_set [1; 4; 6] [2; 4; 9] 0) as (_ & _ & (Hj & _) & _).
  1,2: repeat constructor; vm_compute; done.
  split; [exact Hj|reflexivity].
Defined.

(** [C34] A map kept as a list sorted by keys: [put] and [remove] keep the keys
    strictly sorted, and [get] reads the last value put under the key and
    nothing after a removal, the other keys being unchanged. *)
Theorem ListMap_is_map {K T} `{TotalOrder K} (m : list (K * T)) k v :
  map_ok m ->
  (map_ok (ListMap_put m k v) /\ ListMap_get (ListMap_put m k v) k = Some v /\
   forall k', k' <> k -> ListMap_get (ListMap_put m k v) k' = ListMap_get m k') /\
  (map_ok (ListMap_remove m k) /\ ListMap_get (ListMap_remove m k) k = None /\
   forall k', k' <> k -> ListMap_get (ListMap_remove m k) k' = ListMap_get m k').
Proof. intros Hm. split; [by apply put_ok|by apply remove_ok]. Qed.

Lemma ListMap_is_map_witness :
  ListMap_get (ListMap_put [(1, 10); (3, 30)] 2 20) 2 = Some 20.
Proof.
  destruct (ListMap_is_map [(1, 10); (3, 30)] 2 20) as ((_ & E & _) & _).
  - repeat constructor; vm_compute; done.
  - exact E.
Defined.

(** *** What goes wrong *)

(** [addAll] on a sorted list puts the elements at the head. *)
Example SortedList_addAll_unsorted : SortedList_addAll [2; 4] [3; 1] = [1; 3; 2; 4].
Proof. reflexivity. Qed.
