(* ===== verification/Binomial.v ===== *)
(** * Binomial queues ([data/BinomialQueue.h])

    A priority queue as a list of heap-ordered binomial trees. A list of nodes linked
    by [next] is a list of trees, the children of a node are the list of its [child];
    the loops that change the links in place are written with the part of the list
    already passed ([pre]) and the part to come. [head] is not modelled: it calls the
    non-constant [min] on a constant queue, which no compiler accepts. *)

From stdpp Require Import list.
From S2P Require Import Prelude Compare.
#[local] Open Scope Z_scope.

Section Queue.
Context {T : Type} `{Comparator T}.

(* src/include/elm/data/BinomialQueue.h:34-43 BinomialQueue::Node *)
Inductive bnode := Node (x : T) (degree : Z) (child : list bnode).
Definition nd_x (n : bnode) : T := let 'Node x _ _ := n in x.
Definition nd_degree (n : bnode) : Z := let 'Node _ d _ := n in d.
Definition nd_child (n : bnode) : list bnode := let 'Node _ _ c := n in c.

(* src/include/elm/data/BinomialQueue.h:179-179 BinomialQueue *)
Record BinomialQueue := mkBQ { bq_head : list bnode; bq_min : option bnode }.
(* src/include/elm/data/BinomialQueue.h:45-46 BinomialQueue::BinomialQueue *)
Definition BinomialQueue_make : BinomialQueue := mkBQ [] None.
(* src/include/elm/data/BinomialQueue.h:48-48 BinomialQueue::isEmpty *)
Definition BinomialQueue_isEmpty (q : BinomialQueue) : bool :=
  match bq_head q, bq_min q with [], None => true | _, _ => false end.

(* src/include/elm/data/BinomialQueue.h:91-91 BinomialQueue::higher *)
Definition higher (x y : T) : bool := doCompare x y <=? 0.
(* src/include/elm/data/BinomialQueue.h:93-97 BinomialQueue::link *)
Definition bq_link (root child : bnode) : bnode :=
  let 'Node x d cs := root in Node x (u32 (d + 1)) (child :: cs).

(** The loop of [min]: the nodes before [n], [n], those between it and the next one
    to look at; at the end the list is cut around the node found, the last node of
    the first part being [prev]. *)
(* src/include/elm/data/BinomialQueue.h:102-110 BinomialQueue::min *)
Fixpoint min_loop (pre : list bnode) (n : bnode) (mid l : list bnode) : list bnode * bnode * list bnode :=
  match l with
  | [] => (pre, n, mid)
  | c :: l =>
      if higher (nd_x c) (nd_x n) then min_loop (pre ++ n :: mid) c [] l
      else min_loop pre n (mid ++ [c]) l
  end.
(* src/include/elm/data/BinomialQueue.h:99-112 BinomialQueue::min *)
Definition BinomialQueue_min (q : BinomialQueue) : outcome (list bnode * bnode * list bnode) :=
  match bq_head q with
  | [] => Crash AssertFailed
  | h :: l => Ret (min_loop [] h [] l)
  end.

(* src/include/elm/data/BinomialQueue.h:114-132 BinomialQueue::merge *)
Fixpoint merge (a : list bnode) : list bnode -> list bnode :=
  match a with
  | [] => fun b => b
  | x :: a' =>
      fix merge_b (b : list bnode) : list bnode :=
        match b with
        | [] => a
        | y :: b' => if nd_degree x <? nd_degree y then x :: merge a' b else y :: merge_b b'
        end
  end.

(** The nodes before [x], [x] and the nodes from [n = x->next] on. *)
(* src/include/elm/data/BinomialQueue.h:142-161 BinomialQueue::join *)
Fixpoint bq_join_loop (pre : list bnode) (x : bnode) (l : list bnode) : list bnode :=
  match l with
  | [] => pre ++ [x]
  | n :: l =>
      if negb (nd_degree x =? nd_degree n)
         || match l with m :: _ => nd_degree m =? nd_degree x | [] => false end
      then bq_join_loop (pre ++ [x]) n l
      else if higher (nd_x x) (nd_x n) then bq_join_loop pre (bq_link x n) l
      else bq_join_loop pre (bq_link n x) l
  end.
(* src/include/elm/data/BinomialQueue.h:134-163 BinomialQueue::join *)
Definition BinomialQueue_join (q : BinomialQueue) (h2 : list bnode) : BinomialQueue :=
  match h2, bq_head q with
  | [], _ => q
  | _, [] => mkBQ h2 (bq_min q)
  | _, h => match merge h h2 with
            | [] => mkBQ [] (bq_min q)
            | x :: l => mkBQ (bq_join_loop [] x l) (bq_min q)
            end
  end.

(* src/include/elm/data/BinomialQueue.h:168-175 BinomialQueue::reverse *)
Fixpoint reverse_loop (h : bnode) (l t : list bnode) : list bnode :=
  match l with [] => h :: t | n :: l => reverse_loop n l (h :: t) end.
(* src/include/elm/data/BinomialQueue.h:165-177 BinomialQueue::reverse *)
Definition BinomialQueue_reverse (h : list bnode) : list bnode :=
  match h with [] => [] | n :: l => reverse_loop n l [] end.

(* src/include/elm/data/BinomialQueue.h:56-67 BinomialQueue::get *)
Definition BinomialQueue_get (q : BinomialQueue) : outcome (T * BinomialQueue) :=
  m ← BinomialQueue_min q;
  let '(pre, n, post) := m in
  Ret (nd_x n, BinomialQueue_join (mkBQ (pre ++ post) (bq_min q)) (BinomialQueue_reverse (nd_child n))).
(* src/include/elm/data/BinomialQueue.h:69-83 BinomialQueue::put *)
Definition BinomialQueue_put (q : BinomialQueue) (x : T) : BinomialQueue :=
  let n := Node x 0 [] in
  match bq_min q with
  | Some m =>
      if higher x (nd_x m) then
        mkBQ (bq_head (BinomialQueue_join q [Node (nd_x m) 0 []])) (Some n)
      else BinomialQueue_join q [n]
  | None => BinomialQueue_join q [n]
  end.
End Queue.
Arguments bnode : clear implicits.
Arguments BinomialQueue : clear implicits.

(** ** Binomial trees *)

Section Trees.
Context {T : Type} `{TotalOrder T}.
Implicit Types (x y : T) (t : bnode T) (l : list (bnode T)).

Lemma higher_le x y : higher x y = true <-> cle x y.
Proof. apply Z.leb_le. Qed.
Lemma not_higher_le x y : higher x y = false -> cle y x.
Proof.
  unfold higher, cle. intros Hh%Z.leb_gt. apply clt_gt in Hh. unfold clt in Hh. lia.
Qed.

(** [binom d t]: a binomial tree of degree [d], whose children have the degrees from
    [d - 1] to 0 and are not before their parent. *)
Inductive binom : nat -> bnode T -> Prop :=
  | binom_node d x cs : children d x cs -> binom d (Node x (Z.of_nat d) cs)
with children : nat -> T -> list (bnode T) -> Prop :=
  | children_nil x : children 0 x []
  | children_cons d x c cs : binom d c -> cle x (nd_x c) -> children d x cs -> children (S d) x (c :: cs).

Lemma binom_degree d t : binom d t -> nd_degree t = Z.of_nat d.
Proof. by intros []. Qed.

(** The elements of a tree and of a list of trees. *)
Fixpoint elems (t : bnode T) : list T := let 'Node x _ cs := t in x :: concat (elems <$> cs).
Definition all_elems (l : list (bnode T)) : list T := concat (elems <$> l).

Lemma all_elems_app l k : all_elems (l ++ k) = all_elems l ++ all_elems k.
Proof. unfold all_elems. by rewrite fmap_app, concat_app. Qed.
Lemma all_elems_elem l y : y ∈ all_elems l <-> exists t, t ∈ l /\ y ∈ elems t.
Proof.
  unfold all_elems. rewrite list_elem_of_In, in_concat. split.
  - intros (ys & Hys & Hy). apply list_elem_of_In, list_elem_of_fmap in Hys as (t & -> & Ht).
    exists t. split; [done|by apply list_elem_of_In].
  - intros (t & Ht & Hy). exists (elems t). split; apply list_elem_of_In; [by apply list_elem_of_fmap_2|done].
Qed.
Lemma all_elems_cons t l : all_elems (t :: l) = elems t ++ all_elems l.
Proof. done. Qed.

Lemma children_binom d x cs : children d x cs ->
  forall c, c ∈ cs -> exists d', (d' < d)%nat /\ binom d' c /\ cle x (nd_x c).
Proof.
  induction 1 as [x|d x c cs Hc Hle Hcs IH]; [by intros c ?%elem_of_nil|].
  intros c' [->|Hin]%elem_of_cons; [exists d; split_and!; [lia|done|done]|].
  destruct (IH c' Hin) as (d' & Hd & Hb & Hl). exists d'. split_and!; [lia|done|done].
Qed.

(** The root is before all the elements, which are [2 ^ d]. *)
Lemma binom_min d t : binom d t -> forall y, y ∈ elems t -> cle (nd_x t) y.
Proof.
  revert t. induction (lt_wf d) as [d _ IH]. intros t Ht y Hy. destruct Ht as [d x cs Hcs]. cbn in *.
  apply elem_of_cons in Hy as [->|Hy]; [apply cle_refl|].
  apply all_elems_elem in Hy as (c & Hc & Hy).
  destruct (children_binom _ _ _ Hcs c Hc) as (d' & Hd & Hb & Hl).
  eapply cle_trans; [exact Hl|]. by eapply IH.
Qed.

Lemma children_size d x cs : children d x cs -> (forall d' t, (d' < d)%nat -> binom d' t -> zlen (elems t) = 2 ^ Z.of_nat d') ->
  zlen (all_elems cs) = 2 ^ Z.of_nat d - 1.
Proof.
  induction 1 as [x|d x c cs Hc Hle Hcs IH]; intros Hs; [done|].
  rewrite all_elems_cons, length_app, Nat2Z.inj_add, IH by (intros; apply Hs; [lia|done]).
  rewrite (Hs d c) by (done || lia). rewrite Nat2Z.inj_succ, Z.pow_succ_r by lia. lia.
Qed.
Lemma binom_size d t : binom d t -> zlen (elems t) = 2 ^ Z.of_nat d.
Proof.
  revert t. induction (lt_wf d) as [d _ IH]. intros t Ht. destruct Ht as [d x cs Hcs].
  pose proof (children_size d x cs Hcs ltac:(intros; by apply IH)) as E. unfold all_elems in E.
  cbn [elems length]. lia.
Qed.

Lemma binom_link d t u : binom d t -> binom d u -> cle (nd_x t) (nd_x u) -> Z.of_nat d + 1 < 2 ^ 32 ->
  binom (S d) (bq_link t u).
Proof.
  intros Ht Hu Hle Hd. destruct Ht as [d x cs Hcs]. cbn in *. unfold wrap.
  rewrite Z.mod_small by lia. replace (Z.of_nat d + 1) with (Z.of_nat (S d)) by lia. constructor. by constructor.
Qed.
Lemma elems_link t u : elems (bq_link t u) ≡ₚ elems t ++ elems u.
Proof.
  destruct t as [x d cs]. cbn. constructor. apply Permutation_app_comm.
Qed.

(** ** Lists of trees *)

(** A list of binomial trees of degrees at most [2 ^ 32 - 2], and their degrees. *)
Definition trees (l : list (bnode T)) (ds : list nat) : Prop := Forall2 binom ds l.

Lemma trees_app l k ds es : trees l ds -> trees k es -> trees (l ++ k) (ds ++ es).
Proof. apply Forall2_app. Qed.

(** At most two equal degrees. *)
Definition twice (ds : list nat) : Prop := forall d, (length (filter (eq d) ds) <= 2)%nat.
Lemma twice_tail d ds : twice (d :: ds) -> twice ds.
Proof.
  intros Hd e. specialize (Hd e). rewrite filter_cons in Hd. case_decide; cbn in Hd; lia.
Qed.

Abbreviation increasing := (StronglySorted lt).
Abbreviation ordered := (StronglySorted le).

(** Where the loop of [join] is: the last degree passed is less than the one of [x],
    or is the same and then [x] and the next one are about to be linked. *)
Definition join_ready (pre : list nat) (d : nat) (ds : list nat) : Prop :=
  (forall e, e ∈ pre -> (e < d)%nat) \/
  (exists ds', ds = d :: ds' /\ (forall e, e ∈ pre -> (e <= d)%nat) /\ forall e, e ∈ ds' -> (d < e)%nat).

Lemma increasing_snoc ds d : increasing ds -> (forall e, e ∈ ds -> (e < d)%nat) -> increasing (ds ++ [d]).
Proof.
  intros Hs Hd. apply StronglySorted_app. split_and!; [|done|by repeat constructor].
  intros x y Hx ->%list_elem_of_singleton. by apply Hd.
Qed.

Lemma ordered_cons_inv d ds : ordered (d :: ds) -> ordered ds /\ forall e, e ∈ ds -> (d <= e)%nat.
Proof. intros [Hs Hd]%StronglySorted_inv. split; [done|]. by apply list.Forall_forall. Qed.
Lemma ordered_cons d ds : ordered ds -> (forall e, e ∈ ds -> (d <= e)%nat) -> ordered (d :: ds).
Proof. intros Hs Hd. constructor; [done|]. by apply list.Forall_forall. Qed.

Lemma ready_advance dpre d dn ds : increasing dpre -> ordered (d :: dn :: ds) -> twice (dn :: ds) ->
  join_ready dpre d (dn :: ds) -> (d <> dn \/ exists ds', ds = d :: ds') ->
  increasing (dpre ++ [d]) /\ join_ready (dpre ++ [d]) dn ds.
Proof.
  intros Hinc [[Hord Hdn]%ordered_cons_inv Hd]%ordered_cons_inv Htw Hr Hc.
  assert (forall e, e ∈ dpre -> (e < d)%nat) as Hlt.
  { destruct Hr as [Hr|(ds' & [= -> <-] & _ & Hgt)]; [done|].
    destruct Hc as [?|(ds' & ->)]; [done|]. specialize (Hgt d ltac:(by left)). lia. }
  split; [by apply increasing_snoc|]. specialize (Hd dn ltac:(by left)).
  destruct (decide (d = dn)) as [<-|Hne].
  - right. destruct Hc as [?|(ds' & ->)]; [done|]. exists ds'. split_and!; [done| |].
    + intros e [He| ->%list_elem_of_singleton]%elem_of_app; [apply Hlt in He|]; lia.
    + intros e He. assert (d <= e)%nat by (apply Hdn; by right).
      destruct (decide (d = e)) as [<-|]; [|lia]. specialize (Htw d). rewrite !filter_cons_True in Htw by done.
      cbn in Htw. assert (d ∈ filter (eq d) ds') as Hf by by apply list_elem_of_filter.
      destruct (filter (eq d) ds'); [by apply elem_of_nil in Hf|cbn in Htw; lia].
  - left. intros e [He| ->%list_elem_of_singleton]%elem_of_app; [apply Hlt in He|]; lia.
Qed.

Lemma ready_link dpre d ds : ordered (d :: d :: ds) -> join_ready dpre d (d :: ds) -> (forall ds', ds <> d :: ds') ->
  ordered (S d :: ds) /\ join_ready dpre (S d) ds.
Proof.
  intros [[Hord Hd]%ordered_cons_inv _]%ordered_cons_inv Hr Hn.
  assert (forall e, e ∈ ds -> (d < e)%nat) as Hgt.
  { destruct ds as [|m ds]; [by intros e ?%elem_of_nil|]. specialize (Hn ds).
    pose proof (Hd m ltac:(by left)). assert (m <> d) by congruence. apply ordered_cons_inv in Hord as [_ Hm].
    intros e [->|He%Hm]%elem_of_cons; lia. }
  split; [by apply ordered_cons|]. left. intros e He.
  destruct Hr as [Hr|(ds' & _ & Hr & _)]; apply Hr in He; lia.
Qed.

(** Links keep the trees, and nothing is lost. *)
Lemma join_loop_ok l : forall ds pre dpre t d, trees pre dpre -> binom d t -> trees l ds ->
  increasing dpre -> ordered (d :: ds) -> twice ds -> join_ready dpre d ds ->
  (forall e, e ∈ d :: ds -> Z.of_nat e + zlen ds + 1 < 2 ^ 32) ->
  exists ds', trees (bq_join_loop pre t l) ds' /\ increasing ds' /\
    all_elems (bq_join_loop pre t l) ≡ₚ all_elems pre ++ elems t ++ all_elems l.
Proof.
  induction l as [|n l IH]; intros ds pre dpre t d Hpre Ht Hl Hinc Hord Htw Hr Hb; cbn [bq_join_loop].
  - apply Forall2_nil_inv_r in Hl as ->. exists (dpre ++ [d]). split; [apply trees_app; [done|by constructor]|].
    split; [|by rewrite all_elems_app, all_elems_cons].
    apply increasing_snoc; [done|]. by destruct Hr as [Hr|(ds' & ? & _)].
  - apply Forall2_cons_inv_r in Hl as (dn & ds0 & Hn & Hl & ->).
    pose proof (twice_tail _ _ Htw) as Htw'.
    assert (match l with m :: _ => nd_degree m =? nd_degree t | [] => false end = true <-> exists ds', ds0 = d :: ds') as Em.
    { rewrite (binom_degree d t Ht). destruct Hl as [|dm m ds' l' Hm _]; [split; [done|by intros [? ?]]|].
      rewrite (binom_degree dm m Hm), Z.eqb_eq. split; [intros ->%Nat2Z.inj; by exists ds'|].
      intros (ds'' & [= -> ->]). done. }
    rewrite (binom_degree d t Ht), (binom_degree dn n Hn) in *.
    destruct (negb (Z.of_nat d =? Z.of_nat dn) || _) eqn:Ea.
    + destruct (ready_advance dpre d dn ds0 Hinc Hord Htw Hr) as [Hinc' Hr'].
      { apply orb_true_iff in Ea as [Ea%negb_true_iff%Z.eqb_neq|Ea%Em]; [left; congruence|by right]. }
      destruct (IH ds0 (pre ++ [t]) (dpre ++ [d]) n dn) as (ds' & H1 & H2 & H3); try done.
      * apply trees_app; [done|by constructor].
      * by apply ordered_cons_inv in Hord as [Hord _].
      * intros e He. specialize (Hb e ltac:(by right)). cbn in Hb. lia.
      * exists ds'. split_and!; [done|done|]. rewrite H3, all_elems_app, all_elems_cons, <- !app_assoc. done.
    + apply orb_false_iff in Ea as [Ed%negb_false_iff%Z.eqb_eq%Nat2Z.inj Ea]. subst dn.
      destruct (ready_link dpre d ds0 Hord Hr) as [Hord' Hr'].
      { intros ds' ->. by rewrite (proj2 Em) in Ea by by exists ds'. }
      pose proof (Hb d ltac:(by left)) as Hbd. cbn [length] in Hbd.
      assert (forall u, binom (S d) u -> elems u ≡ₚ elems t ++ elems n ->
        exists ds', trees (bq_join_loop pre u l) ds' /\ increasing ds' /\
          all_elems (bq_join_loop pre u l) ≡ₚ all_elems pre ++ elems t ++ all_elems (n :: l)) as Hlink.
      { intros u Hu Eu. destruct (IH ds0 pre dpre u (S d)) as (ds' & H1 & H2 & H3); try done.
        - intros e [->|He]%elem_of_cons; [lia|]. specialize (Hb e ltac:(right; by right)). cbn in Hb. lia.
        - exists ds'. split_and!; [done|done|]. by rewrite H3, Eu, all_elems_cons, <- !app_assoc. }
      destruct (higher (nd_x t) (nd_x n)) eqn:Eh; apply Hlink.
      * apply binom_link; [done|done|by apply higher_le|lia].
      * apply elems_link.
      * apply binom_link; [done|done|by apply not_higher_le|lia].
      * rewrite elems_link. apply Permutation_app_comm.
Qed.

Lemma merge_cons t a u b : merge (t :: a) (u :: b) =
  if nd_degree t <? nd_degree u then t :: merge a (u :: b) else u :: merge (t :: a) b.
Proof. done. Qed.

(** Both lists being in increasing order, their merging is in order. *)
Lemma merge_ok a : forall da, trees a da -> increasing da -> forall b db, trees b db -> increasing db ->
  exists ds, trees (merge a b) ds /\ ordered ds /\ ds ≡ₚ da ++ db /\
    all_elems (merge a b) ≡ₚ all_elems a ++ all_elems b.
Proof.
  assert (forall ds, increasing ds -> ordered ds) as Hio.
  { intros ds Hs. induction Hs as [|d ds Hs IH Hd]; constructor; [done|]. eapply Forall_impl; [exact Hd|].
    intros e He. cbv beta in *. lia. }
  induction a as [|t a IHa]; intros da Ha Sa b db Hb Sb.
  { apply Forall2_nil_inv_r in Ha as ->. exists db. split_and!; [done|by apply Hio|done|done]. }
  apply Forall2_cons_inv_r in Ha as (d & da0 & Ht & Ha & ->).
  revert db Hb Sb. induction b as [|u b IHb]; intros db Hb Sb.
  { apply Forall2_nil_inv_r in Hb as ->. exists (d :: da0). split_and!;
      [by constructor|by apply Hio|by rewrite app_nil_r|by rewrite app_nil_r]. }
  apply Forall2_cons_inv_r in Hb as (e & db0 & Hu & Hb & ->). rewrite merge_cons,
    (binom_degree d t Ht), (binom_degree e u Hu).
  pose proof (StronglySorted_inv Sa) as [Sa' Fa]. pose proof (StronglySorted_inv Sb) as [Sb' Fb].
  rewrite list.Forall_forall in Fa. rewrite list.Forall_forall in Fb.
  destruct (Z.ltb_spec (Z.of_nat d) (Z.of_nat e)) as [Hlt|Hge].
  - destruct (IHa da0 Ha Sa' (u :: b) (e :: db0)) as (ds & H1 & H2 & H3 & H4); [by constructor|done|].
    exists (d :: ds). split_and!; [by constructor| |cbn; by constructor|by rewrite !(all_elems_cons t), H4, <- app_assoc].
    apply ordered_cons; [done|]. intros k. rewrite H3, elem_of_app, elem_of_cons.
    intros [Hk%Fa|[->|Hk%Fb]]; lia.
  - destruct (IHb db0 Hb Sb') as (ds & H1 & H2 & H3 & H4). exists (e :: ds).
    split_and!; [constructor; [exact Hu|exact H1]| | |].
    + apply ordered_cons; [done|]. intros k. rewrite H3, elem_of_app, elem_of_cons.
      intros [[->|Hk%Fa]|Hk%Fb]; lia.
    + rewrite H3. apply (Permutation_middle (d :: da0)).
    + rewrite !(all_elems_cons u), H4, !app_assoc. f_equiv. apply Permutation_app_comm.
Qed.

Lemma increasing_once ds d : increasing ds -> (length (filter (eq d) ds) <= 1)%nat.
Proof.
  induction 1 as [|e ds Hs IH Hd]; [cbn; lia|]. rewrite filter_cons. case_decide as E; [|done].
  subst e. rewrite filter_none; [cbn; lia|]. intros x Hx <-. rewrite list.Forall_forall in Hd.
  apply Hd in Hx. lia.
Qed.

Lemma trees_size l ds : trees l ds -> zlen ds <= zlen (all_elems l) /\
  forall d, d ∈ ds -> 2 ^ Z.of_nat d <= zlen (all_elems l).
Proof.
  induction 1 as [|d t ds l Ht Hl [IH1 IH2]]; [split; [done|by intros ? ?%elem_of_nil]|].
  rewrite all_elems_cons, length_app, Nat2Z.inj_add, (binom_size d t Ht).
  assert (0 < 2 ^ Z.of_nat d) by (apply Z.pow_pos_nonneg; lia). split; [cbn [length]; lia|].
  intros e [->|He%IH2]%elem_of_cons; lia.
Qed.

(** *** The queue *)

Definition bq_elements (q : BinomialQueue T) : list T := all_elems (bq_head q).
Definition bq_ok (q : BinomialQueue T) : Prop :=
  bq_min q = None /\ exists ds, trees (bq_head q) ds /\ increasing ds.

Lemma join_ok q h ds : bq_ok q -> trees h ds -> increasing ds -> zlen (bq_elements q ++ all_elems h) < 2 ^ 31 ->
  bq_ok (BinomialQueue_join q h) /\ bq_elements (BinomialQueue_join q h) ≡ₚ all_elems h ++ bq_elements q.
Proof.
  destruct q as [hd mn]. unfold bq_elements, BinomialQueue_join. intros (Em & dq & Hq & Sq) Hh Sh Hsz.
  cbn [bq_head bq_min] in *. destruct h as [|t h]; [split; [by split; [|exists dq]|done]|].
  destruct hd as [|u hd]; [split; [by split; [|exists ds]|by rewrite app_nil_r]|].
  destruct (merge_ok (u :: hd) dq Hq Sq (t :: h) ds Hh Sh) as (dm & H1 & H2 & H3 & H4).
  assert (exists v l, merge (u :: hd) (t :: h) = v :: l) as (v & l & El)
    by (rewrite merge_cons; destruct (_ <? _); by eexists _, _).
  rewrite El in *. apply Forall2_cons_inv_r in H1 as (d & dl & Hv & Hl & ->).
  assert (trees (v :: l) (d :: dl)) as Hvl by by constructor. apply trees_size in Hvl as [Hs1 Hs2].
  assert (zlen (all_elems (v :: l)) < 2 ^ 31) as Hsz' by by rewrite H4.
  destruct (join_loop_ok l dl [] [] v d) as (ds' & G1 & G2 & G3); [constructor|done|done|constructor|done| | | |].
  - apply twice_tail with d. intros e. rewrite H3, filter_app, length_app.
    pose proof (increasing_once dq e Sq). pose proof (increasing_once ds e Sh). lia.
  - left. by intros e ?%elem_of_nil.
  - intros e He%Hs2. assert (Z.of_nat e < 31) by (apply (Z.pow_lt_mono_r_iff 2); lia).
    cbn [length] in Hs1. lia.
  - split; [split; [exact Em|by exists ds']|]. cbn [bq_head]. rewrite G3. cbn. rewrite <- all_elems_cons, H4.
    apply Permutation_app_comm.
Qed.

Lemma reverse_loop_ok t l k : reverse_loop t l k = rev (t :: l) ++ k.
Proof.
  revert t k. induction l as [|n l IH]; intros h k; [done|]. cbn [reverse_loop]. rewrite IH.
  change (h :: n :: l) with ([h] ++ n :: l). by rewrite rev_app_distr, <- app_assoc.
Qed.
Lemma reverse_ok (h : list (bnode T)) : BinomialQueue_reverse h = rev h.
Proof. destruct h as [|n h]; [done|]. cbn [BinomialQueue_reverse]. by rewrite reverse_loop_ok, app_nil_r. Qed.

Lemma children_trees d x cs : children d x cs -> trees (rev cs) (seq 0 d).
Proof.
  induction 1 as [x|d x c cs Hc Hle Hcs IH]; [constructor|]. rewrite seq_S. cbn [rev plus].
  apply trees_app; [done|by constructor].
Qed.
Lemma seq_increasing n d : increasing (seq n d).
Proof.
  revert n. induction d as [|d IH]; intros n; cbn; constructor; [apply IH|].
  apply list.Forall_forall. intros e He%elem_of_seq. lia.
Qed.
Lemma all_elems_rev l : all_elems (rev l) ≡ₚ all_elems l.
Proof.
  induction l as [|t l IH]; [done|]. cbn [rev]. rewrite all_elems_app, IH, all_elems_cons.
  rewrite (Permutation_app_comm (all_elems l)). unfold all_elems at 1. cbn. by rewrite app_nil_r.
Qed.

(** The loop cuts the list around a root that is before the others. *)
Lemma min_loop_ok l : forall pre n mid, (forall t, t ∈ pre ++ mid -> cle (nd_x n) (nd_x t)) ->
  let '(pre', n', post') := min_loop pre n mid l in
  pre' ++ n' :: post' = pre ++ n :: mid ++ l /\ forall t, t ∈ pre' ++ post' -> cle (nd_x n') (nd_x t).
Proof.
  induction l as [|c l IH]; intros pre n mid Hn; cbn; [by rewrite app_nil_r|].
  destruct (higher (nd_x c) (nd_x n)) eqn:Eh.
  - apply higher_le in Eh. specialize (IH (pre ++ n :: mid) c []).
    destruct (min_loop _ _ _ _) as [[pre' n'] post']. destruct IH as [E Hm].
    + intros t. rewrite app_nil_r, elem_of_app, elem_of_cons. intros [Ht|[->|Ht]]; [|done|];
        (eapply cle_trans; [exact Eh|]; apply Hn, elem_of_app); tauto.
    + split; [|done]. rewrite E. cbn. by rewrite <- app_assoc.
  - apply not_higher_le in Eh. specialize (IH pre n (mid ++ [c])).
    destruct (min_loop _ _ _ _) as [[pre' n'] post']. destruct IH as [E Hm].
    + intros t. rewrite app_assoc, elem_of_app, list_elem_of_singleton. intros [Ht| ->]; [by apply Hn|done].
    + split; [|done]. by rewrite E, <- app_assoc.
Qed.

Lemma min_ok q : bq_ok q -> bq_head q <> [] -> exists pre n post d ds1 ds2,
  BinomialQueue_min q = Ret (pre, n, post) /\ bq_head q = pre ++ n :: post /\
  trees pre ds1 /\ binom d n /\ trees post ds2 /\ increasing (ds1 ++ d :: ds2) /\
  forall y, y ∈ bq_elements q -> cle (nd_x n) y.
Proof.
  intros (_ & ds & Ht & Hi) Hne. unfold BinomialQueue_min, bq_elements. destruct (bq_head q) as [|h l]; [done|].
  pose proof (min_loop_ok l [] h [] ltac:(by intros t ?%elem_of_nil)) as Hm.
  destruct (min_loop [] h [] l) as [[pre n] post]. cbn in Hm. destruct Hm as [E Hm]. rewrite <- E in *.
  apply Forall2_app_inv_r in Ht as (ds1 & ds' & H1 & H2 & ->). apply Forall2_cons_inv_r in H2 as (d & ds2 & Hn & H2 & ->).
  exists pre, n, post, d, ds1, ds2. split_and!; try done. intros y (t & Ht & Hy)%all_elems_elem.
  assert (exists e, binom e t) as (e & He).
  { apply elem_of_app in Ht as [Ht|[->|Ht]%elem_of_cons]; [|by exists d|];
      apply list_elem_of_lookup in Ht as (i & Ei);
      [destruct (Forall2_lookup_r _ _ _ _ _ H1 Ei) as (e & _ & He)|destruct (Forall2_lookup_r _ _ _ _ _ H2 Ei) as (e & _ & He)];
      by exists e. }
  apply cle_trans with (nd_x t); [|by eapply binom_min].
  apply elem_of_app in Ht as [Ht|[->|Ht]%elem_of_cons]; [|apply cle_refl|]; apply Hm, elem_of_app; tauto.
Qed.

Lemma bq_put_ok q x : bq_ok q -> zlen (bq_elements q) + 1 < 2 ^ 31 ->
  bq_ok (BinomialQueue_put q x) /\ bq_elements (BinomialQueue_put q x) ≡ₚ x :: bq_elements q.
Proof.
  intros Hq Hsz. unfold BinomialQueue_put. rewrite (proj1 Hq).
  apply (join_ok q [Node x 0 []] [0%nat]); [done| |by repeat constructor|].
  - constructor; [|constructor]. apply (binom_node 0). constructor.
  - rewrite length_app. cbn. lia.
Qed.

Lemma bq_get_ok q : bq_ok q -> zlen (bq_elements q) < 2 ^ 31 -> bq_head q <> [] ->
  exists x q', BinomialQueue_get q = Ret (x, q') /\ bq_ok q' /\
    bq_elements q ≡ₚ x :: bq_elements q' /\ forall y, y ∈ bq_elements q -> cle x y.
Proof.
  intros Hq Hsz Hne. destruct (min_ok q Hq Hne) as (pre & n & post & d & ds1 & ds2 & E & Eh & H1 & Hn & H2 & Hi & Hm).
  unfold BinomialQueue_get. rewrite E. mred. cbn [fst snd]. exists (nd_x n). eexists. split; [done|].
  rewrite reverse_ok. set (q1 := mkBQ (pre ++ post) (bq_min q)).
  assert (bq_ok q1) as Hq1.
  { split; [apply Hq|]. exists (ds1 ++ ds2). split; [by apply trees_app|].
    apply StronglySorted_app in Hi as (Hi & Hi1 & [Hi2 _]%StronglySorted_inv).
    apply StronglySorted_app. split_and!; [|done|done]. intros a b Ha Hb. apply Hi; [done|by right]. }
  assert (bq_elements q ≡ₚ nd_x n :: all_elems (nd_child n) ++ bq_elements q1) as Ee.
  { unfold bq_elements, q1. rewrite Eh. cbn [bq_head]. rewrite !all_elems_app, all_elems_cons.
    destruct n as [x dn cs]. cbn. rewrite <- Permutation_middle. constructor.
    rewrite !app_assoc. f_equiv. apply Permutation_app_comm. }
  destruct Hn as [d x cs Hcs]. cbn [nd_x nd_child] in *.
  destruct (join_ok q1 (rev cs) (seq 0 d) Hq1) as [Hok Hel].
  - by eapply children_trees.
  - apply seq_increasing.
  - rewrite Ee in Hsz. cbn [length] in Hsz. rewrite length_app in *. rewrite all_elems_rev. lia.
  - split; [done|]. split; [|done]. by rewrite Ee, Hel, all_elems_rev.
Qed.

(** A queue of [n] elements has at most [log2 (n + 1)] roots. *)
Lemma roots_bound l ds : trees l ds -> increasing ds -> forall b, (forall d, d ∈ ds -> (b <= d)%nat) ->
  2 ^ Z.of_nat b * (2 ^ zlen ds - 1) <= zlen (all_elems l).
Proof.
  induction 1 as [|d t ds l Ht Hl IH]; intros Hi b Hb; [cbn; lia|].
  apply StronglySorted_inv in Hi as [Hi Hd]. rewrite list.Forall_forall in Hd.
  specialize (IH Hi (S b)). specialize (Hb d ltac:(by left)).
  rewrite all_elems_cons, length_app, Nat2Z.inj_add, (binom_size d t Ht). cbn [length].
  rewrite Nat2Z.inj_succ, Z.pow_succ_r in * by lia.
  assert (2 ^ Z.of_nat b <= 2 ^ Z.of_nat d) by (apply Z.pow_le_mono_r; lia).
  assert (forall e, e ∈ ds -> (S b <= e)%nat) as Hb' by (intros e He%Hd; lia).
  specialize (IH Hb'). lia.
Qed.
End Trees.

(** ** Properties *)

(** Getting the elements until the queue is empty. *)
Fixpoint drain {T} `{Comparator T} (fuel : nat) (q : BinomialQueue T) : outcome (list T) :=
  match fuel with
  | O => Crash OutOfFuel
  | S fuel =>
      if BinomialQueue_isEmpty q then Ret []
      else m ← BinomialQueue_get q; l ← drain fuel m.2; Ret (m.1 :: l)
  end.

Lemma drain_S {T} `{Comparator T} fuel (q : BinomialQueue T) : drain (S fuel) q =
  if BinomialQueue_isEmpty q then Ret [] else m ← BinomialQueue_get q; l ← drain fuel m.2; Ret (m.1 :: l).
Proof. done. Qed.

Lemma elements_empty {T} `{TotalOrder T} (q : BinomialQueue T) : bq_ok q ->
  (BinomialQueue_isEmpty q = true <-> bq_elements q = []) /\ (bq_head q = [] <-> bq_elements q = []).
Proof.
  intros [Em _]. unfold BinomialQueue_isEmpty, bq_elements. rewrite Em.
  destruct (bq_head q) as [|[x d cs] l]; cbn; split; split; done.
Qed.

(** [C26] A binomial queue is a priority queue: it stays a list of heap-ordered binomial
    trees of increasing degrees; [put] adds its element; [isEmpty] tells if there is
    an element; [get] removes and returns a least one, and stops on its assertion
    when there is none; the number of roots is logarithmic.  A queue has fewer than
    2^31 elements. *)
Theorem BinomialQueue_refines_bag {T} `{TotalOrder T} (q : BinomialQueue T) x :
  bq_ok q -> zlen (bq_elements q) + 1 < 2 ^ 31 ->
  (bq_ok (BinomialQueue_put q x) /\ bq_elements (BinomialQueue_put q x) ≡ₚ x :: bq_elements q) /\
  (BinomialQueue_isEmpty q = true <-> bq_elements q = []) /\
  (bq_elements q = [] -> BinomialQueue_get q = Crash AssertFailed) /\
  (bq_elements q <> [] -> exists y q', BinomialQueue_get q = Ret (y, q') /\
     bq_ok q' /\ bq_elements q ≡ₚ y :: bq_elements q' /\ forall z, z ∈ bq_elements q -> cle y z) /\
  2 ^ zlen (bq_head q) <= zlen (bq_elements q) + 1.
Proof.
  intros Hq Hsz. destruct (elements_empty q Hq) as [E1 E2].
  split; [by apply bq_put_ok|]. split; [done|]. split; [|split].
  - intros E%E2. unfold BinomialQueue_get, BinomialQueue_min. by rewrite E.
  - intros Hne. apply bq_get_ok; [done|lia|by rewrite E2].
  - destruct Hq as (_ & ds & Ht & Hi). pose proof (roots_bound _ _ Ht Hi 0 ltac:(intros; lia)) as Hr.
    rewrite <- (Forall2_length _ _ _ Ht). unfold bq_elements. lia.
Qed.

Lemma BinomialQueue_refines_bag_witness : exists q',
  BinomialQueue_get (BinomialQueue_put (BinomialQueue_put (BinomialQueue_put BinomialQueue_make 5) 2) 9) = Ret (2, q') /\
  bq_elements q' ≡ₚ [9; 5].
Proof.
  assert (bq_ok (T := Z) BinomialQueue_make) as H0 by (split; [done|]; exists []; by repeat constructor).
  destruct (BinomialQueue_refines_bag BinomialQueue_make 5 H0 ltac:(done)) as ((H1 & _) & _).
  destruct (BinomialQueue_refines_bag _ 2 H1 ltac:(done)) as ((H2 & _) & _).
  destruct (BinomialQueue_refines_bag _ 9 H2 ltac:(done)) as ((H3 & _) & _).
  destruct (BinomialQueue_refines_bag _ 0 H3 ltac:(done)) as (_ & _ & _ & Hg & _).
  destruct Hg as (y & q' & E & _ & Hp & _); [done|]. vm_compute in E. injection E as <- <-.
  eexists. split; [vm_compute; reflexivity|]. apply (Permutation_cons_inv (a := 2)).
  rewrite <- Hp. apply Permutation_swap.
Defined.

(** Elements put in an empty queue and got until the queue is empty come out in
    order, none being lost nor added; a turn for each element and one more is enough. *)
Theorem BinomialQueue_sorts {T} `{TotalOrder T} (l : list T) : zlen l < 2 ^ 31 ->
  exists k, drain (S (length l)) (foldl BinomialQueue_put BinomialQueue_make l) = Ret k /\
    k ≡ₚ l /\ StronglySorted cle k.
Proof.
  intros Hl.
  assert (forall k q, bq_ok q -> zlen (bq_elements q) + zlen k < 2 ^ 31 ->
    bq_ok (foldl BinomialQueue_put q k) /\ bq_elements (foldl BinomialQueue_put q k) ≡ₚ k ++ bq_elements q) as Hput.
  { induction k as [|x k IH]; intros q Hq Hsz; [done|]. cbn [foldl length] in *.
    destruct (bq_put_ok q x Hq ltac:(lia)) as [Hq1 Hp]. destruct (IH _ Hq1) as [Hq2 Hp2]; [rewrite Hp; cbn [length]; lia|].
    split; [done|]. rewrite Hp2, Hp. cbn. symmetry. apply Permutation_middle. }
  assert (forall n q, bq_ok q -> zlen (bq_elements q) < 2 ^ 31 -> length (bq_elements q) = n ->
    exists k, drain (S n) q = Ret k /\ k ≡ₚ bq_elements q /\ StronglySorted cle k) as Hdrain.
  { induction n as [|n IH]; intros q Hq Hsz Hn; destruct (elements_empty q Hq) as [E1 E2]; rewrite drain_S.
    - apply nil_length_inv in Hn. rewrite (proj2 E1) by done. exists []. rewrite Hn. by repeat constructor.
    - assert (bq_elements q <> []) as Hne by by destruct (bq_elements q).
      destruct (BinomialQueue_isEmpty q) eqn:Ee; [by destruct Hne; apply E1|].
      destruct (bq_get_ok q Hq Hsz) as (x & q' & E & Hq' & Hp & Hm); [by rewrite E2|]. rewrite E. mred. cbn [fst snd].
      assert (length (bq_elements q') = n) as Hn' by (rewrite Hp in Hn; cbn in Hn; lia).
      destruct (IH q' Hq' ltac:(lia) Hn') as (k & Ek & Hk & Hs). rewrite Ek. mred. exists (x :: k).
      split; [done|]. split; [by rewrite Hp, Hk|]. constructor; [done|]. apply list.Forall_forall.
      intros y Hy. apply Hm. rewrite Hp. right. by rewrite <- Hk. }
  destruct (Hput l BinomialQueue_make) as [Hq Hp]; [split; [done|]; exists []; by repeat constructor|cbn; lia|].
  change (bq_elements BinomialQueue_make) with (@nil T) in Hp. rewrite app_nil_r in Hp.
  destruct (Hdrain (length l) _ Hq) as (k & Ek & Hk & Hs); [by rewrite Hp|by rewrite Hp|].
  exists k. split_and!; [done|by rewrite Hk|done].
Qed.

Lemma BinomialQueue_sorts_witness :
  drain 9 (foldl BinomialQueue_put BinomialQueue_make [24; 16; 9; 7; 25; 13; 5; 6]) = Ret [5; 6; 7; 9; 13; 16; 24; 25].
Proof.
  destruct (BinomialQueue_sorts [24; 16; 9; 7; 25; 13; 5; 6] ltac:(done)) as (k & E & _).
  cbn [length] in E. rewrite E. vm_compute in E. by rewrite E.
Defined.
