(* ===== verification/Avl.v ===== *)
(** * AVL trees ([src/avl_GenTree.cpp], [include/elm/avl/GenTree.h], [Set.h], [Map.h])

    A tree is a term; the stack of (node, direction) pairs that the code keeps
    from the root to the current link is the list of the nodes above this link,
    each with the subtree on its other side.  Writing [*link(s)] plugs a subtree
    at the bottom of the stack.  The stack holds at most [MAX_HEIGHT] entries:
    pushing one more stops on the assertion of [StaticStack]. *)

From S2P Require Import Prelude Compare.

(* src/include/elm/avl/GenTree.h:44-44 AbstractTree::MAX_HEIGHT *)
Definition MAX_HEIGHT : Z := 32.

(** [Node left data bal right]. *)
(* src/include/elm/avl/GenTree.h:54-59 AbstractTree::Node *)
Inductive avl_tree (T : Type) := ALeaf | ANode (l : avl_tree T) (x : T) (b : Z) (r : avl_tree T).
Arguments ALeaf {T}.
Arguments ANode {T} _ _ _ _.

(** An entry of the stack: a node and the direction taken, with the other child. *)
(* src/include/elm/avl/GenTree.h:46-50 AbstractTree::dir_t *)
Inductive avl_frame (T : Type) :=
  | FLeft (x : T) (b : Z) (r : avl_tree T)       (* gone LEFT *)
  | FRight (l : avl_tree T) (x : T) (b : Z).     (* gone RIGHT *)
Arguments FLeft {T} _ _ _.
Arguments FRight {T} _ _ _.

(* src/include/elm/avl/GenTree.h:78-79 AbstractTree *)
Record GenTree (T : Type) := mkTree { gt_root : avl_tree T; gt_cnt : Z }.
Arguments mkTree {T} _ _.
Arguments gt_root {T} _.
Arguments gt_cnt {T} _.

Section Abstract.
Context {T : Type}.
Implicit Types (t : avl_tree T) (s : list (avl_frame T)).

(* src/include/elm/avl/GenTree.h:64-65 AbstractTree::Stack::push *)
Definition Stack_push s (f : avl_frame T) : outcome (list (avl_frame T)) :=
  assertP (negb (zlen s =? MAX_HEIGHT)) ;; Ret (f :: s).

Definition fill_frame (f : avl_frame T) t : avl_tree T :=
  match f with FLeft x b r => ANode t x b r | FRight l x b => ANode l x b t end.
(** [*link(s) = t], and the tree from its root. *)
(* src/src/avl_GenTree.cpp:180-187 AbstractTree::link *)
Definition link s t : avl_tree T := foldl (fun t f => fill_frame f t) t s.

(* src/src/avl_GenTree.cpp:213-227 AbstractTree::rotateRight *)
Definition rotateRight t : outcome (avl_tree T) :=
  match t with
  | ANode (ANode ll nx nb lr) x b r =>
      let rb := b + 1 - Z.min nb 0 in
      let nrb := nb + 1 + Z.max rb 0 in
      Ret (ANode ll nx nrb (ANode lr x rb r))
  | _ => Crash OutOfBounds
  end.

(* src/src/avl_GenTree.cpp:234-248 AbstractTree::rotateLeft *)
Definition rotateLeft t : outcome (avl_tree T) :=
  match t with
  | ANode l x b (ANode rl nx nb rr) =>
      let rb := b - 1 - Z.max nb 0 in
      let nrb := nb - 1 + Z.min rb 0 in
      Ret (ANode (ANode l x rb rl) nx nrb rr)
  | _ => Crash OutOfBounds
  end.

(** [n->_bal] through a pointer that may be null. *)
Definition bal t : outcome Z := match t with ANode _ _ b _ => Ret b | ALeaf => Crash OutOfBounds end.

(** The loop of [insert]: [t] has just been linked at the bottom of [s]. *)
(* src/src/avl_GenTree.cpp:269-308 AbstractTree::insert *)
Fixpoint insert_loop s t : outcome (avl_tree T) :=
  match s with
  | [] => Ret t
  | f :: s' =>
      let '(l, x, b, r) := match f with
        | FLeft x b r => (t, x, b - 1, r) | FRight l x b => (l, x, b + 1, t) end in
      let n := ANode l x b r in
      if b =? 0 then Ret (link s' n)
      else if b <? -1 then
        lb ← bal l;
        l ← (if 0 <? lb then Stack_push s f ;; rotateLeft l else Ret l);
        n ← rotateRight (ANode l x b r);
        Ret (link s' n)
      else if 1 <? b then
        rb ← bal r;
        r ← (if rb <? 0 then Stack_push s f ;; rotateRight r else Ret r);
        n ← rotateLeft (ANode l x b r);
        Ret (link s' n)
      else insert_loop s' n
  end.

(* src/src/avl_GenTree.cpp:256-267 AbstractTree::insert *)
Definition AbstractTree_insert (tree : GenTree T) s (x : T) : outcome (GenTree T) :=
  let node := ANode ALeaf x 0 ALeaf in
  match gt_root tree with
  | ALeaf => Ret (mkTree node (gt_cnt tree + 1))
  | _ => t ← insert_loop s node; Ret (mkTree t (gt_cnt tree + 1))
  end.

(** The loop of [remove]: the subtree at the bottom of [s], now [t], is one
    level lower than it was. *)
(* src/src/avl_GenTree.cpp:324-431 AbstractTree::remove *)
Fixpoint remove_loop s t : outcome (avl_tree T) :=
  match s with
  | [] => Ret t
  | FLeft x b r :: s' =>
      let b := b + 1 in
      let p := ANode t x b r in
      if b =? 0 then remove_loop s' p
      else if b =? 1 then Ret (link s' p)
      else
        rb ← bal r;
        if rb =? 0 then p ← rotateLeft p; Ret (link s' p)
        else if rb =? 1 then p ← rotateLeft p; remove_loop s' p
        else
          Stack_push s (FRight t x b) ;;
          r ← rotateRight r;
          p ← rotateLeft (ANode t x b r); remove_loop s' p
  | FRight l x b :: s' =>
      let b := b - 1 in
      let p := ANode l x b t in
      if b =? 0 then remove_loop s' p
      else if b =? -1 then Ret (link s' p)
      else
        lb ← bal l;
        if lb =? 0 then p ← rotateRight p; Ret (link s' p)
        else if lb =? -1 then p ← rotateRight p; remove_loop s' p
        else
          Stack_push s (FLeft x b t) ;;
          l ← rotateLeft l;
          p ← rotateRight (ANode l x b t); remove_loop s' p
  end.

(* src/src/avl_GenTree.cpp:318-322 AbstractTree::remove *)
Definition AbstractTree_remove (tree : GenTree T) s t : outcome (GenTree T) :=
  t ← remove_loop s t; Ret (mkTree t (gt_cnt tree - 1)).

(* src/src/avl_GenTree.cpp:443-449 AbstractTree::leftMost *)
Fixpoint leftMost s t : outcome (list (avl_frame T) * avl_tree T) :=
  match t with
  | ANode (ANode _ _ _ _ as l) x b r => s ← Stack_push s (FLeft x b r); leftMost s l
  | _ => Ret (s, t)
  end.

(** The data of a node that is on the stack, [k] entries above its base. *)
(* src/include/elm/avl/GenTree.h:333-337 GenTree::exchange *)
Definition exchange s (k : nat) (x : T) : list (avl_frame T) :=
  alter (fun f => match f with FLeft _ b r => FLeft x b r | FRight l _ b => FRight l x b end) k s.

(** The node to remove is at the bottom of [s], with data [x], balance [b] and
    children [l] and [r]. *)
(* src/include/elm/avl/GenTree.h:280-297 GenTree::remove *)
Definition GenTree_removeNode (tree : GenTree T) s (l : avl_tree T) (x : T) (b : Z) (r : avl_tree T)
    : outcome (GenTree T) :=
  match l, r with
  | ALeaf, _ => AbstractTree_remove tree s r
  | _, ALeaf => AbstractTree_remove tree s l
  | _, _ =>
      s1 ← Stack_push s (FRight l x b);
      m ← leftMost s1 r;
      match m.2 with
      | ANode _ px _ pr =>
          AbstractTree_remove tree (exchange m.1 (length m.1 - length s1) px) pr
      | ALeaf => Crash OutOfBounds
      end
  end.
End Abstract.

Section GenTree.
Context {T K : Type} `{Comparator K} (key : T -> K).

(* src/include/elm/avl/GenTree.h:302-318 GenTree::lookup *)
Fixpoint GenTree_lookup (s : list (avl_frame T)) (p : avl_tree T) (k : K)
    : outcome (list (avl_frame T) * avl_tree T) :=
  match p with
  | ALeaf => Ret (s, ALeaf)
  | ANode l x b r =>
      let cmp := doCompare k (key x) in
      if cmp =? 0 then Ret (s, p)
      else if cmp <? 0 then s ← Stack_push s (FLeft x b r); GenTree_lookup s l k
      else s ← Stack_push s (FRight l x b); GenTree_lookup s r k
  end.

(* src/include/elm/avl/GenTree.h:320-331 GenTree::find *)
Fixpoint GenTree_find (p : avl_tree T) (k : K) : option T :=
  match p with
  | ALeaf => None
  | ANode l x b r =>
      let cmp := doCompare k (key x) in
      if cmp <? 0 then GenTree_find l k else if 0 <? cmp then GenTree_find r k else Some x
  end.

(* src/include/elm/avl/GenTree.h:133-133 GenTree::GenTree *)
Definition GenTree_make : GenTree T := mkTree ALeaf 0.
(* src/include/elm/avl/GenTree.h:141-144 GenTree::get *)
Definition GenTree_get (tree : GenTree T) (k : K) : option T := GenTree_find (gt_root tree) k.
(* src/include/elm/avl/GenTree.h:157-163 GenTree::contains *)
Definition GenTree_contains (tree : GenTree T) (k : K) : bool :=
  match GenTree_find (gt_root tree) k with Some _ => true | None => false end.
(* src/include/elm/avl/GenTree.h:222-227 GenTree::add *)
Definition GenTree_add (tree : GenTree T) (item : T) : outcome (GenTree T) :=
  m ← GenTree_lookup [] (gt_root tree) (key item);
  match m.2 with ALeaf => AbstractTree_insert tree m.1 item | _ => Ret tree end.
(* src/include/elm/avl/GenTree.h:145-146 GenTree::set *)
Definition GenTree_set : GenTree T -> T -> outcome (GenTree T) := GenTree_add.
(* src/include/elm/avl/GenTree.h:148-154 GenTree::removeByKey *)
Definition GenTree_removeByKey (tree : GenTree T) (k : K) : outcome (GenTree T) :=
  m ← GenTree_lookup [] (gt_root tree) k;
  match m.2 with
  | ALeaf => Ret tree
  | ANode l x b r => GenTree_removeNode tree m.1 l x b r
  end.
(* src/include/elm/avl/GenTree.h:232-232 GenTree::remove *)
Definition GenTree_remove (tree : GenTree T) (x : T) : outcome (GenTree T) :=
  GenTree_removeByKey tree (key x).
(* src/include/elm/avl/GenTree.h:229-230 GenTree::addAll *)
Fixpoint GenTree_addAll (tree : GenTree T) (c : list T) : outcome (GenTree T) :=
  match c with [] => Ret tree | x :: c => tree ← GenTree_add tree x; GenTree_addAll tree c end.
(* src/include/elm/avl/GenTree.h:234-235 GenTree::removeAll *)
Fixpoint GenTree_removeAll (tree : GenTree T) (c : list T) : outcome (GenTree T) :=
  match c with [] => Ret tree | x :: c => tree ← GenTree_remove tree x; GenTree_removeAll tree c end.
(* src/include/elm/avl/GenTree.h:206-220 GenTree::clear *)
Definition GenTree_clear (tree : GenTree T) : GenTree T := mkTree ALeaf 0.
(* src/include/elm/avl/GenTree.h:159-161 GenTree::containsAll *)
Definition GenTree_containsAll (tree : GenTree T) (c : list K) : bool :=
  forallb (GenTree_contains tree) c.
End GenTree.

(** *** Iterator: a stack of nodes, each with its path from the root (a node is
    identified by its path: [true] for left, the last step first). *)

Section Iter.
Context {T : Type}.
Implicit Types (t : avl_tree T).

(* src/include/elm/avl/GenTree.h:119-122 GenTree::VisitStack *)
Definition VisitStack : Type := list (list bool * avl_tree T).
Definition VisitStack_push (s : VisitStack) e : outcome VisitStack :=
  assertP (negb (zlen s =? MAX_HEIGHT)) ;; Ret (e :: s).

(* src/include/elm/avl/GenTree.h:184-189 GenTree::Iter::visit *)
Fixpoint Iter_visit (s : VisitStack) (p : list bool) t : outcome VisitStack :=
  match t with
  | ALeaf => Ret s
  | ANode l _ _ _ =>
      s ← VisitStack_push s (p, t);
      match l with ALeaf => VisitStack_push s (p, t) | _ => Iter_visit s (true :: p) l end
  end.

(* src/include/elm/avl/GenTree.h:168-169 GenTree::Iter::Iter *)
Definition Iter_make (tree : GenTree T) : outcome VisitStack := Iter_visit [] [] (gt_root tree).

(* src/include/elm/avl/GenTree.h:170-170 GenTree::Iter::ended *)
Definition Iter_ended (s : VisitStack) : bool := match s with [] => true | _ => false end.

(* src/include/elm/avl/GenTree.h:179-179 GenTree::Iter::item *)
Definition Iter_item (s : VisitStack) : outcome T :=
  match s with (_, ANode _ x _ _) :: _ => Ret x | _ => Crash AssertFailed end.

(* src/include/elm/avl/GenTree.h:171-178 GenTree::Iter::next *)
Definition Iter_next_step (s : VisitStack) : outcome (VisitStack + VisitStack) :=
  match s with
  | [] => Crash AssertFailed
  | last :: s =>
      match s with
      | [] => Ret (inr [])
      | (p, t) :: _ =>
          if decide (last.1 = true :: p) then s ← VisitStack_push s (p, t); Ret (inr s)
          else match t with
               | ANode _ _ _ (ANode _ _ _ _ as r) =>
                   if decide (last.1 = p) then s ← Iter_visit s (false :: p) r; Ret (inr s)
                   else Ret (inl s)
               | _ => Ret (inl s)
               end
      end
  end.
Definition Iter_next (s : VisitStack) : outcome VisitStack := iter (S (length s)) Iter_next_step s.

(** The range-based [for] loops: the items that the iterator gives. *)
Fixpoint Iter_items (fuel : nat) (s : VisitStack) : outcome (list T) :=
  if Iter_ended s then Ret [] else
  match fuel with
  | O => Crash OutOfFuel
  | S fuel => x ← Iter_item s; s ← Iter_next s; xs ← Iter_items fuel s; Ret (x :: xs)
  end.
Definition GenTree_items (tree : GenTree T) : outcome (list T) :=
  s ← Iter_make tree; Iter_items (Z.to_nat (gt_cnt tree)) s.
End Iter.

(** ** Sets ([Set.h]): trees of their own keys *)

Section AvlSet.
Context {T : Type} `{Comparator T}.

(** The loop of [subsetOf], on the items left to the two iterators. *)
(* src/include/elm/avl/Set.h:44-51 Set::subsetOf *)
Fixpoint AvlSet_subset_loop (i j : list T) : bool :=
  match i, j with
  | x :: i', y :: j' =>
      let c := doCompare x y in
      if c =? 0 then AvlSet_subset_loop i' j'
      else if c <? 0 then false else AvlSet_subset_loop i j'
  | [], _ => true
  | _, [] => false
  end.
(* src/include/elm/avl/Set.h:43-52 Set::subsetOf *)
Definition AvlSet_subsetOf (a b : GenTree T) : outcome bool :=
  i ← GenTree_items a; j ← GenTree_items b; Ret (AvlSet_subset_loop i j).
(** The loop of [GenTree::equals], on the items left. *)
(* src/include/elm/avl/GenTree.h:195-201 GenTree::equals *)
Fixpoint AvlSet_equals_loop (i j : list T) : bool :=
  match i, j with
  | x :: i, y :: j => if doCompare x y =? 0 then AvlSet_equals_loop i j else false
  | [], [] => true
  | _, _ => false
  end.
(* src/include/elm/avl/GenTree.h:195-202 GenTree::equals *)
Definition AvlSet_equals (a b : GenTree T) : outcome bool :=
  i ← GenTree_items a; j ← GenTree_items b; Ret (AvlSet_equals_loop i j).
(* src/include/elm/avl/Set.h:54-54 Set::join *)
Definition AvlSet_join (a b : GenTree T) : outcome (GenTree T) :=
  xs ← GenTree_items b; GenTree_addAll id a xs.
(* src/include/elm/avl/Set.h:55-55 Set::diff *)
Definition AvlSet_diff (a b : GenTree T) : outcome (GenTree T) :=
  xs ← GenTree_items b; GenTree_removeAll id a xs.
(* src/include/elm/avl/Set.h:56-60 Set::meet *)
Definition AvlSet_meet (a b : GenTree T) : outcome (GenTree T) :=
  xs ← GenTree_items a;
  GenTree_addAll id GenTree_make (filter (fun x => GenTree_contains id b x = true) xs).
End AvlSet.

(** ** Maps ([Map.h]): trees of pairs, by their first component *)

Section AvlMap.
Context {K V : Type} `{Comparator K}.
(* src/include/elm/avl/Map.h:75-76 Map::get *)
Definition AvlMap_get (m : GenTree (K * V)) (k : K) : option V := snd <$> GenTree_get fst m k.
(* src/include/elm/avl/Map.h:77-78 Map::get *)
Definition AvlMap_get_default (m : GenTree (K * V)) (k : K) (d : V) : V := default d (AvlMap_get m k).
(* src/include/elm/avl/Map.h:79-80 Map::hasKey *)
Definition AvlMap_hasKey (m : GenTree (K * V)) (k : K) : bool := GenTree_contains fst m k.
(* src/include/elm/avl/Map.h:105-105 Map::put *)
Definition AvlMap_put (m : GenTree (K * V)) (k : K) (v : V) : outcome (GenTree (K * V)) :=
  GenTree_set fst m (k, v).
(* src/include/elm/avl/Map.h:106-106 Map::remove *)
Definition AvlMap_remove (m : GenTree (K * V)) (k : K) : outcome (GenTree (K * V)) :=
  GenTree_removeByKey fst m k.
End AvlMap.

(** ** Shape: balance factors and heights *)

Section Shape.
Context {T : Type}.
Implicit Types (t : avl_tree T) (s : list (avl_frame T)).

Fixpoint height t : Z :=
  match t with ALeaf => 0 | ANode l _ _ r => 1 + Z.max (height l) (height r) end.

Fixpoint avl t : Prop :=
  match t with
  | ALeaf => True
  | ANode l _ b r => avl l /\ avl r /\ b = height r - height l /\ -1 <= b <= 1
  end.

(** The elements in order. *)
Fixpoint elements t : list T :=
  match t with ALeaf => [] | ANode l x _ r => elements l ++ x :: elements r end.

(** The elements on the left and on the right of the bottom of a stack. *)
Fixpoint before s : list T :=
  match s with
  | [] => []
  | FLeft _ _ _ :: s => before s
  | FRight l x _ :: s => before s ++ elements l ++ [x]
  end.
Fixpoint after s : list T :=
  match s with
  | [] => []
  | FLeft x _ r :: s => x :: elements r ++ after s
  | FRight _ _ _ :: s => after s
  end.

(** The nodes of the stack are those of an AVL tree whose subtree at the bottom
    has height [h], and the whole fits in [MAX_HEIGHT] levels. *)
Fixpoint ctx_ok s (h : Z) : Prop :=
  match s with
  | [] => h <= MAX_HEIGHT
  | FLeft _ b r :: s' => zlen s + h <= MAX_HEIGHT /\ avl r /\ b = height r - h /\ -1 <= b <= 1 /\
                           ctx_ok s' (1 + Z.max h (height r))
  | FRight l _ b :: s' => zlen s + h <= MAX_HEIGHT /\ avl l /\ b = h - height l /\ -1 <= b <= 1 /\
                           ctx_ok s' (1 + Z.max (height l) h)
  end.

Lemma height_nonneg t : 0 <= height t.
Proof. induction t; cbn; lia. Qed.

Lemma elements_link s t : elements (link s t) = before s ++ elements t ++ after s.
Proof.
  revert t. induction s as [|[x b r|l x b] s IH]; intros t; cbn.
  - by rewrite app_nil_r.
  - unfold link in IH. rewrite IH. cbn. by rewrite <- !app_assoc.
  - unfold link in IH. rewrite IH. cbn. by rewrite <- !app_assoc.
Qed.

Lemma link_avl s t : avl t -> ctx_ok s (height t) -> avl (link s t).
Proof.
  revert t. induction s as [|[x b r|l x b] s IH]; intros t Ht; [done| |]; cbn [ctx_ok].
  - intros (_ & Hr & Eb & Hb & Hs). apply IH; [cbn; split_and!; done || lia|done].
  - intros (_ & Hl & Eb & Hb & Hs). apply IH; [cbn; split_and!; done || lia|done].
Qed.

Lemma avl_push_ok s f : zlen s < MAX_HEIGHT -> Stack_push s f = Ret (f :: s).
Proof. intros Hs. unfold Stack_push. rewrite (proj2 (Z.eqb_neq _ _)) by lia. done. Qed.

(** Rotations do not move the elements. *)
Lemma rotateRight_elements t t' : rotateRight t = Ret t' -> elements t' = elements t.
Proof.
  destruct t as [|[|ll nx nb lr] x b r]; cbn; try done. intros [= <-]. cbn.
  by rewrite <- app_assoc.
Qed.
Lemma rotateLeft_elements t t' : rotateLeft t = Ret t' -> elements t' = elements t.
Proof.
  destruct t as [|l x b [|rl nx nb rr]]; cbn; try done. intros [= <-]. cbn.
  by rewrite <- app_assoc.
Qed.

(** A node two levels too high on its left is fixed by a right rotation, after a
    left rotation of its left child when this child is higher on its right. *)
Lemma fixLeft_ok l x r : avl l -> avl r -> height l = height r + 2 ->
  exists lb t, bal l = Ret lb /\ -1 <= lb <= 1 /\
    (if 0 <? lb then exists l', rotateLeft l = Ret l' /\ rotateRight (ANode l' x (-2) r) = Ret t
     else rotateRight (ANode l x (-2) r) = Ret t) /\
    avl t /\ elements t = elements l ++ x :: elements r /\
    height t = height r + (if lb =? 0 then 3 else 2).
Proof.
  intros Hl Hr Hh. pose proof (height_nonneg r). destruct l as [|a y lb [|c z d e]]; [cbn in Hh; lia|..];
    cbn [avl height] in Hl, Hh; pose proof (height_nonneg a).
  - destruct Hl as (Ha & _ & E & B). eexists lb, _. rewrite (proj2 (Z.ltb_ge 0 lb)) by lia.
    split; [done|]. split; [lia|]. split; [done|].
    cbn [rotateRight rotateLeft bal avl elements height app]. split_and!; try done; [lia..|by app_norm|].
    destruct (Z.eqb_spec lb 0); lia.
  - destruct Hl as (Ha & (Hc & He & Ed & Bd) & E & B).
    pose proof (height_nonneg c). pose proof (height_nonneg e). exists lb.
    destruct (Z.ltb_spec 0 lb).
    + eexists. split; [done|]. split; [lia|]. split; [by eexists|].
      rewrite (proj2 (Z.eqb_neq lb 0)) by lia. cbn.
      assert (d = -1 \/ d = 0 \/ d = 1) as D by lia.
      destruct D as [->|[->| ->]]; cbn [rotateRight rotateLeft bal avl elements height app];
        split_and!; try done; try lia; by app_norm.
    + eexists. split; [done|]. split; [lia|]. split; [done|].
      cbn [rotateRight rotateLeft bal avl elements height app]. split_and!; try done; [lia..|by app_norm|].
      destruct (Z.eqb_spec lb 0); lia.
Qed.
Lemma fixRight_ok l x r : avl l -> avl r -> height r = height l + 2 ->
  exists rb t, bal r = Ret rb /\ -1 <= rb <= 1 /\
    (if rb <? 0 then exists r', rotateRight r = Ret r' /\ rotateLeft (ANode l x 2 r') = Ret t
     else rotateLeft (ANode l x 2 r) = Ret t) /\
    avl t /\ elements t = elements l ++ x :: elements r /\
    height t = height l + (if rb =? 0 then 3 else 2).
Proof.
  intros Hl Hr Hh. pose proof (height_nonneg l). destruct r as [|[|c z d e] y rb a]; [cbn in Hh; lia|..];
    cbn [avl height] in Hr, Hh; pose proof (height_nonneg a).
  - destruct Hr as (_ & Ha & E & B). eexists rb, _. rewrite (proj2 (Z.ltb_ge rb 0)) by lia.
    split; [done|]. split; [lia|]. split; [done|].
    cbn [rotateRight rotateLeft bal avl elements height app]. split_and!; try done; [lia..|by app_norm|].
    destruct (Z.eqb_spec rb 0); lia.
  - destruct Hr as ((Hc & He & Ed & Bd) & Ha & E & B).
    pose proof (height_nonneg c). pose proof (height_nonneg e). exists rb.
    destruct (Z.ltb_spec rb 0).
    + eexists. split; [done|]. split; [lia|]. split; [by eexists|].
      rewrite (proj2 (Z.eqb_neq rb 0)) by lia. cbn.
      assert (d = -1 \/ d = 0 \/ d = 1) as D by lia.
      destruct D as [->|[->| ->]]; cbn [rotateRight rotateLeft bal avl elements height app];
        split_and!; try done; try lia; by app_norm.
    + eexists. split; [done|]. split; [lia|]. split; [done|].
      cbn [rotateRight rotateLeft bal avl elements height app]. split_and!; try done; [lia..|by app_norm|].
      destruct (Z.eqb_spec rb 0); lia.
Qed.

Lemma around_left {A} (b t r a : list A) x : b ++ t ++ x :: r ++ a = b ++ (t ++ x :: r) ++ a.
Proof. by app_norm. Qed.
Lemma around_right {A} (b l t a : list A) x :
  (b ++ l ++ [x]) ++ t ++ a = b ++ (l ++ x :: t) ++ a.
Proof. by app_norm. Qed.

(** Writing at the bottom of a stack a subtree with the same elements. *)
Lemma link_ok s t l : avl t -> ctx_ok s (height t) -> elements t = l ->
  avl (link s t) /\ elements (link s t) = before s ++ l ++ after s.
Proof. intros Ht Hs <-. split; [by apply link_avl|apply elements_link]. Qed.

(** *** Insertion: the subtree has grown by one level *)

Definition grown t (h : Z) : Prop :=
  avl t /\ height t = h + 1 /\
  match t with ANode _ _ b _ => b <> 0 \/ h = 0 | ALeaf => False end.

Lemma insert_loop_ok s : forall t h,
  grown t h -> ctx_ok s h -> 0 <= h ->
  exists t', insert_loop s t = Ret t' /\ avl t' /\ elements t' = before s ++ elements t ++ after s.
Proof.
  induction s as [|f s IH]; intros t h (Ht & Hh & Hb) Hs H0.
  { exists t. by rewrite app_nil_r. }
  assert (forall b, bal t = Ret b -> b = 0 -> h = 0) as Hb0.
  { destruct t; [done|]. intros b' [= <-] ->. cbn in Hb. by destruct Hb. } clear Hb.
  destruct f as [x b r|l x b]; cbn [ctx_ok insert_loop before after] in *;
    destruct Hs as (Hz & Hr & -> & Hb' & Hs).
  - pose proof (height_nonneg r) as Hr0.
    destruct (Z.eqb_spec (height r - h - 1) 0) as [E|E].
    { eexists; split; [done|]. rewrite around_left. apply link_ok; [|cbn|done].
      - cbn. split_and!; try done; lia.
      - by replace (1 + _) with (1 + Z.max h (height r)) by lia. }
    destruct (Z.ltb_spec (height r - h - 1) (-1)) as [E1|E1].
    + replace (height r - h - 1) with (-2) by lia.
      destruct (fixLeft_ok t x r) as (lb & t' & Elb & Blb & Ht' & H1 & H2 & H3); [done|done|lia|].
      rewrite Elb. mred. rewrite (proj2 (Z.eqb_neq lb 0)) in H3 by (intros ->; specialize (Hb0 0 Elb eq_refl); lia).
      exists (link s t'). rewrite around_left. split; [|apply link_ok; [done| |done]].
      * destruct (0 <? lb); [|by mred; rewrite Ht']. destruct Ht' as (l' & E2 & E3).
        rewrite avl_push_ok by lia. mred. rewrite E2. mred. by rewrite E3.
      * by replace (height t') with (1 + Z.max h (height r)) by lia.
    + rewrite (proj2 (Z.ltb_ge 1 _)) by lia.
      destruct (IH (ANode t x (height r - h - 1) r) (h + 1)) as (t' & -> & H1 & H2).
      * split; [cbn; split_and!; try done; lia|]. cbn. split; [lia|]. left. lia.
      * by replace (h + 1) with (1 + Z.max h (height r)) by lia.
      * lia.
      * eexists; split; [done|]. split; [done|]. rewrite H2. by rewrite around_left.
  - pose proof (height_nonneg l) as Hl0.
    destruct (Z.eqb_spec (h - height l + 1) 0) as [E|E].
    { eexists; split; [done|]. rewrite around_right. apply link_ok; [|cbn|done].
      - cbn. split_and!; try done; lia.
      - by replace (1 + _) with (1 + Z.max (height l) h) by lia. }
    rewrite (proj2 (Z.ltb_ge _ (-1))) by lia.
    destruct (Z.ltb_spec 1 (h - height l + 1)) as [E1|E1].
    + replace (h - height l + 1) with 2 by lia.
      destruct (fixRight_ok l x t) as (rb & t' & Erb & Brb & Ht' & H1 & H2 & H3); [done|done|lia|].
      rewrite Erb. mred. rewrite (proj2 (Z.eqb_neq rb 0)) in H3 by (intros ->; specialize (Hb0 0 Erb eq_refl); lia).
      exists (link s t'). rewrite around_right. split; [|apply link_ok; [done| |done]].
      * destruct (rb <? 0); [|by mred; rewrite Ht']. destruct Ht' as (l' & E2 & E3).
        rewrite avl_push_ok by lia. mred. rewrite E2. mred. by rewrite E3.
      * by replace (height t') with (1 + Z.max (height l) h) by lia.
    + destruct (IH (ANode l x (h - height l + 1) t) (h + 1)) as (t' & -> & H1 & H2).
      * split; [cbn; split_and!; try done; lia|]. cbn. split; [lia|]. left. lia.
      * by replace (h + 1) with (1 + Z.max (height l) h) by lia.
      * lia.
      * eexists; split; [done|]. split; [done|]. rewrite H2. by rewrite around_right.
Qed.

(** *** Removal: the subtree has shrunk by one level *)

Lemma remove_loop_ok s : forall t,
  avl t -> ctx_ok s (height t + 1) ->
  exists t', remove_loop s t = Ret t' /\ avl t' /\ elements t' = before s ++ elements t ++ after s.
Proof.
  induction s as [|f s IH]; intros t Ht Hs.
  { exists t. by rewrite app_nil_r. }
  pose proof (height_nonneg t) as H0.
  destruct f as [x b r|l x b]; cbn [ctx_ok remove_loop before after] in *;
    destruct Hs as (Hz & Hr & -> & Hb' & Hs).
  - pose proof (height_nonneg r) as Hr0. rewrite around_left.
    set (b := height r - (height t + 1) + 1).
    destruct (Z.eqb_spec b 0) as [E|E]; [|destruct (Z.eqb_spec b 1) as [E1|E1]].
    + apply (IH (ANode t x b r)); [cbn; split_and!; try done; lia|].
      cbn. by replace (1 + _ + 1) with (1 + Z.max (height t + 1) (height r)) by lia.
    + eexists; split; [done|]. apply link_ok; [cbn; split_and!; try done; lia| |done].
      cbn. by replace (1 + _) with (1 + Z.max (height t + 1) (height r)) by lia.
    + replace b with 2 by lia.
      destruct (fixRight_ok t x r) as (rb & t' & Erb & Brb & Ht' & H1 & H2 & H3); [done|done|lia|].
      rewrite Erb. mred. destruct (Z.eqb_spec rb 0) as [->|].
      { cbn [Z.ltb] in Ht'. rewrite Ht'. mred. eexists; split; [done|]. apply link_ok; [done| |done].
        by replace (height t') with (1 + Z.max (height t + 1) (height r)) by lia. }
      rewrite <- H2. destruct (Z.eqb_spec rb 1) as [->|].
      * change (1 <? 0) with false in Ht'. cbv iota in Ht'. rewrite Ht'. mred. apply (IH t'); [done|].
        by replace (height t' + 1) with (1 + Z.max (height t + 1) (height r)) by lia.
      * rewrite (proj2 (Z.ltb_lt rb 0)) in Ht' by lia. destruct Ht' as (r' & E2 & E3).
        rewrite avl_push_ok by lia. mred. rewrite E2. mred. rewrite E3. mred. apply (IH t'); [done|].
        by replace (height t' + 1) with (1 + Z.max (height t + 1) (height r)) by lia.
  - pose proof (height_nonneg l) as Hl0.
    rewrite around_right.
    set (b := height t + 1 - height l - 1).
    destruct (Z.eqb_spec b 0) as [E|E]; [|destruct (Z.eqb_spec b (-1)) as [E1|E1]].
    + apply (IH (ANode l x b t)); [cbn; split_and!; try done; lia|].
      cbn. by replace (1 + _ + 1) with (1 + Z.max (height l) (height t + 1)) by lia.
    + eexists; split; [done|]. apply link_ok; [cbn; split_and!; try done; lia| |done].
      cbn. by replace (1 + _) with (1 + Z.max (height l) (height t + 1)) by lia.
    + replace b with (-2) by lia.
      destruct (fixLeft_ok l x t) as (lb & t' & Elb & Blb & Ht' & H1 & H2 & H3); [done|done|lia|].
      rewrite Elb. mred. destruct (Z.eqb_spec lb 0) as [->|].
      { cbn [Z.ltb] in Ht'. rewrite Ht'. mred. eexists; split; [done|]. apply link_ok; [done| |done].
        by replace (height t') with (1 + Z.max (height l) (height t + 1)) by lia. }
      rewrite <- H2. destruct (Z.eqb_spec lb (-1)) as [->|].
      * change (0 <? -1) with false in Ht'. cbv iota in Ht'. rewrite Ht'. mred. apply (IH t'); [done|].
        by replace (height t' + 1) with (1 + Z.max (height l) (height t + 1)) by lia.
      * rewrite (proj2 (Z.ltb_lt 0 lb)) in Ht' by lia. destruct Ht' as (r' & E2 & E3).
        rewrite avl_push_ok by lia. mred. rewrite E2. mred. rewrite E3. mred. apply (IH t'); [done|].
        by replace (height t' + 1) with (1 + Z.max (height l) (height t + 1)) by lia.
Qed.

(** *** Height against number of nodes *)

(** The least number of nodes of an AVL tree of height [h]. *)
Fixpoint min_nodes_pair (h : nat) : Z * Z :=
  match h with O => (0, 1) | S h => let '(a, b) := min_nodes_pair h in (b, 1 + a + b) end.
Definition min_nodes (h : Z) : Z := (min_nodes_pair (Z.to_nat h)).1.

Lemma min_nodes_step h : 0 <= h -> min_nodes (h + 2) = 1 + min_nodes h + min_nodes (h + 1).
Proof.
  intros Hh. unfold min_nodes. rewrite !Z2Nat.inj_add by lia.
  replace (Z.to_nat h + Z.to_nat 2)%nat with (S (S (Z.to_nat h))) by lia.
  replace (Z.to_nat h + Z.to_nat 1)%nat with (S (Z.to_nat h)) by lia. cbn [min_nodes_pair].
  destruct (min_nodes_pair (Z.to_nat h)) as [a b]; cbn; lia.
Qed.
Lemma min_nodes_nonneg h : 0 <= min_nodes h.
Proof.
  unfold min_nodes. generalize (Z.to_nat h). intros n.
  assert (0 <= (min_nodes_pair n).1 /\ 0 <= (min_nodes_pair n).2) as []; [|done].
  induction n as [|n IH]; cbn; [lia|]. destruct (min_nodes_pair n) as [a b]; cbn in *; lia.
Qed.
Lemma min_nodes_mono h k : 0 <= h <= k -> min_nodes h <= min_nodes k.
Proof.
  intros Hh. replace k with (h + Z.of_nat (Z.to_nat (k - h))) by lia.
  induction (Z.to_nat (k - h)) as [|n IH]; [by rewrite Z.add_0_r|].
  etransitivity; [exact IH|]. rewrite Nat2Z.inj_succ. set (m := h + Z.of_nat n) in *.
  replace (h + Z.succ (Z.of_nat n)) with (m + 1) by lia.
  destruct (Z.eq_dec m 0) as [->|]; [done|].
  replace (m + 1) with (m - 1 + 2) by lia. rewrite min_nodes_step by lia.
  replace (m - 1 + 1) with m by lia. pose proof (min_nodes_nonneg (m - 1)). lia.
Qed.

Lemma avl_min_nodes t : avl t -> min_nodes (height t) <= zlen (elements t).
Proof.
  induction t as [|l IHl x b r IHr]; cbn [avl height elements]; [done|].
  intros (Hl & Hr & -> & Hb). rewrite length_app. cbn [length].
  specialize (IHl Hl). specialize (IHr Hr).
  pose proof (height_nonneg l). pose proof (height_nonneg r).
  set (m := Z.max (height l) (height r)) in *. destruct (Z.eq_dec m 0) as [E|E].
  { rewrite E. change (min_nodes (1 + 0)) with 1. lia. }
  replace (1 + m) with (m - 1 + 2) by lia. rewrite min_nodes_step by lia.
  replace (m - 1 + 1) with m by lia.
  assert (height l = m /\ min_nodes (m - 1) <= min_nodes (height r) \/
          height r = m /\ min_nodes (m - 1) <= min_nodes (height l)) as [[D1 D2]|[D1 D2]].
  { destruct (Z.leb_spec (height l) (height r)); [right|left]; (split; [lia|]);
      apply min_nodes_mono; lia. }
  - rewrite D1 in IHl. lia.
  - rewrite D1 in IHr. lia.
Qed.

(** Trees of less nodes than this have at most [MAX_HEIGHT] levels. *)
Definition NODE_LIMIT : Z := 9227464.

Lemma avl_height_bound t : avl t -> zlen (elements t) < NODE_LIMIT -> height t <= MAX_HEIGHT.
Proof.
  intros Ht Hn. apply avl_min_nodes in Ht. destruct (Z.leb_spec (height t) MAX_HEIGHT); [done|].
  exfalso. pose proof (min_nodes_mono 33 (height t) ltac:(unfold MAX_HEIGHT in *; lia)) as H1.
  assert (min_nodes 33 = NODE_LIMIT) by (vm_compute; done). lia.
Qed.

(** *** Removing a node with two children *)

#[export] Instance is_leaf_dec t : Decision (t = ALeaf).
Proof. destruct t; [by left|by right]. Defined.

Lemma ctx_ok_len s h : ctx_ok s h -> zlen s + h <= MAX_HEIGHT.
Proof. by destruct s as [|[] s]; cbn; intros; intuition lia. Qed.

Lemma ctx_left l x b r s : avl (ANode l x b r) -> ctx_ok s (height (ANode l x b r)) ->
  ctx_ok (FLeft x b r :: s) (height l).
Proof.
  intros (Hl & Hr & E & B) Hs. pose proof (ctx_ok_len _ _ Hs) as Hz. cbn [ctx_ok height length] in *.
  split_and!; done || lia.
Qed.
Lemma ctx_right l x b r s : avl (ANode l x b r) -> ctx_ok s (height (ANode l x b r)) ->
  ctx_ok (FRight l x b :: s) (height r).
Proof.
  intros (Hl & Hr & E & B) Hs. pose proof (ctx_ok_len _ _ Hs) as Hz. cbn [ctx_ok height length] in *.
  split_and!; done || lia.
Qed.
Lemma push_ctx l x b r s f : ctx_ok s (height (ANode l x b r)) -> Stack_push s f = Ret (f :: s).
Proof.
  intros Hs%ctx_ok_len. cbn in Hs. apply avl_push_ok.
  pose proof (height_nonneg l). pose proof (height_nonneg r). lia.
Qed.

Lemma leftMost_ok t : forall s, t <> ALeaf -> avl t -> ctx_ok s (height t) ->
  exists fs x b r rest, leftMost s t = Ret (fs ++ s, ANode ALeaf x b r) /\
    avl (ANode ALeaf x b r) /\ ctx_ok (fs ++ s) (height (ANode ALeaf x b r)) /\
    elements t = x :: elements r ++ rest /\
    forall s', before (fs ++ s') = before s' /\ after (fs ++ s') = rest ++ after s'.
Proof.
  induction t as [|l IHl x b r _]; [done|]. intros s _ Ht Hs.
  destruct l as [|ll lx lb lr] eqn:E.
  - exists [], x, b, r, []. rewrite app_nil_r. by split_and!.
  - assert (leftMost s (ANode l x b r) = (s ← Stack_push s (FLeft x b r); leftMost s l)) as Es
      by (by rewrite E). assert (l <> ALeaf) as Hne by (by rewrite E).
    rewrite <- E in *. clear E ll lx lb lr. rewrite Es, (push_ctx l x b r) by done.
    destruct (IHl (FLeft x b r :: s)) as (fs & y & c & q & rest & E1 & H1 & H2 & H3 & H4);
      [done|by destruct Ht|by apply ctx_left|].
    exists (fs ++ [FLeft x b r]), y, c, q, (rest ++ x :: elements r).
    rewrite <- !app_assoc. cbn [app mbind outcome_bind]. split_and!; [done..| |].
    + cbn [elements]. rewrite H3. by app_norm.
    + intros s'. rewrite <- !app_assoc. cbn [app]. destruct (H4 (FLeft x b r :: s')) as [-> ->].
      cbn [before after]. by app_norm.
Qed.

(** The data of the nodes of the stack do not matter to its shape. *)
Lemma ctx_ok_exchange fs l x y b s h :
  ctx_ok (fs ++ FRight l x b :: s) h -> ctx_ok (fs ++ FRight l y b :: s) h.
Proof.
  revert h. induction fs as [|f fs IH]; intros h; [done|]. cbn [app].
  destruct f; cbn [ctx_ok length]; rewrite !length_app; cbn [length];
    intros (? & ? & ? & ? & ?); split_and!; try done; try lia; by apply IH.
Qed.

Lemma removeNode_ok (tree : GenTree T) s l x b r :
  avl (ANode l x b r) -> ctx_ok s (height (ANode l x b r)) ->
  exists t, GenTree_removeNode tree s l x b r = Ret (mkTree t (gt_cnt tree - 1)) /\ avl t /\
    elements t = before s ++ (elements l ++ elements r) ++ after s.
Proof.
  intros Ht Hs. pose proof Ht as (Hl & Hr & Eb & Bb). cbn [height] in Hs.
  pose proof (height_nonneg l). pose proof (height_nonneg r).
  unfold GenTree_removeNode, AbstractTree_remove. destruct (decide (l = ALeaf)) as [->|Hnl].
  { destruct (remove_loop_ok s r) as (t & -> & H1 & H2); [done| |by exists t].
    cbn [height] in Hs. by replace (height r + 1) with (1 + Z.max 0 (height r)) by lia. }
  destruct (decide (r = ALeaf)) as [->|Hnr].
  { destruct (remove_loop_ok s l) as (t & E & H1 & H2); [done| |].
    - cbn [height] in Hs. by replace (height l + 1) with (1 + Z.max (height l) 0) by lia.
    - exists t. rewrite H2. cbn [elements]. rewrite app_nil_r. destruct l; [done|]. by rewrite E. }
  destruct (leftMost_ok r (FRight l x b :: s)) as (fs & y & c & q & rest & E1 & H1 & H2 & H3 & H4);
    [done|done|by apply ctx_right|].
  assert (exchange (fs ++ FRight l x b :: s) (length fs) y = fs ++ FRight l y b :: s) as Ex.
  { unfold exchange. by rewrite alter_app_r_alt, Nat.sub_diag by done. }
  destruct H1 as (_ & Hq & Ec & Bc). pose proof (height_nonneg q).
  destruct (remove_loop_ok (fs ++ FRight l y b :: s) q) as (t & E & H5 & H6); [done| |].
  - apply (ctx_ok_exchange _ _ x). cbn [height] in H2.
    by replace (height q + 1) with (1 + Z.max 0 (height q)) by lia.
  - exists t. split.
    + destruct l as [|l1 l2 l3 l4]; [done|]. destruct r as [|r1 r2 r3 r4]; [done|].
      rewrite (push_ctx (ANode l1 l2 l3 l4) x b (ANode r1 r2 r3 r4)) by done. mred. rewrite E1. mred.
      cbn [fst snd]. rewrite !length_app. cbn [length]. rewrite Nat.add_sub, Ex, E. done.
    + split; [done|]. rewrite H6. destruct (H4 (FRight l y b :: s)) as [-> ->].
      rewrite H3. cbn [before after]. by app_norm.
Qed.
End Shape.

(** ** Keys *)

Section Keys.
Context {T K : Type} `{TotalOrder K} (key : T -> K).
Implicit Types (t : avl_tree T) (s : list (avl_frame T)).

(** The tree has the shape of an AVL tree, increasing keys and its count. *)
Record tree_ok (tree : GenTree T) : Prop := {
  to_avl : avl (gt_root tree);
  to_sorted : csorted (key <$> elements (gt_root tree));
  to_cnt : gt_cnt tree = zlen (elements (gt_root tree)) }.

Lemma find_elements t k : csorted (key <$> elements t) ->
  match GenTree_find key t k with
  | Some y => y ∈ elements t /\ key y = k
  | None => forall y, y ∈ elements t -> key y <> k
  end.
Proof.
  induction t as [|l IHl x b r IHr]; cbn [elements GenTree_find].
  { intros _ y Hy. by apply not_elem_of_nil in Hy. }
  rewrite fmap_app, fmap_cons. intros (Sl & [Sr Hr]%csorted_cons_inv & Hl)%csorted_app.
  specialize (IHl Sl). specialize (IHr Sr).
  assert (forall y, y ∈ elements l -> clt (key y) (key x)) as Hl'.
  { intros y Hy. apply Hl; [by apply list_elem_of_fmap_2|by left]. }
  assert (forall y, y ∈ elements r -> clt (key x) (key y)) as Hr'.
  { intros y Hy. by apply Hr, list_elem_of_fmap_2. }
  destruct (compareP k (key x)) as [->|c Hc Hn|c Hc Hn].
  - cbn. split; [|done]. apply elem_of_app. right. by left.
  - rewrite (proj2 (Z.ltb_lt c 0)) by lia. destruct (GenTree_find key l k) as [y|].
    + split; [|by apply IHl]. apply elem_of_app. left. by apply IHl.
    + intros y [Hy|[->|Hy]%elem_of_cons]%elem_of_app Ey; [by apply (IHl y)|subst k..].
      * by apply clt_irrefl in Hc.
      * by apply (clt_asym _ _ Hc), Hr'.
  - rewrite (proj2 (Z.ltb_ge c 0)), (proj2 (Z.ltb_lt 0 c)) by lia.
    destruct (GenTree_find key r k) as [y|].
    + split; [|by apply IHr]. apply elem_of_app. right. right. by apply IHr.
    + intros y [Hy|[->|Hy]%elem_of_cons]%elem_of_app Ey; [subst k..|by apply (IHr y)].
      * by apply (clt_asym _ _ Hc), Hl'.
      * by apply clt_irrefl in Hc.
Qed.

(** [lookup] stops at the node of key [k] or at the leaf where it would be. *)
Lemma lookup_ok k p : forall s,
  avl p -> ctx_ok s (height p) -> csorted (key <$> elements p) ->
  exists s' q, GenTree_lookup key s p k = Ret (s', q) /\ avl q /\ ctx_ok s' (height q) /\
    before s ++ elements p ++ after s = before s' ++ elements q ++ after s' /\
    match q with
    | ANode _ x _ _ => key x = k
    | ALeaf => (exists l, before s' = before s ++ l /\ forall y, y ∈ l -> clt (key y) k) /\
               (exists l, after s' = l ++ after s /\ forall y, y ∈ l -> clt k (key y)) /\
               (s' = [] -> p = ALeaf)
    end.
Proof.
  induction p as [|l IHl x b r IHr]; intros s Hp Hs Hk; cbn [GenTree_lookup].
  { exists s, ALeaf. split_and!; try done.
    - exists []. rewrite app_nil_r. split; [done|]. intros y Hy. by apply not_elem_of_nil in Hy.
    - exists []. split; [done|]. intros y Hy. by apply not_elem_of_nil in Hy. }
  cbn [elements] in Hk. rewrite fmap_app, fmap_cons in Hk.
  apply csorted_app in Hk as (Sl & [Sr Hr]%csorted_cons_inv & Hl).
  destruct (compareP k (key x)) as [->|c Hc Hn|c Hc Hn].
  - cbn. exists s, (ANode l x b r). by split_and!.
  - rewrite (proj2 (Z.eqb_neq c 0)), (proj2 (Z.ltb_lt c 0)), (push_ctx l x b r) by (done || lia). mred.
    destruct (IHl (FLeft x b r :: s)) as (s' & q & E & H1 & H2 & H3 & H4);
      [by destruct Hp|by apply ctx_left|done|].
    exists s', q. rewrite E. split_and!; [done..| |].
    + rewrite <- H3. cbn [elements before after]. by app_norm.
    + destruct q; [|done]. destruct H4 as (B & (a & Ea & Ha) & Hnil). split_and!; [done| |].
      * exists (a ++ x :: elements r). split; [rewrite Ea; cbn [after]; by app_norm|].
        intros y [Hy|[->|Hy]%elem_of_cons]%elem_of_app; [by apply Ha|done|].
        apply (clt_trans _ (key x)); [done|]. by apply Hr, list_elem_of_fmap_2.
      * intros ->. by destruct a.
  - rewrite (proj2 (Z.eqb_neq c 0)), (proj2 (Z.ltb_ge c 0)), (push_ctx l x b r) by (done || lia). mred.
    destruct (IHr (FRight l x b :: s)) as (s' & q & E & H1 & H2 & H3 & H4);
      [by destruct Hp as (? & ? & ? & ?)|by apply ctx_right|done|].
    exists s', q. rewrite E. split_and!; [done..| |].
    + rewrite <- H3. cbn [elements before after]. by app_norm.
    + destruct q; [|done]. destruct H4 as ((a & Ea & Ha) & A & Hnil). split_and!; [|done|].
      * exists ((elements l ++ [x]) ++ a). split; [rewrite Ea; cbn [before]; by app_norm|].
        intros y [[Hy| ->%list_elem_of_singleton]%elem_of_app|Hy]%elem_of_app; [|done|by apply Ha].
        apply (clt_trans _ (key x)); [|done]. apply Hl; [by apply list_elem_of_fmap_2|by left].
      * intros ->. cbn [before] in Ea. by destruct (before s), (elements l).
Qed.

(** The tree with one more, or one less, element in the middle. *)
Lemma sorted_middle (a : list T) c x : csorted (key <$> (a ++ c)) ->
  (forall y, y ∈ a -> clt (key y) (key x)) -> (forall y, y ∈ c -> clt (key x) (key y)) ->
  csorted (key <$> (a ++ x :: c)).
Proof.
  rewrite !fmap_app, fmap_cons. intros (Sa & Sc & Hac)%csorted_app Ha Hc. apply csorted_app.
  assert (forall y, y ∈ key <$> c -> clt (key x) y) as Hc'.
  { intros y (z & -> & Hz)%list_elem_of_fmap. by apply Hc. }
  split_and!; [done|by apply csorted_cons|].
  intros y z Hy [->|Hz]%elem_of_cons; [|by apply Hac].
  apply list_elem_of_fmap in Hy as (w & -> & Hw). by apply Ha.
Qed.

Lemma sorted_remove (a c d : list T) : csorted (key <$> (a ++ d ++ c)) -> csorted (key <$> (a ++ c)).
Proof.
  rewrite !fmap_app. intros (Sa & (Sd & Sc & Hdc)%csorted_app & Hac)%csorted_app. apply csorted_app.
  split_and!; [done..|]. intros y z Hy Hz. apply Hac; [done|]. apply elem_of_app. by right.
Qed.

Lemma sorted_unique (a c : list T) x y :
  csorted (key <$> (a ++ x :: c)) -> y ∈ a ++ c -> key y <> key x.
Proof.
  rewrite fmap_app, fmap_cons. intros (Sa & [Sc Hc]%csorted_cons_inv & Hac)%csorted_app.
  intros [Hy|Hy]%elem_of_app E.
  - apply (clt_irrefl (key x)). rewrite <- E at 1. apply Hac; [by apply list_elem_of_fmap_2|by left].
  - apply (clt_irrefl (key x)). rewrite <- E at 2. by apply Hc, list_elem_of_fmap_2.
Qed.

(** [add] keeps the tree well formed and adds the item unless its key is there. *)
Lemma GenTree_add_ok (tree : GenTree T) x : tree_ok tree -> gt_cnt tree < NODE_LIMIT ->
  exists tree', GenTree_add key tree x = Ret tree' /\ tree_ok tree' /\
    forall y, y ∈ elements (gt_root tree') <->
      y ∈ elements (gt_root tree) \/
      y = x /\ forall z, z ∈ elements (gt_root tree) -> key z <> key x.
Proof.
  intros [Ha Hs Hc] Hn. unfold GenTree_add. rewrite Hc in Hn.
  destruct (lookup_ok (key x) (gt_root tree) []) as (s & q & -> & H1 & H2 & H3 & H4);
    [done|by apply avl_height_bound|done|].
  mred. cbn [fst snd]. cbn [before after app] in H3. rewrite app_nil_r in H3. destruct q as [|l y b r].
  - destruct H4 as ((a & Ea & Hlt) & (c & Ec & Hgt) & Hnil). rewrite app_nil_r in Ec.
    cbn [before app] in Ea. cbn [elements app] in H3. rewrite Ea, Ec in H3.
    assert (exists t, AbstractTree_insert tree s x = Ret (mkTree t (gt_cnt tree + 1)) /\
              avl t /\ elements t = a ++ x :: c) as (t & Et & At & El).
    { destruct (insert_loop_ok s (ANode ALeaf x 0 ALeaf) 0) as (t & Et & At & El);
        [cbn; split_and!; try done; by right|done|done|].
      unfold AbstractTree_insert. destruct (gt_root tree) eqn:Er.
      - cbn in H3. destruct a, c; try done. eexists; split; [done|]. by split.
      - rewrite Et. eexists; split; [done|]. split; [done|]. rewrite El, Ea, Ec. done. }
    exists (mkTree t (gt_cnt tree + 1)). split; [done|]. split; [split|]; cbn [gt_root gt_cnt].
    + done.
    + rewrite El. apply sorted_middle; [by rewrite <- H3|done|done].
    + rewrite El, Hc, H3, !length_app. cbn [length]. lia.
    + rewrite El, H3. intros y. rewrite !elem_of_app, elem_of_cons.
      split; [intros [Hy|[->|Hy]]|intros [[Hy|Hy]|[-> _]]]; try tauto.
      right. split; [done|]. intros z [Hz|Hz]%elem_of_app E;
        [apply Hlt in Hz|apply Hgt in Hz]; rewrite E in Hz; by apply clt_irrefl in Hz.
  - exists tree. split_and!; [done..|]. intros z. split; [tauto|]. intros [Hz|[_ Hz]]; [done|].
    exfalso. apply (Hz y); [|done]. rewrite H3. cbn [elements]. rewrite !elem_of_app, elem_of_cons. tauto.
Qed.

(** [removeByKey] keeps the tree well formed and removes the item of the key. *)
Lemma GenTree_removeByKey_ok (tree : GenTree T) k : tree_ok tree -> gt_cnt tree < NODE_LIMIT ->
  exists tree', GenTree_removeByKey key tree k = Ret tree' /\ tree_ok tree' /\
    forall y, y ∈ elements (gt_root tree') <-> y ∈ elements (gt_root tree) /\ key y <> k.
Proof.
  intros [Ha Hs Hc] Hn. unfold GenTree_removeByKey. rewrite Hc in Hn.
  destruct (lookup_ok k (gt_root tree) []) as (s & q & -> & H1 & H2 & H3 & H4);
    [done|by apply avl_height_bound|done|].
  mred. cbn [fst snd]. cbn [before after app] in H3. rewrite app_nil_r in H3. destruct q as [|l x b r].
  - destruct H4 as ((a & Ea & Hlt) & (c & Ec & Hgt) & _). rewrite app_nil_r in Ec.
    cbn [before app] in Ea. cbn [elements app] in H3. rewrite Ea, Ec in H3.
    exists tree. split_and!; [done..|]. intros y. split; [|tauto]. intros Hy. split; [done|].
    rewrite H3 in Hy. apply elem_of_app in Hy as [Hy|Hy]; intros E;
      [apply Hlt in Hy|apply Hgt in Hy]; rewrite E in Hy; by apply clt_irrefl in Hy.
  - destruct (removeNode_ok tree s l x b r) as (t & -> & At & El); [done|done|].
    assert (elements (gt_root tree) = (before s ++ elements l) ++ x :: (elements r ++ after s)) as E.
    { rewrite H3. cbn [elements]. by app_norm. }
    assert (elements t = (before s ++ elements l) ++ (elements r ++ after s)) as Et
      by (rewrite El; by app_norm).
    eexists; split; [done|]. rewrite E in *. split; [split|]; cbn [gt_root gt_cnt].
    + done.
    + rewrite Et. by apply (sorted_remove _ _ [x]).
    + rewrite Et, Hc, !length_app. cbn [length]. rewrite length_app. lia.
    + rewrite Et. intros y. rewrite !elem_of_app, elem_of_cons, elem_of_app. split.
      * intros Hy. split; [tauto|]. rewrite <- H4. apply (sorted_unique _ _ _ _ Hs).
        by rewrite !elem_of_app.
      * intros [[Hz|[Hz|Hz]] Hy]; try tauto. by subst y.
Qed.
End Keys.

(** ** Iteration *)

Section IterProofs.
Context {T : Type}.
Implicit Types (t : avl_tree T) (s : VisitStack (T := T)).

(** [s] holds the ancestors of the subtree [t] of path [p]. *)
Fixpoint chain s (p : list bool) t : Prop :=
  match s with
  | [] => p = []
  | (q, u) :: s' =>
      match u with
      | ANode l _ _ r => p = true :: q /\ t = l \/ p = false :: q /\ t = r
      | ALeaf => False
      end /\ zlen s' + height u < MAX_HEIGHT /\ chain s' q u
  end.

(** What the iterator gives after the subtree of path [p]. *)
Fixpoint rest s (p : list bool) : list T :=
  match s with
  | (q, ANode l x b r) :: s' =>
      if decide (p = true :: q) then x :: elements r ++ rest s' q else rest s' q
  | _ => []
  end.

(** The iterator is on the node [t], all that is left is [xs]. *)
Definition iter_at s (xs : list T) : Prop :=
  match s with
  | [] => xs = []
  | (p, t) :: s' => exists a l x b r, s' = (p, t) :: a /\ t = ANode l x b r /\ chain a p t /\
      xs = x :: elements r ++ rest a p /\ zlen a + height t < MAX_HEIGHT
  end.

Lemma VisitStack_push_ok s e : zlen s < MAX_HEIGHT -> VisitStack_push s e = Ret (e :: s).
Proof. intros Hs. unfold VisitStack_push. rewrite (proj2 (Z.eqb_neq _ _)) by lia. done. Qed.

Lemma Iter_visit_ok t : forall s p, t <> ALeaf -> chain s p t -> zlen s + height t < MAX_HEIGHT ->
  exists s', Iter_visit s p t = Ret s' /\ s' <> [] /\ iter_at s' (elements t ++ rest s p).
Proof.
  induction t as [|l IHl x b r _]; [done|]. intros s p _ Hc Hz. cbn [height Iter_visit] in *.
  pose proof (height_nonneg l). pose proof (height_nonneg r).
  rewrite VisitStack_push_ok by lia. mred. destruct (decide (l = ALeaf)) as [->|Hl].
  - rewrite VisitStack_push_ok by (cbn [length]; lia). eexists; split; [done|]. split; [done|].
    exists s, ALeaf, x, b, r. by split_and!.
  - destruct (IHl ((p, ANode l x b r) :: s) (true :: p)) as (s' & E & Hn & Hi);
      [done|split_and!; [by left|done..]|cbn [length]; lia|].
    exists s'. split; [by destruct l|]. split; [done|]. cbn [rest] in Hi.
    rewrite decide_True in Hi by done. cbn [elements]. rewrite <- app_assoc. done.
Qed.

(** Going up until a node on the left of which the subtree was. *)
Lemma next_up s : forall p t fuel, chain s p t -> (length s < fuel)%nat ->
  exists s', iter fuel Iter_next_step ((p, t) :: s) = Ret s' /\ iter_at s' (rest s p).
Proof.
  induction s as [|[q u] s IH]; intros p t fuel Hc Hf; (destruct fuel as [|fuel]; [lia|]);
    cbn [iter Iter_next_step].
  { by exists []. }
  destruct u as [|l x b r]; [by destruct Hc|]. destruct Hc as (Hp & Hz & Hc).
  cbn [fst rest height length] in *. pose proof (height_nonneg l). pose proof (height_nonneg r).
  destruct Hp as [[-> _]|[-> _]].
  - rewrite !decide_True by done. rewrite VisitStack_push_ok by (cbn [length]; lia). mred.
    eexists; split; [done|]. exists s, l, x, b, r. by split_and!.
  - rewrite !decide_False by done.
    destruct (IH q (ANode l x b r) fuel) as (s' & E & Hs); [done|lia|].
    exists s'. split; [|done]. destruct r; [exact E|].
    rewrite decide_False; [exact E|]. intros E1%(f_equal length). cbn in E1. lia.
Qed.

Lemma Iter_next_ok s x xs : iter_at s (x :: xs) ->
  Iter_ended s = false /\ Iter_item s = Ret x /\
  exists s', Iter_next s = Ret s' /\ iter_at s' xs.
Proof.
  destruct s as [|[p t] s]; [done|]. intros (a & l & y & b & r & -> & -> & Hc & [= -> ->] & Hz).
  split; [done|]. split; [done|]. unfold Iter_next. cbn [iter Iter_next_step fst].
  rewrite decide_False by (intros E%(f_equal length); cbn in E; lia).
  destruct (decide (r = ALeaf)) as [->|Hr].
  - mred. destruct (next_up a p (ANode l y b ALeaf) (S (S (length a)))) as (s' & E & Hs); [done|lia|].
    exists s'. by split.
  - cbn [height] in Hz. pose proof (height_nonneg l).
    destruct (Iter_visit_ok r ((p, ANode l y b r) :: a) (false :: p)) as (s' & E & _ & Hs);
      [done|split_and!; [by right|done..]|cbn [length]; lia|].
    exists s'. split.
    + destruct r; [done|]. rewrite decide_True by done. rewrite E. done.
    + cbn [rest] in Hs. rewrite decide_False in Hs by done. done.
Qed.

Lemma Iter_items_ok xs : forall fuel s, iter_at s xs -> (length xs <= fuel)%nat ->
  Iter_items fuel s = Ret xs.
Proof.
  induction xs as [|x xs IH]; intros fuel s Hs Hf.
  - destruct s as [|[p t] s]; [by destruct fuel|].
    destruct Hs as (a & l & x & b & r & ? & ? & ? & ? & ?). done.
  - destruct fuel as [|fuel]; [cbn in Hf; lia|].
    apply Iter_next_ok in Hs as (E1 & E2 & s' & E3 & Hs). cbn [Iter_items].
    rewrite E1, E2. mred. rewrite E3. mred. rewrite (IH fuel s'); [done|done|cbn in Hf; lia].
Qed.

(** Trees of less nodes than this have less than [MAX_HEIGHT] levels: the stack
    of the iterator, that holds the current node twice, does not overflow. *)
Definition ITER_LIMIT : Z := 5702886.

Lemma GenTree_items_ok (tree : GenTree T) :
  avl (gt_root tree) -> gt_cnt tree = zlen (elements (gt_root tree)) -> gt_cnt tree < ITER_LIMIT ->
  GenTree_items tree = Ret (elements (gt_root tree)).
Proof.
  intros Ha Hc Hn. unfold GenTree_items, Iter_make. rewrite Hc in *. rewrite Nat2Z.id.
  destruct (decide (gt_root tree = ALeaf)) as [E|E]; [by rewrite E|].
  destruct (Iter_visit_ok (gt_root tree) [] []) as (s & -> & _ & Hs); [done|done| |].
  - apply avl_min_nodes in Ha. destruct (Z.ltb_spec (height (gt_root tree)) MAX_HEIGHT); [cbn; lia|].
    pose proof (min_nodes_mono 32 (height (gt_root tree)) ltac:(unfold MAX_HEIGHT in *; lia)).
    assert (min_nodes 32 = ITER_LIMIT) by (vm_compute; done). lia.
  - mred. cbn [rest] in Hs. rewrite app_nil_r in Hs. by apply Iter_items_ok.
Qed.
End IterProofs.

(** ** Trees as association lists and as sets *)

Section Refinement.
Context {T K : Type} `{TotalOrder K} (key : T -> K).

#[local] Instance key_dec (k : K) (y : T) : Decision (key y = k).
Proof.
  destruct (decide (doCompare (key y) k = 0)) as [E|E]; [left|right].
  - by apply compare_eq.
  - intros Ek. by apply E, compare_eq.
Defined.

(** The association list of the items, in any order. *)
Definition assoc_find (l : list T) (k : K) : option T := head (filter (fun y => key y = k) l).
Definition assoc_add (l : list T) (x : T) : list T :=
  match assoc_find l (key x) with Some _ => l | None => x :: l end.
Definition assoc_remove (l : list T) (k : K) : list T := filter (fun y => key y <> k) l.

Inductive tree_op := TAdd (x : T) | TRemoveKey (k : K) | TClear.
Definition tree_exec (tree : GenTree T) (op : tree_op) : outcome (GenTree T) :=
  match op with
  | TAdd x => GenTree_add key tree x
  | TRemoveKey k => GenTree_removeByKey key tree k
  | TClear => Ret (GenTree_clear tree)
  end.
Definition assoc_exec (l : list T) (op : tree_op) : list T :=
  match op with TAdd x => assoc_add l x | TRemoveKey k => assoc_remove l k | TClear => [] end.
Definition tree_run (tree : GenTree T) (ops : list tree_op) : outcome (GenTree T) :=
  foldl (fun m op => m ≫= fun t => tree_exec t op) (Ret tree) ops.

Lemma sorted_keys_NoDup (l : list T) : csorted (key <$> l) -> NoDup l.
Proof.
  induction l as [|x l IH]; [constructor|]. intros [Hs Hx]%csorted_cons_inv. constructor; [|by apply IH].
  intros Hl. apply (clt_irrefl (key x)). by apply Hx, list_elem_of_fmap_2.
Qed.

Lemma assoc_find_spec (l : list T) k :
  match assoc_find l k with
  | Some y => y ∈ l /\ key y = k
  | None => forall y, y ∈ l -> key y <> k
  end.
Proof.
  unfold assoc_find. destruct (filter (fun y => key y = k) l) as [|y f] eqn:E; cbn.
  - intros y Hy Ek. assert (y ∈ filter (fun y => key y = k) l) as Hf by by apply list_elem_of_filter.
    rewrite E in Hf. by apply not_elem_of_nil in Hf.
  - assert (y ∈ filter (fun y => key y = k) l) as Hf by (rewrite E; by left).
    apply list_elem_of_filter in Hf. tauto.
Qed.

Lemma find_assoc (tree : GenTree T) (l : list T) k : tree_ok key tree ->
  elements (gt_root tree) ≡ₚ l -> GenTree_find key (gt_root tree) k = assoc_find l k.
Proof.
  intros [_ Hs _] Hp. pose proof (find_elements key (gt_root tree) k Hs) as H1.
  pose proof (assoc_find_spec l k) as H2.
  destruct (GenTree_find key (gt_root tree) k) as [y|], (assoc_find l k) as [z|]; try done.
  - destruct H1 as [H1 <-], H2 as [H2 E]. rewrite <- Hp in H2. f_equal.
    destruct (list_elem_of_split _ _ H1) as (a & c & El). rewrite El in *.
    apply elem_of_app in H2 as [H2|[->|H2]%elem_of_cons]; [|done|];
      exfalso; (apply (sorted_unique key a c y z Hs); [apply elem_of_app; tauto|done]).
  - destruct H1 as [H1 E]. rewrite Hp in H1. by apply H2 in H1.
  - destruct H2 as [H2 E]. rewrite <- Hp in H2. by apply H1 in H2.
Qed.

Lemma tree_exec_ok tree l op : tree_ok key tree -> elements (gt_root tree) ≡ₚ l ->
  gt_cnt tree < NODE_LIMIT ->
  exists tree', tree_exec tree op = Ret tree' /\ tree_ok key tree' /\
    elements (gt_root tree') ≡ₚ assoc_exec l op.
Proof.
  intros Hok Hp Hn. pose proof (sorted_keys_NoDup _ (to_sorted _ _ Hok)) as Hnd.
  destruct op as [x|k|]; cbn [tree_exec assoc_exec].
  - destruct (GenTree_add_ok key tree x) as (t & -> & Ht & Hm); [done|done|].
    exists t. split; [done|]. split; [done|].
    pose proof (sorted_keys_NoDup _ (to_sorted _ _ Ht)) as Hnd'. rewrite Hp in Hnd.
    unfold assoc_add. pose proof (assoc_find_spec l (key x)) as Hf.
    destruct (assoc_find l (key x)) as [z|]; apply NoDup_Permutation; try done.
    + intros y. rewrite Hm, Hp. split; [intros [Hy|[-> Hy]]; [done|]|tauto].
      exfalso. destruct Hf as [Hz Ez]. apply (Hy z); [by rewrite Hp|done].
    + constructor; [|done]. intros Hx. by apply Hf in Hx.
    + intros y. rewrite Hm, elem_of_cons, Hp. split; [tauto|]. intros [->|Hy]; [|tauto].
      right. split; [done|]. intros z Hz. rewrite Hp in Hz. by apply Hf.
  - destruct (GenTree_removeByKey_ok key tree k) as (t & -> & Ht & Hm); [done|done|].
    exists t. split; [done|]. split; [done|].
    pose proof (sorted_keys_NoDup _ (to_sorted _ _ Ht)) as Hnd'. rewrite Hp in Hnd.
    apply NoDup_Permutation; [done|by apply NoDup_filter|].
    intros y. unfold assoc_remove. rewrite Hm, list_elem_of_filter, Hp. tauto.
  - eexists; split; [done|]. split; [|done]. split; cbn; [done|constructor|done].
Qed.

Lemma assoc_exec_length l op : (length (assoc_exec l op) <= S (length l))%nat.
Proof.
  destruct op; cbn; [|etransitivity; [apply length_filter|lia]|lia].
  unfold assoc_add. case_match; cbn; lia.
Qed.

(** Adding an item whose key is new. *)
Lemma GenTree_add_fresh tree x : tree_ok key tree -> gt_cnt tree < NODE_LIMIT -> (forall y, y ∈ elements (gt_root tree) -> key y <> key x) ->
  exists tree', GenTree_add key tree x = Ret tree' /\ tree_ok key tree' /\ elements (gt_root tree') ≡ₚ x :: elements (gt_root tree) /\
    gt_cnt tree' = gt_cnt tree + 1.
Proof.
  intros Ht Hn Hx. destruct (GenTree_add_ok key tree x Ht Hn) as (t & E & Ht' & Hm). exists t.
  assert (elements (gt_root t) ≡ₚ x :: elements (gt_root tree)) as Hp.
  { pose proof (sorted_keys_NoDup _ (to_sorted _ _ Ht)). pose proof (sorted_keys_NoDup _ (to_sorted _ _ Ht')).
    apply NoDup_Permutation; [done| |].
    - constructor; [|done]. intros Hin. by apply (Hx x Hin).
    - intros y. rewrite Hm, elem_of_cons. naive_solver. }
  split_and!; [done|done|done|]. rewrite (to_cnt _ _ Ht'), Hp, (to_cnt _ _ Ht). cbn [length]. lia.
Qed.

(** Adding items, two of which never share a key unless they are equal. *)
Lemma add_coherent_ok xs : (forall x y, x ∈ xs -> y ∈ xs -> key x = key y -> x = y) -> zlen xs < NODE_LIMIT ->
  exists tree, foldl (fun m x => m ≫= fun t => GenTree_add key t x) (Ret GenTree_make) xs = Ret tree /\
    tree_ok key tree /\ gt_cnt tree <= zlen xs /\ forall y, y ∈ elements (gt_root tree) <-> y ∈ xs.
Proof.
  induction xs as [|x xs IH] using rev_ind; intros Hxs Hn.
  { exists GenTree_make. split_and!; [done|by split; [|constructor|]|done|]. intros y. split; by intros ?%elem_of_nil. }
  rewrite length_app in Hn. cbn [length] in Hn.
  destruct IH as (t & E & Ht & Hc & Hel); [|lia|]. { intros y z Hy Hz. apply Hxs; apply elem_of_app; by left. }
  destruct (GenTree_add_ok key t x) as (t' & E' & Ht' & Hel'); [done|lia|].
  destruct (tree_exec_ok t _ (TAdd x) Ht ltac:(done)) as (t'' & E'' & _ & Hp); [lia|]. cbn [tree_exec] in E''.
  rewrite E' in E''. injection E'' as <-.
  exists t'. split_and!; [by rewrite foldl_app, E; cbn; rewrite E'|done| |].
  - rewrite length_app, (to_cnt _ _ Ht'), Hp. rewrite (to_cnt _ _ Ht) in Hc.
    pose proof (assoc_exec_length (elements (gt_root t)) (TAdd x)). cbn [length]. lia.
  - intros y. rewrite Hel', elem_of_app, list_elem_of_singleton, Hel. split; [tauto|]. intros [Hy|Hy]; [tauto|subst y].
    destruct (decide (Exists (fun z => key z = key x) xs)) as [(z & Hz & Ez)%list.Exists_exists|Hno].
    + left. rewrite <- (Hxs z x); [done|apply elem_of_app; by left|apply elem_of_app; right; by left|done].
    + right. split; [done|]. intros z Hz Ez. apply Hno, list.Exists_exists. exists z. split; [by apply Hel|done].
Qed.

(** The use the interface of the trees provides for: items are added with keys
    that the tree does not hold, and keys that it holds are removed. *)
Fixpoint ops_proper (l : list T) (ops : list tree_op) : bool :=
  match ops with
  | [] => true
  | op :: ops =>
      match op with
      | TAdd x => bool_decide (assoc_find l (key x) = None)
      | TRemoveKey k => negb (bool_decide (assoc_find l k = None))
      | TClear => true
      end && ops_proper (assoc_exec l op) ops
  end.

End Refinement.


(** ** Sets *)

Section Sets.
Context {T : Type} `{TotalOrder T}.
Implicit Types (a b : GenTree T).

Abbreviation set_ok := (tree_ok (T := T) (id : T -> T)).
Definition set_mem a (x : T) : Prop := x ∈ elements (gt_root a).

Lemma set_sorted a : set_ok a -> csorted (elements (gt_root a)).
Proof. intros [_ Hs _]. by rewrite list_fmap_id in Hs. Qed.

Lemma set_items a : set_ok a -> gt_cnt a < ITER_LIMIT -> GenTree_items a = Ret (elements (gt_root a)).
Proof. intros [H1 _ H2]. by apply GenTree_items_ok. Qed.

(** One addition, one removal. *)
Lemma set_add_ok a x : set_ok a -> gt_cnt a < NODE_LIMIT ->
  exists c, GenTree_add id a x = Ret c /\ set_ok c /\ gt_cnt c <= gt_cnt a + 1 /\
    forall y, set_mem c y <-> set_mem a y \/ y = x.
Proof.
  intros Ha Hn. destruct (tree_exec_ok id a (elements (gt_root a)) (TAdd x)) as (c & E & Hc & Hp);
    [done|done|done|].
  exists c. split; [done|]. split; [done|]. pose proof (assoc_exec_length id (elements (gt_root a)) (TAdd x)) as Hl.
  split; [rewrite (to_cnt _ _ Hc), (to_cnt _ _ Ha), Hp; lia|].
  intros y. unfold set_mem. rewrite Hp. cbn [assoc_exec]. unfold assoc_add.
  pose proof (assoc_find_spec id (elements (gt_root a)) (id x)) as Hf.
  destruct (assoc_find _ _ _) as [z|]; [|rewrite elem_of_cons; tauto].
  destruct Hf as [Hz Ez]. cbv [id] in Ez. subst z. split; [tauto|]. by intros [?| ->].
Qed.

Lemma set_remove_ok a x : set_ok a -> gt_cnt a < NODE_LIMIT ->
  exists c, GenTree_remove id a x = Ret c /\ set_ok c /\ gt_cnt c <= gt_cnt a /\
    forall y, set_mem c y <-> set_mem a y /\ y <> x.
Proof.
  intros Ha Hn. destruct (tree_exec_ok id a (elements (gt_root a)) (TRemoveKey x)) as (c & E & Hc & Hp);
    [done|done|done|].
  exists c. split; [done|]. split; [done|]. unfold set_mem. rewrite (to_cnt _ _ Hc), (to_cnt _ _ Ha), Hp.
  cbn [assoc_exec]. unfold assoc_remove. split; [apply inj_le, length_filter|].
  intros y. rewrite Hp. cbn [assoc_exec]. unfold assoc_remove. rewrite list_elem_of_filter.
  cbv [id]. tauto.
Qed.

(** Adding and removing a collection. *)
Lemma GenTree_addAll_ok xs : forall a, set_ok a -> gt_cnt a + zlen xs <= NODE_LIMIT ->
  exists c, GenTree_addAll id a xs = Ret c /\ set_ok c /\
    forall x, set_mem c x <-> set_mem a x \/ x ∈ xs.
Proof.
  induction xs as [|x xs IH]; intros a Ha Hn; cbn [GenTree_addAll length] in *.
  - exists a. split_and!; [done|done|]. intros x. split; [tauto|].
    intros [Hx|Hx]; [done|by apply not_elem_of_nil in Hx].
  - destruct (set_add_ok a x) as (c & -> & Hc & Hl & Hm); [done|lia|]. mred.
    destruct (IH c) as (d & -> & Hd & Hmd); [done|lia|].
    exists d. split; [done|]. split; [done|]. intros y. rewrite Hmd, Hm, elem_of_cons. tauto.
Qed.
Lemma GenTree_removeAll_ok xs : forall a, set_ok a -> gt_cnt a < NODE_LIMIT ->
  exists c, GenTree_removeAll id a xs = Ret c /\ set_ok c /\
    forall x, set_mem c x <-> set_mem a x /\ x ∉ xs.
Proof.
  induction xs as [|x xs IH]; intros a Ha Hn; cbn [GenTree_removeAll] in *.
  - exists a. split_and!; [done|done|]. intros x. split; [|tauto].
    intros Hx. split; [done|apply not_elem_of_nil].
  - destruct (set_remove_ok a x) as (c & -> & Hc & Hl & Hm); [done|lia|]. mred.
    destruct (IH c) as (d & -> & Hd & Hmd); [done|lia|].
    exists d. split; [done|]. split; [done|]. intros y. rewrite Hmd, Hm, elem_of_cons. tauto.
Qed.

(** The loops over two increasing sequences. *)
Lemma subset_loop_ok i j : csorted i -> csorted j ->
  AvlSet_subset_loop i j = true <-> (forall x, x ∈ i -> x ∈ j).
Proof.
  revert i. induction j as [|y j IH]; intros i Hi Hj.
  - destruct i as [|x i]; cbn; split; try done.
    intros Hx. exfalso. apply (not_elem_of_nil x), Hx. by left.
  - destruct i as [|x i]; cbn [AvlSet_subset_loop].
    { split; [|done]. intros _ z Hz. by apply not_elem_of_nil in Hz. }
    apply csorted_cons_inv in Hj as [Hj Hy]. pose proof Hi as [Hi' Hx]%csorted_cons_inv.
    destruct (compareP x y) as [<-|c Hc Hn|c Hc Hn].
    + cbn. rewrite IH by done. split.
      * intros Hs z [->|Hz]%elem_of_cons; [by left|right; by apply Hs].
      * intros Hs z Hz. pose proof (Hs z ltac:(by right)) as [->|Hz']%elem_of_cons; [|done].
        by apply Hx, clt_irrefl in Hz.
    + rewrite (proj2 (Z.eqb_neq c 0)), (proj2 (Z.ltb_lt c 0)) by lia. split; [done|].
      intros Hs. exfalso. pose proof (Hs x ltac:(by left)) as [->|Hz]%elem_of_cons;
        [by apply clt_irrefl in Hc|by apply (clt_asym _ _ Hc), Hy].
    + rewrite (proj2 (Z.eqb_neq c 0)), (proj2 (Z.ltb_ge c 0)), IH by (done || lia). split.
      * intros Hs z Hz. right. by apply Hs.
      * intros Hs z Hz. pose proof (Hs z Hz) as [->|Hz']%elem_of_cons; [|done]. exfalso.
        apply elem_of_cons in Hz as [->|Hz]; [by apply clt_irrefl in Hc|].
        by apply (clt_asym _ _ Hc), Hx.
Qed.
Lemma equals_loop_ok i : forall j, AvlSet_equals_loop i j = true <-> i = j.
Proof.
  induction i as [|x i IH]; intros [|y j]; cbn; try (split; done).
  destruct (Z.eqb_spec (doCompare x y) 0) as [E|E].
  - apply compare_eq in E as ->. rewrite IH. split; [by intros ->|by intros [= ->]].
  - split; [done|]. intros [= -> _]. by rewrite compare_refl in E.
Qed.

End Sets.

(** Two sets of integers. *)
Definition set_1234 : outcome (GenTree Z) := GenTree_addAll id GenTree_make [3; 1; 4; 2].
Definition set_246 : outcome (GenTree Z) := GenTree_addAll id GenTree_make [2; 4; 6].

Lemma built_ok xs c : Z.of_nat (length xs) <= NODE_LIMIT ->
  GenTree_addAll id GenTree_make xs = Ret c -> tree_ok (K := Z) id c.
Proof.
  intros Hn E. destruct (GenTree_addAll_ok xs GenTree_make) as (d & Ed & Hd & _);
    [by split; [|constructor|]|done|]. rewrite E in Ed. by injection Ed as ->.
Qed.


(** [put] does not replace the value of a key already there. *)
Example AvlMap_put_keeps_old :
  (m ← AvlMap_put GenTree_make 1 10; m ← AvlMap_put m 1 20; Ret (AvlMap_get m 1)) = Ret (Some 10).
Proof. reflexivity. Qed.

(** An item whose key is already there is not added. *)
Example GenTree_add_twice :
  (t ← tree_run id GenTree_make [TAdd 1; TAdd 1]; Ret (gt_cnt t)) = Ret 1.
Proof. reflexivity. Qed.
