(* ===== verification/STree.v ===== *)
(** * Segment trees ([include/elm/stree/])

    A static tree that gives the value of the segment a key is in, with its builders
    from segments and from marks. The nodes are in one array, children being given by
    their indices; the first cells are the leaves, in the order of the keys. A cell is
    [None] until it is written, its bounds being indeterminate. *)

From stdpp Require Import list.
From S2P Require Import Prelude Ints Compare Avl.
#[local] Open Scope Z_scope.

Section Tree.
Context {K T : Type} `{Comparator K}.

(* src/include/elm/stree/Tree.h:35-49 Tree::node_t *)
Record snode := mkSN { sn_lb : K; sn_ub : K; sn_ll : Z; sn_rl : Z; sn_data : option T }.
Abbreviation nodes_t := (list (option snode)).

(* src/include/elm/stree/Tree.h:41-41 Tree::node_t::isLeaf *)
Definition snode_isLeaf (n : snode) : bool := sn_ll n =? -1.

Definition node_at (nodes : nodes_t) (i : Z) : outcome snode :=
  c ← rd nodes i; match c with Some n => Ret n | None => Crash Undefined end.

(* src/include/elm/stree/Tree.h:39-40 Tree::node_t::node_t *)
Definition leaf_node (lb ub : K) (data : option T) : snode := mkSN lb ub (-1) (-1) data.
(* src/include/elm/stree/Tree.h:37-38 Tree::node_t::node_t *)
Definition inner_node (s : nodes_t) (ll rl : Z) : outcome snode :=
  l ← node_at s ll; r ← node_at s rl; Ret (mkSN (sn_lb l) (sn_ub r) ll rl None).

(** The array is [None] when the pointer is null. *)
(* src/include/elm/stree/Tree.h:98-99 Tree *)
Record stree := mkST { st_root : Z; st_nodes : option nodes_t }.
(* src/include/elm/stree/Tree.h:51-51 Tree::Tree *)
Definition stree_make : stree := mkST (-1) None.

(* src/include/elm/stree/Tree.h:63-64 Tree::contains *)
Definition stree_contains (nodes : nodes_t) (root : Z) (key : K) : outcome bool :=
  n ← node_at nodes root;
  Ret ((0 <=? doCompare key (sn_lb n)) && (doCompare key (sn_ub n) <=? 0)).

(* src/include/elm/stree/Tree.h:88-93 Tree::find *)
Definition find_step (nodes : nodes_t) (key : K) (i : Z) : outcome (Z + Z) :=
  n ← node_at nodes i;
  if snode_isLeaf n then Ret (inr i)
  else
    r ← node_at nodes (sn_rl n);
    if doCompare key (sn_lb r) <? 0 then Ret (inl (sn_ll n)) else Ret (inl (sn_rl n)).
(** The data of the leaf, or nothing out of the tree. *)
(* src/include/elm/stree/Tree.h:83-95 Tree::find *)
Definition stree_find (t : stree) (key : K) : outcome (option T) :=
  match st_nodes t with
  | None => Crash AssertFailed
  | Some nodes =>
      assertP (0 <=? st_root t) ;;
      b ← stree_contains nodes (st_root t) key;
      if negb b then Ret None
      else
        i ← iter (S (length nodes)) (find_step nodes key) (st_root t);
        n ← node_at nodes i;
        match sn_data n with Some v => Ret (Some v) | None => Crash Undefined end
  end.
(* src/include/elm/stree/Tree.h:57-58 Tree::get *)
Definition stree_get_default (t : stree) (key : K) (def : T) : outcome T :=
  v ← stree_find t key; Ret (default def v).
(* src/include/elm/stree/Tree.h:59-60 Tree::get *)
Definition stree_get (t : stree) (key : K) : outcome T :=
  v ← stree_find t key; match v with Some v => Ret v | None => Crash AssertFailed end.

(** ** Building *)

(* src/include/elm/stree/Builder.h:33-36 Builder::allocate *)
Definition Builder_allocate (n : Z) : outcome nodes_t :=
  p ← leastUpperPowerOf2_32 (u32 n); Ret (replicate (Z.to_nat (n + p - 1)) None).

(** The result is the index of the root, the array and the new value of [s]. *)
(* src/include/elm/stree/Builder.h:38-49 Builder::make *)
Fixpoint Builder_make (fuel : nat) (nodes : nodes_t) (s start end_ : Z) : outcome (Z * nodes_t * Z) :=
  match fuel with
  | O => Crash OutOfFuel
  | S fuel =>
      if start =? end_ then Ret (start, nodes, s)
      else
        let m := Z.quot (start + end_) 2 in
        '(l, nodes, s) ← Builder_make fuel nodes s start m;
        '(u, nodes, s) ← Builder_make fuel nodes s (m + 1) end_;
        let p := s in
        n ← inner_node nodes l u;
        nodes ← wr nodes s (Some n);
        Ret (p, nodes, s + 1)
  end.

(** [nodes[i] = node_t(lb, ub); nodes[i++].data = data;] *)
Definition put_leaf (nodes : nodes_t) (i : Z) (lb ub : K) (data : T) : outcome (nodes_t * Z) :=
  nodes ← wr nodes i (Some (leaf_node lb ub (Some data))); Ret (nodes, i + 1).

(** *** From segments *)

(** A segment and its value; the map is sorted by the low bounds. *)
Definition segment : Type := (K * K) * T.
Definition low (p : segment) : K := p.1.1.
Definition high (p : segment) : K := p.1.2.
(* src/include/elm/stree/SegmentBuilder.h:96-97 SegmentBuilder *)
Record SegmentBuilder := mkSB { sb_segs : GenTree segment; sb_def : T }.
(* src/include/elm/stree/SegmentBuilder.h:41-41 SegmentBuilder::SegmentBuilder *)
Definition SegmentBuilder_make (def : T) : SegmentBuilder := mkSB GenTree_make def.
(* src/include/elm/stree/SegmentBuilder.h:43-45 SegmentBuilder::add *)
Definition SegmentBuilder_add (b : SegmentBuilder) (lo hi : K) (val : T) : outcome SegmentBuilder :=
  segs ← GenTree_add low (sb_segs b) ((lo, hi), val); Ret (mkSB segs (sb_def b)).

(* src/include/elm/stree/SegmentBuilder.h:58-64 SegmentBuilder::make *)
Fixpoint count_segments (p : K) (l : list segment) (cnt : Z) : Z :=
  match l with
  | [] => cnt
  | s :: l =>
      let cnt := if negb (doCompare (low s) p =? 0) then cnt + 1 else cnt in
      count_segments (high s) l (cnt + 1)
  end.
(* src/include/elm/stree/SegmentBuilder.h:77-86 SegmentBuilder::make *)
Fixpoint put_segments (def : T) (p : K) (l : list segment) (nodes : nodes_t) (i : Z) : outcome (nodes_t * Z) :=
  match l with
  | [] => Ret (nodes, i)
  | s :: l =>
      '(nodes, i) ← (if negb (doCompare (low s) p =? 0) then put_leaf nodes i p (low s) def else Ret (nodes, i));
      '(nodes, i) ← put_leaf nodes i (low s) (high s) s.2;
      put_segments def (high s) l nodes i
  end.
(* src/include/elm/stree/SegmentBuilder.h:47-93 SegmentBuilder::make *)
Definition SegmentBuilder_build (b : SegmentBuilder) (tree : stree) : outcome stree :=
  items ← GenTree_items (sb_segs b);
  match items with
  | [] => Ret tree
  | s :: l =>
      nodes ← Builder_allocate (count_segments (high s) l 1);
      '(nodes, i) ← put_leaf nodes 0 (low s) (high s) s.2;
      '(nodes, i) ← put_segments (sb_def b) (high s) l nodes i;
      '(root, nodes, i) ← Builder_make (S (length nodes)) nodes i 0 (i - 1);
      Ret (mkST root (Some nodes))
  end.

(** *** From marks *)

(* src/include/elm/stree/MarkerBuilder.h:62-62 MarkerBuilder *)
Definition MarkerBuilder : Type := GenTree (K * T).
(* src/include/elm/stree/MarkerBuilder.h:34-36 MarkerBuilder::add *)
Definition MarkerBuilder_add (b : MarkerBuilder) (mark : K) (val : T) : outcome MarkerBuilder := AvlMap_put b mark val.
(* src/include/elm/stree/MarkerBuilder.h:47-52 MarkerBuilder::make *)
Fixpoint put_marks (l : K * T) (marks : list (K * T)) (nodes : nodes_t) (i : Z) : outcome (nodes_t * Z) :=
  match marks with
  | [] => Ret (nodes, i)
  | u :: marks => '(nodes, i) ← put_leaf nodes i l.1 u.1 l.2; put_marks u marks nodes i
  end.
(* src/include/elm/stree/MarkerBuilder.h:38-59 MarkerBuilder::make *)
Definition MarkerBuilder_build (b : MarkerBuilder) (tree : stree) : outcome stree :=
  nodes ← Builder_allocate (gt_cnt b);
  items ← GenTree_items b;
  match items with
  | [] => Crash OutOfBounds
  | l :: marks =>
      '(nodes, i) ← put_marks l marks nodes 0;
      '(root, nodes, i) ← Builder_make (S (length nodes)) nodes i 0 (i - 1);
      Ret (mkST root (Some nodes))
  end.
End Tree.
Arguments snode : clear implicits.
Arguments stree : clear implicits.
Arguments segment : clear implicits.
Arguments SegmentBuilder : clear implicits.
Arguments MarkerBuilder : clear implicits.

(** ** The shape of a tree *)

Section Shape.
Context {K T : Type} `{TotalOrder K}.
Implicit Types (x y : segment K T) (l r ls : list (segment K T)) (nodes : list (option (snode K T))).

Definition leaf_of x : snode K T := leaf_node (low x) (high x) (Some x.2).

Lemma node_at_inv nodes i n : node_at nodes i = Ret n -> 0 <= i < zlen nodes /\ nodes !! Z.to_nat i = Some (Some n).
Proof.
  unfold node_at. intros (c & Hc & E)%bind_Ret_inv. apply rd_inv in Hc as [Hi Hc].
  destruct c; [|done]. injection E as ->. done.
Qed.
Lemma node_at_Some nodes i n : 0 <= i -> nodes !! Z.to_nat i = Some (Some n) -> node_at nodes i = Ret n.
Proof. intros Hi Hn. unfold node_at. by rewrite (rd_ok nodes i (Some n)). Qed.
Lemma node_at_insert nodes i n j : 0 <= i < zlen nodes -> 0 <= j ->
  node_at (<[Z.to_nat i := Some n]> nodes) j = if j =? i then Ret n else node_at nodes j.
Proof.
  intros Hi Hj. destruct (Z.eqb_spec j i) as [->|Hne].
  - apply node_at_Some; [done|]. apply list_lookup_insert_eq. lia.
  - unfold node_at, rd. rewrite (proj2 (Z.leb_le 0 j) Hj). by rewrite list_lookup_insert_ne by lia.
Qed.

(** The node [i] is the root of a tree whose leaves are those of a list; the children
    of a node are before it in the array. *)
Inductive tree_of nodes : Z -> list (segment K T) -> Prop :=
  | tree_leaf i x : node_at nodes i = Ret (leaf_of x) -> tree_of nodes i [x]
  | tree_inner p (l r : Z) x xs y ys z : node_at nodes p = Ret (mkSN (low x) (high z) l r None) ->
      0 <= l < p -> 0 <= r < p -> last (y :: ys) = Some z ->
      tree_of nodes l (x :: xs) -> tree_of nodes r (y :: ys) ->
      tree_of nodes p ((x :: xs) ++ y :: ys).

Lemma tree_of_same nodes nodes' i ls : tree_of nodes i ls -> (forall j, 0 <= j <= i -> node_at nodes' j = node_at nodes j) ->
  tree_of nodes' i ls.
Proof.
  induction 1 as [i x Hx|p l r x xs y ys z Hp Hl Hr Hz Hlt IHl Hrt IHr]; intros Hs.
  - apply tree_leaf. rewrite Hs; [done|]. apply node_at_inv in Hx. lia.
  - eapply tree_inner; [| exact Hl | exact Hr | exact Hz | apply IHl | apply IHr].
    + rewrite Hs by lia. exact Hp.
    + intros j Hj. apply Hs. lia.
    + intros j Hj. apply Hs. lia.
Qed.

(** The root has the bounds of its leaves. *)
Lemma tree_of_root nodes i ls : tree_of nodes i ls -> 0 <= i /\ exists n x l z, node_at nodes i = Ret n /\
  ls = x :: l /\ last ls = Some z /\ sn_lb n = low x /\ sn_ub n = high z.
Proof.
  destruct 1 as [i x Hx|p l r x xs y ys z Hp Hl Hr Hz _ _].
  - split; [apply node_at_inv in Hx; lia|]. by exists (leaf_of x), x, [], x.
  - split; [lia|]. exists (mkSN (low x) (high z) l r None), x, (xs ++ y :: ys), z. split_and!; [done|done| |done|done].
    by rewrite last_app, Hz.
Qed.

(** ** Building *)

Definition leaves_at nodes (start : Z) ls : Prop :=
  forall k x, ls !! k = Some x -> node_at nodes (start + Z.of_nat k) = Ret (leaf_of x).

Lemma leaves_at_app nodes start l r : leaves_at nodes start (l ++ r) ->
  leaves_at nodes start l /\ leaves_at nodes (start + zlen l) r.
Proof.
  intros Hl. split; intros k x Hk.
  - apply Hl. by apply lookup_app_l_Some.
  - replace (start + zlen l + Z.of_nat k) with (start + Z.of_nat (length l + k)) by lia. apply Hl.
    rewrite lookup_app_r by lia. by replace (length l + k - length l)%nat with k by lia.
Qed.
Lemma leaves_at_same nodes nodes' start ls s : leaves_at nodes start ls -> 0 <= start -> start + zlen ls <= s ->
  (forall j, 0 <= j < s -> node_at nodes' j = node_at nodes j) -> leaves_at nodes' start ls.
Proof.
  intros Hl H1 Hs Hn k x Hk. rewrite Hn; [by apply Hl|]. apply lookup_lt_Some in Hk. lia.
Qed.

Lemma inner_node_ok nodes (l r : Z) x xs y ys z : tree_of nodes l (x :: xs) -> tree_of nodes r (y :: ys) ->
  last (y :: ys) = Some z -> inner_node nodes l r = Ret (mkSN (low x) (high z) l r None).
Proof.
  intros (_ & n & x' & ? & ? & E & [= <- <-] & _ & Hlb & _)%tree_of_root
    (_ & m & ? & ? & z' & E' & _ & Ez & _ & Hub)%tree_of_root Hz.
  rewrite Hz in Ez. injection Ez as <-. unfold inner_node. rewrite E. mred. rewrite E'. mred. by rewrite Hlb, Hub.
Qed.

(** The recursive construction: it makes the tree of the leaves from [start] to
    [end_], in as many cells from [s] on as there are leaves but one, and leaves the
    cells before [s] unchanged. *)
Lemma Builder_make_ok fuel : forall nodes s start end_ ls, zlen ls = end_ - start + 1 -> 0 <= start <= end_ ->
  end_ < s -> s + (end_ - start) <= zlen nodes -> leaves_at nodes start ls -> (Z.to_nat (end_ - start) < fuel)%nat ->
  exists root nodes', Builder_make fuel nodes s start end_ = Ret (root, nodes', s + (end_ - start)) /\
    tree_of nodes' root ls /\ root < s + (end_ - start) /\ length nodes' = length nodes /\
    forall j, 0 <= j < s -> node_at nodes' j = node_at nodes j.
Proof.
  induction fuel as [|fuel IH]; intros nodes s start end_ ls Hlen Hse Hs Hcap Hlv Hf; [lia|].
  cbn [Builder_make]. destruct (Z.eqb_spec start end_) as [<-|Hne].
  { destruct ls as [|x [|]]; cbn [length] in Hlen; try lia. exists start, nodes. rewrite Z.sub_diag, Z.add_0_r.
    split_and!; [done| |lia|done|done]. apply tree_leaf. rewrite <- (Z.add_0_r start). by apply (Hlv 0%nat). }
  set (m := Z.quot (start + end_) 2).
  assert (start <= m < end_) as Hm by (subst m; rewrite Z.quot_div_nonneg by lia; Z.to_euclidean_division_equations; lia).
  rewrite <- (take_drop (Z.to_nat (m - start + 1)) ls) in Hlv |- *.
  set (xs := take (Z.to_nat (m - start + 1)) ls) in *. set (ys := drop (Z.to_nat (m - start + 1)) ls) in *.
  assert (zlen xs = m - start + 1) as Hxs by (subst xs; rewrite length_take; lia).
  assert (zlen ys = end_ - m) as Hys by (subst ys; rewrite length_drop; lia).
  apply leaves_at_app in Hlv as [Hlx Hly]. rewrite Hxs in Hly. replace (start + (m - start + 1)) with (m + 1) in Hly by lia.
  destruct (IH nodes s start m xs) as (l & n1 & -> & Htl & Hll & Hn1 & Hs1); [lia|lia|lia|lia|done|lia|]. mred.
  destruct (IH n1 (s + (m - start)) (m + 1) end_ ys) as (r & n2 & -> & Htr & Hrr & Hn2 & Hs2); [lia|lia|lia|lia| |lia|].
  { eapply leaves_at_same; [exact Hly|lia| |exact Hs1]. lia. }
  mred. destruct xs as [|x xs']; [cbn in Hxs; lia|]. destruct ys as [|y ys']; [cbn in Hys; lia|].
  pose proof (tree_of_root _ _ _ Htl) as [Hl0 _]. pose proof (tree_of_root _ _ _ Htr) as (Hr0 & _ & _ & _ & z & _ & _ & Hz & _).
  assert (tree_of n2 l (x :: xs')) as Htl2 by (eapply tree_of_same; [exact Htl|]; intros j Hj; apply Hs2; lia).
  rewrite (inner_node_ok n2 l r x xs' y ys' z) by done. mred. rewrite wr_ok by lia. mred.
  set (p := s + (m - start) + (end_ - (m + 1))).
  assert (forall j, 0 <= j < p -> node_at (<[Z.to_nat p := Some (mkSN (low x) (high z) l r None)]> n2) j = node_at n2 j) as Hs3.
  { intros j Hj. rewrite node_at_insert by lia. by rewrite (proj2 (Z.eqb_neq j p)) by lia. }
  exists p, (<[Z.to_nat p := Some (mkSN (low x) (high z) l r None)]> n2).
  split_and!; [f_equal; f_equal; lia| |lia|rewrite length_insert; lia|].
  - apply (tree_inner _ p l r x xs' y ys' z); [|lia|lia|done| |].
    + rewrite node_at_insert by lia. by rewrite Z.eqb_refl.
    + eapply tree_of_same; [exact Htl2|]. intros j Hj. apply Hs3. lia.
    + eapply tree_of_same; [exact Htr|]. intros j Hj. apply Hs3. lia.
  - intros j Hj. rewrite Hs3, Hs2, Hs1 by lia. done.
Qed.

(** ** Look up *)

(** The last leaf whose low bound is not after the key, or the first one. *)
Fixpoint pick (key : K) x l : segment K T :=
  match l with [] => x | y :: l => if doCompare key (low y) <? 0 then x else pick key y l end.

Lemma pick_left key y r : doCompare key (low y) < 0 -> forall l x, pick key x (l ++ y :: r) = pick key x l.
Proof.
  intros Hy. induction l as [|z l IH]; intros x; cbn [pick app].
  - by rewrite (proj2 (Z.ltb_lt _ 0)) by lia.
  - by destruct (_ <? 0).
Qed.
Lemma pick_right key y r : 0 <= doCompare key (low y) -> forall l x, csorted (low <$> (x :: l ++ y :: r)) ->
  pick key x (l ++ y :: r) = pick key y r.
Proof.
  intros Hy. induction l as [|z l IH]; intros x Hs; cbn [pick app].
  - by rewrite (proj2 (Z.ltb_ge _ 0)) by lia.
  - apply csorted_cons_inv in Hs as [Hs _]. cbn [app fmap list_fmap] in Hs.
    assert (~ clt key (low z)) as Hz.
    { intros Hz. apply csorted_cons_inv in Hs as [_ Hs].
      assert (clt (low z) (low y)) as Hzy by (apply Hs, list_elem_of_fmap_2, elem_of_app; right; left).
      pose proof (clt_trans _ _ _ Hz Hzy) as Hk. unfold clt in Hk. lia. }
    unfold clt in Hz. rewrite (proj2 (Z.ltb_ge _ 0)) by lia. by apply IH.
Qed.

Lemma find_loop_ok nodes key i ls : tree_of nodes i ls -> csorted (low <$> ls) ->
  forall x l fuel, ls = x :: l -> (Z.to_nat i < fuel)%nat ->
  exists j, iter fuel (find_step nodes key) i = Ret j /\ node_at nodes j = Ret (leaf_of (pick key x l)).
Proof.
  induction 1 as [i x Hx|p l r x xs y ys z Hp Hl Hr Hz Hlt IHl Hrt IHr]; intros Hs x' l' fuel E Hf.
  - injection E as <- <-. destruct fuel as [|fuel]; [lia|]. exists i. split; [|done].
    cbn [iter]. unfold find_step. by rewrite Hx.
  - injection E as <- <-. destruct fuel as [|fuel]; [lia|]. cbn [iter].
    assert (find_step nodes key p = if doCompare key (low y) <? 0 then Ret (inl l) else Ret (inl r)) as ->.
    { unfold find_step. rewrite Hp. mred. unfold snode_isLeaf. cbn [sn_ll sn_rl].
      rewrite (proj2 (Z.eqb_neq l (-1))) by lia.
      destruct (tree_of_root _ _ _ Hrt) as (_ & n & y' & ? & ? & En & [= <- <-] & _ & Hlb & _).
      rewrite En. mred. by rewrite Hlb. }
    assert (csorted (low <$> (x :: xs)) /\ csorted (low <$> (y :: ys))) as [Hsl Hsr].
    { rewrite fmap_app in Hs. apply StronglySorted_app in Hs. tauto. }
    destruct (Z.ltb_spec (doCompare key (low y)) 0) as [Hy|Hy]; mred.
    + rewrite pick_left by done. apply IHl; [done|done|lia].
    + rewrite pick_right by done. apply IHr; [done|done|lia].
Qed.

Lemma stree_find_ok nodes root x l z key : tree_of nodes root (x :: l) -> csorted (low <$> (x :: l)) ->
  last (x :: l) = Some z ->
  stree_find (mkST root (Some nodes)) key =
    Ret (if (0 <=? doCompare key (low x)) && (doCompare key (high z) <=? 0) then Some (pick key x l).2 else None).
Proof.
  intros Ht Hs Hz. pose proof (tree_of_root _ _ _ Ht) as (Hr0 & n & x' & l' & z' & En & [= <- <-] & Ez & Hlb & Hub).
  rewrite Hz in Ez. injection Ez as <-. unfold stree_find, stree_contains. cbn [st_nodes st_root].
  rewrite (proj2 (Z.leb_le _ _) Hr0). mred. rewrite En. mred. rewrite Hlb, Hub.
  destruct ((0 <=? doCompare key (low x)) && _); [|done]. mred.
  destruct (find_loop_ok nodes key root _ Ht Hs x l (S (length nodes)) eq_refl) as (j & -> & Hj).
  { apply node_at_inv in En. lia. }
  mred. by rewrite Hj.
Qed.

(** ** Contiguous leaves *)

(** The segments are not empty and each begins where the previous one ends. *)
Fixpoint contiguous (a : K) l : Prop :=
  match l with [] => True | x :: l => low x = a /\ clt (low x) (high x) /\ contiguous (high x) l end.

Lemma contiguous_after l : forall a y, contiguous a l -> y ∈ l -> cle a (low y) /\ clt (low y) (high y).
Proof.
  induction l as [|x l IH]; intros a y Hc Hy; [by apply elem_of_nil in Hy|].
  destruct Hc as (<- & Hx & Hc). apply elem_of_cons in Hy as [->|Hy]; [split; [apply cle_refl|done]|].
  destruct (IH _ _ Hc Hy). split; [by eapply cle_trans; [apply clt_cle|]|done].
Qed.
Lemma contiguous_sorted l : forall a, contiguous a l -> csorted (low <$> l).
Proof.
  induction l as [|x l IH]; intros a Hc; [constructor|]. destruct Hc as (<- & Hx & Hc).
  apply csorted_cons; [by eapply IH|]. intros k (y & -> & Hy)%list_elem_of_fmap.
  eapply clt_cle_trans; [exact Hx|]. by eapply contiguous_after.
Qed.
Lemma contiguous_cover l : forall a key z, contiguous a l -> last l = Some z -> cle a key -> clt key (high z) ->
  exists y, y ∈ l /\ cle (low y) key /\ clt key (high y).
Proof.
  induction l as [|x l IH]; intros a key z Hc Hz Ha Hk; [done|]. destruct Hc as (<- & Hx & Hc).
  destruct (cle_or_gt (high x) key) as [Hh|Hh]; [|exists x; split_and!; [by left|done|done]].
  destruct l as [|x' l].
  { injection Hz as <-. apply cle_not_gt in Hh. done. }
  destruct (IH (high x) key z Hc Hz Hh Hk) as (y & Hy & Hyk). exists y. split; [by right|done].
Qed.

(** The leaf that holds the key, the last one holding its high bound too. *)
Lemma pick_contiguous key l : forall a x y, contiguous a (x :: l) -> y ∈ x :: l -> cle (low y) key ->
  clt key (high y) \/ last (x :: l) = Some y -> pick key x l = y.
Proof.
  induction l as [|x' l IH]; intros a x y Hc Hy Hlo Hhi; cbn [pick].
  { by apply list_elem_of_singleton in Hy. }
  destruct Hc as (<- & Hx & Hc). pose proof Hc as (Hl & Hx' & Hc').
  assert (x' ∈ x' :: l) as Hin by by left.
  apply elem_of_cons in Hy as [->|Hy].
  - rewrite (proj2 (Z.ltb_lt _ 0)); [done|]. destruct Hhi as [Hhi|Hhi]; [by rewrite Hl|].
    assert (last (x' :: l) = Some x) as Hlast by exact Hhi. apply last_Some_elem_of in Hlast.
    destruct (contiguous_after _ _ _ Hc Hlast) as [Hh _]. apply cle_not_gt in Hh. done.
  - assert (cle (low x') key) as Hk.
    { eapply cle_trans; [|exact Hlo]. rewrite Hl. by eapply contiguous_after. }
    apply cle_not_gt in Hk. unfold clt in Hk. rewrite (proj2 (Z.ltb_ge _ 0)) by lia. by eapply IH.
Qed.

(** ** Filling the array *)

Definition cells ls (r : nat) : list (option (snode K T)) := ((fun x => Some (leaf_of x)) <$> ls) ++ replicate r None.

Lemma put_leaf_ok ls (r : nat) lo hi v :
  put_leaf (cells ls (S r)) (zlen ls) lo hi v = Ret (cells (ls ++ [((lo, hi), v)]) r, zlen (ls ++ [((lo, hi), v)])).
Proof.
  unfold put_leaf, cells. rewrite wr_ok by (rewrite length_app, length_fmap, length_replicate; lia). mred.
  rewrite length_app, Nat2Z.inj_add, Nat2Z.id. do 2 f_equal.
  rewrite insert_app_r_alt, length_fmap, Nat.sub_diag by (by rewrite length_fmap).
  rewrite fmap_app, <- app_assoc. done.
Qed.
Lemma leaves_at_cells ls (r : nat) : leaves_at (cells ls r) 0 ls.
Proof.
  intros k x Hk. apply node_at_Some; [lia|]. rewrite Z.add_0_l, Nat2Z.id. unfold cells.
  rewrite lookup_app_l by (rewrite length_fmap; by eapply lookup_lt_Some). by rewrite list_lookup_fmap, Hk.
Qed.
Lemma Builder_allocate_ok n : 0 < n < 2 ^ 31 ->
  exists r : nat, Builder_allocate (K := K) (T := T) n = Ret (replicate r None) /\ 2 * n - 1 <= Z.of_nat r.
Proof.
  intros Hn. unfold Builder_allocate. rewrite wrap_small by (split; lia).
  destruct (least_upper_ok n) as (p & -> & [[? _]|(_ & k & _ & _ & Hp & _)]); [lia|lia|]. mred.
  eexists. split; [reflexivity|]. lia.
Qed.

(** The tree made of leaves in the first cells, with the place they need. *)
Lemma build_leaves ls (r : nat) x l z : ls = x :: l -> contiguous (low x) ls -> last ls = Some z -> zlen ls - 1 <= Z.of_nat r ->
  exists root nodes i, Builder_make (S (length (cells ls r))) (cells ls r) (zlen ls) 0 (zlen ls - 1) = Ret (root, nodes, i) /\
  forall key, stree_find (mkST root (Some nodes)) key =
    Ret (if (0 <=? doCompare key (low x)) && (doCompare key (high z) <=? 0) then Some (pick key x l).2 else None).
Proof.
  intros -> Hc Hz Hr. set (ls := x :: l) in *.
  assert (length (cells ls r) = length ls + r)%nat as Hlen by (unfold cells; by rewrite length_app, length_fmap, length_replicate).
  assert (1 <= zlen ls) as H1 by (subst ls; cbn [length]; lia).
  destruct (Builder_make_ok (S (length (cells ls r))) (cells ls r) (zlen ls) 0 (zlen ls - 1) ls)
    as (root & nodes & E & Ht & _); [lia|lia|lia|lia|apply leaves_at_cells|lia|].
  exists root, nodes, (zlen ls + (zlen ls - 1 - 0)). split; [exact E|]. intros key.
  apply stree_find_ok; [exact Ht|by eapply contiguous_sorted|done].
Qed.

(** ** Segments *)

(** The leaves made of sorted segments: a leaf with the default value fills each gap. *)
Fixpoint fill (def : T) (p : K) l : list (segment K T) :=
  match l with
  | [] => []
  | s :: l => (if doCompare (low s) p =? 0 then [] else [((p, low s), def)]) ++ s :: fill def (high s) l
  end.

Lemma count_segments_ok def l : forall p cnt, count_segments p l cnt = cnt + zlen (fill def p l).
Proof.
  induction l as [|s l IH]; intros p cnt; cbn [count_segments fill]; [cbn; lia|].
  rewrite IH. destruct (_ =? 0); cbn [negb app length]; lia.
Qed.
Lemma put_segments_ok def l : forall p done (r : nat),
  put_segments def p l (cells done (length (fill def p l) + r)) (zlen done) =
  Ret (cells (done ++ fill def p l) r, zlen (done ++ fill def p l)).
Proof.
  induction l as [|[[lo hi] v] l IH]; intros p done r; cbn [put_segments fill]; [by rewrite app_nil_r|].
  unfold low, high. cbn [fst snd]. destruct (doCompare lo p =? 0); cbn [negb app length plus]; mred.
  - rewrite put_leaf_ok. mred. rewrite IH. by rewrite <- app_assoc.
  - rewrite put_leaf_ok. mred. rewrite put_leaf_ok. mred. rewrite IH. by rewrite <- !app_assoc.
Qed.

(** Segments in order that do not overlap. *)
Fixpoint chained (p : K) l : Prop :=
  match l with [] => True | s :: l => cle p (low s) /\ clt (low s) (high s) /\ chained (high s) l end.

Lemma fill_contiguous def l : forall p, chained p l -> contiguous p (fill def p l).
Proof.
  induction l as [|s l IH]; intros p Hc; [done|]. destruct Hc as (Hp & Hs & Hc). cbn [fill].
  destruct (compareP (low s) p) as [E|c Hlt _|c Hgt Hpos].
  - cbn. split_and!; [done|done|by apply IH].
  - apply cle_not_gt in Hp. done.
  - rewrite (proj2 (Z.eqb_neq c 0)) by lia. cbn. unfold low at 1 2, high at 1. cbn. split_and!; [done|done|done|done|by apply IH].
Qed.
Lemma fill_elem def l : forall p y, y ∈ fill def p l -> y ∈ l \/ y.2 = def.
Proof.
  induction l as [|s l IH]; intros p y Hy; [by left|]. cbn [fill] in Hy.
  apply elem_of_app in Hy as [Hy|[->|Hy]%elem_of_cons]; [|left; by left|destruct (IH _ _ Hy); [left; by right|by right]].
  destruct (_ =? 0); [by apply elem_of_nil in Hy|]. apply list_elem_of_singleton in Hy as ->. by right.
Qed.
Lemma fill_in def l : forall p y, y ∈ l -> y ∈ fill def p l.
Proof.
  induction l as [|s l IH]; intros p y Hy; [by apply elem_of_nil in Hy|]. cbn [fill]. apply elem_of_app. right.
  apply elem_of_cons in Hy as [->|Hy]; [by left|right; by apply IH].
Qed.
Lemma fill_last def l : forall s p, last (s :: fill def p l) = last (s :: l).
Proof.
  induction l as [|t l IH]; intros s p; [done|]. cbn [fill]. rewrite (last_cons_cons s t l), <- (IH t (high t)).
  destruct (_ =? 0); done.
Qed.
Lemma fill_length def l : forall p, zlen (fill def p l) <= 2 * zlen l.
Proof.
  induction l as [|s l IH]; intros p; cbn [fill]; [cbn; lia|]. rewrite length_app.
  specialize (IH (high s)). unfold segment in *. destruct (_ =? 0); cbn [length]; lia.
Qed.

(** Segments that do not overlap. *)
Definition apart x y : Prop := cle (high x) (low y) \/ cle (high y) (low x).
Record segments_ok l : Prop := {
  so_nonempty x : x ∈ l -> clt (low x) (high x);
  so_apart x y : x ∈ l -> y ∈ l -> x = y \/ apart x y }.

Lemma segments_coherent l x y : segments_ok l -> x ∈ l -> y ∈ l -> low x = low y -> x = y.
Proof.
  intros [Hn Ha] Hx Hy E. destruct (Ha x y Hx Hy) as [?|[Hc|Hc]]; [done| |]; apply cle_not_gt in Hc; exfalso; apply Hc.
  - rewrite <- E. by apply Hn.
  - rewrite E. by apply Hn.
Qed.
Lemma segments_chained l : forall p, csorted (low <$> l) -> segments_ok l -> (forall x, x ∈ l -> cle p (low x)) -> chained p l.
Proof.
  induction l as [|s l IH]; intros p Hs Hok Hp; [done|].
  pose proof Hs as [Hs' Hlow]%csorted_cons_inv. cbn [chained].
  split_and!; [apply Hp; by left|apply Hok; by left|]. apply IH; [done| |].
  - destruct Hok as [Hn Ha]. split; intros; [apply Hn; by right|apply Ha; by right].
  - intros x Hx. assert (clt (low s) (low x)) as Hlt by by apply Hlow, list_elem_of_fmap_2.
    destruct (so_apart _ Hok s x) as [->|[Hc|Hc]]; [by left|by right|by apply clt_irrefl in Hlt|done|].
    exfalso. apply cle_not_gt in Hc. apply Hc. eapply clt_trans; [exact Hlt|]. apply Hok. by right.
Qed.

Definition add_segments (b : SegmentBuilder K T) l : outcome (SegmentBuilder K T) :=
  foldl (fun m s => m ≫= fun b => SegmentBuilder_add b (low s) (high s) s.2) (Ret b) l.
Lemma add_segments_run def l : add_segments (SegmentBuilder_make def) l =
  (t ← foldl (fun m x => m ≫= fun t => GenTree_add low t x) (Ret GenTree_make) l; Ret (mkSB t def)).
Proof.
  unfold add_segments. change (Ret (SegmentBuilder_make def)) with
    (t ← Ret GenTree_make; Ret (mkSB (K := K) (T := T) t def)).
  generalize (Ret (A := GenTree (segment K T)) GenTree_make). induction l as [|x l IH]; intros m; [done|].
  cbn [foldl]. rewrite <- IH. f_equal. destruct m as [t|]; [|done]. mred. unfold SegmentBuilder_add. mred. cbn [sb_segs sb_def].
  by destruct x as [[? ?] ?].
Qed.

(** The answers of a tree of segments. *)
Record seg_answers (def : T) l (find : K -> outcome (option T)) : Prop := {
  sa_inside s key : s ∈ l -> cle (low s) key -> clt key (high s) -> find key = Ret (Some s.2);
  sa_gap key : (exists s, s ∈ l /\ cle (low s) key) -> (exists s, s ∈ l /\ clt key (high s)) ->
    (forall s, s ∈ l -> ~ (cle (low s) key /\ clt key (high s))) -> find key = Ret (Some def);
  sa_last s : s ∈ l -> (forall t, t ∈ l -> cle (high t) (high s)) -> find (high s) = Ret (Some s.2);
  sa_outside key : (forall s, s ∈ l -> clt key (low s)) \/ (forall s, s ∈ l -> clt (high s) key) -> find key = Ret None }.

Lemma contiguous_last ls : forall a y z, contiguous a ls -> last ls = Some z -> y ∈ ls -> y = z \/ cle (high y) (low z).
Proof.
  induction ls as [|x l IH]; intros a y z Hc Hz Hy; [done|]. destruct Hc as (_ & Hx & Hc).
  destruct l as [|x' l]; [injection Hz as <-; left; by apply list_elem_of_singleton in Hy|].
  apply elem_of_cons in Hy as [->|Hy]; [|by eapply IH]. right.
  eapply contiguous_after; [exact Hc|]. by apply last_Some_elem_of.
Qed.
Lemma guard_true (b c : Z) : (0 <=? b) && (c <=? 0) = true <-> 0 <= b /\ c <= 0.
Proof. by rewrite andb_true_iff, !Z.leb_le. Qed.
Lemma cle_opp (x y : K) : cle x y <-> 0 <= doCompare y x.
Proof. rewrite cle_not_gt. unfold clt. lia. Qed.

Lemma leaves_answer def x l z find : chained (low x) (x :: l) -> last (x :: fill def (high x) l) = Some z ->
  (forall key, find key = Ret (if (0 <=? doCompare key (low x)) && (doCompare key (high z) <=? 0)
                               then Some (pick key x (fill def (high x) l)).2 else None)) ->
  seg_answers def (x :: l) find.
Proof.
  intros (_ & Hx & Hc) Hz Hf. set (ls := x :: fill def (high x) l) in *.
  assert (contiguous (low x) ls) as Hls by (split_and!; [done|done|by apply fill_contiguous]).
  assert (forall s, s ∈ x :: l -> s ∈ ls) as Hin.
  { intros s [->|Hs]%elem_of_cons; [by left|right; by apply fill_in]. }
  assert (forall key y, y ∈ ls -> cle (low y) key -> clt key (high y) \/ y = z /\ key = high z -> find key = Ret (Some y.2)) as Hpick.
  { intros key y Hy Hlo Hhi. rewrite Hf. destruct (contiguous_after _ _ _ Hls Hy) as [Hxy Hne].
    rewrite (proj2 (guard_true _ _)).
    - erewrite (pick_contiguous key _ _ x y Hls Hy Hlo); [done|]. destruct Hhi as [?|[-> _]]; [by left|by right].
    - rewrite <- cle_opp. fold (cle key (high z)). split; [by eapply cle_trans|].
      destruct Hhi as [Hhi|[-> ->]]; [|apply cle_refl].
      destruct (contiguous_last _ _ _ _ Hls Hz Hy) as [->|Hyz]; [by apply clt_cle|].
      eapply cle_trans; [by apply clt_cle|]. eapply cle_trans; [exact Hyz|]. apply clt_cle.
      eapply contiguous_after; [exact Hls|]. by apply last_Some_elem_of. }
  pose proof (fill_last def l x (high x)) as Hlast. fold ls in Hlast. rewrite Hz in Hlast. symmetry in Hlast.
  pose proof (last_Some_elem_of _ _ Hlast) as Hzl.
  split.
  - intros s key Hs Hlo Hhi. apply Hpick; [by apply Hin|done|by left].
  - intros key (s & Hs & Hlo) (t & Ht & Hhi) Hno.
    destruct (contiguous_cover ls (low x) key z Hls Hz) as (y & Hy & Hyl & Hyh).
    + eapply cle_trans; [|exact Hlo]. eapply contiguous_after; [exact Hls|]. by apply Hin.
    + destruct (contiguous_last _ _ t _ Hls Hz ltac:(by apply Hin)) as [->|Htz]; [done|].
      eapply clt_trans; [exact Hhi|]. eapply cle_clt_trans; [exact Htz|].
      eapply contiguous_after; [exact Hls|]. by apply Hin.
    + rewrite (Hpick key y Hy Hyl ltac:(by left)). do 2 f_equal.
      apply elem_of_cons in Hy as [->|Hy]; [exfalso; by apply (Hno x); [left|]|].
      destruct (fill_elem _ _ _ _ Hy) as [Hyl'|?]; [|done]. exfalso. by apply (Hno y); [right|].
  - intros s Hs Hmax. destruct (contiguous_last _ _ s _ Hls Hz ltac:(by apply Hin)) as [->|Hsz].
    + apply Hpick; [by apply Hin| |by right]. apply clt_cle. eapply contiguous_after; [exact Hls|]. by apply Hin.
    + exfalso. pose proof (Hmax z Hzl) as Hm. apply cle_not_gt in Hm. apply Hm. eapply cle_clt_trans; [exact Hsz|].
      eapply contiguous_after; [exact Hls|]. by apply Hin.
  - intros key Hout. rewrite Hf. destruct (_ && _) eqn:E; [|done]. exfalso.
    apply guard_true in E as [E1 E2]. rewrite <- cle_opp in E1. fold (cle key (high z)) in E2.
    rewrite cle_not_gt in E1, E2. destruct Hout as [Ho|Ho]; [apply E1, Ho; by left|by apply E2, Ho].
Qed.

Lemma SegmentBuilder_build_ok def segs tree0 : segments_ok segs -> segs <> [] -> zlen segs < ITER_LIMIT ->
  exists b tree, add_segments (SegmentBuilder_make def) segs = Ret b /\ SegmentBuilder_build b tree0 = Ret tree /\
    seg_answers def segs (stree_find tree).
Proof.
  intros Hok Hne Hn. unfold ITER_LIMIT in Hn.
  destruct (add_coherent_ok low segs) as (t & E & Ht & Hc & Hel).
  { intros x y. by apply segments_coherent. }
  { unfold NODE_LIMIT. lia. }
  rewrite add_segments_run, E. mred. exists (mkSB t def).
  unfold SegmentBuilder_build. cbn [sb_segs sb_def].
  rewrite (GenTree_items_ok t (to_avl _ _ Ht) (to_cnt _ _ Ht)) by (unfold ITER_LIMIT; lia). mred.
  pose proof (to_sorted _ _ Ht) as Hs. pose proof (to_cnt _ _ Ht) as Hcnt.
  destruct (elements (gt_root t)) as [|x l] eqn:El.
  { exfalso. destruct segs as [|x segs]; [done|]. apply (not_elem_of_nil x), Hel. by left. }
  assert (segments_ok (x :: l)) as Hok' by (destruct Hok; split; setoid_rewrite Hel; done).
  assert (chained (low x) (x :: l)) as Hch.
  { apply segments_chained; [done|done|]. apply csorted_cons_inv in Hs as [_ Hs].
    intros y [->|Hy]%elem_of_cons; [apply cle_refl|]. by apply clt_cle, Hs, list_elem_of_fmap_2. }
  rewrite (count_segments_ok def). pose proof (fill_length def l (high x)) as Hfl. cbn [length] in Hcnt.
  destruct (Builder_allocate_ok (1 + zlen (fill def (high x) l))) as (r & -> & Hr); [unfold segment in *; lia|]. mred.
  set (gaps := fill def (high x) l) in *.
  replace r with (S (length gaps + (r - S (length gaps)))) by (unfold segment in *; lia).
  rewrite (put_leaf_ok [] (length gaps + (r - S (length gaps)))). mred.
  rewrite (put_segments_ok def l (high x)). mred.
  assert (last (x :: gaps) <> None) as Hz by by rewrite last_None.
  destruct (last (x :: gaps)) as [z|] eqn:Ez; [|done].
  match goal with |- context [cells ?ls _] => assert (ls = x :: gaps) as -> by (by destruct x as [[? ?] ?]) end.
  destruct (build_leaves (x :: gaps) (r - S (length gaps)) x gaps z) as (root & nodes & i & -> & Hf); [done| |done| |].
  { destruct Hch as (_ & Hx & Hch). split_and!; [done|done|by apply fill_contiguous]. }
  { cbn [length]. unfold segment in *. lia. }
  mred. eexists. split_and!; [reflexivity|reflexivity|].
  pose proof (leaves_answer def x l z _ Hch Ez Hf) as [A1 A2 A3 A4].
  split; intros; [apply A1|apply A2|apply A3|apply A4]; repeat (setoid_rewrite Hel || assumption).
Qed.

(** ** Marks *)

(** The segments between the marks: the value of a mark holds up to the next one. *)
Fixpoint spans (m : K * T) (marks : list (K * T)) : list (segment K T) :=
  match marks with [] => [] | n :: marks => ((m.1, n.1), m.2) :: spans n marks end.

Lemma put_marks_ok marks : forall m done (r : nat),
  put_marks m marks (cells done (length marks + r)) (zlen done) =
  Ret (cells (done ++ spans m marks) r, zlen (done ++ spans m marks)).
Proof.
  induction marks as [|n marks IH]; intros m done r; cbn [put_marks spans length plus]; [by rewrite app_nil_r|].
  rewrite put_leaf_ok. mred. rewrite IH. by rewrite <- app_assoc.
Qed.
Lemma spans_length marks : forall m, length (spans m marks) = length marks.
Proof. induction marks as [|n marks IH]; intros m; [done|]. cbn. by rewrite IH. Qed.
Lemma spans_chained marks : forall m, csorted (fst <$> (m :: marks)) -> chained m.1 (spans m marks).
Proof.
  induction marks as [|n marks IH]; intros m Hs; [done|]. apply csorted_cons_inv in Hs as [Hs Hm].
  cbn. split_and!; [apply cle_refl|apply Hm; by left|by apply IH].
Qed.
Lemma fill_spans def marks : forall m, fill def m.1 (spans m marks) = spans m marks.
Proof.
  induction marks as [|n marks IH]; intros m; [done|]. cbn [spans fill].
  unfold low, high. cbn [fst snd]. rewrite compare_refl. cbn [Z.eqb app]. by rewrite IH.
Qed.

(** The mark of a key: the last one that is not after it, when there is one after. *)
Definition mark_of (marks : list (K * T)) key (m : K * T) : Prop :=
  m ∈ marks /\ cle m.1 key /\ (forall n, n ∈ marks -> cle n.1 key -> cle n.1 m.1) /\
  exists n, n ∈ marks /\ clt key n.1.
Lemma mark_span key m marks : forall x : K * T, csorted (fst <$> (x :: marks)) -> mark_of (x :: marks) key m ->
  exists n, n ∈ marks /\ ((m.1, n.1), m.2) ∈ spans x marks /\ clt key n.1.
Proof.
  induction marks as [|n marks IH]; intros x Hs (Hm & Hk & Hmax & (u & Hu & Hku)).
  { apply list_elem_of_singleton in Hm, Hu. subst. exfalso. by apply cle_not_gt in Hk. }
  apply csorted_cons_inv in Hs as [Hs Hx].
  destruct (cle_or_gt n.1 key) as [Hn|Hn].
  - destruct (IH n Hs) as (w & Hw & Hin & Hkw); [|exists w; split_and!; [by right|by right|done]].
    assert (clt x.1 n.1) as Hxn by (apply Hx; by left). split_and!; [|done| |].
    + apply elem_of_cons in Hm as [->|Hm]; [|done]. exfalso.
      pose proof (Hmax n ltac:(right; by left) Hn) as Hc. by apply cle_not_gt in Hc.
    + intros w Hw. apply Hmax. by right.
    + exists u. split; [|done]. apply elem_of_cons in Hu as [->|Hu]; [|done]. exfalso.
      apply (clt_asym key x.1 Hku). eapply clt_cle_trans; [exact Hxn|done].
  - exists n. split; [by left|]. split; [|done]. apply elem_of_cons in Hm as [->|Hm]; [by left|]. exfalso.
    apply cle_not_gt in Hk. apply Hk. apply elem_of_cons in Hm as [->|Hm]; [done|]. eapply clt_trans; [exact Hn|].
    apply csorted_cons_inv in Hs as [_ Hs]. by apply Hs, list_elem_of_fmap_2.
Qed.
Lemma spans_bounds marks : forall (x : K * T) s, s ∈ spans x marks ->
  (exists m, m ∈ x :: marks /\ low s = m.1) /\ exists n, n ∈ marks /\ high s = n.1.
Proof.
  induction marks as [|n marks IH]; intros x s Hs; [by apply elem_of_nil in Hs|].
  apply elem_of_cons in Hs as [->|Hs].
  - split; [exists x|exists n]; (split; [by left|done]).
  - destruct (IH n s Hs) as [(m & Hm & E) (w & Hw & E')]. split; [exists m|exists w]; (split; [by right|done]).
Qed.

Definition add_marks (b : MarkerBuilder K T) (marks : list (K * T)) : outcome (MarkerBuilder K T) :=
  foldl (fun m (x : K * T) => m ≫= fun b => MarkerBuilder_add b x.1 x.2) (Ret b) marks.

Lemma add_marks_run marks b : add_marks b marks = foldl (fun m (x : K * T) => m ≫= fun t => GenTree_add fst t x) (Ret b) marks.
Proof.
  unfold add_marks. assert (forall m : outcome (GenTree (K * T)),
    foldl (fun m (x : K * T) => m ≫= fun b => MarkerBuilder_add b x.1 x.2) m marks =
    foldl (fun m (x : K * T) => m ≫= fun t => GenTree_add fst t x) m marks) as E; [|apply E].
  induction marks as [|[k v] l IH]; intros m; [done|]. apply IH.
Qed.

Lemma MarkerBuilder_build_ok marks tree0 : (forall x y : K * T, x ∈ marks -> y ∈ marks -> x.1 = y.1 -> x = y) ->
  (exists x y : K * T, x ∈ marks /\ y ∈ marks /\ x <> y) -> zlen marks < ITER_LIMIT ->
  exists b tree, add_marks GenTree_make marks = Ret b /\ MarkerBuilder_build b tree0 = Ret tree /\
    (forall key m, mark_of marks key m -> stree_find tree key = Ret (Some m.2)) /\
    (forall key, (forall m, m ∈ marks -> clt key m.1) \/ (forall m, m ∈ marks -> clt m.1 key) -> stree_find tree key = Ret None).
Proof.
  intros Hco (x0 & y0 & Hx0 & Hy0 & Hne) Hn. unfold ITER_LIMIT in Hn.
  destruct (add_coherent_ok fst marks Hco) as (t & E & Ht & Hc & Hel); [unfold NODE_LIMIT; lia|].
  exists t. unfold MarkerBuilder_build. assert (add_marks GenTree_make marks = Ret t) as Hrun by (rewrite add_marks_run; exact E).
  rewrite (GenTree_items_ok t (to_avl _ _ Ht) (to_cnt _ _ Ht)) by (unfold ITER_LIMIT; lia).
  pose proof (to_sorted _ _ Ht) as Hs. pose proof (to_cnt _ _ Ht) as Hcnt.
  destruct (elements (gt_root t)) as [|x [|n ms]] eqn:El.
  { exfalso. by apply (not_elem_of_nil x0), Hel. }
  { exfalso. apply Hel, list_elem_of_singleton in Hx0, Hy0. congruence. }
  cbn [length] in Hcnt. destruct (Builder_allocate_ok (gt_cnt t)) as (r & -> & Hr); [lia|]. mred.
  replace r with (length (n :: ms) + (r - length (n :: ms)))%nat by (cbn [length]; lia).
  pose proof (put_marks_ok (n :: ms) x [] (r - length (n :: ms))) as Hput.
  change (put_marks x (n :: ms) (replicate (length (n :: ms) + (r - length (n :: ms))) None) 0 = Ret (cells (spans x (n :: ms))
    (r - length (n :: ms)), zlen (spans x (n :: ms)))) in Hput. rewrite Hput. clear Hput. mred.
  set (x1 := ((x.1, n.1), x.2) : segment K T). set (l := spans n ms). change (spans x (n :: ms)) with (x1 :: l).
  pose proof (spans_chained (n :: ms) x Hs) as Hch. change (chained (low x1) (x1 :: l)) in Hch.
  assert (fill x.2 (high x1) l = l) as Hfill by apply fill_spans.
  assert (last (x1 :: l) <> None) as Hz by by rewrite last_None.
  destruct (last (x1 :: l)) as [z|] eqn:Ez; [|done].
  destruct (build_leaves (x1 :: l) (r - length (n :: ms)) x1 l z) as (root & nodes & i & -> & Hf); [done| |done| |].
  { destruct Hch as (_ & Hx & Hch). split_and!; [done|done|]. rewrite <- Hfill. by apply fill_contiguous. }
  { pose proof (spans_length ms n) as Hsl. fold l in Hsl. cbn [length]. unfold segment in *. lia. }
  mred. eexists. split_and!; [exact Hrun|reflexivity| |].
  all: pose proof (leaves_answer x.2 x1 l z (stree_find (mkST root (Some nodes))) Hch) as Ha; rewrite Hfill in Ha;
    destruct (Ha Ez Hf) as [A1 _ _ A4].
  - intros key m Hm. destruct (mark_span key m (n :: ms) x Hs) as (u & _ & Hu & Hku).
    { destruct Hm as (H1 & H2 & H3 & (w & H4 & H5)). split_and!; [by apply Hel|done| |exists w; split; [by apply Hel|done]].
      intros v Hv. apply H3. by apply Hel. }
    apply (A1 _ key Hu); [apply Hm|done].
  - intros key Hout. apply A4.
    destruct Hout as [Ho|Ho]; [left|right]; intros s Hsp; destruct (spans_bounds (n :: ms) x s Hsp) as [(m & Hm & E1) (w & Hw & E2)];
      [rewrite E1|rewrite E2]; apply Ho, Hel; [done|by right].
Qed.
End Shape.

(** [C12] Segments that are not empty and do not overlap, at least one and fewer than
    5702886 (the limit of the iterator of their map), added in any order, make a tree that
    answers for every key from the lowest bound, inclusive, to the highest one, exclusive:
    the value of the segment that holds the key, its low bound included and its high one
    not, and the default value between the segments. *)
Theorem SegmentBuilder_finds {K T} `{TotalOrder K} (def : T) (segs : list (segment K T)) tree0 :
  segments_ok segs -> segs <> [] -> zlen segs < ITER_LIMIT ->
  exists b tree, add_segments (SegmentBuilder_make def) segs = Ret b /\ SegmentBuilder_build b tree0 = Ret tree /\
    (forall s key, s ∈ segs -> cle (low s) key -> clt key (high s) -> stree_find tree key = Ret (Some s.2)) /\
    (forall key, (exists s, s ∈ segs /\ cle (low s) key) -> (exists s, s ∈ segs /\ clt key (high s)) ->
       (forall s, s ∈ segs -> ~ (cle (low s) key /\ clt key (high s))) -> stree_find tree key = Ret (Some def)).
Proof.
  intros Hok Hne Hn. destruct (SegmentBuilder_build_ok def segs tree0 Hok Hne Hn) as (b & tree & Eb & Et & []).
  exists b, tree. by split_and!.
Qed.

Definition demo_segments : list (segment Z Z) := [((20, 30), 2); ((0, 10), 1); ((30, 40), 3)].

Lemma SegmentBuilder_finds_witness : exists b tree, add_segments (SegmentBuilder_make (-1)) demo_segments = Ret b /\
  SegmentBuilder_build b stree_make = Ret tree /\ mapM (stree_find tree) [0; 5; 10; 15; 29; 30; 39] =
  Ret [Some 1; Some 1; Some (-1); Some (-1); Some 2; Some 3; Some 3].
Proof.
  destruct (SegmentBuilder_finds (-1) demo_segments stree_make) as (b & tree & Eb & Et & _); [|done|done|].
  - split; unfold apart, demo_segments; intros x.
    + intros Hx. repeat (apply elem_of_cons in Hx as [->|Hx]; [vm_compute; done|]). by apply elem_of_nil in Hx.
    + intros y Hx Hy. repeat (apply elem_of_cons in Hx as [->|Hx]); [| | |by apply elem_of_nil in Hx];
        (repeat (apply elem_of_cons in Hy as [->|Hy]; [vm_compute; intuition congruence|]); by apply elem_of_nil in Hy).
  - exists b, tree. split; [exact Eb|]. split; [exact Et|]. vm_compute in Eb. injection Eb as <-.
    vm_compute in Et. injection Et as <-. vm_compute. reflexivity.
Defined.

(** At least two distinct marks, added in any order, make a tree that gives a key the
    value of the last mark that is not after it, if there is a mark after it, and
    nothing before the first mark and after the last one. *)
Theorem MarkerBuilder_finds {K T} `{TotalOrder K} (marks : list (K * T)) tree0 :
  (forall x y, x ∈ marks -> y ∈ marks -> x.1 = y.1 -> x = y) ->
  (exists x y, x ∈ marks /\ y ∈ marks /\ x <> y) -> zlen marks < ITER_LIMIT ->
  exists b tree, add_marks GenTree_make marks = Ret b /\ MarkerBuilder_build b tree0 = Ret tree /\
    (forall key m, mark_of marks key m -> stree_find tree key = Ret (Some m.2)) /\
    (forall key, (forall m, m ∈ marks -> clt key m.1) \/ (forall m, m ∈ marks -> clt m.1 key) ->
       stree_find tree key = Ret None).
Proof. apply MarkerBuilder_build_ok. Qed.

Definition demo_marks : list (Z * Z) := [(10, 1); (0, 0); (20, 2)].

Lemma MarkerBuilder_finds_witness : exists b tree, add_marks GenTree_make demo_marks = Ret b /\
  MarkerBuilder_build b stree_make = Ret tree /\ mapM (stree_find tree) [-1; 5; 10; 19; 21] =
  Ret [None; Some 0; Some 1; Some 1; None].
Proof.
  destruct (MarkerBuilder_finds demo_marks stree_make) as (b & tree & Eb & Et & _).
  - intros x y Hx Hy. unfold demo_marks in *. repeat (apply elem_of_cons in Hx as [->|Hx]); [| | |by apply elem_of_nil in Hx];
      (repeat (apply elem_of_cons in Hy as [->|Hy]; [done|]); by apply elem_of_nil in Hy).
  - exists (10, 1), (0, 0). by_decide.
  - done.
  - exists b, tree. split; [exact Eb|]. split; [exact Et|]. vm_compute in Eb. injection Eb as <-.
    vm_compute in Et. injection Et as <-. vm_compute. reflexivity.
Defined.

(** *** What goes wrong *)

(** A single mark makes no leaf: the construction recurses without end. *)
Lemma Builder_make_1_0 nodes s fuel : Builder_make (K := Z) (T := Z) fuel nodes s 1 0 = Crash OutOfFuel.
Proof. induction fuel as [|fuel IH]; [done|]. cbn [Builder_make]. change (1 =? 0) with false. cbv iota. change (Z.quot (1 + 0) 2) with 0. by rewrite IH. Qed.
Example Builder_make_empty nodes s fuel : Builder_make (K := Z) (T := Z) fuel nodes s 0 (-1) = Crash OutOfFuel.
Proof.
  destruct fuel as [|fuel]; [done|]. cbn [Builder_make]. change (0 =? -1) with false. cbv iota. change (Z.quot (0 + -1) 2) with 0.
  destruct fuel as [|fuel]; [done|]. cbn [Builder_make]. change (0 =? 0) with true. cbv iota. mred.
  change (0 + 1 =? -1) with false. cbv iota. change (Z.quot (0 + 1 + -1) 2) with 0. by rewrite Builder_make_1_0.
Qed.
Example MarkerBuilder_single_mark :
  (b ← add_marks GenTree_make [(10, 1)]; MarkerBuilder_build b stree_make) = Crash (A := stree Z Z) OutOfFuel.
Proof. vm_compute. reflexivity. Qed.

(** Without segment the tree is left unchanged, and a look up in a new tree asserts. *)
Example SegmentBuilder_empty : (tree ← SegmentBuilder_build (SegmentBuilder_make 0) stree_make; stree_find tree 5) = Crash AssertFailed.
Proof. vm_compute. reflexivity. Qed.

(** A segment that overlaps another hides part of it, and both bounds of a gap are out of order. *)
Example SegmentBuilder_overlap :
  (b ← add_segments (SegmentBuilder_make (-1)) [((0, 20), 1); ((10, 30), 2)]; tree ← SegmentBuilder_build b stree_make;
   mapM (stree_find tree) [5; 12; 25]) = Ret [Some 1; Some 2; Some 2].
Proof. vm_compute. reflexivity. Qed.

(** The last segment holds its high bound too, and out of the segments nothing is found,
    not even the default value. *)
Example SegmentBuilder_outside :
  (b ← add_segments (SegmentBuilder_make (-1)) demo_segments; tree ← SegmentBuilder_build b stree_make;
   mapM (stree_find tree) [-5; 40; 41]) = Ret [None; Some 3; None].
Proof. vm_compute. reflexivity. Qed.
