(* ===== verification/Streams.v ===== *)
(** * Byte streams ([include/elm/io/OutStream.h], [InStream.h], [src/io_B*Stream.cpp],
    [src/block_DynBlock.cpp], [src/io_TeeOutStream.cpp])

    The virtual classes [OutStream] and [InStream] are type classes over the
    state of the stream.  A reliable stream is one whose operations never fail
    ([ReliableOut], [ReliableIn]); the streams in memory are reliable, and the
    buffered and tee streams are reliable over reliable streams.  [write] gets
    the block of bytes it writes: its size is the length of the list. *)

From S2P Require Import Prelude.

(* src/include/elm/io/OutStream.h:30-40 OutStream *)
Class OutStream (S : Type) := {
  out_write : S -> list Z -> outcome (Z * S);
  out_writeByte : S -> Z -> outcome (Z * S);
  out_flush : S -> outcome (Z * S) }.

(** The version of [write] for one byte that streams inherit. *)
(* src/src/io_OutStream.cpp:54-57 OutStream::write *)
Definition OutStream_writeByte {S} (write : S -> list Z -> outcome (Z * S)) (s : S) (byte : Z)
    : outcome (Z * S) :=
  write s [byte].

(* src/include/elm/io/InStream.h:31-32 InStream::FAILED *)
Definition IN_FAILED : Z := -1.
(* src/include/elm/io/InStream.h:32-32 InStream::ENDED *)
Definition IN_ENDED : Z := -2.

(** [read(buffer, size)] gives its result and the bytes put in the buffer. *)
(* src/include/elm/io/InStream.h:29-39 InStream *)
Class InStream (S : Type) := {
  in_read : S -> Z -> outcome (Z * list Z * S);
  in_readByte : S -> outcome (Z * S) }.

(** The version of [read] for one byte that streams inherit. *)
(* src/src/io_InStream.cpp:63-72 InStream::read *)
Definition InStream_readByte {S} (read : S -> Z -> outcome (Z * list Z * S)) (s : S)
    : outcome (Z * S) :=
  m ← read s 1;
  let '(size, buf, s) := m in
  if size =? 1 then b ← rd buf 0; Ret (u8 b, s)
  else if size =? 0 then Ret (IN_ENDED, s) else Ret (IN_FAILED, s).

(** ** The interface that clients rely on *)

(** [sent s l]: [l] has been sent to [s], since its creation. *)
Class ReliableOut (S : Type) `{OutStream S} (sent : S -> list Z -> Prop) := {
  write_law s l b : sent s l -> exists r s', out_write s b = Ret (r, s') /\ 0 <= r /\ sent s' (l ++ b);
  writeByte_law s l x : sent s l -> exists r s', out_writeByte s x = Ret (r, s') /\ 0 <= r /\ sent s' (l ++ [x]);
  flush_law s l : sent s l -> exists r s', out_flush s = Ret (r, s') /\ 0 <= r /\ sent s' l }.

(** [pending s l]: [l] is what is left to read, byte by byte. *)
Class ReliableByte (S : Type) `{InStream S} (pending : S -> list Z -> Prop) := {
  readByte_law s l : pending s l ->
    exists s', in_readByte s = Ret (match l with x :: _ => u8 x | [] => IN_ENDED end, s') /\
      pending s' (tail l) }.

(** The largest request, and the largest buffer: the streams compute the offset
    plus the size requested in an [int]. *)
Definition MAX_REQUEST : Z := 1073741823.

(** Reading by blocks too. *)
Class ReliableIn (S : Type) `{InStream S} (pending : S -> list Z -> Prop) := {
  reliable_byte :: ReliableByte S pending;
  read_law s l size : pending s l -> 0 < size <= MAX_REQUEST ->
    exists n s', (n <= length l)%nat /\ (l = [] \/ (0 < n)%nat) /\ Z.of_nat n <= size /\
      in_read s size = Ret (Z.of_nat n, take n l, s') /\ pending s' (drop n l) }.

(** ** Growing block *)

(** [db_buf] is [None] when the buffer has been detached. *)
(* src/include/elm/alloc/DynBlock.h:29-31 DynBlock *)
Record DynBlock := mkDB { db_size : Z; db_cap : Z; db_inc : Z; db_buf : option (list Z) }.

Definition new_chars (n : Z) : outcome (list Z) :=
  if 0 <=? n then Ret (replicate (Z.to_nat n) 0) else Crash Undefined.
Definition db_mem (d : DynBlock) : outcome (list Z) :=
  match db_buf d with Some b => Ret b | None => Crash OutOfBounds end.

(* src/include/elm/alloc/DynBlock.h:15-16 DynBlock::DynBlock *)
Definition DynBlock_make (capacity increment : Z) : outcome DynBlock :=
  b ← new_chars capacity; Ret (mkDB 0 capacity increment (Some b)).

(** The new size is not recorded in the capacity. *)
(* src/src/block_DynBlock.cpp:23-35 DynBlock::grow *)
Definition DynBlock_grow (d : DynBlock) (min : Z) : outcome DynBlock :=
  let new_size := db_cap d + (if db_inc d <? min then min else db_inc d) in
  new_buf ← new_chars new_size;
  buf ← db_mem d;
  new_buf ← memcpy new_buf 0 buf (db_size d);
  Ret (mkDB (db_size d) (db_cap d) (db_inc d) (Some new_buf)).

(* src/src/block_DynBlock.cpp:57-68 DynBlock::put *)
Definition DynBlock_put (d : DynBlock) (block : list Z) : outcome DynBlock :=
  let size := zlen block in
  d ← (if db_cap d <? db_size d + size then DynBlock_grow d (db_size d + size - db_cap d) else Ret d);
  buf ← db_mem d;
  buf ← memcpy buf (db_size d) block size;
  Ret (mkDB (db_size d + size) (db_cap d) (db_inc d) (Some buf)).

(* src/src/block_DynBlock.cpp:77-82 DynBlock::get *)
Definition DynBlock_get (d : DynBlock) (size pos : Z) : outcome (list Z) :=
  assertP ((0 <=? pos) && (pos <? db_size d)) ;;
  assertP ((0 <=? size) && (pos + size <=? db_size d)) ;;
  buf ← db_mem d;
  if pos + size <=? zlen buf then Ret (take (Z.to_nat size) (drop (Z.to_nat pos) buf))
  else Crash OutOfBounds.

(** The address of the allocated block is its offset in the buffer. *)
(* src/src/block_DynBlock.cpp:139-150 DynBlock::alloc *)
Definition DynBlock_alloc (d : DynBlock) (size : Z) : outcome (Z * DynBlock) :=
  assertP (0 <=? size) ;;
  d ← (if db_cap d <? db_size d + size then DynBlock_grow d (db_size d + size - db_cap d) else Ret d);
  Ret (db_size d, mkDB (db_size d + size) (db_cap d) (db_inc d) (db_buf d)).

(* src/include/elm/alloc/DynBlock.h:25-25 DynBlock::reset *)
Definition DynBlock_reset (d : DynBlock) : outcome DynBlock :=
  match db_buf d with
  | Some b => Ret (mkDB 0 (db_cap d) (db_inc d) (Some b))
  | None => b ← new_chars (db_cap d); Ret (mkDB 0 (db_cap d) (db_inc d) (Some b))
  end.

(* src/include/elm/alloc/DynBlock.h:27-28 DynBlock::detach *)
Definition DynBlock_detach (d : DynBlock) : option (list Z) * DynBlock :=
  (db_buf d, mkDB (db_size d) (db_cap d) (db_inc d) None).

(** ** Streams in memory *)

(* src/include/elm/io/BlockOutStream.h:18-36 BlockOutStream *)
Record BlockOutStream := mkBOS { bos_block : DynBlock }.

(* src/include/elm/io/BlockOutStream.h:20-20 BlockOutStream::BlockOutStream *)
Definition BlockOutStream_make (size inc : Z) : outcome BlockOutStream :=
  d ← DynBlock_make size inc; Ret (mkBOS d).

(* src/src/io_BlockOutStream.cpp:85-88 BlockOutStream::write *)
Definition BlockOutStream_write (s : BlockOutStream) (b : list Z) : outcome (Z * BlockOutStream) :=
  d ← DynBlock_put (bos_block s) b; Ret (zlen b, mkBOS d).

(* src/src/io_BlockOutStream.cpp:93-96 BlockOutStream::write *)
Definition BlockOutStream_writeByte (s : BlockOutStream) (byte : Z) : outcome (Z * BlockOutStream) :=
  d ← DynBlock_put (bos_block s) [byte]; Ret (1, mkBOS d).

(* src/src/io_BlockOutStream.cpp:101-103 BlockOutStream::flush *)
Definition BlockOutStream_flush (s : BlockOutStream) : outcome (Z * BlockOutStream) := Ret (0, s).

(* src/src/io_BlockOutStream.cpp:122-124 BlockOutStream::toString *)
Definition BlockOutStream_toString (s : BlockOutStream) : outcome (list Z) :=
  buf ← db_mem (bos_block s);
  if db_size (bos_block s) <=? zlen buf then Ret (take (Z.to_nat (db_size (bos_block s))) buf)
  else Crash OutOfBounds.

(* src/include/elm/io/BlockOutStream.h:24-24 BlockOutStream::clear *)
Definition BlockOutStream_clear (s : BlockOutStream) : outcome BlockOutStream :=
  d ← DynBlock_reset (bos_block s); Ret (mkBOS d).

#[export] Instance BlockOutStream_out : OutStream BlockOutStream := {
  out_write := BlockOutStream_write; out_writeByte := BlockOutStream_writeByte;
  out_flush := BlockOutStream_flush }.

(* src/include/elm/io/BlockInStream.h:31-33 BlockInStream *)
Record BlockInStream := mkBIS { bis_block : list Z; bis_off : Z }.

(* src/src/io_BlockInStream.cpp:42-72 BlockInStream::BlockInStream *)
Definition BlockInStream_make (block : list Z) : BlockInStream := mkBIS block 0.

(* src/src/io_BlockInStream.cpp:124-134 BlockInStream::read *)
Definition BlockInStream_read (s : BlockInStream) (size : Z) : outcome (Z * list Z * BlockInStream) :=
  last ← int_of (bis_off s + size);
  let size := if zlen (bis_block s) <? last then zlen (bis_block s) - bis_off s else size in
  if (0 <=? size) && (0 <=? bis_off s) && (bis_off s + size <=? zlen (bis_block s)) then
    Ret (size, take (Z.to_nat size) (drop (Z.to_nat (bis_off s)) (bis_block s)),
         mkBIS (bis_block s) (bis_off s + size))
  else Crash OutOfBounds.

(* src/src/io_BlockInStream.cpp:139-146 BlockInStream::read *)
Definition BlockInStream_readByte (s : BlockInStream) : outcome (Z * BlockInStream) :=
  if zlen (bis_block s) <=? bis_off s then Ret (IN_ENDED, s)
  else b ← rd (bis_block s) (bis_off s); Ret (u8 b, mkBIS (bis_block s) (bis_off s + 1)).

#[export] Instance BlockInStream_in : InStream BlockInStream := {
  in_read := BlockInStream_read; in_readByte := BlockInStream_readByte }.

(** ** Buffered streams *)

(* src/include/elm/io/BufferedOutStream.h:49-53 BufferedOutStream *)
Record BufferedOutStream (S : Type) :=
  mkBuf { bo_out : S; bo_buf : list Z; bo_top : Z; bo_size : Z }.
Arguments mkBuf {S} _ _ _ _.
Arguments bo_out {S} _.
Arguments bo_buf {S} _.
Arguments bo_top {S} _.
Arguments bo_size {S} _.

Section BufferedOut.
Context {S : Type} `{OutStream S}.
Implicit Types s : BufferedOutStream S.

(* src/include/elm/io/BufferedOutStream.h:34-34 BufferedOutStream::default_size *)
Definition default_size : Z := 4096.
(* src/src/io_BufferedOutStream.cpp:36-40 BufferedOutStream::BufferedOutStream *)
Definition BufferedOutStream_make (output : S) (size : Z) : outcome (BufferedOutStream S) :=
  assertP (negb (size =? 0)) ;; buf ← new_chars size; Ret (mkBuf output buf 0 size).

(* src/src/io_BufferedOutStream.cpp:102-110 BufferedOutStream::flush *)
Definition BufferedOutStream_flush s : outcome (Z * BufferedOutStream S) :=
  if bo_top s =? 0 then Ret (0, s)
  else
    m ← out_write (bo_out s) (take (Z.to_nat (bo_top s)) (bo_buf s));
    Ret (m.1, mkBuf m.2 (bo_buf s) 0 (bo_size s)).

(** The loop on the blocks of the size of the buffer: [inr None] on an error. *)
(* src/src/io_BufferedOutStream.cpp:74-79 BufferedOutStream::write *)
Definition write_blocks_step (n : Z) (st : S * list Z) : outcome ((S * list Z) + (S * option (list Z))) :=
  let '(out, buffer) := st in
  if n <? zlen buffer then
    m ← out_write out (take (Z.to_nat n) buffer);
    if m.1 <? 0 then Ret (inr (m.2, None)) else Ret (inl (m.2, drop (Z.to_nat n) buffer))
  else Ret (inr (out, Some buffer)).

(* src/src/io_BufferedOutStream.cpp:69-84 BufferedOutStream::write *)
Definition BufferedOutStream_write s (buffer : list Z) : outcome (Z * BufferedOutStream S) :=
  let res := zlen buffer in
  m ← (if bo_size s - bo_top s <? res then
         f ← (if 0 <? bo_top s then BufferedOutStream_flush s else Ret (0, s));
         let s := f.2 in
         m ← iter (Datatypes.S (length buffer)) (write_blocks_step (bo_size s)) (bo_out s, buffer);
         Ret (mkBuf m.1 (bo_buf s) (bo_top s) (bo_size s), m.2)
       else Ret (s, Some buffer));
  match m.2 with
  | None => Ret (-1, m.1)
  | Some buffer =>
      let s := m.1 in
      buf ← memcpy (bo_buf s) (bo_top s) buffer (zlen buffer);
      Ret (res, mkBuf (bo_out s) buf (bo_top s + zlen buffer) (bo_size s))
  end.

(* src/src/io_BufferedOutStream.cpp:89-97 BufferedOutStream::write *)
Definition BufferedOutStream_writeByte s (byte : Z) : outcome (Z * BufferedOutStream S) :=
  m ← (if bo_top s =? bo_size s then BufferedOutStream_flush s else Ret (0, s));
  if m.1 <? 0 then Ret m
  else
    let s := m.2 in
    buf ← wr (bo_buf s) (bo_top s) byte; Ret (0, mkBuf (bo_out s) buf (bo_top s + 1) (bo_size s)).

(* src/src/io_BufferedOutStream.cpp:116-118 BufferedOutStream::reset *)
Definition BufferedOutStream_reset s : BufferedOutStream S := mkBuf (bo_out s) (bo_buf s) 0 (bo_size s).

(* src/src/io_BufferedOutStream.cpp:125-128 BufferedOutStream::setStream *)
Definition BufferedOutStream_setStream s (str : S) : outcome (S * BufferedOutStream S) :=
  m ← BufferedOutStream_flush s;
  Ret (bo_out m.2, mkBuf str (bo_buf m.2) (bo_top m.2) (bo_size m.2)).

(** The destructor: the stream below after the last flush. *)
(* src/src/io_BufferedOutStream.cpp:59-64 BufferedOutStream::~BufferedOutStream *)
Definition BufferedOutStream_delete s : outcome S :=
  m ← BufferedOutStream_flush s; Ret (bo_out m.2).

#[export] Instance BufferedOutStream_outstream : OutStream (BufferedOutStream S) := {
  out_write := BufferedOutStream_write; out_writeByte := BufferedOutStream_writeByte;
  out_flush := BufferedOutStream_flush }.
End BufferedOut.

(* src/include/elm/io/BufferedInStream.h:47-50 BufferedInStream *)
Record BufferedInStream (S : Type) :=
  mkBin { bi_in : S; bi_buf : list Z; bi_pos : Z; bi_top : Z; bi_size : Z }.
Arguments mkBin {S} _ _ _ _ _.
Arguments bi_in {S} _.
Arguments bi_buf {S} _.
Arguments bi_pos {S} _.
Arguments bi_top {S} _.
Arguments bi_size {S} _.

Section BufferedIn.
Context {S : Type} `{InStream S}.
Implicit Types s : BufferedInStream S.

(* src/src/io_BufferedInStream.cpp:44-47 BufferedInStream::BufferedInStream *)
Definition BufferedInStream_make (input : S) (size : Z) : outcome (BufferedInStream S) :=
  buf ← new_chars size; assertP (0 <? size) ;; Ret (mkBin input buf 0 0 size).

(* src/src/io_BufferedInStream.cpp:92-95 BufferedInStream::reset *)
Definition BufferedInStream_reset s : BufferedInStream S :=
  mkBin (bi_in s) (bi_buf s) 0 0 (bi_size s).

(* src/src/io_BufferedInStream.cpp:83-86 BufferedInStream::setStream *)
Definition BufferedInStream_setStream s (str : S) : BufferedInStream S :=
  mkBin str (bi_buf s) 0 0 (bi_size s).

(* src/src/io_BufferedInStream.cpp:138-146 BufferedInStream::refill *)
Definition BufferedInStream_refill s : outcome (Z * BufferedInStream S) :=
  assertP (bi_top s <=? bi_pos s) ;;
  m ← in_read (bi_in s) (bi_size s);
  let '(size, bytes, i) := m in
  buf ← memcpy (bi_buf s) 0 bytes (zlen bytes);
  if 0 <? size then Ret (size, mkBin i buf 0 size (bi_size s))
  else Ret (size, mkBin i buf (bi_pos s) (bi_top s) (bi_size s)).

(* src/src/io_BufferedInStream.cpp:100-115 BufferedInStream::read *)
Definition BufferedInStream_read s (size : Z) : outcome (Z * list Z * BufferedInStream S) :=
  m ← (if bi_top s <=? bi_pos s then BufferedInStream_refill s else Ret (1, s));
  if m.1 <=? 0 then Ret (m.1, [], m.2)
  else
    let s := m.2 in
    last ← int_of (bi_pos s + size);
    let size := if bi_top s <? last then bi_top s - bi_pos s else size in
    if (0 <=? size) && (bi_pos s + size <=? zlen (bi_buf s)) then
      Ret (size, take (Z.to_nat size) (drop (Z.to_nat (bi_pos s)) (bi_buf s)),
           mkBin (bi_in s) (bi_buf s) (bi_pos s + size) (bi_top s) (bi_size s))
    else Crash OutOfBounds.

(* src/src/io_BufferedInStream.cpp:120-132 BufferedInStream::read *)
Definition BufferedInStream_readByte s : outcome (Z * BufferedInStream S) :=
  m ← (if bi_top s <=? bi_pos s then BufferedInStream_refill s else Ret (1, s));
  let s := m.2 in
  if m.1 <=? 0 then Ret (if m.1 =? 0 then IN_ENDED else IN_FAILED, s)
  else
    b ← rd (bi_buf s) (bi_pos s);
    Ret (u8 b, mkBin (bi_in s) (bi_buf s) (bi_pos s + 1) (bi_top s) (bi_size s)).

#[export] Instance BufferedInStream_instream : InStream (BufferedInStream S) := {
  in_read := BufferedInStream_read; in_readByte := BufferedInStream_readByte }.
End BufferedIn.

(** ** Tee *)

Inductive tee_state := TEE_OK | OUT1_ERROR | OUT2_ERROR.
(* src/include/elm/io/TeeOutStream.h:37-44 TeeOutStream *)
Record TeeOutStream (S1 S2 : Type) := mkTee { te_out1 : S1; te_out2 : S2; te_state : tee_state }.
Arguments mkTee {S1 S2} _ _ _.
Arguments te_out1 {S1 S2} _.
Arguments te_out2 {S1 S2} _.
Arguments te_state {S1 S2} _.

Section Tee.
Context {S1 S2 : Type} `{OutStream S1} `{OutStream S2}.

(* src/src/io_TeeOutStream.cpp:42-54 TeeOutStream::write *)
Definition TeeOutStream_write (s : TeeOutStream S1 S2) (b : list Z) : outcome (Z * TeeOutStream S1 S2) :=
  m ← out_write (te_out1 s) b;
  if m.1 <? 0 then Ret (-1, mkTee m.2 (te_out2 s) OUT1_ERROR)
  else
    n ← out_write (te_out2 s) b;
    if n.1 <? 0 then Ret (-1, mkTee m.2 n.2 OUT2_ERROR) else Ret (n.1, mkTee m.2 n.2 (te_state s)).

(* src/src/io_TeeOutStream.cpp:59-71 TeeOutStream::flush *)
Definition TeeOutStream_flush (s : TeeOutStream S1 S2) : outcome (Z * TeeOutStream S1 S2) :=
  m ← out_flush (te_out1 s);
  if m.1 <? 0 then Ret (-1, mkTee m.2 (te_out2 s) OUT1_ERROR)
  else
    n ← out_flush (te_out2 s);
    if n.1 <? 0 then Ret (-1, mkTee m.2 n.2 OUT2_ERROR) else Ret (n.1, mkTee m.2 n.2 (te_state s)).

#[export] Instance TeeOutStream_outstream : OutStream (TeeOutStream S1 S2) := {
  out_write := TeeOutStream_write; out_writeByte := OutStream_writeByte TeeOutStream_write;
  out_flush := TeeOutStream_flush }.
End Tee.

(* src/src/io_OutStream.cpp:86-90 NullOutStream *)
Definition NullOutStream_out : OutStream unit := {|
  out_write := fun s b => Ret (zlen b, s);
  out_writeByte := OutStream_writeByte (fun s b => Ret (zlen b, s)); out_flush := fun s => Ret (0, s) |}.

(** ** Streams in memory are reliable *)

(** The block holds the bytes [l]. *)
Definition dyn_holds (d : DynBlock) (l : list Z) : Prop :=
  exists buf, db_buf d = Some buf /\ db_size d = zlen l /\ take (length l) buf = l /\
    0 <= db_cap d <= zlen buf /\ 0 <= db_inc d.

Lemma take_len_le {A} (l buf : list A) : take (length l) buf = l -> (length l <= length buf)%nat.
Proof. intros E%(f_equal length). rewrite length_take in E. lia. Qed.

Lemma dyn_put_ok d l b : dyn_holds d l ->
  exists d', DynBlock_put d b = Ret d' /\ dyn_holds d' (l ++ b).
Proof.
  intros (buf & Eb & Es & El & Hc & Hi). pose proof (take_len_le _ _ El) as Hl.
  unfold DynBlock_put, DynBlock_grow, db_mem, new_chars. rewrite Eb, Es.
  assert (exists buf2, (if db_cap d <? zlen l + zlen b then
      new_buf ← (if 0 <=? db_cap d + (if db_inc d <? zlen l + zlen b - db_cap d
                   then zlen l + zlen b - db_cap d else db_inc d)
                 then Ret (replicate (Z.to_nat (db_cap d + (if db_inc d <? zlen l + zlen b - db_cap d
                   then zlen l + zlen b - db_cap d else db_inc d))) 0) else Crash Undefined);
      buf ← Ret buf; new_buf ← memcpy new_buf 0 buf (zlen l);
      Ret (mkDB (zlen l) (db_cap d) (db_inc d) (Some new_buf)) else Ret d) =
        Ret (mkDB (zlen l) (db_cap d) (db_inc d) (Some buf2)) /\
      take (length l) buf2 = l /\ zlen l + zlen b <= zlen buf2 /\ db_cap d <= zlen buf2)
    as (buf2 & -> & E2 & H1 & H2).
  { destruct (Z.ltb_spec (db_cap d) (zlen l + zlen b)).
    - set (n := db_cap d + _). assert (zlen l + zlen b <= n /\ db_cap d <= n) as [Hn Hn'].
      { unfold n. destruct (Z.ltb_spec (db_inc d) (zlen l + zlen b - db_cap d)); lia. }
      rewrite (proj2 (Z.leb_le 0 n)) by lia. mred.
      rewrite memcpy_start by (rewrite ?length_replicate; lia). mred. eexists; split; [done|].
      rewrite Nat2Z.id, El, length_app, length_drop, length_replicate.
      split; [|lia]. by rewrite take_app_le, firstn_all by lia.
    - exists buf. destruct d; cbn in *; subst. split_and!; [done|done|lia|lia]. }
  mred. cbn [db_size db_cap db_inc db_buf]. mred.
  rewrite memcpy_ok by lia. mred. eexists; split; [done|].
  eexists; split; [done|]. cbn [db_size db_cap db_inc]. rewrite !length_app, length_drop, !length_take.
  split; [lia|]. split; [|lia]. rewrite !Nat2Z.id, E2, firstn_all.
  rewrite app_assoc. by rewrite take_app_length' by (rewrite length_app; lia).
Qed.

Definition bos_sent (s : BlockOutStream) (l : list Z) : Prop := dyn_holds (bos_block s) l.

#[export] Instance BlockOutStream_reliable : ReliableOut BlockOutStream bos_sent.
Proof.
  split; intros [d] l.
  - intros b Hd. destruct (dyn_put_ok d l b Hd) as (d' & E & Hd'). exists (zlen b), (mkBOS d').
    cbn. unfold BlockOutStream_write. cbn [bos_block]. rewrite E. split; [done|]. split; [lia|done].
  - intros x Hd. destruct (dyn_put_ok d l [x] Hd) as (d' & E & Hd'). exists 1, (mkBOS d').
    cbn. unfold BlockOutStream_writeByte. cbn [bos_block]. by rewrite E.
  - intros Hd. exists 0, (mkBOS d). by split_and!.
Qed.

Lemma BlockOutStream_make_ok size inc : 0 <= size -> 0 <= inc ->
  exists s, BlockOutStream_make size inc = Ret s /\ bos_sent s [].
Proof.
  intros H1 H2. unfold BlockOutStream_make, DynBlock_make, new_chars.
  rewrite (proj2 (Z.leb_le 0 size)) by lia. eexists; split; [done|]. eexists; split; [done|].
  cbn. rewrite length_replicate. split_and!; done || lia.
Qed.

Lemma BlockOutStream_toString_ok s l : bos_sent s l -> BlockOutStream_toString s = Ret l.
Proof.
  intros (buf & Eb & Es & El & _). unfold BlockOutStream_toString, db_mem. rewrite Eb. mred.
  rewrite Es. pose proof (take_len_le _ _ El). rewrite (proj2 (Z.leb_le _ _)) by lia.
  by rewrite Nat2Z.id, El.
Qed.

(** What is left to read is what follows the offset. *)
Definition bis_pending (s : BlockInStream) (l : list Z) : Prop :=
  0 <= bis_off s /\ drop (Z.to_nat (bis_off s)) (bis_block s) = l /\ bis_off s <= zlen (bis_block s).

#[export] Instance BlockInStream_bytes : ReliableByte BlockInStream bis_pending.
Proof.
  split. intros [blk off] l (H0 & El & Ho). cbn in H0, El, Ho.
  assert (in_readByte (mkBIS blk off) = BlockInStream_readByte (mkBIS blk off)) as -> by done.
  unfold BlockInStream_readByte. cbn [bis_block bis_off].
  destruct (Z.leb_spec (zlen blk) off).
  + rewrite drop_ge in El by lia. subst l. eexists; split; [done|]. split; cbn; [done|].
    rewrite drop_ge by lia. split; [done|lia].
  + destruct l as [|x l]; [apply (f_equal length) in El; rewrite length_drop in El; cbn in El; lia|].
    assert (blk !! Z.to_nat off = Some x) as Ex.
    { rewrite <- (Nat.add_0_r (Z.to_nat off)), <- lookup_drop, El. done. }
    rewrite (rd_ok _ _ x) by done. mred. eexists; split; [done|]. split; cbn [bis_off bis_block]; [lia|].
    rewrite Z2Nat.inj_add, <- drop_drop, El by lia. split; [done|lia].
Qed.

(** A block small enough to be read by blocks. *)
Definition bis_small (s : BlockInStream) (l : list Z) : Prop :=
  bis_pending s l /\ zlen (bis_block s) <= MAX_REQUEST.

#[export] Instance BlockInStream_reliable : ReliableIn BlockInStream bis_small.
Proof.
  split.
  { split. intros s l [Hs Hm]. destruct (readByte_law s l Hs) as (s' & E & Hs'). exists s'. split; [done|].
    split; [done|]. replace (bis_block s') with (bis_block s); [done|]. clear - E. revert E.
    change (in_readByte s) with (BlockInStream_readByte s). unfold BlockInStream_readByte.
    destruct (_ <=? _); [by intros [= _ <-]|]. destruct (rd _ _); mred; [by intros [= _ <-]|done]. }
  intros [blk off] l size [(H0 & El & Ho) Hm] Hs. cbn in H0, El, Ho, Hm.
  assert (zlen l = zlen blk - off) as Hl by (rewrite <- El, length_drop; lia).
  exists (Z.to_nat (Z.min size (zlen l))).
  assert (in_read (mkBIS blk off) size = BlockInStream_read (mkBIS blk off) size) as -> by done.
  unfold BlockInStream_read. cbn [bis_block bis_off]. rewrite int_of_ok by (unfold MAX_REQUEST in *; lia). mred.
  assert ((if zlen blk <? off + size then zlen blk - off else size) = Z.min size (zlen l)) as ->.
  { destruct (Z.ltb_spec (zlen blk) (off + size)); lia. }
  rewrite !(proj2 (Z.leb_le _ _)) by lia. mred. eexists. split; [lia|]. split.
  { destruct l; [by left|]. right. cbn [length] in *. lia. }
  split; [lia|]. rewrite El, Z2Nat.id by lia. split; [done|].
  split; [|done]. split; cbn [bis_block bis_off]; [lia|]. rewrite Z2Nat.inj_add, <- drop_drop by lia.
  rewrite El. split; [done|lia].
Qed.

(** ** Buffering is transparent *)

Section BufferedOutProofs.
Context {S : Type} (sent : S -> list Z -> Prop) `{ReliableOut S sent}.
Implicit Types s : BufferedOutStream S.

(** What has been sent to the stream below, then what is in the buffer. *)
Definition buf_sent s (l : list Z) : Prop :=
  exists l1, sent (bo_out s) l1 /\ l = l1 ++ take (Z.to_nat (bo_top s)) (bo_buf s) /\
    0 <= bo_top s <= bo_size s /\ 0 < bo_size s /\ bo_size s = zlen (bo_buf s).

Lemma buffered_flush_ok s l : buf_sent s l ->
  exists r s', BufferedOutStream_flush s = Ret (r, s') /\ 0 <= r /\ buf_sent s' l /\
    sent (bo_out s') l /\ bo_top s' = 0 /\ bo_buf s' = bo_buf s /\ bo_size s' = bo_size s.
Proof.
  intros (l1 & H1 & -> & Ht & Hn & Eb). unfold BufferedOutStream_flush.
  destruct (Z.eqb_spec (bo_top s) 0) as [E|E].
  - exists 0, s. rewrite E. cbn [Z.to_nat take]. rewrite app_nil_r. split_and!; try done.
    exists l1. rewrite E, app_nil_r. split_and!; done || lia.
  - destruct (write_law _ _ (take (Z.to_nat (bo_top s)) (bo_buf s)) H1) as (r & o & E1 & Hr & Ho).
    rewrite E1. mred. eexists r, _. split; [done|]. split; [done|]. split; [|by split_and!].
    eexists. split; [exact Ho|]. cbn. rewrite app_nil_r. split_and!; done || lia.
Qed.

Lemma write_blocks_ok n out b l : 0 < n -> sent out l ->
  exists out' l' b', iter (Datatypes.S (length b)) (write_blocks_step n) (out, b) = Ret (out', Some b') /\
    sent out' l' /\ l' ++ b' = l ++ b /\ zlen b' <= n.
Proof.
  intros Hn Hs.
  iter_with (fun st => exists l1, sent st.1 l1 /\ l1 ++ st.2 = l ++ b) (fun st => length st.2)
    (fun r => exists l' b', r.2 = Some b' /\ sent r.1 l' /\ l' ++ b' = l ++ b /\ zlen b' <= n).
  - intros [o c] (l1 & H1 & E). cbn in H1, E. cbn [write_blocks_step snd].
    destruct (Z.ltb_spec n (zlen c)).
    + destruct (write_law _ _ (take (Z.to_nat n) c) H1) as (r & o' & -> & Hr & Ho). mred.
      cbn [fst snd]. rewrite (proj2 (Z.ltb_ge r 0)) by lia. eexists; split; [done|].
      split; [|cbn; rewrite length_drop; lia]. eexists. split; [exact Ho|]. cbn.
      by rewrite <- app_assoc, take_drop.
    + eexists; split; [done|]. exists l1, c. by split_and!.
  - by exists l.
  - cbn. lia.
  - destruct r as [o c]. destruct Hr as (l' & b' & Ec & H1 & H2 & H3). cbn in Ec, H1. subst c. exists o, l', b'. by split_and!.
Qed.

Lemma buffered_write_ok s l b : buf_sent s l ->
  exists r s', BufferedOutStream_write s b = Ret (r, s') /\ r = zlen b /\ buf_sent s' (l ++ b).
Proof.
  intros Hs. unfold BufferedOutStream_write.
  assert (exists s1 l1 c, (if bo_size s - bo_top s <? zlen b then
      f ← (if 0 <? bo_top s then BufferedOutStream_flush s else Ret (0, s));
      m ← iter (Datatypes.S (length b)) (write_blocks_step (bo_size f.2)) (bo_out f.2, b);
      Ret (mkBuf m.1 (bo_buf f.2) (bo_top f.2) (bo_size f.2), m.2) else Ret (s, Some b)) =
        Ret (s1, Some c) /\ buf_sent s1 l1 /\ l1 ++ c = l ++ b /\ bo_top s1 + zlen c <= bo_size s1)
    as (s1 & l1 & c & -> & H1 & E1 & Hc).
  { destruct (Z.ltb_spec (bo_size s - bo_top s) (zlen b)) as [Hlt|Hge]; [|exists s, l, b; split_and!; done || lia].
    assert (exists r s2, (if 0 <? bo_top s then BufferedOutStream_flush s else Ret (0, s)) = Ret (r, s2) /\
      sent (bo_out s2) l /\ bo_top s2 = 0 /\ 0 < bo_size s2 /\ bo_size s2 = zlen (bo_buf s2))
      as (r & s2 & -> & H2 & T2 & N2 & B2).
    { destruct (Z.ltb_spec 0 (bo_top s)).
      - destruct (buffered_flush_ok s l Hs) as (r & s2 & E & _ & (? & _ & _ & _ & ? & ?) & ? & ? & ? & ?).
        exists r, s2. by split_and!.
      - destruct Hs as (l1 & Hl1 & -> & Ht & Hn & Eb). exists 0, s.
        assert (bo_top s = 0) as E0 by lia. rewrite E0. cbn [Z.to_nat take]. rewrite app_nil_r.
        by split_and!. }
    mred. cbn [snd]. destruct (write_blocks_ok (bo_size s2) (bo_out s2) b l) as (o & l2 & c & -> & H3 & H4 & H5);
      [done|done|].
    mred. eexists _, l2, c. split; [done|]. split; [|split; [done|cbn; lia]].
    exists l2. cbn. rewrite T2. cbn [Z.to_nat take]. rewrite app_nil_r. split_and!; done || lia. }
  mred. cbn [fst snd]. destruct H1 as (l2 & H2 & -> & Ht & Hn & Eb).
  rewrite memcpy_ok by lia. mred. eexists _, _. split; [done|]. split; [done|].
  exists l2. cbn [bo_out bo_buf bo_top bo_size]. split; [done|].
  rewrite !length_app, length_drop, !length_take. split; [|lia].
  rewrite <- E1, <- app_assoc. f_equal. rewrite Nat2Z.id, firstn_all, app_assoc.
  rewrite take_app_length'; [done|]. rewrite length_app, length_take. lia.
Qed.

Lemma buffered_writeByte_ok s l x : buf_sent s l ->
  exists s', BufferedOutStream_writeByte s x = Ret (0, s') /\ buf_sent s' (l ++ [x]).
Proof.
  intros Hs. unfold BufferedOutStream_writeByte.
  assert (exists r s1, (if bo_top s =? bo_size s then BufferedOutStream_flush s else Ret (0, s)) = Ret (r, s1) /\
    0 <= r /\ buf_sent s1 l /\ bo_top s1 < bo_size s1) as (r & s1 & -> & Hr & (l1 & H1 & -> & Ht & Hn & Eb) & Hlt).
  { destruct (Z.eqb_spec (bo_top s) (bo_size s)) as [E|E].
    - destruct (buffered_flush_ok s l Hs) as (r & s1 & -> & Hr & Hs1 & _ & T & _ & Ez).
      exists r, s1. split_and!; [done|done|done|]. destruct Hs1 as (? & _ & _ & _ & ? & _). lia.
    - exists 0, s. split_and!; [done|done|done|]. destruct Hs as (? & _ & _ & ? & _). lia. }
  mred. cbn [fst snd]. rewrite (proj2 (Z.ltb_ge r 0)), wr_ok by lia. mred. eexists; split; [done|].
  exists l1. cbn. rewrite length_insert. split_and!; try done; try lia. rewrite <- app_assoc. f_equal.
  rewrite Z2Nat.inj_add by lia. rewrite Nat.add_1_r.
  rewrite (take_S_r _ _ x) by (rewrite list_lookup_insert_eq; [done|lia]).
  by rewrite take_insert_ge by lia.
Qed.

#[export] Instance BufferedOutStream_reliable : ReliableOut (BufferedOutStream S) buf_sent.
Proof.
  split.
  - intros s l b Hs. destruct (buffered_write_ok s l b Hs) as (r & s' & E & -> & Hs').
    exists (zlen b), s'. split; [done|]. split; [lia|done].
  - intros s l x Hs. destruct (buffered_writeByte_ok s l x Hs) as (s' & E & Hs'). by exists 0, s'.
  - intros s l Hs. destruct (buffered_flush_ok s l Hs) as (r & s' & E & Hr & Hs' & _). by exists r, s'.
Qed.

(** A new buffer, over a stream to which [l] was sent. *)
Lemma buffered_make_ok out l size : 0 < size -> sent out l ->
  exists s, BufferedOutStream_make out size = Ret s /\ buf_sent s l.
Proof.
  intros Hsz Ho. unfold BufferedOutStream_make, new_chars.
  rewrite (proj2 (Z.eqb_neq size 0)), (proj2 (Z.leb_le 0 size)) by lia. mred. eexists. split; [done|].
  exists l. cbn. rewrite app_nil_r, length_replicate. split_and!; done || lia.
Qed.
(** All the bytes are in the stream below once the buffer is deleted. *)
Lemma buffered_delete_ok s l : buf_sent s l -> exists out, BufferedOutStream_delete s = Ret out /\ sent out l.
Proof.
  intros Hs. unfold BufferedOutStream_delete. destruct (buffered_flush_ok s l Hs) as (r & s2 & -> & _ & _ & H2 & _).
  by exists (bo_out s2).
Qed.

(** A sequence of operations on a buffered stream. *)
Inductive out_op := OWrite (b : list Z) | OByte (x : Z) | OFlush.
Definition out_exec s (op : out_op) : outcome (Z * BufferedOutStream S) :=
  match op with
  | OWrite b => BufferedOutStream_write s b
  | OByte x => BufferedOutStream_writeByte s x
  | OFlush => BufferedOutStream_flush s
  end.
Definition op_bytes (op : out_op) : list Z :=
  match op with OWrite b => b | OByte x => [x] | OFlush => [] end.
Fixpoint out_run s (ops : list out_op) : outcome (BufferedOutStream S) :=
  match ops with
  | [] => Ret s
  | op :: ops => m ← out_exec s op; assertP (0 <=? m.1) ;; out_run m.2 ops
  end.

Lemma out_run_ok ops : forall s l, buf_sent s l ->
  exists s' out', out_run s ops = Ret s' /\ BufferedOutStream_delete s' = Ret out' /\
    sent out' (l ++ concat (op_bytes <$> ops)).
Proof.
  induction ops as [|op ops IH]; intros s l Hs; cbn [out_run fmap list_fmap concat].
  { destruct (buffered_delete_ok s l Hs) as (o & E & Ho). exists s, o. by rewrite E, app_nil_r. }
  rewrite app_assoc. destruct op as [b|x|]; cbn [out_exec op_bytes].
  - destruct (buffered_write_ok s l b Hs) as (r & s1 & -> & -> & H1). mred. cbn [fst snd].
    rewrite (proj2 (Z.leb_le _ _)) by lia. by apply IH.
  - destruct (buffered_writeByte_ok s l x Hs) as (s1 & -> & H1). mred. by apply IH.
  - destruct (buffered_flush_ok s l Hs) as (r & s1 & -> & Hr & H1 & _). mred. cbn [fst snd].
    rewrite (proj2 (Z.leb_le _ _)), app_nil_r by lia. by apply IH.
Qed.

End BufferedOutProofs.


Section BufferedInProofs.
Context {S : Type} (pending : S -> list Z -> Prop) `{ReliableIn S pending}.
Implicit Types s : BufferedInStream S.

(** What is left to read: the end of the buffer, then the stream below. *)
Definition bin_pending s (l : list Z) : Prop :=
  exists l1, pending (bi_in s) l1 /\
    l = take (Z.to_nat (bi_top s - bi_pos s)) (drop (Z.to_nat (bi_pos s)) (bi_buf s)) ++ l1 /\
    0 <= bi_pos s <= bi_top s /\ bi_top s <= bi_size s /\ bi_size s = zlen (bi_buf s) /\
    0 < bi_size s <= MAX_REQUEST.

(** [refill], when the buffer is empty: the buffer has data, or all is read. *)
Lemma refill_ok s l : bin_pending s l -> bi_top s <= bi_pos s ->
  exists r s', BufferedInStream_refill s = Ret (r, s') /\ bin_pending s' l /\ 0 <= r /\
    (r = 0 -> l = []) /\ (0 < r -> bi_pos s' < bi_top s').
Proof.
  intros (l1 & H1 & El & Hp & Ht & Eb & Hs) Hpt. unfold BufferedInStream_refill.
  rewrite (proj2 (Z.leb_le _ _)) by lia. mred.
  replace (bi_top s - bi_pos s) with 0 in El by lia. rewrite Z2Nat.inj_0, take_0 in El. cbn [app] in El. subst l.
  destruct (read_law _ _ (bi_size s) H1) as (n & i & Hn & Hl & Hz & -> & Hi); [done|]. mred.
  rewrite memcpy_start by (rewrite length_take; lia). mred.
  rewrite length_take, Nat.min_l, Nat2Z.id, take_take, Nat.min_id by done. destruct (Z.ltb_spec 0 (Z.of_nat n)).
  - eexists _, _. split; [done|]. split; [|cbn; lia]. exists (drop n l1). cbn. split; [done|].
    rewrite Z.sub_0_r, Nat2Z.id, drop_0, take_app_length' by (rewrite length_take; lia).
    rewrite take_drop. split; [done|]. rewrite length_app, length_take, length_drop. lia.
  - assert (n = 0%nat) as -> by lia. assert (l1 = []) as -> by (destruct Hl; [done|lia]).
    eexists _, _. split; [done|]. split; [|split_and!; done || lia]. exists []. cbn. split; [done|].
    replace (bi_top s - bi_pos s) with 0 by lia. rewrite Z2Nat.inj_0, !drop_0. cbn. split; [done|lia].
Qed.

(** The reads start with a refill when the buffer is empty. *)
Lemma filled_ok s l : bin_pending s l ->
  exists r s', (if bi_top s <=? bi_pos s then BufferedInStream_refill s else Ret (1, s)) = Ret (r, s') /\
    bin_pending s' l /\ 0 <= r /\ (r = 0 -> l = []) /\ (0 < r -> bi_pos s' < bi_top s').
Proof.
  intros Hs. destruct (Z.leb_spec (bi_top s) (bi_pos s)); [by apply refill_ok|].
  exists 1, s. split_and!; done || lia.
Qed.

Lemma buffered_read_ok s l size : bin_pending s l -> 0 < size <= MAX_REQUEST ->
  exists n s', (n <= length l)%nat /\ (l = [] \/ (0 < n)%nat) /\ Z.of_nat n <= size /\
    BufferedInStream_read s size = Ret (Z.of_nat n, take n l, s') /\ bin_pending s' (drop n l).
Proof.
  intros Hs Hz. unfold BufferedInStream_read.
  destruct (filled_ok s l Hs) as (r & s1 & -> & H1 & Hr & Hend & Hpos). mred. cbn [fst snd].
  destruct (Z.leb_spec r 0).
  { assert (r = 0) as -> by lia. exists 0%nat, s1. rewrite Hend by done. split_and!; try done; try lia.
    - by left.
    - by rewrite <- (Hend eq_refl). }
  destruct H1 as (l1 & H1 & -> & Hp & Ht & Eb & Hsz). specialize (Hpos ltac:(lia)).
  rewrite int_of_ok by (unfold MAX_REQUEST in *; lia). mred.
  assert ((if bi_top s1 <? bi_pos s1 + size then bi_top s1 - bi_pos s1 else size) =
          Z.min size (bi_top s1 - bi_pos s1)) as ->.
  { destruct (Z.ltb_spec (bi_top s1) (bi_pos s1 + size)); lia. }
  set (k := Z.min size (bi_top s1 - bi_pos s1)). rewrite !(proj2 (Z.leb_le _ _)) by lia. mred.
  set (b := drop (Z.to_nat (bi_pos s1)) (bi_buf s1)).
  assert (length b = Z.to_nat (zlen (bi_buf s1) - bi_pos s1)) as Hb by (unfold b; rewrite length_drop; lia).
  exists (Z.to_nat k), (mkBin (bi_in s1) (bi_buf s1) (bi_pos s1 + k) (bi_top s1) (bi_size s1)).
  rewrite length_app, length_take, Z2Nat.id by lia. split; [lia|]. split; [right; lia|]. split; [lia|].
  rewrite take_app_le, take_take, Nat.min_l, drop_app_le by (rewrite ?length_take; lia). split; [done|].
  exists l1. cbn [bi_in bi_buf bi_pos bi_top bi_size]. split; [done|]. split; [|lia].
  f_equal. rewrite skipn_firstn_comm. unfold b. rewrite drop_drop. f_equal; [lia|]. f_equal. lia.
Qed.

(** The next byte, or [ENDED]. *)
Lemma buffered_readByte_ok s l : bin_pending s l ->
  exists s', BufferedInStream_readByte s =
      Ret (match l with x :: _ => u8 x | [] => IN_ENDED end, s') /\ bin_pending s' (tail l).
Proof.
  intros Hs. unfold BufferedInStream_readByte.
  destruct (filled_ok s l Hs) as (r & s1 & -> & H1 & Hr & Hend & Hpos). mred. cbn [fst snd].
  destruct (Z.leb_spec r 0).
  { assert (r = 0) as -> by lia. exists s1. rewrite Hend in * by done. by split. }
  destruct H1 as (l1 & H1 & -> & Hp & Ht & Eb & Hsz). specialize (Hpos ltac:(lia)).
  destruct (rd_runs (bi_buf s1) (bi_pos s1)) as [x Ex]; [lia|]. rewrite Ex. mred.
  apply rd_inv in Ex as [_ Ex].
  assert (drop (Z.to_nat (bi_pos s1)) (bi_buf s1) = x :: drop (Z.to_nat (bi_pos s1 + 1)) (bi_buf s1)) as E.
  { rewrite Z2Nat.inj_add, Nat.add_1_r by lia. by apply drop_S. }
  eexists. rewrite E. replace (Z.to_nat (bi_top s1 - bi_pos s1))
    with (Datatypes.S (Z.to_nat (bi_top s1 - (bi_pos s1 + 1)))) by lia.
  cbn [take app tail]. split; [done|]. exists l1. cbn [bi_in bi_buf bi_pos bi_top bi_size].
  split_and!; done || lia.
Qed.

#[export] Instance BufferedInStream_reliable : ReliableIn (BufferedInStream S) bin_pending.
Proof. split; [split; apply buffered_readByte_ok|intros s l size; apply buffered_read_ok]. Qed.

(** A sequence of reads of blocks of the given sizes (0 for a single byte). *)
Fixpoint in_run s (reqs : list Z) : outcome (list Z * BufferedInStream S) :=
  match reqs with
  | [] => Ret ([], s)
  | size :: reqs =>
      m ← (if size =? 0 then
             b ← BufferedInStream_readByte s; Ret (if b.1 =? IN_ENDED then [] else [b.1], b.2)
           else r ← BufferedInStream_read s size; Ret (r.1.2, r.2));
      n ← in_run m.2 reqs; Ret (m.1 ++ n.1, n.2)
  end.

Lemma in_run_ok reqs : forall s l, bin_pending s l -> Forall (inw 8) l -> Forall (fun r => 0 <= r <= MAX_REQUEST) reqs ->
  exists s' n, in_run s reqs = Ret (take n l, s') /\ bin_pending s' (drop n l) /\
    (length l <= n \/ length reqs <= n)%nat.
Proof.
  induction reqs as [|r reqs IH]; intros s l Hs Hb Hr; cbn [in_run].
  { exists s, 0%nat. rewrite drop_0. split_and!; [done|done|right; cbn; lia]. }
  apply Forall_cons in Hr as [Hr0 Hr].
  assert (exists s1 k, (if r =? 0 then
      b ← BufferedInStream_readByte s; Ret (if b.1 =? IN_ENDED then [] else [b.1], b.2)
      else r ← BufferedInStream_read s r; Ret (r.1.2, r.2)) = Ret (take k l, s1) /\
      bin_pending s1 (drop k l) /\ (l = [] \/ 0 < k)%nat) as (s1 & k & -> & H1 & Hk).
  { destruct (Z.eqb_spec r 0).
    - destruct (buffered_readByte_ok s l Hs) as (s1 & -> & H1). mred. cbn [fst snd].
      destruct l as [|x l]; [exists s1, 0%nat; split_and!; [done|done|by left]|].
      apply Forall_cons in Hb as [Hx Hb]. exists s1, 1%nat. rewrite drop_0 || idtac.
      unfold wrap. rewrite Z.mod_small by done. rewrite (proj2 (Z.eqb_neq x IN_ENDED)).
      + split_and!; [done|done|right; lia].
      + unfold IN_ENDED. destruct Hx. lia.
    - destruct (buffered_read_ok s l r Hs) as (k & s1 & _ & Hk & _ & -> & H1); [lia|]. by exists s1, k. }
  mred. cbn [fst snd].
  destruct (IH s1 (drop k l) H1) as (s2 & n & -> & H2 & Hn); [by apply Forall_drop|done|]. mred.
  exists s2, (k + n)%nat. cbn [fst snd length]. rewrite length_drop in Hn. split.
  { by rewrite take_add_app || rewrite take_take_drop. }
  rewrite <- drop_drop. split; [done|]. destruct Hk as [->|Hk]; [left; cbn; lia|lia].
Qed.

(** [C22] A buffered input over a stream that does not fail is transparent: any
    sequence of reads, of blocks and of single bytes, gets the bytes of the stream
    below in order, none lost and none twice, and each read makes progress until
    the end.  The size of the buffer and of a block are at most 2^30 - 1: the code
    adds them in an [int]. *)
Theorem BufferedInStream_transparent i l size reqs : 0 < size <= MAX_REQUEST -> pending i l ->
  Forall (inw 8) l -> Forall (fun r => 0 <= r <= MAX_REQUEST) reqs ->
  exists s s' n, BufferedInStream_make i size = Ret s /\ in_run s reqs = Ret (take n l, s') /\
    bin_pending s' (drop n l) /\ (length l <= n \/ length reqs <= n)%nat.
Proof.
  intros Hsz Hi Hb Hr. unfold BufferedInStream_make, new_chars.
  rewrite (proj2 (Z.leb_le 0 size)), (proj2 (Z.ltb_lt 0 size)) by lia. mred.
  exists (mkBin i (replicate (Z.to_nat size) 0) 0 0 size).
  destruct (in_run_ok reqs (mkBin i (replicate (Z.to_nat size) 0) 0 0 size) l) as (s' & n & H1 & H2);
    [|done|done|by exists s', n].
  exists l. cbn. rewrite length_replicate. split_and!; done || lia.
Qed.
End BufferedInProofs.

Lemma BufferedInStream_transparent_witness : exists s s',
  BufferedInStream_make (BlockInStream_make [10; 20; 30; 40; 50]) 2 = Ret s /\
  in_run s [0; 7; 1; 0; 3; 0] = Ret ([10; 20; 30; 40; 50], s') /\ bin_pending bis_small s' [].
Proof.
  destruct (BufferedInStream_transparent bis_small (BlockInStream_make [10; 20; 30; 40; 50])
    [10; 20; 30; 40; 50] 2 [0; 7; 1; 0; 3; 0]) as (s & s' & n & E1 & E2 & H3 & H4).
  - done.
  - by split.
  - by repeat constructor.
  - by repeat constructor.
  - exists s, s'. assert (5 <= n)%nat as Hn by (cbn in H4; lia).
    split; [done|]. rewrite (take_ge _ n) in E2 by (cbn; lia). rewrite (drop_ge _ n) in H3 by (cbn; lia).
    by split.
Defined.

(** A detached block is not usable until [reset]. *)
Example BlockOutStream_after_detach : 
  (d ← DynBlock_make 4 4; DynBlock_put (DynBlock_detach d).2 [1]) = Crash OutOfBounds.
Proof. reflexivity. Qed.
