(* ===== verification/Output.v ===== *)
(** * Formatted output ([src/io_Output.cpp], [include/elm/io/Output.h])

    An [Output] prints on any [OutStream].  Numbers are written backwards in a
    buffer on the stack, from its end: a buffer is a list and a pointer in it an
    index, so that a buffer too small is an access out of bounds. *)

From S2P Require Import Prelude Streams.

(** [*--p = c] in the buffer [st.1]. *)
Definition push_back (st : list Z * Z) (c : Z) : outcome (list Z * Z) :=
  buf ← wr st.1 (st.2 - 1) c; Ret (buf, st.2 - 1).

(** The characters from the pointer to [e]. *)
Definition chars_from (st : list Z * Z) (e : Z) : list Z :=
  take (Z.to_nat (e - st.2)) (drop (Z.to_nat st.2) st.1).

(** The loop of [horner]. *)
(* src/src/io_Output.cpp:77-88 Output::horner *)
Definition horner_step (base enc : Z) (st : (list Z * Z) * Z)
    : outcome ((list Z * Z) * Z + (list Z * Z)) :=
  let '(p, val) := st in
  if val =? 0 then Ret (inr p)
  else if base =? 0 then Crash Undefined
  else
    let digit := val mod base in
    p ← push_back p (if digit <? 10 then ch "0" + digit else enc + digit - 10);
    Ret (inl (p, val / base)).

(* src/src/io_Output.cpp:69-92 Output::horner *)
Definition Output_horner (p : list Z * Z) (val base enc : Z) : outcome (list Z * Z) :=
  if val =? 0 then push_back p (ch "0") else iter 65 (horner_step base enc) (p, val).

(* src/include/elm/io/Output.h:206-209 Output *)
Record Output (S : Type) := mkOut { o_strm : S; o_ansi : Z }.
Arguments mkOut {S} _ _.
Arguments o_strm {S} _.
Arguments o_ansi {S} _.

(* src/include/elm/io/Output.h:41-46 alignment_t *)
Inductive alignment_t := A_NONE | A_LEFT | A_CENTER | A_RIGHT.

(* src/include/elm/io/Output.h:96-104 IntFormat *)
Record IntFormat := mkIF { if_val : Z; if_base : Z; if_width : Z; if_align : alignment_t;
  if_upper : bool; if_sign : bool; if_displaySign : bool; if_pad : Z; if_size : Z }.

(** The format of a value of [size] bytes, signed when [s]. *)
(* src/include/elm/io/Output.h:50-70 IntFormat::init *)
Definition IntFormat_make (value : Z) (s : bool) (size : Z) : IntFormat :=
  mkIF value 10 0 A_LEFT false s false (ch " ") size.
(* src/include/elm/io/Output.h:81-81 IntFormat::base *)
Definition IntFormat_base (b : Z) (f : IntFormat) : IntFormat :=
  mkIF (if_val f) (u8 b) (if_width f) (if_align f) (if_upper f) (if_sign f) (if_displaySign f) (if_pad f) (if_size f).
(* src/include/elm/io/Output.h:82-85 IntFormat::hex *)
Definition IntFormat_unsigned_base (b : Z) (f : IntFormat) : IntFormat :=
  mkIF (if_val f) b (if_width f) (if_align f) (if_upper f) false (if_displaySign f) (if_pad f) (if_size f).
(* src/include/elm/io/Output.h:86-86 IntFormat::width *)
Definition IntFormat_width (w : Z) (f : IntFormat) : IntFormat :=
  mkIF (if_val f) (if_base f) (u8 w) (if_align f) (if_upper f) (if_sign f) (if_displaySign f) (if_pad f) (if_size f).
(* src/include/elm/io/Output.h:87-90 IntFormat::align *)
Definition IntFormat_align (a : alignment_t) (f : IntFormat) : IntFormat :=
  mkIF (if_val f) (if_base f) (if_width f) a (if_upper f) (if_sign f) (if_displaySign f) (if_pad f) (if_size f).
(* src/include/elm/io/Output.h:94-94 IntFormat::pad *)
Definition IntFormat_pad (p : Z) (f : IntFormat) : IntFormat :=
  mkIF (if_val f) (if_base f) (if_width f) (if_align f) (if_upper f) (if_sign f) (if_displaySign f) p (if_size f).

(* src/include/elm/io/Output.h:165-168 StringFormat *)
Record StringFormat := mkSF { sf_s : list Z; sf_width : Z; sf_align : alignment_t; sf_pad : Z }.

Section Output.
Context {S : Type} `{OutStream S}.
Abbreviation OutM := (IO (Output S)).

(** A call on the stream, whose result is not tested ... *)
Definition strm_call (f : S -> outcome (Z * S)) : OutM Z := fun o =>
  m ← f (o_strm o); Ret (Val m.1, mkOut m.2 (o_ansi o)).
(** ... or leads to an exception when it is negative. *)
Definition strm_check (f : S -> outcome (Z * S)) : OutM unit :=
  r ← strm_call f; if r <? 0 then throw else mret tt.

(* src/src/io_Output.cpp:104-105 Output::Output *)
Definition Output_make (stream : S) : Output S := mkOut stream (-1).
(* src/src/io_Output.cpp:117-120 Output::setStream *)
Definition Output_setStream (stream : S) : OutM unit := put_st (mkOut stream (-1)).
(* src/src/io_Output.cpp:298-301 Output::flush *)
Definition Output_flush : OutM unit := strm_check out_flush.

(* src/src/io_Output.cpp:280-292 Output::print *)
Definition Output_print_string (str : list Z) : OutM unit := strm_check (fun s => out_write s str).
(* src/src/io_Output.cpp:138-140 Output::print *)
Definition Output_print_bool (value : bool) : OutM unit :=
  Output_print_string (if value then text "true" else text "false").
(* src/src/io_Output.cpp:146-149 Output::print *)
Definition Output_print_char (chr : Z) : OutM unit := strm_check (fun s => out_writeByte s chr).

(** Writing the end of a buffer of [n] bytes. *)
Definition write_from (n : Z) (m : outcome (list Z * Z)) : OutM unit :=
  p ← lift m; strm_check (fun s => out_write s (chars_from p n)).
Definition stack_buffer (n : Z) : list Z * Z := (replicate (Z.to_nat n) 0, n).

(** The digits and the sign of the signed value of [w] bits, in a buffer of [n]
    bytes; negating the least value is not defined. *)
Definition signed_chars (w n value : Z) : outcome (list Z * Z) :=
  let neg := value <? 0 in
  uval ← (if neg then (if value =? - 2 ^ (w - 1) then Crash Undefined else Ret (wrap w (- value)))
          else Ret (wrap w value));
  p ← Output_horner (stack_buffer n) uval 10 (ch "a");
  if neg then push_back p (ch "-") else Ret p.
(* src/src/io_Output.cpp:156-179 Output::print *)
Definition Output_print_int32 (value : Z) : OutM unit := write_from 16 (signed_chars 32 16 value).
(* src/src/io_Output.cpp:187-210 Output::print *)
Definition Output_print_int64 (value : Z) : OutM unit := write_from 64 (signed_chars 64 64 value).
(* src/src/io_Output.cpp:218-227 Output::print *)
Definition Output_print_uint32 (value : Z) : OutM unit :=
  write_from 16 (Output_horner (stack_buffer 16) value 10 (ch "a")).
(* src/src/io_Output.cpp:235-244 Output::print *)
Definition Output_print_uint64 (value : Z) : OutM unit :=
  write_from 32 (Output_horner (stack_buffer 32) value 10 (ch "a")).

(* src/src/io_Output.cpp:263-274 Output::print *)
Definition Output_print_ptr (value : Z) : OutM unit :=
  if value =? 0 then Output_print_string (text "<null>")
  else write_from 16
    (p ← Output_horner (stack_buffer 16) value 16 (ch "a");
     iter 17 (fun p => if p.2 =? 0 then Ret (inr p) else p ← push_back p (ch "0"); Ret (inl p)) p).

(** The characters of an integer with its sign, in a buffer of 33 bytes of which
    32 are used. *)
(* src/src/io_Output.cpp:345-361 Output::print *)
Definition IntFormat_chars (fmt : IntFormat) : outcome (list Z * Z) :=
  uval ← (if if_sign fmt && (if_val fmt <? 0) then
            (if if_val fmt =? - 2 ^ 63 then Crash Undefined else Ret (u64 (- if_val fmt)))
          else Ret (u64 (if_val fmt)));
  let uval := if negb (if_sign fmt) && negb (if_size fmt =? 8)
              then Z.land uval (u64 (Z.shiftl 1 (if_size fmt * 8) - 1)) else uval in
  res ← Output_horner (replicate 33 0, 32) uval (if_base fmt) (if if_upper fmt then ch "A" else ch "a");
  res ← (if if_sign fmt && (if_val fmt <? 0) then push_back res (ch "-") else Ret res);
  if if_displaySign fmt && (0 <? if_val fmt) then push_back res (ch "+") else Ret res.

(** Paddings on the left and on the right of [size] characters. *)
(* src/src/io_Output.cpp:363-381 Output::print *)
Definition IntFormat_pads (fmt : IntFormat) (size : Z) : Z * Z :=
  if if_width fmt =? 0 then (0, 0)
  else match if_align fmt with
       | A_NONE | A_LEFT => (0, if_width fmt - size)
       | A_RIGHT => (if_width fmt - size, 0)
       | A_CENTER => let lpad := Z.quot (if_width fmt - size) 2 in
                     (lpad, if_width fmt - size - lpad)
       end.

(** [for(int i = 0; i < n; i++) strm->write(c)], the results not tested. *)
Fixpoint write_n (n : nat) (c : Z) : OutM unit :=
  match n with
  | O => mret tt
  | Datatypes.S n => strm_call (fun s => out_writeByte s c) ;; write_n n c
  end.

(* src/src/io_Output.cpp:345-389 Output::print *)
Definition Output_print_IntFormat (fmt : IntFormat) : OutM unit :=
  res ← lift (IntFormat_chars fmt);
  let size := 32 - res.2 in
  let '(lpad, rpad) := IntFormat_pads fmt size in
  write_n (Z.to_nat lpad) (if_pad fmt) ;;
  strm_call (fun s => out_write s (chars_from res 32)) ;;
  write_n (Z.to_nat rpad) (if_pad fmt).

(** [for(int i = 0; i < n; i++) *this << c]. *)
Fixpoint print_n (n : nat) (c : Z) : OutM unit :=
  match n with O => mret tt | Datatypes.S n => Output_print_char c ;; print_n n c end.

(* src/src/io_Output.cpp:538-572 Output::print *)
Definition Output_print_StringFormat (fmt : StringFormat) : OutM unit :=
  let len := zlen (sf_s fmt) in
  if sf_width fmt =? 0 then Output_print_string (sf_s fmt)
  else if sf_width fmt <=? len then Output_print_string (take (Z.to_nat (sf_width fmt)) (sf_s fmt))
  else
    m ← match sf_align fmt with
        | A_LEFT => mret (0, sf_width fmt - len)
        | A_CENTER => let b := Z.quot (sf_width fmt - len) 2 in mret (b, sf_width fmt - b - len)
        | A_RIGHT => mret (sf_width fmt - len, 0)
        | A_NONE => lift (Crash AssertFailed)
        end;
    print_n (Z.to_nat m.1) (sf_pad fmt) ;;
    Output_print_string (sf_s fmt) ;;
    print_n (Z.to_nat m.2) (sf_pad fmt).
End Output.

(** The predefined formats. *)
(* src/src/io_Output.cpp:871-873 pointer *)
Definition pointer_fmt (p : Z) : IntFormat :=
  IntFormat_pad (ch "0") (IntFormat_width 16 (IntFormat_unsigned_base 16 (IntFormat_make p true 8))).
(* src/src/io_Output.cpp:889-891 byte *)
Definition byte_fmt (b : Z) : IntFormat :=
  IntFormat_align A_RIGHT (IntFormat_pad (ch "0") (IntFormat_width 2
    (IntFormat_unsigned_base 16 (IntFormat_make b false 1)))).

(** ** Numerals *)

(** The digit of value [d]. *)
Definition digit_char (enc d : Z) : Z := if d <? 10 then ch "0" + d else enc + d - 10.

(** The numeral of [v], most significant digit first. *)
Fixpoint digits_of (fuel : nat) (base enc v : Z) (acc : list Z) : list Z :=
  match fuel with
  | O => acc
  | S fuel => if v =? 0 then acc
              else digits_of fuel base enc (v / base) (digit_char enc (v mod base) :: acc)
  end.
Definition numeral (base enc v : Z) : list Z :=
  if v =? 0 then [ch "0"] else digits_of (Z.to_nat (Z.log2 v + 1)) base enc v [].

Lemma digits_of_acc fuel base enc v acc : digits_of fuel base enc v acc = digits_of fuel base enc v [] ++ acc.
Proof.
  revert v acc. induction fuel as [|fuel IH]; intros v acc; cbn; [done|]. destruct (v =? 0); [done|].
  rewrite IH, (IH _ [_]). by rewrite <- app_assoc.
Qed.

Lemma log2_div_lt v base : 2 <= base -> base <= v -> Z.log2 (v / base) + 1 <= Z.log2 v.
Proof.
  intros Hb Hv. rewrite Z.add_1_r, <- Z.log2_double by (apply Z.div_str_pos; lia).
  apply Z.log2_le_mono. pose proof (Z.mul_div_le v base ltac:(lia)). nia.
Qed.

Lemma digits_of_fuel base enc v f1 f2 acc : 2 <= base -> 0 <= v ->
  (v <> 0 -> Z.log2 v + 1 <= Z.of_nat f1) -> (v <> 0 -> Z.log2 v + 1 <= Z.of_nat f2) ->
  digits_of f1 base enc v acc = digits_of f2 base enc v acc.
Proof.
  intros Hb. revert f2 v acc. induction f1 as [|f1 IH]; intros f2 v acc Hv H1 H2.
  - destruct (Z.eq_dec v 0) as [->|Hn]; [by destruct f2|]. pose proof (Z.log2_nonneg v). lia.
  - destruct (Z.eq_dec v 0) as [->|Hn]; [by destruct f2|]. destruct f2 as [|f2].
    { pose proof (Z.log2_nonneg v). lia. }
    cbn. rewrite (proj2 (Z.eqb_neq v 0)) by done.
    apply IH; [by apply Z.div_pos; lia|..]; intros Hd;
      (destruct (Z.ltb_spec v base); [rewrite Z.div_small in Hd by lia; done|]);
      pose proof (log2_div_lt v base); lia.
Qed.

(** The numeral of a number of two digits or more. *)
Lemma numeral_step base enc v : 2 <= base -> 0 < v ->
  numeral base enc v =
  (if v / base =? 0 then [] else numeral base enc (v / base)) ++ [digit_char enc (v mod base)].
Proof.
  intros Hb Hv. unfold numeral at 1. rewrite (proj2 (Z.eqb_neq v 0)) by lia.
  pose proof (Z.log2_nonneg v). replace (Z.to_nat (Z.log2 v + 1)) with (S (Z.to_nat (Z.log2 v))) by lia.
  cbn [digits_of]. rewrite (proj2 (Z.eqb_neq v 0)), digits_of_acc by lia. f_equal.
  destruct (Z.eqb_spec (v / base) 0) as [->|Hd]; [by destruct (Z.to_nat _)|].
  unfold numeral. rewrite (proj2 (Z.eqb_neq _ 0)) by done.
  destruct (Z.ltb_spec v base); [rewrite Z.div_small in Hd by lia; done|].
  pose proof (log2_div_lt v base). pose proof (Z.log2_nonneg (v / base)).
  apply digits_of_fuel; try lia. apply Z.div_pos; lia.
Qed.

(** The value of digits in a base. *)
Definition horner_value (base : Z) (ds : list Z) : Z := foldl (fun a d => a * base + d) 0 ds.

(** Induction on the digits of a number. *)
Lemma numeral_ind base (P : Z -> Prop) : 2 <= base ->
  (forall v, 0 < v -> (v / base <> 0 -> P (v / base)) -> P v) -> forall v, 0 < v -> P v.
Proof.
  intros Hb HP v Hv. remember (Z.to_nat v) as n eqn:Hn. revert v Hv Hn.
  induction (lt_wf n) as [n _ IH]. intros v Hv ->. apply HP; [done|]. intros Hd.
  assert (0 <= v / base) by (apply Z.div_pos; lia).
  pose proof (Z.div_lt v base ltac:(lia) ltac:(lia)).
  apply (IH (Z.to_nat (v / base))); lia.
Qed.

(** Every character of a numeral is the one of a digit of the base. *)
Lemma numeral_digits base enc v : 2 <= base -> 0 <= v ->
  exists ds, numeral base enc v = digit_char enc <$> ds /\ Forall (fun d => 0 <= d < base) ds /\
    horner_value base ds = v /\ ds <> [].
Proof.
  intros Hb Hv. destruct (Z.eq_dec v 0) as [->|Hn].
  { exists [0]. split_and!; try done. apply list.Forall_singleton; lia. }
  revert v Hv Hn. enough (forall v, 0 < v -> exists ds, numeral base enc v = digit_char enc <$> ds /\
    Forall (fun d => 0 <= d < base) ds /\ horner_value base ds = v /\ ds <> []) as HH.
  { intros v Hv Hn. apply HH. lia. }
  apply (numeral_ind base); [done|]. intros v Hv IH. rewrite numeral_step by lia.
  pose proof (Z.mod_pos_bound v base ltac:(lia)). destruct (Z.eqb_spec (v / base) 0) as [E|E].
  - exists [v mod base]. split_and!; [done|by apply list.Forall_singleton| |done].
    unfold horner_value. cbn. pose proof (Z.div_mod v base ltac:(lia)). lia.
  - destruct (IH E) as (ds & -> & Hd & Eh & _). exists (ds ++ [v mod base]).
    rewrite fmap_app. split_and!; [done| | |by destruct ds].
    + apply Forall_app. split; [done|]. by apply list.Forall_singleton.
    + unfold horner_value in *. rewrite foldl_app. cbn. rewrite Eh.
      pose proof (Z.div_mod v base ltac:(lia)). lia.
Qed.

Lemma numeral_length base enc v n : 2 <= base -> 0 <= v < base ^ Z.of_nat n -> (0 < n)%nat ->
  (length (numeral base enc v) <= n)%nat.
Proof.
  intros Hb Hv Hn. destruct (Z.eq_dec v 0) as [->|]; [cbn; lia|].
  assert (0 < v) as Hp by lia. destruct Hv as [_ Hv]. revert n Hn Hv.
  revert v Hp n0. apply (numeral_ind base (fun v => v <> 0 -> forall n, (0 < n)%nat ->
    v < base ^ Z.of_nat n -> (length (numeral base enc v) <= n)%nat)); [done|].
  intros v Hv IH _ n Hn Hlt. rewrite numeral_step, length_app by lia. cbn [length].
  destruct (Z.eqb_spec (v / base) 0) as [E|E]; [cbn; lia|]. destruct n as [|[|n]]; [lia| |].
  - exfalso. apply E, Z.div_small. rewrite Z.pow_1_r in Hlt. lia.
  - specialize (IH E E (S n) ltac:(lia)). rewrite Nat2Z.inj_succ, Z.pow_succ_r in Hlt by lia.
    assert (v / base < base ^ Z.of_nat (S n)) by (apply Z.div_lt_upper_bound; lia).
    specialize (IH ltac:(done)). lia.
Qed.

(** ** The buffers on the stack *)

(** The pointer is at [q], after the bytes of [buf] not written yet. *)
Lemma push_back_ok buf tail q c : 0 < q <= zlen buf ->
  push_back (take (Z.to_nat q) buf ++ tail, q) c =
    Ret (take (Z.to_nat (q - 1)) buf ++ c :: tail, q - 1).
Proof.
  intros Hq. unfold push_back. cbn [fst snd].
  destruct (lookup_lt_is_Some_2 buf (Z.to_nat (q - 1))) as [x Hx]; [lia|].
  rewrite wr_ok by (rewrite length_app, length_take; lia). mred. do 3 f_equal.
  replace (Z.to_nat q) with (S (Z.to_nat (q - 1))) by lia. rewrite (take_S_r _ _ x Hx), <- app_assoc.
  rewrite insert_app_r_alt by (rewrite length_take; lia).
  rewrite length_take, Nat.min_l, Nat.sub_diag by lia. done.
Qed.

Lemma horner_loop_ok base enc (buf : list Z) : 2 <= base -> forall v, 0 < v -> forall fuel q tail,
  Z.log2 v + 2 <= Z.of_nat fuel -> zlen (numeral base enc v) <= q <= zlen buf ->
  iter fuel (horner_step base enc) ((take (Z.to_nat q) buf ++ tail, q), v) =
    Ret (take (Z.to_nat (q - zlen (numeral base enc v))) buf ++ numeral base enc v ++ tail,
         q - zlen (numeral base enc v)).
Proof.
  intros Hb. apply (numeral_ind base (fun v => forall fuel q tail,
    Z.log2 v + 2 <= Z.of_nat fuel -> zlen (numeral base enc v) <= q <= zlen buf -> _)); [done|].
  intros v Hv IH fuel q tail Hf Hq. pose proof (Z.log2_nonneg v). destruct fuel as [|fuel]; [lia|].
  rewrite numeral_step in * by lia. rewrite length_app in *. cbn [length] in *.
  cbn [iter horner_step]. rewrite (proj2 (Z.eqb_neq v 0)), (proj2 (Z.eqb_neq base 0)) by lia.
  fold (digit_char enc (v mod base)). rewrite push_back_ok by lia. mred.
  destruct (Z.eqb_spec (v / base) 0) as [E|E].
  - destruct fuel as [|fuel]; [lia|]. cbn [iter horner_step]. rewrite E. cbn [Z.eqb]. mred.
    cbn [length app]. by replace (q - Z.of_nat (0 + 1)) with (q - 1) by lia.
  - destruct (Z.ltb_spec v base); [rewrite Z.div_small in E by lia; done|].
    pose proof (log2_div_lt v base). rewrite (IH E) by lia. rewrite <- app_assoc.
    by replace (q - Z.of_nat (length (numeral base enc (v / base)) + 1))
      with (q - 1 - zlen (numeral base enc (v / base))) by lia.
Qed.

Lemma Output_horner_ok base enc buf q v : 2 <= base -> 0 <= v < 2 ^ 64 ->
  zlen (numeral base enc v) <= q <= zlen buf ->
  Output_horner (buf, q) v base enc =
    Ret (take (Z.to_nat (q - zlen (numeral base enc v))) buf ++ numeral base enc v ++ drop (Z.to_nat q) buf,
         q - zlen (numeral base enc v)).
Proof.
  intros Hb Hv Hq. unfold Output_horner. 
  replace (buf, q) with (take (Z.to_nat q) buf ++ drop (Z.to_nat q) buf, q) by (by rewrite take_drop).
  destruct (Z.eqb_spec v 0) as [->|Hn].
  { change (numeral base enc 0) with [ch "0"] in *. change (zlen [ch "0"]) with 1 in *.
    apply push_back_ok. lia. }
  apply horner_loop_ok; [done|lia| |done].
  assert (Z.log2 v < 64); [|lia]. apply Z.log2_lt_pow2; lia.
Qed.

(** Reading what has been written from the pointer to the start. *)
Lemma chars_from_ok (buf1 body rest : list Z) q e : q = zlen buf1 -> e = q + zlen body ->
  chars_from (buf1 ++ body ++ rest, q) e = body.
Proof.
  intros -> ->. unfold chars_from. cbn [fst snd]. rewrite Nat2Z.id, drop_app_length.
  rewrite take_app_le, firstn_all2; [done|lia|lia].
Qed.

(** The text of a signed number. *)
Definition int_text (v : Z) : list Z :=
  if v <? 0 then ch "-" :: numeral 10 (ch "a") (- v) else numeral 10 (ch "a") v.

Lemma numeral_chars v : 0 <= v -> Forall (fun c => 48 <= c <= 57) (numeral 10 (ch "a") v).
Proof.
  intros Hv. destruct (numeral_digits 10 (ch "a") v) as (ds & -> & Hds & _); [done|done|].
  apply list.Forall_fmap. eapply Forall_impl; [exact Hds|]. intros d Hd. unfold compose; cbv beta in *.
  unfold digit_char. rewrite (proj2 (Z.ltb_lt d 10)) by lia. change (ch "0") with 48. lia.
Qed.
Lemma int_text_bytes v : Forall (inw 8) (int_text v) /\ int_text v <> [].
Proof.
  assert (forall u, 0 <= u -> Forall (inw 8) (numeral 10 (ch "a") u)) as Hb.
  { intros u Hu. eapply Forall_impl; [by apply numeral_chars|]. unfold inw. cbn. lia. }
  unfold int_text. destruct (Z.ltb_spec v 0); [split; [constructor; [done|apply Hb; lia]|done]|]. split; [by apply Hb|].
  destruct (numeral_digits 10 (ch "a") v) as (ds & -> & _ & _ & Hds); [done|done|]. by destruct ds.
Qed.

Lemma signed_chars_ok w n value : 0 < w <= 64 -> - 2 ^ (w - 1) < value < 2 ^ (w - 1) ->
  zlen (int_text value) <= n ->
  exists p, signed_chars w n value = Ret p /\ chars_from p n = int_text value.
Proof.
  intros Hw Hv Hn. unfold signed_chars, int_text, stack_buffer in *.
  assert (2 ^ w = 2 * 2 ^ (w - 1)) as Ew.
  { rewrite <- Z.pow_succ_r by lia. f_equal. lia. }
  assert (2 ^ w <= 2 ^ 64) by (apply Z.pow_le_mono_r; lia).
  assert (length (replicate (Z.to_nat n) 0) = Z.to_nat n) as Hr by apply length_replicate.
  destruct (Z.ltb_spec value 0).
  - cbn [length] in Hn. rewrite (proj2 (Z.eqb_neq _ _)) by lia. unfold wrap.
    rewrite Z.mod_small by lia. mred. rewrite Output_horner_ok by (rewrite ?length_replicate; lia). mred.
    rewrite push_back_ok by (rewrite length_replicate; lia). eexists; split; [done|].
    rewrite app_comm_cons. apply chars_from_ok; rewrite ?length_take, ?length_replicate; cbn [length]; lia.
  - unfold wrap. rewrite Z.mod_small by lia. mred.
    rewrite Output_horner_ok by (rewrite ?length_replicate; lia). mred. eexists; split; [done|].
    apply chars_from_ok; rewrite ?length_take, ?length_replicate; lia.
Qed.

(** ** Printing on a stream that does not fail *)

Section OutputProofs.
Context {S : Type} (sent : S -> list Z -> Prop) `{ReliableOut S sent}.

Definition printed (o : Output S) (l : list Z) : Prop := sent (o_strm o) l.

(** [prints m b]: the command [m] sends the bytes [b]. *)
Definition prints {A} (m : IO (Output S) A) (b : list Z) : Prop := forall o l, printed o l ->
  exists x o', m o = Ret (Val x, o') /\ printed o' (l ++ b).

Lemma prints_ret {A} (x : A) : prints (mret x) [].
Proof. intros o l Ho. exists x, o. by rewrite app_nil_r. Qed.
Lemma prints_lift {A} (m : outcome A) x : m = Ret x -> prints (lift m) [].
Proof. intros -> o l Ho. exists x, o. by rewrite app_nil_r. Qed.
Lemma prints_bind {A B} (m : IO (Output S) A) (k : A -> IO (Output S) B) b c :
  prints m b -> (forall x, prints (k x) c) -> prints (m ≫= k) (b ++ c).
Proof.
  intros Hm Hk o l Ho. destruct (Hm o l Ho) as (x & o1 & E & H1).
  destruct (Hk x o1 _ H1) as (y & o2 & E2 & H2). exists y, o2.
  rewrite (io_bind_Val _ _ _ _ _ E), app_assoc. by split.
Qed.

Lemma prints_call_write b : prints (strm_call (fun s => out_write s b)) b.
Proof.
  intros o l Ho. destruct (write_law (o_strm o) l b Ho) as (r & s' & E & Hr & Hs).
  exists r, (mkOut s' (o_ansi o)). unfold strm_call. by rewrite E.
Qed.
Lemma prints_call_byte c : prints (strm_call (fun s => out_writeByte s c)) [c].
Proof.
  intros o l Ho. destruct (writeByte_law (o_strm o) l c Ho) as (r & s' & E & Hr & Hs).
  exists r, (mkOut s' (o_ansi o)). unfold strm_call. by rewrite E.
Qed.
Lemma prints_string b : prints (Output_print_string b) b.
Proof.
  intros o l Ho. destruct (write_law (o_strm o) l b Ho) as (r & s' & E & Hr & Hs).
  exists tt, (mkOut s' (o_ansi o)). split; [|done]. unfold Output_print_string, strm_check.
  erewrite io_bind_Val; [|unfold strm_call; rewrite E; reflexivity].
  cbn [fst]. by rewrite (proj2 (Z.ltb_ge r 0)) by lia.
Qed.
Lemma prints_char c : prints (Output_print_char c) [c].
Proof.
  intros o l Ho. destruct (writeByte_law (o_strm o) l c Ho) as (r & s' & E & Hr & Hs).
  exists tt, (mkOut s' (o_ansi o)). split; [|done]. unfold Output_print_char, strm_check.
  erewrite io_bind_Val; [|unfold strm_call; rewrite E; reflexivity].
  cbn [fst]. by rewrite (proj2 (Z.ltb_ge r 0)) by lia.
Qed.
Lemma prints_write_n n c : prints (write_n n c) (replicate n c).
Proof.
  induction n as [|n IH]; [apply prints_ret|]. apply (prints_bind _ _ [c]); [apply prints_call_byte|done].
Qed.
Lemma prints_print_n n c : prints (print_n n c) (replicate n c).
Proof.
  induction n as [|n IH]; [apply prints_ret|]. apply (prints_bind _ _ [c]); [apply prints_char|done].
Qed.
Lemma prints_write_from n m p b : m = Ret p -> chars_from p n = b -> prints (write_from n m) b.
Proof.
  intros -> <-. intros o l Ho. unfold write_from. erewrite io_bind_Val by reflexivity.
  by apply prints_string.
Qed.

Lemma prints_int32 v : - 2 ^ 31 < v < 2 ^ 31 -> prints (Output_print_int32 v) (int_text v).
Proof.
  intros Hv. destruct (signed_chars_ok 32 16 v) as (p & E & Ep); [done|done| |].
  - unfold int_text. destruct (Z.ltb_spec v 0); cbn [length];
      [pose proof (numeral_length 10 (ch "a") (- v) 15)|pose proof (numeral_length 10 (ch "a") v 15)]; lia.
  - by apply (prints_write_from _ _ p).
Qed.

(** The number that an integer format prints, and its text. *)
Definition if_number (fmt : IntFormat) : Z :=
  if if_sign fmt && (if_val fmt <? 0) then - if_val fmt
  else if if_sign fmt then if_val fmt else if_val fmt mod 2 ^ (8 * if_size fmt).
Definition if_text (fmt : IntFormat) : list Z :=
  (if if_displaySign fmt && (0 <? if_val fmt) then [ch "+"] else []) ++
  (if if_sign fmt && (if_val fmt <? 0) then [ch "-"] else []) ++
  numeral (if_base fmt) (if if_upper fmt then ch "A" else ch "a") (if_number fmt).

Record if_ok (fmt : IntFormat) : Prop := {
  if_base_ok : 2 <= if_base fmt;
  if_size_ok : 0 < if_size fmt <= 8;
  if_val_ok : - 2 ^ 63 < if_val fmt < 2 ^ 63;
  if_fits : zlen (if_text fmt) <= 32 }.

Lemma pow8_le n : 0 < n <= 8 -> 0 < 2 ^ (8 * n) <= 2 ^ 64.
Proof. intros Hn. split; [apply Z.pow_pos_nonneg; lia|apply Z.pow_le_mono_r; lia]. Qed.

Lemma if_number_range fmt : if_ok fmt -> 0 <= if_number fmt < 2 ^ 64.
Proof.
  intros [Hb Hz Hv Hf]. unfold if_number. pose proof (pow8_le _ Hz).
  destruct (if_sign fmt); cbn [andb].
  - destruct (Z.ltb_spec (if_val fmt) 0); lia.
  - pose proof (Z.mod_pos_bound (if_val fmt) (2 ^ (8 * if_size fmt)) ltac:(lia)). lia.
Qed.

(** The masks and conversions of the code give this number. *)
Lemma if_uval_ok fmt : if_ok fmt -> exists u,
  (if if_sign fmt && (if_val fmt <? 0) then
     (if if_val fmt =? - 2 ^ 63 then Crash Undefined else Ret (u64 (- if_val fmt)))
   else Ret (u64 (if_val fmt))) = Ret u /\
  (if negb (if_sign fmt) && negb (if_size fmt =? 8)
   then Z.land u (u64 (Z.shiftl 1 (if_size fmt * 8) - 1)) else u) = if_number fmt.
Proof.
  intros [Hb Hz Hv Hf]. unfold if_number. pose proof (pow8_le _ Hz). unfold wrap.
  destruct (if_sign fmt); cbn [andb negb].
  - destruct (Z.ltb_spec (if_val fmt) 0).
    + rewrite (proj2 (Z.eqb_neq _ _)) by lia. eexists; split; [done|]. by rewrite Z.mod_small by lia.
    + eexists; split; [done|]. by rewrite Z.mod_small by lia.
  - eexists; split; [done|]. destruct (Z.eqb_spec (if_size fmt) 8) as [->|]; [done|]. cbn [negb].
    rewrite Z.shiftl_1_l, (Z.mod_small (2 ^ _ - 1)) by
      (replace (if_size fmt * 8) with (8 * if_size fmt) by lia; lia).
    replace (2 ^ (if_size fmt * 8) - 1) with (Z.ones (if_size fmt * 8)) by (rewrite Z.ones_equiv; lia).
    rewrite Z.land_ones by lia. replace (if_size fmt * 8) with (8 * if_size fmt) by lia.
    rewrite Z.mod_mod_divide; [done|].
    exists (2 ^ (64 - 8 * if_size fmt)). rewrite <- Z.pow_add_r by lia. f_equal. lia.
Qed.

Lemma IntFormat_chars_ok fmt : if_ok fmt ->
  exists p, IntFormat_chars fmt = Ret p /\ 32 - p.2 = zlen (if_text fmt) /\ chars_from p 32 = if_text fmt.
Proof.
  intros Hf. destruct (if_uval_ok fmt Hf) as (u & Eu & En). unfold IntFormat_chars. rewrite Eu. mred. rewrite En.
  pose proof (if_number_range fmt Hf) as Hn. pose proof (if_fits fmt Hf) as Hl. unfold if_text in *.
  rewrite !length_app in Hl. set (num := numeral _ _ _) in *.
  assert (zlen num <= 32) as Hnum by lia.
  rewrite Output_horner_ok; [|apply Hf|done|cbn [length]; fold num; rewrite length_replicate; lia].
  fold num. mred. set (tail := drop _ _).
  destruct (if_sign fmt && (if_val fmt <? 0)) eqn:E1; destruct (if_displaySign fmt && (0 <? if_val fmt)) eqn:E2;
    cbn [length app] in Hl |- *.
  - exfalso. apply andb_true_iff in E1 as [_ E1%Z.ltb_lt]. apply andb_true_iff in E2 as [_ E2%Z.ltb_lt]. lia.
  - rewrite push_back_ok by (rewrite length_replicate; lia). eexists; split; [done|].
    split; [cbn [snd]; lia|]. rewrite app_comm_cons.
    apply chars_from_ok; rewrite ?length_take, ?length_replicate; cbn [length]; lia.
  - mred. rewrite push_back_ok by (rewrite length_replicate; lia). eexists; split; [done|].
    split; [cbn [snd]; lia|]. rewrite app_comm_cons.
    apply chars_from_ok; rewrite ?length_take, ?length_replicate; cbn [length]; lia.
  - mred. eexists; split; [done|]. split; [cbn [snd]; lia|].
    apply chars_from_ok; rewrite ?length_take, ?length_replicate; lia.
Qed.

Lemma prints_IntFormat fmt lpad rpad : if_ok fmt -> IntFormat_pads fmt (zlen (if_text fmt)) = (lpad, rpad) ->
  prints (Output_print_IntFormat fmt)
    (replicate (Z.to_nat lpad) (if_pad fmt) ++ if_text fmt ++ replicate (Z.to_nat rpad) (if_pad fmt)).
Proof.
  intros Hf Epad. destruct (IntFormat_chars_ok fmt Hf) as (p & Ep & Hp & Ec).
  assert (prints (write_n (Z.to_nat lpad) (if_pad fmt) ;;
    strm_call (fun s => out_write s (chars_from p 32)) ;; write_n (Z.to_nat rpad) (if_pad fmt))
    (replicate (Z.to_nat lpad) (if_pad fmt) ++ if_text fmt ++ replicate (Z.to_nat rpad) (if_pad fmt))) as Hpr.
  { apply prints_bind; [apply prints_write_n|intros _]. rewrite Ec.
    apply prints_bind; [apply prints_call_write|intros _]. apply prints_write_n. }
  intros o l Ho. destruct (Hpr o l Ho) as (x & o' & E & Ho'). exists x, o'. split; [|done].
  unfold Output_print_IntFormat. erewrite io_bind_Val by (unfold lift; rewrite Ep; reflexivity).
  rewrite Hp, Epad. exact E.
Qed.


(** Strings: cut to the width, or padded to it. *)
Lemma prints_StringFormat fmt : sf_align fmt <> A_NONE -> 0 <= sf_width fmt ->
  exists lp rp, prints (Output_print_StringFormat fmt)
    (replicate lp (sf_pad fmt) ++
     (if sf_width fmt =? 0 then sf_s fmt else take (Z.to_nat (sf_width fmt)) (sf_s fmt)) ++
     replicate rp (sf_pad fmt)) /\
    (0 < sf_width fmt -> Z.of_nat (lp + Nat.min (Z.to_nat (sf_width fmt)) (length (sf_s fmt)) + rp) = sf_width fmt).
Proof.
  intros Ha Hw. unfold Output_print_StringFormat. destruct (Z.eqb_spec (sf_width fmt) 0) as [E|E].
  { exists 0%nat, 0%nat. cbn [replicate app]. rewrite app_nil_r. split; [apply prints_string|lia]. }
  destruct (Z.leb_spec (sf_width fmt) (zlen (sf_s fmt))).
  { exists 0%nat, 0%nat. cbn [replicate app]. rewrite app_nil_r. split; [apply prints_string|lia]. }
  rewrite take_ge by lia.
  assert (forall b a, prints (print_n (Z.to_nat b) (sf_pad fmt) ;; Output_print_string (sf_s fmt) ;;
      print_n (Z.to_nat a) (sf_pad fmt))
    (replicate (Z.to_nat b) (sf_pad fmt) ++ sf_s fmt ++ replicate (Z.to_nat a) (sf_pad fmt))) as Hp.
  { intros b a. apply prints_bind; [apply prints_print_n|intros _].
    apply prints_bind; [apply prints_string|intros _]. apply prints_print_n. }
  destruct (sf_align fmt); [done|..]; eexists _, _; (split; [apply Hp|cbn [fst snd]; dlia]).
Qed.
End OutputProofs.


(** In base 2, a wide number overflows the buffer. *)
Example IntFormat_base2_overflow :
  IntFormat_chars (IntFormat_unsigned_base 2 (IntFormat_make (2 ^ 40) true 8)) = Crash OutOfBounds.
Proof. vm_compute. reflexivity. Qed.
