(* ===== verification/Input.v ===== *)
(** * Formatted input ([src/io_Input.cpp], [include/elm/io/Input.h])

    An [Input] reads any [InStream], with one character pushed back and a state
    of flags.  The commands may throw; [fuel] bounds the loops over characters:
    one more than the number of characters left is always enough. *)

From S2P Require Import Prelude Streams Output.

(* src/include/elm/io/Input.h:115-117 Input *)
Record Input (S : Type) := mkIn { i_strm : S; i_buf : Z; i_state : Z }.
Arguments mkIn {S} _ _ _.
Arguments i_strm {S} _.
Arguments i_buf {S} _.
Arguments i_state {S} _.

(* src/include/elm/io/Input.h:121-124 Input::ENDED *)
Definition ENDED : Z := 1.
Definition FAILED : Z := 2.
Definition IO_ERROR : Z := 4.

(** The characters that the C function [isspace] accepts. *)
Definition isspace (c : Z) : bool := (c =? 32) || ((9 <=? c) && (c <=? 13)).

(* src/src/io_Input.cpp:238-253 test_base *)
Definition test_base (chr base : Z) : Z :=
  let chr := swrap 8 chr in
  if base <? 10 then
    if (ch "0" <=? chr) && (chr <? ch "0" + base) then chr - ch "0" else -1
  else if (ch "0" <=? chr) && (chr <=? ch "9") then chr - ch "0"
  else if (ch "a" <=? chr) && (chr <? ch "a" + base - 10) then chr - ch "a" + 10
  else if (ch "A" <=? chr) && (chr <? ch "A" + base - 10) then chr - ch "A" + 10
  else -1.

Section Input.
Context {S : Type} `{InStream S} (fuel : nat).
Abbreviation InM := (IO (Input S)).

(* src/src/io_Input.cpp:55-56 Input::Input *)
Definition Input_make (stream : S) : Input S := mkIn stream (-1) 0.
(* src/include/elm/io/Input.h:39-39 Input::setStream *)
Definition Input_setStream (stream : S) : InM unit := fun i => Ret (Val tt, mkIn stream (-1) (i_state i)).
(* src/include/elm/io/Input.h:40-43 Input::ended *)
Definition Input_flag (f : Z) (i : Input S) : bool := negb (Z.land (i_state i) f =? 0).
(* src/include/elm/io/Input.h:44-44 Input::resetState *)
Definition Input_resetState : InM unit := fun i =>
  Ret (Val tt, mkIn (i_strm i) (i_buf i) (Z.land (i_state i) (Z.lnot (Z.lor FAILED IO_ERROR)))).

(** [state |= f] and [state = f], on 16 bits. *)
Definition set_flag (f : Z) : InM unit := fun i =>
  Ret (Val tt, mkIn (i_strm i) (i_buf i) (Z.lor (i_state i) f)).
Definition assign_state (f : Z) : InM unit := fun i =>
  Ret (Val tt, mkIn (i_strm i) (i_buf i) (u16 f)).

(* src/src/io_Input.cpp:71-93 Input::get *)
Definition Input_get : InM Z := fun i =>
  if 0 <=? i_buf i then Ret (Val (i_buf i), mkIn (i_strm i) (-1) (i_state i))
  else
    m ← in_readByte (i_strm i);
    let res := m.1 in
    if res <? 0 then
      if res =? IN_FAILED then
        Ret (Throw, mkIn m.2 (i_buf i) (Z.lor (i_state i) (Z.lor IO_ERROR FAILED)))
      else if res =? IN_ENDED then Ret (Val res, mkIn m.2 (i_buf i) (Z.lor (i_state i) ENDED))
      else Crash AssertFailed
    else Ret (Val res, mkIn m.2 (i_buf i) (i_state i)).

(* src/src/io_Input.cpp:112-115 Input::back *)
Definition Input_back (chr : Z) : InM unit := fun i =>
  assertP (i_buf i <? 0) ;; Ret (Val tt, mkIn (i_strm i) (s16 chr) (i_state i)).

(** [while(p(chr)) chr = get();] *)
Definition get_while (p : Z -> bool) (chr : Z) : InM Z :=
  io_iter fuel (fun chr => if p chr then c ← Input_get; mret (inl c) else mret (inr chr)) chr.

(* src/src/io_Input.cpp:99-104 Input::skip *)
Definition Input_skip : InM Z := c ← Input_get; get_while isspace c.

(** The test of the other characters of the pattern in [scanBool]. *)
(* src/src/io_Input.cpp:207-215 Input::scanBool *)
Fixpoint scanBool_match (pattern : list Z) (res : bool) (chr : Z) : InM bool :=
  match pattern with
  | c :: pattern =>
      if c =? chr then
        match pattern with
        | [] => mret res
        | _ => chr ← Input_get; scanBool_match pattern res chr
        end
      else assign_state IN_FAILED ;; mret false
  | [] => if chr =? 0 then lift (Crash OutOfBounds) else assign_state IN_FAILED ;; mret false
  end.

(* src/src/io_Input.cpp:180-216 Input::scanBool *)
Definition Input_scanBool : InM bool :=
  chr ← Input_get;
  let '(pattern, res) :=
    if chr =? ch "1" then (text "1", true)
    else if chr =? ch "0" then (text "0", false)
    else if chr =? ch "t" then (text "true", true)
    else if chr =? ch "f" then (text "false", false)
    else ([], false) in
  scanBool_match pattern res chr.

(* src/src/io_Input.cpp:223-229 Input::scanChar *)
Definition Input_scanChar : InM Z := res ← Input_get; if res <? 0 then throw else mret res.

(** The prefix of a number when no base is given: the base, whether a digit was
    seen, and the current character. *)
(* src/src/io_Input.cpp:267-287 Input::scanULong *)
Definition scan_base (base chr : Z) : InM (Z * bool * Z) :=
  if base =? 0 then
    if chr =? ch "0" then
      chr ← Input_get;
      if (chr =? ch "x") || (chr =? ch "X") then chr ← Input_get; mret (16, false, chr)
      else if (chr =? ch "b") || (chr =? ch "B") then chr ← Input_get; mret (2, false, chr)
      else mret (8, true, chr)
    else mret (10, false, chr)
  else mret (base, false, chr).

(** The loop on the digits on words of [w] bits; the old value is kept on 32
    bits by both versions: [inr None] when the overflow test succeeds. *)
(* src/src/io_Input.cpp:289-301 Input::scanULong *)
Definition scan_digits (w base : Z) (st : bool * Z * Z) : InM (bool * Z * Z + option (bool * Z * Z)) :=
  let '(one, val, chr) := st in
  let digit := test_base chr base in
  if 0 <=? digit then
    let old := u32 val in
    let val := wrap w (val * base + digit) in
    if val <? old then set_flag FAILED ;; mret (inr None)
    else chr ← Input_get; mret (inl (true, val, chr))
  else mret (inr (Some (one, val, chr))).

(* src/src/io_Input.cpp:263-307 Input::scanULong *)
Definition Input_scanULong (base : Z) : InM Z :=
  chr ← Input_skip;
  m ← scan_base base chr;
  let '(base, one, chr) := m in
  r ← io_iter fuel (scan_digits 32 base) (one, 0, chr);
  match r with
  | None => mret 0
  | Some (one, val, chr) =>
      (if 0 <=? chr then Input_back chr else mret tt) ;;
      (if negb (one : bool) then set_flag FAILED else mret tt) ;;
      mret val
  end.

(* src/src/io_Input.cpp:350-396 Input::scanULLong *)
Definition Input_scanULLong (base : Z) : InM Z :=
  chr ← Input_skip;
  m ← scan_base base chr;
  let '(base, one, chr) := m in
  r ← io_iter fuel (scan_digits 64 base) (one, 0, chr);
  match r with
  | None => mret 0
  | Some (one, val, chr) =>
      (if 0 <=? chr then Input_back chr else mret tt) ;;
      if negb (one : bool) then set_flag FAILED ;; mret 0 else mret val
  end.

(** The sign, then the magnitude, which must be less than [2 ^ (w - 1)]. *)
Definition scan_signed (w : Z) (scan : Z -> InM Z) (base : Z) : InM Z :=
  chr ← Input_skip;
  let neg := chr =? ch "-" in
  if negb neg && negb (chr =? ch "+") && (chr <? 0) then set_flag FAILED ;; mret 0
  else
    (if negb neg && negb (chr =? ch "+") then Input_back chr else mret tt) ;;
    val ← scan base;
    if 2 ^ (w - 1) <=? val then set_flag FAILED ;; mret 0
    else mret (if neg then - val else val).
(* src/src/io_Input.cpp:317-340 Input::scanLong *)
Definition Input_scanLong : Z -> InM Z := scan_signed 32 Input_scanULong.
(* src/src/io_Input.cpp:406-429 Input::scanLLong *)
Definition Input_scanLLong : Z -> InM Z := scan_signed 64 Input_scanULLong.

(** The loop of [scanWord]: the characters read, in order. *)
(* src/src/io_Input.cpp:510-514 Input::scanWord *)
Definition scanWord_step (st : list Z * Z) : InM (list Z * Z + list Z * Z) :=
  let '(buf, chr) := st in
  if (0 <=? chr) && negb (isspace chr) then
    chr' ← Input_get; mret (inl (buf ++ [chr], chr'))
  else mret (inr (buf, chr)).
(* src/src/io_Input.cpp:506-520 Input::scanWord *)
Definition Input_scanWord : InM (list Z) :=
  chr ← Input_skip;
  m ← io_iter fuel scanWord_step ([], chr);
  let '(buf, chr) := m in
  (if 0 <=? chr then Input_back chr else mret tt) ;;
  match buf with [] => set_flag FAILED ;; mret [] | _ => mret buf end.

(* src/src/io_Input.cpp:531-536 Input::scanLine *)
Definition scanLine_step (st : list Z * Z) : InM (list Z * Z + list Z * Z) :=
  let '(buf, chr) := st in
  if 0 <=? chr then
    if chr =? 10 then mret (inr (buf ++ [chr], chr))
    else chr' ← Input_get; mret (inl (buf ++ [chr], chr'))
  else mret (inr (buf, chr)).
(* src/src/io_Input.cpp:528-542 Input::scanLine *)
Definition Input_scanLine : InM (list Z) :=
  chr ← Input_get;
  m ← io_iter fuel scanLine_step ([], chr);
  if m.2 =? IN_FAILED then set_flag IO_ERROR ;; mret [] else mret m.1.

(* src/src/io_Input.cpp:549-557 Input::swallow *)
Definition Input_swallow (chr : Z) : InM unit :=
  read ← Input_get;
  if u8 chr =? read then mret tt else Input_back chr ;; throw.

(* src/src/io_Input.cpp:565-579 Input::swallow *)
Fixpoint Input_swallow_string (str : list Z) : InM unit :=
  match str with [] => mret tt | c :: str => Input_swallow c ;; Input_swallow_string str end.

(* src/src/io_Input.cpp:586-591 Input::swallowBlank *)
Definition Input_swallowBlank : InM unit :=
  chr ← Input_get; chr ← get_while (fun c => isspace c && (0 <=? c)) chr; Input_back chr.
End Input.

(** ** Scanning a stream that does not fail *)

Section InputProofs.
Context {S : Type} (pending : S -> list Z -> Prop) `{ReliableByte S pending}.
Implicit Types (i : Input S) (l : list Z).

(** The input [i] has the characters [l] left to scan, in state [st]. *)
Definition input_at i l (st : Z) : Prop :=
  Forall (inw 8) l /\ i_state i = st /\
  exists l', pending (i_strm i) l' /\ (i_buf i < 0 /\ l = l' \/ l = i_buf i :: l').

Definition at_end l (st : Z) : Z := match l with [] => Z.lor st ENDED | _ => st end.

(** The same once the next character [chr] has been got. *)
Definition input_cur i (chr : Z) l (st : Z) : Prop :=
  i_buf i < 0 /\ Forall (inw 8) l /\ chr = default IN_ENDED (head l) /\ input_at i (tail l) (at_end l st).

Lemma get_ok i l st : input_at i l st ->
  exists chr i', Input_get i = Ret (Val chr, i') /\ input_cur i' chr l st.
Proof.
  intros (Hb & <- & l' & Hp & Hl). unfold Input_get. destruct Hl as [[Hneg ->]|El].
  - rewrite (proj2 (Z.leb_gt 0 _)) by lia.
    destruct (readByte_law _ _ Hp) as (s' & E & Hs'). rewrite E. mred. cbn [fst snd]. destruct l' as [|x l'].
    + eexists _, _. split; [done|]. split; [done|]. split; [done|]. split; [done|].
      split; [done|]. split; [done|]. exists []. split; [done|]. by left.
    + apply Forall_cons in Hb as [Hx Hb]. unfold wrap. rewrite Z.mod_small by done.
      rewrite (proj2 (Z.ltb_ge x 0)) by apply Hx. eexists _, _. split; [done|].
      split; [done|]. split; [by constructor|]. split; [done|]. split; [done|]. split; [done|].
      exists l'. split; [done|]. by left.
  - subst l. apply Forall_cons in Hb as [Hx Hb]. rewrite (proj2 (Z.leb_le 0 _)) by apply Hx.
    eexists _, _. split; [done|]. split; [done|]. split; [by constructor|]. split; [done|].
    split; [done|]. split; [done|]. exists l'. split; [done|]. by left.
Qed.

Lemma back_ok i chr l st : input_cur i chr l st -> l <> [] ->
  exists i', Input_back chr i = Ret (Val tt, i') /\ input_at i' l st.
Proof.
  intros (Hn & Hb & Hc & _ & Est & l' & Hp & Hl) Hne. unfold Input_back.
  rewrite (proj2 (Z.ltb_lt _ 0)) by lia. mred. destruct l as [|x l]; [done|]. cbn in Hc, Est, Hl. subst chr.
  pose proof Hb as [Hx Hb']%Forall_cons. destruct Hx as [Hx0 Hx1].
  rewrite swrap_small by (cbn; lia). eexists; split; [done|]. split; [done|]. split; [done|].
  exists l'. split; [done|]. right. cbn. f_equal. destruct Hl as [[_ ->]|El]; [done|].
  rewrite El in Hb'. apply Forall_cons in Hb' as [[] _]. lia.
Qed.

(** [if(chr >= 0) back(chr);] *)
Lemma unget_ok i chr l st : input_cur i chr l st ->
  exists i', (if 0 <=? chr then Input_back chr else mret tt) i = Ret (Val tt, i') /\
    input_at i' l (at_end l st).
Proof.
  intros Hc. destruct l as [|x l].
  - destruct Hc as (_ & _ & -> & Hc). by exists i.
  - pose proof Hc as (_ & Hb & -> & _). apply Forall_cons in Hb as [[Hx _] _]. cbn [head default option_map].
    cbn. rewrite (proj2 (Z.leb_le 0 x)) by done. by apply (back_ok _ x (x :: l)).
Qed.

Lemma cur_get i chr l st : input_cur i chr l st -> l <> [] ->
  exists chr' i', Input_get i = Ret (Val chr', i') /\ input_cur i' chr' (tail l) st.
Proof. intros (_ & _ & _ & Hc) Hl. destruct l; [done|]. by apply get_ok. Qed.

(** Blanks are skipped. *)
Lemma get_while_ok fuel p sp : forall i chr l st,
  input_cur i chr (sp ++ l) st -> Forall (fun c => p c = true) sp ->
  p (default IN_ENDED (head l)) = false -> (length sp < fuel)%nat ->
  exists i', get_while fuel p chr i = Ret (Val (default IN_ENDED (head l)), i') /\
    input_cur i' (default IN_ENDED (head l)) l st.
Proof.
  unfold get_while. revert fuel. induction sp as [|c sp IH]; intros fuel i chr l st Hc Hsp Hp Hf;
    (destruct fuel as [|fuel]; [lia|]); cbn [io_iter].
  - exists i. pose proof Hc as (_ & _ & -> & _). cbn [app] in *. rewrite Hp. done.
  - pose proof Hc as (_ & _ & -> & _). apply Forall_cons in Hsp as [Hc0 Hsp]. cbn [app head default].
    cbn. rewrite Hc0. destruct (cur_get i _ _ _ Hc) as (c1 & i1 & E1 & H1); [done|]. cbn [tail app] in H1.
    destruct (IH fuel i1 c1 l st H1 Hsp Hp) as (i2 & E2 & H2); [cbn in Hf; lia|].
    exists i2. split; [|done]. rewrite (io_bind_Val _ _ i (inl c1) i1); [exact E2|].
    by rewrite (io_bind_Val _ _ _ _ _ E1).
Qed.

Lemma skip_ok fuel sp i l st : input_at i (sp ++ l) st -> Forall (fun c => isspace c = true) sp ->
  isspace (default IN_ENDED (head l)) = false -> (length sp < fuel)%nat ->
  exists i', Input_skip fuel i = Ret (Val (default IN_ENDED (head l)), i') /\
    input_cur i' (default IN_ENDED (head l)) l st.
Proof.
  intros Hi Hsp Hl Hf. destruct (get_ok _ _ _ Hi) as (c & i1 & E1 & H1). unfold Input_skip.
  rewrite (io_bind_Val _ _ _ _ _ E1). by apply (get_while_ok fuel isspace sp).
Qed.

(** *** Digits *)

(** No digit of any base at the start of [l]. *)
Definition ends_number l : Prop := test_base (default IN_ENDED (head l)) 36 = -1.

Lemma test_base_digit base d : 2 <= base <= 36 -> 0 <= d < base ->
  test_base (digit_char (ch "a") d) base = d.
Proof.
  intros Hb Hd. unfold test_base, digit_char. change (ch "0") with 48. change (ch "9") with 57.
  change (ch "a") with 97. change (ch "A") with 65.
  destruct (Z.ltb_spec d 10); rewrite swrap_small by (cbn; lia).
  - destruct (Z.ltb_spec base 10);
      rewrite (proj2 (Z.leb_le _ _)), ?(proj2 (Z.ltb_lt _ _)), ?(proj2 (Z.leb_le _ 57)) by lia; cbn; lia.
  - rewrite (proj2 (Z.ltb_ge base 10)), (proj2 (Z.leb_le 48 _)), (proj2 (Z.leb_gt _ 57)) by lia. cbn [andb].
    rewrite (proj2 (Z.leb_le _ _)), (proj2 (Z.ltb_lt _ _)) by lia. cbn. lia.
Qed.

Lemma ends_number_base l base : ends_number l -> 2 <= base <= 36 ->
  test_base (default IN_ENDED (head l)) base = -1.
Proof.
  unfold ends_number, test_base. change (ch "0") with 48. change (ch "9") with 57.
  change (ch "a") with 97. change (ch "A") with 65. set (c := swrap 8 _). intros He Hb.
  cbn [Z.ltb] in He. change (36 <? 10) with false in He. cbv iota in He.
  destruct (Z.leb_spec 48 c), (Z.leb_spec c 57); cbn [andb] in *; try lia;
  destruct (Z.leb_spec 97 c), (Z.ltb_spec c (97 + 36 - 10)); cbn [andb] in *; try lia;
  destruct (Z.leb_spec 65 c), (Z.ltb_spec c (65 + 36 - 10)); cbn [andb] in *; try lia;
  destruct (Z.ltb_spec base 10); cbn [andb];
  rewrite ?(proj2 (Z.ltb_ge c _)) by lia; rewrite ?andb_false_r; cbn [andb]; try done.
Qed.

Lemma horner_value_mono base v ds : 2 <= base -> 0 <= v -> Forall (fun d => 0 <= d < base) ds ->
  v <= foldl (fun a d => a * base + d) v ds.
Proof.
  intros Hb. revert v. induction ds as [|d ds IH]; intros v Hv Hd; cbn; [done|].
  apply Forall_cons in Hd as [Hd Hds]. etransitivity; [|apply IH; [nia|done]]. nia.
Qed.

(** The loop reads the digits of the base up to the first other character, when
    the number fits the word. *)
Lemma scan_digits_ok w base ds : 2 <= base <= 36 -> 32 <= w -> Forall (fun d => 0 <= d < base) ds ->
  forall fuel i chr one val rest st,
  input_cur i chr ((digit_char (ch "a") <$> ds) ++ rest) st -> ends_number rest ->
  0 <= val -> foldl (fun a d => a * base + d) val ds < 2 ^ w -> (length ds < fuel)%nat ->
  exists chr' i', io_iter fuel (scan_digits w base) (one, val, chr) i =
      Ret (Val (Some (one || negb (bool_decide (ds = [])), foldl (fun a d => a * base + d) val ds, chr')), i') /\
    input_cur i' chr' rest st.
Proof.
  intros Hb Hw Hds. induction Hds as [|d ds Hd Hds IH]; intros fuel i chr one val rest st Hc He Hval Hv Hf;
    (destruct fuel as [|fuel]; [lia|]); cbn [io_iter].
  - pose proof Hc as (_ & _ & -> & _). cbn [fmap list_fmap app foldl] in *.
    rewrite (io_bind_Val _ _ i (inr (Some (one, val, default IN_ENDED (head rest)))) i).
    + exists (default IN_ENDED (head rest)), i. by rewrite orb_false_r.
    + unfold scan_digits. by rewrite ends_number_base.
  - pose proof Hc as (_ & _ & Echr & _). cbn [fmap list_fmap app head default option_map] in Echr. cbn in Echr.
    destruct (cur_get i _ _ _ Hc) as (c1 & i1 & E1 & H1); [done|]. cbn [tail app fmap list_fmap] in H1.
    cbn [foldl] in *. pose proof (horner_value_mono base (val * base + d) ds) as Hm.
    specialize (Hm ltac:(lia) ltac:(nia) Hds).
    rewrite (io_bind_Val _ _ i (inl (true, val * base + d, c1)) i1).
    + destruct (IH fuel i1 c1 true (val * base + d) rest st H1 He) as (c2 & i2 & E2 & H2);
        [nia|done|cbn in Hf; lia|]. exists c2, i2. split; [|done]. rewrite E2.
      rewrite (bool_decide_eq_false_2 (d :: ds = [])) by done. by rewrite orb_true_r.
    + unfold scan_digits. rewrite Echr, test_base_digit by lia.
      rewrite (proj2 (Z.leb_le 0 d)) by lia. unfold wrap at 1 3.
      rewrite (Z.mod_small (val * base + d)) by nia.
      assert (u32 val <= val) by (apply Z.mod_le; lia).
      rewrite (proj2 (Z.ltb_ge _ _)) by nia. by rewrite (io_bind_Val _ _ _ _ _ E1).
Qed.

(** The first digit of a number in base 10. *)
Lemma numeral_head v : 0 < v -> exists d, head (numeral 10 (ch "a") v) = Some (digit_char (ch "a") d) /\ 0 < d < 10.
Proof.
  apply (numeral_ind 10 (fun v => exists d, head (numeral 10 (ch "a") v) = Some (digit_char (ch "a") d) /\ 0 < d < 10));
    [done|].
  clear v. intros v Hv IH. rewrite numeral_step by lia. destruct (Z.eqb_spec (v / 10) 0) as [E|E].
  - exists (v mod 10). cbn. split; [done|]. dlia.
  - destruct (IH E) as (d & Eh & Hd). exists d. split; [|done].
    destruct (numeral 10 (ch "a") (v / 10)); [done|]. done.
Qed.

(** The prefix is read as base 10 before a number in base 10, or as a 0 in base 8. *)
Lemma scan_base_ok v i chr rest st :
  input_cur i chr (numeral 10 (ch "a") v ++ rest) st -> ends_number rest -> 0 <= v ->
  exists base one ds chr' i', scan_base 0 chr i = Ret (Val (base, one, chr'), i') /\
    input_cur i' chr' ((digit_char (ch "a") <$> ds) ++ rest) st /\ 2 <= base <= 36 /\
    Forall (fun d => 0 <= d < base) ds /\ horner_value base ds = v /\
    (one || negb (bool_decide (ds = []))) = true /\
    (length ds <= length (numeral 10 (ch "a") v))%nat.
Proof.
  intros Hc He Hv. unfold scan_base. cbn [Z.eqb]. pose proof Hc as (_ & _ & Echr & _).
  destruct (Z.eq_dec v 0) as [->|Hn].
  - change (numeral 10 (ch "a") 0) with [ch "0"] in *. cbn in Echr. subst chr.
    destruct (cur_get i _ _ _ Hc) as (c1 & i1 & E1 & H1); [done|]. cbn [tail app] in H1.
    exists 8, true, [], c1, i1. change (code "0" =? code "0") with true. cbv iota.
    rewrite (io_bind_Val _ _ _ _ _ E1).
    pose proof H1 as (_ & _ & Ec1 & _).
    assert (forall x, test_base x 36 <> -1 -> (c1 =? x) = false) as Hx.
    { intros x Hx. apply Z.eqb_neq. intros <-. apply Hx. unfold ends_number in He. by rewrite <- Ec1 in He. }
    rewrite !Hx by (vm_compute; done). cbn [orb]. split_and!; try done; cbn; lia.
  - destruct (numeral_digits 10 (ch "a") v) as (ds & Eds & Hds & Ev & Hne); [done|done|].
    destruct (numeral_head v) as (d & Ed & Hd); [lia|].
    exists 10, false, ds, chr, i. rewrite Eds in *. rewrite (proj2 (Z.eqb_neq _ _)).
    + split_and!; try done; [by rewrite bool_decide_eq_false_2|by rewrite length_fmap].
    + destruct ds as [|d' ds]; [done|]. cbn in Ed, Echr. injection Ed as Ed. rewrite Echr, Ed.
      unfold digit_char. rewrite (proj2 (Z.ltb_lt d 10)) by lia. change (ch "0") with 48. lia.
Qed.

Lemma numeral_not_space v rest : 0 <= v ->
  exists c, head (numeral 10 (ch "a") v ++ rest) = Some c /\ isspace c = false /\ 48 <= c <= 57.
Proof.
  intros Hv. destruct (numeral_digits 10 (ch "a") v) as (ds & -> & Hds & _ & Hne); [done|done|].
  destruct ds as [|d ds]; [done|]. apply Forall_cons in Hds as [Hd _]. cbn.
  exists (48 + d). unfold digit_char. rewrite (proj2 (Z.ltb_lt d 10)) by lia. split; [done|].
  split; [|lia]. unfold isspace. rewrite (proj2 (Z.eqb_neq _ _)), (proj2 (Z.leb_gt _ 13)) by lia.
  by rewrite andb_false_r.
Qed.

(** [scanULong] in base 0 reads a number in base 10. *)
Lemma scanULong_ok fuel sp v i rest st :
  input_at i (sp ++ numeral 10 (ch "a") v ++ rest) st -> Forall (fun c => isspace c = true) sp ->
  ends_number rest -> 0 <= v < 2 ^ 32 ->
  (length sp + length (numeral 10 (ch "a") v) < fuel)%nat ->
  exists i', Input_scanULong fuel 0 i = Ret (Val v, i') /\ input_at i' rest (at_end rest st).
Proof.
  intros Hi Hsp He Hv Hf. unfold Input_scanULong.
  destruct (numeral_not_space v rest) as (c & Ec & Hc & _); [lia|].
  destruct (skip_ok fuel sp i (numeral 10 (ch "a") v ++ rest) st) as (i1 & E1 & H1);
    [done|done|by rewrite Ec|lia|].
  rewrite (io_bind_Val _ _ _ _ _ E1).
  destruct (scan_base_ok v _ _ _ _ H1 He) as (base & one & ds & c2 & i2 & E2 & H2 & Hb & Hds & Ev & Eone & Hl);
    [lia|].
  rewrite (io_bind_Val _ _ _ _ _ E2).
  destruct (scan_digits_ok 32 base ds Hb ltac:(lia) Hds fuel i2 c2 one 0 rest st) as (c3 & i3 & E3 & H3);
    [done|done|done|unfold horner_value in Ev; rewrite Ev; lia|lia|].
  rewrite (io_bind_Val _ _ _ _ _ E3). destruct (unget_ok _ _ _ _ H3) as (i4 & E4 & H4).
  rewrite (io_bind_Val _ _ _ _ _ E4), Eone. exists i4. unfold horner_value in Ev. by rewrite Ev.
Qed.

(** [scanLong] in base 0 reads what [print] writes. *)
Lemma scanLong_ok fuel sp v i rest st :
  input_at i (sp ++ int_text v ++ rest) st -> Forall (fun c => isspace c = true) sp ->
  ends_number rest -> - 2 ^ 31 < v < 2 ^ 31 ->
  (length sp + length (int_text v) < fuel)%nat ->
  exists i', Input_scanLong fuel 0 i = Ret (Val v, i') /\ input_at i' rest (at_end rest st).
Proof.
  intros Hi Hsp He Hv Hf. unfold Input_scanLong, scan_signed, int_text in *.
  destruct (Z.ltb_spec v 0) as [Hneg|Hpos]; cbn [app length] in *.
  - destruct (skip_ok fuel sp i (ch "-" :: numeral 10 (ch "a") (- v) ++ rest) st) as (i1 & E1 & H1);
      [done|done|done|lia|].
    rewrite (io_bind_Val _ _ _ _ _ E1). cbn [head default option_map] in *. cbn in H1 |- *.
    destruct H1 as (_ & _ & _ & H1). cbn [tail at_end] in H1.
    destruct (scanULong_ok fuel [] (- v) i1 rest st) as (i2 & E2 & H2); [done|done|done|lia|cbn; lia|].
    change (code "-" =? code "-") with true. cbn [negb andb]. cbv iota.
    rewrite (io_bind_Val _ _ i1 tt i1) by done. rewrite (io_bind_Val _ _ _ _ _ E2).
    rewrite (proj2 (Z.leb_gt _ _)) by lia. exists i2. by rewrite Z.opp_involutive.
  - destruct (numeral_not_space v rest) as (c & Ec & Hc & Hcr); [lia|].
    destruct (skip_ok fuel sp i (numeral 10 (ch "a") v ++ rest) st) as (i1 & E1 & H1);
      [done|done|by rewrite Ec|lia|].
    rewrite (io_bind_Val _ _ _ _ _ E1), Ec in *. cbn [default option_map] in *. cbn in H1 |- *.
    change (ch "-") with 45. change (ch "+") with 43.
    rewrite !(proj2 (Z.eqb_neq c _)), (proj2 (Z.ltb_ge c 0)) by lia. cbn [negb andb].
    destruct (back_ok _ _ _ _ H1) as (i2 & E2 & H2); [by intros E; rewrite E in Ec|].
    rewrite (io_bind_Val _ _ _ _ _ E2).
    destruct (scanULong_ok fuel [] v i2 rest st) as (i3 & E3 & H3); [done|done|done|lia|cbn; lia|].
    rewrite (io_bind_Val _ _ _ _ _ E3), (proj2 (Z.leb_gt _ _)) by lia. by exists i3.
Qed.

(** *** Any text can be scanned: the fuel is enough and nothing is thrown. *)

Lemma split_while (p : Z -> bool) l : p IN_ENDED = false ->
  exists sp r, l = sp ++ r /\ Forall (fun c => p c = true) sp /\ p (default IN_ENDED (head r)) = false.
Proof.
  intros Hp. induction l as [|c l (sp & r & -> & Hs & Hr)]; [exists [], []; by split_and!|].
  destruct (p c) eqn:E; [exists (c :: sp), r|exists [], (c :: sp ++ r)]; by split_and!; [|constructor|].
Qed.

Lemma skip_runs fuel i l st : input_at i l st -> (length l < fuel)%nat ->
  exists c i' l', Input_skip fuel i = Ret (Val c, i') /\ input_cur i' c l' st /\ (length l' <= length l)%nat.
Proof.
  intros Hi Hf. destruct (split_while isspace l) as (sp & r & -> & Hs & Hr); [done|].
  rewrite length_app in Hf. destruct (skip_ok fuel sp i r st Hi Hs Hr) as (i' & E & H'); [lia|].
  eexists _, i', r. split; [done|]. split; [done|]. rewrite length_app. lia.
Qed.

Lemma cur_not_ended i chr l st : input_cur i chr l st -> chr <> IN_ENDED -> l <> [].
Proof. intros (_ & _ & -> & _) Hn ->. done. Qed.

Lemma scan_base_runs i chr l st : input_cur i chr l st ->
  exists b one c i' l', scan_base 0 chr i = Ret (Val (b, one, c), i') /\ input_cur i' c l' st /\
    2 <= b <= 36 /\ (length l' <= length l)%nat.
Proof.
  intros Hc. unfold scan_base. rewrite Z.eqb_refl.
  destruct (Z.eqb_spec chr (ch "0")) as [->|_]; [|exists 10, false, chr, i, l; split_and!; done || lia].
  destruct (cur_get _ _ _ _ Hc) as (c1 & i1 & E1 & H1); [by eapply cur_not_ended|].
  rewrite (io_bind_Val _ _ _ _ _ E1). assert (length (tail l) <= length l)%nat by (destruct l; cbn; lia).
  assert (forall b : Z, c1 <> IN_ENDED -> 2 <= b <= 36 -> exists b' one c i' l',
    (chr ← Input_get; mret (b, false, chr)) i1 = Ret (Val (b', one, c), i') /\ input_cur i' c l' st /\
    2 <= b' <= 36 /\ (length l' <= length l)%nat) as Hg.
  { intros b Hb Hb'. destruct (cur_get _ _ _ _ H1) as (c2 & i2 & E2 & Hc2); [by eapply cur_not_ended|].
    exists b, false, c2, i2, (tail (tail l)). rewrite (io_bind_Val _ _ _ _ _ E2).
    assert (length (tail (tail l)) <= length (tail l))%nat by (destruct (tail l); cbn; lia).
    split_and!; [done|done|lia..]. }
  destruct ((c1 =? ch "x") || (c1 =? ch "X")) eqn:Ex.
  { apply Hg; [by intros ->|lia]. }
  destruct ((c1 =? ch "b") || (c1 =? ch "B")) eqn:Eb.
  { apply Hg; [by intros ->|lia]. }
  exists 8, true, c1, i1, (tail l). split_and!; done || lia.
Qed.

Lemma scan_digits_runs w base : 2 <= base <= 36 -> forall l fuel i chr one val st,
  input_cur i chr l st -> (length l < fuel)%nat ->
  exists r i', io_iter fuel (scan_digits w base) (one, val, chr) i = Ret (Val r, i') /\
    match r with Some (_, _, c) => exists l', input_cur i' c l' st | None => True end.
Proof.
  intros Hb. induction l as [|c l IH]; intros fuel i chr one val st Hc Hf; (destruct fuel as [|fuel]; [lia|]);
    cbn [io_iter].
  - pose proof Hc as (_ & _ & -> & _). exists (Some (one, val, IN_ENDED)), i. split; [|by exists []].
    rewrite (io_bind_Val _ _ i (inr (Some (one, val, IN_ENDED))) i); [done|]. unfold scan_digits.
    by rewrite (ends_number_base [] base).
  - destruct (Z.leb_spec 0 (test_base chr base)) as [Hd|Hd].
    2:{ exists (Some (one, val, chr)), i. split; [|by exists (c :: l)].
        rewrite (io_bind_Val _ _ i (inr (Some (one, val, chr))) i); [done|]. unfold scan_digits.
        by rewrite (proj2 (Z.leb_gt _ _)). }
    destruct (cur_get _ _ _ _ Hc) as (c1 & i1 & E1 & H1); [done|].
    set (v := wrap w (val * base + test_base chr base)). destruct (Z.ltb_spec v (u32 val)) as [Ho|Ho].
    + eexists None, _. split; [|done].
      rewrite (io_bind_Val _ _ i (inr None) (mkIn (i_strm i) (i_buf i) (Z.lor (i_state i) FAILED))); [done|].
      unfold scan_digits. rewrite (proj2 (Z.leb_le _ _)) by done. fold v. by rewrite (proj2 (Z.ltb_lt _ _)).
    + destruct (IH fuel i1 c1 true v st H1) as (r & i2 & E2 & H2); [cbn in Hf; lia|]. exists r, i2.
      split; [|done]. rewrite (io_bind_Val _ _ i (inl (true, v, c1)) i1); [done|]. unfold scan_digits.
      rewrite (proj2 (Z.leb_le _ _)) by done. fold v. rewrite (proj2 (Z.ltb_ge _ _)) by done.
      by rewrite (io_bind_Val _ _ _ _ _ E1).
Qed.

Lemma scanULong_runs fuel i l st : input_at i l st -> (length l < fuel)%nat ->
  exists v i', Input_scanULong fuel 0 i = Ret (Val v, i').
Proof.
  intros Hi Hf. unfold Input_scanULong.
  destruct (skip_runs fuel i l st Hi Hf) as (c & i1 & l1 & E1 & H1 & L1). rewrite (io_bind_Val _ _ _ _ _ E1).
  destruct (scan_base_runs _ _ _ _ H1) as (b & one & c2 & i2 & l2 & E2 & H2 & Hb & L2).
  rewrite (io_bind_Val _ _ _ _ _ E2).
  destruct (scan_digits_runs 32 b Hb l2 fuel i2 c2 one 0 st H2) as (r & i3 & E3 & H3); [lia|].
  rewrite (io_bind_Val _ _ _ _ _ E3). destruct r as [[[one' v] c3]|]; [|by exists 0, i3].
  destruct H3 as (l3 & H3). destruct (unget_ok _ _ _ _ H3) as (i4 & E4 & _).
  rewrite (io_bind_Val _ _ _ _ _ E4). destruct one'; by eexists _, _.
Qed.

Lemma scanLong_runs fuel i l st : input_at i l st -> (length l < fuel)%nat ->
  exists v i', Input_scanLong fuel 0 i = Ret (Val v, i').
Proof.
  intros Hi Hf. unfold Input_scanLong, scan_signed.
  destruct (skip_runs fuel i l st Hi Hf) as (c & i1 & l1 & E1 & H1 & L1). rewrite (io_bind_Val _ _ _ _ _ E1).
  assert (forall i2 l2 st2 (k : Z -> IO (Input S) Z), input_at i2 l2 st2 -> (length l2 <= length l1)%nat ->
    (forall v i3, exists x i', k v i3 = Ret (Val x, i')) ->
    exists x i', (v ← Input_scanULong fuel 0; k v) i2 = Ret (Val x, i')) as Hscan.
  { intros i2 l2 st2 k H2 L2 Hk. destruct (scanULong_runs fuel i2 l2 st2 H2) as (v & i3 & E3); [lia|].
    rewrite (io_bind_Val _ _ _ _ _ E3). apply Hk. }
  assert (forall v i3, exists x i', (if 2 ^ (32 - 1) <=? v then set_flag FAILED ;; mret 0
    else mret (if c =? ch "-" then - v else v)) i3 = Ret (Val x, i')) as Hk.
  { intros v i3. destruct (_ <=? v); by eexists _, _. }
  destruct (negb (c =? ch "-") && negb (c =? ch "+")); cbn [andb].
  - destruct l1 as [|x l1]; [destruct H1 as (_ & _ & -> & _); by eexists _, _|].
    destruct (back_ok _ _ _ _ H1) as (i2 & E2 & H2); [done|]. destruct (c <? 0); [by eexists _, _|].
    rewrite (io_bind_Val _ _ _ _ _ E2). by eapply Hscan.
  - pose proof H1 as (_ & _ & _ & H2). erewrite io_bind_Val by reflexivity.
    eapply Hscan; [exact H2|destruct l1; cbn; lia|done].
Qed.

(** *** Lines *)

Lemma scanLine_loop_ok l : forall fuel i chr acc rest st, input_cur i chr (l ++ 10 :: rest) st -> 10 ∉ l -> (length l < fuel)%nat ->
  exists i', io_iter fuel scanLine_step (acc, chr) i = Ret (Val (acc ++ l ++ [10], 10), i') /\ input_at i' rest st.
Proof.
  induction l as [|c l IH]; intros fuel i chr acc rest st Hc Hl Hf; (destruct fuel as [|fuel]; [lia|]).
  - pose proof Hc as (_ & _ & -> & Hi). exists i. split; [|done]. by apply io_iter_inr.
  - pose proof Hc as (_ & Hb & -> & _). apply Forall_cons in Hb as [[Hc0 _] _]. apply not_elem_of_cons in Hl as [Hn Hl].
    destruct (cur_get _ _ _ _ Hc) as (c1 & i1 & E1 & H1); [done|]. cbn [tail app] in H1.
    destruct (IH fuel i1 c1 (acc ++ [c]) rest st H1 Hl) as (i2 & E2 & H2); [cbn in Hf; lia|]. exists i2. split; [|done].
    rewrite <- app_assoc in E2. erewrite io_iter_inl; [exact E2|]. cbn [scanLine_step app head default option_map].
    cbn. rewrite (proj2 (Z.leb_le 0 c)), (proj2 (Z.eqb_neq c 10)) by (done || congruence). by rewrite (io_bind_Val _ _ _ _ _ E1).
Qed.
Lemma scanLine_ok fuel i l rest st : input_at i (l ++ 10 :: rest) st -> 10 ∉ l -> (length l < fuel)%nat ->
  exists i', Input_scanLine fuel i = Ret (Val (l ++ [10]), i') /\ input_at i' rest st.
Proof.
  intros Hi Hl Hf. destruct (get_ok _ _ _ Hi) as (c & i1 & E1 & H1).
  destruct (scanLine_loop_ok l fuel i1 c [] rest st H1 Hl Hf) as (i2 & E2 & H2). exists i2. split; [|done].
  unfold Input_scanLine. rewrite (io_bind_Val _ _ _ _ _ E1), (io_bind_Val _ _ _ _ _ E2). done.
Qed.
(** At the end of the stream the line is empty. *)
Lemma scanLine_end fuel i st : input_at i [] st -> (0 < fuel)%nat ->
  exists i', Input_scanLine fuel i = Ret (Val [], i') /\ input_at i' [] (Z.lor st ENDED).
Proof.
  intros Hi Hf. destruct (get_ok _ _ _ Hi) as (c & i1 & E1 & H1). destruct fuel as [|fuel]; [lia|].
  exists i1. pose proof H1 as (_ & _ & -> & H2). split; [|done].
  unfold Input_scanLine. rewrite (io_bind_Val _ _ _ _ _ E1). erewrite io_bind_Val by (apply io_iter_inr; done). done.
Qed.
End InputProofs.

(** An input just set on a text has this text to read. *)
Lemma input_at_text t st : Forall (inw 8) t -> input_at bis_pending (mkIn (BlockInStream_make t) (-1) st) t st.
Proof.
  intros Ht. split; [done|]. split; [done|]. exists t. split; [|left; split; [cbn; lia|done]].
  split; [cbn; lia|]. split; [done|cbn; lia].
Qed.

(** [C20] Round trip of integers: what [Output::print] writes for any 32-bit
    integer but the least one, [Input::scanLong] reads back, after any blanks and
    before anything that is not a letter nor a digit, without a failure, leaving
    what follows to read; through any streams that do not fail. *)
Theorem print_scan_int32 {So Si} (sent : So -> list Z -> Prop) (pending : Si -> list Z -> Prop)
    `{ReliableOut So sent} `{ReliableByte Si pending} v (o : Output So) l :
  printed sent o l -> - 2 ^ 31 < v < 2 ^ 31 ->
  exists o' w, Output_print_int32 v o = Ret (Val tt, o') /\ printed sent o' (l ++ w) /\
    forall fuel (i : Input Si) sp rest st,
      input_at pending i (sp ++ w ++ rest) st -> Forall (fun c => isspace c = true) sp ->
      ends_number rest -> (length sp + length w < fuel)%nat ->
      exists i', Input_scanLong fuel 0 i = Ret (Val v, i') /\ input_at pending i' rest (at_end rest st).
Proof.
  intros Ho Hv. destruct (prints_int32 sent v Hv o l Ho) as ([] & o' & E & Ho').
  exists o', (int_text v). split; [done|]. split; [done|].
  intros fuel i sp rest st Hi Hsp He Hf. by apply (scanLong_ok pending fuel sp).
Qed.

Lemma print_scan_int32_witness : exists d o' w i', BlockOutStream_make 8 8 = Ret d /\
  Output_print_int32 (-2048) (Output_make d) = Ret (Val tt, o') /\
  BlockOutStream_toString (o_strm o') = Ret w /\
  Input_scanLong 20 0 (Input_make (BlockInStream_make (text "  " ++ w ++ text ","))) = Ret (Val (-2048), i') /\
  input_at bis_pending i' (text ",") 0.
Proof.
  destruct (BlockOutStream_make_ok 8 8) as (d & Ed & Hd); [done|done|].
  destruct (print_scan_int32 bos_sent bis_pending (-2048) (Output_make d) [] Hd) as (o' & w & E & Ho & Hs);
    [done|].
  pose proof (BlockOutStream_toString_ok _ _ Ho) as Et. cbn [app] in Et.
  assert (w = text "-2048") as ->.
  { vm_compute in Ed. injection Ed as <-. vm_compute in E. injection E as <-.
    vm_compute in Et. injection Et as <-. reflexivity. }
  destruct (Hs 20%nat (Input_make (BlockInStream_make (text "  " ++ text "-2048" ++ text ",")))
    (text "  ") (text ",") 0) as (i' & Ei & Hi').
  - split; [by repeat constructor|]. split; [done|]. eexists. split; [by split|by left].
  - by repeat constructor.
  - done.
  - vm_compute. lia.
  - exists d, o', (text "-2048"), i'. by split_and!.
Defined.

(** The overflow test of [scanULong] misses some overflows. *)
Example scanULong_overflow_missed :
  (fst <$> Input_scanULong 20 0 (Input_make (BlockInStream_make (text "8589934590 "))))
  = Ret (Val 4294967294).
Proof. vm_compute. reflexivity. Qed.

(** The least integer is printed by its formatted version only, and is not read back. *)
Example INT_MIN_not_scanned :
  (m ← Input_scanLong 20 0 (Input_make (BlockInStream_make (text "-2147483648 "))); Ret (m.1, i_state m.2))
  = Ret (Val 0, FAILED).
Proof. vm_compute. reflexivity. Qed.

(** [swallow] of a character that is not there pushes back the expected one. *)
Example swallow_loses_character :
  (m ← Input_swallow (ch "a") (Input_make (BlockInStream_make (text "bc"))); Ret (i_buf m.2)) = Ret (ch "a").
Proof. vm_compute. reflexivity. Qed.

(** A bad boolean sets all the flags, [ENDED] included. *)
Example scanBool_sets_all_flags :
  (m ← Input_scanBool (Input_make (BlockInStream_make (text "no"))); Ret (Input_flag ENDED m.2)) = Ret true.
Proof. vm_compute. reflexivity. Qed.
