(* ===== verification/Version.v ===== *)
(** * Versions ([util/Version.h], [util_Version.cpp])

    A version is three unsigned numbers, of 8, 8 and 16 bits; it is printed and
    read as [major.minor.release]. *)

From stdpp Require Import list.
From S2P Require Import Prelude Compare TextOps Streams Output Input.
#[local] Open Scope Z_scope.

(* src/include/elm/util/Version.h:66-68 Version *)
Record Version := mkVersion { v_major : Z; v_minor : Z; v_release : Z }.

(* src/include/elm/util/Version.h:74-79 Version::Version *)
Definition Version_make (major minor release : Z) : outcome Version :=
  assertP (0 <=? major) ;; assertP (0 <=? minor) ;; assertP (0 <=? release) ;;
  Ret (mkVersion (u8 major) (u8 minor) (u16 release)).
(* src/src/util_Version.cpp:172-172 Version::ZERO *)
Definition Version_ZERO : Version := mkVersion 0 0 0.

(* src/include/elm/util/Version.h:85-87 Version::nextRelease *)
Definition Version_nextRelease (v : Version) : outcome Version :=
  Version_make (v_major v) (v_minor v) (v_release v + 1).
(* src/include/elm/util/Version.h:89-91 Version::nextMinor *)
Definition Version_nextMinor (v : Version) : outcome Version := Version_make (v_major v) (v_minor v + 1) 0.
(* src/include/elm/util/Version.h:93-95 Version::nextMajor *)
Definition Version_nextMajor (v : Version) : outcome Version := Version_make (v_major v + 1) 0 0.

(* src/include/elm/util/Version.h:109-111 Version::accepts *)
Definition Version_accepts (self version : Version) : bool :=
  negb (v_major self =? v_major version) || (v_minor self <=? v_minor version).
(* src/include/elm/util/Version.h:113-118 Version::compare *)
Definition Version_compare (self version : Version) : Z :=
  let res := v_major self - v_major version in
  if negb (res =? 0) then v_minor self - v_minor version else res.
(* src/include/elm/util/Version.h:120-122 Version::operator bool *)
Definition Version_bool (v : Version) : bool :=
  negb (v_major v =? 0) || negb (v_minor v =? 0) || negb (v_release v =? 0).
(* src/include/elm/util/Version.h:131-133 Version::operator== *)
Definition Version_eq (self version : Version) : bool := Version_compare self version =? 0.
(* src/include/elm/util/Version.h:135-137 Version::operator!= *)
Definition Version_ne (self version : Version) : bool := negb (Version_compare self version =? 0).
(* src/include/elm/util/Version.h:139-141 Version::operator> *)
Definition Version_gt (self version : Version) : bool := 0 <? Version_compare self version.
(* src/include/elm/util/Version.h:143-145 Version::operator>= *)
Definition Version_ge (self version : Version) : bool := 0 <=? Version_compare self version.
(* src/include/elm/util/Version.h:147-149 Version::operator< *)
Definition Version_lt (self version : Version) : bool := Version_compare self version <? 0.
(* src/include/elm/util/Version.h:151-153 Version::operator<= *)
Definition Version_le (self version : Version) : bool := Version_compare self version <=? 0.

(** ** Texts *)

(** [in.setStream(stream); in >> n;] where [stream] is on the text [val] and [n] is
    an unsigned number of [w] bits. *)
Definition scan_field (w : Z) (val : str) : IO (Input BlockInStream) Z :=
  Input_setStream (BlockInStream_make val) ;;
  x ← Input_scanULong (2 + length val) 0; mret (wrap w x).

(** The text before the first point and the text after it. *)
(* src/src/util_Version.cpp:125-129 Version::operator= *)
Definition cut_field (all : str) : outcome (option (str * str)) :=
  pos ← index_of (ch ".") all 0;
  if pos <? 0 then Ret None else
  val ← substring all 0 pos; all ← substring_from all (pos + 1); Ret (Some (val, all)).

(** The assignments done in the [try] block. *)
(* src/src/util_Version.cpp:122-153 Version::operator= *)
Definition Version_scan (self : Version) (all : str) : IO (Input BlockInStream) Version :=
  c ← lift (cut_field all);
  match c with
  | None => mret self
  | Some (val, all) =>
      major ← scan_field 8 val;
      c ← lift (cut_field all);
      match c with
      | None => mret (mkVersion major (v_minor self) (v_release self))
      | Some (val, all) =>
          minor ← scan_field 8 val;
          release ← scan_field 16 all;
          mret (mkVersion major minor release)
      end
  end.
(* src/src/util_Version.cpp:118-158 Version::operator= *)
Definition Version_assign_text (self : Version) (t : str) : outcome Version :=
  r ← Version_scan self t (Input_make (BlockInStream_make []));
  match r.1 with Val v => Ret v | Throw => Ret Version_ZERO end.

(* src/src/util_Version.cpp:177-182 operator<< *)
Definition Version_print {S} `{OutStream S} (v : Version) : IO (Output S) unit :=
  Output_print_int32 (v_major v) ;; Output_print_char (ch ".") ;;
  Output_print_int32 (v_minor v) ;; Output_print_char (ch ".") ;;
  Output_print_int32 (v_release v).

(** ** Reading back *)

Record version_ok (v : Version) : Prop := {
  vk_major : inw 8 (v_major v); vk_minor : inw 8 (v_minor v); vk_release : inw 16 (v_release v) }.

Definition version_text (v : Version) : str :=
  int_text (v_major v) ++ [ch "."] ++ int_text (v_minor v) ++ [ch "."] ++ int_text (v_release v).

Lemma nat_text_chars v : 0 <= v -> Forall (fun c => 48 <= c <= 57) (int_text v).
Proof. intros Hv. unfold int_text. rewrite (proj2 (Z.ltb_ge v 0)) by lia. by apply numeral_chars. Qed.
Lemma nat_text_no_dot v : 0 <= v -> ch "." ∉ int_text v.
Proof.
  intros Hv Hc. pose proof (proj1 (list.Forall_forall _ _) (nat_text_chars v Hv) _ Hc) as H; cbv beta in H.
  change (ch ".") with 46 in H. lia.
Qed.

Lemma scan_field_ok w v i : 0 < w <= 16 -> inw w v ->
  exists i', scan_field w (int_text v) i = Ret (Val v, i').
Proof.
  intros Hw [Hv0 Hv]. assert (2 ^ w <= 2 ^ 16) by (apply Z.pow_le_mono_r; lia).
  unfold scan_field. erewrite io_bind_Val by reflexivity.
  destruct (scanULong_ok bis_pending (2 + length (int_text v)) [] v
    (mkIn (BlockInStream_make (int_text v)) (-1) (i_state i)) [] (i_state i)) as (i' & E & _).
  - cbn [app]. rewrite app_nil_r. assert (numeral 10 (ch "a") v = int_text v) as ->.
    { unfold int_text. by rewrite (proj2 (Z.ltb_ge v 0)) by lia. }
    apply input_at_text. eapply Forall_impl; [by apply nat_text_chars|]. intros c Hc. split; cbn in *; lia.
  - constructor.
  - done.
  - lia.
  - unfold int_text. rewrite (proj2 (Z.ltb_ge v 0)) by lia. cbn [length]. lia.
  - rewrite (io_bind_Val _ _ _ _ _ E). exists i'. unfold wrap. by rewrite Z.mod_small.
Qed.

Lemma cut_field_ok v rest : 0 <= v ->
  cut_field (int_text v ++ [ch "."] ++ rest) = Ret (Some (int_text v, rest)).
Proof.
  intros Hv. unfold cut_field. cbn [app]. rewrite index_of_first by by apply nat_text_no_dot. mred.
  rewrite (proj2 (Z.ltb_ge _ 0)), substring_start by lia. mred. by rewrite substring_after.
Qed.

Lemma Version_scan_ok self v i : version_ok v ->
  exists i', Version_scan self (version_text v) i = Ret (Val v, i').
Proof.
  intros [Hma Hmi Hre]. unfold Version_scan, version_text.
  rewrite cut_field_ok, io_lift_Ret by apply Hma.
  destruct (scan_field_ok 8 (v_major v) i) as (i1 & E1); [done|done|]. rewrite (io_bind_Val _ _ _ _ _ E1).
  rewrite cut_field_ok, io_lift_Ret by apply Hmi.
  destruct (scan_field_ok 8 (v_minor v) i1) as (i2 & E2); [done|done|]. rewrite (io_bind_Val _ _ _ _ _ E2).
  destruct (scan_field_ok 16 (v_release v) i2) as (i3 & E3); [done|done|]. rewrite (io_bind_Val _ _ _ _ _ E3).
  exists i3. by destruct v.
Qed.

Lemma prints_Version {S} (sent : S -> list Z -> Prop) `{ReliableOut S sent} v : version_ok v ->
  prints sent (Version_print v) (version_text v).
Proof.
  intros [[] [] []]. unfold Version_print, version_text.
  apply (prints_bind sent); [apply (prints_int32 sent); lia|intros _].
  apply (prints_bind sent); [apply (prints_char sent)|intros _].
  apply (prints_bind sent); [apply (prints_int32 sent); lia|intros _].
  apply (prints_bind sent); [apply (prints_char sent)|intros _]. apply (prints_int32 sent); lia.
Qed.

(** [C38] Round trip of versions: a version is printed as the decimal numerals of its
    three numbers separated by points and nothing else, on any stream that does not
    fail, and assigning this text to any version gives the printed version back,
    whatever was in it before. *)
Theorem Version_roundtrip {S} (sent : S -> list Z -> Prop) `{ReliableOut S sent} v (o : Output S) l :
  version_ok v -> printed sent o l ->
  let w := int_text (v_major v) ++ text "." ++ int_text (v_minor v) ++ text "." ++ int_text (v_release v) in
  (exists o', Version_print v o = Ret (Val tt, o') /\ printed sent o' (l ++ w)) /\
  forall self, Version_assign_text self w = Ret v.
Proof.
  intros Hv Ho w. destruct (prints_Version sent v Hv o l Ho) as ([] & o' & E & Ho').
  split; [by exists o'|]. intros self. unfold Version_assign_text. change w with (version_text v).
  by destruct (Version_scan_ok self v (Input_make (BlockInStream_make [])) Hv) as (i' & ->).
Qed.

Lemma Version_roundtrip_witness : exists d o', BlockOutStream_make 8 8 = Ret d /\
  Version_print (mkVersion 2 14 300) (Output_make d) = Ret (Val tt, o') /\
  printed bos_sent o' (text "2.14.300") /\
  Version_assign_text Version_ZERO (text "2.14.300") = Ret (mkVersion 2 14 300).
Proof.
  destruct (BlockOutStream_make_ok 8 8) as (d & Ed & Hd); [done|done|].
  destruct (Version_roundtrip bos_sent (mkVersion 2 14 300) (Output_make d) [] ltac:(by split) Hd)
    as ((o' & E & Ho) & Hw).
  assert (int_text 2 ++ text "." ++ int_text 14 ++ text "." ++ int_text 300 = text "2.14.300") as Et
    by (vm_compute; reflexivity).
  cbn [v_major v_minor v_release] in Ho, Hw. rewrite Et in Ho, Hw. by exists d, o'.
Defined.

(** *** What goes wrong *)

(** Versions with the same major number are all equal, and with different major
    numbers are compared by the minor one. *)
Example compare_same_major : Version_eq (mkVersion 1 2 0) (mkVersion 1 9 0) = true.
Proof. reflexivity. Qed.
Example compare_minor_only : Version_eq (mkVersion 1 0 0) (mkVersion 3 0 0) = true /\
  Version_lt (mkVersion 3 0 0) (mkVersion 1 5 0) = true.
Proof. by split. Qed.
(** A version accepts any version of another major number, which are said not to be compatible. *)
Example accepts_other_major : Version_accepts (mkVersion 1 2 0) (mkVersion 2 0 0) = true.
Proof. reflexivity. Qed.
(** The forms without release number, or without minor number, lose their last number. *)
Example short_texts : Version_assign_text (mkVersion 7 7 7) (text "3.1") = Ret (mkVersion 3 7 7) /\
  Version_assign_text (mkVersion 7 7 7) (text "3") = Ret (mkVersion 7 7 7).
Proof. split; vm_compute; reflexivity. Qed.
(** A text that does not match is not always the version 0.0.0. *)
Example bad_text : Version_assign_text (mkVersion 7 7 7) (text "3.x.z") = Ret (mkVersion 3 0 0).
Proof. vm_compute. reflexivity. Qed.
(** After release 65535 comes release 0. *)
Example nextRelease_wraps : Version_nextRelease (mkVersion 1 0 65535) = Ret (mkVersion 1 0 0).
Proof. reflexivity. Qed.
