(* ===== verification/Checksum.v ===== *)
(** * Check sums ([src/checksum_MD5.cpp], [src/checksum_Fletcher.cpp])

    [MD5]: the digest of what is put, by blocks or from streams, against the function
    of RFC 1321 on the whole message. [Fletcher]: two sums of 16-bit words modulo
    65535, reduced from time to time so as not to overflow. *)

From stdpp Require Import list.
From S2P Require Import Prelude Streams Output.
#[local] Open Scope Z_scope.

(** ** MD5 *)

(* src/src/checksum_MD5.cpp:33-33 MD5_BUFFER *)
Definition MD5_BUFFER : Z := 1024.
(* src/src/checksum_MD5.cpp:36-36 F *)
Definition md5_F (x y z : Z) : Z := Z.lor (Z.land x y) (Z.land (u32 (Z.lnot x)) z).
(* src/src/checksum_MD5.cpp:37-37 G *)
Definition md5_G (x y z : Z) : Z := Z.lor (Z.land x z) (Z.land (u32 (Z.lnot z)) y).
(* src/src/checksum_MD5.cpp:38-38 H *)
Definition md5_H (x y z : Z) : Z := Z.lxor (Z.lxor x y) z.
(* src/src/checksum_MD5.cpp:39-39 I *)
Definition md5_I (x y z : Z) : Z := Z.lxor y (Z.lor x (u32 (Z.lnot z))).
(* src/src/checksum_MD5.cpp:42-42 ROTATE_LEFT *)
Definition ROTATE_LEFT (w s : Z) : Z := Z.lor (u32 (Z.shiftl w s)) (Z.shiftr (Z.land w 0xFFFFFFFF) (32 - s)).
(* src/src/checksum_MD5.cpp:65-71 GET_UINT32 *)
Definition GET_UINT32 (b : list Z) (i : Z) : outcome Z :=
  b0 ← rd b i; b1 ← rd b (i + 1); b2 ← rd b (i + 2); b3 ← rd b (i + 3);
  Ret (Z.lor (Z.lor (Z.lor b0 (u32 (Z.shiftl b1 8))) (u32 (Z.shiftl b2 16))) (u32 (Z.shiftl b3 24))).
(* src/src/checksum_MD5.cpp:73-78 MD5_PADDING *)
Definition MD5_PADDING : list Z := 0x80 :: replicate 63 0.

(* src/include/elm/checksum/MD5.h:68-70 MD5 *)
Record regs := mkRegs { r_A : Z; r_B : Z; r_C : Z; r_D : Z }.
(** The local variables [a], [b], [c], [d] of [encode]. *)
Inductive reg := RA | RB | RC | RD.
Definition reg_get (x : reg) (r : regs) : Z :=
  match x with RA => r_A r | RB => r_B r | RC => r_C r | RD => r_D r end.
Definition reg_set (x : reg) (v : Z) (r : regs) : regs :=
  match x with
  | RA => mkRegs v (r_B r) (r_C r) (r_D r)
  | RB => mkRegs (r_A r) v (r_C r) (r_D r)
  | RC => mkRegs (r_A r) (r_B r) v (r_D r)
  | RD => mkRegs (r_A r) (r_B r) (r_C r) v
  end.

(** A line of [encode]: the macro, the variables, the number of the word, the rotation
    and the constant. *)
Inductive md5_macro := FF | GG | HH | II.
Definition macro_fun (f : md5_macro) : Z -> Z -> Z -> Z :=
  match f with FF => md5_F | GG => md5_G | HH => md5_H | II => md5_I end.
Definition md5_line : Type := md5_macro * reg * reg * reg * reg * Z * Z * Z.
(* src/src/checksum_MD5.cpp:43-46 FF, GG, HH, II *)
Definition run_line (x : list Z) (r : regs) (l : md5_line) : outcome regs :=
  let '(f, a, b, c, d, k, s, t) := l in
  xk ← rd x k;
  Ret (reg_set a (u32 (reg_get b r +
    ROTATE_LEFT (u32 (reg_get a r + macro_fun f (reg_get b r) (reg_get c r) (reg_get d r) + xk + t)) s)) r).

(* src/src/checksum_MD5.cpp:181-251 MD5::encode *)
Definition MD5_lines : list md5_line :=
  let S11 := 7 in let S12 := 12 in let S13 := 17 in let S14 := 22 in
  let S21 := 5 in let S22 := 9 in let S23 := 14 in let S24 := 20 in
  let S31 := 4 in let S32 := 11 in let S33 := 16 in let S34 := 23 in
  let S41 := 6 in let S42 := 10 in let S43 := 15 in let S44 := 21 in
   [(FF, RA, RB, RC, RD, 0, S11, 0xd76aa478); (FF, RD, RA, RB, RC, 1, S12, 0xe8c7b756);
    (FF, RC, RD, RA, RB, 2, S13, 0x242070db); (FF, RB, RC, RD, RA, 3, S14, 0xc1bdceee);
    (FF, RA, RB, RC, RD, 4, S11, 0xf57c0faf); (FF, RD, RA, RB, RC, 5, S12, 0x4787c62a);
    (FF, RC, RD, RA, RB, 6, S13, 0xa8304613); (FF, RB, RC, RD, RA, 7, S14, 0xfd469501);
    (FF, RA, RB, RC, RD, 8, S11, 0x698098d8); (FF, RD, RA, RB, RC, 9, S12, 0x8b44f7af);
    (FF, RC, RD, RA, RB, 10, S13, 0xffff5bb1); (FF, RB, RC, RD, RA, 11, S14, 0x895cd7be);
    (FF, RA, RB, RC, RD, 12, S11, 0x6b901122); (FF, RD, RA, RB, RC, 13, S12, 0xfd987193);
    (FF, RC, RD, RA, RB, 14, S13, 0xa679438e); (FF, RB, RC, RD, RA, 15, S14, 0x49b40821);
    (GG, RA, RB, RC, RD, 1, S21, 0xf61e2562); (GG, RD, RA, RB, RC, 6, S22, 0xc040b340);
    (GG, RC, RD, RA, RB, 11, S23, 0x265e5a51); (GG, RB, RC, RD, RA, 0, S24, 0xe9b6c7aa);
    (GG, RA, RB, RC, RD, 5, S21, 0xd62f105d); (GG, RD, RA, RB, RC, 10, S22, 0x2441453);
    (GG, RC, RD, RA, RB, 15, S23, 0xd8a1e681); (GG, RB, RC, RD, RA, 4, S24, 0xe7d3fbc8);
    (GG, RA, RB, RC, RD, 9, S21, 0x21e1cde6); (GG, RD, RA, RB, RC, 14, S22, 0xc33707d6);
    (GG, RC, RD, RA, RB, 3, S23, 0xf4d50d87); (GG, RB, RC, RD, RA, 8, S24, 0x455a14ed);
    (GG, RA, RB, RC, RD, 13, S21, 0xa9e3e905); (GG, RD, RA, RB, RC, 2, S22, 0xfcefa3f8);
    (GG, RC, RD, RA, RB, 7, S23, 0x676f02d9); (GG, RB, RC, RD, RA, 12, S24, 0x8d2a4c8a);
    (HH, RA, RB, RC, RD, 5, S31, 0xfffa3942); (HH, RD, RA, RB, RC, 8, S32, 0x8771f681);
    (HH, RC, RD, RA, RB, 11, S33, 0x6d9d6122); (HH, RB, RC, RD, RA, 14, S34, 0xfde5380c);
    (HH, RA, RB, RC, RD, 1, S31, 0xa4beea44); (HH, RD, RA, RB, RC, 4, S32, 0x4bdecfa9);
    (HH, RC, RD, RA, RB, 7, S33, 0xf6bb4b60); (HH, RB, RC, RD, RA, 10, S34, 0xbebfbc70);
    (HH, RA, RB, RC, RD, 13, S31, 0x289b7ec6); (HH, RD, RA, RB, RC, 0, S32, 0xeaa127fa);
    (HH, RC, RD, RA, RB, 3, S33, 0xd4ef3085); (HH, RB, RC, RD, RA, 6, S34, 0x4881d05);
    (HH, RA, RB, RC, RD, 9, S31, 0xd9d4d039); (HH, RD, RA, RB, RC, 12, S32, 0xe6db99e5);
    (HH, RC, RD, RA, RB, 15, S33, 0x1fa27cf8); (HH, RB, RC, RD, RA, 2, S34, 0xc4ac5665);
    (II, RA, RB, RC, RD, 0, S41, 0xf4292244); (II, RD, RA, RB, RC, 7, S42, 0x432aff97);
    (II, RC, RD, RA, RB, 14, S43, 0xab9423a7); (II, RB, RC, RD, RA, 5, S44, 0xfc93a039);
    (II, RA, RB, RC, RD, 12, S41, 0x655b59c3); (II, RD, RA, RB, RC, 3, S42, 0x8f0ccc92);
    (II, RC, RD, RA, RB, 10, S43, 0xffeff47d); (II, RB, RC, RD, RA, 1, S44, 0x85845dd1);
    (II, RA, RB, RC, RD, 8, S41, 0x6fa87e4f); (II, RD, RA, RB, RC, 15, S42, 0xfe2ce6e0);
    (II, RC, RD, RA, RB, 6, S43, 0xa3014314); (II, RB, RC, RD, RA, 13, S44, 0x4e0811a1);
    (II, RA, RB, RC, RD, 4, S41, 0xf7537e82); (II, RD, RA, RB, RC, 11, S42, 0xbd3af235);
    (II, RC, RD, RA, RB, 2, S43, 0x2ad7d2bb); (II, RB, RC, RD, RA, 9, S44, 0xeb86d391)].

(* src/src/checksum_MD5.cpp:163-178 MD5::encode *)
Definition MD5_words (buffer : list Z) : outcome (list Z) :=
  mapM (fun i => GET_UINT32 buffer (4 * i)) (seqZ 0 16).
(* src/src/checksum_MD5.cpp:156-257 MD5::encode *)
Definition MD5_encode (r : regs) (buffer : list Z) : outcome regs :=
  x ← MD5_words buffer;
  m ← foldl (fun m l => r ← m; run_line x r l) (Ret r) MD5_lines;
  Ret (mkRegs (u32 (r_A r + r_A m)) (u32 (r_B r + r_B m)) (u32 (r_C r + r_C m)) (u32 (r_D r + r_D m))).

(* src/include/elm/checksum/MD5.h:67-74 MD5 *)
Record MD5 := mkMD5 {
  md_finalized : bool; md_regs : regs; md_buf : list Z; md_size : Z; md_bits : Z; md_digest : list Z }.
(** The registers at the beginning. *)
(* src/src/checksum_MD5.cpp:105-108 MD5::MD5 *)
Definition MD5_init : regs := mkRegs 0x67452301 0xefcdab89 0x98badcfe 0x10325476.
(* src/src/checksum_MD5.cpp:99-109 MD5::MD5 *)
Definition MD5_make : MD5 :=
  mkMD5 false MD5_init (replicate (Z.to_nat MD5_BUFFER) 0) 0 0 (replicate 16 0).

(** The loop on the complete blocks: [i], the registers and [bits]. *)
(* src/src/checksum_MD5.cpp:143-147 MD5::update *)
Definition update_step (buf : list Z) (size : Z) (st : Z * regs * Z) : outcome ((Z * regs * Z) + (Z * regs * Z)) :=
  let '(i, r, bits) := st in
  if 63 <? u32 (size - i) then
    buffer ← memcpy (replicate 64 0) 0 (drop (Z.to_nat i) buf) 64;
    r ← MD5_encode r buffer;
    Ret (inl (i + 64, r, u32 (bits + 64)))
  else Ret (inr st).
(* src/src/checksum_MD5.cpp:137-151 MD5::update *)
Definition MD5_update (m : MD5) : outcome MD5 :=
  assertP (negb (md_finalized m)) ;;
  '(i, r, bits) ← iter (S (Z.to_nat (md_size m))) (update_step (md_buf m) (md_size m)) (0, md_regs m, md_bits m);
  buffer ← memcpy (replicate 64 0) 0 (drop (Z.to_nat i) (md_buf m)) (u32 (md_size m - i));
  buf ← memcpy (md_buf m) 0 buffer (u32 (md_size m - i));
  Ret (mkMD5 false r buf (u32 (md_size m - i)) bits (md_digest m)).

(** [block] has [length] bytes; [fuel] bounds the turns of the loop, which may not end. *)
(* src/src/checksum_MD5.cpp:125-132 MD5::put *)
Fixpoint MD5_put (fuel : nat) (m : MD5) (block : list Z) : outcome MD5 :=
  let length := zlen block in
  if MD5_BUFFER <? u32 (length + md_size m) then
    match fuel with
    | O => Crash OutOfFuel
    | S fuel =>
        buf ← memcpy (md_buf m) (md_size m) block (Z.min length (u32 (MD5_BUFFER - md_size m)));
        m ← MD5_update (mkMD5 (md_finalized m) (md_regs m) buf (md_size m) (md_bits m) (md_digest m));
        MD5_put fuel m block
    end
  else
    buf ← memcpy (md_buf m) (md_size m) block length;
    Ret (mkMD5 (md_finalized m) (md_regs m) buf (u32 (md_size m + length)) (md_bits m) (md_digest m)).

(* src/src/checksum_MD5.cpp:302-311 MD5::addsize *)
Definition MD5_addsize (M : list Z) (index oldlen : Z) : outcome (list Z) :=
  assertP (index * 8 mod 512 =? 448) ;;
  M ← wr M index (u8 (Z.land (u32 (Z.shiftl oldlen 3)) 0xFF));
  M ← wr M (index + 1) (u8 (Z.land (Z.shiftr oldlen 5) 0xFF));
  M ← wr M (index + 2) (u8 (Z.land (Z.shiftr oldlen 13) 0xFF));
  M ← wr M (index + 3) (u8 (Z.land (Z.shiftr oldlen 21) 0xFF));
  M ← wr M (index + 4) 0; M ← wr M (index + 5) 0; M ← wr M (index + 6) 0; wr M (index + 7) 0.

(** The bytes of a register in the digest. *)
(* src/src/checksum_MD5.cpp:288-295 MD5::finalize *)
Definition reg_bytes (v : Z) : list Z :=
  (fun i => u8 (Z.land (Z.shiftr v (i * 8)) 0xFF)) <$> seqZ 0 4.
(* src/src/checksum_MD5.cpp:288-295 MD5::finalize *)
Definition digest_of (r : regs) : list Z :=
  reg_bytes (r_A r) ++ reg_bytes (r_B r) ++ reg_bytes (r_C r) ++ reg_bytes (r_D r).
(* src/src/checksum_MD5.cpp:260-297 MD5::finalize *)
Definition MD5_finalize (m : MD5) : outcome MD5 :=
  let size := md_size m in
  '(r, size, bits) ← (if 56 <? u32 (size + 1) then
      buffer ← memcpy (replicate 64 0) 0 (md_buf m) size;
      buffer ← memcpy buffer size MD5_PADDING (u32 (64 - size));
      r ← MD5_encode (md_regs m) buffer;
      let bits := u32 (md_bits m + size) in
      buffer ← memset buffer 0 0 56;
      buffer ← MD5_addsize buffer 56 bits;
      r ← MD5_encode r buffer;
      Ret (r, 0, bits)
    else
      buffer ← memcpy (replicate 64 0) 0 (md_buf m) size;
      let bits := u32 (md_bits m + size) in
      buffer ← memcpy buffer size MD5_PADDING (u32 (56 - size));
      buffer ← MD5_addsize buffer 56 bits;
      r ← MD5_encode (md_regs m) buffer;
      Ret (r, size, bits));
  Ret (mkMD5 true r (md_buf m) size bits (digest_of r)).

(* src/src/checksum_MD5.cpp:318-322 MD5::digest *)
Definition MD5_get_digest (m : MD5) : outcome (list Z * MD5) :=
  m ← (if md_finalized m then Ret m else MD5_finalize m); Ret (md_digest m, m).

(** [right(pad('0', width(2, hex(byte))))] *)
Definition hex_byte_fmt (b : Z) : IntFormat :=
  IntFormat_align A_RIGHT (IntFormat_pad (ch "0") (IntFormat_width 2 (IntFormat_unsigned_base 16 (IntFormat_make b false 1)))).
(* src/src/checksum_MD5.cpp:328-333 MD5::print *)
Definition MD5_print {S} `{OutStream S} (m : MD5) : IO (Output S) MD5 :=
  d ← lift (MD5_get_digest m);
  foldl (fun k b => k ;; Output_print_IntFormat (hex_byte_fmt b)) (mret tt) d.1 ;;
  mret d.2.

(** *** From streams *)

Section Streams.
Context {S : Type} `{InStream S}.

(** One turn of the loop: the number of bytes read. *)
(* src/src/checksum_MD5.cpp:363-367 MD5::put *)
Definition put_turn (n : Z) : IO (MD5 * S) Z :=
  st ← get_st;
  let '(m, s) := st in
  '(r, bytes, s) ← lift (in_read s n);
  buf ← lift (memcpy (md_buf m) (md_size m) bytes (Z.max 0 r));
  if r <? 0 then
    put_st (mkMD5 (md_finalized m) (md_regs m) buf (md_size m) (md_bits m) (md_digest m), s) ;; throw
  else
    m ← lift (MD5_update (mkMD5 (md_finalized m) (md_regs m) buf (u32 (md_size m + r)) (md_bits m) (md_digest m)));
    put_st (m, s) ;; mret r.
(* src/src/checksum_MD5.cpp:360-369 MD5::put *)
Definition MD5_put_stream (fuel : nat) : IO (MD5 * S) unit :=
  io_iter fuel (fun _ : unit =>
    st ← get_st;
    r ← put_turn (u32 (MD5_BUFFER - md_size st.1));
    mret (if negb (r =? 0) then inl tt else inr tt)) tt.
(* src/src/checksum_MD5.cpp:379-390 MD5::put *)
Definition MD5_put_stream_length (fuel : nat) (length : Z) : IO (MD5 * S) unit :=
  io_iter fuel (fun l : Z =>
    st ← get_st;
    r ← put_turn (Z.min l (u32 (MD5_BUFFER - md_size st.1)));
    let l := u32 (l - r) in
    mret (if (r =? 0) && negb (l =? 0) then inl l else inr tt)) (u32 length).
End Streams.

(* src/src/checksum_MD5.cpp:395-398 MD5::write *)
Definition MD5_write (fuel : nat) (m : MD5) (b : list Z) : outcome (Z * MD5) :=
  m ← MD5_put fuel m b; Ret (zlen b, m).
(* src/src/checksum_MD5.cpp:403-405 MD5::flush *)
Definition MD5_flush (m : MD5) : outcome (Z * MD5) := Ret (0, m).

(** *** RFC 1321 *)

(** [2 ^ 160 * sin n] by its series, each term being rounded. *)
Fixpoint sine_terms (k : nat) (i t n acc : Z) : Z :=
  match k with
  | O => acc
  | S k => sine_terms k (i + 2) (- (t * n * n) / ((i + 1) * (i + 2))) n (acc + t)
  end.
Definition sine (n : Z) : Z := sine_terms 150 1 (n * 2 ^ 160) n 0.
(** [T[i]] is the integer part of [2 ^ 32 * abs (sin i)]. *)
Definition rfc_T (i : Z) : Z := Z.abs (sine i) / 2 ^ 128.

Definition rfc_f (i : Z) : Z -> Z -> Z -> Z :=
  if i <? 16 then md5_F else if i <? 32 then md5_G else if i <? 48 then md5_H else md5_I.
Definition rfc_k (i : Z) : Z :=
  (if i <? 16 then i else if i <? 32 then 5 * i + 1 else if i <? 48 then 3 * i + 5 else 7 * i) mod 16.
Definition rfc_s (i : Z) : Z :=
  nth (Z.to_nat (4 * (i / 16) + i mod 4)) [7; 12; 17; 22; 5; 9; 14; 20; 4; 11; 16; 23; 6; 10; 15; 21] 0.

(** One step: the registers turn. *)
Definition rfc_turn (f : Z -> Z -> Z -> Z) (xk s t : Z) (r : regs) : regs :=
  mkRegs (r_D r) (u32 (r_B r + ROTATE_LEFT (u32 (r_A r + f (r_B r) (r_C r) (r_D r) + xk + t)) s)) (r_B r) (r_C r).
Definition rfc_step (x : Z -> Z) (r : regs) (i : Z) : regs :=
  rfc_turn (rfc_f i) (x (rfc_k i)) (rfc_s i) (rfc_T (i + 1)) r.
(** The words of a block are read from the least significant byte. *)
Definition rfc_word (block : list Z) (k : Z) : Z :=
  let byte i := nth (Z.to_nat (4 * k + i)) block 0 in
  byte 0 + 2 ^ 8 * byte 1 + 2 ^ 16 * byte 2 + 2 ^ 24 * byte 3.
Definition rfc_block (r : regs) (block : list Z) : regs :=
  let m := foldl (rfc_step (rfc_word block)) r (seqZ 0 64) in
  mkRegs (u32 (r_A r + r_A m)) (u32 (r_B r + r_B m)) (u32 (r_C r + r_C m)) (u32 (r_D r + r_D m)).
(** The first [n] blocks of [l]. *)
Fixpoint rfc_blocks (n : nat) (r : regs) (l : list Z) : regs :=
  match n with O => r | S n => rfc_blocks n (rfc_block r (take 64 l)) (drop 64 l) end.

Definition le_bytes (n : nat) (v : Z) : list Z := (fun i => v / 2 ^ (8 * i) mod 256) <$> seqZ 0 (Z.of_nat n).
Definition rfc_pad (l : list Z) : list Z :=
  l ++ 0x80 :: replicate (Z.to_nat ((55 - zlen l) mod 64)) 0 ++ le_bytes 8 (8 * zlen l).
Definition rfc_md5 (l : list Z) : list Z :=
  let r := rfc_blocks (length (rfc_pad l) / 64) MD5_init (rfc_pad l) in
  le_bytes 4 (r_A r) ++ le_bytes 4 (r_B r) ++ le_bytes 4 (r_C r) ++ le_bytes 4 (r_D r).

(** The digests of the appendix of the RFC. *)
Definition hex_of (l : list Z) : str := concat ((fun b => [digit_char (ch "a") (b / 16); digit_char (ch "a") (b mod 16)]) <$> l).
Example rfc_md5_suite : hex_of (rfc_md5 (text "abc")) = text "900150983cd24fb0d6963f7d28e17f72".
Proof. vm_compute. reflexivity. Qed.
Example MD5_suite : (fun t => m ← MD5_put 1 MD5_make t; d ← MD5_get_digest m; Ret (hex_of d.1)) <$> [[]; text "a"; text "abc"; text "message digest"] =
  [Ret (text "d41d8cd98f00b204e9800998ecf8427e"); Ret (text "0cc175b9c0f1b6a831c399e269772661");
   Ret (text "900150983cd24fb0d6963f7d28e17f72"); Ret (text "f96b697d7cb7938d525a2f31aaf161d0")].
Proof. vm_compute. reflexivity. Qed.

(** *** A block *)

Lemma lor_shifted a b k : 0 <= k -> 0 <= a < 2 ^ k -> 0 <= b -> Z.lor a (Z.shiftl b k) = a + 2 ^ k * b.
Proof.
  intros Hk Ha Hb. rewrite <- Z.lxor_lor, <- Z.add_nocarry_lxor.
  - rewrite Z.shiftl_mul_pow2 by lia. lia.
  - apply Z.bits_inj'. intros i Hi. rewrite Z.land_spec, Z.bits_0. destruct (Z.lt_ge_cases i k).
    + rewrite Z.shiftl_spec_low by lia. apply andb_false_r.
    + rewrite (testbit_high k a i) by (done || (split; lia)). done.
  - apply Z.bits_inj'. intros i Hi. rewrite Z.land_spec, Z.bits_0. destruct (Z.lt_ge_cases i k).
    + rewrite Z.shiftl_spec_low by lia. apply andb_false_r.
    + rewrite (testbit_high k a i) by (done || (split; lia)). done.
Qed.

Abbreviation bytes := (Forall (inw 8)).

Lemma byte_at b i : bytes b -> inw 8 (nth i b 0).
Proof.
  intros Hb. destruct (nth_in_or_default i b 0) as [Hi| ->]; [|by split].
  rewrite list.Forall_forall in Hb. by apply Hb, list_elem_of_In.
Qed.
Lemma rd_nth (b : list Z) i : 0 <= i < zlen b -> rd b i = Ret (nth (Z.to_nat i) b 0).
Proof.
  intros Hi. apply rd_ok; [lia|]. destruct (lookup_lt_is_Some_2 b (Z.to_nat i)) as [x Hx]; [lia|].
  rewrite Hx. f_equal. by rewrite nth_lookup, Hx.
Qed.

(** The powers of two of the bytes of a word as numbers. *)
Ltac pow2s := change (2 ^ 8) with 256 in *; change (2 ^ 16) with 65536 in *; change (2 ^ 24) with 16777216 in *;
  change (2 ^ 32) with 4294967296 in *.

Lemma GET_UINT32_ok b k : bytes b -> 0 <= k -> 4 * k + 4 <= zlen b -> GET_UINT32 b (4 * k) = Ret (rfc_word b k).
Proof.
  intros Hb Hk Hl. unfold GET_UINT32. rewrite !rd_nth by lia. mred. unfold rfc_word.
  rewrite Z.add_0_r. cbv zeta.
  pose proof (byte_at b (Z.to_nat (4 * k)) Hb) as H0. pose proof (byte_at b (Z.to_nat (4 * k + 1)) Hb) as H1.
  pose proof (byte_at b (Z.to_nat (4 * k + 2)) Hb) as H2. pose proof (byte_at b (Z.to_nat (4 * k + 3)) Hb) as H3.
  revert H0 H1 H2 H3. generalize (nth (Z.to_nat (4 * k)) b 0), (nth (Z.to_nat (4 * k + 1)) b 0),
    (nth (Z.to_nat (4 * k + 2)) b 0), (nth (Z.to_nat (4 * k + 3)) b 0). intros b0 b1 b2 b3 H0 H1 H2 H3.
  rewrite !wrap_small by (rewrite Z.shiftl_mul_pow2 by lia; unfold inw in *; pow2s; lia).
  rewrite (lor_shifted b0 b1 8), (lor_shifted _ b2 16), (lor_shifted _ b3 24) by (unfold inw in *; pow2s; lia). done.
Qed.

Lemma mapM_Ret {A B} (f : A -> outcome B) g l : (forall x, x ∈ l -> f x = Ret (g x)) -> mapM f l = Ret (g <$> l).
Proof.
  induction l as [|x l IH]; intros Hf; [done|]. cbn. rewrite Hf by by left. mred. rewrite IH; [done|].
  intros y Hy. apply Hf. by right.
Qed.
Lemma MD5_words_ok b : bytes b -> zlen b = 64 -> MD5_words b = Ret (rfc_word b <$> seqZ 0 16).
Proof. intros Hb Hl. apply mapM_Ret. intros k Hk%elem_of_seqZ. apply GET_UINT32_ok; (done || lia). Qed.

(** Four lines of [encode] are four steps of the RFC. *)
Lemma four_lines f x k1 k2 k3 k4 x1 x2 x3 x4 s1 s2 s3 s4 t1 t2 t3 t4 r :
  rd x k1 = Ret x1 -> rd x k2 = Ret x2 -> rd x k3 = Ret x3 -> rd x k4 = Ret x4 ->
  foldl (fun m l => r ← m; run_line x r l) (Ret r)
    [(f, RA, RB, RC, RD, k1, s1, t1); (f, RD, RA, RB, RC, k2, s2, t2); (f, RC, RD, RA, RB, k3, s3, t3); (f, RB, RC, RD, RA, k4, s4, t4)] =
  (let f := macro_fun f in
  Ret (rfc_turn f x4 s4 t4 (rfc_turn f x3 s3 t3 (rfc_turn f x2 s2 t2 (rfc_turn f x1 s1 t1 r))))).
Proof.
  intros E1 E2 E3 E4. destruct r as [a b c d]. cbn [foldl]. rewrite bind_Ret.
  unfold run_line at 4. rewrite E1. mred. unfold run_line at 3. rewrite E2. mred.
  unfold run_line at 2. rewrite E3. mred. unfold run_line. rewrite E4. mred. reflexivity.
Qed.

Definition line_group (j : Z) : list md5_line :=
  let f := if j <? 4 then FF else if j <? 8 then GG else if j <? 12 then HH else II in
  let line a b c d i := (f, a, b, c, d, rfc_k i, rfc_s i, rfc_T (i + 1)) in
  [line RA RB RC RD (4 * j); line RD RA RB RC (4 * j + 1); line RC RD RA RB (4 * j + 2); line RB RC RD RA (4 * j + 3)].
Lemma lines_groups : MD5_lines = concat (line_group <$> seqZ 0 16).
Proof. vm_compute. reflexivity. Qed.
Lemma steps_groups : seqZ 0 64 = concat ((fun j => [4 * j; 4 * j + 1; 4 * j + 2; 4 * j + 3]) <$> seqZ 0 16).
Proof. vm_compute. reflexivity. Qed.

Lemma rfc_f_group j i : 0 <= i < 4 ->
  rfc_f (4 * j + i) = macro_fun (if j <? 4 then FF else if j <? 8 then GG else if j <? 12 then HH else II).
Proof.
  intros Hi. unfold rfc_f. repeat (match goal with |- context [?a <? ?b] => destruct (Z.ltb_spec a b) end); (done || lia).
Qed.
Lemma group_ok w j r : foldl (fun m l => r ← m; run_line (w <$> seqZ 0 16) r l) (Ret r) (line_group j) =
  Ret (foldl (rfc_step w) r [4 * j; 4 * j + 1; 4 * j + 2; 4 * j + 3]).
Proof.
  assert (forall i, rd (w <$> seqZ 0 16) (rfc_k i) = Ret (w (rfc_k i))) as Hw.
  { intros i. assert (0 <= rfc_k i < 16) by (unfold rfc_k; apply Z.mod_pos_bound; lia).
    apply rd_ok; [lia|]. rewrite list_lookup_fmap, lookup_seqZ_lt by lia. cbn. do 2 f_equal. lia. }
  unfold line_group. rewrite (four_lines _ _ _ _ _ _ _ _ _ _ _ _ _ _ _ _ _ _ _ (Hw _) (Hw _) (Hw _) (Hw _)).
  cbn [foldl]. unfold rfc_step. rewrite !rfc_f_group by lia.
  pose proof (rfc_f_group j 0 ltac:(lia)) as E. rewrite Z.add_0_r in E. by rewrite E.
Qed.
Lemma groups_ok w js : forall r, foldl (fun m l => r ← m; run_line (w <$> seqZ 0 16) r l) (Ret r) (concat (line_group <$> js)) =
  Ret (foldl (rfc_step w) r (concat ((fun j => [4 * j; 4 * j + 1; 4 * j + 2; 4 * j + 3]) <$> js))).
Proof.
  induction js as [|j js IH]; intros r; [done|]. rewrite !fmap_cons. cbn [concat]. rewrite !foldl_app, group_ok. apply IH.
Qed.
Lemma lines_ok w r : foldl (fun m l => r ← m; run_line (w <$> seqZ 0 16) r l) (Ret r) MD5_lines =
  Ret (foldl (rfc_step w) r (seqZ 0 64)).
Proof. rewrite lines_groups, steps_groups. apply groups_ok. Qed.
Lemma MD5_encode_ok r b : bytes b -> zlen b = 64 -> MD5_encode r b = Ret (rfc_block r b).
Proof.
  intros Hb Hl. unfold MD5_encode. rewrite MD5_words_ok by done. rewrite bind_Ret, lines_ok, bind_Ret. reflexivity.
Qed.

Definition regs_ok (r : regs) : Prop := inw 32 (r_A r) /\ inw 32 (r_B r) /\ inw 32 (r_C r) /\ inw 32 (r_D r).
Lemma rfc_block_inw r b : regs_ok (rfc_block r b).
Proof. unfold rfc_block. split_and!; by apply wrap_inw. Qed.
Lemma rfc_blocks_inw n : forall r l, regs_ok r -> regs_ok (rfc_blocks n r l).
Proof. induction n as [|n IH]; intros r l Hr; [done|]. apply IH, rfc_block_inw. Qed.
#[local] Opaque MD5_encode rfc_block.

Lemma rfc_blocks_app k n : forall r done l, length done = (64 * k)%nat ->
  rfc_blocks (k + n) r (done ++ l) = rfc_blocks n (rfc_blocks k r done) l.
Proof.
  induction k as [|k IH]; intros r done l Hd.
  { destruct done; [done|cbn in Hd; lia]. }
  cbn [plus rfc_blocks]. rewrite take_app_le, drop_app_le by lia. apply IH. rewrite length_drop. lia.
Qed.
Lemma rfc_blocks_1 r b l : length b = 64%nat -> rfc_blocks 1 r (b ++ l) = rfc_block r b.
Proof. intros Hb. cbn [rfc_blocks]. by rewrite take_app_length'. Qed.
Lemma rfc_blocks_snoc k r done b l : length done = (64 * k)%nat -> length b = 64%nat ->
  rfc_blocks (k + 1) r (done ++ b ++ l) = rfc_block (rfc_blocks k r done) b.
Proof. intros Hd Hb. by rewrite rfc_blocks_app, rfc_blocks_1. Qed.

(** *** What the object holds *)

(** The data put: [k] blocks are processed, the rest is in the buffer. *)
Record md5_state (m : MD5) (k : nat) (done rest : list Z) : Prop := {
  ms_open : md_finalized m = false;
  ms_buf : zlen (md_buf m) = MD5_BUFFER;
  ms_done : length done = (64 * k)%nat;
  ms_regs : md_regs m = rfc_blocks k MD5_init done;
  ms_bits : md_bits m = u32 (zlen done);
  ms_size : md_size m = zlen rest;
  ms_max : zlen rest <= MD5_BUFFER;
  ms_rest : take (length rest) (md_buf m) = rest;
  ms_bytes : bytes (done ++ rest) }.
Definition md5_holds (m : MD5) (data : list Z) : Prop := exists k done rest, data = done ++ rest /\ md5_state m k done rest.

Lemma wrap_add w a b : wrap w (wrap w a + b) = wrap w (a + b).
Proof. unfold wrap. by rewrite Zplus_mod_idemp_l. Qed.
Lemma zlen_fits {A} (l : list A) : zlen l <= MD5_BUFFER -> 0 <= zlen l < 2 ^ 32.
Proof. unfold MD5_BUFFER. intros. lia. Qed.

Lemma MD5_update_ok m k done rest : md5_state m k done rest ->
  exists m' k' done' rest', MD5_update m = Ret m' /\ md5_state m' k' done' rest' /\ done ++ rest = done' ++ rest' /\
    zlen rest' = zlen rest mod 64.
Proof.
  intros [Ho Hb Hd Hr Hbits Hs Hmax Hrest Hby]. pose proof (zlen_fits rest Hmax) as Hfit. unfold MD5_update. rewrite Ho. mred.
  iter_with
    (fun st => let '(i, r, b) := st in exists n : nat, i = 64 * Z.of_nat n /\ i <= zlen rest /\
       r = rfc_blocks (k + n) MD5_init (done ++ take (64 * n) rest) /\ b = u32 (zlen done + i))
    (fun st => let '(i, r, b) := st in Z.to_nat (zlen rest - i))
    (fun st => let '(i, r, b) := st in exists n : nat, i = 64 * Z.of_nat n /\ i <= zlen rest < i + 64 /\
       r = rfc_blocks (k + n) MD5_init (done ++ take (64 * n) rest) /\ b = u32 (zlen done + i)).
  - intros [[i r] b] (n & Ei & Hi & -> & ->). unfold update_step. rewrite Hs, wrap_small by (split; lia).
    destruct (Z.ltb_spec 63 (zlen rest - i)) as [Hlt|Hge]; [|eexists; split; [done|]; exists n; split_and!; (done || lia)].
    rewrite memcpy_start by (rewrite ?length_drop, ?length_replicate; unfold MD5_BUFFER in *; lia).
    rewrite (drop_ge (replicate 64 0)), app_nil_r by (rewrite length_replicate; lia). mred. set (b := take (Z.to_nat 64) (drop (Z.to_nat i) (md_buf m))).
    assert (take (64 * S n) rest = take (64 * n) rest ++ b) as Etake.
    { rewrite <- Hrest. unfold b. rewrite Ei. rewrite !take_take, !Nat.min_l by lia.
      replace (Z.to_nat (64 * Z.of_nat n)) with (64 * n)%nat by lia.
      replace (64 * S n)%nat with (64 * n + Z.to_nat 64)%nat by lia. by rewrite take_take_drop. }
    assert (zlen b = 64) as Hlb by (unfold b; rewrite length_take, length_drop; unfold MD5_BUFFER in *; lia).
    assert (bytes b) as Hbb.
    { apply Forall_app in Hby as [_ Hby]. eapply Forall_take in Hby. rewrite Etake in Hby. by apply Forall_app in Hby as [_ ?]. }
    rewrite MD5_encode_ok by done. mred. eexists. split; [done|]. split; [|lia]. exists (S n).
    split_and!; [lia|lia| |].
    + rewrite Etake, app_assoc. replace (k + S n)%nat with ((k + n) + 1)%nat by lia.
      pose proof (rfc_blocks_snoc (k + n) MD5_init (done ++ take (64 * n) rest) b []) as E. rewrite app_nil_r in E.
      rewrite E; [done| |lia]. rewrite length_app, length_take. lia.
    + rewrite wrap_add. f_equal. lia.
  - exists 0%nat. cbn. rewrite Nat.add_0_r, app_nil_r, Z.add_0_r. split_and!; [done|lia|done|done].
  - rewrite Hs. lia.
  - destruct r as [[i r] b]. destruct Hr0 as (n & Ei & Hi & -> & ->). mred. rewrite Hs, wrap_small by (split; lia).
    rewrite memcpy_start by (rewrite ?length_drop, ?length_replicate; unfold MD5_BUFFER in *; lia). mred.
    set (tail_ := take (Z.to_nat (zlen rest - i)) (drop (Z.to_nat i) (md_buf m))).
    assert (tail_ = drop (64 * n) rest) as Etail.
    { unfold tail_. rewrite <- Hrest at 2. rewrite skipn_firstn_comm. f_equal; [lia|f_equal; lia]. }
    assert (zlen tail_ = zlen rest - i) as Hlt by (rewrite Etail, length_drop; lia).
    rewrite memcpy_start by (rewrite ?length_app, ?length_drop, ?length_replicate; unfold MD5_BUFFER in *; lia). mred.
    eexists _, (k + n)%nat, (done ++ take (64 * n) rest), (drop (64 * n) rest). split; [done|].
    split; [|split; [by rewrite <- app_assoc, take_drop|]].
    2:{ rewrite length_drop. Z.to_euclidean_division_equations. lia. }
    split; cbn [md_finalized md_buf md_regs md_bits md_size].
    + done.
    + rewrite !length_app, !length_take, !length_drop, !length_app, length_drop, length_replicate. unfold MD5_BUFFER in *. lia.
    + rewrite length_app, length_take. lia.
    + done.
    + f_equal. rewrite length_app, length_take. lia.
    + rewrite length_drop. lia.
    + rewrite length_drop. unfold MD5_BUFFER in *. lia.
    + rewrite <- Etail, (take_app_length' tail_) by lia. by rewrite take_app_length' by lia.
    + by rewrite <- app_assoc, take_drop.
Qed.

Lemma MD5_make_ok : md5_state MD5_make 0 [] [].
Proof. by split. Qed.

(** Bytes written after the data kept in the buffer. *)
Lemma buffer_append m k done rest b tail_ : md5_state m k done rest -> bytes b -> zlen rest + zlen b <= MD5_BUFFER ->
  exists buf, memcpy (md_buf m) (md_size m) (b ++ tail_) (zlen b) = Ret buf /\
    md5_state (mkMD5 (md_finalized m) (md_regs m) buf (u32 (md_size m + zlen b)) (md_bits m) (md_digest m)) k done (rest ++ b).
Proof.
  intros [Ho Hb Hd Hr Hbits Hs Hmax Hrest Hby] Hbb Hfit. pose proof (zlen_fits (rest ++ b)) as Hf. rewrite length_app in Hf.
  rewrite memcpy_ok by (rewrite ?length_app; lia). eexists. split; [done|]. rewrite Nat2Z.id, take_app_length.
  rewrite Hs, Nat2Z.id, Hrest. split; cbn [md_finalized md_buf md_regs md_bits md_size]; try done.
  - rewrite !length_app, length_drop. lia.
  - rewrite length_app, wrap_small by (split; lia). lia.
  - rewrite length_app. lia.
  - by rewrite app_assoc, take_app_length.
  - rewrite app_assoc. by apply Forall_app.
Qed.
Lemma buffer_append_all m k done rest b : md5_state m k done rest -> bytes b -> zlen rest + zlen b <= MD5_BUFFER ->
  exists buf, memcpy (md_buf m) (md_size m) b (zlen b) = Ret buf /\
    md5_state (mkMD5 (md_finalized m) (md_regs m) buf (u32 (md_size m + zlen b)) (md_bits m) (md_digest m)) k done (rest ++ b).
Proof.
  intros Hm Hb Hf. destruct (buffer_append m k done rest b [] Hm Hb Hf) as (buf & E & Hm'). rewrite app_nil_r in E. by exists buf.
Qed.

(** Only the bytes after the data kept change. *)
Lemma buffer_beyond m k done rest buf : md5_state m k done rest -> zlen buf = MD5_BUFFER ->
  take (length rest) buf = take (length rest) (md_buf m) ->
  md5_state (mkMD5 (md_finalized m) (md_regs m) buf (md_size m) (md_bits m) (md_digest m)) k done rest.
Proof. intros [Ho Hb Hd Hr Hbits Hs Hmax Hrest Hby] Hl E. split; cbn; try done. by rewrite E. Qed.

Lemma MD5_put_ok m k done rest b : md5_state m k done rest -> bytes b -> zlen rest mod 64 + zlen b <= MD5_BUFFER ->
  exists m' k' done' rest', MD5_put 1 m b = Ret m' /\ md5_state m' k' done' rest' /\ done ++ rest ++ b = done' ++ rest'.
Proof.
  intros Hm Hb Hfit. pose proof Hm as [Ho Hbuf _ _ _ Hs Hmax Hrest _]. cbn [MD5_put].
  assert (0 <= zlen rest mod 64 < 64) by (apply Z.mod_pos_bound; lia).
  rewrite Hs, (wrap_small 32 (zlen b + zlen rest)) by (unfold MD5_BUFFER in *; split; lia).
  destruct (Z.ltb_spec MD5_BUFFER (zlen b + zlen rest)) as [Hlt|Hle].
  - rewrite wrap_small by (unfold MD5_BUFFER in *; split; lia).
    rewrite memcpy_ok by (unfold MD5_BUFFER in *; lia). mred.
    match goal with |- context [mkMD5 _ _ ?buf _ _ _] => set (buf1 := buf) end.
    destruct (MD5_update_ok (mkMD5 (md_finalized m) (md_regs m) buf1 (zlen rest) (md_bits m) (md_digest m)) k done rest)
      as (m1 & k1 & done1 & rest1 & -> & Hm1 & E & Hl1).
    { rewrite <- Hs. apply buffer_beyond; [done| |].
      - unfold buf1. rewrite !length_app, !length_take, length_drop. unfold MD5_BUFFER in *. lia.
      - unfold buf1. rewrite Nat2Z.id. rewrite take_app_le by (rewrite length_take; lia). by rewrite take_take, Nat.min_id. }
    mred. pose proof (ms_size _ _ _ _ Hm1) as Hs1.
    rewrite (wrap_small 32 (zlen b + md_size m1)) by (unfold MD5_BUFFER in *; split; lia).
    rewrite (proj2 (Z.ltb_ge _ _)) by lia.
    destruct (buffer_append_all m1 k1 done1 rest1 b Hm1 Hb) as (buf & -> & Hm2); [lia|]. mred.
    eexists _, k1, done1, (rest1 ++ b). split; [done|]. split; [done|]. by rewrite !app_assoc, E.
  - rewrite <- Hs. destruct (buffer_append_all m k done rest b Hm Hb) as (buf & -> & Hm2); [lia|]. mred.
    by eexists _, k, done, (rest ++ b).
Qed.

Section StreamProofs.
Context {S : Type} (pending : S -> list Z -> Prop) `{ReliableIn S pending}.

Lemma put_turn_ok n m k done rest s l : md5_state m k done rest -> pending s l -> bytes l -> 0 < n -> zlen rest + n <= MD5_BUFFER ->
  exists (r : nat) m' s' k' done' rest', put_turn n (m, s) = Ret (Val (Z.of_nat r), (m', s')) /\ (r <= length l)%nat /\
    (l = [] \/ (0 < r)%nat) /\ pending s' (drop r l) /\ md5_state m' k' done' rest' /\
    done ++ rest ++ take r l = done' ++ rest' /\ zlen rest' < 64.
Proof.
  intros Hm Hp Hl Hn Hfit. unfold put_turn. erewrite io_bind_Val by reflexivity.
  destruct (read_law s l n Hp ltac:(unfold MD5_BUFFER, MAX_REQUEST in *; lia)) as (r & s' & Hr & Hne & Hrn & -> & Hp'). rewrite io_lift_Ret.
  rewrite Z.max_r by lia.
  assert (zlen (take r l) = Z.of_nat r) as Elen by (rewrite length_take; lia).
  destruct (buffer_append_all m k done rest (take r l) Hm) as (buf & E & Hm1); [by apply Forall_take|lia|].
  rewrite Elen in E, Hm1. rewrite E, io_lift_Ret. rewrite (proj2 (Z.ltb_ge _ 0)) by lia.
  destruct (MD5_update_ok _ _ _ _ Hm1) as (m' & k' & done' & rest' & -> & Hm' & Ed & Hl'). rewrite io_lift_Ret.
  erewrite io_bind_Val by reflexivity. exists r, m', s', k', done', rest'. split; [done|]. split_and!; try done.
  rewrite Hl'. apply Z.mod_pos_bound. lia.
Qed.

Lemma MD5_put_stream_ok fuel : forall m k done rest s l, md5_state m k done rest -> zlen rest < MD5_BUFFER -> pending s l -> bytes l ->
  (length l + 1 < fuel)%nat ->
  exists m' s' k' done' rest', MD5_put_stream fuel (m, s) = Ret (Val tt, (m', s')) /\ pending s' [] /\
    md5_state m' k' done' rest' /\ done ++ rest ++ l = done' ++ rest' /\ zlen rest' < 64.
Proof.
  induction fuel as [|fuel IH]; intros m k done rest s l Hm Hlt Hp Hl Hf; [lia|].
  pose proof (ms_size _ _ _ _ Hm) as Hs.
  destruct (put_turn_ok (u32 (MD5_BUFFER - md_size m)) m k done rest s l Hm Hp Hl) as (r & m1 & s1 & k1 & done1 & rest1 & E & Hr & Hne & Hp1 & Hm1 & Ed & Hl1).
  { rewrite wrap_small; unfold MD5_BUFFER, inw in *; lia. }
  { rewrite wrap_small; unfold MD5_BUFFER, inw in *; lia. }
  destruct (Z.eqb_spec (Z.of_nat r) 0) as [E0|E0].
  - assert (r = 0%nat) as -> by lia. destruct Hne as [->|?]; [|lia]. exists m1, s1, k1, done1, rest1.
    split_and!; [|done|done|done|done]. unfold MD5_put_stream. erewrite io_iter_inr; [done|].
    erewrite io_bind_Val by reflexivity. cbn [fst]. rewrite (io_bind_Val _ _ _ _ _ E). done.
  - destruct (IH m1 k1 done1 rest1 s1 (drop r l)) as (m' & s' & k' & done' & rest' & E' & Hp' & Hm' & Ed' & Hl'); [done| |done| | |].
    + unfold MD5_BUFFER. lia.
    + by apply Forall_drop.
    + rewrite length_drop. lia.
    + exists m', s', k', done', rest'. split_and!; [|done|done| |done].
      * unfold MD5_put_stream in *. erewrite io_iter_inl; [exact E'|].
        erewrite io_bind_Val by reflexivity. cbn [fst]. rewrite (io_bind_Val _ _ _ _ _ E).
        by rewrite (proj2 (Z.eqb_neq _ 0)) by lia.
      * rewrite <- Ed', (app_assoc done1), <- Ed, <- !app_assoc. by rewrite take_drop.
Qed.
End StreamProofs.

(** *** The digest *)

Lemma le_byte v i : 0 <= v < 2 ^ 32 -> 0 <= i -> u8 (Z.land (Z.shiftr v (i * 8)) 0xFF) = v / 2 ^ (8 * i) mod 256.
Proof.
  intros Hv Hi. change 0xFF with (Z.ones 8). rewrite Z.land_ones, Z.shiftr_div_pow2 by lia.
  rewrite (Z.mul_comm i 8). apply wrap_small. apply Z.mod_pos_bound. lia.
Qed.
Lemma reg_bytes_ok v : inw 32 v -> reg_bytes v = le_bytes 4 v.
Proof.
  intros Hv. unfold reg_bytes, le_bytes. apply list_fmap_ext. intros k i Hk.
  apply le_byte; [exact Hv|]. apply list_elem_of_lookup_2, elem_of_seqZ in Hk. lia.
Qed.

(** Writing in the second part of a list. *)
Lemma wr_app {A} (l k : list A) i x : 0 <= i < zlen k -> wr (l ++ k) (zlen l + i) x = Ret (l ++ <[Z.to_nat i := x]> k).
Proof.
  intros Hi. rewrite wr_ok by (rewrite length_app; lia). rewrite Z2Nat.inj_add, Nat2Z.id by lia.
  by rewrite insert_app_r.
Qed.

Lemma MD5_addsize_ok l k n : length l = 56%nat -> length k = 8%nat -> 0 <= n < 2 ^ 29 ->
  MD5_addsize (l ++ k) 56 n = Ret (l ++ le_bytes 8 (8 * n)).
Proof.
  intros Hl Hk Hn. destruct k as [|k0 [|k1 [|k2 [|k3 [|k4 [|k5 [|k6 [|k7 [|]]]]]]]]]; try done.
  unfold MD5_addsize. change (assertP (56 * 8 mod 512 =? 448)) with (Ret tt). mred.
  assert (56 = zlen l) as -> by lia.
  pose proof (fun k x => wr_app l k 0 x) as W0. rewrite Z.add_0_r in W0. rewrite W0 by (cbn; lia). mred.
  do 7 (rewrite wr_app by (rewrite ?length_insert; cbn; lia); mred). do 2 f_equal.
  assert (forall i, 0 <= i -> 8 * n / 2 ^ (8 * (i + 1)) = n / 2 ^ (8 * i + 5)) as Hdiv.
  { intros i Hi. replace (8 * (i + 1)) with (3 + (8 * i + 5)) by lia. rewrite Z.pow_add_r, <- Z.div_div by lia.
    change (2 ^ 3) with 8. by rewrite Z.mul_comm, Z.div_mul. }
  assert (forall k, 0 <= k -> u8 (Z.land (Z.shiftr n k) 0xFF) = n / 2 ^ k mod 256) as Hbyte.
  { intros k Hk'. change 0xFF with (Z.ones 8). rewrite Z.land_ones, Z.shiftr_div_pow2 by lia. apply wrap_small, Z.mod_pos_bound. lia. }
  change (Z.to_nat 0) with 0%nat. change (Z.to_nat 1) with 1%nat. change (Z.to_nat 2) with 2%nat. change (Z.to_nat 3) with 3%nat.
  change (Z.to_nat 4) with 4%nat. change (Z.to_nat 5) with 5%nat. change (Z.to_nat 6) with 6%nat. change (Z.to_nat 7) with 7%nat.
  cbn [insert list_insert]. unfold le_bytes. cbn [Z.of_nat].
  change (seqZ 0 (Z.of_nat 8)) with [0; 0 + 1; 1 + 1; 2 + 1; 3 + 1; 4 + 1; 5 + 1; 6 + 1]. cbn [fmap list_fmap].
  rewrite !Hdiv by lia. rewrite !Hbyte by lia.
  rewrite (Z.div_small n (2 ^ (8 * 3 + 5))), (Z.div_small n (2 ^ (8 * 4 + 5))), (Z.div_small n (2 ^ (8 * 5 + 5))),
    (Z.div_small n (2 ^ (8 * 6 + 5))) by (split; [lia|]; apply Z.lt_le_trans with (2 ^ 29); [lia|by vm_compute]).
  rewrite Zmod_0_l. f_equal.
  rewrite Z.shiftl_mul_pow2, (wrap_small 32) by (unfold inw; lia). change 0xFF with (Z.ones 8). rewrite Z.land_ones by lia.
  rewrite wrap_small by (apply Z.mod_pos_bound; lia). rewrite Z.mul_0_r, Z.div_1_r. f_equal. lia.
Qed.

(** The buffers that [finalize] encodes. *)
Lemma first_buffer buf rest (n : nat) : take (length rest) buf = rest -> zlen buf = MD5_BUFFER -> (length rest < n <= 64)%nat ->
  (b ← memcpy (replicate 64 0) 0 buf (zlen rest); memcpy b (zlen rest) MD5_PADDING (Z.of_nat (n - length rest))) =
  Ret ((rest ++ 0x80 :: replicate (n - length rest - 1) 0) ++ replicate (64 - n) 0).
Proof.
  intros Hr Hb Hn. rewrite memcpy_start by (rewrite ?length_replicate; unfold MD5_BUFFER in *; lia). mred.
  rewrite Nat2Z.id, Hr, drop_replicate.
  rewrite memcpy_ok by (rewrite ?length_app, ?length_replicate; cbn [MD5_PADDING length]; rewrite ?length_replicate; lia).
  rewrite !Nat2Z.id, take_app_length, drop_app_ge by lia. rewrite drop_replicate, <- app_assoc. do 2 f_equal.
  replace (n - length rest)%nat with (S (n - length rest - 1)) at 1 by lia. unfold MD5_PADDING. cbn [take app]. f_equal.
  rewrite take_replicate. f_equal; f_equal; lia.
Qed.

Lemma digest_done k done rest tail_ j : length done = (64 * k)%nat -> length (rest ++ tail_) = (64 * j)%nat ->
  rfc_pad (done ++ rest) = (done ++ rest) ++ tail_ ->
  digest_of (rfc_blocks j (rfc_blocks k MD5_init done) (rest ++ tail_)) = rfc_md5 (done ++ rest).
Proof.
  intros Hd Hj Epad. unfold rfc_md5. rewrite Epad. rewrite <- !app_assoc, !length_app, Hd.
  rewrite length_app in Hj. replace ((64 * k + (length rest + length tail_)) / 64)%nat with (k + j)%nat.
  2:{ rewrite Hj. rewrite <- Nat.mul_add_distr_l, Nat.mul_comm, Nat.div_mul by done. done. }
  rewrite rfc_blocks_app by done. set (r := rfc_blocks j _ _).
  assert (regs_ok r) as (? & ? & ? & ?) by (do 2 apply rfc_blocks_inw; by split_and!).
  unfold digest_of. by rewrite !reg_bytes_ok by done.
Qed.

(** The padding, with room for the length in the last block or not. *)
Lemma pad_short k done rest : length done = (64 * k)%nat -> (length rest < 56)%nat ->
  rfc_pad (done ++ rest) = (done ++ rest) ++ (0x80 :: replicate (56 - length rest - 1) 0) ++ le_bytes 8 (8 * zlen (done ++ rest)).
Proof.
  intros Hd Hl. unfold rfc_pad. f_equal. cbn [app]. f_equal. f_equal. f_equal. rewrite length_app.
  replace (55 - Z.of_nat (length done + length rest)) with (55 - zlen rest + (- Z.of_nat k) * 64) by lia.
  rewrite Z.mod_add by lia. rewrite Z.mod_small by lia. lia.
Qed.
Lemma pad_long k done rest : length done = (64 * k)%nat -> (56 <= length rest < 64)%nat ->
  rfc_pad (done ++ rest) = (done ++ rest) ++ (0x80 :: replicate (64 - length rest - 1) 0) ++ replicate 56 0 ++ le_bytes 8 (8 * zlen (done ++ rest)).
Proof.
  intros Hd Hl. unfold rfc_pad. f_equal. cbn [app]. f_equal. rewrite (app_assoc (replicate _ 0)), <- replicate_add. f_equal. f_equal.
  rewrite length_app. replace (55 - Z.of_nat (length done + length rest)) with (119 - zlen rest + (- Z.of_nat k - 1) * 64) by lia.
  rewrite Z.mod_add by lia. rewrite Z.mod_small by lia. lia.
Qed.

Lemma le_bytes_bytes n v : bytes (le_bytes n v).
Proof. apply list.Forall_fmap, list.Forall_forall. intros i _. apply Z.mod_pos_bound. lia. Qed.
Lemma pad_bytes i : bytes (0x80 :: replicate i 0).
Proof. constructor; [done|]. by apply Forall_replicate. Qed.
Lemma zero_bytes i : bytes (replicate i 0).
Proof. by apply Forall_replicate. Qed.

Section Finalize.
Context (m : MD5) (k : nat) (done rest : list Z) (W : md5_state m k done rest).
Context (Hl : zlen rest < 64) (Hn : zlen (done ++ rest) < 2 ^ 29).

Lemma final_bits : u32 (md_bits m + zlen rest) = zlen (done ++ rest).
Proof.
  rewrite (ms_bits _ _ _ _ W), wrap_add. rewrite length_app in *. rewrite wrap_small by (unfold inw; lia). lia.
Qed.

Lemma finalize_short : zlen rest < 56 ->
  exists m', MD5_finalize m = Ret m' /\ md_finalized m' = true /\
    md_digest m' = digest_of (rfc_block (md_regs m) ((rest ++ 0x80 :: replicate (56 - length rest - 1) 0) ++ le_bytes 8 (8 * zlen (done ++ rest)))).
Proof.
  intros Hs. unfold MD5_finalize. rewrite (ms_size _ _ _ _ W), (wrap_small 32 (zlen rest + 1)) by (split; lia).
  rewrite (proj2 (Z.ltb_ge _ _)) by lia. rewrite (wrap_small 32 (56 - zlen rest)) by (split; lia).
  pose proof (first_buffer (md_buf m) rest 56 (ms_rest _ _ _ _ W) (ms_buf _ _ _ _ W) ltac:(lia)) as E. rewrite Nat2Z.inj_sub in E by lia.
  destruct (memcpy (replicate 64 0) 0 (md_buf m) (zlen rest)) as [b1|f]; [|discriminate E]. rewrite bind_Ret in E. rewrite bind_Ret.
  change (Z.of_nat 56) with 56 in E. rewrite E, bind_Ret, final_bits. clear E.
  set (b := rest ++ 128 :: replicate (56 - length rest - 1) 0).
  assert (length b = 56%nat) as Hlb by (unfold b; rewrite length_app; cbn [length]; rewrite length_replicate; lia).
  rewrite MD5_addsize_ok by (rewrite ?length_replicate; lia). rewrite bind_Ret.
  rewrite MD5_encode_ok, bind_Ret.
  - eexists. split; [reflexivity|]. split; reflexivity.
  - apply Forall_app; split; [apply Forall_app; split; [|apply pad_bytes]|apply le_bytes_bytes].
    pose proof (ms_bytes _ _ _ _ W) as Hb. by apply Forall_app in Hb as [_ Hb].
  - rewrite length_app, Hlb. unfold le_bytes. rewrite length_fmap. reflexivity.
Qed.

Lemma finalize_long : 56 <= zlen rest ->
  exists m', MD5_finalize m = Ret m' /\ md_finalized m' = true /\
    md_digest m' = digest_of (rfc_block (rfc_block (md_regs m) (rest ++ 0x80 :: replicate (64 - length rest - 1) 0))
      (replicate 56 0 ++ le_bytes 8 (8 * zlen (done ++ rest)))).
Proof.
  intros Hs. unfold MD5_finalize. rewrite (ms_size _ _ _ _ W), (wrap_small 32 (zlen rest + 1)) by (split; lia).
  rewrite (proj2 (Z.ltb_lt _ _)) by lia. rewrite (wrap_small 32 (64 - zlen rest)) by (split; lia).
  pose proof (first_buffer (md_buf m) rest 64 (ms_rest _ _ _ _ W) (ms_buf _ _ _ _ W) ltac:(lia)) as E. rewrite Nat2Z.inj_sub in E by lia.
  destruct (memcpy (replicate 64 0) 0 (md_buf m) (zlen rest)) as [b1|f]; [|discriminate E]. rewrite bind_Ret in E. rewrite bind_Ret.
  change (Z.of_nat 64) with 64 in E. rewrite Nat.sub_diag in E. cbn [replicate] in E. rewrite app_nil_r in E. rewrite E, bind_Ret, final_bits. clear E.
  set (b := rest ++ 128 :: replicate (64 - length rest - 1) 0).
  assert (length b = 64%nat) as Hlb by (unfold b; rewrite length_app; cbn [length]; rewrite length_replicate; lia).
  pose proof (ms_bytes _ _ _ _ W) as Hb. apply Forall_app in Hb as [_ Hb].
  rewrite MD5_encode_ok, bind_Ret; [|apply Forall_app; split; [done|apply pad_bytes]|lia].
  unfold memset. rewrite !(proj2 (Z.leb_le _ _)) by lia. mred.
  change (take (Z.to_nat 0) b) with (@nil Z). change (Z.to_nat 56) with 56%nat. cbn [app]. change (Z.to_nat (0 + 56)) with 56%nat.
  rewrite MD5_addsize_ok by (rewrite ?length_drop, ?length_replicate; lia). rewrite bind_Ret.
  rewrite MD5_encode_ok, bind_Ret.
  - eexists. split; [reflexivity|]. split; reflexivity.
  - apply Forall_app; split; [apply zero_bytes|apply le_bytes_bytes].
  - rewrite length_app, length_replicate. unfold le_bytes. rewrite length_fmap. reflexivity.
Qed.
End Finalize.

Lemma MD5_finalize_ok m k done rest : md5_state m k done rest -> zlen rest < 64 -> zlen (done ++ rest) < 2 ^ 29 ->
  exists m', MD5_finalize m = Ret m' /\ md_finalized m' = true /\ md_digest m' = rfc_md5 (done ++ rest).
Proof.
  intros W Hl Hn. pose proof (ms_done _ _ _ _ W) as Hd. pose proof (ms_regs _ _ _ _ W) as Hr.
  assert (forall v, length (le_bytes 8 v) = 8%nat) as Hlen by (intros v; unfold le_bytes; by rewrite length_fmap).
  assert (forall r b, length b = 64%nat -> rfc_blocks 1 r b = rfc_block r b) as H1.
  { intros r b Hb. pose proof (rfc_blocks_1 r b [] Hb) as E. by rewrite app_nil_r in E. }
  destruct (Z.lt_ge_cases (zlen rest) 56) as [Hs|Hs].
  - destruct (finalize_short m k done rest W Hl Hn Hs) as (m' & E & Hf & Hdig). exists m'. split; [exact E|]. split; [exact Hf|].
    rewrite Hdig, <- (digest_done k done rest ((0x80 :: replicate (56 - length rest - 1) 0) ++ le_bytes 8 (8 * zlen (done ++ rest))) 1 Hd);
      [|rewrite !length_app, Hlen; cbn [length]; rewrite length_replicate; lia|apply (pad_short k); lia].
    rewrite Hr, app_assoc, H1; [done|]. rewrite !length_app, Hlen. cbn [length]. rewrite length_replicate. lia.
  - destruct (finalize_long m k done rest W Hl Hn Hs) as (m' & E & Hf & Hdig). exists m'. split; [exact E|]. split; [exact Hf|].
    assert (length (rest ++ 0x80 :: replicate (64 - length rest - 1) 0) = 64%nat) as Hb.
    { rewrite length_app. cbn [length]. rewrite length_replicate. lia. }
    rewrite Hdig, <- (digest_done k done rest ((0x80 :: replicate (64 - length rest - 1) 0) ++ replicate 56 0 ++
      le_bytes 8 (8 * zlen (done ++ rest))) 2 Hd); [| |apply (pad_long k); lia].
    + rewrite Hr, app_assoc, (rfc_blocks_app 1 1) by exact Hb. rewrite !H1; [done|exact Hb|].
      by rewrite length_app, Hlen, length_replicate.
    + rewrite app_assoc, length_app, Hb, length_app, Hlen, length_replicate. done.
Qed.

(** *** Printing *)

Definition hex_text (b : Z) : list Z :=
  let fmt := hex_byte_fmt b in
  let '(l, r) := IntFormat_pads fmt (zlen (if_text fmt)) in
  replicate (Z.to_nat l) (if_pad fmt) ++ if_text fmt ++ replicate (Z.to_nat r) (if_pad fmt).
Lemma hex_texts : forallb (fun b => bool_decide (hex_text b = hex_of [b]) && (zlen (if_text (hex_byte_fmt b)) <=? 32)) (seqZ 0 256) = true.
Proof. vm_compute. reflexivity. Qed.

Lemma prints_hex_byte {S} (sent : S -> list Z -> Prop) `{ReliableOut S sent} b : inw 8 b ->
  prints sent (Output_print_IntFormat (hex_byte_fmt b)) (hex_of [b]).
Proof.
  intros Hb. pose proof hex_texts as Hall. rewrite forallb_forall in Hall.
  specialize (Hall b ltac:(apply list_elem_of_In, elem_of_seqZ; unfold inw in *; lia)).
  apply andb_true_iff in Hall as [E%bool_decide_eq_true Hl%Z.leb_le]. rewrite <- E. unfold hex_text.
  destruct (IntFormat_pads (hex_byte_fmt b) (zlen (if_text (hex_byte_fmt b)))) as [l r] eqn:Ep.
  apply (prints_IntFormat sent _ l r); [|exact Ep]. split; [cbn; lia|cbn; lia|cbn; unfold inw in *; lia|exact Hl].
Qed.

Lemma rfc_md5_bytes l : bytes (rfc_md5 l).
Proof. unfold rfc_md5. rewrite !Forall_app. split_and!; apply le_bytes_bytes. Qed.

Lemma prints_hex {S} (sent : S -> list Z -> Prop) `{ReliableOut S sent} l : bytes l -> forall (k : IO (Output S) unit) w, prints sent k w ->
  prints sent (foldl (fun k b => k ;; Output_print_IntFormat (hex_byte_fmt b)) k l) (w ++ hex_of l).
Proof.
  induction 1 as [|b l Hb _ IH]; intros k w Hk; [by rewrite app_nil_r|]. cbn [foldl].
  replace (w ++ hex_of (b :: l)) with ((w ++ hex_of [b]) ++ hex_of l).
  - apply IH. apply (prints_bind sent); [done|]. intros _. by apply prints_hex_byte.
  - unfold hex_of. cbn [fmap list_fmap concat]. by rewrite app_nil_r, <- !app_assoc.
Qed.

(** [C9] [MD5] computes the digest of RFC 1321 of the concatenation of what is put, by
    blocks and from streams that do not fail, in the following limits: an object stands
    for its data; a block is added to them if its length and the number of bytes waiting,
    modulo 64, are together at most the 1024 bytes of the buffer; a stream is added whole,
    however it cuts its data, if fewer than 1024 bytes are waiting, and fewer than 64 are
    waiting after it; the digest and the text printed are those of the data if fewer than
    64 bytes are waiting and the data are less than 512 MB. *)
Theorem MD5_is_rfc1321 :
  md5_holds MD5_make [] /\
  forall m data, md5_holds m data ->
    (forall b, bytes b -> md_size m mod 64 + zlen b <= MD5_BUFFER ->
       exists m', MD5_put 1 m b = Ret m' /\ md5_holds m' (data ++ b)) /\
    (forall S (pending : S -> list Z -> Prop) `{ReliableIn S pending} s l, md_size m < MD5_BUFFER -> pending s l -> bytes l ->
       exists m' s', MD5_put_stream (length l + 2) (m, s) = Ret (Val tt, (m', s')) /\ pending s' [] /\
         md5_holds m' (data ++ l) /\ md_size m' < 64) /\
    (md_size m < 64 -> zlen data < 2 ^ 29 ->
       (exists m', MD5_get_digest m = Ret (rfc_md5 data, m')) /\
       forall S (sent : S -> list Z -> Prop) `{ReliableOut S sent}, prints sent (MD5_print m) (hex_of (rfc_md5 data))).
Proof.
  split; [by exists 0%nat, [], []|]. intros m data (k & done & rest & -> & W). rewrite (ms_size _ _ _ _ W). split_and!.
  - intros b Hb Hfit. destruct (MD5_put_ok m k done rest b W Hb Hfit) as (m' & k' & done' & rest' & E & W' & Ed).
    exists m'. split; [done|]. exists k', done', rest'. by rewrite <- app_assoc.
  - intros S pending I1 I2 s l Hlt Hp Hl.
    destruct (MD5_put_stream_ok pending (length l + 2) m k done rest s l W Hlt Hp Hl) as (m' & s' & k' & done' & rest' & E & Hp' & W' & Ed & Hl');
      [lia|].
    exists m', s'. split_and!; [done|done| |by rewrite (ms_size _ _ _ _ W')]. exists k', done', rest'. by rewrite <- app_assoc.
  - intros Hlt Hn. destruct (MD5_finalize_ok m k done rest W Hlt Hn) as (m' & E & Hf & Hd).
    assert (MD5_get_digest m = Ret (rfc_md5 (done ++ rest), m')) as Eg.
    { unfold MD5_get_digest. rewrite (ms_open _ _ _ _ W), E. mred. by rewrite Hd. }
    split; [by exists m'|]. intros S sent I1 I2 o l Ho. unfold MD5_print.
    erewrite io_bind_Val by (unfold lift; rewrite Eg; reflexivity). cbn [fst snd].
    destruct (prints_hex sent (rfc_md5 (done ++ rest)) (rfc_md5_bytes _) (mret tt) [] (prints_ret sent tt) o l Ho) as (u & o' & Ep & Ho').
    rewrite (io_bind_Val _ _ _ _ _ Ep). by exists m', o'.
Qed.

Lemma MD5_is_rfc1321_witness : exists m m' s', MD5_put 1 MD5_make (text "message ") = Ret m /\
  MD5_put_stream 8 (m, BlockInStream_make (text "digest")) = Ret (Val tt, (m', s')) /\
  fst <$> MD5_get_digest m' = Ret (rfc_md5 (text "message digest")) /\
  hex_of (rfc_md5 (text "message digest")) = text "f96b697d7cb7938d525a2f31aaf161d0".
Proof.
  destruct MD5_is_rfc1321 as [H0 Hs].
  destruct (Hs _ _ H0) as (Hput & _ & _). destruct (Hput (text "message ")) as (m & E & Hm); [by_decide|by_decide|].
  destruct (Hs _ _ Hm) as (_ & Hstream & _).
  destruct (Hstream BlockInStream bis_small _ _ (BlockInStream_make (text "digest")) (text "digest")) as (m' & s' & E' & _ & Hm' & Hsz);
    [|by split|by_decide|].
  { vm_compute in E. injection E as <-. by_decide. }
  destruct (Hs _ _ Hm') as (_ & _ & Hd). destruct (Hd Hsz ltac:(by_decide)) as ((m2 & Ed) & _).
  exists m, m', s'. split; [exact E|]. split; [exact E'|]. split; [by rewrite Ed|]. vm_compute. reflexivity.
Defined.

(** ** Fletcher *)

(** The bytes of [half] are [None] until they are written. *)
(* src/include/elm/checksum/Fletcher.h:56-59 Fletcher *)
Record Fletcher := mkFl { fl_sum1 : Z; fl_sum2 : Z; fl_len : Z; fl_half : list (option Z); fl_size : Z }.
(* src/src/checksum_Fletcher.cpp:45-51 Fletcher::Fletcher *)
Definition Fletcher_make : Fletcher := mkFl 0xffff 0xffff 0 [None; None] 0.
(* src/src/checksum_Fletcher.cpp:56-60 Fletcher::shuffle *)
Definition Fletcher_shuffle (f : Fletcher) : Fletcher :=
  mkFl (u32 (Z.land (fl_sum1 f) 0xffff + Z.shiftr (fl_sum1 f) 16)) (u32 (Z.land (fl_sum2 f) 0xffff + Z.shiftr (fl_sum2 f) 16))
    0 (fl_half f) (fl_size f).
(** A byte that was written. *)
Definition half_byte (f : Fletcher) (i : Z) : outcome Z :=
  b ← rd (fl_half f) i; match b with Some b => Ret b | None => Crash Undefined end.
(** The word is read as the machine stores it, the least significant byte first. *)
(* src/src/checksum_Fletcher.cpp:65-71 Fletcher::add *)
Definition Fletcher_add (f : Fletcher) : outcome Fletcher :=
  b0 ← half_byte f 0; b1 ← half_byte f 1;
  let sum1 := u32 (fl_sum1 f + (b0 + 256 * b1)) in
  let f := mkFl sum1 (u32 (fl_sum2 f + sum1)) (u32 (fl_len f + 2)) (fl_half f) (fl_size f) in
  Ret (if fl_len f =? 360 then Fletcher_shuffle f else f).

Section FletcherStream.
Context {S : Type} `{InStream S}.

(* src/src/checksum_Fletcher.cpp:80-87 Fletcher::put *)
Definition Fletcher_fill_turn (_ : unit) : IO (Fletcher * S) (unit + unit) :=
  st ← get_st;
  let '(f, s) := st in
  if fl_size f <? 2 then
    '(result, b, s) ← lift (in_read s (2 - fl_size f));
    if result <? 0 then put_st (f, s) ;; throw
    else
      half ← lift (memcpy (fl_half f) (fl_size f) (Some <$> b) result);
      put_st (mkFl (fl_sum1 f) (fl_sum2 f) (fl_len f) half (u16 (fl_size f + result)), s) ;;
      mret (if result =? 0 then inr tt else inl tt)
  else mret (inr tt).
Definition Fletcher_fill : IO (Fletcher * S) unit := io_iter 3 Fletcher_fill_turn tt.
(* src/src/checksum_Fletcher.cpp:78-93 Fletcher::put *)
Definition Fletcher_put_stream (fuel : nat) : IO (Fletcher * S) unit :=
  io_iter fuel (fun _ : unit =>
    Fletcher_fill ;;
    st ← get_st;
    let '(f, s) := st in
    if fl_size f =? 0 then mret (inr tt)
    else
      f ← lift (Fletcher_add (mkFl (fl_sum1 f) (fl_sum2 f) (fl_len f) (fl_half f) 0));
      put_st (f, s) ;; mret (inl tt)) tt.
End FletcherStream.

(* src/src/checksum_Fletcher.cpp:115-118 Fletcher::put *)
Definition Fletcher_put (f : Fletcher) (block : list Z) : outcome (result unit * Fletcher) :=
  r ← Fletcher_put_stream (2 + length block) (f, BlockInStream_make block); Ret (r.1, r.2.1).
(* src/src/checksum_Fletcher.cpp:142-145 Fletcher::write *)
Definition Fletcher_write (f : Fletcher) (b : list Z) : outcome (result Z * Fletcher) :=
  r ← Fletcher_put f b; Ret (match r.1 with Val _ => Val (zlen b) | Throw => Throw end, r.2).
(* src/src/checksum_Fletcher.cpp:100-107 Fletcher::sum *)
Definition Fletcher_sum (f : Fletcher) : outcome (Z * Fletcher) :=
  f ← (if fl_size f =? 1 then
         half ← wr (fl_half f) 1 (Some 0);
         Fletcher_add (mkFl (fl_sum1 f) (fl_sum2 f) (fl_len f) half (fl_size f))
       else Ret f);
  let f := Fletcher_shuffle f in
  Ret (Z.lor (u32 (Z.shiftl (fl_sum2 f) 16)) (fl_sum1 f), f).

(** *** The sums modulo 65535 *)

(** The words of the data, an odd last byte being completed by 0. *)
Fixpoint words16 (l : list Z) : list Z :=
  match l with a :: b :: l => (a + 256 * b) :: words16 l | [a] => [a] | [] => [] end.
Definition fletcher_sums (ws : list Z) : Z * Z :=
  foldl (fun s w => (s.1 + w, s.2 + (s.1 + w))) (0, 0) ws.

(** [f] has the sums of [ws], with a margin for the words added since the last reduction. *)
Record fl_ok (f : Fletcher) (ws : list Z) : Prop := {
  fo_sum1 : fl_sum1 f mod 65535 = (fletcher_sums ws).1 mod 65535;
  fo_sum2 : fl_sum2 f mod 65535 = (fletcher_sums ws).2 mod 65535;
  fo_len : 0 <= fl_len f < 360 /\ fl_len f mod 2 = 0;
  fo_bound1 : 0 < fl_sum1 f <= 2 ^ 17 + fl_len f * 2 ^ 15;
  fo_bound2 : 0 < fl_sum2 f <= 2 ^ 17 + fl_len f * 2 ^ 23;
  fo_half : length (fl_half f) = 2%nat;
  fo_size : fl_size f = 0 }.

Lemma fletcher_sums_snoc ws w : fletcher_sums (ws ++ [w]) = ((fletcher_sums ws).1 + w, (fletcher_sums ws).2 + ((fletcher_sums ws).1 + w)).
Proof. unfold fletcher_sums. by rewrite foldl_app. Qed.

Lemma reduce_ok x : 0 < x < 2 ^ 32 ->
  0 < u32 (Z.land x 0xffff + Z.shiftr x 16) <= 2 ^ 17 /\ u32 (Z.land x 0xffff + Z.shiftr x 16) mod 65535 = x mod 65535.
Proof.
  intros Hx. change 0xffff with (Z.ones 16). rewrite Z.land_ones, Z.shiftr_div_pow2 by lia. change (2 ^ 16) with 65536.
  change (2 ^ 32) with 4294967296 in Hx. change (2 ^ 17) with 131072.
  rewrite wrap_small by (unfold inw; change (2 ^ 32) with 4294967296; Z.to_euclidean_division_equations; lia).
  split; [Z.to_euclidean_division_equations; lia|].
  rewrite (Z.div_mod x 65536) at 3 by lia. replace (65536 * (x / 65536) + x mod 65536) with (x mod 65536 + x / 65536 + x / 65536 * 65535) by lia.
  by rewrite Z.mod_add.
Qed.

Lemma Fletcher_shuffle_ok f ws : fl_sum1 f mod 65535 = (fletcher_sums ws).1 mod 65535 ->
  fl_sum2 f mod 65535 = (fletcher_sums ws).2 mod 65535 -> 0 < fl_sum1 f < 2 ^ 32 -> 0 < fl_sum2 f < 2 ^ 32 ->
  length (fl_half f) = 2%nat -> fl_size f = 0 -> fl_ok (Fletcher_shuffle f) ws.
Proof.
  intros H1 H2 B1 B2 Hh Hs. destruct (reduce_ok _ B1) as [C1 E1], (reduce_ok _ B2) as [C2 E2].
  split; cbn [fl_sum1 fl_sum2 fl_len fl_half fl_size Fletcher_shuffle]; [congruence|congruence|by split|lia|lia|done|done].
Qed.

Lemma half_bytes f b0 b1 : fl_half f = [Some b0; Some b1] -> half_byte f 0 = Ret b0 /\ half_byte f 1 = Ret b1.
Proof. intros E. unfold half_byte. by rewrite E. Qed.
Lemma Fletcher_add_ok f ws b0 b1 : fl_ok f ws -> fl_half f = [Some b0; Some b1] -> inw 8 b0 -> inw 8 b1 ->
  exists f', Fletcher_add f = Ret f' /\ fl_ok f' (ws ++ [b0 + 256 * b1]).
Proof.
  intros [E1 E2 [Hl Hm] B1 B2 Hh Hs] Eh Hb0 Hb1. unfold Fletcher_add. destruct (half_bytes f b0 b1 Eh) as [-> ->]. mred. unfold inw in *. change (2 ^ 8) with 256 in *.
  assert (fl_len f <= 358) as Hlen by (Z.to_euclidean_division_equations; lia).
  change (2 ^ 23) with 8388608 in *. change (2 ^ 17) with 131072 in *. change (2 ^ 15) with 32768 in *.
  set (w := b0 + 256 * b1) in *. assert (0 <= w <= 65535) as Hw by (subst w; lia).
  rewrite (wrap_small 32 (fl_sum1 f + w)) by (unfold inw; lia).
  rewrite (wrap_small 32 (fl_sum2 f + _)), (wrap_small 32 (fl_len f + 2)) by (unfold inw; lia).
  assert ((fl_sum1 f + w) mod 65535 = ((fletcher_sums ws).1 + w) mod 65535) as F1.
  { rewrite Z.add_mod, E1, <- Z.add_mod by done. done. }
  assert ((fl_sum2 f + (fl_sum1 f + w)) mod 65535 = ((fletcher_sums ws).2 + ((fletcher_sums ws).1 + w)) mod 65535) as F2.
  { rewrite Z.add_mod, E2, F1, <- Z.add_mod by done. done. }
  eexists. split; [reflexivity|]. cbn [fl_len]. destruct (Z.eqb_spec (fl_len f + 2) 360) as [El|El].
  - apply Fletcher_shuffle_ok; cbn [fl_sum1 fl_sum2 fl_len fl_half fl_size]; rewrite ?fletcher_sums_snoc; cbn [fst snd]; (done || lia).
  - split; cbn [fl_sum1 fl_sum2 fl_len fl_half fl_size]; change (2 ^ 23) with 8388608; change (2 ^ 17) with 131072;
      change (2 ^ 15) with 32768; rewrite ?fletcher_sums_snoc; cbn [fst snd]; try done; try lia.
    split; [Z.to_euclidean_division_equations; lia|]. rewrite Z.add_mod, Hm by lia. done.
Qed.

Section FletcherProofs.
Context {S : Type} (pending : S -> list Z -> Prop) `{ReliableIn S pending}.
Implicit Types f : Fletcher.

Lemma fill_turn_ok f s l : 0 <= fl_size f < 2 -> length (fl_half f) = 2%nat -> pending s l ->
  exists (r : nat) s', Fletcher_fill_turn tt (f, s) = Ret (Val (if decide (r = 0)%nat then inr tt else inl tt),
      (mkFl (fl_sum1 f) (fl_sum2 f) (fl_len f) (take (Z.to_nat (fl_size f)) (fl_half f) ++ (Some <$> take r l) ++
         drop (Z.to_nat (fl_size f) + r) (fl_half f)) (fl_size f + Z.of_nat r), s')) /\
    (r <= length l)%nat /\ (l = [] \/ (0 < r)%nat) /\ fl_size f + Z.of_nat r <= 2 /\ pending s' (drop r l).
Proof.
  intros Hs Hh Hp. destruct (read_law s l (2 - fl_size f) Hp) as (r & s' & Hr & Hne & Hr2 & E & Hp');
    [unfold MAX_REQUEST; lia|].
  exists r, s'. split; [|split_and!; (done || lia)]. unfold Fletcher_fill_turn. erewrite io_bind_Val by reflexivity. cbv beta iota zeta.
  rewrite (proj2 (Z.ltb_lt _ _)), E, io_lift_Ret by lia. rewrite (proj2 (Z.ltb_ge _ 0)) by lia.
  rewrite memcpy_ok, io_lift_Ret by (rewrite ?length_fmap, ?length_take; lia).
  erewrite io_bind_Val by reflexivity. rewrite wrap_small by (unfold inw; lia).
  rewrite Nat2Z.id, Z2Nat.inj_add, Nat2Z.id, <- fmap_take, take_take, Nat.min_id by lia.
  destruct (Z.eqb_spec (Z.of_nat r) 0), (decide (r = 0%nat)); (done || lia).
Qed.
Lemma fill_turn_full f s : fl_size f = 2 -> Fletcher_fill_turn tt (f, s) = Ret (Val (inr tt), (f, s)).
Proof. intros E. unfold Fletcher_fill_turn. erewrite io_bind_Val by reflexivity. cbv beta iota zeta. by rewrite E. Qed.

(** Two bytes are read, at once or one after the other. *)
Lemma Fletcher_fill_ok f s a b l : fl_size f = 0 -> length (fl_half f) = 2%nat -> pending s (a :: b :: l) ->
  exists s', Fletcher_fill (f, s) = Ret (Val tt, (mkFl (fl_sum1 f) (fl_sum2 f) (fl_len f) [Some a; Some b] 2, s')) /\ pending s' l.
Proof.
  destruct f as [s1 s2 n half size]. cbn [fl_size fl_half fl_sum1 fl_sum2 fl_len]. intros -> Hh Hp.
  destruct half as [|h0 [|h1 [|]]]; try done. unfold Fletcher_fill.
  destruct (fill_turn_ok (mkFl s1 s2 n [h0; h1] 0) s _ ltac:(cbn; lia) ltac:(done) Hp) as (r & s1' & E & Hr & [?|Hr0] & Hr2 & Hp'); [done|].
  cbn [fl_size fl_half fl_sum1 fl_sum2 fl_len] in *. destruct r as [|[|[|r]]]; [lia| | |lia].
  - cbn in E. erewrite io_iter_inl by exact E. cbn [drop] in Hp'.
    destruct (fill_turn_ok (mkFl s1 s2 n [Some a; h1] 1) s1' _ ltac:(cbn; lia) ltac:(done) Hp') as (r & s2' & E' & Hr' & [?|Hr0'] & Hr2' & Hp''); [done|].
    cbn [fl_size fl_half fl_sum1 fl_sum2 fl_len] in *. destruct r as [|[|r]]; [lia| |lia]. cbn in E'.
    erewrite io_iter_inl by exact E'. erewrite io_iter_inr by (by apply fill_turn_full). by exists s2'.
  - cbn in E. erewrite io_iter_inl by exact E. erewrite io_iter_inr by (by apply fill_turn_full). by exists s1'.
Qed.
Lemma Fletcher_fill_end f s : fl_size f = 0 -> length (fl_half f) = 2%nat -> pending s [] ->
  exists s', Fletcher_fill (f, s) = Ret (Val tt, (f, s')) /\ pending s' [].
Proof.
  intros Hs Hh Hp. destruct (fill_turn_ok f s [] ltac:(lia) Hh Hp) as (r & s' & E & Hr & _ & _ & Hp').
  cbn in Hr. assert (r = 0%nat) as -> by lia. exists s'. split; [|done]. unfold Fletcher_fill. erewrite io_iter_inr by exact E.
  destruct f as [s1 s2 n half size]. cbn in *. subst size. by rewrite Z.add_0_r.
Qed.

Lemma Fletcher_put_stream_ok fuel : forall f ws s l, fl_ok f ws -> pending s l -> bytes l -> Nat.Even (length l) -> (length l < fuel)%nat ->
  exists f' s', Fletcher_put_stream fuel (f, s) = Ret (Val tt, (f', s')) /\ pending s' [] /\ fl_ok f' (ws ++ words16 l).
Proof.
  induction fuel as [|fuel IH]; intros f ws s l Hf Hp Hl He Hfuel; [lia|]. pose proof (fo_size _ _ Hf) as Hs. pose proof (fo_half _ _ Hf) as Hh.
  unfold Fletcher_put_stream. destruct l as [|a [|b l]].
  - destruct (Fletcher_fill_end f s Hs Hh Hp) as (s' & E & Hp'). exists f, s'. split; [|split; [done|by rewrite app_nil_r]].
    apply io_iter_inr. rewrite (io_bind_Val _ _ _ _ _ E). erewrite io_bind_Val by reflexivity. cbv beta iota zeta. by rewrite Hs.
  - destruct He as [k Hk]. cbn in Hk. lia.
  - apply Forall_cons in Hl as [Ha [Hb Hl]%Forall_cons]. destruct (Fletcher_fill_ok f s a b l Hs Hh Hp) as (s' & E & Hp').
    destruct (Fletcher_add_ok (mkFl (fl_sum1 f) (fl_sum2 f) (fl_len f) [Some a; Some b] 0) ws a b) as (f1 & E1 & Hf1); [|done|done|done|].
    { destruct Hf as [? ? ? ? ? ? ?]. by split. }
    destruct (IH f1 (ws ++ [a + 256 * b]) s' l Hf1 Hp' Hl) as (f' & s2 & E' & Hp2 & Hf').
    { destruct He as [k Hk]. exists (k - 1)%nat. cbn in Hk. lia. }
    { cbn in Hfuel. lia. }
    exists f', s2. split; [|split; [done|]]; [|cbn [words16]; by rewrite <- app_assoc in Hf'].
    erewrite io_iter_inl; [exact E'|]. rewrite (io_bind_Val _ _ _ _ _ E). erewrite io_bind_Val by reflexivity. cbv beta iota zeta. cbn [fl_size fl_sum1 fl_sum2 fl_len fl_half].
    change (2 =? 0) with false. cbv iota. rewrite E1, io_lift_Ret. by erewrite io_bind_Val by reflexivity.
Qed.
End FletcherProofs.

(** Fletcher's checksum of 32 bits: the two sums modulo 65535, of which 65535 stands for 0. *)
Definition residue (x : Z) : Z := (x - 1) mod 65535 + 1.
Definition fletcher32 (ws : list Z) : Z := residue (fletcher_sums ws).2 * 2 ^ 16 + residue (fletcher_sums ws).1.

Lemma residue_ok x y : x mod 65535 = y mod 65535 -> 0 < x < 2 ^ 16 -> x = residue y.
Proof. unfold residue. change (2 ^ 16) with 65536. intros E Hx. Z.to_euclidean_division_equations. lia. Qed.
Lemma join_sums a b : 0 < a < 2 ^ 16 -> 0 < b < 2 ^ 16 -> Z.lor (u32 (Z.shiftl b 16)) a = b * 2 ^ 16 + a.
Proof.
  intros Ha Hb. rewrite wrap_small.
  - rewrite Z.lor_comm, lor_shifted by lia. lia.
  - rewrite Z.shiftl_mul_pow2 by lia. unfold inw. change (2 ^ 16) with 65536 in *. change (2 ^ 32) with 4294967296. lia.
Qed.

(** [C39] [Fletcher] computes Fletcher's checksum of 32 bits: from a new object, any number
    of streams of even lengths, whatever the pieces in which they give their data, are
    summed as their concatenation, without overflow of the 32-bit sums. The sums reduced
    once by [sum()] are those of Fletcher modulo 65535; when both fit in 16 bits, as the
    code supposes, the result is the checksum of the words. *)
Theorem Fletcher_sums_modulo {S} (pending : S -> list Z -> Prop) `{ReliableIn S pending} f ws s l :
  fl_ok f ws -> pending s l -> bytes l -> Nat.Even (length l) ->
  fl_ok Fletcher_make [] /\
  exists f' s', Fletcher_put_stream (1 + length l) (f, s) = Ret (Val tt, (f', s')) /\ pending s' [] /\ fl_ok f' (ws ++ words16 l) /\
    exists r f2, Fletcher_sum f' = Ret (r, f2) /\ fl_ok f2 (ws ++ words16 l) /\
      (fl_sum1 f2 < 2 ^ 16 -> fl_sum2 f2 < 2 ^ 16 -> r = fletcher32 (ws ++ words16 l)).
Proof.
  intros Hf Hp Hl He. split.
  { split; cbn; try done; lia. }
  destruct (Fletcher_put_stream_ok pending (1 + length l) f ws s l Hf Hp Hl He ltac:(lia)) as (f' & s' & E & Hp' & Hf').
  exists f', s'. split_and!; [done|done|done|]. pose proof Hf' as [E1 E2 [Hn Hm] B1 B2 Hh Hs]. unfold Fletcher_sum. rewrite Hs. mred.
  change (2 ^ 23) with 8388608 in B2. change (2 ^ 17) with 131072 in *. change (2 ^ 15) with 32768 in B1.
  pose proof (Fletcher_shuffle_ok f' _ E1 E2 ltac:(lia) ltac:(lia) Hh Hs) as Hf2. eexists _, (Fletcher_shuffle f'). split; [done|].
  split; [done|]. intros L1 L2. destruct Hf2 as [F1 F2 _ C1 C2 _ _]. rewrite join_sums by lia. unfold fletcher32.
  by rewrite <- (residue_ok _ _ F1), <- (residue_ok _ _ F2) by lia.
Qed.

Lemma Fletcher_sums_modulo_witness : exists f s f2, Fletcher_put_stream 5 (Fletcher_make, BlockInStream_make (text "abcd")) = Ret (Val tt, (f, s)) /\
  Fletcher_sum f = Ret (0x2926c6c4, f2) /\ fletcher32 (words16 (text "abcd")) = 0x2926c6c4.
Proof.
  assert (fl_ok Fletcher_make []) as Hf by (split; cbn; try done; lia).
  destruct (Fletcher_sums_modulo bis_small Fletcher_make [] (BlockInStream_make (text "abcd")) (text "abcd") Hf)
    as (_ & f & s & E & _ & _ & r & f2 & E2 & _ & Hr).
  - by split.
  - by_decide.
  - by exists 2%nat.
  - exists f, s, f2. split; [exact E|]. vm_compute in E. injection E as <- <-. pose proof E2 as E3. vm_compute in E3. injection E3 as <- <-.
    split; [exact E2|]. symmetry. by apply Hr.
Defined.

(** *** What goes wrong *)

(** A block that does not fit in the buffer, after what is not processed yet, loops. *)
Example MD5_put_large : forall fuel, (fuel <= 20)%nat -> MD5_put fuel MD5_make (replicate 1025 0) = Crash OutOfFuel.
Proof. intros fuel Hf. do 21 (destruct fuel as [|fuel]; [vm_compute; reflexivity|]). lia. Qed.

(** More than a block in the buffer at the end is copied out of the local buffer; a
    complete block loses its padding. *)
Example MD5_65_bytes : (m ← MD5_put 1 MD5_make (replicate 65 0); MD5_get_digest m) = Crash OutOfBounds.
Proof. vm_compute. reflexivity. Qed.
Example MD5_64_bytes : (m ← MD5_put 1 MD5_make (replicate 64 0); d ← MD5_get_digest m; Ret (bool_decide (d.1 = rfc_md5 (replicate 64 0)))) = Ret false.
Proof. vm_compute. reflexivity. Qed.

(** When the buffer is full, a stream is taken for an empty one. *)
Example MD5_full_buffer : (m ← MD5_put 1 MD5_make (replicate 1024 0);
    r ← MD5_put_stream 9 (m, mkBIS (text "abc") 0); Ret (r.1, md_size r.2.1, r.2.2)) = Ret (Val tt, 0, mkBIS (text "abc") 0).
Proof. vm_compute. reflexivity. Qed.

(** A stream with a length is read once only when it gives data, and without end when it
    is too short. *)
Example MD5_stream_length : let s := mkBIS (text "abc") 0 in
  (r ← MD5_put_stream_length 9 2000 (MD5_make, s); Ret (r.1, md_size r.2.1)) = Ret (Val tt, 3) /\
  forall fuel, (fuel <= 20)%nat -> MD5_put_stream_length fuel 2000 (MD5_make, mkBIS [] 0) = Crash OutOfFuel.
Proof.
  split; [vm_compute; reflexivity|]. intros fuel Hf. do 21 (destruct fuel as [|fuel]; [vm_compute; reflexivity|]). lia.
Qed.

(** An odd last byte is completed by the byte before it, and not by 0. *)
Example Fletcher_odd : (fun t => r ← Fletcher_put Fletcher_make t; s ← Fletcher_sum r.2; Ret s.1) <$> [text "abc"; text "abcb"] =
  (let r := Ret 0x2726c4c4 in [r; r]).
Proof. vm_compute. reflexivity. Qed.

(** One reduction at the end is not enough: both sums may keep 17 bits, so that the low one
    is mixed with the high one, whose own top bit is lost. *)
Example Fletcher_overlap :
  (r ← Fletcher_put Fletcher_make (replicate 4 255 ++ [1; 0]); s ← Fletcher_sum r.2; Ret (fl_sum1 s.2, fl_sum2 s.2, s.1)) =
  Ret (0x10000, 0x10000, 0x10000).
Proof. vm_compute. reflexivity. Qed.
