(* ===== verification/Ini.v ===== *)
(** * Ini files ([src/ini.cpp], [include/elm/ini.h])

    A file is a set of named sections, each a map from keys to values, read from a
    stream line by line. Lines may be continued after a backslash. The sections are objects
    of a heap, since a name declared again designates a new section while the
    default section stays the first one. *)

From stdpp Require Import list.
From S2P Require Import Prelude Compare TextOps Lists Streams Input Output.
#[local] Open Scope Z_scope.

(** ** Sections *)

(* src/include/elm/ini.h:61-63 Section *)
Record ini_section := mkSect { se_name : str; se_values : list (str * str) }.

(* src/include/elm/ini.h:43-44 Section::get *)
Definition Section_get (s : ini_section) (key : str) : str := ListMap_get_default (se_values s) key [].
(* src/include/elm/ini.h:45-45 Section::isDefined *)
Definition Section_isDefined (s : ini_section) (key : str) : bool := ListMap_hasKey (se_values s) key.
(* src/src/ini.cpp:130-135 Section::get *)
Definition Section_get_default (s : ini_section) (key def : str) : str :=
  if ListMap_hasKey (se_values s) key then Section_get s key else def.
(** The value is scanned as an input on the text. *)
(* src/src/ini.cpp:92-103 Section::getInt *)
Definition Section_getInt (s : ini_section) (key : str) (def : Z) : outcome (result Z) :=
  let v := Section_get s key in
  if decide (v = []) then Ret (Val def) else
  r ← Input_scanLong (2 + length v) 0 (Input_make (BlockInStream_make v));
  Ret (match r.1 with Val n => Val (if Input_flag ENDED r.2 then n else def) | Throw => Throw end).
(* src/src/ini.cpp:113-120 Section::getList *)
Definition getList_turn (st : list str * str) : outcome (list str * str + list str) :=
  let '(list, buf) := st in
  p ← index_of (ch ";") buf 0;
  if 0 <=? p then
    x ← substring buf 0 p; buf ← substring_from buf (p + 1); Ret (inl (list ++ [x], buf))
  else Ret (inr (match buf with [] => list | _ => list ++ [buf] end)).
(* src/src/ini.cpp:111-121 Section::getList *)
Definition Section_getList (s : ini_section) (key : str) (list : list str) : outcome (Datatypes.list str) :=
  let buf := Section_get s key in iter (1 + length buf) getList_turn (list, buf).

(** ** Files *)

(** [fi_heap] holds the sections that were created: pointers are positions in it. *)
(* src/include/elm/ini.h:87-89 File *)
Record ini_file := mkFile { fi_heap : list ini_section; fi_def : nat; fi_sects : list (str * nat) }.

(* src/src/ini.cpp:149-152 File::File *)
Definition File_make : ini_file := mkFile [mkSect [] []] 0 (ListMap_put [] [] 0%nat).
(* src/include/elm/ini.h:74-74 File::defaultSection *)
Definition File_defaultSection (f : ini_file) : nat := fi_def f.
(* src/include/elm/ini.h:75-76 File::get *)
Definition File_get (f : ini_file) (name : str) : option nat := ListMap_get (fi_sects f) name.
(** [new Section(name)], recorded under its name. *)
(* src/src/ini.cpp:231-232 File::load *)
Definition File_new_section (f : ini_file) (name : str) : nat * ini_file :=
  let p := length (fi_heap f) in
  (p, mkFile (fi_heap f ++ [mkSect name []]) (fi_def f) (ListMap_put (fi_sects f) name p)).
(* src/src/ini.cpp:239-239 File::load *)
Definition File_put (f : ini_file) (sect : nat) (key value : str) : ini_file :=
  mkFile (alter (fun s => mkSect (se_name s) (ListMap_put (se_values s) key value)) sect (fi_heap f)) (fi_def f) (fi_sects f).

(** What [load] returns or throws: the messages of its exceptions start with a number of line. *)
(* src/src/ini.cpp:189-252 File::load *)
Inductive load_result :=
  | Loaded (f : ini_file)
  | MalformedSection (num : Z)
  | GarbageHere (num : Z)
  | IOFailed.

Section Load.
Context {S : Type} `{InStream S} (fuel : nat).
(** [charAt] does not check its index: what [line[-1]] reads in front of an empty text. *)
Variable (front : outcome Z).
Abbreviation InM := (IO (Input (BufferedInStream S))).

(* src/include/elm/string/String.h:94-95 String::charAt *)
Definition last_char (line : str) : outcome Z :=
  if decide (line = []) then front else rd line (zlen line - 1).
(* src/src/ini.cpp:210-211 File::load *)
Definition strip_eol (line : str) : outcome str :=
  iter (1 + length line) (fun line =>
    c ← last_char line;
    if (c =? 10) || (c =? 13) then line ← substring line 0 (zlen line - 1); Ret (inl line) else Ret (inr line)) line.

(** A logical line: [None] at the end of the stream. *)
(* src/src/ini.cpp:203-215 File::load *)
Definition line_turn (st : str * Z) : InM (str * Z + option str * Z) :=
  l ← Input_scanLine fuel;
  let line := st.1 ++ l in
  let num := st.2 + 1 in
  if decide (line = []) then mret (inr (None, num)) else
  line ← lift (strip_eol line);
  c ← lift (last_char line);
  if c =? ch "\" then line ← lift (substring line 0 (zlen line - 1)); mret (inl (line, num))
  else mret (inr (Some line, num)).
(* src/src/ini.cpp:201-215 File::load *)
Definition read_line (num : Z) : InM (option str * Z) := io_iter fuel line_turn ([], num).

(** What is done of a logical line. *)
(* src/src/ini.cpp:216-244 File::load *)
Definition load_turn (st : ini_file * nat * Z) : InM (ini_file * nat * Z + load_result) :=
  let '(file, sect, num) := st in
  r ← read_line num;
  let num := r.2 in
  match r.1 with
  | None => mret (inr (Loaded file))
  | Some [] => mret (inl (file, sect, num))
  | Some ((c :: _) as line) =>
      if c =? ch ";" then mret (inl (file, sect, num))
      else if c =? ch "[" then
        last ← lift (rd line (zlen line - 1));
        if negb (last =? ch "]") then mret (inr (MalformedSection num))
        else
          name ← lift (substring line 1 (zlen line - 2));
          let '(sect, file) := File_new_section file name in mret (inl (file, sect, num))
      else
        p ← lift (index_of (ch "=") line 0);
        if 0 <=? p then
          key ← lift (substring line 0 p); value ← lift (substring_from line (p + 1));
          mret (inl (File_put file sect key value, sect, num))
        else mret (inr (GarbageHere num))
  end.
(** An exception of the stream is turned into an exception of the module. *)
(* src/src/ini.cpp:189-252 File::load *)
Definition File_load (in_ : S) : outcome load_result :=
  bufin ← BufferedInStream_make in_ 4096;
  r ← io_iter fuel load_turn (File_make, File_defaultSection File_make, 1) (Input_make bufin);
  Ret (match r.1 with Val r => r | Throw => IOFailed end).
End Load.

Definition load_text (t : str) : outcome load_result := File_load (2 + length t) (Ret 0) (BlockInStream_make t).

Example load_demo : load_text (text "a=1
; comment
[s]
b=2;\
3
c=4=5
") = Ret (Loaded (mkFile [mkSect [] [(text "a", text "1")]; mkSect (text "s") [(text "b", text "2;3"); (text "c", text "4=5")]] 0
       [([], 0%nat); (text "s", 1%nat)])).
Proof. vm_compute. reflexivity. Qed.

(** ** The format

    A logical line is written on one physical line or more: the list of the parts, with
    the number of carriage returns before the end of each physical line. *)

Fixpoint physical (ps : list (str * nat)) : str :=
  match ps with
  | [] => []
  | [(p, k)] => p ++ replicate k 13 ++ [10]
  | (p, k) :: ps => p ++ ch "\" :: (replicate k 13 ++ 10 :: physical ps)
  end.
Definition logical (ps : list (str * nat)) : str := concat ps.*1.

(** What a logical line says. *)
Inductive item := Skip | NewSection (name : str) | Pair (key value : str) | BadSection | Garbage.
Inductive says : str -> item -> Prop :=
  | SaysBlank : says [] Skip
  | SaysComment s : says (ch ";" :: s) Skip
  | SaysSection name : says (ch "[" :: name ++ [ch "]"]) (NewSection name)
  | SaysBadSection s : last (ch "[" :: s) <> Some (ch "]") -> says (ch "[" :: s) BadSection
  | SaysPair key value : head (key ++ [ch "="]) <> Some (ch ";") -> head (key ++ [ch "="]) <> Some (ch "[") -> ch "=" ∉ key ->
      says (key ++ ch "=" :: value) (Pair key value)
  | SaysGarbage c s : c <> ch ";" -> c <> ch "[" -> ch "=" ∉ c :: s -> says (c :: s) Garbage.

(** Every line says something. *)
Lemma says_total s : exists i, says s i.
Proof.
  destruct s as [|c s]; [eexists; constructor|]. destruct (decide (c = ch ";")) as [->|]; [eexists; constructor|].
  destruct (decide (c = ch "[")) as [->|].
  - destruct (decide (last (ch "[" :: s) = Some (ch "]"))) as [Hl|]; [|eexists; by constructor].
    destruct s as [|c s _] using rev_ind; [done|]. rewrite app_comm_cons, last_snoc in Hl. simplify_eq. eexists. constructor.
  - destruct (decide (ch "=" ∈ c :: s)) as [Hin|]; [|eexists; by constructor].
    apply list_elem_of_split_l in Hin as (k & v & E & Hk). exists (Pair k v). rewrite E.
    destruct k as [|c' k]; cbn in E; injection E as -> ->; constructor; try done; cbn; congruence.
Qed.

(** ** Proofs *)

Lemma last_pair_cases {K V} (k : K) (v : V) l k0 v0 : (exists l1 l2, l ++ [(k0, v0)] = (l1 ++ (k, v) :: l2) /\ k ∉ l2.*1) <->
  k = k0 /\ v = v0 \/ k <> k0 /\ exists l1 l2, l = (l1 ++ (k, v) :: l2) /\ k ∉ l2.*1.
Proof.
  split.
  - intros (l1 & l2 & E & Hk). destruct l2 as [|p l2 _] using rev_ind.
    + apply app_inj_tail in E as [_ [= <- <-]]. by left.
    + rewrite app_comm_cons, app_assoc in E. apply app_inj_tail in E as [-> <-]. rewrite fmap_app, elem_of_app in Hk.
      right. split; [intros ->; apply Hk; right; by left|]. exists l1, l2. split; [done|tauto].
  - intros [[-> ->]|(Hn & l1 & l2 & -> & Hk)].
    + exists l, []. split; [done|apply not_elem_of_nil].
    + exists l1, (l2 ++ [(k0, v0)]). rewrite <- app_assoc. split; [done|]. rewrite fmap_app, elem_of_app. cbn. rewrite list_elem_of_singleton. tauto.
Qed.

(** *** One line *)

Lemma last_char_snoc front l c : last_char front (l ++ [c]) = Ret c.
Proof.
  unfold last_char. rewrite decide_False by (by destruct l). apply rd_ok; rewrite length_app; cbn; [lia|].
  rewrite lookup_app_r by lia. by replace (Z.to_nat _ - length l)%nat with 0%nat by lia.
Qed.
Lemma drop_last l c : substring (l ++ [c]) 0 (zlen (l ++ [c]) - 1) = Ret l.
Proof. replace (zlen (l ++ [c]) - 1) with (zlen l) by (rewrite length_app; cbn; lia). apply substring_start. Qed.

(** A text whose end is not taken for an end of line. *)
Definition ends_line (front : outcome Z) (l : str) : Prop :=
  exists c, last_char front l = Ret c /\ c <> 10 /\ c <> 13.
Lemma strip_loop_ok front es l fuel : Forall (fun e => e = 10 \/ e = 13) es -> ends_line front l -> (length es < fuel)%nat ->
  iter fuel (fun line => c ← last_char front line;
    if (c =? 10) || (c =? 13) then line ← substring line 0 (zlen line - 1); Ret (inl line) else Ret (inr line)) (l ++ es) = Ret l.
Proof.
  revert fuel. induction es as [|e es IH] using rev_ind; intros fuel He (c & Ec & H1 & H2) Hf; (destruct fuel as [|fuel]; [lia|]); cbn [iter].
  - rewrite app_nil_r, Ec. mred. by rewrite (proj2 (Z.eqb_neq c 10)), (proj2 (Z.eqb_neq c 13)) by done.
  - apply Forall_app in He as [He [He1 _]%Forall_cons]. rewrite length_app in Hf. cbn in Hf.
    rewrite app_assoc, last_char_snoc. mred. replace ((e =? 10) || (e =? 13)) with true by (destruct He1 as [-> | ->]; done).
    rewrite drop_last. mred. apply IH; [done|by exists c|lia].
Qed.
Lemma strip_eol_ok front l k : ends_line front l -> strip_eol front (l ++ replicate k 13 ++ [10]) = Ret l.
Proof.
  intros Hl. apply strip_loop_ok; [|done|rewrite !length_app; lia]. apply Forall_app. split; [|by repeat constructor; left].
  apply Forall_replicate. by right.
Qed.

Section LoadProofs.
Context {S : Type} (pending : S -> list Z -> Prop) `{ReliableIn S pending} (fuel : nat) (front : outcome Z).
Implicit Types i : Input (BufferedInStream S).
Abbreviation at_text := (input_at (bin_pending pending)).

Lemma line_turn_more i acc num p k rest st : at_text i (p ++ ch "\" :: (replicate k 13 ++ 10 :: rest)) st ->
  10 ∉ p -> (length p + k + 1 < fuel)%nat ->
  exists i', line_turn fuel front (acc, num) i = Ret (Val (inl (acc ++ p, num + 1)), i') /\ at_text i' rest st.
Proof.
  intros Hi Hp Hf. destruct (scanLine_ok (bin_pending pending) fuel i (p ++ ch "\" :: replicate k 13) rest st) as (i' & E & Hi').
  { by rewrite <- app_assoc. }
  { rewrite not_elem_of_app, not_elem_of_cons. split_and!; [done|done|]. by intros [? _]%elem_of_replicate. }
  { rewrite length_app. cbn. rewrite length_replicate. lia. }
  exists i'. split; [|done]. unfold line_turn. rewrite (io_bind_Val _ _ _ _ _ E). cbn [fst snd].
  rewrite decide_False. 2: { intros [_ E']%app_nil. by apply app_nil in E' as [_ ?]. }
  rewrite <- !app_assoc. cbn [app].
  replace (acc ++ p ++ ch "\" :: (replicate k 13 ++ [10])) with (((acc ++ p) ++ [ch "\"]) ++ replicate k 13 ++ [10]) by (by rewrite <- !app_assoc).
  rewrite strip_eol_ok, io_lift_Ret by (exists (ch "\"); rewrite last_char_snoc; done).
  rewrite last_char_snoc, io_lift_Ret, Z.eqb_refl, drop_last, io_lift_Ret. done.
Qed.
Lemma line_turn_last i acc num p k rest st c : at_text i (p ++ replicate k 13 ++ 10 :: rest) st ->
  10 ∉ p -> (length p + k + 1 < fuel)%nat -> last_char front (acc ++ p) = Ret c -> c <> 10 -> c <> 13 -> c <> ch "\" ->
  exists i', line_turn fuel front (acc, num) i = Ret (Val (inr (Some (acc ++ p), num + 1)), i') /\ at_text i' rest st.
Proof.
  intros Hi Hp Hf Ec H1 H2 H3. destruct (scanLine_ok (bin_pending pending) fuel i (p ++ replicate k 13) rest st) as (i' & E & Hi').
  { by rewrite <- app_assoc. }
  { rewrite not_elem_of_app. split; [done|]. by intros [? _]%elem_of_replicate. }
  { rewrite length_app, length_replicate. lia. }
  exists i'. split; [|done]. unfold line_turn. rewrite (io_bind_Val _ _ _ _ _ E). cbn [fst snd].
  rewrite decide_False. 2: { intros [_ E']%app_nil. by apply app_nil in E' as [_ ?]. }
  rewrite <- !app_assoc, app_assoc. rewrite strip_eol_ok, io_lift_Ret by (by exists c).
  rewrite Ec, io_lift_Ret, (proj2 (Z.eqb_neq c _)) by done. done.
Qed.

(** The parts fit in the fuel, and the end of the line is neither an end of line nor a backslash. *)
Definition ends_logical (l : str) : Prop := exists c, last_char front l = Ret c /\ c <> 10 /\ c <> 13 /\ c <> ch "\".
Definition part_ok (p : str * nat) : Prop := 10 ∉ p.1 /\ (length p.1 + p.2 + 1 < fuel)%nat.

Lemma read_parts_ok ps : forall n acc num i rest st, ps <> [] -> Forall part_ok ps -> ends_logical (acc ++ logical ps) ->
  (length ps <= n)%nat -> at_text i (physical ps ++ rest) st ->
  exists i', io_iter n (line_turn fuel front) (acc, num) i = Ret (Val (Some (acc ++ logical ps), num + zlen ps), i') /\ at_text i' rest st.
Proof.
  induction ps as [|[p k] ps IH]; [done|]. intros n acc num i rest st _ [[Hp Hf] Hps]%Forall_cons Hl Hn Hi. cbn [fst snd] in Hp, Hf.
  destruct n as [|n]; [cbn in Hn; lia|]. destruct ps as [|q ps].
  - cbn [physical] in Hi. unfold logical in *. cbn [fmap list_fmap concat fst] in *. rewrite app_nil_r in *. destruct Hl as (c & Ec & H1 & H2 & H3).
    destruct (line_turn_last i acc num p k rest st c) as (i' & E & Hi'); [by rewrite <- !app_assoc in Hi|done..|].
    exists i'. split; [|done]. by rewrite (io_iter_inr _ _ _ _ _ _ E).
  - change (physical ((p, k) :: q :: ps)) with (p ++ ch "\" :: (replicate k 13 ++ 10 :: physical (q :: ps))) in Hi.
    rewrite <- app_assoc in Hi. cbn [app] in Hi. rewrite <- app_assoc in Hi.
    destruct (line_turn_more i acc num p k _ st Hi Hp Hf) as (i1 & E1 & H1).
    change (logical ((p, k) :: q :: ps)) with (p ++ logical (q :: ps)) in *. rewrite app_assoc in Hl |- *.
    destruct (IH n (acc ++ p) (num + 1) i1 rest st) as (i2 & E2 & H2); [done|done|done|cbn in *; lia|done|].
    exists i2. split; [|done]. rewrite (io_iter_inl _ _ _ _ _ _ E1), E2. do 4 f_equal. cbn [length]. lia.
Qed.
Lemma read_line_ok ps num i rest st : ps <> [] -> Forall part_ok ps -> ends_logical (logical ps) -> (length ps <= fuel)%nat ->
  at_text i (physical ps ++ rest) st ->
  exists i', read_line fuel front num i = Ret (Val (Some (logical ps), num + zlen ps), i') /\ at_text i' rest st.
Proof. intros. by apply (read_parts_ok ps fuel [] num i). Qed.
Lemma read_line_end num i st : at_text i [] st -> (0 < fuel)%nat ->
  exists i', read_line fuel front num i = Ret (Val (None, num + 1), i') /\ at_text i' [] (Z.lor st ENDED).
Proof.
  intros Hi Hf. destruct (scanLine_end (bin_pending pending) fuel i st Hi Hf) as (i' & E & Hi'). exists i'. split; [|done].
  unfold read_line. destruct fuel as [|n]; [lia|]. apply io_iter_inr. unfold line_turn. rewrite (io_bind_Val _ _ _ _ _ E). done.
Qed.
End LoadProofs.

(** *** The file *)

(** The sections in the order of their creation, each with its pairs: the first one is
    the default section. *)
Abbreviation block := (str * list (str * str))%type.

Definition last_pair (l : list (str * str)) (k v : str) : Prop := exists l1 l2, l = (l1 ++ (k, v) :: l2) /\ k ∉ l2.*1.
Definition last_block (bs : list block) (name : str) (p : nat) : Prop :=
  exists bs1 b bs2, bs = (bs1 ++ (name, b) :: bs2) /\ name ∉ bs2.*1 /\ p = length bs1.

Record section_holds (s : ini_section) (b : block) : Prop := {
  sh_name : se_name s = b.1;
  sh_map : map_ok (se_values s);
  sh_get k v : ListMap_get (se_values s) k = Some v <-> last_pair b.2 k v }.
Record file_holds (f : ini_file) (bs : list block) : Prop := {
  fh_heap : Forall2 section_holds (fi_heap f) bs;
  fh_def : fi_def f = 0%nat;
  fh_map : map_ok (fi_sects f);
  fh_get name p : File_get f name = Some p <-> last_block bs name p }.

Lemma ListMap_put_iff {K V} `{TotalOrder K} (m : list (K * V)) k v k' v' : map_ok m ->
  ListMap_get (ListMap_put m k v) k' = Some v' <-> k' = k /\ v' = v \/ k' <> k /\ ListMap_get m k' = Some v'.
Proof.
  intros Hm. destruct (put_ok m k v Hm) as (_ & E & En). destruct (clt_cases k' k) as [Hlt|[->|Hlt]].
  - assert (k' <> k) by (intros ->; by eapply clt_irrefl). rewrite En by done. naive_solver.
  - rewrite E. naive_solver.
  - assert (k' <> k) by (intros ->; by eapply clt_irrefl). rewrite En by done. naive_solver.
Qed.

Lemma section_new_holds name : section_holds (mkSect name []) (name, []).
Proof.
  split; [done|constructor|]. intros k v. cbn. split; [done|]. intros (l1 & l2 & E & _). by destruct l1.
Qed.
Lemma section_put_holds s b k v : section_holds s b ->
  section_holds (mkSect (se_name s) (ListMap_put (se_values s) k v)) (b.1, b.2 ++ [(k, v)]).
Proof.
  intros [En Hm Hg]. split; [done|by apply put_ok|]. intros k' v'. cbn [se_values snd]. rewrite ListMap_put_iff by done.
  unfold last_pair. rewrite last_pair_cases, Hg. done.
Qed.

Lemma File_make_holds : file_holds File_make [([], [])].
Proof.
  split; [constructor; [apply section_new_holds|constructor]|done|repeat constructor|]. intros name p. unfold File_get, File_make. cbn [fi_sects].
  rewrite ListMap_put_iff by constructor. cbn [ListMap_get ListMap_lookup]. split.
  - intros [[-> ->]|[_ [=]]]. exists [], [], []. split; [done|]. split; [apply not_elem_of_nil|done].
  - intros (bs1 & b & bs2 & E & _ & ->). left. destruct bs1 as [|? [|]]; cbn in E; by simplify_eq.
Qed.
Lemma new_section_holds f bs name : file_holds f bs ->
  file_holds (File_new_section f name).2 (bs ++ [(name, [])]) /\ (File_new_section f name).1 = length bs.
Proof.
  intros [Hh Hd Hm Hg]. pose proof (Forall2_length _ _ _ Hh) as Hl. split; [|done]. unfold File_new_section. cbn [snd fst]. split.
  - apply Forall2_app; [done|]. constructor; [apply section_new_holds|constructor].
  - done.
  - by apply put_ok.
  - intros n p. unfold File_get in *. cbn [fi_sects]. rewrite ListMap_put_iff, Hg by done. unfold last_block. split.
    + intros [[-> ->]|(Hn & bs1 & b & bs2 & -> & Hb & ->)].
      * exists bs, [], []. split; [done|]. split; [apply not_elem_of_nil|done].
      * exists bs1, b, (bs2 ++ [(name, [])]). rewrite <- app_assoc. split; [done|]. split; [|done].
        rewrite fmap_app, elem_of_app. cbn. rewrite list_elem_of_singleton. tauto.
    + intros (bs1 & b & bs2 & E & Hb & ->). destruct bs2 as [|q bs2 _] using rev_ind.
      * apply app_inj_tail in E as [<- [= <- <-]]. left. done.
      * rewrite app_comm_cons, app_assoc in E. apply app_inj_tail in E as [-> <-]. rewrite fmap_app, elem_of_app in Hb.
        right. split; [intros ->; apply Hb; right; by left|]. exists bs1, b, bs2. split; [done|tauto].
Qed.

Lemma last_block_names bs name p : last_block bs name p <-> exists l1 l2, bs.*1 = (l1 ++ name :: l2) /\ name ∉ l2 /\ p = length l1.
Proof.
  split.
  - intros (bs1 & b & bs2 & -> & Hb & ->). exists bs1.*1, bs2.*1. rewrite fmap_app, length_fmap. done.
  - intros (l1 & l2 & E & Hb & ->). apply fmap_app_inv in E as (bs1 & bs2 & -> & E & ->).
    destruct bs2 as [|[n b] bs2]; [done|]. cbn in E. injection E as -> ->. exists bs1, b, bs2. by rewrite length_fmap.
Qed.
Lemma put_last_holds f bs b k v : file_holds f (bs ++ [b]) ->
  file_holds (File_put f (length bs) k v) (bs ++ [(b.1, b.2 ++ [(k, v)])]).
Proof.
  intros [Hh Hd Hm Hg]. apply Forall2_app_inv_r in Hh as (h & h' & Hh & Hs & Eh).
  inversion Hs as [|s ? h'' ? Hs' Hnil]; subst. inversion Hnil; subst. split; unfold File_put; cbn [fi_heap fi_def fi_sects].
  - rewrite Eh, <- (Forall2_length _ _ _ Hh), alter_app_r_alt, Nat.sub_diag by done. apply Forall2_app; [done|].
    constructor; [by apply section_put_holds|constructor].
  - done.
  - done.
  - intros name p. unfold File_get in *. cbn [fi_sects]. rewrite Hg, !last_block_names, !fmap_app. done.
Qed.

(** ** The specification of [load] *)

(** The blocks, or the first error with the number of its line, from 1, plus one. *)
Fixpoint meaning (num : Z) (bs : list block) (cur : block) (l : list (Z * item)) : list block + load_result :=
  match l with
  | [] => inl (bs ++ [cur])
  | (n, i) :: l =>
      let num := num + n in
      match i with
      | Skip => meaning num bs cur l
      | NewSection name => meaning num (bs ++ [cur]) (name, []) l
      | Pair k v => meaning num bs (cur.1, cur.2 ++ [(k, v)]) l
      | BadSection => inr (MalformedSection num)
      | Garbage => inr (GarbageHere num)
      end
  end.
(** What one item does to the file, when it is not an error. *)
Definition item_turn (file : ini_file) (sect : nat) (num : Z) (i : item) : ini_file * nat * Z + load_result :=
  match i with
  | Skip => inl (file, sect, num)
  | NewSection name => inl ((File_new_section file name).2, (File_new_section file name).1, num)
  | Pair k v => inl (File_put file sect k v, sect, num)
  | BadSection => inr (MalformedSection num)
  | Garbage => inr (GarbageHere num)
  end.

Section LoadProofs2.
Context {S : Type} (pending : S -> list Z -> Prop) `{ReliableIn S pending} (fuel : nat) (front : outcome Z).
Abbreviation at_text := (input_at (bin_pending pending)).

Lemma load_turn_ok file sect num (i i' : Input (BufferedInStream S)) line num' it :
  read_line fuel front num i = Ret (Val (Some line, num'), i') -> says line it ->
  load_turn fuel front (file, sect, num) i = Ret (Val (item_turn file sect num' it), i').
Proof.
  intros E Hs. unfold load_turn. rewrite (io_bind_Val _ _ _ _ _ E). cbn [fst snd].
  destruct Hs as [|s|name|s Hl|key value H1 H2 Hk|c s H1 H2 Hk].
  - done.
  - done.
  - change (ch "[" =? ch ";") with false. cbv iota. rewrite Z.eqb_refl, app_comm_cons.
    assert (rd ((ch "[" :: name) ++ [ch "]"]) (zlen ((ch "[" :: name) ++ [ch "]"]) - 1) = Ret (ch "]")) as ->.
    { pose proof (last_char_snoc front (ch "[" :: name) (ch "]")) as Hl. unfold last_char in Hl. by rewrite decide_False in Hl. }
    rewrite io_lift_Ret, Z.eqb_refl. cbn [negb].
    assert (substring ((ch "[" :: name) ++ [ch "]"]) 1 (zlen ((ch "[" :: name) ++ [ch "]"]) - 2) = Ret name) as ->.
    { replace (zlen _ - 2) with (zlen name) by (rewrite length_app; cbn; lia). apply (substring_mid [ch "["] name [ch "]"]). }
    rewrite io_lift_Ret. done.
  - change (ch "[" =? ch ";") with false. cbv iota. rewrite Z.eqb_refl.
    destruct s as [|c s _] using rev_ind; [done|]. rewrite app_comm_cons, last_snoc in Hl. rewrite app_comm_cons.
    assert (rd ((ch "[" :: s) ++ [c]) (zlen ((ch "[" :: s) ++ [c]) - 1) = Ret c) as ->.
    { pose proof (last_char_snoc front (ch "[" :: s) c) as Hl'. unfold last_char in Hl'. by rewrite decide_False in Hl'. }
    rewrite io_lift_Ret, (proj2 (Z.eqb_neq c _)) by congruence. done.
  - assert (exists c r, key ++ ch "=" :: value = c :: r /\ c <> ch ";" /\ c <> ch "[") as (c & r & Ec & Hc1 & Hc2).
    { destruct key as [|c key]; cbn in *; eexists _, _; (split; [done|]); split; congruence. }
    rewrite Ec, (proj2 (Z.eqb_neq c (ch ";"))), (proj2 (Z.eqb_neq c (ch "["))), <- Ec by done.
    rewrite index_of_first, io_lift_Ret, (proj2 (Z.leb_le _ _)), substring_start, io_lift_Ret, substring_after, io_lift_Ret by (done || lia). done.
  - rewrite (proj2 (Z.eqb_neq c (ch ";"))), (proj2 (Z.eqb_neq c (ch "["))), index_of_no, io_lift_Ret by done. done.
Qed.

Definition written_ok (ps : list (str * nat)) : Prop := ps <> [] /\ Forall (fun p => 10 ∉ p.1) ps /\ ends_logical front (logical ps).

Lemma physical_length ps : (length ps <= length (physical ps))%nat /\ Forall (fun p => (length p.1 + p.2 + 1 <= length (physical ps))%nat) ps.
Proof.
  induction ps as [|[p k] ps [IH1 IH2]]; [done|]. destruct ps as [|q ps].
  - cbn [physical length]. rewrite !length_app, length_replicate. cbn. split; [lia|]. constructor; [cbn; lia|constructor].
  - change (physical ((p, k) :: q :: ps)) with (p ++ ch "\" :: (replicate k 13 ++ 10 :: physical (q :: ps))).
    rewrite length_app. cbn [length]. rewrite length_app, length_replicate. cbn [length] in *. split; [lia|]. constructor; [cbn; lia|].
    eapply Forall_impl; [exact IH2|]. cbn. intros. lia.
Qed.
Lemma written_parts ps : written_ok ps -> (length (physical ps) < fuel)%nat -> Forall (part_ok fuel) ps /\ (length ps <= fuel)%nat.
Proof.
  intros (_ & Hp & _) Hf. destruct (physical_length ps) as [H1 H2]. split; [|lia].
  eapply Forall_impl; [apply Forall_and; split; [exact Hp|exact H2]|]. cbv beta. intros p [? ?]. split; [done|lia].
Qed.

Lemma load_lines_ok lines : forall n items file bs cur num i st, Forall written_ok lines -> Forall2 (fun ps it => says (logical ps) it) lines items ->
  file_holds file (bs ++ [cur]) -> (length (concat (physical <$> lines)) < fuel)%nat -> (length lines < n)%nat ->
  at_text i (concat (physical <$> lines)) st ->
  exists r i', io_iter n (load_turn fuel front) (file, length bs, num) i = Ret (Val r, i') /\
    match meaning num bs cur (zip ((fun ps => zlen ps) <$> lines) items) with
    | inl bs' => exists f, r = Loaded f /\ file_holds f bs'
    | inr e => r = e
    end.
Proof.
  induction lines as [|ps lines IH]; intros n items file bs cur num i st Hw Hs Hf Hfuel Hn Hi; (destruct n as [|n]; [cbn in Hn; lia|]).
  - inversion Hs; subst. destruct (read_line_end pending fuel front num i st Hi) as (i' & E & _); [cbn in Hfuel; lia|].
    exists (Loaded file), i'. split; [|by exists file]. apply io_iter_inr. unfold load_turn. by rewrite (io_bind_Val _ _ _ _ _ E).
  - inversion Hs as [|? it ? items' Hit Hs']; subst. apply Forall_cons in Hw as [Hps Hw]. cbn [fmap list_fmap concat] in *. rewrite length_app in Hfuel.
    destruct (written_parts ps Hps) as [Hp Hl]; [lia|]. destruct Hps as (Hne & _ & Hends).
    destruct (read_line_ok pending fuel front ps num i _ st Hne Hp Hends Hl Hi) as (i1 & E1 & H1).
    pose proof (load_turn_ok file (length bs) num i i1 _ _ it E1 Hit) as E. cbn [length] in Hn.
    assert (forall file' bs' cur', item_turn file (length bs) (num + zlen ps) it = inl (file', length bs', num + zlen ps) -> file_holds file' (bs' ++ [cur']) ->
      exists r i', io_iter (Datatypes.S n) (load_turn fuel front) (file, length bs, num) i = Ret (Val r, i') /\
        match meaning (num + zlen ps) bs' cur' (zip ((fun ps => zlen ps) <$> lines) items') with
        | inl bs' => exists f, r = Loaded f /\ file_holds f bs' | inr e => r = e end) as Hgo.
    { intros file' bs' cur' Ei Hf'. rewrite Ei in E.
      destruct (IH n items' file' bs' cur' (num + zlen ps) i1 st Hw Hs' Hf' ltac:(lia) ltac:(lia) H1) as (r & i2 & E2 & Hr).
      exists r, i2. split; [|done]. by rewrite (io_iter_inl _ _ _ _ _ _ E). }
    cbn [zip zip_with meaning]. destruct it as [|name|k v| |]; cbn [item_turn] in *.
    + by apply (Hgo file bs cur).
    + destruct (new_section_holds file (bs ++ [cur]) name Hf) as [Hf' El]. apply (Hgo (File_new_section file name).2 (bs ++ [cur]) (name, [])); [by rewrite <- El|done].
    + apply (Hgo (File_put file (length bs) k v) bs (cur.1, cur.2 ++ [(k, v)])); [done|by apply put_last_holds].
    + eexists _, i1. split; [by apply (io_iter_inr _ _ _ _ _ _ E)|done].
    + eexists _, i1. split; [by apply (io_iter_inr _ _ _ _ _ _ E)|done].
Qed.
End LoadProofs2.

Lemma BufferedInStream_make_ok {S} (pending : S -> list Z -> Prop) `{ReliableIn S pending} s l size : pending s l -> 0 < size <= MAX_REQUEST ->
  exists b, BufferedInStream_make s size = Ret b /\ bin_pending pending b l.
Proof.
  intros Hp Hs. unfold BufferedInStream_make, new_chars. rewrite (proj2 (Z.leb_le 0 size)), (proj2 (Z.ltb_lt 0 size)) by lia. mred.
  eexists. split; [done|]. exists l. cbn. rewrite length_replicate. split_and!; (done || lia).
Qed.

Lemma lines_length front lines : Forall (written_ok front) lines -> (length lines <= length (concat (physical <$> lines)))%nat.
Proof.
  induction 1 as [|ps lines (Hne & _) Hw IH]; [done|]. rewrite fmap_cons. cbn [concat length]. rewrite length_app.
  destruct (physical_length ps) as [H1 _]. destruct ps; [done|]. cbn [length] in H1. lia.
Qed.

(** [C15] [File::load] reads the format: on any stream that does not fail, whatever the
    pieces in which it gives its data, if the text is a sequence of logical lines, each
    written on one physical line or more ended by a backslash and any carriage returns,
    then the sections and pairs of the file are the ones that the lines say up to the end, or
    the first malformed line is reported; the last section with a name and the last value of a
    key are the ones found, and pairs before any section go to the default section.
    An empty logical line is accepted if what precedes the text in memory, which
    is read then, is not an end of line nor a backslash. *)
Theorem File_load_reads {S} (pending : S -> list Z -> Prop) `{ReliableIn S pending} fuel front s lines items :
  pending s (concat (physical <$> lines)) -> Forall (inw 8) (concat (physical <$> lines)) ->
  Forall (written_ok front) lines -> Forall2 (fun ps it => says (logical ps) it) lines items ->
  (length (concat (physical <$> lines)) + 2 <= fuel)%nat ->
  match meaning 1 [] ([], []) (zip ((fun ps => zlen ps) <$> lines) items) with
  | inl bs => exists f, File_load fuel front s = Ret (Loaded f) /\ file_holds f bs
  | inr e => File_load fuel front s = Ret e
  end.
Proof.
  intros Hp Hb Hw Hs Hf. destruct (BufferedInStream_make_ok pending s _ 4096 Hp) as (b & Eb & Hb'); [done|].
  pose proof (lines_length front lines Hw) as Hl.
  destruct (load_lines_ok pending fuel front lines fuel items File_make [] ([], []) 1 (Input_make b) 0) as (r & i' & E & Hr);
    [done|done|apply File_make_holds|lia|lia| |].
  { split; [done|]. split; [done|]. eexists. split; [exact Hb'|by left]. }
  unfold File_load. rewrite Eb. mred. change (File_defaultSection File_make) with (@length block []). rewrite E. mred. cbn [fst].
  destruct (meaning _ _ _ _) as [bs|e]; [|by rewrite Hr]. destruct Hr as (f & -> & Hf'). by exists f.
Qed.

(** A list of values is cut at semicolons, and an integer printed is read back. *)
Lemma getList_loop_ok ps : forall fuel list q, Forall (fun p => ch ";" ∉ p) (ps ++ [q]) -> (length ps < fuel)%nat ->
  iter fuel getList_turn (list, concat ((fun p => p ++ [ch ";"]) <$> ps) ++ q) =
    Ret (list ++ ps ++ match q with [] => [] | _ => [q] end).
Proof.
  induction ps as [|p ps IH]; intros fuel list q Hp Hf; (destruct fuel as [|fuel]; [lia|]); cbn [iter getList_turn].
  - cbn [fmap list_fmap concat app] in *. apply Forall_cons in Hp as [Hq _]. rewrite index_of_no by done. mred.
    change (0 <=? -1) with false. cbv iota. destruct q; [by rewrite app_nil_r|done].
  - cbn [fmap list_fmap concat app length] in *. apply Forall_cons in Hp as [Hp Hps]. rewrite <- !app_assoc. cbn [app].
    rewrite index_of_first by done. mred. rewrite (proj2 (Z.leb_le _ _)), substring_start by lia. mred. rewrite substring_after. mred.
    rewrite IH by (done || lia). by rewrite <- app_assoc.
Qed.
Lemma Section_getList_ok s key list ps q : Section_get s key = concat ((fun p => p ++ [ch ";"]) <$> ps) ++ q ->
  Forall (fun p => ch ";" ∉ p) (ps ++ [q]) -> Section_getList s key list = Ret (list ++ ps ++ match q with [] => [] | _ => [q] end).
Proof.
  intros E Hp. unfold Section_getList. rewrite E. apply getList_loop_ok; [done|]. rewrite length_app. clear.
  induction ps as [|p ps IH]; cbn; [lia|]. rewrite !length_app. cbn in *. lia.
Qed.
Lemma Section_getInt_ok s key def v : Section_get s key = int_text v -> - 2 ^ 31 < v < 2 ^ 31 -> Section_getInt s key def = Ret (Val v).
Proof.
  intros E Hv. destruct (int_text_bytes v) as [Hb Hne]. unfold Section_getInt. rewrite E, decide_False by done.
  destruct (scanLong_ok bis_pending (2 + length (int_text v)) [] v (Input_make (BlockInStream_make (int_text v))) [] 0) as (i' & Ei & _ & Es & _);
    [rewrite app_nil_r; by apply input_at_text|done|done|done|cbn; lia|].
  rewrite Ei. mred. cbn [fst snd]. unfold Input_flag. by rewrite Es.
Qed.

Lemma File_load_reads_witness : exists f, File_load 28 (Ret 0) (BlockInStream_make (text "a=1
; x

[s]
b=2;\
3
")) = Ret (Loaded f) /\ file_holds f [([], [(text "a", text "1")]); (text "s", [(text "b", text "2;3")])].
Proof.
  assert (forall l c, last_char (Ret 0) l = Ret c -> c <> 10 /\ c <> 13 /\ c <> ch "\" -> ends_logical (Ret 0) l) as Hl by (intros l c Hc Hn; by exists c).
  pose proof (File_load_reads bis_small 28 (Ret 0) (BlockInStream_make (text "a=1
; x

[s]
b=2;\
3
")) [[(text "a=1", 0%nat)]; [(text "; x", 0%nat)]; [([], 0%nat)]; [(text "[s]", 0%nat)]; [(text "b=2;", 0%nat); (text "3", 0%nat)]]
    [Pair (text "a") (text "1"); Skip; Skip; NewSection (text "s"); Pair (text "b") (text "2;3")]) as T. apply T.
  - by split.
  - by_decide.
  - repeat (apply Forall_cons; split; [split; [done|split; [by_decide|eapply Hl; [reflexivity|done]]]|]). constructor.
  - repeat (apply Forall2_cons; split).
    + apply (SaysPair (text "a") (text "1")); [done|done|by_decide].
    + apply (SaysComment (text " x")).
    + apply SaysBlank.
    + apply (SaysSection (text "s")).
    + apply (SaysPair (text "b") (text "2;3")); [done|done|by_decide].
    + constructor.
  - vm_compute. lia.
Defined.

(** *** What goes wrong *)

(** A number that does not fit, or no digit at all, gives 0 instead of the default value. *)
Example getInt_no_digit : (fun v => Section_getInt (mkSect [] [(text "k", v)]) (text "k") 111) <$> [text "ok"; text "-"; text " "; text "3000000000"] =
  [Ret (Val 111); Ret (Val 0); Ret (Val 0); Ret (Val 0)].
Proof. vm_compute. reflexivity. Qed.
(** Errors are reported one line too far. *)
Example load_error_line : load_text (text "garbage
") = Ret (GarbageHere 2).
Proof. vm_compute. reflexivity. Qed.
(** An empty line is read in front of the text. *)
Example load_blank_line : (fun front => File_load 5 front (BlockInStream_make (text "
a=b"))) <$> [Crash OutOfBounds; Ret (ch "\")] = [Crash OutOfBounds; Crash OutOfBounds].
Proof. vm_compute. reflexivity. Qed.
