(* ===== verification/VarExpander.v ===== *)
(** * Expansion of variables ([src/io_VarExpander.cpp], [include/elm/io/VarExpander.h])

    A filter on an output stream: an escape character, an open brace, a name and the
    close brace that goes with it are replaced by the value of the name. It is a state machine
    fed character by character, with a cache of the values in an AVL map. *)

From stdpp Require Import list.
From S2P Require Import Prelude Compare TextOps Avl Streams.
#[local] Open Scope Z_scope.

(** ** The filter *)

(* src/include/elm/io/VarExpander.h:55-59 VarExpander::state *)
Inductive vx_state := COPY | ESC | OPEN.
(* src/include/elm/io/VarExpander.h:51-62 VarExpander *)
Record VarExpander := mkVx {
  vx_esc : Z; vx_open : str; vx_close : str;
  vx_map : GenTree (str * str);
  vx_mode : vx_state; vx_expected : Z; vx_name : str }.

(* src/src/io_VarExpander.cpp:73-80 VarExpander::VarExpander *)
Definition VarExpander_make : VarExpander := mkVx (ch "$") (text "{(") (text "})") GenTree_make COPY 0 [].
(* src/include/elm/io/VarExpander.h:35-35 VarExpander::escape *)
Definition VarExpander_escape (v : VarExpander) (e : Z) : VarExpander :=
  mkVx e (vx_open v) (vx_close v) (vx_map v) (vx_mode v) (vx_expected v) (vx_name v).
(* src/include/elm/io/VarExpander.h:36-36 VarExpander::resetBrace *)
Definition VarExpander_resetBrace (v : VarExpander) : VarExpander :=
  mkVx (vx_esc v) [] [] (vx_map v) (vx_mode v) (vx_expected v) (vx_name v).
(* src/include/elm/io/VarExpander.h:37-38 VarExpander::brace *)
Definition VarExpander_brace (v : VarExpander) (o c : Z) : VarExpander :=
  mkVx (vx_esc v) (vx_open v ++ [o]) (vx_close v ++ [c]) (vx_map v) (vx_mode v) (vx_expected v) (vx_name v).
Definition vx_go (v : VarExpander) (mode : vx_state) (expected : Z) (name : str) : VarExpander :=
  mkVx (vx_esc v) (vx_open v) (vx_close v) (vx_map v) mode expected name.

Section Expand.
Context {S : Type} `{OutStream S}.
(** The virtual function: the value of a name and whether it is recorded. *)
Variable resolve : str -> str * bool.

(** The value of a name, from the map if it is there. *)
(* src/src/io_VarExpander.cpp:167-177 VarExpander::write *)
Definition VarExpander_value (v : VarExpander) (n : str) : outcome (str * VarExpander) :=
  match AvlMap_get (vx_map v) n with
  | Some x => Ret (x, v)
  | None =>
      let '(x, rec) := resolve n in
      if rec : bool then
        map ← AvlMap_put (vx_map v) n x;
        Ret (x, mkVx (vx_esc v) (vx_open v) (vx_close v) map (vx_mode v) (vx_expected v) (vx_name v))
      else Ret (x, v)
  end.
(* src/src/io_VarExpander.cpp:132-190 VarExpander::write *)
Definition VarExpander_writeByte (v : VarExpander) (out : S) (byte : Z) : outcome (Z * (VarExpander * S)) :=
  match vx_mode v with
  | COPY =>
      if byte =? vx_esc v then Ret (1, (vx_go v ESC (vx_expected v) (vx_name v), out))
      else m ← out_writeByte out byte; Ret (m.1, (v, m.2))
  | ESC =>
      if byte =? vx_esc v then m ← out_writeByte out (vx_esc v); Ret (m.1, (v, m.2))
      else
        p ← index_of byte (vx_open v) 0;
        if p <? 0 then
          m ← out_writeByte out byte; Ret (m.1, (vx_go v COPY (vx_expected v) (vx_name v), m.2))
        else c ← rd (vx_close v) p; Ret (1, (vx_go v OPEN c [], out))
  | OPEN =>
      if negb (byte =? vx_expected v) then Ret (1, (vx_go v OPEN (vx_expected v) (vx_name v ++ [byte]), out))
      else
        m ← VarExpander_value v (vx_name v);
        let '(x, v) := m in
        m ← out_write out x;
        Ret (if negb (m.1 =? zlen x) then -1 else 1, (vx_go v COPY (vx_expected v) (vx_name v), m.2))
  end.
(** The index of the first character that is not written, or the size. *)
(* src/src/io_VarExpander.cpp:122-129 VarExpander::write *)
Fixpoint VarExpander_write_from (i : Z) (v : VarExpander) (out : S) (buffer : str) : outcome (Z * (VarExpander * S)) :=
  match buffer with
  | [] => Ret (i, (v, out))
  | b :: buffer =>
      m ← VarExpander_writeByte v out b;
      if negb (m.1 =? 1) then Ret (i, m.2) else VarExpander_write_from (i + 1) m.2.1 m.2.2 buffer
  end.
(* src/src/io_VarExpander.cpp:122-129 VarExpander::write *)
Definition VarExpander_write : VarExpander -> S -> str -> outcome (Z * (VarExpander * S)) := VarExpander_write_from 0.
(* src/src/io_VarExpander.cpp:193-195 VarExpander::flush *)
Definition VarExpander_flush (v : VarExpander) (out : S) : outcome (Z * (VarExpander * S)) :=
  m ← out_flush out; Ret (m.1, (v, m.2)).
End Expand.

(** The text goes through a stream in memory; the state stays in the object. *)
(* src/src/io_VarExpander.cpp:111-119 VarExpander::expand *)
Definition VarExpander_expand (resolve : str -> str * bool) (v : VarExpander) (s : str) : outcome (str * VarExpander) :=
  b ← BlockOutStream_make 64 32;
  m ← VarExpander_write resolve v b s;
  m' ← BlockOutStream_flush m.2.2;
  x ← BlockOutStream_toString m'.2; Ret (x, m.2.1).

(* src/src/io_VarExpander.cpp:214-216 VarExpander::resolve *)
Definition VarExpander_resolve (name : str) : str * bool := ([], true).
(* src/src/io_VarExpander.cpp:226-229 OSExpander::resolve *)
Definition OSExpander_resolve (getEnv : str -> str) (name : str) : str * bool := (getEnv name, false).
(** The object is static: the state goes from a call to the next. *)
(* src/src/io_VarExpander.cpp:237-240 expandOSVars *)
Definition expandOSVars (getEnv : str -> str) (e : VarExpander) (s : str) : outcome (str * VarExpander) :=
  VarExpander_expand (OSExpander_resolve getEnv) e s.

Definition demo_resolve (n : str) : str * bool := (if decide (n = text "HOME") then text "/root" else [], true).
Example expand_demo : (m ← VarExpander_expand demo_resolve VarExpander_make (text "a${HOME}/b$(HOME)"); Ret m.1) = Ret (text "a/root/b/root").
Proof. vm_compute. reflexivity. Qed.

(** ** What the streams below have to promise

    The filter stops as soon as a write does not return the number of characters. *)

Class CountingOut (S : Type) `{OutStream S} (sent : S -> list Z -> Prop) := {
  count_write s l b : sent s l -> exists s', out_write s b = Ret (zlen b, s') /\ sent s' (l ++ b);
  count_byte s l x : sent s l -> exists s', out_writeByte s x = Ret (1, s') /\ sent s' (l ++ [x]) }.

#[export] Instance BlockOutStream_counting : CountingOut BlockOutStream bos_sent.
Proof.
  split; intros [d] l.
  - intros b Hd. destruct (dyn_put_ok d l b Hd) as (d' & E & Hd'). exists (mkBOS d').
    cbn. unfold BlockOutStream_write. cbn [bos_block]. by rewrite E.
  - intros x Hd. destruct (dyn_put_ok d l [x] Hd) as (d' & E & Hd'). exists (mkBOS d').
    cbn. unfold BlockOutStream_writeByte. cbn [bos_block]. by rewrite E.
Qed.

(** ** The language

    A text is a sequence of pieces and an incomplete one. Any number of escape characters
    may come before the one that escapes: they stand for themselves. *)

Inductive piece :=
  | PChar (c : Z)
  | PEscaped (k : nat) (c : Z)
  | PVar (k : nat) (o c : Z) (name : str).
Inductive partial :=
  | Complete
  | InEscape (k : nat)
  | InVar (k : nat) (o c : Z) (name : str).

Section Language.
Context (esc : Z) (opens closes : str) (value : str -> str).

Definition brace_pair (o c : Z) : Prop :=
  exists pre post, opens = pre ++ (o :: post) /\ o ∉ pre /\ closes !! length pre = Some c /\ o <> esc.
Definition piece_ok (p : piece) : Prop :=
  match p with
  | PChar c => c <> esc
  | PEscaped _ c => c <> esc /\ c ∉ opens
  | PVar _ o c name => brace_pair o c /\ c ∉ name
  end.
Definition piece_text (p : piece) : str :=
  match p with
  | PChar c => [c]
  | PEscaped k c => replicate k esc ++ [esc; c]
  | PVar k o c name => replicate k esc ++ [esc; o] ++ name ++ [c]
  end.
Definition piece_value (p : piece) : str :=
  match p with
  | PChar c => [c]
  | PEscaped k c => replicate k esc ++ [c]
  | PVar k _ _ name => replicate k esc ++ value name
  end.
Definition partial_ok (t : partial) : Prop :=
  match t with InVar _ o c name => brace_pair o c /\ c ∉ name | _ => True end.
Definition partial_text (t : partial) : str :=
  match t with
  | Complete => []
  | InEscape k => replicate k esc ++ [esc]
  | InVar k o _ name => replicate k esc ++ [esc; o] ++ name
  end.
Definition partial_value (t : partial) : str :=
  match t with Complete => [] | InEscape k | InVar k _ _ _ => replicate k esc end.
Definition partial_state (t : partial) : vx_state :=
  match t with Complete => COPY | InEscape _ => ESC | InVar _ _ _ _ => OPEN end.

(** Every text is of the language. *)
Lemma escapes_split (s : str) : exists k r, s = replicate k esc ++ r /\ head r <> Some esc.
Proof.
  induction s as [|c s (k & r & -> & Hr)]; [by exists 0%nat, []|]. destruct (decide (c = esc)) as [->|].
  - by exists (S k), r.
  - exists 0%nat, (c :: replicate k esc ++ r). split; [done|]. cbn. congruence.
Qed.
Lemma language_total : length opens = length closes -> forall s, exists ps t, s = concat (piece_text <$> ps) ++ partial_text t /\
  Forall piece_ok ps /\ partial_ok t.
Proof.
  intros Hoc s. induction s as [s IH] using (induction_ltof1 _ (@length Z)). unfold ltof in IH.
  assert (forall p r, s = piece_text p ++ r -> piece_ok p -> (length r < length s)%nat ->
    exists ps t, s = concat (piece_text <$> ps) ++ partial_text t /\ Forall piece_ok ps /\ partial_ok t) as Hgo.
  { intros p r E Hp Hr. destruct (IH r Hr) as (ps & t & Er & Hps & Ht). exists (p :: ps), t. split_and!; [|by constructor|done].
    rewrite fmap_cons. cbn [concat]. rewrite <- app_assoc, <- Er. exact E. }
  destruct (escapes_split s) as (k & r & Es & Hr). destruct k as [|k].
  - cbn in Es. subst r. destruct s as [|c s]; [by exists [], Complete|]. apply (Hgo (PChar c) s); [done|cbn in *; congruence|cbn; lia].
  - rewrite replicate_S_end, <- app_assoc in Es. cbn [app] in Es. destruct r as [|c r].
    { exists [], (InEscape k). by split_and!. }
    assert (c <> esc) as Hc by (cbn in Hr; congruence). assert (length s = k + 2 + length r)%nat as Hl.
    { rewrite Es, length_app, length_replicate. cbn. lia. }
    destruct (decide (c ∈ opens)) as [Hin|Hout].
    2: { apply (Hgo (PEscaped k c) r); [|done|lia]. cbn [piece_text]. by rewrite <- app_assoc. }
    apply list_elem_of_split_l in Hin as (pre & post & Eo & Hpre).
    destruct (lookup_lt_is_Some_2 closes (length pre)) as [d Hd]; [rewrite <- Hoc, Eo, length_app; cbn; lia|].
    assert (brace_pair c d) as Hb by (by exists pre, post).
    destruct (decide (d ∈ r)) as [Hin|Hout].
    + apply list_elem_of_split_l in Hin as (name & r' & -> & Hname).
      apply (Hgo (PVar k c d name) r'); [|done|rewrite length_app in Hl; cbn in Hl; lia]. cbn [piece_text]. rewrite Es. by app_norm.
    + exists [], (InVar k c d r). split_and!; [|done|done]. by rewrite Es.
Qed.
End Language.

(** ** The filter against the language *)

Section Filter.
Context {S : Type} (sent : S -> list Z -> Prop) `{CountingOut S sent} (resolve : str -> str * bool).
Implicit Types v : VarExpander.
Abbreviation value := (fun n => (resolve n).1).

(** The cache holds values of the function, and has room for [n] others. *)
Record vx_ok (v : VarExpander) (n : Z) : Prop := {
  vo_tree : tree_ok fst (vx_map v);
  vo_sound p : p ∈ elements (gt_root (vx_map v)) -> p.2 = value p.1;
  vo_room : gt_cnt (vx_map v) + n < NODE_LIMIT }.
(** The settings do not change, and what is in the cache stays there. *)
Record vx_le (v v' : VarExpander) : Prop := {
  vl_esc : vx_esc v' = vx_esc v;
  vl_open : vx_open v' = vx_open v;
  vl_close : vx_close v' = vx_close v;
  vl_map p : p ∈ elements (gt_root (vx_map v)) -> p ∈ elements (gt_root (vx_map v')) }.
#[export] Instance vx_le_preorder : PreOrder vx_le.
Proof.
  split; [by intros v|]. intros v1 v2 v3 [E1 O1 C1 M1] [E2 O2 C2 M2]. split; [congruence..|]. auto.
Qed.

(** The filter takes the whole text. *)
Definition vx_runs v (out : S) (s : str) v' (out' : S) : Prop :=
  forall i, VarExpander_write_from resolve i v out s = Ret (i + zlen s, (v', out')).

Lemma vx_runs_nil v out : vx_runs v out [] v out.
Proof. intros i. cbn. by rewrite Z.add_0_r. Qed.
Lemma vx_runs_cons v out b s v1 out1 v2 out2 : VarExpander_writeByte resolve v out b = Ret (1, (v1, out1)) -> vx_runs v1 out1 s v2 out2 ->
  vx_runs v out (b :: s) v2 out2.
Proof.
  intros E Hs i. cbn [VarExpander_write_from]. rewrite E. mred. cbn [fst snd]. change (1 =? 1) with true. cbn [negb]. rewrite Hs.
  do 2 f_equal. cbn [length]. lia.
Qed.
Lemma write_from_app a b : forall i v out, VarExpander_write_from resolve i v out (a ++ b) =
  (m ← VarExpander_write_from resolve i v out a;
   if m.1 =? i + zlen a then VarExpander_write_from resolve (i + zlen a) m.2.1 m.2.2 b else Ret m).
Proof.
  induction a as [|x a IH]; intros i v out; cbn [app VarExpander_write_from].
  { mred. cbn [fst snd length]. by rewrite Z.add_0_r, Z.eqb_refl. }
  destruct (VarExpander_writeByte resolve v out x) as [[r [v1 out1]]|]; mred; [|done]. cbn [fst snd].
  destruct (Z.eqb_spec r 1) as [->|Hr]; cbn [negb].
  - rewrite IH. cbn [length]. replace (i + 1 + zlen a) with (i + Z.of_nat (Datatypes.S (length a))) by lia. done.
  - mred. cbn [fst]. rewrite (proj2 (Z.eqb_neq i _)); [done|]. cbn [length]. lia.
Qed.
Lemma vx_runs_app v out a v1 out1 b v2 out2 : vx_runs v out a v1 out1 -> vx_runs v1 out1 b v2 out2 -> vx_runs v out (a ++ b) v2 out2.
Proof.
  intros Ha Hb i. rewrite write_from_app, Ha. mred. cbn [fst snd]. rewrite Z.eqb_refl, Hb, length_app. do 2 f_equal. lia.
Qed.

Lemma vx_ok_go v room mode e name : vx_ok v room -> vx_ok (vx_go v mode e name) room.
Proof. intros []. by split. Qed.
Lemma vx_le_go v mode e name : vx_le v (vx_go v mode e name).
Proof. by split. Qed.

(** The escape characters that stand for themselves. *)
Lemma run_escapes k : forall v out l, vx_mode v = ESC -> sent out l ->
  exists out', vx_runs v out (replicate k (vx_esc v)) v out' /\ sent out' (l ++ replicate k (vx_esc v)).
Proof.
  induction k as [|k IH]; intros v out l Hm Hl.
  { exists out. rewrite app_nil_r. split; [apply vx_runs_nil|done]. }
  destruct (count_byte out l (vx_esc v) Hl) as (out1 & E & Hl1). destruct (IH v out1 _ Hm Hl1) as (out2 & R & Hl2).
  exists out2. rewrite <- app_assoc in Hl2. split; [|done]. cbn [replicate]. eapply vx_runs_cons; [|exact R].
  unfold VarExpander_writeByte. rewrite Hm, Z.eqb_refl, E. done.
Qed.
Lemma run_escape k v out l : vx_mode v = COPY -> sent out l ->
  exists out', vx_runs v out (replicate (Datatypes.S k) (vx_esc v)) (vx_go v ESC (vx_expected v) (vx_name v)) out' /\
    sent out' (l ++ replicate k (vx_esc v)).
Proof.
  intros Hm Hl. destruct (run_escapes k (vx_go v ESC (vx_expected v) (vx_name v)) out l eq_refl Hl) as (out' & R & Hl').
  exists out'. split; [|done]. cbn [replicate]. eapply vx_runs_cons; [|exact R]. unfold VarExpander_writeByte. by rewrite Hm, Z.eqb_refl.
Qed.
(** The open brace, then the name. *)
Lemma run_open v out o c : vx_mode v = ESC -> brace_pair (vx_esc v) (vx_open v) (vx_close v) o c -> vx_runs v out [o] (vx_go v OPEN c []) out.
Proof.
  intros Hm (pre & post & Eo & Hpre & Hc & Hne). eapply vx_runs_cons; [|apply vx_runs_nil]. unfold VarExpander_writeByte.
  rewrite Hm, (proj2 (Z.eqb_neq o _)), Eo, index_of_first by done. mred. rewrite (proj2 (Z.ltb_ge _ 0)) by lia.
  by rewrite (rd_ok _ _ c) by (rewrite ?Nat2Z.id; (done || lia)).
Qed.
Lemma run_name name : forall v out, vx_mode v = OPEN -> vx_expected v ∉ name ->
  vx_runs v out name (vx_go v OPEN (vx_expected v) (vx_name v ++ name)) out.
Proof.
  induction name as [|x name IH]; intros v out Hm Hn.
  { rewrite app_nil_r, <- Hm. destruct v. apply vx_runs_nil. }
  apply not_elem_of_cons in Hn as [Hx Hn].
  pose proof (IH (vx_go v OPEN (vx_expected v) (vx_name v ++ [x])) out eq_refl Hn) as R. cbn [vx_go vx_expected vx_name vx_esc vx_open vx_close vx_map] in R.
  rewrite <- app_assoc in R. eapply vx_runs_cons; [|exact R]. unfold VarExpander_writeByte. rewrite Hm.
  by rewrite (proj2 (Z.eqb_neq x _)) by congruence.
Qed.

Lemma value_ok v n room : vx_ok v (room + 1) -> 0 <= room ->
  exists v', VarExpander_value resolve v n = Ret (value n, v') /\ vx_ok v' room /\ vx_le v v' /\
    vx_mode v' = vx_mode v /\ ((resolve n).2 = true -> (n, value n) ∈ elements (gt_root (vx_map v'))).
Proof.
  intros [Ht Hs Hr] Hroom. unfold VarExpander_value, AvlMap_get, GenTree_get. pose proof (find_elements fst _ n (to_sorted _ _ Ht)) as Hf.
  destruct (GenTree_find fst (gt_root (vx_map v)) n) as [[n' x]|]; cbn [fmap option_fmap option_map snd].
  - destruct Hf as [Hin En]. cbn in En. subst n'. pose proof (Hs _ Hin) as Ex. cbn in Ex. subst x. exists v.
    split_and!; [done|split; [done|done|lia]|done|done|done].
  - destruct (resolve n) as [x rec] eqn:E. destruct rec.
    + destruct (GenTree_add_fresh fst (vx_map v) (n, x) Ht ltac:(lia) Hf) as (m & Em & Hm & Hp & Hc).
      unfold AvlMap_put, GenTree_set. rewrite Em. mred. eexists. split; [done|].
      assert (forall p, p ∈ elements (gt_root m) <-> p = (n, x) \/ p ∈ elements (gt_root (vx_map v))) as Hin by (intros p; by rewrite Hp, elem_of_cons).
      split_and!; [split; cbn [vx_map]| |done|intros _; cbn [vx_map]; apply Hin; by left].
      * done.
      * intros p [->|Hp']%Hin; [by cbn [fst snd]; rewrite E|by apply Hs].
      * lia.
      * split; try done. intros p Hp'. cbn [vx_map]. apply Hin. by right.
    + exists v. split_and!; [done|split; [done|done|lia]|done|done|done].
Qed.
Lemma run_close v out l room : vx_mode v = OPEN -> sent out l -> vx_ok v (room + 1) -> 0 <= room ->
  exists v' out', vx_runs v out [vx_expected v] v' out' /\ vx_mode v' = COPY /\ vx_ok v' room /\ vx_le v v' /\ sent out' (l ++ value (vx_name v)) /\
    ((resolve (vx_name v)).2 = true -> (vx_name v, value (vx_name v)) ∈ elements (gt_root (vx_map v'))).
Proof.
  intros Hm Hl Hok Hr. destruct (value_ok v (vx_name v) room Hok Hr) as (v' & E & Hok' & Hle & _ & Hrec).
  destruct (count_write out l (value (vx_name v)) Hl) as (out' & Ew & Hl').
  exists (vx_go v' COPY (vx_expected v') (vx_name v')), out'. split_and!; [|done|by apply vx_ok_go| |done|done].
  - eapply vx_runs_cons; [|apply vx_runs_nil]. unfold VarExpander_writeByte. rewrite Hm, Z.eqb_refl, E. cbn [negb]. mred. rewrite Ew. mred. cbn [fst snd].
    by rewrite Z.eqb_refl.
  - etransitivity; [exact Hle|apply vx_le_go].
Qed.

(** The part of a variable before its close brace. *)
Lemma run_variable v out l k o c name : vx_mode v = COPY -> sent out l -> brace_pair (vx_esc v) (vx_open v) (vx_close v) o c -> c ∉ name ->
  exists out', vx_runs v out (replicate k (vx_esc v) ++ [vx_esc v; o] ++ name) (vx_go v OPEN c name) out' /\ sent out' (l ++ replicate k (vx_esc v)).
Proof.
  intros Hm Hl Hb Hn. destruct (run_escape k v out l Hm Hl) as (out' & R1 & Hl').
  pose proof (run_open (vx_go v ESC (vx_expected v) (vx_name v)) out' o c eq_refl Hb) as R2.
  pose proof (run_name name (vx_go (vx_go v ESC (vx_expected v) (vx_name v)) OPEN c []) out' eq_refl Hn) as R3.
  exists out'. split; [|done]. rewrite replicate_S_end in R1. pose proof (vx_runs_app _ _ _ _ _ _ _ _ R1 (vx_runs_app _ _ _ _ _ _ _ _ R2 R3)) as R.
  by rewrite <- app_assoc in R.
Qed.

Abbreviation piece_ok_in v := (piece_ok (vx_esc v) (vx_open v) (vx_close v)).
Lemma run_piece p v out l room : vx_mode v = COPY -> sent out l -> vx_ok v (room + zlen (piece_text (vx_esc v) p)) -> 0 <= room -> piece_ok_in v p ->
  exists v' out', vx_runs v out (piece_text (vx_esc v) p) v' out' /\ vx_mode v' = COPY /\ vx_ok v' room /\ vx_le v v' /\
    sent out' (l ++ piece_value (vx_esc v) value p) /\
    match p with PVar _ _ _ name => (resolve name).2 = true -> (name, value name) ∈ elements (gt_root (vx_map v')) | _ => True end.
Proof.
  intros Hm Hl Hok Hr Hp. assert (forall n, room <= n -> vx_ok v n -> vx_ok v room) as Hroom by (intros n Hn []; split; [done|done|lia]).
  destruct p as [c|k c|k o c name]; cbn [piece_text piece_value piece_ok] in *.
  - destruct (count_byte out l c Hl) as (out' & E & Hl'). exists v, out'. split_and!; [|done|eapply Hroom; [|exact Hok]; cbn; lia|done|done|done].
    eapply vx_runs_cons; [|apply vx_runs_nil]. unfold VarExpander_writeByte. by rewrite Hm, (proj2 (Z.eqb_neq c _)), E by done.
  - destruct Hp as [Hc Ho]. destruct (run_escape k v out l Hm Hl) as (out1 & R1 & Hl1). destruct (count_byte out1 _ c Hl1) as (out2 & E & Hl2).
    exists (vx_go v COPY (vx_expected v) (vx_name v)), out2.
    split_and!; [|done|apply vx_ok_go; eapply Hroom; [|exact Hok]; lia|apply vx_le_go|by rewrite <- app_assoc in Hl2|done].
    rewrite replicate_S_end in R1. pose proof (vx_runs_app v out _ _ out1 [c] (vx_go v COPY (vx_expected v) (vx_name v)) out2 R1) as R. rewrite <- app_assoc in R. apply R.
    eapply vx_runs_cons; [|apply vx_runs_nil]. unfold VarExpander_writeByte. cbn [vx_go vx_mode vx_esc vx_open].
    rewrite (proj2 (Z.eqb_neq c _)), index_of_no by done. mred. change (-1 <? 0) with true. cbv iota. by rewrite E.
  - destruct Hp as [Hb Hn]. destruct (run_variable v out l k o c name Hm Hl Hb Hn) as (out1 & R1 & Hl1).
    assert (vx_ok (vx_go v OPEN c name) (room + 1)) as Hok1.
    { apply vx_ok_go. destruct Hok as [Ht Hs Hn']. split; [done|done|]. rewrite !length_app in Hn'. cbn [length] in Hn'. lia. }
    destruct (run_close (vx_go v OPEN c name) out1 _ room eq_refl Hl1 Hok1 Hr) as (v' & out' & R2 & Hm' & Hok' & Hle & Hl' & Hrec).
    exists v', out'. rewrite <- app_assoc in Hl'. split_and!; [|done|done| |done|done].
    + pose proof (vx_runs_app _ _ _ _ _ _ _ _ R1 R2) as R. cbn [vx_go vx_expected] in R. by rewrite <- !app_assoc in R.
    + etransitivity; [apply vx_le_go|exact Hle].
Qed.

Definition recorded (ps : list piece) v : Prop :=
  forall k o c name, PVar k o c name ∈ ps -> (resolve name).2 = true -> (name, value name) ∈ elements (gt_root (vx_map v)).

Lemma run_pieces ps : forall v out l room, vx_mode v = COPY -> sent out l -> vx_ok v (room + zlen (concat (piece_text (vx_esc v) <$> ps))) ->
  0 <= room -> Forall (piece_ok_in v) ps ->
  exists v' out', vx_runs v out (concat (piece_text (vx_esc v) <$> ps)) v' out' /\ vx_mode v' = COPY /\ vx_ok v' room /\ vx_le v v' /\
    sent out' (l ++ concat (piece_value (vx_esc v) value <$> ps)) /\ recorded ps v'.
Proof.
  induction ps as [|p ps IH]; intros v out l room Hm Hl Hok Hr Hps.
  { exists v, out. rewrite app_nil_r. cbn in Hok. rewrite Z.add_0_r in Hok. split_and!; [apply vx_runs_nil|done|done|done|done|].
    intros k o c name Hin. by apply not_elem_of_nil in Hin. }
  apply Forall_cons in Hps as [Hp Hps]. rewrite fmap_cons in Hok |- *. cbn [concat] in Hok |- *. rewrite length_app in Hok.
  destruct (run_piece p v out l (room + zlen (concat (piece_text (vx_esc v) <$> ps))) Hm Hl) as (v1 & out1 & R1 & Hm1 & Hok1 & Hle & Hl1 & Hrec);
    [destruct Hok; split; [done|done|lia]|lia|done|].
  pose proof Hle as [Ee Eo Ec Em]. rewrite <- Ee in Hok1.
  destruct (IH v1 out1 _ room Hm1 Hl1 Hok1 Hr) as (v2 & out2 & R2 & Hm2 & Hok2 & Hle2 & Hl2 & Hrec2); [by rewrite Ee, Eo, Ec|].
  rewrite Ee in R2, Hl2. exists v2, out2. rewrite <- app_assoc in Hl2. split_and!; [by eapply vx_runs_app|done|done|by etransitivity|exact Hl2|].
  intros k o c name [<-|Hin]%elem_of_cons Hn; [|by eapply Hrec2]. by apply (vl_map _ _ Hle2), Hrec.
Qed.
Lemma run_partial t v out l : vx_mode v = COPY -> sent out l -> partial_ok (vx_esc v) (vx_open v) (vx_close v) t ->
  exists v' out', vx_runs v out (partial_text (vx_esc v) t) v' out' /\ vx_mode v' = partial_state t /\ vx_le v v' /\ vx_map v' = vx_map v /\
    sent out' (l ++ partial_value (vx_esc v) t).
Proof.
  intros Hm Hl Ht. destruct t as [|k|k o c name]; cbn [partial_text partial_value partial_state partial_ok] in *.
  - exists v, out. rewrite app_nil_r. split_and!; [apply vx_runs_nil|done..].
  - destruct (run_escape k v out l Hm Hl) as (out' & R & Hl'). rewrite replicate_S_end in R. by eexists _, out'.
  - destruct Ht as [Hb Hn]. destruct (run_variable v out l k o c name Hm Hl Hb Hn) as (out' & R & Hl'). by eexists _, out'.
Qed.

(** Writes one after the other. *)
Fixpoint VarExpander_writes v (out : S) (chunks : list str) : outcome (list Z * (VarExpander * S)) :=
  match chunks with
  | [] => Ret ([], (v, out))
  | c :: chunks => m ← VarExpander_write resolve v out c; n ← VarExpander_writes m.2.1 m.2.2 chunks; Ret (m.1 :: n.1, n.2)
  end.

Lemma write_from_bound s : forall i v out r st, VarExpander_write_from resolve i v out s = Ret (r, st) -> r <= i + zlen s.
Proof.
  induction s as [|x s IH]; intros i v out r st; cbn [VarExpander_write_from length]; [intros [= <- _]; lia|].
  destruct (VarExpander_writeByte resolve v out x) as [[n [v1 out1]]|]; mred; [|done]. cbn [fst snd]. destruct (n =? 1); cbn [negb].
  - intros Hr%IH. lia.
  - intros [= <- _]. lia.
Qed.
Lemma write_from_shift s : forall i v out, VarExpander_write_from resolve i v out s = (m ← VarExpander_write_from resolve 0 v out s; Ret (i + m.1, m.2)).
Proof.
  induction s as [|x s IH]; intros i v out; cbn [VarExpander_write_from]; [mred; cbn [fst snd]; by rewrite Z.add_0_r|].
  destruct (VarExpander_writeByte resolve v out x) as [[n [v1 out1]]|]; mred; [|done]. cbn [fst snd]. destruct (n =? 1); cbn [negb].
  - rewrite IH, (IH (0 + 1)). destruct (VarExpander_write_from resolve 0 v1 out1 s) as [[r st]|]; mred; [|done]. cbn [fst snd]. do 2 f_equal. lia.
  - mred. by rewrite Z.add_0_r.
Qed.
Lemma vx_runs_0 v out s v' out' : VarExpander_write_from resolve 0 v out s = Ret (zlen s, (v', out')) -> vx_runs v out s v' out'.
Proof. intros E i. rewrite write_from_shift, E. done. Qed.
Lemma vx_runs_split v out a b v2 out2 : vx_runs v out (a ++ b) v2 out2 -> exists v1 out1, vx_runs v out a v1 out1 /\ vx_runs v1 out1 b v2 out2.
Proof.
  intros R. specialize (R 0). rewrite write_from_app in R. destruct (VarExpander_write_from resolve 0 v out a) as [[r [v1 out1]]|] eqn:E; [|done].
  rewrite bind_Ret in R. cbn [fst snd] in R. pose proof (write_from_bound _ _ _ _ _ _ E) as Hr. rewrite length_app in R.
  destruct (Z.eqb_spec r (0 + zlen a)) as [->|Hne].
  - exists v1, out1. split; apply vx_runs_0; [exact E|]. rewrite write_from_shift in R.
    destruct (VarExpander_write_from resolve 0 v1 out1 b) as [[r st]|]; [|done]. rewrite bind_Ret in R. cbn [fst snd] in R.
    injection R as Er ->. do 2 f_equal. lia.
  - injection R as -> -> ->. lia.
Qed.
Lemma writes_ok chunks : forall v out v' out', vx_runs v out (concat chunks) v' out' ->
  VarExpander_writes v out chunks = Ret ((fun c => zlen c) <$> chunks, (v', out')).
Proof.
  induction chunks as [|c chunks IH]; intros v out v' out' R; cbn [VarExpander_writes concat] in *.
  - specialize (R 0). cbn in R. by injection R as -> ->.
  - apply vx_runs_split in R as (v1 & out1 & R1 & R2). unfold VarExpander_write. rewrite (R1 0). mred. cbn [fst snd]. by rewrite (IH _ _ _ _ R2).
Qed.
End Filter.

(** Any text, cut in any pieces, is of the language, and its values are sent. *)
Lemma VarExpander_language {S} (sent : S -> list Z -> Prop) `{CountingOut S sent} resolve v out l chunks :
  vx_mode v = COPY -> length (vx_open v) = length (vx_close v) -> vx_ok resolve v (zlen (concat chunks)) -> sent out l ->
  exists ps t v' out',
    concat chunks = concat (piece_text (vx_esc v) <$> ps) ++ partial_text (vx_esc v) t /\
    Forall (piece_ok (vx_esc v) (vx_open v) (vx_close v)) ps /\ partial_ok (vx_esc v) (vx_open v) (vx_close v) t /\
    VarExpander_writes resolve v out chunks = Ret ((fun c => zlen c) <$> chunks, (v', out')) /\
    sent out' (l ++ concat (piece_value (vx_esc v) (fun n => (resolve n).1) <$> ps) ++ partial_value (vx_esc v) t) /\
    vx_mode v' = partial_state t /\ vx_ok resolve v' 0 /\ vx_le v v' /\ recorded resolve ps v'.
Proof.
  intros Hm Hoc Hok Hl. destruct (language_total (vx_esc v) (vx_open v) (vx_close v) Hoc (concat chunks)) as (ps & t & E & Hps & Ht).
  assert (vx_ok resolve v (0 + zlen (concat (piece_text (vx_esc v) <$> ps)))) as Hok0.
  { destruct Hok as [? ? Hr]. split; [done|done|]. rewrite E, length_app in Hr. lia. }
  destruct (run_pieces sent resolve ps v out l 0 Hm Hl Hok0 ltac:(lia) Hps) as (v1 & out1 & R1 & Hm1 & Hok1 & Hle1 & Hl1 & Hrec).
  pose proof Hle1 as [Ee Eo Ec _]. destruct (run_partial sent resolve t v1 out1 _ Hm1 Hl1) as (v2 & out2 & R2 & Hm2 & Hle2 & Emap & Hl2).
  { by rewrite Ee, Eo, Ec. }
  rewrite Ee in R2, Hl2. rewrite <- app_assoc in Hl2. exists ps, t, v2, out2. split_and!; try done.
  - apply writes_ok. rewrite E. by eapply vx_runs_app.
  - destruct Hok1 as [? ? ?]. split; rewrite Emap; done.
  - by etransitivity.
  - intros k o c name Hin Hn. rewrite Emap. by eapply Hrec.
Qed.

(** The pieces of a text in which every escape character starts the invocation of a
    symbol. *)
Definition invocation (p : piece) : Prop := match p with PChar _ | PVar 0 _ _ _ => True | _ => False end.

(** [C16] Expansion of a text in which every escape character starts the invocation of a
    symbol, cut anywhere in pieces written one after the other, on a stream that does not
    fail and returns the numbers of characters it takes: every write takes all its
    characters; the characters out of the invocations are sent as they are, and each
    invocation is replaced by the value of its name, the cache being invisible for a
    function that always gives a name the same value. The recorded names are in the
    cache, which must have room for as many names as there are characters (its limit is
    9227464 names), and the filter is ready to copy again. *)
Theorem VarExpander_expands {S} (sent : S -> list Z -> Prop) `{CountingOut S sent} resolve v out l chunks ps :
  vx_mode v = COPY -> vx_ok resolve v (zlen (concat chunks)) -> sent out l ->
  concat chunks = concat (piece_text (vx_esc v) <$> ps) ->
  Forall (piece_ok (vx_esc v) (vx_open v) (vx_close v)) ps -> Forall invocation ps ->
  exists v' out',
    VarExpander_writes resolve v out chunks = Ret ((fun c => zlen c) <$> chunks, (v', out')) /\
    sent out' (l ++ concat ((fun p => match p with PVar _ _ _ name => (resolve name).1 | PChar c | PEscaped _ c => [c] end) <$> ps)) /\
    vx_mode v' = COPY /\ vx_ok resolve v' 0 /\ vx_le v v' /\ recorded resolve ps v'.
Proof.
  intros Hm Hok Hl E Hps Hinv.
  destruct (run_pieces sent resolve ps v out l 0 Hm Hl) as (v' & out' & R & Hm' & Hok' & Hle & Hl' & Hrec); [by rewrite Z.add_0_l, <- E|lia|done|].
  exists v', out'. split_and!; try done.
  - apply writes_ok. by rewrite E.
  - replace ((fun p => match p with PVar _ _ _ name => (resolve name).1 | PChar c | PEscaped _ c => [c] end) <$> ps)
      with (piece_value (vx_esc v) (fun n => (resolve n).1) <$> ps); [done|].
    apply list_fmap_ext. intros i p Hp. pose proof (Forall_lookup_1 _ _ _ _ Hinv Hp) as Hi. by destruct p as [|k c|[|k] o c name].
Qed.

Lemma VarExpander_expands_witness : exists b v' out', BlockOutStream_make 8 8 = Ret b /\
  VarExpander_writes demo_resolve VarExpander_make b [text "a${HO"; text "ME}b"] = Ret ([5; 4], (v', out')) /\
  BlockOutStream_toString out' = Ret (text "a/rootb") /\ vx_mode v' = COPY.
Proof.
  destruct (BlockOutStream_make_ok 8 8) as (b & Eb & Hb); [done|done|].
  destruct (VarExpander_expands bos_sent demo_resolve VarExpander_make b [] [text "a${HO"; text "ME}b"]
    [PChar (ch "a"); PVar 0 (ch "{") (ch "}") (text "HOME"); PChar (ch "b")])
    as (v' & out' & E & Hs & Hm & _); [done| |done|done| | |].
  { split; [by split; [|constructor|]|intros p Hp; by apply not_elem_of_nil in Hp|]. unfold NODE_LIMIT. vm_compute. done. }
  { constructor; [done|]. constructor; [|by constructor]. split; [|by_decide]. exists [], (text "("). by split_and!; [|by_decide| |]. }
  { by repeat constructor. }
  exists b, v', out'. split; [done|]. split; [exact E|]. split; [|exact Hm]. exact (BlockOutStream_toString_ok _ _ Hs).
Defined.

(** *** What goes wrong *)

(** After a doubled escape character the next one is not needed. *)
Example expand_doubled_escape : (m ← VarExpander_expand demo_resolve VarExpander_make (text "$${HOME}"); Ret m.1) = Ret (text "$/root").
Proof. vm_compute. reflexivity. Qed.
(** An escape character that escapes nothing is lost. *)
Example expand_lone_escape : (m ← VarExpander_expand demo_resolve VarExpander_make (text "5$ bill"); Ret m.1) = Ret (text "5 bill").
Proof. vm_compute. reflexivity. Qed.
(** The state at the end of a text is the one at the start of the next. *)
Example expand_state_kept : (m ← VarExpander_expand demo_resolve VarExpander_make (text "a${HO"); m' ← VarExpander_expand demo_resolve m.2 (text "b}"); Ret (m.1, m'.1)) =
  Ret (text "a", []).
Proof. vm_compute. reflexivity. Qed.
(** A buffered stream returns 0 for a character it takes: the filter stops after one. *)
Example expand_on_buffered_stream : (b ← BlockOutStream_make 8 8; s ← BufferedOutStream_make b 16;
    m ← VarExpander_write demo_resolve VarExpander_make s (text "abc"); Ret (m.1, bo_top m.2.2)) = Ret (0, 1).
Proof. vm_compute. reflexivity. Qed.
