(* ===== verification/Text.v ===== *)
(** * Characters and encodings ([src/string_Char.cpp], [src/string_utf8.cpp],
    [src/string_utf16.cpp])

    Character classes as sets of bits, conversions of digits, and the UTF-8
    encoding of 16-bit characters with its decoder. *)

From S2P Require Import Prelude.

(** ** Characters *)

(** A set of characters, as four words of 64 bits. *)
(* src/src/string_Char.cpp:28-34 bin_set *)
Definition bin_set : list Z := [0x3000000000000; 0; 0; 0].
Definition dec_set : list Z := [0x3ff000000000000; 0; 0; 0].
Definition hex_set : list Z := [0x3ff000000000000; 0x7e0000007e; 0; 0].
Definition space_set : list Z := [0x100002e00; 0; 0; 0].
Definition letter_set : list Z := [0; 0x7fffffe07fffffe; 0; 0].
Definition lower_set : list Z := [0; 0x7fffffe00000000; 0; 0].
Definition upper_set : list Z := [0; 0x07fffffe; 0; 0].

(* src/src/string_Char.cpp:36-38 is *)
Definition is_in (c : Z) (set : list Z) : outcome bool :=
  w ← rd set (Z.shiftr (u8 c) 6);
  Ret (negb (Z.land w (u64 (Z.shiftl 1 (Z.land (u8 c) 0x3f))) =? 0)).

(* src/src/string_Char.cpp:110-112 Char::isBin *)
Definition Char_isBin (c : Z) : outcome bool := is_in c bin_set.
(* src/src/string_Char.cpp:119-121 Char::isDec *)
Definition Char_isDec (c : Z) : outcome bool := is_in c dec_set.
(* src/src/string_Char.cpp:128-130 Char::isHex *)
Definition Char_isHex (c : Z) : outcome bool := is_in c hex_set.
(* src/src/string_Char.cpp:137-139 Char::isSpace *)
Definition Char_isSpace (c : Z) : outcome bool := is_in c space_set.
(* src/src/string_Char.cpp:155-157 Char::isLetter *)
Definition Char_isLetter (c : Z) : outcome bool := is_in c letter_set.
(* src/src/string_Char.cpp:164-166 Char::isLowerCase *)
Definition Char_isLowerCase (c : Z) : outcome bool := is_in c lower_set.
(* src/src/string_Char.cpp:173-175 Char::isUpperCase *)
Definition Char_isUpperCase (c : Z) : outcome bool := is_in c upper_set.
(* src/src/string_Char.cpp:146-148 Char::isPrintable *)
Definition Char_isPrintable (c : Z) : bool := (32 <=? swrap 8 c) && (swrap 8 c <? 127).

(* src/src/string_Char.cpp:53-56 Char::bin *)
Definition Char_bin (v : Z) : outcome Z := assertP ((v =? 0) || (v =? 1)) ;; Ret (ch "0" + v).
(* src/src/string_Char.cpp:64-67 Char::dec *)
Definition Char_dec (v : Z) : outcome Z := assertP ((0 <=? v) && (v <=? 9)) ;; Ret (ch "0" + v).
(* src/src/string_Char.cpp:83-89 Char::lowerHex *)
Definition Char_lowerHex (v : Z) : outcome Z :=
  assertP ((0 <=? v) && (v <=? 15)) ;; Ret (if v <? 10 then v + ch "0" else v + ch "a").
(* src/src/string_Char.cpp:97-103 Char::upperHex *)
Definition Char_upperHex (v : Z) : outcome Z :=
  assertP ((0 <=? v) && (v <=? 15)) ;; Ret (if v <? 10 then v + ch "0" else v + ch "A").

(* src/src/string_Char.cpp:182-189 Char::asBin *)
Definition Char_asBin (c : Z) : Z := if c =? ch "0" then 0 else if c =? ch "1" then 1 else -1.
(* src/src/string_Char.cpp:196-201 Char::asDec *)
Definition Char_asDec (c : Z) : Z :=
  if (ch "0" <=? c) && (c <=? ch "9") then c - ch "0" else -1.
(* src/src/string_Char.cpp:208-217 Char::asHex *)
Definition Char_asHex (c : Z) : Z :=
  if (ch "0" <=? c) && (c <=? ch "9") then c - ch "0"
  else if (ch "a" <=? c) && (c <=? ch "f") then c - ch "a" + 10
  else if (ch "A" <=? c) && (c <=? ch "F") then c - ch "A" + 10
  else -1.

(** ** UTF-16 characters to UTF-8 *)

(* src/src/string_utf16.cpp:37-47 utf16::Char::toUTF8 *)
Definition Char_toUTF8 (c : Z) : list Z :=
  if c <=? 0x7F then [u8 c]
  else if c <=? 0x7FF then [u8 (Z.lor 0xC0 (Z.shiftr c 6)); u8 (Z.lor 0x80 (Z.land c 0x3f))]
  else [u8 (Z.lor 0xE0 (Z.shiftr c 12)); u8 (Z.lor 0x80 (Z.land (Z.shiftr c 6) 0x3f));
        u8 (Z.lor 0x80 (Z.land c 0x3f))].

(** ** Decoding UTF-8

    The iterator holds the bytes left and the current character; a bad encoding
    is an exception. *)
(* src/include/elm/string/utf8.h:54-55 utf8::Iter *)
Record Utf8Iter := mkUtf8 { u_left : list Z; u_c : Z }.

(** The number of bytes that follow the first one. *)
(* src/src/string_utf8.cpp:63-65 utf8::Iter::parse *)
Fixpoint utf8_length (fuel : nat) (cc l : Z) : Z :=
  match fuel with
  | O => l
  | S fuel => if (l <=? 3) && negb (Z.land cc (Z.shiftl 1 (6 - l)) =? 0)
              then utf8_length fuel cc (l + 1) else l
  end.

(* src/src/string_utf8.cpp:71-78 utf8::Iter::parse *)
Fixpoint utf8_tail (l : nat) (c : Z) (bs : list Z) : option (Z * list Z) :=
  match l with
  | O => Some (c, bs)
  | S l => match bs with
           | [] => None
           | cc :: bs => if negb (Z.land cc 0xC0 =? 0x80) then None
                         else utf8_tail l (u32 (Z.lor (Z.shiftl c 6) (Z.land cc 0x3f))) bs
           end
  end.

(** The next character; [None] for the exceptions. *)
(* src/src/string_utf8.cpp:43-79 utf8::Iter::parse *)
Definition utf8_parse (bs : list Z) : option Utf8Iter :=
  match bs with
  | [] => Some (mkUtf8 [] 0)
  | cc :: bs =>
      if Z.land cc 0x80 =? 0 then Some (mkUtf8 bs cc)
      else if Z.land cc 0x40 =? 0 then None
      else
        let l := utf8_length 4 cc 1 in
        if l =? 4 then None
        else r ← utf8_tail (Z.to_nat l) (Z.land cc (Z.shiftl 1 (6 - l) - 1)) bs;
             Some (mkUtf8 r.2 r.1)
  end.

(** The characters of a string, up to the first null one. *)
(* src/include/elm/string/utf8.h:41-50 utf8::Iter *)
Fixpoint utf8_chars (fuel : nat) (bs : list Z) : option (list Z) :=
  match fuel with
  | O => Some []
  | S fuel => i ← utf8_parse bs;
              if u_c i =? 0 then Some [] else cs ← utf8_chars fuel (u_left i); Some (u_c i :: cs)
  end.
Definition Utf8_decode (bs : list Z) : option (list Z) := utf8_chars (S (length bs)) bs.

(** ** Properties of characters *)

(** All the bytes, to decide a property of characters by evaluation. *)
Lemma all_bytes (P : Z -> bool) : forallb P (seqZ 0 256) = true -> forall c, inw 8 c -> P c = true.
Proof.
  intros HP c Hc. rewrite forallb_forall in HP. apply HP, list_elem_of_In, elem_of_seqZ.
  destruct Hc. split; [done|]. by change (0 + 256) with (2 ^ 8).
Qed.

(** On every byte, the classes of characters are what their name tells:
    digits of base 2, 10 and 16, letters of the two cases and all letters; and a
    character is in the class of a base exactly when its conversion to a digit
    succeeds. *)
Theorem Char_classes c : inw 8 c ->
  Char_isBin c = Ret (bool_decide (0 <= Char_asBin c)) /\
  Char_isDec c = Ret (bool_decide (0 <= Char_asDec c)) /\
  Char_isHex c = Ret (bool_decide (0 <= Char_asHex c)) /\
  Char_isLowerCase c = Ret (bool_decide (97 <= c <= 122)) /\
  Char_isUpperCase c = Ret (bool_decide (65 <= c <= 90)) /\
  Char_isLetter c = Ret (bool_decide (65 <= c <= 90 \/ 97 <= c <= 122)).
Proof.
  set (same := fun (m : outcome bool) (b : bool) =>
    match m with Ret x => Bool.eqb x b | Crash _ => false end).
  assert (forall m b, same m b = true -> m = Ret b) as Hs.
  { intros [x|f] b; [|done]. by intros ->%eqb_prop. }
  intros Hc. pose proof (all_bytes (fun c =>
    same (Char_isBin c) (bool_decide (0 <= Char_asBin c)) && same (Char_isDec c) (bool_decide (0 <= Char_asDec c)) &&
    same (Char_isHex c) (bool_decide (0 <= Char_asHex c)) && same (Char_isLowerCase c) (bool_decide (97 <= c <= 122)) &&
    same (Char_isUpperCase c) (bool_decide (65 <= c <= 90)) &&
    same (Char_isLetter c) (bool_decide (65 <= c <= 90 \/ 97 <= c <= 122))) eq_refl c Hc) as HP.
  rewrite !andb_true_iff in HP. destruct HP as (((((H1 & H2) & H3) & H4) & H5) & H6).
  repeat split; by apply Hs.
Qed.

Lemma Char_classes_witness : inw 8 (ch "k") /\ Char_isHex (ch "k") = Ret false /\ Char_isLetter (ch "k") = Ret true.
Proof.
  assert (inw 8 (ch "k")) as H by (by vm_compute). split; [exact H|].
  destruct (Char_classes (ch "k") H) as (_ & _ & H1 & _ & _ & H2). split; [exact H1|exact H2].
Defined.

(** The digits from 10 are not converted to hexadecimal. *)
Example lowerHex_wrong : Char_lowerHex 10 = Ret (ch "k") /\ Char_asHex (ch "k") = -1.
Proof. split; reflexivity. Qed.

(** ** Properties of the encodings *)

(** Properties of a few bits, by evaluation. *)
Lemma below (n : Z) (P : Z -> bool) : forallb P (seqZ 0 n) = true -> forall x, 0 <= x < n -> P x = true.
Proof.
  intros HP x Hx. rewrite forallb_forall in HP. apply HP, list_elem_of_In, elem_of_seqZ. lia.
Qed.

Definition cont_byte (x : Z) : Z := u8 (Z.lor 0x80 x).

Lemma cont_byte_ok x : 0 <= x < 64 ->
  Z.land (cont_byte x) 0xC0 = 0x80 /\ Z.land (cont_byte x) 0x3f = x.
Proof.
  intros Hx. pose proof (below 64 (fun x => (Z.land (cont_byte x) 0xC0 =? 0x80) &&
    (Z.land (cont_byte x) 0x3f =? x)) eq_refl x Hx) as H. cbn beta in H.
  by rewrite andb_true_iff, !Z.eqb_eq in H.
Qed.

(** The first byte [b] announces [l] others and holds the bits [x]. *)
Definition lead_ok (b l x : Z) : bool :=
  negb (Z.land b 0x80 =? 0) && negb (Z.land b 0x40 =? 0) && (utf8_length 4 b 1 =? l) &&
  (Z.land b (Z.shiftl 1 (6 - l) - 1) =? x).
Lemma lead2_ok x : 0 <= x < 32 -> lead_ok (u8 (Z.lor 0xC0 x)) 1 x = true.
Proof. exact (below 32 (fun x => lead_ok (u8 (Z.lor 0xC0 x)) 1 x) eq_refl x). Qed.
Lemma lead3_ok x : 0 <= x < 16 -> lead_ok (u8 (Z.lor 0xE0 x)) 2 x = true.
Proof. exact (below 16 (fun x => lead_ok (u8 (Z.lor 0xE0 x)) 2 x) eq_refl x). Qed.

Lemma parse_lead b l x bs : lead_ok b l x = true -> l <> 4 ->
  utf8_parse (b :: bs) = (r ← utf8_tail (Z.to_nat l) x bs; Some (mkUtf8 r.2 r.1)).
Proof.
  unfold lead_ok. rewrite !andb_true_iff, !negb_true_iff, !Z.eqb_eq.
  intros (((H1 & H2) & H3) & H4) Hl. cbn [utf8_parse]. rewrite H1, H2, H3, H4.
  by rewrite (proj2 (Z.eqb_neq l 4)).
Qed.

Lemma shift_or a b : 0 <= a < 2 ^ 20 -> 0 <= b < 64 -> u32 (Z.lor (Z.shiftl a 6) b) = a * 64 + b.
Proof.
  intros Ha Hb. pose proof (Zbitwise.Z.add_lor_land (Z.shiftl a 6) b) as E.
  assert (Z.land (Z.shiftl a 6) b = 0) as E0.
  { apply Z.bits_inj'. intros i Hi. rewrite Z.land_spec, Z.bits_0.
    destruct (Z.ltb_spec i 6); [by rewrite Z.shiftl_spec_low|].
    rewrite (testbit_high 6 b); [by rewrite andb_false_r|split; cbn; lia|lia]. }
  rewrite E0, Z.shiftl_mul_pow2, Z.add_0_r in E by lia. change (2 ^ 6) with 64 in E.
  rewrite Z.shiftl_mul_pow2 by lia. change (2 ^ 6) with 64. rewrite E.
  apply Z.mod_small. change (2 ^ 32) with 4294967296. change (2 ^ 20) with 1048576 in Ha. lia.
Qed.

Lemma tail_step l c x bs : 0 <= c < 2 ^ 20 -> 0 <= x < 64 ->
  utf8_tail (S l) c (cont_byte x :: bs) = utf8_tail l (c * 64 + x) bs.
Proof.
  intros Hc Hx. destruct (cont_byte_ok x Hx) as [H1 H2]. cbn [utf8_tail].
  by rewrite H1, Z.eqb_refl, H2, shift_or.
Qed.

(** Decoding the encoding of a character of 16 bits, whatever follows. *)
Lemma parse_toUTF8 c rest : inw 16 c -> utf8_parse (Char_toUTF8 c ++ rest) = Some (mkUtf8 rest c).
Proof.
  intros [H0 H1]. change (2 ^ 16) with 65536 in H1. unfold Char_toUTF8.
  change 0x3f with (Z.ones 6). rewrite !Z.land_ones, !Z.shiftr_div_pow2 by lia.
  change (2 ^ 6) with 64. change (2 ^ 12) with 4096.
  destruct (Z.leb_spec c 0x7F); [|destruct (Z.leb_spec c 0x7FF)]; cbn [app].
  - unfold wrap. rewrite Z.mod_small by (change (2 ^ 8) with 256; lia). unfold utf8_parse.
    assert ((Z.land c 0x80 =? 0) = true) as ->; [|done].
    exact (below 128 (fun c => Z.land c 0x80 =? 0) eq_refl c ltac:(lia)).
  - fold (cont_byte (c mod 64)). rewrite (parse_lead _ 1 (c / 64)) by (done || apply lead2_ok; dlia).
    change (Z.to_nat 1) with 1%nat. rewrite tail_step; [|split; [dlia|change (2 ^ 20) with 1048576; dlia]|dlia].
    cbn. do 2 f_equal. dlia.
  - fold (cont_byte (c mod 64)). fold (cont_byte ((c / 64) mod 64)).
    rewrite (parse_lead _ 2 (c / 4096)) by (done || apply lead3_ok; dlia).
    change (Z.to_nat 2) with 2%nat. rewrite tail_step; [|split; [dlia|change (2 ^ 20) with 1048576; dlia]|dlia].
    rewrite tail_step; [|split; [dlia|change (2 ^ 20) with 1048576; dlia]|dlia].
    cbn. do 2 f_equal. dlia.
Qed.

(** [C24] The UTF-8 iterator decodes what the UTF-16 characters encode: for any
    string of non-null 16-bit characters, decoding the concatenation of their
    encodings gives the characters back. *)
Theorem utf8_roundtrip cs : Forall (fun c => 0 < c < 2 ^ 16) cs ->
  Utf8_decode (concat (Char_toUTF8 <$> cs)) = Some cs.
Proof.
  intros Hcs. unfold Utf8_decode.
  assert (forall fuel, (length (concat (Char_toUTF8 <$> cs)) < fuel)%nat ->
    utf8_chars fuel (concat (Char_toUTF8 <$> cs)) = Some cs) as HH; [|by apply HH; lia].
  induction Hcs as [|c cs Hc Hcs IH]; intros fuel Hf; (destruct fuel as [|fuel]; [cbn in Hf; lia|]); [done|].
  cbn [fmap list_fmap concat] in *. cbn [utf8_chars].
  rewrite parse_toUTF8 by (split; lia). cbn [u_c u_left mbind option_bind].
  rewrite (proj2 (Z.eqb_neq c 0)) by lia.
  assert (0 < length (Char_toUTF8 c))%nat as Hl by
    (unfold Char_toUTF8; do 2 (case_match; cbn [length]; [lia|]); cbn; lia).
  rewrite IH; [done|]. rewrite length_app in Hf. change (list_fmap _ _ Char_toUTF8 cs) with (Char_toUTF8 <$> cs) in *. lia.
Qed.

Lemma utf8_roundtrip_witness :
  Forall (fun c => 0 < c < 2 ^ 16) [0x41; 0xE9; 0x20AC] /\
  Utf8_decode [0x41; 0xC3; 0xA9; 0xE2; 0x82; 0xAC] = Some [0x41; 0xE9; 0x20AC].
Proof.
  assert (Forall (fun c => 0 < c < 2 ^ 16) [0x41; 0xE9; 0x20AC]) as H.
  { repeat (constructor; [by vm_compute|]). constructor. }
  split; [exact H|]. exact (utf8_roundtrip [0x41; 0xE9; 0x20AC] H).
Defined.
