(* ===== verification/Json.v ===== *)
(** * JSON ([src/json.cpp], [src/json_Parser.cpp])

    [Saver] writes JSON on any output stream, by a state machine with a stack of
    states; [Parser] reads JSON from any input stream and calls a [Maker], an
    object of the client that may throw.  [cfuel] bounds the loops over
    characters and [fuel] the depth of the calls of the parser. *)

From S2P Require Import Prelude Streams Output Input Text.

(** ** Saver *)

(* src/include/elm/json/Saver.h:92-100 Saver::state_t *)
Inductive state_t := BEGIN | OBJECT | IN_OBJECT | FIELD | ARRAY | IN_ARRAY | END_.

(* src/include/elm/json/Saver.h:109-115 Saver *)
Record Saver (S : Type) := mkSv { sv_state : state_t; sv_stack : list state_t;
  sv_readable : bool; sv_indent : list Z; sv_out : Output S }.
Arguments mkSv {S} _ _ _ _ _.
Arguments sv_state {S} _.
Arguments sv_stack {S} _.
Arguments sv_readable {S} _.
Arguments sv_indent {S} _.
Arguments sv_out {S} _.

(* src/src/json.cpp:156-163 Saver::next *)
Definition Saver_next (s : state_t) : state_t :=
  match s with OBJECT => IN_OBJECT | ARRAY => IN_ARRAY | s => s end.
(* src/src/json.cpp:170-172 Saver::isObject *)
Definition isObject (s : state_t) : bool := match s with OBJECT | IN_OBJECT => true | _ => false end.
(* src/src/json.cpp:179-181 Saver::isArray *)
Definition isArray (s : state_t) : bool := match s with ARRAY | IN_ARRAY => true | _ => false end.
Definition is_state (s t : state_t) : bool :=
  match s, t with
  | BEGIN, BEGIN | OBJECT, OBJECT | IN_OBJECT, IN_OBJECT | FIELD, FIELD | ARRAY, ARRAY
  | IN_ARRAY, IN_ARRAY | END_, END_ => true
  | _, _ => false
  end.

Section Saver.
Context {S : Type} `{OutStream S}.
Abbreviation SaverM := (IO (Saver S)).

(** [_out << ...]. *)
Definition sv_do {A} (m : IO (Output S) A) : SaverM A := fun s =>
  r ← m (sv_out s); Ret (r.1, mkSv (sv_state s) (sv_stack s) (sv_readable s) (sv_indent s) r.2).
Definition sv_puts (b : list Z) : SaverM unit := sv_do (Output_print_string b).
Definition sv_get : SaverM state_t := fun s => Ret (Val (sv_state s), s).
Definition sv_set (st : state_t) : SaverM unit := fun s =>
  Ret (Val tt, mkSv st (sv_stack s) (sv_readable s) (sv_indent s) (sv_out s)).
Definition sv_push (st : state_t) : SaverM unit := fun s =>
  Ret (Val tt, mkSv (sv_state s) (st :: sv_stack s) (sv_readable s) (sv_indent s) (sv_out s)).
Definition sv_pop : SaverM state_t := fun s =>
  match sv_stack s with
  | st :: stk => Ret (Val st, mkSv (sv_state s) stk (sv_readable s) (sv_indent s) (sv_out s))
  | [] => Crash AssertFailed
  end.
Definition sv_assert (b : bool) : SaverM unit := lift (assertP b).

(* src/src/json.cpp:47-51 Saver::Saver *)
Definition Saver_make (out : S) : outcome (Saver (BufferedOutStream S)) :=
  buf ← BufferedOutStream_make out default_size; Ret (mkSv BEGIN [] false [9] (Output_make buf)).
(* src/include/elm/json/Saver.h:43-43 Saver::setReadable *)
Definition Saver_setReadable (b : bool) (s : Saver S) : Saver S :=
  mkSv (sv_state s) (sv_stack s) b (sv_indent s) (sv_out s).
(* src/include/elm/json/Saver.h:45-45 Saver::setIndent *)
Definition Saver_setIndent (i : list Z) (s : Saver S) : Saver S :=
  mkSv (sv_state s) (sv_stack s) (sv_readable s) i (sv_out s).
(* src/src/json.cpp:108-110 Saver::close *)
Definition Saver_close : SaverM unit := sv_do Output_flush.

(** [_out << endl] prints the end of line and flushes the stream. *)
(* src/include/elm/io/Output.h:239-239 operator<< *)
Definition sv_endl : SaverM unit :=
  sv_do (Output_print_char 10) ;; sv_do (strm_call out_flush) ;; mret tt.
Fixpoint sv_indents (n : nat) (i : list Z) : SaverM unit :=
  match n with O => mret tt | Datatypes.S n => sv_puts i ;; sv_indents n i end.

(* src/src/json.cpp:141-149 Saver::doIndent *)
Definition Saver_doIndent (close : bool) : SaverM unit := fun s =>
  ((if negb close && (is_state (sv_state s) IN_ARRAY || is_state (sv_state s) IN_OBJECT)
    then sv_puts (text ",") else mret tt) ;;
   if sv_readable s && negb (is_state (sv_state s) FIELD)
   then sv_endl ;; sv_indents (length (sv_stack s)) (sv_indent s) else mret tt) s.

(* src/src/json.cpp:80-102 Saver::nextByValue *)
Definition Saver_nextByValue : SaverM unit :=
  st ← sv_get;
  match st with
  | BEGIN => sv_set END_
  | OBJECT | IN_OBJECT => sv_assert false
  | FIELD => sv_pop ;; sv_set IN_OBJECT
  | ARRAY => sv_set IN_ARRAY
  | IN_ARRAY => mret tt
  | END_ => sv_assert false
  end.

(* src/src/json.cpp:187-195 Saver::beginMap *)
Definition Saver_beginMap : SaverM unit :=
  st ← sv_get;
  sv_assert (negb (is_state st END_)) ;;
  sv_assert (negb (isObject st)) ;;
  Saver_doIndent false ;;
  sv_puts (text "{") ;;
  (if isArray st then sv_push st else mret tt) ;;
  sv_set OBJECT.

(* src/src/json.cpp:200-208 Saver::endMap *)
Definition Saver_endMap : SaverM unit := fun s =>
  (sv_assert (isObject (sv_state s)) ;;
   (match sv_stack s with
    | [] => sv_set END_
    | _ => st ← sv_pop; sv_set (Saver_next st)
    end) ;;
   Saver_doIndent true ;;
   sv_puts (text "}")) s.

(* src/src/json.cpp:213-221 Saver::beginList *)
Definition Saver_beginList : SaverM unit :=
  st ← sv_get;
  sv_assert (negb (is_state st END_)) ;;
  sv_assert (is_state st FIELD || isArray st) ;;
  Saver_doIndent false ;;
  sv_puts (text "[") ;;
  (if negb (is_state st FIELD) then sv_push st else mret tt) ;;
  sv_set ARRAY.

(* src/src/json.cpp:226-233 Saver::endList *)
Definition Saver_endList : SaverM unit :=
  st ← sv_get;
  sv_assert (isArray st) ;;
  st ← sv_pop;
  sv_set ARRAY ;;
  Saver_doIndent true ;;
  sv_puts (text "]") ;;
  sv_set (Saver_next st).

(* src/src/json.cpp:286-302 Saver::escape *)
Definition Saver_escape (c : Z) : SaverM unit :=
  if c =? 34 then sv_puts [92; 34]
  else if c =? 92 then sv_puts [92; 92]
  else if c =? 8 then sv_puts (92 :: text "b")
  else if c =? 12 then sv_puts (92 :: text "f")
  else if c =? 10 then sv_puts (92 :: text "n")
  else if c =? 13 then sv_puts (92 :: text "r")
  else if c =? 9 then sv_puts (92 :: text "t")
  else if (32 <=? c) && (c <? 128) then sv_do (Output_print_char c)
  else sv_puts (92 :: text "u") ;;
       sv_do (Output_print_IntFormat (IntFormat_align A_RIGHT (IntFormat_pad (ch "0")
         (IntFormat_width 4 (IntFormat_unsigned_base 16 (IntFormat_make c false 4)))))).

(** The loop of [utf8::Iter] on a string; a bad encoding throws. *)
Fixpoint escape_all (fuel : nat) (bs : list Z) : SaverM unit :=
  match fuel with
  | O => mret tt
  | Datatypes.S fuel =>
      match utf8_parse bs with
      | None => throw
      | Some i => if u_c i =? 0 then mret tt else Saver_escape (u_c i) ;; escape_all fuel (u_left i)
      end
  end.
Definition escape_string (bs : list Z) : SaverM unit := escape_all (Datatypes.S (length bs)) bs.

(** [try m catch(...) { ASSERTP(false); }]. *)
Definition assert_no_throw (m : SaverM unit) : SaverM unit := fun s =>
  match m s with Ret (Throw, _) => Crash AssertFailed | r => r end.

(* src/src/json.cpp:238-279 Saver::key *)
Definition Saver_key (id : list Z) : SaverM unit :=
  st ← sv_get;
  sv_assert (isObject st) ;;
  Saver_doIndent false ;;
  sv_puts [34] ;;
  assert_no_throw (escape_string id) ;;
  sv_puts [34] ;;
  (fun s => sv_puts (if sv_readable s then text ": " else text ":") s) ;;
  sv_push st ;;
  sv_set FIELD.

(** What the methods for values other than numbers share. *)
Definition put_value (m : SaverM unit) : SaverM unit :=
  st ← sv_get;
  sv_assert (is_state st FIELD || isArray st) ;;
  Saver_doIndent false ;;
  m ;;
  (if is_state st FIELD then st ← sv_pop; sv_set st else mret tt) ;;
  st ← sv_get; sv_set (Saver_next st).
(* src/src/json.cpp:307-314 Saver::put *)
Definition Saver_put_null : SaverM unit := put_value (sv_puts (text "null")).
(* src/src/json.cpp:320-330 Saver::write *)
Definition Saver_write_bool (v : bool) : SaverM unit :=
  put_value (sv_puts (if v then text "true" else text "false")).
(* src/src/json.cpp:337-346 Saver::write *)
Definition Saver_write_char (c : Z) : SaverM unit :=
  put_value (sv_puts [34] ;; Saver_escape (u32 (swrap 8 c)) ;; sv_puts [34]).
(* src/src/json.cpp:360-386 Saver::write *)
Definition Saver_write_string (s : list Z) : SaverM unit :=
  put_value (sv_puts [34] ;; escape_string s ;; sv_puts [34]).
(* src/src/json.cpp:389-416 Saver::write *)
Definition Saver_write_int (x : Z) (sign : bool) (size : Z) : SaverM unit :=
  Saver_doIndent false ;; Saver_nextByValue ;;
  sv_do (Output_print_IntFormat (IntFormat_make x sign size)).
End Saver.

(** The destructor gives the stream back, the buffer being deleted. *)
(* src/src/json.cpp:71-77 Saver::~Saver *)
Definition Saver_delete {S} `{OutStream S} (s : Saver (BufferedOutStream S)) : outcome S :=
  r ← Saver_close s;
  match r.1 with
  | Val _ => BufferedOutStream_delete (o_strm (sv_out r.2))
  | Throw => Crash Undefined
  end.

(** ** Parser *)

(** The calls to the client. *)
(* src/include/elm/json/Parser.h:30-43 Maker *)
Inductive jevent :=
  | BeginObject | EndObject | BeginArray | EndArray | OnField (name : list Z) | OnNull
  | OnBool (b : bool) | OnInt (i : Z) | OnDouble (literal : list Z) | OnString (s : list Z).

(** The base class accepts nothing. *)
(* src/src/json_Parser.cpp:52-133 Maker *)
Definition Maker_default {M} (e : jevent) : IO M unit :=
  match e with EndObject | EndArray => mret tt | _ => throw end.

(* src/include/elm/json/Parser.h:55-69 Parser::token_t *)
Inductive token_t := NONE | LBRACE | RBRACE | LBRACK | RBRACK | NULL_TOKEN | TRUE | FALSE
  | INT | FLOAT | STRING | COMMA | COLON.
#[export] Instance token_eq_dec : EqDecision token_t.
Proof. solve_decision. Defined.

(* src/include/elm/json/Parser.h:86-89 Parser *)
Record Parser (S M : Type) := mkPs { ps_in : S; ps_m : M; ps_line : Z; ps_col : Z;
  ps_text : list Z; ps_prev : Z }.
Arguments mkPs {S M} _ _ _ _ _ _.
Arguments ps_in {S M} _.
Arguments ps_m {S M} _.
Arguments ps_line {S M} _.
Arguments ps_col {S M} _.
Arguments ps_text {S M} _.
Arguments ps_prev {S M} _.

Section Parser.
Context {S M : Type} `{InStream S} (on : jevent -> IO M unit) (cfuel : nat).
Abbreviation ParserM := (IO (Parser S M)).

(** [m.onX(...)]. *)
Definition ps_call (e : jevent) : ParserM unit := fun p =>
  r ← on e (ps_m p); Ret (r.1, mkPs (ps_in p) r.2 (ps_line p) (ps_col p) (ps_text p) (ps_prev p)).
Definition ps_setText (t : list Z) : ParserM unit := fun p =>
  Ret (Val tt, mkPs (ps_in p) (ps_m p) (ps_line p) (ps_col p) t (ps_prev p)).
Definition ps_getText : ParserM (list Z) := fun p => Ret (Val (ps_text p), p).
Definition ps_addCol : ParserM unit := fun p =>
  Ret (Val tt, mkPs (ps_in p) (ps_m p) (ps_line p) (ps_col p + 1) (ps_text p) (ps_prev p)).

(** [error] throws, with a message. *)
(* src/src/json_Parser.cpp:209-211 Parser::error *)
Definition Parser_error {A} : ParserM A := throw.

(* src/src/json_Parser.cpp:289-292 Parser::pushBack *)
Definition Parser_pushBack (c : Z) : ParserM unit := fun p =>
  assertP (ps_prev p =? 0) ;;
  Ret (Val tt, mkPs (ps_in p) (ps_m p) (ps_line p) (ps_col p) (ps_text p) c).

(** The characters are signed; the null one stands for the end. *)
(* src/src/json_Parser.cpp:343-361 Parser::nextChar *)
Definition Parser_nextChar : ParserM Z := fun p =>
  if negb (ps_prev p =? 0) then
    Ret (Val (ps_prev p), mkPs (ps_in p) (ps_m p) (ps_line p) (ps_col p) (ps_text p) 0)
  else
    r ← in_readByte (ps_in p);
    let c := r.1 in
    let p := mkPs r.2 (ps_m p) (ps_line p) (ps_col p) (ps_text p) (ps_prev p) in
    if c =? IN_FAILED then Ret (Throw, p)
    else if c =? IN_ENDED then Ret (Val 0, p)
    else if c =? 10 then Ret (Val 10, mkPs (ps_in p) (ps_m p) (ps_line p + 1) 0 (ps_text p) (ps_prev p))
    else Ret (Val (swrap 8 c), p).

(* src/src/json_Parser.cpp:294-299 isNumber *)
Definition isNumber (c : Z) : bool :=
  ((ch "0" <=? c) && (c <=? ch "9")) || (c =? ch ".") || (c =? ch "e") || (c =? ch "E").

(** [chars.indexOf(c) >= 0]. *)
Definition has_char (chars : list Z) (c : Z) : bool := existsb (Z.eqb c) chars.
Definition dec_base : list Z := text "0123456789+-.eE".
Definition hex_base : list Z := text "0123456789abcdefABCEDEF".
Definition bin_base : list Z := text "01".
Definition float_chars : list Z := text ".eE".

(** The loop on the characters of a number. *)
(* src/src/json_Parser.cpp:393-399 Parser::parseNumber *)
Definition number_step (chars : list Z) (st : list Z * token_t * Z)
    : ParserM (list Z * token_t * Z + list Z * token_t * Z) :=
  let '(buf, t, c) := st in
  if has_char chars c then
    ps_addCol ;;
    let t := if has_char float_chars c then FLOAT else t in
    c' ← Parser_nextChar;
    mret (inl (buf ++ [c], t, c'))
  else mret (inr (buf, t, c)).

(* src/src/json_Parser.cpp:371-403 Parser::parseNumber *)
Definition Parser_parseNumber (c base : Z) : ParserM token_t :=
  let '(chars, buf) :=
    if base =? 10 then (dec_base, [])
    else if base =? 2 then (bin_base, text "0b") else (hex_base, text "0x") in
  r ← io_iter cfuel (number_step chars) (buf, INT, c);
  Parser_pushBack r.2 ;;
  ps_setText r.1.1 ;;
  mret r.1.2.

(** The four hexadecimal digits of an escape: the characters written to the
    buffer, one after each digit. *)
(* src/src/json_Parser.cpp:425-433 Parser::parseString *)
Fixpoint parse_hex4 (n : nat) (wc : Z) (buf : list Z) : ParserM (list Z) :=
  match n with
  | O => mret buf
  | Datatypes.S n =>
      c ← Parser_nextChar;
      let d := Char_asHex c in
      if d <? 0 then Parser_error
      else let wc := Z.lor (Z.shiftl wc 4) d in parse_hex4 n wc (buf ++ Char_toUTF8 (u16 wc))
  end.

(** One character of a string: escaped characters are appended to [text]. *)
(* src/src/json_Parser.cpp:415-437 Parser::parseString *)
Definition string_step (q : Z) (st : list Z * Z) : ParserM (list Z * Z + list Z) :=
  let '(buf, c) := st in
  if c =? q then mret (inr buf)
  else
    buf ← (if negb (c =? 92) then mret (buf ++ [c])
           else
             c ← Parser_nextChar;
             if has_char ([34; 39; 92] ++ text "/bfnrt") c then
               t ← ps_getText; ps_setText (t ++ [c]) ;; mret buf
             else if negb (c =? ch "u") then Parser_error
             else parse_hex4 4 0 buf);
    c ← Parser_nextChar;
    mret (inl (buf, c)).

(* src/src/json_Parser.cpp:411-439 Parser::parseString *)
Definition Parser_parseString (q : Z) : ParserM unit :=
  c ← Parser_nextChar;
  buf ← io_iter cfuel (string_step q) ([], c);
  ps_setText buf.

(** [litt] without its first character. *)
(* src/src/json_Parser.cpp:446-450 Parser::parseLitt *)
Fixpoint Parser_parseLitt (litt : list Z) : ParserM unit :=
  match litt with
  | [] => mret tt
  | x :: litt => c ← Parser_nextChar; if negb (c =? x) then Parser_error else Parser_parseLitt litt
  end.

(* src/src/json_Parser.cpp:463-467 Parser::parseComment *)
Definition comment_step (_ : unit) : ParserM (unit + unit) :=
  io_iter cfuel (fun _ => c ← Parser_nextChar; mret (if negb (c =? ch "*") then inl tt else inr tt)) tt ;;
  c ← Parser_nextChar; mret (if c =? ch "/" then inr tt else inl tt).
(* src/src/json_Parser.cpp:457-471 Parser::parseComment *)
Definition Parser_parseComment : ParserM unit :=
  c ← Parser_nextChar;
  if c =? ch "/" then
    io_iter cfuel (fun c => if negb (c =? 10) then c ← Parser_nextChar; mret (inl c) else mret (inr tt)) c
  else if c =? ch "*" then io_iter cfuel comment_step tt
  else Parser_error.

(* src/src/json_Parser.cpp:478-491 Parser::parseBasedNumber *)
Definition Parser_parseBasedNumber : ParserM token_t :=
  c ← Parser_nextChar;
  if (c =? ch "x") || (c =? ch "X") then c ← Parser_nextChar; Parser_parseNumber c 16
  else if (c =? ch "b") || (c =? ch "B") then c ← Parser_nextChar; Parser_parseNumber c 2
  else if isNumber c then Parser_parseNumber c 10
  else Parser_pushBack c ;; ps_setText (text "0") ;; mret INT.

(* src/src/json_Parser.cpp:306-337 Parser::next *)
Definition next_step (_ : unit) : ParserM (unit + token_t) :=
  c ← Parser_nextChar;
  if c =? ch "{" then mret (inr LBRACE)
  else if c =? ch "}" then mret (inr RBRACE)
  else if c =? ch "[" then mret (inr LBRACK)
  else if c =? ch "]" then mret (inr RBRACK)
  else if c =? 39 then Parser_parseString 39 ;; mret (inr STRING)
  else if c =? 34 then Parser_parseString 34 ;; mret (inr STRING)
  else if c =? ch ":" then mret (inr COLON)
  else if c =? ch "," then mret (inr COMMA)
  else if (c =? 10) || (c =? 9) || (c =? 13) || (c =? 32) then mret (inl tt)
  else if (c =? ch "+") || (c =? ch "-") then t ← Parser_parseNumber c 10; mret (inr t)
  else if c =? ch "n" then Parser_parseLitt (text "ull") ;; mret (inr NULL_TOKEN)
  else if c =? ch "t" then Parser_parseLitt (text "rue") ;; mret (inr TRUE)
  else if c =? ch "f" then Parser_parseLitt (text "alse") ;; mret (inr FALSE)
  else if c =? ch "/" then Parser_parseComment ;; mret (inl tt)
  else if c =? ch "0" then t ← Parser_parseBasedNumber; mret (inr t)
  else if isNumber c then t ← Parser_parseNumber c 10; mret (inr t)
  else Parser_error.
(* src/src/json_Parser.cpp:306-337 Parser::next *)
Definition Parser_next : ParserM token_t := io_iter cfuel next_step tt.

(** [int i; text >> i;] *)
(* src/include/elm/string/AutoString.h:81-83 operator>> *)
Definition text_to_int (t : list Z) : ParserM Z := fun p =>
  r ← Input_scanLong (2 + length t) 0 (Input_make (BlockInStream_make t)); Ret (r.1, p).

(** The calls of [parseValue], [parseArray] and [parseObject]; the loops of the
    last two are calls on the current token. *)
(* src/src/json_Parser.cpp:230-282 Parser::parseValue *)
Fixpoint Parser_parseValue (fuel : nat) (t : token_t) : ParserM unit :=
  match fuel with
  | O => fun _ => Crash OutOfFuel
  | Datatypes.S fuel =>
      match t with
      | LBRACE => ps_call BeginObject ;; t ← Parser_next; parseObject_loop fuel t
      | LBRACK => ps_call BeginArray ;; t ← Parser_next; parseArray_loop fuel t
      | NULL_TOKEN => ps_call OnNull
      | TRUE => ps_call (OnBool true)
      | FALSE => ps_call (OnBool false)
      | INT => t ← ps_getText; i ← text_to_int t; ps_call (OnInt i)
      | FLOAT => t ← ps_getText; ps_call (OnDouble t)
      | STRING => t ← ps_getText; ps_call (OnString t)
      | _ => Parser_error
      end
  end
with parseArray_loop (fuel : nat) (t : token_t) : ParserM unit :=
  match fuel with
  | O => fun _ => Crash OutOfFuel
  | Datatypes.S fuel =>
      if decide (t = RBRACK) then mret tt
      else
        Parser_parseValue fuel t ;;
        t ← Parser_next;
        if decide (t = COMMA) then t ← Parser_next; parseArray_loop fuel t
        else if decide (t = RBRACK) then parseArray_loop fuel t
        else Parser_error
  end
with parseObject_loop (fuel : nat) (t : token_t) : ParserM unit :=
  match fuel with
  | O => fun _ => Crash OutOfFuel
  | Datatypes.S fuel =>
      if decide (t = RBRACE) then mret tt
      else if decide (t = STRING) then
        name ← ps_getText;
        ps_call (OnField name) ;;
        t ← Parser_next;
        if decide (t = COLON) then
          t ← Parser_next;
          Parser_parseValue fuel t ;;
          t ← Parser_next;
          if decide (t = COMMA) then t ← Parser_next; parseObject_loop fuel t
          else if decide (t = RBRACE) then parseObject_loop fuel t
          else Parser_error
        else Parser_error
      else Parser_error
  end.

(* src/src/json_Parser.cpp:217-222 Parser::doParsing *)
Definition Parser_doParsing (fuel : nat) : ParserM unit :=
  (fun p => Ret (Val tt, mkPs (ps_in p) (ps_m p) 1 0 (ps_text p) 0)) ;;
  t ← Parser_next; Parser_parseValue fuel t.

(* src/src/json_Parser.cpp:156-158 Parser::Parser *)
Definition Parser_make (maker : M) (input : S) : Parser S M := mkPs input maker 0 0 [] 0.
End Parser.

(** ** Values and their renderings *)

Inductive json :=
  | JNull | JBool (b : bool) | JInt (i : Z) | JStr (s : list Z)
  | JArr (vs : list json) | JObj (fs : list (list Z * json)).

(** The calls to the client for a value: the ends of arrays and objects are not
    signalled. *)
Fixpoint events (v : json) : list jevent :=
  match v with
  | JNull => [OnNull]
  | JBool b => [OnBool b]
  | JInt i => [OnInt i]
  | JStr s => [OnString s]
  | JArr vs => BeginArray :: flat_map events vs
  | JObj fs => BeginObject :: flat_map (fun f => OnField f.1 :: events f.2) fs
  end.

(** A depth of calls that is enough to parse a value. *)
Fixpoint jsize (v : json) : nat :=
  match v with
  | JArr vs => 2 + list_sum (map (fun v => 1 + jsize v) vs)
  | JObj fs => 2 + list_sum (map (fun f => 1 + jsize f.2) fs)
  | _ => 1
  end%nat.

Definition json_blank (c : Z) : bool := (c =? 10) || (c =? 9) || (c =? 13) || (c =? 32).
Abbreviation blanks := (Forall (fun c => json_blank c = true)).
(** The characters that neither side escapes. *)
Definition plain (c : Z) : Prop := 32 <= c < 128 /\ c <> 34 /\ c <> 92.

(** [rendered v l]: the text [l] is JSON for [v], with any blanks. *)
Inductive rendered : json -> list Z -> Prop :=
  | r_null : rendered JNull (text "null")
  | r_true : rendered (JBool true) (text "true")
  | r_false : rendered (JBool false) (text "false")
  | r_int i : - 2 ^ 31 < i < 2 ^ 31 -> rendered (JInt i) (int_text i)
  | r_str s : Forall plain s -> rendered (JStr s) (34 :: s ++ [34])
  | r_arr vs l : items true vs l -> rendered (JArr vs) (ch "[" :: l)
  | r_obj fs l : fields true fs l -> rendered (JObj fs) (ch "{" :: l)
with items : bool -> list json -> list Z -> Prop :=
  | i_nil f w : blanks w -> items f [] (w ++ [ch "]"])
  | i_cons (f : bool) w v l vs k : blanks w -> rendered v l -> items false vs k ->
      items f (v :: vs) ((if f then [] else [ch ","]) ++ w ++ l ++ k)
with fields : bool -> list (list Z * json) -> list Z -> Prop :=
  | f_nil f w : blanks w -> fields f [] (w ++ [ch "}"])
  | f_cons (f : bool) w s w2 v l fs k : blanks w -> Forall plain s -> blanks w2 ->
      rendered v l -> fields false fs k ->
      fields f ((s, v) :: fs)
        ((if f then [] else [ch ","]) ++ w ++ (34 :: s ++ [34]) ++ ch ":" :: w2 ++ l ++ k).

Scheme rendered_mut := Minimality for rendered Sort Prop
  with items_mut := Minimality for items Sort Prop
  with fields_mut := Minimality for fields Sort Prop.

(** What may follow a value. *)
Definition follow (l : list Z) : Prop :=
  match l with [] => True | c :: _ => json_blank c = true \/ c = ch "," \/ c = ch "]" \/ c = ch "}" end.

Lemma follow_blanks w c l : blanks w -> follow (c :: l) -> follow (w ++ c :: l).
Proof. destruct w as [|x w]; [done|]. intros [Hx _]%Forall_cons _. by left. Qed.
Lemma follow_items vs k rest : items false vs k -> follow (k ++ rest).
Proof.
  inversion 1 as [f w Hw|f w v l vs' k' Hw]; subst; [rewrite <- app_assoc; apply follow_blanks; [done|]|].
  - cbn. tauto.
  - cbn. tauto.
Qed.
Lemma follow_fields fs k rest : fields false fs k -> follow (k ++ rest).
Proof.
  inversion 1 as [f w Hw|f w s w2 v l fs' k' Hw]; subst; [rewrite <- app_assoc; apply follow_blanks; [done|]|].
  - cbn. tauto.
  - cbn. tauto.
Qed.

(** ** Parsing what is rendered *)

Section ParserProofs.
Context {S : Type} (pending : S -> list Z -> Prop) `{ReliableByte S pending} (cfuel : nat).
Abbreviation Rec := (list jevent).
(** The client that records the calls. *)
Definition recorder (e : jevent) : IO Rec unit := fun m => Ret (Val tt, m ++ [e]).
Implicit Types p : Parser S Rec.
Abbreviation nextP := (Parser_next (S := S) (M := Rec) cfuel).

Definition ascii (l : list Z) : Prop := Forall (fun c => 0 < c < 128) l.

(** The parser has the characters [l] left, has made the calls [m] and its last
    token has the text [t]. *)
Definition at_text p l (m : Rec) (t : list Z) : Prop :=
  ascii l /\ ps_m p = m /\ ps_text p = t /\
  (ps_prev p = 0 /\ pending (ps_in p) l \/ exists l', l = ps_prev p :: l' /\ pending (ps_in p) l').

Lemma nextChar_ok p l m t : at_text p l m t ->
  exists p', Parser_nextChar p = Ret (Val (default 0 (head l)), p') /\ at_text p' (tail l) m t /\ ps_prev p' = 0.
Proof.
  intros (Ha & Hm & Ht & Hl). unfold Parser_nextChar. destruct Hl as [[-> Hp]|(l' & -> & Hp)].
  - cbn [negb Z.eqb]. destruct (readByte_law _ _ Hp) as (s' & E & Hs'). rewrite E. mred. cbn [fst snd].
    destruct l as [|x l].
    + eexists; split; [done|]. split; [|done]. split; [done|]. split; [done|]. split; [done|]. by left.
    + apply Forall_cons in Ha as [Hx Ha]. unfold wrap. rewrite Z.mod_small by (change (2 ^ 8) with 256; lia).
      cbn [head default option_map]. unfold IN_FAILED, IN_ENDED. cbn.
      rewrite (proj2 (Z.eqb_neq x (-1))), (proj2 (Z.eqb_neq x (-2))) by lia.
      destruct (Z.eqb_spec x 10) as [->|]; [|rewrite swrap_small by (cbn; lia)];
        (eexists; split; [done|]; split; [|done]; split; [done|]; split; [done|]; split; [done|]; by left).
  - apply Forall_cons in Ha as [Hx Ha]. rewrite (proj2 (Z.eqb_neq (ps_prev p) 0)) by lia.
    eexists; split; [done|]. split; [|done]. split; [done|]. split; [done|]. split; [done|]. by left.
Qed.

Lemma pushBack_ok p l m t : at_text p (tail l) m t -> ascii l -> ps_prev p = 0 ->
  exists p', Parser_pushBack (default 0 (head l)) p = Ret (Val tt, p') /\ at_text p' l m t.
Proof.
  intros (Ha & Hm & Ht & Hl) Hal Hz. unfold Parser_pushBack. rewrite Hz. mred.
  eexists; split; [done|]. split; [done|]. split; [done|]. split; [done|].
  destruct Hl as [[_ Hp]|(l' & E & Hp)].
  - destruct l as [|c l]; [by left|]. right. by exists l.
  - rewrite E in Ha. apply Forall_cons in Ha as [? _]. lia.
Qed.

(** [step_ok w t tx']: on the characters [w] before [rest], a step of [next]
    gives the token [t] with the text [tx'] (the last one when [None]). *)
Definition step_ok (w rest : list Z) (tok : token_t) (tx' : option (list Z)) : Prop :=
  forall p m tx, at_text p (w ++ rest) m tx -> exists p',
    next_step cfuel tt p = Ret (Val (inr tok), p') /\ at_text p' rest m (default tx tx').

Lemma next_blanks w rest tok tx' : step_ok w rest tok tx' -> forall ws n p m tx,
  blanks ws -> (length ws < n)%nat -> at_text p (ws ++ w ++ rest) m tx ->
  exists p', io_iter n (next_step (S := S) (M := Rec) cfuel) tt p = Ret (Val tok, p') /\
    at_text p' rest m (default tx tx').
Proof.
  intros Hstep ws. induction ws as [|c ws IH]; intros n p m tx Hw Hn Hp;
    (destruct n as [|n]; [cbn in Hn; lia|]); cbn [io_iter].
  - destruct (Hstep p m tx Hp) as (p' & E & Hp'). exists p'. by rewrite (io_bind_Val _ _ _ _ _ E).
  - apply Forall_cons in Hw as [Hc Hw].
    destruct (nextChar_ok _ _ _ _ Hp) as (p1 & E1 & H1 & _). cbn in E1, H1.
    rewrite (io_bind_Val _ _ p (inl tt) p1).
    + apply IH; [done|cbn in Hn; lia|done].
    + unfold next_step. rewrite (io_bind_Val _ _ _ _ _ E1). unfold json_blank in Hc.
      assert (c = 10 \/ c = 9 \/ c = 13 \/ c = 32) as D.
      { rewrite !orb_true_iff, !Z.eqb_eq in Hc. tauto. }
      by destruct D as [->|[->|[->| ->]]].
Qed.

Lemma token_ok w rest tok tx' ws p m tx : step_ok w rest tok tx' ->
  blanks ws -> (length ws < cfuel)%nat -> at_text p (ws ++ w ++ rest) m tx ->
  exists p', nextP p = Ret (Val tok, p') /\ at_text p' rest m (default tx tx').
Proof. intros Hstep. by apply next_blanks. Qed.

(** *** The tokens *)

(** Tokens of one character. *)
Lemma punct_ok c tok rest : In (c, tok) [(ch "{", LBRACE); (ch "}", RBRACE); (ch "[", LBRACK);
    (ch "]", RBRACK); (ch ":", COLON); (ch ",", COMMA)] -> step_ok [c] rest tok None.
Proof.
  intros Hin p m tx Hp. destruct (nextChar_ok _ _ _ _ Hp) as (p1 & E1 & H1 & _).
  exists p1. split; [|done]. unfold next_step. rewrite (io_bind_Val _ _ _ _ _ E1). cbn [app head from_option id].
  repeat (destruct Hin as [[= <- <-]|Hin]; [done|]). done.
Qed.

Lemma litt_ok litt : forall rest p m tx, at_text p (litt ++ rest) m tx ->
  exists p', Parser_parseLitt litt p = Ret (Val tt, p') /\ at_text p' rest m tx.
Proof.
  induction litt as [|c litt IH]; intros rest p m tx Hp; cbn [Parser_parseLitt]; [by exists p|].
  destruct (nextChar_ok _ _ _ _ Hp) as (p1 & E1 & H1 & _).
  rewrite (io_bind_Val _ _ _ _ _ E1). cbn. rewrite Z.eqb_refl. by apply IH.
Qed.

Lemma litteral_ok c litt tok rest :
  In (c, litt, tok) [(ch "n", text "ull", NULL_TOKEN); (ch "t", text "rue", TRUE); (ch "f", text "alse", FALSE)] ->
  step_ok (c :: litt) rest tok None.
Proof.
  intros Hin p m tx Hp. destruct (nextChar_ok _ _ _ _ Hp) as (p1 & E1 & H1 & _).
  destruct (litt_ok litt rest p1 m tx) as (p2 & E2 & H2); [exact H1|].
  exists p2. split; [|done]. unfold next_step. rewrite (io_bind_Val _ _ _ _ _ E1). cbn [app head from_option id].
  repeat (destruct Hin as [[= <- <- <-]|Hin]; [eval_tests; by rewrite (io_bind_Val _ _ _ _ _ E2)|]). done.
Qed.

(** Strings without escapes. *)
Lemma string_loop_ok s : forall n buf rest c p m tx,
  Forall plain s -> (length s < n)%nat -> c = default 0 (head (s ++ 34 :: rest)) ->
  at_text p (tail (s ++ 34 :: rest)) m tx ->
  exists p', io_iter n (string_step (S := S) (M := Rec) 34) (buf, c) p = Ret (Val (buf ++ s), p') /\
    at_text p' rest m tx.
Proof.
  induction s as [|x s IH]; intros n buf rest c p m tx Hs Hn -> Hp; (destruct n as [|n]; [cbn in Hn; lia|]);
    cbn [io_iter string_step app head default option_map].
  - exists p. rewrite app_nil_r. by split.
  - apply Forall_cons in Hs as [(Hx & Hq & Hb) Hs]. cbn [app tail] in Hp. cbn.
    rewrite (proj2 (Z.eqb_neq x 34)), (proj2 (Z.eqb_neq x 92)) by done. cbn [negb].
    destruct (nextChar_ok _ _ _ _ Hp) as (p1 & E1 & H1 & _).
    destruct (IH n (buf ++ [x]) rest _ p1 m tx Hs ltac:(cbn in Hn; lia) eq_refl H1) as (p2 & E2 & H2).
    exists p2. rewrite <- app_assoc in E2. split; [|done].
    rewrite (io_bind_Val _ _ p (inl (buf ++ [x], default 0 (head (s ++ 34 :: rest)))) p1); [exact E2|].
    rewrite (io_bind_Val _ _ p (buf ++ [x]) p) by done. by rewrite (io_bind_Val _ _ _ _ _ E1).
Qed.

Lemma string_ok s rest : Forall plain s -> (length s < cfuel)%nat ->
  step_ok (34 :: s ++ [34]) rest STRING (Some s).
Proof.
  intros Hs Hn p m tx Hp. cbn [app] in Hp. rewrite <- app_assoc in Hp. cbn [app] in Hp.
  destruct (nextChar_ok _ _ _ _ Hp) as (p1 & E1 & H1 & _). cbn [tail] in H1.
  destruct (nextChar_ok _ _ _ _ H1) as (p2 & E2 & H2 & _).
  destruct (string_loop_ok s cfuel [] rest _ p2 m tx Hs Hn eq_refl H2) as (p3 & E3 & H3).
  exists (mkPs (ps_in p3) (ps_m p3) (ps_line p3) (ps_col p3) s (ps_prev p3)). split.
  - unfold next_step. rewrite (io_bind_Val _ _ _ _ _ E1). cbn [head from_option id]. eval_tests.
    assert (Parser_parseString cfuel 34 p1 =
      Ret (Val tt, mkPs (ps_in p3) (ps_m p3) (ps_line p3) (ps_col p3) s (ps_prev p3))) as Ep.
    { unfold Parser_parseString. rewrite (io_bind_Val _ _ _ _ _ E2). by rewrite (io_bind_Val _ _ _ _ _ E3). }
    by rewrite (io_bind_Val _ _ _ _ _ Ep).
  - destruct H3 as (Ha & Hm & Ht & Hl). by split_and!.
Qed.

(** Integers. *)
Definition int_char (c : Z) : Prop := 48 <= c <= 57 \/ c = 45.

Lemma int_char_ok c : int_char c -> has_char dec_base c = true /\ has_char float_chars c = false.
Proof.
  intros Hc. assert (forall c, 45 <= c < 58 -> (negb (bool_decide (int_char c)) ||
    has_char dec_base c && negb (has_char float_chars c)) = true) as HH.
  { intros x Hx. pose proof (below 13 (fun x => negb (bool_decide (int_char (45 + x))) ||
      has_char dec_base (45 + x) && negb (has_char float_chars (45 + x)))) as Hb.
    specialize (Hb ltac:(vm_compute; done) (x - 45) ltac:(lia)). cbn beta in Hb.
    replace (45 + (x - 45)) with x in Hb by lia. exact Hb. }
  specialize (HH c ltac:(unfold int_char in Hc; lia)). rewrite bool_decide_eq_true_2 in HH by done.
  cbn [negb orb] in HH. apply andb_true_iff in HH as [E1 E2]. split; [done|by apply negb_true_iff].
Qed.

Lemma int_text_chars z : - 2 ^ 31 < z < 2 ^ 31 -> Forall int_char (int_text z).
Proof.
  assert (forall v, 0 <= v -> Forall int_char (numeral 10 (ch "a") v)) as Hn.
  { intros v Hv. destruct (numeral_digits 10 (ch "a") v) as (ds & -> & Hds & _); [done|done|].
    apply Forall_fmap. eapply Forall_impl; [exact Hds|]. intros d Hd. cbn beta in Hd. cbn. unfold digit_char.
    rewrite (proj2 (Z.ltb_lt d 10)) by lia. left. change (ch "0") with 48. lia. }
  intros Hz. unfold int_text. destruct (Z.ltb_spec z 0); [constructor; [by right|]|]; apply Hn; lia.
Qed.

(** No character of a number at the start. *)
Definition ends_int (l : list Z) : Prop := has_char dec_base (default 0 (head l)) = false.

Lemma follow_ends_int l : follow l -> ends_int l.
Proof.
  destruct l as [|c l]; [done|]. unfold ends_int, follow, json_blank. cbn [head from_option id].
  rewrite !orb_true_iff, !Z.eqb_eq.
  by intros [[[[->| ->]| ->]| ->]|[->|[->| ->]]].
Qed.

Lemma number_loop_ok cs : forall n buf rest c p m tx,
  Forall int_char cs -> (length cs < n)%nat -> ends_int rest -> c = default 0 (head (cs ++ rest)) ->
  at_text p (tail (cs ++ rest)) m tx -> ps_prev p = 0 ->
  exists p', io_iter n (number_step (S := S) (M := Rec) dec_base) (buf, INT, c) p =
      Ret (Val (buf ++ cs, INT, default 0 (head rest)), p') /\ at_text p' (tail rest) m tx /\ ps_prev p' = 0.
Proof.
  induction cs as [|x cs IH]; intros n buf rest c p m tx Hcs Hn He -> Hp Hz; (destruct n as [|n]; [cbn in Hn; lia|]);
    cbn [io_iter number_step app].
  - exists p. unfold ends_int in He. rewrite He, app_nil_r. by split.
  - apply Forall_cons in Hcs as [Hx Hcs]. cbn [app tail head from_option id] in *.
    destruct (int_char_ok x Hx) as [-> ->].
    set (p0 := mkPs (ps_in p) (ps_m p) (ps_line p) (ps_col p + 1) (ps_text p) (ps_prev p)).
    assert (at_text p0 (cs ++ rest) m tx) as H0' by exact Hp.
    destruct (nextChar_ok _ _ _ _ H0') as (p1 & E1 & H1 & Z1).
    destruct (IH n (buf ++ [x]) rest _ p1 m tx Hcs ltac:(cbn in Hn; lia) He eq_refl H1 Z1) as (p2 & E2 & H2).
    exists p2. rewrite <- app_assoc in E2. split; [|done].
    rewrite (io_bind_Val _ _ p (inl (buf ++ [x], INT, default 0 (head (cs ++ rest)))) p1); [exact E2|].
    rewrite (io_bind_Val ps_addCol _ p tt p0) by done. by rewrite (io_bind_Val _ _ _ _ _ E1).
Qed.

Lemma parseNumber_ok cs rest c p m tx : Forall int_char cs -> (length cs < cfuel)%nat -> ends_int rest ->
  c = default 0 (head (cs ++ rest)) -> at_text p (tail (cs ++ rest)) m tx -> ps_prev p = 0 -> ascii rest ->
  exists p', Parser_parseNumber cfuel c 10 p = Ret (Val INT, p') /\ at_text p' rest m cs.
Proof.
  intros Hcs Hn He Hc Hp Hz Ha. unfold Parser_parseNumber. cbn [Z.eqb Pos.eqb].
  destruct (number_loop_ok cs cfuel [] rest c p m tx) as (p1 & E1 & H1 & Z1); [done..|].
  rewrite (io_bind_Val _ _ _ _ _ E1). cbn [fst snd].
  destruct (pushBack_ok p1 rest m tx H1 Ha Z1) as (p2 & E2 & H2).
  rewrite (io_bind_Val _ _ _ _ _ E2).
  exists (mkPs (ps_in p2) (ps_m p2) (ps_line p2) (ps_col p2) cs (ps_prev p2)). split; [done|].
  destruct H2 as (? & ? & ? & ?). by split_and!.
Qed.

Lemma ascii_app l k : ascii (l ++ k) <-> ascii l /\ ascii k.
Proof. apply Forall_app. Qed.

Lemma int_ok z rest : - 2 ^ 31 < z < 2 ^ 31 -> follow rest -> (length (int_text z) < cfuel)%nat ->
  step_ok (int_text z) rest INT (Some (int_text z)).
Proof.
  intros Hz Hf Hn p m tx Hp. pose proof (int_text_chars z Hz) as Hcs.
  pose proof (follow_ends_int rest Hf) as He. assert (ascii rest) as Ha by (apply (ascii_app (int_text z)), Hp).
  destruct (nextChar_ok _ _ _ _ Hp) as (p1 & E1 & H1 & Z1).
  unfold next_step. rewrite (io_bind_Val _ _ _ _ _ E1).
  destruct (Z.eq_dec z 0) as [->|Hnz].
  { change (int_text 0) with [48] in *. cbn [app head from_option id tail] in *. eval_tests. cbv iota.
    destruct (nextChar_ok _ _ _ _ H1) as (p2 & E2 & H2 & Z2).
    destruct (pushBack_ok p2 rest m tx H2 Ha Z2) as (p3 & E3 & H3).
    exists (mkPs (ps_in p3) (ps_m p3) (ps_line p3) (ps_col p3) [48] (ps_prev p3)). split.
    - rewrite (io_bind_Val _ _ p1 INT (mkPs (ps_in p3) (ps_m p3) (ps_line p3) (ps_col p3) [48] (ps_prev p3))); [done|].
      unfold Parser_parseBasedNumber. rewrite (io_bind_Val _ _ _ _ _ E2).
      assert (forall c, follow (c :: tail rest) \/ c = 0 -> (c =? ch "x") || (c =? ch "X") = false /\
        (c =? ch "b") || (c =? ch "B") = false /\ isNumber c = false) as HH.
      { intros c Hc. assert (c = 10 \/ c = 9 \/ c = 13 \/ c = 32 \/ c = 44 \/ c = 93 \/ c = 125 \/ c = 0) as D.
        { cbn in Hc. unfold json_blank in Hc. rewrite !orb_true_iff, !Z.eqb_eq in Hc.
          change (ch ",") with 44 in Hc. change (ch "]") with 93 in Hc. change (ch "}") with 125 in Hc. tauto. }
        repeat (destruct D as [->|D]; [done|]). by subst c. }
      destruct (HH (default 0 (head rest))) as (-> & -> & ->).
      { destruct rest; [by right|by left]. }
      by rewrite (io_bind_Val _ _ _ _ _ E3).
    - destruct H3 as (? & ? & ? & ?). by split_and!. }
  destruct (parseNumber_ok (int_text z) rest (default 0 (head (int_text z ++ rest))) p1 m tx)
    as (p2 & E2 & H2); [done..|].
  exists p2. split; [|done].
  assert (exists c l, int_text z ++ rest = c :: l /\ (c = 45 \/ 49 <= c <= 57)) as (c & l & El & Hc).
  { unfold int_text. destruct (Z.ltb_spec z 0); [by eexists _, _; split; [|left]|].
    destruct (numeral_head z) as (d & Ed & Hd); [lia|].
    destruct (numeral 10 (ch "a") z) as [|c l]; [done|]. exists c, (l ++ rest). split; [done|].
    right. cbn in Ed. injection Ed as ->. unfold digit_char. rewrite (proj2 (Z.ltb_lt d 10)) by lia.
    change (ch "0") with 48. lia. }
  rewrite El in *. cbn [head from_option id] in *.
  destruct Hc as [->|Hc]; [eval_tests; by rewrite (io_bind_Val _ _ _ _ _ E2)|].
  assert (c = 49 \/ c = 50 \/ c = 51 \/ c = 52 \/ c = 53 \/ c = 54 \/ c = 55 \/ c = 56 \/ c = 57) as D by lia.
  assert (isNumber c = true) as En.
  { unfold isNumber. change (ch "0") with 48. change (ch "9") with 57.
    by rewrite (proj2 (Z.leb_le 48 c)), (proj2 (Z.leb_le c 57)) by lia. }
  repeat (destruct D as [->|D]; [eval_tests; rewrite En; by rewrite (io_bind_Val _ _ _ _ _ E2)|]).
  subst c. eval_tests. rewrite En. by rewrite (io_bind_Val _ _ _ _ _ E2).
Qed.

Lemma text_to_int_ok z p : - 2 ^ 31 < z < 2 ^ 31 -> text_to_int (S := S) (M := Rec) (int_text z) p = Ret (Val z, p).
Proof.
  intros Hz. unfold text_to_int. pose proof (int_text_chars z Hz) as Hcs.
  destruct (scanLong_ok bis_pending (2 + length (int_text z)) [] z
    (Input_make (BlockInStream_make (int_text z))) [] 0) as (i' & -> & _); [|constructor|done|done|cbn; lia|done].
  rewrite app_nil_r. split; [|split; [done|]].
  - eapply Forall_impl; [exact Hcs|]. intros c Hc. unfold int_char in Hc. split; cbn; lia.
  - exists (int_text z). split; [|left; split; [cbn; lia|done]]. split; [cbn; lia|split; [done|cbn; lia]].
Qed.

(** *** Values *)

Abbreviation parseV := (Parser_parseValue (S := S) (M := Rec) recorder cfuel).
Abbreviation arrayL := (parseArray_loop (S := S) (M := Rec) recorder cfuel).
Abbreviation objectL := (parseObject_loop (S := S) (M := Rec) recorder cfuel).

(** The loops, before the token they start with: [f] when no item was read. *)
Definition items_parse (f : bool) (fuel : nat) : IO (Parser S Rec) unit :=
  t ← nextP;
  if f then arrayL fuel t
  else if decide (t = COMMA) then t ← nextP; arrayL fuel t
  else if decide (t = RBRACK) then arrayL fuel t else Parser_error.
Definition fields_parse (f : bool) (fuel : nat) : IO (Parser S Rec) unit :=
  t ← nextP;
  if f then objectL fuel t
  else if decide (t = COMMA) then t ← nextP; objectL fuel t
  else if decide (t = RBRACE) then objectL fuel t else Parser_error.

Definition value_ok (v : json) (l : list Z) : Prop :=
  forall fuel w rest p m tx, blanks w -> (length w + length l < cfuel)%nat -> (jsize v <= fuel)%nat ->
  follow rest -> at_text p (w ++ l ++ rest) m tx ->
  exists t p1 p2 tx', nextP p = Ret (Val t, p1) /\ t <> RBRACK /\
    parseV fuel t p1 = Ret (Val tt, p2) /\ at_text p2 rest (m ++ events v) tx'.
Definition items_ok (f : bool) (vs : list json) (l : list Z) : Prop :=
  forall fuel rest p m tx, (length l < cfuel)%nat ->
  (1 + list_sum (map (fun v => 1 + jsize v) vs) <= fuel)%nat -> at_text p (l ++ rest) m tx ->
  exists p2 tx', items_parse f fuel p = Ret (Val tt, p2) /\ at_text p2 rest (m ++ flat_map events vs) tx'.
Definition fields_ok (f : bool) (fs : list (list Z * json)) (l : list Z) : Prop :=
  forall fuel rest p m tx, (length l < cfuel)%nat ->
  (1 + list_sum (map (fun f => 1 + jsize f.2) fs) <= fuel)%nat -> at_text p (l ++ rest) m tx ->
  exists p2 tx', fields_parse f fuel p = Ret (Val tt, p2) /\
    at_text p2 rest (m ++ flat_map (fun f => OnField f.1 :: events f.2) fs) tx'.

Lemma call_ok e p l m tx : at_text p l m tx ->
  exists p', ps_call (S := S) recorder e p = Ret (Val tt, p') /\ at_text p' l (m ++ [e]) tx.
Proof.
  intros (Ha & Hm & Ht & Hl). unfold ps_call, recorder. mred. eexists; split; [done|].
  split; [done|]. split; [by rewrite <- Hm|]. by split.
Qed.

(** Values of one token that lead to one call. *)
Lemma atom_ok v l tok tx1 e :
  (forall rest, follow rest -> (length l < cfuel)%nat -> step_ok l rest tok tx1) ->
  (forall fuel p, parseV (Datatypes.S fuel) tok p = ps_call recorder e p \/
     exists t, tx1 = Some t /\ (ps_text p = t -> parseV (Datatypes.S fuel) tok p = ps_call recorder e p)) ->
  events v = [e] -> jsize v = 1%nat -> tok <> RBRACK -> value_ok v l.
Proof.
  intros Hstep Hv He Hj Ht fuel w rest p m tx Hw Hn Hf Hfo Hp. destruct fuel as [|fuel]; [lia|].
  destruct (token_ok l rest tok tx1 w p m tx) as (p1 & E1 & H1); [apply Hstep; [done|lia]|done|lia|done|].
  destruct (call_ok e _ _ _ _ H1) as (p2 & E2 & H2).
  exists tok, p1, p2, (default tx tx1). rewrite He. split; [done|]. split; [done|]. split; [|done].
  destruct (Hv fuel p1) as [->|(t & -> & Et)]; [done|]. rewrite Et; [done|]. by destruct H1 as (_ & _ & -> & _).
Qed.

Lemma array_ok vs l : items_ok true vs l -> value_ok (JArr vs) (ch "[" :: l).
Proof.
  intros Hi fuel w rest p m tx Hw Hn Hj _ Hp. cbn [jsize length] in Hj, Hn. destruct fuel as [|fuel]; [lia|].
  destruct (token_ok [ch "["] (l ++ rest) LBRACK None w p m tx) as (p1 & E1 & H1);
    [apply punct_ok; cbn; tauto|done|lia|exact Hp|].
  destruct (call_ok BeginArray _ _ _ _ H1) as (p2 & E2 & H2).
  destruct (Hi fuel rest p2 _ _ ltac:(lia) ltac:(lia) H2) as (p3 & tx' & E3 & H3).
  exists LBRACK, p1, p3, tx'. split; [done|]. split; [done|]. split.
  - cbn [Parser_parseValue]. by rewrite (io_bind_Val _ _ _ _ _ E2).
  - cbn [events]. by rewrite <- app_assoc in H3.
Qed.
Lemma object_ok fs l : fields_ok true fs l -> value_ok (JObj fs) (ch "{" :: l).
Proof.
  intros Hi fuel w rest p m tx Hw Hn Hj _ Hp. cbn [jsize length] in Hj, Hn. destruct fuel as [|fuel]; [lia|].
  destruct (token_ok [ch "{"] (l ++ rest) LBRACE None w p m tx) as (p1 & E1 & H1);
    [apply punct_ok; cbn; tauto|done|lia|exact Hp|].
  destruct (call_ok BeginObject _ _ _ _ H1) as (p2 & E2 & H2).
  destruct (Hi fuel rest p2 _ _ ltac:(lia) ltac:(lia) H2) as (p3 & tx' & E3 & H3).
  exists LBRACE, p1, p3, tx'. split; [done|]. split; [done|]. split.
  - cbn [Parser_parseValue]. by rewrite (io_bind_Val _ _ _ _ _ E2).
  - cbn [events]. by rewrite <- app_assoc in H3.
Qed.

Lemma items_nil_ok (f : bool) w : blanks w -> items_ok f [] (w ++ [ch "]"]).
Proof.
  intros Hw fuel rest p m tx Hn Hj Hp. rewrite length_app in Hn. cbn [length] in Hn. destruct fuel as [|fuel]; [lia|].
  rewrite <- app_assoc in Hp.
  destruct (token_ok [ch "]"] rest RBRACK None w p m tx) as (p1 & E1 & H1);
    [apply punct_ok; cbn; tauto|done|lia|exact Hp|].
  exists p1, tx. unfold items_parse. rewrite (io_bind_Val _ _ _ _ _ E1), app_nil_r. by destruct f.
Qed.
Lemma fields_nil_ok (f : bool) w : blanks w -> fields_ok f [] (w ++ [ch "}"]).
Proof.
  intros Hw fuel rest p m tx Hn Hj Hp. rewrite length_app in Hn. cbn [length] in Hn. destruct fuel as [|fuel]; [lia|].
  rewrite <- app_assoc in Hp.
  destruct (token_ok [ch "}"] rest RBRACE None w p m tx) as (p1 & E1 & H1);
    [apply punct_ok; cbn; tauto|done|lia|exact Hp|].
  exists p1, tx. unfold fields_parse. rewrite (io_bind_Val _ _ _ _ _ E1), app_nil_r. by destruct f.
Qed.

Lemma items_cons_ok (f : bool) w v l vs k : blanks w -> rendered v l -> value_ok v l ->
  items false vs k -> items_ok false vs k ->
  items_ok f (v :: vs) ((if f then [] else [ch ","]) ++ w ++ l ++ k).
Proof.
  intros Hw _ Hv Hk Hi fuel rest p m tx Hn Hj Hp. rewrite !length_app in Hn. cbn [map] in Hj.
  change (list_sum (?x :: ?y)) with (x + list_sum y)%nat in Hj. destruct fuel as [|fuel]; [lia|].
  rewrite <- !app_assoc in Hp.
  assert (forall p, at_text p (w ++ l ++ k ++ rest) m tx -> exists t p1 p2 tx', nextP p = Ret (Val t, p1) /\
    t <> RBRACK /\ arrayL (Datatypes.S fuel) t p1 = Ret (Val tt, p2) /\
    at_text p2 rest (m ++ flat_map events (v :: vs)) tx') as Hloop.
  { clear p Hp. intros p Hp.
    destruct (Hv fuel w (k ++ rest) p m tx Hw ltac:(lia) ltac:(lia) (follow_items vs k rest Hk) Hp)
      as (t & p1 & p2 & tx1 & E1 & Ht & E2 & H2).
    destruct (Hi fuel rest p2 _ _ ltac:(lia) ltac:(lia) H2) as (p3 & tx2 & E3 & H3).
    exists t, p1, p3, tx2. split; [done|]. split; [done|]. split.
    - cbn [parseArray_loop]. rewrite decide_False by done. rewrite (io_bind_Val _ _ _ _ _ E2). exact E3.
    - cbn [flat_map]. by rewrite app_assoc. }
  unfold items_parse. destruct f; cbn [app] in Hp.
  - destruct (Hloop p Hp) as (t & p1 & p2 & tx' & E1 & _ & E2 & H2). exists p2, tx'.
    by rewrite (io_bind_Val _ _ _ _ _ E1).
  - destruct (token_ok [ch ","] (w ++ l ++ k ++ rest) COMMA None [] p m tx) as (p0 & E0 & H0');
      [apply punct_ok; cbn; tauto|done|cbn; lia|exact Hp|].
    destruct (Hloop p0 H0') as (t & p1 & p2 & tx' & E1 & _ & E2 & H2). exists p2, tx'.
    rewrite (io_bind_Val _ _ _ _ _ E0), decide_True by done. by rewrite (io_bind_Val _ _ _ _ _ E1).
Qed.

Lemma fields_cons_ok (f : bool) w s w2 v l fs k : blanks w -> Forall plain s -> blanks w2 ->
  rendered v l -> value_ok v l -> fields false fs k -> fields_ok false fs k ->
  fields_ok f ((s, v) :: fs) ((if f then [] else [ch ","]) ++ w ++ (34 :: s ++ [34]) ++ ch ":" :: w2 ++ l ++ k).
Proof.
  intros Hw Hs Hw2 _ Hv Hk Hi fuel rest p m tx Hn Hj Hp. rewrite !length_app in Hn. cbn [map length] in Hj, Hn.
  rewrite !length_app in Hn. cbn [length] in Hn.
  change (list_sum (?x :: ?y)) with (x + list_sum y)%nat in Hj. cbn [snd] in Hj. destruct fuel as [|fuel]; [lia|].
  rewrite <- !app_assoc in Hp. cbn [app] in Hp. rewrite <- !app_assoc in Hp.
  assert (forall p, at_text p (w ++ (34 :: s ++ [34]) ++ ch ":" :: w2 ++ l ++ k ++ rest) m tx ->
    exists t p1 p2 tx', nextP p = Ret (Val t, p1) /\
    objectL (Datatypes.S fuel) t p1 = Ret (Val tt, p2) /\
    at_text p2 rest (m ++ flat_map (fun f => OnField f.1 :: events f.2) ((s, v) :: fs)) tx') as Hloop.
  { clear p Hp. intros p Hp.
    destruct (token_ok (34 :: s ++ [34]) (ch ":" :: w2 ++ l ++ k ++ rest) STRING (Some s) w p m tx)
      as (p1 & E1 & H1); [apply string_ok; [done|lia]|done|lia|exact Hp|]. cbn [from_option id] in H1.
    destruct (call_ok (OnField s) _ _ _ _ H1) as (p2 & E2 & H2).
    destruct (token_ok [ch ":"] (w2 ++ l ++ k ++ rest) COLON None [] p2 (m ++ [OnField s]) s) as (p3 & E3 & H3);
      [apply punct_ok; cbn; tauto|done|cbn; lia|exact H2|].
    destruct (Hv fuel w2 (k ++ rest) p3 _ _ Hw2 ltac:(lia) ltac:(lia) (follow_fields fs k rest Hk) H3)
      as (t & p4 & p5 & tx1 & E4 & _ & E5 & H5).
    destruct (Hi fuel rest p5 _ _ ltac:(lia) ltac:(lia) H5) as (p6 & tx2 & E6 & H6).
    exists STRING, p1, p6, tx2. split; [done|]. split.
    - cbn [parseObject_loop]. rewrite decide_False, decide_True by done.
      rewrite (io_bind_Val ps_getText _ p1 s p1) by (unfold ps_getText; by destruct H1 as (_ & _ & -> & _)).
      rewrite (io_bind_Val _ _ _ _ _ E2), (io_bind_Val _ _ _ _ _ E3), decide_True by done.
      rewrite (io_bind_Val _ _ _ _ _ E4), (io_bind_Val _ _ _ _ _ E5). exact E6.
    - cbn [flat_map fst snd]. rewrite <- app_assoc in H6. cbn [app] in H6. by rewrite <- app_assoc in H6. }
  unfold fields_parse. destruct f; cbn [app] in Hp.
  - destruct (Hloop p) as (t & p1 & p2 & tx' & E1 & E2 & H2); [cbn [app]; by rewrite <- app_assoc|].
    exists p2, tx'. by rewrite (io_bind_Val _ _ _ _ _ E1).
  - destruct (token_ok [ch ","] (w ++ (34 :: s ++ [34]) ++ ch ":" :: w2 ++ l ++ k ++ rest) COMMA None [] p m tx)
      as (p0 & E0 & H0'); [apply punct_ok; cbn; tauto|done|cbn; lia|cbn [app]; rewrite <- app_assoc; exact Hp|].
    destruct (Hloop p0 H0') as (t & p1 & p2 & tx' & E1 & E2 & H2). exists p2, tx'.
    rewrite (io_bind_Val _ _ _ _ _ E0), decide_True by done. by rewrite (io_bind_Val _ _ _ _ _ E1).
Qed.

(** Every rendering of a value is parsed to its calls. *)
Lemma parse_rendered v l : rendered v l -> value_ok v l.
Proof.
  apply (rendered_mut value_ok items_ok fields_ok).
  - apply (atom_ok _ _ NULL_TOKEN None OnNull); try done; [|by left].
    intros rest _ _. apply (litteral_ok (ch "n") (text "ull")). cbn. tauto.
  - apply (atom_ok _ _ TRUE None (OnBool true)); try done; [|by left].
    intros rest _ _. apply (litteral_ok (ch "t") (text "rue")). cbn. tauto.
  - apply (atom_ok _ _ FALSE None (OnBool false)); try done; [|by left].
    intros rest _ _. apply (litteral_ok (ch "f") (text "alse")). cbn. tauto.
  - intros i Hi. apply (atom_ok _ _ INT (Some (int_text i)) (OnInt i)); try done.
    + intros rest Hf Hn. by apply int_ok.
    + intros fuel p. right. eexists; split; [done|]. intros E. cbn [Parser_parseValue].
      rewrite (io_bind_Val ps_getText _ p (int_text i) p) by (unfold ps_getText; by rewrite E).
      by rewrite (io_bind_Val _ _ _ _ _ (text_to_int_ok i p Hi)).
  - intros s Hs. apply (atom_ok _ _ STRING (Some s) (OnString s)); try done.
    + intros rest _ Hn. apply string_ok; [done|]. cbn in Hn. rewrite length_app in Hn. lia.
    + intros fuel p. right. exists s. split; [done|]. intros E. cbn [Parser_parseValue].
      by rewrite (io_bind_Val ps_getText _ p s p) by (unfold ps_getText; by rewrite E).
  - intros vs k _. apply array_ok.
  - intros fs k _. apply object_ok.
  - apply items_nil_ok.
  - intros. by apply items_cons_ok.
  - apply fields_nil_ok.
  - intros. by apply fields_cons_ok.
Qed.

(** A whole document. *)
Lemma doParsing_ok v l w rest s : rendered v l -> blanks w -> follow rest -> ascii (w ++ l ++ rest) ->
  pending s (w ++ l ++ rest) -> (length w + length l < cfuel)%nat -> forall fuel, (jsize v <= fuel)%nat ->
  exists p', Parser_doParsing recorder cfuel fuel (Parser_make [] s) = Ret (Val tt, p') /\ ps_m p' = events v.
Proof.
  intros Hr Hw Hf Ha Hp Hn fuel Hj.
  destruct (parse_rendered v l Hr fuel w rest (mkPs s [] 1 0 [] 0) [] []) as (t & p1 & p2 & tx' & E1 & _ & E2 & H2);
    [done..| |].
  - split; [done|]. split; [done|]. split; [done|]. by left.
  - exists p2. split; [|by destruct H2 as (_ & ? & _)]. unfold Parser_doParsing.
    rewrite (io_bind_Val _ _ _ tt (mkPs s [] 1 0 [] 0)) by done. by rewrite (io_bind_Val _ _ _ _ _ E1).
Qed.
End ParserProofs.

(** ** Saving values *)

Section Save.
Context {S : Type} `{OutStream S}.

(** A client that saves a value. *)
Fixpoint save (v : json) : IO (Saver S) unit :=
  match v with
  | JNull => Saver_put_null
  | JBool b => Saver_write_bool b
  | JInt i => Saver_write_int i true 4
  | JStr s => Saver_write_string s
  | JArr vs =>
      Saver_beginList ;;
      ((fix go vs := match vs with [] => mret tt | v :: vs => save v ;; go vs end) vs) ;;
      Saver_endList
  | JObj fs =>
      Saver_beginMap ;;
      ((fix go fs := match fs with
        | [] => mret tt | (s, v) :: fs => Saver_key s ;; save v ;; go fs end) fs) ;;
      Saver_endMap
  end.
Definition save_items (vs : list json) : IO (Saver S) unit :=
  (fix go vs := match vs with [] => mret tt | v :: vs => save v ;; go vs end) vs.
Definition save_fields (fs : list (list Z * json)) : IO (Saver S) unit :=
  (fix go fs := match fs with
    | [] => mret tt | (s, v) :: fs => Saver_key s ;; save v ;; go fs end) fs.
End Save.

(** Integers of 32 bits and strings without escapes. *)
Fixpoint good (v : json) : Prop :=
  match v with
  | JInt i => - 2 ^ 31 < i < 2 ^ 31
  | JStr s => Forall plain s
  | JArr vs => fold_right and True (map good vs)
  | JObj fs => fold_right and True (map (fun f => Forall plain f.1 /\ good f.2) fs)
  | _ => True
  end.

Lemma json_ind' (P : json -> Prop) :
  P JNull -> (forall b, P (JBool b)) -> (forall i, P (JInt i)) -> (forall s, P (JStr s)) ->
  (forall vs, Forall P vs -> P (JArr vs)) ->
  (forall fs, Forall (fun f => P f.2) fs -> P (JObj fs)) -> forall v, P v.
Proof.
  intros H1 H2 H3 H4 H5 H6. fix IH 1. intros [|b|i|s|vs|fs]; [done|done|done|done| |].
  - apply H5. induction vs as [|v vs IHvs]; constructor; [apply IH|exact IHvs].
  - apply H6. induction fs as [|[s v] fs IHfs]; constructor; [apply IH|exact IHfs].
Qed.

Section SaverProofs.
Context {S : Type} (sent : S -> list Z -> Prop) `{ReliableOut S sent}.
Context (r : bool) (ind : list Z) (Hind : blanks ind).
Abbreviation SaverM := (IO (Saver S) unit).

(** From the state [st] and the stack [stk], [m] ends in [st'] and [stk'] after
    writing characters that satisfy [B]. *)
Definition emit (m : SaverM) st stk st' stk' (B : list Z -> Prop) : Prop :=
  forall o l, printed sent o l -> exists b o',
    m (mkSv st stk r ind o) = Ret (Val tt, mkSv st' stk' r ind o') /\ printed sent o' (l ++ b) /\ B b.

Lemma emit_weaken m st stk st' stk' (B B' : list Z -> Prop) :
  emit m st stk st' stk' B -> (forall b, B b -> B' b) -> emit m st stk st' stk' B'.
Proof. intros Hm HB o l Ho. destruct (Hm o l Ho) as (b & o' & E & H1 & H2). exists b, o'. eauto. Qed.

Lemma emit_bind m k st stk st1 stk1 st2 stk2 B1 B2 :
  emit m st stk st1 stk1 B1 -> emit k st1 stk1 st2 stk2 B2 ->
  emit (m ;; k) st stk st2 stk2 (fun b => exists b1 b2, b = b1 ++ b2 /\ B1 b1 /\ B2 b2).
Proof.
  intros Hm Hk o l Ho. destruct (Hm o l Ho) as (b1 & o1 & E1 & H1 & HB1).
  destruct (Hk o1 _ H1) as (b2 & o2 & E2 & H2 & HB2).
  exists (b1 ++ b2), o2. rewrite (io_bind_Val _ _ _ _ _ E1), app_assoc. split; [done|]. split; [done|].
  by exists b1, b2.
Qed.
(** Commands that write nothing, and that write [b]. *)
Lemma emit_quiet m k st stk st1 stk1 st2 stk2 B :
  (forall o, m (mkSv st stk r ind o) = Ret (Val tt, mkSv st1 stk1 r ind o)) ->
  emit k st1 stk1 st2 stk2 B -> emit (m ;; k) st stk st2 stk2 B.
Proof.
  intros Hm Hk o l Ho. destruct (Hk o l Ho) as (b & o2 & E2 & H2). exists b, o2.
  by rewrite (io_bind_Val _ _ _ _ _ (Hm o)).
Qed.
Lemma emit_get (k : state_t -> SaverM) st stk st2 stk2 B :
  emit (k st) st stk st2 stk2 B ->
  emit (mbind (M := IO (Saver S)) k sv_get) st stk st2 stk2 B.
Proof.
  intros Hk o l Ho. destruct (Hk o l Ho) as (b & o2 & E2 & H2). exists b, o2. by split.
Qed.
Lemma emit_do {A} (m : IO (Output S) A) b st stk : prints sent m b -> emit (sv_do m ;; mret tt) st stk st stk (eq b).
Proof.
  intros Hm o l Ho. destruct (Hm o l Ho) as (x & o' & E & Ho'). exists b, o'. split; [|done].
  by rewrite (io_bind_Val _ _ _ x (mkSv st stk r ind o')) by (unfold sv_do; cbn [sv_out]; by rewrite E).
Qed.
Lemma emit_unit (m : IO (Output S) unit) b st stk : prints sent m b -> emit (sv_do m) st stk st stk (eq b).
Proof.
  intros Hm o l Ho. destruct (Hm o l Ho) as ([] & o' & E & Ho'). exists b, o'. split; [|done].
  unfold sv_do. cbn [sv_out]. by rewrite E.
Qed.
Lemma emit_puts b st stk : emit (sv_puts b) st stk st stk (eq b).
Proof. apply emit_unit, prints_string. done. Qed.
Lemma emit_ret st stk : emit (mret tt) st stk st stk (eq []).
Proof. intros o l Ho. exists [], o. by rewrite app_nil_r. Qed.
Lemma emit_set st' st stk : emit (sv_set st') st stk st' stk (eq []).
Proof. intros o l Ho. exists [], o. by rewrite app_nil_r. Qed.

Definition comma (st : state_t) : list Z :=
  match st with IN_ARRAY | IN_OBJECT => [ch ","] | _ => [] end.

Lemma emit_indents n st stk : emit (sv_indents n ind) st stk st stk blanks.
Proof.
  induction n as [|n IH]; cbn [sv_indents].
  - eapply emit_weaken; [apply emit_ret|]. by intros b <-.
  - eapply emit_weaken; [eapply emit_bind; [apply emit_puts|exact IH]|].
    intros b (b1 & b2 & -> & <- & Hb). apply Forall_app. by split.
Qed.

Lemma emit_newline n st stk : emit (sv_endl ;; sv_indents n ind) st stk st stk blanks.
Proof.
  eapply emit_weaken; [eapply emit_bind; [|apply emit_indents]|].
  - unfold sv_endl. eapply emit_bind; [apply emit_unit, prints_char; done|].
    apply (emit_do (strm_call out_flush) []). intros o l Ho.
    destruct (flush_law (o_strm o) l Ho) as (x & s' & E & Hx & Hs).
    exists x, (mkOut s' (o_ansi o)). unfold strm_call. rewrite E, app_nil_r. by split.
  - intros b (b1 & b2 & -> & (b3 & b4 & -> & <- & <-) & Hb). by constructor.
Qed.

Lemma emit_doIndent close st stk : emit (Saver_doIndent close) st stk st stk
  (fun b => exists w, b = (if close then [] else comma st) ++ w /\ blanks w /\ (st = FIELD -> w = [])).
Proof.
  intros o l Ho. unfold Saver_doIndent. cbn [sv_state sv_stack sv_readable sv_indent].
  revert o l Ho. change (emit ((if negb close && (is_state st IN_ARRAY || is_state st IN_OBJECT)
    then sv_puts (text ",") else mret tt) ;;
    if r && negb (is_state st FIELD) then sv_endl ;; sv_indents (length stk) ind else mret tt) st stk st stk
    (fun b => exists w, b = (if close then [] else comma st) ++ w /\ blanks w /\ (st = FIELD -> w = []))).
  eapply emit_weaken; [eapply (emit_bind _ _ _ _ st stk st stk (eq (if close then [] else comma st))
    (fun w => blanks w /\ (st = FIELD -> w = [])))|].
  - destruct close, st; first [apply emit_ret|apply emit_puts].
  - destruct (r && negb (is_state st FIELD)) eqn:E.
    + eapply emit_weaken; [apply emit_newline|]. intros b Hb. split; [done|]. intros ->. cbn in E.
      by rewrite andb_false_r in E.
    + eapply emit_weaken; [apply emit_ret|]. intros b <-. by split; [constructor|].
  - intros b (b1 & b2 & -> & <- & Hb & Hf). by exists b2.
Qed.

(** Strings without escapes are written as they are. *)
Lemma emit_plain s : forall n st stk, Forall plain s -> (length s < n)%nat ->
  emit (escape_all n s) st stk st stk (eq s).
Proof.
  induction s as [|c s IH]; intros n st stk Hs Hn; (destruct n as [|n]; [cbn in Hn; lia|]); cbn [escape_all].
  - apply emit_ret.
  - apply Forall_cons in Hs as [(Hc & Hq & Hb) Hs]. unfold utf8_parse.
    assert ((Z.land c 0x80 =? 0) = true) as ->.
    { exact (below 128 (fun c => Z.land c 0x80 =? 0) eq_refl c ltac:(lia)). }
    cbn [u_c u_left]. rewrite (proj2 (Z.eqb_neq c 0)) by lia.
    eapply emit_weaken; [eapply (emit_bind _ _ _ _ st stk _ _ (eq [c])); [|apply IH; [done|cbn in Hn; lia]]|].
    + unfold Saver_escape. rewrite !(proj2 (Z.eqb_neq c _)) by lia.
      rewrite (proj2 (Z.leb_le 32 c)), (proj2 (Z.ltb_lt c 128)) by lia. by apply emit_unit, prints_char.
    + by intros b (b1 & b2 & -> & <- & <-).
Qed.
Lemma emit_string s st stk : Forall plain s -> emit (escape_string s) st stk st stk (eq s).
Proof. intros Hs. apply emit_plain; [done|lia]. Qed.

(** A place where a value may be put, and the state that follows. *)
Inductive place : state_t -> list state_t -> state_t -> list state_t -> Prop :=
  | in_field x stk : isObject x = true -> place FIELD (x :: stk) IN_OBJECT stk
  | in_array st stk : isArray st = true -> place st stk IN_ARRAY stk.

(** What is written for the value [v] in the state [st]. *)
Definition written (v : json) (st : state_t) (b : list Z) : Prop :=
  exists w l, b = comma st ++ w ++ l /\ blanks w /\ rendered v l.

Lemma put_value_ok m v st stk st' stk' t : place st stk st' stk' ->
  (forall st stk, emit m st stk st stk (eq t)) -> rendered v t ->
  emit (put_value m) st stk st' stk' (written v st).
Proof.
  intros Hp Hm Hr. unfold put_value. apply emit_get.
  apply (emit_quiet _ _ st stk st stk).
  { intros o. unfold sv_assert, lift. by destruct Hp as [x stk Hx|[] stk Hx]. }
  eapply emit_weaken; [eapply emit_bind; [apply (emit_doIndent false)|]; eapply emit_bind; [apply Hm|]|].
  - apply (emit_quiet _ _ st stk (match stk with x :: _ => if is_state st FIELD then x else st | _ => st end) stk').
    { intros o. by destruct Hp as [x stk Hx|[] [|? stk] Hx]. }
    apply emit_get. assert (Saver_next (match stk with x :: _ => if is_state st FIELD then x else st | _ => st end) = st') as ->.
    { by destruct Hp as [[] stk Hx|[] [|? stk] Hx]. }
    apply emit_set.
  - intros b (b1 & b2 & -> & (w & -> & Hw & _) & b3 & b4 & -> & <- & <-).
    rewrite app_nil_r, <- app_assoc. by exists w, t.
Qed.

Lemma int_text_format i : - 2 ^ 31 < i < 2 ^ 31 ->
  if_ok (IntFormat_make i true 4) /\ if_text (IntFormat_make i true 4) = int_text i.
Proof.
  intros Hi. assert (if_text (IntFormat_make i true 4) = int_text i) as E.
  { unfold if_text, if_number, int_text, IntFormat_make. cbn [if_displaySign if_sign if_val if_upper if_base andb].
    destruct (Z.ltb_spec i 0); done. }
  split; [|done]. split; cbn [if_base if_size if_val IntFormat_make]; [lia|lia|lia|]. rewrite E. unfold int_text.
  destruct (Z.ltb_spec i 0); cbn [length];
    [pose proof (numeral_length 10 (ch "a") (- i) 15)|pose proof (numeral_length 10 (ch "a") i 15)]; lia.
Qed.

Lemma emit_int i st stk : - 2 ^ 31 < i < 2 ^ 31 ->
  emit (sv_do (Output_print_IntFormat (IntFormat_make i true 4))) st stk st stk (eq (int_text i)).
Proof.
  intros Hi. apply emit_unit. destruct (int_text_format i Hi) as [Hok Et].
  pose proof (prints_IntFormat sent (IntFormat_make i true 4) 0 0 Hok eq_refl) as Hp.
  rewrite Et in Hp. cbn in Hp. by rewrite app_nil_r in Hp.
Qed.

(** The start of a document is a place for integers and objects only. *)
Definition place_for (v : json) st stk st' stk' : Prop :=
  place st stk st' stk' \/
  (st = BEGIN /\ stk = [] /\ st' = END_ /\ stk' = [] /\ match v with JInt _ | JObj _ => True | _ => False end).

Definition saved (v : json) : Prop := forall st stk st' stk', good v -> place_for v st stk st' stk' ->
  emit (save v) st stk st' stk' (written v st).

Lemma save_int_ok i : saved (JInt i).
Proof.
  intros st stk st' stk' Hi Hp. cbn [save]. unfold Saver_write_int.
  eapply emit_weaken; [eapply emit_bind; [apply (emit_doIndent false)|]|].
  - apply (emit_quiet _ _ st stk st' stk'); [|by apply emit_int].
    intros o. destruct Hp as [Hp|(-> & -> & -> & -> & _)]; [|done]. by destruct Hp as [x stk Hx|[] stk Hx].
  - intros b (b1 & b2 & -> & (w & -> & Hw & _) & <-). rewrite <- app_assoc.
    exists w, (int_text i). split; [done|]. split; [done|]. by constructor.
Qed.

(** The items of a list and its end; [x] is the state around the list. *)
Lemma save_items_ok vs : Forall saved vs -> fold_right and True (map good vs) -> forall (f : bool) x stk,
  emit (save_items vs ;; Saver_endList) (if f then ARRAY else IN_ARRAY) (x :: stk) (Saver_next x) stk (items f vs).
Proof.
  induction 1 as [|v vs Hv _ IH]; intros Hg f x stk.
  - apply (emit_quiet _ _ (if f then ARRAY else IN_ARRAY) (x :: stk) (if f then ARRAY else IN_ARRAY) (x :: stk)); [done|].
    unfold Saver_endList. apply emit_get.
    apply (emit_quiet _ _ (if f then ARRAY else IN_ARRAY) (x :: stk) (if f then ARRAY else IN_ARRAY) (x :: stk));
      [by destruct f|].
    intros o l Ho. destruct (emit_bind (Saver_doIndent true) (sv_puts (text "]") ;; sv_set (Saver_next x))
      ARRAY stk ARRAY stk (Saver_next x) stk _ (eq (text "]")) (emit_doIndent true ARRAY stk)) with (o := o) (l := l)
      as (b & o' & E & Ho' & b1 & b2 & -> & (w & -> & Hw & _) & <-); [|done|].
    + eapply emit_weaken; [eapply emit_bind; [apply emit_puts|apply emit_set]|].
      intros b (b1 & b2 & -> & <- & <-). by rewrite app_nil_r.
    + exists (w ++ [ch "]"]), o'. split; [exact E|]. split; [exact Ho'|]. by constructor.
  - cbn [map fold_right] in Hg. destruct Hg as [Hgv Hgs].
    assert (emit (save v ;; save_items vs ;; Saver_endList) (if f then ARRAY else IN_ARRAY) (x :: stk)
      (Saver_next x) stk (items f (v :: vs))) as He.
    { eapply emit_weaken; [eapply emit_bind; [apply Hv; [done|]|apply (IH Hgs false)]|].
      - left. apply in_array. by destruct f.
      - intros b (b1 & b2 & -> & (w & l & -> & Hw & Hr) & Hb2). rewrite <- !app_assoc.
        replace (comma (if f then ARRAY else IN_ARRAY)) with (if f then [] else [ch ","]) by (by destruct f).
        by constructor. }
    intros o l Ho. destruct (He o l Ho) as (b & o' & E & Ho' & Hb). exists b, o'. split; [|done].
    rewrite <- E. unfold save_items. unfold mbind, io_bind.
    destruct (save v _) as [[[[]|] s']|]; [|done|done]. done.
Qed.

Lemma save_array_ok vs : Forall saved vs -> saved (JArr vs).
Proof.
  intros Hvs st stk st' stk' Hg Hp. cbn [good] in Hg. destruct Hp as [Hp|(_ & _ & _ & _ & [])].
  change (save (JArr vs)) with (Saver_beginList ;; save_items vs ;; Saver_endList).
  assert (exists x, emit Saver_beginList st stk ARRAY (x :: stk')
    (fun b => exists w, b = comma st ++ w ++ [ch "["] /\ blanks w) /\ Saver_next x = st') as (x & He & <-).
  { exists (if is_state st FIELD then default st (head stk) else st). split.
    - unfold Saver_beginList. apply emit_get.
      apply (emit_quiet _ _ st stk st stk); [intros o; by destruct Hp as [x stk Hx|[] stk Hx]|].
      apply (emit_quiet _ _ st stk st stk); [intros o; by destruct Hp as [x stk Hx|[] stk Hx]|].
      eapply emit_weaken; [eapply emit_bind; [apply (emit_doIndent false)|];
        eapply emit_bind; [apply emit_puts|]; eapply (emit_quiet _ _ _ _ st); [|apply emit_set]|].
      + intros o. by destruct Hp as [x stk Hx|[] stk Hx].
      + intros b (b1 & b2 & -> & (w & -> & Hw & _) & b3 & b4 & -> & <- & <-). exists w.
        by rewrite <- app_assoc, app_nil_r.
    - by destruct Hp as [[] stk Hx|[] stk Hx]. }
  eapply emit_weaken; [eapply emit_bind; [exact He|apply (save_items_ok vs Hvs Hg true)]|].
  intros b (b1 & b2 & -> & (w & -> & Hw) & Hb). exists w, (ch "[" :: b2). rewrite <- !app_assoc.
  split; [done|]. split; [done|]. by constructor.
Qed.

(** The key of a field. *)
Lemma save_key_ok (f : bool) s stk : Forall plain s -> let st := if f then OBJECT else IN_OBJECT in
  emit (Saver_key s) st stk FIELD (st :: stk)
    (fun b => exists w w2, b = (if f then [] else [ch ","]) ++ w ++ (34 :: s ++ [34]) ++ ch ":" :: w2 /\
       blanks w /\ blanks w2).
Proof.
  intros Hs st. unfold Saver_key. apply emit_get.
  apply (emit_quiet _ _ st stk st stk); [intros o; subst st; by destruct f|].
  eapply emit_weaken; [eapply emit_bind; [apply (emit_doIndent false)|];
    eapply emit_bind; [apply emit_puts|]; eapply (emit_bind _ _ _ _ st stk _ _ (eq s)); [|];
    [|eapply emit_bind; [apply emit_puts|]; eapply (emit_bind _ _ _ _ st stk _ _ (eq (if r then text ": " else text ":")))]|].
  - intros o l Ho. destruct (emit_string s st stk Hs o l Ho) as (b & o' & E & Ho' & <-).
    exists s, o'. unfold assert_no_throw. by rewrite E.
  - apply (emit_puts (if r then text ": " else text ":")).
  - apply (emit_quiet _ _ st stk st (st :: stk)); [done|]. apply emit_set.
  - intros b (b1 & b2 & -> & (w & -> & Hw & _) & b3 & b4 & -> & <- & b5 & b6 & -> & <- & b7 & b8 & -> & <- &
      b9 & b10 & -> & <- & <-).
    exists w, (if r then [32] else []).
    replace (comma st) with (if f then [] else [ch ","]) by (subst st; by destruct f).
    split; [|split; [done|]].
    + rewrite app_nil_r, <- !app_assoc. f_equal. f_equal. destruct r; cbn; by rewrite <- ?app_assoc.
    + destruct r; repeat constructor.
Qed.

(** The state after an object whose stack was [stk]. *)
Definition after_map (stk : list state_t) : state_t :=
  match stk with [] => END_ | x :: _ => Saver_next x end.

Lemma save_fields_ok fs : Forall (fun f => saved f.2) fs ->
  fold_right and True (map (fun f => Forall plain f.1 /\ good f.2) fs) -> forall (f : bool) stk,
  emit (save_fields fs ;; Saver_endMap) (if f then OBJECT else IN_OBJECT) stk (after_map stk) (tail stk) (fields f fs).
Proof.
  induction 1 as [|[s v] fs Hv _ IH]; intros Hg f stk.
  - apply (emit_quiet _ _ (if f then OBJECT else IN_OBJECT) stk (if f then OBJECT else IN_OBJECT) stk); [done|].
    assert (emit (Saver_doIndent true ;; sv_puts (text "}")) (after_map stk) (tail stk) (after_map stk) (tail stk)
      (fields f [])) as He.
    { eapply emit_weaken; [eapply emit_bind; [apply (emit_doIndent true)|apply emit_puts]|].
      intros b (b1 & b2 & -> & (w & -> & Hw & _) & <-). by constructor. }
    intros o l Ho. destruct (He o l Ho) as (b & o' & E & Ho' & Hb). exists b, o'. split; [|done].
    rewrite <- E. by destruct f, stk.
  - cbn [map fold_right fst snd] in *. destruct Hg as [[Hs Hgv] Hgs].
    assert (emit (Saver_key s ;; save v ;; save_fields fs ;; Saver_endMap) (if f then OBJECT else IN_OBJECT) stk
      (after_map stk) (tail stk) (fields f ((s, v) :: fs))) as He.
    { eapply emit_weaken; [eapply emit_bind; [by apply save_key_ok|];
        eapply emit_bind; [apply Hv; [done|left; apply (in_field _ stk); by destruct f]|apply (IH Hgs false)]|].
      intros b (b1 & b2 & -> & (w & w2 & -> & Hw & Hw2) & b3 & b4 & -> & (w3 & l & -> & Hw3 & Hr) & Hb4).
      pose proof (f_cons f w s (w2 ++ w3) v l fs b4 Hw Hs ltac:(by apply Forall_app) Hr Hb4) as Hf.
      revert Hf. cbn [comma]. app_norm. done. }
    intros o l Ho. destruct (He o l Ho) as (b & o' & E & Ho' & Hb). exists b, o'. split; [|done].
    rewrite <- E. unfold save_fields. unfold mbind, io_bind.
    destruct (Saver_key s _) as [[[[]|] s']|]; [|done|done].
    destruct (save v s') as [[[[]|] s2]|]; [|done|done]. done.
Qed.

Lemma save_object_ok fs : Forall (fun f => saved f.2) fs -> saved (JObj fs).
Proof.
  intros Hfs st stk st' stk' Hg Hp. cbn [good] in Hg.
  change (save (JObj fs)) with (Saver_beginMap ;; save_fields fs ;; Saver_endMap).
  set (stk1 := if isArray st then st :: stk else stk).
  assert (after_map stk1 = st' /\ tail stk1 = stk') as [Ea Et].
  { destruct Hp as [Hp|(-> & -> & -> & -> & _)]; [|done]. by destruct Hp as [[] stk Hx|[] stk Hx]. }
  assert (emit Saver_beginMap st stk OBJECT stk1 (fun b => exists w, b = comma st ++ w ++ [ch "{"] /\ blanks w)) as He.
  { unfold Saver_beginMap. apply emit_get.
    apply (emit_quiet _ _ st stk st stk).
    { intros o. destruct Hp as [Hp|(-> & _)]; [by destruct Hp as [x stk Hx|[] stk Hx]|done]. }
    apply (emit_quiet _ _ st stk st stk).
    { intros o. destruct Hp as [Hp|(-> & _)]; [by destruct Hp as [x stk Hx|[] stk Hx]|done]. }
    eapply emit_weaken; [eapply emit_bind; [apply (emit_doIndent false)|];
      eapply emit_bind; [apply emit_puts|]; eapply (emit_quiet _ _ _ _ st stk1); [|apply emit_set]|].
    - intros o. unfold stk1. by destruct (isArray st).
    - intros b (b1 & b2 & -> & (w & -> & Hw & _) & b3 & b4 & -> & <- & <-). exists w.
      by rewrite <- app_assoc, app_nil_r. }
  rewrite <- Ea, <- Et.
  eapply emit_weaken; [eapply emit_bind; [exact He|apply (save_fields_ok fs Hfs Hg true)]|].
  intros b (b1 & b2 & -> & (w & -> & Hw) & Hb). exists w, (ch "{" :: b2). rewrite <- !app_assoc.
  split; [done|]. split; [done|]. by constructor.
Qed.

Lemma save_ok v : saved v.
Proof.
  induction v as [|b|i|s|vs IH|fs IH] using json_ind'.
  - intros st stk st' stk' _ [Hp|(_ & _ & _ & _ & [])].
    apply (put_value_ok _ _ _ _ _ _ (text "null")); [done|intros; apply emit_puts|constructor].
  - intros st stk st' stk' _ [Hp|(_ & _ & _ & _ & [])].
    apply (put_value_ok _ _ _ _ _ _ (if b then text "true" else text "false"));
      [done|intros; apply emit_puts|destruct b; constructor].
  - apply save_int_ok.
  - intros st stk st' stk' Hs [Hp|(_ & _ & _ & _ & [])].
    apply (put_value_ok _ _ _ _ _ _ (34 :: s ++ [34])); [done| |by constructor].
    intros st2 stk2. eapply emit_weaken; [eapply emit_bind; [apply emit_puts|];
      eapply emit_bind; [by apply emit_string|apply emit_puts]|].
    by intros b (b1 & b2 & -> & <- & b3 & b4 & -> & <- & <-).
  - by apply save_array_ok.
  - by apply save_object_ok.
Qed.
End SaverProofs.

(** Renderings hold printable characters and blanks only. *)
Lemma blanks_ascii w : blanks w -> ascii w.
Proof.
  intros Hw. eapply Forall_impl; [exact Hw|]. intros c. cbn beta. unfold json_blank.
  rewrite !orb_true_iff, !Z.eqb_eq. lia.
Qed.
Lemma plain_ascii s : Forall plain s -> ascii s.
Proof. intros Hs. eapply Forall_impl; [exact Hs|]. intros c (Hc & _). lia. Qed.
Lemma rendered_ascii v l : rendered v l -> ascii l.
Proof.
  assert (forall s, Forall (fun c => bool_decide (0 < c < 128) = true) s -> ascii s) as Hdec.
  { intros s Hs. eapply Forall_impl; [exact Hs|]. intros c. cbn beta. by rewrite bool_decide_eq_true. }
  unfold ascii in *.
  apply (rendered_mut (fun _ l => ascii l) (fun _ _ l => ascii l) (fun _ _ l => ascii l)); unfold ascii.
  - apply Hdec. by repeat constructor.
  - apply Hdec. by repeat constructor.
  - apply Hdec. by repeat constructor.
  - intros i Hi. eapply Forall_impl; [by apply int_text_chars|]. intros c [Hc|Hc]; lia.
  - intros s Hs. constructor; [lia|]. apply Forall_app. split; [by apply plain_ascii|by repeat constructor].
  - intros vs k _ Hk. by constructor.
  - intros fs k _ Hk. by constructor.
  - intros f w Hw. apply Forall_app. split; [by apply blanks_ascii|by repeat constructor].
  - intros f w v1 k vs k2 Hw _ Hk _ Hk2. rewrite !Forall_app. split_and!; [|by apply blanks_ascii|done|done].
    destruct f; by repeat constructor.
  - intros f w Hw. apply Forall_app. split; [by apply blanks_ascii|by repeat constructor].
  - intros f w s w2 v1 k fs k2 Hw Hs Hw2 _ Hk _ Hk2. rewrite !Forall_app.
    split_and!; [|by apply blanks_ascii| |].
    + destruct f; by repeat constructor.
    + constructor; [lia|]. apply Forall_app. split; [by apply plain_ascii|by repeat constructor].
    + constructor; [done|]. rewrite !Forall_app. split_and!; [by apply blanks_ascii|done|done].
Qed.

(** ** A text is a rendering of one value at most *)

(** The text up to the first character that does not satisfy [P]. *)
Definition stops (P : Z -> Prop) (l : list Z) : Prop := match l with [] => True | c :: _ => ~ P c end.
Lemma prefix_unique (P : Z -> Prop) w w' r r' : Forall P w -> Forall P w' -> stops P r -> stops P r' ->
  w ++ r = w' ++ r' -> w = w' /\ r = r'.
Proof.
  revert w'. induction w as [|c w IH]; intros [|c' w'] Hw Hw' Hr Hr'; cbn [app].
  - by intros ->.
  - intros ->. by apply Forall_cons in Hw' as [? _].
  - intros <-. by apply Forall_cons in Hw as [? _].
  - apply Forall_cons in Hw as [_ Hw]. apply Forall_cons in Hw' as [_ Hw']. intros [= <- E].
    destruct (IH w' Hw Hw' Hr Hr' E) as [-> ->]. done.
Qed.
Lemma blanks_unique w w' c c' r r' : w ++ c :: r = w' ++ c' :: r' -> blanks w -> blanks w' -> json_blank c = false -> json_blank c' = false ->
  w = w' /\ c :: r = c' :: r'.
Proof. intros E Hw Hw' Hc Hc'. apply (prefix_unique (fun c => json_blank c = true)); try done; cbn; congruence. Qed.
Lemma key_unique s s' r r' : Forall plain s -> Forall plain s' -> (34 :: s ++ [34]) ++ r = (34 :: s' ++ [34]) ++ r' ->
  s = s' /\ r = r'.
Proof.
  intros Hs Hs'. cbn [app]. rewrite <- !app_assoc. cbn [app]. intros [= E].
  assert (forall k, Forall plain k -> Forall (fun c => c <> 34) k) as Hk.
  { intros k Hk. eapply Forall_impl; [exact Hk|]. by intros c (_ & ? & _). }
  destruct (prefix_unique (fun c => c <> 34) s s' (34 :: r) (34 :: r')) as [-> E']; [auto|auto|cbn; tauto|cbn; tauto|done|].
  by injection E' as ->.
Qed.

Lemma follow_stops r : follow r -> stops int_char r.
Proof.
  destruct r as [|c r]; [done|]. unfold stops, follow, json_blank, int_char.
  change (ch ",") with 44. change (ch "]") with 93. change (ch "}") with 125. rewrite !orb_true_iff, !Z.eqb_eq. lia.
Qed.
Lemma int_text_inj i j : - 2 ^ 31 < i < 2 ^ 31 -> - 2 ^ 31 < j < 2 ^ 31 -> int_text i = int_text j -> i = j.
Proof.
  intros Hi Hj E. set (p := Parser_make (S := BlockInStream) (M := list jevent) [] (BlockInStream_make [])).
  pose proof (text_to_int_ok i p Hi) as E1. rewrite E, (text_to_int_ok j p Hj) in E1. by injection E1.
Qed.
(** A value does not start with a blank, nor as the end of an array. *)
Lemma rendered_head v l : rendered v l ->
  exists c k, l = c :: k /\ json_blank c = false /\ c <> ch "]" /\
    match v with
    | JNull => c = ch "n" | JBool true => c = ch "t" | JBool false => c = ch "f" | JInt _ => int_char c
    | JStr _ => c = 34 | JArr _ => c = ch "[" | JObj _ => c = ch "{"
    end.
Proof.
  destruct 1 as [| | |i Hi|s Hs|vs k Hk|fs k Hk]; try (by eexists _, _).
  pose proof (int_text_chars i Hi) as Hc. destruct (int_text i) as [|c k] eqn:E.
  - exfalso. unfold int_text in E. destruct (Z.ltb_spec i 0); [done|].
    destruct (Z.eq_dec i 0) as [->|]; [by vm_compute in E|]. destruct (numeral_head i) as (d & Ed & _); [lia|].
    by rewrite E in Ed.
  - exists c, k. apply Forall_cons in Hc as [Hc _]. split; [done|]. split; [|split; [|done]].
    + unfold json_blank, int_char in *. apply not_true_iff_false. rewrite !orb_true_iff, !Z.eqb_eq. lia.
    + change (ch "]") with 93. unfold int_char in Hc. lia.
Qed.

Definition one_value (v : json) (l : list Z) : Prop := forall v' l' r r',
  rendered v' l' -> follow r -> follow r' -> l ++ r = l' ++ r' -> v = v' /\ l = l'.
Definition one_list (f : bool) (vs : list json) (l : list Z) : Prop := forall vs' l' r r',
  items f vs' l' -> l ++ r = l' ++ r' -> vs = vs' /\ l = l'.
Definition one_map (f : bool) (fs : list (list Z * json)) (l : list Z) : Prop := forall fs' l' r r',
  fields f fs' l' -> l ++ r = l' ++ r' -> fs = fs' /\ l = l'.

(** Values that start alike are of the same kind. *)
Lemma same_kind v l v' l' r r' : rendered v l -> rendered v' l' -> l ++ r = l' ++ r' ->
  match v, v' with
  | JNull, JNull | JInt _, JInt _ | JStr _, JStr _ | JArr _, JArr _ | JObj _, JObj _ => True
  | JBool b, JBool b' => b = b'
  | _, _ => False
  end.
Proof.
  intros Hv Hv' E. destruct (rendered_head v l Hv) as (c & k & -> & _ & _ & Hc).
  destruct (rendered_head v' l' Hv') as (c' & k' & -> & _ & _ & Hc'). injection E as <- _.
  unfold int_char in *. destruct v as [|[]| | | |], v' as [|[]| | | |]; try done; subst; try done; exfalso;
    (destruct Hc as [[? ?]|?] || destruct Hc' as [[? ?]|?]); lia || done.
Qed.

Lemma one_items_nil (f : bool) w : blanks w -> one_list f [] (w ++ [ch "]"]).
Proof.
  intros Hw vs' l' r r' Hi. rewrite <- app_assoc. cbn [app]. destruct Hi as [f w' Hw'|f w' v l vs k Hw' Hv Hk].
  - rewrite <- app_assoc. cbn [app]. intros E. by destruct (blanks_unique w w' _ _ _ _ E Hw Hw' eq_refl eq_refl) as [-> _].
  - destruct (rendered_head v l Hv) as (c & k' & -> & Hc & Hne & _). destruct f; cbn [app].
    + rewrite <- app_assoc. cbn [app]. intros E.
      destruct (blanks_unique w w' _ _ _ _ E Hw Hw' eq_refl Hc) as [_ [= E' _]]. by symmetry in E'.
    + intros E. by destruct (blanks_unique w [] _ _ _ _ E Hw ltac:(done) eq_refl eq_refl) as [_ [=]].
Qed.
Lemma one_items_cons (f : bool) w v l vs k : blanks w -> rendered v l -> one_value v l ->
  items false vs k -> one_list false vs k -> one_list f (v :: vs) ((if f then [] else [ch ","]) ++ w ++ l ++ k).
Proof.
  intros Hw Hv IHv Hk IHk vs' l' r r' Hi. destruct (rendered_head v l Hv) as (c & k1 & El & Hc & Hne & _).
  destruct Hi as [f w' Hw'|f w' v' l' vs' k' Hw' Hv' Hk'].
  - intros E. exfalso. revert E. rewrite El, <- !app_assoc. destruct f; cbn [app]; intros E.
    + by destruct (blanks_unique w w' _ _ _ _ E Hw Hw' Hc eq_refl) as [_ [= E' _]].
    + by destruct (blanks_unique [] w' _ _ _ _ E ltac:(done) Hw' eq_refl eq_refl) as [_ [=]].
  - rewrite <- !app_assoc. intros E%app_inv_head.
    destruct (rendered_head v' l' Hv') as (c' & k1' & El' & Hc' & _).
    assert (w = w' /\ l ++ k ++ r = l' ++ k' ++ r') as [-> E1].
    { rewrite El, El' in E |- *. by apply (blanks_unique w w' c c' _ _ E). }
    destruct (IHv v' l' (k ++ r) (k' ++ r') Hv') as [-> ->]; [by apply (follow_items vs)|by apply (follow_items vs')|done|].
    apply app_inv_head in E1. by destruct (IHk vs' k' r r' Hk' E1) as [-> ->].
Qed.
Lemma one_fields_nil (f : bool) w : blanks w -> one_map f [] (w ++ [ch "}"]).
Proof.
  intros Hw fs' l' r r' Hi. rewrite <- app_assoc. cbn [app].
  destruct Hi as [f w' Hw'|f w' s w2 v l fs k Hw' Hs Hw2 Hv Hk].
  - rewrite <- app_assoc. cbn [app]. intros E. by destruct (blanks_unique w w' _ _ _ _ E Hw Hw' eq_refl eq_refl) as [-> _].
  - destruct f; cbn [app].
    + rewrite <- app_assoc. cbn [app]. intros E.
      by destruct (blanks_unique w w' _ _ _ _ E Hw Hw' eq_refl eq_refl) as [_ [=]].
    + intros E. by destruct (blanks_unique w [] _ _ _ _ E Hw ltac:(done) eq_refl eq_refl) as [_ [=]].
Qed.
Lemma one_fields_cons (f : bool) w s w2 v l fs k : blanks w -> Forall plain s -> blanks w2 -> rendered v l -> one_value v l ->
  fields false fs k -> one_map false fs k ->
  one_map f ((s, v) :: fs) ((if f then [] else [ch ","]) ++ w ++ (34 :: s ++ [34]) ++ ch ":" :: w2 ++ l ++ k).
Proof.
  intros Hw Hs Hw2 Hv IHv Hk IHk fs' l' r r' Hi. destruct (rendered_head v l Hv) as (c & k1 & El & Hc & _).
  destruct Hi as [f w' Hw'|f w' s' w2' v' l' fs' k' Hw' Hs' Hw2' Hv' Hk'].
  - intros E. exfalso. revert E. destruct f; cbn [app]; rewrite <- ?app_assoc; cbn [app]; intros E.
    + by destruct (blanks_unique w w' _ _ _ _ E Hw Hw' eq_refl eq_refl) as [_ [=]].
    + by destruct (blanks_unique [] w' _ _ _ _ E ltac:(done) Hw' eq_refl eq_refl) as [_ [=]].
  - rewrite <- !app_assoc. intros E%app_inv_head.
    destruct (blanks_unique w w' _ _ _ _ E Hw Hw' eq_refl eq_refl) as [-> E1]. clear E.
    change (34 :: (s ++ [34]) ++ ?x) with ((34 :: s ++ [34]) ++ x) in E1.
    change (34 :: (s' ++ [34]) ++ ?x) with ((34 :: s' ++ [34]) ++ x) in E1.
    destruct (key_unique s s' _ _ Hs Hs' E1) as [-> E2]. clear E1. cbn [app] in E2. injection E2 as E2.
    rewrite <- !app_assoc in E2. destruct (rendered_head v' l' Hv') as (c' & k1' & El' & Hc' & _).
    assert (w2 = w2' /\ l ++ k ++ r = l' ++ k' ++ r') as [-> E3].
    { rewrite El, El' in E2 |- *. by apply (blanks_unique w2 w2' c c' _ _ E2). }
    destruct (IHv v' l' (k ++ r) (k' ++ r') Hv') as [-> ->]; [by apply (follow_fields fs)|by apply (follow_fields fs')|done|].
    apply app_inv_head in E3. by destruct (IHk fs' k' r r' Hk' E3) as [-> ->].
Qed.

(** A text, up to what may follow a value, renders one value at most. *)
Lemma rendered_unique v l : rendered v l -> one_value v l.
Proof.
  intros Hr. assert (rendered v l /\ one_value v l) as [_ H]; [|exact H]. revert v l Hr.
  apply (rendered_mut (fun v l => rendered v l /\ one_value v l)
    (fun f vs l => items f vs l /\ one_list f vs l) (fun f fs l => fields f fs l /\ one_map f fs l)).
  - split; [constructor|]. intros v' l' r r' Hv' _ _ E. pose proof (same_kind _ _ _ _ _ _ r_null Hv' E) as K. by destruct Hv'.
  - split; [constructor|]. intros v' l' r r' Hv' _ _ E. pose proof (same_kind _ _ _ _ _ _ r_true Hv' E) as K. by destruct Hv'.
  - split; [constructor|]. intros v' l' r r' Hv' _ _ E. pose proof (same_kind _ _ _ _ _ _ r_false Hv' E) as K. by destruct Hv'.
  - intros i Hi. split; [by constructor|]. intros v' l' r r' Hv' Hf Hf' E.
    pose proof (same_kind _ _ _ _ _ _ (r_int i Hi) Hv' E) as K. destruct Hv' as [| | |j Hj| | |]; try done.
    destruct (prefix_unique int_char (int_text i) (int_text j) r r') as [Et _];
      [by apply int_text_chars|by apply int_text_chars|by apply follow_stops|by apply follow_stops|done|].
    rewrite Et. by rewrite (int_text_inj i j Hi Hj Et).
  - intros s Hs. split; [by constructor|]. intros v' l' r r' Hv' _ _ E.
    pose proof (same_kind _ _ _ _ _ _ (r_str s Hs) Hv' E) as K. destruct Hv' as [| | | |s' Hs'| |]; try done.
    by destruct (key_unique s s' r r' Hs Hs' E) as [-> _].
  - intros vs k Hk [_ IH]. split; [by constructor|]. intros v' l' r r' Hv' _ _ E.
    pose proof (same_kind _ _ _ _ _ _ (r_arr vs k Hk) Hv' E) as K. destruct Hv' as [| | | | |vs' k' Hk'|]; try done.
    injection E as E. by destruct (IH vs' k' r r' Hk' E) as [-> ->].
  - intros fs k Hk [_ IH]. split; [by constructor|]. intros v' l' r r' Hv' _ _ E.
    pose proof (same_kind _ _ _ _ _ _ (r_obj fs k Hk) Hv' E) as K. destruct Hv' as [| | | | | |fs' k' Hk']; try done.
    injection E as E. by destruct (IH fs' k' r r' Hk' E) as [-> ->].
  - intros f w Hw. split; [by constructor|by apply one_items_nil].
  - intros f w v l vs k Hw Hv [_ IHv] Hk [_ IHk]. split; [by constructor|by apply one_items_cons].
  - intros f w Hw. split; [by constructor|by apply one_fields_nil].
  - intros f w s w2 v l fs k Hw Hs Hw2 Hv [_ IHv] Hk [_ IHk]. split; [by constructor|by apply one_fields_cons].
Qed.

(** Deleting the saver sends all that it has printed. *)
Lemma Saver_delete_ok {S} (sent : S -> list Z -> Prop) `{ReliableOut S sent} (s : Saver (BufferedOutStream S)) l :
  printed (buf_sent sent) (sv_out s) l -> exists out, Saver_delete s = Ret out /\ sent out l.
Proof.
  intros Hs. unfold Saver_delete, Saver_close, sv_do, Output_flush, strm_check, strm_call.
  destruct (flush_law (ReliableOut := BufferedOutStream_reliable sent) _ _ Hs) as (r & b & E & Hr & Hb).
  unfold mbind, io_bind. rewrite E. mred. cbn [fst snd]. rewrite (proj2 (Z.ltb_ge r 0)) by done. mred. cbn [fst snd].
  by apply (buffered_delete_ok sent).
Qed.



(** What is saved is read by [Parser], from any stream that does not fail: it calls the
    client for exactly the values, the fields, and the starts of arrays and objects, in
    order (their ends are not signalled, see below). *)
Theorem Parser_reads_saved {So Si} (sent : So -> list Z -> Prop) (pending : Si -> list Z -> Prop)
    `{ReliableOut So sent} `{ReliableByte Si pending} v (o : Output So) (readable : bool) (indent l : list Z) :
  printed sent o l -> blanks indent -> good v -> match v with JInt _ | JObj _ => True | _ => False end ->
  exists b o', save v (mkSv BEGIN [] readable indent o) = Ret (Val tt, mkSv END_ [] readable indent o') /\
    printed sent o' (l ++ b) /\
    forall cfuel fuel (input : Si), pending input b -> (length b < cfuel)%nat -> (jsize v <= fuel)%nat ->
      exists p', Parser_doParsing recorder cfuel fuel (Parser_make [] input) = Ret (Val tt, p') /\
        ps_m p' = events v.
Proof.
  intros Hs Hi Hg Hv.
  destruct (save_ok sent readable indent Hi v BEGIN [] END_ [] Hg) with (o := o) (l := l)
    as (b & o' & E & Ho' & (w & k & -> & Hw & Hr)); [by right|done|].
  exists (comma BEGIN ++ w ++ k), o'. split; [exact E|]. split; [exact Ho'|].
  intros cfuel fuel input Hp Hc Hf. cbn [comma app] in *. rewrite length_app in Hc.
  apply (doParsing_ok pending cfuel v k w []); rewrite ?app_nil_r; try done.
  apply Forall_app. split; [by apply blanks_ascii|by eapply rendered_ascii].
Qed.

(** Parsing a text, with a client that records the calls. *)
Definition parse_text (l : list Z) : outcome (result unit * list jevent) :=
  r ← Parser_doParsing recorder 60 30 (Parser_make [] (BlockInStream_make l)); Ret (r.1, ps_m r.2).

(** The ends of arrays are not signalled: two documents are not told apart. *)
Example parse_ambiguous :
  parse_text (text "[[1],2]") = parse_text (text "[[1,2]]") /\
  parse_text (text "[[1],2]") = Ret (Val tt, [BeginArray; BeginArray; OnInt 1; OnInt 2]).
Proof. split; vm_compute; reflexivity. Qed.

(** An escaped character is lost. *)
Example parse_escape_lost : parse_text ([34] ++ text "a" ++ [92] ++ text "nb" ++ [34]) =
  Ret (Val tt, [OnString (text "ab")]).
Proof. vm_compute. reflexivity. Qed.

(** A string that is not closed is read for ever. *)
Example parse_open_string : parse_text ([34] ++ text "abc") = Crash OutOfFuel.
Proof. vm_compute. reflexivity. Qed.

(** A list at the top of a document fails an assertion. *)
Example save_top_list : (d ← BlockOutStream_make 8 8; s ← Saver_make d; save (JArr []) s) = Crash AssertFailed.
Proof. vm_compute. reflexivity. Qed.
