(* ===== verification/Hash.v ===== *)
(** * Hash tables ([include/elm/data/HashTable.h], [HashMap.h], [HashSet.h],
    [include/elm/hash.h], [src/util_HashKey.cpp])

    A table is an array of chains of nodes.  A node is its data with the number
    of its allocation, so that an iterator that holds a node sees the chain as
    it is when it moves: looking a key up puts the node found at the front of
    its chain, even through a constant table. *)

From S2P Require Import Prelude.

(** ** Hash functions: words of 64 bits *)

(* src/include/elm/hash.h:40-46 hash_ptr *)
Definition hash_ptr (p : Z) : Z := Z.shiftr p 3.

(* src/src/util_HashKey.cpp:92-104 hash_jenkins *)
Definition hash_jenkins (block : list Z) : Z :=
  let h := foldl (fun h b =>
      let h := u64 (h + b) in
      let h := u64 (h + u64 (Z.shiftl h 10)) in
      Z.lxor h (Z.shiftr h 6)) 0 block in
  let h := u64 (h + u64 (Z.shiftl h 3)) in
  let h := Z.lxor h (Z.shiftr h 11) in
  u64 (h + u64 (Z.shiftl h 15)).

Definition hash_char (h c : Z) : Z :=
  let h := u64 (u64 (Z.shiftl h 4) + swrap 8 c) in
  let g := Z.land h 0xf0000000 in
  if negb (g =? 0) then let h := Z.lxor h (Z.shiftr g 24) in Z.lxor h g else h.
(* src/src/util_HashKey.cpp:121-131 hash_string *)
Definition hash_string (chars : list Z) (length : Z) : outcome Z :=
  loop 0 length (fun i h => c ← rd chars i; Ret (hash_char h c)) 0.
(** The loop stops on the null character, which must be in the block. *)
(* src/src/util_HashKey.cpp:139-149 hash_cstring *)
Fixpoint hash_cstring_from (h : Z) (chars : list Z) : outcome Z :=
  match chars with
  | [] => Crash OutOfBounds
  | c :: chars => if c =? 0 then Ret h else hash_cstring_from (hash_char h c) chars
  end.
Definition hash_cstring : list Z -> outcome Z := hash_cstring_from 0.

(* src/include/elm/hash.h:50-56 HashKey *)
Class HashKey (T : Type) := { computeHash : T -> Z; isEqual : T -> T -> bool }.

(** What a table needs of its keys. *)
Class HashLaws (T : Type) `{HashKey T} := {
  isEqual_refl x : isEqual x x = true;
  isEqual_sym x y : isEqual x y = true -> isEqual y x = true;
  isEqual_trans x y z : isEqual x y = true -> isEqual y z = true -> isEqual x z = true;
  computeHash_equal x y : isEqual x y = true -> computeHash x = computeHash y }.

#[export] Instance HashKey_int : HashKey Z := { computeHash := fun k => u64 k; isEqual := Z.eqb }.
(** The hash of a text does not fail on its own characters. *)
(* src/include/elm/hash.h:94-100 HashKey<String> *)
Definition HashKey_string : HashKey (list Z) := {|
  computeHash := fun s => match hash_string s (zlen s) with Ret h => h | Crash _ => 0 end;
  isEqual := fun s1 s2 => bool_decide (s1 = s2) |}.
#[export] Existing Instance HashKey_string.
(* src/include/elm/hash.h:102-109 HashKey<Pair> *)
Definition HashKey_Pair {A B} (ha : HashKey A) (hb : HashKey B) : HashKey (A * B) := {|
  computeHash := fun p => u64 (computeHash p.1 + computeHash p.2);
  isEqual := fun p q => isEqual p.1 q.1 && isEqual p.2 q.2 |}.
(* src/include/elm/hash.h:136-145 AssocHashKey *)
Definition AssocHashKey {K V} (h : HashKey K) : HashKey (K * V) := {|
  computeHash := fun p => computeHash p.1; isEqual := fun p q => isEqual p.1 q.1 |}.
(* src/include/elm/hash.h:113-123 Hasher::add *)
Definition Hasher_add (h hv : Z) : Z := Z.lxor h hv.

#[export] Instance HashLaws_int : HashLaws Z.
Proof.
  split; cbn.
  - apply Z.eqb_refl.
  - intros x y ->%Z.eqb_eq. apply Z.eqb_refl.
  - by intros x y z ->%Z.eqb_eq ->%Z.eqb_eq; rewrite Z.eqb_refl.
  - by intros x y ->%Z.eqb_eq.
Qed.
#[export] Instance HashLaws_string : HashLaws (list Z).
Proof.
  split; cbn.
  - intros x. by apply bool_decide_eq_true.
  - by intros x y ->%bool_decide_eq_true; apply bool_decide_eq_true.
  - by intros x y z ->%bool_decide_eq_true ->%bool_decide_eq_true; apply bool_decide_eq_true.
  - by intros x y ->%bool_decide_eq_true.
Qed.
Lemma HashLaws_Pair {A B} (ha : HashKey A) (hb : HashKey B) :
  HashLaws A -> HashLaws B -> HashLaws (H := HashKey_Pair ha hb) (A * B).
Proof.
  intros LA LB. split; cbn.
  - intros [a b]; cbn. by rewrite !isEqual_refl.
  - intros x y [E1 E2]%andb_true_iff. by rewrite (isEqual_sym _ _ E1), (isEqual_sym _ _ E2).
  - intros x y z [E1 E2]%andb_true_iff [E3 E4]%andb_true_iff.
    by rewrite (isEqual_trans _ _ _ E1 E3), (isEqual_trans _ _ _ E2 E4).
  - intros x y [E1 E2]%andb_true_iff.
    by rewrite (computeHash_equal _ _ E1), (computeHash_equal _ _ E2).
Qed.
#[export] Instance HashLaws_Assoc {K V} (h : HashKey K) :
  HashLaws K -> HashLaws (H := AssocHashKey (V := V) h) (K * V).
Proof.
  intros L. split; cbn; intros.
  - apply isEqual_refl.
  - by apply isEqual_sym.
  - by eapply isEqual_trans.
  - by apply computeHash_equal.
Qed.

(** ** The table *)

(* src/include/elm/data/HashTable.h:37-42 HashTable::node_t *)
Record node_t (T : Type) := mkNode { nd_at : Z; nd_data : T }.
Arguments mkNode {T} _ _.
Arguments nd_at {T} _.
Arguments nd_data {T} _.

(* src/include/elm/data/HashTable.h:230-231 HashTable *)
Record HashTable (T : Type) := mkHT { ht_size : Z; ht_tab : list (list (node_t T)); ht_new : Z }.
Arguments mkHT {T} _ _ _.
Arguments ht_size {T} _.
Arguments ht_tab {T} _.
Arguments ht_new {T} _.

(** An iterator: a chain and a node of it. *)
(* src/include/elm/data/HashTable.h:83-87 HashTable::InternIterator *)
Record InternIterator (T : Type) := mkHI { hi_i : Z; hi_node : option (node_t T) }.
Arguments mkHI {T} _ _.
Arguments hi_i {T} _.
Arguments hi_node {T} _.

Section HashTable.
Context {T : Type} `{HashKey T}.
Implicit Types (t : HashTable T) (l : list (node_t T)).

(* src/include/elm/data/HashTable.h:92-93 HashTable::HashTable *)
Definition HashTable_make (size : Z) : HashTable T := mkHT size (replicate (Z.to_nat size) []) 0.

Definition slot t (key : T) : outcome Z :=
  if ht_size t =? 0 then Crash Undefined else Ret (computeHash key mod ht_size t).
Definition with_chain t (i : Z) l : outcome (HashTable T) :=
  tab ← wr (ht_tab t) i l; Ret (mkHT (ht_size t) tab (ht_new t)).

(** The nodes before the first one with the key, this node, and the others. *)
Fixpoint chain_find (key : T) l : option (list (node_t T) * node_t T * list (node_t T)) :=
  match l with
  | [] => None
  | n :: l => if isEqual (nd_data n) key then Some ([], n, l)
              else p ← chain_find key l; let '(pre, m, post) := p in Some (n :: pre, m, post)
  end.

(* src/include/elm/data/HashTable.h:45-53 HashTable::find *)
Definition HashTable_find t (key : T) : outcome (option (node_t T) * HashTable T) :=
  i ← slot t key; l ← rd (ht_tab t) i;
  match chain_find key l with
  | None => Ret (None, t)
  | Some ([], n, _) => Ret (Some n, t)
  | Some (pre, n, post) => t ← with_chain t i (n :: pre ++ post); Ret (Some n, t)
  end.

(* src/include/elm/data/HashTable.h:55-62 HashTable::find_const *)
Definition HashTable_find_const t (key : T) : outcome (option (node_t T)) :=
  i ← slot t key; l ← rd (ht_tab t) i;
  Ret (match chain_find key l with Some (_, n, _) => Some n | None => None end).

(* src/include/elm/data/HashTable.h:66-72 HashTable::make *)
Definition HashTable_add t (data : T) : outcome (node_t T * HashTable T) :=
  i ← slot t data; l ← rd (ht_tab t) i;
  let n := mkNode (ht_new t) data in
  tab ← wr (ht_tab t) i (n :: l);
  Ret (n, mkHT (ht_size t) tab (ht_new t + 1)).

(** [node->data = x]. *)
Definition store_node t (a : Z) (x : T) : HashTable T :=
  mkHT (ht_size t)
    ((fun l => (fun n => if nd_at n =? a then mkNode a x else n) <$> l) <$> ht_tab t) (ht_new t).

(* src/include/elm/data/HashTable.h:103-104 HashTable::get *)
Definition HashTable_get t (key : T) : outcome (option T * HashTable T) :=
  r ← HashTable_find t key; Ret (option_map nd_data r.1, r.2).
(* src/include/elm/data/HashTable.h:105-106 HashTable::get_const *)
Definition HashTable_get_const t (key : T) : outcome (option T) :=
  r ← HashTable_find_const t key; Ret (option_map nd_data r).
(* src/include/elm/data/HashTable.h:107-108 HashTable::hasKey *)
Definition HashTable_hasKey t (key : T) : outcome (bool * HashTable T) :=
  r ← HashTable_find t key; Ret (bool_decide (is_Some r.1), r.2).
(* src/include/elm/data/HashTable.h:126-127 HashTable::contains *)
Definition HashTable_contains t (x : T) : outcome (bool * HashTable T) :=
  r ← HashTable_find t x; Ret (bool_decide (is_Some r.1), r.2).

(* src/include/elm/data/HashTable.h:114-115 HashTable::put *)
Definition HashTable_put t (data : T) : outcome (HashTable T) :=
  r ← HashTable_find t data;
  match r.1 with
  | Some n => Ret (store_node r.2 (nd_at n) data)
  | None => m ← HashTable_add r.2 data; Ret m.2
  end.

(* src/include/elm/data/HashTable.h:121-122 HashTable::isEmpty *)
Definition HashTable_isEmpty t : outcome bool :=
  r ← scan 0 (ht_size t) (fun i => l ← rd (ht_tab t) i;
        Ret (match l with [] => None | _ => Some false end));
  Ret (default true r).
(* src/include/elm/data/HashTable.h:124-125 HashTable::count *)
Definition HashTable_count t : outcome Z :=
  loop 0 (ht_size t) (fun i cnt => l ← rd (ht_tab t) i; Ret (cnt + zlen l)) 0.

(* src/include/elm/data/HashTable.h:152-157 HashTable::clear *)
Definition HashTable_clear t : outcome (HashTable T) :=
  loop 0 (ht_size t) (fun i t => with_chain t i []) t.

(* src/include/elm/data/HashTable.h:166-177 HashTable::remove *)
Definition HashTable_remove t (key : T) : outcome (HashTable T) :=
  i ← slot t key; l ← rd (ht_tab t) i;
  match chain_find key l with
  | None => Ret t
  | Some (pre, _, post) => with_chain t i (pre ++ post)
  end.

(* src/include/elm/data/HashTable.h:163-164 HashTable::addAll *)
Fixpoint HashTable_addAll t (c : list T) : outcome (HashTable T) :=
  match c with [] => Ret t | x :: c => m ← HashTable_add t x; HashTable_addAll m.2 c end.
(* src/include/elm/data/HashTable.h:179-180 HashTable::removeAll *)
Fixpoint HashTable_removeAll t (c : list T) : outcome (HashTable T) :=
  match c with [] => Ret t | x :: c => t ← HashTable_remove t x; HashTable_removeAll t c end.

(** *** Iteration *)


(* src/include/elm/data/HashTable.h:85-85 HashTable::InternIterator::step *)
Definition HashIter_step t (i : Z) : outcome (InternIterator T) :=
  r ← scan i (ht_size t) (fun i => l ← rd (ht_tab t) i;
        Ret (match l with [] => None | n :: _ => Some (mkHI i (Some n)) end));
  Ret (default (mkHI (ht_size t) None) r).
(* src/include/elm/data/HashTable.h:76-76 HashTable::InternIterator::InternIterator *)
Definition HashIter_make t : outcome (InternIterator T) := HashIter_step t 0.
(* src/include/elm/data/HashTable.h:79-79 HashTable::InternIterator::ended *)
Definition HashIter_ended t (it : InternIterator T) : bool := ht_size t <=? hi_i it.

(** The node that follows [a] in a chain, or none if [a] is the last one. *)
Fixpoint chain_next (a : Z) l : outcome (option (node_t T)) :=
  match l with
  | [] => Crash OutOfBounds
  | n :: l => if nd_at n =? a then Ret (head l) else chain_next a l
  end.
Fixpoint chain_at (a : Z) l : outcome (node_t T) :=
  match l with
  | [] => Crash OutOfBounds
  | n :: l => if nd_at n =? a then Ret n else chain_at a l
  end.

(* src/include/elm/data/HashTable.h:80-80 HashTable::InternIterator::next *)
Definition HashIter_next t (it : InternIterator T) : outcome (InternIterator T) :=
  match hi_node it with
  | None => Crash OutOfBounds
  | Some n =>
      l ← rd (ht_tab t) (hi_i it);
      m ← chain_next (nd_at n) l;
      match m with Some m => Ret (mkHI (hi_i it) (Some m)) | None => HashIter_step t (hi_i it + 1) end
  end.
(* src/include/elm/data/HashTable.h:139-139 HashTable::Iter::item *)
Definition HashIter_item t (it : InternIterator T) : outcome T :=
  match hi_node it with
  | None => Crash OutOfBounds
  | Some n => l ← rd (ht_tab t) (hi_i it); m ← chain_at (nd_at n) l; Ret (nd_data m)
  end.

(** [for(auto x: table) body], where the body may change the state [St] that
    the table is part of: [inr] leaves the loop. *)
Definition foreach_step {St R} (tab : St -> HashTable T) (body : T -> St -> outcome (St + R))
    (st : InternIterator T * St) : outcome (InternIterator T * St + (St + R)) :=
  let '(it, s) := st in
  if HashIter_ended (tab s) it then Ret (inr (inl s))
  else
    x ← HashIter_item (tab s) it;
    r ← body x s;
    match r with
    | inl s => it ← HashIter_next (tab s) it; Ret (inl (it, s))
    | inr r => Ret (inr (inr r))
    end.
Definition foreach {St R} (fuel : nat) (tab : St -> HashTable T)
    (body : T -> St -> outcome (St + R)) (s : St) : outcome (St + R) :=
  it ← HashIter_make (tab s); iter fuel (foreach_step tab body) (it, s).
End HashTable.

(** ** Operations on two tables

    [tab1] and [tab2] are the two tables of a state; they may be the same one. *)
Section TwoTables.
Context {T : Type} `{HashKey T}.
Implicit Types (t h : HashTable T).

(* src/include/elm/data/HashTable.h:116-117 HashTable::putAll *)
Definition HashTable_putAll (fuel : nat) t h : outcome (HashTable T) :=
  r ← foreach (R := unit) fuel (fun _ => h) (fun x t => t ← HashTable_put t x; Ret (inl t)) t;
  match r with inl t => Ret t | inr _ => Crash Undefined end.

(* src/include/elm/data/HashTable.h:130-131 HashTable::containsAll *)
Definition HashTable_containsAll (fuel : nat) t h : outcome (bool * HashTable T) :=
  r ← foreach (R := HashTable T) fuel (fun _ => h) (fun x t => m ← HashTable_contains t x;
        if (m.1 : bool) then Ret (inl m.2) else Ret (inr m.2)) t;
  match r with inl t => Ret (true, t) | inr t => Ret (false, t) end.

(** [t.containsAll(t)]. *)
(* src/include/elm/data/HashTable.h:130-131 HashTable::containsAll *)
Definition HashTable_containsAll_self (fuel : nat) t : outcome (bool * HashTable T) :=
  r ← foreach (R := HashTable T) fuel id (fun x t => m ← HashTable_contains t x;
        if (m.1 : bool) then Ret (inl m.2) else Ret (inr m.2)) t;
  match r with inl t => Ret (true, t) | inr t => Ret (false, t) end.

(* src/include/elm/data/HashTable.h:132-133 HashTable::containsAll_const *)
Definition HashTable_containsAll_const (fuel : nat) t h : outcome bool :=
  r ← foreach (R := unit) fuel (fun _ => h) (fun x (_ : unit) => m ← HashTable_find_const t x;
        if m is Some _ then Ret (inl tt) else Ret (inr tt)) tt;
  match r with inl _ => Ret true | inr _ => Ret false end.

(* src/include/elm/data/HashTable.h:144-145 HashTable::equals *)
Definition HashTable_equals (fuel : nat) t h : outcome (bool * (HashTable T * HashTable T)) :=
  r ← HashTable_containsAll fuel t h;
  if (r.1 : bool) then m ← HashTable_containsAll fuel h r.2; Ret (m.1, (r.2, m.2))
  else Ret (false, (r.2, h)).

(* src/include/elm/data/HashTable.h:146-147 HashTable::equals_const *)
Definition HashTable_equals_const (fuel : nat) t h : outcome bool :=
  b ← HashTable_containsAll_const fuel t h;
  if (b : bool) then HashTable_containsAll_const fuel h t else Ret false.

(** The copies of the nodes of a chain, numbered from [a]. *)
Fixpoint copy_chain (a : Z) (l : list (node_t T)) : list (node_t T) :=
  match l with [] => [] | n :: l => mkNode a (nd_data n) :: copy_chain (a + 1) l end.

(* src/include/elm/data/HashTable.h:194-212 HashTable::copy *)
Definition HashTable_copy (fuel : nat) t h : outcome (HashTable T) :=
  t ← HashTable_clear t;
  if negb (ht_size t =? ht_size h) then HashTable_putAll fuel t h
  else loop 0 (ht_size t) (fun i t =>
         l ← rd (ht_tab h) i;
         match l with
         | [] => Ret t
         | _ => t' ← with_chain t i (copy_chain (ht_new t) l);
                Ret (mkHT (ht_size t') (ht_tab t') (ht_new t' + zlen l))
         end) t.

(* src/include/elm/data/HashTable.h:94-95 HashTable::HashTable *)
Definition HashTable_clone (fuel : nat) h : outcome (HashTable T) :=
  HashTable_putAll fuel (HashTable_make (ht_size h)) h.

Fixpoint chain_cut (a : Z) (l : list (node_t T)) : outcome (list (node_t T)) :=
  match l with
  | [] => Crash OutOfBounds
  | m :: l => if nd_at m =? a then Ret l else l ← chain_cut a l; Ret (m :: l)
  end.
(* src/include/elm/data/HashTable.h:184-192 HashTable::remove *)
Definition HashTable_removeIter t (it : InternIterator T) : outcome (HashTable T) :=
  match hi_node it with
  | None => Crash OutOfBounds
  | Some n =>
      l ← rd (ht_tab t) (hi_i it); l ← chain_cut (nd_at n) l; with_chain t (hi_i it) l
  end.

(** Lengths of the chains: the statistics of a table. *)
Definition chain_count t (i : Z) : outcome Z := l ← rd (ht_tab t) i; Ret (zlen l).
(* src/include/elm/data/HashTable.h:219-219 HashTable::minEntry *)
Definition HashTable_minEntry t : outcome Z :=
  m ← chain_count t 0; loop 1 (ht_size t) (fun i m => c ← chain_count t i; Ret (Z.min m c)) m.
(* src/include/elm/data/HashTable.h:220-220 HashTable::maxEntry *)
Definition HashTable_maxEntry t : outcome Z :=
  m ← chain_count t 0; loop 1 (ht_size t) (fun i m => c ← chain_count t i; Ret (Z.max m c)) m.
(* src/include/elm/data/HashTable.h:221-221 HashTable::zeroEntry *)
Definition HashTable_zeroEntry t : outcome Z :=
  loop 0 (ht_size t) (fun i c => n ← chain_count t i; Ret (if n =? 0 then c + 1 else c)) 0.

(** *** Sets *)

(* src/include/elm/data/HashSet.h:86-86 HashSet::insert *)
Definition HashSet_insert t (val : T) : outcome (HashTable T) := HashTable_put t val.
(* src/include/elm/data/HashSet.h:45-45 HashSet::contains *)
Definition HashSet_contains t (val : T) : outcome (bool * HashTable T) := HashTable_hasKey t val.
(* src/include/elm/data/HashSet.h:76-76 HashSet::remove *)
Definition HashSet_remove t (val : T) : outcome (HashTable T) := HashTable_remove t val.
(** [subsetOf] goes through this set and looks up in the other one. *)
(* src/include/elm/data/HashSet.h:87-88 HashSet::subsetOf *)
Definition HashSet_subsetOf (fuel : nat) t h : outcome (bool * HashTable T) :=
  r ← foreach (R := HashTable T) fuel (fun _ => t) (fun x h => m ← HashSet_contains h x;
        if (m.1 : bool) then Ret (inl m.2) else Ret (inr m.2)) h;
  match r with inl h => Ret (true, h) | inr h => Ret (false, h) end.
(* src/include/elm/data/HashSet.h:93-94 HashSet::join *)
Definition HashSet_join (fuel : nat) t h : outcome (HashTable T) :=
  r ← foreach (R := unit) fuel (fun _ => h) (fun x t => t ← HashSet_insert t x; Ret (inl t)) t;
  match r with inl t => Ret t | inr _ => Crash Undefined end.
(* src/include/elm/data/HashSet.h:95-96 HashSet::diff *)
Definition HashSet_diff (fuel : nat) t h : outcome (HashTable T) :=
  r ← foreach (R := unit) fuel (fun _ => h) (fun x t => t ← HashSet_remove t x; Ret (inl t)) t;
  match r with inl t => Ret t | inr _ => Crash Undefined end.
(** [meet] first collects in a list what is not in the other set. *)
(* src/include/elm/data/HashSet.h:97-104 HashSet::meet *)
Definition HashSet_meet (fuel : nat) t h : outcome (HashTable T * HashTable T) :=
  r ← foreach (R := unit) fuel (fun _ => t) (fun x '(l, h) => '(b, h) ← HashSet_contains h x;
        Ret (inl (if (b : bool) then l else x :: l, h))) ([], h);
  match r with
  | inl (l, h) => t ← HashTable_removeAll t l; Ret (t, h)
  | inr _ => Crash Undefined
  end.
End TwoTables.

(** ** Maps: tables of pairs compared by their keys *)
Section HashMap.
Context {K V : Type} `{HK : HashKey K} (dflt : V).
#[local] Existing Instance AssocHashKey.
Implicit Types (m : HashTable (K * V)).

(* src/include/elm/data/HashMap.h:157-157 HashMap::key *)
Definition HashMap_key (k : K) : K * V := (k, dflt).
(* src/include/elm/data/HashMap.h:55-56 HashMap::get *)
Definition HashMap_get m (k : K) : outcome (option V * HashTable (K * V)) :=
  '(o, m) ← HashTable_get m (HashMap_key k); Ret (option_map snd o, m).
(* src/include/elm/data/HashMap.h:57-58 HashMap::get *)
Definition HashMap_get_default m (k : K) (def : V) : outcome (V * HashTable (K * V)) :=
  '(o, m) ← HashTable_get m (HashMap_key k); Ret (default def (option_map snd o), m).
(* src/include/elm/data/HashMap.h:59-59 HashMap::hasKey *)
Definition HashMap_hasKey m (k : K) : outcome (bool * HashTable (K * V)) :=
  HashTable_hasKey m (HashMap_key k).
(* src/include/elm/data/HashMap.h:61-62 HashMap::get_const *)
Definition HashMap_get_const m (k : K) : outcome (option V) :=
  r ← HashTable_get_const m (HashMap_key k); Ret (option_map snd r).
(* src/include/elm/data/HashMap.h:49-49 HashMap::add *)
Definition HashMap_add m (k : K) (v : V) : outcome (HashTable (K * V)) :=
  r ← HashTable_add m (k, v); Ret r.2.
(* src/include/elm/data/HashMap.h:133-133 HashMap::put *)
Definition HashMap_put m (k : K) (v : V) : outcome (HashTable (K * V)) := HashTable_put m (k, v).
(* src/include/elm/data/HashMap.h:134-134 HashMap::remove *)
Definition HashMap_remove m (k : K) : outcome (HashTable (K * V)) :=
  HashTable_remove m (HashMap_key k).
(** The value of a reference; a key that is not in the map gets the default
    value. *)
(* src/include/elm/data/HashMap.h:51-52 HashMap::fetch *)
Definition HashMap_fetch m (k : K) : outcome (V * HashTable (K * V)) :=
  '(o, m) ← HashTable_get m (HashMap_key k);
  match o with
  | Some p => Ret (p.2, m)
  | None => n ← HashTable_add m (HashMap_key k); Ret ((nd_data n.1).2, n.2)
  end.
(* src/include/elm/data/HashMap.h:137-137 HashMap::operator[] *)
Definition HashMap_at m (k : K) : outcome (V * HashTable (K * V)) :=
  '(o, m) ← HashTable_get m (HashMap_key k);
  match o with Some p => Ret (p.2, m) | None => Crash AssertFailed end.
(** The values of the map are compared with [==]. *)
(* src/include/elm/data/HashMap.h:114-115 HashMap::contains *)
Definition HashMap_contains `{EqDecision V} (fuel : nat) m (item : V) : outcome bool :=
  r ← foreach (R := unit) fuel (fun _ => m) (fun x (_ : unit) =>
        if decide (x.2 = item) then Ret (inr tt) else Ret (inl tt)) tt;
  match r with inl _ => Ret false | inr _ => Ret true end.
(* src/include/elm/data/HashMap.h:142-143 HashMap::putAll *)
Definition HashMap_putAll (fuel : nat) m (c : HashTable (K * V)) : outcome (HashTable (K * V)) :=
  r ← foreach (R := unit) fuel (fun _ => c) (fun p m => m ← HashMap_put m p.1 p.2; Ret (inl m)) m;
  match r with inl m => Ret m | inr _ => Crash Undefined end.
End HashMap.

(** ** The reference: a list of data

    Two lists are similar when they hold the same data and, for each key, the
    same data in the same order: a table only keeps the order of the data that
    have the same key. *)
Section Reference.
Context {T : Type} `{HashLaws T}.
Implicit Types (l : list T).

Definition same_key (k x : T) : Prop := isEqual x k = true.
#[export] Instance same_key_dec k x : Decision (same_key k x).
Proof. unfold same_key. apply _. Defined.
Abbreviation keyf k := (filter (same_key k)).

Definition sim (l1 l2 : list T) : Prop := l1 ≡ₚ l2 /\ forall k, keyf k l1 = keyf k l2.

#[export] Instance sim_equivalence : Equivalence sim.
Proof.
  split.
  - by intros l.
  - intros l1 l2 [Hp Hk]. split; [by symmetry|intros k; by rewrite Hk].
  - intros l1 l2 l3 [Hp Hk] [Hp' Hk']. split; [by transitivity l2|intros k; by rewrite Hk].
Qed.

Definition list_first (k : T) (l : list T) : option T := head (keyf k l).
Fixpoint list_del (k : T) (l : list T) : list T :=
  match l with [] => [] | x :: l => if isEqual x k then l else x :: list_del k l end.
Fixpoint list_put (x : T) (l : list T) : list T :=
  match l with [] => [x] | y :: l => if isEqual y x then x :: l else y :: list_put x l end.

Lemma isEqual_l x y z : isEqual x y = true -> isEqual x z = isEqual y z.
Proof.
  intros E. destruct (isEqual y z) eqn:E1.
  - by eapply isEqual_trans.
  - destruct (isEqual x z) eqn:E2; [|done].
    by rewrite (isEqual_trans y x z) in E1 by (done || by apply isEqual_sym).
Qed.
Lemma isEqual_r x y z : isEqual x y = true -> isEqual z x = isEqual z y.
Proof.
  intros E. destruct (isEqual z x) eqn:E1.
  - by rewrite (isEqual_trans z x y).
  - destruct (isEqual z y) eqn:E2; [|done].
    by rewrite (isEqual_trans z y x) in E1 by (done || by apply isEqual_sym).
Qed.
Lemma isEqual_comm x y : isEqual x y = isEqual y x.
Proof.
  destruct (isEqual x y) eqn:E1, (isEqual y x) eqn:E2; try done.
  - by rewrite isEqual_sym in E2.
  - by rewrite isEqual_sym in E1.
Qed.

Lemma keyf_cons k x l : keyf k (x :: l) = if isEqual x k then x :: keyf k l else keyf k l.
Proof. rewrite filter_cons. unfold same_key at 1. by case_decide; destruct (isEqual x k). Qed.

Lemma keyf_same k k' l : isEqual k k' = true -> keyf k l = keyf k' l.
Proof.
  intros E. induction l as [|x l IH]; [done|]. by rewrite !keyf_cons, (isEqual_r k k' x E), IH.
Qed.

Lemma keyf_nil k k' l : keyf k l = [] -> isEqual k k' = true -> keyf k' l = [].
Proof. intros El E. by rewrite <- (keyf_same k k' l E). Qed.

Lemma keyf_del k' k l :
  keyf k' (list_del k l) = if isEqual k k' then tail (keyf k' l) else keyf k' l.
Proof.
  induction l as [|x l IH]; cbn [list_del]; [by destruct (isEqual k k')|].
  destruct (isEqual x k) eqn:E; rewrite !keyf_cons.
  - rewrite (isEqual_l x k k' E). by destruct (isEqual k k').
  - rewrite IH. destruct (isEqual k k') eqn:E'; [|done].
    by rewrite <- (isEqual_r k k' x E'), E.
Qed.

Lemma keyf_put k' x l :
  keyf k' (list_put x l) = if isEqual x k' then x :: tail (keyf k' l) else keyf k' l.
Proof.
  induction l as [|y l IH]; cbn [list_put]; [rewrite keyf_cons; by destruct (isEqual x k')|].
  destruct (isEqual y x) eqn:E; rewrite !keyf_cons.
  - rewrite (isEqual_l y x k' E). by destruct (isEqual x k').
  - rewrite IH. destruct (isEqual x k') eqn:E'; [|done].
    by rewrite <- (isEqual_r x k' y E'), E.
Qed.

Lemma del_perm k l : match keyf k l with x :: _ => l ≡ₚ x :: list_del k l | [] => list_del k l = l end.
Proof.
  induction l as [|x l IH]; [done|]. rewrite keyf_cons. cbn [list_del].
  destruct (isEqual x k) eqn:E; [done|]. destruct (keyf k l); [by rewrite IH|].
  rewrite IH at 1. apply Permutation_swap.
Qed.
Lemma put_perm x l : list_put x l ≡ₚ x :: list_del x l.
Proof.
  induction l as [|y l IH]; [done|]. cbn [list_put list_del].
  destruct (isEqual y x) eqn:E; [done|]. rewrite IH. apply Permutation_swap.
Qed.

#[export] Instance list_del_sim : Proper (eq ==> sim ==> sim) list_del.
Proof.
  intros k ? <- l1 l2 [Hp Hk]. split; [|intros k'; by rewrite !keyf_del, Hk].
  pose proof (del_perm k l1) as P1. pose proof (del_perm k l2) as P2. rewrite <- (Hk k) in P2.
  destruct (keyf k l1) as [|x r]; [by rewrite P1, P2|].
  apply (Permutation_cons_inv (a := x)). by rewrite <- P1, <- P2.
Qed.
#[export] Instance list_put_sim : Proper (eq ==> sim ==> sim) list_put.
Proof.
  intros x ? <- l1 l2 Hs. split.
  - rewrite !put_perm. constructor. apply (list_del_sim x x eq_refl _ _ Hs).
  - intros k'. by rewrite !keyf_put, (proj2 Hs).
Qed.
#[export] Instance cons_sim : Proper (eq ==> sim ==> sim) cons.
Proof.
  intros x ? <- l1 l2 [Hp Hk]. split; [by constructor|]. intros k. by rewrite !keyf_cons, Hk.
Qed.
#[export] Instance list_first_sim : Proper (eq ==> sim ==> eq) list_first.
Proof. intros k ? <- l1 l2 [_ Hk]. unfold list_first. by rewrite Hk. Qed.

Lemma del_app k l1 l2 : keyf k l1 = [] -> list_del k (l1 ++ l2) = l1 ++ list_del k l2.
Proof.
  induction l1 as [|x l1 IH]; [done|]. rewrite keyf_cons. cbn [app list_del].
  destruct (isEqual x k); [done|]. intros E. by rewrite IH.
Qed.
Lemma put_app x l1 l2 : keyf x l1 = [] -> list_put x (l1 ++ l2) = l1 ++ list_put x l2.
Proof.
  induction l1 as [|y l1 IH]; [done|]. rewrite keyf_cons. cbn [app list_put].
  destruct (isEqual y x); [done|]. intros E. by rewrite IH.
Qed.

(** Data with distinct keys commute. *)
Lemma sim_move x l1 l2 : keyf x l1 = [] -> sim (l1 ++ x :: l2) (x :: l1 ++ l2).
Proof.
  intros E. split; [symmetry; apply Permutation_middle|]. intros k.
  rewrite filter_app, !keyf_cons, filter_app. destruct (isEqual x k) eqn:Ek; [|done].
  by rewrite (keyf_nil x k l1 E Ek).
Qed.
Lemma sim_app l1 l2 l3 l4 : sim l2 l3 -> sim (l1 ++ l2 ++ l4) (l1 ++ l3 ++ l4).
Proof.
  intros [Hp Hk]. split; [by rewrite Hp|]. intros k. by rewrite !filter_app, Hk.
Qed.
(** The first datum with some key moves to the front. *)
Lemma sim_move_key k x l1 l2 : keyf k l1 = [] -> isEqual x k = true ->
  sim (l1 ++ x :: l2) (x :: l1 ++ l2).
Proof. intros E Ek. apply sim_move. apply (keyf_nil k); [done|]. by apply isEqual_sym. Qed.
Lemma sim_put_new x l : keyf x l = [] -> sim (list_put x l) (x :: l).
Proof.
  intros E. replace l with (l ++ []) at 1 by apply app_nil_r. rewrite put_app by done. cbn.
  pose proof (sim_move x l [] E) as Hs. by rewrite app_nil_r in Hs.
Qed.
End Reference.
Abbreviation keyf k := (filter (same_key k)).

(** ** The table holds the data of a list *)
Section Table.
Context {T : Type} `{HashLaws T}.
Implicit Types (t h : HashTable T) (l : list (node_t T)).

Abbreviation data l := (nd_data <$> l).
Definition elements t : list T := data (concat (ht_tab t)).

Record ht_wf t : Prop := {
  ht_pos : 0 < ht_size t;
  ht_len : zlen (ht_tab t) = ht_size t;
  ht_place i l : ht_tab t !! i = Some l ->
    Forall (fun n => computeHash (nd_data n) mod ht_size t = Z.of_nat i) l;
  ht_ids : NoDup (nd_at <$> concat (ht_tab t));
  ht_fresh : Forall (fun n => nd_at n < ht_new t) (concat (ht_tab t)) }.

(** A chain with the nodes on both sides. *)
Definition chain_of t (key : T) A l B : Prop :=
  slot t key = Ret (zlen A) /\ ht_tab t = A ++ l :: B /\
  computeHash key mod ht_size t = zlen A.

Lemma chain_ex t key : ht_wf t -> exists A l B, chain_of t key A l B.
Proof.
  intros W. pose proof (ht_pos t W). pose proof (ht_len t W) as El.
  pose proof (Z.mod_pos_bound (computeHash key) (ht_size t) ltac:(lia)) as Hi.
  destruct (lookup_lt_is_Some_2 (ht_tab t) (Z.to_nat (computeHash key mod ht_size t)))
    as [l Hl]; [lia|].
  exists (take (Z.to_nat (computeHash key mod ht_size t)) (ht_tab t)), l,
    (drop (S (Z.to_nat (computeHash key mod ht_size t))) (ht_tab t)).
  assert (zlen (take (Z.to_nat (computeHash key mod ht_size t)) (ht_tab t))
    = computeHash key mod ht_size t) as EA by (rewrite length_take; lia).
  unfold chain_of, slot. rewrite EA, (proj2 (Z.eqb_neq _ _)) by lia.
  split_and!; [done| |done]. by rewrite (take_drop_middle _ _ _ Hl).
Qed.

Lemma rd_middle {X} (A B : list X) (l : X) : rd (A ++ l :: B) (zlen A) = Ret l.
Proof. apply rd_ok; [lia|]. by rewrite Nat2Z.id, list_lookup_middle. Qed.
Lemma wr_middle {X} (A B : list X) (l l' : X) : wr (A ++ l :: B) (zlen A) l' = Ret (A ++ l' :: B).
Proof.
  rewrite wr_ok by (rewrite length_app; cbn; lia). f_equal.
  rewrite Nat2Z.id, <- (Nat.add_0_r (length A)), insert_app_r. done.
Qed.

(** The keys of the other chains differ from the ones of a chain. *)
Lemma other_chains t A l B key : ht_wf t -> ht_tab t = A ++ l :: B ->
  computeHash key mod ht_size t = zlen A ->
  keyf key (data (concat A)) = [] /\ keyf key (data (concat B)) = [].
Proof.
  intros W E Hh.
  assert (forall i l', ht_tab t !! i = Some l' -> i <> length A -> keyf key (data l') = []) as Hi.
  { intros i l' Hl' Hne. apply filter_none. intros x Hx Hk.
    apply list_elem_of_fmap in Hx as (n & -> & Hn).
    pose proof (ht_place t W i l' Hl') as F. rewrite list.Forall_forall in F.
    specialize (F n Hn). rewrite (computeHash_equal _ _ Hk) in F. lia. }
  assert (forall C, (forall l', l' ∈ C -> keyf key (data l') = []) ->
    keyf key (data (concat C)) = []) as Hc.
  { induction C as [|l' C IH]; intros HC; [done|]. cbn [concat].
    rewrite fmap_app, filter_app, (HC l') by constructor.
    apply IH. intros l2 H2. apply HC. by constructor. }
  split; apply Hc; intros l' Hl'; apply list_elem_of_lookup in Hl' as [i Hl'].
  - apply (Hi i); [|apply lookup_lt_Some in Hl'; lia]. rewrite E. by apply lookup_app_l_Some.
  - apply (Hi (length A + S i)%nat); [|lia]. rewrite E, lookup_app_r by lia.
    by replace (length A + S i - length A)%nat with (S i) by lia.
Qed.

Lemma elements_split t A l B : ht_tab t = A ++ l :: B ->
  elements t = data (concat A) ++ data l ++ data (concat B).
Proof. intros E. unfold elements. by rewrite E, concat_app, fmap_app; cbn; rewrite fmap_app. Qed.

(** Replacing a chain keeps the invariant. *)
Lemma wf_replace t A l l' B new : ht_wf t -> ht_tab t = A ++ l :: B ->
  Forall (fun n => computeHash (nd_data n) mod ht_size t = zlen A) l' ->
  NoDup (nd_at <$> concat (A ++ l' :: B)) ->
  Forall (fun n => nd_at n < new) (concat (A ++ l' :: B)) ->
  ht_wf (mkHT (ht_size t) (A ++ l' :: B) new).
Proof.
  intros W E Hp Hn Hf. pose proof (ht_len t W) as El. rewrite E, length_app in El. cbn in El.
  split; cbn.
  - apply W.
  - rewrite length_app. cbn. lia.
  - intros i l2 H2. destruct (decide (i = length A)) as [->|Hne].
    + rewrite list_lookup_middle in H2 by done. by injection H2 as <-.
    + apply (ht_place t W). rewrite E. destruct (decide (i < length A)%nat).
      * rewrite lookup_app_l in H2 |- * by lia. done.
      * rewrite lookup_app_r in H2 |- * by lia.
        by replace (i - length A)%nat with (S (i - S (length A))) in * by lia.
  - done.
  - done.
Qed.

(** The same for a chain whose nodes were some of the nodes of the old one. *)
Lemma wf_sublist t A l l' B : ht_wf t -> ht_tab t = A ++ l :: B -> l' ⊆+ l ->
  ht_wf (mkHT (ht_size t) (A ++ l' :: B) (ht_new t)).
Proof.
  intros W E Hs.
  assert (concat (A ++ l' :: B) ⊆+ concat (ht_tab t)) as Hc.
  { rewrite E, !concat_app. cbn. by apply submseteq_skips_l, submseteq_skips_r. }
  apply (wf_replace t A l l' B); [done|done| | |].
  - pose proof (ht_place t W (length A) l) as F. rewrite E, list_lookup_middle in F by done.
    specialize (F eq_refl). rewrite list.Forall_forall in F |- *.
    intros n Hn. apply F. by eapply elem_of_submseteq.
  - destruct (submseteq_Permutation _ _ Hc) as [k Hk]. pose proof (ht_ids t W) as Hn.
    rewrite Hk, fmap_app in Hn. by apply NoDup_app in Hn as [Hn _].
  - pose proof (ht_fresh t W) as F. rewrite list.Forall_forall in F |- *.
    intros n Hn. apply F. by eapply elem_of_submseteq.
Qed.

Lemma chain_find_spec (key : T) l :
  match chain_find key l with
  | None => keyf key (data l) = []
  | Some (p, n, q) => l = p ++ n :: q /\ keyf key (data p) = [] /\ isEqual (nd_data n) key = true
  end.
Proof.
  induction l as [|m l IH]; cbn [chain_find]; [done|].
  destruct (isEqual (nd_data m) key) eqn:E; [done|].
  destruct (chain_find key l) as [[[p n] q]|]; cbn [mbind option_bind].
  - destruct IH as (-> & Hk & Hn). split_and!; [done| |done]. by rewrite fmap_cons, keyf_cons, E.
  - by rewrite fmap_cons, keyf_cons, E.
Qed.

Lemma del_found key p n q : keyf key p = [] -> isEqual n key = true ->
  list_del key (p ++ n :: q) = p ++ q.
Proof. intros Hp E. rewrite del_app by done. cbn. by rewrite E. Qed.
Lemma put_found x p n q : keyf x p = [] -> isEqual n x = true ->
  list_put x (p ++ n :: q) = p ++ x :: q.
Proof. intros Hp E. rewrite put_app by done. cbn. by rewrite E. Qed.

(** *** Each operation *)

Lemma HashTable_find_ok t key : ht_wf t -> exists o t', HashTable_find t key = Ret (o, t') /\
  ht_wf t' /\ sim (elements t') (elements t) /\ option_map nd_data o = list_first key (elements t) /\
  match o with
  | None => t' = t /\ keyf key (elements t) = []
  | Some n => exists A q B, chain_of t' key A (n :: q) B /\ isEqual (nd_data n) key = true
  end.
Proof.
  intros W. destruct (chain_ex t key W) as (A & l & B & Es & Et & Eh).
  pose proof (elements_split t A l B Et) as El.
  destruct (other_chains t A l B key W Et Eh) as [KA KB].
  unfold HashTable_find. rewrite Es. mred. rewrite Et, rd_middle. mred.
  pose proof (chain_find_spec key l) as Hf. destruct (chain_find key l) as [[[p n] q]|].
  2:{ assert (keyf key (elements t) = []) as K
        by (rewrite El, !filter_app, KA, KB, Hf; done).
      eexists _, _. split; [done|]. split; [done|]. split; [done|]. split; [|done]. unfold list_first. by rewrite K. }
  destruct Hf as (-> & Kp & En).
  assert (list_first key (elements t) = Some (nd_data n)) as Ef.
  { unfold list_first. rewrite El, fmap_app, !filter_app, KA, Kp. cbn [app].
    by rewrite fmap_cons, keyf_cons, En. }
  destruct p as [|m p].
  - eexists _, _. split; [done|]. split; [done|]. split; [done|]. split; [done|]. by exists A, q, B.
  - unfold with_chain. rewrite Et, wr_middle. mred. eexists _, _. split; [done|].
    split_and!; [| |done|].
    + apply (wf_sublist t A (m :: p ++ n :: q) (n :: (m :: p) ++ q) B W Et).
      rewrite (Permutation_middle (m :: p) q n). done.
    + rewrite (elements_split (mkHT (ht_size t) _ (ht_new t)) A _ B eq_refl), El.
      symmetry. apply sim_app. rewrite fmap_app, !fmap_cons, fmap_app.
      exact (sim_move_key key (nd_data n) (data (m :: p)) (data q) Kp En).
    + exists A, ((m :: p) ++ q), B. split; [|done]. split_and!; [|done|done].
      unfold slot in *. cbn. done.
Qed.

Lemma HashTable_find_const_ok t key : ht_wf t ->
  exists o, HashTable_find_const t key = Ret o /\ option_map nd_data o = list_first key (elements t).
Proof.
  intros W. destruct (chain_ex t key W) as (A & l & B & Es & Et & Eh).
  destruct (other_chains t A l B key W Et Eh) as [KA KB].
  unfold HashTable_find_const. rewrite Es. mred. rewrite Et, rd_middle. mred.
  eexists; split; [done|]. unfold list_first.
  rewrite (elements_split t A l B Et), !filter_app, KA, KB, app_nil_r. cbn [app].
  pose proof (chain_find_spec key l) as Hf. destruct (chain_find key l) as [[[p n] q]|].
  - destruct Hf as (-> & Kp & En).
    by rewrite fmap_app, filter_app, Kp, fmap_cons, keyf_cons, En.
  - by rewrite Hf.
Qed.

Lemma HashTable_add_ok t x : ht_wf t -> exists n t', HashTable_add t x = Ret (n, t') /\
  nd_data n = x /\ ht_wf t' /\ sim (elements t') (x :: elements t).
Proof.
  intros W. destruct (chain_ex t x W) as (A & l & B & Es & Et & Eh).
  destruct (other_chains t A l B x W Et Eh) as [KA KB].
  unfold HashTable_add. rewrite Es. mred. rewrite Et, rd_middle. mred. rewrite wr_middle. mred.
  eexists _, _. split; [done|]. split; [done|].
  assert (concat (A ++ (mkNode (ht_new t) x :: l) :: B)
    ≡ₚ mkNode (ht_new t) x :: concat (ht_tab t)) as Pc.
  { rewrite Et, !concat_app. cbn. symmetry. apply Permutation_middle. }
  pose proof (ht_fresh t W) as F. split.
  - apply (wf_replace t A l); [done|done| | |].
    + constructor; [done|]. pose proof (ht_place t W (length A) l) as Fl.
      rewrite Et, list_lookup_middle in Fl by done. by apply Fl.
    + rewrite Pc. cbn. constructor; [|apply W]. intros Hin.
      apply list_elem_of_fmap in Hin as (m & Em & Hm).
      rewrite list.Forall_forall in F. specialize (F m Hm). lia.
    + rewrite Pc. constructor; [cbn; lia|]. eapply Forall_impl; [exact F|]. cbn. lia.
  - rewrite (elements_split (mkHT _ _ _) A _ B eq_refl), (elements_split t A l B Et).
    rewrite fmap_cons. cbn [nd_data app]. by apply sim_move.
Qed.

Lemma store_chain t key n A q B x : ht_wf t -> chain_of t key A (n :: q) B ->
  store_node t (nd_at n) x = mkHT (ht_size t) (A ++ (mkNode (nd_at n) x :: q) :: B) (ht_new t).
Proof.
  intros W (_ & Et & _). pose proof (ht_ids t W) as Hn. unfold store_node. f_equal.
  rewrite Et in Hn |- *. rewrite concat_app, fmap_app in Hn. cbn in Hn.
  apply NoDup_app in Hn as (_ & HnA & Hn). apply NoDup_cons in Hn as [HnB _].
  assert (forall l : list (node_t T), (nd_at n ∉ nd_at <$> l) ->
    (fun m => if nd_at m =? nd_at n then mkNode (nd_at n) x else m) <$> l = l) as Hid.
  { intros l Hl. rewrite <- (list_fmap_id l) at 2. apply list_fmap_ext. intros i m Hm.
    destruct (Z.eqb_spec (nd_at m) (nd_at n)) as [Em|]; [|done].
    destruct Hl. apply list_elem_of_fmap. exists m. split; [done|]. by eapply list_elem_of_lookup_2. }
  assert (forall C : list (list (node_t T)), (nd_at n ∉ nd_at <$> concat C) ->
    (fun l => (fun m => if nd_at m =? nd_at n then mkNode (nd_at n) x else m) <$> l) <$> C = C) as HC.
  { induction C as [|l C IH]; intros Hl; [done|]. cbn in Hl. rewrite fmap_app in Hl.
    apply not_elem_of_app in Hl as [Hl1 Hl2]. rewrite fmap_cons. by rewrite Hid, IH. }
  rewrite fmap_app in HnB. apply not_elem_of_app in HnB as [Hq HB].
  rewrite fmap_app, fmap_cons, fmap_cons, Z.eqb_refl, (Hid q Hq), (HC B HB), (HC A); [done|].
  intros HA. apply (HnA _ HA). by left.
Qed.

Lemma HashTable_put_ok t x : ht_wf t -> exists t', HashTable_put t x = Ret t' /\
  ht_wf t' /\ sim (elements t') (list_put x (elements t)).
Proof.
  intros W. unfold HashTable_put.
  destruct (HashTable_find_ok t x W) as (o & t1 & -> & W1 & S1 & _ & Ho). mred. cbn [fst snd].
  destruct o as [n|].
  - destruct Ho as (A & q & B & Hc & En). rewrite (store_chain t1 x n A q B) by done.
    eexists; split; [done|]. destruct Hc as (Es & Et & Eh).
    destruct (other_chains t1 A _ B x W1 Et Eh) as [KA KB]. split.
    + assert (concat (A ++ (mkNode (nd_at n) x :: q) :: B)
        ≡ₚ mkNode (nd_at n) x :: concat A ++ q ++ concat B) as P1
        by (rewrite concat_app; cbn; by rewrite <- Permutation_middle).
      assert (concat (ht_tab t1) ≡ₚ n :: concat A ++ q ++ concat B) as P2
        by (rewrite Et, concat_app; cbn; by rewrite <- Permutation_middle).
      apply (wf_replace t1 A (n :: q)); [done|done| | |].
      * pose proof (ht_place t1 W1 (length A) (n :: q)) as Fl.
        rewrite Et, list_lookup_middle in Fl by done.
        pose proof (Fl eq_refl) as F2. apply Forall_cons in F2 as [Fn Fq]. by constructor.
      * rewrite P1. pose proof (ht_ids t1 W1) as Hn. by rewrite P2 in Hn.
      * rewrite P1. pose proof (ht_fresh t1 W1) as Hf. rewrite P2 in Hf.
        apply Forall_cons in Hf as [F1 F2]. by constructor.
    + rewrite <- S1, (elements_split (mkHT _ _ _) A _ B eq_refl), (elements_split t1 A _ B Et).
      rewrite !fmap_cons. cbn [app nd_data]. by rewrite put_found.
  - destruct Ho as [-> K]. destruct (HashTable_add_ok t x W) as (n & t2 & -> & _ & W2 & S2). mred.
    exists t2. split; [done|]. split; [done|]. rewrite S2. symmetry. by apply sim_put_new.
Qed.

Lemma HashTable_remove_ok t key : ht_wf t -> exists t', HashTable_remove t key = Ret t' /\
  ht_wf t' /\ elements t' = list_del key (elements t).
Proof.
  intros W. destruct (chain_ex t key W) as (A & l & B & Es & Et & Eh).
  destruct (other_chains t A l B key W Et Eh) as [KA KB].
  pose proof (elements_split t A l B Et) as El.
  unfold HashTable_remove. rewrite Es. mred. rewrite Et, rd_middle. mred.
  pose proof (chain_find_spec key l) as Hf. destruct (chain_find key l) as [[[p n] q]|].
  - destruct Hf as (-> & Kp & En). unfold with_chain. rewrite Et, wr_middle. mred.
    eexists; split; [done|]. split.
    + apply (wf_sublist t A (p ++ n :: q)); [done|done|].
      rewrite <- (Permutation_middle p q n). by apply submseteq_cons.
    + rewrite (elements_split (mkHT _ _ _) A _ B eq_refl), El, !fmap_app, fmap_cons.
      rewrite del_app by done. f_equal. rewrite <- !app_assoc. cbn [app].
      by rewrite (del_found key (data p)).
  - exists t. split; [done|]. split; [done|].
    pose proof (del_perm key (elements t)) as P.
    assert (keyf key (elements t) = []) as K by (by rewrite El, !filter_app, KA, KB, Hf).
    rewrite K in P. by rewrite P.
Qed.

Lemma concat_nils {X} n : concat (replicate n ([] : list X)) = [].
Proof. by induction n. Qed.

Lemma concat_all_nil {X} (C : list (list X)) :
  (forall i (l : list X), C !! i = Some l -> l = []) -> concat C = [].
Proof.
  induction C as [|l C IH]; intros HC; [done|]. cbn. rewrite (HC 0%nat l eq_refl).
  apply IH. intros i. apply (HC (S i)).
Qed.

Lemma HashTable_make_ok size : 0 < size ->
  ht_wf (HashTable_make size) /\ elements (HashTable_make size) = [].
Proof.
  intros Hs. unfold elements. cbn. rewrite concat_nils. split; [|done]. split; cbn.
  - done.
  - rewrite length_replicate. lia.
  - intros i l Hl. apply lookup_replicate in Hl as [-> _]. constructor.
  - rewrite concat_nils. constructor.
  - rewrite concat_nils. constructor.
Qed.

Lemma HashTable_clear_ok t : ht_wf t -> exists t', HashTable_clear t = Ret t' /\
  ht_wf t' /\ elements t' = [] /\ ht_size t' = ht_size t.
Proof.
  intros W. pose proof (ht_pos t W). pose proof (ht_len t W) as El. unfold HashTable_clear.
  loop_with (fun i u => ht_size u = ht_size t /\ ht_new u = ht_new t /\
    ht_tab u = replicate (Z.to_nat i) [] ++ drop (Z.to_nat i) (ht_tab t)).
  - lia.
  - done.
  - intros i u Hi (Es & En & Et). unfold with_chain. rewrite wr_ok.
    2:{ rewrite Et, length_app, length_replicate, length_drop. lia. }
    mred. eexists; split; [done|]. cbn. split_and!; [done|done|].
    rewrite Et, insert_app_r_alt by (rewrite length_replicate; lia).
    rewrite length_replicate, Nat.sub_diag.
    destruct (drop (Z.to_nat i) (ht_tab t)) as [|l C] eqn:Ed.
    { apply (f_equal length) in Ed. rewrite length_drop in Ed. cbn in Ed. lia. }
    replace (Z.to_nat (i + 1)) with (Z.to_nat i + 1)%nat by lia.
    rewrite replicate_add, <- drop_drop, Ed, <- app_assoc. done.
  - destruct Hr as (Es & _ & Et). eexists; split; [done|].
    rewrite drop_ge, app_nil_r in Et by lia. destruct (HashTable_make_ok (ht_size t)) as [Wm Em]; [lia|].
    assert (concat (ht_tab r) = []) as Ec by (rewrite Et; apply concat_nils).
    split; [|split; [by unfold elements; rewrite Ec|done]]. split; cbn.
    + lia.
    + rewrite Et, length_replicate. lia.
    + intros i l Hl. rewrite Et in Hl. apply lookup_replicate in Hl as [-> _]. constructor.
    + rewrite Ec. constructor.
    + rewrite Ec. constructor.
Qed.

Lemma HashTable_count_ok t : ht_wf t -> HashTable_count t = Ret (zlen (elements t)).
Proof.
  intros W. pose proof (ht_pos t W). pose proof (ht_len t W) as El. unfold HashTable_count.
  loop_with (fun i c => c = zlen (concat (take (Z.to_nat i) (ht_tab t)))).
  - lia.
  - done.
  - intros i c Hi ->. destruct (lookup_lt_is_Some_2 (ht_tab t) (Z.to_nat i)) as [l Hl]; [lia|].
    rewrite (rd_ok _ i l) by (done || lia). mred. eexists; split; [done|].
    replace (Z.to_nat (i + 1)) with (S (Z.to_nat i)) by lia.
    rewrite (take_S_r _ _ _ Hl), concat_app, length_app. cbn [concat]. rewrite app_nil_r. lia.
  - rewrite Hr. unfold elements. rewrite length_fmap, take_ge by lia. done.
Qed.

Lemma HashTable_isEmpty_ok t : ht_wf t ->
  HashTable_isEmpty t = Ret (match elements t with [] => true | _ => false end).
Proof.
  intros W. pose proof (ht_len t W) as El. unfold HashTable_isEmpty.
  destruct (scan_spec (fun i => match ht_tab t !! Z.to_nat i with
    | Some (_ :: _) => Some false | _ => None end) 0 (ht_size t)
    (fun i => l ← rd (ht_tab t) i; Ret (match l with [] => None | _ => Some false end)))
    as (r & -> & Hr).
  { intros i Hi. destruct (lookup_lt_is_Some_2 (ht_tab t) (Z.to_nat i)) as [l Hl]; [lia|].
    rewrite (rd_ok _ i l), Hl by (done || lia). mred. by destruct l. }
  mred. f_equal. unfold elements. destruct r as [b|].
  - destruct Hr as (i & Hi & Ei & _). destruct (ht_tab t !! Z.to_nat i) as [[|n l]|] eqn:E; try done.
    injection Ei as <-. apply list_elem_of_split_length in E as (A & B & -> & _).
    rewrite concat_app. cbn. by destruct (concat A).
  - assert (concat (ht_tab t) = []) as ->; [|done].
    apply concat_all_nil. intros i l Hl.
    pose proof (lookup_lt_Some _ _ _ Hl). specialize (Hr (Z.of_nat i) ltac:(lia)).
    rewrite Nat2Z.id, Hl in Hr. by destruct l.
Qed.
End Table.

(** ** Iteration visits the elements in order *)

(** The loop on the list of the elements. *)
Fixpoint list_each {T St R} (body : T -> St -> outcome (St + R)) (xs : list T) (s : St)
    : outcome (St + R) :=
  match xs with
  | [] => Ret (inl s)
  | x :: xs => r ← body x s; match r with inl s => list_each body xs s | inr y => Ret (inr y) end
  end.

Section Iteration.
Context {T : Type} `{HashLaws T}.
Implicit Types (h : HashTable T) (it : InternIterator T).

Definition it_rest h it (xs : list T) : Prop :=
  (HashIter_ended h it = true /\ xs = []) \/
  exists A l1 n l2 B, ht_tab h = A ++ (l1 ++ n :: l2) :: B /\ hi_i it = zlen A /\
    hi_node it = Some n /\ xs = nd_data <$> (n :: l2 ++ concat B).

Lemma HashIter_step_ok h i : ht_wf h -> 0 <= i <= ht_size h ->
  exists it, HashIter_step h i = Ret it /\ it_rest h it (nd_data <$> concat (drop (Z.to_nat i) (ht_tab h))).
Proof.
  intros W Hi. pose proof (ht_len h W) as El. unfold HashIter_step.
  destruct (scan_spec (fun j => match ht_tab h !! Z.to_nat j with
    | Some (n :: _) => Some (mkHI j (Some n)) | _ => None end) i (ht_size h)
    (fun j => l ← rd (ht_tab h) j;
       Ret (match l with [] => None | n :: _ => Some (mkHI j (Some n)) end))) as (r & -> & Hr).
  { intros j Hj. destruct (lookup_lt_is_Some_2 (ht_tab h) (Z.to_nat j)) as [l Hl]; [lia|].
    rewrite (rd_ok _ j l), Hl by (done || lia). mred. by destruct l. }
  mred. eexists; split; [done|].
  assert (forall m j, j = i + Z.of_nat m -> j <= ht_size h ->
    (forall k, i <= k < j -> match ht_tab h !! Z.to_nat k with
       | Some (n :: _) => Some (mkHI k (Some n)) | _ => None end = None) ->
    concat (drop (Z.to_nat i) (ht_tab h)) = concat (drop (Z.to_nat j) (ht_tab h))) as Hskip.
  { induction m as [|m IH]; intros j -> Hj Hk; [by rewrite Z.add_0_r|].
    rewrite (IH (i + Z.of_nat m)); [|done|lia|intros; apply Hk; lia].
    destruct (lookup_lt_is_Some_2 (ht_tab h) (Z.to_nat (i + Z.of_nat m))) as [l Hl]; [lia|].
    specialize (Hk (i + Z.of_nat m) ltac:(lia)). rewrite Hl in Hk. destruct l; [|done].
    rewrite (drop_S _ _ _ Hl). cbn. by replace (Z.to_nat (i + Z.of_nat (S m)))
      with (S (Z.to_nat (i + Z.of_nat m))) by lia. }
  destruct r as [it|]; cbn [default from_option id].
  - destruct Hr as (j & Hj & Ej & Hn). right.
    rewrite (Hskip (Z.to_nat (j - i)) j); [|lia|lia|intros; apply Hn; lia].
    destruct (ht_tab h !! Z.to_nat j) as [[|n l]|] eqn:E; [done| |done]. injection Ej as <-.
    exists (take (Z.to_nat j) (ht_tab h)), [], n, l, (drop (S (Z.to_nat j)) (ht_tab h)).
    cbn [app hi_i hi_node]. rewrite length_take, (drop_S _ _ _ E).
    split_and!; [by rewrite take_drop_middle|lia|done|done].
  - left. split; [unfold HashIter_ended; cbn; lia|].
    rewrite (Hskip (Z.to_nat (ht_size h - i)) (ht_size h)); [|lia|lia|intros; apply Hr; lia].
    by rewrite drop_ge by lia.
Qed.

Lemma chain_at_ok l1 n (l2 : list (node_t T)) : NoDup (nd_at <$> l1 ++ n :: l2) ->
  chain_at (nd_at n) (l1 ++ n :: l2) = Ret n /\
  chain_next (nd_at n) (l1 ++ n :: l2) = Ret (head l2).
Proof.
  induction l1 as [|m l1 IH]; cbn; [by rewrite Z.eqb_refl|]. intros [Hm Hn]%NoDup_cons.
  destruct (Z.eqb_spec (nd_at m) (nd_at n)) as [E|]; [|by apply IH].
  destruct Hm. rewrite E, fmap_app. apply elem_of_app. right. by left.
Qed.

Lemma chain_ids h A l B : ht_wf h -> ht_tab h = A ++ l :: B -> NoDup (nd_at <$> l).
Proof.
  intros W E. pose proof (ht_ids h W) as Hn. rewrite E, concat_app, fmap_app in Hn.
  apply NoDup_app in Hn as (_ & _ & Hn). cbn in Hn. rewrite fmap_app in Hn.
  by apply NoDup_app in Hn as [Hn _].
Qed.

Lemma it_rest_nil h it : it_rest h it [] -> HashIter_ended h it = true.
Proof. by intros [[E _]|(A & l1 & n & l2 & B & _ & _ & _ & E)]. Qed.

Lemma it_rest_cons h it x xs : ht_wf h -> it_rest h it (x :: xs) ->
  HashIter_ended h it = false /\ HashIter_item h it = Ret x /\
  exists it', HashIter_next h it = Ret it' /\ it_rest h it' xs.
Proof.
  intros W [[_ E]|(A & l1 & n & l2 & B & Et & Ei & En & E)]; [done|].
  pose proof (ht_len h W) as El. rewrite Et, length_app in El. cbn in El.
  injection E as -> ->. pose proof (chain_ids h A _ B W Et) as Hid.
  destruct (chain_at_ok l1 n l2 Hid) as [Ea En'].
  unfold HashIter_ended, HashIter_item, HashIter_next. rewrite Ei, En, Et, rd_middle. mred.
  rewrite Ea, En'. mred. split; [lia|]. split; [done|].
  destruct l2 as [|m l2]; cbn [head].
  - destruct (HashIter_step_ok h (zlen A + 1) W) as (it' & -> & Hr); [lia|].
    eexists; split; [done|]. rewrite Et in Hr.
    replace (Z.to_nat (zlen A + 1)) with (length A + 1)%nat in Hr by lia.
    by rewrite <- drop_drop, drop_app_length in Hr.
  - eexists; split; [done|]. right. exists A, (l1 ++ [n]), m, l2, B.
    rewrite <- app_assoc. split_and!; [done|done|done|]. done.
Qed.

(** [tab] does not change along the loop. *)
Lemma foreach_list {St R} fuel (tab : St -> HashTable T) (body : T -> St -> outcome (St + R)) h s :
  ht_wf h -> tab s = h ->
  (forall x s s', tab s = h -> body x s = Ret (inl s') -> tab s' = h) ->
  (length (elements h) < fuel)%nat ->
  foreach fuel tab body s = list_each body (elements h) s.
Proof.
  intros W Es Hb Hf. unfold foreach. rewrite Es. unfold HashIter_make.
  destruct (HashIter_step_ok h 0 W) as (it & -> & Hr); [pose proof (ht_pos h W); lia|]. mred.
  rewrite drop_0 in Hr. change (it_rest h it (elements h)) in Hr.
  revert it s Es Hr fuel Hf. generalize (elements h). intros xs.
  induction xs as [|x xs IH]; intros it s Es Hr [|fuel] Hf; cbn in Hf; try lia; cbn [iter].
  - unfold foreach_step. rewrite Es, (it_rest_nil _ _ Hr). done.
  - destruct (it_rest_cons h it x xs W Hr) as (E1 & E2 & it' & E3 & Hr').
    unfold foreach_step. rewrite Es, E1, E2. mred. cbn [list_each].
    destruct (body x s) as [[s'|y]|f] eqn:Eb; mred; [|done|done].
    specialize (Hb x s s' Es Eb). rewrite Hb, E3. mred. apply IH; [done|done|lia].
Qed.

(** A loop whose body always goes on is a fold, with an invariant. *)
Lemma list_each_inv {St R} (I : list T -> St -> Prop) (body : T -> St -> outcome (St + R)) xs s :
  I [] s -> (forall pre x s, I pre s -> exists s', body x s = Ret (inl s') /\ I (pre ++ [x]) s') ->
  exists s', list_each body xs s = Ret (inl s') /\ I xs s'.
Proof.
  intros HI Hb. assert (forall pre s, I pre s ->
    exists s', list_each body xs s = Ret (inl s') /\ I (pre ++ xs) s') as Hgen.
  { induction xs as [|x xs IH]; intros pre s0 H1; cbn.
    - exists s0. by rewrite app_nil_r.
    - destruct (Hb pre x s0 H1) as (s1 & -> & H2). mred.
      destruct (IH (pre ++ [x]) s1 H2) as (s2 & -> & H3). rewrite <- app_assoc in H3. eauto. }
  apply (Hgen [] s HI).
Qed.
End Iteration.

(** ** Sequences of operations *)

Inductive ht_op (T : Type) :=
  | HPut (x : T) | HAdd (x : T) | HRemove (k : T) | HGet (k : T) | HGetConst (k : T) | HHas (k : T)
  | HCount | HEmpty | HClear.
Arguments HPut {T} _.
Arguments HAdd {T} _.
Arguments HRemove {T} _.
Arguments HGet {T} _.
Arguments HGetConst {T} _.
Arguments HHas {T} _.
Arguments HCount {T}.
Arguments HEmpty {T}.
Arguments HClear {T}.

Inductive ht_out (T : Type) := OUnit | OData (o : option T) | OBool (b : bool) | ONum (n : Z).
Arguments OUnit {T}.
Arguments OData {T} _.
Arguments OBool {T} _.
Arguments ONum {T} _.

Section Operations.
Context {T : Type} `{HashKey T}.

Definition ht_exec (t : HashTable T) (op : ht_op T) : outcome (ht_out T * HashTable T) :=
  match op with
  | HPut x => t ← HashTable_put t x; Ret (OUnit, t)
  | HAdd x => r ← HashTable_add t x; Ret (OUnit, r.2)
  | HRemove k => t ← HashTable_remove t k; Ret (OUnit, t)
  | HGet k => '(o, t) ← HashTable_get t k; Ret (OData o, t)
  | HGetConst k => o ← HashTable_get_const t k; Ret (OData o, t)
  | HHas k => '(b, t) ← HashTable_hasKey t k; Ret (OBool b, t)
  | HCount => n ← HashTable_count t; Ret (ONum n, t)
  | HEmpty => b ← HashTable_isEmpty t; Ret (OBool b, t)
  | HClear => t ← HashTable_clear t; Ret (OUnit, t)
  end.
Fixpoint ht_run (t : HashTable T) (ops : list (ht_op T)) : outcome (list (ht_out T) * HashTable T) :=
  match ops with
  | [] => Ret ([], t)
  | op :: ops => '(o, t) ← ht_exec t op; '(os, t) ← ht_run t ops; Ret (o :: os, t)
  end.

Definition is_some_b {X} (o : option X) : bool := match o with Some _ => true | None => false end.
Definition list_op (l : list T) (op : ht_op T) : ht_out T * list T :=
  match op with
  | HPut x => (OUnit, list_put x l)
  | HAdd x => (OUnit, x :: l)
  | HRemove k => (OUnit, list_del k l)
  | HGet k | HGetConst k => (OData (list_first k l), l)
  | HHas k => (OBool (is_some_b (list_first k l)), l)
  | HCount => (ONum (zlen l), l)
  | HEmpty => (OBool (match l with [] => true | _ => false end), l)
  | HClear => (OUnit, [])
  end.
Fixpoint list_ops (l : list T) (ops : list (ht_op T)) : list (ht_out T) * list T :=
  match ops with
  | [] => ([], l)
  | op :: ops => let r := list_op l op in let rs := list_ops r.2 ops in (r.1 :: rs.1, rs.2)
  end.
End Operations.

Section Refinement.
Context {T : Type} `{HashLaws T}.

Lemma ht_exec_ok t l op : ht_wf t -> sim (elements t) l ->
  exists t', ht_exec t op = Ret ((list_op l op).1, t') /\ ht_wf t' /\
    sim (elements t') (list_op l op).2.
Proof.
  intros W Hs. destruct op as [x|x|k|k|k|k| | |]; cbn [ht_exec list_op fst snd].
  - destruct (HashTable_put_ok t x W) as (t' & -> & W' & S'). mred. exists t'.
    split; [done|]. split; [done|]. by rewrite S', Hs.
  - destruct (HashTable_add_ok t x W) as (n & t' & -> & _ & W' & S'). mred. exists t'.
    split; [done|]. split; [done|]. by rewrite S', Hs.
  - destruct (HashTable_remove_ok t k W) as (t' & -> & W' & E'). mred. exists t'.
    split; [done|]. split; [done|]. by rewrite E', Hs.
  - unfold HashTable_get. destruct (HashTable_find_ok t k W) as (o & t' & -> & W' & S' & E' & _).
    rewrite Hs in E'. mred. cbn. rewrite E'. exists t'. split; [done|]. split; [done|]. by rewrite S'.
  - unfold HashTable_get_const. destruct (HashTable_find_const_ok t k W) as (o & -> & E').
    rewrite Hs in E'. mred. rewrite E'. by exists t.
  - unfold HashTable_hasKey. destruct (HashTable_find_ok t k W) as (o & t' & -> & W' & S' & E' & _).
    rewrite Hs in E'. mred. cbn. rewrite <- E'. exists t'. split; [by destruct o|].
    split; [done|]. by rewrite S'.
  - rewrite HashTable_count_ok by done. mred. rewrite (Permutation_length (proj1 Hs)). by exists t.
  - rewrite HashTable_isEmpty_ok by done. mred. exists t. split; [|done].
    pose proof (Permutation_length (proj1 Hs)) as El. by destruct (elements t), l.
  - destruct (HashTable_clear_ok t W) as (t' & -> & W' & E' & _). mred. exists t'.
    split; [done|]. split; [done|]. by rewrite E'.
Qed.

Lemma ht_run_ok ops t l : ht_wf t -> sim (elements t) l ->
  exists t', ht_run t ops = Ret ((list_ops l ops).1, t') /\ ht_wf t' /\
    sim (elements t') (list_ops l ops).2.
Proof.
  revert t l. induction ops as [|op ops IH]; intros t l W Hs; cbn [ht_run list_ops fst snd].
  - by exists t.
  - destruct (ht_exec_ok t l op W Hs) as (t1 & -> & W1 & S1). mred.
    destruct (IH t1 _ W1 S1) as (t2 & -> & W2 & S2). mred. by exists t2.
Qed.
End Refinement.

(** [put] is only used with a key of which the table has one datum at most. *)
Fixpoint puts_single {T} `{HashKey T} (l : list T) (ops : list (ht_op T)) : bool :=
  match ops with
  | [] => true
  | op :: ops =>
      match op with HPut x => zlen (keyf x l) <=? 1 | _ => true end && puts_single (list_op l op).2 ops
  end.

(** [C19] A hash table of any size behaves as the list of its data whatever the
    hash function (equal keys having equal hashes): from an empty table, any
    sequence of operations where [put] is not used with a key that several [add]
    have given several data runs without a fault and answers what the list
    answers: [put] replaces the datum with the key or adds one, so that there is
    only one; [add] hides the data already there and [remove] takes the last one
    added, which uncovers the one before; the reordering of the chains that look
    ups do is not visible.  Sizes and counts are below 2^31. *)
Theorem HashTable_refines_list {T} `{HashLaws T} size ops :
  0 < size < 2147483648 -> zlen ops < 2147483648 -> puts_single [] ops = true ->
  exists t', ht_run (HashTable_make size) ops = Ret ((list_ops [] ops).1, t') /\
    ht_wf t' /\ sim (elements t') (list_ops [] ops).2.
Proof.
  intros [Hs _] _ _. destruct (HashTable_make_ok size Hs) as [W E]. apply ht_run_ok; [done|]. by rewrite E.
Qed.

Lemma HashTable_refines_list_witness :
  exists t', ht_run (HashTable_make 3) [HPut 1; HPut 4; HAdd 7; HPut 1; HGet 1; HRemove 4; HCount; HHas 4]
    = Ret ([OUnit; OUnit; OUnit; OUnit; OData (Some 1); OUnit; ONum 2; OBool false], t') /\ ht_wf t'.
Proof.
  destruct (HashTable_refines_list 3 [HPut 1; HPut 4; HAdd 7; HPut 1; HGet 1; HRemove 4; HCount; HHas 4])
    as (t' & E & W & _); [done|done|done|]. by exists t'.
Defined.

(** With several data of the key, [put] replaces the first one only. *)
Definition put_twice : list (ht_op (Z * Z)) := [HAdd (1, 10); HAdd (1, 20); HPut (1, 30); HCount].
Example HashTable_put_several :
  puts_single (H := AssocHashKey HashKey_int) [] put_twice = false /\
  match ht_run (H := AssocHashKey HashKey_int) (HashTable_make 3) put_twice with
  | Ret (os, t) => os = [OUnit; OUnit; OUnit; ONum 2] /\ elements t = [(1, 30); (1, 10)]
  | _ => False end.
Proof. vm_compute. auto. Qed.

(** ** Sets: tables with one datum per key *)

Section Single.
Context {T : Type} `{HashLaws T}.
Implicit Types (l : list T) (t h : HashTable T).

Definition single l : Prop := forall k, (length (keyf k l) <= 1)%nat.
#[export] Instance single_sim : Proper (sim ==> iff) single.
Proof. intros l1 l2 [_ Hk]. split; intros Hs k; [rewrite <- Hk|rewrite Hk]; apply Hs. Qed.

Lemma first_put k x l : list_first k (list_put x l) = if isEqual x k then Some x else list_first k l.
Proof. unfold list_first. rewrite keyf_put. by destruct (isEqual x k). Qed.
Lemma first_cons k x l : list_first k (x :: l) = if isEqual x k then Some x else list_first k l.
Proof. unfold list_first. rewrite keyf_cons. by destruct (isEqual x k). Qed.
Lemma first_del k x l : single l ->
  list_first k (list_del x l) = if isEqual x k then None else list_first k l.
Proof.
  intros Hs. unfold list_first. rewrite keyf_del. destruct (isEqual x k); [|done].
  specialize (Hs k). by destruct (keyf k l) as [|? []]; cbn in *; [..|lia].
Qed.
Lemma single_nil : single [].
Proof. intros k. cbn. lia. Qed.
Lemma single_put x l : single l -> single (list_put x l).
Proof.
  intros Hs k. rewrite keyf_put. specialize (Hs k).
  destruct (isEqual x k); [|done]. destruct (keyf k l); cbn in *; lia.
Qed.
Lemma single_del x l : single l -> single (list_del x l).
Proof.
  intros Hs k. rewrite keyf_del. specialize (Hs k).
  destruct (isEqual x k); [|done]. destruct (keyf k l); cbn in *; lia.
Qed.
Lemma first_elem k l x : list_first k l = Some x -> x ∈ l /\ isEqual x k = true.
Proof.
  intros E. assert (x ∈ keyf k l) as Hx.
  { unfold list_first in E. destruct (keyf k l); [done|]. injection E as ->. by left. }
  apply list_elem_of_filter in Hx as [Hk Hx]. done.
Qed.
Lemma first_None k l : list_first k l = None -> forall x, x ∈ l -> isEqual x k = false.
Proof.
  intros E x Hx. apply not_true_is_false. intros Ek.
  assert (x ∈ keyf k l) as Hf by (by apply list_elem_of_filter). unfold list_first in E.
  destruct (keyf k l); [|done]. by apply not_elem_of_nil in Hf.
Qed.

Definition has t (x : T) : bool := is_some_b (list_first x (elements t)).

Lemma has_ex t x : has t x = true <-> exists y, y ∈ elements t /\ isEqual y x = true.
Proof.
  unfold has. destruct (list_first x (elements t)) as [y|] eqn:E; cbn; split; try done.
  - intros _. exists y. by apply first_elem.
  - intros (y & Hy & Ek). by rewrite (first_None x _ E y Hy) in Ek.
Qed.
Lemma has_sim t t' x : sim (elements t) (elements t') -> has t x = has t' x.
Proof. intros Hs. unfold has. by rewrite Hs. Qed.

Record set_ok t : Prop := { set_wf : ht_wf t; set_single : single (elements t) }.

Lemma set_insert_ok t x : set_ok t -> exists t', HashSet_insert t x = Ret t' /\ set_ok t' /\
  forall y, has t' y = isEqual x y || has t y.
Proof.
  intros [W S1]. destruct (HashTable_put_ok t x W) as (t' & E & W' & Hs).
  exists t'. split; [done|]. split; [split; [done|rewrite Hs; by apply single_put]|].
  intros y. unfold has. rewrite Hs, first_put. by destruct (isEqual x y).
Qed.
Lemma hset_remove_ok t x : set_ok t -> exists t', HashSet_remove t x = Ret t' /\ set_ok t' /\
  forall y, has t' y = negb (isEqual x y) && has t y.
Proof.
  intros [W S1]. destruct (HashTable_remove_ok t x W) as (t' & E & W' & Hs).
  exists t'. split; [done|]. split; [split; [done|rewrite Hs; by apply single_del]|].
  intros y. unfold has. rewrite Hs, first_del by done. by destruct (isEqual x y).
Qed.
Lemma set_contains_ok t x : set_ok t -> exists t', HashSet_contains t x = Ret (has t x, t') /\
  set_ok t' /\ (forall y, has t' y = has t y) /\ sim (elements t') (elements t).
Proof.
  intros [W S1]. unfold HashSet_contains, HashTable_hasKey, has.
  destruct (HashTable_find_ok t x W) as (o & t' & -> & W' & Hs & E & _). mred. cbn.
  rewrite <- E. exists t'. split; [by destruct o|]. split; [split; [done|by rewrite Hs]|].
  split; [|done]. intros y. by rewrite Hs.
Qed.

Lemma existsb_app_last (f : T -> bool) l x : existsb f (l ++ [x]) = f x || existsb f l.
Proof. rewrite existsb_app. cbn. rewrite orb_false_r. apply orb_comm. Qed.
Lemma has_existsb t y : has t y = existsb (fun x => isEqual x y) (elements t).
Proof.
  apply eq_true_iff_eq. rewrite has_ex, existsb_exists. split.
  - intros (x & Hx & E). exists x. split; [by apply list_elem_of_In|done].
  - intros (x & Hx & E). exists x. split; [by apply list_elem_of_In|done].
Qed.

Lemma HashSet_join_ok fuel t h : set_ok t -> set_ok h -> (length (elements h) < fuel)%nat ->
  exists t', HashSet_join fuel t h = Ret t' /\ set_ok t' /\ forall y, has t' y = has t y || has h y.
Proof.
  intros Ht Hh Hf. unfold HashSet_join. rewrite (foreach_list fuel _ _ h) by (done || by destruct Hh).
  destruct (list_each_inv (R := unit) (fun xs u => set_ok u /\ forall y,
    has u y = existsb (fun x => isEqual x y) xs || has t y)
    (fun x t => t ← HashSet_insert t x; Ret (inl t)) (elements h) t) as (t' & -> & Ht' & Hy).
  - by split.
  - intros pre x u [Hu Hy]. destruct (set_insert_ok u x Hu) as (u' & -> & Hu' & Hy'). mred.
    eexists; split; [done|]. split; [done|]. intros y.
    by rewrite Hy', Hy, existsb_app_last, orb_assoc.
  - mred. exists t'. split; [done|]. split; [done|]. intros y. by rewrite Hy, (has_existsb h), orb_comm.
Qed.

Lemma HashSet_diff_ok fuel t h : set_ok t -> set_ok h -> (length (elements h) < fuel)%nat ->
  exists t', HashSet_diff fuel t h = Ret t' /\ set_ok t' /\
    forall y, has t' y = has t y && negb (has h y).
Proof.
  intros Ht Hh Hf. unfold HashSet_diff. rewrite (foreach_list fuel _ _ h) by (done || by destruct Hh).
  destruct (list_each_inv (R := unit) (fun xs u => set_ok u /\ forall y,
    has u y = negb (existsb (fun x => isEqual x y) xs) && has t y)
    (fun x t => t ← HashSet_remove t x; Ret (inl t)) (elements h) t) as (t' & -> & Ht' & Hy).
  - by split.
  - intros pre x u [Hu Hy]. destruct (hset_remove_ok u x Hu) as (u' & -> & Hu' & Hy'). mred.
    eexists; split; [done|]. split; [done|]. intros y.
    by rewrite Hy', Hy, existsb_app_last, negb_orb, andb_assoc.
  - mred. exists t'. split; [done|]. split; [done|]. intros y. by rewrite Hy, (has_existsb h), andb_comm.
Qed.

Lemma removeAll_ok c t : set_ok t -> exists t', HashTable_removeAll t c = Ret t' /\ set_ok t' /\
  forall y, has t' y = negb (existsb (fun x => isEqual x y) c) && has t y.
Proof.
  revert t. induction c as [|x c IH]; intros t Ht; cbn [HashTable_removeAll existsb].
  - by exists t.
  - destruct (hset_remove_ok t x Ht) as (t1 & E1 & H1 & Hy1). unfold HashSet_remove in E1.
    rewrite E1. mred. destruct (IH t1 H1) as (t2 & -> & H2 & Hy2). exists t2.
    split; [done|]. split; [done|]. intros y. rewrite Hy2, Hy1, negb_orb, !andb_assoc.
    by rewrite (andb_comm (negb (existsb _ c))).
Qed.

(** The answer of a loop that stops on the first element that fails the test. *)
Lemma subset_loop xs h (body : T -> HashTable T -> outcome (HashTable T + HashTable T)) :
  set_ok h ->
  (forall x u, set_ok u -> exists u', set_ok u' /\ sim (elements u') (elements u) /\
     body x u = Ret (if has u x then inl u' else inr u')) ->
  exists h', list_each body xs h = Ret (if forallb (has h) xs then inl h' else inr h') /\
    set_ok h' /\ sim (elements h') (elements h).
Proof.
  intros Hh Hb. revert h Hh. induction xs as [|x xs IH]; intros h Hh; cbn.
  - by exists h.
  - destruct (Hb x h Hh) as (h1 & H1 & S1 & ->). mred. destruct (has h x); mred.
    + destruct (IH h1 H1) as (h2 & E2 & H2 & S2). exists h2. rewrite E2.
      split; [|split; [done|by rewrite S2]].
      assert (forallb (has h1) xs = forallb (has h) xs) as ->; [|done].
      induction xs as [|z xs IHz]; [done|]. cbn. rewrite (has_sim h1 h z S1). f_equal.
      clear -S1. induction xs as [|z xs IHz]; [done|]. cbn. by rewrite (has_sim h1 h z S1), IHz.
    + by exists h1.
Qed.

Lemma HashSet_subsetOf_ok fuel t h : set_ok t -> set_ok h -> (length (elements t) < fuel)%nat ->
  exists h', HashSet_subsetOf fuel t h = Ret (forallb (has h) (elements t), h') /\
    set_ok h' /\ sim (elements h') (elements h).
Proof.
  intros Ht Hh Hf. unfold HashSet_subsetOf. rewrite (foreach_list fuel _ _ t) by (done || by destruct Ht).
  destruct (subset_loop (elements t) h (fun x h => m ← HashSet_contains h x;
    if m.1 : bool then Ret (inl m.2) else Ret (inr m.2)) Hh) as (h' & E & H' & S').
  { intros x u Hu. destruct (set_contains_ok u x Hu) as (u' & -> & Hu' & _ & Su). mred.
    exists u'. split; [done|]. split; [done|]. cbn. by destruct (has u x). }
  rewrite E. mred. exists h'. by destruct (forallb (has h) (elements t)).
Qed.
End Single.

Section SetTheorems.
Context {T : Type} `{HashLaws T}.
Implicit Types (t h : HashTable T).

Lemma has_equal t x y : isEqual x y = true -> has t x = has t y.
Proof. intros E. unfold has, list_first. by rewrite (keyf_same x y _ E). Qed.
Lemma has_in t x : x ∈ elements t -> has t x = true.
Proof. intros Hx. apply has_ex. exists x. split; [done|apply isEqual_refl]. Qed.

Lemma HashSet_meet_ok fuel t h : set_ok t -> set_ok h -> (length (elements t) < fuel)%nat ->
  exists t' h', HashSet_meet fuel t h = Ret (t', h') /\ set_ok t' /\
    (forall y, has t' y = has t y && has h y) /\ sim (elements h') (elements h).
Proof.
  intros Ht Hh Hf. unfold HashSet_meet. rewrite (foreach_list fuel _ _ t) by (done || by destruct Ht).
  destruct (list_each_inv (R := unit) (fun xs (s : list T * HashTable T) =>
      set_ok s.2 /\ sim (elements s.2) (elements h) /\ forall y,
      existsb (fun x => isEqual x y) s.1 = existsb (fun x => isEqual x y && negb (has h x)) xs)
    (fun x '(l, h) => '(b, h) ← HashSet_contains h x; Ret (inl (if b : bool then l else x :: l, h)))
    (elements t) ([], h)) as ([l h'] & -> & Hh' & Sh & Hl).
  - done.
  - intros pre x [l u] (Hu & Su & Hl). cbn [fst snd] in *.
    destruct (set_contains_ok u x Hu) as (u' & -> & Hu' & _ & Su'). mred.
    eexists; split; [done|]. cbn [fst snd]. split; [done|]. split; [by rewrite Su'|].
    intros y. rewrite existsb_app_last, (has_sim u h x Su), <- Hl.
    destruct (has h x); cbn; [by rewrite andb_false_r|by rewrite andb_true_r].
  - cbn [fst snd] in *. mred. destruct (removeAll_ok l t Ht) as (t' & -> & Ht' & Hy). mred.
    exists t', h'. split; [done|]. split; [done|]. split; [|done]. intros y. rewrite Hy, Hl.
    destruct (has t y) eqn:Et; [|by rewrite andb_false_r]. rewrite andb_true_r. cbn.
    destruct (has h y) eqn:Eh; [apply negb_true_iff|apply negb_false_iff].
    + apply not_true_is_false. intros (x & _ & [E1 E2]%andb_true_iff)%existsb_exists.
      by rewrite (has_equal h x y E1), Eh in E2.
    + apply has_ex in Et as (x & Hx & Ex). apply existsb_exists. exists x.
      split; [by apply list_elem_of_In|]. by rewrite Ex, (has_equal h x y Ex), Eh.
Qed.

Lemma forallb_has t h : forallb (has h) (elements t) = true <->
  forall y, has t y = true -> has h y = true.
Proof.
  rewrite forallb_forall. split.
  - intros Hx y (x & Ex & E)%has_ex. rewrite <- (has_equal h x y E). apply Hx. by apply list_elem_of_In.
  - intros Hy x Hx%list_elem_of_In. by apply Hy, has_in.
Qed.

Lemma HashTable_containsAll_ok fuel t h : set_ok t -> set_ok h -> (length (elements h) < fuel)%nat ->
  exists t', HashTable_containsAll fuel t h = Ret (forallb (has t) (elements h), t') /\
    set_ok t' /\ sim (elements t') (elements t).
Proof.
  intros Ht Hh Hf. unfold HashTable_containsAll.
  rewrite (foreach_list fuel _ _ h) by (done || by destruct Hh).
  destruct (subset_loop (elements h) t (fun x t => m ← HashTable_contains t x;
    if m.1 : bool then Ret (inl m.2) else Ret (inr m.2)) Ht) as (t' & E & H' & S').
  { intros x u Hu. destruct (set_contains_ok u x Hu) as (u' & E & Hu' & _ & Su).
    change (HashTable_contains u x) with (HashSet_contains u x). rewrite E. mred.
    exists u'. split; [done|]. split; [done|]. cbn. by destruct (has u x). }
  rewrite E. mred. exists t'. by destruct (forallb (has t) (elements h)).
Qed.

Lemma HashTable_equals_ok fuel t h : set_ok t -> set_ok h ->
  (length (elements t) < fuel)%nat -> (length (elements h) < fuel)%nat ->
  exists b t' h', HashTable_equals fuel t h = Ret (b, (t', h')) /\
    (b = true <-> forall y, has t y = has h y) /\
    sim (elements t') (elements t) /\ sim (elements h') (elements h).
Proof.
  intros Ht Hh Hf1 Hf2. unfold HashTable_equals.
  destruct (HashTable_containsAll_ok fuel t h Ht Hh Hf2) as (t' & -> & Ht' & St). mred. cbn [fst snd].
  destruct (forallb (has t) (elements h)) eqn:E1.
  - destruct (HashTable_containsAll_ok fuel h t' Hh Ht') as (h' & -> & _ & Sh).
    { by rewrite (Permutation_length (proj1 St)). }
    mred. cbn. eexists _, t', h'. split; [done|]. split; [|done].
    rewrite forallb_has in E1 |- *. setoid_rewrite (has_sim t' t _ St). split.
    + intros E2 y. apply eq_true_iff_eq. split; auto.
    + intros E y. by rewrite E.
  - eexists _, t', h. split; [done|]. split; [|done]. split; [done|]. intros E.
    assert (forallb (has t) (elements h) = true) as E2; [|by rewrite E2 in E1].
    apply forallb_has. intros y. by rewrite E.
Qed.
End SetTheorems.

(** The operations of hash sets on two distinct sets terminate and compute
    the operations of sets on the elements modulo the equality of the keys:
    insertion, removal, union, difference, intersection, inclusion and
    equality; each keeps one datum per key, and a set that is only looked into
    keeps its elements. *)
Theorem HashSet_operations {T} `{HashLaws T} (t h : HashTable T) x fuel :
  set_ok t -> set_ok h -> (length (elements t) < fuel)%nat -> (length (elements h) < fuel)%nat ->
  (exists t', HashSet_insert t x = Ret t' /\ set_ok t' /\ forall y, has t' y = isEqual x y || has t y) /\
  (exists t', HashSet_remove t x = Ret t' /\ set_ok t' /\
     forall y, has t' y = negb (isEqual x y) && has t y) /\
  (exists t', HashSet_join fuel t h = Ret t' /\ set_ok t' /\ forall y, has t' y = has t y || has h y) /\
  (exists t', HashSet_diff fuel t h = Ret t' /\ set_ok t' /\
     forall y, has t' y = has t y && negb (has h y)) /\
  (exists t' h', HashSet_meet fuel t h = Ret (t', h') /\ set_ok t' /\
     (forall y, has t' y = has t y && has h y) /\ sim (elements h') (elements h)) /\
  (exists b h', HashSet_subsetOf fuel t h = Ret (b, h') /\
     (b = true <-> forall y, has t y = true -> has h y = true) /\ sim (elements h') (elements h)) /\
  (exists b t' h', HashTable_equals fuel t h = Ret (b, (t', h')) /\
     (b = true <-> forall y, has t y = has h y) /\
     sim (elements t') (elements t) /\ sim (elements h') (elements h)).
Proof.
  intros Ht Hh Hf1 Hf2.
  split; [by apply set_insert_ok|]. split; [by apply hset_remove_ok|].
  split; [by apply HashSet_join_ok|]. split; [by apply HashSet_diff_ok|].
  split; [by apply HashSet_meet_ok|]. split; [|by apply HashTable_equals_ok].
  destruct (HashSet_subsetOf_ok fuel t h) as (h' & E & _ & S'); [done..|].
  eexists _, h'. split; [exact E|]. split; [apply forallb_has|done].
Qed.

Definition hset_12 : outcome (HashTable Z) := t ← HashSet_insert (HashTable_make 1) 1; HashSet_insert t 2.
Lemma hset_12_ok : exists t, hset_12 = Ret t /\ set_ok t /\ elements t = [2; 1].
Proof.
  unfold hset_12. destruct (HashTable_make_ok (T := Z) 1) as [W E]; [done|].
  assert (set_ok (HashTable_make (T := Z) 1)) as H0 by (split; [done|rewrite E; apply single_nil]).
  destruct (set_insert_ok _ 1 H0) as (t1 & E1 & H1 & _). rewrite E1. mred.
  destruct (set_insert_ok _ 2 H1) as (t2 & E2 & H2 & _). exists t2. split; [done|]. split; [done|].
  vm_compute in E1. injection E1 as <-. vm_compute in E2. by injection E2 as <-.
Qed.

Lemma HashSet_operations_witness :
  exists t t' h', hset_12 = Ret t /\ HashSet_meet 3 t (HashTable_make 5) = Ret (t', h') /\ has t' 1 = false.
Proof.
  destruct hset_12_ok as (t & E & Ht & El). destruct (HashTable_make_ok (T := Z) 5) as [W Em]; [done|].
  destruct (HashSet_operations t (HashTable_make 5) 0 3) as (_ & _ & _ & _ & Hm & _);
    [done|by split; [|rewrite Em; apply single_nil]|by rewrite El; cbn; lia|by rewrite Em; cbn; lia|].
  destruct Hm as (t' & h' & Em' & _ & Hy & _). exists t, t', h'.
  split; [done|]. split; [done|]. rewrite Hy. apply andb_false_r.
Defined.

(** A table compared with itself: looking an element up while the iterator is on
    it moves it back to the front of its chain, and the iteration never ends. *)
Example HashTable_equals_self_loops fuel :
  exists t, hset_12 = Ret t /\ HashTable_containsAll_self fuel t = Crash OutOfFuel.
Proof.
  pose (n1 := mkNode 0 1). pose (n2 := mkNode 1 2). exists (mkHT 1 [[n2; n1]] 2).
  split; [reflexivity|]. unfold HashTable_containsAll_self, foreach.
  assert (HashIter_make (id (mkHT 1 [[n2; n1]] 2)) = Ret (mkHI 0 (Some n2))) as -> by reflexivity.
  mred.
  assert (forall k s,
    s = (mkHI 0 (Some n2), mkHT 1 [[n2; n1]] 2) \/ s = (mkHI 0 (Some n1), mkHT 1 [[n2; n1]] 2) \/
    s = (mkHI 0 (Some n2), mkHT 1 [[n1; n2]] 2) ->
    iter k (foreach_step id (fun x t => m ← HashTable_contains t x;
      if m.1 : bool then Ret (inl m.2) else Ret (inr m.2))) s
    = Crash (A := HashTable Z + HashTable Z) OutOfFuel) as Hloop; [|by rewrite Hloop by (by left)].
  induction k as [|k IH]; intros s Hs; [done|]. cbn [iter].
  destruct Hs as [-> | [-> | ->]]; (etransitivity; [|apply IH]).
  - reflexivity.
  - by right; left.
  - reflexivity.
  - by right; right.
  - reflexivity.
  - by right; left.
Qed.

(** ** Maps *)

Inductive map_op (K V : Type) :=
  | MPut (k : K) (v : V) | MRemove (k : K) | MGet (k : K) | MGetConst (k : K) | MGetDef (k : K) (d : V)
  | MFetch (k : K) | MHas (k : K).
Arguments MPut {K V} _ _.
Arguments MRemove {K V} _.
Arguments MGet {K V} _.
Arguments MGetConst {K V} _.
Arguments MGetDef {K V} _ _.
Arguments MFetch {K V} _.
Arguments MHas {K V} _.

Section MapTheorem.
Context {K V : Type} `{HK : HashKey K} {LK : HashLaws K} (dflt : V).
#[local] Existing Instance AssocHashKey.
Implicit Types (m : HashTable (K * V)) (f : K -> option V).

Definition map_exec m (op : map_op K V) : outcome (option V * HashTable (K * V)) :=
  match op with
  | MPut k v => m ← HashMap_put m k v; Ret (None, m)
  | MRemove k => m ← HashMap_remove dflt m k; Ret (None, m)
  | MGet k => HashMap_get dflt m k
  | MGetConst k => v ← HashMap_get_const dflt m k; Ret (v, m)
  | MGetDef k d => '(v, m) ← HashMap_get_default dflt m k d; Ret (Some v, m)
  | MFetch k => '(v, m) ← HashMap_fetch dflt m k; Ret (Some v, m)
  | MHas k => '(b, m) ← HashMap_hasKey dflt m k; Ret (if b : bool then Some dflt else None, m)
  end.
Fixpoint map_run m (ops : list (map_op K V)) : outcome (list (option V) * HashTable (K * V)) :=
  match ops with
  | [] => Ret ([], m)
  | op :: ops => '(o, m) ← map_exec m op; '(os, m) ← map_run m ops; Ret (o :: os, m)
  end.

(** The reference: a function from keys to values. *)
Definition fun_upd f (k : K) (v : option V) : K -> option V := fun k' => if isEqual k k' then v else f k'.
Definition fun_op f (op : map_op K V) : option V * (K -> option V) :=
  match op with
  | MPut k v => (None, fun_upd f k (Some v))
  | MRemove k => (None, fun_upd f k None)
  | MGet k | MGetConst k => (f k, f)
  | MGetDef k d => (Some (default d (f k)), f)
  | MFetch k => (Some (default dflt (f k)), fun_upd f k (Some (default dflt (f k))))
  | MHas k => (if f k is Some _ then Some dflt else None, f)
  end.
Fixpoint fun_ops f (ops : list (map_op K V)) : list (option V) * (K -> option V) :=
  match ops with
  | [] => ([], f)
  | op :: ops => let r := fun_op f op in let rs := fun_ops r.2 ops in (r.1 :: rs.1, rs.2)
  end.

Definition maps m f : Prop := ht_wf m /\ single (elements m) /\
  forall k v, option_map snd (list_first (k, v) (elements m)) = f k.

Lemma maps_get m f k : maps m f -> exists o m', HashTable_get m (HashMap_key dflt k) = Ret (o, m') /\
  option_map snd o = f k /\ maps m' f.
Proof.
  intros (W & Hs & Hf). unfold HashTable_get.
  destruct (HashTable_find_ok m (HashMap_key dflt k) W) as (o & m' & -> & W' & S' & E & _).
  mred. eexists _, m'. split; [done|]. cbn. rewrite E. split; [apply Hf|].
  split; [done|]. split; [by rewrite S'|]. intros k' v. by rewrite S'.
Qed.

Lemma maps_add m f k v : maps m f -> f k = None -> exists n m', HashTable_add m (k, v) = Ret (n, m') /\
  nd_data n = (k, v) /\ maps m' (fun_upd f k (Some v)).
Proof.
  intros (W & Hs & Hf) Hk. destruct (HashTable_add_ok m (k, v) W) as (n & m' & -> & En & W' & S').
  eexists _, _. split; [done|]. split; [done|]. split; [done|]. split.
  - rewrite S', <- sim_put_new; [by apply single_put|]. specialize (Hf k v). rewrite Hk in Hf.
    unfold list_first in Hf. by destruct (filter _ _).
  - intros k' v'. rewrite S', first_cons. unfold fun_upd. cbn [isEqual AssocHashKey fst].
    destruct (isEqual k k'); [done|apply Hf].
Qed.

Lemma maps_ext m f g : maps m f -> (forall k, f k = g k) -> maps m g.
Proof. intros (W & Hs & Hf) E. split; [done|]. split; [done|]. intros k v. by rewrite Hf. Qed.

Lemma map_exec_ok m f op : maps m f ->
  (forall k k', isEqual k k' = true -> f k = f k') ->
  exists m', map_exec m op = Ret ((fun_op f op).1, m') /\ maps m' (fun_op f op).2.
Proof.
  intros Hm Hf. destruct op as [k v|k|k|k|k d|k|k]; cbn [map_exec fun_op fst snd].
  - destruct Hm as (W & Hs & Hm). unfold HashMap_put.
    destruct (HashTable_put_ok m (k, v) W) as (m' & -> & W' & S'). mred.
    eexists; split; [done|]. split; [done|]. split; [rewrite S'; by apply single_put|].
    intros k' v'. rewrite S', first_put. unfold fun_upd. cbn [isEqual AssocHashKey fst].
    destruct (isEqual k k'); [done|apply Hm].
  - destruct Hm as (W & Hs & Hm). unfold HashMap_remove.
    destruct (HashTable_remove_ok m (HashMap_key dflt k) W) as (m' & -> & W' & E'). mred.
    eexists; split; [done|]. split; [done|]. split; [rewrite E'; by apply single_del|].
    intros k' v'. rewrite E', first_del by done. unfold fun_upd, HashMap_key.
    cbn [isEqual AssocHashKey fst]. destruct (isEqual k k'); [done|apply Hm].
  - unfold HashMap_get. destruct (maps_get m f k Hm) as (o & m' & -> & <- & Hm'). mred. by eexists.
  - destruct Hm as (W & Hs & Hm). unfold HashMap_get_const, HashTable_get_const.
    destruct (HashTable_find_const_ok m (HashMap_key dflt k) W) as (o & -> & E). mred.
    rewrite E. unfold HashMap_key. rewrite Hm. by eexists.
  - unfold HashMap_get_default. destruct (maps_get m f k Hm) as (o & m' & -> & <- & Hm'). mred. by eexists.
  - unfold HashMap_fetch. destruct (maps_get m f k Hm) as (o & m' & -> & E & Hm'). mred.
    destruct o as [p|]; cbn in E; rewrite <- E; cbn [default from_option id].
    + mred. eexists; split; [done|]. apply (maps_ext m' f); [done|]. intros k'. unfold fun_upd.
      destruct (isEqual k k') eqn:Ek; [|done]. by rewrite <- (Hf k k' Ek).
    + destruct (maps_add m' f k dflt Hm') as (n & m2 & E2 & En & Hm2); [done|].
      unfold HashMap_key. rewrite E2. mred. cbn [fst snd]. rewrite En. by eexists.
  - destruct Hm as (W & Hs & Hm). unfold HashMap_hasKey, HashTable_hasKey.
    destruct (HashTable_find_ok m (HashMap_key dflt k) W) as (o & m' & -> & W' & S' & E & _). mred.
    unfold HashMap_key in E. pose proof (Hm k dflt) as Ek. rewrite <- E in Ek. cbn [fst snd].
    exists m'. split; [by destruct o; cbn in Ek; rewrite <- Ek|].
    split; [done|]. split; [by rewrite S'|]. intros k' v. by rewrite S'.
Qed.

Lemma fun_op_ext f op : (forall k k', isEqual k k' = true -> f k = f k') ->
  forall k k', isEqual k k' = true -> (fun_op f op).2 k = (fun_op f op).2 k'.
Proof.
  intros Hf k k' E. destruct op as [k0 v|k0|k0|k0|k0 d|k0|k0]; cbn; try by apply Hf.
  all: unfold fun_upd; rewrite (isEqual_r k k' k0 E); destruct (isEqual k0 k'); [done|by apply Hf].
Qed.

Lemma map_run_ok ops m f : maps m f -> (forall k k', isEqual k k' = true -> f k = f k') ->
  exists m', map_run m ops = Ret ((fun_ops f ops).1, m') /\ maps m' (fun_ops f ops).2.
Proof.
  revert m f. induction ops as [|op ops IH]; intros m f Hm Hf; cbn [map_run fun_ops fst snd].
  - by exists m.
  - destruct (map_exec_ok m f op Hm Hf) as (m1 & -> & H1). mred.
    destruct (IH m1 _ H1 (fun_op_ext f op Hf)) as (m2 & -> & H2). mred. by exists m2.
Qed.
End MapTheorem.

(** A hash map is a partial function from keys, modulo their equality, to
    values: any sequence of [put], [remove], [get], [fetch] (which binds the key
    to the default value when it is not bound), [hasKey] and [get] with a
    default, from an empty map of any size, answers what the function answers. *)
Theorem HashMap_is_map {K V} (HK : HashKey K) (dflt : V) size ops :
  HashLaws K -> 0 < size ->
  exists m', map_run dflt (HashTable_make size) ops = Ret ((fun_ops dflt (fun _ => None) ops).1, m') /\
    maps m' (fun_ops dflt (fun _ => None) ops).2.
Proof.
  intros L Hs. apply map_run_ok; [|done].
  destruct (HashTable_make_ok (H := AssocHashKey HK) (T := K * V) size Hs) as [W E].
  split; [done|]. rewrite E. split; [apply single_nil|done].
Qed.

Lemma HashMap_is_map_witness : exists m',
  map_run 0 (HashTable_make 2) [MPut 1 10; MPut 3 30; MFetch 5; MPut 1 11; MRemove 3; MGet 1; MGet 3; MGet 5]
  = Ret ([None; None; Some 0; None; None; Some 11; None; Some 0], m').
Proof.
  destruct (HashMap_is_map HashKey_int 0 2
    [MPut 1 10; MPut 3 30; MFetch 5; MPut 1 11; MRemove 3; MGet 1; MGet 3; MGet 5]) as (m' & E & _).
  - apply HashLaws_int.
  - done.
  - by exists m'.
Defined.

(** [hash_cstring] on a string ended by a null character and [hash_string]
    on its characters are the same hash, so that a text has one hash whatever
    the kind of string that holds it. *)
Theorem hash_cstring_string chars rest : Forall (fun c => c <> 0) chars ->
  hash_cstring (chars ++ 0 :: rest) = hash_string chars (zlen chars).
Proof.
  intros Hc. unfold hash_cstring, hash_string.
  assert (forall h, hash_cstring_from h (chars ++ 0 :: rest) = Ret (foldl hash_char h chars)) as ->.
  { induction Hc as [|c l Hc0 Hc IH]; intros h; cbn; [done|].
    by rewrite (proj2 (Z.eqb_neq c 0)), IH. }
  loop_with (fun i h => h = foldl hash_char 0 (take (Z.to_nat i) chars)).
  - lia.
  - done.
  - intros i h Hi ->. destruct (lookup_lt_is_Some_2 chars (Z.to_nat i)) as [c Ec]; [lia|].
    rewrite (rd_ok _ i c) by (done || lia). mred. eexists; split; [done|].
    replace (Z.to_nat (i + 1)) with (S (Z.to_nat i)) by lia. by rewrite (take_S_r _ _ _ Ec), foldl_app.
  - by rewrite Hr, take_ge by lia.
Qed.

Lemma hash_cstring_string_witness :
  hash_cstring (text "abc" ++ 0 :: []) = hash_string (text "abc") 3 /\
  hash_string (text "abc") 3 = Ret 26499.
Proof. split; [apply (hash_cstring_string (text "abc") []); by repeat constructor|reflexivity]. Defined.
