(* ===== verification/Rtti.v ===== *)
(** * Types at run time ([src/rtti.cpp], [include/elm/rtti/Type.h], [Class.h], [Enum.h])

    The types are objects that are never deleted: a type is its position in a table. The table
    gives the class of the object and what it holds; the virtual functions of
    [Type] are functions of this. Classes have one base, up to the type [void], which is its own
    base; the address of an object as its base may differ from its own address. *)

From stdpp Require Import list.
From S2P Require Import Prelude Hash.
#[local] Open Scope Z_scope.

(** ** Types *)

Abbreviation type_id := nat.

(** [off] is where the base is in the object, for the classes that convert pointers. *)
(* src/include/elm/rtti/Class.h:318-322 AbstractClass *)
Record class_info := mkClass { cl_base : type_id; cl_off : option Z; cl_ext : option (Z + type_id * list type_id) }.
(* src/src/rtti.cpp:515-799 Type *)
Inductive type_kind :=
  | KPointer (to : type_id)
  | KParam (index : Z)
  | KInt | KFloat | KBool | KString | KCString
  | KVoid
  | KClass (c : class_info)
  | KEnum (values map : list (str * Z)).
Abbreviation type_table := (list (str * type_kind)).
(* src/src/rtti.cpp:763-763 void_type *)
Definition void_type : type_id := 0%nat.

Section Types.
Variable (tbl : type_table).

Definition kind_of (t : type_id) : outcome type_kind :=
  match tbl !! t with Some (_, k) => Ret k | None => Crash OutOfBounds end.
(* src/include/elm/rtti/Type.h:91-91 Type::name *)
Definition Type_name (t : type_id) : outcome str :=
  match tbl !! t with Some (n, _) => Ret n | None => Crash OutOfBounds end.
(* src/src/rtti.cpp:363-365 Type::isVoid *)
Definition Type_isVoid (t : type_id) : outcome bool := k ← kind_of t; Ret (if k is KVoid then true else false).
(* src/src/rtti.cpp:371-373 Type::isBool *)
Definition Type_isBool (t : type_id) : outcome bool := k ← kind_of t; Ret (if k is KBool then true else false).
(* src/src/rtti.cpp:379-381 Type::isInt *)
Definition Type_isInt (t : type_id) : outcome bool := k ← kind_of t; Ret (if k is KInt then true else false).
(* src/src/rtti.cpp:387-389 Type::isFloat *)
Definition Type_isFloat (t : type_id) : outcome bool := k ← kind_of t; Ret (if k is KFloat then true else false).
(* src/src/rtti.cpp:395-397 Type::isPtr *)
Definition Type_isPtr (t : type_id) : outcome bool := k ← kind_of t; Ret (if k is KPointer _ then true else false).
(* src/src/rtti.cpp:404-406 Type::isClass *)
Definition Type_isClass (t : type_id) : outcome bool :=
  k ← kind_of t; Ret (match k with KVoid | KClass _ => true | _ => false end).
(* src/src/rtti.cpp:434-436 Type::isEnum *)
Definition Type_isEnum (t : type_id) : outcome bool := k ← kind_of t; Ret (if k is KEnum _ _ then true else false).
(* src/src/rtti.cpp:453-455 Type::isSerial *)
Definition Type_isSerial (t : type_id) : outcome bool :=
  k ← kind_of t; Ret (match k with KInt | KFloat | KBool | KString | KCString => true | _ => false end).
(** The functions [as...] fail on the other types. *)
(* src/src/rtti.cpp:423-426 Type::asPtr *)
Definition Type_asPtr (t : type_id) : outcome type_id :=
  k ← kind_of t; match k with KPointer _ => Ret t | _ => Crash AssertFailed end.
(* src/src/rtti.cpp:413-416 Type::asClass *)
Definition Type_asClass (t : type_id) : outcome class_info :=
  k ← kind_of t;
  match k with KClass c => Ret c | KVoid => Ret (mkClass void_type None None) | _ => Crash AssertFailed end.
(* src/src/rtti.cpp:443-446 Type::asEnum *)
Definition Type_asEnum (t : type_id) : outcome (list (str * Z) * list (str * Z)) :=
  k ← kind_of t; match k with KEnum values map => Ret (values, map) | _ => Crash AssertFailed end.
(* src/src/rtti.cpp:482-484 Type::asInstance *)
Definition Type_asInstance (t : type_id) : outcome (option (type_id * list type_id)) :=
  k ← kind_of t; Ret (if k is KClass (mkClass _ _ (Some (inr i))) then Some i else None).
(* src/src/rtti.cpp:473-475 Type::asTemplate *)
Definition Type_asTemplate (t : type_id) : outcome (option Z) :=
  k ← kind_of t; Ret (if k is KClass (mkClass _ _ (Some (inl n))) then Some n else None).
(* src/src/rtti.cpp:491-493 Type::asParam *)
Definition Type_asParam (t : type_id) : outcome (option Z) := k ← kind_of t; Ret (if k is KParam i then Some i else None).

(** Conversions of values: the tests on [t] are those of the redefinitions. *)
(* src/src/rtti.cpp:354-356 Type::canCast *)
Definition Type_canCast (this t : type_id) : outcome bool :=
  k ← kind_of this;
  let same := bool_decide (t = this) in
  match k with
  | KInt | KFloat => b ← Type_isBool t; if b : bool then Ret true else i ← Type_isInt t; if i : bool then Ret true else Type_isFloat t
  | KBool | KEnum _ _ => if same then Ret true else Type_isInt t
  | _ => Ret same
  end.

(** The type of a parameter in an instance of a template. *)
(* src/src/rtti.cpp:587-595 InstanceType::typeFor *)
Definition InstanceType_typeFor (inst : type_id * list type_id) (param : type_id) : outcome type_id :=
  p ← Type_asParam param;
  match p with
  | None => Ret param
  | Some index =>
      n ← Type_asTemplate inst.1;
      match n with
      | None => Crash Undefined
      | Some count => assertP ((0 <=? index) && (index <? count)) ;; rd inst.2 index
      end
  end.

(** [out << type]: a pointer type is printed as itself, then a star. *)
(* src/src/rtti.cpp:1414-1420 operator<< *)
Fixpoint Type_print (fuel : nat) (t : type_id) : outcome str :=
  b ← Type_isPtr t;
  if b : bool then
    match fuel with O => Crash OutOfFuel | S fuel => p ← Type_asPtr t; s ← Type_print fuel p; Ret (s ++ text "*") end
  else Type_name t.

(** ** Enumerations *)

Definition enum_value (l : list (str * Z)) (text : str) : Z :=
  match filter (fun p => p.1 = text) l with p :: _ => p.2 | [] => -1 end.
(* src/src/rtti.cpp:1218-1223 Enum::valueFor *)
Definition Enum_valueFor (t : type_id) (text : str) : outcome Z := e ← Type_asEnum t; Ret (enum_value e.2 text).
(* src/src/rtti.cpp:1227-1232 Enum::nameFor *)
Definition Enum_nameFor (t : type_id) (value : Z) : outcome str :=
  e ← Type_asEnum t;
  Ret (match filter (fun p => p.2 = value) e.1 with p :: _ => p.1 | [] => [] end).

(** ** Classes *)

(* src/include/elm/rtti/Class.h:374-374 Class::upCast *)
Definition class_up (c : class_info) (p : Z) : Z :=
  match cl_off c with None => p | Some o => if p =? 0 then 0 else p + o end.
(* src/include/elm/rtti/Class.h:375-375 Class::downCast *)
Definition class_down (c : class_info) (p : Z) : Z :=
  match cl_off c with None => p | Some o => if p =? 0 then 0 else p - o end.

(* src/src/rtti.cpp:910-917 AbstractClass::baseOf *)
Definition AbstractClass_baseOf (fuel : nat) (this clazz : type_id) : outcome bool :=
  iter fuel (fun clazz =>
    if decide (clazz = this) then Ret (inr true) else c ← Type_asClass clazz; Ret (inl (cl_base c))) clazz.
(* src/src/rtti.cpp:970-978 AbstractClass::upCast *)
Definition AbstractClass_upCast (fuel : nat) (this : type_id) (ptr : Z) (cls : type_id) : outcome Z :=
  iter fuel (fun '(cur, ptr) =>
    if decide (cur = cls) then Ret (inr ptr)
    else
      assertP (bool_decide (cur <> void_type)) ;;
      c ← Type_asClass cur; Ret (inl (cl_base c, class_up c ptr))) (this, ptr).
(* src/src/rtti.cpp:994-998 AbstractClass::downCast *)
Definition bases_turn (this : type_id) (st : type_id * list type_id) : outcome (type_id * list type_id + list type_id) :=
  let '(cur, bases) := st in
  if decide (cur = this) then Ret (inr bases)
  else
    let bases := bases ++ [cur] in
    assertP (bool_decide (cur <> void_type)) ;;
    c ← Type_asClass cur; Ret (inl (cl_base c, bases)).
(* src/src/rtti.cpp:991-998 AbstractClass::downCast *)
Definition bases_to (fuel : nat) (this cls : type_id) : outcome (list type_id) := iter fuel (bases_turn this) (cls, []).
(* src/src/rtti.cpp:989-1004 AbstractClass::downCast *)
Definition AbstractClass_downCast (fuel : nat) (this : type_id) (ptr : Z) (cls : type_id) : outcome Z :=
  bases ← bases_to fuel this cls;
  foldl (fun m b => p ← m; c ← Type_asClass b; Ret (class_down c p)) (Ret ptr) (rev bases).
End Types.

(** ** The registry of types *)

(** Types built before the first use are kept in a list, the last one first. *)
(* src/include/elm/util/Initializer.h:22-23 Initializer *)
Record registry := mkReg { rg_list : list type_id; rg_initialized : bool; rg_map : HashTable (str * type_id) }.

Section Registry.
Variable (tbl : type_table).
#[local] Existing Instance AssocHashKey.

(* src/src/rtti.cpp:306-309 Type::initialize *)
Definition Type_initialize (map : HashTable (str * type_id)) (t : type_id) : outcome (HashTable (str * type_id)) :=
  n ← Type_name tbl t; if decide (n = []) then Ret map else HashMap_put map n t.
(* src/include/elm/util/Initializer.h:53-59 Initializer::record *)
Definition Initializer_record (r : registry) (t : type_id) : outcome registry :=
  if rg_initialized r then map ← Type_initialize (rg_map r) t; Ret (mkReg (rg_list r) true map)
  else Ret (mkReg (t :: rg_list r) false (rg_map r)).
(* src/include/elm/util/Initializer.h:63-73 Initializer::startup *)
Definition Initializer_startup (r : registry) : outcome registry :=
  if rg_initialized r then Ret r
  else
    map ← foldl (fun m t => map ← m; Type_initialize map t) (Ret (rg_map r)) (rg_list r);
    Ret (mkReg [] true map).
(* src/src/rtti.cpp:316-319 Type::get *)
Definition Type_get (r : registry) (name : str) : outcome (option type_id * registry) :=
  r ← Initializer_startup r;
  '(t, map) ← HashMap_get void_type (rg_map r) name; Ret (t, mkReg (rg_list r) (rg_initialized r) map).
End Registry.

(** ** Hierarchies of classes *)

Section Hierarchy.
Variable (tbl : type_table).

Definition is_class (t : type_id) : Prop := exists n k, tbl !! t = Some (n, k) /\ (k = KVoid \/ exists c, k = KClass c).
(** A class is built after its base; what a base class is in an object comes after its start. *)
Record table_ok : Prop := {
  tk_void : exists n, tbl !! void_type = Some (n, KVoid);
  tk_class t n c : tbl !! t = Some (n, KClass c) -> (cl_base c < t)%nat /\ is_class (cl_base c) /\ forall o, cl_off c = Some o -> 0 <= o;
  tk_one_void t n : tbl !! t = Some (n, KVoid) -> t = void_type }.

(** [c] is [a] or extends it. *)
Inductive extends : type_id -> type_id -> Prop :=
  | extends_refl c : extends c c
  | extends_base c i a : c <> void_type -> Type_asClass tbl c = Ret i -> extends (cl_base i) a -> extends c a.
(** In an object of class [c] at the address [p], its part of class [a] is at [q]. *)
Inductive part : type_id -> Z -> type_id -> Z -> Prop :=
  | part_refl c p : part c p c p
  | part_base c i p a q : c <> void_type -> Type_asClass tbl c = Ret i -> part (cl_base i) (class_up i p) a q -> part c p a q.

Lemma extends_part c a : extends c a -> forall p, exists q, part c p a q.
Proof.
  induction 1 as [c|c i a Hc Hi _ IH]; intros p; [exists p; constructor|].
  destruct (IH (class_up i p)) as (q & Hq). exists q. by eapply part_base.
Qed.
Lemma part_extends c p a q : part c p a q -> extends c a.
Proof. induction 1; [constructor|by eapply extends_base]. Qed.
Lemma part_trans c p b q a r : part c p b q -> part b q a r -> part c p a r.
Proof. induction 1 as [|c i p b q Hc Hi _ IH]; intros Hr; [done|]. eapply part_base; [done|done|by apply IH]. Qed.

Hypothesis Htbl : table_ok.

Lemma class_step c : is_class c -> c <> void_type ->
  exists i, Type_asClass tbl c = Ret i /\ (cl_base i < c)%nat /\ is_class (cl_base i) /\ forall o, cl_off i = Some o -> 0 <= o.
Proof.
  intros (n & k & E & Hk) Hc. unfold Type_asClass, kind_of. rewrite E. mred. destruct Hk as [->|[i ->]].
  - by apply (tk_one_void Htbl) in E.
  - exists i. split; [done|]. by apply (tk_class Htbl) in E.
Qed.
Lemma class_step_inv c i : c <> void_type -> Type_asClass tbl c = Ret i ->
  is_class c /\ (cl_base i < c)%nat /\ is_class (cl_base i) /\ forall o, cl_off i = Some o -> 0 <= o.
Proof.
  intros Hc Hi. assert (is_class c) as Hcl.
  { unfold Type_asClass, kind_of in Hi. destruct (tbl !! c) as [[n k]|] eqn:E; [|done]. exists n, k. split; [done|]. destruct k; try done; [by left|right; by eexists]. }
  split; [done|]. destruct (class_step c Hcl Hc) as (i' & Ei & H). rewrite Hi in Ei. by injection Ei as <-.
Qed.
Lemma extends_le c a : extends c a -> (a <= c)%nat.
Proof. induction 1 as [|c i a Hc Hi _ IH]; [lia|]. apply class_step_inv in Hi as (_ & Hlt & _); [lia|done]. Qed.
Lemma extends_antisym c a : extends c a -> extends a c -> c = a.
Proof. intros H1%extends_le H2%extends_le. lia. Qed.
Lemma extends_cases c a i : extends c a -> c <> void_type -> Type_asClass tbl c = Ret i -> c = a \/ extends (cl_base i) a.
Proof. intros Hx Hc Hi. inversion Hx as [|? i' ? _ Hi' Hb]; subst; [by left|]. right. rewrite Hi in Hi'. by injection Hi' as <-. Qed.
(** The bases form a chain. *)
Lemma part_split d q a p c : part d q a p -> extends d c -> extends c a -> exists p', part d q c p' /\ part c p' a p.
Proof.
  induction 1 as [d q|d i q a p Hd Hi Hp IH]; intros H1 H2.
  - rewrite (extends_antisym d c H1 H2). exists q. split; constructor.
  - destruct (extends_cases _ _ _ H1 Hd Hi) as [->|H1'].
    + exists q. split; [constructor|by eapply part_base].
    + destruct (IH H1' H2) as (p' & Ha & Hb). exists p'. split; [by eapply part_base|done].
Qed.

(** *** Conversions *)

Lemma class_up_nonneg i p : (forall o, cl_off i = Some o -> 0 <= o) -> 0 <= p -> 0 <= class_up i p /\ class_down i (class_up i p) = p.
Proof.
  intros Ho Hp. unfold class_up, class_down. destruct (cl_off i) as [o|]; [|done]. specialize (Ho o eq_refl).
  destruct (Z.eqb_spec p 0) as [->|]; [done|]. split; [lia|]. rewrite (proj2 (Z.eqb_neq _ 0)) by lia. lia.
Qed.
Lemma part_nonneg c p a q : part c p a q -> 0 <= p -> 0 <= q.
Proof.
  induction 1 as [|c i p a q Hc Hi _ IH]; intros Hp; [done|]. apply IH. apply class_up_nonneg; [|done].
  by apply class_step_inv in Hi as (_ & _ & _ & ?).
Qed.

Lemma upCast_part c p a q : part c p a q -> forall fuel, (c < fuel)%nat -> AbstractClass_upCast tbl fuel c p a = Ret q.
Proof.
  unfold AbstractClass_upCast. induction 1 as [c p|c i p a q Hc Hi Hp IH]; intros fuel Hf; (destruct fuel as [|fuel]; [lia|]); cbn [iter].
  - by rewrite decide_True.
  - destruct (decide (c = a)) as [->|Hne].
    + exfalso. apply part_extends, extends_le in Hp. apply class_step_inv in Hi as (_ & Hlt & _); [lia|done].
    + rewrite bool_decide_true by done. mred. rewrite Hi. mred. apply IH. apply class_step_inv in Hi as (_ & Hlt & _); [lia|done].
Qed.
Lemma upCast_fails c : is_class c -> forall p a fuel, ~ extends c a -> (c < fuel)%nat -> AbstractClass_upCast tbl fuel c p a = Crash AssertFailed.
Proof.
  unfold AbstractClass_upCast. induction c as [c IH] using lt_wf_ind. intros Hcl p a fuel Hn Hf. destruct fuel as [|fuel]; [lia|]. cbn [iter].
  rewrite decide_False by (intros ->; apply Hn; constructor). destruct (decide (c = void_type)) as [->|Hc].
  - done.
  - rewrite bool_decide_true by done. mred. destruct (class_step c Hcl Hc) as (i & Hi & Hlt & Hb & _). rewrite Hi. mred.
    apply IH; [done|done| |lia]. intros Hx. apply Hn. by eapply extends_base.
Qed.

Lemma bases_part c p a q : part c p a q -> 0 <= p -> forall fuel acc, (c < fuel)%nat ->
  exists bs, iter fuel (bases_turn tbl a) (c, acc) = Ret (acc ++ bs) /\
    foldl (fun m b => p ← m; i ← Type_asClass tbl b; Ret (class_down i p)) (Ret q) (rev bs) = Ret p.
Proof.
  induction 1 as [c p|c i p a q Hc Hi Hp IH]; intros Hp0 fuel acc Hf; (destruct fuel as [|fuel]; [lia|]); cbn [iter bases_turn].
  - exists []. rewrite decide_True, app_nil_r by done. done.
  - pose proof (class_step_inv c i Hc Hi) as (_ & Hlt & _ & Ho). destruct (class_up_nonneg i p Ho Hp0) as [Hu Hd].
    rewrite decide_False, bool_decide_true by (done || (intros ->; apply part_extends, extends_le in Hp; lia)). mred. rewrite Hi. mred.
    destruct (IH Hu fuel (acc ++ [c])) as (bs & -> & Hdown); [lia|]. exists (c :: bs). rewrite <- app_assoc. split; [done|].
    cbn [rev]. rewrite foldl_app, Hdown. cbn [foldl]. mred. rewrite Hi. mred. by rewrite Hd.
Qed.
Lemma downCast_part c p a q fuel : part c p a q -> 0 <= p -> (c < fuel)%nat -> AbstractClass_downCast tbl fuel a q c = Ret p.
Proof.
  intros Hpart Hp Hf. destruct (bases_part c p a q Hpart Hp fuel [] Hf) as (bs & E & Ed).
  unfold AbstractClass_downCast, bases_to. rewrite E. mred. exact Ed.
Qed.
Lemma downCast_fails c : is_class c -> forall p a fuel, ~ extends c a -> (c < fuel)%nat -> AbstractClass_downCast tbl fuel a p c = Crash AssertFailed.
Proof.
  intros Hcl p a fuel Hn Hf. unfold AbstractClass_downCast, bases_to.
  enough (forall acc, iter fuel (bases_turn tbl a) (c, acc) = Crash AssertFailed) as -> by done.
  revert fuel Hcl Hn Hf. induction c as [c IH] using lt_wf_ind. intros fuel Hcl Hn Hf acc. destruct fuel as [|fuel]; [lia|]. cbn [iter bases_turn].
  rewrite decide_False by (intros ->; apply Hn; constructor). destruct (decide (c = void_type)) as [->|Hc]; [done|].
  rewrite bool_decide_true by done. mred. destruct (class_step c Hcl Hc) as (i & Hi & Hlt & Hb & _). rewrite Hi. mred.
  apply IH; [done|done| |lia]. intros Hx. apply Hn. by eapply extends_base.
Qed.

Lemma baseOf_extends c a : extends c a -> forall fuel, (c < fuel)%nat -> AbstractClass_baseOf tbl fuel a c = Ret true.
Proof.
  unfold AbstractClass_baseOf. induction 1 as [c|c i a Hc Hi Hx IH]; intros fuel Hf; (destruct fuel as [|fuel]; [lia|]); cbn [iter].
  - by rewrite decide_True.
  - destruct (decide (c = a)); [done|]. rewrite Hi. mred. apply IH. apply class_step_inv in Hi as (_ & Hlt & _); [lia|done].
Qed.
Lemma baseOf_loops a fuel : forall c, is_class c -> ~ extends c a -> AbstractClass_baseOf tbl fuel a c = Crash OutOfFuel.
Proof.
  unfold AbstractClass_baseOf. induction fuel as [|fuel IH]; intros c Hcl Hn; [done|]. cbn [iter].
  rewrite decide_False by (intros ->; apply Hn; constructor). destruct (decide (c = void_type)) as [->|Hc].
  - destruct (tk_void Htbl) as (n & E). unfold Type_asClass at 2, kind_of. rewrite E. mred. apply (IH void_type); done.
  - destruct (class_step c Hcl Hc) as (i & Hi & Hlt & Hb & _). rewrite Hi. mred. apply IH; [done|]. intros Hx. apply Hn. by eapply extends_base.
Qed.
End Hierarchy.

(** [C13] Conversions of pointers keep types: in a well-formed table, a pointer to the part of
    class [c] of an object is converted up to the part of any class that [c] extends, in the same
    object, and down again to itself; a pointer to the part of class [a] is converted
    down to any class between [a] and the class of the object; a conversion to a class that is
    not in the chain fails on an assertion; [baseOf] is true for the classes that a class
    extends (nothing is claimed of it for the others). *)
Theorem casts_keep_types tbl (objs : list (type_id * Z)) fuel :
  table_ok tbl -> (length tbl <= fuel)%nat -> Forall (fun o => is_class tbl o.1 /\ 0 < o.2) objs ->
  (forall d q c p a, (d, q) ∈ objs -> part tbl d q c p -> extends tbl c a ->
     exists p', AbstractClass_upCast tbl fuel c p a = Ret p' /\ part tbl d q a p' /\ AbstractClass_downCast tbl fuel a p' c = Ret p) /\
  (forall d q a p c, (d, q) ∈ objs -> part tbl d q a p -> extends tbl d c -> extends tbl c a ->
     exists p', AbstractClass_downCast tbl fuel a p c = Ret p' /\ part tbl d q c p') /\
  (forall c a p, is_class tbl c -> ~ extends tbl c a ->
     AbstractClass_upCast tbl fuel c p a = Crash AssertFailed /\ AbstractClass_downCast tbl fuel a p c = Crash AssertFailed) /\
  (forall c a, is_class tbl c -> extends tbl c a -> AbstractClass_baseOf tbl fuel a c = Ret true).
Proof.
  intros Htbl Hf Hobjs. rewrite list.Forall_forall in Hobjs.
  assert (forall c, is_class tbl c -> (c < fuel)%nat) as Hlt by (intros c (n & k & E%lookup_lt_Some & _); lia).
  assert (forall d q c p, (d, q) ∈ objs -> part tbl d q c p -> (c < fuel)%nat /\ 0 <= p) as Hpart.
  { intros d q c p Hin Hp. destruct (Hobjs _ Hin) as [Hd Hq]. cbn in Hd, Hq. apply Hlt in Hd. split; [|eapply part_nonneg; [done|done|lia]].
    apply part_extends, (extends_le tbl Htbl) in Hp. lia. }
  split_and!.
  - intros d q c p a Hin Hp Hx. destruct (Hpart _ _ _ _ Hin Hp) as [Hc Hp0]. destruct (extends_part tbl c a Hx p) as (p' & Hp').
    exists p'. split_and!; [by apply upCast_part|by eapply part_trans|by apply downCast_part].
  - intros d q a p c Hin Hp H1 H2. destruct (part_split tbl Htbl d q a p c Hp H1 H2) as (p' & Ha & Hb). exists p'. split; [|done].
    destruct (Hpart _ _ _ _ Hin Ha) as [Hc Hp0]. by apply downCast_part.
  - intros c a p Hc Hn. split; [apply upCast_fails|apply downCast_fails]; auto.
  - intros c a Hc Hx. apply baseOf_extends; auto.
Qed.

Definition demo_types : type_table :=
  [(text "void", KVoid); (text "A", KClass (mkClass void_type None None)); (text "B", KClass (mkClass 1%nat (Some 8) None));
   (text "C", KClass (mkClass 2%nat (Some 16) None)); (text "int", KInt); (text "", KPointer 4%nat)].
Lemma demo_types_ok : table_ok demo_types.
Proof.
  split; [by eexists| |].
  - intros t n c E. do 6 (destruct t as [|t]; [cbn in E; simplify_eq; (split_and!; [by apply Nat.ltb_lt|eexists _, _; split; [done|]; eauto|intros o Ho; cbn in Ho; simplify_eq; (lia)])|]).
    done.
  - intros t n E. do 6 (destruct t as [|t]; [by cbn in E; simplify_eq|]). done.
Qed.
Lemma casts_keep_types_witness : exists p, AbstractClass_upCast demo_types 6 3%nat 1000 1%nat = Ret p /\ p = 1024 /\
  AbstractClass_downCast demo_types 6 1%nat p 3%nat = Ret 1000.
Proof.
  destruct (casts_keep_types demo_types [(3%nat, 1000)] 6 demo_types_ok) as (Hup & _); [cbn; lia| |].
  - constructor; [|constructor]. split; [|cbn; lia]. eexists _, _. split; [done|]. eauto.
  - destruct (Hup 3%nat 1000 3%nat 1000 1%nat) as (p & E & _ & Ed); [by left|constructor| |].
    + do 2 (eapply extends_base; [done|done|]). constructor.
    + exists p. split; [exact E|]. split; [vm_compute in E; by injection E as <-|exact Ed].
Defined.

(** ** Enumerations *)

(* src/src/rtti.cpp:1191-1194 Enum::Enum *)
Definition Enum_make (values aliases : list (str * Z)) : type_kind := KEnum values (values ++ aliases).
(** The array ends with an empty name. *)
(* src/src/rtti.cpp:1201-1206 Enum::Enum *)
Fixpoint Enum_array (values : list (str * Z)) : outcome (list (str * Z)) :=
  match values with
  | [] => Crash OutOfBounds
  | v :: values => if decide (v.1 = []) then Ret [] else l ← Enum_array values; Ret (v :: l)
  end.

Lemma Enum_names tbl t n values aliases : tbl !! t = Some (n, Enum_make values aliases) -> NoDup (values ++ aliases).*1 ->
  (forall name v, (name, v) ∈ values ++ aliases -> Enum_valueFor tbl t name = Ret v) /\
  (forall v, v ∈ values.*2 -> exists name, Enum_nameFor tbl t v = Ret name /\ Enum_valueFor tbl t name = Ret v) /\
  (forall name, name ∉ (values ++ aliases).*1 -> Enum_valueFor tbl t name = Ret (-1)).
Proof.
  intros Et Hnd.
  assert (forall name, Enum_valueFor tbl t name = Ret (enum_value (values ++ aliases) name)) as Ev.
  { intros name. unfold Enum_valueFor, Type_asEnum, kind_of. by rewrite Et. }
  assert (forall name v, (name, v) ∈ values ++ aliases -> Enum_valueFor tbl t name = Ret v) as Hval.
  { intros name v Hin. rewrite Ev. f_equal. unfold enum_value. set (l := values ++ aliases) in *.
    assert ((name, v) ∈ filter (fun p => p.1 = name) l) as Hf by (by apply list_elem_of_filter).
    destruct (filter (fun p => p.1 = name) l) as [|[name' v'] r] eqn:E; [by apply not_elem_of_nil in Hf|].
    assert ((name', v') ∈ filter (fun p => p.1 = name) l) as Hf' by (rewrite E; by left). apply list_elem_of_filter in Hf' as [En Hin'].
    cbn in En. subst name'. cbn. apply list_elem_of_lookup in Hin as [i Hi]. apply list_elem_of_lookup in Hin' as [j Hj].
    assert (i = j) as ->; [|congruence].
    eapply (NoDup_lookup _ i j name Hnd); rewrite list_lookup_fmap; [rewrite Hi|rewrite Hj]; done. }
  split_and!; [done| |].
  - intros v Hv. apply list_elem_of_fmap in Hv as ([name0 v0] & Ev0 & Hin). cbn in Ev0. subst v. unfold Enum_nameFor, Type_asEnum, kind_of. rewrite Et. unfold Enum_make. mred. cbv beta iota. mred. cbn [fst snd].
    assert ((name0, v0) ∈ filter (fun p => p.2 = v0) values) as Hf by (by apply list_elem_of_filter).
    destruct (filter (fun p => p.2 = v0) values) as [|[name v] r] eqn:E; [by apply not_elem_of_nil in Hf|]. exists name. split; [done|].
    assert ((name, v) ∈ filter (fun p => p.2 = v0) values) as Hf' by (rewrite E; by left). apply list_elem_of_filter in Hf' as [En Hin'].
    cbn in En. subst v. apply Hval, elem_of_app. by left.
  - intros name Hn. rewrite Ev. unfold enum_value. rewrite filter_none; [done|]. intros p Hp Ep. apply Hn. subst name. by apply list_elem_of_fmap_2.
Qed.

(** ** The registry finds types by name *)

Section RegistryProofs.
Variable (tbl : type_table).
#[local] Existing Instance AssocHashKey.
Implicit Types (r : registry) (order : list type_id).

Definition name_of (t : type_id) : str := default [] (fst <$> tbl !! t).
(** The last type of the sequence with a name; types without name are not recorded. *)
Definition last_named order (n : str) : option type_id := last (filter (fun t => name_of t = n /\ n <> []) order).

Record reg_ok r order : Prop := {
  ro_map : maps (rg_map r) (last_named order);
  ro_list : rg_initialized r = true -> rg_list r = [] }.

Lemma last_named_snoc order t n : last_named (order ++ [t]) n = if decide (name_of t = n /\ n <> []) then Some t else last_named order n.
Proof.
  unfold last_named. rewrite filter_app. cbn. destruct (decide _); [by rewrite last_snoc|]. by rewrite app_nil_r.
Qed.
Lemma Type_initialize_ok m order t : maps m (last_named order) -> (t < length tbl)%nat ->
  exists m', Type_initialize tbl m t = Ret m' /\ maps m' (last_named (order ++ [t])).
Proof.
  intros Hm Ht. destruct (lookup_lt_is_Some_2 tbl t Ht) as [[n k] E]. unfold Type_initialize, Type_name. rewrite E. mred.
  assert (name_of t = n) as En by (unfold name_of; by rewrite E). destruct (decide (n = [])) as [->|Hn].
  - exists m. split; [done|]. apply (maps_ext _ _ _ Hm). intros n. rewrite last_named_snoc, En, decide_False; [done|]. by intros [<- ?].
  - destruct (map_exec_ok void_type m (last_named order) (MPut n t) Hm) as (m' & Em & Hm').
    { by intros n1 n2 ->%bool_decide_eq_true. }
    cbn [map_exec] in Em. destruct (HashMap_put m n t) as [m1|]; [|done]. rewrite bind_Ret in Em. injection Em as <-. exists m1. split; [done|].
    apply (maps_ext _ _ _ Hm'). intros n'. rewrite last_named_snoc, En. cbn [fun_op snd]. unfold fun_upd. cbn [isEqual HashKey_string].
    destruct (decide (n = n')) as [->|Hne]; [by rewrite bool_decide_true, decide_True by done|].
    by rewrite bool_decide_false, decide_False by tauto.
Qed.
Lemma startup_ok r order : reg_ok r order -> Forall (fun t => (t < length tbl)%nat) (rg_list r) ->
  exists r', Initializer_startup tbl r = Ret r' /\ reg_ok r' (order ++ rg_list r) /\ rg_initialized r' = true /\ rg_list r' = [].
Proof.
  intros [Hm Hl] Ht. unfold Initializer_startup. destruct (rg_initialized r) eqn:Ei.
  { pose proof (Hl eq_refl) as El. exists r. rewrite El, app_nil_r. split_and!; [done|by split|done|done]. }
  clear Hl. assert (exists m, foldl (fun m t => map ← m; Type_initialize tbl map t) (Ret (rg_map r)) (rg_list r) = Ret m /\
    maps m (last_named (order ++ rg_list r))) as (m & -> & Hm').
  { revert Hm. generalize (rg_map r). revert order. induction Ht as [|t l Ht _ IH]; intros order m Hm; cbn [foldl].
    - exists m. by rewrite app_nil_r.
    - destruct (Type_initialize_ok m order t Hm Ht) as (m1 & E & Hm1). rewrite bind_Ret, E.
      destruct (IH (order ++ [t]) m1 Hm1) as (m2 & E2 & Hm2). exists m2. by rewrite <- app_assoc in Hm2. }
  mred. eexists. split; [done|]. by split_and!.
Qed.

(** Types are recorded and looked up. *)
Inductive reg_op := Record_ (t : type_id) | Get (name : str).
Fixpoint reg_run r (ops : list reg_op) : outcome (list (option type_id)) :=
  match ops with
  | [] => Ret []
  | Record_ t :: ops => r ← Initializer_record tbl r t; reg_run r ops
  | Get name :: ops => '(x, r) ← Type_get tbl r name; l ← reg_run r ops; Ret (x :: l)
  end.
(** Before the first look up the types wait in a list, the last one first; then they are
    recorded at once. *)
Fixpoint reg_spec (pending : option (list type_id)) order (ops : list reg_op) : list (option type_id) :=
  match ops with
  | [] => []
  | Record_ t :: ops =>
      match pending with Some l => reg_spec (Some (t :: l)) order ops | None => reg_spec None (order ++ [t]) ops end
  | Get name :: ops => let order := order ++ default [] pending in last_named order name :: reg_spec None order ops
  end.

Lemma reg_run_ok ops : forall r order, reg_ok r order -> Forall (fun t => (t < length tbl)%nat) (rg_list r) ->
  Forall (fun op => match op with Record_ t => (t < length tbl)%nat | Get _ => True end) ops ->
  reg_run r ops = Ret (reg_spec (if rg_initialized r then None else Some (rg_list r)) order ops).
Proof.
  induction ops as [|[t|name] ops IH]; intros r order Hr Ht Hops; [done| |]; apply Forall_cons in Hops as [Hop Hops]; cbn [reg_run reg_spec].
  - pose proof Hr as [Hm Hl]. unfold Initializer_record. destruct (rg_initialized r) eqn:Ei.
    + destruct (Type_initialize_ok (rg_map r) order t Hm Hop) as (m & -> & Hm'). mred.
      rewrite (IH _ (order ++ [t])); [done| |done|done]. by split.
    + mred. rewrite (IH _ order); [done| |by constructor|done]. by split.
  - destruct (startup_ok r order Hr Ht) as (r1 & E1 & [Hm1 _] & Ei1 & El1). unfold Type_get. rewrite E1. mred.
    destruct (map_exec_ok void_type (rg_map r1) _ (MGet name) Hm1) as (m & Em & Hm'); [by intros n1 n2 ->%bool_decide_eq_true|].
    cbn [map_exec] in Em. rewrite Em. mred. cbn [fun_op fst snd].
    assert (order ++ default [] (if rg_initialized r then None else Some (rg_list r)) = order ++ rg_list r) as ->.
    { destruct (rg_initialized r) eqn:Ei; [|done]. by rewrite (ro_list _ _ Hr Ei). }
    rewrite (IH _ (order ++ rg_list r)); cbn [rg_initialized rg_list]; rewrite ?Ei1, ?El1; [done| |done|done]. by split.
Qed.
End RegistryProofs.

(** *** What goes wrong *)

(** The base of [void] is [void]: the search of a base that is not there has no end. *)
Example baseOf_never_false fuel : AbstractClass_baseOf demo_types fuel 3%nat 2%nat = Crash OutOfFuel.
Proof.
  apply (baseOf_loops demo_types demo_types_ok); [by eexists _, _; split; [done|eauto]|].
  intros Hx. apply (extends_le _ demo_types_ok) in Hx. lia.
Qed.
(** A pointer type prints itself without end. *)
Example Type_print_pointer fuel : Type_print demo_types fuel 5%nat = Crash OutOfFuel.
Proof. induction fuel as [|fuel IH]; [done|]. cbn [Type_print]. cbn -[Type_print]. by rewrite IH. Qed.
(** Two types with a name: the first one before the first look up, then the last one. *)
Example registry_order : let tbl := [(text "A", KInt); (text "A", KBool); (text "A", KFloat)] in
  reg_run tbl (mkReg [] false (HashTable_make 7)) [Record_ 0; Record_ 1; Get (text "A"); Record_ 2; Get (text "A"); Get (text "B")] =
    Ret [Some 0%nat; Some 2%nat; None].
Proof. vm_compute. reflexivity. Qed.
