(* ===== verification/Strings.v ===== *)
(** * Strings with shared buffers ([include/elm/string/String.h],
    [src/string_String.cpp], [StringBuffer.h], [include/elm/string.h])

    A string is a window on a buffer that several strings may share; a buffer
    counts the strings that use it on 16 bits and is freed with the last one.
    The heap of buffers is explicit; the buffer of address 0 is the static one
    of the empty strings. *)

From stdpp Require Import gmap.
From S2P Require Import Prelude Compare TextOps Streams Output Text.
#[local] Open Scope Z_scope.

(* src/include/elm/string/String.h:35-38 String::buffer_t *)
Record buffer_t := mkBT { bf_use : Z; bf_buf : list Z }.
Abbreviation heap_t := (gmap Z buffer_t).

(** The offset of a string is counted from the start of the block: the two
    bytes of the counter come first. *)
(* src/include/elm/string/String.h:40-42 String *)
Record String := mkStr { s_buf : Z; s_off : Z; s_len : Z }.
#[export] Instance String_eq_dec : EqDecision String.
Proof. solve_decision. Defined.
Definition zero_off : Z := 2.
Definition empty_buf : Z := 0.

(** The heap when the program starts. *)
(* src/src/string_String.cpp:136-136 String::empty_buf *)
Definition heap_start : heap_t := {[ empty_buf := mkBT 1 [0] ]}.

Section Strings.
(** The allocator, and what fresh memory holds. *)
Variable new_buf : heap_t -> Z.
Variable junk : Z.

Abbreviation M := (IO heap_t).

Definition deref (a : Z) : M buffer_t := fun h =>
  match h !! a with Some b => Ret (Val b, h) | None => Crash OutOfBounds end.
Definition store (a : Z) (b : buffer_t) : M unit := fun h => Ret (Val tt, <[a := b]> h).
Definition free (a : Z) : M unit := fun h => Ret (Val tt, delete a h).
Definition alloc (b : buffer_t) : M Z := fun h => let a := new_buf h in Ret (Val a, <[a := b]> h).

(** The bytes [off, off + n) of a block. *)
Definition chars_at (a off n : Z) : M (list Z) :=
  b ← deref a;
  if (0 <=? n) && (zero_off <=? off) && (off - zero_off + n <=? zlen (bf_buf b)) then
    mret (take (Z.to_nat n) (drop (Z.to_nat (off - zero_off)) (bf_buf b)))
  else lift (Crash OutOfBounds).
Definition char_at (a i : Z) : M Z := b ← deref a; lift (rd (bf_buf b) (i - zero_off)).

(* src/include/elm/string/String.h:46-46 String::lock *)
Definition String_lock (a : Z) : M unit :=
  b ← deref a; store a (mkBT (u16 (bf_use b + 1)) (bf_buf b)).
(* src/include/elm/string/String.h:48-52 String::unlock *)
Definition String_unlock (a : Z) : M unit :=
  b ← deref a;
  let use := u16 (bf_use b - 1) in
  store a (mkBT use (bf_buf b)) ;;
  if (use =? 0) && negb (a =? empty_buf) then free a else mret tt.

(** A window on a block that exists. *)
(* src/include/elm/string/String.h:53-53 String::String *)
Definition String_window (buf off len : Z) : M String :=
  String_lock buf ;; mret (mkStr buf (u16 off) (u16 len)).

(** A block of [sizeof(buffer_t) + len] bytes: its characters. *)
Definition new_chars_of (len : Z) : list Z := replicate (Z.to_nat (len + 2)) junk.

(* src/src/string_String.cpp:143-163 String::copy *)
Definition String_copy (str : list Z) : M String :=
  let len := zlen str in
  if len =? 0 then String_window empty_buf zero_off 0
  else
    buf ← lift (memcpy (new_chars_of len) 0 str len);
    buf ← lift (wr buf len 0);
    a ← alloc (mkBT 1 buf);
    mret (mkStr a zero_off (u16 len)).

(* src/include/elm/string/String.h:62-62 String::String *)
Definition String_empty : M String := String_window empty_buf zero_off 0.
(* src/include/elm/string/String.h:66-66 String::String *)
Definition String_clone (s : String) : M String := String_lock (s_buf s) ;; mret s.
(* src/include/elm/string/String.h:67-67 String::~String *)
Definition String_delete (s : String) : M unit := String_unlock (s_buf s).
(** The new value of the assigned string. *)
(* src/include/elm/string/String.h:68-69 String::operator= *)
Definition String_assign (self s : String) : M String :=
  String_lock (s_buf s) ;; String_unlock (s_buf self) ;; mret s.
(* src/include/elm/string/String.h:70-71 String::operator= *)
Definition String_assign_chars (self : String) (str : list Z) : M String :=
  String_unlock (s_buf self) ;; String_copy str.

(* src/include/elm/string/String.h:76-76 String::chars *)
Definition String_chars (s : String) : M (list Z) := chars_at (s_buf s) (s_off s) (s_len s).
(* src/include/elm/string/String.h:94-94 String::charAt *)
Definition String_charAt (s : String) (i : Z) : M Z := char_at (s_buf s) (i + s_off s).

(* src/include/elm/string/String.h:96-96 String::substring *)
Definition String_substring_from (s : String) (off : Z) : M String :=
  String_window (s_buf s) (s_off s + off) (s_len s - off).
(* src/include/elm/string/String.h:97-97 String::substring *)
Definition String_substring (s : String) (off len : Z) : M String :=
  String_window (s_buf s) (s_off s + off) len.

(* src/src/string_String.cpp:195-202 String::concat *)
Definition String_concat_chars (s1 s2 : list Z) : M String :=
  let l1 := zlen s1 in let l2 := zlen s2 in
  buf ← lift (memcpy (new_chars_of (l1 + l2)) 0 s1 l1);
  buf ← lift (memcpy buf l1 s2 l2);
  buf ← lift (wr buf (l1 + l2) 0);
  a ← alloc (mkBT 0 buf);
  String_window a zero_off (l1 + l2).
(* src/include/elm/string/String.h:100-100 String::concat *)
Definition String_concat (s1 s2 : String) : M String :=
  c1 ← String_chars s1; c2 ← String_chars s2; String_concat_chars c1 c2.
(* src/include/elm/string.h:100-100 operator+ *)
Definition String_concat_char (s : String) (c : Z) : M String :=
  c1 ← String_chars s; String_concat_chars c1 (if c =? 0 then [] else [c]).

(** [toc] changes the string: the new value. *)
(* src/src/string_String.cpp:210-228 String::toc *)
Definition String_toc (s : String) : M String :=
  b ← deref (s_buf s);
  if bf_use b <=? 1 then
    buf ← lift (wr (bf_buf b) (s_len s) 0); store (s_buf s) (mkBT (bf_use b) buf) ;; mret s
  else
    c ← String_chars s;
    nbuf ← lift (memcpy (new_chars_of (s_len s)) 0 c (s_len s));
    a ← alloc (mkBT 1 nbuf);
    String_unlock (s_buf s) ;;
    lift (wr nbuf (s_len s) 0) ≫= (fun nbuf => store a (mkBT 1 nbuf)) ;;
    mret (mkStr a zero_off (s_len s)).

(** The characters up to the first null one. *)
Fixpoint strz (l : list Z) : outcome (list Z) :=
  match l with
  | [] => Crash OutOfBounds
  | c :: l => if c =? 0 then Ret [] else l ← strz l; Ret (c :: l)
  end.
Definition cstring_at (a off : Z) : M (list Z) :=
  b ← deref a; lift (strz (drop (Z.to_nat (off - zero_off)) (bf_buf b))).

(** The string after the call, and the text of the C string. *)
(* src/include/elm/string/String.h:90-90 String::toCString *)
Definition String_toCString (s : String) : M (String * list Z) :=
  c ← char_at (s_buf s) (s_off s + s_len s);
  s ← (if negb (c =? 0) then String_toc s else mret s);
  t ← cstring_at (s_buf s) (s_off s);
  mret (s, t).

(* src/include/elm/string/String.h:77-80 String::compare *)
Definition String_compare (s1 s2 : String) : M Z :=
  let n := if s_len s2 <? s_len s1 then s_len s2 else s_len s1 in
  c1 ← chars_at (s_buf s1) (s_off s1) n; c2 ← chars_at (s_buf s2) (s_off s2) n;
  let res := memcmp c1 c2 in
  mret (if negb (res =? 0) then res else s_len s1 - s_len s2).
(* src/include/elm/string/String.h:81-85 String::compare *)
Definition String_compare_chars (s1 : String) (str : list Z) : M Z :=
  let slen := zlen str in
  let n := if slen <? s_len s1 then slen else s_len s1 in
  c1 ← chars_at (s_buf s1) (s_off s1) n;
  let res := memcmp c1 (take (Z.to_nat n) str) in
  mret (if negb (res =? 0) then res else s_len s1 - slen).

(** The order of a C string and a string is tested the other way round. *)
(* src/include/elm/string.h:58-59 operator<, operator<= *)
Definition cstring_lt (s1 : list Z) (s2 : String) : M bool := c ← String_compare_chars s2 s1; mret (0 <=? c).
Definition cstring_le (s1 : list Z) (s2 : String) : M bool := c ← String_compare_chars s2 s1; mret (0 <? c).

(* src/include/elm/string/String.h:103-104 String::indexOf *)
Definition String_indexOf_char (s : String) (chr pos : Z) : M Z := fun h =>
  r ← scan pos (s_len s) (fun p => x ← String_charAt s p h;
        match x.1 with
        | Val c => Ret (if c =? chr then Some p else None)
        | Throw => Crash Undefined
        end);
  Ret (Val (default (-1) r), h).
(* src/include/elm/string/String.h:107-108 String::lastIndexOf *)
Definition String_lastIndexOf_char (s : String) (chr pos : Z) : M Z := fun h =>
  r ← scan 0 pos (fun k => let p := pos - 1 - k in x ← String_charAt s p h;
        match x.1 with
        | Val c => Ret (if c =? chr then Some p else None)
        | Throw => Crash Undefined
        end);
  Ret (Val (default (-1) r), h).

(** The test [substring(pos, string.length()) == string]: the temporary string
    lives until the end of the test. *)
Definition substring_is (s : String) (pos : Z) (str : String) : M bool :=
  t ← String_substring s pos (s_len str);
  c ← String_compare t str;
  String_delete t ;;
  mret (c =? 0).

(* src/src/string_String.cpp:498-510 String::indexOf *)
Definition String_indexOf (s str : String) (pos : Z) : M Z :=
  lift (assertP (negb (s_len str =? 0))) ;;
  io_iter (Datatypes.S (Datatypes.S (Z.to_nat (s_len s - pos)))) (fun pos =>
    if 0 <=? pos then
      c ← String_charAt str 0;
      pos ← String_indexOf_char s c pos;
      if 0 <=? pos then
        b ← substring_is s pos str;
        mret (if b : bool then inr pos else inl (pos + 1))
      else mret (inl pos)
    else mret (inr (-1))) pos.

(* src/src/string_String.cpp:518-526 String::lastIndexOf *)
Definition String_lastIndexOf (s str : String) (pos : Z) : M Z :=
  lift (assertP (negb (s_len str =? 0))) ;;
  io_iter (Datatypes.S (Datatypes.S (Z.to_nat pos))) (fun pos =>
    if 0 <=? pos then
      c ← String_charAt str 0;
      pos ← String_lastIndexOf_char s c pos;
      if 0 <=? pos then
        b ← substring_is s pos str;
        mret (if b : bool then inr pos else inl pos)
      else mret (inl pos)
    else mret (inr (-1))) pos.

(* src/include/elm/string/String.h:114-115 String::startsWith *)
Definition String_startsWith_chars (s : String) (str : list Z) : M bool :=
  let l := zlen str in
  if l <=? s_len s then c ← chars_at (s_buf s) (s_off s) l; mret (memcmp c str =? 0) else mret false.
(* src/include/elm/string/String.h:116-117 String::startsWith *)
Definition String_startsWith (s str : String) : M bool :=
  if s_len str <=? s_len s then
    c1 ← chars_at (s_buf s) (s_off s) (s_len str); c2 ← String_chars str; mret (memcmp c1 c2 =? 0)
  else mret false.
(* src/include/elm/string/String.h:122-123 String::endsWith *)
Definition String_endsWith (s str : String) : M bool :=
  if s_len str <=? s_len s then
    c1 ← chars_at (s_buf s) (s_off s + s_len s - s_len str) (s_len str);
    c2 ← String_chars str; mret (memcmp c1 c2 =? 0)
  else mret false.

(** [isblank] of the C library, in the default locale. *)
Definition isblank (c : Z) : bool := (c =? 32) || (c =? 9).

(* src/src/string_String.cpp:542-547 String::ltrim *)
Definition String_ltrim (s : String) : M String :=
  i ← io_iter (Datatypes.S (Z.to_nat (s_len s))) (fun i =>
        if i <? s_len s then c ← String_charAt s i; mret (if isblank c then inl (i + 1) else inr i)
        else mret (inr i)) 0;
  String_substring_from s i.
(* src/src/string_String.cpp:554-559 String::rtrim *)
Definition String_rtrim (s : String) : M String :=
  i ← io_iter (Datatypes.S (Z.to_nat (s_len s))) (fun i =>
        if 0 <=? i then c ← String_charAt s i; mret (if isblank c then inl (i - 1) else inr i)
        else mret (inr i)) (s_len s - 1);
  String_substring s 0 (i + 1).
(* src/src/string_String.cpp:533-535 String::trim *)
Definition String_trim (s : String) : M String :=
  t ← String_ltrim s; r ← String_rtrim t; String_delete t ;; mret r.

(** ** Buffers to build strings: an output on a block in memory, that starts with
    the counter of the future string *)

(* src/include/elm/string/StringBuffer.h:18-40 StringBuffer *)
Definition StringBuffer : Type := Output BlockOutStream.

Definition run_out {A} (m : IO StringBuffer A) (o : StringBuffer) : M (A * StringBuffer) := fun h =>
  r ← m o;
  match r.1 with Val x => Ret (Val (x, r.2), h) | Throw => Ret (Throw, h) end.

Definition StringBuffer_init (s : BlockOutStream) : outcome BlockOutStream :=
  r ← BlockOutStream_write s [0; 0]; Ret r.2.
(* src/include/elm/string/StringBuffer.h:21-23 StringBuffer::StringBuffer *)
Definition StringBuffer_make (capacity increment : Z) : outcome StringBuffer :=
  s ← BlockOutStream_make capacity increment; s ← StringBuffer_init s; Ret (Output_make s).
Definition sb_size (o : StringBuffer) : Z := db_size (bos_block (o_strm o)).
(* src/include/elm/string/StringBuffer.h:33-33 StringBuffer::length *)
Definition StringBuffer_length (o : StringBuffer) : Z := sb_size o - 2.
(* src/include/elm/string/StringBuffer.h:34-34 StringBuffer::reset *)
Definition StringBuffer_reset (o : StringBuffer) : outcome StringBuffer :=
  s ← BlockOutStream_clear (o_strm o); s ← StringBuffer_init s; Ret (mkOut s (o_ansi o)).
(* src/include/elm/string/StringBuffer.h:25-27 StringBuffer::toString *)
Definition StringBuffer_toString (o : StringBuffer) : M (String * StringBuffer) :=
  let len := StringBuffer_length o in
  r ← lift (BlockOutStream_writeByte (o_strm o) 0);
  let '(block, d) := DynBlock_detach (bos_block r.2) in
  match block with
  | None => lift (Crash OutOfBounds)
  | Some block =>
      lo ← lift (rd block 0); hi ← lift (rd block 1);
      a ← alloc (mkBT (lo + 256 * hi) (drop 2 block));
      s ← String_window a zero_off len;
      mret (s, mkOut (mkBOS d) (o_ansi o))
  end.
(** [buf << str] *)
Definition StringBuffer_add (o : StringBuffer) (s : String) : M StringBuffer :=
  c ← String_chars s; r ← run_out (Output_print_string c) o; mret r.2.

(* src/src/string_String.cpp:171-174 String::make *)
Definition String_make_char (chr : Z) : M String := String_copy (if chr =? 0 then [] else [chr]).
Fixpoint add_times (n : nat) (o : StringBuffer) (s : String) : M StringBuffer :=
  match n with O => mret o | Datatypes.S n => o ← StringBuffer_add o s; add_times n o s end.
(* src/src/string_String.cpp:181-186 String::make *)
Definition String_make (s : String) (n : Z) : M String :=
  o ← lift (StringBuffer_make 64 32);
  o ← add_times (Z.to_nat n) o s;
  r ← StringBuffer_toString o; mret r.1.
(* src/include/elm/string.h:106-118 String::join *)
Definition String_join (self : String) (coll : list String) : M String :=
  o ← lift (StringBuffer_make 64 32);
  let fix add (f : bool) (l : list String) (o : StringBuffer) : M StringBuffer :=
    match l with
    | [] => mret o
    | x :: l => o ← (if f then mret o else StringBuffer_add o self);
                o ← StringBuffer_add o x; add false l o
    end in
  o ← add true coll o;
  r ← StringBuffer_toString o; mret r.1.

(** The loop of [replace]: [c] is the rest of the string, with [p] the first
    place of the pattern. *)
(* src/src/string_String.cpp:571-577 String::replace *)
Definition replace_step (pat sub : String) (st : StringBuffer * String * Z)
    : M (StringBuffer * String * Z + StringBuffer * String) :=
  let '(buf, c, p) := st in
  if 0 <=? p then
    buf ← (if 0 <? p then
             t ← String_substring c 0 p; buf ← StringBuffer_add buf t; String_delete t ;; mret buf
           else mret buf);
    buf ← StringBuffer_add buf sub;
    t ← String_substring_from c (p + s_len pat);
    c ← String_assign c t;
    String_delete t ;;
    p ← String_indexOf c pat 0;
    mret (inl (buf, c, p))
  else mret (inr (buf, c)).
(* src/src/string_String.cpp:565-580 String::replace *)
Definition String_replace (s pat sub : String) : M String :=
  p ← String_indexOf s pat 0;
  if p <? 0 then String_clone s
  else
    o ← lift (StringBuffer_make 64 32);
    c ← String_clone s;
    r ← io_iter (Datatypes.S (Datatypes.S (Z.to_nat (s_len s)))) (replace_step pat sub) (o, c, p);
    buf ← StringBuffer_add r.1 r.2;
    x ← StringBuffer_toString buf;
    String_delete r.2 ;;
    mret x.1.
End Strings.

(** ** The heap of the buffers *)

Definition owners (a : Z) (L : list String) : Z := zlen (filter (fun s => s_buf s = a) L).

(** The window of a string is inside its buffer, the character that follows it
    too. *)
Definition in_heap (h : heap_t) (s : String) : Prop := exists b, h !! s_buf s = Some b /\
  zero_off <= s_off s /\ 0 <= s_len s /\ s_off s - zero_off + s_len s < zlen (bf_buf b) /\
  s_off s + s_len s < 2 ^ 16.

(** [L] are the strings that exist: each buffer counts its strings, and has one. *)
Record heap_ok (h : heap_t) (L : list String) : Prop := {
  ho_use a b : h !! a = Some b -> bf_use b = owners a L + (if a =? empty_buf then 1 else 0);
  ho_live a b : h !! a = Some b -> a <> empty_buf -> 0 < owners a L;
  ho_empty : bf_buf <$> h !! empty_buf = Some [0];
  ho_strs : Forall (in_heap h) L;
  ho_few : zlen L < 2 ^ 16 - 2 }.

#[export] Instance owners_perm a : Proper (Permutation ==> eq) (owners a).
Proof. intros L1 L2 E. unfold owners. by rewrite E. Qed.
#[export] Instance heap_ok_perm h : Proper (Permutation ==> iff) (heap_ok h).
Proof.
  assert (forall L1 L2, L1 ≡ₚ L2 -> heap_ok h L1 -> heap_ok h L2) as Himp.
  { intros L1 L2 E [H1 H2 H3 H4 H5]. split.
    - intros a b. rewrite <- E. apply H1.
    - intros a b. rewrite <- E. apply H2.
    - done.
    - by rewrite <- E.
    - by rewrite <- E. }
  intros L1 L2 E. split; apply Himp; by rewrite E.
Qed.

(** The text of a string, and heaps where the buffers of [L] are the same. *)
Definition contents (h : heap_t) (s : String) : list Z :=
  match h !! s_buf s with
  | Some b => take (Z.to_nat (s_len s)) (drop (Z.to_nat (s_off s - zero_off)) (bf_buf b))
  | None => []
  end.
Definition keeps (L : list String) (h h' : heap_t) : Prop :=
  forall s, s ∈ L -> bf_buf <$> h' !! s_buf s = bf_buf <$> h !! s_buf s.

Lemma keeps_refl L h : keeps L h h.
Proof. by intros s. Qed.
Lemma keeps_trans L h1 h2 h3 : keeps L h1 h2 -> keeps L h2 h3 -> keeps L h1 h3.
Proof. intros H1 H2 s Hs. by rewrite H2, H1. Qed.
Lemma keeps_incl L L' h h' : (forall s, s ∈ L -> s ∈ L') -> keeps L' h h' -> keeps L h h'.
Proof. intros Hi Hk s Hs. by apply Hk, Hi. Qed.
Lemma keeps_contents L h h' s : keeps L h h' -> s ∈ L -> contents h' s = contents h s.
Proof.
  intros Hk Hs. specialize (Hk s Hs). unfold contents.
  destruct (h' !! s_buf s), (h !! s_buf s); cbn in Hk; try done. by injection Hk as ->.
Qed.
Lemma keeps_in_heap L h h' s : keeps L h h' -> s ∈ L -> in_heap h s -> in_heap h' s.
Proof.
  intros Hk Hs (b & Eb & H1). specialize (Hk s Hs). rewrite Eb in Hk.
  destruct (h' !! s_buf s) as [b'|] eqn:Eb'; [|done]. cbn in Hk. injection Hk as Ek.
  exists b'. by rewrite Ek.
Qed.

Lemma owners_cons a s L : owners a (s :: L) = (if s_buf s =? a then 1 else 0) + owners a L.
Proof.
  unfold owners. rewrite filter_cons. destruct (Z.eqb_spec (s_buf s) a); case_decide; cbn; lia.
Qed.
Lemma owners_bound a L : 0 <= owners a L <= zlen L.
Proof. unfold owners. pose proof (length_filter (fun s => s_buf s = a) L). lia. Qed.
Lemma owners_in a s L : s ∈ L -> s_buf s = a -> 0 < owners a L.
Proof.
  intros Hs E. apply list_elem_of_split in Hs as (l1 & l2 & ->). rewrite <- Permutation_middle.
  rewrite owners_cons, E, Z.eqb_refl. pose proof (owners_bound a (l1 ++ l2)). lia.
Qed.

Lemma contents_length h s : in_heap h s -> zlen (contents h s) = s_len s.
Proof.
  intros (b & Eb & H1 & H2 & H3 & _). unfold contents. rewrite Eb, length_take, length_drop.
  unfold zero_off in *. lia.
Qed.

Section Heap.
Variable new_buf : heap_t -> Z.
Variable junk : Z.
Hypothesis new_buf_fresh : forall h, h !! new_buf h = None.

Lemma deref_ok h a b : h !! a = Some b -> deref a h = Ret (Val b, h).
Proof. intros E. unfold deref. by rewrite E. Qed.

Lemma in_heap_insert h s a b b' : in_heap h s -> h !! a = Some b -> length (bf_buf b') = length (bf_buf b) ->
  in_heap (<[a := b']> h) s.
Proof.
  intros (c & Ec & Hw) Eb El. destruct (decide (s_buf s = a)) as [E|E].
  - exists b'. rewrite E, lookup_insert_eq, El. rewrite E, Eb in Ec. by injection Ec as <-.
  - exists c. by rewrite lookup_insert_ne by done.
Qed.

Lemma String_lock_ok h L s : heap_ok h L -> in_heap h s -> zlen L + 1 < 2 ^ 16 - 2 ->
  exists h', String_lock (s_buf s) h = Ret (Val tt, h') /\ heap_ok h' (s :: L) /\
    forall a, bf_buf <$> h' !! a = bf_buf <$> h !! a.
Proof.
  intros Ho (b & Eb & Hw) Hr. unfold String_lock. erewrite io_bind_Val by (by apply deref_ok).
  eexists; split; [reflexivity|]. pose proof (ho_use h L Ho _ _ Eb) as Eu.
  pose proof (owners_bound (s_buf s) L) as Hb.
  assert (u16 (bf_use b + 1) = bf_use b + 1) as ->.
  { apply wrap_small. unfold inw. destruct (s_buf s =? empty_buf); lia. }
  assert (forall a, bf_buf <$> <[s_buf s := mkBT (bf_use b + 1) (bf_buf b)]> h !! a = bf_buf <$> h !! a) as Hk.
  { intros a. destruct (decide (s_buf s = a)) as [<-|E].
    - by rewrite lookup_insert_eq, Eb.
    - by rewrite lookup_insert_ne by done. }
  split; [|done]. split.
  - intros a c Ec. rewrite owners_cons. destruct (decide (s_buf s = a)) as [<-|E].
    + rewrite lookup_insert_eq in Ec. injection Ec as <-. cbn. rewrite Z.eqb_refl. lia.
    + rewrite lookup_insert_ne in Ec by done. rewrite (ho_use h L Ho _ _ Ec).
      destruct (Z.eqb_spec (s_buf s) a); [done|lia].
  - intros a c Ec Ha. rewrite owners_cons. destruct (Z.eqb_spec (s_buf s) a) as [|E].
    + pose proof (owners_bound a L). lia.
    + rewrite lookup_insert_ne in Ec by done. pose proof (ho_live h L Ho _ _ Ec Ha). lia.
  - rewrite Hk. apply (ho_empty h L Ho).
  - constructor.
    + apply (in_heap_insert h s _ b); [by exists b|done|done].
    + eapply Forall_impl; [apply (ho_strs h L Ho)|]. intros s' Hs'. by apply (in_heap_insert h s' _ b).
  - cbn. lia.
Qed.

Lemma String_unlock_ok h L s : heap_ok h (s :: L) ->
  exists h', String_unlock (s_buf s) h = Ret (Val tt, h') /\ heap_ok h' L /\ keeps L h h'.
Proof.
  intros Ho. pose proof (ho_strs _ _ Ho) as Fs. apply Forall_cons in Fs as [(b & Eb & Hw) Fs].
  unfold String_unlock. erewrite io_bind_Val by (by apply deref_ok).
  pose proof (ho_use _ _ Ho _ _ Eb) as Eu. pose proof (ho_few _ _ Ho) as Hf. cbn in Hf.
  rewrite owners_cons, Z.eqb_refl in Eu. pose proof (owners_bound (s_buf s) L) as Hb.
  assert (u16 (bf_use b - 1) = bf_use b - 1) as ->.
  { apply wrap_small. unfold inw. destruct (s_buf s =? empty_buf); lia. }
  erewrite io_bind_Val by reflexivity.
  set (h1 := <[s_buf s := mkBT (bf_use b - 1) (bf_buf b)]> h).
  assert (forall a c, h1 !! a = Some c ->
    bf_use c = owners a L + (if a =? empty_buf then 1 else 0)) as Hu.
  { intros a c Ec. unfold h1 in Ec. destruct (decide (s_buf s = a)) as [<-|E].
    - rewrite lookup_insert_eq in Ec. injection Ec as <-. cbn. lia.
    - rewrite lookup_insert_ne in Ec by done. rewrite (ho_use _ _ Ho _ _ Ec), owners_cons.
      destruct (Z.eqb_spec (s_buf s) a); [done|lia]. }
  assert (forall a, bf_buf <$> h1 !! a = bf_buf <$> h !! a) as Hk.
  { intros a. unfold h1. destruct (decide (s_buf s = a)) as [<-|E].
    - by rewrite lookup_insert_eq, Eb.
    - by rewrite lookup_insert_ne by done. }
  assert (forall a c, h1 !! a = Some c -> a <> s_buf s -> a <> empty_buf -> 0 < owners a L) as Hlive.
  { intros a c Ec Ha He. unfold h1 in Ec. rewrite lookup_insert_ne in Ec by done.
    pose proof (ho_live _ _ Ho _ _ Ec He) as Hl. rewrite owners_cons in Hl.
    destruct (Z.eqb_spec (s_buf s) a); [done|lia]. }
  assert (Forall (in_heap h1) L) as Fs1.
  { eapply Forall_impl; [exact Fs|]. intros s' Hs'. by apply (in_heap_insert h s' _ b). }
  assert (bf_buf <$> h1 !! empty_buf = Some [0]) as He1 by (rewrite Hk; apply (ho_empty _ _ Ho)).
  destruct (Z.eqb_spec (bf_use b - 1) 0) as [E0|E0], (Z.eqb_spec (s_buf s) empty_buf) as [Ee|Ee]; cbn [andb negb].
  2:{ eexists; split; [reflexivity|]. assert (owners (s_buf s) L = 0) as Eo by lia.
      assert (forall s', s' ∈ L -> s_buf s' <> s_buf s) as Hne.
      { intros s' Hs' E. pose proof (owners_in (s_buf s) s' L Hs' E). lia. }
      split; [split|].
      - intros a c [Ha Ec]%lookup_delete_Some. by apply Hu.
      - intros a c [Ha Ec]%lookup_delete_Some He. by apply (Hlive a c).
      - by rewrite lookup_delete_ne.
      - rewrite list.Forall_forall in Fs1 |- *. intros s' Hs'. destruct (Fs1 s' Hs') as (c & Ec & Hc).
        exists c. split; [|done]. by rewrite lookup_delete_ne by (symmetry; by apply Hne).
      - lia.
      - intros s' Hs'. rewrite lookup_delete_ne by (symmetry; by apply Hne). by apply Hk. }
  all: eexists; split; [reflexivity|]; split; [split|by intros s' _]; [done| |done|done|lia].
  all: intros a c Ec He; destruct (decide (a = s_buf s)) as [->|Ha]; [|by apply (Hlive a c)].
  - done.
  - done.
  - pose proof (Hu _ _ Ec) as Ec'. unfold h1 in Ec. rewrite lookup_insert_eq in Ec. injection Ec as <-.
    cbn in Ec'. destruct (Z.eqb_spec (s_buf s) empty_buf); lia.
Qed.

(** *** Reading *)

Lemma chars_at_ok h s i n : in_heap h s -> 0 <= i -> 0 <= n -> i + n <= s_len s ->
  chars_at (s_buf s) (s_off s + i) n h
    = Ret (Val (take (Z.to_nat n) (drop (Z.to_nat i) (contents h s))), h).
Proof.
  intros (b & Eb & H1 & H2 & H3 & _) Hi Hn Hin. unfold chars_at, contents, zero_off in *. rewrite Eb.
  erewrite io_bind_Val by (by apply deref_ok).
  rewrite !(proj2 (Z.leb_le _ _)) by lia. cbn [andb]. unfold mret, io_ret. do 3 f_equal.
  rewrite skipn_firstn_comm, drop_drop, take_take. f_equal; [lia|]. f_equal. lia.
Qed.
Lemma String_chars_ok h s : in_heap h s -> String_chars s h = Ret (Val (contents h s), h).
Proof.
  intros Hs. pose proof (contents_length h s Hs) as El. pose proof Hs as (b & _ & _ & Hl & _).
  unfold String_chars. pose proof (chars_at_ok h s 0 (s_len s) Hs ltac:(lia) Hl ltac:(lia)) as E.
  rewrite Z.add_0_r in E. rewrite E. do 3 f_equal. rewrite drop_0. apply firstn_all2. lia.
Qed.
Lemma String_charAt_ok h s i : in_heap h s -> 0 <= i < s_len s ->
  exists c, String_charAt s i h = Ret (Val c, h) /\ contents h s !! Z.to_nat i = Some c.
Proof.
  intros (b & Eb & H1 & H2 & H3 & _) Hi. unfold String_charAt, char_at, contents, zero_off in *. rewrite Eb.
  erewrite io_bind_Val by (by apply deref_ok).
  destruct (lookup_lt_is_Some_2 (bf_buf b) (Z.to_nat (i + s_off s - 2))) as [c Ec]; [lia|].
  exists c. unfold lift. rewrite (rd_ok _ _ c) by (done || lia). split; [done|].
  rewrite lookup_take_lt, lookup_drop by lia. rewrite <- Ec. f_equal. lia.
Qed.

(** *** New strings *)

(** [m] makes a string with text [t] and leaves the other ones as they are. *)
Definition makes (m : IO heap_t String) (L : list String) (h : heap_t) (t : list Z) : Prop :=
  exists s h', m h = Ret (Val s, h') /\ heap_ok h' (s :: L) /\ keeps L h h' /\ contents h' s = t.

Lemma String_window_ok h L a off len : heap_ok h L -> in_heap h (mkStr a off len) ->
  zlen L + 1 < 2 ^ 16 - 2 -> makes (String_window a off len) L h (contents h (mkStr a off len)).
Proof.
  intros Ho Hs Hr. pose proof Hs as (b & Eb & H1 & H2 & H3 & H4). cbn in *.
  destruct (String_lock_ok h L (mkStr a off len) Ho Hs Hr) as (h' & E & Ho' & Hk).
  exists (mkStr a off len), h'. unfold String_window. cbn [s_buf] in E.
  erewrite io_bind_Val by exact E. unfold zero_off in *.
  rewrite !(wrap_small 16) by (unfold inw; lia).
  split; [done|]. split; [done|]. split; [by intros s' _; apply Hk|].
  apply (keeps_contents [mkStr a off len]); [by intros s' _; apply Hk|by left].
Qed.

Lemma String_empty_ok h L : heap_ok h L -> zlen L + 1 < 2 ^ 16 - 2 -> makes String_empty L h [].
Proof.
  intros Ho Hr. pose proof (ho_empty _ _ Ho) as He. destruct (h !! empty_buf) as [b|] eqn:Eb; [|done].
  cbn in He. injection He as He. unfold String_empty.
  replace [] with (contents h (mkStr empty_buf zero_off 0)) by (unfold contents; cbn; by rewrite Eb).
  apply String_window_ok; [done| |done]. exists b. rewrite He. by split_and!.
Qed.

Lemma owners_fresh h L a : heap_ok h L -> h !! a = None -> owners a L = 0.
Proof.
  intros Ho Ea. unfold owners. rewrite filter_none; [done|]. intros s Hs E.
  pose proof (ho_strs _ _ Ho) as F. rewrite list.Forall_forall in F.
  destruct (F s Hs) as (b & Eb & _). by rewrite E, Ea in Eb.
Qed.

(** A new buffer with one string. *)
Lemma alloc_ok h L a buf len : heap_ok h L -> h !! a = None -> zlen L + 1 < 2 ^ 16 - 2 ->
  0 <= len < zlen buf -> len < 2 ^ 16 - 2 ->
  heap_ok (<[a := mkBT 1 buf]> h) (mkStr a zero_off len :: L) /\ keeps L h (<[a := mkBT 1 buf]> h) /\
  contents (<[a := mkBT 1 buf]> h) (mkStr a zero_off len) = take (Z.to_nat len) buf.
Proof.
  intros Ho Ea Hr Hl Hl2. pose proof (owners_fresh h L a Ho Ea) as E0.
  pose proof (ho_empty _ _ Ho) as He.
  assert (a <> empty_buf) as Hne by (intros ->; by rewrite Ea in He).
  split; [split|split].
  - intros x b Eb. rewrite owners_cons. cbn. destruct (decide (a = x)) as [<-|E].
    + rewrite lookup_insert_eq in Eb. injection Eb as <-. cbn. rewrite Z.eqb_refl, E0.
      destruct (Z.eqb_spec a empty_buf); [done|lia].
    + rewrite lookup_insert_ne in Eb by done. rewrite (ho_use _ _ Ho _ _ Eb).
      destruct (Z.eqb_spec a x); [done|lia].
  - intros x b Eb Hx. rewrite owners_cons. cbn. destruct (decide (a = x)) as [<-|E].
    + rewrite Z.eqb_refl. lia.
    + rewrite lookup_insert_ne in Eb by done. pose proof (ho_live _ _ Ho _ _ Eb Hx).
      destruct (Z.eqb_spec a x); lia.
  - by rewrite lookup_insert_ne.
  - constructor.
    + exists (mkBT 1 buf). cbn. rewrite lookup_insert_eq. unfold zero_off. split_and!; done || lia.
    + eapply Forall_impl; [apply (ho_strs _ _ Ho)|]. intros s (b & Eb & Hw). exists b. split; [|done].
      rewrite lookup_insert_ne; [done|]. intros E. by rewrite <- E, Ea in Eb.
  - cbn. lia.
  - intros s Hs. rewrite lookup_insert_ne; [done|]. intros E.
    pose proof (owners_in a s L Hs (eq_sym E)). lia.
  - unfold contents. cbn. by rewrite lookup_insert_eq, drop_0.
Qed.

Lemma alloc_run b h : alloc new_buf b h = Ret (Val (new_buf h), <[new_buf h := b]> h).
Proof. done. Qed.
Lemma lift_run {S A} (m : outcome A) (x : A) (s : S) : m = Ret x -> lift m s = Ret (Val x, s).
Proof. by intros ->. Qed.

Lemma new_chars_of_length n : 0 <= n -> zlen (new_chars_of junk n) = n + 2.
Proof. intros Hn. unfold new_chars_of. rewrite length_replicate. lia. Qed.

Lemma take_insert_cell {A} (l : list A) n x : take n (<[n := x]> l) = take n l.
Proof. apply take_insert_ge. lia. Qed.

Lemma String_copy_ok h L str : heap_ok h L -> zlen L + 1 < 2 ^ 16 - 2 -> zlen str < 2 ^ 16 - 2 ->
  makes (String_copy new_buf junk str) L h str.
Proof.
  intros Ho Hr Hs. unfold String_copy. destruct (Z.eqb_spec (zlen str) 0) as [E|E].
  - destruct str; [|done]. by apply String_empty_ok.
  - pose proof (new_chars_of_length (zlen str) ltac:(lia)) as El. unfold makes.
    erewrite io_bind_Val by (apply lift_run, memcpy_start; lia). rewrite Nat2Z.id, firstn_all.
    erewrite io_bind_Val by (apply lift_run, wr_ok; rewrite length_app, length_drop; lia).
    rewrite Nat2Z.id. erewrite io_bind_Val by apply alloc_run.
    rewrite wrap_small by (unfold inw; lia).
    eexists _, _. split; [reflexivity|].
    match goal with |- context [mkBT 1 ?buf] =>
      destruct (alloc_ok h L (new_buf h) buf (zlen str)) as (H1 & H2 & H3);
        [done|done|done|rewrite length_insert, length_app, length_drop; lia|lia|] end.
    split; [done|]. split; [done|]. rewrite H3, Nat2Z.id, take_insert_cell.
    by rewrite take_app_length.
Qed.

Lemma heap_in h L s : heap_ok h L -> s ∈ L -> in_heap h s.
Proof. intros Ho Hs. pose proof (ho_strs _ _ Ho) as F. rewrite list.Forall_forall in F. by apply F. Qed.

Lemma sub_in_heap h s off n : in_heap h s -> 0 <= off -> 0 <= n -> off + n <= s_len s ->
  in_heap h (mkStr (s_buf s) (s_off s + off) n) /\
  contents h (mkStr (s_buf s) (s_off s + off) n) = take (Z.to_nat n) (drop (Z.to_nat off) (contents h s)).
Proof.
  intros Hs H1 H2 H3. pose proof Hs as (b & Eb & W1 & W2 & W3 & W4). unfold zero_off in *. split.
  - exists b. cbn. unfold zero_off. split_and!; done || lia.
  - unfold contents. cbn. rewrite Eb, skipn_firstn_comm, take_take, drop_drop. unfold zero_off.
    f_equal; [lia|]. f_equal. lia.
Qed.

Lemma String_substring_ok h L s off n : heap_ok h L -> s ∈ L -> zlen L + 1 < 2 ^ 16 - 2 ->
  0 <= off -> 0 <= n -> off + n <= s_len s ->
  makes (String_substring s off n) L h (take (Z.to_nat n) (drop (Z.to_nat off) (contents h s))).
Proof.
  intros Ho Hs Hr H1 H2 H3. destruct (sub_in_heap h s off n (heap_in h L s Ho Hs)) as [Hi <-]; [done..|].
  by apply String_window_ok.
Qed.
Lemma String_substring_from_ok h L s off : heap_ok h L -> s ∈ L -> zlen L + 1 < 2 ^ 16 - 2 ->
  0 <= off <= s_len s -> makes (String_substring_from s off) L h (drop (Z.to_nat off) (contents h s)).
Proof.
  intros Ho Hs Hr H1. pose proof (String_substring_ok h L s off (s_len s - off) Ho Hs Hr) as Hm.
  pose proof (contents_length h s (heap_in h L s Ho Hs)) as El.
  rewrite firstn_all2 in Hm by (rewrite length_drop; lia). apply Hm; lia.
Qed.
Lemma String_clone_ok h L s : heap_ok h L -> s ∈ L -> zlen L + 1 < 2 ^ 16 - 2 ->
  makes (String_clone s) L h (contents h s).
Proof.
  intros Ho Hs Hr. destruct (String_lock_ok h L s Ho (heap_in h L s Ho Hs) Hr) as (h' & E & Ho' & Hk).
  exists s, h'. unfold String_clone. erewrite io_bind_Val by exact E. split; [done|]. split; [done|].
  split; [by intros s' _; apply Hk|]. apply (keeps_contents [s]); [by intros s' _; apply Hk|by left].
Qed.
Lemma String_delete_ok h L s : heap_ok h (s :: L) ->
  exists h', String_delete s h = Ret (Val tt, h') /\ heap_ok h' L /\ keeps L h h'.
Proof. apply String_unlock_ok. Qed.

(** A new buffer whose counter is null until a string is made of it. *)
Lemma fresh_window h L b len : heap_ok h L -> zlen L + 1 < 2 ^ 16 - 2 -> 0 <= len < zlen b -> len < 2 ^ 16 - 2 ->
  makes (a ← alloc new_buf (mkBT 0 b); String_window a zero_off len) L h (take (Z.to_nat len) b).
Proof.
  intros Ho Hr Hl Hl2. destruct (alloc_ok h L (new_buf h) b len) as (H1 & H2 & H3); [done..|].
  unfold makes. erewrite io_bind_Val by apply alloc_run. unfold String_window, String_lock.
  erewrite io_bind_Val.
  2:{ erewrite io_bind_Val by (apply deref_ok, lookup_insert_eq). cbn [bf_use bf_buf].
      unfold store. rewrite insert_insert_eq. reflexivity. }
  change (u16 (0 + 1)) with 1. unfold zero_off in *. rewrite !wrap_small by (unfold inw; lia).
  eexists _, _. split; [reflexivity|]. by split; [|split].
Qed.

Lemma String_concat_chars_ok h L t1 t2 : heap_ok h L -> zlen L + 1 < 2 ^ 16 - 2 ->
  zlen t1 + zlen t2 < 2 ^ 16 - 2 -> makes (String_concat_chars new_buf junk t1 t2) L h (t1 ++ t2).
Proof.
  intros Ho Hr Hs. unfold makes, String_concat_chars.
  pose proof (new_chars_of_length (zlen t1 + zlen t2) ltac:(lia)) as El.
  erewrite io_bind_Val by (apply lift_run, memcpy_start; lia). rewrite Nat2Z.id, firstn_all.
  erewrite io_bind_Val by (apply lift_run, memcpy_ok; rewrite ?length_app, ?length_drop; lia).
  rewrite !Nat2Z.id, firstn_all, take_app_length.
  erewrite io_bind_Val by (apply lift_run, wr_ok; rewrite !length_app, !length_drop, ?length_app, ?length_drop; lia).
  match goal with |- context [mkBT 0 ?buf] => set (b := buf) end.
  assert (zlen b = zlen t1 + zlen t2 + 2) as Eb.
  { unfold b. rewrite length_insert, !length_app, !length_drop, length_app, length_drop. lia. }
  replace (t1 ++ t2) with (take (Z.to_nat (zlen t1 + zlen t2)) b); [apply fresh_window; done || lia|].
  unfold b. rewrite take_insert_cell, app_assoc. apply take_app_length'. rewrite length_app. lia.
Qed.
Lemma String_concat_ok h L s1 s2 : heap_ok h L -> s1 ∈ L -> s2 ∈ L -> zlen L + 1 < 2 ^ 16 - 2 ->
  s_len s1 + s_len s2 < 2 ^ 16 - 2 ->
  makes (String_concat new_buf junk s1 s2) L h (contents h s1 ++ contents h s2).
Proof.
  intros Ho Hs1 Hs2 Hr Hl. unfold makes, String_concat.
  pose proof (heap_in h L s1 Ho Hs1) as I1. pose proof (heap_in h L s2 Ho Hs2) as I2.
  erewrite io_bind_Val by (by apply String_chars_ok). erewrite io_bind_Val by (by apply String_chars_ok).
  apply String_concat_chars_ok; [done|done|]. by rewrite !contents_length.
Qed.

Lemma String_assign_ok h L self s : heap_ok h (self :: L) -> s ∈ self :: L -> zlen L + 2 < 2 ^ 16 - 2 ->
  exists h', String_assign self s h = Ret (Val s, h') /\ heap_ok h' (s :: L) /\ keeps L h h' /\
    contents h' s = contents h s.
Proof.
  intros Ho Hs Hr.
  destruct (String_lock_ok h (self :: L) s Ho (heap_in _ _ _ Ho Hs)) as (h1 & E1 & Ho1 & Hk1).
  { cbn. lia. }
  rewrite (Permutation_swap self s L) in Ho1 || rewrite Permutation_swap in Ho1.
  destruct (String_unlock_ok h1 (s :: L) self Ho1) as (h2 & E2 & Ho2 & Hk2).
  exists h2. unfold String_assign. erewrite io_bind_Val by exact E1. erewrite io_bind_Val by exact E2.
  split; [done|]. split; [done|].
  assert (keeps (s :: L) h h2) as Hk by (intros x Hx; by rewrite Hk2, Hk1).
  split; [by intros x Hx; apply Hk; right|]. apply (keeps_contents (s :: L)); [done|by left].
Qed.

(** *** The terminating null character *)

Lemma store_ok h L a b b' : heap_ok h L -> h !! a = Some b -> a <> empty_buf -> bf_use b' = bf_use b ->
  length (bf_buf b') = length (bf_buf b) -> heap_ok (<[a := b']> h) L.
Proof.
  intros Ho Eb Ha Eu El. split.
  - intros x c Ec. destruct (decide (a = x)) as [<-|E].
    + rewrite lookup_insert_eq in Ec. injection Ec as <-. rewrite Eu. apply (ho_use _ _ Ho _ _ Eb).
    + rewrite lookup_insert_ne in Ec by done. apply (ho_use _ _ Ho _ _ Ec).
  - intros x c Ec Hx. destruct (decide (a = x)) as [<-|E].
    + apply (ho_live _ _ Ho _ _ Eb Hx).
    + rewrite lookup_insert_ne in Ec by done. apply (ho_live _ _ Ho _ _ Ec Hx).
  - rewrite lookup_insert_ne by done. apply (ho_empty _ _ Ho).
  - eapply Forall_impl; [apply (ho_strs _ _ Ho)|]. intros s' Hs'. by apply (in_heap_insert h s' _ b).
  - apply (ho_few _ _ Ho).
Qed.

(** [toc] is right when the buffer is shared or the string starts its buffer. *)
Definition toc_fits (h : heap_t) (s : String) : bool :=
  (s_off s =? zero_off) || match h !! s_buf s with Some b => 1 <? bf_use b | None => false end.

(** The window of a string is followed by a null character. *)
Definition ends_null (h : heap_t) (s : String) : Prop := exists b, h !! s_buf s = Some b /\
  bf_buf b !! Z.to_nat (s_off s - zero_off + s_len s) = Some 0.

Lemma fresh_not_empty h L : heap_ok h L -> new_buf h <> empty_buf.
Proof. intros Ho E. pose proof (ho_empty _ _ Ho) as He. by rewrite <- E, new_buf_fresh in He. Qed.

(** The only string of its buffer. *)
Lemma toc_sole h L s b : heap_ok h (s :: L) -> s_buf s <> empty_buf -> h !! s_buf s = Some b ->
  bf_use b <= 1 -> exists h', String_toc new_buf junk s h = Ret (Val s, h') /\
    heap_ok h' (s :: L) /\ keeps L h h' /\
    (s_off s = zero_off -> contents h' s = contents h s /\ ends_null h' s).
Proof.
  intros Ho Hne Eb Hu. pose proof (heap_in _ _ s Ho ltac:(by left)) as (b' & Eb' & W1 & W2 & W3 & W4).
  rewrite Eb in Eb'. injection Eb' as <-. unfold zero_off in *.
  unfold String_toc. erewrite io_bind_Val by (by apply deref_ok). rewrite (proj2 (Z.leb_le _ _) Hu).
  erewrite io_bind_Val by (apply lift_run, wr_ok; lia). erewrite io_bind_Val by reflexivity.
  eexists. split; [reflexivity|]. split.
  { apply (store_ok h _ _ b); [done|done|done|done|]. cbn. by rewrite length_insert. }
  split.
  { intros x Hx. rewrite lookup_insert_ne; [done|]. intros E.
    pose proof (ho_use _ _ Ho _ _ Eb) as Hu'. rewrite owners_cons, Z.eqb_refl in Hu'.
    pose proof (owners_in (s_buf s) x L Hx (eq_sym E)). destruct (s_buf s =? empty_buf); lia. }
  intros E2. split.
  - unfold contents. rewrite lookup_insert_eq, Eb, E2. cbn. rewrite !drop_0. apply take_insert_cell.
  - eexists. rewrite lookup_insert_eq. split; [done|]. cbn. rewrite E2. unfold zero_off.
    replace (2 - 2 + s_len s) with (s_len s) by lia. apply list_lookup_insert_eq. lia.
Qed.

(** The copy that [toc] makes is the only string of the new buffer. *)
Lemma fresh_unlocked h h1 h2 L s nbuf len : heap_ok h (s :: L) ->
  h1 = <[new_buf h := mkBT 1 nbuf]> h -> heap_ok h2 (mkStr (new_buf h) zero_off len :: L) ->
  keeps (mkStr (new_buf h) zero_off len :: L) h1 h2 -> h2 !! new_buf h = Some (mkBT 1 nbuf).
Proof.
  intros Ho -> Ho2 Hk2. pose proof (Hk2 _ ltac:(by left)) as Hb. cbn [s_buf] in Hb.
  rewrite lookup_insert_eq in Hb. destruct (h2 !! new_buf h) as [[u b2]|] eqn:E3; [|done].
  cbn in Hb. injection Hb as ->. pose proof (ho_use _ _ Ho2 _ _ E3) as Hu2.
  rewrite owners_cons in Hu2. cbn in Hu2. rewrite Z.eqb_refl in Hu2.
  destruct (Z.eqb_spec (new_buf h) empty_buf); [by destruct (fresh_not_empty h (s :: L))|].
  pose proof (owners_fresh h (s :: L) (new_buf h) Ho (new_buf_fresh h)) as E0.
  rewrite owners_cons in E0. pose proof (owners_bound (new_buf h) L).
  assert (u = 1) as ->; [|done]. destruct (s_buf s =? new_buf h); lia.
Qed.

Lemma toc_shared h L s b : heap_ok h (s :: L) -> zlen L + 2 < 2 ^ 16 - 2 -> h !! s_buf s = Some b ->
  1 < bf_use b -> exists s' h', String_toc new_buf junk s h = Ret (Val s', h') /\
    heap_ok h' (s' :: L) /\ keeps L h h' /\ contents h' s' = contents h s /\ ends_null h' s'.
Proof.
  intros Ho Hr Eb Hu. pose proof (heap_in _ _ s Ho ltac:(by left)) as Hs.
  pose proof Hs as (b' & _ & W1 & W2 & W3 & W4). unfold zero_off in *.
  unfold String_toc. erewrite io_bind_Val by (by apply deref_ok). rewrite (proj2 (Z.leb_gt _ _) Hu).
  erewrite io_bind_Val by (by apply String_chars_ok).
  pose proof (new_chars_of_length (s_len s) W2) as El. pose proof (contents_length h s Hs) as Ec.
  erewrite io_bind_Val by (apply lift_run, memcpy_start; lia).
  erewrite io_bind_Val by apply alloc_run.
  set (nbuf := take (Z.to_nat (s_len s)) (contents h s) ++ drop (Z.to_nat (s_len s)) (new_chars_of junk (s_len s))).
  assert (zlen nbuf = s_len s + 2) as En by (unfold nbuf; rewrite length_app, length_drop, length_take; lia).
  destruct (alloc_ok h (s :: L) (new_buf h) nbuf (s_len s)) as (H1 & H2 & _); [done|done|cbn; lia|lia|lia|].
  rewrite Permutation_swap in H1.
  destruct (String_unlock_ok _ (mkStr (new_buf h) zero_off (s_len s) :: L) s H1) as (h2 & E2 & Ho2 & Hk2).
  erewrite io_bind_Val by exact E2.
  pose proof (fresh_unlocked h _ h2 L s nbuf (s_len s) Ho eq_refl Ho2 Hk2) as E3.
  erewrite io_bind_Val.
  2:{ erewrite io_bind_Val by (apply lift_run, wr_ok; lia). reflexivity. }
  pose proof (fresh_not_empty h _ Ho) as Hn.
  eexists _, _. split; [reflexivity|]. split.
  { apply (store_ok h2 _ _ (mkBT 1 nbuf)); [done|done|done|done|]. cbn. by rewrite length_insert. }
  split.
  { intros x Hx. rewrite lookup_insert_ne.
    - rewrite Hk2 by (by right). apply H2. by right.
    - intros E. destruct (heap_in _ _ x Ho ltac:(by right)) as (c & Ex & _).
      by rewrite <- E, new_buf_fresh in Ex. }
  split.
  - unfold contents at 1. cbn [s_buf s_len s_off]. rewrite lookup_insert_eq. cbn [bf_buf].
    rewrite drop_0, take_insert_cell. unfold nbuf.
    rewrite (firstn_all2 (contents h s)) by lia. apply take_app_length'. lia.
  - eexists. cbn [s_buf s_len s_off]. rewrite lookup_insert_eq. split; [done|]. cbn.
    apply list_lookup_insert_eq. lia.
Qed.

Lemma String_toc_ok h L s : heap_ok h (s :: L) -> zlen L + 2 < 2 ^ 16 - 2 -> s_buf s <> empty_buf ->
  exists s' h', String_toc new_buf junk s h = Ret (Val s', h') /\ heap_ok h' (s' :: L) /\ keeps L h h' /\
    (toc_fits h s = true -> contents h' s' = contents h s /\ ends_null h' s').
Proof.
  intros Ho Hr Hne. destruct (heap_in _ _ s Ho ltac:(by left)) as (b & Eb & _).
  unfold toc_fits. rewrite Eb. destruct (Z.ltb_spec 1 (bf_use b)) as [Hu|Hu].
  - destruct (toc_shared h L s b) as (s' & h' & E & Ho' & Hk & Hc); [done..|].
    by exists s', h'.
  - destruct (toc_sole h L s b) as (h' & E & Ho' & Hk & Hc); [done..|].
    exists s, h'. split; [done|]. split; [done|]. split; [done|]. rewrite orb_false_r.
    intros E2%Z.eqb_eq. by apply Hc.
Qed.

(** The C string of a text that has no null character. *)
Lemma strz_ok t l : Forall (fun c => c <> 0) t -> strz (t ++ 0 :: l) = Ret t.
Proof.
  induction 1 as [|c t Hc Ht IH]; cbn; [done|]. rewrite (proj2 (Z.eqb_neq c 0) Hc), IH. done.
Qed.
Lemma cstring_at_ok h s : in_heap h s -> ends_null h s -> Forall (fun c => c <> 0) (contents h s) ->
  cstring_at (s_buf s) (s_off s) h = Ret (Val (contents h s), h).
Proof.
  intros (b & Eb & W1 & W2 & W3 & W4) (b' & Eb' & En) Hc. rewrite Eb in Eb'. injection Eb' as <-.
  unfold cstring_at, contents, zero_off in *. rewrite Eb in Hc |- *.
  erewrite io_bind_Val by (by apply deref_ok). apply lift_run.
  set (d := drop (Z.to_nat (s_off s - 2)) (bf_buf b)) in *.
  assert (d !! Z.to_nat (s_len s) = Some 0) as Ed.
  { unfold d. rewrite lookup_drop, <- En. f_equal. lia. }
  rewrite <- (take_drop_middle d _ _ Ed) at 1. by apply strz_ok.
Qed.

Lemma String_toCString_ok h L s : heap_ok h (s :: L) -> zlen L + 2 < 2 ^ 16 - 2 -> toc_fits h s = true ->
  Forall (fun c => c <> 0) (contents h s) ->
  exists s' h', String_toCString new_buf junk s h = Ret (Val (s', contents h s), h') /\
    heap_ok h' (s' :: L) /\ keeps L h h' /\ contents h' s' = contents h s.
Proof.
  intros Ho Hr Hf Hz. pose proof (heap_in _ _ s Ho ltac:(by left)) as Hs.
  pose proof Hs as (b & Eb & W1 & W2 & W3 & W4). unfold zero_off in *.
  destruct (lookup_lt_is_Some_2 (bf_buf b) (Z.to_nat (s_off s - 2 + s_len s))) as [c Ec]; [lia|].
  unfold String_toCString. erewrite io_bind_Val.
  2:{ unfold char_at. erewrite io_bind_Val by (by apply deref_ok). apply lift_run, rd_ok; [unfold zero_off; lia|].
      rewrite <- Ec. f_equal. unfold zero_off. lia. }
  destruct (Z.eqb_spec c 0) as [->|Hc]; cbn [negb].
  - erewrite io_bind_Val by reflexivity. erewrite io_bind_Val.
    2:{ apply cstring_at_ok; [done| |done]. by exists b. }
    eexists _, _. split; [reflexivity|]. split; [done|]. split; [apply keeps_refl|done].
  - assert (s_buf s <> empty_buf) as Hne.
    { intros E. pose proof (ho_empty _ _ Ho) as He. rewrite <- E, Eb in He. cbn in He. injection He as He.
      rewrite He in Ec. apply list_lookup_singleton_Some in Ec as [_ ?]. done. }
    destruct (String_toc_ok h L s Ho Hr Hne) as (s' & h' & E & Ho' & Hk & Hok).
    destruct (Hok Hf) as [Hcont Hn]. erewrite io_bind_Val by exact E. erewrite io_bind_Val.
    2:{ apply cstring_at_ok; [by apply (heap_in h' (s' :: L)); [|left]|done|by rewrite Hcont]. }
    rewrite Hcont. by exists s', h'.
Qed.

(** *** Searching *)

Lemma memcmp_0 a b : length a = length b -> memcmp a b = 0 <-> a = b.
Proof.
  revert b. induction a as [|x a IH]; intros [|y b] El; cbn; try done.
  destruct (Z.eqb_spec x y) as [->|E].
  - rewrite IH by (injection El; done). split; [by intros ->|by intros [= ->]].
  - destruct (x <? y); split; try done; by intros [= -> ->].
Qed.

Lemma String_compare_ok h s1 s2 : in_heap h s1 -> in_heap h s2 ->
  exists r, String_compare s1 s2 h = Ret (Val r, h) /\ (r = 0 <-> contents h s1 = contents h s2).
Proof.
  intros I1 I2. pose proof (contents_length h s1 I1) as E1. pose proof (contents_length h s2 I2) as E2.
  unfold String_compare. set (n := if s_len s2 <? s_len s1 then s_len s2 else s_len s1).
  assert (n = Z.min (s_len s1) (s_len s2)) as En by (unfold n; destruct (Z.ltb_spec (s_len s2) (s_len s1)); lia).
  pose proof (chars_at_ok h s1 0 n I1 ltac:(lia) ltac:(lia) ltac:(lia)) as C1.
  pose proof (chars_at_ok h s2 0 n I2 ltac:(lia) ltac:(lia) ltac:(lia)) as C2.
  rewrite Z.add_0_r, drop_0 in C1, C2.
  erewrite io_bind_Val by exact C1. erewrite io_bind_Val by exact C2. eexists; split; [reflexivity|].
  assert (length (take (Z.to_nat n) (contents h s1)) = length (take (Z.to_nat n) (contents h s2))) as El
    by (rewrite !length_take; lia).
  destruct (Z.eqb_spec (memcmp (take (Z.to_nat n) (contents h s1)) (take (Z.to_nat n) (contents h s2))) 0)
    as [E|E]; cbn [negb].
  - apply memcmp_0 in E; [|done]. split.
    + intros Hl. rewrite !firstn_all2 in E by lia. done.
    + intros Hc. rewrite Hc in E1. lia.
  - split; [done|]. intros Hc. rewrite Hc in E. destruct E. by apply memcmp_0.
Qed.

Lemma String_indexOf_char_ok h s c pos : in_heap h s -> 0 <= pos ->
  exists r, String_indexOf_char s c pos h = Ret (Val r, h) /\
    ((r = -1 /\ forall i, pos <= i < s_len s -> contents h s !! Z.to_nat i <> Some c) \/
     (pos <= r < s_len s /\ contents h s !! Z.to_nat r = Some c /\
      forall i, pos <= i < r -> contents h s !! Z.to_nat i <> Some c)).
Proof.
  intros Hs Hp. unfold String_indexOf_char.
  match goal with |- context [scan pos (s_len s) ?p] =>
    destruct (scan_spec (fun i => if decide (contents h s !! Z.to_nat i = Some c) then Some i else None)
      pos (s_len s) p) as (r & -> & Hr) end.
  { intros i Hi. destruct (String_charAt_ok h s i Hs) as (x & -> & Ex); [lia|]. mred. cbn [fst].
    rewrite Ex. destruct (Z.eqb_spec x c) as [->|E]; case_decide; congruence. }
  mred. eexists; split; [done|]. destruct r as [i|]; cbn.
  - right. destruct Hr as (i' & Hi & Ei & Hj). case_decide; [|done]. injection Ei as ->.
    split; [done|]. split; [done|]. intros j Hj'. specialize (Hj j Hj'). by case_decide.
  - left. split; [done|]. intros j Hj'. specialize (Hr j Hj'). by case_decide.
Qed.

(** [p] occurs in [t] at [q]. *)
Definition occurs (t p : list Z) (q : Z) : Prop :=
  0 <= q /\ q + zlen p <= zlen t /\ take (length p) (drop (Z.to_nat q) t) = p.

Lemma substring_is_ok h L s str pos : heap_ok h L -> s ∈ L -> str ∈ L -> zlen L + 1 < 2 ^ 16 - 2 ->
  0 <= pos -> pos + s_len str <= s_len s ->
  exists b, substring_is s pos str h = Ret (Val b, h) /\ (b = true <-> occurs (contents h s) (contents h str) pos).
Proof.
  intros Ho Hs Hstr Hr Hp Hl. pose proof (heap_in h L s Ho Hs) as Is. pose proof (heap_in h L str Ho Hstr) as Istr.
  pose proof (contents_length h s Is) as E1. pose proof (contents_length h str Istr) as E2.
  destruct (sub_in_heap h s pos (s_len str) Is) as [Isub Csub]; [lia|lia|lia|].
  pose proof Isub as (b0 & Eb0 & W1 & W2 & W3 & W4). cbn in Eb0, W1, W2, W3, W4.
  pose proof (ho_use _ _ Ho _ _ Eb0) as Hu. pose proof (owners_in (s_buf s) s L Hs eq_refl) as Hpos.
  pose proof (owners_bound (s_buf s) L) as Hb.
  set (t := mkStr (s_buf s) (s_off s + pos) (s_len str)) in *.
  set (h1 := <[s_buf s := mkBT (bf_use b0 + 1) (bf_buf b0)]> h).
  assert (String_substring s pos (s_len str) h = Ret (Val t, h1)) as Esub.
  { unfold String_substring, String_window, String_lock. erewrite io_bind_Val.
    2:{ erewrite io_bind_Val by (by apply deref_ok). reflexivity. }
    unfold zero_off in *. rewrite !(wrap_small 16) by (unfold inw; destruct (s_buf s =? empty_buf); lia). done. }
  assert (keeps (t :: str :: L) h h1) as Hk.
  { intros x _. unfold h1. destruct (decide (s_buf s = s_buf x)) as [<-|E].
    - by rewrite lookup_insert_eq, Eb0.
    - by rewrite lookup_insert_ne by done. }
  destruct (String_compare_ok h1 t str) as (r & Er & Hr0).
  { apply (keeps_in_heap _ h h1 t Hk); [by left|done]. }
  { apply (keeps_in_heap _ h h1 str Hk); [by right; left|done]. }
  rewrite (keeps_contents _ h h1 t Hk), (keeps_contents _ h h1 str Hk), Csub in Hr0 by (repeat constructor).
  exists (r =? 0). unfold substring_is. erewrite io_bind_Val by exact Esub. erewrite io_bind_Val by exact Er.
  erewrite io_bind_Val.
  2:{ unfold String_delete, String_unlock. cbn [s_buf t].
      erewrite io_bind_Val by (apply deref_ok; unfold h1; apply lookup_insert_eq). cbn [bf_use bf_buf].
      erewrite io_bind_Val by reflexivity.
      replace (u16 (bf_use b0 + 1 - 1)) with (bf_use b0)
        by (rewrite wrap_small; [lia|]; unfold inw; destruct (s_buf s =? empty_buf); lia).
      rewrite (proj2 (Z.eqb_neq _ _)) by (destruct (s_buf s =? empty_buf); lia). cbn [andb].
      unfold h1. rewrite insert_insert_eq. replace (mkBT (bf_use b0) (bf_buf b0)) with b0 by (by destruct b0).
      rewrite insert_id by done. reflexivity. }
  split; [done|]. rewrite Z.eqb_eq, Hr0. unfold occurs.
  replace (Z.to_nat (s_len str)) with (length (contents h str)) by lia. split; [|by intros (_ & _ & ?)].
  intros E. split; [done|]. split; [lia|done].
Qed.

Lemma occurs_first t p q c : occurs t p q -> p !! 0%nat = Some c -> t !! Z.to_nat q = Some c.
Proof.
  intros (H1 & H2 & E) Hc. rewrite <- E in Hc.
  rewrite lookup_take_lt in Hc by (destruct p; [done|cbn; lia]).
  by rewrite lookup_drop, Nat.add_0_r in Hc.
Qed.

(** A pattern that occurs is found at its first place. *)
Lemma String_indexOf_ok h L s str pos q : heap_ok h L -> s ∈ L -> str ∈ L -> zlen L + 1 < 2 ^ 16 - 2 ->
  0 < s_len str -> 0 <= pos <= q -> occurs (contents h s) (contents h str) q ->
  (forall i, pos <= i < q -> ~ occurs (contents h s) (contents h str) i) ->
  String_indexOf s str pos h = Ret (Val q, h).
Proof.
  intros Ho Hs Hstr Hr Hl Hpos Hq Hmin.
  pose proof (heap_in h L s Ho Hs) as Is. pose proof (heap_in h L str Ho Hstr) as Istr.
  pose proof (contents_length h s Is) as E1. pose proof (contents_length h str Istr) as E2.
  pose proof Hq as (_ & Hq2 & _). unfold String_indexOf.
  rewrite (proj2 (Z.eqb_neq _ _)) by lia. erewrite io_bind_Val by reflexivity.
  destruct (String_charAt_ok h str 0 Istr) as (c & Ec & Hc); [lia|].
  pose proof (occurs_first _ _ _ _ Hq Hc) as Hqc.
  assert (forall fuel pos, 0 <= pos <= q -> (Z.to_nat (q - pos) < fuel)%nat ->
    (forall i, pos <= i < q -> ~ occurs (contents h s) (contents h str) i) ->
    io_iter fuel (fun pos => if 0 <=? pos then
      c ← String_charAt str 0; pos ← String_indexOf_char s c pos;
      if 0 <=? pos then b ← substring_is s pos str; mret (if b : bool then inr pos else inl (pos + 1))
      else mret (inl pos) else mret (inr (-1))) pos h = Ret (Val q, h)) as Hloop; [|apply Hloop; done || lia].
  clear pos Hpos Hmin. induction fuel as [|fuel IH]; intros pos Hpos Hf Hmin; [lia|]. cbn [io_iter].
  destruct (String_indexOf_char_ok h s c pos Is) as (r & Er & Hcase); [lia|].
  destruct Hcase as [[-> Hno]|(Hrange & Hrc & Hbefore)].
  { destruct (Hno q); [lia|done]. }
  assert (r <= q) as Hrq.
  { destruct (Z.leb_spec r q); [done|]. destruct (Hbefore q); [lia|done]. }
  destruct (substring_is_ok h L s str r Ho Hs Hstr Hr) as (b & Eb & Hb); [lia|lia|].
  erewrite io_bind_Val.
  2:{ rewrite (proj2 (Z.leb_le 0 pos)) by lia. erewrite io_bind_Val by exact Ec.
      erewrite io_bind_Val by exact Er. rewrite (proj2 (Z.leb_le 0 r)) by lia.
      erewrite io_bind_Val by exact Eb. reflexivity. }
  destruct b; [|destruct (decide (r = q)) as [->|Hne]; [by apply Hb in Hq|]].
  - assert (r = q) as ->; [|done]. destruct (decide (r = q)); [done|].
    destruct (Hmin r); [lia|]. by apply Hb.
  - apply IH; [lia|lia|]. intros i Hi. apply Hmin. lia.
Qed.

Lemma prefix_take (a t : list Z) : a `prefix_of` t <-> take (length a) t = a /\ (length a <= length t)%nat.
Proof.
  split.
  - intros [k ->]. rewrite take_app_length, length_app. split; [done|lia].
  - intros [E _]. exists (drop (length a) t). transitivity (take (length a) t ++ drop (length a) t); [by rewrite take_drop|by rewrite E].
Qed.

Lemma String_startsWith_ok h s str : in_heap h s -> in_heap h str ->
  exists b, String_startsWith s str h = Ret (Val b, h) /\ (b = true <-> contents h str `prefix_of` contents h s).
Proof.
  intros Is Istr. pose proof (contents_length h s Is) as E1. pose proof (contents_length h str Istr) as E2.
  pose proof Istr as (_ & _ & _ & W2 & _). unfold String_startsWith.
  destruct (Z.leb_spec (s_len str) (s_len s)).
  - pose proof (chars_at_ok h s 0 (s_len str) Is ltac:(lia) W2 ltac:(lia)) as C1.
    rewrite Z.add_0_r, drop_0 in C1. erewrite io_bind_Val by exact C1.
    erewrite io_bind_Val by (by apply String_chars_ok). eexists; split; [reflexivity|]. rewrite prefix_take.
    rewrite Z.eqb_eq, memcmp_0 by (rewrite length_take; lia).
    replace (Z.to_nat (s_len str)) with (length (contents h str)) by lia. split; [split; [done|lia]|by intros []].
  - eexists; split; [reflexivity|]. rewrite prefix_take. split; [done|]. intros [_ ?]. lia.
Qed.

Lemma suffix_drop (a t : list Z) :
  a `suffix_of` t <-> drop (length t - length a) t = a /\ (length a <= length t)%nat.
Proof.
  split.
  - intros [k ->]. rewrite length_app. split; [|lia].
    replace (length k + length a - length a)%nat with (length k) by lia. by rewrite drop_app_length.
  - intros [E _]. exists (take (length t - length a) t). transitivity (take (length t - length a) t ++ drop (length t - length a) t); [by rewrite take_drop|by rewrite E].
Qed.

Lemma String_endsWith_ok h s str : in_heap h s -> in_heap h str ->
  exists b, String_endsWith s str h = Ret (Val b, h) /\ (b = true <-> contents h str `suffix_of` contents h s).
Proof.
  intros Is Istr. pose proof (contents_length h s Is) as E1. pose proof (contents_length h str Istr) as E2.
  pose proof Istr as (_ & _ & _ & W2 & _). unfold String_endsWith.
  destruct (Z.leb_spec (s_len str) (s_len s)).
  - pose proof (chars_at_ok h s (s_len s - s_len str) (s_len str) Is ltac:(lia) W2 ltac:(lia)) as C1.
    rewrite Z.add_sub_assoc in C1. erewrite io_bind_Val by exact C1.
    erewrite io_bind_Val by (by apply String_chars_ok). eexists; split; [reflexivity|]. rewrite suffix_drop.
    rewrite firstn_all2 by (rewrite length_drop; lia).
    rewrite Z.eqb_eq, memcmp_0 by (rewrite length_drop; lia).
    replace (Z.to_nat (s_len s - s_len str)) with (length (contents h s) - length (contents h str))%nat by lia.
    split; [split; [done|lia]|by intros []].
  - eexists; split; [reflexivity|]. rewrite suffix_drop. split; [done|]. intros [_ ?]. lia.
Qed.

(** *** Trimming *)

Fixpoint drop_blanks (l : list Z) : list Z :=
  match l with [] => [] | c :: l' => if isblank c then drop_blanks l' else l end.
Definition trim_right (l : list Z) : list Z := rev (drop_blanks (rev l)).

Lemma drop_blanks_drop l : drop_blanks l = drop (length l - length (drop_blanks l)) l.
Proof.
  assert (length (drop_blanks l) <= length l)%nat as Hle.
  { induction l as [|c l IH]; cbn; [lia|]. destruct (isblank c); cbn; lia. }
  induction l as [|c l IH]; cbn; [done|]. destruct (isblank c) eqn:E; cbn in Hle; rewrite E in Hle.
  - assert (length (drop_blanks l) <= length l)%nat as Hl.
    { clear. induction l as [|c l IH]; cbn; [lia|]. destruct (isblank c); cbn; lia. }
    replace (S (length l) - length (drop_blanks l))%nat with (S (length l - length (drop_blanks l))) by lia.
    cbn. by apply IH.
  - cbn. by rewrite Nat.sub_diag.
Qed.
Lemma drop_blanks_len l : (length (drop_blanks l) <= length l)%nat.
Proof. induction l as [|c l IH]; cbn; [lia|]. destruct (isblank c); cbn; lia. Qed.

Lemma String_ltrim_ok h L s : heap_ok h L -> s ∈ L -> zlen L + 1 < 2 ^ 16 - 2 ->
  makes (String_ltrim s) L h (drop_blanks (contents h s)).
Proof.
  intros Ho Hs Hr. pose proof (heap_in h L s Ho Hs) as Is. pose proof (contents_length h s Is) as El.
  set (t := contents h s) in *. unfold makes, String_ltrim.
  assert (forall fuel i, 0 <= i <= s_len s -> (Z.to_nat (s_len s - i) < fuel)%nat ->
    io_iter fuel (fun i => if i <? s_len s then
      c ← String_charAt s i; mret (if isblank c then inl (i + 1) else inr i) else mret (inr i)) i h
    = Ret (Val (s_len s - zlen (drop_blanks (drop (Z.to_nat i) t))), h)) as Hloop.
  { induction fuel as [|fuel IH]; intros i Hi Hf; [lia|]. cbn [io_iter].
    destruct (Z.ltb_spec i (s_len s)) as [Hlt|Hge].
    - destruct (String_charAt_ok h s i Is) as (c & Ec & Hc); [lia|]. fold t in Hc.
      rewrite (drop_S _ _ _ Hc). erewrite io_bind_Val by (erewrite io_bind_Val by exact Ec; reflexivity).
      cbn [drop_blanks]. destruct (isblank c).
      + rewrite IH by lia. by replace (Z.to_nat (i + 1)) with (S (Z.to_nat i)) by lia.
      + unfold mret, io_ret. do 3 f_equal. cbn [length]. rewrite length_drop. lia.
    - erewrite io_bind_Val by reflexivity. rewrite drop_ge by lia. unfold mret, io_ret.
      do 3 f_equal. cbn. lia. }
  pose proof (drop_blanks_len t) as Hle.
  erewrite io_bind_Val by (apply Hloop; lia). rewrite drop_0.
  pose proof (String_substring_from_ok h L s (s_len s - zlen (drop_blanks t)) Ho Hs Hr ltac:(lia)) as Hm.
  fold t in Hm. replace (Z.to_nat (s_len s - zlen (drop_blanks t)))
    with (length t - length (drop_blanks t))%nat in Hm by lia.
  by rewrite <- drop_blanks_drop in Hm.
Qed.

Lemma trim_right_take l : take (length (trim_right l)) l = trim_right l.
Proof.
  unfold trim_right. pose proof (drop_blanks_drop (rev l)) as E. pose proof (drop_blanks_len (rev l)) as Hle.
  set (d := drop_blanks (rev l)) in *. rewrite length_rev in *.
  rewrite E at 2. rewrite skipn_rev, rev_involutive. f_equal. lia.
Qed.

Lemma trim_right_last l c : trim_right (l ++ [c]) = if isblank c then trim_right l else l ++ [c].
Proof.
  unfold trim_right. rewrite rev_app_distr. cbn. destruct (isblank c); [done|].
  cbn. by rewrite rev_involutive.
Qed.

Lemma String_rtrim_ok h L s : heap_ok h L -> s ∈ L -> zlen L + 1 < 2 ^ 16 - 2 ->
  makes (String_rtrim s) L h (trim_right (contents h s)).
Proof.
  intros Ho Hs Hr. pose proof (heap_in h L s Ho Hs) as Is. pose proof (contents_length h s Is) as El.
  set (t := contents h s) in *. unfold makes, String_rtrim.
  assert (forall fuel i, -1 <= i < s_len s -> (Z.to_nat (i + 1) < fuel)%nat ->
    io_iter fuel (fun i => if 0 <=? i then
      c ← String_charAt s i; mret (if isblank c then inl (i - 1) else inr i) else mret (inr i)) i h
    = Ret (Val (zlen (trim_right (take (Z.to_nat (i + 1)) t)) - 1), h)) as Hloop.
  { induction fuel as [|fuel IH]; intros i Hi Hf; [lia|]. cbn [io_iter].
    destruct (Z.leb_spec 0 i) as [Hge|Hlt].
    - destruct (String_charAt_ok h s i Is) as (c & Ec & Hc); [lia|]. fold t in Hc.
      replace (Z.to_nat (i + 1)) with (S (Z.to_nat i)) by lia. rewrite (take_S_r _ _ _ Hc), trim_right_last.
      erewrite io_bind_Val by (erewrite io_bind_Val by exact Ec; reflexivity). destruct (isblank c).
      + rewrite IH by lia. by replace (i - 1 + 1) with i by lia.
      + unfold mret, io_ret. do 3 f_equal. rewrite length_app, length_take. cbn. lia.
    - erewrite io_bind_Val by reflexivity. assert (i = -1) as -> by lia. done. }
  pose proof Is as (_ & _ & _ & W2 & _).
  erewrite io_bind_Val by (apply Hloop; lia).
  replace (s_len s - 1 + 1) with (s_len s) by lia. rewrite (firstn_all2 t) by lia.
  pose proof (f_equal length (trim_right_take t)) as Hle. rewrite length_take in Hle.
  pose proof (String_substring_ok h L s 0 (zlen (trim_right t)) Ho Hs Hr ltac:(lia) ltac:(lia) ltac:(lia)) as Hm.
  fold t in Hm. rewrite drop_0, Nat2Z.id, trim_right_take in Hm.
  by replace (zlen (trim_right t) - 1 + 1) with (zlen (trim_right t)) by lia.
Qed.

Lemma String_trim_ok h L s : heap_ok h L -> s ∈ L -> zlen L + 2 < 2 ^ 16 - 2 ->
  makes (String_trim s) L h (trim_right (drop_blanks (contents h s))).
Proof.
  intros Ho Hs Hr. unfold makes, String_trim.
  destruct (String_ltrim_ok h L s Ho Hs) as (t & h1 & E1 & Ho1 & K1 & C1); [lia|].
  destruct (String_rtrim_ok h1 (t :: L) t Ho1) as (r & h2 & E2 & Ho2 & K2 & C2); [by left|cbn; lia|].
  rewrite Permutation_swap in Ho2.
  destruct (String_delete_ok h2 (r :: L) t Ho2) as (h3 & E3 & Ho3 & K3).
  erewrite io_bind_Val by exact E1. erewrite io_bind_Val by exact E2. erewrite io_bind_Val by exact E3.
  exists r, h3. split; [done|]. split; [done|]. split.
  - intros x Hx. rewrite K3 by (by right). rewrite K2 by (by right). by apply K1.
  - rewrite (keeps_contents (r :: L) h2 h3) by (done || by left). by rewrite C2, C1.
Qed.

(** *** Building strings *)

Definition sbuf_holds (o : StringBuffer) (t : list Z) : Prop := bos_sent (o_strm o) ([0; 0] ++ t).

Lemma StringBuffer_make_ok c i : 0 <= c -> 0 <= i ->
  exists o, StringBuffer_make c i = Ret o /\ sbuf_holds o [].
Proof.
  intros Hc Hi. unfold StringBuffer_make, StringBuffer_init.
  destruct (BlockOutStream_make_ok c i Hc Hi) as (s & -> & Hs). mred.
  destruct (write_law s [] [0; 0] Hs) as (r & s' & E & _ & Hs'). cbn in E. rewrite E. mred.
  by eexists.
Qed.

Lemma StringBuffer_add_ok h o t s : sbuf_holds o t -> in_heap h s ->
  exists o', StringBuffer_add o s h = Ret (Val o', h) /\ sbuf_holds o' (t ++ contents h s).
Proof.
  intros Ho Hs. destruct (prints_string bos_sent (contents h s) o ([0; 0] ++ t) Ho)
    as ([] & o' & E & Ho').
  exists o'. unfold StringBuffer_add. erewrite io_bind_Val by (by apply String_chars_ok).
  erewrite io_bind_Val by (unfold run_out; rewrite E; reflexivity). split; [done|].
  unfold sbuf_holds. by rewrite app_assoc.
Qed.

Lemma StringBuffer_toString_ok h L o t : heap_ok h L -> zlen L + 1 < 2 ^ 16 - 2 -> sbuf_holds o t ->
  zlen t < 2 ^ 16 - 2 -> makes (r ← StringBuffer_toString new_buf o; mret r.1) L h t.
Proof.
  intros Hh Hr Ho Ht. unfold StringBuffer_toString, StringBuffer_length, sb_size.
  pose proof Ho as (_ & _ & Esz & _). unfold sbuf_holds in Ho.
  destruct (writeByte_law (o_strm o) _ 0 Ho) as (r & s' & E & _ & Hs').
  change (out_writeByte (o_strm o) 0) with (BlockOutStream_writeByte (o_strm o) 0) in E.
  destruct Hs' as (buf & Eb & _ & El & _). rewrite !length_app in El. cbn [length app] in El.
  destruct buf as [|lo [|hi b]]; cbn in El; [done|by destruct (length t)|].
  injection El as -> -> El. rewrite Esz. cbn [length app].
  replace (Z.of_nat (S (S (length t))) - 2) with (zlen t) by lia.
  destruct (fresh_window h L b (zlen t)) as (s & h' & Em & H1 & H2 & H3); [done|done| |done|].
  { apply (f_equal length) in El. rewrite length_take, length_app in El. cbn in El. lia. }
  erewrite io_bind_Val in Em by apply alloc_run.
  exists s, h'. split; [|split; [done|split; [done|]]].
  - erewrite io_bind_Val.
    2:{ erewrite io_bind_Val by (apply lift_run; exact E). unfold DynBlock_detach. cbn [snd]. rewrite Eb.
        erewrite io_bind_Val by (apply lift_run; reflexivity).
        erewrite io_bind_Val by (apply lift_run; reflexivity). change (0 + 256 * 0) with 0.
        cbn [drop]. erewrite io_bind_Val by apply alloc_run. erewrite io_bind_Val by exact Em. reflexivity. }
    done.
  - rewrite H3, Nat2Z.id. apply (f_equal (take (length t))) in El.
    rewrite take_take, take_app_length in El. by replace (length t `min` (length t + 1))%nat with (length t) in El by lia.
Qed.

Lemma add_times_ok n h o t s : sbuf_holds o t -> in_heap h s ->
  exists o', add_times n o s h = Ret (Val o', h) /\ sbuf_holds o' (t ++ concat (replicate n (contents h s))).
Proof.
  intros Ho Hs. revert o t Ho. induction n as [|n IH]; intros o t Ho; cbn [add_times replicate].
  - exists o. by rewrite app_nil_r.
  - destruct (StringBuffer_add_ok h o t s Ho Hs) as (o1 & E1 & H1).
    destruct (IH o1 _ H1) as (o2 & E2 & H2). exists o2. erewrite io_bind_Val by exact E1.
    split; [done|]. by rewrite <- app_assoc in H2.
Qed.
Lemma length_repeat n (c : list Z) : zlen (concat (replicate n c)) = Z.of_nat n * zlen c.
Proof. induction n as [|n IH]; [done|]. cbn [replicate concat]. rewrite length_app. lia. Qed.

Lemma String_make_ok h L s n : heap_ok h L -> s ∈ L -> zlen L + 1 < 2 ^ 16 - 2 -> 0 <= n ->
  n * s_len s < 2 ^ 16 - 2 ->
  makes (String_make new_buf s n) L h (concat (replicate (Z.to_nat n) (contents h s))).
Proof.
  intros Ho Hs Hr Hn Hl. pose proof (heap_in h L s Ho Hs) as Is. pose proof (contents_length h s Is) as El.
  unfold makes, String_make. destruct (StringBuffer_make_ok 64 32) as (o & Eo & H0); [done|done|].
  erewrite io_bind_Val by (by apply lift_run).
  destruct (add_times_ok (Z.to_nat n) h o [] s H0 Is) as (o1 & E1 & H1).
  erewrite io_bind_Val by exact E1. apply StringBuffer_toString_ok; [done|done|done|].
  rewrite length_repeat, El. lia.
Qed.
End Heap.

(** ** Programs on strings *)

(** Commands on the strings that exist, newest first. *)
Inductive str_op :=
  | SNew (t : list Z) | SClone (i : nat) | SSub (i : nat) (off len : Z) | SSubFrom (i : nat) (off : Z)
  | SConcat (i j : nat) | STrim (i : nat) | SRepeat (i : nat) (n : Z)
  | SAssign (i j : nat) | SDelete (i : nat) | SToC (i : nat).

Definition str_state : Type := heap_t * list String.

Section Program.
Variable new_buf : heap_t -> Z.
Variable junk : Z.

Definition with_str (st : str_state) (i : nat) (k : String -> outcome str_state) : outcome str_state :=
  match st.2 !! i with Some s => k s | None => Crash Undefined end.
(** A command that makes a string. *)
Definition push_str (st : str_state) (m : IO heap_t String) : outcome str_state :=
  r ← m st.1;
  match r.1 with Val s => Ret (r.2, s :: st.2) | Throw => Crash Undefined end.
(** A command that changes the string [i]. *)
Definition change_str (st : str_state) (i : nat) (m : IO heap_t String) : outcome str_state :=
  r ← m st.1;
  match r.1 with Val s => Ret (r.2, <[i := s]> st.2) | Throw => Crash Undefined end.

Definition str_exec (st : str_state) (op : str_op) : outcome str_state :=
  match op with
  | SNew t => push_str st (String_copy new_buf junk t)
  | SClone i => with_str st i (fun s => push_str st (String_clone s))
  | SSub i off len => with_str st i (fun s => push_str st (String_substring s off len))
  | SSubFrom i off => with_str st i (fun s => push_str st (String_substring_from s off))
  | SConcat i j => with_str st i (fun s => with_str st j (fun s' => push_str st (String_concat new_buf junk s s')))
  | STrim i => with_str st i (fun s => push_str st (String_trim s))
  | SRepeat i n => with_str st i (fun s => push_str st (String_make new_buf s n))
  | SAssign i j => with_str st i (fun s => with_str st j (fun s' => change_str st i (String_assign s s')))
  | SDelete i => with_str st i (fun s =>
      r ← String_delete s st.1;
      match r.1 with Val _ => Ret (r.2, delete i st.2) | Throw => Crash Undefined end)
  | SToC i => with_str st i (fun s => change_str st i (r ← String_toCString new_buf junk s; mret r.1))
  end.

(** What the commands must satisfy: positions inside the string, lengths on 16
    bits, and few enough strings for the counters. *)
Definition str_valid (st : str_state) (op : str_op) : bool :=
  (zlen st.2 + 2 <? 2 ^ 16 - 2) &&
  match op with
  | SNew t => zlen t <? 2 ^ 16 - 2
  | SClone i | STrim i | SDelete i => bool_decide (is_Some (st.2 !! i))
  | SSub i off len => match st.2 !! i with
      | Some s => (0 <=? off) && (0 <=? len) && (off + len <=? s_len s) | None => false end
  | SSubFrom i off => match st.2 !! i with Some s => (0 <=? off) && (off <=? s_len s) | None => false end
  | SConcat i j => match st.2 !! i, st.2 !! j with
      | Some s, Some s' => s_len s + s_len s' <? 2 ^ 16 - 2 | _, _ => false end
  | SRepeat i n => match st.2 !! i with
      | Some s => (0 <=? n) && (n * s_len s <? 2 ^ 16 - 2) | None => false end
  | SAssign i j => bool_decide (is_Some (st.2 !! i)) && bool_decide (is_Some (st.2 !! j))
  | SToC i => match st.2 !! i with
      | Some s => toc_fits st.1 s && forallb (fun c => negb (c =? 0)) (contents st.1 s) | None => false end
  end.

(** The reference: strings as values. *)
Definition texts (st : str_state) : list (list Z) := contents st.1 <$> st.2.
Definition text_op (T : list (list Z)) (op : str_op) : list (list Z) :=
  let get i := default [] (T !! i) in
  match op with
  | SNew t => t :: T
  | SClone i => get i :: T
  | SSub i off len => take (Z.to_nat len) (drop (Z.to_nat off) (get i)) :: T
  | SSubFrom i off => drop (Z.to_nat off) (get i) :: T
  | SConcat i j => (get i ++ get j) :: T
  | STrim i => trim_right (drop_blanks (get i)) :: T
  | SRepeat i n => concat (replicate (Z.to_nat n) (get i)) :: T
  | SAssign i j => <[i := get j]> T
  | SDelete i => delete i T
  | SToC i => T
  end.

Inductive str_reachable : str_state -> Prop :=
  | str_start : str_reachable (heap_start, [])
  | str_step st op st' : str_reachable st -> str_valid st op = true -> str_exec st op = Ret st' ->
      str_reachable st'.
End Program.

Section ProgramOk.
Variable new_buf : heap_t -> Z.
Variable junk : Z.
Hypothesis new_buf_fresh : forall h, h !! new_buf h = None.

Definition str_ok (st : str_state) : Prop := heap_ok st.1 st.2.

Lemma start_ok : str_ok (heap_start, []).
Proof.
  unfold heap_start. split; cbn.
  - intros a b [<- <-]%lookup_singleton_Some. done.
  - by intros a b [<- <-]%lookup_singleton_Some.
  - reflexivity.
  - constructor.
  - lia.
Qed.

Lemma texts_keeps h h' (L : list String) : keeps L h h' -> contents h' <$> L = contents h <$> L.
Proof.
  intros Hk. apply list_fmap_ext. intros i s Hs. apply (keeps_contents L); [done|].
  by eapply list_elem_of_lookup_2.
Qed.

Lemma str_push_ok st m t : makes m st.2 st.1 t ->
  exists st', push_str st m = Ret st' /\ str_ok st' /\ texts st' = t :: texts st.
Proof.
  destruct st as [h L]. intros (s & h' & E & Ho & Hk & Hc). unfold push_str. cbn [fst snd] in *.
  rewrite E. mred. cbn. eexists; split; [done|]. split; [done|]. unfold texts. cbn.
  by rewrite Hc, (texts_keeps h h' L Hk).
Qed.

Lemma change_ok h L i s m : L !! i = Some s -> (exists s' h', m h = Ret (Val s', h') /\
    heap_ok h' (s' :: delete i L) /\ keeps (delete i L) h h') ->
  exists s' h', change_str (h, L) i m = Ret (h', <[i := s']> L) /\ m h = Ret (Val s', h') /\
    str_ok (h', <[i := s']> L) /\ texts (h', <[i := s']> L) = <[i := contents h' s']> (texts (h, L)).
Proof.
  intros Hs (s' & h' & E & Ho & Hk). unfold change_str. cbn [fst snd]. rewrite E. mred. cbn.
  exists s', h'. split; [done|]. split; [done|].
  apply list_elem_of_split_length in Hs as (l1 & l2 & -> & ->).
  rewrite insert_app_r_alt, Nat.sub_diag by done. cbn.
  replace (delete (length l1) (l1 ++ s :: l2)) with (l1 ++ l2) in * by (by rewrite delete_middle).
  split.
  - unfold str_ok. cbn. by rewrite <- Permutation_middle.
  - unfold texts. cbn. rewrite !fmap_app, !fmap_cons, insert_app_r_alt by (by rewrite length_fmap).
    rewrite length_fmap, Nat.sub_diag. cbn.
    pose proof (texts_keeps h h' (l1 ++ l2) Hk) as E2. rewrite !fmap_app in E2.
    apply app_inj_1 in E2 as [-> ->]; [done|by rewrite !length_fmap].
Qed.

Lemma delete_perm (L : list String) i s : L !! i = Some s -> L ≡ₚ s :: delete i L.
Proof.
  intros (l1 & l2 & -> & ->)%list_elem_of_split_length. rewrite delete_middle.
  by rewrite <- Permutation_middle.
Qed.

Lemma get_text h L i s : L !! i = Some s -> default [] (texts (h, L) !! i) = contents h s.
Proof. intros Hs. unfold texts. cbn. by rewrite list_lookup_fmap, Hs. Qed.

Lemma str_exec_ok st op : str_ok st -> str_valid st op = true ->
  exists st', str_exec new_buf junk st op = Ret st' /\ str_ok st' /\ texts st' = text_op (texts st) op.
Proof.
  destruct st as [h L]. unfold str_ok at 1. cbn [fst snd]. intros Ho [Hr%Z.ltb_lt Hv]%andb_true_iff.
  cbn [fst snd] in *. assert (zlen L + 1 < 2 ^ 16 - 2) as Hr1 by lia.
  destruct op as [t|i|i off len|i off|i j|i|i n|i j|i|i]; cbn [str_exec text_op]; unfold with_str; cbn [fst snd].
  - apply str_push_ok, String_copy_ok; [done|done|done|lia].
  - apply bool_decide_eq_true in Hv as [s Hs]. rewrite Hs, (get_text h L i s Hs).
    apply str_push_ok, String_clone_ok; [done| |done]. by eapply list_elem_of_lookup_2.
  - destruct (L !! i) as [s|] eqn:Hs; [|done]. rewrite (get_text h L i s Hs).
    apply andb_true_iff in Hv as [[H1 H2]%andb_true_iff H3].
    apply str_push_ok, String_substring_ok; [done| |done|lia|lia|lia]. by eapply list_elem_of_lookup_2.
  - destruct (L !! i) as [s|] eqn:Hs; [|done]. rewrite (get_text h L i s Hs).
    apply str_push_ok, String_substring_from_ok; [done| |done|lia]. by eapply list_elem_of_lookup_2.
  - destruct (L !! i) as [s|] eqn:Hs; [|done]. destruct (L !! j) as [s'|] eqn:Hs'; [|done].
    rewrite (get_text h L i s Hs), (get_text h L j s' Hs').
    apply str_push_ok, String_concat_ok; [done|done| | |done|lia]; by eapply list_elem_of_lookup_2.
  - apply bool_decide_eq_true in Hv as [s Hs]. rewrite Hs, (get_text h L i s Hs).
    apply str_push_ok, String_trim_ok; [done| |done]. by eapply list_elem_of_lookup_2.
  - destruct (L !! i) as [s|] eqn:Hs; [|done]. rewrite (get_text h L i s Hs).
    apply str_push_ok, String_make_ok; [done|done| |done|lia|lia]. by eapply list_elem_of_lookup_2.
  - apply andb_true_iff in Hv as [[s Hs]%bool_decide_eq_true [s' Hs']%bool_decide_eq_true].
    rewrite Hs, Hs', (get_text h L j s' Hs'). rewrite (delete_perm L i s Hs) in Ho.
    assert (s' ∈ s :: delete i L) as Hin.
    { rewrite <- (delete_perm L i s Hs). by eapply list_elem_of_lookup_2. }
    destruct (String_assign_ok h (delete i L) s s' Ho Hin) as (h' & E & Ho' & Hk & Hc).
    { rewrite (Permutation_length (delete_perm L i s Hs)) in Hr. cbn in Hr. lia. }
    destruct (change_ok h L i s (String_assign s s') Hs) as (s2 & h2 & E2 & E3 & Ho2 & Ht); [by exists s', h'|].
    rewrite E in E3. injection E3 as <- <-. rewrite E2. eexists; split; [done|].
    split; [done|]. by rewrite Ht, Hc.
  - apply bool_decide_eq_true in Hv as [s Hs]. rewrite Hs. rewrite (delete_perm L i s Hs) in Ho.
    destruct (String_delete_ok h (delete i L) s Ho) as (h' & -> & Ho' & Hk). mred. cbn.
    eexists; split; [done|]. split; [done|]. unfold texts. cbn.
    by rewrite (texts_keeps h h' _ Hk), list_fmap_delete.
  - destruct (L !! i) as [s|] eqn:Hs; [|done]. apply andb_true_iff in Hv as [Hf Hz].
    rewrite (delete_perm L i s Hs) in Ho.
    destruct (String_toCString_ok new_buf junk new_buf_fresh h (delete i L) s Ho) as (s' & h' & E & Ho' & Hk & Hc).
    { rewrite (Permutation_length (delete_perm L i s Hs)) in Hr. cbn in Hr. lia. }
    { done. }
    { apply list.Forall_forall. intros c Hc.
      rewrite forallb_forall in Hz. specialize (Hz c ltac:(by apply list_elem_of_In)). by destruct (Z.eqb_spec c 0). }
    assert ((r ← String_toCString new_buf junk s; mret r.1) h = Ret (Val s', h')) as E1
      by (erewrite io_bind_Val by exact E; done).
    destruct (change_ok h L i s (r ← String_toCString new_buf junk s; mret r.1) Hs)
      as (s2 & h2 & E2 & E3 & Ho2 & Ht); [by exists s', h'|].
    rewrite E1 in E3. injection E3 as <- <-. rewrite E2. eexists; split; [done|].
    split; [done|]. rewrite Ht, Hc. apply list_insert_id. unfold texts. cbn. by rewrite list_lookup_fmap, Hs.
Qed.

Lemma reachable_ok st : str_reachable new_buf junk st -> str_ok st.
Proof.
  induction 1 as [|st op st' _ IH Hv E]; [apply start_ok|].
  destruct (str_exec_ok st op IH Hv) as (st2 & E2 & Ho & _). rewrite E in E2. by injection E2 as ->.
Qed.
End ProgramOk.

(** [C2] Strings that share their buffers are values: whatever the sequence of
    creations, copies, substrings, concatenations, trims, repetitions,
    assignments, conversions to C strings and destructions that a program does,
    each command runs without touching freed memory or memory out of a buffer,
    every buffer counts the strings that use it and lives exactly as long as
    one does (no leak, no double free), and each string has the text that a
    value would have.  The limits are those of the 16-bit fields, and a C
    string must be taken of a string whose text has no null character and that
    is shared or at the start of its buffer. *)
Theorem String_programs_safe (new_buf : heap_t -> Z) (junk : Z) st :
  (forall h, h !! new_buf h = None) -> str_reachable new_buf junk st ->
  heap_ok st.1 st.2 /\
  (st.2 = [] -> forall a b, st.1 !! a = Some b -> a = empty_buf) /\
  forall op, str_valid st op = true -> exists st',
    str_exec new_buf junk st op = Ret st' /\ texts st' = text_op (texts st) op.
Proof.
  intros Hn Hr. pose proof (reachable_ok new_buf junk Hn st Hr) as Ho. split; [exact Ho|]. split.
  - intros E a b Eb. destruct (decide (a = empty_buf)) as [|Ha]; [done|].
    pose proof (ho_live _ _ Ho a b Eb Ha) as Hl. by rewrite E in Hl.
  - intros op Hv. destruct (str_exec_ok new_buf junk Hn st op Ho Hv) as (st' & E & _ & Et).
    by exists st'.
Qed.

Definition next_buf (h : heap_t) : Z := fresh (dom h : gset Z).
Lemma next_buf_fresh h : h !! next_buf h = None.
Proof. apply not_elem_of_dom, (is_fresh (dom h : gset Z)). Qed.

Fixpoint str_run (st : str_state) (ops : list str_op) : outcome str_state :=
  match ops with
  | [] => Ret st
  | op :: ops => if str_valid st op then st ← str_exec next_buf 0 st op; str_run st ops else Crash Undefined
  end.
Lemma str_run_reachable ops st st' : str_reachable next_buf 0 st -> str_run st ops = Ret st' ->
  str_reachable next_buf 0 st'.
Proof.
  revert st. induction ops as [|op ops IH]; intros st Hst E; cbn in E; [by injection E as <-|].
  destruct (str_valid st op) eqn:Hv; [|done]. apply bind_Ret_inv in E as (st1 & E1 & E).
  apply (IH st1); [|done]. by eapply str_step.
Qed.

Definition str_example : list str_op :=
  [SNew (text " abc "); STrim 0; SConcat 0 1; SSub 0 1 3; SDelete 2; SToC 0; SAssign 1 0].
Lemma String_programs_safe_witness : exists st, str_run (heap_start, []) str_example = Ret st /\
  texts st = [text "bc "; text "bc "; text " abc "] /\
  exists st', str_exec next_buf 0 st (SDelete 2) = Ret st' /\ texts st' = [text "bc "; text "bc "].
Proof.
  destruct (str_run (heap_start, []) str_example) as [st|] eqn:E; [|by vm_compute in E].
  exists st. split; [done|].
  destruct (String_programs_safe next_buf 0 st next_buf_fresh
    (str_run_reachable _ _ _ (str_start _ _) E)) as (_ & _ & H).
  assert (texts st = [text "bc "; text "bc "; text " abc "] /\ str_valid st (SDelete 2) = true) as [Et Hv].
  { vm_compute in E. injection E as <-. by vm_compute. }
  split; [done|]. destruct (H (SDelete 2) Hv) as (st' & E' & Et'). exists st'. split; [done|].
  by rewrite Et', Et.
Defined.

(** The tests and searches on strings are those on their texts: comparison
    to zero is equality, [startsWith] and [endsWith] are the prefix and suffix
    relations, a character is found at its first place from the position, and
    so is a pattern that occurs; none of them changes the heap. *)
Theorem String_text_functions h L s str : heap_ok h L -> s ∈ L -> str ∈ L -> zlen L + 1 < 2 ^ 16 - 2 ->
  (exists r, String_compare s str h = Ret (Val r, h) /\ (r = 0 <-> contents h s = contents h str)) /\
  (exists b, String_startsWith s str h = Ret (Val b, h) /\
     (b = true <-> contents h str `prefix_of` contents h s)) /\
  (exists b, String_endsWith s str h = Ret (Val b, h) /\
     (b = true <-> contents h str `suffix_of` contents h s)) /\
  (forall c pos, 0 <= pos -> exists r, String_indexOf_char s c pos h = Ret (Val r, h) /\
     ((r = -1 /\ forall i, pos <= i < s_len s -> contents h s !! Z.to_nat i <> Some c) \/
      (pos <= r < s_len s /\ contents h s !! Z.to_nat r = Some c /\
       forall i, pos <= i < r -> contents h s !! Z.to_nat i <> Some c))) /\
  (forall pos q, 0 < s_len str -> 0 <= pos <= q -> occurs (contents h s) (contents h str) q ->
     (forall i, pos <= i < q -> ~ occurs (contents h s) (contents h str) i) ->
     String_indexOf s str pos h = Ret (Val q, h)).
Proof.
  intros Ho Hs Hstr Hr. pose proof (heap_in h L s Ho Hs) as Is. pose proof (heap_in h L str Ho Hstr) as Istr.
  split; [by apply String_compare_ok|]. split; [by apply String_startsWith_ok|].
  split; [by apply String_endsWith_ok|]. split.
  - intros c pos. by apply String_indexOf_char_ok.
  - intros pos q. by apply (String_indexOf_ok h L).
Qed.

Lemma String_text_functions_witness : exists h s p,
  str_run (heap_start, []) [SNew (text "abcabd"); SNew (text "abd")] = Ret (h, [p; s]) /\
  String_indexOf s p 0 h = Ret (Val 3, h).
Proof.
  destruct (str_run (heap_start, []) [SNew (text "abcabd"); SNew (text "abd")])
    as [[h L]|] eqn:E; [|by vm_compute in E].
  pose proof (reachable_ok next_buf 0 next_buf_fresh _ (str_run_reachable _ _ _ (str_start _ _) E)) as Ho.
  vm_compute in E. injection E as <- <-. eexists _, _, _. split; [reflexivity|].
  destruct (String_text_functions _ _ (mkStr 1 2 6) (mkStr 2 2 3) Ho) as (_ & _ & _ & _ & H);
    [by right; left|by left|done|].
  apply H; [done|done|by vm_compute|]. intros i Hi. assert (i = 0 \/ i = 1 \/ i = 2) as Hc by lia.
  by destruct Hc as [-> | [-> | ->]]; intros (_ & _ & Hc).
Defined.

(** *** What goes wrong *)

(** The C string of a substring that is the last one of its buffer: the null
    character is written at the length of the string from the start of the
    buffer, in the middle of the text. *)
Example toc_corrupts_substring :
  exists st, str_run (heap_start, []) [SNew (text "abcd"); SSub 0 1 2; SDelete 1] = Ret st /\
    texts st = [text "bc"] /\
    (st' ← change_str st 0 (r ← String_toCString next_buf 0 (mkStr 1 3 2); mret r.1); Ret (texts st'))
    = Ret [[98; 0]].
Proof. eexists. split; [reflexivity|]. by vm_compute. Qed.

(** The counter of a buffer wraps: with 65537 strings, the destruction of one
    frees the buffer of the others. *)
Example use_counter_wraps :
  let s := mkStr 1 2 1 in
  (r ← (String_clone s ;; String_clone s ;; String_delete s) {[ 1 := mkBT 65535 [97; 0; 0] ]};
   Ret (r.2 !! 1)) = Ret None.
Proof. by vm_compute. Qed.

(** A search compares past the end of a substring, and of the block. *)
Example indexOf_past_end : exists h, 
  str_run (heap_start, []) [SNew (text "abcd"); SSub 0 0 2; SNew (text "bc"); SNew (text "bcdefg")]
    = Ret (h, [mkStr 3 2 6; mkStr 2 2 2; mkStr 1 2 2; mkStr 1 2 4]) /\
  String_indexOf (mkStr 1 2 2) (mkStr 2 2 2) 0 h = Ret (Val 1, h) /\
  String_indexOf (mkStr 1 2 4) (mkStr 3 2 6) 0 h = Crash OutOfBounds.
Proof. eexists. split; [reflexivity|]. by vm_compute. Qed.

(** A C string is less than the same string. *)
Example cstring_lt_itself : exists h,
  str_run (heap_start, []) [SNew (text "a")] = Ret (h, [mkStr 1 2 1]) /\
  cstring_lt (text "a") (mkStr 1 2 1) h = Ret (Val true, h).
Proof. eexists. split; [reflexivity|]. by vm_compute. Qed.
