(* ===== verification/Alloc.v ===== *)
(** * Allocators

    [StackAllocator] (alloc_StackAllocator.cpp, alloc/StackAllocator.h): chunks
    got from [new], in which blocks are allocated upwards, with marks to release
    to. [BlockAllocator] (alloc/BlockAllocator.h): blocks of one size over a stack
    allocator, the freed ones chained through their first word.
    [AbstractBlockAllocatorWithGC] (alloc_BlockAllocatorWithGC.cpp): the same with
    a mark and sweep collection. [ListGC] (alloc_ListGC.cpp): blocks chained
    together, the mark being the low bit of the chain.

    Addresses are integers. What [operator new] returns is given by [new_block],
    from the blocks the allocator owns and the size, with the promise of the
    language as law [HeapLaws]; [None] is [std::bad_alloc]. The function
    [collect()] of a client of a collector is an arbitrary program of calls to
    [mark()], whose results it may test: type [collector]. *)

From stdpp Require Import gmap.
From S2P Require Import Prelude BitVec.
#[local] Open Scope Z_scope.

(** ** The heap of the language *)

(** The blocks [(address, size)] share no byte. *)
Definition disj (a b : Z * Z) : Prop := a.1 + a.2 <= b.1 \/ b.1 + b.2 <= a.1.
Abbreviation separate := (ForallOrdPairs disj).

Class Heap := new_block : list (Z * Z) -> Z -> option Z.
Class HeapLaws `{Heap} : Prop := {
  new_in_space own n a : new_block own n = Some a -> 0 < n -> 0 < a /\ a + n <= 2 ^ 64;
  new_even own n a : new_block own n = Some a -> Z.even a = true;
  new_fresh own n a : new_block own n = Some a -> Forall (disj (a, n)) own }.

#[export] Instance disj_sym : Symmetric disj.
Proof. intros a b [H|H]; [right|left]; done. Qed.

Lemma separate_perm l k : l ≡ₚ k -> separate l -> separate k.
Proof.
  induction 1 as [|x l k P IH|x y l|l k m _ IH1 _ IH2]; intros S; [constructor| | |by auto].
  - inversion S; subst. constructor; [by rewrite <- P|by apply IH].
  - inversion S as [|? ? F S']; subst. inversion S' as [|? ? F' S'']; subst.
    apply Forall_cons in F as [D F]. constructor; [|by constructor].
    constructor; [by symmetry|done].
Qed.
#[export] Instance separate_proper : Proper (Permutation ==> iff) separate.
Proof. intros l k P. split; apply separate_perm; [done|by symmetry]. Qed.
Lemma separate_app_l l k : separate (l ++ k) -> separate l.
Proof.
  induction l as [|x l IH]; cbn; intros S; [constructor|]. inversion S as [|? ? F S']; subst.
  apply Forall_app in F as [F _]. constructor; [done|by apply IH].
Qed.
Lemma separate_filter (P : Z * Z -> Prop) `{!forall b, Decision (P b)} l :
  separate l -> separate (filter P l).
Proof.
  induction 1 as [|x l F S IH]; [constructor|]. rewrite filter_cons. case_decide; [|done].
  constructor; [|done]. rewrite list.Forall_forall in *. intros y Hy.
  apply list_elem_of_filter in Hy. naive_solver.
Qed.

(** A chain of blocks linked by the words [nx], ended by the null pointer. *)
Abbreviation links := (gmap Z Z).
Fixpoint chain (nx : links) (p : Z) (l : list Z) : Prop :=
  match l with
  | [] => p = 0
  | x :: l => p = x /\ x <> 0 /\ exists q, nx !! x = Some q /\ chain nx q l
  end.
Lemma chain_insert nx x q p l : x ∉ l -> chain nx p l -> chain (<[x:=q]> nx) p l.
Proof.
  revert p. induction l as [|y l IH]; intros p Hx; [done|]. cbn. apply not_elem_of_cons in Hx as [Hn Hx].
  intros (-> & H0 & r & Hr & Hl). split_and!; [done..|]. exists r.
  rewrite lookup_insert_ne by done. eauto.
Qed.
Lemma chain_cons nx x p l :
  x <> 0 -> x ∉ l -> chain nx p l -> chain (<[x:=p]> nx) x (x :: l).
Proof.
  intros H0 Hx Hl. cbn. split_and!; [done..|]. exists p. rewrite lookup_insert_eq.
  split; [done|]. by apply chain_insert.
Qed.

(** A read through a pointer to a link. *)
Definition read_link (nx : links) (p : Z) : outcome Z :=
  match nx !! p with Some q => Ret q | None => Crash OutOfBounds end.

(** ** StackAllocator *)

(* src/include/elm/alloc/StackAllocator.h:77-79 StackAllocator *)
Record StackAllocator := mkSA { sa_cur : list Z; sa_max : Z; sa_top : Z; sa_size : Z }.

(** The blocks of the heap it owns: a link of 8 bytes, then the buffer. *)
Definition sa_buffer (c : Z) : Z := c + 8.
Definition sa_owned (s : StackAllocator) : list (Z * Z) :=
  (fun c => (c, u64 (8 + sa_size s))) <$> sa_cur s.

Section StackAllocator.
Context `{Heap}.

(* src/src/alloc_StackAllocator.cpp:55-58 StackAllocator::StackAllocator *)
Definition StackAllocator_make (size : Z) : outcome StackAllocator :=
  assertP (negb (size =? 0)) ;; Ret (mkSA [] 0 0 size).

(* src/src/alloc_StackAllocator.cpp:121-133 StackAllocator::newChunk *)
Definition StackAllocator_newChunk : IO StackAllocator unit :=
  s ← get_st;
  match new_block (sa_owned s) (u64 (8 + sa_size s)) with
  | Some c => put_st (mkSA (c :: sa_cur s) (sa_buffer c + sa_size s) (sa_buffer c) (sa_size s))
  | None => throw
  end.

(* src/src/alloc_StackAllocator.cpp:75-95 StackAllocator::allocate, StackAllocator::chunkFilled *)
Fixpoint StackAllocator_alloc (fuel : nat) (size : Z) : IO StackAllocator Z :=
  match fuel with
  | O => fun _ => Crash OutOfFuel
  | S fuel =>
      s ← get_st;
      lift (assertP (size <=? sa_size s)) ;;
      if match sa_cur s with [] => true | _ => u64 (sa_max s - sa_top s) <? size end
      then StackAllocator_newChunk ;; StackAllocator_alloc fuel size
      else put_st (mkSA (sa_cur s) (sa_max s) (sa_top s + size) (sa_size s)) ;; mret (sa_top s)
  end.
Definition StackAllocator_allocate : Z -> IO StackAllocator Z := StackAllocator_alloc 2.

(* src/src/alloc_StackAllocator.cpp:109-115 StackAllocator::clear *)
Definition StackAllocator_clear (s : StackAllocator) : StackAllocator :=
  mkSA [] (sa_max s) (sa_top s) (sa_size s).

(* src/src/alloc_StackAllocator.cpp:142-144 StackAllocator::mark *)
Definition StackAllocator_mark (s : StackAllocator) : Z := sa_top s.

(* src/src/alloc_StackAllocator.cpp:152-162 StackAllocator::release *)
Fixpoint chunk_of (size mark : Z) (cur : list Z) : list Z :=
  match cur with
  | [] => []
  | c :: next =>
      if (sa_buffer c <=? mark) && (mark <? sa_buffer c + size) then cur
      else chunk_of size mark next
  end.
(* src/src/alloc_StackAllocator.cpp:151-164 StackAllocator::release *)
Definition StackAllocator_release (mark : Z) (s : StackAllocator) : outcome StackAllocator :=
  match chunk_of (sa_size s) mark (sa_cur s) with
  | [] => Crash AssertFailed
  | cur => Ret (mkSA cur (sa_max s) mark (sa_size s))
  end.

End StackAllocator.

(** *** Invariant *)

(** [live]: the blocks allocated and not released. *)
Record sa_wf (s : StackAllocator) (live : list (Z * Z)) : Prop := {
  sa_pos : 0 < sa_size s /\ 8 + sa_size s < 2 ^ 64;
  sa_sep : separate (sa_owned s);
  sa_space c : c ∈ sa_cur s -> 0 < c /\ c + 8 + sa_size s <= 2 ^ 64;
  sa_ptrs c : head (sa_cur s) = Some c ->
    sa_max s = c + 8 + sa_size s /\ c + 8 <= sa_top s <= sa_max s;
  sa_live_sep : separate live;
  sa_live_in b : b ∈ live -> 0 <= b.2 /\ exists c, c ∈ sa_cur s /\
    c + 8 <= b.1 /\ b.1 + b.2 <= c + 8 + sa_size s /\
    (head (sa_cur s) = Some c -> b.1 + b.2 <= sa_top s) }.

Lemma u64_size s live : sa_wf s live -> u64 (8 + sa_size s) = 8 + sa_size s.
Proof. intros W. pose proof (sa_pos _ _ W). apply wrap_small. unfold inw. lia. Qed.

Section StackAllocator_proofs.
Context `{HeapLaws}.

Lemma newChunk_wf s live : sa_wf s live ->
  StackAllocator_newChunk s = Ret (Throw, s) \/
  exists c s', StackAllocator_newChunk s = Ret (Val tt, s') /\ sa_wf s' live /\
    sa_cur s' = c :: sa_cur s /\ sa_size s' = sa_size s /\ sa_max s' - sa_top s' = sa_size s.
Proof.
  intros W. pose proof (u64_size s live W) as Eu. pose proof (sa_pos _ _ W) as P.
  unfold StackAllocator_newChunk, get_st. rewrite (io_bind_Val _ _ s s s eq_refl).
  destruct (new_block _ _) as [c|] eqn:E; [right|by left].
  destruct (new_in_space _ _ _ E) as [A1 A2]; [lia|]. apply new_fresh in E as E3.
  eexists c, _. split; [done|].
  split; [|cbn; unfold sa_buffer; split_and!; [done|done|lia]].
  split; cbn [sa_cur sa_max sa_top sa_size]; unfold sa_buffer.
  - done.
  - unfold sa_owned in *. cbn. constructor; [done|apply W].
  - intros d [->|Hd]%elem_of_cons; [lia|by apply W].
  - intros d [= <-]. lia.
  - apply W.
  - intros b Hb. destruct (sa_live_in _ _ W b Hb) as (B0 & d & Hd & B1 & B2 & B3).
    split; [done|]. exists d. split_and!; [by right|done..|]. intros [= ->].
    (* the new chunk is not an old one *)
    rewrite list.Forall_forall in E3. specialize (E3 (d, u64 (8 + sa_size s))). exfalso.
    destruct E3; cbn in *; [|lia..]. apply list_elem_of_fmap. by exists d.
Qed.

(** The block taken below the limit of the current chunk. *)
Lemma bump_wf s live c n : sa_wf s live -> head (sa_cur s) = Some c ->
  0 <= n <= sa_max s - sa_top s ->
  sa_wf (mkSA (sa_cur s) (sa_max s) (sa_top s + n) (sa_size s)) ((sa_top s, n) :: live).
Proof.
  intros W Hc Hn. destruct (sa_ptrs _ _ W c Hc) as [P1 P2].
  assert (c ∈ sa_cur s) as Hin by (destruct (sa_cur s); [done|]; injection Hc as ->; left).
  split; cbn [sa_cur sa_max sa_top sa_size].
  - apply W.
  - apply W.
  - apply W.
  - intros d Hd. rewrite Hc in Hd. injection Hd as <-. lia.
  - constructor; [|apply W]. apply list.Forall_forall. intros b Hb.
    destruct (sa_live_in _ _ W b Hb) as (B0 & d & Hd & B1 & B2 & B3). unfold disj; cbn.
    destruct (decide (d = c)) as [->|Hne]; [right; by apply B3|].
    assert (disj (c, u64 (8 + sa_size s)) (d, u64 (8 + sa_size s))) as D.
    { pose proof (sa_sep _ _ W) as S. unfold sa_owned in S. destruct (sa_cur s) as [|c' cur]; [done|].
      injection Hc as ->. apply elem_of_cons in Hd as [->|Hd]; [done|].
      inversion S as [|? ? F]; subst. rewrite list.Forall_forall in F. apply F.
      apply list_elem_of_fmap. by exists d. }
    rewrite (u64_size s live W) in D. destruct D; cbn in *; lia.
  - intros b [->|Hb]%elem_of_cons.
    + cbn. split; [lia|]. exists c. split_and!; [done|lia|lia|done].
    + destruct (sa_live_in _ _ W b Hb) as (B0 & d & Hd & B1 & B2 & B3).
      split; [done|]. exists d. split_and!; [done..|]. intros E. specialize (B3 E). lia.
Qed.

(** The test of [allocate] is that of the room left. *)
Lemma room_test s live n c : sa_wf s live -> head (sa_cur s) = Some c ->
  (u64 (sa_max s - sa_top s) <? n) = (sa_max s - sa_top s <? n).
Proof.
  intros W Hc. destruct (sa_ptrs _ _ W c Hc) as [P1 P2]. f_equal. apply wrap_small.
  destruct (sa_space _ _ W c); [|unfold inw; lia].
  destruct (sa_cur s); [done|]. injection Hc as ->. left.
Qed.

Lemma alloc_direct fuel s live n c : sa_wf s live -> head (sa_cur s) = Some c ->
  0 <= n <= sa_size s -> n <= sa_max s - sa_top s ->
  exists p s', StackAllocator_alloc (S fuel) n s = Ret (Val p, s') /\
    sa_wf s' ((p, n) :: live) /\ sa_size s' = sa_size s.
Proof.
  intros W Hc Hs Hm. pose proof (room_test s live n c W Hc) as ET.
  pose proof (bump_wf s live c n W Hc ltac:(lia)) as W'.
  cbn [StackAllocator_alloc]. unfold get_st.
  rewrite (io_bind_Val _ _ s s s eq_refl), (proj2 (Z.leb_le _ _)) by lia.
  rewrite (io_bind_Val _ _ s tt s eq_refl).
  destruct (sa_cur s) as [|d cur] eqn:E; [done|]. rewrite ET, (proj2 (Z.ltb_ge _ _)) by lia.
  by eexists _, _.
Qed.

Lemma allocate_wf s live n : sa_wf s live -> 0 <= n <= sa_size s ->
  StackAllocator_allocate n s = Ret (Throw, s) \/
  exists p s', StackAllocator_allocate n s = Ret (Val p, s') /\ sa_wf s' ((p, n) :: live) /\ sa_size s' = sa_size s.
Proof.
  intros W Hn. unfold StackAllocator_allocate.
  destruct (head (sa_cur s)) as [c|] eqn:Hc; [destruct (Z.leb_spec n (sa_max s - sa_top s))|].
  { right. by apply (alloc_direct 1 s live n c). }
  all: assert (match sa_cur s with [] => true | _ => u64 (sa_max s - sa_top s) <? n end = true) as T
    by (destruct (sa_cur s) eqn:E; [done|];
        try (rewrite (room_test s live n c), Z.ltb_lt by (done || by rewrite E); lia); done).
  all: cbn [StackAllocator_alloc]; unfold get_st;
    rewrite (io_bind_Val _ _ s s s eq_refl), (proj2 (Z.leb_le _ _)) by lia;
    rewrite (io_bind_Val _ _ s tt s eq_refl), T.
  all: destruct (newChunk_wf s live W) as [E|(d & s' & E & W' & Ec & Es & Em)];
    [left; by rewrite (io_bind_Throw _ _ _ _ E)|right]; rewrite (io_bind_Val _ _ _ _ _ E);
    destruct (alloc_direct 0 s' live n d) as (p & s2 & E2 & W2 & Es2);
      [done|by rewrite Ec|lia|lia|]; exists p, s2; (split; [exact E2|]); (split; [done|congruence]).
Qed.

(** Releasing inside the current chunk forgets the blocks of this chunk that end
    above the mark. *)
Definition kept (c size m : Z) (b : Z * Z) : Prop :=
  b.1 + b.2 <= m \/ ~ (c + 8 <= b.1 /\ b.1 + b.2 <= c + 8 + size).
#[local] Instance kept_dec c size m b : Decision (kept c size m b).
Proof. unfold kept. apply _. Defined.

Lemma release_wf s live c m : sa_wf s live -> head (sa_cur s) = Some c ->
  c + 8 <= m <= sa_top s -> m < c + 8 + sa_size s ->
  exists s', StackAllocator_release m s = Ret s' /\ sa_wf s' (filter (kept c (sa_size s) m) live) /\ sa_size s' = sa_size s /\ sa_top s' = m /\ sa_cur s' = sa_cur s.
Proof.
  intros W Hc Hm Hm2. destruct (sa_ptrs _ _ W c Hc) as [P1 P2].
  unfold StackAllocator_release. destruct (sa_cur s) as [|d cur] eqn:Ec; [done|].
  injection Hc as ->. cbn [chunk_of]. unfold sa_buffer.
  rewrite (proj2 (Z.leb_le _ _)), (proj2 (Z.ltb_lt _ _)) by lia. cbn [andb].
  eexists. split; [done|]. split; [|done]. rewrite <- Ec. split; cbn [sa_cur sa_max sa_top sa_size].
  - apply W.
  - apply W.
  - apply W.
  - intros d. rewrite Ec. intros [= <-]. lia.
  - apply separate_filter, W.
  - intros b [Hk Hb]%list_elem_of_filter.
    destruct (sa_live_in _ _ W b Hb) as (B0 & d & Hd & B1 & B2 & B3).
    split; [done|]. exists d. split_and!; [done..|]. rewrite Ec. intros [= ->].
    destruct Hk as [|[]]; [done|]. lia.
Qed.

End StackAllocator_proofs.

(** *** Programs *)

(** The states a program reaches from an empty allocator by allocations,
    releases to a mark taken in the current chunk, and [clear()]. *)
Inductive sa_reach `{Heap} (size : Z) : StackAllocator -> list (Z * Z) -> Prop :=
  | sa_r_make s : StackAllocator_make size = Ret s -> sa_reach size s []
  | sa_r_alloc s live n p s' :
      sa_reach size s live -> 0 <= n -> StackAllocator_allocate n s = Ret (Val p, s') ->
      sa_reach size s' ((p, n) :: live)
  | sa_r_release s live c m s' :
      sa_reach size s live -> head (sa_cur s) = Some c ->
      sa_buffer c <= m <= StackAllocator_mark s -> StackAllocator_release m s = Ret s' ->
      sa_reach size s' (filter (kept c size m) live)
  | sa_r_clear s live : sa_reach size s live -> sa_reach size (StackAllocator_clear s) [].

Lemma chunk_of_inv size m cur d l : chunk_of size m cur = d :: l ->
  d ∈ cur /\ d + 8 <= m < d + 8 + size.
Proof.
  induction cur as [|c cur IH]; [done|]. cbn. unfold sa_buffer.
  destruct (Z.leb_spec (c + 8) m), (Z.ltb_spec m (c + 8 + size)); cbn;
    try (intros [= -> ->]; split; [left|lia]); intros E; destruct (IH E); split; try done; by right.
Qed.

(** A mark at the end of a full chunk is not found in it, nor in another one. *)
Lemma release_full s live c : sa_wf s live -> head (sa_cur s) = Some c ->
  StackAllocator_release (c + 8 + sa_size s) s = Crash AssertFailed.
Proof.
  intros W Hc. unfold StackAllocator_release.
  destruct (chunk_of _ _ _) as [|d l] eqn:E; [done|exfalso].
  apply chunk_of_inv in E as [Hd Hr]. pose proof (sa_sep _ _ W) as S. unfold sa_owned in S.
  rewrite (u64_size s live W) in S.
  destruct (sa_cur s) as [|c' cur]; [done|]. injection Hc as ->.
  apply elem_of_cons in Hd as [->|Hd]; [lia|].
  inversion S as [|? ? F]; subst. rewrite list.Forall_forall in F.
  destruct (F (d, 8 + sa_size s)); cbn in *; [|lia..]. apply list_elem_of_fmap. by exists d.
Qed.

Lemma sa_wf_nil s : 0 < sa_size s /\ 8 + sa_size s < 2 ^ 64 -> sa_cur s = [] -> sa_wf s [].
Proof.
  intros Hp Ec. split; unfold sa_owned; rewrite ?Ec; cbn;
    first [done|by intros ? ?%elem_of_nil|constructor].
Qed.

Lemma sa_reach_wf `{HeapLaws} size s live :
  0 <= size -> 8 + size < 2 ^ 64 -> sa_reach size s live -> sa_wf s live /\ sa_size s = size.
Proof.
  intros Hp Hs. induction 1 as [s E|s live n p s' R [W Es] Hn E|s live c m s' R [W Es] Hc Hm E|s live R [W Es]].
  - unfold StackAllocator_make in E. destruct (Z.eqb_spec size 0); [done|]. injection E as <-.
    split; [|done]. apply sa_wf_nil; [cbn; lia|done].
  - assert (n <= sa_size s).
    { destruct (Z.leb_spec n (sa_size s)) as [|Hl]; [done|]. exfalso.
      unfold StackAllocator_allocate in E. cbn in E. unfold mbind, io_bind, get_st, lift in E.
      by rewrite (proj2 (Z.leb_gt _ _)) in E by lia. }
    destruct (allocate_wf s live n W ltac:(lia)) as [E'|(q & s2 & E' & W' & Es')];
      rewrite E in E'; [done|]. injection E' as <- <-. split; [done|congruence].
  - unfold sa_buffer, StackAllocator_mark in *.
    destruct (Z.ltb_spec m (c + 8 + sa_size s)).
    + destruct (release_wf s live c m) as (s2 & E2 & W2 & Es2 & _); [done..|].
      rewrite E in E2. injection E2 as <-. rewrite Es in *. done.
    + destruct (sa_ptrs _ _ W c Hc).
      replace m with (c + 8 + sa_size s) in E by lia. by rewrite (release_full s live c) in E.
  - split; [|done]. apply sa_wf_nil; [apply W|done].
Qed.

(** ** BlockAllocator *)

(* src/include/elm/alloc/BlockAllocator.h:33-61 BlockAllocator *)
Record BlockAllocator := mkBA { ba_alloc : StackAllocator; ba_list : Z; ba_next : links }.

Section BlockAllocator.
Context `{Heap} (sizeofT : Z).

(* src/include/elm/alloc/BlockAllocator.h:40-41 BlockAllocator::BlockAllocator *)
Definition BlockAllocator_make (block_per_chunk : Z) : outcome BlockAllocator :=
  a ← StackAllocator_make (u64 (Z.min sizeofT 8 * block_per_chunk));
  Ret (mkBA a 0 ∅).

(* src/include/elm/alloc/BlockAllocator.h:43-51 BlockAllocator::allocate *)
Definition BlockAllocator_allocate : IO BlockAllocator Z :=
  s ← get_st;
  if negb (ba_list s =? 0) then
    q ← lift (read_link (ba_next s) (ba_list s));
    put_st (mkBA (ba_alloc s) q (ba_next s)) ;; mret (ba_list s)
  else
    '(r, a) ← lift (StackAllocator_allocate sizeofT (ba_alloc s));
    put_st (mkBA a (ba_list s) (ba_next s)) ;;
    match r with Val p => mret p | Throw => throw end.

(* src/include/elm/alloc/BlockAllocator.h:53-57 BlockAllocator::free *)
Definition BlockAllocator_free (p : Z) (s : BlockAllocator) : BlockAllocator :=
  mkBA (ba_alloc s) p (<[p := ba_list s]> (ba_next s)).

End BlockAllocator.

(** The blocks the program holds, [used], and those it gave back, [free], are the
    blocks of the stack allocator. *)
Record ba_wf (sizeofT : Z) (s : BlockAllocator) (used free : list Z) : Prop := {
  ba_chain : chain (ba_next s) (ba_list s) free;
  ba_stack : sa_wf (ba_alloc s) ((fun p => (p, sizeofT)) <$> used ++ free) }.

Lemma sa_wf_perm s l k : l ≡ₚ k -> sa_wf s l -> sa_wf s k.
Proof. intros P W. split; try apply W; [rewrite <- P; apply W|intros b Hb; apply W; by rewrite P]. Qed.

(** Distinct blocks of a positive size do not overlap, so that they are not equal. *)
Lemma separate_NoDup n l : 0 < n -> separate ((fun p : Z => (p, n)) <$> l) -> NoDup l.
Proof.
  intros Hn. induction l as [|p l IH]; intros S; [constructor|]. inversion S as [|? ? F S']; subst.
  constructor; [|by apply IH]. intros Hp. rewrite list.Forall_forall in F.
  destruct (F (p, n)); cbn in *; [|lia..]. apply list_elem_of_fmap. by exists p.
Qed.

Inductive ba_reach `{Heap} (sizeofT count : Z) : BlockAllocator -> list Z -> Prop :=
  | ba_r_make s : BlockAllocator_make sizeofT count = Ret s -> ba_reach sizeofT count s []
  | ba_r_alloc s used p s' :
      ba_reach sizeofT count s used -> BlockAllocator_allocate sizeofT s = Ret (Val p, s') ->
      ba_reach sizeofT count s' (p :: used)
  | ba_r_free s used p used' :
      ba_reach sizeofT count s used -> used ≡ₚ p :: used' ->
      ba_reach sizeofT count (BlockAllocator_free p s) used'.

Section BlockAllocator_proofs.
Context `{HeapLaws} (n : Z).

Lemma ba_allocate_wf s used free : 0 < n <= sa_size (ba_alloc s) -> ba_wf n s used free ->
  BlockAllocator_allocate n s = Ret (Throw, s) \/
  exists p s' free', BlockAllocator_allocate n s = Ret (Val p, s') /\
    ba_wf n s' (p :: used) free' /\ sa_size (ba_alloc s') = sa_size (ba_alloc s).
Proof.
  intros Hn [C W]. unfold BlockAllocator_allocate, get_st.
  rewrite (io_bind_Val _ _ s s s eq_refl). destruct free as [|x free].
  - cbn in C. rewrite C, Z.eqb_refl. cbn [negb]. unfold lift.
    destruct (allocate_wf (ba_alloc s) _ n W ltac:(lia)) as [E|(p & a & E & W' & Es)];
      unfold mbind at 1, io_bind at 1; rewrite E; [left; destruct s; cbn in *; by subst|right].
    eexists p, _, []. split; [done|]. split; [|done]. split; [done|exact W'].
  - right. destruct C as (E & Hx & q & Eq & C). rewrite (proj2 (Z.eqb_neq _ _)) by congruence.
    cbn [negb]. unfold lift, read_link. rewrite E, Eq. eexists x, _, free. split; [done|].
    split; [|done]. split; [done|]. eapply sa_wf_perm; [|exact W]. cbn.
    by rewrite <- Permutation_middle.
Qed.

Lemma ba_free_wf s used p used' free : 0 < n -> ba_wf n s used free -> used ≡ₚ p :: used' ->
  ba_wf n (BlockAllocator_free p s) used' (p :: free).
Proof.
  intros Hn [C W] P. pose proof (separate_NoDup n _ Hn (sa_live_sep _ _ W)) as ND.
  assert (p ∈ used) as Hp by (rewrite P; left).
  assert (p <> 0) as H1.
  { destruct (sa_live_in _ _ W (p, n)) as (_ & c & Hc & B & _).
    - apply list_elem_of_fmap. exists p. split; [done|]. apply elem_of_app. by left.
    - pose proof (sa_space _ _ W c Hc). cbn in B. lia. }
  split; cbn [BlockAllocator_free ba_next ba_list ba_alloc].
  - apply chain_cons; [done| |done]. rewrite P in ND. apply NoDup_app in ND as (_ & ND & _).
    apply ND. left.
  - eapply sa_wf_perm; [|exact W]. rewrite P. cbn. by rewrite <- Permutation_middle.
Qed.

End BlockAllocator_proofs.

Lemma ba_reach_wf `{HeapLaws} n count s used : 8 <= n <= 8 * count -> 8 + 8 * count < 2 ^ 64 ->
  ba_reach n count s used ->
  exists free, ba_wf n s used free /\ sa_size (ba_alloc s) = 8 * count.
Proof.
  intros Hn Hc. induction 1 as [s E|s used p s' R (free & W & Es) E|s used p used' R (free & W & Es) P].
  - exists []. unfold BlockAllocator_make in E. rewrite Z.min_r in E by lia.
    unfold wrap in E. rewrite Z.mod_small in E by lia.
    destruct (StackAllocator_make (8 * count)) as [a|] eqn:Ea; [|done]. injection E as <-.
    destruct (sa_reach_wf (8 * count) a []) as [W Es]; [lia|lia|by constructor|].
    split; [|done]. by split.
  - destruct (ba_allocate_wf n s used free) as [E'|(q & s2 & free' & E' & W' & Es')]; [lia|done|..];
      rewrite E in E'; [done|]. injection E' as <- <-. exists free'. split; [done|congruence].
  - exists (p :: free). split; [|done]. eapply ba_free_wf; [lia|done..].
Qed.

(** ** Clients of a collector *)

(** What [collect()] does: calls of [mark()], the next ones chosen by the results. *)
Inductive collector (A : Type) :=
  | Done
  | Mark (p : A) (k : bool -> collector A).
Arguments Done {A}.
Arguments Mark {A} _ _.

Fixpoint run_collect {A S} (mark : A -> S -> outcome (bool * S)) (c : collector A) (s : S) : outcome S :=
  match c with
  | Done => Ret s
  | Mark p k => '(b, s') ← mark p s; run_collect mark (k b) s'
  end.

(** The blocks marked when [marked] already are: [mark()] tells whether the block was
    marked, or with [fresh] whether it was not. *)
Fixpoint visited (fresh : bool) (c : collector Z) (marked : list Z) : list Z :=
  match c with
  | Done => marked
  | Mark p k => visited fresh (k (xorb fresh (bool_decide (p ∈ marked)))) (p :: marked)
  end.

Lemma visited_mono fresh c m p : p ∈ m -> p ∈ visited fresh c m.
Proof. revert m. induction c as [|q k IH]; intros m Hp; [done|]. apply IH. by right. Qed.

(** ** AbstractBlockAllocatorWithGC *)

(* src/include/elm/util/Flags.h:32-32 Flags::bit *)
Definition Flags_bit (m i : Z) : bool := negb (Z.land m (Z.shiftl 1 i) =? 0).
(* src/include/elm/util/Flags.h:33-33 Flags::set *)
Definition Flags_set (m i : Z) : Z := u32 (Z.lor m (Z.shiftl 1 i)).
(* src/include/elm/util/Flags.h:34-34 Flags::clear *)
Definition Flags_clear (m i : Z) : Z := u32 (Z.land m (Z.lnot (Z.shiftl 1 i))).

(** [ga_destroyed] records the calls of the virtual function [destroy()]. *)
(* src/include/elm/alloc/BlockAllocatorWithGC.h:61-73 AbstractBlockAllocatorWithGC *)
Record GCAllocator := mkGCA {
  ga_free : Z; ga_free_cnt : Z; ga_flags : Z; ga_chunks : list Z; ga_top : Z;
  ga_bsize : Z; ga_csize : Z; ga_coll : option BitVector;
  ga_next : links; ga_destroyed : list Z }.

(* src/include/elm/alloc/BlockAllocatorWithGC.h:67-67 AbstractBlockAllocatorWithGC::SYNC *)
Definition GCA_SYNC : Z := 0.
(* src/include/elm/alloc/BlockAllocatorWithGC.h:68-68 AbstractBlockAllocatorWithGC::NEED *)
Definition GCA_NEED : Z := 1.

(** Assignments to the fields. *)
Definition GCA_set_coll v s :=
  mkGCA (ga_free s) (ga_free_cnt s) (ga_flags s) (ga_chunks s) (ga_top s) (ga_bsize s) (ga_csize s)
    v (ga_next s) (ga_destroyed s).
Definition GCA_set_free p cnt s :=
  mkGCA p cnt (ga_flags s) (ga_chunks s) (ga_top s) (ga_bsize s) (ga_csize s)
    (ga_coll s) (ga_next s) (ga_destroyed s).
Definition GCA_set_flags f s :=
  mkGCA (ga_free s) (ga_free_cnt s) f (ga_chunks s) (ga_top s) (ga_bsize s) (ga_csize s)
    (ga_coll s) (ga_next s) (ga_destroyed s).
Definition GCA_set_top cs p s :=
  mkGCA (ga_free s) (ga_free_cnt s) (ga_flags s) cs p (ga_bsize s) (ga_csize s)
    (ga_coll s) (ga_next s) (ga_destroyed s).

Definition GCA_owned (csize : Z) (cs : list Z) : list (Z * Z) := (fun c => (c, csize)) <$> cs.

Section GCAllocator.
Context `{Heap}.

(** [chunks.top()]. *)
Definition GCA_chunk (s : GCAllocator) : outcome Z := rd (ga_chunks s) (zlen (ga_chunks s) - 1).

(* src/src/alloc_BlockAllocatorWithGC.cpp:37-43 AbstractBlockAllocatorWithGC::AbstractBlockAllocatorWithGC *)
Definition GCA_make (block_size chunk_size : Z) : outcome (option GCAllocator) :=
  assertP (block_size <? chunk_size) ;;
  Ret (c ← new_block [] chunk_size;
       Some (mkGCA 0 0 0 [c] c (Z.max block_size 8) chunk_size None ∅ [])).

(* src/include/elm/alloc/BlockAllocatorWithGC.h:38-38 AbstractBlockAllocatorWithGC::needsCollect *)
Definition GCA_needsCollect (s : GCAllocator) : bool := Flags_bit (ga_flags s) GCA_NEED.
(* src/include/elm/alloc/BlockAllocatorWithGC.h:39-39 AbstractBlockAllocatorWithGC::isSync *)
Definition GCA_isSync (s : GCAllocator) : bool := Flags_bit (ga_flags s) GCA_SYNC.
(* src/include/elm/alloc/BlockAllocatorWithGC.h:40-40 AbstractBlockAllocatorWithGC::setSync *)
Definition GCA_setSync (s : GCAllocator) : GCAllocator := GCA_set_flags (Flags_set (ga_flags s) GCA_SYNC) s.
(* src/include/elm/alloc/BlockAllocatorWithGC.h:41-41 AbstractBlockAllocatorWithGC::setAsync *)
Definition GCA_setAsync (s : GCAllocator) : GCAllocator := GCA_set_flags (Flags_clear (ga_flags s) GCA_SYNC) s.

(* src/src/alloc_BlockAllocatorWithGC.cpp:244-246 AbstractBlockAllocatorWithGC::totalCount *)
Definition GCA_totalCount (s : GCAllocator) : outcome Z :=
  c ← GCA_chunk s;
  Ret (s32 (ga_csize s / ga_bsize s * (zlen (ga_chunks s) - 1) + (ga_top s - c) / ga_bsize s)).

(* src/include/elm/alloc/BlockAllocatorWithGC.h:48-48 AbstractBlockAllocatorWithGC::usedCount *)
Definition GCA_usedCount (s : GCAllocator) : outcome Z := n ← GCA_totalCount s; Ret (s32 (n - ga_free_cnt s)).

(* src/src/alloc_BlockAllocatorWithGC.cpp:191-210 AbstractBlockAllocatorWithGC::mark *)
Definition GCA_mark (ptr : Z) (s : GCAllocator) : outcome (bool * GCAllocator) :=
  r ← scan 0 (zlen (ga_chunks s)) (fun i =>
        c ← rd (ga_chunks s) i;
        Ret (if (c <=? ptr) && (ptr <? c + ga_csize s) then Some i else None));
  match r with
  | None => Crash AssertFailed
  | Some chunk =>
      c ← rd (ga_chunks s) chunk;
      let n := (ptr - c) / ga_bsize s + chunk * (ga_csize s / ga_bsize s) in
      match ga_coll s with
      | None => Crash Undefined
      | Some coll =>
          b ← BitVector_bit coll n;
          if b : bool then Ret (false, s)
          else coll' ← BitVector_set coll n; Ret (true, GCA_set_coll (Some coll') s)
      end
  end.

(** One dead block, number [n], goes to the free list. *)
(* src/src/alloc_BlockAllocatorWithGC.cpp:137-142 AbstractBlockAllocatorWithGC::collectGarbage *)
Definition GCA_sweep (n : Z) (s : GCAllocator) : outcome GCAllocator :=
  let k := ga_csize s / ga_bsize s in
  let chunk := n / k in
  c ← rd (ga_chunks s) chunk;
  let nfree := c + (n - chunk * k) * ga_bsize s in
  Ret (mkGCA nfree (ga_free_cnt s + 1) (ga_flags s) (ga_chunks s) (ga_top s) (ga_bsize s)
         (ga_csize s) (ga_coll s) (<[nfree := ga_free s]> (ga_next s)) (ga_destroyed s ++ [nfree])).

(* src/src/alloc_BlockAllocatorWithGC.cpp:124-149 AbstractBlockAllocatorWithGC::collectGarbage *)
Definition GCA_collectGarbage (collect : collector Z) (s : GCAllocator) : outcome GCAllocator :=
  total ← GCA_totalCount s;
  coll ← BitVector_make total false;
  s ← run_collect GCA_mark collect (GCA_set_coll (Some coll) s);
  match ga_coll s with
  | None => Crash Undefined
  | Some coll =>
      n ← ZeroIterator_make coll;
      s ← iter (S (Z.to_nat total)) (fun '(n, s) =>
            if BitVector_ended coll n then Ret (inr s)
            else s' ← GCA_sweep n s; n' ← ZeroIterator_next coll n; Ret (inl (n', s')))
          (n, GCA_set_free (ga_free s) 0 s);
      Ret (GCA_set_coll None (GCA_set_flags (Flags_clear (ga_flags s) GCA_NEED) s))
  end.

(** [r = free_list; free_list = free_list->next; free_cnt--; return r]. *)
(* src/src/alloc_BlockAllocatorWithGC.cpp:73-76 AbstractBlockAllocatorWithGC::allocate *)
Definition GCA_pop : IO GCAllocator Z :=
  s ← get_st;
  q ← lift (read_link (ga_next s) (ga_free s));
  put_st (GCA_set_free q (ga_free_cnt s - 1) s) ;; mret (ga_free s).

(* src/src/alloc_BlockAllocatorWithGC.cpp:105-107 AbstractBlockAllocatorWithGC::allocate *)
Definition GCA_newChunk : IO GCAllocator Z :=
  s ← get_st;
  match new_block (GCA_owned (ga_csize s) (ga_chunks s)) (ga_csize s) with
  | Some c => put_st (GCA_set_top (ga_chunks s ++ [c]) (c + ga_bsize s) s) ;; mret c
  | None => throw
  end.

(* src/src/alloc_BlockAllocatorWithGC.cpp:69-109 AbstractBlockAllocatorWithGC::allocate *)
Definition GCA_allocate (collect : collector Z) : IO GCAllocator Z :=
  s ← get_st;
  if negb (ga_free s =? 0) then GCA_pop else
  c ← lift (GCA_chunk s);
  if ga_top s + ga_bsize s <=? c + ga_csize s then
    put_st (GCA_set_top (ga_chunks s) (ga_top s + ga_bsize s) s) ;; mret (ga_top s)
  else if GCA_isSync s then
    put_st (GCA_set_flags (Flags_set (ga_flags s) GCA_NEED) s) ;; GCA_newChunk
  else
    s' ← lift (GCA_collectGarbage collect s);
    put_st s' ;; if negb (ga_free s' =? 0) then GCA_pop else GCA_newChunk.

(* src/src/alloc_BlockAllocatorWithGC.cpp:61-64 AbstractBlockAllocatorWithGC::allocate *)
Definition GCA_allocate_size (collect : collector Z) (size : Z) : IO GCAllocator Z :=
  s ← get_st; lift (assertP (size =? ga_bsize s)) ;; GCA_allocate collect.

End GCAllocator.

(** *** Invariant *)

Definition slots (s : GCAllocator) : Z := ga_csize s / ga_bsize s.
(** The address of block [n]. *)
Definition slot (s : GCAllocator) (n : Z) : Z :=
  default 0 (ga_chunks s !! Z.to_nat (n / slots s)) + n mod slots s * ga_bsize s.

(** [total]: number of blocks allocated at least once; [free]: the free list. *)
Record ga_wf (s : GCAllocator) (total : Z) (free : list Z) : Prop := {
  ga_sizes : 8 <= ga_bsize s <= ga_csize s;
  ga_sep : separate (GCA_owned (ga_csize s) (ga_chunks s));
  ga_space c : c ∈ ga_chunks s -> 0 < c;
  ga_last : exists cs c j, ga_chunks s = cs ++ [c] /\ ga_top s = c + j * ga_bsize s /\
    0 <= j <= slots s /\ total = slots s * zlen cs + j;
  ga_free_chain : chain (ga_next s) (ga_free s) free;
  ga_free_nodup : NoDup free;
  ga_free_slots p : p ∈ free -> exists n, 0 <= n < total /\ p = slot s n;
  ga_free_len : ga_free_cnt s = zlen free }.

(** Fields that the free list and the collection do not change. *)
Definition same_blocks (s s' : GCAllocator) : Prop :=
  ga_chunks s' = ga_chunks s /\ ga_top s' = ga_top s /\
  ga_bsize s' = ga_bsize s /\ ga_csize s' = ga_csize s.
#[export] Instance same_blocks_equiv : Equivalence same_blocks.
Proof.
  unfold same_blocks. split; [done|intros s t (?&?&?&?); done|].
  intros s t u (?&?&?&?) (?&?&?&?). split_and!; congruence.
Qed.
Lemma slot_same s s' n : same_blocks s s' -> slot s' n = slot s n.
Proof. intros (E1 & E2 & E3 & E4). unfold slot, slots. by rewrite E1, E3, E4. Qed.

Lemma separate_lookup n (l : list Z) i j a b :
  separate ((fun c => (c, n)) <$> l) -> i <> j -> l !! i = Some a -> l !! j = Some b -> disj (a, n) (b, n).
Proof.
  revert i j. induction l as [|c l IH]; intros i j S Hij Ha Hb; [done|].
  inversion S as [|? ? F S']; subst. rewrite list.Forall_forall in F.
  destruct i as [|i], j as [|j]; cbn in Ha, Hb; [done|..].
  - injection Ha as ->. apply F, list_elem_of_fmap. exists b. split; [done|]. by eapply list_elem_of_lookup_2.
  - injection Hb as ->. symmetry. apply F, list_elem_of_fmap. exists a. split; [done|].
    by eapply list_elem_of_lookup_2.
  - apply (IH i j); [done|congruence|done..].
Qed.

Section GCA_wf.
Context (s : GCAllocator) (total : Z) (free : list Z) (W : ga_wf s total free).

Lemma slots_pos : 0 < slots s /\ slots s * ga_bsize s <= ga_csize s.
Proof. pose proof (ga_sizes _ _ _ W). unfold slots. split; [apply Z.div_str_pos; lia|pose proof (Z.mul_div_le (ga_csize s) (ga_bsize s)); lia]. Qed.

(** A block lies in its chunk. *)
Lemma slot_chunk n : 0 <= n < total -> exists c,
  ga_chunks s !! Z.to_nat (n / slots s) = Some c /\ c ∈ ga_chunks s /\
  0 <= n / slots s < zlen (ga_chunks s) /\ slot s n = c + n mod slots s * ga_bsize s /\
  0 <= n mod slots s /\ n mod slots s * ga_bsize s + ga_bsize s <= ga_csize s.
Proof.
  intros Hn. destruct slots_pos as [P1 P2]. pose proof (ga_sizes _ _ _ W) as Hb.
  destruct (ga_last _ _ _ W) as (cs & c & j & Ec & _ & Hj & Et).
  pose proof (Z.mod_pos_bound n (slots s) P1). pose proof (Z.div_mod n (slots s) ltac:(lia)).
  assert (0 <= n / slots s < zlen (ga_chunks s)) as Hd.
  { split; [apply Z.div_pos; lia|]. rewrite Ec, length_app. cbn. apply Z.div_lt_upper_bound; [lia|].
    replace (Z.of_nat (length cs + 1)) with (zlen cs + 1) by lia. nia. }
  destruct (lookup_lt_is_Some_2 (ga_chunks s) (Z.to_nat (n / slots s))) as [d Hl]; [lia|].
  exists d. unfold slot. rewrite Hl. cbn.
  split_and!; [done|by eapply list_elem_of_lookup_2|lia|lia|done|lia|nia].
Qed.

(** Blocks do not overlap. *)
Lemma slot_disj n m : 0 <= n < total -> 0 <= m < total -> n <> m ->
  disj (slot s n, ga_bsize s) (slot s m, ga_bsize s).
Proof.
  intros Hn Hm Hne. destruct slots_pos as [P1 P2]. pose proof (ga_sizes _ _ _ W) as Hb.
  destruct (slot_chunk n Hn) as (c & C1 & _ & C2 & -> & C3 & C4).
  destruct (slot_chunk m Hm) as (d & D1 & _ & D2 & -> & D3 & D4).
  pose proof (Z.div_mod n (slots s) ltac:(lia)). pose proof (Z.div_mod m (slots s) ltac:(lia)).
  destruct (decide (n / slots s = m / slots s)) as [E|E].
  - rewrite E in C1. rewrite C1 in D1. injection D1 as ->. unfold disj. cbn.
    assert (n mod slots s <> m mod slots s) by congruence.
    destruct (Z.lt_trichotomy (n mod slots s) (m mod slots s)) as [L|[L|L]]; [left|done|right]; nia.
  - destruct (separate_lookup _ _ (Z.to_nat (n / slots s)) (Z.to_nat (m / slots s)) c d (ga_sep _ _ _ W))
      as [D|D]; [lia|done..| |]; cbn in D; unfold disj; cbn; lia.
Qed.

Lemma slot_inj n m : 0 <= n < total -> 0 <= m < total -> slot s n = slot s m -> n = m.
Proof.
  intros Hn Hm E. destruct (decide (n = m)) as [|D]; [done|exfalso].
  pose proof (ga_sizes _ _ _ W) as Hb.
  destruct (slot_disj n m Hn Hm D) as [L|L]; cbn in L; lia.
Qed.

Lemma slot_pos n : 0 <= n < total -> 0 < slot s n.
Proof.
  intros Hn. pose proof (ga_sizes _ _ _ W) as Hb. destruct (slot_chunk n Hn) as (c & _ & C & _ & -> & H & _).
  apply (ga_space _ _ _ W) in C. nia.
Qed.

Lemma total_pos : 0 <= total.
Proof.
  destruct slots_pos. destruct (ga_last _ _ _ W) as (cs & c & j & _ & _ & Hj & ->). nia.
Qed.

Lemma chunk_last : exists c, GCA_chunk s = Ret c /\ c ∈ ga_chunks s /\
  exists j, ga_top s = c + j * ga_bsize s /\ 0 <= j <= slots s /\
    total = slots s * (zlen (ga_chunks s) - 1) + j.
Proof.
  destruct (ga_last _ _ _ W) as (cs & c & j & Ec & Et & Hj & Ht). exists c. unfold GCA_chunk.
  split; [|split; [rewrite Ec; apply elem_of_app; right; left|]].
  - apply rd_ok; rewrite Ec, length_app; cbn; [lia|].
    rewrite lookup_app_r by lia. by replace (_ - _)%nat with 0%nat by lia.
  - exists j. rewrite Ec, length_app. cbn. split_and!; [done|lia|lia|lia].
Qed.

Lemma totalCount_ok : total < 2 ^ 31 -> GCA_totalCount s = Ret total.
Proof.
  intros Ht. pose proof total_pos. destruct chunk_last as (c & E & _ & j & Ej & Hj & Et).
  pose proof (ga_sizes _ _ _ W). unfold GCA_totalCount. rewrite E. mred. f_equal.
  replace (ga_top s - c) with (j * ga_bsize s) by lia. rewrite Z.div_mul by lia.
  change (ga_csize s / ga_bsize s) with (slots s). rewrite <- Et. apply swrap_small; lia.
Qed.

(** [mark()] on a block, when [v] is the vector of the marks. *)
Lemma mark_ok n v : 0 <= n < total -> bv_wf v -> bv_size v = total -> ga_coll s = Some v ->
  GCA_mark (slot s n) s = if bv_get v n then Ret (false, s)
                          else v' ← BitVector_set v n; Ret (true, GCA_set_coll (Some v') s).
Proof.
  intros Hn Wv Ev Ec. destruct (slot_chunk n Hn) as (c & C1 & _ & C2 & Es & C3 & C4).
  destruct slots_pos as [P1 P2]. pose proof (ga_sizes _ _ _ W) as Hb. unfold GCA_mark.
  destruct (scan_spec (fun i => c ← ga_chunks s !! Z.to_nat i;
      if (c <=? slot s n) && (slot s n <? c + ga_csize s) then Some i else None) 0 (zlen (ga_chunks s))
    (fun i => c ← rd (ga_chunks s) i;
      Ret (if (c <=? slot s n) && (slot s n <? c + ga_csize s) then Some i else None)))
    as (r & -> & Hr).
  { intros i Hi. destruct (lookup_lt_is_Some_2 (ga_chunks s) (Z.to_nat i)) as [d Hd]; [lia|].
    rewrite (rd_ok _ i d) by (done || lia). mred. by rewrite Hd. }
  assert (r = Some (n / slots s)) as ->.
  { destruct r as [i|].
    - destruct Hr as (i' & Hi & E & _). destruct (ga_chunks s !! Z.to_nat i') as [d|] eqn:Ed; [|done].
      cbn in E. destruct (Z.leb_spec d (slot s n)), (Z.ltb_spec (slot s n) (d + ga_csize s)); try done.
      injection E as <-. destruct (decide (i' = n / slots s)) as [->|Hne]; [done|exfalso].
      destruct (separate_lookup _ _ (Z.to_nat i') (Z.to_nat (n / slots s)) d c (ga_sep _ _ _ W))
        as [D|D]; [lia|done..| |]; cbn in D; lia.
    - specialize (Hr (n / slots s) C2). rewrite C1 in Hr. cbn in Hr.
      rewrite (proj2 (Z.leb_le _ _)), (proj2 (Z.ltb_lt _ _)) in Hr by lia. done. }
  mred. rewrite (rd_ok _ _ _ (proj1 C2) C1). mred. rewrite Ec.
  assert ((slot s n - c) / ga_bsize s + n / slots s * (ga_csize s / ga_bsize s) = n) as ->.
  { rewrite Es. replace (c + _ - c) with (n mod slots s * ga_bsize s) by lia.
    rewrite Z.div_mul by lia. change (ga_csize s / ga_bsize s) with (slots s).
    pose proof (Z.div_mod n (slots s) ltac:(lia)). lia. }
  rewrite BitVector_bit_ok by (done || lia). mred. done.
Qed.

End GCA_wf.

(** *** Collection *)

Definition gc_block (s : GCAllocator) (total p : Z) : Prop := exists n, 0 <= n < total /\ p = slot s n.

(** [v] holds the marks of the blocks of [m]. *)
Definition marks (s : GCAllocator) (total : Z) (v : BitVector) (m : list Z) : Prop :=
  bv_wf v /\ bv_size v = total /\ forall n, 0 <= n < total -> bv_get v n = bool_decide (slot s n ∈ m).

Lemma make_no_mark s total : 0 < total ->
  exists v, BitVector_make total false = Ret v /\ marks s total v [].
Proof.
  intros Ht. destruct (BitVector_make_clear total Ht) as (v & E & Wv & Ev & Hv). exists v. split; [done|].
  split_and!; [done|done|]. intros n Hn. rewrite Hv by lia. symmetry. apply bool_decide_false, not_elem_of_nil.
Qed.

Lemma ga_wf_coll s total free x : ga_wf s total free -> ga_wf (GCA_set_coll x s) total free.
Proof. intros W. split; apply W. Qed.

Lemma collect_ok s total free c v m :
  ga_wf s total free -> marks s total v m -> Forall (gc_block s total) (visited true c m) ->
  exists v', run_collect GCA_mark c (GCA_set_coll (Some v) s) = Ret (GCA_set_coll (Some v') s) /\
    marks s total v' (visited true c m).
Proof.
  intros W. revert v m. induction c as [|p k IH]; intros v m M F; [by exists v|]. cbn in *.
  assert (gc_block s total p) as (n & Hn & ->).
  { rewrite list.Forall_forall in F. apply F, visited_mono. left. }
  pose proof M as (Wv & Ev & Hv).
  pose proof (mark_ok _ _ _ (ga_wf_coll s total free (Some v) W) n v Hn Wv Ev eq_refl) as E.
  change (slot (GCA_set_coll (Some v) s) n) with (slot s n) in E. rewrite E, Hv by done.
  case_bool_decide as Hm; cbn [xorb negb] in *.
  - apply (IH false v (slot s n :: m)); [|done]. split_and!; [done..|]. intros i Hi. rewrite Hv by done.
    apply bool_decide_ext. rewrite elem_of_cons. split; [by right|intros [->|]; done].
  - destruct (BitVector_set_ok v Wv n) as (v' & -> & Wv' & Ev' & Hv'); [lia|]. mred.
    apply (IH true v' (slot s n :: m)); [|done]. split_and!; [done|lia|]. intros i Hi.
    rewrite Hv', Hv by lia. destruct (Z.eqb_spec i n) as [->|Hne]; cbn.
    + symmetry. apply bool_decide_true. left.
    + apply bool_decide_ext. rewrite elem_of_cons. split; [by right|]. intros [Es|]; [|done].
      apply (slot_inj s total free W) in Es; [|done..]. done.
Qed.

(** The blocks below [i] that are not marked, in the order of the sweep. *)
Definition dead (s : GCAllocator) (v : BitVector) (i : Z) : list Z :=
  slot s <$> filter (fun j => bv_get v j = false) (seqZ 0 i).

Lemma dead_skip s v i j : 0 <= i <= j -> (forall n, i <= n < j -> bv_get v n = true) ->
  dead s v j = dead s v i.
Proof.
  intros Hi Hn. unfold dead. f_equal. replace j with (i + (j - i)) at 1 by lia.
  rewrite seqZ_app, list.filter_app, (filter_none _ (seqZ (0 + i) _)) by
    (lia || (intros x Hx%elem_of_seqZ; rewrite Hn by lia; done)). apply app_nil_r.
Qed.
Lemma dead_snoc s v i : 0 <= i -> bv_get v i = false -> dead s v (i + 1) = dead s v i ++ [slot s i].
Proof.
  intros Hi E. unfold dead. rewrite seqZ_app, list.filter_app, fmap_app by lia. f_equal.
  change (seqZ (0 + i) 1) with [Z.of_nat 0 + (0 + i)]. rewrite !Z.add_0_l.
  by rewrite filter_cons_True by done.
Qed.
Lemma dead_elem s v i p : p ∈ dead s v i <-> exists n, 0 <= n < i /\ bv_get v n = false /\ p = slot s n.
Proof.
  unfold dead. rewrite list_elem_of_fmap. setoid_rewrite list_elem_of_filter.
  setoid_rewrite elem_of_seqZ. split.
  - intros (n & -> & E & Hn). exists n. split_and!; [lia..|done|done].
  - intros (n & Hn & E & ->). exists n. split_and!; [done..|lia|lia].
Qed.

Lemma dead_nodup s total free v : ga_wf s total free -> NoDup (dead s v total).
Proof.
  intros W. unfold dead. apply NoDup_fmap_2_strong; [|apply NoDup_filter, NoDup_seqZ].
  intros i j [_ Hi]%list_elem_of_filter [_ Hj]%list_elem_of_filter.
  apply elem_of_seqZ in Hi, Hj. apply (slot_inj s total free W); lia.
Qed.

(** Only the free list matters when the blocks are the same. *)
Lemma ga_wf_refree s s' total free free' : ga_wf s total free -> same_blocks s s' ->
  chain (ga_next s') (ga_free s') free' -> NoDup free' ->
  (forall p, p ∈ free' -> gc_block s total p) -> ga_free_cnt s' = zlen free' -> ga_wf s' total free'.
Proof.
  intros W B C ND HF El. pose proof B as (E1 & E2 & E3 & E4).
  split; unfold slots; rewrite ?E1, ?E2, ?E3, ?E4; try apply W; [done|done| |done].
  intros p Hp. destruct (HF p Hp) as (n & Hn & ->). exists n. by rewrite (slot_same s s').
Qed.

(** The state of the sweep when the blocks below [i] are processed. *)
Definition swept (s : GCAllocator) (v : BitVector) (i : Z) (s' : GCAllocator) : Prop :=
  same_blocks s s' /\ ga_flags s' = ga_flags s /\
  chain (ga_next s') (ga_free s') (reverse (dead s v i)) /\
  ga_free_cnt s' = zlen (dead s v i) /\ ga_destroyed s' = ga_destroyed s ++ dead s v i.

Lemma sweep_ok s total v i s' : ga_wf s total [] -> 0 <= i < total -> bv_get v i = false ->
  swept s v i s' -> exists s2, GCA_sweep i s' = Ret s2 /\ swept s v (i + 1) s2.
Proof.
  intros W Hi Eb (B & Ef & C & El & Ed). pose proof B as (E1 & E2 & E3 & E4).
  destruct (slots_pos s total [] W) as [P1 P2].
  destruct (slot_chunk s total [] W i Hi) as (c & C1 & _ & C2 & Es & C3 & C4).
  unfold GCA_sweep. rewrite E1, E3, E4. change (ga_csize s / ga_bsize s) with (slots s).
  rewrite (rd_ok _ _ _ (proj1 C2) C1). mred.
  replace (c + (i - i / slots s * slots s) * ga_bsize s) with (slot s i)
    by (rewrite Es, Z.mod_eq by lia; lia).
  eexists. split; [done|]. unfold swept. rewrite dead_snoc by lia || done.
  split; [by unfold same_blocks|]. split; [exact Ef|]. cbn [ga_next ga_free ga_free_cnt ga_destroyed]. split; [|split].
  - rewrite reverse_snoc. apply chain_cons; [|intros (j & Hj & _ & E)%elem_of_reverse%dead_elem|done].
    + pose proof (slot_pos s total [] W i Hi). lia.
    + apply (slot_inj s total [] W) in E; lia.
  - rewrite length_app. cbn. lia.
  - by rewrite Ed, app_assoc.
Qed.

Lemma collectGarbage_ok s total c : ga_wf s total [] -> 0 < total < 2 ^ 31 ->
  Forall (gc_block s total) (visited true c []) ->
  exists s' free, GCA_collectGarbage c s = Ret s' /\ ga_wf s' total free /\ same_blocks s s' /\
    (forall p, p ∈ free <-> gc_block s total p /\ p ∉ visited true c []) /\
    ga_destroyed s' = ga_destroyed s ++ reverse free.
Proof.
  intros W Ht F. unfold GCA_collectGarbage. rewrite (totalCount_ok s total [] W) by lia. mred.
  destruct (make_no_mark s total) as (v0 & -> & M0); [lia|]. mred.
  destruct (collect_ok s total [] c v0 [] W M0 F) as (v & -> & Wv & Ev & Hv). mred.
  cbn [ga_coll GCA_set_coll]. unfold ZeroIterator_make, ZeroIterator_next.
  destruct (seek_ok false v (-1) Wv) as (i & -> & N1 & N2 & N3); [lia|]. mred.
  iter_with (fun x : Z * GCAllocator => 0 <= x.1 <= total /\ (x.1 < total -> bv_get v x.1 = false) /\
      swept s v x.1 x.2) (fun x : Z * GCAllocator => Z.to_nat (total - x.1)) (fun s' => swept s v total s').
  - intros [n t] (Hn & Hb & Hs). cbn [fst snd] in *. unfold BitVector_ended. rewrite Ev.
    destruct (Z.leb_spec total n).
    + eexists. split; [done|]. by replace total with n by lia.
    + destruct (sweep_ok s total v n t) as (t' & -> & Ht'); [done|lia|apply Hb; lia|done|]. mred.
      destruct (seek_ok false v n Wv) as (n' & -> & K1 & K2 & K3); [lia|]. mred.
      eexists. split; [done|]. cbn. split; [|lia]. split; [lia|]. split; [by rewrite <- Ev|].
      unfold swept. rewrite (dead_skip s v (n + 1) n'); [done|lia|]. intros m Hm. apply K3. lia.
  - cbn [fst snd]. split; [lia|]. split; [by rewrite <- Ev|]. unfold swept.
    rewrite (dead_skip s v 0 i) by (lia || (intros m Hm; apply N3; lia)).
    split; [done|]. split; [done|]. split; [apply W|]. split; [done|].
    change (dead s v 0) with (@nil Z). by rewrite app_nil_r.
  - cbn. lia.
  - mred. destruct Hr as (B & _ & C & El & Ed). eexists _, (reverse (dead s v total)).
    split; [done|].
    assert (forall p, p ∈ reverse (dead s v total) <-> gc_block s total p /\ p ∉ visited true c []) as HF.
    { intros p. rewrite elem_of_reverse, dead_elem. split.
      - intros (n & Hn & E & ->). rewrite Hv in E by done. apply bool_decide_eq_false in E. split; [by exists n|done].
      - intros [(n & Hn & ->) E]. exists n. split_and!; [lia..|rewrite Hv by done|done].
        by apply bool_decide_eq_false. }
    split; [|split; [exact B|split; [done|by rewrite reverse_involutive]]].
    apply (ga_wf_refree s _ total [] _ W);
      [exact B|exact C| |intros p Hp; by apply HF in Hp as [? _]|].
    + rewrite reverse_Permutation. by apply (dead_nodup s total [] v W).
    + by rewrite length_reverse.
Qed.

(** *** Allocation *)

Lemma pop_wf s total p free : ga_wf s total (p :: free) ->
  exists s', GCA_pop s = Ret (Val p, s') /\ ga_wf s' total free /\ same_blocks s s' /\
    ga_destroyed s' = ga_destroyed s.
Proof.
  intros W. destruct (ga_free_chain _ _ _ W) as (E & Hp & q & Eq & C).
  pose proof (ga_free_nodup _ _ _ W) as [_ ND]%NoDup_cons. unfold GCA_pop, get_st, lift.
  rewrite (io_bind_Val _ _ s s s eq_refl). unfold read_link. rewrite E, Eq.
  eexists. split; [done|]. split; [|done]. eapply ga_wf_refree; [exact W|done|exact C|done| |].
  - intros x Hx. destruct (ga_free_slots _ _ _ W x) as (n & Hn & ->); [by right|]. by exists n.
  - cbn. rewrite (ga_free_len _ _ _ W). cbn. lia.
Qed.

(** A block at the top of the last chunk. *)
Lemma top_wf s total free c : ga_wf s total free -> GCA_chunk s = Ret c ->
  ga_top s + ga_bsize s <= c + ga_csize s ->
  let s' := GCA_set_top (ga_chunks s) (ga_top s + ga_bsize s) s in
  ga_wf s' (total + 1) free /\ ga_top s = slot s' total.
Proof.
  intros W Ec Hr s'. destruct (slots_pos _ _ _ W) as [P1 P2]. pose proof (ga_sizes _ _ _ W) as Hb.
  destruct (ga_last _ _ _ W) as (cs & d & j & El & Et & Hj & Etot).
  assert (c = d) as ->.
  { unfold GCA_chunk in Ec. apply rd_inv in Ec as [_ Ec]. rewrite El, length_app in Ec. cbn in Ec.
    rewrite lookup_app_r in Ec by lia. replace (_ - _)%nat with 0%nat in Ec by lia. by injection Ec. }
  assert (j < slots s) as Hjs.
  { unfold slots in *. apply Z.lt_le_trans with (j + 1); [lia|]. apply Z.div_le_lower_bound; nia. }
  split.
  - split; try apply W.
    + exists cs, d, (j + 1). cbn. change (slots s') with (slots s). split_and!; [done|lia..].
    + intros p Hp. destruct (ga_free_slots _ _ _ W p Hp) as (n & Hn & ->). exists n. split; [lia|done].
  - unfold slot. change (slots s') with (slots s). cbn.
    rewrite Etot, (Z.mul_comm (slots s)), Z.div_add_l, (Z.div_small j), Z.add_0_r, Nat2Z.id by lia.
    rewrite (Z.add_comm (zlen cs * _)), Z.mod_add, Z.mod_small by lia.
    rewrite El, lookup_app_r, Nat.sub_diag by lia. cbn. lia.
Qed.

(** A block in a new chunk, when the last one is full. *)
Lemma gc_newChunk_wf `{HeapLaws} s total free c : ga_wf s total free -> GCA_chunk s = Ret c ->
  c + ga_csize s < ga_top s + ga_bsize s ->
  GCA_newChunk s = Ret (Throw, s) \/
  exists p s', GCA_newChunk s = Ret (Val p, s') /\ ga_wf s' (total + 1) free /\ p = slot s' total /\
    (forall n, 0 <= n < total -> slot s' n = slot s n) /\ ga_destroyed s' = ga_destroyed s /\
    ga_bsize s' = ga_bsize s.
Proof.
  intros W Ec Hr. destruct (slots_pos _ _ _ W) as [P1 P2]. pose proof (ga_sizes _ _ _ W) as Hb.
  destruct (chunk_last _ _ _ W) as (d & Ed & _ & j & Et & Hj & Etot). rewrite Ec in Ed. injection Ed as <-.
  assert (j = slots s) as ->.
  { destruct (decide (j = slots s)); [done|]. unfold slots in *.
    pose proof (Z.mul_div_le (ga_csize s) (ga_bsize s)). nia. }
  unfold GCA_newChunk, get_st. rewrite (io_bind_Val _ _ s s s eq_refl).
  destruct (new_block _ _) as [p|] eqn:En; [right|by left]. eexists _, _. split; [done|].
  destruct (new_in_space _ _ _ En) as [Q1 _]; [lia|]. apply new_fresh in En.
  assert (forall n, 0 <= n < total ->
    slot (GCA_set_top (ga_chunks s ++ [p]) (p + ga_bsize s) s) n = slot s n) as Hold.
  { intros n Hn. destruct (slot_chunk s total free W n Hn) as (d & C1 & _ & C2 & _).
    unfold slot. change (slots (GCA_set_top _ _ s)) with (slots s). cbn. rewrite lookup_app_l; [done|].
    lia. }
  assert (total = slots s * zlen (ga_chunks s)) as E by lia. split; [|split; [|split; [exact Hold|done]]].
  - split; try apply W; cbn [GCA_set_top ga_chunks ga_csize].
    + unfold GCA_owned. rewrite fmap_app, Permutation_app_comm. cbn. constructor; [done|apply W].
    + intros x [Hx|Hx]%elem_of_app; [by apply W|]. apply list_elem_of_singleton in Hx. by subst.
    + exists (ga_chunks s), p, 1. cbn. change (slots (GCA_set_top _ _ s)) with (slots s).
      split_and!; [done|lia..].
    + intros x Hx. destruct (ga_free_slots _ _ _ W x Hx) as (n & Hn & ->). exists n.
      split; [lia|]. by rewrite Hold.
  - unfold slot. change (slots (GCA_set_top _ _ s)) with (slots s). cbn.
    rewrite E, Z.mul_comm, Z.div_mul, Z.mod_mul, Nat2Z.id, lookup_app_r, Nat.sub_diag by lia. cbn. lia.
Qed.

(** The blocks the program holds. *)
Definition in_use (s : GCAllocator) (total : Z) (free : list Z) (p : Z) : Prop :=
  gc_block s total p /\ p ∉ free.

(** What an allocation promises: the blocks in use before that were not destroyed
    are in use after and are not the new one, and only dead blocks are destroyed. *)
Record alloc_post (live : list Z) (s : GCAllocator) (total : Z) (free : list Z)
    (r : result Z) (s' : GCAllocator) (total' : Z) (free' destroyed : list Z) : Prop := {
  ap_wf : ga_wf s' total' free';
  ap_destroyed : ga_destroyed s' = ga_destroyed s ++ destroyed;
  ap_dead p : p ∈ destroyed -> in_use s total free p /\ p ∉ live;
  ap_kept p : in_use s total free p -> p ∉ destroyed -> in_use s' total' free' p /\ r <> Val p;
  ap_new : match r with Val p => in_use s' total' free' p | Throw => True end }.

Lemma gc_block_same s s' total p : same_blocks s s' -> gc_block s' total p <-> gc_block s total p.
Proof.
  intros B. split; intros (n & Hn & E); exists n; (split; [done|]).
  - by rewrite <- (slot_same s s').
  - by rewrite (slot_same s s').
Qed.

Lemma pop_post live s total free s1 p free1 dead1 :
  ga_wf s1 total (p :: free1) -> same_blocks s s1 -> ga_destroyed s1 = ga_destroyed s ++ dead1 ->
  (forall x, x ∈ dead1 -> in_use s total free x /\ x ∉ live) ->
  (forall x, in_use s total free x -> x ∉ dead1 -> x ∉ p :: free1) ->
  exists s', GCA_pop s1 = Ret (Val p, s') /\ alloc_post live s total free (Val p) s' total free1 dead1.
Proof.
  intros W B Ed Hd Hk. destruct (pop_wf s1 total p free1 W) as (s' & E & W' & B' & Ed').
  exists s'. split; [done|]. pose proof (transitivity B B') as B2. split; [done|congruence|done| |].
  - intros x Hx Hnd. specialize (Hk x Hx Hnd). apply not_elem_of_cons in Hk as [K1 K2].
    split; [split; [apply (gc_block_same s s'); [done|apply Hx]|done]|congruence].
  - pose proof (ga_free_nodup _ _ _ W) as [ND _]%NoDup_cons. split; [|done].
    apply (gc_block_same s1 s'); [done|].
    destruct (ga_free_slots _ _ _ W p) as (n & Hn & E'); [left|]. by exists n.
Qed.

(** A block that was never allocated. *)
Lemma fresh_post live s total free s1 s' p dead1 :
  ga_wf s total free -> ga_wf s' (total + 1) [] -> p = slot s' total -> same_blocks s s1 ->
  (forall n, 0 <= n < total -> slot s' n = slot s1 n) -> ga_destroyed s' = ga_destroyed s ++ dead1 ->
  (forall x, x ∈ dead1 -> in_use s total free x /\ x ∉ live) ->
  alloc_post live s total free (Val p) s' (total + 1) [] dead1.
Proof.
  intros W W' -> B Hs Ed Hd. pose proof (total_pos _ _ _ W) as Ht. split; [done..| |].
  - intros x [(n & Hn & ->) _] _. rewrite <- (slot_same s s1), <- Hs by done. split.
    + split; [exists n; split; [lia|done]|apply not_elem_of_nil].
    + intros [= E]. apply (slot_inj _ _ _ W') in E; lia.
  - split; [exists total; split; [lia|done]|apply not_elem_of_nil].
Qed.

Lemma newChunk_post `{HeapLaws} live s total s1 c :
  ga_wf s total [] -> ga_wf s1 total [] -> same_blocks s s1 -> GCA_chunk s1 = Ret c ->
  c + ga_csize s1 < ga_top s1 + ga_bsize s1 -> ga_destroyed s1 = ga_destroyed s ->
  exists r s' total' free' dead1, GCA_newChunk s1 = Ret (r, s') /\
    alloc_post live s total [] r s' total' free' dead1.
Proof.
  intros W W1 B Ec Hr Ed.
  destruct (gc_newChunk_wf s1 total [] c W1 Ec Hr) as [E|(p & s' & E & W' & Es & Ho & Ed' & _)].
  - exists Throw, s1, total, [], []. split; [done|].
    split; [done|by rewrite app_nil_r|by intros x ?%elem_of_nil| |done].
    intros x [Hx Hn] _. split; [|done]. split; [|done]. by apply (gc_block_same s s1).
  - exists (Val p), s', (total + 1), [], []. split; [done|].
    apply (fresh_post _ s total [] s1); try done; [by rewrite app_nil_r, Ed'|].
    by intros x ?%elem_of_nil.
Qed.

Lemma lift_bind_Ret {S A B} (m : outcome A) (k : A -> IO S B) s x :
  m = Ret x -> (lift m ≫= k) s = k x s.
Proof. intros ->. done. Qed.
Lemma pop_test s total p free : ga_wf s total (p :: free) -> negb (ga_free s =? 0) = true.
Proof.
  intros W. destruct (ga_free_chain _ _ _ W) as (-> & Hp & _). by rewrite (proj2 (Z.eqb_neq _ _)).
Qed.

(** [C6] Allocation with a mark and sweep collection.
    Whatever the calls of [mark()] done by [collect()] on blocks in use, an
    allocation runs (or [new] fails), the block it returns is in use after, the
    free list stays a chain of distinct unused blocks, and a block in use before
    is still in use and is not returned, unless it was given to [destroy()], which
    only happens to blocks that were not marked.  There are fewer than 2^31 blocks. *)
Theorem GCA_allocate_safe `{HeapLaws} c s total free :
  ga_wf s total free -> total < 2 ^ 31 ->
  (forall p, p ∈ visited true c [] -> in_use s total free p) ->
  exists r s' total' free' destroyed, GCA_allocate c s = Ret (r, s') /\
    alloc_post (visited true c []) s total free r s' total' free' destroyed.
Proof.
  intros W Ht HR. unfold GCA_allocate, get_st. rewrite (io_bind_Val _ _ s s s eq_refl).
  destruct free as [|p free].
  - rewrite (ga_free_chain _ _ _ W : ga_free s = 0), Z.eqb_refl. cbn [negb].
    destruct (chunk_last _ _ _ W) as (k & Ek & _ & j & Ej & Hj & Et). rewrite (lift_bind_Ret _ _ _ _ Ek).
    destruct (Z.leb_spec (ga_top s + ga_bsize s) (k + ga_csize s)) as [Hr|Hr].
    + destruct (top_wf s total [] k W Ek Hr) as [W' Es]. eexists (Val _), _, (total + 1), [], [].
      split; [done|]. apply (fresh_post _ s total [] s); try done; [by rewrite app_nil_r|].
      by intros x ?%elem_of_nil.
    + destruct (GCA_isSync s).
      { apply (newChunk_post _ s total (GCA_set_flags (Flags_set (ga_flags s) GCA_NEED) s) k);
          [done|split; apply W|done..]. }
      destruct (collectGarbage_ok s total c W) as (s1 & free & E & W1 & B & HF & Ed).
      { split; [|done]. destruct (slots_pos _ _ _ W). pose proof (ga_sizes _ _ _ W).
        destruct (ga_last _ _ _ W) as (cs & ? & ? & El & _). rewrite El, length_app in Et. cbn in Et.
        assert (0 < j) by nia. nia. }
      { apply list.Forall_forall. intros p Hp. by apply HR. }
      rewrite (lift_bind_Ret _ _ _ _ E). unfold put_st at 1.
      rewrite (io_bind_Val _ _ s tt s1 eq_refl). destruct free as [|p free].
      * rewrite (ga_free_chain _ _ _ W1 : ga_free s1 = 0), Z.eqb_refl. cbn [negb].
        pose proof B as (E1 & E2 & E3 & E4). apply (newChunk_post _ s total s1 k); try done.
        -- unfold GCA_chunk in *. by rewrite E1.
        -- rewrite E2, E3, E4. done.
        -- by rewrite Ed, app_nil_r.
      * rewrite (pop_test s1 total p free W1). destruct (pop_post (visited true c []) s total [] s1 p free (reverse (p :: free)))
          as (s' & E' & P); [done..| | |by eexists _, _, _, _, _].
        -- intros x Hx. rewrite elem_of_reverse in Hx. apply HF in Hx as [Hb Hv]. split; [split; [done|]|done].
           apply not_elem_of_nil.
        -- intros x _ Hx. by rewrite elem_of_reverse in Hx.
  - rewrite (pop_test s total p free W). destruct (pop_post (visited true c []) s total (p :: free) s p free [])
      as (s' & E' & P); [done|done|by rewrite app_nil_r|by intros x ?%elem_of_nil|by intros x [_ Hx] _|].
    by eexists _, _, _, _, _.
Qed.

(** ** ListGC *)

(** [lg_own]: the blocks got from [new] and not deleted yet; [lg_cleaned]: the calls
    of [clean()] of the manager. *)
(* src/include/elm/alloc/ListGC.h:44-46 ListGC *)
Record ListGC := mkLG {
  lg_lcnt : Z; lg_cnt : Z; lg_lim : Z; lg_head : Z; lg_dis : bool;
  lg_next : links; lg_own : list (Z * Z); lg_cleaned : list Z }.

Definition LG_set_next nx s :=
  mkLG (lg_lcnt s) (lg_cnt s) (lg_lim s) (lg_head s) (lg_dis s) nx (lg_own s) (lg_cleaned s).
Definition LG_set_lcnt n s :=
  mkLG n (lg_cnt s) (lg_lim s) (lg_head s) (lg_dis s) (lg_next s) (lg_own s) (lg_cleaned s).
Definition LG_set_lim n s :=
  mkLG (lg_lcnt s) (lg_cnt s) n (lg_head s) (lg_dis s) (lg_next s) (lg_own s) (lg_cleaned s).
Definition LG_set_dis b s :=
  mkLG (lg_lcnt s) (lg_cnt s) (lg_lim s) (lg_head s) b (lg_next s) (lg_own s) (lg_cleaned s).

(* src/src/alloc_ListGC.cpp:40-40 ListGC::block_t::TAG *)
Definition LG_TAG : Z := 1.
(* src/src/alloc_ListGC.cpp:50-52 ListGC::block_t::block *)
Definition LG_block (p : Z) : Z := p - 8.
(* src/src/alloc_ListGC.cpp:54-54 ListGC::block_t::data *)
Definition LG_data (b : Z) : Z := b + 8.
(* src/src/alloc_ListGC.cpp:55-55 ListGC::block_t::mark *)
Definition LG_mark_block (b : Z) (s : ListGC) : outcome ListGC :=
  q ← read_link (lg_next s) b; Ret (LG_set_next (<[b := Z.lor LG_TAG q]> (lg_next s)) s).
(* src/src/alloc_ListGC.cpp:56-56 ListGC::block_t::unmark *)
Definition LG_unmark_block (b : Z) (s : ListGC) : outcome ListGC :=
  q ← read_link (lg_next s) b; Ret (LG_set_next (<[b := Z.land (Z.lnot LG_TAG) q]> (lg_next s)) s).
(* src/src/alloc_ListGC.cpp:57-57 ListGC::block_t::isMarked *)
Definition LG_isMarked (b : Z) (s : ListGC) : outcome bool :=
  q ← read_link (lg_next s) b; Ret (negb (Z.land q LG_TAG =? 0)).
(* src/src/alloc_ListGC.cpp:46-48 ListGC::block_t::free *)
Definition LG_delete (b : Z) (s : ListGC) : ListGC :=
  mkLG (lg_lcnt s) (lg_cnt s) (lg_lim s) (lg_head s) (lg_dis s) (delete b (lg_next s))
    (filter (fun x => x.1 <> b) (lg_own s)) (lg_cleaned s).
Definition LG_clean_block (b : Z) (s : ListGC) : ListGC :=
  mkLG (lg_lcnt s) (lg_cnt s) (lg_lim s) (lg_head s) (lg_dis s) (lg_next s) (lg_own s)
    (lg_cleaned s ++ [LG_data b]).

Section ListGC.
Context `{Heap}.

(* src/src/alloc_ListGC.cpp:66-73 ListGC::ListGC *)
Definition ListGC_make (limit : Z) : ListGC := mkLG 0 0 limit 0 false ∅ [] [].

(* src/include/elm/alloc/ListGC.h:43-43 ListGC::gcNeeded *)
Definition ListGC_gcNeeded (s : ListGC) : bool :=
  negb (lg_dis s) && (lg_lim s <? s32 (lg_cnt s - lg_lcnt s)).

(* src/src/alloc_ListGC.cpp:123-128 ListGC::mark *)
Definition ListGC_mark (data : Z) (s : ListGC) : outcome (bool * ListGC) :=
  let b := LG_block data in
  r ← LG_isMarked b s;
  s' ← LG_mark_block b s;
  Ret (r, s').

(** The assignment [ *q = p], [q] being [&head] or the link of a block. *)
Definition LG_assign (q : option Z) (p : Z) (s : ListGC) : ListGC :=
  match q with
  | None => mkLG (lg_lcnt s) (lg_cnt s) (lg_lim s) p (lg_dis s) (lg_next s) (lg_own s) (lg_cleaned s)
  | Some b => LG_set_next (<[b := p]> (lg_next s)) s
  end.

(** The body of the loop on [q] and [p]. *)
(* src/src/alloc_ListGC.cpp:103-116 ListGC::runGC *)
Definition LG_sweep : option Z * Z * ListGC -> outcome (option Z * Z * ListGC + ListGC) :=
  fun '(q, p, s) =>
    if p =? 0 then Ret (inr s) else
    m ← LG_isMarked p s;
    if m : bool then
      s ← LG_unmark_block p s;
      p' ← read_link (lg_next s) p;
      Ret (inl (Some p, p', s))
    else
      p' ← read_link (lg_next s) p;
      let s := LG_delete p (LG_clean_block p (LG_assign q p' s)) in
      Ret (inl (q, p', mkLG (lg_lcnt s) (lg_cnt s - 1) (lg_lim s) (lg_head s) (lg_dis s) (lg_next s)
                         (lg_own s) (lg_cleaned s))).

(* src/src/alloc_ListGC.cpp:95-120 ListGC::runGC *)
Definition ListGC_runGC (collect : collector Z) (s : ListGC) : outcome ListGC :=
  s ← run_collect ListGC_mark collect s;
  s ← iter (S (length (lg_own s))) LG_sweep (None, lg_head s, s);
  Ret (LG_set_lcnt (lg_cnt s) s).

(* src/src/alloc_ListGC.cpp:81-92 ListGC::allocate *)
Definition ListGC_allocate (collect : collector Z) (size : Z) : IO ListGC Z :=
  s ← get_st;
  match new_block (lg_own s) (u64 (size + 8)) with
  | None => throw
  | Some p =>
      let s := mkLG (lg_lcnt s) (s32 (lg_cnt s + 1)) (lg_lim s) p (lg_dis s)
                 (<[p := lg_head s]> (lg_next s)) ((p, u64 (size + 8)) :: lg_own s) (lg_cleaned s) in
      if ListGC_gcNeeded s then
        s ← lift (LG_mark_block p (LG_set_lim (s32 (lg_lim s * 2)) s));
        s ← lift (ListGC_runGC collect s);
        put_st s ;; mret (LG_data p)
      else put_st s ;; mret (LG_data p)
  end.

(* src/src/alloc_ListGC.cpp:131-133 ListGC::disable *)
Definition ListGC_disable : ListGC -> ListGC := LG_set_dis true.
(* src/src/alloc_ListGC.cpp:136-140 ListGC::enable *)
Definition ListGC_enable (collect : collector Z) (s : ListGC) : outcome ListGC :=
  let s := LG_set_dis false s in
  if ListGC_gcNeeded s then ListGC_runGC collect s else Ret s.

(* src/src/alloc_ListGC.cpp:143-154 ListGC::clean *)
Definition ListGC_clean (s : ListGC) : outcome ListGC :=
  s ← iter (S (length (lg_own s))) (fun '(p, s) =>
        if p =? 0 then Ret (inr s) else
        q ← read_link (lg_next s) p;
        Ret (inl (q, LG_delete p (LG_clean_block p s)))) (lg_head s, s);
  Ret (mkLG 0 0 (lg_lim s) 0 (lg_dis s) (lg_next s) (lg_own s) (lg_cleaned s)).

End ListGC.

(** *** Chains with marks *)

(** The blocks [l] from [p] to [e]; the low bit of the link of the blocks whose data
    is in [m] is set. *)
Fixpoint seg (nx : links) (m : list Z) (p : Z) (l : list Z) (e : Z) : Prop :=
  match l with
  | [] => p = e
  | x :: l => p = x /\ exists q, Z.even q = true /\
      nx !! x = Some (if bool_decide (LG_data x ∈ m) then Z.lor LG_TAG q else q) /\ seg nx m q l e
  end.

Lemma seg_ext nx nx' m m' p l e :
  (forall x, x ∈ l -> nx' !! x = nx !! x /\ (LG_data x ∈ m' <-> LG_data x ∈ m)) ->
  seg nx m p l e -> seg nx' m' p l e.
Proof.
  revert p. induction l as [|x l IH]; intros p Hx; [done|]. cbn. intros (-> & q & Hq & E & Hs).
  split; [done|]. destruct (Hx x) as [E1 E2]; [left|]. exists q. split; [done|].
  split; [|apply IH; [intros y Hy; apply Hx; by right|done]].
  rewrite E1, E. by rewrite (bool_decide_ext _ _ E2).
Qed.

Lemma seg_snoc nx m p l x q : seg nx m p l x -> Z.even q = true -> LG_data x ∉ m ->
  nx !! x = Some q -> seg nx m p (l ++ [x]) q.
Proof.
  revert p. induction l as [|y l IH]; intros p.
  - cbn. intros -> Hq Hm E. split; [done|]. exists q. rewrite bool_decide_false by done. done.
  - cbn. intros (-> & q' & Hq' & E' & Hs) Hq Hm E. split; [done|]. exists q'. eauto.
Qed.

Lemma even_testbit q : Z.even q = true -> Z.testbit q 0 = false.
Proof. intros E. rewrite Z.bit0_odd, <- Z.negb_even, E. done. Qed.

Lemma tag_set q : Z.even q = true ->
  negb (Z.land (Z.lor LG_TAG q) LG_TAG =? 0) = true /\ Z.land (Z.lnot LG_TAG) (Z.lor LG_TAG q) = q /\
  Z.lor LG_TAG (Z.lor LG_TAG q) = Z.lor LG_TAG q /\ negb (Z.land q LG_TAG =? 0) = false.
Proof.
  intros Hq%even_testbit. unfold LG_TAG. change 1 with (Z.shiftl 1 0).
  rewrite !land_bit_test, Z.lor_spec by lia. split_and!; [done| | |done].
  - apply Z.bits_inj'. intros i Hi. rewrite Z.land_spec, Z.lor_spec, Z.lnot_spec, testbit_shiftl_1 by lia.
    destruct (Z.eqb_spec 0 i) as [<-|]; cbn; [done|done].
  - by rewrite Z.lor_assoc, Z.lor_diag.
Qed.

Lemma seg_link nx m p l e x : seg nx m p l e -> x ∈ l -> exists q, Z.even q = true /\
  nx !! x = Some (if bool_decide (LG_data x ∈ m) then Z.lor LG_TAG q else q).
Proof.
  revert p. induction l as [|y l IH]; intros p; [by intros _ ?%elem_of_nil|]. cbn.
  intros (-> & q & Hq & E & Hs) [->|Hx]%elem_of_cons; [by exists q|]. by apply (IH q).
Qed.

Lemma seg_mark nx m p l e x w : seg nx m p l e -> NoDup l -> nx !! x = Some w ->
  seg (<[x := Z.lor LG_TAG w]> nx) (LG_data x :: m) p l e.
Proof.
  revert p. induction l as [|y l IH]; intros p; [done|]. cbn.
  intros (-> & q & Hq & E & Hs) [Hy ND]%NoDup_cons Ew. split; [done|]. exists q. split; [done|].
  destruct (decide (x = y)) as [->|Hne].
  - rewrite lookup_insert_eq. rewrite E in Ew. injection Ew as <-.
    split; [|by apply IH]. rewrite (bool_decide_true (_ ∈ _ :: _)) by left.
    case_bool_decide; [|done]. f_equal. apply (tag_set q Hq).
  - rewrite lookup_insert_ne by done. split; [|by apply IH]. rewrite E. f_equal.
    erewrite bool_decide_ext; [done|]. rewrite elem_of_cons. unfold LG_data. split; [by right|].
    intros [H|H]; [lia|done].
Qed.

Lemma seg_last nx m h l b e : seg nx m h (l ++ [b]) e -> seg nx m h l b.
Proof.
  revert h. induction l as [|y l IH]; intros h; cbn; [intros (-> & _); done|].
  intros (-> & q & Hq & E & Hs). split; [done|]. exists q. eauto.
Qed.

(** The blocks [l], the marks [m]. *)
Record lg_wf (s : ListGC) (m l : list Z) : Prop := {
  lw_seg : seg (lg_next s) m (lg_head s) l 0;
  lw_nodup : NoDup l;
  lw_addr x : x ∈ l -> 0 < x /\ Z.even x = true;
  lw_own : (lg_own s).*1 ≡ₚ l;
  lw_size b : b ∈ lg_own s -> 8 <= b.2;
  lw_sep : separate (lg_own s);
  lw_cnt : lg_cnt s = zlen l }.

(** What [mark()] leaves. *)
Definition LG_same (s s' : ListGC) : Prop :=
  lg_lcnt s' = lg_lcnt s /\ lg_lim s' = lg_lim s /\ lg_dis s' = lg_dis s /\
  lg_own s' = lg_own s /\ lg_cleaned s' = lg_cleaned s.
#[export] Instance LG_same_equiv : Equivalence LG_same.
Proof.
  unfold LG_same. split; [done|intros s t (?&?&?&?&?); done|].
  intros s t u (?&?&?&?&?) (?&?&?&?&?). split_and!; congruence.
Qed.

Lemma LG_mark_block_ok s m l x : lg_wf s m l -> x ∈ l ->
  exists s', LG_mark_block x s = Ret s' /\ lg_wf s' (LG_data x :: m) l /\ LG_same s s'.
Proof.
  intros W Hx. destruct (seg_link _ _ _ _ _ x (lw_seg _ _ _ W) Hx) as (q & Hq & E).
  unfold LG_mark_block, read_link. rewrite E. mred. eexists. split; [done|]. split; [|done].
  split; try apply W. cbn. apply seg_mark; [apply W..|done].
Qed.

Lemma ListGC_mark_ok s m l x : lg_wf s m l -> x ∈ l ->
  exists s', ListGC_mark (LG_data x) s = Ret (bool_decide (LG_data x ∈ m), s') /\
    lg_wf s' (LG_data x :: m) l /\ LG_same s s'.
Proof.
  intros W Hx. destruct (LG_mark_block_ok s m l x W Hx) as (s' & E' & P). exists s'. split; [|done].
  destruct (seg_link _ _ _ _ _ x (lw_seg _ _ _ W) Hx) as (q & Hq & E).
  unfold ListGC_mark, LG_isMarked, LG_block, LG_data in *. replace (x + 8 - 8) with x by lia.
  unfold read_link at 1. rewrite E. mred. rewrite E'. mred. do 2 f_equal.
  destruct (tag_set q Hq) as (T1 & _ & _ & T2). case_bool_decide; done.
Qed.

Lemma lg_collect_ok c s m l : lg_wf s m l ->
  (forall p, p ∈ visited false c m -> exists x, x ∈ l /\ p = LG_data x) ->
  exists s', run_collect ListGC_mark c s = Ret s' /\ lg_wf s' (visited false c m) l /\ LG_same s s'.
Proof.
  revert s m. induction c as [|p k IH]; intros s m W F; [by exists s|].
  cbn [visited run_collect] in *.
  destruct (F p) as (x & Hx & ->); [apply visited_mono; left|].
  destruct (ListGC_mark_ok s m l x W Hx) as (s' & -> & W' & B). mred.
  replace (xorb false _) with (bool_decide (LG_data x ∈ m)) in * by (by case_bool_decide).
  destruct (IH _ s' _ W' F) as (s2 & E & W2 & B2). exists s2.
  split; [done|]. split; [done|]. by transitivity s'.
Qed.

(** *** The sweep *)

Abbreviation marked m := (fun x => LG_data x ∈ m).

(** The blocks [todo] remain, the blocks [kept] were marked, [gone] are deleted. *)
Record sweeping (s0 : ListGC) (m kept gone todo : list Z) (q : option Z) (p : Z) (s : ListGC) : Prop := {
  sw_q : q = last kept;
  sw_kept : seg (lg_next s) [] (lg_head s) kept p;
  sw_todo : seg (lg_next s) m p todo 0;
  sw_nodup : NoDup (kept ++ todo);
  sw_addr x : x ∈ kept ++ todo -> 0 < x /\ Z.even x = true;
  sw_own : (lg_own s).*1 ≡ₚ kept ++ todo;
  sw_size b : b ∈ lg_own s -> 8 <= b.2;
  sw_sep : separate (lg_own s);
  sw_cnt : lg_cnt s = zlen (kept ++ todo);
  sw_same : lg_lim s = lg_lim s0 /\ lg_dis s = lg_dis s0;
  sw_cleaned : lg_cleaned s = lg_cleaned s0 ++ (LG_data <$> gone) }.

(** [*q = v]. *)
Lemma assign_ok s kept p v todo m : seg (lg_next s) [] (lg_head s) kept p -> Z.even v = true ->
  seg (lg_next s) m v todo 0 -> NoDup (kept ++ todo) ->
  let s' := LG_assign (last kept) v s in
  seg (lg_next s') [] (lg_head s') kept v /\ seg (lg_next s') m v todo 0.
Proof.
  intros Sk Ev St ND. destruct kept as [|b k _] using rev_ind; [by cbn|].
  rewrite last_snoc. cbn. apply seg_last in Sk. rewrite <- app_assoc in ND.
  apply NoDup_app in ND as (_ & Hd & ND). cbn in ND. apply NoDup_cons in ND as [Hb _]. split.
  - apply seg_snoc; [|done|apply not_elem_of_nil|by rewrite lookup_insert_eq].
    eapply seg_ext; [|exact Sk]. intros x Hx. rewrite lookup_insert_ne; [done|].
    intros ->. apply (Hd _ Hx). left.
  - eapply seg_ext; [|exact St]. intros x Hx. rewrite lookup_insert_ne; [done|congruence].
Qed.

(** Reading a link of an unswept block. *)
Lemma seg_head nx m p x l e : seg nx m p (x :: l) e -> p = x /\ exists q, Z.even q = true /\
  nx !! x = Some (if bool_decide (marked m x) then Z.lor LG_TAG q else q) /\ seg nx m q l e.
Proof. done. Qed.

Lemma delete_own (own : list (Z * Z)) x l : own.*1 ≡ₚ x :: l -> NoDup (x :: l) ->
  (filter (fun b => b.1 <> x) own).*1 ≡ₚ l.
Proof.
  intros P ND. assert ((filter (fun b => b.1 <> x) own).*1 = filter (fun a => a <> x) own.*1) as ->.
  { clear. induction own as [|b own IH]; [done|]. rewrite fmap_cons, !filter_cons.
    repeat case_decide; cbn; by rewrite ?IH. }
  rewrite P. apply NoDup_cons in ND as [Hx _]. rewrite filter_cons_False by auto.
  rewrite filter_all; [done|]. intros y Hy ->. done.
Qed.

Section Sweep.
Context (s0 : ListGC) (m : list Z).

Lemma sweep_live kept gone x todo q p s :
  sweeping s0 m kept gone (x :: todo) q p s -> LG_data x ∈ m ->
  exists p' s', LG_sweep (q, p, s) = Ret (inl (Some x, p', s')) /\
    sweeping s0 m (kept ++ [x]) gone todo (Some x) p' s'.
Proof.
  intros W Hm. pose proof (sw_todo _ _ _ _ _ _ _ _ W) as (Ep & r & Hr & E & St). subst p.
  pose proof (sw_addr _ _ _ _ _ _ _ _ W x) as [Hx _]; [apply elem_of_app; right; left|].
  pose proof (sw_nodup _ _ _ _ _ _ _ _ W) as ND. rewrite cons_middle, app_assoc in ND.
  pose proof ND as (NDk & Hd & _)%NoDup_app. apply NoDup_app in NDk as (_ & Hk & _).
  rewrite bool_decide_true in E by done. destruct (tag_set r Hr) as (T1 & T2 & _ & _).
  unfold LG_sweep. rewrite (proj2 (Z.eqb_neq _ _)) by lia. unfold LG_isMarked, LG_unmark_block, read_link.
  rewrite E. mred. rewrite T1, T2. cbn [lg_next LG_set_next]. rewrite lookup_insert_eq. mred.
  eexists _, _. split; [done|].
  destruct W; split; cbn [lg_next lg_head lg_own lg_cnt lg_lim lg_dis lg_cleaned LG_set_next];
    rewrite <- ?app_assoc; try done.
  - by rewrite last_snoc.
  - apply seg_snoc; [|done|apply not_elem_of_nil|by rewrite lookup_insert_eq].
    eapply seg_ext; [|exact sw_kept0]. intros y Hy. rewrite lookup_insert_ne; [done|].
    intros ->. apply (Hk _ Hy). left.
  - eapply seg_ext; [|exact St]. intros y Hy. rewrite lookup_insert_ne; [done|].
    intros ->. apply (Hd y); [|done]. apply elem_of_app. right. left.
Qed.

Lemma sweep_dead kept gone x todo q p s :
  sweeping s0 m kept gone (x :: todo) q p s -> LG_data x ∉ m ->
  exists p' s', LG_sweep (q, p, s) = Ret (inl (q, p', s')) /\
    sweeping s0 m kept (gone ++ [x]) todo q p' s'.
Proof.
  intros W Hm. pose proof (sw_todo _ _ _ _ _ _ _ _ W) as (Ep & r & Hr & E & St). subst p.
  pose proof (sw_addr _ _ _ _ _ _ _ _ W x) as [Hx _]; [apply elem_of_app; right; left|].
  pose proof (sw_nodup _ _ _ _ _ _ _ _ W) as ND. rewrite <- Permutation_middle in ND.
  pose proof ND as [Hn ND']%NoDup_cons.
  rewrite bool_decide_false in E by done. destruct (tag_set r Hr) as (_ & _ & _ & T).
  unfold LG_sweep. rewrite (proj2 (Z.eqb_neq _ _)) by lia. unfold LG_isMarked, read_link.
  rewrite E. mred. rewrite T. eexists _, _. split; [done|].
  destruct (assign_ok s kept x r todo m) as [A1 A2]; [apply W|done|done|done|].
  assert (forall y, y ∈ kept ++ todo -> delete x (lg_next (LG_assign q r s)) !! y
    = lg_next (LG_assign q r s) !! y /\ (LG_data y ∈ m <-> LG_data y ∈ m)) as Hdel.
  { intros y Hy. split; [|done]. apply lookup_delete_ne. congruence. }
  assert (lg_own (LG_assign q r s) = lg_own s /\ lg_cnt (LG_assign q r s) = lg_cnt s /\
    lg_lim (LG_assign q r s) = lg_lim s /\ lg_dis (LG_assign q r s) = lg_dis s /\
    lg_cleaned (LG_assign q r s) = lg_cleaned s) as (F1 & F2 & F3 & F4 & F5) by by destruct q.
  destruct W. subst q.
  split; cbn [lg_next lg_head lg_own lg_cnt lg_lim lg_dis lg_cleaned LG_delete LG_clean_block];
    rewrite ?F1, ?F2, ?F3, ?F4, ?F5; try done.
  - eapply seg_ext; [|exact A1]. intros y Hy. split; [|done]. apply Hdel, elem_of_app. by left.
  - eapply seg_ext; [|exact A2]. intros y Hy. apply Hdel, elem_of_app. by right.
  - intros y Hy. apply sw_addr0. rewrite <- Permutation_middle. by right.
  - apply (delete_own _ x); [|done]. by rewrite Permutation_middle.
  - intros b [_ Hb]%list_elem_of_filter. by apply sw_size0.
  - by apply separate_filter.
  - rewrite sw_cnt0, !length_app. cbn. lia.
  - by rewrite sw_cleaned0, fmap_app, app_assoc.
Qed.

Lemma sweep_loop todo : forall fuel kept gone q p s,
  sweeping s0 m kept gone todo q p s -> (length todo < fuel)%nat ->
  exists s', iter fuel LG_sweep (q, p, s) = Ret s' /\
    sweeping s0 m (kept ++ filter (marked m) todo)
      (gone ++ filter (fun x => LG_data x ∉ m) todo) [] (last (kept ++ filter (marked m) todo)) 0 s'.
Proof.
  induction todo as [|x todo IH]; intros fuel kept gone q p s W Hf;
    (destruct fuel as [|fuel]; [cbn in Hf; lia|]); cbn [iter].
  - assert (p = 0) as -> by exact (sw_todo _ _ _ _ _ _ _ _ W).
    assert (q = last kept) as -> by apply W. rewrite !filter_nil, !app_nil_r. by exists s.
  - cbn in Hf. destruct (decide (LG_data x ∈ m)) as [Hm|Hm].
    + destruct (sweep_live _ _ _ _ _ _ _ W Hm) as (p' & s' & -> & W'). mred.
      rewrite filter_cons_True, filter_cons_False, cons_middle, app_assoc by (done || by intros ?).
      apply (IH fuel _ _ _ _ _ W'). lia.
    + destruct (sweep_dead _ _ _ _ _ _ _ W Hm) as (p' & s' & -> & W'). mred.
      rewrite filter_cons_False, filter_cons_True, (cons_middle x gone), app_assoc by done.
      apply (IH fuel _ _ _ _ _ W'). lia.
Qed.

End Sweep.

Lemma runGC_ok c s m l : lg_wf s m l ->
  (forall p, p ∈ visited false c m -> exists x, x ∈ l /\ p = LG_data x) ->
  exists s', ListGC_runGC c s = Ret s' /\ lg_wf s' [] (filter (marked (visited false c m)) l) /\
    lg_cleaned s' = lg_cleaned s ++ (LG_data <$> filter (fun x => LG_data x ∉ visited false c m) l) /\
    lg_lcnt s' = lg_cnt s' /\ lg_lim s' = lg_lim s /\ lg_dis s' = lg_dis s.
Proof.
  intros W HR. destruct (lg_collect_ok c s m l W HR) as (s1 & E1 & W1 & B1).
  unfold ListGC_runGC. rewrite E1. mred.
  destruct (sweep_loop s1 (visited false c m) l (S (length (lg_own s1))) [] [] None (lg_head s1) s1)
    as (s2 & -> & W2).
  - destruct W1. split; try done. by rewrite app_nil_r.
  - pose proof (Permutation_length (lw_own _ _ _ W1)) as El. rewrite length_fmap in El. lia.
  - mred. eexists. split; [done|]. destruct W2. rewrite app_nil_r, !app_nil_l in *.
    destruct B1 as (_ & B2 & B3 & _ & B4), sw_same0. split; [by split|]. cbn.
    split; [by rewrite sw_cleaned0, B4|]. split_and!; congruence.
Qed.

(** The heap gives a block that is not one of the blocks of the collector. *)
Lemma new_not_own `{HeapLaws} s m l n x : lg_wf s m l -> new_block (lg_own s) n = Some x -> 0 < n ->
  0 < x /\ Z.even x = true /\ Forall (disj (x, n)) (lg_own s) /\ x ∉ l.
Proof.
  intros W E Hn. destruct (new_in_space _ _ _ E Hn). apply new_even in E as Ee. apply new_fresh in E as Ef.
  split_and!; [done..|]. intros Hx. rewrite <- (lw_own _ _ _ W) in Hx.
  apply list_elem_of_fmap in Hx as (b & -> & Hb). rewrite list.Forall_forall in Ef.
  destruct (Ef b Hb) as [D|D]; cbn in D; pose proof (lw_size _ _ _ W b Hb); lia.
Qed.

(** The block is put in front of the others. *)
Lemma lg_cons s l x n : lg_wf s [] l -> 8 <= n -> 0 < x -> Z.even x = true ->
  Forall (disj (x, n)) (lg_own s) -> x ∉ l -> zlen l + 1 < 2 ^ 31 ->
  lg_wf (mkLG (lg_lcnt s) (s32 (lg_cnt s + 1)) (lg_lim s) x (lg_dis s)
    (<[x := lg_head s]> (lg_next s)) ((x, n) :: lg_own s) (lg_cleaned s)) [] (x :: l).
Proof.
  intros W Hn H0 He Hf Hx Hl. pose proof (lw_cnt _ _ _ W) as Ec.
  split; cbn [lg_next lg_head lg_own lg_cnt].
  - cbn [seg]. split; [done|]. exists (lg_head s). rewrite lookup_insert_eq, bool_decide_false
      by apply not_elem_of_nil. split; [|split; [done|]].
    + destruct l as [|y l]; [by rewrite (lw_seg _ _ _ W : _ = _)|].
      destruct (lw_seg _ _ _ W) as [-> _]. apply (lw_addr _ _ _ W). left.
    + eapply seg_ext; [|apply (lw_seg _ _ _ W)]. intros y Hy.
      rewrite lookup_insert_ne; [done|congruence].
  - constructor; [done|apply W].
  - intros y [->|Hy]%elem_of_cons; [done|by apply (lw_addr _ _ _ W)].
  - cbn. by rewrite (lw_own _ _ _ W).
  - intros b [->|Hb]%elem_of_cons; [cbn; lia|by apply (lw_size _ _ _ W)].
  - constructor; [done|apply W].
  - rewrite Ec, swrap_small; cbn; lia.
Qed.

(** [C7] Mark and sweep over a list.
    An allocation of [ListGC] runs or throws without changing the collector; the
    block it returns is a new one; either no collection took place and the other
    blocks are all kept, or those that [collect()] marked, and they alone, are kept,
    in the same order, the others being given to [clean()] and deleted. No mark is
    left and the counter is right.  There are fewer than 2^31 blocks, of less than
    2^63 bytes. *)
Theorem ListGC_allocate_safe `{HeapLaws} c size s l :
  lg_wf s [] l -> 0 <= size < 2 ^ 63 -> zlen l + 1 < 2 ^ 31 ->
  (forall m p, p ∈ visited false c m -> p ∈ m \/ p ∈ (LG_data <$> l)) ->
  ListGC_allocate c size s = Ret (Throw, s) \/
  exists x s' l', ListGC_allocate c size s = Ret (Val (LG_data x), s') /\ (x ∉ l) /\
    lg_wf s' [] (x :: l') /\
    (l' = l /\ lg_cleaned s' = lg_cleaned s \/
     l' = filter (fun y => LG_data y ∈ visited false c [LG_data x]) l /\
     lg_cleaned s' = lg_cleaned s ++
       (LG_data <$> filter (fun y => LG_data y ∉ visited false c [LG_data x]) l)).
Proof.
  intros W Hs Hl HR. unfold ListGC_allocate, get_st. rewrite (io_bind_Val _ _ s s s eq_refl).
  destruct (new_block _ _) as [x|] eqn:En; [right|by left].
  assert (u64 (size + 8) = size + 8) as Eu by (apply wrap_small; unfold inw; lia). rewrite Eu in *.
  destruct (new_not_own s [] l _ x W En) as (P1 & P2 & P3 & P4); [lia|].
  pose proof (lg_cons s l x (size + 8) W ltac:(lia) P1 P2 P3 P4 Hl) as W1.
  match type of W1 with lg_wf ?s1 _ _ => set (t := s1) in * end. cbv zeta.
  destruct (ListGC_gcNeeded t); [|by exists x, t, l; split_and!; try done; left].
  destruct (LG_mark_block_ok (LG_set_lim (s32 (lg_lim t * 2)) t) [] (x :: l) x)
    as (s1 & E1 & W2 & B1); [by destruct W1; split|left|].
  rewrite (lift_bind_Ret _ _ _ _ E1).
  destruct (runGC_ok c s1 [LG_data x] (x :: l) W2) as (s2 & E2 & W3 & Ec & _).
  { intros p [Hp|Hp]%HR.
    - apply list_elem_of_singleton in Hp as ->. exists x. split; [left|done].
    - apply list_elem_of_fmap in Hp as (y & -> & Hy). exists y. split; [by right|done]. }
  rewrite (lift_bind_Ret _ _ _ _ E2).
  assert (LG_data x ∈ visited false c [LG_data x]) as Hx by (apply visited_mono; left).
  rewrite filter_cons_True in W3 by done. rewrite filter_cons_False in Ec by (by intros ?).
  exists x, s2, (filter (marked (visited false c [LG_data x])) l).
  split; [done|]. split; [done|]. split; [done|]. right. split; [done|].
  destruct B1 as (_ & _ & _ & _ & B1). by rewrite Ec, B1.
Qed.

(** ** A heap *)

(** Blocks one after the other, aligned on 16 bytes. *)
#[export] Instance bump_heap : Heap := fun own n =>
  let e := foldr (fun b m => Z.max (b.1 + b.2) m) 0 own in
  let a := 16 * (e / 16 + 1) in
  if (0 <? n) && (a + n <=? 2 ^ 64) then Some a else None.

Lemma foldr_max_ge (own : list (Z * Z)) b :
  b ∈ own -> b.1 + b.2 <= foldr (fun b m => Z.max (b.1 + b.2) m) 0 own.
Proof.
  induction own as [|x own IH]; [by intros ?%elem_of_nil|].
  intros [->|Hb]%elem_of_cons; cbn; [lia|]. specialize (IH Hb). lia.
Qed.
Lemma foldr_max_pos (own : list (Z * Z)) : 0 <= foldr (fun b m => Z.max (b.1 + b.2) m) 0 own.
Proof. induction own as [|x own IH]; cbn; lia. Qed.

#[export] Instance bump_laws : HeapLaws (H := bump_heap).
Proof.
  split; intros own n a; unfold new_block, bump_heap;
    pose proof (foldr_max_pos own); pose proof (foldr_max_ge own);
    set (e := foldr _ _ own) in *; clearbody e; cbv zeta;
    destruct (Z.ltb_spec 0 n); cbn [andb]; try done;
    destruct (Z.leb_spec (16 * (e / 16 + 1) + n) (2 ^ 64)); try done; intros [= <-].
  - intros _. pose proof (Z.div_pos e 16). lia.
  - by rewrite Z.even_mul.
  - apply list.Forall_forall. intros b Hb. right. cbn.
    pose proof (H0 b Hb). dlia.
Qed.

(** ** Theorems on the stack and the block allocators *)

(** [C5] Programs over the stack allocator, and the block allocator above it. In every
    state that a stack allocator, of chunks of any size below 2^64 - 8 bytes, reaches by
    allocations, clearings, and releases to a mark taken in the current chunk, the blocks
    it gave do not overlap and lie in the buffers of its chunks, and an allocation of at
    most the chunk size runs with two turns of the recursion, throws only when [new]
    does, and gives a block apart from the others. A block allocator for elements of [n]
    bytes and [count] blocks by chunk, [8 <= n <= 8 * count] (its chunks have
    [8 * count] bytes, and no element larger than that is given), never gives a block
    that overlaps one the program holds. *)
Theorem allocators_separate `{HeapLaws} size n count sa live ba used :
  0 <= size -> 8 + size < 2 ^ 64 -> sa_reach size sa live ->
  8 <= n <= 8 * count -> 8 + 8 * count < 2 ^ 64 -> ba_reach n count ba used ->
  separate live /\
  (forall b, b ∈ live -> exists c, c ∈ sa_cur sa /\ sa_buffer c <= b.1 /\ b.1 + b.2 <= sa_buffer c + size) /\
  (forall k, 0 <= k <= size -> StackAllocator_allocate k sa = Ret (Throw, sa) \/
     exists p sa', StackAllocator_allocate k sa = Ret (Val p, sa') /\ Forall (disj (p, k)) live) /\
  separate ((fun p => (p, n)) <$> used) /\
  (BlockAllocator_allocate n ba = Ret (Throw, ba) \/
   exists p ba', BlockAllocator_allocate n ba = Ret (Val p, ba') /\
     Forall (fun q => disj (p, n) (q, n)) used).
Proof.
  intros Hz Hz2 Rs Hn Hc Rb. destruct (sa_reach_wf size sa live) as [Ws Es]; [lia|lia|done|].
  destruct (ba_reach_wf n count ba used Hn Hc Rb) as (free & Wb & Eb).
  split; [apply Ws|]. split; [|split; [|split]].
  - intros b Hb. destruct (sa_live_in _ _ Ws b Hb) as (_ & c & Hc' & B1 & B2 & _).
    exists c. unfold sa_buffer. rewrite Es in B2. done.
  - intros k Hk. destruct (allocate_wf sa live k Ws) as [E|(p & s' & E & W' & _)]; [lia|by left|right].
    exists p, s'. split; [done|]. pose proof (sa_live_sep _ _ W') as S. by inversion S.
  - pose proof (sa_live_sep _ _ (ba_stack _ _ _ _ Wb)) as S. rewrite fmap_app in S.
    by apply separate_app_l in S.
  - destruct (ba_allocate_wf n ba used free) as [E|(p & s' & free' & E & W' & _)]; [lia|done|by left|right].
    exists p, s'. split; [done|]. pose proof (sa_live_sep _ _ (ba_stack _ _ _ _ W')) as S.
    rewrite fmap_app in S. apply separate_app_l in S. inversion S as [|? ? F _]; subst.
    rewrite list.Forall_forall in F. apply list.Forall_forall. intros q Hq.
    apply F, list_elem_of_fmap. by exists q.
Qed.

Lemma allocators_separate_witness :
  exists sa ba, sa_reach 64 sa [(48, 24); (24, 24)] /\ ba_reach 24 8 ba [24] /\
    separate [(48, 24); (24, 24)] /\ Forall (fun q => disj (48, 24) (q, 24)) [24].
Proof.
  eexists _, _. assert (forall sa ba, sa_reach 64 sa [(48, 24); (24, 24)] -> ba_reach 24 8 ba [24] ->
    sa_reach 64 sa [(48, 24); (24, 24)] /\ ba_reach 24 8 ba [24] /\
    separate [(48, 24); (24, 24)] /\ Forall (fun q => disj (48, 24) (q, 24)) [24]) as X.
  { intros sa ba Ra Rb.
    assert (8 <= 24 <= 8 * 8) as L1 by lia. assert (8 + 8 * 8 < 2 ^ 64) as L2 by lia.
    pose proof (allocators_separate (H := bump_heap) 64 24 8 sa _ ba [24] ltac:(lia) ltac:(lia) Ra L1 L2 Rb) as (S & _).
    split; [exact Ra|]. split; [exact Rb|]. split; [exact S|].
    constructor; [right; cbn; lia|constructor]. }
  apply (X (mkSA [16] 88 72 64) (mkBA (mkSA [16] 88 48 64) 0 ∅)).
  - apply (sa_r_alloc 64 (mkSA [16] 88 48 64) [(24, 24)] 24); [|lia|vm_compute; reflexivity].
    apply (sa_r_alloc 64 (mkSA [] 0 0 64) [] 24); [|lia|vm_compute; reflexivity].
    apply sa_r_make. reflexivity.
  - apply (ba_r_alloc 24 8 (mkBA (mkSA [] 0 0 64) 0 ∅) []); [|vm_compute; reflexivity].
    apply ba_r_make. reflexivity.
Defined.

(** A program that holds one block in a chunk of two: the first allocation uses the
    room left, the second one collects a block that is not marked. *)
Definition gc_ex : GCAllocator := mkGCA 0 0 0 [16] 24 8 16 None ∅ [].
Lemma gc_ex_wf : ga_wf gc_ex 1 [].
Proof.
  split; cbn; try done; try lia.
  - repeat constructor.
  - intros c Hc%list_elem_of_singleton. by subst.
  - exists [], 16, 1. cbn. unfold slots. cbn. split_and!; done.
  - constructor.
  - by intros p ?%elem_of_nil.
Qed.

Lemma GCA_allocate_safe_witness :
  ga_wf gc_ex 1 [] /\ in_use gc_ex 1 [] 16 /\
  exists r s' total' free' destroyed,
    GCA_allocate (Mark 16 (fun _ => Done)) gc_ex = Ret (r, s') /\
    alloc_post [16] gc_ex 1 [] r s' total' free' destroyed.
Proof.
  assert (in_use gc_ex 1 [] 16) as U.
  { split; [exists 0; split; [lia|reflexivity]|apply not_elem_of_nil]. }
  split; [apply gc_ex_wf|]. split; [exact U|].
  apply (GCA_allocate_safe (Mark 16 (fun _ => Done)) gc_ex 1 [] gc_ex_wf); [lia|].
  intros p Hp%list_elem_of_singleton. by subst.
Defined.

Lemma ListGC_allocate_safe_witness :
  lg_wf (ListGC_make 0) [] [] /\
  exists x s' l', ListGC_allocate Done 24 (ListGC_make 0) = Ret (Val (LG_data x), s') /\ lg_wf s' [] (x :: l').
Proof.
  assert (lg_wf (ListGC_make 0) [] []) as W.
  { split; cbn; first [done|by intros ? ?%elem_of_nil|constructor]. }
  split; [done|].
  destruct (ListGC_allocate_safe Done 24 (ListGC_make 0) [] W) as [E|(x & s' & l' & E & _ & W' & _)];
    [lia|cbn; lia|by left|done|by exists x, s', l'].
Defined.

(** *** What the code does not handle *)

(** [release()] to a mark of an older chunk keeps the limit of the chunk it frees:
    the next allocations pass the end of the buffer. *)
Example release_keeps_limit :
  let s := mkSA [16; 100] (24 + 64) 30 64 in
  exists s', StackAllocator_release 110 s = Ret s' /\ sa_cur s' = [100] /\ sa_max s' = 88 /\
    exists s2, StackAllocator_allocate 64 s' = Ret (Val 110, s2) /\ sa_buffer 100 + 64 < 110 + 64.
Proof. eexists. split; [reflexivity|]. split; [done|]. split; [done|]. eexists. by split. Qed.

(** A mark taken when the chunk is full cannot be released. *)
Example release_of_full_chunk :
  exists s, StackAllocator_alloc 2 64 (mkSA [] 0 0 64) = Ret (Val 24, s) /\
    StackAllocator_release (StackAllocator_mark s) s = Crash AssertFailed.
Proof. eexists. by split; vm_compute. Qed.

(** With elements of less than 8 bytes, the link of a freed block overwrites its
    neighbours; the elements larger than 8 bytes times the count are refused. *)
Example small_blocks_overlap :
  exists s1 s2, BlockAllocator_make 4 32 = Ret s1 /\
    (BlockAllocator_allocate 4 ≫= fun _ => BlockAllocator_allocate 4) s1 = Ret (Val 28, s2) /\
    ~ disj (24, 8) (28, 4).
Proof.
  eexists _, _. split; [reflexivity|]. split; [vm_compute; reflexivity|].
  intros [D|D]; cbn in D; lia.
Qed.
Example large_blocks_refused :
  exists s, BlockAllocator_make 300 32 = Ret s /\ BlockAllocator_allocate 300 s = Crash AssertFailed.
Proof. eexists. by split. Qed.

(** A collection while the free list is not empty puts its blocks a second time:
    the list becomes a cycle and two allocations return the same block. *)
Example collect_twice :
  (s ← GCA_collectGarbage Done gc_ex; s ← GCA_collectGarbage Done s;
   '(r1, s) ← GCA_allocate Done s; '(r2, s) ← GCA_allocate Done s; Ret (r1, r2))
  = Ret (Val 16, Val 16).
Proof. vm_compute. reflexivity. Qed.

(** The collection of an allocator without any block stops on an assertion. *)
Example collect_empty :
  exists s, GCA_make 8 16 = Ret (Some s) /\ GCA_collectGarbage Done s = Crash AssertFailed.
Proof. eexists. by split. Qed.
