(* ===== verification/Collectors.v ===== *)
(** * Collectors that find the block of an address

    [SimpleGC] (alloc_SimpleGC.cpp, alloc/SimpleGC.h): blocks of any size cut at the
    end of the free blocks, mark and sweep over granules of 16 bytes, the chunk of an
    address being found in a segment tree ([STree]) built for the collection.
    Addresses, [operator new] and the clients of a collection are those of [Alloc]. *)

From stdpp Require Import gmap.
From S2P Require Import Prelude Ints BitVec Compare Avl STree Alloc.
#[local] Open Scope Z_scope.

(** ** SimpleGC *)

(** The size of [block_t], a link and a size. *)
Definition SIZEOF_BLOCK : Z := 16.

(** The temporaries, of a type [T], are the objects whose [collect()] is called first.
    The headers of the free blocks are in [sg_hdr], the bit vectors of the chunks in
    [sg_bits] (no entry for a null pointer), the tree in [sg_st] during a collection;
    [sg_own] records the blocks got from the heap. *)
(* src/include/elm/alloc/SimpleGC.h:80-95 SimpleGC *)
Record SimpleGC (T : Type) := mkSG {
  sg_chunks : list Z; sg_csize : Z; sg_free : Z; sg_hdr : gmap Z (Z * Z);
  sg_bits : gmap Z BitVector; sg_st : option (stree Z Z); sg_temps : list T; sg_own : list (Z * Z) }.
Arguments mkSG {T} _ _ _ _ _ _ _ _.
Arguments sg_chunks {T} _.
Arguments sg_csize {T} _.
Arguments sg_free {T} _.
Arguments sg_hdr {T} _.
Arguments sg_bits {T} _.
Arguments sg_st {T} _.
Arguments sg_temps {T} _.
Arguments sg_own {T} _.

Section SimpleGC.
Context `{Heap} {T : Type} `{EqDecision T}.
Implicit Types s : SimpleGC T.

Definition sg_set_list p h s : SimpleGC T :=
  mkSG (sg_chunks s) (sg_csize s) p h (sg_bits s) (sg_st s) (sg_temps s) (sg_own s).
Definition sg_set_bits b s : SimpleGC T :=
  mkSG (sg_chunks s) (sg_csize s) (sg_free s) (sg_hdr s) b (sg_st s) (sg_temps s) (sg_own s).
Definition sg_set_st t s : SimpleGC T :=
  mkSG (sg_chunks s) (sg_csize s) (sg_free s) (sg_hdr s) (sg_bits s) t (sg_temps s) (sg_own s).
Definition sg_set_temps l s : SimpleGC T :=
  mkSG (sg_chunks s) (sg_csize s) (sg_free s) (sg_hdr s) (sg_bits s) (sg_st s) l (sg_own s).

(** [c->buffer] *)
Definition sg_buffer (c : Z) : Z := c + 8.

(* src/include/elm/alloc/SimpleGC.h:97-97 SimpleGC::round *)
Definition sg_round (size : Z) : Z :=
  Z.land (u64 (size + SIZEOF_BLOCK - 1)) (u64 (Z.lnot (SIZEOF_BLOCK - 1))).
(* src/src/alloc_SimpleGC.cpp:84-86 SimpleGC::SimpleGC *)
Definition SimpleGC_make (size : Z) : SimpleGC T := mkSG [] (sg_round size) 0 ∅ ∅ None [] [].

(* src/src/alloc_SimpleGC.cpp:40-42 Temp::Temp *)
Definition Temp_make (t : T) (s : SimpleGC T) : SimpleGC T := sg_set_temps (t :: sg_temps s) s.
(* src/src/alloc_SimpleGC.cpp:46-48 Temp::~Temp *)
Definition Temp_delete (t : T) (s : SimpleGC T) : SimpleGC T :=
  sg_set_temps (filter (fun u => u <> t) (sg_temps s)) s.

(* src/src/alloc_SimpleGC.cpp:92-100 SimpleGC::newChunk *)
Definition SimpleGC_newChunk : IO (SimpleGC T) unit :=
  s ← get_st;
  match new_block (sg_own s) (u64 (8 + sg_csize s)) with
  | None => throw
  | Some c =>
      put_st (mkSG (c :: sg_chunks s) (sg_csize s) (sg_buffer c)
        (<[sg_buffer c := (sg_free s, sg_csize s)]> (sg_hdr s)) (delete c (sg_bits s)) (sg_st s) (sg_temps s)
        ((c, u64 (8 + sg_csize s)) :: sg_own s))
  end.

(** The chunks are given back, and stay in the list. *)
(* src/src/alloc_SimpleGC.cpp:112-116 SimpleGC::clear *)
Definition SimpleGC_clear (s : SimpleGC T) : SimpleGC T :=
  mkSG (sg_chunks s) (sg_csize s) 0 ∅ (sg_bits s) (sg_st s) (sg_temps s) [].

(** The header of a free block. *)
Definition read_hdr (h : gmap Z (Z * Z)) (p : Z) : outcome (Z * Z) :=
  match h !! p with Some x => Ret x | None => Crash OutOfBounds end.
(** [*prev = p], [prev] being the link of a block or the head of the list. *)
Definition sg_assign (prev : option Z) (p : Z) (s : SimpleGC T) : outcome (SimpleGC T) :=
  match prev with
  | None => Ret (sg_set_list p (sg_hdr s) s)
  | Some b => x ← read_hdr (sg_hdr s) b; Ret (sg_set_list (sg_free s) (<[b := (p, x.2)]> (sg_hdr s)) s)
  end.
(** The block, [prev]; a block of size 0 is not a free block any more: its header is
    in the memory that is given. *)
(* src/src/alloc_SimpleGC.cpp:136-143 SimpleGC::allocFromFreeList *)
Definition sg_alloc_step (size : Z) (s : SimpleGC T) (st : option Z * Z)
    : outcome ((option Z * Z) + (Z * SimpleGC T)) :=
  let '(prev, block) := st in
  if block =? 0 then Ret (inr (0, s))
  else
    x ← read_hdr (sg_hdr s) block;
    let '(next, bsize) := x in
    if size <=? bsize then
      let res := u64 (block + bsize - size) in
      let s1 := sg_set_list (sg_free s) (<[block := (next, bsize - size)]> (sg_hdr s)) s in
      if bsize - size =? 0 then
        s2 ← sg_assign prev next s1;
        Ret (inr (res, sg_set_list (sg_free s2) (delete block (sg_hdr s2)) s2))
      else Ret (inr (res, s1))
    else Ret (inl (Some block, next)).
(* src/src/alloc_SimpleGC.cpp:135-145 SimpleGC::allocFromFreeList *)
Definition SimpleGC_allocFromFreeList (size : Z) (s : SimpleGC T) : outcome (Z * SimpleGC T) :=
  iter (S (base.size (sg_hdr s))) (sg_alloc_step size s) (None, sg_free s).

(** *** Collection *)

(* src/src/alloc_SimpleGC.cpp:182-199 SimpleGC::mark *)
Definition SimpleGC_mark (data : Z * Z) (s : SimpleGC T) : outcome (bool * SimpleGC T) :=
  let '(data, size) := data in
  match sg_st s with
  | None => Crash Undefined
  | Some st =>
      gcc ← stree_get st data;
      assertP (negb (gcc =? 0)) ;;
      let p := s32 (u64 (data - sg_buffer gcc) / SIZEOF_BLOCK) in
      let n := s32 (u64 (size + SIZEOF_BLOCK - 1) / SIZEOF_BLOCK) in
      match sg_bits s !! gcc with
      | None => Crash OutOfBounds
      | Some bits =>
          '(res, bits) ← loop p (p + n) (fun i r =>
            let '(res, bits) := r in
            b ← BitVector_bit bits i;
            if negb b then bits ← BitVector_set bits i; Ret (false, bits) else Ret (res, bits)) (true, bits);
          Ret (res, sg_set_bits (<[gcc := bits]> (sg_bits s)) s)
      end
  end.

(* src/src/alloc_SimpleGC.cpp:209-212 SimpleGC::beginGC *)
Fixpoint begin_chunks (csize : Z) (chunks : list Z) (b : SegmentBuilder Z Z) (bits : gmap Z BitVector)
    : outcome (SegmentBuilder Z Z * gmap Z BitVector) :=
  match chunks with
  | [] => Ret (b, bits)
  | c :: chunks =>
      b ← SegmentBuilder_add b (sg_buffer c) (sg_buffer c + csize) c;
      v ← BitVector_make (s32 (csize / SIZEOF_BLOCK)) false;
      begin_chunks csize chunks b (<[c := v]> bits)
  end.
(* src/src/alloc_SimpleGC.cpp:205-217 SimpleGC::beginGC *)
Definition SimpleGC_beginGC (s : SimpleGC T) : outcome (SimpleGC T) :=
  '(b, bits) ← begin_chunks (sg_csize s) (sg_chunks s) (SegmentBuilder_make 0) (sg_bits s);
  st ← SegmentBuilder_build b stree_make;
  Ret (sg_set_st (Some st) (sg_set_bits bits s)).

(** [while(i < cs && bits[i] == m) i++;] *)
(* src/src/alloc_SimpleGC.cpp:244-245 SimpleGC::endGC *)
Definition skip_bits (m : bool) (bits : BitVector) (cs : Z) (i : Z) : outcome Z :=
  iter (S (Z.to_nat (cs - i))) (fun i =>
    if i <? cs then b ← BitVector_bit bits i; if Bool.eqb b m then Ret (inl (i + 1)) else Ret (inr i)
    else Ret (inr i)) i.
(** The state is [i], the free list and the headers. *)
(* src/src/alloc_SimpleGC.cpp:241-263 SimpleGC::endGC *)
Definition sg_sweep_step (buffer cs : Z) (bits : BitVector) (st : Z * (Z * gmap Z (Z * Z)))
    : outcome ((Z * (Z * gmap Z (Z * Z))) + (Z * gmap Z (Z * Z))) :=
  let '(i, (free, hdr)) := st in
  if i <? cs then
    i ← skip_bits true bits cs i;
    if i <? cs then
      let b := i in
      i ← skip_bits false bits cs (i + 1);
      let blk := buffer + b * SIZEOF_BLOCK in
      Ret (inl (i, (blk, <[blk := (free, (i - b) * SIZEOF_BLOCK)]> hdr)))
    else Ret (inl (i, (free, hdr)))
  else Ret (inr (free, hdr)).
(* src/src/alloc_SimpleGC.cpp:237-264 SimpleGC::endGC *)
Fixpoint sg_sweep (csize : Z) (bits : gmap Z BitVector) (chunks : list Z) (fl : Z * gmap Z (Z * Z))
    : outcome (Z * gmap Z (Z * Z)) :=
  match chunks with
  | [] => Ret fl
  | c :: chunks =>
      match bits !! c with
      | None => Crash OutOfBounds
      | Some v =>
          let cs := s32 (csize / SIZEOF_BLOCK) in
          fl ← iter (S (Z.to_nat cs)) (sg_sweep_step (sg_buffer c) cs v) (0, fl);
          sg_sweep csize bits chunks fl
      end
  end.
(* src/src/alloc_SimpleGC.cpp:231-272 SimpleGC::endGC *)
Definition SimpleGC_endGC (s : SimpleGC T) : outcome (SimpleGC T) :=
  fl ← sg_sweep (sg_csize s) (sg_bits s) (sg_chunks s) (0, sg_hdr s);
  Ret (sg_set_st None (sg_set_bits ∅ (sg_set_list fl.1 fl.2 s))).

Section Client.
(** What the temporaries and the application mark. *)
Context (Temp_collect : T -> collector (Z * Z)) (collect : collector (Z * Z)).

(* src/src/alloc_SimpleGC.cpp:121-127 SimpleGC::doGC *)
Definition SimpleGC_doGC (s : SimpleGC T) : outcome (SimpleGC T) :=
  s ← SimpleGC_beginGC s;
  s ← foldl (fun m t => s ← m; run_collect SimpleGC_mark (Temp_collect t) s) (Ret s) (sg_temps s);
  s ← run_collect SimpleGC_mark collect s;
  SimpleGC_endGC s.

(* src/src/alloc_SimpleGC.cpp:152-172 SimpleGC::allocate *)
Definition SimpleGC_allocate (size : Z) : IO (SimpleGC T) Z :=
  s ← get_st;
  lift (assertP (size <? sg_csize s)) ;;
  let size := sg_round size in
  r ← lift (SimpleGC_allocFromFreeList size s);
  if negb (r.1 =? 0) then put_st r.2 ;; mret r.1
  else
    s ← lift (SimpleGC_doGC r.2);
    r ← lift (SimpleGC_allocFromFreeList size s);
    put_st r.2 ;;
    if negb (r.1 =? 0) then mret r.1
    else
      SimpleGC_newChunk ;;
      s ← get_st;
      r ← lift (SimpleGC_allocFromFreeList size s);
      put_st r.2 ;; mret r.1.
End Client.
End SimpleGC.

(** *** Chains of free blocks *)

(** The blocks from [p] on, with their sizes, up to the block [q]. *)
Fixpoint fseg (h : gmap Z (Z * Z)) (p : Z) (l : list (Z * Z)) (q : Z) : Prop :=
  match l with
  | [] => p = q
  | b :: l => p = b.1 /\ b.1 <> 0 /\ exists r, h !! b.1 = Some (r, b.2) /\ fseg h r l q
  end.

Lemma fseg_app h l k : forall p q, fseg h p (l ++ k) q <-> exists r, fseg h p l r /\ fseg h r k q.
Proof.
  induction l as [|b l IH]; intros p q; cbn [fseg app].
  - split; [intros Hk; by exists p|by intros (? & -> & ?)].
  - split.
    + intros (-> & H0 & r & Hr & (m & Hl & Hk)%IH). exists m. split; [|done]. split_and!; [done|done|by exists r].
    + intros (m & (-> & H0 & r & Hr & Hl) & Hk). split_and!; [done|done|]. exists r. split; [done|]. apply IH. by exists m.
Qed.
Lemma fseg_other h l b x : forall p q, b ∉ l.*1 -> fseg h p l q -> fseg (<[b:=x]> h) p l q.
Proof.
  induction l as [|c l IH]; intros p q Hb; [done|]. apply not_elem_of_cons in Hb as [Hne Hb].
  intros (-> & H0 & r & Hr & Hl). split_and!; [done|done|]. exists r. rewrite lookup_insert_ne by done. split; [done|by apply IH].
Qed.
Lemma fseg_delete h l b : forall p q, b ∉ l.*1 -> fseg h p l q -> fseg (delete b h) p l q.
Proof.
  induction l as [|c l IH]; intros p q Hb; [done|]. apply not_elem_of_cons in Hb as [Hne Hb].
  intros (-> & H0 & r & Hr & Hl). split_and!; [done|done|]. exists r. rewrite lookup_delete_ne by done. split; [done|by apply IH].
Qed.
(** The last block of a segment is linked elsewhere. *)
Lemma fseg_relink h l b n p q q' : NoDup (l ++ [(b, n)]).*1 -> fseg h p (l ++ [(b, n)]) q ->
  (exists x, h !! b = Some (x, n)) /\ fseg (<[b := (q', n)]> h) p (l ++ [(b, n)]) q'.
Proof.
  rewrite fmap_app, NoDup_app. intros (_ & Hb & _) (m & Hl & (-> & H0 & r & Hr & _))%fseg_app.
  split; [by exists r|]. apply fseg_app. exists b. split.
  - apply fseg_other; [|done]. intros Hin. apply (Hb _ Hin). by left.
  - split_and!; [done|done|]. exists q'. by rewrite lookup_insert_eq.
Qed.
Lemma fseg_keys h l : forall p q b, fseg h p l q -> b ∈ l.*1 -> b ∈ dom h.
Proof.
  induction l as [|c l IH]; intros p q b; [by intros _ ?%elem_of_nil|].
  intros (-> & _ & r & Hr & Hl) [->|Hb]%elem_of_cons; [by eapply elem_of_dom_2|by eapply IH].
Qed.
Lemma fseg_length h l p q : NoDup l.*1 -> fseg h p l q -> (length l <= base.size h)%nat.
Proof.
  intros Hnd Hl. rewrite <- (size_dom (D := gset Z) h), <- (length_fmap fst l), <- (size_list_to_set (C := gset Z)) by done.
  apply subseteq_size. intros b Hb%elem_of_list_to_set. by eapply fseg_keys.
Qed.

(** *** Allocation from the free list *)

Section Allocation.
Context {T : Type}.
Implicit Types s : SimpleGC T.

(** Only the free list and its headers change. *)
Definition sg_same s s' : Prop :=
  sg_chunks s' = sg_chunks s /\ sg_csize s' = sg_csize s /\ sg_bits s' = sg_bits s /\ sg_st s' = sg_st s /\
  sg_temps s' = sg_temps s /\ sg_own s' = sg_own s.

(** The first free block that is big enough gives its end, or disappears. *)
Definition cut (size : Z) (a n : Z) : list (Z * Z) := if n - size =? 0 then [] else [(a, n - size)].

Definition taken s size (l1 : list (Z * Z)) a n (l2 : list (Z * Z)) (r : Z * SimpleGC T) : Prop :=
  r.1 = u64 (a + n - size) /\ sg_same s r.2 /\ fseg (sg_hdr r.2) (sg_free r.2) (l1 ++ cut size a n ++ l2) 0.

Lemma sg_take_ok s size l1 a n l2 : NoDup (l1 ++ (a, n) :: l2).*1 ->
  fseg (sg_hdr s) (sg_free s) (l1 ++ (a, n) :: l2) 0 -> size <= n ->
  exists r, sg_alloc_step size s (last (l1.*1), a) = Ret (inr r) /\ taken s size l1 a n l2 r.
Proof.
  intros Hnd (q & Hl1 & (-> & H0 & next & Hh & Hl2))%fseg_app Hn. unfold sg_alloc_step.
  cbn [fst snd] in *. rewrite (proj2 (Z.eqb_neq a 0)) by done. unfold read_hdr. rewrite Hh. mred.
  rewrite (proj2 (Z.leb_le _ _)) by done.
  pose proof Hnd as Hnd'. rewrite fmap_app, NoDup_app in Hnd. destruct Hnd as (Hnd1 & Ha1 & [Ha2 Hnd2]%NoDup_cons).
  assert (a ∉ l1.*1) as Ha by (intros Hin; apply (Ha1 _ Hin); by left). unfold taken, cut.
  destruct (Z.eqb_spec (n - size) 0) as [E|E].
  - destruct l1 as [|b l _] using rev_ind.
    + cbn. eexists. split; [done|]. cbn in Hl1. split_and!; [done|done|]. cbn.
      rewrite delete_insert_eq. by apply fseg_delete.
    + rewrite fmap_app. cbn [fmap list_fmap]. rewrite last_snoc. cbn [sg_assign sg_set_list sg_hdr].
      destruct b as [b m]. cbn [fst] in *.
      assert (b <> a) as Hba by (intros ->; apply Ha; rewrite fmap_app; apply elem_of_app; right; by left).
      destruct (fseg_relink (sg_hdr s) l b m (sg_free s) a next) as ((x & Hb) & Hr).
      { rewrite fmap_app in Hnd'. apply NoDup_app in Hnd' as (H1 & _). done. } { done. }
      unfold read_hdr. rewrite lookup_insert_ne, Hb by done. mred. eexists. split; [done|].
      split_and!; [done|done|]. cbn [sg_hdr sg_free sg_set_list snd app].
      assert (b ∉ l2.*1) as Hb2. { intros Hin. apply (Ha1 b); [rewrite fmap_app; apply elem_of_app; right; by left|by right]. }
      rewrite insert_insert_ne, delete_insert_eq, delete_insert_ne by done.
      apply fseg_app. exists next. split.
      * rewrite <- delete_insert_ne by done. by apply fseg_delete.
      * apply fseg_other; [done|]. by apply fseg_delete.
  - eexists. split; [done|]. split_and!; [done|done|]. cbn [sg_hdr sg_free sg_set_list snd app].
    apply fseg_app. exists a. split; [by apply fseg_other|]. split_and!; [done|done|]. exists next.
    rewrite lookup_insert_eq. split; [done|]. by apply fseg_other.
Qed.

Lemma allocFromFreeList_ok s size free : NoDup free.*1 -> fseg (sg_hdr s) (sg_free s) free 0 ->
  exists r, SimpleGC_allocFromFreeList size s = Ret r /\
    ((r = (0, s) /\ Forall (fun b => b.2 < size) free) \/
     exists l1 a n l2, free = l1 ++ (a, n) :: l2 /\ Forall (fun b => b.2 < size) l1 /\ size <= n /\ taken s size l1 a n l2 r).
Proof.
  intros Hnd Hf. unfold SimpleGC_allocFromFreeList. pose proof (fseg_length _ _ _ _ Hnd Hf) as Hlen.
  assert (forall l2 l1 block fuel, free = l1 ++ l2 -> Forall (fun b => b.2 < size) l1 -> fseg (sg_hdr s) (sg_free s) l1 block ->
    fseg (sg_hdr s) block l2 0 -> (length l2 < fuel)%nat ->
    exists r, iter fuel (sg_alloc_step size s) (last (l1.*1), block) = Ret r /\
    ((r = (0, s) /\ Forall (fun b => b.2 < size) free) \/
     exists l1 a n l2, free = l1 ++ (a, n) :: l2 /\ Forall (fun b => b.2 < size) l1 /\ size <= n /\ taken s size l1 a n l2 r)) as Hloop.
  { induction l2 as [|[a n] l2 IH]; intros l1 block fuel E Hs Hl1 Hl2 Hfuel; (destruct fuel as [|fuel]; [lia|]); cbn [iter].
    - cbn in Hl2. subst block. rewrite app_nil_r in E. subst l1. exists (0, s). split; [done|]. by left.
    - destruct Hl2 as (-> & H0 & next & Hh & Hl2). cbn [fst snd] in *.
      destruct (Z.le_gt_cases size n) as [Hn|Hn].
      + destruct (sg_take_ok s size l1 a n l2) as (r & -> & Hr); [by rewrite <- E|by rewrite <- E|done|].
        exists r. split; [done|]. right. by exists l1, a, n, l2.
      + unfold sg_alloc_step at 2. rewrite (proj2 (Z.eqb_neq a 0)) by done. unfold read_hdr. rewrite Hh. mred.
        rewrite (proj2 (Z.leb_gt _ _)) by lia. mred.
        destruct (IH (l1 ++ [(a, n)]) next fuel) as (r & Er & Hr).
        * by rewrite <- app_assoc.
        * apply Forall_app. split; [done|]. by constructor.
        * apply fseg_app. exists a. split; [done|]. split_and!; [done|done|]. by exists next.
        * done.
        * cbn [length] in Hfuel. lia.
        * exists r. split; [|done]. rewrite <- Er. do 2 f_equal. rewrite fmap_app. cbn. by rewrite last_snoc. }
  apply (Hloop free [] (sg_free s)); [done|constructor|done|done|lia].
Qed.
End Allocation.

(** *** Chunks and granules *)

Definition granule (c i : Z) : Z := sg_buffer c + 16 * i.
Definition covers (b : Z * Z) (x : Z) : Prop := b.1 <= x < b.1 + b.2.

(** Chunks of [g] granules that share no byte. *)
Record chunks_ok (g : Z) (chunks : list Z) : Prop := {
  ck_g : 0 < g < 2 ^ 31;
  ck_in c : c ∈ chunks -> 0 < c /\ c + (8 + 16 * g) <= 2 ^ 64;
  ck_sep : separate ((fun c => (c, 8 + 16 * g)) <$> chunks) }.

(** A block of whole granules of a chunk. *)
Definition placed (g : Z) (chunks : list Z) (b : Z * Z) : Prop :=
  exists c a k, c ∈ chunks /\ 0 <= a /\ 0 < k /\ a + k <= g /\ b = (granule c a, 16 * k).

Lemma separate_in l x y : separate l -> x ∈ l -> y ∈ l -> x = y \/ disj x y.
Proof.
  intros Hs Hx%list_elem_of_In Hy%list_elem_of_In. destruct (ForallOrdPairs_In Hs x y Hx Hy) as [?|[?|?]]; [by left|by right|].
  right. by symmetry.
Qed.
Lemma separate_of l : NoDup l -> (forall x y, x ∈ l -> y ∈ l -> x = y \/ disj x y) -> separate l.
Proof.
  induction 1 as [|x l Hx Hnd IH]; intros Hl; constructor.
  - apply list.Forall_forall. intros y Hy. destruct (Hl x y) as [->|]; [by left|by right|done|done].
  - apply IH. intros y z Hy Hz. apply Hl; by right.
Qed.
Lemma blocks_NoDup l : (forall b, b ∈ l -> 0 < b.2) -> separate l -> NoDup l.*1.
Proof.
  induction l as [|x l IH]; intros Hl Hs; [constructor|]. inversion Hs as [|? ? Hx Hs']; subst. constructor.
  - intros (y & E & Hy)%list_elem_of_fmap. rewrite list.Forall_forall in Hx. specialize (Hx y Hy).
    pose proof (Hl x ltac:(by left)). pose proof (Hl y ltac:(by right)). destruct Hx; lia.
  - apply IH; [|done]. intros b Hb. apply Hl. by right.
Qed.

Section Chunks.
Context (g : Z) (chunks : list Z) (W : chunks_ok g chunks).

Lemma chunks_disj c d : c ∈ chunks -> d ∈ chunks -> c = d \/ disj (c, 8 + 16 * g) (d, 8 + 16 * g).
Proof.
  intros Hc Hd. destruct (separate_in _ (c, 8 + 16 * g) (d, 8 + 16 * g) (ck_sep _ _ W)) as [[= E]|];
    [by apply (list_elem_of_fmap_2 (fun c => (c, 8 + 16 * g)))|by apply (list_elem_of_fmap_2 (fun c => (c, 8 + 16 * g)))|by left|by right].
Qed.
Lemma chunks_NoDup : NoDup chunks.
Proof.
  pose proof (ck_g _ _ W). assert (NoDup ((fun c => (c, 8 + 16 * g)) <$> chunks).*1) as Hnd.
  { apply blocks_NoDup; [|apply W]. intros b (c & -> & _)%list_elem_of_fmap. cbn. lia. }
  rewrite <- list_fmap_compose in Hnd. by apply NoDup_fmap_1 in Hnd.
Qed.
Lemma granule_covered c a k d j : c ∈ chunks -> d ∈ chunks -> 0 <= a -> a + k <= g -> 0 <= j < g ->
  covers (granule c a, 16 * k) (granule d j) <-> c = d /\ a <= j < a + k.
Proof.
  intros Hc Hd Ha Hk Hj. unfold covers, granule, sg_buffer. cbn [fst snd]. split.
  - intros H. destruct (chunks_disj c d Hc Hd) as [->|[Hcd|Hcd]]; [lia|cbn in Hcd; lia..].
  - intros [<- H]. lia.
Qed.
Lemma placed_disj b b' : placed g chunks b -> placed g chunks b' ->
  (forall c j, c ∈ chunks -> 0 <= j < g -> covers b (granule c j) -> covers b' (granule c j) -> False) -> disj b b'.
Proof.
  intros (c & a & k & Hc & Ha & Hk & Hg & ->) (d & e & m & Hd & He & Hm & Hg' & ->) Hno.
  destruct (chunks_disj c d Hc Hd) as [<-|Hcd].
  - unfold disj, granule. cbn. destruct (Z.le_gt_cases (a + k) e); [lia|]. destruct (Z.le_gt_cases (e + m) a); [lia|].
    exfalso. apply (Hno c (Z.max a e)); [done|lia| |]; apply granule_covered; (done || lia).
  - unfold disj, granule, sg_buffer in *. cbn in *. lia.
Qed.
Lemma placed_pos b : placed g chunks b -> 0 < b.2 /\ 0 < b.1 /\ b.1 + b.2 <= 2 ^ 64.
Proof.
  intros (c & a & k & Hc & Ha & Hk & Hg & ->). pose proof (ck_in _ _ W c Hc) as [? ?].
  unfold granule, sg_buffer. cbn [fst snd]. nia.
Qed.
Lemma placed_granule b : placed g chunks b -> exists c a, c ∈ chunks /\ 0 <= a < g /\ b.1 = granule c a /\ covers b (granule c a).
Proof.
  intros (c & a & k & Hc & Ha & Hk & Hg & ->). exists c, a. split_and!; [done|lia|lia|done|].
  apply granule_covered; (done || lia).
Qed.

(** *** The sweep *)

Context (marked : Z -> Z -> bool).

(** The free list when the granules of [P] are processed. *)
Record sweep_inv (P : Z -> Z -> Prop) (h : gmap Z (Z * Z)) (p : Z) (acc : list (Z * Z)) : Prop := {
  si_list : fseg h p acc 0;
  si_sep : separate acc;
  si_placed b : b ∈ acc -> placed g chunks b;
  si_done b c j : b ∈ acc -> c ∈ chunks -> 0 <= j < g -> covers b (granule c j) -> P c j /\ marked c j = false;
  si_cover c j : c ∈ chunks -> 0 <= j < g -> P c j -> marked c j = false -> exists b, b ∈ acc /\ covers b (granule c j);
  si_apart b b' : b ∈ acc -> b' ∈ acc -> b.1 + b.2 <> b'.1 }.

Lemma sweep_skip P P' h p acc : sweep_inv P h p acc ->
  (forall c j, P c j -> P' c j) -> (forall c j, c ∈ chunks -> 0 <= j < g -> P' c j -> P c j \/ marked c j = true) -> sweep_inv P' h p acc.
Proof.
  intros [H1 H2 H3 H4 H5 H6] HP HP'. split; [done|done|done| | |done].
  - intros b c j Hb Hc Hj Hx. destruct (H4 b c j); [done..|]. split; [by apply HP|done].
  - intros c j Hc Hj Hx Hm. destruct (HP' c j Hc Hj Hx) as [?|E]; [by eapply H5|congruence].
Qed.

Lemma sweep_run P P' h p acc c a k : sweep_inv P h p acc -> c ∈ chunks -> 0 <= a -> 0 < k -> a + k <= g ->
  a = 0 \/ marked c (a - 1) = true -> (forall j, a <= j -> ~ P c j) ->
  (forall j, a <= j < a + k -> P' c j /\ marked c j = false) -> (forall d j, P d j -> P' d j) ->
  (forall d j, P' d j -> P d j \/ d = c /\ a <= j < a + k) ->
  sweep_inv P' (<[granule c a := (p, 16 * k)]> h) (granule c a) ((granule c a, 16 * k) :: acc).
Proof.
  intros I Hc Ha Hk Hg Hstart Hnew Hrun HP HP'. set (b := (granule c a, 16 * k)).
  assert (placed g chunks b) as Hb by (by exists c, a, k).
  pose proof (placed_pos b Hb) as (_ & Hpos & _).
  assert (forall x, x ∈ acc -> disj b x) as Hd.
  { intros x Hx. apply placed_disj; [done|by eapply si_placed|]. intros d j Hdc Hj Hbj Hxj.
    apply granule_covered in Hbj as [<- Hbj]; [|done..]. apply (Hnew j); [lia|]. by eapply si_done. }
  split.
  - split; [done|]. split; [cbn in Hpos; cbn; lia|]. exists p. rewrite lookup_insert_eq. split; [done|].
    apply fseg_other; [|apply I]. intros (x & E & Hx)%list_elem_of_fmap.
    pose proof (placed_pos x (si_placed _ _ _ _ I x Hx)) as (? & _). destruct (Hd x Hx) as [Hl|Hl]; cbn in Hl, E; lia.
  - constructor; [|apply I]. by apply list.Forall_forall.
  - intros x [->|Hx]%elem_of_cons; [done|by eapply si_placed].
  - intros x d j Hx Hdc Hj Hxj. apply elem_of_cons in Hx as [->|Hx].
    + apply granule_covered in Hxj as [<- Hxj]; [|done..]. by apply Hrun.
    + destruct (si_done _ _ _ _ I x d j); [done..|]. split; [by apply HP|done].
  - intros d j Hdc Hj Hx Hm. destruct (HP' d j Hx) as [HPd|[-> Hin]].
    + destruct (si_cover _ _ _ _ I d j) as (x & Hx' & Hxj); [done..|]. exists x. split; [by right|done].
    + exists b. split; [by left|]. by apply granule_covered.
  - intros x y [->|Hx]%elem_of_cons [->|Hy]%elem_of_cons; [cbn; lia| | |by eapply si_apart].
    + destruct (placed_granule y (si_placed _ _ _ _ I y Hy)) as (d & e & Hdd & He & -> & Hye). intros E.
      unfold b, granule, sg_buffer in E. cbn in E.
      destruct (chunks_disj c d Hc Hdd) as [<-|Hcd]; [|unfold disj in Hcd; cbn in Hcd; lia].
      apply (Hnew e); [lia|]. by eapply si_done.
    + destruct (si_placed _ _ _ _ I x Hx) as (d & e & m & Hdd & He & Hm & Hemg & ->). intros E.
      unfold b, granule, sg_buffer in E. cbn in E.
      destruct (chunks_disj c d Hc Hdd) as [<-|Hcd]; [|unfold disj in Hcd; cbn in Hcd; lia].
      destruct Hstart as [->|Hmk]; [lia|].
      destruct (si_done _ _ _ _ I (granule c e, 16 * m) c (a - 1)) as [_ Hf]; [done|done|lia| |congruence].
      apply granule_covered; (done || lia).
Qed.
End Chunks.

Lemma skip_bits_ok m v i : bv_wf v -> 0 <= i <= bv_size v ->
  exists j, skip_bits m v (bv_size v) i = Ret j /\ i <= j <= bv_size v /\ (forall k, i <= k < j -> bv_get v k = m) /\
    (j < bv_size v -> bv_get v j = negb m).
Proof.
  intros Hv Hi. unfold skip_bits. set (cs := bv_size v) in *.
  iter_with (fun j => i <= j <= cs /\ forall k, i <= k < j -> bv_get v k = m) (fun j => Z.to_nat (cs - j))
    (fun j => i <= j <= cs /\ (forall k, i <= k < j -> bv_get v k = m) /\ (j < cs -> bv_get v j = negb m)).
  - intros j [Hj Hk]. destruct (Z.ltb_spec j cs) as [Hlt|Hge]; [|by eexists; split; [done|split_and!; (done || lia)]].
    rewrite BitVector_bit_ok by (done || lia). mred. destruct (Bool.eqb (bv_get v j) m) eqn:E.
    + apply eqb_prop in E. eexists. split; [done|]. split; [|lia]. split; [lia|].
      intros k Hk'. destruct (decide (k = j)) as [->|]; [done|]. apply Hk. lia.
    + eexists. split; [done|]. split_and!; [lia|lia|done|]. intros _. destruct (bv_get v j), m; done.
  - split; [lia|]. intros; lia.
  - lia.
  - exists r. split; [done|]. exact Hr.
Qed.

Section Sweep.
Context (g : Z) (chunks : list Z) (W : chunks_ok g chunks) (bits : gmap Z BitVector).

Definition bit_of (c j : Z) : bool := match bits !! c with Some v => bv_get v j | None => false end.
Definition vectors_ok : Prop := forall c, c ∈ chunks -> exists v, bits !! c = Some v /\ bv_wf v /\ bv_size v = g.

(** The granules of the chunks done, and those of [c] below [i]. *)
Definition swept_to (done : list Z) (c i d j : Z) : Prop := d ∈ done \/ (d = c /\ j < i).

Lemma sweep_chunk_ok done c v h p acc : c ∈ chunks -> c ∉ done -> bits !! c = Some v -> bv_wf v -> bv_size v = g ->
  sweep_inv g chunks bit_of (fun d _ => d ∈ done) h p acc ->
  exists p' h' acc', iter (S (Z.to_nat g)) (sg_sweep_step (sg_buffer c) g v) (0, (p, h)) = Ret (p', h') /\
    sweep_inv g chunks bit_of (fun d _ => d ∈ c :: done) h' p' acc'.
Proof.
  intros Hc Hnew Hv Wv Hg I. pose proof (ck_g _ _ W) as Hgpos.
  assert (forall j, bit_of c j = bv_get v j) as Hbit by (intros j; unfold bit_of; by rewrite Hv).
  destruct (iter_total
    (fun st : Z * (Z * gmap Z (Z * Z)) => exists acc, 0 <= st.1 <= g /\ (0 < st.1 < g -> bv_get v st.1 = true) /\
       sweep_inv g chunks bit_of (swept_to done c st.1) st.2.2 st.2.1 acc)
    (fun st => Z.to_nat (g - st.1))
    (fun fl => exists acc, sweep_inv g chunks bit_of (fun d _ => d ∈ c :: done) fl.2 fl.1 acc)
    (sg_sweep_step (sg_buffer c) g v)) with (fuel := S (Z.to_nat g)) (s := (0, (p, h))) as ([p' h'] & E & acc' & I').
  - intros [i [q k]] (ac & Hi & Hst & Ii). cbn [fst snd] in *. unfold sg_sweep_step. destruct (Z.ltb_spec i g) as [Hlt|Hge].
    2:{ eexists. split; [done|]. exists ac. eapply sweep_skip; [exact Ii| |].
        - intros d j [Hd|[-> _]]; [by right|by left].
        - intros d j _ Hj [->|Hd]%elem_of_cons; left; [right; lia|by left]. }
    destruct (skip_bits_ok true v i Wv) as (b & Eb & Hb & Hset & Hclr); [lia|]. rewrite Hg in *. rewrite Eb. mred.
    assert (sweep_inv g chunks bit_of (swept_to done c b) k q ac) as Ib.
    { eapply sweep_skip; [exact Ii| |].
      - intros d j [Hd|[-> Hj]]; [by left|right; lia].
      - intros d j _ Hj [Hd|[-> Hjb]]; [left; by left|]. destruct (Z.lt_ge_cases j i); [left; by right|right].
        rewrite Hbit. apply Hset. lia. }
    destruct (Z.ltb_spec b g) as [Hbg|Hbg].
    + destruct (skip_bits_ok false v (b + 1) Wv) as (e & Ee & He & Hclr' & Hend); [lia|]. rewrite Hg in *. rewrite Ee. mred.
      eexists. split; [done|]. split; [|cbn; lia]. exists ((granule c b, 16 * (e - b)) :: ac).
      split; [cbn; lia|]. split; [intros [_ ?]; by apply Hend|].
      cbn [fst snd]. unfold SIZEOF_BLOCK. replace (sg_buffer c + b * 16) with (granule c b) by (unfold granule; lia).
      replace ((e - b) * 16) with (16 * (e - b)) by lia.
      eapply (sweep_run g chunks W bit_of); [exact Ib|done|lia|lia|lia| | | | |].
      * destruct (decide (b = 0)) as [->|Hb0]; [by left|right]. rewrite Hbit. apply Hset.
        destruct (decide (b = i)) as [->|]; [|lia]. specialize (Hst ltac:(lia)). rewrite Hclr in Hst by lia. done.
      * intros j Hj [?|[_ ?]]; [done|lia].
      * intros j Hj. split; [right; lia|]. rewrite Hbit.
        destruct (decide (j = b)) as [->|]; [apply Hclr; lia|apply Hclr'; lia].
      * intros d j [Hd|[-> Hj]]; [by left|right; lia].
      * intros d j [Hd|[-> Hj]]; [left; by left|]. destruct (Z.lt_ge_cases j b); [left; by right|right; lia].
    + eexists. split; [done|]. split; [|cbn; lia]. exists ac. split; [cbn; lia|]. split; [cbn; lia|]. exact Ib.
  - exists acc. split; [cbn; lia|]. split; [cbn; lia|]. eapply sweep_skip; [exact I|intros d j Hd; by left|].
    intros d j _ Hj [Hd|[-> ?]]; [by left|cbn in *; lia].
  - cbn. lia.
  - exists p', h', acc'. by split.
Qed.

Lemma sg_sweep_ok (l : list Z) : forall (done : list Z) h p acc, (forall c, c ∈ l -> c ∈ chunks /\ c ∉ done) -> NoDup l -> vectors_ok ->
  sweep_inv g chunks bit_of (fun d _ => d ∈ done) h p acc ->
  exists p' h' acc', sg_sweep (16 * g) bits l (p, h) = Ret (p', h') /\
    sweep_inv g chunks bit_of (fun d _ => d ∈ done \/ d ∈ l) h' p' acc'.
Proof.
  induction l as [|c l IH]; intros done h p acc Hl Hnd Hv I; cbn [sg_sweep].
  { exists p, h, acc. split; [done|]. eapply sweep_skip; [exact I|intros; by left|].
    intros d j _ _ [?|?%elem_of_nil]; [by left|done]. }
  destruct (Hl c) as [Hc Hnew]; [by left|]. destruct (Hv c Hc) as (v & E & Wv & Hg). rewrite E.
  assert (s32 (16 * g / SIZEOF_BLOCK) = g) as ->.
  { pose proof (ck_g _ _ W). unfold SIZEOF_BLOCK. replace (16 * g) with (g * 16) by lia. rewrite Z.div_mul by done.
    apply swrap_small; [done|]. cbn. lia. }
  destruct (sweep_chunk_ok done c v h p acc) as (p1 & h1 & acc1 & -> & I1); [done..|]. mred.
  apply NoDup_cons in Hnd as [Hcl Hnd].
  destruct (IH (c :: done) h1 p1 acc1) as (p' & h' & acc' & -> & I'); [|done|done|done|].
  - intros d Hd. destruct (Hl d) as [? ?]; [by right|]. split; [done|]. intros [->|?]%elem_of_cons; done.
  - exists p', h', acc'. split; [done|]. eapply sweep_skip; [exact I'| |].
    + intros d j [[->|?]%elem_of_cons|?]; [right; by left|by left|right; by right].
    + intros d j _ _ [?|[->|?]%elem_of_cons]; left; [left; by right|left; by left|by right].
Qed.
End Sweep.

(** *** The state of the collector *)

Lemma sg_round_eq n : sg_round n = 16 * (u64 (n + SIZEOF_BLOCK - 1) / SIZEOF_BLOCK).
Proof.
  unfold sg_round. pose proof (land_lnot_word 64 (u64 (n + SIZEOF_BLOCK - 1)) 4 ltac:(by apply wrap_inw) ltac:(done)) as E.
  change (u64 (2 ^ 4 - 1)) with (SIZEOF_BLOCK - 1) in E. rewrite E. change (2 ^ 4) with SIZEOF_BLOCK. unfold SIZEOF_BLOCK. lia.
Qed.

Section State.
Context {T : Type}.
Implicit Types s : SimpleGC T.

(** [free] are the free blocks, in order, and [live] the blocks in use. *)
Record sg_wf (g : Z) s (free live : list (Z * Z)) : Prop := {
  sw_size : sg_csize s = 16 * g;
  sw_chunks : chunks_ok g (sg_chunks s);
  sw_own : sg_own s = (fun c => (c, 8 + 16 * g)) <$> sg_chunks s;
  sw_bits : sg_bits s = ∅;
  sw_st : sg_st s = None;
  sw_list : fseg (sg_hdr s) (sg_free s) free 0;
  sw_placed b : b ∈ free ++ live -> placed g (sg_chunks s) b;
  sw_separate : separate (free ++ live) }.

Lemma sw_nodup g s free live : sg_wf g s free live -> NoDup free.*1.
Proof.
  intros W. apply blocks_NoDup; [|by eapply separate_app_l, sw_separate].
  intros b Hb. eapply placed_pos; [apply W|]. apply (sw_placed _ _ _ _ W), elem_of_app. by left.
Qed.

Lemma separate_cons_inv x l : separate (x :: l) -> Forall (disj x) l /\ separate l.
Proof. intros Hs. by inversion Hs. Qed.
Lemma separate_app l k : separate l -> separate k -> (forall x y, x ∈ l -> y ∈ k -> disj x y) -> separate (l ++ k).
Proof.
  induction l as [|x l IH]; intros Hl Hk Hd; [done|]. inversion Hl as [|? ? Hx Hl']; subst. cbn. constructor.
  - apply Forall_app. split; [done|]. apply list.Forall_forall. intros y Hy. apply Hd; [by left|done].
  - apply IH; [done|done|]. intros y z Hy Hz. apply Hd; [by right|done].
Qed.
Lemma separate_app_r l k : separate (l ++ k) -> separate k.
Proof. induction l as [|x l IH]; [done|]. intros Hs. inversion Hs; subst. by apply IH. Qed.

(** The block cut from a free one takes nothing from the others. *)
Lemma taken_ok g s free live m r l1 a n l2 : sg_wf g s free live -> free = l1 ++ (a, n) :: l2 -> 0 < m -> 16 * m <= n ->
  taken s (16 * m) l1 a n l2 r -> r.1 = a + n - 16 * m /\ r.1 <> 0 /\
  sg_wf g r.2 (l1 ++ cut (16 * m) a n ++ l2) ((r.1, 16 * m) :: live).
Proof.
  intros W -> Hm Hmn (Er & (E1 & E2 & E3 & E4 & E5 & E6) & Hl). pose proof (sw_chunks _ _ _ _ W) as Wc.
  assert (placed g (sg_chunks s) (a, n)) as Hp.
  { apply (sw_placed _ _ _ _ W), elem_of_app. left. apply elem_of_app. right. by left. }
  pose proof (placed_pos g _ Wc _ Hp) as (_ & Ha & Hmax). cbn [fst snd] in *.
  rewrite wrap_small in Er by (split; lia). destruct Hp as (c & i & k & Hc & Hi & Hk & Hg & [= Ea En]).
  assert ((a, n) :: l1 ++ l2 ++ live ≡ₚ (l1 ++ (a, n) :: l2) ++ live) as P by (by rewrite <- app_assoc, Permutation_middle).
  pose proof (sw_separate _ _ _ _ W) as Hs. rewrite <- P in Hs. apply separate_cons_inv in Hs as [Hx Hs'].
  set (piece := cut (16 * m) a n). set (new := (r.1, 16 * m)).
  assert (forall b, b ∈ new :: piece -> placed g (sg_chunks s) b /\ a <= b.1 /\ b.1 + b.2 <= a + n) as Hpc.
  { intros b [->|Hb]%elem_of_cons.
    - cbn. rewrite Er. split; [|lia]. exists c, (i + (k - m)), m. split_and!; [done|lia|lia|lia|]. unfold new, granule in *.
      f_equal. lia.
    - unfold piece, cut in Hb. destruct (Z.eqb_spec (n - 16 * m) 0) as [|Hne]; [by apply elem_of_nil in Hb|].
      apply list_elem_of_singleton in Hb as ->. cbn. split; [|lia]. exists c, i, (k - m). split_and!; [done|lia|lia|lia|].
      f_equal; lia. }
  split; [done|]. split; [lia|].
  assert ((l1 ++ piece ++ l2) ++ new :: live ≡ₚ (new :: piece) ++ (l1 ++ l2 ++ live)) as Q.
  { rewrite <- Permutation_middle. cbn. f_equiv. rewrite <- !app_assoc. rewrite (app_assoc l1 piece), (Permutation_app_comm l1 piece).
    by rewrite <- app_assoc. }
  split; rewrite ?E1, ?E2, ?E3, ?E4, ?E6; try apply W; [exact Hl| |].
  - intros b Hb. rewrite Q in Hb. apply elem_of_app in Hb as [Hb|Hb]; [by apply Hpc|].
    apply (sw_placed _ _ _ _ W). rewrite <- P. by right.
  - rewrite Q. apply separate_app; [|done|].
    + constructor; [|unfold piece, cut; destruct (_ =? 0); repeat constructor].
      apply list.Forall_forall. intros b Hb. unfold piece, cut in Hb. destruct (_ =? 0); [by apply elem_of_nil in Hb|].
      apply list_elem_of_singleton in Hb as ->. right. cbn. lia.
    + intros x y Hx' Hy. rewrite list.Forall_forall in Hx. specialize (Hx y Hy). destruct (Hpc x Hx') as (_ & ? & ?).
      unfold disj in *. cbn in Hx. lia.
Qed.
End State.

(** *** A collection *)

Section Collection.
Context `{HeapLaws} {T : Type} `{EqDecision T}.
Implicit Types s : SimpleGC T.

(** The chunk of each address is found and each chunk has its bit vector. *)
Record collecting (g : Z) s : Prop := {
  co_find : exists st, sg_st s = Some st /\
    forall c x, c ∈ sg_chunks s -> sg_buffer c <= x < sg_buffer c + 16 * g -> stree_get st x = Ret c;
  co_bits : vectors_ok g (sg_chunks s) (sg_bits s) }.

Lemma mark_loop_ok v a k : bv_wf v -> 0 <= a -> 0 <= k -> a + k <= bv_size v ->
  exists res v', loop a (a + k) (fun i r =>
      let '(res, bits) := r in
      b ← BitVector_bit bits i;
      if negb b then bits ← BitVector_set bits i; Ret (false, bits) else Ret (res, bits)) (true, v) = Ret (res, v') /\
    bv_wf v' /\ bv_size v' = bv_size v /\ (res = true <-> forall j, a <= j < a + k -> bv_get v j = true) /\
    forall j, 0 <= j -> bv_get v' j = true <-> bv_get v j = true \/ a <= j < a + k.
Proof.
  intros Wv Ha Hk Hs.
  loop_with (fun i r => bv_wf r.2 /\ bv_size r.2 = bv_size v /\ (r.1 = true <-> forall j, a <= j < i -> bv_get v j = true) /\
    forall j, 0 <= j -> bv_get r.2 j = true <-> bv_get v j = true \/ a <= j < i).
  - lia.
  - cbn. split_and!; [done|done|split; [intros; lia|done]|]. intros j Hj. split; [by left|]. intros [?|?]; [done|lia].
  - intros i [res w] Hi (Ww & Ew & Hres & Hw). cbn [fst snd] in *. rewrite (BitVector_bit_ok w Ww) by lia. mred.
    assert (bv_get w i = bv_get v i) as Ei.
    { apply eq_bool_prop_intro. rewrite !Is_true_true, Hw by lia. split; [intros [?|?]; [done|lia]|by left]. }
    destruct (bv_get w i) eqn:E; cbn [negb].
    + eexists. split; [done|]. cbn [fst snd]. split_and!; [done|done| |].
      * rewrite Hres. split; intros Hj j Hij; [|apply Hj; lia]. destruct (decide (j = i)) as [->|]; [done|apply Hj; lia].
      * intros j Hj. rewrite Hw by done. split; [intros [?|?]; [by left|right; lia]|].
        intros [?|?]; [by left|]. destruct (decide (j = i)) as [->|]; [by left|right; lia].
    + destruct (BitVector_set_ok w Ww i) as (w' & -> & Ww' & Ew' & Hw'); [lia|]. mred. eexists. split; [done|].
      cbn [fst snd]. split_and!; [done|lia| |].
      * split; [done|]. intros Hj. specialize (Hj i ltac:(lia)). congruence.
      * intros j Hj. rewrite Hw', orb_true_iff, Z.eqb_eq, Hw by done. split.
        -- intros [->|[?|?]]; [right; lia|by left|right; lia].
        -- intros [?|?]; [right; by left|]. destruct (decide (j = i)); [by left|right; right; lia].
  - destruct r as [res v']. exists res, v'. split; [done|]. exact Hr.
Qed.

Lemma SimpleGC_mark_ok g s c a k n : collecting g s -> chunks_ok g (sg_chunks s) -> c ∈ sg_chunks s -> 0 <= a -> 0 < k -> a + k <= g ->
  sg_round n = 16 * k ->
  exists res v', SimpleGC_mark (granule c a, n) s = Ret (res, sg_set_bits (<[c := v']> (sg_bits s)) s) /\
    bv_wf v' /\ bv_size v' = g /\ (res = true <-> forall j, a <= j < a + k -> bit_of (sg_bits s) c j = true) /\
    forall j, 0 <= j -> bv_get v' j = true <-> bit_of (sg_bits s) c j = true \/ a <= j < a + k.
Proof.
  intros [(st & Est & Hfind) Hv] Wc Hc Ha Hk Hg Hn. pose proof (ck_g _ _ Wc). pose proof (ck_in _ _ Wc c Hc) as [? ?].
  unfold SimpleGC_mark. rewrite Est. rewrite (Hfind c) by (done || (unfold granule; lia)). mred.
  rewrite (proj2 (Z.eqb_neq c 0)) by lia. mred. destruct (Hv c Hc) as (v & Ev & Wv & Eg). rewrite Ev.
  rewrite sg_round_eq in Hn. replace (u64 (n + SIZEOF_BLOCK - 1) / SIZEOF_BLOCK) with k by lia.
  replace (granule c a - sg_buffer c) with (16 * a) by (unfold granule; lia).
  rewrite (wrap_small 64 (16 * a)) by (split; lia). unfold SIZEOF_BLOCK. replace (16 * a) with (a * 16) by lia.
  rewrite Z.div_mul by done. rewrite !swrap_small by (cbn; lia).
  destruct (mark_loop_ok v a k Wv) as (res & v' & -> & Wv' & Ev' & Hres & Hv'); [lia|lia|lia|]. mred.
  exists res, v'. unfold bit_of. rewrite Ev. split_and!; [done|done|lia|done|done].
Qed.

(** The blocks marked by a client when those of [m] are. [mark()] tells whether its
    block was marked already. *)
Fixpoint reach (c : collector (Z * Z)) (m : list (Z * Z)) : list (Z * Z) :=
  match c with
  | Done => m
  | Mark p k => let b := (p.1, sg_round p.2) in reach (k (bool_decide (b ∈ m))) (b :: m)
  end.
Lemma reach_mono c : forall m b, b ∈ m -> b ∈ reach c m.
Proof. induction c as [|p k IH]; intros m b Hb; [done|]. apply IH. by right. Qed.
Definition reach_all (cs : list (collector (Z * Z))) (m : list (Z * Z)) : list (Z * Z) :=
  foldl (fun m c => reach c m) m cs.
Lemma reach_all_mono cs : forall m b, b ∈ m -> b ∈ reach_all cs m.
Proof. induction cs as [|c cs IH]; intros m b Hb; [done|]. by apply IH, reach_mono. Qed.

(** The granules marked are those of the blocks of [m]. *)
Definition marks_are (g : Z) s (m : list (Z * Z)) : Prop :=
  forall c j, c ∈ sg_chunks s -> 0 <= j < g -> bit_of (sg_bits s) c j = true <-> exists b, b ∈ m /\ covers b (granule c j).

Context (g : Z) (live : list (Z * Z)) (chunks : list Z) (Wc : chunks_ok g chunks).
Context (Hplaced : forall b, b ∈ live -> placed g chunks b) (Hsep : separate live).

Lemma covered_same b b' x : b ∈ live -> b' ∈ live -> covers b x -> covers b' x -> b = b'.
Proof.
  intros Hb Hb' Hx Hx'. destruct (separate_in _ _ _ Hsep Hb Hb') as [|[?|?]]; [done|unfold covers in *; lia..].
Qed.

Lemma run_collect_ok c : forall s m, sg_chunks s = chunks -> collecting g s -> marks_are g s m ->
  (forall b, b ∈ reach c m -> b ∈ live) ->
  exists bits', run_collect SimpleGC_mark c s = Ret (sg_set_bits bits' s) /\
    collecting g (sg_set_bits bits' s) /\ marks_are g (sg_set_bits bits' s) (reach c m).
Proof.
  induction c as [|p k IH]; intros s m Hch Co Hm Hl; cbn [run_collect reach] in *.
  { exists (sg_bits s). by destruct s. }
  set (b := (p.1, sg_round p.2)) in *. assert (b ∈ reach (k (bool_decide (b ∈ m))) (b :: m)) as Hb by (apply reach_mono; by left).
  assert (forall x, x ∈ b :: m -> x ∈ live) as Hml by (intros x Hx; by apply Hl, reach_mono).
  pose proof (Hplaced b (Hl b Hb)) as (c & a & n & Hc & Ha & Hn & Hag & [= E1 E2]).
  assert (p = (granule c a, p.2)) as -> by (rewrite <- E1; by destruct p). cbn [snd] in *.
  rewrite <- Hch in Wc, Hc.
  destruct (SimpleGC_mark_ok g s c a n p.2) as (res & v' & -> & Wv' & Ev' & Hres & Hv'); [done..|]. mred.
  set (s' := sg_set_bits (<[c:=v']> (sg_bits s)) s).
  assert (forall d j, d ∈ sg_chunks s -> 0 <= j < g -> bit_of (sg_bits s') d j = true <->
    bit_of (sg_bits s) d j = true \/ covers b (granule d j)) as Hbits.
  { intros d j Hd Hj. assert (covers b (granule d j) <-> c = d /\ a <= j < a + n) as ->.
    { unfold b. rewrite E1, E2. by apply (granule_covered g (sg_chunks s) Wc). }
    unfold s', bit_of at 1. cbn. destruct (decide (c = d)) as [<-|Hne].
    - rewrite lookup_insert_eq, Hv' by lia. tauto.
    - rewrite lookup_insert_ne by done. fold (bit_of (sg_bits s) d j). tauto. }
  assert (res = bool_decide (b ∈ m)) as ->.
  { apply eq_bool_prop_intro. rewrite Is_true_true, bool_decide_spec, Hres. split.
    - intros Hall. specialize (Hall a ltac:(lia)). apply Hm in Hall as (b' & Hb' & Hx); [|done|lia].
      rewrite <- (covered_same b' b (granule c a)); [done|apply Hml; by right|by apply Hl|done|].
      unfold covers, b. rewrite E1, E2. cbn. lia.
    - intros Hin j Hj. apply Hm; [done|lia|]. exists b. split; [done|]. unfold b. rewrite E1, E2.
      apply (granule_covered g (sg_chunks s) Wc); (done || lia). }
  destruct (IH (bool_decide (b ∈ m)) s' (b :: m)) as (bits' & -> & Co' & Hm'); [done| | |done|].
  - destruct Co as [Hf Hvs]. split; [done|]. intros d Hd. unfold s'. cbn.
    destruct (decide (c = d)) as [<-|Hne]; [rewrite lookup_insert_eq; by exists v'|rewrite lookup_insert_ne by done; by apply Hvs].
  - intros d j Hd Hj. rewrite Hbits, (Hm d j Hd Hj) by done. split.
    + intros [(x & Hx & Hxj)|Hx]; [exists x; split; [by right|done]|exists b; split; [by left|done]].
    + intros (x & [->|Hx]%elem_of_cons & Hxj); [by right|left; by exists x].
  - exists bits'. split; [|done]. destruct s; done.
Qed.
End Collection.

Section Allocate.
Context `{HeapLaws} {T : Type} `{EqDecision T}.
Implicit Types s : SimpleGC T.

Definition seg_of (csize c : Z) : segment Z Z := ((sg_buffer c, sg_buffer c + csize), c).

Lemma add_segments_fail f l :
  foldl (fun m x => m ≫= fun b => SegmentBuilder_add (K := Z) (T := Z) b (low x) (high x) x.2) (Crash f) l = Crash f.
Proof. by induction l. Qed.

Lemma begin_chunks_ok g l : 0 < g < 2 ^ 31 -> forall b b' bits, add_segments b (seg_of (16 * g) <$> l) = Ret b' ->
  exists bits', begin_chunks (16 * g) l b bits = Ret (b', bits') /\
    forall c, (c ∈ l -> exists v, bits' !! c = Some v /\ bv_wf v /\ bv_size v = g /\ forall n, 0 <= n -> bv_get v n = false) /\
      (c ∉ l -> bits' !! c = bits !! c).
Proof.
  intros Hg. induction l as [|c l IH]; intros b b' bits Hb; cbn [begin_chunks].
  { injection Hb as <-. exists bits. split; [done|]. intros c. split; [by intros ?%elem_of_nil|done]. }
  unfold add_segments in Hb. cbn [fmap list_fmap foldl] in Hb. rewrite bind_Ret in Hb. cbn [seg_of low high fst snd] in Hb.
  destruct (SegmentBuilder_add b (sg_buffer c) (sg_buffer c + 16 * g) c) as [b1|f]; [|by rewrite add_segments_fail in Hb].
  mred. replace (s32 (16 * g / SIZEOF_BLOCK)) with g.
  2:{ unfold SIZEOF_BLOCK. rewrite Z.mul_comm, Z.div_mul by done. symmetry. apply swrap_small; cbn; lia. }
  destruct (BitVector_make_clear g) as (v & -> & Wv & Ev & Hv); [lia|]. mred.
  destruct (IH b1 b' (<[c:=v]> bits) Hb) as (bits' & -> & Hbits). exists bits'. split; [done|]. intros d.
  destruct (Hbits d) as [H1 H2]. split.
  - intros [->|Hd]%elem_of_cons; [|by apply H1]. destruct (decide (c ∈ l)) as [Hc|Hc]; [by apply H1|].
    exists v. rewrite H2, lookup_insert_eq by done. done.
  - intros [Hne Hd]%not_elem_of_cons. rewrite H2 by done. by rewrite lookup_insert_ne.
Qed.

Lemma chunk_segments g chunks : chunks_ok g chunks -> segments_ok (seg_of (16 * g) <$> chunks).
Proof.
  intros W. pose proof (ck_g _ _ W). split.
  - intros x (c & -> & Hc)%list_elem_of_fmap. apply Z_clt. cbn. lia.
  - intros x y (c & -> & Hc)%list_elem_of_fmap (d & -> & Hd)%list_elem_of_fmap.
    destruct (chunks_disj g chunks W c d Hc Hd) as [->|Hcd]; [by left|right]. unfold apart. rewrite !Z_cle.
    unfold disj, sg_buffer in *. cbn in *. unfold sg_buffer. lia.
Qed.

(** The blocks of [live] in the order of the list that are marked. *)
Definition kept (m live : list (Z * Z)) : list (Z * Z) := filter (fun b => b ∈ m) live.

Lemma SimpleGC_beginGC_ok g s free live : sg_wf g s free live -> zlen (sg_chunks s) < ITER_LIMIT ->
  exists bits st, SimpleGC_beginGC s = Ret (sg_set_st (Some st) (sg_set_bits bits s)) /\
    (sg_chunks s <> [] -> collecting g (sg_set_st (Some st) (sg_set_bits bits s))) /\
    marks_are g (sg_set_st (Some st) (sg_set_bits bits s)) [].
Proof.
  intros W Hn. pose proof (sw_chunks _ _ _ _ W) as Wc. pose proof (ck_g _ _ Wc) as Hg. unfold SimpleGC_beginGC.
  rewrite (sw_size _ _ _ _ W).
  assert (forall bits st, (forall c, c ∈ sg_chunks s -> exists v, bits !! c = Some v /\ bv_wf v /\ bv_size v = g /\ forall n, 0 <= n -> bv_get v n = false) ->
    marks_are g (sg_set_st (Some st) (sg_set_bits bits s)) []) as Hm.
  { intros bits st Hbits c j Hc Hj. destruct (Hbits c Hc) as (v & Ev & _ & _ & Hv). unfold bit_of. cbn. rewrite Ev, Hv by lia.
    split; [done|]. by intros (b & ?%elem_of_nil & _). }
  destruct (decide (sg_chunks s = [])) as [E|E].
  - rewrite E. cbn. eexists (sg_bits s), stree_make. split; [done|]. split; [done|]. apply Hm. rewrite E. by intros c ?%elem_of_nil.
  - destruct (SegmentBuilder_build_ok 0 (seg_of (16 * g) <$> sg_chunks s) stree_make) as (b & st & Eb & Est & Ha).
    + by apply chunk_segments.
    + by intros ?%fmap_nil_inv.
    + by rewrite length_fmap.
    + destruct (begin_chunks_ok g (sg_chunks s) Hg _ _ (sg_bits s) Eb) as (bits & -> & Hbits). mred. rewrite Est. mred.
      exists bits, st. split; [done|]. split; [|apply Hm; intros c; apply Hbits]. intros _. split.
      * exists st. split; [done|]. intros c x Hc Hx. unfold stree_get.
        rewrite (sa_inside _ _ _ Ha (seg_of (16 * g) c) x); [done| | |].
        -- by apply (list_elem_of_fmap_2 (seg_of (16 * g))).
        -- apply Z_cle. cbn. lia.
        -- apply Z_clt. cbn. lia.
      * intros c Hc. destruct (Hbits c) as [Hv _]. destruct (Hv Hc) as (v & ? & ? & ? & _). by exists v.
Qed.

Lemma run_all_ok g live chunks : chunks_ok g chunks -> (forall b, b ∈ live -> placed g chunks b) -> separate live ->
  forall cs s m, sg_chunks s = chunks -> collecting g s -> marks_are g s m -> (forall b, b ∈ reach_all cs m -> b ∈ live) ->
  exists bits', foldl (fun o c => s ← o; run_collect SimpleGC_mark c s) (Ret s) cs = Ret (sg_set_bits bits' s) /\
    collecting g (sg_set_bits bits' s) /\ marks_are g (sg_set_bits bits' s) (reach_all cs m).
Proof.
  intros Wc Hp Hs. induction cs as [|c cs IH]; intros s m Hch Co Hm Hl; cbn [foldl].
  { exists (sg_bits s). by destruct s. }
  rewrite bind_Ret. cbn [reach_all foldl] in Hl.
  destruct (run_collect_ok g live chunks Wc Hp Hs c s m) as (bits & -> & Co' & Hm'); [done..| |].
  { intros b Hb. by apply Hl, reach_all_mono. }
  destruct (IH (sg_set_bits bits s) (reach c m)) as (bits' & -> & Co'' & Hm''); [done..|]. exists bits'. destruct s. done.
Qed.

(** With no chunk there is no block, so nothing to mark. *)
Lemma no_chunk_done g cs : (forall b, b ∈ reach_all cs [] -> placed g [] b) -> Forall (fun c => c = Done) cs.
Proof.
  induction cs as [|c cs IH]; intros Hr; [constructor|]. cbn in Hr.
  destruct c as [|p k]; [constructor; [done|by apply IH]|]. exfalso.
  destruct (Hr (p.1, sg_round p.2)) as (c & _ & _ & ?%elem_of_nil & _); [|done].
  apply (reach_all_mono cs (reach (Mark p k) [])). cbn [reach]. apply reach_mono. by left.
Qed.

Lemma run_done cs s : Forall (fun c => c = Done) cs ->
  foldl (fun o c => s ← o; run_collect SimpleGC_mark c s) (Ret s) cs = Ret s.
Proof. induction 1 as [|c cs -> _ IH]; [done|]. cbn [foldl]. by rewrite bind_Ret. Qed.

Lemma endGC_ok g s free live bits st m : sg_wf g s free live -> vectors_ok g (sg_chunks s) bits ->
  let s1 := sg_set_st (Some st) (sg_set_bits bits s) in marks_are g s1 m ->
  exists s' free', SimpleGC_endGC s1 = Ret s' /\ sg_wf g s' free' (kept m live) /\ sg_chunks s' = sg_chunks s /\ sg_temps s' = sg_temps s /\
    (forall c j, c ∈ sg_chunks s -> 0 <= j < g ->
      (exists b, b ∈ free' /\ covers b (granule c j)) <-> ~ exists b, b ∈ m /\ covers b (granule c j)) /\
    forall b b', b ∈ free' -> b' ∈ free' -> b.1 + b.2 <> b'.1.
Proof.
  intros W Hv s1 Hm. pose proof (sw_chunks _ _ _ _ W) as Wc. unfold SimpleGC_endGC.
  pose proof (chunks_NoDup g (sg_chunks s) Wc) as Hnd.
  destruct (sg_sweep_ok g (sg_chunks s) Wc bits (sg_chunks s) [] (sg_hdr s) 0 []) as (p & h & free' & E & I).
  - intros c Hc. split; [done|apply not_elem_of_nil].
  - done.
  - done.
  - split; [done|constructor|by intros b ?%elem_of_nil|by intros b c j ?%elem_of_nil|by intros c j _ _ ?%elem_of_nil|by intros b b' ?%elem_of_nil].
  - change (sg_csize s1) with (sg_csize s). rewrite (sw_size _ _ _ _ W).
    change (sg_bits s1) with bits. change (sg_chunks s1) with (sg_chunks s). change (sg_hdr s1) with (sg_hdr s). rewrite E. mred.
    assert (forall c j, c ∈ sg_chunks s -> 0 <= j < g ->
      (exists b, b ∈ free' /\ covers b (granule c j)) <-> ~ exists b, b ∈ m /\ covers b (granule c j)) as Hcov.
    { intros c j Hc Hj. rewrite <- (Hm c j Hc Hj). change (sg_bits s1) with bits. rewrite not_true_iff_false. split.
      - intros (b & Hb & Hx). by eapply (si_done _ _ _ _ _ _ _ I).
      - intros Hf. eapply (si_cover _ _ _ _ _ _ _ I); [done|done|by right|done]. }
    eexists _, free'. split; [done|]. split; [|split_and!; [done|done|done|apply I]].
    assert (forall b, b ∈ free' ++ kept m live -> placed g (sg_chunks s) b) as Hpl.
    { intros b [Hb|[_ Hb]%list_elem_of_filter]%elem_of_app; [by eapply (si_placed _ _ _ _ _ _ _ I)|].
      apply (sw_placed _ _ _ _ W), elem_of_app. by right. }
    split; cbn; [apply W|exact Wc|apply W|done|done|apply I|exact Hpl|].
    apply separate_app; [apply I| |].
    + apply separate_filter. eapply separate_app_r, sw_separate, W.
    + intros x y Hx Hy. apply (placed_disj g (sg_chunks s) Wc); [apply Hpl, elem_of_app; by left|apply Hpl, elem_of_app; by right|].
      intros c j Hc Hj Hxj Hyj. apply (proj1 (Hcov c j Hc Hj)); [by exists x|].
      exists y. apply list_elem_of_filter in Hy as [Hy _]. done.
Qed.

Section Client.
Context (Temp_collect : T -> collector (Z * Z)) (collect : collector (Z * Z)).

(** What a collection marks: the blocks of the temporaries, then those of the client. *)
Definition all_marks s : list (Z * Z) := reach_all ((Temp_collect <$> sg_temps s) ++ [collect]) [].

Lemma temps_foldl l : forall o : outcome (SimpleGC T),
  foldl (fun m t => s ← m; run_collect SimpleGC_mark (Temp_collect t) s) o l =
  foldl (fun o c => s ← o; run_collect SimpleGC_mark c s) o (Temp_collect <$> l).
Proof. induction l as [|t l IH]; intros o; [done|]. apply IH. Qed.

Lemma SimpleGC_doGC_ok g s free live : sg_wf g s free live -> zlen (sg_chunks s) < ITER_LIMIT ->
  (forall b, b ∈ all_marks s -> b ∈ live) ->
  exists s' free', SimpleGC_doGC Temp_collect collect s = Ret s' /\ sg_wf g s' free' (kept (all_marks s) live) /\
    sg_chunks s' = sg_chunks s /\ sg_temps s' = sg_temps s /\
    (forall c j, c ∈ sg_chunks s -> 0 <= j < g ->
      (exists b, b ∈ free' /\ covers b (granule c j)) <-> ~ exists b, b ∈ all_marks s /\ covers b (granule c j)) /\
    forall b b', b ∈ free' -> b' ∈ free' -> b.1 + b.2 <> b'.1.
Proof.
  intros W Hn Hl. pose proof (sw_chunks _ _ _ _ W) as Wc. unfold SimpleGC_doGC.
  assert (forall b, b ∈ live -> placed g (sg_chunks s) b) as Hp by (intros b Hb; apply (sw_placed _ _ _ _ W), elem_of_app; by right).
  assert (separate live) as Hs by (eapply separate_app_r, sw_separate, W).
  destruct (SimpleGC_beginGC_ok g s free live W Hn) as (bits & st & -> & Hco & Hm). rewrite bind_Ret.
  set (s1 := sg_set_st (Some st) (sg_set_bits bits s)) in *.
  set (cs := (Temp_collect <$> sg_temps s) ++ [collect]).
  assert (forall o : outcome (SimpleGC T), (s2 ← foldl (fun m t => s ← m; run_collect SimpleGC_mark (Temp_collect t) s) o (sg_temps s);
      s3 ← run_collect SimpleGC_mark collect s2; SimpleGC_endGC s3) =
    (s3 ← foldl (fun o c => s ← o; run_collect SimpleGC_mark c s) o cs; SimpleGC_endGC s3)) as Efold.
  { intros o. rewrite temps_foldl. unfold cs. rewrite foldl_app. cbn [foldl]. by destruct (foldl _ o _). }
  change (sg_temps s1) with (sg_temps s). rewrite Efold.
  assert (exists bits', foldl (fun o c => s ← o; run_collect SimpleGC_mark c s) (Ret s1) cs = Ret (sg_set_bits bits' s1) /\
    vectors_ok g (sg_chunks s) bits' /\ marks_are g (sg_set_bits bits' s1) (all_marks s)) as (bits' & -> & Hv & Hm').
  { destruct (decide (sg_chunks s = [])) as [E|E].
    - exists bits. assert (Forall (fun c => c = Done) cs) as Hdone.
      { apply (no_chunk_done g). intros b Hb. rewrite <- E. by apply Hp, Hl. }
      split; [|split; [|intros c j Hc; change (c ∈ sg_chunks s) in Hc; rewrite E in Hc; by apply elem_of_nil in Hc]].
      + by rewrite run_done.
      + intros c Hc. rewrite E in Hc. by apply elem_of_nil in Hc.
    - destruct (run_all_ok g live (sg_chunks s) Wc Hp Hs cs s1 []) as (bits' & E' & [_ Hv] & Hm'); [done|by apply Hco|done|done|].
      exists bits'. done. }
  mred. apply (endGC_ok g s free live bits' st (all_marks s) W Hv Hm').
Qed.

Lemma placed_more g c chunks b : placed g chunks b -> placed g (c :: chunks) b.
Proof. intros (d & a & k & Hd & Hb). exists d, a, k. split; [by right|done]. Qed.

Lemma SimpleGC_newChunk_ok g s free live : sg_wf g s free live ->
  exists r s', SimpleGC_newChunk s = Ret (r, s') /\
    match r with
    | Val _ => exists c, sg_chunks s' = c :: sg_chunks s /\ sg_temps s' = sg_temps s /\ sg_wf g s' ((sg_buffer c, 16 * g) :: free) live
    | Throw => s' = s
    end.
Proof.
  intros W. pose proof (sw_chunks _ _ _ _ W) as Wc. pose proof (ck_g _ _ Wc). unfold SimpleGC_newChunk.
  erewrite io_bind_Val by reflexivity. rewrite (sw_size _ _ _ _ W). rewrite wrap_small by (split; lia).
  destruct (new_block (sg_own s) (8 + 16 * g)) as [c|] eqn:E; [|by eexists _, s].
  pose proof (new_in_space _ _ _ E ltac:(lia)) as [Hc1 Hc2]. pose proof (new_fresh _ _ _ E) as Hf. rewrite (sw_own _ _ _ _ W) in Hf.
  eexists _, _. split; [done|]. exists c. split; [done|]. split; [done|].
  assert (chunks_ok g (c :: sg_chunks s)) as Wc'.
  { split; [done| |constructor; [done|apply Wc]]. intros d [->|Hd]%elem_of_cons; [lia|by apply Wc]. }
  assert (forall b, b ∈ free ++ live -> disj (sg_buffer c, 16 * g) b) as Hd.
  { intros b Hb. destruct (sw_placed _ _ _ _ W b Hb) as (d & a & k & Hdc & Ha & Hk & Hg & ->).
    rewrite list.Forall_forall in Hf. specialize (Hf (d, 8 + 16 * g)).
    assert (disj (c, 8 + 16 * g) (d, 8 + 16 * g)) as Hcd by by apply Hf, (list_elem_of_fmap_2 (fun c => (c, 8 + 16 * g))).
    unfold disj, granule, sg_buffer in *. cbn in *. lia. }
  split; cbn; [done|exact Wc'|by rewrite (sw_own _ _ _ _ W)| | | | |].
  - rewrite (sw_bits _ _ _ _ W). apply delete_empty.
  - apply W.
  - split; [done|]. split; [unfold sg_buffer; lia|]. exists (sg_free s). rewrite lookup_insert_eq. split; [done|].
    apply fseg_other; [|apply W]. intros (b & Eb & Hb)%list_elem_of_fmap.
    specialize (Hd b ltac:(apply elem_of_app; by left)).
    destruct (placed_pos g _ Wc b (sw_placed _ _ _ _ W b ltac:(apply elem_of_app; by left))) as (? & _).
    unfold disj in Hd. cbn in *. lia.
  - intros b [->|Hb]%elem_of_cons; [|by apply placed_more, (sw_placed _ _ _ _ W)].
    exists c, 0, g. split_and!; [by left|lia|lia|lia|]. unfold granule. f_equal. lia.
  - constructor; [|apply W]. by apply list.Forall_forall.
Qed.

(** No run of free granules is as long as [n] bytes. *)
Definition no_room (g n : Z) (chunks : list Z) (marks : list (Z * Z)) : Prop :=
  forall c a k, c ∈ chunks -> 0 <= a -> 0 < k -> a + k <= g -> 16 * k = n ->
    exists j b, a <= j < a + k /\ b ∈ marks /\ covers b (granule c j).

(** Free blocks that do not touch each other: a run of free granules is in one of them. *)
Lemma run_in_block g chunks free : chunks_ok g chunks -> (forall b, b ∈ free -> placed g chunks b) -> separate free ->
  (forall b b', b ∈ free -> b' ∈ free -> b.1 + b.2 <> b'.1) ->
  forall c a (k : nat), c ∈ chunks -> 0 <= a -> (0 < k)%nat -> a + Z.of_nat k <= g ->
  (forall j, a <= j < a + Z.of_nat k -> exists b, b ∈ free /\ covers b (granule c j)) ->
  exists b, b ∈ free /\ forall j, a <= j < a + Z.of_nat k -> covers b (granule c j).
Proof.
  intros Wc Hp Hs Hapart c a k Hc Ha. induction k as [|k IH]; intros Hk Hg Hcov; [lia|].
  destruct k as [|k].
  { destruct (Hcov a) as (b & Hb & Hx); [lia|]. exists b. split; [done|]. intros j Hj. by replace j with a by lia. }
  destruct IH as (b & Hb & Hx); [lia|lia|intros; apply Hcov; lia|]. exists b. split; [done|]. intros j Hj.
  set (e := a + Z.of_nat (S k)) in *.
  destruct (decide (j = e)) as [->|]; [|apply Hx; lia].
  destruct (Hcov e) as (b' & Hb' & Hx'); [lia|]. destruct (decide (b' = b)) as [->|Hne]; [done|]. exfalso.
  specialize (Hx (e - 1) ltac:(lia)). destruct (separate_in _ b b' Hs Hb Hb') as [|Hd]; [done|].
  pose proof (Hapart b b' Hb Hb') as Hno.
  destruct (Hp b Hb) as (d & i & m & Hdc & Hi & Hm & Hig & ->). apply (granule_covered g chunks Wc) in Hx as [-> Hx]; [|done..|lia].
  destruct (Hp b' Hb') as (d & i' & m' & Hdc' & Hi' & Hm' & Hig' & ->). apply (granule_covered g chunks Wc) in Hx' as [-> Hx']; [|done..|lia].
  unfold disj, granule in Hd, Hno. cbn in Hd, Hno. lia.
Qed.

Lemma free_room g s free live marks n : sg_wf g s free live ->
  (forall c j, c ∈ sg_chunks s -> 0 <= j < g ->
      (exists b, b ∈ free /\ covers b (granule c j)) <-> ~ exists b, b ∈ marks /\ covers b (granule c j)) ->
  (forall b b', b ∈ free -> b' ∈ free -> b.1 + b.2 <> b'.1) ->
  Forall (fun b => b.2 < n) free -> no_room g n (sg_chunks s) marks.
Proof.
  intros W Hcov Hapart Hsmall c a k Hc Ha Hk Hg <-. pose proof (sw_chunks _ _ _ _ W) as Wc.
  destruct (decide (Exists (fun j => Exists (fun b => covers b (granule c j)) marks) (seqZ a k))) as [He|He].
  { apply list.Exists_exists in He as (j & Hj%elem_of_seqZ & (b & Hb & Hx)%list.Exists_exists). by exists j, b. }
  exfalso.
  assert (forall b, b ∈ free -> placed g (sg_chunks s) b) as Hp by (intros b Hb; apply (sw_placed _ _ _ _ W), elem_of_app; by left).
  destruct (run_in_block g (sg_chunks s) free Wc Hp ltac:(eapply separate_app_l, sw_separate, W) Hapart c a (Z.to_nat k))
    as (b & Hb & Hx); [done|lia|lia|lia| |].
  - intros j Hj. apply Hcov; [done|lia|]. intros (b & Hb & Hx). apply He, list.Exists_exists. exists j.
    split; [apply elem_of_seqZ; lia|]. apply list.Exists_exists. by exists b.
  - rewrite list.Forall_forall in Hsmall. specialize (Hsmall b Hb). pose proof (Hx a ltac:(lia)) as H1.
    pose proof (Hx (a + k - 1) ltac:(lia)) as H2. destruct (Hp b Hb) as (d & i & m & Hdc & Hi & Hm & Hig & ->).
    apply (granule_covered g (sg_chunks s) Wc) in H1 as [-> H1]; [|done..|lia].
    apply (granule_covered g (sg_chunks s) Wc) in H2 as [_ H2]; [|done..|lia]. cbn in Hsmall. lia.
Qed.

(** What [allocate] promises, [n] being the size rounded. *)
Definition allocated g s s' (n p : Z) (live : list (Z * Z)) : Prop :=
  p <> 0 /\ exists free', sg_wf g s' free' ((p, n) :: live).

Lemma alloc_any_ok g s free live m : sg_wf g s free live -> 0 < m ->
  exists r, SimpleGC_allocFromFreeList (16 * m) s = Ret r /\ sg_chunks r.2 = sg_chunks s /\ sg_temps r.2 = sg_temps s /\
    ((r = (0, s) /\ Forall (fun b => b.2 < 16 * m) free) \/
     (Exists (fun b => 16 * m <= b.2) free /\ allocated g s r.2 (16 * m) r.1 live)).
Proof.
  intros W Hm. destruct (allocFromFreeList_ok s (16 * m) free (sw_nodup _ _ _ _ W) (sw_list _ _ _ _ W))
    as (r & -> & [[-> Hs]|(l1 & a & n & l2 & E & _ & Hn & Ht)]); [exists (0, s); split_and!; [done..|by left]|].
  destruct (taken_ok g s free live m r l1 a n l2 W E Hm Hn Ht) as (_ & Hr & W').
  pose proof Ht as (_ & (E1 & _ & _ & _ & E5 & _) & _). exists r. split_and!; [done|done|done|]. right. split.
  - rewrite E. apply list.Exists_app. right. by constructor.
  - split; [done|]. by eexists.
Qed.

Lemma round_up g size : 0 < g < 2 ^ 31 -> 0 < size <= 16 * g -> exists m, sg_round size = 16 * m /\ 0 < m <= g /\ size <= 16 * m.
Proof.
  intros Hg Hs. exists (u64 (size + SIZEOF_BLOCK - 1) / SIZEOF_BLOCK). split; [apply sg_round_eq|].
  unfold SIZEOF_BLOCK. rewrite wrap_small by (split; lia). Z.to_euclidean_division_equations. lia.
Qed.

(** How an allocation of [n] bytes ends: without collection; after one, with or without a
    new chunk; or with the exception of [new]. *)
Inductive alloc_end g s (free live : list (Z * Z)) (n : Z) : result Z -> SimpleGC T -> Prop :=
  | end_direct p s' : Exists (fun b => n <= b.2) free -> sg_chunks s' = sg_chunks s ->
      allocated g s s' n p live -> alloc_end g s free live n (Val p) s'
  | end_collected p s' : Forall (fun b => b.2 < n) free -> sg_chunks s' = sg_chunks s ->
      allocated g s s' n p (kept (all_marks s) live) -> alloc_end g s free live n (Val p) s'
  | end_chunk p s' c : Forall (fun b => b.2 < n) free -> no_room g n (sg_chunks s) (all_marks s) ->
      sg_chunks s' = c :: sg_chunks s ->
      allocated g s s' n p (kept (all_marks s) live) -> alloc_end g s free live n (Val p) s'
  | end_throw s' free' : Forall (fun b => b.2 < n) free -> no_room g n (sg_chunks s) (all_marks s) ->
      sg_chunks s' = sg_chunks s -> sg_wf g s' free' (kept (all_marks s) live) ->
      alloc_end g s free live n Throw s'.

Lemma SimpleGC_allocate_ok g s free live size : sg_wf g s free live -> zlen (sg_chunks s) < ITER_LIMIT ->
  0 < size < 16 * g -> (forall b, b ∈ all_marks s -> b ∈ live) ->
  exists r s', SimpleGC_allocate Temp_collect collect size s = Ret (r, s') /\ sg_temps s' = sg_temps s /\
    alloc_end g s free live (sg_round size) r s'.
Proof.
  intros W Hn Hsize Hl. pose proof (ck_g _ _ (sw_chunks _ _ _ _ W)) as Hg.
  destruct (round_up g size Hg ltac:(lia)) as (m & Em & Hm & _). unfold SimpleGC_allocate.
  erewrite io_bind_Val by reflexivity. rewrite (sw_size _ _ _ _ W), (proj2 (Z.ltb_lt _ _)) by lia.
  erewrite io_bind_Val by reflexivity. rewrite Em.
  destruct (alloc_any_ok g s free live m W ltac:(lia)) as (r & Er & Ec & Et & Hr). rewrite Er. rewrite io_lift_Ret.
  destruct Hr as [[-> Hsmall]|(Hex & Hal)].
  2:{ pose proof Hal as [Hp _]. rewrite (proj2 (Z.eqb_neq _ 0)) by done. mred. erewrite io_bind_Val by reflexivity.
      exists (Val r.1), r.2. split; [done|]. split; [done|]. by apply end_direct. }
  cbn [fst snd]. rewrite Z.eqb_refl. mred.
  destruct (SimpleGC_doGC_ok g s free live W Hn Hl) as (s1 & free1 & Egc & W1 & Ec1 & Et1 & Hcov & Hap). rewrite Egc, io_lift_Ret.
  destruct (alloc_any_ok g s1 free1 (kept (all_marks s) live) m W1 ltac:(lia)) as (r1 & Er1 & Ec2 & Et2 & Hr1).
  rewrite Er1, io_lift_Ret. erewrite io_bind_Val by reflexivity.
  destruct Hr1 as [[-> Hsmall1]|(Hex & Hal)].
  2:{ pose proof Hal as [Hp _]. rewrite (proj2 (Z.eqb_neq _ 0)) by done. mred.
      exists (Val r1.1), r1.2. split; [done|]. split; [by rewrite Et2|]. apply end_collected; [done|by rewrite Ec2|done]. }
  cbn [fst snd]. rewrite Z.eqb_refl. mred.
  rewrite <- Ec1 in Hcov. pose proof (free_room g s1 free1 _ (all_marks s) (16 * m) W1 Hcov Hap Hsmall1) as Hroom. rewrite Ec1 in Hroom.
  destruct (SimpleGC_newChunk_ok g s1 free1 _ W1) as ([u|] & s2 & E2 & H2).
  - destruct H2 as (c & Ec3 & Et3 & W2). rewrite (io_bind_Val _ _ _ _ _ E2). erewrite io_bind_Val by reflexivity.
    destruct (alloc_any_ok g s2 _ _ m W2 ltac:(lia)) as (r2 & Er2 & Ec4 & Et4 & Hr2). rewrite Er2, io_lift_Ret.
    erewrite io_bind_Val by reflexivity. destruct Hr2 as [[_ Hf]|[_ Hal]].
    { apply Forall_cons in Hf as [Hf _]. cbn in Hf. lia. }
    exists (Val r2.1), r2.2. split; [done|]. split; [by rewrite Et4, Et3|].
    apply (end_chunk _ _ _ _ _ _ _ c); [done|done|by rewrite Ec4, Ec3, Ec1|done].
  - subst s2. rewrite (io_bind_Throw _ _ _ _ E2). exists Throw, s1. split; [done|]. split; [done|].
    by eapply end_throw.
Qed.
End Client.
End Allocate.

(** A new collector is well formed. *)
Lemma SimpleGC_make_wf {T} g : 0 < g < 2 ^ 31 -> sg_wf g (SimpleGC_make (T := T) (16 * g)) [] [].
Proof.
  intros Hg. split; cbn.
  - destruct (round_up g (16 * g) Hg ltac:(lia)) as (m & E & Hm & ?). rewrite E. lia.
  - split; [done|by intros c ?%elem_of_nil|constructor].
  - done.
  - done.
  - done.
  - done.
  - by intros b ?%elem_of_nil.
  - constructor.
Qed.

(** [C10] An allocation of [SimpleGC] of a positive size smaller than the chunks, with
    fewer than 5702886 chunks (the limit of the iterator of their tree), runs, or throws the exception of [new], for any
    temporaries and any client that mark blocks in use only. The block given has at
    least the size asked and shares no byte with the blocks in use, all in the chunks:
    it is cut from a free block if one is big enough. Otherwise the blocks in use are
    those marked from then on: the block comes from the memory freed by the collection,
    or from a new chunk, which is asked only when no run of unmarked granules has room
    for it. *)
Theorem SimpleGC_allocate_safe `{HeapLaws} {T} `{EqDecision T} (Temp_collect : T -> collector (Z * Z)) collect
    g (s : SimpleGC T) free live size :
  sg_wf g s free live -> zlen (sg_chunks s) < ITER_LIMIT -> 0 < size < 16 * g ->
  (forall b, b ∈ all_marks Temp_collect collect s -> b ∈ live) ->
  let n := sg_round size in
  let kept_live := kept (all_marks Temp_collect collect s) live in
  size <= n /\
  exists r s', SimpleGC_allocate Temp_collect collect size s = Ret (r, s') /\
    match r with
    | Val p => p <> 0 /\ exists free',
        (Exists (fun b => n <= b.2) free /\ sg_wf g s' free' ((p, n) :: live)) \/
        (Forall (fun b => b.2 < n) free /\ sg_wf g s' free' ((p, n) :: kept_live))
    | Throw => exists free', sg_wf g s' free' kept_live
    end /\
    (sg_chunks s' = sg_chunks s \/
     no_room g n (sg_chunks s) (all_marks Temp_collect collect s) /\ exists c, sg_chunks s' = c :: sg_chunks s).
Proof.
  intros W Hn Hs Hl n kept_live. pose proof (ck_g _ _ (sw_chunks _ _ _ _ W)) as Hg.
  destruct (round_up g size Hg ltac:(lia)) as (m & Em & _ & Hm). split; [unfold n; lia|].
  destruct (SimpleGC_allocate_ok Temp_collect collect g s free live size W Hn Hs Hl) as (r & s' & E & _ & Hr).
  exists r, s'. split; [exact E|]. destruct Hr as [p s' ? ? (? & f & ?)|p s' ? ? (? & f & ?)|p s' c ? ? ? (? & f & ?)|s' f ? ? ? ?].
  - split; [|by left]. split; [done|]. exists f. by left.
  - split; [|by left]. split; [done|]. exists f. by right.
  - split; [|right; split; [done|by exists c]]. split; [done|]. exists f. by right.
  - split; [by exists f|by left].
Qed.

(** A chunk of four granules with a free one and two blocks in use; the client keeps
    the block of two granules. *)
Definition sg_ex : SimpleGC Z := mkSG [16] 64 24 {[24 := (0, 16)]} ∅ None [56] [(16, 72)].
Definition sg_ex_temp (p : Z) : collector (Z * Z) := Mark (p, 20) (fun _ => Done).
Lemma sg_ex_wf : sg_wf 4 sg_ex [(24, 16)] [(40, 16); (56, 32)].
Proof.
  split; cbn.
  - done.
  - split; [done| |by repeat constructor]. by intros c ->%list_elem_of_singleton.
  - done.
  - done.
  - done.
  - split_and!; [done|done|]. by exists 0.
  - intros b Hb. repeat apply elem_of_cons in Hb as [->|Hb]; [exists 16, 0, 1|exists 16, 1, 1|exists 16, 2, 2|by apply elem_of_nil in Hb];
      (split_and!; [by left|done|done|done|done]).
  - repeat (apply FOP_cons; [repeat (apply Forall_cons; split; [unfold disj; cbn; lia|]); constructor|]). constructor.
Qed.

Lemma SimpleGC_allocate_safe_witness :
  sg_wf 4 sg_ex [(24, 16)] [(40, 16); (56, 32)] /\
  exists r s', SimpleGC_allocate (H := bump_heap) sg_ex_temp Done 30 sg_ex = Ret (r, s') /\ r = Val 24 /\ sg_free s' = 0 /\
    sg_chunks s' = [16].
Proof.
  split; [exact sg_ex_wf|].
  destruct (SimpleGC_allocate_safe (H := bump_heap) sg_ex_temp Done 4 sg_ex [(24, 16)] [(40, 16); (56, 32)] 30) as (_ & r & s' & E & _).
  - exact sg_ex_wf.
  - done.
  - done.
  - intros b Hb. vm_compute in Hb. apply list_elem_of_singleton in Hb as ->. by right; left.
  - exists r, s'. split; [exact E|]. vm_compute in E. injection E as <- <-. done.
Defined.

(** *** What goes wrong *)

(** [clear()] gives the chunks back and keeps them in the list: the next collection
    makes free blocks in them, which are allocated. *)
Example SimpleGC_clear_dangles :
  let s := SimpleGC_clear sg_ex in
  sg_own s = [] /\
  fst <$> SimpleGC_allocate (H := bump_heap) (fun _ => Done) Done 30 s = Ret (Val 56).
Proof. split; [reflexivity|vm_compute; reflexivity]. Qed.

(** A block of size 0 is the end of the first free block, where another one may be. *)
Example SimpleGC_allocate_0 :
  fst <$> SimpleGC_allocate (H := bump_heap) sg_ex_temp Done 0 sg_ex = Ret (Val 40).
Proof. vm_compute. reflexivity. Qed.

(** A block as big as a chunk is refused although it fits in it. *)
Example SimpleGC_allocate_chunk :
  SimpleGC_allocate (H := bump_heap) sg_ex_temp Done 64 sg_ex = Crash AssertFailed.
Proof. vm_compute. reflexivity. Qed.
