(* ===== verification/GroupedGC.v ===== *)
(** * The collector by classes of sizes

    [GroupedGC] (alloc_GroupedGC.cpp, alloc/GroupedGC.h): each chunk is cut in blocks of
    one size, a number of granules of 16 bytes; a block comes from the free list of its
    size, else from the end of the chunk of this size that is used for the first time.
    A collection is delayed until [doGC()]; it marks blocks and frees the others, but
    those of the chunks used for the first time. Addresses, [operator new] and clients
    are those of [Alloc], the chunk of an address is found by [STree]. The counters of
    the statistics, which no result depends on, are left out. *)

From stdpp Require Import gmap.
From S2P Require Import Prelude Ints BitVec Compare Avl STree Alloc Collectors.
#[local] Open Scope Z_scope.

(** ** Data *)

(** The header of a chunk; its buffer follows, 40 bytes after its address. *)
(* src/include/elm/alloc/GroupedGC.h:58-65 GroupedGC::chunk_t *)
Record gchunk := mkGChunk { ch_bits : option BitVector; ch_size : Z; ch_index : Z; ch_init : Z; ch_blockCount : Z }.
Definition SIZEOF_CHUNK : Z := 40.
Definition gg_buffer (c : Z) : Z := c + SIZEOF_CHUNK.

(** The tables by size are [gg_free_list], [gg_chunk_list] and [gg_chunk_init]. The
    headers of the chunks are in [gg_mem], the links of the free blocks in [gg_next];
    [gg_own] records the blocks got from the heap. *)
(* src/include/elm/alloc/GroupedGC.h:67-110 GroupedGC *)
Record GroupedGC := mkGG {
  gg_chunks : list Z; gg_mem : gmap Z gchunk; gg_csize : Z; gg_free_list : list Z; gg_next : links;
  gg_needGC : bool; gg_st : option (stree Z Z); gg_chunk_list : list Z; gg_chunk_init : list bool;
  gg_own : list (Z * Z) }.

Implicit Types s : GroupedGC.

Definition gg_set_mem m s : GroupedGC :=
  mkGG (gg_chunks s) m (gg_csize s) (gg_free_list s) (gg_next s) (gg_needGC s) (gg_st s) (gg_chunk_list s) (gg_chunk_init s) (gg_own s).
Definition gg_set_free fl nx s : GroupedGC :=
  mkGG (gg_chunks s) (gg_mem s) (gg_csize s) fl nx (gg_needGC s) (gg_st s) (gg_chunk_list s) (gg_chunk_init s) (gg_own s).
Definition gg_set_need b s : GroupedGC :=
  mkGG (gg_chunks s) (gg_mem s) (gg_csize s) (gg_free_list s) (gg_next s) b (gg_st s) (gg_chunk_list s) (gg_chunk_init s) (gg_own s).
Definition gg_set_st t s : GroupedGC :=
  mkGG (gg_chunks s) (gg_mem s) (gg_csize s) (gg_free_list s) (gg_next s) (gg_needGC s) t (gg_chunk_list s) (gg_chunk_init s) (gg_own s).
Definition gg_set_list l s : GroupedGC :=
  mkGG (gg_chunks s) (gg_mem s) (gg_csize s) (gg_free_list s) (gg_next s) (gg_needGC s) (gg_st s) l (gg_chunk_init s) (gg_own s).
Definition gg_set_init l s : GroupedGC :=
  mkGG (gg_chunks s) (gg_mem s) (gg_csize s) (gg_free_list s) (gg_next s) (gg_needGC s) (gg_st s) (gg_chunk_list s) l (gg_own s).

Definition set_ch_bits b (h : gchunk) : gchunk := mkGChunk b (ch_size h) (ch_index h) (ch_init h) (ch_blockCount h).
Definition set_ch_size n (h : gchunk) : gchunk := mkGChunk (ch_bits h) n (ch_index h) (ch_init h) (ch_blockCount h).
Definition set_ch_init i (h : gchunk) : gchunk := mkGChunk (ch_bits h) (ch_size h) (ch_index h) i (ch_blockCount h).

(** [*c] *)
Definition chunk_at (m : gmap Z gchunk) (c : Z) : outcome gchunk :=
  match m !! c with Some h => Ret h | None => Crash OutOfBounds end.

(** ** Operations *)

(* src/include/elm/alloc/GroupedGC.h:76-76 GroupedGC::round *)
Definition gg_round (size : Z) : Z := Z.land (u64 (size + SIZEOF_BLOCK - 1)) (u64 (Z.lnot (SIZEOF_BLOCK - 1))).

(* src/src/alloc_GroupedGC.cpp:90-90 GroupedGC::maxAllocatableIndex *)
Definition maxAllocatableIndex : Z := 2048 * 4.

(** [while((temp & 1) == 0) { shiftToIndex++; temp = temp >> 1; }] *)
(* src/src/alloc_GroupedGC.cpp:77-81 GroupedGC::GroupedGC *)
Definition gg_shift_of (size : Z) : outcome Z :=
  iter 65 (fun st : Z * Z => let '(shift, temp) := st in
    if Z.land temp 1 =? 0 then Ret (inl (shift + 1, Z.shiftr temp 1)) else Ret (inr shift)) (0, size).
(** The [shiftToIndex] of a collector: [sizeof(block_t)] is 16. *)
Definition shiftToIndex : Z := 4.
Lemma shiftToIndex_ok : gg_shift_of SIZEOF_BLOCK = Ret shiftToIndex.
Proof. reflexivity. Qed.

(* src/src/alloc_GroupedGC.cpp:61-107 GroupedGC::GroupedGC *)
Definition GroupedGC_make (size : Z) : GroupedGC :=
  let n := Z.to_nat maxAllocatableIndex in
  mkGG [] ∅ (gg_round size) (replicate n 0) ∅ false None (replicate n 0) (replicate n true) [].

(* src/include/elm/alloc/GroupedGC.h:46-46 GroupedGC::getNeedGC *)
Definition GroupedGC_getNeedGC s : bool := gg_needGC s.

(** The size of the buffer is cut to a multiple of that of the blocks: blocks given from
    its end and blocks found by a collection from its start are the same. *)
(* src/src/alloc_GroupedGC.cpp:139-160 GroupedGC::newChunk *)
Definition GroupedGC_newChunk `{Heap} (index : Z) : IO GroupedGC unit :=
  s ← get_st;
  match new_block (gg_own s) (u64 (SIZEOF_CHUNK + gg_csize s)) with
  | None => throw
  | Some c =>
      cur ← lift (rd (gg_chunk_list s) index);
      lift (assertP (cur =? 0)) ;;
      cl ← lift (wr (gg_chunk_list s) index c);
      let blk := u64 (SIZEOF_BLOCK * index) in
      if blk =? 0 then lift (Crash Undefined)
      else
        let offset := s32 (gg_csize s mod blk) in
        let size := s64 (gg_csize s) in
        let size := if negb (offset =? 0) then s64 (size - offset) else size in
        let h := mkGChunk None size index 1 (s64 (gg_csize s / blk)) in
        put_st (mkGG (c :: gg_chunks s) (<[c := h]> (gg_mem s)) (gg_csize s) (gg_free_list s) (gg_next s) (gg_needGC s)
          (gg_st s) cl (gg_chunk_init s) ((c, u64 (SIZEOF_CHUNK + gg_csize s)) :: gg_own s))
  end.

(** The chunks are given back, and stay in the list. *)
(* src/src/alloc_GroupedGC.cpp:171-175 GroupedGC::clear *)
Definition GroupedGC_clear s : outcome GroupedGC :=
  fl ← wr (gg_free_list s) 0 0;
  Ret (mkGG (gg_chunks s) ∅ (gg_csize s) fl (gg_next s) (gg_needGC s) (gg_st s) (gg_chunk_list s) (gg_chunk_init s) []).

(** The link of a block that is given is in the memory of its user from then on. *)
(* src/src/alloc_GroupedGC.cpp:206-270 GroupedGC::allocFromFreeList *)
Definition GroupedGC_allocFromFreeList (size index : Z) s : outcome (Z * GroupedGC) :=
  assertP (index <=? maxAllocatableIndex) ;;
  p ← rd (gg_free_list s) index;
  if negb (p =? 0) then
    next ← read_link (gg_next s) p;
    fl ← wr (gg_free_list s) index next;
    Ret (p, gg_set_free fl (delete p (gg_next s)) s)
  else
    c ← rd (gg_chunk_list s) index;
    if negb (c =? 0) then
      h ← chunk_at (gg_mem s) c;
      assertP (negb (ch_init h =? 0)) ;;
      let newSize := s64 (u64 (ch_size h - size)) in
      let res := u64 (gg_buffer c + newSize) in
      if u64 newSize <? size then
        cl ← wr (gg_chunk_list s) index 0;
        assertP (newSize =? 0) ;;
        Ret (res, gg_set_list cl (gg_set_mem (<[c := set_ch_init 0 (set_ch_size newSize h)]> (gg_mem s)) s))
      else Ret (res, gg_set_mem (<[c := set_ch_size newSize h]> (gg_mem s)) s)
    else Ret (0, s).

(** Without [NON_DELAYED_GC], which nothing defines. *)
(* src/src/alloc_GroupedGC.cpp:298-311 GroupedGC::allocate *)
Definition gg_refill `{Heap} (index : Z) : IO GroupedGC unit :=
  s ← get_st;
  first ← lift (rd (gg_chunk_init s) index);
  if first : bool then
    ci ← lift (wr (gg_chunk_init s) index false);
    put_st (gg_set_init ci s) ;; GroupedGC_newChunk index
  else
    GroupedGC_newChunk index ;; s ← get_st; put_st (gg_set_need true s).
(* src/src/alloc_GroupedGC.cpp:276-342 GroupedGC::allocate *)
Definition GroupedGC_allocate `{Heap} (n : Z) : IO GroupedGC Z :=
  s ← get_st;
  lift (assertP (n <? gg_csize s)) ;;
  let size := gg_round n in
  let index := u32 (Z.shiftr size shiftToIndex) in
  r ← lift (GroupedGC_allocFromFreeList size index s);
  put_st r.2 ;;
  if negb (r.1 =? 0) then mret r.1
  else
    gg_refill index ;;
    s ← get_st;
    r ← lift (GroupedGC_allocFromFreeList size index s);
    put_st r.2 ;;
    if negb (r.1 =? 0) then mret r.1
    else
      GroupedGC_newChunk index ;;
      s ← get_st;
      r ← lift (GroupedGC_allocFromFreeList size index s);
      lift (assertP (negb (r.1 =? 0))) ;;
      put_st r.2 ;; mret r.1.

(** ** Collection *)

(** The size of the block is not used. *)
(* src/src/alloc_GroupedGC.cpp:352-379 GroupedGC::mark *)
Definition GroupedGC_mark (blk : Z * Z) s : outcome (bool * GroupedGC) :=
  let '(data, size) := blk in
  match gg_st s with
  | None => Crash Undefined
  | Some st =>
      gcc ← stree_get st data;
      assertP (negb (gcc =? 0)) ;;
      h ← chunk_at (gg_mem s) gcc;
      let d := u64 (SIZEOF_BLOCK * ch_index h) in
      if d =? 0 then Crash Undefined
      else
        let p := s32 (u64 (data - gg_buffer gcc) / d) in
        match ch_bits h with
        | None => Crash Undefined
        | Some bits =>
            b ← BitVector_bit bits p;
            if negb b then
              bits ← BitVector_set bits p;
              Ret (false, gg_set_mem (<[gcc := set_ch_bits (Some bits) h]> (gg_mem s)) s)
            else Ret (true, s)
        end
  end.

(* src/src/alloc_GroupedGC.cpp:388-391 GroupedGC::beginGC *)
Fixpoint gg_begin_chunks (csize : Z) (chunks : list Z) (b : SegmentBuilder Z Z) (m : gmap Z gchunk)
    : outcome (SegmentBuilder Z Z * gmap Z gchunk) :=
  match chunks with
  | [] => Ret (b, m)
  | c :: chunks =>
      b ← SegmentBuilder_add b (gg_buffer c) (gg_buffer c + csize) c;
      h ← chunk_at m c;
      let d := u64 (SIZEOF_BLOCK * ch_index h) in
      if d =? 0 then Crash Undefined
      else
        v ← BitVector_make (s32 (csize / d)) false;
        gg_begin_chunks csize chunks b (<[c := set_ch_bits (Some v) h]> m)
  end.
(* src/src/alloc_GroupedGC.cpp:385-397 GroupedGC::beginGC *)
Definition GroupedGC_beginGC s : outcome GroupedGC :=
  '(b, m) ← gg_begin_chunks (gg_csize s) (gg_chunks s) (SegmentBuilder_make 0) (gg_mem s);
  st ← SegmentBuilder_build b stree_make;
  Ret (gg_set_st (Some st) (gg_set_mem m s)).

(** A turn of the loop on the blocks of a chunk: the state is [currentSize], the free
    lists and their links. *)
(* src/src/alloc_GroupedGC.cpp:439-472 GroupedGC::endGC *)
Definition gg_sweep_step (c : Z) (bits : BitVector) (blockSize index : Z) (i : Z) (st : Z * (list Z * links))
    : outcome (Z * (list Z * links)) :=
  let '(currentSize, (fl, nx)) := st in
  b ← BitVector_bit bits i;
  st ← (if negb b then
          let blk := gg_buffer c + currentSize in
          next ← rd fl index;
          fl ← wr fl index blk;
          Ret (fl, <[blk := next]> nx)
        else Ret (fl, nx));
  Ret (u64 (currentSize + blockSize), st).
(* src/src/alloc_GroupedGC.cpp:427-473 GroupedGC::endGC *)
Fixpoint gg_sweep (m : gmap Z gchunk) (chunks : list Z) (st : list Z * links) : outcome (list Z * links) :=
  match chunks with
  | [] => Ret st
  | c :: chunks =>
      h ← chunk_at m c;
      if 0 <? ch_init h then gg_sweep m chunks st
      else
        match ch_bits h with
        | None => Crash Undefined
        | Some bits =>
            let blockSize := s32 (u64 (SIZEOF_BLOCK * ch_index h)) in
            let index := s32 (ch_index h) in
            '(_, st) ← loop 0 (u32 (ch_blockCount h)) (gg_sweep_step c bits blockSize index) (0, st);
            gg_sweep m chunks st
        end
  end.
(* src/src/alloc_GroupedGC.cpp:476-479 GroupedGC::endGC *)
Fixpoint gg_drop_bits (chunks : list Z) (m : gmap Z gchunk) : outcome (gmap Z gchunk) :=
  match chunks with
  | [] => Ret m
  | c :: chunks => h ← chunk_at m c; gg_drop_bits chunks (<[c := set_ch_bits None h]> m)
  end.
(* src/src/alloc_GroupedGC.cpp:413-485 GroupedGC::endGC *)
Definition GroupedGC_endGC s : outcome GroupedGC :=
  fl ← loop 0 maxAllocatableIndex (fun i fl => wr fl i 0) (gg_free_list s);
  '(fl, nx) ← gg_sweep (gg_mem s) (gg_chunks s) (fl, gg_next s);
  m ← gg_drop_bits (gg_chunks s) (gg_mem s);
  Ret (gg_set_st None (gg_set_free fl nx (gg_set_mem m s))).

(** [collect] is what the application marks. *)
(* src/src/alloc_GroupedGC.cpp:180-198 GroupedGC::doGC *)
Definition GroupedGC_doGC (collect : collector (Z * Z)) s : outcome GroupedGC :=
  if negb (gg_needGC s) then Ret s
  else
    s ← GroupedGC_beginGC (gg_set_need false s);
    s ← run_collect GroupedGC_mark collect s;
    GroupedGC_endGC s.

(** ** Chunks and blocks *)

(** The block [j] of a chunk of blocks of [i] granules. *)
Definition gslot (c i j : Z) : Z := gg_buffer c + 16 * i * j.

(** Chunks of [g] granules that share no byte. *)
Record gg_chunks_ok (g : Z) (chunks : list Z) : Prop := {
  gc_g : 0 < g < maxAllocatableIndex;
  gc_in c : c ∈ chunks -> 0 < c /\ c + (SIZEOF_CHUNK + 16 * g) <= 2 ^ 64;
  gc_sep : separate ((fun c => (c, SIZEOF_CHUNK + 16 * g)) <$> chunks) }.

(** A chunk in its first use is that of its class in the table, and has blocks left;
    the others are full. *)
Record header_ok (g : Z) (cl : list Z) (c : Z) (h : gchunk) : Prop := {
  hd_index : 0 < ch_index h <= g;
  hd_count : ch_blockCount h = g / ch_index h;
  hd_state : (ch_init h = 1 /\ cl !! Z.to_nat (ch_index h) = Some c /\
      exists k, 0 < k <= g / ch_index h /\ ch_size h = 16 * ch_index h * k) \/
    (ch_init h = 0 /\ ch_size h = 0) }.

Definition headers_ok (g : Z) (cl chunks : list Z) (m : gmap Z gchunk) : Prop :=
  forall c, c ∈ chunks -> exists h, m !! c = Some h /\ header_ok g cl c h.

(** The block [j] of [c], given once at least. *)
Definition given (g : Z) (chunks : list Z) (m : gmap Z gchunk) (b : Z * Z) : Prop :=
  exists c h j, c ∈ chunks /\ m !! c = Some h /\ 0 <= j < g / ch_index h /\ ch_size h <= 16 * ch_index h * j /\
    b = (gslot c (ch_index h) j, 16 * ch_index h).

Section Slots.
Context (g : Z) (chunks : list Z) (W : gg_chunks_ok g chunks).

Lemma gg_chunks_disj c d : c ∈ chunks -> d ∈ chunks -> c = d \/ disj (c, SIZEOF_CHUNK + 16 * g) (d, SIZEOF_CHUNK + 16 * g).
Proof.
  intros Hc Hd.
  destruct (separate_in _ (c, SIZEOF_CHUNK + 16 * g) (d, SIZEOF_CHUNK + 16 * g) (gc_sep _ _ W)) as [[= E]|];
    [by apply (list_elem_of_fmap_2 (fun c => (c, SIZEOF_CHUNK + 16 * g)))..|by left|by right].
Qed.

(** A block is in the buffer of its chunk. *)
Lemma gslot_in c i j : 0 < i <= g -> 0 <= j < g / i ->
  gg_buffer c <= gslot c i j /\ gslot c i j + 16 * i <= gg_buffer c + 16 * g.
Proof. intros Hi Hj. unfold gslot. pose proof (Z.mul_div_le g i ltac:(lia)). nia. Qed.

(** Two blocks are equal or share no byte. *)
Lemma gslot_apart c i j d i' j' : c ∈ chunks -> d ∈ chunks -> (c = d -> i = i') ->
  0 < i <= g -> 0 < i' <= g -> 0 <= j < g / i -> 0 <= j' < g / i' ->
  (c = d /\ i = i' /\ j = j') \/ disj (gslot c i j, 16 * i) (gslot d i' j', 16 * i').
Proof.
  intros Hc Hd Hi Hig Hig' Hj Hj'. pose proof (gslot_in c i j Hig Hj) as [H1 H2]. pose proof (gslot_in d i' j' Hig' Hj') as [H3 H4].
  unfold disj. cbn [fst snd]. destruct (gg_chunks_disj c d Hc Hd) as [<-|Hcd].
  - rewrite <- Hi in * by done. destruct (Z.lt_trichotomy j j') as [Hlt|[->|Hlt]]; [right; left|by left|right; right]; unfold gslot; nia.
  - right. unfold disj, gg_buffer in *. cbn [fst snd] in *. unfold SIZEOF_CHUNK in *. lia.
Qed.
Lemma gslot_inj c i j d i' j' : c ∈ chunks -> d ∈ chunks -> (c = d -> i = i') ->
  0 < i <= g -> 0 < i' <= g -> 0 <= j < g / i -> 0 <= j' < g / i' -> gslot c i j = gslot d i' j' -> c = d /\ i = i' /\ j = j'.
Proof.
  intros Hc Hd Hi Hig Hig' Hj Hj' E. destruct (gslot_apart c i j d i' j') as [?|[H|H]]; [done..|cbn in H; lia|cbn in H; lia].
Qed.
Lemma gslot_pos c i j : c ∈ chunks -> 0 < i <= g -> 0 <= j < g / i -> 0 < gslot c i j /\ gslot c i j + 16 * i <= 2 ^ 64.
Proof.
  intros Hc Hi Hj. pose proof (gslot_in c i j Hi Hj). pose proof (gc_in _ _ W c Hc). unfold gg_buffer, SIZEOF_CHUNK in *. lia.
Qed.

Context (cl : list Z) (m : gmap Z gchunk) (Wm : headers_ok g cl chunks m).

Lemma header_of c h : c ∈ chunks -> m !! c = Some h -> header_ok g cl c h.
Proof. intros Hc Hh. destruct (Wm c Hc) as (h' & E & Hok). congruence. Qed.

Lemma header_index c h : c ∈ chunks -> m !! c = Some h -> 0 < ch_index h <= g.
Proof. intros Hc Hh. apply (hd_index g cl c), header_of; done. Qed.

Lemma given_apart b b' : given g chunks m b -> given g chunks m b' -> b = b' \/ disj b b'.
Proof.
  intros (c & h & j & Hc & Hh & Hj & _ & ->) (d & k & j' & Hd & Hk & Hj' & _ & ->).
  destruct (gslot_apart c (ch_index h) j d (ch_index k) j') as [(-> & -> & ->)|]; [done|done| | | |done|done|by left|by right].
  - intros ->. congruence.
  - by apply (header_index c).
  - by apply (header_index d).
Qed.
Lemma given_pos b : given g chunks m b -> 0 < b.1 /\ 0 < b.2 /\ b.1 + b.2 <= 2 ^ 64.
Proof.
  intros (c & h & j & Hc & Hh & Hj & _ & ->). pose proof (header_index c h Hc Hh) as Hi.
  pose proof (gslot_pos c (ch_index h) j Hc Hi Hj). cbn [fst snd]. lia.
Qed.
Lemma given_addr b b' : given g chunks m b -> given g chunks m b' -> b.1 = b'.1 -> b = b'.
Proof.
  intros Hb Hb' E. destruct (given_apart b b' Hb Hb') as [|Hd]; [done|]. pose proof (given_pos b Hb). pose proof (given_pos b' Hb').
  unfold disj in Hd. lia.
Qed.
End Slots.

Lemma chain_delete nx x p l : x ∉ l -> chain nx p l -> chain (delete x nx) p l.
Proof.
  revert p. induction l as [|y l IH]; intros p Hx; [done|]. apply not_elem_of_cons in Hx as [Hn Hx].
  intros (-> & H0 & r & Hr & Hl). split_and!; [done..|]. exists r. rewrite lookup_delete_ne by done. eauto.
Qed.

(** Headers change their room only downwards: what was given stays given. *)
Lemma given_mono g chunks chunks' m m' b :
  (forall c h, c ∈ chunks -> m !! c = Some h -> c ∈ chunks' /\
     exists h', m' !! c = Some h' /\ ch_index h' = ch_index h /\ ch_size h' <= ch_size h) ->
  given g chunks m b -> given g chunks' m' b.
Proof.
  intros Hm (c & h & j & Hc & Hh & Hj & Hs & ->). destruct (Hm c h Hc Hh) as (Hc' & h' & Hh' & Ei & Es).
  exists c, h', j. rewrite Ei. split_and!; [done|done|lia|lia|lia|done].
Qed.

(** ** The state of the collector *)

(** [free i] are the free blocks of [i] granules, in order, and [live] the blocks in
    use, with their sizes. *)
Record gg_wf (g : Z) s (free : Z -> list Z) (live : list (Z * Z)) : Prop := {
  gw_size : gg_csize s = 16 * g;
  gw_chunks : gg_chunks_ok g (gg_chunks s);
  gw_own : gg_own s = (fun c => (c, SIZEOF_CHUNK + 16 * g)) <$> gg_chunks s;
  gw_headers : headers_ok g (gg_chunk_list s) (gg_chunks s) (gg_mem s);
  gw_nobits c h : c ∈ gg_chunks s -> gg_mem s !! c = Some h -> ch_bits h = None;
  gw_list i c : gg_chunk_list s !! i = Some c -> c <> 0 ->
    c ∈ gg_chunks s /\ exists h, gg_mem s !! c = Some h /\ ch_index h = Z.of_nat i /\ ch_init h = 1;
  gw_lengths : zlen (gg_free_list s) = maxAllocatableIndex /\ zlen (gg_chunk_list s) = maxAllocatableIndex /\
    zlen (gg_chunk_init s) = maxAllocatableIndex;
  gw_st : gg_st s = None;
  gw_free i : 0 <= i < maxAllocatableIndex ->
    exists p, gg_free_list s !! Z.to_nat i = Some p /\ chain (gg_next s) p (free i);
  gw_given i a : a ∈ free i -> given g (gg_chunks s) (gg_mem s) (a, 16 * i);
  gw_live b : b ∈ live -> given g (gg_chunks s) (gg_mem s) b;
  gw_nodup : NoDup live /\ forall i, NoDup (free i);
  gw_apart i a : a ∈ free i -> (a, 16 * i) ∉ live;
  gw_need : gg_needGC s = true -> gg_chunks s <> [] }.

(** The blocks in use share no byte, with each other nor with the free ones. *)
Lemma gg_separate g s free live : gg_wf g s free live -> separate live.
Proof.
  intros W. apply separate_of; [apply W|]. intros x y Hx Hy.
  eapply (given_apart g (gg_chunks s) (gw_chunks _ _ _ _ W)); [apply W|by apply W..].
Qed.

(** *** Blocks from the free lists and from the chunks *)

(** What an allocation of [i] granules gives: the first free block of the class, or a
    block that was never given. *)
Definition gg_gives (g : Z) s s' (free : Z -> list Z) (live : list (Z * Z)) (i p : Z) : Prop :=
  p <> 0 /\ exists free', gg_wf g s' free' ((p, 16 * i) :: live) /\
    (free i = p :: free' i \/ free i = [] /\ ~ given g (gg_chunks s) (gg_mem s) (p, 16 * i)).

Section Class.
Context (g : Z) s (free : Z -> list Z) (live : list (Z * Z)) (W : gg_wf g s free live).

Lemma gg_given_addr b b' : given g (gg_chunks s) (gg_mem s) b -> given g (gg_chunks s) (gg_mem s) b' -> b.1 = b'.1 -> b = b'.
Proof. apply (given_addr g (gg_chunks s) (gw_chunks _ _ _ _ W) (gg_chunk_list s)), W. Qed.

Lemma pop_free_ok i p l next : free i = p :: l -> 0 <= i < maxAllocatableIndex ->
  gg_free_list s !! Z.to_nat i = Some p -> chain (gg_next s) next l -> p <> 0 ->
  gg_gives g s (gg_set_free (<[Z.to_nat i := next]> (gg_free_list s)) (delete p (gg_next s)) s) free live i p.
Proof.
  intros E Hi Hp Hl H0. split; [done|].
  pose proof W as [W1 W2 W3 W4 W5 W6 W7 W8 W9 W10 W11 [W12 W12'] W13 W14].
  exists (fun k => if decide (k = i) then l else free k). split; [|left; by rewrite decide_True].
  assert (forall k a, a ∈ (if decide (k = i) then l else free k) -> a ∈ free k) as Hin.
  { intros k a. case_decide as D; [subst k; rewrite E; by right|done]. }
  assert (p ∈ free i) as Hpi by (rewrite E; by left). pose proof (W12' i) as Hnd. rewrite E in Hnd. apply NoDup_cons in Hnd as [Hpl Hnd].
  assert (forall k, p ∉ (if decide (k = i) then l else free k)) as Hnot.
  { intros k. case_decide as D; [done|]. intros Hk.
    pose proof (gg_given_addr _ _ (W10 _ _ Hk) (W10 _ _ Hpi) eq_refl) as [= ?]. lia. }
  split; cbn; try done.
  - by rewrite length_insert.
  - intros k Hk. specialize (Hnot k). case_decide as D.
    + subst k. exists next. rewrite list_lookup_insert_eq by lia. split; [done|by apply chain_delete].
    + destruct (W9 k Hk) as (q & Hq & Hc). exists q. rewrite list_lookup_insert_ne by lia. split; [done|by apply chain_delete].
  - intros k a Ha. by apply W10, Hin.
  - intros b [->|Hb]%elem_of_cons; [by apply W10|by apply W11].
  - split; [constructor; [by apply W13|done]|]. intros k. case_decide; [done|apply W12'].
  - intros k a Ha [[= -> Ek]|Hb]%elem_of_cons; [|by eapply W13, Hb; apply Hin].
    assert (k = i) as -> by lia. by apply (Hnot i).
Qed.

(** The block before the ones of a chunk already given; the last one makes it full. *)
Lemma take_chunk_ok i c h h' k cl : free i = [] -> 0 < i <= g -> c ∈ gg_chunks s -> gg_mem s !! c = Some h ->
  ch_index h = i -> ch_init h = 1 -> 0 < k <= g / i -> ch_size h = 16 * i * k ->
  ch_bits h' = None -> ch_index h' = i -> ch_blockCount h' = ch_blockCount h -> ch_size h' = 16 * i * (k - 1) ->
  (1 < k /\ cl = gg_chunk_list s /\ ch_init h' = 1) \/ (k = 1 /\ cl = <[Z.to_nat i := 0]> (gg_chunk_list s) /\ ch_init h' = 0) ->
  gg_gives g s (gg_set_list cl (gg_set_mem (<[c := h']> (gg_mem s)) s)) free live i (gslot c i (k - 1)).
Proof.
  intros Efree Hi Hc Hh Ei Hinit Hk Hsize Eb' Ei' Ec' Es' Hcl. pose proof W as [W1 W2 W3 W4 W5 W6 W7 W8 W9 W10 W11 [W12 W12'] W13 W14].
  pose proof (header_of g (gg_chunks s) (gg_chunk_list s) (gg_mem s) W4 c h Hc Hh) as Hok.
  assert (gg_chunk_list s !! Z.to_nat i = Some c) as Hcur by (destruct (hd_state _ _ _ _ Hok) as [(_ & E & _)|[? _]]; [by rewrite <- Ei|congruence]).
  pose proof (gslot_pos g (gg_chunks s) W2 c i (k - 1) Hc Hi ltac:(lia)) as Hp. split; [lia|].
  set (m' := <[c := h']> (gg_mem s)).
  assert (forall b, given g (gg_chunks s) (gg_mem s) b -> given g (gg_chunks s) m' b) as Hmono.
  { intros b. apply given_mono. intros d e Hd He. split; [done|]. unfold m'. destruct (decide (d = c)) as [->|Hne].
    - rewrite Hh in He. injection He as <-. rewrite lookup_insert_eq. exists h'. split_and!; [done|congruence|nia].
    - rewrite lookup_insert_ne by done. by exists e. }
  assert (~ given g (gg_chunks s) (gg_mem s) (gslot c i (k - 1), 16 * i)) as Hnew.
  { intros (d & e & j & Hd & He & Hj & Hs & [= E Ex]). assert (ch_index e = i) as Eei by lia. rewrite Eei in *.
    destruct (gslot_inj g (gg_chunks s) W2 c i (k - 1) d i j) as (<- & _ & <-); [done..|lia|done|done|].
    assert (e = h) as -> by congruence. nia. }
  assert (given g (gg_chunks s) m' (gslot c i (k - 1), 16 * i)) as Hgiven.
  { exists c, h', (k - 1). unfold m'. rewrite lookup_insert_eq, Ei', Es'. split_and!; [done|done|lia|lia|lia|done]. }
  exists free. split; [|by right].
  assert (forall n d, cl !! n = Some d -> d <> 0 -> gg_chunk_list s !! n = Some d /\ (d = c -> ch_init h' = 1)) as Hold.
  { intros n d Hn Hd. destruct Hcl as [(_ & -> & E)|(_ & -> & E)]; [done|].
    apply list_lookup_insert_Some in Hn as [(_ & <- & _)|[Hn Hd']]; [done|]. split; [done|]. intros ->.
    destruct (W6 n c Hd' ltac:(done)) as (_ & e & He & En & _). rewrite Hh in He. injection He as <-. lia. }
  split; cbn; try done.
  - intros d Hd. destruct (W4 d Hd) as (e & He & He'). unfold m'. destruct (decide (d = c)) as [->|Hne].
    + rewrite lookup_insert_eq. exists h'. split; [done|]. rewrite Hh in He. injection He as <-.
      split; [lia|rewrite Ec', Ei', <- Ei; apply Hok|]. rewrite Ei', Es'.
      destruct Hcl as [(? & -> & ->)|(-> & -> & ->)]; [left|right; split; [done|lia]]. split_and!; [done|done|]. exists (k - 1). lia.
    + rewrite lookup_insert_ne by done. exists e. split; [done|]. destruct He' as [E1 E2 E3]. split; [done|done|].
      destruct E3 as [(? & E3 & ?)|?]; [left|by right]. split_and!; [done| |done]. destruct Hcl as [(_ & -> & _)|(_ & -> & _)]; [done|].
      rewrite list_lookup_insert_ne; [done|]. intros En. rewrite <- En in E3. congruence.
  - intros d e Hd. unfold m'. destruct (decide (d = c)) as [->|Hne]; [rewrite lookup_insert_eq; by intros [= <-]|].
    rewrite lookup_insert_ne by done. by apply W5.
  - intros n d Hn Hd. destruct (Hold n d Hn Hd) as [Hn' Hdc]. destruct (W6 n d Hn' Hd) as (Hd' & e & He & En & Hinit').
    split; [done|]. unfold m'. destruct (decide (d = c)) as [->|Hne].
    + rewrite lookup_insert_eq. exists h'. split_and!; [done| |by apply Hdc]. rewrite Hh in He. injection He as <-. lia.
    + rewrite lookup_insert_ne by done. by exists e.
  - destruct Hcl as [(_ & -> & _)|(_ & -> & _)]; rewrite ?length_insert; done.
  - intros k' a Ha. by apply Hmono, W10.
  - intros b [->|Hb]%elem_of_cons; [done|by apply Hmono, W11].
  - split; [|done]. constructor; [|done]. intros Hin. by apply Hnew, W11.
  - intros k' a Ha [[= -> Ek]|Hb]%elem_of_cons; [|by eapply W13]. assert (k' = i) as -> by lia. by apply Hnew, W10.
Qed.

Lemma gg_cells i : 0 < i <= g -> 0 <= i < maxAllocatableIndex /\ exists p c,
  gg_free_list s !! Z.to_nat i = Some p /\ chain (gg_next s) p (free i) /\ gg_chunk_list s !! Z.to_nat i = Some c.
Proof.
  intros Hi. pose proof (gc_g _ _ (gw_chunks _ _ _ _ W)). split; [lia|].
  destruct (gw_free _ _ _ _ W i) as (p & Hp & Hc); [lia|]. exists p.
  destruct (lookup_lt_is_Some_2 (gg_chunk_list s) (Z.to_nat i)) as [c Hcl]; [pose proof (gw_lengths _ _ _ _ W); lia|]. by exists c.
Qed.

(** A block of the class, or none: there is no free block and no chunk in its first use. *)
Lemma allocFromFreeList_class i : 0 < i <= g ->
  exists r, GroupedGC_allocFromFreeList (16 * i) i s = Ret r /\
    ((r = (0, s) /\ free i = [] /\ gg_chunk_list s !! Z.to_nat i = Some 0) \/
     ((free i <> [] \/ gg_chunk_list s !! Z.to_nat i <> Some 0) /\
      gg_chunks r.2 = gg_chunks s /\ gg_needGC r.2 = gg_needGC s /\ gg_gives g s r.2 free live i r.1)).
Proof.
  intros Hi. destruct (gg_cells i Hi) as (Hmax & p & c & Hp & Hl & Hcl). unfold GroupedGC_allocFromFreeList.
  rewrite (proj2 (Z.leb_le _ _)) by lia. mred. rewrite (rd_ok (gg_free_list s) i p) by (done || lia). mred.
  destruct (free i) as [|p' l] eqn:E; cbn [chain] in Hl.
  2:{ destruct Hl as (-> & H0 & next & Hn & Hl). rewrite (proj2 (Z.eqb_neq p' 0)) by done. cbn [negb].
      unfold read_link. rewrite Hn. mred. rewrite wr_ok by (pose proof (gw_lengths _ _ _ _ W); lia). mred.
      eexists. split; [done|]. right. split_and!; [by left|done|done|]. by eapply pop_free_ok. }
  subst p. cbn [negb Z.eqb]. rewrite (rd_ok (gg_chunk_list s) i c) by (done || lia). mred.
  destruct (Z.eqb_spec c 0) as [->|Hc0]; cbn [negb]; [exists (0, s); split; [done|by left]|].
  destruct (gw_list _ _ _ _ W _ c Hcl Hc0) as (Hc & h & Hh & Ei & Hinit). rewrite Z2Nat.id in Ei by lia.
  unfold chunk_at. rewrite Hh. mred. rewrite Hinit. cbn [negb Z.eqb]. mred.
  pose proof (gw_chunks _ _ _ _ W) as Wc. pose proof (gc_g _ _ Wc) as Hg. unfold maxAllocatableIndex in Hg.
  pose proof (header_of g _ _ _ (gw_headers _ _ _ _ W) c h Hc Hh) as Hok.
  destruct (hd_state _ _ _ _ Hok) as [(_ & _ & k & Hk & Hsize)|[? _]]; [|congruence]. rewrite Ei in Hk, Hsize.
  assert (i * (k - 1) <= g) as Hik by (pose proof (Z.mul_div_le g i ltac:(lia)); nia).
  pose proof (gslot_pos g _ Wc c i (k - 1) Hc Hi ltac:(lia)) as Hpos. pose proof (gw_nobits _ _ _ _ W c h Hc Hh) as Hb.
  rewrite Hsize. replace (16 * i * k - 16 * i) with (16 * i * (k - 1)) by lia. set (sz := 16 * i * (k - 1)) in *.
  assert (0 <= sz < 2 ^ 20) as Hsz by (unfold sz; nia). rewrite (wrap_small 64 sz), swrap_small, (wrap_small 64 sz) by (cbn; unfold inw; lia).
  replace (gg_buffer c + sz) with (gslot c i (k - 1)) by (unfold gslot, sz; lia). rewrite (wrap_small 64) by (unfold inw; lia).
  destruct (Z.ltb_spec sz (16 * i)) as [Hlt|Hge].
  - assert (k = 1) as Hk1 by (unfold sz in Hlt; nia). rewrite wr_ok by (pose proof (gw_lengths _ _ _ _ W); lia). mred.
    rewrite (proj2 (Z.eqb_eq sz 0)) by (unfold sz; nia). mred. eexists. split; [done|]. right. cbn [fst snd]. split_and!; [|done|done|].
    + right. rewrite Hcl. congruence.
    + eapply take_chunk_ok; try done. by right.
  - eexists. split; [done|]. right. cbn [fst snd]. split_and!; [|done|done|].
    + right. rewrite Hcl. congruence.
    + change (gg_set_mem (<[c:=set_ch_size sz h]> (gg_mem s)) s) with
        (gg_set_list (gg_chunk_list s) (gg_set_mem (<[c:=set_ch_size sz h]> (gg_mem s)) s)).
      eapply take_chunk_ok; try done. left. split_and!; [unfold sz in Hge; nia|done|done].
Qed.
End Class.

(** *** New chunks *)

Section NewChunk.
Context `{HeapLaws} (g : Z) s (free : Z -> list Z) (live : list (Z * Z)) (W : gg_wf g s free live).

Lemma new_chunk_fresh c : new_block (gg_own s) (SIZEOF_CHUNK + 16 * g) = Some c ->
  gg_chunks_ok g (c :: gg_chunks s) /\ (c ∉ gg_chunks s) /\ 0 < c.
Proof.
  intros E. pose proof (gw_chunks _ _ _ _ W) as Wc. pose proof (gc_g _ _ Wc). unfold SIZEOF_CHUNK in *.
  pose proof (new_in_space _ _ _ E ltac:(lia)) as [Hc1 Hc2]. pose proof (new_fresh _ _ _ E) as Hf. rewrite (gw_own _ _ _ _ W) in Hf.
  split_and!; [split; [done| |constructor; [done|apply Wc]]| |done].
  - unfold SIZEOF_CHUNK. intros d [->|Hd]%elem_of_cons; [lia|by apply Wc].
  - intros Hin. rewrite list.Forall_forall in Hf. specialize (Hf (c, SIZEOF_CHUNK + 16 * g)). unfold disj, SIZEOF_CHUNK in Hf.
    cbn [fst snd] in Hf. destruct Hf; [|lia..]. by apply (list_elem_of_fmap_2 (fun c => (c, 40 + 16 * g))).
Qed.

Lemma add_chunk_ok c i h cl : new_block (gg_own s) (SIZEOF_CHUNK + 16 * g) = Some c -> 0 < i <= g ->
  gg_chunk_list s !! Z.to_nat i = Some 0 -> cl = <[Z.to_nat i := c]> (gg_chunk_list s) ->
  h = mkGChunk None (16 * i * (g / i)) i 1 (g / i) ->
  gg_wf g (mkGG (c :: gg_chunks s) (<[c := h]> (gg_mem s)) (gg_csize s) (gg_free_list s) (gg_next s) (gg_needGC s)
    (gg_st s) cl (gg_chunk_init s) ((c, SIZEOF_CHUNK + 16 * g) :: gg_own s)) free live.
Proof.
  intros E Hi Hcur -> Eh. destruct (new_chunk_fresh c E) as (Wc' & Hnew & Hc). pose proof W as [W1 W2 W3 W4 W5 W6 W7 W8 W9 W10 W11 W12 W13 W14].
  assert (1 <= g / i) as Hcnt by (apply Z.div_le_lower_bound; lia).
  assert (Z.to_nat i < length (gg_chunk_list s))%nat as Hlen by (by eapply lookup_lt_Some).
  assert (forall b, given g (gg_chunks s) (gg_mem s) b -> given g (c :: gg_chunks s) (<[c := h]> (gg_mem s)) b) as Hmono.
  { intros b. apply given_mono. intros d e Hd He. split; [by right|]. exists e. rewrite lookup_insert_ne by congruence. done. }
  split; cbn; try done.
  - by rewrite W3.
  - intros d [->|Hd]%elem_of_cons.
    + exists h. rewrite lookup_insert_eq. split; [done|]. subst h. split; cbn; [lia|done|left].
      rewrite list_lookup_insert_eq by done. split_and!; [done|done|]. exists (g / i). lia.
    + destruct (W4 d Hd) as (e & He & [E1 E2 E3]). exists e. rewrite lookup_insert_ne by congruence. split; [done|]. split; [done|done|].
      destruct E3 as [(? & E3 & ?)|?]; [left|by right]. split_and!; [done| |done].
      rewrite list_lookup_insert_ne; [done|]. intros En. rewrite <- En, Hcur in E3. injection E3 as <-. pose proof (gc_in _ _ W2 0 Hd). lia.
  - intros d e [->|Hd]%elem_of_cons; [rewrite lookup_insert_eq; intros [= <-]; by subst h|]. rewrite lookup_insert_ne by congruence. by apply W5.
  - intros n d Hn Hd. apply list_lookup_insert_Some in Hn as [(<- & <- & _)|[Hn Hd']].
    + split; [by left|]. exists h. rewrite lookup_insert_eq. split; [done|]. subst h. cbn. split; [lia|done].
    + destruct (W6 n d Hd' Hd) as (Hd1 & e & He). split; [by right|]. exists e. by rewrite lookup_insert_ne by congruence.
  - by rewrite length_insert.
  - intros k a Ha. by apply Hmono, W10.
  - intros b Hb. by apply Hmono, W11.
Qed.

Lemma GroupedGC_newChunk_ok i : 0 < i <= g -> gg_chunk_list s !! Z.to_nat i = Some 0 ->
  exists r s', GroupedGC_newChunk i s = Ret (r, s') /\
    match r with
    | Val _ => exists c, gg_chunks s' = c :: gg_chunks s /\ gg_wf g s' free live /\ gg_chunk_list s' !! Z.to_nat i <> Some 0 /\
        gg_needGC s' = gg_needGC s /\ forall b, given g (gg_chunks s) (gg_mem s) b -> given g (gg_chunks s') (gg_mem s') b
    | Throw => s' = s
    end.
Proof.
  intros Hi Hcur. pose proof (gw_chunks _ _ _ _ W) as Wc. pose proof (gc_g _ _ Wc) as Hg. unfold maxAllocatableIndex in Hg.
  pose proof (gw_lengths _ _ _ _ W) as (_ & Hlen & _). pose proof (lookup_lt_Some _ _ _ Hcur) as Hlt.
  unfold GroupedGC_newChunk. erewrite io_bind_Val by reflexivity. rewrite (gw_size _ _ _ _ W).
  rewrite (wrap_small 64 (SIZEOF_CHUNK + 16 * g)) by (unfold inw, SIZEOF_CHUNK; lia).
  destruct (new_block (gg_own s) (SIZEOF_CHUNK + 16 * g)) as [c|] eqn:E; [|by eexists _, s].
  rewrite (rd_ok (gg_chunk_list s) i 0) by (done || lia). rewrite io_lift_Ret. cbn [Z.eqb assertP]. rewrite io_lift_Ret.
  rewrite wr_ok by lia. rewrite io_lift_Ret. unfold SIZEOF_BLOCK. rewrite (wrap_small 64 (16 * i)) by (unfold inw; lia).
  rewrite (proj2 (Z.eqb_neq (16 * i) 0)) by lia. rewrite Z.mul_mod_distr_l by lia. rewrite Z.div_mul_cancel_l by lia.
  pose proof (Z.mod_pos_bound g i ltac:(lia)) as Hmod. pose proof (Z.mul_div_le g i ltac:(lia)) as Hdiv.
  pose proof (Z.div_mod g i ltac:(lia)) as Edm. assert (0 <= g / i <= g) as Hq by (split; [apply Z.div_pos; lia|apply Z.div_le_upper_bound; nia]).
  rewrite (swrap_small 32), (swrap_small 64 (16 * g)), (swrap_small 64 (g / i)) by (cbn; lia).
  assert ((if negb (16 * (g mod i) =? 0) then s64 (16 * g - 16 * (g mod i)) else 16 * g) = 16 * i * (g / i)) as ->.
  { destruct (Z.eqb_spec (16 * (g mod i)) 0); cbn [negb]; [lia|]. rewrite swrap_small by (cbn; lia). lia. }
  eexists _, _. split; [done|]. exists c. split; [done|]. pose proof (add_chunk_ok c i _ _ E Hi Hcur eq_refl eq_refl) as Wn.
  rewrite (gw_size _ _ _ _ W) in Wn. destruct (new_chunk_fresh c E) as (_ & Hnew & Hc). split_and!; [exact Wn| |done|].
  - cbn. rewrite list_lookup_insert_eq by done. intros [= ->]. lia.
  - intros b. apply given_mono. intros d e Hd He. split; [by right|]. exists e. cbn. rewrite lookup_insert_ne by congruence. done.
Qed.
End NewChunk.

(** ** Allocation *)

Lemma gg_set_need_wf g s free live b : gg_wf g s free live -> gg_chunks s <> [] -> gg_wf g (gg_set_need b s) free live.
Proof. intros W Hne. by split; try apply W. Qed.
Lemma gg_set_init_wf g s free live ci : gg_wf g s free live -> length ci = length (gg_chunk_init s) -> gg_wf g (gg_set_init ci s) free live.
Proof. intros W Hl. split; try apply W. cbn. rewrite Hl. apply W. Qed.

Lemma gg_round_up g n : 0 < g < maxAllocatableIndex -> 0 < n < 16 * g ->
  exists i, gg_round n = 16 * i /\ u32 (Z.shiftr (16 * i) shiftToIndex) = i /\ 0 < i <= g /\ n <= 16 * i.
Proof.
  unfold maxAllocatableIndex. intros Hg Hn. destruct (round_up g n ltac:(lia) ltac:(lia)) as (i & E & Hi & Hni).
  exists i. split; [exact E|]. split; [|done]. unfold shiftToIndex. rewrite Z.shiftr_div_pow2 by done.
  change (2 ^ 4) with 16. rewrite Z.mul_comm, Z.div_mul by done. apply wrap_small. unfold inw. lia.
Qed.

Section Allocate.
Context `{HeapLaws} (g : Z) (s : GroupedGC) (free : Z -> list Z) (live : list (Z * Z)) (W : gg_wf g s free live) (i : Z) (Hi : 0 < i <= g).

(** [gg_refill] adds a chunk; it asks for a collection when it is not the first one of
    the class. *)
Lemma gg_refill_ok : gg_chunk_list s !! Z.to_nat i = Some 0 ->
  exists r s', gg_refill i s = Ret (r, s') /\ gg_wf g s' free live /\
    match r with
    | Val _ => (exists c, gg_chunks s' = c :: gg_chunks s) /\ gg_chunk_list s' !! Z.to_nat i <> Some 0 /\
        gg_needGC s' = (gg_needGC s || bool_decide (gg_chunk_init s !! Z.to_nat i = Some false)) /\
        forall b, given g (gg_chunks s) (gg_mem s) b -> given g (gg_chunks s') (gg_mem s') b
    | Throw => gg_chunks s' = gg_chunks s /\ gg_needGC s' = gg_needGC s
    end.
Proof.
  intros Hcur. pose proof (gc_g _ _ (gw_chunks _ _ _ _ W)) as Hg. pose proof (gw_lengths _ _ _ _ W) as (_ & _ & Hlen).
  unfold gg_refill. erewrite io_bind_Val by reflexivity.
  destruct (lookup_lt_is_Some_2 (gg_chunk_init s) (Z.to_nat i)) as [first Hf]; [lia|].
  rewrite (rd_ok _ _ first) by (done || lia). rewrite io_lift_Ret. destruct first.
  - rewrite wr_ok by lia. rewrite io_lift_Ret. erewrite io_bind_Val by reflexivity.
    set (s1 := gg_set_init _ s). assert (gg_wf g s1 free live) as W1 by (apply gg_set_init_wf; [done|by rewrite length_insert]).
    destruct (GroupedGC_newChunk_ok g s1 free live W1 i Hi Hcur) as (r & s2 & -> & Hr). eexists _, _. split; [done|]. destruct r as [u|].
    + destruct Hr as (c & Ec & W2 & Hc & En & Hgv). split; [done|]. split_and!; [by exists c|done| |done].
      rewrite En, Hf. cbn. by rewrite orb_false_r.
    + by subst s2.
  - destruct (GroupedGC_newChunk_ok g s free live W i Hi Hcur) as (r & s2 & E & Hr). destruct r as [u|].
    + rewrite (io_bind_Val _ _ _ _ _ E). destruct Hr as (c & Ec & W2 & Hc & En & Hgv). eexists _, _. split; [done|].
      split; [apply gg_set_need_wf; [done|by rewrite Ec]|]. split_and!; [by exists c|done| |done].
      rewrite Hf, bool_decide_true by done. cbn. by rewrite orb_true_r.
    + rewrite (io_bind_Throw _ _ _ _ E). subst s2. by eexists _, _.
Qed.

(** How an allocation of [i] granules ends: it asks for a chunk if the class has no free
    block and no chunk in its first use. *)
Definition gg_alloc_ends (r : result Z) s' : Prop :=
  match r with
  | Val p => gg_gives g s s' free live i p /\
      ((gg_chunks s' = gg_chunks s /\ gg_needGC s' = gg_needGC s) \/
       (free i = [] /\ gg_chunk_list s !! Z.to_nat i = Some 0 /\ (exists c, gg_chunks s' = c :: gg_chunks s) /\
        gg_needGC s' = (gg_needGC s || bool_decide (gg_chunk_init s !! Z.to_nat i = Some false))))
  | Throw => gg_wf g s' free live /\ gg_chunks s' = gg_chunks s /\ gg_needGC s' = gg_needGC s
  end.

Lemma GroupedGC_allocate_ok n : n < 16 * g -> gg_round n = 16 * i -> u32 (Z.shiftr (16 * i) shiftToIndex) = i ->
  exists r s', GroupedGC_allocate n s = Ret (r, s') /\ gg_alloc_ends r s'.
Proof.
  intros Hn En Ei. unfold GroupedGC_allocate. erewrite io_bind_Val by reflexivity.
  rewrite (gw_size _ _ _ _ W), (proj2 (Z.ltb_lt _ _)) by lia. erewrite io_bind_Val by reflexivity. rewrite En, Ei.
  destruct (allocFromFreeList_class g s free live W i Hi) as (r & Er & Hr). rewrite Er, io_lift_Ret.
  erewrite io_bind_Val by reflexivity. destruct Hr as [(-> & Hf & Hcur)|(_ & Ec & Ed & Hgives)].
  2:{ pose proof Hgives as [Hr0 _]. rewrite (proj2 (Z.eqb_neq r.1 0)) by done. eexists _, _. split; [done|]. split; [done|by left]. }
  cbn [fst snd negb Z.eqb]. destruct (gg_refill_ok Hcur) as (u & s1 & E & W1 & H1). destruct u as [u|].
  2:{ rewrite (io_bind_Throw _ _ _ _ E). by eexists _, _. }
  rewrite (io_bind_Val _ _ _ _ _ E). destruct H1 as (Hc & Hcur1 & Hneed & Hmore). erewrite io_bind_Val by reflexivity.
  destruct (allocFromFreeList_class g s1 free live W1 i Hi) as (r1 & Er1 & Hr1). rewrite Er1, io_lift_Ret.
  erewrite io_bind_Val by reflexivity. destruct Hr1 as [(-> & _ & Hcur')|(_ & Ec1 & Ed1 & Hgives)]; [done|].
  pose proof Hgives as (Hr0 & free' & W' & Hp). rewrite (proj2 (Z.eqb_neq r1.1 0)) by done. eexists _, _. split; [done|]. split.
  - split; [done|]. exists free'. split; [done|]. destruct Hp as [?|[? Hnew]]; [by left|right]. split; [done|]. by intros ?%Hmore.
  - right. rewrite Ec1, Ed1. done.
Qed.
End Allocate.

(** ** A collection *)

(** The mark of the block [j] of [c]. *)
Definition gbit (m : gmap Z gchunk) (c j : Z) : bool :=
  match m !! c with
  | Some h => match ch_bits h with Some v => bv_get v j | None => false end
  | None => false
  end.

(** The blocks marked by a client when those of [m] are; [mark()] tells whether the block
    was marked already. *)
Fixpoint gg_marks (c : collector (Z * Z)) (m : list Z) : list Z :=
  match c with
  | Done => m
  | Mark p k => gg_marks (k (bool_decide (p.1 ∈ m))) (p.1 :: m)
  end.
Lemma gg_marks_mono c : forall m a, a ∈ m -> a ∈ gg_marks c m.
Proof. induction c as [|p k IH]; intros m a Ha; [done|]. apply IH. by right. Qed.

Section Collect.
Context (g : Z) (chunks : list Z) (Wc : gg_chunks_ok g chunks).
Context (cl : list Z) (m0 : gmap Z gchunk) (W0 : headers_ok g cl chunks m0).

(** The headers of [m] are those of [m0] with a vector of bits. *)
Definition with_bits (m : gmap Z gchunk) : Prop := forall c h, c ∈ chunks -> m0 !! c = Some h ->
  exists v, m !! c = Some (set_ch_bits (Some v) h) /\ bv_wf v /\ bv_size v = g / ch_index h.
(** The blocks marked are those of [l]. *)
Definition gg_marked (m : gmap Z gchunk) (l : list Z) : Prop := forall c h j, c ∈ chunks -> m0 !! c = Some h ->
  0 <= j < g / ch_index h -> gbit m c j = true <-> gslot c (ch_index h) j ∈ l.
(** The chunk of each address is found. *)
Definition gg_finds s : Prop := exists st, gg_st s = Some st /\
  forall c x, c ∈ chunks -> gg_buffer c <= x < gg_buffer c + 16 * g -> stree_get st x = Ret c.

Lemma index_of c h : c ∈ chunks -> m0 !! c = Some h -> 0 < ch_index h <= g.
Proof. apply (header_index g chunks cl m0 W0). Qed.
Lemma count_bounds i : 0 < i <= g -> 0 < g / i <= g /\ i * (g / i) <= g /\ u64 (16 * i) = 16 * i.
Proof.
  intros Hi. pose proof (gc_g _ _ Wc) as Hg. unfold maxAllocatableIndex in Hg. split_and!.
  - apply Z.div_str_pos. lia.
  - apply Z.div_le_upper_bound; nia.
  - apply Z.mul_div_le. lia.
  - apply wrap_small. unfold inw. lia.
Qed.

Lemma GroupedGC_mark_ok s c h j n : gg_finds s -> with_bits (gg_mem s) -> c ∈ chunks -> m0 !! c = Some h -> 0 <= j < g / ch_index h ->
  exists m, GroupedGC_mark (gslot c (ch_index h) j, n) s = Ret (gbit (gg_mem s) c j, gg_set_mem m s) /\ with_bits m /\
    forall d k, 0 <= k -> gbit m d k = true <-> (d = c /\ k = j) \/ gbit (gg_mem s) d k = true.
Proof.
  intros (st & Est & Hfind) Hb Hc Hh Hj. pose proof (index_of c h Hc Hh) as Hi. destruct (count_bounds _ Hi) as (Hcnt & _ & Eu).
  pose proof (gc_g _ _ Wc) as Hg. unfold maxAllocatableIndex in Hg. pose proof (gc_in _ _ Wc c Hc) as [Hc0 _].
  pose proof (gslot_in g c (ch_index h) j Hi Hj) as Hin. unfold GroupedGC_mark. rewrite Est, (Hfind c) by (done || lia). mred.
  rewrite (proj2 (Z.eqb_neq c 0)) by lia. mred. destruct (Hb c h Hc Hh) as (v & Ev & Wv & Hv). unfold chunk_at. rewrite Ev. mred.
  cbn [ch_index ch_bits set_ch_bits]. unfold SIZEOF_BLOCK. rewrite Eu, (proj2 (Z.eqb_neq (16 * ch_index h) 0)) by lia.
  replace (gslot c (ch_index h) j - gg_buffer c) with (j * (16 * ch_index h)) in * by (unfold gslot; lia).
  assert (j * (16 * ch_index h) < 16 * g) as Hlt by (unfold gslot in Hin; lia). rewrite (wrap_small 64) by (unfold inw; lia).
  rewrite Z.div_mul by lia. rewrite swrap_small by (cbn; lia). assert (gbit (gg_mem s) c j = bv_get v j) as Eg by (unfold gbit; by rewrite Ev).
  rewrite (BitVector_bit_ok v Wv) by lia. mred. rewrite Eg. destruct (bv_get v j) eqn:E; cbn [negb].
  - exists (gg_mem s). split; [by destruct s|]. split; [done|]. intros d k Hk. split; [by right|intros [[-> ->]|?]; [congruence|done]].
  - destruct (BitVector_set_ok v Wv j) as (v' & -> & Wv' & Ev' & Hv'); [lia|]. mred. eexists. split; [done|]. split.
    + intros d e Hd He. destruct (decide (d = c)) as [->|Hne].
      * rewrite lookup_insert_eq. rewrite Hh in He. injection He as <-. exists v'. split_and!; [done|done|lia].
      * rewrite lookup_insert_ne by done. by apply Hb.
    + intros d k Hk. unfold gbit at 1. destruct (decide (d = c)) as [->|Hne].
      * rewrite lookup_insert_eq. cbn [ch_bits set_ch_bits]. rewrite Hv' by done. rewrite orb_true_iff, Z.eqb_eq.
        assert (gbit (gg_mem s) c k = bv_get v k) as -> by (unfold gbit; by rewrite Ev). naive_solver.
      * rewrite lookup_insert_ne by done. fold (gbit (gg_mem s) d k). naive_solver.
Qed.

(** The client marks blocks of the chunks: it runs and marks them. *)
Lemma gg_collect_ok c : forall s l, gg_finds s -> with_bits (gg_mem s) -> gg_marked (gg_mem s) l ->
  (forall a, a ∈ gg_marks c l -> exists b, b.1 = a /\ given g chunks m0 b) ->
  exists m, run_collect GroupedGC_mark c s = Ret (gg_set_mem m s) /\ with_bits m /\ gg_marked m (gg_marks c l).
Proof.
  induction c as [|p k IH]; intros s l Hf Hb Hm Hl; cbn [run_collect gg_marks] in *; [exists (gg_mem s); by destruct s|].
  destruct (Hl p.1) as (b & Eb & (c & h & j & Hc & Hh & Hj & _ & ->)); [apply gg_marks_mono; by left|]. cbn [fst] in Eb.
  destruct p as [a n]. cbn [fst] in *. subst a.
  destruct (GroupedGC_mark_ok s c h j n Hf Hb Hc Hh Hj) as (m & -> & Hb' & Hbits). mred.
  assert (gbit (gg_mem s) c j = bool_decide (gslot c (ch_index h) j ∈ l)) as ->.
  { apply eq_bool_prop_intro. rewrite Is_true_true, bool_decide_spec. by apply Hm. }
  destruct (IH (bool_decide (gslot c (ch_index h) j ∈ l)) (gg_set_mem m s) (gslot c (ch_index h) j :: l)) as (m' & -> & Hb'' & Hm'); [done|done| |done|].
  - intros d e i Hd He Hi. cbn. rewrite Hbits, elem_of_cons, (Hm d e i Hd He Hi) by lia. split; (intros [H|?]; [left|by right]).
    + destruct H as [-> ->]. congruence.
    + destruct (gslot_inj g chunks Wc d (ch_index e) i c (ch_index h) j) as (-> & _ & ->); try done; [congruence|by apply (index_of d)|by apply (index_of c)].
  - exists m'. by destruct s.
Qed.
End Collect.

(** *** Its start *)

Definition gseg (csize c : Z) : segment Z Z := ((gg_buffer c, gg_buffer c + csize), c).

Lemma gg_chunks_NoDup g chunks : gg_chunks_ok g chunks -> NoDup chunks.
Proof.
  intros W. pose proof (gc_g _ _ W). assert (NoDup ((fun c => (c, SIZEOF_CHUNK + 16 * g)) <$> chunks).*1) as Hnd.
  { apply blocks_NoDup; [|apply W]. intros b (c & -> & _)%list_elem_of_fmap. cbn. unfold SIZEOF_CHUNK. lia. }
  rewrite <- list_fmap_compose in Hnd. by apply NoDup_fmap_1 in Hnd.
Qed.

Lemma gg_segments g chunks : gg_chunks_ok g chunks -> segments_ok (gseg (16 * g) <$> chunks).
Proof.
  intros W. pose proof (gc_g _ _ W). split.
  - intros x (c & -> & Hc)%list_elem_of_fmap. apply Z_clt. cbn. lia.
  - intros x y (c & -> & Hc)%list_elem_of_fmap (d & -> & Hd)%list_elem_of_fmap.
    destruct (gg_chunks_disj g chunks W c d Hc Hd) as [->|Hcd]; [by left|right]. unfold apart. rewrite !Z_cle.
    unfold disj, gg_buffer, SIZEOF_CHUNK in *. cbn in *. unfold gg_buffer, SIZEOF_CHUNK. lia.
Qed.

Lemma gg_begin_chunks_ok g chunks cl l : gg_chunks_ok g chunks -> NoDup l -> forall b b' m, headers_ok g cl l m ->
  add_segments b (gseg (16 * g) <$> l) = Ret b' ->
  exists m', gg_begin_chunks (16 * g) l b m = Ret (b', m') /\ (forall c, c ∉ l -> m' !! c = m !! c) /\
    forall c h, c ∈ l -> m !! c = Some h -> exists v, m' !! c = Some (set_ch_bits (Some v) h) /\ bv_wf v /\
      bv_size v = g / ch_index h /\ forall j, 0 <= j -> bv_get v j = false.
Proof.
  intros Wc. pose proof (gc_g _ _ Wc) as Hg. unfold maxAllocatableIndex in Hg.
  induction 1 as [|c l Hcl Hnd IH]; intros b b' m Wm Hb; cbn [gg_begin_chunks].
  { injection Hb as <-. exists m. split; [done|]. split; [done|]. by intros c h ?%elem_of_nil. }
  unfold add_segments in Hb. cbn [fmap list_fmap foldl] in Hb. rewrite bind_Ret in Hb. cbn [gseg low high fst snd] in Hb.
  destruct (SegmentBuilder_add b (gg_buffer c) (gg_buffer c + 16 * g) c) as [b1|f]; [|by rewrite add_segments_fail in Hb]. mred.
  destruct (Wm c) as (h & Hh & Hok); [by left|]. unfold chunk_at. rewrite Hh. mred. pose proof (hd_index _ _ _ _ Hok) as Hi.
  destruct (count_bounds g chunks Wc (ch_index h) Hi) as (Hcnt & _ & Eu). unfold SIZEOF_BLOCK. rewrite Eu.
  rewrite (proj2 (Z.eqb_neq (16 * ch_index h) 0)) by lia. rewrite Z.div_mul_cancel_l by lia. rewrite swrap_small by (cbn; lia).
  destruct (BitVector_make_clear (g / ch_index h)) as (v & -> & Wv & Ev & Hv); [lia|]. mred.
  assert (forall d, d ∈ l -> d <> c) as Hne by (intros d Hd ->; done).
  destruct (IH b1 b' (<[c := set_ch_bits (Some v) h]> m)) as (m' & -> & Hout & Hin); [|done|].
  - intros d Hd. rewrite lookup_insert_ne by (symmetry; by apply Hne). apply Wm. by right.
  - exists m'. split; [done|]. split.
    + intros d [Hd Hdl]%not_elem_of_cons. by rewrite Hout, lookup_insert_ne.
    + intros d e [->|Hd]%elem_of_cons He.
      * rewrite Hh in He. injection He as <-. exists v. by rewrite Hout, lookup_insert_eq.
      * apply Hin; [done|]. rewrite lookup_insert_ne; [done|]. symmetry. by apply Hne.
Qed.

Lemma GroupedGC_beginGC_ok g s free live : gg_wf g s free live -> gg_chunks s <> [] -> zlen (gg_chunks s) < ITER_LIMIT ->
  exists st m, GroupedGC_beginGC s = Ret (gg_set_st (Some st) (gg_set_mem m s)) /\
    gg_finds g (gg_chunks s) (gg_set_st (Some st) (gg_set_mem m s)) /\
    with_bits g (gg_chunks s) (gg_mem s) m /\ gg_marked g (gg_chunks s) (gg_mem s) m [].
Proof.
  intros W Hne Hn. pose proof (gw_chunks _ _ _ _ W) as Wc. unfold GroupedGC_beginGC. rewrite (gw_size _ _ _ _ W).
  destruct (SegmentBuilder_build_ok 0 (gseg (16 * g) <$> gg_chunks s) stree_make) as (b & st & Eb & Est & Ha).
  - by apply gg_segments.
  - by intros ?%fmap_nil_inv.
  - by rewrite length_fmap.
  - destruct (gg_begin_chunks_ok g _ (gg_chunk_list s) (gg_chunks s) Wc (gg_chunks_NoDup _ _ Wc) _ _ (gg_mem s) (gw_headers _ _ _ _ W) Eb)
      as (m & -> & _ & Hm). mred. rewrite Est. mred. exists st, m. split; [done|]. split_and!.
    + exists st. split; [done|]. intros c x Hc Hx. unfold stree_get. rewrite (sa_inside _ _ _ Ha (gseg (16 * g) c) x); [done| | |].
      * by apply (list_elem_of_fmap_2 (gseg (16 * g))).
      * apply Z_cle. cbn. lia.
      * apply Z_clt. cbn. lia.
    + intros c h Hc Hh. destruct (Hm c h Hc Hh) as (v & ? & ? & ? & _). by exists v.
    + intros c h j Hc Hh Hj. destruct (Hm c h Hc Hh) as (v & Ev & _ & _ & Hv). unfold gbit. rewrite Ev. cbn. rewrite Hv by lia.
      split; [done|]. by intros ?%elem_of_nil.
Qed.

(** *** Its end *)

Section Sweep.
Context (g : Z) (chunks : list Z) (Wc : gg_chunks_ok g chunks).
Context (cl : list Z) (m0 : gmap Z gchunk) (W0 : headers_ok g cl chunks m0).
Context (m : gmap Z gchunk) (Wb : with_bits g chunks m0 m).

(** The free lists when the blocks of [P] are processed. *)
Record gg_swept (P : Z -> Z -> Prop) (fl : list Z) (nx : links) (free : Z -> list Z) : Prop := {
  gs_length : zlen fl = maxAllocatableIndex;
  gs_chain i : 0 <= i < maxAllocatableIndex -> exists p, fl !! Z.to_nat i = Some p /\ chain nx p (free i);
  gs_nodup i : NoDup (free i);
  gs_elem i a : a ∈ free i <-> exists c h j, c ∈ chunks /\ m0 !! c = Some h /\ ch_index h = i /\ 0 <= j < g / i /\
    P c j /\ gbit m c j = false /\ a = gslot c i j }.

Lemma gg_swept_ext P P' fl nx free : (forall c h j, c ∈ chunks -> m0 !! c = Some h -> 0 <= j < g / ch_index h ->
    gbit m c j = false -> P c j <-> P' c j) -> gg_swept P fl nx free -> gg_swept P' fl nx free.
Proof.
  intros HP [H1 H2 H3 H4]. split; [done..|]. intros i a. rewrite H4.
  split; intros (c & h & j & Hc & Hh & Hi & Hj & Hx & Hb & ->); exists c, h, j; subst i; split_and!; try (done || lia); by apply (HP c h j).
Qed.

Lemma gg_push_ok P fl nx free c h j : gg_swept P fl nx free -> c ∈ chunks -> m0 !! c = Some h -> 0 <= j < g / ch_index h ->
  gbit m c j = false -> ~ P c j ->
  let i := ch_index h in let blk := gslot c i j in
  exists next, rd fl i = Ret next /\ wr fl i blk = Ret (<[Z.to_nat i := blk]> fl) /\
    gg_swept (fun d k => P d k \/ (d = c /\ k = j)) (<[Z.to_nat i := blk]> fl) (<[blk := next]> nx)
      (fun k => if decide (k = i) then blk :: free k else free k).
Proof.
  intros [H1 H2 H3 H4] Hc Hh Hj Hb HP i blk. pose proof (index_of g chunks cl m0 W0 c h Hc Hh) as Hi. pose proof (gc_g _ _ Wc) as Hg.
  destruct (H2 i) as (p & Hp & Hl); [lia|]. exists p. split; [apply rd_ok; (done || lia)|]. split; [apply wr_ok; lia|].
  pose proof (gslot_pos g chunks Wc c i j Hc Hi Hj) as Hpos. fold blk in Hpos.
  assert (forall d e k, d ∈ chunks -> m0 !! d = Some e -> 0 <= k < g / ch_index e -> blk = gslot d (ch_index e) k -> d = c /\ k = j) as Hinj.
  { intros d e k Hd He Hk E. destruct (gslot_inj g chunks Wc c i j d (ch_index e) k) as (-> & _ & ->); try done; [intros <-; assert (e = h) as -> by congruence; done|].
    by apply (index_of g chunks cl m0 W0 d). }
  assert (forall k, blk ∉ free k) as Hnew.
  { intros k (d & e & n & Hd & He & <- & Hn & HPd & _ & E)%H4. by destruct (Hinj d e n Hd He Hn E) as [-> ->]. }
  split.
  - by rewrite length_insert.
  - intros k Hk. destruct (decide (k = i)) as [->|Hne].
    + exists blk. rewrite list_lookup_insert_eq by lia. split; [done|]. apply chain_cons; [lia|done|done].
    + destruct (H2 k Hk) as (q & Hq & Hql). exists q. rewrite list_lookup_insert_ne by lia. split; [done|]. by apply chain_insert.
  - intros k. case_decide; [constructor; done|done].
  - intros k a. assert (a ∈ (if decide (k = i) then blk :: free k else free k) <-> (k = i /\ a = blk) \/ a ∈ free k) as ->.
    { case_decide; [rewrite elem_of_cons|]; naive_solver. }
    rewrite H4. split.
    + intros [[-> ->]|(d & e & n & Hd & He & Ek & Hn & HPd & Hx)]; [exists c, h, j|exists d, e, n].
      * split_and!; try (done || apply Hj). by right.
      * destruct Hx. split_and!; try (done || lia). by left.
    + intros (d & e & n & Hd & He & <- & Hn & [HPd|[-> ->]] & Hx & ->); [right; exists d, e, n; done|left]. assert (e = h) as -> by congruence. done.
Qed.

Lemma gg_sweep_chunk_ok done c h v fl nx free : c ∈ chunks -> c ∉ done -> m0 !! c = Some h -> m !! c = Some (set_ch_bits (Some v) h) ->
  gg_swept (fun d _ => d ∈ done) fl nx free ->
  exists fl' nx' free', loop 0 (g / ch_index h) (gg_sweep_step c v (16 * ch_index h) (ch_index h)) (0, (fl, nx)) =
      Ret (16 * ch_index h * (g / ch_index h), (fl', nx')) /\
    gg_swept (fun d _ => d ∈ c :: done) fl' nx' free'.
Proof.
  intros Hc Hnew Hh Hv Hs. destruct (Wb c h Hc Hh) as (v' & Ev & Wv & Hsz). rewrite Hv in Ev. injection Ev as <-.
  set (i := ch_index h) in *. pose proof (index_of g chunks cl m0 W0 c h Hc Hh) as Hi. fold i in Hi.
  pose proof (gc_g _ _ Wc) as Hg. unfold maxAllocatableIndex in Hg.
  destruct (count_bounds g chunks Wc i Hi) as (Hcnt & Hdiv & _).
  loop_with (fun j st => st.1 = 16 * i * j /\ exists free, gg_swept (fun d k => d ∈ done \/ (d = c /\ k < j)) st.2.1 st.2.2 free).
  - lia.
  - split; [cbn; lia|]. exists free. eapply gg_swept_ext; [|exact Hs]. intros d e k Hd He Hk _. split; [by left|].
    intros [?|[-> ?]]; [done|lia].
  - intros j [cur [fl1 nx1]] Hj (Ecur & free1 & Hs1). cbn [fst snd] in *. subst cur. unfold gg_sweep_step.
    rewrite (BitVector_bit_ok v Wv) by lia. mred. assert (gbit m c j = bv_get v j) as Eb by (unfold gbit; by rewrite Hv).
    assert (u64 (16 * i * j + 16 * i) = 16 * i * (j + 1)) as Ecur by (rewrite wrap_small; [lia|unfold inw; nia]).
    destruct (bv_get v j) eqn:E; cbn [negb].
    + mred. eexists. split; [done|]. split; [exact Ecur|]. exists free1. eapply gg_swept_ext; [|exact Hs1].
      intros d e k Hd He Hk Hf. split; [intros [?|[-> ?]]; [by left|right; lia]|]. intros [?|[-> ?]]; [by left|right].
      destruct (decide (k = j)) as [->|]; [congruence|lia].
    + change (gg_buffer c + 16 * i * j) with (gslot c i j).
      destruct (gg_push_ok _ _ _ _ c h j Hs1 Hc Hh Hj) as (next & Er & Ew & Hs2); [done|intros [?|[_ ?]]; [done|lia]|].
      fold i in Er, Ew, Hs2. rewrite Er. mred. rewrite Ew. mred. eexists. split; [done|]. split; [exact Ecur|]. eexists.
      eapply gg_swept_ext; [|exact Hs2]. intros d e k Hd He Hk Hf. split.
      * intros [[?|[-> ?]]|[-> ->]]; [by left|right; lia|right; lia].
      * intros [?|[-> ?]]; [left; by left|]. destruct (decide (k = j)) as [->|]; [by right|left; right; lia].
  - destruct r as [cur [fl' nx']]. cbn [fst snd] in Hr. destruct Hr as (-> & free' & Hs'). exists fl', nx', free'. split; [done|].
    eapply gg_swept_ext; [|exact Hs']. intros d e k Hd He Hk _. rewrite elem_of_cons. split; [intros [?|[-> _]]; [by right|by left]|].
    intros [->|?]; [right|by left]. split; [done|]. rewrite Hh in He. injection He as <-. fold i in Hk. lia.
Qed.

Lemma gg_sweep_ok l : NoDup l -> forall (done : list Z) fl nx free, (forall c, c ∈ l -> c ∈ chunks /\ c ∉ done) ->
  gg_swept (fun d _ => d ∈ done) fl nx free ->
  exists fl' nx' free' (done' : list Z), gg_sweep m l (fl, nx) = Ret (fl', nx') /\ gg_swept (fun d _ => d ∈ done') fl' nx' free' /\
    forall d e, m0 !! d = Some e -> d ∈ done' <-> d ∈ done \/ (d ∈ l /\ ch_init e = 0).
Proof.
  pose proof (gc_g _ _ Wc) as Hg. unfold maxAllocatableIndex in Hg.
  induction 1 as [|c l Hcl Hnd IH]; intros done fl nx free Hl Hs; cbn [gg_sweep].
  { exists fl, nx, free, done. split; [done|]. split; [done|]. intros d e _. split; [by left|]. by intros [?|[?%elem_of_nil _]]. }
  destruct (Hl c) as [Hc Hnew]; [by left|]. destruct (W0 c Hc) as (h & Hh & Hok). destruct (Wb c h Hc Hh) as (v & Hv & _).
  unfold chunk_at. rewrite Hv. mred. cbn [ch_init ch_bits ch_index ch_blockCount set_ch_bits].
  pose proof (hd_index _ _ _ _ Hok) as Hi. destruct (count_bounds g chunks Wc _ Hi) as (Hcnt & _ & Eu).
  destruct (hd_state _ _ _ _ Hok) as [(E1 & _)|[E0 _]]; [rewrite E1|rewrite E0]; cbn [Z.ltb Z.compare].
  - destruct (IH done fl nx free) as (fl' & nx' & free' & done' & -> & Hs' & Hd'); [intros d Hd; apply Hl; by right|done|].
    exists fl', nx', free', done'. split; [done|]. split; [done|]. intros d e He. rewrite (Hd' d e He), elem_of_cons.
    assert (d = c -> ch_init e = 1) as Hdc by (intros ->; congruence). clear -Hdc. split.
    + intros [?|[? ?]]; [by left|]. right. split; [by right|done].
    + intros [?|[[Hd|?] ?]]; [by left|apply Hdc in Hd; lia|by right].
  - rewrite (hd_count _ _ _ _ Hok). unfold SIZEOF_BLOCK. rewrite Eu, !swrap_small, wrap_small by (cbn; unfold inw; lia).
    destruct (gg_sweep_chunk_ok done c h v fl nx free Hc Hnew Hh Hv Hs) as (fl1 & nx1 & free1 & -> & Hs1). mred.
    destruct (IH (c :: done) fl1 nx1 free1) as (fl' & nx' & free' & done' & -> & Hs' & Hd'); [|done|].
    + intros d Hd. destruct (Hl d) as [? ?]; [by right|]. split; [done|]. intros [->|?]%elem_of_cons; done.
    + exists fl', nx', free', done'. split; [done|]. split; [done|]. intros d e He. rewrite (Hd' d e He), !elem_of_cons.
      assert (d = c -> ch_init e = 0) as Hdc by (intros ->; congruence). clear -Hdc. split.
      * intros [[Hd|?]|[? ?]]; [right; split; [by left|by apply Hdc]|by left|]. right. split; [by right|done].
      * intros [?|[[?|?] ?]]; [left; by right|left; by left|by right].
Qed.

Lemma gg_drop_bits_ok l : NoDup l -> forall m1, (forall c, c ∈ l -> c ∈ chunks /\ m1 !! c = m !! c) ->
  exists m2, gg_drop_bits l m1 = Ret m2 /\ (forall c, c ∉ l -> m2 !! c = m1 !! c) /\
    forall c h, c ∈ l -> m0 !! c = Some h -> m2 !! c = Some (set_ch_bits None h).
Proof.
  induction 1 as [|c l Hcl Hnd IH]; intros m1 Hm; cbn [gg_drop_bits].
  { exists m1. split; [done|]. split; [done|]. by intros c h ?%elem_of_nil. }
  destruct (Hm c) as [Hc E]; [by left|]. destruct (W0 c Hc) as (h & Hh & _). destruct (Wb c h Hc Hh) as (v & Hv & _).
  unfold chunk_at. rewrite E, Hv. mred. destruct (IH (<[c := set_ch_bits None (set_ch_bits (Some v) h)]> m1)) as (m2 & -> & Hout & Hin).
  - intros d Hd. destruct (Hm d) as [? ?]; [by right|]. split; [done|]. rewrite lookup_insert_ne; [done|]. by intros ->.
  - exists m2. split; [done|]. split.
    + intros d [Hne Hd]%not_elem_of_cons. by rewrite Hout, lookup_insert_ne.
    + intros d e [->|Hd]%elem_of_cons He; [|by apply Hin]. rewrite Hout, lookup_insert_eq by done. rewrite Hh in He. by injection He as <-.
Qed.
End Sweep.

(** The address is in a chunk used for the first time. *)
Definition gg_in_first s (a : Z) : bool :=
  existsb (fun c => match gg_mem s !! c with
    | Some h => negb (ch_init h =? 0) && (gg_buffer c <=? a) && (a <? gg_buffer c + gg_csize s)
    | None => false
    end) (gg_chunks s).
(** The blocks a collection leaves to their users. *)
Definition gg_kept s (marks : list Z) (live : list (Z * Z)) : list (Z * Z) :=
  filter (fun b => b.1 ∈ marks \/ gg_in_first s b.1 = true) live.
(** The blocks that are free after a collection: the blocks not marked of full chunks. *)
Definition gg_freed (g : Z) s (marks : list Z) (i a : Z) : Prop :=
  exists c h j, c ∈ gg_chunks s /\ gg_mem s !! c = Some h /\ ch_index h = i /\ ch_init h = 0 /\ 0 <= j < g / i /\
    a = gslot c i j /\ a ∉ marks.

Lemma gg_full_block g s free live c h j : gg_wf g s free live -> c ∈ gg_chunks s -> gg_mem s !! c = Some h -> ch_init h = 0 ->
  0 <= j < g / ch_index h -> gg_in_first s (gslot c (ch_index h) j) = false.
Proof.
  intros W Hc Hh E0 Hj. apply not_true_iff_false. intros (d & Hd%list_elem_of_In & Ht)%existsb_exists.
  destruct (gg_mem s !! d) as [e|] eqn:He; [|done]. apply andb_true_iff in Ht as [[Ht1 Ht2%Z.leb_le]%andb_true_iff Ht3%Z.ltb_lt].
  rewrite (gw_size _ _ _ _ W) in Ht3. pose proof (gw_chunks _ _ _ _ W) as Wc.
  pose proof (header_index g (gg_chunks s) (gg_chunk_list s) (gg_mem s) (gw_headers _ _ _ _ W) c h Hc Hh) as Hi.
  pose proof (gslot_in g c (ch_index h) j Hi Hj). destruct (gg_chunks_disj g _ Wc c d Hc Hd) as [->|Hcd].
  - rewrite Hh in He. injection He as <-. by rewrite E0 in Ht1.
  - unfold disj, gg_buffer, SIZEOF_CHUNK in *. cbn [fst snd] in Hcd. lia.
Qed.

Lemma GroupedGC_endGC_ok g s free live st m marks : gg_wf g s free live -> with_bits g (gg_chunks s) (gg_mem s) m ->
  gg_marked g (gg_chunks s) (gg_mem s) m marks ->
  exists s' free', GroupedGC_endGC (gg_set_st (Some st) (gg_set_mem m s)) = Ret s' /\
    gg_wf g s' free' (gg_kept s marks live) /\ gg_chunks s' = gg_chunks s /\ gg_needGC s' = gg_needGC s /\
    forall i a, a ∈ free' i <-> gg_freed g s marks i a.
Proof.
  intros W Hb Hm. pose proof W as [W1 W2 W3 W4 W5 W6 W7 W8 W9 W10 W11 [W12 W12'] W13 W14].
  pose proof (gg_chunks_NoDup _ _ W2) as Hnd. unfold GroupedGC_endGC. cbn [gg_free_list gg_set_st gg_set_mem gg_chunks gg_mem gg_next].
  rewrite (loop_update (gg_free_list s) (replicate (Z.to_nat maxAllocatableIndex) 0)).
  2:{ lia. } 2:{ rewrite length_replicate. lia. }
  2:{ intros i l Hi _ _. exists 0. split; [|done]. apply lookup_replicate. lia. }
  mred. destruct (gg_sweep_ok g (gg_chunks s) W2 (gg_chunk_list s) (gg_mem s) W4 m Hb (gg_chunks s) Hnd []
    (replicate (Z.to_nat maxAllocatableIndex) 0) (gg_next s) (fun _ => [])) as (fl & nx & free' & full & -> & [S1 S2 S3 S4] & Hfull).
  - intros c Hc. split; [done|apply not_elem_of_nil].
  - split; [rewrite length_replicate; lia| |constructor|].
    + intros i Hi. exists 0. split; [|done]. apply lookup_replicate. lia.
    + intros i a. split; [by intros ?%elem_of_nil|]. by intros (c & h & j & _ & _ & _ & _ & ?%elem_of_nil & _).
  - mred. destruct (gg_drop_bits_ok g (gg_chunks s) (gg_chunk_list s) (gg_mem s) W4 m Hb (gg_chunks s) Hnd m) as (m2 & -> & _ & Hm2); [done|].
    mred. assert (forall c, c ∈ gg_chunks s -> m2 !! c = gg_mem s !! c) as Hsame.
    { intros c Hc. destruct (W4 c Hc) as (h & Hh & _). rewrite (Hm2 c h Hc Hh), Hh. f_equal. pose proof (W5 c h Hc Hh) as E. by destruct h; cbn in *; subst. }
    assert (forall i a, a ∈ free' i <-> gg_freed g s marks i a) as Hfree.
    { intros i a. rewrite S4. split.
      - intros (c & h & j & Hc & Hh & <- & Hj & Hd & Hbit & ->). apply (Hfull c h Hh) in Hd as [?%elem_of_nil|[_ E0]]; [done|].
        exists c, h, j. split_and!; try (done || lia). rewrite <- (Hm c h j Hc Hh Hj). congruence.
      - intros (c & h & j & Hc & Hh & <- & E0 & Hj & -> & Hn). exists c, h, j. split_and!; try (done || lia).
        + apply (Hfull c h Hh). by right.
        + apply not_true_iff_false. by rewrite (Hm c h j Hc Hh Hj). }
    assert (forall b, given g (gg_chunks s) (gg_mem s) b -> given g (gg_chunks s) m2 b) as Hgiven.
    { intros b. apply given_mono. intros c h Hc Hh. split; [done|]. exists h. by rewrite Hsame. }
    eexists _, free'. split; [done|]. split; [|done]. split; cbn; try done.
    + intros c Hc. rewrite Hsame by done. by apply W4.
    + intros c h Hc. rewrite Hsame by done. by apply W5.
    + intros i c Hi H0. destruct (W6 i c Hi H0) as [Hc Hh]. split; [done|]. by rewrite Hsame.
    + split; [done|apply W7].
    + intros i a (c & h & j & Hc & Hh & <- & E0 & Hj & -> & _)%Hfree. apply Hgiven. exists c, h, j. split_and!; try (done || lia).
      destruct (hd_state _ _ _ _ (header_of g _ _ _ W4 c h Hc Hh)) as [[? _]|[_ ->]]; [congruence|].
      pose proof (header_index g _ _ _ W4 c h Hc Hh). nia.
    + intros b [_ Hl]%list_elem_of_filter. by apply Hgiven, W11.
    + split; [by apply NoDup_filter|done].
    + intros i a (c & h & j & Hc & Hh & <- & E0 & Hj & -> & Hn)%Hfree [[Hk|Hk] _]%list_elem_of_filter; cbn in Hk; [done|].
      by rewrite (gg_full_block g s free live c h j) in Hk.
Qed.

Lemma GroupedGC_doGC_ok g collect s free live : gg_wf g s free live -> zlen (gg_chunks s) < ITER_LIMIT -> gg_needGC s = true ->
  (forall a, a ∈ gg_marks collect [] -> a ∈ live.*1) ->
  exists s' free', GroupedGC_doGC collect s = Ret s' /\ gg_wf g s' free' (gg_kept s (gg_marks collect []) live) /\
    gg_chunks s' = gg_chunks s /\ gg_needGC s' = false /\ forall i a, a ∈ free' i <-> gg_freed g s (gg_marks collect []) i a.
Proof.
  intros W Hn Hneed Hl. unfold GroupedGC_doGC. rewrite Hneed. cbn [negb]. pose proof (gw_need _ _ _ _ W Hneed) as Hne.
  set (s0 := gg_set_need false s). assert (gg_wf g s0 free live) as W0 by (by apply gg_set_need_wf).
  destruct (GroupedGC_beginGC_ok g s0 free live W0 Hne Hn) as (st & m & -> & Hf & Hb & Hm). rewrite bind_Ret.
  destruct (gg_collect_ok g (gg_chunks s) (gw_chunks _ _ _ _ W) (gg_chunk_list s) (gg_mem s) (gw_headers _ _ _ _ W) collect _ [] Hf Hb Hm)
    as (m' & -> & Hb' & Hm').
  - intros a (b & -> & Hb')%Hl%list_elem_of_fmap. exists b. split; [done|]. by apply (gw_live _ _ _ _ W).
  - rewrite bind_Ret. change (gg_set_mem m' (gg_set_st (Some st) (gg_set_mem m s0))) with (gg_set_st (Some st) (gg_set_mem m' s0)).
    destruct (GroupedGC_endGC_ok g s0 free live st m' (gg_marks collect []) W0 Hb' Hm') as (s' & free' & E & W' & Ec & En & Hfree).
    exists s', free'. done.
Qed.

(** ** Programs *)

(** The states of a program that allocates blocks and collects, with its blocks in use:
    the client of a collection marks some of them. *)
Inductive gg_run `{Heap} (size : Z) : GroupedGC -> list (Z * Z) -> Prop :=
  | gg_r_make : gg_run size (GroupedGC_make size) []
  | gg_r_alloc s live n p s' : gg_run size s live -> 0 < n -> GroupedGC_allocate n s = Ret (Val p, s') ->
      gg_run size s' ((p, gg_round n) :: live)
  | gg_r_throw s live n s' : gg_run size s live -> 0 < n -> GroupedGC_allocate n s = Ret (Throw, s') -> gg_run size s' live
  | gg_r_gc s live collect s' : gg_run size s live -> zlen (gg_chunks s) < ITER_LIMIT ->
      (forall a, a ∈ gg_marks collect [] -> a ∈ live.*1) -> GroupedGC_doGC collect s = Ret s' ->
      gg_run size s' (if gg_needGC s then gg_kept s (gg_marks collect []) live else live).

Lemma gg_round_chunk size : 0 < size <= 16 * (maxAllocatableIndex - 1) ->
  exists g, gg_round size = 16 * g /\ 0 < g < maxAllocatableIndex.
Proof.
  unfold maxAllocatableIndex. intros Hs. destruct (round_up 8191 size ltac:(lia) ltac:(lia)) as (g & E & Hg & _).
  exists g. split; [exact E|lia].
Qed.

Lemma GroupedGC_make_wf size g : gg_round size = 16 * g -> 0 < g < maxAllocatableIndex -> gg_wf g (GroupedGC_make size) (fun _ => []) [].
Proof.
  intros E Hg. split; cbn [GroupedGC_make gg_csize gg_chunks gg_own gg_mem gg_chunk_list gg_free_list gg_chunk_init gg_st gg_next gg_needGC].
  - done.
  - split; [done| |constructor]. by intros c ?%elem_of_nil.
  - done.
  - by intros c ?%elem_of_nil.
  - by intros c h ?%elem_of_nil.
  - by intros i c [-> _]%lookup_replicate.
  - rewrite !length_replicate. unfold maxAllocatableIndex. lia.
  - done.
  - intros i Hi. exists 0. split; [apply lookup_replicate; lia|done].
  - by intros i a ?%elem_of_nil.
  - by intros b ?%elem_of_nil.
  - split; [constructor|intros i; constructor].
  - by intros i a ?%elem_of_nil.
  - done.
Qed.

Section Programs.
Context `{HeapLaws} (size g : Z) (Es : gg_round size = 16 * g) (Hg : 0 < g < maxAllocatableIndex).

Lemma alloc_bounds s n r : gg_csize s = 16 * g -> GroupedGC_allocate n s = Ret r -> n < 16 * g.
Proof.
  intros E. unfold GroupedGC_allocate. erewrite io_bind_Val by reflexivity. rewrite E.
  destruct (Z.ltb_spec n (16 * g)); [done|]. by cbn.
Qed.

Lemma gg_allocate_wf s free live n : gg_wf g s free live -> 0 < n < 16 * g ->
  exists i r s', gg_round n = 16 * i /\ 0 < i <= g /\ n <= 16 * i /\ GroupedGC_allocate n s = Ret (r, s') /\
    gg_alloc_ends g s free live i r s'.
Proof.
  intros W Hn. destruct (gg_round_up g n Hg Hn) as (i & En & Ei & Hi & Hni).
  destruct (GroupedGC_allocate_ok g s free live W i Hi n) as (r & s' & E & Hr); [lia|done|done|]. by exists i, r, s'.
Qed.

Lemma gg_run_wf s live : gg_run size s live -> exists free, gg_wf g s free live.
Proof.
  induction 1 as [|s live n p s' _ [free W] Hn E|s live n s' _ [free W] Hn E|s live collect s' _ [free W] Hk Hl E].
  - exists (fun _ => []). by apply GroupedGC_make_wf.
  - pose proof (alloc_bounds _ _ _ (gw_size _ _ _ _ W) E).
    destruct (gg_allocate_wf s free live n W) as (i & r & s2 & -> & _ & _ & E' & Hr); [lia|].
    rewrite E in E'. injection E' as <- <-. destruct Hr as [(_ & free' & W' & _) _]. by exists free'.
  - pose proof (alloc_bounds _ _ _ (gw_size _ _ _ _ W) E).
    destruct (gg_allocate_wf s free live n W) as (i & r & s2 & _ & _ & _ & E' & Hr); [lia|].
    rewrite E in E'. injection E' as <- <-. exists free. apply Hr.
  - destruct (gg_needGC s) eqn:Hneed.
    + destruct (GroupedGC_doGC_ok g collect s free live W Hk Hneed Hl) as (s2 & free' & E' & W' & _).
      rewrite E in E'. injection E' as <-. by exists free'.
    + unfold GroupedGC_doGC in E. rewrite Hneed in E. injection E as <-. by exists free.
Qed.
End Programs.

(** [C11] In a program that allocates blocks and runs collections, with chunks of at most
    131056 bytes, whatever its client marks among its blocks, the blocks in use share no
    byte: those given and not left unmarked in a full chunk. An allocation of
    [GroupedGC] of a positive size smaller than a chunk runs, or throws the exception of
    [new]; its block has at least the size asked and shares no byte with the blocks in
    use, and a chunk is asked only when the class has no free block and no chunk in its
    first use. A collection that is needed, with fewer than 5702886 chunks (the limit of the iterator of their tree), runs;
    after it the free list of each class is made of the blocks not marked of the full
    chunks of the class, once. *)
Theorem GroupedGC_safe `{HeapLaws} size s live : 0 < size <= 16 * (maxAllocatableIndex - 1) -> gg_run size s live ->
  separate live /\
  (forall n, 0 < n < gg_csize s -> let b := gg_round n in let i := Z.to_nat (b / 16) in n <= b /\
    exists r s', GroupedGC_allocate n s = Ret (r, s') /\
      match r with
      | Val p => p <> 0 /\ Forall (disj (p, b)) live /\
          (gg_chunks s' = gg_chunks s \/
           gg_free_list s !! i = Some 0 /\ gg_chunk_list s !! i = Some 0 /\ exists c, gg_chunks s' = c :: gg_chunks s)
      | Throw => gg_chunks s' = gg_chunks s
      end) /\
  (forall collect, gg_needGC s = true -> zlen (gg_chunks s) < ITER_LIMIT -> (forall a, a ∈ gg_marks collect [] -> a ∈ live.*1) ->
    exists s', GroupedGC_doGC collect s = Ret s' /\ gg_chunks s' = gg_chunks s /\ gg_needGC s' = false /\
      forall i, 0 <= i < maxAllocatableIndex -> exists p l, gg_free_list s' !! Z.to_nat i = Some p /\ chain (gg_next s') p l /\
        NoDup l /\ forall a, a ∈ l <-> gg_freed (gg_csize s / 16) s (gg_marks collect []) i a).
Proof.
  intros Hsize Hrun. destruct (gg_round_chunk size Hsize) as (g & Es & Hg).
  destruct (gg_run_wf size g Es Hg s live Hrun) as [free W]. split; [by eapply gg_separate|]. rewrite (gw_size _ _ _ _ W). split.
  - intros n Hn b i. destruct (gg_allocate_wf g Hg s free live n W Hn) as (k & r & s' & Ek & Hk & Hnk & E & Hr).
    assert (b = 16 * k) as Eb by done. assert (i = Z.to_nat k) as -> by (unfold i; rewrite Eb, Z.mul_comm, Z.div_mul; done).
    split; [lia|]. exists r, s'. split; [done|]. rewrite Eb. destruct r as [p|]; [|apply Hr].
    destruct Hr as [(Hp & free' & W' & _) Hgrow]. split; [done|]. split.
    + apply gg_separate, separate_cons_inv in W' as [? _]. done.
    + destruct Hgrow as [[? _]|(Ef & Hc & Hnew & _)]; [by left|right]. split; [|done].
      destruct (gw_free _ _ _ _ W k) as (q & Hq & Hl); [lia|]. rewrite Ef in Hl. cbn in Hl. by subst q.
  - intros collect Hneed Hk Hl. rewrite Z.mul_comm, Z.div_mul by done.
    destruct (GroupedGC_doGC_ok g collect s free live W Hk Hneed Hl) as (s' & free' & E & W' & Ec & En & Hfree).
    exists s'. split_and!; [done|done|done|]. intros i Hi. destruct (gw_free _ _ _ _ W' i Hi) as (p & Hp & Hc).
    exists p, (free' i). split_and!; [done|done|apply W'|apply Hfree].
Qed.

(** Chunks of one block of two granules: the second allocation adds a chunk. *)
Definition gg_after `{Heap} (n : Z) s : GroupedGC :=
  match GroupedGC_allocate n s with Ret (_, s') => s' | Crash _ => s end.
Definition gg_ex : GroupedGC := gg_after (H := bump_heap) 20 (gg_after (H := bump_heap) 20 (GroupedGC_make 32)).
Definition gg_ex_collect : collector (Z * Z) := Mark (56, 20) (fun _ => Done).

Lemma gg_ex_run : gg_run (H := bump_heap) 32 gg_ex [(136, 32); (56, 32)].
Proof.
  apply (gg_r_alloc (H := bump_heap) 32 (gg_after (H := bump_heap) 20 (GroupedGC_make 32)) [(56, 32)] 20 136);
    [|done|vm_compute; reflexivity].
  apply (gg_r_alloc (H := bump_heap) 32 (GroupedGC_make 32) [] 20 56); [constructor|done|vm_compute; reflexivity].
Qed.

Lemma GroupedGC_safe_witness :
  separate [(136, 32); (56, 32)] /\ gg_needGC gg_ex = true /\
  exists s', GroupedGC_doGC gg_ex_collect gg_ex = Ret s' /\ gg_chunks s' = gg_chunks gg_ex /\ gg_needGC s' = false.
Proof.
  destruct (GroupedGC_safe (H := bump_heap) 32 gg_ex [(136, 32); (56, 32)]) as (Hs & _ & Hgc).
  - done.
  - exact gg_ex_run.
  - split; [exact Hs|]. split; [vm_compute; reflexivity|].
    destruct (Hgc gg_ex_collect) as (s' & E & Ec & En & _); [vm_compute; reflexivity|vm_compute; reflexivity| |].
    2:{ exists s'. split; [exact E|]. split; [exact Ec|exact En]. }
    intros a Ha. vm_compute in Ha. apply list_elem_of_singleton in Ha as ->. by right; left.
Defined.

(** ** What goes wrong *)

(** The check of the class of a size lets the length of the tables pass. *)
Example GroupedGC_class_out :
  fst <$> GroupedGC_allocate (H := bump_heap) (16 * maxAllocatableIndex) (GroupedGC_make (16 * (maxAllocatableIndex + 1))) =
  Crash OutOfBounds.
Proof. vm_compute. reflexivity. Qed.

(** A block of size 0 divides by 0. *)
Example GroupedGC_allocate_0 :
  fst <$> GroupedGC_allocate (H := bump_heap) 0 (GroupedGC_make 64) = Crash Undefined.
Proof. vm_compute. reflexivity. Qed.

(** A block as big as a chunk is refused although it fits in it. *)
Example GroupedGC_allocate_chunk :
  fst <$> GroupedGC_allocate (H := bump_heap) 64 (GroupedGC_make 64) = Crash AssertFailed.
Proof. vm_compute. reflexivity. Qed.

(** [clear()] leaves the chunks it frees in the list and the tables: the next block is
    taken in one of them. *)
Example GroupedGC_clear_dangles :
  fst <$> (s ← GroupedGC_clear (gg_after (H := bump_heap) 20 (GroupedGC_make 64)); GroupedGC_allocate (H := bump_heap) 20 s) =
  Crash OutOfBounds.
Proof. vm_compute. reflexivity. Qed.
