(* ===== verification/JobSched.v ===== *)
(** * JobScheduler: jobs distributed over threads

    [JobScheduler] (sys_JobScheduler.cpp, sys/JobScheduler.h) as a transition system:
    [JobScheduler_run] is one step of the function [run()] of a thread,
    [JobScheduler_start] one step of the thread that called [start()] out of [run()]
    (it starts the others, runs as thread 0, then joins them), [JobScheduler_stop] the
    call of [stop()] by any thread, at any time. An execution interleaves these steps.
    The code of the client is a [JobProducer]: an interface with laws, that of
    [IteratorProducer] (a list of jobs) being one of its instances. The threads and
    the mutex of the system are modelled by the order of the steps and by the holder
    of the mutex. *)

From S2P Require Import Prelude.

(** ** Producers *)

(** [prod_next]: [next()], [None] being the null pointer; [prod_harvest]:
    [harvest()], with the message of the exception if it throws one. *)
(* src/include/elm/sys/JobScheduler.h:31-36 JobProducer *)
Class JobProducer (J P : Type) := {
  prod_next : P -> option (J * P);
  prod_harvest : P -> J -> P * option str }.

(** The jobs to come: the harvest of a job does not make new ones. *)
Class ProducerLaws J P `{JobProducer J P} := {
  pending : P -> list J;
  pending_next p : match prod_next p with
                   | Some (j, p') => pending p = j :: pending p'
                   | None => pending p = []
                   end;
  pending_harvest p j : pending (prod_harvest p j).1 = pending p }.

(** The harvest of the client of [IteratorProducer] is a parameter. *)
(* src/include/elm/sys/JobScheduler.h:38-47 IteratorProducer *)
Definition IteratorProducer_next {J} (i : list J) : option (J * list J) :=
  match i with [] => None | r :: i => Some (r, i) end.

Section IteratorProducer.
Context {J : Type} (harvest : J -> option str).
Definition IteratorProducer : JobProducer J (list J) := {|
  prod_next := IteratorProducer_next;
  prod_harvest := fun i j => (i, harvest j) |}.
#[export] Instance IteratorProducer_laws : ProducerLaws J (list J) (H := IteratorProducer).
Proof. by refine {| pending := fun i => i |}; [intros [|j i]|]. Defined.
End IteratorProducer.

(** ** State *)

(* src/include/elm/sys/JobScheduler.h:72-77 JobScheduler::state *)
Inductive js_state := WAIT | RUN | STOP | EXN.
#[export] Instance js_state_eq_dec : EqDecision js_state.
Proof. solve_decision. Defined.

(** Where a thread is in [run()]. *)
(* src/src/sys_JobScheduler.cpp:202-227 JobScheduler::run *)
Inductive pc (J : Type) :=
  | Idle                (* not started *)
  | Lock                (* mutex->lock() *)
  | Test                (* while(state == RUN) *)
  | Next                (* prod->next() *)
  | Got (j : J)         (* mutex->unlock() *)
  | Work (j : J)        (* job->run() *)
  | Relock (j : J)      (* mutex->lock() *)
  | Harvest (j : J)     (* prod->harvest(job) *)
  | Leave               (* mutex->unlock() *)
  | Finished.
Arguments Idle {J}. Arguments Lock {J}. Arguments Test {J}. Arguments Next {J}.
Arguments Got {J} _. Arguments Work {J} _. Arguments Relock {J} _. Arguments Harvest {J} _.
Arguments Leave {J}. Arguments Finished {J}.

(** Where the thread that called [start()] is; [Done] has the exception it throws. *)
(* src/src/sys_JobScheduler.cpp:158-188 JobScheduler::start *)
Inductive phase := Starting (i : nat) | Running | Joining (i : nat) | Done (r : option str).

#[export] Instance pc_finished_dec {J} (c : pc J) : Decision (c = Finished).
Proof. by destruct c; (left; done) || (right; done). Defined.

(** The fields of the scheduler, the mutex, the threads, and the history. *)
(* src/include/elm/sys/JobScheduler.h:68-78 JobScheduler *)
Record JobScheduler (J P : Type) := mkJS {
  js_prod : P; js_mutex : option nat; js_st : js_state; js_err : str;
  js_pcs : list (pc J); js_phase : phase;
  js_taken : list J; js_ran : list J; js_harvested : list J }.
Arguments mkJS {J P}. Arguments js_prod {J P}. Arguments js_mutex {J P}. Arguments js_st {J P}.
Arguments js_err {J P}. Arguments js_pcs {J P}. Arguments js_phase {J P}.
Arguments js_taken {J P}. Arguments js_ran {J P}. Arguments js_harvested {J P}.

Section JobScheduler.
Context {J P : Type} `{JobProducer J P}.
Abbreviation JS := (JobScheduler J P).

(** Thread [t] goes to [c], the mutex becomes [m]. *)
Definition go (t : nat) (c : pc J) (m : option nat) (s : JS) : JS :=
  mkJS (js_prod s) m (js_st s) (js_err s) (<[t := c]> (js_pcs s)) (js_phase s)
    (js_taken s) (js_ran s) (js_harvested s).
Definition set_phase (p : phase) (s : JS) : JS :=
  mkJS (js_prod s) (js_mutex s) (js_st s) (js_err s) (js_pcs s) p (js_taken s) (js_ran s) (js_harvested s).
Definition set_js (st : js_state) (s : JS) : JS :=
  mkJS (js_prod s) (js_mutex s) st (js_err s) (js_pcs s) (js_phase s) (js_taken s) (js_ran s) (js_harvested s).

(** The state when [start()] starts the threads: [cnt] counts the calling thread. *)
(* src/src/sys_JobScheduler.cpp:158-168 JobScheduler::start *)
Definition JobScheduler_init (p : P) (cnt : nat) : JS :=
  mkJS p None RUN [] (replicate cnt Idle) (Starting 1) [] [] [].

(** A step of thread [t] in [run()]; [None] when it is blocked, or has no step. *)
(* src/src/sys_JobScheduler.cpp:202-227 JobScheduler::run *)
Definition JobScheduler_run (t : nat) (s : JS) : option JS :=
  c ← js_pcs s !! t;
  match c with
  | Idle | Finished => None
  | Lock => match js_mutex s with None => Some (go t Test (Some t) s) | Some _ => None end
  | Test => Some (go t (if decide (js_st s = RUN) then Next else Leave) (js_mutex s) s)
  | Next =>
      match prod_next (js_prod s) with
      | None => Some (go t Leave (js_mutex s) s)
      | Some (job, p) =>
          Some (mkJS p (js_mutex s) (js_st s) (js_err s) (<[t := Got job]> (js_pcs s)) (js_phase s)
                  (js_taken s ++ [job]) (js_ran s) (js_harvested s))
      end
  | Got job => Some (go t (Work job) None s)
  | Work job =>
      Some (mkJS (js_prod s) (js_mutex s) (js_st s) (js_err s) (<[t := Relock job]> (js_pcs s))
              (js_phase s) (js_taken s) (js_ran s ++ [job]) (js_harvested s))
  | Relock job =>
      match js_mutex s with None => Some (go t (Harvest job) (Some t) s) | Some _ => None end
  | Harvest job =>
      let r := prod_harvest (js_prod s) job in
      Some (mkJS r.1 (js_mutex s)
              match r.2 with Some _ => EXN | None => js_st s end (default (js_err s) r.2)
              (<[t := match r.2 with Some _ => Leave | None => Test end]> (js_pcs s)) (js_phase s)
              (js_taken s) (js_ran s) (js_harvested s ++ [job]))
  | Leave => Some (go t Finished None s)
  end.

(** A step of [start()]: the threads are started, then [run()], then [join()]. *)
(* src/src/sys_JobScheduler.cpp:169-188 JobScheduler::start *)
Definition JobScheduler_start (s : JS) : option JS :=
  let cnt := length (js_pcs s) in
  match js_phase s with
  | Starting i =>
      if decide (i < cnt)%nat then Some (set_phase (Starting (S i)) (go i Lock (js_mutex s) s))
      else Some (set_phase Running (go 0 Lock (js_mutex s) s))
  | Running =>
      match js_pcs s !! 0%nat with Some Finished => Some (set_phase (Joining 1) s) | _ => None end
  | Joining i =>
      if decide (i < cnt)%nat then
        match js_pcs s !! i with Some Finished => Some (set_phase (Joining (S i)) s) | _ => None end
      else Some (set_phase (Done (if decide (js_st s = EXN) then Some (js_err s) else None)) (set_js WAIT s))
  | Done _ => None
  end.

(* src/src/sys_JobScheduler.cpp:194-196 JobScheduler::stop *)
Definition JobScheduler_stop (s : JS) : JS := set_js STOP s.

(** ** Executions *)

(** A step of the scheduler, and a call of [stop()] while it runs. *)
Inductive js_step : JS -> JS -> Prop :=
  | step_run t s s' : JobScheduler_run t s = Some s' -> js_step s s'
  | step_start s s' : JobScheduler_start s = Some s' -> js_step s s'.
Definition is_done (s : JS) : Prop := exists r, js_phase s = Done r.

(** [js_exec n k s s']: [n] steps and [k] calls of [stop()]. *)
Inductive js_exec : nat -> nat -> JS -> JS -> Prop :=
  | exec_refl s : js_exec 0 0 s s
  | exec_step n k s s1 s2 : js_exec n k s s1 -> js_step s1 s2 -> js_exec (S n) k s s2
  | exec_stop n k s s1 : js_exec n k s s1 -> ~ is_done s1 -> js_exec n (S k) s (JobScheduler_stop s1).

(** Executes a schedule: [Some t] is a step of [run()] by [t], [None] of [start()]. *)
Fixpoint js_schedule (l : list (option nat)) (s : JS) : option JS :=
  match l with
  | [] => Some s
  | Some t :: l => s' ← JobScheduler_run t s; js_schedule l s'
  | None :: l => s' ← JobScheduler_start s; js_schedule l s'
  end.

End JobScheduler.

(** ** What a step of a thread does *)

(** The thread holds the mutex; its job, if any; its job when it was run. *)
Definition holds {J} (c : pc J) : bool :=
  match c with Test | Next | Got _ | Harvest _ | Leave => true | _ => false end.
Definition job_of {J} (c : pc J) : list J :=
  match c with Got j | Work j | Relock j | Harvest j => [j] | _ => [] end.
Definition ran_of {J} (c : pc J) : list J :=
  match c with Relock j | Harvest j => [j] | _ => [] end.
(** The steps left before [run()] ends, when no job is taken. *)
Definition rank {J} (c : pc J) : nat :=
  match c with
  | Idle => 5 | Lock => 4 | Test => 3 | Next => 2 | Leave => 1 | Finished => 0
  | Got _ => 8 | Work _ => 7 | Relock _ => 6 | Harvest _ => 5
  end.

Section Facts.
Context {J P : Type} `{ProducerLaws J P}.
Abbreviation JS := (JobScheduler J P).

(** [new], [out]: the jobs taken and harvested by the step, [work] the one run. *)
Record run_facts (t : nat) (s s' : JS) (c c' : pc J) (new out work : list J) : Prop := {
  rf_at : js_pcs s !! t = Some c;
  rf_to : js_pcs s' = <[t := c']> (js_pcs s);
  rf_phase : js_phase s' = js_phase s;
  rf_not_idle : c <> Idle /\ c' <> Idle /\ c <> Finished;
  rf_mutex : js_mutex s' = if holds c' then (if holds c then js_mutex s else Some t)
                           else (if holds c then None else js_mutex s);
  rf_free : holds c = false -> holds c' = true -> js_mutex s = None;
  rf_taken : js_taken s' = js_taken s ++ new /\ pending (js_prod s) = new ++ pending (js_prod s');
  rf_jobs : js_harvested s' = js_harvested s ++ out /\ job_of c ++ new = out ++ job_of c';
  rf_ran : js_ran s' = js_ran s ++ work /\ ran_of c ++ work = out ++ ran_of c';
  rf_rank : (7 * length (pending (js_prod s')) + rank c' < 7 * length (pending (js_prod s)) + rank c)%nat;
  rf_state : js_st s' = js_st s \/ js_st s' = EXN;
  rf_leave : c' = Leave -> js_st s' = RUN -> pending (js_prod s') = [];
  rf_finish : c' = Finished -> c = Leave }.

Lemma run_step_facts t s s' : JobScheduler_run t s = Some s' ->
  exists c c' new out work, run_facts t s s' c c' new out work.
Proof.
  unfold JobScheduler_run. destruct (js_pcs s !! t) as [c|] eqn:Ec; [|done]. cbn [mbind option_bind].
  destruct c as [| | | |j|j|j|j| |]; try done.
  - destruct (js_mutex s) eqn:Em; [done|]. intros [= <-]. exists Lock, Test, [], [], [].
    split; cbn; rewrite ?app_nil_r; try done; try (by left); lia.
  - intros [= <-]. destruct (decide (js_st s = RUN)) as [E|E].
    + exists Test, Next, [], [], []. split; cbn; rewrite ?app_nil_r; try done; try (by left); lia.
    + exists Test, Leave, [], [], []. split; cbn; rewrite ?app_nil_r; try done; try (by left); lia.
  - pose proof (pending_next (js_prod s)) as Ep. destruct (prod_next (js_prod s)) as [[j p]|].
    + intros [= <-]. exists Next, (Got j), [j], [], [].
      split; cbn; rewrite ?app_nil_r, ?Ep; try done; try (by left); cbn; lia.
    + intros [= <-]. exists Next, Leave, [], [], [].
      split; cbn; rewrite ?app_nil_r, ?Ep; try done; try (by left); cbn; lia.
  - intros [= <-]. exists (Got j), (Work j), [], [], [].
    split; cbn; rewrite ?app_nil_r; try done; try (by left); lia.
  - intros [= <-]. exists (Work j), (Relock j), [], [], [j].
    split; cbn; rewrite ?app_nil_r; try done; try (by left); lia.
  - destruct (js_mutex s) eqn:Em; [done|]. intros [= <-]. exists (Relock j), (Harvest j), [], [], [].
    split; cbn; rewrite ?app_nil_r; try done; try (by left); lia.
  - intros [= <-]. pose proof (pending_harvest (js_prod s) j) as Ep.
    destruct (prod_harvest (js_prod s) j) as [p [e|]]; cbn [fst snd] in *.
    + exists (Harvest j), Leave, [], [j], [].
      split; cbn; rewrite ?app_nil_r, ?Ep; try done; try (by right); lia.
    + exists (Harvest j), Test, [], [j], [].
      split; cbn; rewrite ?app_nil_r, ?Ep; try done; try (by left); lia.
  - intros [= <-]. exists Leave, Finished, [], [], [].
    split; cbn; rewrite ?app_nil_r; try done; try (by left); lia.
Qed.

End Facts.

(** ** Invariant *)

(** The jobs that the threads hold. *)
Definition held {J} (f : pc J -> list J) (l : list (pc J)) : list J := mjoin (f <$> l).

Lemma held_insert {J} (f : pc J -> list J) l t c c' : l !! t = Some c ->
  held f (<[t := c']> l) ++ f c ≡ₚ held f l ++ f c'.
Proof.
  intros E. rewrite <- (take_drop_middle l t c E), insert_app_r_alt
    by (rewrite length_take; apply lookup_lt_Some in E; lia).
  replace (t - _)%nat with 0%nat by (rewrite length_take; apply lookup_lt_Some in E; lia).
  unfold held. cbn. rewrite !fmap_app, !join_app. cbn. solve_Permutation.
Qed.
Lemma held_none {J} (f : pc J -> list J) l : Forall (fun c => f c = []) l -> held f l = [].
Proof. unfold held. induction 1 as [|c l E _ IH]; [done|]. cbn. by rewrite E. Qed.

Ltac js_cbn := cbn [js_prod js_mutex js_st js_err js_pcs js_phase js_taken js_ran js_harvested go
  set_phase set_js JobScheduler_init JobScheduler_stop app length].

Section Invariant.
Context {J P : Type} `{ProducerLaws J P}.
Abbreviation JS := (JobScheduler J P).

Definition phase_inv (l : list (pc J)) (p : phase) : Prop :=
  match p with
  | Starting i => (1 <= i <= length l)%nat /\ l !! 0%nat = Some Idle /\
      forall t c, l !! t = Some c -> (t <> 0 -> c = Idle <-> (i <= t)%nat)%nat
  | Running => forall t c, l !! t = Some c -> c <> Idle
  | Joining i => (i <= length l)%nat /\ (forall t c, l !! t = Some c -> c <> Idle) /\
      forall t c, l !! t = Some c -> (t < i)%nat -> c = Finished
  | Done _ => forall t c, l !! t = Some c -> c = Finished
  end.

(** After [k] calls of [stop()], when the producer had the jobs [jobs]. *)
Record js_inv (k : nat) (jobs : list J) (s : JS) : Prop := {
  iv_mutex t c : js_pcs s !! t = Some c -> holds c = true <-> js_mutex s = Some t;
  iv_holder t : js_mutex s = Some t -> (t < length (js_pcs s))%nat;
  iv_jobs : js_taken s ++ pending (js_prod s) = jobs;
  iv_taken : js_taken s ≡ₚ js_harvested s ++ held job_of (js_pcs s);
  iv_ran : js_ran s ≡ₚ js_harvested s ++ held ran_of (js_pcs s);
  iv_phase : (0 < length (js_pcs s))%nat /\ phase_inv (js_pcs s) (js_phase s);
  iv_wait : js_st s = WAIT -> is_done s;
  iv_stop : k = 0%nat -> js_st s <> STOP;
  iv_ended t c : js_st s = RUN -> js_pcs s !! t = Some c -> c = Leave \/ c = Finished ->
    pending (js_prod s) = [];
  iv_done : k = 0%nat -> js_phase s = Done None -> pending (js_prod s) = [] }.

Lemma init_inv p cnt : (0 < cnt)%nat -> js_inv 0 (pending p) (JobScheduler_init p cnt).
Proof.
  intros Hc. assert (forall t c, replicate cnt (@Idle J) !! t = Some c -> c = Idle) as R.
  { intros t c [-> _]%lookup_replicate. done. }
  split; js_cbn; try done.
  - intros t c ->%R. done.
  - symmetry. rewrite held_none; [done|]. by apply Forall_replicate.
  - symmetry. rewrite held_none; [done|]. by apply Forall_replicate.
  - rewrite length_replicate. split; [done|]. cbn. rewrite length_replicate. split; [lia|]. split; [by apply lookup_replicate|].
    intros t c ->%R Ht. split; [lia|done].
  - intros t c _ ->%R [?|?]; done.
Qed.

Lemma stop_inv k jobs s : js_inv k jobs s -> ~ is_done s -> js_inv (S k) jobs (JobScheduler_stop s).
Proof. intros W Hd. destruct W. split; cbn; try done. Qed.

Section Step.
Context (k : nat) (jobs : list J) (s s' : JS) (W : js_inv k jobs s).

(** One thread moves, the mutex being given or taken accordingly. *)
Lemma move_mutex t (c c' : pc J) m : js_pcs s !! t = Some c ->
  (holds c = false -> holds c' = true -> js_mutex s = None) ->
  m = (if holds c' then (if holds c then js_mutex s else Some t)
       else (if holds c then None else js_mutex s)) ->
  forall u d, <[t := c']> (js_pcs s) !! u = Some d -> holds d = true <-> m = Some u.
Proof.
  intros Ec Hf -> u d Hu. pose proof (iv_mutex _ _ _ W t c Ec) as Ht.
  destruct (decide (u = t)) as [->|Hne].
  - rewrite list_lookup_insert_eq in Hu by (by eapply lookup_lt_Some). injection Hu as <-.
    destruct (holds c'), (holds c); naive_solver.
  - rewrite list_lookup_insert_ne in Hu by done. pose proof (iv_mutex _ _ _ W u d Hu) as Hu'.
    destruct (holds c'), (holds c), (holds d); naive_solver congruence.
Qed.

Lemma run_phase t c c' new out work : run_facts t s s' c c' new out work ->
  phase_inv (js_pcs s') (js_phase s').
Proof.
  intros F. rewrite (rf_phase _ _ _ _ _ _ _ _ F), (rf_to _ _ _ _ _ _ _ _ F).
  pose proof (rf_at _ _ _ _ _ _ _ _ F) as Ec. pose proof (iv_phase _ _ _ W) as [_ Hp].
  destruct (rf_not_idle _ _ _ _ _ _ _ _ F) as (N1 & N2 & N3).
  assert (forall u d, <[t := c']> (js_pcs s) !! u = Some d ->
    d = c' /\ u = t \/ u <> t /\ js_pcs s !! u = Some d) as Hu.
  { intros u d Hu. destruct (decide (u = t)) as [->|Hne].
    - rewrite list_lookup_insert_eq in Hu by (by eapply lookup_lt_Some). injection Hu as <-. by left.
    - rewrite list_lookup_insert_ne in Hu by done. by right. }
  destruct (js_phase s) as [i| |i|r]; cbn in *; rewrite ?length_insert.
  - destruct Hp as (H1 & H2 & H3). split; [done|]. assert (t <> 0%nat) by congruence.
    split; [by rewrite list_lookup_insert_ne|]. intros u d [[-> ->]|[Hn Hd]]%Hu Hz; [|by apply H3].
    specialize (H3 t c Ec Hz). naive_solver.
  - intros u d [[-> ->]|[Hn Hd]]%Hu; [done|by eapply Hp].
  - destruct Hp as (H1 & H2 & H3). split; [done|].
    split; [intros u d [[-> ->]|[Hn Hd]]%Hu; [done|by eapply H2]|].
    intros u d [[-> ->]|[Hn Hd]]%Hu Hl; [by specialize (H3 t c Ec Hl)|by eapply H3].
  - by specialize (Hp t c Ec).
Qed.

Lemma run_inv t : JobScheduler_run t s = Some s' -> js_inv k jobs s'.
Proof.
  intros E. apply run_step_facts in E as (c & c' & new & out & work & F).
  pose proof (run_phase t c c' new out work F) as Hp. pose proof (iv_phase _ _ _ W) as [Hl _].
  destruct F as [Ec Et Eph (N1 & N2 & N3) Em Hfree [T1 T2] [J1 J2] [R1 R2] _ Hst Hlv Hfin].
  assert (js_phase s <> Done None) as ND.
  { intros D. destruct (iv_phase _ _ _ W) as [_ X]. rewrite D in X. by apply X in Ec. }
  split.
  - rewrite Et. by apply (move_mutex t c c').
  - rewrite Et, length_insert. intros u Hu. rewrite Em in Hu.
    pose proof (lookup_lt_Some _ _ _ Ec). pose proof (iv_holder _ _ _ W u).
    destruct (holds c'), (holds c); naive_solver.
  - rewrite T1, <- app_assoc, <- T2. apply W.
  - rewrite T1, J1, (iv_taken _ _ _ W), Et. pose proof (held_insert job_of (js_pcs s) t c c' Ec) as Hh.
    apply (Permutation_app_inv_r (job_of c)). rewrite <- !app_assoc, Hh.
    rewrite (Permutation_app_comm new (job_of c)), J2. solve_Permutation.
  - rewrite R1, J1, (iv_ran _ _ _ W), Et. pose proof (held_insert ran_of (js_pcs s) t c c' Ec) as Hh.
    apply (Permutation_app_inv_r (ran_of c)). rewrite <- !app_assoc, Hh.
    rewrite (Permutation_app_comm work (ran_of c)), R2. solve_Permutation.
  - split; [by rewrite Et, length_insert|done].
  - intros E. unfold is_done. rewrite Eph. apply W. destruct Hst; congruence.
  - intros Hk. destruct Hst as [-> | ->]; [by apply W|done].
  - intros u d E Hu Hd. assert (js_st s = RUN) as Es by (destruct Hst; congruence).
    assert (pending (js_prod s) = [] -> pending (js_prod s') = []) as Hmono.
    { intros E0. rewrite T2 in E0. by destruct new. }
    rewrite Et in Hu. destruct (decide (u = t)) as [->|Hne].
    + rewrite list_lookup_insert_eq in Hu by (by eapply lookup_lt_Some). injection Hu as <-.
      destruct Hd as [->| ->]; [by apply Hlv|]. apply Hmono, (iv_ended _ _ _ W t c Es Ec). left. by apply Hfin.
    + rewrite list_lookup_insert_ne in Hu by done. by apply Hmono, (iv_ended _ _ _ W u d Es Hu).
  - rewrite Eph. done.
Qed.

(** A thread that is not started becomes ready. *)
Lemma wake_inv i ph : js_pcs s !! i = Some Idle -> ~ is_done s ->
  phase_inv (<[i := Lock]> (js_pcs s)) ph -> (forall r, ph <> Done r) ->
  js_inv k jobs (set_phase ph (go i Lock (js_mutex s) s)).
Proof.
  intros Ei Hd Hp Hph. pose proof (iv_phase _ _ _ W) as [Hl _]. split; js_cbn; try apply W.
  - by apply (move_mutex i Idle Lock).
  - rewrite length_insert. apply W.
  - rewrite (iv_taken _ _ _ W). f_equiv. pose proof (held_insert job_of (js_pcs s) i Idle Lock Ei) as Hh.
    cbn in Hh. rewrite !app_nil_r in Hh. done.
  - rewrite (iv_ran _ _ _ W). f_equiv. pose proof (held_insert ran_of (js_pcs s) i Idle Lock Ei) as Hh.
    cbn in Hh. rewrite !app_nil_r in Hh. done.
  - by rewrite length_insert.
  - intros E. by apply (iv_wait _ _ _ W) in E.
  - intros u d E Hu Hdd. destruct (decide (u = i)) as [->|Hne].
    + rewrite list_lookup_insert_eq in Hu by (by eapply lookup_lt_Some). injection Hu as <-. by destruct Hdd.
    + rewrite list_lookup_insert_ne in Hu by done. by apply (iv_ended _ _ _ W u d).
  - intros _ E. by destruct (Hph None).
Qed.

(** Nothing but the phase changes. *)
Lemma phase_only ph : ~ is_done s -> phase_inv (js_pcs s) ph -> (forall r, ph <> Done r) ->
  js_inv k jobs (set_phase ph s).
Proof.
  intros Hd Hp Hph. pose proof (iv_phase _ _ _ W) as [Hl _]. split; js_cbn; try apply W; try done.
  - intros E. by apply (iv_wait _ _ _ W) in E.
  - intros _ E. by destruct (Hph None).
Qed.

Lemma start_inv : JobScheduler_start s = Some s' -> js_inv k jobs s'.
Proof.
  unfold JobScheduler_start. pose proof (iv_phase _ _ _ W) as [Hl Hp].
  destruct (js_phase s) as [i| |i|r] eqn:Eph; cbn [phase_inv] in Hp; [| | |done].
  1-3: assert (~ is_done s) as Hd by (intros [r Er]; congruence).
  - destruct Hp as (H1 & H2 & H3). case_decide as Hi; intros [= <-].
    + destruct (lookup_lt_is_Some_2 (js_pcs s) i Hi) as [c Ec].
      assert (c = Idle) as -> by (apply (H3 i c Ec); lia).
      apply wake_inv; [done|done| |done]. cbn. rewrite length_insert.
      split; [lia|]. split; [by rewrite list_lookup_insert_ne by lia|].
      intros t c Ht Hz. destruct (decide (t = i)) as [->|Hne].
      * rewrite list_lookup_insert_eq in Ht by done. injection Ht as <-. split; [done|lia].
      * rewrite list_lookup_insert_ne in Ht by done. rewrite (H3 t c Ht Hz). lia.
    + apply wake_inv; [done|done| |done]. intros t c Ht. destruct (decide (t = 0%nat)) as [->|Hne].
      * rewrite list_lookup_insert_eq in Ht by done. by injection Ht as <-.
      * rewrite list_lookup_insert_ne in Ht by done. rewrite (H3 t c Ht Hne).
        apply lookup_lt_Some in Ht. lia.
  - destruct (js_pcs s !! 0%nat) as [c|] eqn:E0; [|done]. destruct c; try done. intros [= <-].
    apply phase_only; [done| |done]. cbn. split; [lia|]. split; [done|].
    intros t c Ht Ht1. assert (t = 0%nat) as -> by lia. congruence.
  - destruct Hp as (H1 & H2 & H3). case_decide as Hi.
    + destruct (js_pcs s !! i) as [c|] eqn:E0; [|done]. destruct c; try done. intros [= <-].
      apply phase_only; [done| |done]. cbn. split; [lia|]. split; [done|].
      intros t c Ht Ht1. destruct (decide (t = i)) as [->|]; [congruence|]. apply (H3 t c Ht). lia.
    + intros [= <-].
      assert (forall t c, js_pcs s !! t = Some c -> c = Finished) as Hf.
      { intros t c Ht. apply (H3 t c Ht). apply lookup_lt_Some in Ht. lia. }
      split; js_cbn; try apply W; try done.
      * intros _. by eexists.
      * intros Hk. case_decide as Ee; [done|]. intros _.
        destruct (lookup_lt_is_Some_2 (js_pcs s) 0 Hl) as [c Ec].
        apply (iv_ended _ _ _ W 0 c); [|done|right; by apply (Hf 0%nat)].
        pose proof (iv_stop _ _ _ W Hk). pose proof (iv_wait _ _ _ W).
        destruct (js_st s); naive_solver.
Qed.

End Step.

Lemma exec_inv p cnt n k s : (0 < cnt)%nat -> js_exec n k (JobScheduler_init p cnt) s ->
  js_inv k (pending p) s.
Proof.
  intros Hc X. remember (JobScheduler_init p cnt) as s0 eqn:E0.
  induction X as [|n k s s1 s2 X IH St|n k s s1 X IH Hd]; subst.
  - by apply init_inv.
  - specialize (IH eq_refl). destruct St as [t s1 s2 Hs|s1 s2 Hs]; [by eapply run_inv|by eapply start_inv].
  - by apply stop_inv; [apply IH|].
Qed.

End Invariant.

(** ** Progress and termination *)

Section Progress.
Context {J P : Type} `{ProducerLaws J P}.
Abbreviation JS := (JobScheduler J P).

Definition phase_rank (cnt : nat) (p : phase) : nat :=
  match p with
  | Starting i => cnt - i + cnt + 3 | Running => cnt + 2 | Joining i => cnt - i + 1 | Done _ => 0
  end.
(** A bound of the number of steps left. *)
Definition steps_left (s : JS) : nat :=
  7 * length (pending (js_prod s)) + sum_list_with rank (js_pcs s)
  + phase_rank (length (js_pcs s)) (js_phase s).

Lemma rank_insert (l : list (pc J)) t c c' : l !! t = Some c ->
  (sum_list_with rank (<[t := c']> l) + rank c = sum_list_with rank l + rank c')%nat.
Proof.
  revert t. induction l as [|d l IH]; intros [|t] E; simpl in *; [done|done| |].
  - injection E as ->. lia.
  - specialize (IH t E). lia.
Qed.

Lemma step_decreases k jobs s s' : js_inv k jobs s -> js_step s s' -> (steps_left s' < steps_left s)%nat.
Proof.
  intros W St. unfold steps_left. destruct St as [t s s' E|s s' E].
  - apply run_step_facts in E as (c & c' & new & out & work & F).
    destruct F as [Ec Et Eph _ _ _ _ _ _ Hr _ _ _]. rewrite Et, Eph, length_insert.
    pose proof (rank_insert _ _ _ c' Ec). lia.
  - unfold JobScheduler_start in E. pose proof (iv_phase _ _ _ W) as [Hl Hp].
    destruct (js_phase s) as [i| |i|r] eqn:Eph; cbn [phase_inv] in Hp; [| | |done].
    + destruct Hp as (H1 & H2 & H3). case_decide as Hi; injection E as <-; js_cbn; rewrite length_insert.
      * destruct (lookup_lt_is_Some_2 (js_pcs s) i Hi) as [c Ec].
        assert (c = Idle) as -> by (apply (H3 i c Ec); lia).
        pose proof (rank_insert _ _ _ Lock Ec) as Hr. cbn in *. lia.
      * pose proof (rank_insert _ _ _ Lock H2) as Hr. cbn in *. lia.
    + destruct (js_pcs s !! 0%nat) as [c|]; [destruct c|]; try done. injection E as <-. js_cbn. cbn. lia.
    + case_decide; [destruct (js_pcs s !! i) as [c|]; [destruct c|]; try done|]; injection E as <-; js_cbn; cbn; lia.
Qed.

(** A thread that is neither idle nor finished moves, unless it waits for the mutex. *)
Lemma run_enabled t c s : js_pcs s !! t = Some c -> c <> Idle -> c <> Finished ->
  holds c = true \/ js_mutex s = None -> exists s', JobScheduler_run t s = Some s'.
Proof.
  intros Ec N1 N2 Hm. unfold JobScheduler_run. rewrite Ec. cbn [mbind option_bind].
  destruct c; try done; try (by eexists).
  - destruct Hm as [| ->]; [done|by eexists].
  - destruct (prod_next _) as [[j p]|]; by eexists.
  - destruct Hm as [| ->]; [done|by eexists].
Qed.

(** Some thread moves as soon as one has work to do. *)
Lemma someone_moves k jobs s t c : js_inv k jobs s -> js_pcs s !! t = Some c ->
  c <> Idle -> c <> Finished -> exists s', js_step s s'.
Proof.
  intros W Ec N1 N2. destruct (js_mutex s) as [u|] eqn:Em.
  - destruct (lookup_lt_is_Some_2 (js_pcs s) u) as [d Ed]; [by eapply iv_holder|].
    assert (holds d = true) as Hd by by apply (iv_mutex _ _ _ W u d Ed).
    destruct (run_enabled u d s Ed) as [s' Es]; [by intros ->|by intros ->|by left|].
    exists s'. by eapply step_run.
  - destruct (run_enabled t c s Ec N1 N2) as [s' Es]; [by right|]. exists s'. by eapply step_run.
Qed.

Lemma progress k jobs s : js_inv k jobs s -> ~ is_done s -> exists s', js_step s s'.
Proof.
  intros W Hd. pose proof (iv_phase _ _ _ W) as [Hl Hp].
  assert (forall s', JobScheduler_start s = Some s' -> exists s', js_step s s') as St
    by (intros s' E; exists s'; by apply step_start).
  unfold JobScheduler_start in St. destruct (js_phase s) as [i| |i|r] eqn:Eph; cbn [phase_inv] in Hp.
  - case_decide; by eapply St.
  - destruct (lookup_lt_is_Some_2 (js_pcs s) 0 Hl) as [c Ec]. rewrite Ec in St.
    destruct (decide (c = Finished)) as [->|Hc]; [by eapply St|].
    apply (someone_moves k jobs s 0 c W Ec); [by apply (Hp 0%nat)|done].
  - destruct Hp as (_ & Hp & _). case_decide as Hi; [|by eapply St].
    destruct (lookup_lt_is_Some_2 (js_pcs s) i Hi) as [c Ec]. rewrite Ec in St.
    destruct (decide (c = Finished)) as [->|Hc]; [by eapply St|].
    apply (someone_moves k jobs s i c W Ec); [by apply (Hp i)|done].
  - destruct Hd. by eexists.
Qed.

Lemma exec_bound p cnt n k s : (0 < cnt)%nat -> js_exec n k (JobScheduler_init p cnt) s ->
  (n + steps_left s <= 7 * length (pending p) + 7 * cnt + 2)%nat.
Proof.
  intros Hc X. remember (JobScheduler_init p cnt) as s0 eqn:E0.
  induction X as [s|n k s s1 s2 X IH St|n k s s1 X IH Hd]; subst.
  - unfold steps_left. js_cbn. rewrite length_replicate. cbn [phase_rank].
    assert (sum_list_with rank (replicate cnt (@Idle J)) = 5 * cnt)%nat as ->; [|lia].
    clear. induction cnt; cbn in *; lia.
  - specialize (IH eq_refl). pose proof (step_decreases k _ _ _ (exec_inv p cnt n k s1 Hc X) St). lia.
  - specialize (IH eq_refl). unfold steps_left in *. js_cbn. lia.
Qed.

Lemma schedule_exec l (s s' : JS) n k s0 : js_exec n k s0 s -> js_schedule l s = Some s' ->
  js_exec (length l + n) k s0 s'.
Proof.
  revert n s. induction l as [|[t|] l IH]; intros n s X E; cbn in E; [by injection E as <-|..].
  - destruct (JobScheduler_run t s) as [s1|] eqn:E1; [|done]. cbn. rewrite <- Nat.add_succ_r.
    apply (IH (S n) s1); [|done]. eapply exec_step; [done|by eapply step_run].
  - destruct (JobScheduler_start s) as [s1|] eqn:E1; [|done]. cbn. rewrite <- Nat.add_succ_r.
    apply (IH (S n) s1); [|done]. eapply exec_step; [done|by apply step_start].
Qed.

End Progress.

(** ** Theorems *)

(** [C8] Safety of the job scheduler.
    In every execution, at most one thread is in the critical section, in which the
    producer is called; the jobs are taken in the order of the producer; each job
    taken is run once and harvested once, or is still held by one thread. When
    [start()] ends, all threads have ended, every job taken was run and harvested,
    and if it does not throw and [stop()] was never called, every job was. *)
Theorem JobScheduler_safe {J P} `{ProducerLaws J P} (p : P) cnt n k (s : JobScheduler J P) :
  (0 < cnt)%nat -> js_exec n k (JobScheduler_init p cnt) s ->
  (forall t u c d, js_pcs s !! t = Some c -> js_pcs s !! u = Some d ->
     holds c = true -> holds d = true -> t = u) /\
  js_taken s ++ pending (js_prod s) = pending p /\
  js_taken s ≡ₚ js_harvested s ++ held job_of (js_pcs s) /\
  js_ran s ≡ₚ js_harvested s ++ held ran_of (js_pcs s) /\
  forall r, js_phase s = Done r ->
    (forall t c, js_pcs s !! t = Some c -> c = Finished) /\
    js_ran s ≡ₚ js_taken s /\ js_harvested s ≡ₚ js_taken s /\
    (r = None -> k = 0%nat -> js_harvested s ≡ₚ pending p).
Proof.
  intros Hc X. pose proof (exec_inv p cnt n k s Hc X) as W. split; [|split; [|split; [|split]]].
  - intros t u c d Ht Hu Hc' Hd. apply (iv_mutex _ _ _ W t c Ht) in Hc'.
    apply (iv_mutex _ _ _ W u d Hu) in Hd. congruence.
  - apply W.
  - apply W.
  - apply W.
  - intros r Er. pose proof (iv_phase _ _ _ W) as [_ Hp]. rewrite Er in Hp. cbn in Hp.
    assert (forall f : pc J -> list J, f Finished = [] -> held f (js_pcs s) = []) as Hh.
    { intros f Hf. apply held_none, Forall_lookup. intros t c Ht. by rewrite (Hp t c Ht). }
    pose proof (iv_taken _ _ _ W) as Et. pose proof (iv_ran _ _ _ W) as Ew.
    rewrite Hh, app_nil_r in Et, Ew by done. split; [done|]. rewrite Et.
    split; [done|]. split; [done|]. intros -> Hk.
    rewrite <- (iv_jobs _ _ _ W), (iv_done _ _ _ W Hk Er), app_nil_r. by symmetry.
Qed.

(** [C17] Termination of the job scheduler.
    An execution has at most 7 steps by job, 7 by thread and 2 more, whatever the calls
    of [stop()], and never blocks: as long as [start()] has not ended, some thread has a
    step to do. *)
Theorem JobScheduler_terminates {J P} `{ProducerLaws J P} (p : P) cnt n k (s : JobScheduler J P) :
  (0 < cnt)%nat -> js_exec n k (JobScheduler_init p cnt) s ->
  (n <= 7 * length (pending p) + 7 * cnt + 2)%nat /\
  (is_done s \/ exists s', js_step s s').
Proof.
  intros Hc X. split; [pose proof (exec_bound p cnt n k s Hc X); lia|].
  destruct (js_phase s) as [| | |r] eqn:E; [right..|by left; exists r];
    apply (progress k (pending p)); try (by eapply exec_inv); intros [r Er]; congruence.
Qed.

(** Two threads and two jobs. *)
Definition two_jobs : list (option nat) :=
  [None; None] ++ replicate 4 (Some 1%nat) ++ replicate 4 (Some 0%nat) ++
  [Some 1%nat; Some 1%nat; Some 1%nat; Some 1%nat; Some 1%nat; Some 1%nat;
   Some 0%nat; Some 0%nat; Some 0%nat; Some 0%nat; Some 0%nat; Some 0%nat; None; None; None].
Definition two_jobs_end : JobScheduler Z (list Z) :=
  mkJS [] None WAIT [] [Finished; Finished] (Done None) [1; 2] [1; 2] [1; 2].
Lemma two_jobs_exec : exists n, js_exec n 0 (H := IteratorProducer (fun _ => None))
  (JobScheduler_init [1; 2] 2) two_jobs_end.
Proof.
  eexists. eapply (schedule_exec (H := IteratorProducer (fun _ => None)) two_jobs); [apply exec_refl|].
  vm_compute. reflexivity.
Qed.

Lemma JobScheduler_safe_witness :
  js_phase two_jobs_end = Done None /\ js_harvested two_jobs_end ≡ₚ [1; 2].
Proof.
  split; [done|]. destruct two_jobs_exec as [n X].
  destruct (JobScheduler_safe (H := IteratorProducer (fun _ => None)) [1; 2] 2 n 0 two_jobs_end
    ltac:(lia) X) as (_ & _ & _ & _ & D).
  by apply (D None).
Defined.

Lemma JobScheduler_terminates_witness :
  exists n, js_exec n 0 (H := IteratorProducer (fun _ => None)) (JobScheduler_init [1; 2] 2) two_jobs_end /\
    (n <= 30)%nat.
Proof.
  destruct two_jobs_exec as [n X]. exists n. split; [exact X|].
  apply (JobScheduler_terminates (H := IteratorProducer (fun _ => None)) [1; 2] 2 n 0 two_jobs_end ltac:(lia) X).
Defined.

(** *** What the code does not handle *)

(** An exception thrown by a harvest is lost when [stop()] is called after it. *)
Example exception_lost :
  (s ← js_schedule (H := IteratorProducer (fun _ => Some [69])) (None :: replicate 7 (Some 0%nat))
         (JobScheduler_init [1; 2] 1);
   s' ← js_schedule (H := IteratorProducer (fun _ => Some [69])) [Some 0%nat; None; None]
          (JobScheduler_stop s);
   Some (js_st s, js_err s, js_phase s')) = Some (EXN, [69], Done None).
Proof. vm_compute. reflexivity. Qed.
