(* ===== verification/Path.v ===== *)
(** * Paths

    [sys::Path] (system_Path.cpp, sys/Path.h) on Unix: a path is a text; the functions
    that look for separators, cut and join paths. Substrings are checked, as a string
    only gives the characters it has. What the system tells ([getcwd()], [$HOME]) is a
    parameter; the functions that only call it are left out. *)

From stdpp Require Import list.
From S2P Require Import Prelude TextOps.
#[local] Open Scope Z_scope.

(** ** The class *)

(* src/include/elm/sys/Path.h:40-40 Path::SEPARATOR *)
Definition SEPARATOR : Z := ch "/".
(* src/include/elm/sys/Path.h:41-41 Path::PATH_SEPARATOR *)
Definition PATH_SEPARATOR : Z := ch ":".
(* src/include/elm/sys/Path.h:42-42 Path::isSeparator *)
Definition isSeparator (c : Z) : bool := c =? SEPARATOR.
(* src/src/system_Path.cpp:105-105 Path::BACK_PATH *)
Definition BACK_PATH : str := text "..".

(* src/src/system_Path.cpp:69-74 Path::nextSeparator *)
Definition Path_nextSeparator (buf : str) (start : Z) : outcome Z := index_of SEPARATOR buf start.
(* src/src/system_Path.cpp:81-86 Path::lastSeparator *)
Definition Path_lastSeparator (buf : str) : outcome Z := last_index_of SEPARATOR buf.

(* src/src/system_Path.cpp:274-280 Path::isAbsolute *)
Definition Path_isAbsolute (buf : str) : bool :=
  match buf with c :: _ => c =? SEPARATOR | [] => false end.
(* src/src/system_Path.cpp:294-296 Path::isRelative *)
Definition Path_isRelative (buf : str) : bool := negb (Path_isAbsolute buf).
(* src/src/system_Path.cpp:303-309 Path::isHomeRelative *)
Definition Path_isHomeRelative (buf : str) : bool :=
  match buf with c :: _ => c =? ch "~" | [] => false end.

(* src/src/system_Path.cpp:211-221 Path::append *)
Definition Path_append (buf path : str) : str :=
  if bool_decide (buf = []) then path
  else if bool_decide (path = []) then buf
  else buf ++ [SEPARATOR] ++ path.

(* src/src/system_Path.cpp:228-234 Path::parent *)
Definition Path_parent (buf : str) : outcome str :=
  pos ← Path_lastSeparator buf;
  if pos <? 0 then Ret (text ".") else substring buf 0 pos.
(* src/src/system_Path.cpp:248-254 Path::namePart *)
Definition Path_namePart (buf : str) : outcome str :=
  pos ← Path_lastSeparator buf;
  if pos <? 0 then Ret buf else substring_from buf (pos + 1).
(* src/src/system_Path.cpp:261-267 Path::dirPart *)
Definition Path_dirPart (buf : str) : outcome str :=
  pos ← Path_lastSeparator buf;
  if pos <? 0 then Ret [] else substring buf 0 pos.

(* src/src/system_Path.cpp:481-488 Path::basePart *)
Definition Path_basePart (buf : str) : outcome str :=
  lsep ← Path_lastSeparator buf;
  pos ← last_index_of (ch ".") buf;
  if pos <=? lsep then Ret buf else substring buf 0 pos.
(* src/src/system_Path.cpp:535-542 Path::withoutExt *)
Definition Path_withoutExt : str -> outcome str := Path_basePart.
(* src/src/system_Path.cpp:495-502 Path::extension *)
Definition Path_extension (buf : str) : outcome str :=
  lsep ← Path_lastSeparator buf;
  pos ← last_index_of (ch ".") buf;
  if pos <=? lsep then Ret [] else substring_from buf (pos + 1).
(* src/src/system_Path.cpp:510-520 Path::setExtension *)
Definition Path_setExtension (buf new_extension : str) : outcome str :=
  lsep ← Path_lastSeparator buf;
  pos ← last_index_of (ch ".") buf;
  base ← (if pos <=? lsep then Ret buf else substring buf 0 pos);
  Ret (base ++ [ch "."] ++ new_extension).

(* src/include/elm/sys/Path.h:73-73 Path::subPathOf *)
Definition Path_subPathOf (buf path : str) : bool := starts_with buf path.
(* src/include/elm/sys/Path.h:74-75 Path::isPrefixOf *)
Definition Path_isPrefixOf (buf path : str) : outcome bool :=
  if starts_with path buf then
    if zlen path =? zlen buf then Ret true
    else c ← rd path (zlen buf); Ret (c =? SEPARATOR)
  else Ret false.

(** The body of its loop, on [r] and [base]. *)
(* src/src/system_Path.cpp:118-121 Path::relativeTo *)
Definition relativeTo_step (buf : str) : str * str -> outcome (str * str + str * str) := fun '(r, base) =>
  if bool_decide (base = []) then Ret (inr (r, base)) else
  b ← Path_isPrefixOf base buf;
  if b : bool then Ret (inr (r, base))
  else base' ← Path_parent base; Ret (inl (Path_append r BACK_PATH, base')).
(* src/src/system_Path.cpp:114-126 Path::relativeTo *)
Definition Path_relativeTo (fuel : nat) (buf base : str) : outcome str :=
  if bool_decide (base = buf) then Ret (text ".") else
  '(r, base) ← iter fuel (relativeTo_step buf) ([], base);
  if bool_decide (base = buf) then Ret r
  else rest ← substring_from buf (zlen base + 1); Ret (Path_append r rest).

Section Environment.
Context (current home : str).

(* src/src/system_Path.cpp:186-193 Path::absolute *)
Definition Path_absolute (buf : str) : outcome str :=
  if Path_isAbsolute buf then Ret buf
  else if Path_isHomeRelative buf then rest ← substring_from buf 1; Ret (Path_append home rest)
  else Ret (Path_append current buf).

(** A component selected by [canonical()]. *)
(* src/src/system_Path.cpp:149-155 Path::canonical *)
Definition add_component (comps : list str) (comp : str) : list str :=
  if bool_decide (comp = text "..") then
    (if 0 <? zlen comps then take (length comps - 1) comps else comps)
  else if bool_decide (comp <> [] /\ comp <> text ".") then comps ++ [comp]
  else comps.

(* src/src/system_Path.cpp:134-179 Path::canonical *)
Definition Path_canonical (buf : str) : outcome str :=
  path ← (if Path_isRelative buf then Path_absolute buf else Ret buf);
  stop ← Path_nextSeparator path 0;
  '(start, comps) ← iter (S (length path)) (fun '(stop, start, comps) =>
      if 0 <=? stop then
        comp ← substring path start (stop - start);
        let start := stop + 1 in
        stop' ← Path_nextSeparator path start;
        Ret (inl (stop', start, add_component comps comp))
      else Ret (inr (start, comps))) (stop, 0, []);
  comp ← substring_from path start;
  Ret (foldl (fun buffer c => buffer ++ [SEPARATOR] ++ c) [] (comps ++ [comp])).

End Environment.

(** *** The iterator on a list of paths *)

(* src/include/elm/sys/Path.h:122-123 Path::PathIter *)
Record PathIter := mkPI { pi_s : str; pi_p : Z; pi_n : Z }.
(* src/src/system_Path.cpp:769-775 Path::PathIter::look *)
Definition PathIter_look (i : PathIter) : outcome PathIter :=
  if zlen (pi_s i) <=? pi_p i then Ret i else
  n ← index_of PATH_SEPARATOR (pi_s i) (pi_n i + 1);
  Ret (mkPI (pi_s i) (pi_p i) (if n <? 0 then zlen (pi_s i) else n)).
(* src/include/elm/sys/Path.h:114-114 Path::PathIter::PathIter *)
Definition PathIter_make (paths : str) : outcome PathIter := PathIter_look (mkPI paths 0 (-1)).
(* src/include/elm/sys/Path.h:115-115 Path::PathIter::ended *)
Definition PathIter_ended (i : PathIter) : bool := zlen (pi_s i) <=? pi_p i.
(* src/include/elm/sys/Path.h:116-116 Path::PathIter::item *)
Definition PathIter_item (i : PathIter) : outcome str := substring (pi_s i) (pi_p i) (pi_n i - pi_p i).
(* src/include/elm/sys/Path.h:117-117 Path::PathIter::next *)
Definition PathIter_next (i : PathIter) : outcome PathIter :=
  let i := mkPI (pi_s i) (pi_n i) (pi_n i) in
  if pi_p i <? zlen (pi_s i) then PathIter_look (mkPI (pi_s i) (pi_p i + 1) (pi_n i)) else Ret i.

(** [for(auto p: Path::splitPaths(paths)) l.add(p);] *)
(* src/include/elm/sys/Path.h:126-134 Path::splitPaths *)
Definition Path_splitPaths (paths : str) : outcome (list str) :=
  i ← PathIter_make paths;
  iter (S (length paths)) (fun '(i, l) =>
    if PathIter_ended i then Ret (inr l)
    else p ← PathIter_item i; i' ← PathIter_next i; Ret (inl (i', l ++ [p]))) (i, []).

(** ** canonical() *)

Abbreviation no_sep := (Forall (fun p : str => SEPARATOR ∉ p)).
(** The absolute path of some components. *)
Definition abs (cs : list str) : str := concat ((cons SEPARATOR) <$> cs).
(** The components that [canonical()] keeps. *)
Definition norm (cs : list str) : list str := foldl add_component [] cs.
Definition proper (c : str) : Prop := c <> [] /\ c <> text "." /\ c <> text "..".

Lemma abs_app l k : abs (l ++ k) = abs l ++ abs k.
Proof. unfold abs. by rewrite fmap_app, concat_app. Qed.
Lemma join_cons c p l : l <> [] -> join_with c (p :: l) = p ++ c :: join_with c l.
Proof. by destruct l. Qed.
Lemma abs_join cs : cs <> [] -> abs cs = SEPARATOR :: join_with SEPARATOR cs.
Proof.
  induction cs as [|p cs IH]; [done|]. intros _. destruct cs as [|q cs]; [cbn; by rewrite app_nil_r|].
  rewrite join_cons by done. change (abs (p :: q :: cs)) with ((SEPARATOR :: p) ++ abs (q :: cs)).
  by rewrite IH.
Qed.
Lemma build_abs cs b : foldl (fun buffer c => buffer ++ [SEPARATOR] ++ c) b cs = b ++ abs cs.
Proof.
  revert b. induction cs as [|c cs IH]; intros b; [by rewrite app_nil_r|]. cbn [foldl]. rewrite IH.
  rewrite <- app_assoc. done.
Qed.

Lemma sep_find (pre p t : str) : SEPARATOR ∉ p ->
  Path_nextSeparator (pre ++ p ++ SEPARATOR :: t) (zlen pre) = Ret (zlen pre + zlen p).
Proof. intros. by apply index_of_some. Qed.

Lemma canon_loop ds f pre comps fuel : no_sep (ds ++ [f]) -> (length ds < fuel)%nat ->
  let path := pre ++ join_with SEPARATOR (ds ++ [f]) in
  exists start stop, Path_nextSeparator path (zlen pre) = Ret stop /\
    iter fuel (fun '(stop, start, comps) =>
      if 0 <=? stop then
        comp ← substring path start (stop - start);
        let start := stop + 1 in
        stop' ← Path_nextSeparator path start;
        Ret (inl (stop', start, add_component comps comp))
      else Ret (inr (start, comps))) (stop, zlen pre, comps) = Ret (start, foldl add_component comps ds) /\
    substring_from path start = Ret f.
Proof.
  revert pre comps fuel. induction ds as [|d ds IH]; intros pre comps fuel Hn Hf path;
    (destruct fuel as [|fuel]; [lia|]); cbn [iter].
  - apply Forall_app in Hn as [_ Hn]. inversion Hn; subst.
    exists (zlen pre), (-1). split; [by apply index_of_none|]. split; [done|]. apply substring_end.
  - inversion Hn as [|? ? Hd Hn']; subst. cbn [length] in Hf.
    assert (path = pre ++ d ++ SEPARATOR :: join_with SEPARATOR (ds ++ [f])) as Ep.
    { unfold path. rewrite <- app_comm_cons, join_cons by (by destruct ds). done. }
    assert (path = (pre ++ d ++ [SEPARATOR]) ++ join_with SEPARATOR (ds ++ [f])) as Ep'.
    { rewrite Ep. by app_norm. }
    destruct (IH (pre ++ d ++ [SEPARATOR]) (add_component comps d) fuel Hn' ltac:(lia))
      as (start & stop & E1 & E2 & E3). rewrite <- Ep' in E1, E2, E3.
    exists start, (zlen pre + zlen d). split; [rewrite Ep; by apply sep_find|].
    rewrite (proj2 (Z.leb_le _ _)) by lia.
    replace (zlen pre + zlen d - zlen pre) with (zlen d) by lia.
    replace (substring path (zlen pre) (zlen d)) with (Ret (A := str) d) by (rewrite Ep; by rewrite substring_mid).
    mred. replace (zlen pre + zlen d + 1) with (zlen (pre ++ d ++ [SEPARATOR]))
      by (rewrite !length_app; cbn; lia).
    rewrite E1. mred. cbn [foldl]. done.
Qed.

Lemma canonical_abs cwd home ds f : no_sep (ds ++ [f]) ->
  Path_canonical cwd home (abs (ds ++ [f])) = Ret (abs (norm ds ++ [f])).
Proof.
  intros Hn. unfold Path_canonical, Path_isRelative.
  assert (abs (ds ++ [f]) = join_with SEPARATOR ([] :: ds ++ [f])) as Ea.
  { rewrite abs_join by (by destruct ds). by rewrite join_cons by (by destruct ds). }
  assert (Path_isAbsolute (abs (ds ++ [f])) = true) as -> by (rewrite abs_join by (by destruct ds); done).
  cbn [negb]. mred.
  assert (no_sep (([] :: ds) ++ [f])) as Hn' by (constructor; [apply not_elem_of_nil|done]).
  destruct (canon_loop ([] :: ds) f [] [] (S (length (abs (ds ++ [f])))) Hn') as (start & stop & E1 & E2 & E3).
  { rewrite abs_app, length_app. cbn. assert (length ds <= length (abs ds))%nat; [|lia].
    clear. induction ds as [|d ds IH]; cbn; [lia|]. rewrite length_app. fold (abs ds). lia. }
  cbn [app] in E1, E2, E3. rewrite <- Ea in E1, E2, E3.
  change (zlen (@nil Z)) with 0 in E1, E2. rewrite E1. mred. rewrite E2. mred. rewrite E3. mred.
  f_equal. rewrite build_abs. done.
Qed.

Lemma add_component_proper cs c : Forall proper cs -> Forall proper (add_component cs c).
Proof.
  intros F. unfold add_component. case_bool_decide; [destruct (0 <? _); [by apply Forall_take|done]|].
  case_bool_decide as E; [|done]. apply Forall_app. split; [done|]. constructor; [|done]. by unfold proper; naive_solver.
Qed.
Lemma add_component_sep cs c : no_sep cs -> SEPARATOR ∉ c -> no_sep (add_component cs c).
Proof.
  intros F Hc. unfold add_component. case_bool_decide; [destruct (0 <? _); [by apply Forall_take|done]|].
  case_bool_decide as E; [|done]. apply Forall_app. split; [done|]. by constructor.
Qed.
Lemma fold_proper ds cs : Forall proper cs -> Forall proper (foldl add_component cs ds).
Proof. revert cs. induction ds as [|d ds IH]; intros cs F; [done|]. by apply IH, add_component_proper. Qed.
Lemma fold_sep ds cs : no_sep cs -> no_sep ds -> no_sep (foldl add_component cs ds).
Proof.
  revert cs. induction ds as [|d ds IH]; intros cs F Hd; [done|]. inversion Hd; subst.
  by apply IH; [apply add_component_sep|].
Qed.

(** Proper components are all kept, and each [".."] drops one. *)
Lemma add_proper cs c : proper c -> add_component cs c = cs ++ [c].
Proof.
  intros (H1 & H2 & H3). unfold add_component.
  by rewrite bool_decide_false, bool_decide_true by done.
Qed.
Lemma fold_id ds cs : Forall proper ds -> foldl add_component cs ds = cs ++ ds.
Proof.
  revert cs. induction ds as [|d ds IH]; intros cs F; [by rewrite app_nil_r|]. inversion F; subst.
  cbn [foldl]. rewrite add_proper, IH by done. by rewrite <- app_assoc.
Qed.
Lemma fold_back cs up : foldl add_component (cs ++ up) (replicate (length up) BACK_PATH) = cs.
Proof.
  induction up as [|u up IH] using rev_ind; [by rewrite app_nil_r|].
  rewrite length_app, Nat.add_1_r, replicate_S. cbn [foldl].
  replace (add_component (cs ++ up ++ [u]) BACK_PATH) with (cs ++ up); [done|].
  unfold add_component. rewrite bool_decide_true by done.
  rewrite (proj2 (Z.ltb_lt _ _)) by (rewrite !length_app; cbn; lia). rewrite app_assoc, length_app.
  symmetry. apply take_app_length'. cbn. lia.
Qed.

(** ** relativeTo() *)

Lemma split_abs cs : no_sep cs -> split_on SEPARATOR (abs cs) = [] :: cs.
Proof.
  intros F. destruct cs as [|c cs]; [done|]. rewrite abs_join by done. cbn [split_on].
  rewrite Z.eqb_refl. by rewrite split_join.
Qed.
Lemma abs_inj cs ks : no_sep cs -> no_sep ks -> abs cs = abs ks -> cs = ks.
Proof.
  intros F1 F2 E. pose proof (split_abs cs F1) as E1. rewrite E, split_abs in E1 by done. by injection E1.
Qed.
(** Every absolute path has components. *)
Lemma abs_split p : abs (split_on SEPARATOR p) = SEPARATOR :: p.
Proof. by rewrite abs_join, join_split by apply split_nonempty. Qed.
Lemma abs_not_nil c cs : abs (c :: cs) <> [].
Proof. done. Qed.

Lemma isPrefixOf_abs bs ts : no_sep bs -> no_sep ts ->
  Path_isPrefixOf (abs bs) (abs ts) = Ret (bool_decide (bs `prefix_of` ts)).
Proof.
  intros Fb Ft. unfold Path_isPrefixOf, starts_with. case_bool_decide as E.
  - pose proof (take_drop (length (abs bs)) (abs ts)) as Et. rewrite E in Et.
    destruct (Z.eqb_spec (zlen (abs ts)) (zlen (abs bs))) as [El|El].
    + rewrite <- Et, length_app in El. destruct (drop (length (abs bs)) (abs ts)); [|cbn in El; lia].
      rewrite app_nil_r in Et. apply abs_inj in Et as <-; [|done..]. by rewrite bool_decide_true.
    + destruct (drop (length (abs bs)) (abs ts)) as [|x r] eqn:Ed.
      { rewrite <- Et, length_app in El. cbn in El. lia. }
      rewrite <- Et, (rd_ok _ _ x) by (lia || (apply list_lookup_middle; lia)). mred. f_equal.
      destruct (Z.eqb_spec x SEPARATOR) as [->|Hx]; symmetry.
      * apply bool_decide_true. exists (split_on SEPARATOR r).
        apply abs_inj; [done|by apply Forall_app; split; [|apply split_no_sep]|].
        by rewrite abs_app, abs_split.
      * apply bool_decide_false. intros [k ->]. rewrite abs_app in Et. apply app_inv_head in Et.
        destruct k; [done|]. cbn in Et. congruence.
  - rewrite bool_decide_false; [done|]. intros [k ->]. apply E. rewrite abs_app. apply take_app_length.
Qed.

Lemma no_sep_in c cs : no_sep (cs ++ [c]) -> SEPARATOR ∉ c.
Proof. intros [_ F]%Forall_app. by inversion F. Qed.
Lemma abs_snoc cs c : abs (cs ++ [c]) = abs cs ++ SEPARATOR :: c.
Proof. rewrite abs_app. cbn. by rewrite app_nil_r. Qed.
Lemma parent_abs bs b : no_sep (bs ++ [b]) -> Path_parent (abs (bs ++ [b])) = Ret (abs bs).
Proof.
  intros F. rewrite abs_snoc. unfold Path_parent, Path_lastSeparator.
  rewrite last_index_of_some by by apply (no_sep_in _ bs). mred.
  rewrite (proj2 (Z.ltb_ge _ _)) by lia. apply substring_start.
Qed.

(** The text ["../../.."]. *)
Definition backs (n : nat) : str := join_with SEPARATOR (replicate n BACK_PATH).
Lemma backs_S n : Path_append (backs n) BACK_PATH = backs (S n).
Proof.
  unfold backs, Path_append. destruct n as [|n]; [done|].
  rewrite bool_decide_false; [|by destruct n]. rewrite bool_decide_false by done.
  induction n as [|n IH]; [done|]. rewrite (replicate_S (S n)), (replicate_S (S (S n))).
  rewrite !join_cons by done. rewrite <- IH. by app_norm.
Qed.
Lemma append_join l k : l <> [] -> k <> [] -> join_with SEPARATOR l <> [] -> join_with SEPARATOR k <> [] ->
  Path_append (join_with SEPARATOR l) (join_with SEPARATOR k) = join_with SEPARATOR (l ++ k).
Proof.
  intros Hl Hk H1 H2. unfold Path_append. rewrite !bool_decide_false by done. clear H1 H2.
  induction l as [|p l IH]; [done|]. destruct l as [|q l].
  - cbn [app]. rewrite (join_cons _ p k) by done. done.
  - rewrite <- app_comm_cons, (join_cons _ p (q :: l)), (join_cons _ p ((q :: l) ++ k)) by done.
    rewrite <- IH by done. by app_norm.
Qed.

Lemma relativeTo_step_eq buf r base : relativeTo_step buf (r, base) =
  if bool_decide (base = []) then Ret (inr (r, base)) else
  b ← Path_isPrefixOf base buf;
  if b : bool then Ret (inr (r, base))
  else base' ← Path_parent base; Ret (inl (Path_append r BACK_PATH, base')).
Proof. done. Qed.
Lemma rel_loop ts bs n fuel : no_sep bs -> no_sep ts -> (length bs < fuel)%nat ->
  exists q up down, bs = q ++ up /\ ts = q ++ down /\
    iter fuel (relativeTo_step (abs ts)) (backs n, abs bs)
    = Ret (backs (n + length up), abs q).
Proof.
  revert n fuel. induction bs as [|b bs IH] using rev_ind; intros n fuel Fb Ft Hf;
    (destruct fuel as [|fuel]; [lia|]); cbn [iter]; rewrite relativeTo_step_eq.
  - exists [], [], ts. rewrite Nat.add_0_r. done.
  - rewrite bool_decide_false by (rewrite abs_snoc; by destruct (abs bs)).
    rewrite isPrefixOf_abs by done. mred. case_bool_decide as Hp.
    + destruct Hp as [down ->]. exists (bs ++ [b]), [], down. by rewrite app_nil_r, Nat.add_0_r.
    + rewrite parent_abs by done. mred. rewrite backs_S. rewrite length_app in Hf. cbn in Hf.
      destruct (IH (S n) fuel) as (q & up & down & -> & -> & E); [by apply Forall_app in Fb as [? _]|done|lia|].
      exists q, (up ++ [b]), down. rewrite E, length_app, app_assoc.
      split; [done|]. split; [done|]. replace (n + _)%nat with (S n + length up)%nat by (cbn; lia). done.
Qed.

Lemma relativeTo_abs bs ts : no_sep bs -> no_sep ts -> Forall proper bs -> Forall proper ts -> ts <> [] ->
  exists r, Path_relativeTo (S (length bs)) (abs ts) (abs bs) = Ret r /\
    foldl add_component bs (split_on SEPARATOR r) = ts.
Proof.
  intros Fb Ft Pb Pt Hts. unfold Path_relativeTo. case_bool_decide as E0.
  { apply abs_inj in E0 as ->; [|done..]. by eexists. }
  change (@nil Z) with (backs 0) at 1.
  destruct (rel_loop ts bs 0 (S (length bs)) Fb Ft ltac:(lia)) as (q & up & down & -> & Et & ->). mred.
  assert (no_sep (replicate (length up) BACK_PATH)) as Fr.
  { apply Forall_replicate. intros H%elem_of_cons. destruct H as [H|H%list_elem_of_singleton]; done. }
  assert (no_sep down /\ Forall proper down) as [Fd Pd].
  { rewrite Et in Ft, Pt. by apply Forall_app in Ft as [_ ?], Pt as [_ ?]. }
  case_bool_decide as E.
  - apply abs_inj in E; [|by apply Forall_app in Fb as [? _]|done]. subst q.
    eexists. split; [done|]. unfold backs. cbn [Nat.add].
    destruct up as [|u up]; [by rewrite app_nil_r in E0|].
    rewrite split_join by done. apply fold_back.
  - destruct down as [|d down]; [by rewrite app_nil_r in Et; congruence|].
    assert (abs ts = (abs q ++ [SEPARATOR]) ++ join_with SEPARATOR (d :: down)) as Ea.
    { rewrite Et, abs_app, (abs_join (d :: down)) by done. by app_norm. }
    rewrite Ea. replace (zlen (abs q) + 1) with (zlen (abs q ++ [SEPARATOR])) by (rewrite length_app; cbn; lia).
    rewrite substring_end. mred. eexists. split; [done|].
    assert (join_with SEPARATOR (d :: down) <> []) as Hj.
    { inversion Pd as [|? ? [Hd _] _]; subst. destruct down; cbn; [done|]. by destruct d. }
    assert (Path_append (backs (0 + length up)) (join_with SEPARATOR (d :: down))
      = join_with SEPARATOR (replicate (length up) BACK_PATH ++ d :: down)) as ->.
    { destruct up as [|u up]; [done|]. apply append_join; try done. by destruct up. }
    rewrite split_join by ((by destruct up) || by apply Forall_app).
    rewrite foldl_app, fold_back, fold_id by done. done.
Qed.

(** ** The list of paths *)

Abbreviation no_colon := (Forall (fun p : str => PATH_SEPARATOR ∉ p)).

(** The iterator at a path: what is before it, the path, what follows. *)
Lemma look_at pre p l n : PATH_SEPARATOR ∉ p -> n + 1 = zlen pre ->
  join_with PATH_SEPARATOR (p :: l) <> [] ->
  let s := pre ++ join_with PATH_SEPARATOR (p :: l) in
  PathIter_look (mkPI s (zlen pre) n) = Ret (mkPI s (zlen pre) (zlen pre + zlen p)).
Proof.
  intros Hp Hn Hj s. unfold PathIter_look. cbn [pi_s pi_p pi_n].
  assert (zlen pre < zlen s) as Hl.
  { unfold s. rewrite length_app. destruct (join_with _ _) as [|x y]; [done|]. cbn. lia. }
  rewrite (proj2 (Z.leb_gt _ _)), Hn by done. destruct l as [|q l].
  - unfold s. cbn [join_with]. rewrite index_of_none by done. mred. rewrite length_app. cbn.
    do 2 f_equal. lia.
  - unfold s. rewrite join_cons, index_of_some by done. mred.
    by rewrite (proj2 (Z.ltb_ge _ _)) by lia.
Qed.

(** The last path is not empty, as an empty one at the end is not seen. *)
Definition ends_ok (l : list str) : Prop := forall p, last l = Some p -> p <> [].
Lemma ends_ok_join p l : ends_ok (p :: l) -> join_with PATH_SEPARATOR (p :: l) <> [].
Proof.
  intros E. destruct l as [|q l]; [by apply (E p)|]. rewrite join_cons by done. by destruct p.
Qed.

Lemma split_loop l : forall pre p acc fuel, no_colon (p :: l) -> ends_ok (p :: l) -> (length l + 1 < fuel)%nat ->
  let s := pre ++ join_with PATH_SEPARATOR (p :: l) in
  iter fuel (fun '(i, l) =>
    if PathIter_ended i then Ret (inr l)
    else p ← PathIter_item i; i' ← PathIter_next i; Ret (inl (i', l ++ [p])))
    (mkPI s (zlen pre) (zlen pre + zlen p), acc) = Ret (acc ++ p :: l).
Proof.
  induction l as [|q l IH]; intros pre p acc fuel Hn He Hf s; (destruct fuel as [|fuel]; [lia|]); cbn [iter];
    inversion Hn as [|? ? Hp Hl]; subst; pose proof (ends_ok_join _ _ He) as Hj.
  all: assert (zlen pre < zlen s) as Hlt by
    (unfold s; rewrite length_app; destruct (join_with _ _) as [|x y]; [done|cbn; lia]).
  all: unfold PathIter_ended, PathIter_item; cbn [pi_s pi_p pi_n];
    rewrite (proj2 (Z.leb_gt _ _)) by done; replace (zlen pre + zlen p - zlen pre) with (zlen p) by lia.
  - assert (substring s (zlen pre) (zlen p) = Ret p) as ->.
    { pose proof (substring_mid pre p []) as E. by rewrite app_nil_r in E. }
    mred.
    unfold PathIter_next. cbn [pi_s pi_p pi_n].
    assert (zlen s = zlen pre + zlen p) as El by (unfold s; rewrite length_app; cbn; lia).
    rewrite (proj2 (Z.ltb_ge _ _)) by lia. mred. destruct fuel as [|fuel]; [cbn in Hf; lia|].
    cbn [iter]. unfold PathIter_ended. cbn [pi_s pi_p]. by rewrite (proj2 (Z.leb_le _ _)) by lia.
  - assert (s = (pre ++ p ++ [PATH_SEPARATOR]) ++ join_with PATH_SEPARATOR (q :: l)) as Es.
    { unfold s. rewrite join_cons by done. by app_norm. }
    assert (ends_ok (q :: l)) as He' by (intros x Hx; by apply He).
    replace (substring s (zlen pre) (zlen p)) with (Ret (A := str) p)
      by (unfold s; rewrite join_cons by done; by rewrite substring_mid). mred.
    unfold PathIter_next. cbn [pi_s pi_p pi_n].
    pose proof (ends_ok_join _ _ He') as Hj'.
    assert (zlen pre + zlen p < zlen s) as Hl2 by (rewrite Es, !length_app; cbn; lia).
    rewrite (proj2 (Z.ltb_lt _ _)) by done.
    replace (zlen pre + zlen p + 1) with (zlen (pre ++ p ++ [PATH_SEPARATOR])) by (rewrite !length_app; cbn; lia).
    rewrite Es. inversion Hl; subst. rewrite look_at by (done || (rewrite !length_app; cbn; lia)). mred.
    rewrite (IH _ q (acc ++ [p]) fuel Hl He') by (cbn in Hf; lia). by app_norm.
Qed.

Lemma splitPaths_join l : no_colon l -> ends_ok l ->
  Path_splitPaths (join_with PATH_SEPARATOR l) = Ret l.
Proof.
  intros Hn He. unfold Path_splitPaths, PathIter_make. destruct l as [|p l]; [done|].
  pose proof (look_at [] p l (-1) ltac:(by inversion Hn) eq_refl (ends_ok_join _ _ He)) as E.
  cbn [app] in E. change (zlen (@nil Z)) with 0 in E. rewrite E. mred.
  apply (split_loop l [] p [] _ Hn He). pose proof (ends_ok_join _ _ He) as Hj. clear E Hn.
  revert p He Hj. induction l as [|q l IH]; intros p He Hj; [by destruct p; cbn in *; try lia|].
  rewrite join_cons by done. rewrite length_app. cbn [length].
  assert (ends_ok (q :: l)) as He' by (intros x Hx; by apply He).
  specialize (IH q He' (ends_ok_join _ _ He')). lia.
Qed.

(** ** Extensions *)

(** The last separator is before the last part, whatever precedes. *)
Lemma lastSeparator_dir d f : SEPARATOR ∉ f -> Path_lastSeparator (d ++ SEPARATOR :: f) = Ret (zlen d).
Proof. by apply last_index_of_some. Qed.

Lemma extension_some p b e : (exists d, p = d ++ SEPARATOR :: b) \/ p = b -> SEPARATOR ∉ b ->
  ch "." ∉ e -> SEPARATOR ∉ e ->
  Path_extension (p ++ ch "." :: e) = Ret e /\ Path_basePart (p ++ ch "." :: e) = Ret p /\
  forall x, Path_setExtension (p ++ ch "." :: e) x = Ret (p ++ ch "." :: x).
Proof.
  intros Hp Hb He Hs. unfold Path_extension, Path_basePart, Path_setExtension.
  assert (exists n, Path_lastSeparator (p ++ ch "." :: e) = Ret n /\ n < zlen p) as (n & -> & Hn).
  { assert (SEPARATOR ∉ b ++ ch "." :: e) as Hbe.
    { intros [H|[H|H]%elem_of_cons]%elem_of_app; done. }
    destruct Hp as [[d ->]| ->].
    - exists (zlen d). rewrite <- app_assoc. cbn [app].
      rewrite lastSeparator_dir, length_app by done. cbn. split; [done|lia].
    - exists (-1). unfold Path_lastSeparator. rewrite last_index_of_none by done. split; [done|lia]. }
  rewrite last_index_of_some by done. mred. rewrite (proj2 (Z.leb_gt _ _)) by lia.
  rewrite substring_start. mred.
  replace (zlen p + 1) with (zlen (p ++ [ch "."])) by (rewrite length_app; cbn; lia).
  replace (p ++ ch "." :: e) with ((p ++ [ch "."]) ++ e) by by app_norm. by rewrite substring_end.
Qed.
Lemma extension_none p b : (exists d, p = d ++ SEPARATOR :: b) \/ p = b -> SEPARATOR ∉ b -> ch "." ∉ b ->
  Path_extension p = Ret [] /\ Path_basePart p = Ret p /\
  forall x, Path_setExtension p x = Ret (p ++ ch "." :: x).
Proof.
  intros Hp Hs Hd. unfold Path_extension, Path_basePart, Path_setExtension, Path_lastSeparator.
  assert (exists n m, last_index_of SEPARATOR p = Ret n /\ last_index_of (ch ".") p = Ret m /\ m <= n)
    as (n & m & -> & -> & Hn).
  { destruct Hp as [[d ->]| ->].
    - exists (zlen d). rewrite last_index_of_some by done.
      destruct (decide (ch "." ∈ d)) as [Hin|Hin].
      + destruct (list_elem_of_split_r _ _ Hin) as (d1 & d2 & -> & Hd2). exists (zlen d1).
        rewrite <- app_assoc. cbn [app].
        rewrite last_index_of_some, length_app by (intros [H|[H|H]%elem_of_cons]%elem_of_app; done).
        split; [done|]. split; [done|]. lia.
      + exists (-1). rewrite last_index_of_none by (intros [H|[H|H]%elem_of_cons]%elem_of_app; done).
        split; [done|]. split; [done|]. lia.
    - exists (-1), (-1). rewrite !last_index_of_none by done. done. }
  mred. rewrite (proj2 (Z.leb_le _ _)) by done. by mred.
Qed.


(** ** Theorems *)

(** [C18] Canonical and relative paths, for Unix.
    On an absolute path whose last component is proper, that is neither empty nor ["."]
    nor [".."], [canonical()] runs and gives the path whose other components are those
    left by dropping ["."] and the empty ones and letting [".."] remove the one before;
    all the components of the result are proper and it is its own canonical form. Between
    absolute paths made of proper components, other than the root, [relativeTo()] ends,
    after at most one turn by component of the base, and what it gives, walked from the
    base, leads to the path. Every absolute path is the one of its components. *)
Theorem Path_canonical_relative cwd home ds f bs ts :
  no_sep (ds ++ [f]) -> proper f -> no_sep bs -> no_sep ts -> Forall proper bs -> Forall proper ts -> ts <> [] ->
  Path_canonical cwd home (abs (ds ++ [f])) = Ret (abs (norm ds ++ [f])) /\
  Forall proper (norm ds ++ [f]) /\
  Path_canonical cwd home (abs (norm ds ++ [f])) = Ret (abs (norm ds ++ [f])) /\
  (exists r, Path_relativeTo (S (length bs)) (abs ts) (abs bs) = Ret r /\
     foldl add_component bs (split_on SEPARATOR r) = ts) /\
  forall p, Path_isAbsolute p = true -> abs (split_on SEPARATOR (tail p)) = p.
Proof.
  intros Hn Hfp Fb Ft Pb Pt Hts. split; [by apply canonical_abs|].
  pose proof (fold_proper ds [] (Forall_nil_2 _)) as Hp. split; [by apply Forall_app; split; [|constructor]|]. split; [|split].
  - pose proof Hn as [Hd Hf]%Forall_app. rewrite canonical_abs.
    + unfold norm at 1. by rewrite (fold_id (norm ds) []).
    + apply Forall_app. split; [by apply fold_sep|done].
  - by apply relativeTo_abs.
  - intros p Ha. destruct p as [|c p]; [done|]. cbn in Ha. apply Z.eqb_eq in Ha as ->. apply abs_split.
Qed.

Lemma Path_canonical_relative_witness :
  Path_canonical [] [] (text "/a/./b/../c") = Ret (text "/a/c") /\
  exists r, Path_relativeTo 3 (text "/a/c") (text "/a/b") = Ret r /\
    foldl add_component [text "a"; text "b"] (split_on SEPARATOR r) = [text "a"; text "c"].
Proof.
  destruct (Path_canonical_relative [] [] [text "a"; text "."; text "b"; text ".."] (text "c")
    [text "a"; text "b"] [text "a"; text "c"]) as (E & _ & _ & R & _);
    [by_decide..|by repeat constructor|by repeat constructor|done|].
  split; [exact E|exact R].
Defined.

(** Parts of a path.
    Cut at its last separator, a path gives its directory, its parent and its name,
    whose concatenation is the path; the extension is what follows the last dot of
    the name, the base what precedes it, and [setExtension()] replaces it, or adds one
    to a name without dot. A list of paths joined by colons is iterated as it was. *)
Theorem Path_parts d b e x l :
  SEPARATOR ∉ b -> SEPARATOR ∉ e -> ch "." ∉ e -> no_colon l -> ends_ok l ->
  let p := d ++ SEPARATOR :: b in
  Path_dirPart p = Ret d /\ Path_parent p = Ret d /\ Path_namePart p = Ret b /\
  (d <> [] -> b <> [] -> Path_append d b = p) /\
  Path_extension (p ++ ch "." :: e) = Ret e /\ Path_basePart (p ++ ch "." :: e) = Ret p /\
  Path_setExtension (p ++ ch "." :: e) x = Ret (p ++ ch "." :: x) /\
  (ch "." ∉ b -> Path_extension p = Ret [] /\ Path_basePart p = Ret p /\
     Path_setExtension p x = Ret (p ++ ch "." :: x)) /\
  Path_splitPaths (join_with PATH_SEPARATOR l) = Ret l.
Proof.
  intros Hb He Hd Hl Hel p.
  assert (Path_lastSeparator p = Ret (zlen d)) as El by by apply lastSeparator_dir.
  destruct (extension_some p b e) as (X1 & X2 & X3); [by left; exists d|done..|].
  unfold Path_dirPart, Path_parent, Path_namePart. rewrite El. mred.
  rewrite (proj2 (Z.ltb_ge _ _)) by lia.
  split; [apply substring_start|]. split; [apply substring_start|]. split; [|split; [|split; [done|split; [done|split; [done|split]]]]].
  - replace (zlen d + 1) with (zlen (d ++ [SEPARATOR])) by (rewrite length_app; cbn; lia).
    replace p with ((d ++ [SEPARATOR]) ++ b) by (unfold p; by app_norm). apply substring_end.
  - intros H1 H2. unfold Path_append. by rewrite !bool_decide_false by done.
  - intros Hbd. destruct (extension_none p b) as (Y1 & Y2 & Y3); [by left; exists d|done..|].
    split; [done|]. by split.
  - by apply splitPaths_join.
Qed.

Lemma Path_parts_witness :
  Path_extension (text "/a/b.c.d") = Ret (text "d") /\
  Path_splitPaths (text "/bin::/lib") = Ret [text "/bin"; []; text "/lib"].
Proof.
  destruct (Path_parts (text "/a") (text "b.c") (text "d") [] [text "/bin"; []; text "/lib"])
    as (_ & _ & _ & _ & E & _ & _ & _ & L).
  1-4: by_decide.
  - by intros p [= <-].
  - split; [exact E|exact L].
Defined.

(** *** What goes wrong *)

(** The last component is not examined: a path that ends with [".."] is not changed. *)
Example canonical_keeps_last : Path_canonical [] [] (text "/a/b/..") = Ret (text "/a/b/..").
Proof. reflexivity. Qed.

(** Between relative paths without common directory, [relativeTo()] does not end: the
    parent of ["."] is ["."]. *)
Example relativeTo_loops : forall fuel, Path_relativeTo fuel (text "b") (text "a") = Crash OutOfFuel.
Proof.
  assert (forall fuel r, iter fuel (relativeTo_step (text "b")) (r, text ".") = Crash OutOfFuel) as X.
  { induction fuel as [|fuel IH]; intros r; [done|]. exact (IH (Path_append r BACK_PATH)). }
  intros [|fuel]; [done|]. unfold Path_relativeTo.
  change (iter (S fuel) (relativeTo_step (text "b")) ([], text "a"))
    with (iter fuel (relativeTo_step (text "b")) (BACK_PATH, text ".")). by rewrite X.
Qed.

(** The root is not a prefix of the paths below it, and the parent of ["/a"] is empty. *)
Example root_is_not_prefix :
  Path_isPrefixOf (text "/") (text "/a") = Ret false /\ Path_parent (text "/a") = Ret [].
Proof. by split. Qed.
