(* ===== verification/Dtd.v ===== *)
(** * DTD: descriptions of XML contents, and their parser

    [elm::dtd] (xom_dtd.cpp, xom/dtd.h): contents built from elements, text, sequences,
    alternatives, options and repetitions, elements with attributes, identifiers and
    references; the parser that walks an XML tree with them, backtracks, and calls a
    factory of the application. The XML library is reduced to its tree [xnode]. The
    calls of the factory are recorded as events; the pointers it returns depend on
    the previous calls: parameters [getRef] and [getPatchRef]. *)

From stdpp Require Import gmap.
From S2P Require Import Prelude.
#[local] Open Scope Z_scope.

(** ** XML trees *)

(** [XOther]: comments, processing instructions and the other kinds of nodes. *)
Inductive xnode :=
  | XText (t : str)
  | XElem (name : str) (atts : list (str * str)) (children : list xnode)
  | XOther.
Definition xchildren (x : xnode) : list xnode := match x with XElem _ _ l => l | _ => [] end.
(** [xom::Element::getAttributeValue()]. *)
Definition xatt (x : xnode) (name : str) : option str :=
  match x with
  | XElem _ atts _ => r ← list_find (fun a : str * str => a.1 = name) atts; Some r.2.2
  | _ => None
  end.

(** ** Descriptions *)

(** Kinds of attributes: [AbstractAttribute] itself, [Attribute<T>] with the test that
    a text is read as a [T] and the initial value, [Attribute<String>], [IDAttribute]
    and [RefAttribute]. *)
(* src/include/elm/xom/dtd.h:243-322 Attribute, IDAttribute, RefAttribute *)
Inductive att_kind :=
  | KBase
  | KTyped (conv : str -> bool) (init : str)
  | KString (init : str)
  | KID
  | KRef.

(* src/include/elm/xom/dtd.h:152-157 AbstractAttribute *)
Record attribute := mkAtt { at_name : str; at_flags : Z; at_kind : att_kind }.
(* src/include/elm/xom/dtd.h:129-132 AbstractAttribute::REQUIRED, STRICT, FORWARD *)
Definition REQUIRED : Z := 1.
Definition STRICT : Z := 2.
Definition FORWARD : Z := 4.
(* src/include/elm/xom/dtd.h:138-138 AbstractAttribute::isRequired *)
Definition at_isRequired (a : attribute) : bool := negb (Z.land (at_flags a) REQUIRED =? 0).
(* src/include/elm/xom/dtd.h:139-139 AbstractAttribute::isStrict *)
Definition at_isStrict (a : attribute) : bool := negb (Z.land (at_flags a) STRICT =? 0).
(* src/include/elm/xom/dtd.h:140-140 AbstractAttribute::isForward *)
Definition at_isForward (a : attribute) : bool := negb (Z.land (at_flags a) FORWARD =? 0).

(** The classes of contents; an element has a number, its identity. *)
(* src/include/elm/xom/dtd.h:160-240 Content, Element, Optional, Alt, Seq, Repeat *)
Inductive content :=
  | EMPTY | Ignored | PCDATA | ANY
  | Optional (con : content)
  | Alt (con1 con2 : content)
  | Seq (con1 con2 : content)
  | Repeat (con : content)
  | Element (id : nat) (name : str) (attrs : list attribute) (con : content).

(** The calls of the factory. *)
(* src/include/elm/xom/dtd.h:112-123 Factory *)
Inductive fevent :=
  | EvBegin (e : nat) | EvEnd (e : nat) | EvBacktrack (e : nat)
  | EvPCDATA (data : str) | EvAny (n : xnode) | EvPatch (attr : nat * nat) (object ref : Z).

(** ** Parser *)

(* src/include/elm/xom/dtd.h:97-101 Parser::context_t *)
Record context := mkCtx { cx_i : Z; cx_elt : nat; cx_node : option xnode }.

(** Attributes are known by their element and their rank; [ps_vals] has their field
    [_set] and their value, [ps_posts] those to post-process, with their element. *)
(* src/include/elm/xom/dtd.h:95-108 Parser *)
Record parser := mkPs {
  ps_crop : bool; ps_cur : context; ps_stack : list context;
  ps_map : gmap str Z; ps_patches : gmap str (list ((nat * nat) * Z));
  ps_last_error : option xnode; ps_posts : list (nat * nat * attribute);
  ps_vals : gmap (nat * nat) (bool * str); ps_events : list fevent }.
Abbreviation PM := (IO parser).

Definition upd_cur c s := mkPs (ps_crop s) c (ps_stack s) (ps_map s) (ps_patches s)
  (ps_last_error s) (ps_posts s) (ps_vals s) (ps_events s).
Definition upd_stack c st s := mkPs (ps_crop s) c st (ps_map s) (ps_patches s)
  (ps_last_error s) (ps_posts s) (ps_vals s) (ps_events s).
Definition upd_ids m p s := mkPs (ps_crop s) (ps_cur s) (ps_stack s) m p
  (ps_last_error s) (ps_posts s) (ps_vals s) (ps_events s).
Definition upd_error e s := mkPs (ps_crop s) (ps_cur s) (ps_stack s) (ps_map s) (ps_patches s)
  e (ps_posts s) (ps_vals s) (ps_events s).
Definition upd_posts l s := mkPs (ps_crop s) (ps_cur s) (ps_stack s) (ps_map s) (ps_patches s)
  (ps_last_error s) l (ps_vals s) (ps_events s).
Definition upd_vals v s := mkPs (ps_crop s) (ps_cur s) (ps_stack s) (ps_map s) (ps_patches s)
  (ps_last_error s) (ps_posts s) v (ps_events s).
Definition modify (f : parser -> parser) : PM unit := fun s => Ret (Val tt, f s).
Definition emit (e : fevent) : PM unit := modify (fun s =>
  mkPs (ps_crop s) (ps_cur s) (ps_stack s) (ps_map s) (ps_patches s)
    (ps_last_error s) (ps_posts s) (ps_vals s) (ps_events s ++ [e])).

(* src/src/xom_dtd.cpp:401-418 Parser::isEmpty *)
Definition blank (x : xnode) : bool :=
  match x with
  | XText t => forallb (fun c => (c =? 32) || (c =? 9) || (c =? 11) || (c =? 10)) t
  | _ => false
  end.
Definition DtdParser_isEmpty : PM bool :=
  s ← get_st;
  match cx_node (ps_cur s) with Some n => mret (blank n) | None => lift (Crash Undefined) end.

(* src/include/elm/xom/dtd.h:65-65 Parser::ended *)
Definition DtdParser_ended : PM bool := s ← get_st; mret (match cx_node (ps_cur s) with None => true | _ => false end).
(* src/include/elm/xom/dtd.h:66-66 Parser::current *)
Definition DtdParser_current : PM xnode :=
  s ← get_st; match cx_node (ps_cur s) with Some n => mret n | None => lift (Crash Undefined) end.

(** The loop of [setNode()] on the children from [i]. *)
(* src/src/xom_dtd.cpp:425-431 Parser::setNode *)
Fixpoint find_node (crop : bool) (l : list xnode) (i : Z) : Z * option xnode :=
  match l with
  | [] => (i, None)
  | n :: l => if negb crop || negb (blank n) then (i, Some n) else find_node crop l (i + 1)
  end.
(* src/src/xom_dtd.cpp:423-432 Parser::setNode *)
Definition DtdParser_setNode : PM unit :=
  s ← get_st;
  let cur := ps_cur s in
  match ps_stack s with
  | [] => modify (upd_cur (mkCtx (cx_i cur) (cx_elt cur) None))
  | top :: _ =>
      match cx_node top with
      | None => lift (Crash Undefined)
      | Some p =>
          let r := find_node (ps_crop s) (drop (Z.to_nat (cx_i cur)) (xchildren p)) (cx_i cur) in
          modify (upd_cur (mkCtx r.1 (cx_elt cur) r.2))
      end
  end.

(* src/include/elm/xom/dtd.h:67-67 Parser::next *)
Definition DtdParser_next : PM unit :=
  modify (fun s => upd_cur (mkCtx (cx_i (ps_cur s) + 1) (cx_elt (ps_cur s)) (cx_node (ps_cur s))) s) ;;
  DtdParser_setNode.
(* src/include/elm/xom/dtd.h:70-70 Parser::mark *)
Definition DtdParser_mark : PM Z := s ← get_st; mret (cx_i (ps_cur s)).
(* src/include/elm/xom/dtd.h:71-71 Parser::backtrack *)
Definition DtdParser_backtrack (m : Z) : PM bool :=
  modify (fun s => upd_cur (mkCtx m (cx_elt (ps_cur s)) (cx_node (ps_cur s))) s) ;;
  DtdParser_setNode ;; mret false.
(* src/include/elm/xom/dtd.h:63-63 Parser::recordError *)
Definition DtdParser_recordError : PM unit := modify (fun s => upd_error (cx_node (ps_cur s)) s).
(* src/include/elm/xom/dtd.h:76-76 Parser::hasID *)
Definition DtdParser_hasID (id : str) : PM bool := s ← get_st; mret (match ps_map s !! id with Some _ => true | None => false end).

Section Factory.
Context (getRef : list fevent -> nat -> Z) (getPatchRef : list fevent -> nat * nat -> Z).

(* src/src/xom_dtd.cpp:345-353 Parser::recordID *)
Definition DtdParser_recordID (id : str) (element : nat) : PM unit :=
  s ← get_st;
  let p := getRef (ps_events s) element in
  modify (upd_ids (<[id := p]> (ps_map s)) (ps_patches s)) ;;
  match ps_patches s !! id with
  | Some l =>
      modify (fun s => mkPs (ps_crop s) (ps_cur s) (ps_stack s) (ps_map s) (delete id (ps_patches s))
        (ps_last_error s) (ps_posts s) (ps_vals s)
        (ps_events s ++ ((fun b => EvPatch b.1 b.2 p) <$> l)))
  | None => mret tt
  end.
(* src/src/xom_dtd.cpp:360-363 Parser::recordPatch *)
Definition DtdParser_recordPatch (id : str) (attr : nat * nat) : PM unit :=
  s ← get_st;
  let p := getPatchRef (ps_events s) attr in
  modify (upd_ids (ps_map s) (<[id := (attr, p) :: default [] (ps_patches s !! id)]> (ps_patches s))).
(* src/include/elm/xom/dtd.h:78-78 Parser::addPost *)
Definition DtdParser_addPost (attr : nat * nat) (a : attribute) : PM unit :=
  modify (fun s => upd_posts (ps_posts s ++ [(attr, a)]) s).

(** *** Attributes: [k] is the identity of the attribute, [ps_vals] its fields *)

Definition att_val (k : nat * nat) (s : parser) : bool * str := default (false, []) (ps_vals s !! k).
Definition set_val (k : nat * nat) (v : bool * str) : PM unit := modify (fun s => upd_vals (<[k := v]> (ps_vals s)) s).

(* src/src/xom_dtd.cpp:631-633 AbstractAttribute::reset *)
Definition AbstractAttribute_reset (k : nat * nat) : PM unit :=
  s ← get_st; set_val k (false, (att_val k s).2).
(** The redefinitions of [reset()]: that of [Attribute<String>] does not call the one above. *)
(* src/include/elm/xom/dtd.h:252-266 Attribute::reset *)
Definition att_reset (k : nat * nat) (a : attribute) : PM unit :=
  match at_kind a with
  | KBase | KRef => AbstractAttribute_reset k
  | KTyped _ i => AbstractAttribute_reset k ;; s ← get_st; set_val k ((att_val k s).1, i)
  | KString i => s ← get_st; set_val k ((att_val k s).1, i)
  | KID => AbstractAttribute_reset k ;; s ← get_st; set_val k ((att_val k s).1, [])
  end.

(** The redefinitions of [process()]. *)
(* src/src/xom_dtd.cpp:1091-1101 IDAttribute::process *)
Definition IDAttribute_process (k : nat * nat) (a : attribute) (value : str) : PM bool :=
  h ← DtdParser_hasID value;
  if h : bool then (if at_isStrict a then throw else mret false)
  else s ← get_st; set_val k ((att_val k s).1, value) ;; DtdParser_addPost k a ;; mret true.
(* src/include/elm/xom/dtd.h:294-310 RefAttribute::process *)
Definition RefAttribute_process (k : nat * nat) (a : attribute) (value : str) : PM bool :=
  s ← get_st;
  set_val k ((att_val k s).1, value) ;;
  h ← DtdParser_hasID value;
  if h : bool then mret true
  else if at_isForward a then DtdParser_addPost k a ;; mret true
  else if at_isStrict a then throw else mret false.
(* src/include/elm/xom/dtd.h:250-251 Attribute::process *)
Definition att_process (k : nat * nat) (a : attribute) (value : str) : PM bool :=
  match at_kind a with
  | KBase => mret true
  | KTyped conv _ => s ← get_st; set_val k ((att_val k s).1, value) ;; mret (conv value)
  | KString _ => s ← get_st; set_val k ((att_val k s).1, value) ;; mret true
  | KID => IDAttribute_process k a value
  | KRef => RefAttribute_process k a value
  end.

(* src/src/xom_dtd.cpp:606-616 AbstractAttribute::parse *)
Definition att_parse (k : nat * nat) (a : attribute) : PM bool :=
  n ← DtdParser_current;
  match xatt n (at_name a) with
  | Some val =>
      s ← get_st;
      set_val k (true, (att_val k s).2) ;;
      att_process k a val
  | None => att_reset k a ;; mret (negb (at_isRequired a))
  end.

(** The redefinitions of [postprocess()]. *)
(* src/src/xom_dtd.cpp:1104-1106 IDAttribute::postprocess *)
Definition att_postprocess (p : nat * nat * attribute) : PM unit :=
  s ← get_st;
  let id := (att_val p.1 s).2 in
  match at_kind p.2 with
  | KID => DtdParser_recordID id p.1.1
  | KRef => DtdParser_recordPatch id p.1
  | _ => mret tt
  end.

(** *** Contexts *)

Fixpoint mapM_ {A} (f : A -> PM unit) (l : list A) : PM unit :=
  match l with [] => mret tt | x :: l => f x ;; mapM_ f l end.

(* src/src/xom_dtd.cpp:304-320 Parser::begin *)
Definition DtdParser_begin (e : nat) : PM unit :=
  emit (EvBegin e) ;;
  s ← get_st;
  mapM_ att_postprocess (ps_posts s) ;;
  modify (upd_posts []) ;;
  DtdParser_recordError ;;
  modify (fun s => upd_stack (mkCtx 0 e (cx_node (ps_cur s))) (ps_cur s :: ps_stack s) s) ;;
  DtdParser_setNode.

(* src/src/xom_dtd.cpp:325-338 Parser::end *)
Definition DtdParser_end (success : bool) : PM unit :=
  s ← get_st;
  let elt := cx_elt (ps_cur s) in
  match ps_stack s with
  | [] => lift (Crash Undefined)
  | top :: st =>
      modify (upd_stack top st) ;;
      if success then emit (EvEnd elt) ;; DtdParser_next else emit (EvBacktrack elt)
  end.

(** *** Contents; the fuel of a loop is the number of children of the element *)

Definition loop_fuel (s : parser) : nat :=
  match ps_stack s with
  | top :: _ => match cx_node top with Some p => S (length (xchildren p)) | None => 1 end
  | [] => 2
  end.

(* src/src/xom_dtd.cpp:678-686 EmptyContent::parse *)
Definition EMPTY_parse : PM bool :=
  s ← get_st;
  m ← DtdParser_mark;
  io_iter (loop_fuel s) (fun _ : unit =>
    e ← DtdParser_ended;
    if e : bool then mret (inr true) else
    b ← DtdParser_isEmpty;
    if b : bool then DtdParser_next ;; mret (inl tt)
    else DtdParser_backtrack m ;; mret (inr false)) tt.
(* src/src/xom_dtd.cpp:701-705 IgnoredContent::parse *)
Definition Ignored_parse : PM bool :=
  s ← get_st;
  io_iter (loop_fuel s) (fun _ : unit =>
    e ← DtdParser_ended;
    if e : bool then mret (inr true) else DtdParser_next ;; mret (inl tt)) tt.
(* src/src/xom_dtd.cpp:1024-1034 PCDATAContent::parse *)
Definition PCDATA_parse : PM bool :=
  e ← DtdParser_ended;
  if e : bool then emit (EvPCDATA []) ;; mret true else
  n ← DtdParser_current;
  match n with
  | XText t => emit (EvPCDATA t) ;; DtdParser_next ;; mret true
  | _ => mret false
  end.
(* src/src/xom_dtd.cpp:1053-1059 AnyContent::parse *)
Definition ANY_parse : PM bool :=
  s ← get_st;
  io_iter (loop_fuel s) (fun _ : unit =>
    e ← DtdParser_ended;
    if e : bool then mret (inr true)
    else n ← DtdParser_current; emit (EvAny n) ;; DtdParser_next ;; mret (inl tt)) tt.

(** The loop on the attributes of an element, from the [j]-th. *)
(* src/src/xom_dtd.cpp:815-820 Element::parse *)
Fixpoint parse_attrs (id j : nat) (attrs : list attribute) : PM bool :=
  match attrs with
  | [] => mret true
  | a :: attrs =>
      b ← att_parse (id, j) a;
      if b : bool then parse_attrs id (S j) attrs else DtdParser_recordError ;; mret false
  end.

(** The classes that have contents: their [parse()] from those of the contents. *)
(* src/src/xom_dtd.cpp:917-921 Optional::parse *)
Definition Optional_parse (con : PM bool) : PM bool :=
  e ← DtdParser_ended;
  if e : bool then mret true else con ;; mret true.
(* src/src/xom_dtd.cpp:937-944 Alt::parse *)
Definition Alt_parse (con1 con2 : PM bool) : PM bool :=
  b1 ← con1;
  if b1 : bool then mret true else
  b2 ← con2;
  if b2 : bool then mret true else mret false.
(* src/src/xom_dtd.cpp:967-979 Seq::parse *)
Definition Seq_parse (con1 con2 : PM bool) : PM bool :=
  e ← DtdParser_ended;
  if e : bool then mret false else
  m ← DtdParser_mark;
  b1 ← con1;
  if negb b1 then DtdParser_backtrack m else
  b2 ← con2;
  if negb b2 then DtdParser_backtrack m else mret true.
(* src/src/xom_dtd.cpp:1001-1007 Repeat::parse *)
Definition Repeat_parse (con : PM bool) : PM bool :=
  s ← get_st;
  io_iter (loop_fuel s) (fun _ : unit =>
    e ← DtdParser_ended;
    if e : bool then mret (inr true) else
    b ← con;
    mret (if b : bool then inl tt else inr true)) tt.
(* src/src/xom_dtd.cpp:822-830 Element::parse *)
Definition Element_content (id : nat) (con : PM bool) : PM bool :=
  DtdParser_begin id ;;
  success ← con;
  e ← DtdParser_ended;
  success ← (if e : bool then mret success else DtdParser_recordError ;; mret false);
  DtdParser_end success ;;
  mret success.
(* src/src/xom_dtd.cpp:805-831 Element::parse *)
Definition Element_parse (id : nat) (name : str) (attrs : list attribute) (con : PM bool) : PM bool :=
  e ← DtdParser_ended;
  if e : bool then mret false else
  n ← DtdParser_current;
  match n with
  | XElem ename _ _ =>
      if bool_decide (ename <> name) then mret false else
      ok ← parse_attrs id 0 attrs;
      if negb ok then mret false else Element_content id con
  | _ => mret false
  end.
(* src/include/elm/xom/dtd.h:168-168 Content::parse *)
Fixpoint Content_parse (c : content) : PM bool :=
  match c with
  | EMPTY => EMPTY_parse
  | Ignored => Ignored_parse
  | PCDATA => PCDATA_parse
  | ANY => ANY_parse
  | Optional con => Optional_parse (Content_parse con)
  | Alt con1 con2 => Alt_parse (Content_parse con1) (Content_parse con2)
  | Seq con1 con2 => Seq_parse (Content_parse con1) (Content_parse con2)
  | Repeat con => Repeat_parse (Content_parse con)
  | Element id name attrs con => Element_parse id name attrs (Content_parse con)
  end.

(** *** Whole documents *)

Fixpoint reset_attrs (id j : nat) (attrs : list attribute) : PM unit :=
  match attrs with [] => mret tt | a :: attrs => att_reset (id, j) a ;; reset_attrs id (S j) attrs end.
(* src/src/xom_dtd.cpp:798-802 Element::reset *)
Fixpoint Content_reset (c : content) : PM unit :=
  match c with
  | EMPTY | Ignored | PCDATA | ANY => mret tt
  | Optional con | Repeat con => Content_reset con
  | Alt con1 con2 | Seq con1 con2 => Content_reset con1 ;; Content_reset con2
  | Element id _ attrs con => reset_attrs id 0 attrs ;; Content_reset con
  end.

(* src/src/xom_dtd.cpp:185-186 Parser::Parser *)
Definition DtdParser_make (crop : bool) : parser := mkPs crop (mkCtx 0 0 None) [] ∅ ∅ None [] ∅ [].

(** [fail()] and the exception for pending references are [throw]. *)
(* src/src/xom_dtd.cpp:371-395 Parser::parse *)
Definition DtdParser_parse (elt : content) (xelt : xnode) : PM unit :=
  modify (fun s => upd_ids (ps_map s) ∅ s) ;;
  modify (upd_posts []) ;;
  Content_reset elt ;;
  modify (upd_cur (mkCtx 0 (match elt with Element id _ _ _ => id | _ => 0%nat end) (Some xelt))) ;;
  modify (upd_error (Some xelt)) ;;
  b ← Content_parse elt;
  if negb b then throw else
  s ← get_st;
  if bool_decide (ps_patches s = ∅) then mret tt else throw.

(* src/src/xom_dtd.cpp:840-843 Element::parse *)
Definition Element_parse_document (elt : content) (xelt : xnode) (crop : bool) : outcome (result unit * parser) :=
  DtdParser_parse elt xelt (DtdParser_make crop).

End Factory.

(** ** Reference semantics

    What a content recognises at the start of a list of nodes, without state: [None]
    when the code does not end; otherwise the list left, if it is recognised, and the
    calls of the factory. Attributes that are identifiers or references are excluded
    here, since they depend on the rest of the document. *)

Definition att_ok (n : xnode) (a : attribute) : bool :=
  match xatt n (at_name a) with
  | Some v => match at_kind a with KTyped conv _ => conv v | _ => true end
  | None => negb (at_isRequired a)
  end.

Definition visible (crop : bool) (l : list xnode) : list xnode :=
  filter (fun n => negb crop || negb (blank n) = true) l.

Definition outcome_of : Type := option (option (list xnode) * list fevent).
Definition with_events (ev : list fevent) (r : outcome_of) : outcome_of :=
  match r with Some (x, ev') => Some (x, ev ++ ev') | None => None end.

Fixpoint peg_repeat (f : list xnode -> outcome_of) (fuel : nat) (l : list xnode) : outcome_of :=
  match fuel with
  | O => None
  | S fuel =>
      match l with
      | [] => Some (Some [], [])
      | _ => match f l with
             | None => None
             | Some (None, ev) => Some (Some l, ev)
             | Some (Some l', ev) => with_events ev (peg_repeat f fuel l')
             end
      end
  end.

(** May be empty. *)
Fixpoint optional (c : content) : bool :=
  match c with
  | EMPTY | Ignored | PCDATA | ANY | Optional _ | Repeat _ => true
  | Alt con1 con2 => optional con1 || optional con2
  | Seq con1 con2 => optional con1 && optional con2
  | Element _ _ _ _ => false
  end.

(** A sequence that may not be empty refuses the end at once. *)
Fixpoint peg (crop : bool) (c : content) (l : list xnode) : outcome_of :=
  match c with
  | EMPTY => Some (if forallb blank l then Some [] else None, [])
  | Ignored => Some (Some [], [])
  | PCDATA => match l with
              | [] => Some (Some [], [EvPCDATA []])
              | XText t :: l => Some (Some l, [EvPCDATA t])
              | _ => Some (None, [])
              end
  | ANY => Some (Some [], EvAny <$> l)
  | Optional con =>
      match l with
      | [] => Some (Some [], [])
      | _ => match peg crop con l with
             | Some (None, ev) => Some (Some l, ev)
             | r => r
             end
      end
  | Alt con1 con2 =>
      match peg crop con1 l with
      | Some (None, ev) => with_events ev (peg crop con2 l)
      | r => r
      end
  | Seq con1 con2 =>
      if bool_decide (l = []) && negb (optional con1 && optional con2) then Some (None, [])
      else match peg crop con1 l with
           | Some (Some l', ev) => with_events ev (peg crop con2 l')
           | r => r
           end
  | Repeat con => peg_repeat (peg crop con) (S (length l)) l
  | Element id name attrs con =>
      match l with
      | XElem ename atts kids :: l' =>
          if bool_decide (ename = name) && forallb (att_ok (XElem ename atts kids)) attrs then
            match peg crop con (visible crop kids) with
            | None => None
            | Some (Some [], ev) => Some (Some l', EvBegin id :: ev ++ [EvEnd id])
            | Some (_, ev) => Some (None, EvBegin id :: ev ++ [EvBacktrack id])
            end
          else Some (None, [])
      | _ => Some (None, [])
      end
  end.

(** No identifier, no reference, no strict attribute, and sequences that may not be
    empty. *)
Definition simple_att (a : attribute) : Prop :=
  match at_kind a with KID | KRef => False | _ => at_isStrict a = false end.
Fixpoint simple (c : content) : Prop :=
  match c with
  | EMPTY | Ignored | PCDATA | ANY => True
  | Optional con | Repeat con => simple con
  | Alt con1 con2 => simple con1 /\ simple con2
  | Seq con1 con2 => simple con1 /\ simple con2 /\ optional con1 && optional con2 = false
  | Element _ _ attrs con => Forall simple_att attrs /\ simple con
  end.

(** ** The parser follows the reference *)

(** The parser is in the children of an element, at the visible nodes [l]. *)
Definition at_list (s : parser) (l : list xnode) : Prop :=
  exists top st p, ps_stack s = top :: st /\ cx_node top = Some p /\ 0 <= cx_i (ps_cur s) /\
    l = visible (ps_crop s) (drop (Z.to_nat (cx_i (ps_cur s))) (xchildren p)) /\
    find_node (ps_crop s) (drop (Z.to_nat (cx_i (ps_cur s))) (xchildren p)) (cx_i (ps_cur s))
      = (cx_i (ps_cur s), cx_node (ps_cur s)).

(** What the recognition of a content does not change. *)
Record frame (s s' : parser) : Prop := {
  fr_crop : ps_crop s' = ps_crop s; fr_stack : ps_stack s' = ps_stack s;
  fr_map : ps_map s' = ps_map s; fr_patches : ps_patches s' = ps_patches s;
  fr_posts : ps_posts s' = ps_posts s; fr_elt : cx_elt (ps_cur s') = cx_elt (ps_cur s) }.
Lemma frame_refl s : frame s s.
Proof. done. Qed.
Lemma frame_trans s1 s2 s3 : frame s1 s2 -> frame s2 s3 -> frame s1 s3.
Proof. intros [] []. split; congruence. Qed.

Lemma find_node_spec crop l i : exists j, find_node crop l i = (i + Z.of_nat j, head (visible crop l)) /\
  visible crop (drop j l) = visible crop l /\ find_node crop (drop j l) (i + Z.of_nat j) = (i + Z.of_nat j, head (visible crop l)) /\
  match head (visible crop l) with
  | Some n => drop j l = n :: drop (S j) l /\ visible crop l = n :: visible crop (drop (S j) l)
  | None => drop j l = []
  end.
Proof.
  revert i. induction l as [|n l IH]; intros i; cbn [find_node].
  - exists 0%nat. cbn. by rewrite Z.add_0_r.
  - unfold visible. rewrite filter_cons. destruct (negb crop || negb (blank n)) eqn:E.
    + exists 0%nat. rewrite decide_True by done. cbn [drop find_node head]. rewrite E, Z.add_0_r.
      rewrite filter_cons_True by done. by rewrite drop_0.
    + rewrite decide_False by done. destruct (IH (i + 1)) as (j & H1 & H2 & H3 & H4).
      exists (S j). replace (i + Z.of_nat (S j)) with (i + 1 + Z.of_nat j) by lia.
      split; [exact H1|]. split; [exact H2|]. split; [exact H3|exact H4].
Qed.

Lemma modify_bind {A} f (k : unit -> PM A) s : (modify f ≫= k) s = k tt (f s).
Proof. done. Qed.
Lemma get_bind {A} (k : parser -> PM A) s : (get_st ≫= k) s = k s s.
Proof. done. Qed.

Lemma io_bind_assoc {S A B C} (m : IO S A) (f : A -> IO S B) (g : B -> IO S C) s :
  ((m ≫= f) ≫= g) s = (m ≫= fun x => f x ≫= g) s.
Proof. unfold mbind, io_bind. by destruct (m s) as [[[x|] s']|]. Qed.

(** [setNode()] from any index. *)
Lemma setNode_ok s top st p : ps_stack s = top :: st -> cx_node top = Some p -> 0 <= cx_i (ps_cur s) ->
  exists s', DtdParser_setNode s = Ret (Val tt, s') /\
    at_list s' (visible (ps_crop s) (drop (Z.to_nat (cx_i (ps_cur s))) (xchildren p))) /\ frame s s' /\
    ps_events s' = ps_events s.
Proof.
  intros Es Et Hi. unfold DtdParser_setNode, mbind, io_bind, get_st. rewrite Es, Et. unfold modify.
  eexists. split; [done|].
  destruct (find_node_spec (ps_crop s) (drop (Z.to_nat (cx_i (ps_cur s))) (xchildren p)) (cx_i (ps_cur s)))
    as (j & H1 & H2 & H3 & H4).
  split; [|by split]. exists top, st, p. cbn. rewrite H1. cbn. split; [done|]. split; [done|].
  split; [lia|]. rewrite drop_drop in H2, H3.
  replace (Z.to_nat (cx_i (ps_cur s) + Z.of_nat j)) with (Z.to_nat (cx_i (ps_cur s)) + j)%nat by lia. done.
Qed.

(** When the parser is placed, [setNode()] changes nothing. *)
Lemma setNode_same s l : at_list s l -> DtdParser_setNode s = Ret (Val tt, s).
Proof.
  intros (top & st & p & Es & Et & Hi & _ & E). unfold DtdParser_setNode, mbind, io_bind, get_st.
  rewrite Es, Et, E. unfold modify, upd_cur. destruct s as [? [] ? ? ? ? ? ?]. done.
Qed.

Lemma at_node s l : at_list s l -> cx_node (ps_cur s) = head l.
Proof.
  intros (top & st & p & Es & Et & Hi & -> & E).
  destruct (find_node_spec (ps_crop s) (drop (Z.to_nat (cx_i (ps_cur s))) (xchildren p)) (cx_i (ps_cur s)))
    as (j & H1 & _). rewrite E in H1. by injection H1.
Qed.

Lemma ended_ok s l : at_list s l -> DtdParser_ended s = Ret (Val (match l with [] => true | _ => false end), s).
Proof. intros A. unfold DtdParser_ended, mbind, io_bind, get_st. rewrite (at_node s l A). by destruct l. Qed.
Lemma current_ok s n l : at_list s (n :: l) -> DtdParser_current s = Ret (Val n, s).
Proof. intros A. unfold DtdParser_current, mbind, io_bind, get_st. by rewrite (at_node s _ A). Qed.

Lemma dtd_next_ok s n l : at_list s (n :: l) -> exists s', DtdParser_next s = Ret (Val tt, s') /\
  at_list s' l /\ frame s s' /\ ps_events s' = ps_events s.
Proof.
  intros (top & st & p & Es & Et & Hi & El & E). unfold DtdParser_next.
  set (s1 := upd_cur (mkCtx (cx_i (ps_cur s) + 1) (cx_elt (ps_cur s)) (cx_node (ps_cur s))) s).
  rewrite modify_bind. fold s1. destruct (setNode_ok s1 top st p Es Et) as (s' & -> & A & F & Ev); [cbn; lia|].
  exists s'. split; [done|]. split; [|split; [by destruct F; split|done]].
  replace l with (visible (ps_crop s1) (drop (Z.to_nat (cx_i (ps_cur s1))) (xchildren p))); [done|]. cbn.
  destruct (find_node_spec (ps_crop s) (drop (Z.to_nat (cx_i (ps_cur s))) (xchildren p)) (cx_i (ps_cur s)))
    as (j & H1 & _ & _ & H4). rewrite E in H1. injection H1 as Hj _. assert (j = 0%nat) as -> by lia.
  rewrite <- El in H4. cbn [head] in H4. destruct H4 as [_ H4]. injection H4 as ->. rewrite drop_drop.
  f_equal. f_equal. lia.
Qed.

(** Back to a mark taken when the parser was at [l]. *)
Lemma backtrack_ok s s' l : at_list s l -> frame s s' ->
  exists s2, DtdParser_backtrack (cx_i (ps_cur s)) s' = Ret (Val false, s2) /\ ps_cur s2 = ps_cur s /\
    frame s s2 /\ ps_events s2 = ps_events s'.
Proof.
  intros (top & st & p & Es & Et & Hi & El & E) F. unfold DtdParser_backtrack. rewrite modify_bind.
  set (s1 := upd_cur _ s'). exists (upd_cur (mkCtx (cx_i (ps_cur s)) (cx_elt (ps_cur s)) (cx_node (ps_cur s))) s').
  split; [|split; [cbn; by destruct (ps_cur s)|split; [destruct F; by split|done]]].
  assert (DtdParser_setNode s1 = Ret (Val tt, upd_cur (mkCtx (cx_i (ps_cur s)) (cx_elt (ps_cur s)) (cx_node (ps_cur s))) s'))
    as E1; [|by rewrite (io_bind_Val _ _ _ _ _ E1)].
  unfold DtdParser_setNode. rewrite get_bind. unfold s1. cbn [upd_cur ps_stack ps_cur cx_i cx_elt ps_crop].
  rewrite (fr_stack _ _ F), Es, Et, (fr_crop _ _ F), E, (fr_elt _ _ F). done.
Qed.
Lemma at_list_same s s' l : at_list s l -> ps_cur s' = ps_cur s -> frame s s' -> at_list s' l.
Proof.
  intros (top & st & p & H) Ec F. exists top, st, p. by rewrite Ec, (fr_stack _ _ F), (fr_crop _ _ F).
Qed.

Definition recognised (r : option (list xnode)) : bool := match r with Some _ => true | None => false end.

(** [f] does what [g] says: the same answer, the same calls of the factory; it leaves
    the parser at the nodes left, or where it was. *)
Record does (s : parser) (r : option (list xnode)) (ev : list fevent) (s' : parser) : Prop := {
  do_frame : frame s s';
  do_events : ps_events s' = ps_events s ++ ev;
  do_at : match r with Some l' => at_list s' l' | None => ps_cur s' = ps_cur s end }.
Definition follows (crop : bool) (f : PM bool) (g : list xnode -> outcome_of) : Prop :=
  forall s l r ev, ps_crop s = crop -> at_list s l -> ps_posts s = [] -> g l = Some (r, ev) ->
  exists s', f s = Ret (Val (recognised r), s') /\ does s r ev s'.

Lemma does_trans s s1 s2 l1 ev1 r ev : does s (Some l1) ev1 s1 -> does s1 r ev s2 -> r <> None ->
  does s r (ev1 ++ ev) s2.
Proof.
  intros [F1 E1 A1] [F2 E2 A2] Hr. split; [by eapply frame_trans|by rewrite E2, E1, app_assoc|].
  by destruct r.
Qed.
Lemma does_refl s l : at_list s l -> does s (Some l) [] s.
Proof. intros A. split; [apply frame_refl|by rewrite app_nil_r|done]. Qed.
Lemma does_posts s r ev s' : does s r ev s' -> ps_posts s = [] -> ps_posts s' = [].
Proof. intros D <-. apply D. Qed.
Lemma does_crop s r ev s' : does s r ev s' -> ps_crop s' = ps_crop s.
Proof. intros D. apply D. Qed.

(** There is fuel for one turn by node, and one more. *)
Lemma fuel_ok s l : at_list s l -> (length l < loop_fuel s)%nat.
Proof.
  intros (top & st & p & Es & Et & _ & -> & _). unfold loop_fuel. rewrite Es, Et.
  assert (forall k, (length (visible (ps_crop s) k) <= length k)%nat) as V
    by (intros k; apply length_filter).
  specialize (V (drop (Z.to_nat (cx_i (ps_cur s))) (xchildren p))). rewrite length_drop in V. lia.
Qed.

(** A step that consumes one node. *)
Lemma does_next s n l s1 s' ev : at_list s' l -> frame s s' -> ps_events s' = ps_events s ->
  does s1 (Some (n :: l)) ev s -> does s1 (Some l) ev s'.
Proof.
  intros A' F E [F1 E1 _]. split; [by eapply frame_trans|by rewrite E|done].
Qed.

Section Loops.
Context (crop : bool).

(** The loops of [EMPTY], [Ignored] and [ANY], after a part of the nodes. *)
Lemma Ignored_loop l : forall fuel s0 s ev, does s0 (Some l) ev s -> (length l < fuel)%nat ->
  exists s', io_iter fuel (fun _ : unit =>
    e ← DtdParser_ended; if e : bool then mret (inr true) else DtdParser_next ;; mret (inl tt)) tt s
    = Ret (Val true, s') /\ does s0 (Some []) ev s'.
Proof.
  induction l as [|n l IH]; intros fuel s0 s ev D Hf; (destruct fuel as [|fuel]; [cbn in Hf; lia|]);
    pose proof (do_at _ _ _ _ D) as A; pose proof (ended_ok s _ A) as Ee.
  - exists s. split; [|done]. apply io_iter_inr. by rewrite (io_bind_Val _ _ _ _ _ Ee).
  - destruct (dtd_next_ok s n l A) as (s' & En & A' & F & Ev).
    erewrite io_iter_inl by (rewrite (io_bind_Val _ _ _ _ _ Ee), (io_bind_Val _ _ _ _ _ En); done).
    apply IH; [by eapply (does_next s n l)|cbn in Hf; lia].
Qed.

Lemma ANY_loop l : forall fuel s0 s ev, does s0 (Some l) ev s -> (length l < fuel)%nat ->
  exists s', io_iter fuel (fun _ : unit =>
    e ← DtdParser_ended;
    if e : bool then mret (inr true)
    else n ← DtdParser_current; emit (EvAny n) ;; DtdParser_next ;; mret (inl tt)) tt s
    = Ret (Val true, s') /\ does s0 (Some []) (ev ++ (EvAny <$> l)) s'.
Proof.
  induction l as [|n l IH]; intros fuel s0 s ev D Hf; (destruct fuel as [|fuel]; [cbn in Hf; lia|]);
    pose proof (do_at _ _ _ _ D) as A; pose proof (ended_ok s _ A) as Ee.
  - exists s. rewrite app_nil_r. split; [|done]. apply io_iter_inr. by rewrite (io_bind_Val _ _ _ _ _ Ee).
  - pose proof (current_ok s n l A) as Ec. set (s1 := mkPs (ps_crop s) (ps_cur s) (ps_stack s) (ps_map s)
      (ps_patches s) (ps_last_error s) (ps_posts s) (ps_vals s) (ps_events s ++ [EvAny n])).
    assert (at_list s1 (n :: l)) as A1 by exact A.
    destruct (dtd_next_ok s1 n l A1) as (s' & En & A' & F & Ev).
    erewrite io_iter_inl by (rewrite (io_bind_Val _ _ _ _ _ Ee), (io_bind_Val _ _ _ _ _ Ec);
      unfold emit; rewrite modify_bind; fold s1; rewrite (io_bind_Val _ _ _ _ _ En); done).
    rewrite fmap_cons, cons_middle, app_assoc. apply IH; [|cbn in Hf; lia].
    destruct D as [F0 E0 _]. split; [|by rewrite Ev; cbn; rewrite E0, app_assoc|done].
    eapply frame_trans; [exact F0|]. destruct F. by split.
Qed.

Lemma EMPTY_loop l : forall fuel s0 s, does s0 (Some l) [] s -> (length l < fuel)%nat ->
  forall l0, at_list s0 l0 ->
  exists s', io_iter fuel (fun _ : unit =>
    e ← DtdParser_ended;
    if e : bool then mret (inr true) else
    b ← DtdParser_isEmpty;
    if b : bool then DtdParser_next ;; mret (inl tt)
    else DtdParser_backtrack (cx_i (ps_cur s0)) ;; mret (inr false)) tt s
    = Ret (Val (forallb blank l), s') /\ does s0 (if forallb blank l then Some [] else None) [] s'.
Proof.
  induction l as [|n l IH]; intros fuel s0 s D Hf l0 A0; (destruct fuel as [|fuel]; [cbn in Hf; lia|]);
    pose proof (do_at _ _ _ _ D) as A; pose proof (ended_ok s _ A) as Ee.
  - exists s. split; [|done]. apply io_iter_inr. by rewrite (io_bind_Val _ _ _ _ _ Ee).
  - assert (DtdParser_isEmpty s = Ret (Val (blank n), s)) as Eb.
    { unfold DtdParser_isEmpty. rewrite get_bind, (at_node s _ A). done. }
    cbn [forallb]. destruct (blank n) eqn:En; cbn [andb].
    + destruct (dtd_next_ok s n l A) as (s' & Enx & A' & F & Ev).
      erewrite io_iter_inl by (rewrite (io_bind_Val _ _ _ _ _ Ee), (io_bind_Val _ _ _ _ _ Eb),
        (io_bind_Val _ _ _ _ _ Enx); done).
      apply (IH fuel s0 s' ltac:(by eapply (does_next s n l)) ltac:(cbn in Hf; lia) l0 A0).
    + destruct (backtrack_ok s0 s l0 A0 (do_frame _ _ _ _ D)) as (s2 & E2 & Ec & F2 & Ev).
      exists s2. split; [|split; [done|rewrite Ev; apply D|done]].
      apply io_iter_inr. by rewrite (io_bind_Val _ _ _ _ _ Ee), (io_bind_Val _ _ _ _ _ Eb),
        (io_bind_Val _ _ _ _ _ E2).
Qed.

Lemma follows_EMPTY : follows crop EMPTY_parse (peg crop EMPTY).
Proof.
  intros s l r ev Hc A _ [= <- <-]. unfold EMPTY_parse, DtdParser_mark. rewrite get_bind.
  rewrite (io_bind_Val _ _ s (cx_i (ps_cur s)) s) by done.
  destruct (EMPTY_loop l (loop_fuel s) s s (does_refl s l A) (fuel_ok s l A) l A) as (s' & E & D).
  exists s'. split; [|done]. rewrite E. by destruct (forallb blank l).
Qed.
Lemma follows_Ignored : follows crop Ignored_parse (peg crop Ignored).
Proof.
  intros s l r ev Hc A _ [= <- <-]. unfold Ignored_parse. rewrite get_bind.
  apply (Ignored_loop l _ s s []); [by apply does_refl|by apply fuel_ok].
Qed.
Lemma follows_ANY : follows crop ANY_parse (peg crop ANY).
Proof.
  intros s l r ev Hc A _ [= <- <-]. unfold ANY_parse. rewrite get_bind.
  apply (ANY_loop l _ s s []); [by apply does_refl|by apply fuel_ok].
Qed.

(** A call of the factory changes nothing else. *)
Lemma emit_does s l e : at_list s l -> exists s', emit e s = Ret (Val tt, s') /\ does s (Some l) [e] s'.
Proof. intros A. eexists. split; [done|]. by split. Qed.

Lemma follows_PCDATA : follows crop PCDATA_parse (peg crop PCDATA).
Proof.
  intros s l r ev Hc A _ E. unfold PCDATA_parse. rewrite (io_bind_Val _ _ _ _ _ (ended_ok s l A)).
  destruct l as [|n l]; cbn in E.
  - injection E as <- <-. destruct (emit_does s [] (EvPCDATA []) A) as (s' & E & D).
    exists s'. rewrite (io_bind_Val _ _ _ _ _ E). done.
  - rewrite (io_bind_Val _ _ _ _ _ (current_ok s n l A)). destruct n as [t|? ? ?|]; injection E as <- <-.
    + destruct (emit_does s (XText t :: l) (EvPCDATA t) A) as (s1 & E & D). rewrite (io_bind_Val _ _ _ _ _ E).
      pose proof (do_at _ _ _ _ D) as A1. destruct (dtd_next_ok s1 _ l A1) as (s' & En & A' & F & Ev).
      exists s'. rewrite (io_bind_Val _ _ _ _ _ En). split; [done|]. by eapply (does_next s1).
    + exists s. split; [done|]. split; [done|by rewrite app_nil_r|done].
    + exists s. split; [done|]. split; [done|by rewrite app_nil_r|done].
Qed.
End Loops.

(** A content not recognised leaves the parser where it was. *)
Lemma does_failed s0 l ev s ev1 s1 : does s0 (Some l) ev s -> does s None ev1 s1 ->
  does s0 (Some l) (ev ++ ev1) s1.
Proof.
  intros [F E A] [F1 E1 A1]. split; [by eapply frame_trans|by rewrite E1, E, app_assoc|].
  by apply (at_list_same s).
Qed.

Section Composed.
Context (crop : bool) (f1 f2 : PM bool) (g1 g2 : list xnode -> outcome_of).
Context (H1 : follows crop f1 g1) (H2 : follows crop f2 g2).

Lemma Optional_follows s l r ev : ps_crop s = crop -> at_list s l -> ps_posts s = [] ->
  match l with [] => Some (Some [], []) | _ =>
    match g1 l with Some (None, ev) => Some (Some l, ev) | r => r end end = Some (r, ev) ->
  exists s', Optional_parse f1 s = Ret (Val (recognised r), s') /\ does s r ev s'.
Proof.
  intros Hc A Hp E. unfold Optional_parse. rewrite (io_bind_Val _ _ _ _ _ (ended_ok s l A)).
  destruct l as [|n l]; [injection E as <- <-; exists s; split; [done|by apply does_refl]|].
  destruct (g1 (n :: l)) as [[r1 ev1]|] eqn:E1; [|done].
  destruct (H1 s (n :: l) r1 ev1 Hc A Hp E1) as (s1 & Ef & D). rewrite (io_bind_Val _ _ _ _ _ Ef).
  exists s1. destruct r1 as [l1|]; injection E as <- <-; (split; [done|]); [done|].
  by apply (does_failed s (n :: l) [] s); [apply does_refl|].
Qed.

Lemma Alt_follows s l r ev : ps_crop s = crop -> at_list s l -> ps_posts s = [] ->
  match g1 l with Some (None, ev) => with_events ev (g2 l) | r => r end = Some (r, ev) ->
  exists s', Alt_parse f1 f2 s = Ret (Val (recognised r), s') /\ does s r ev s'.
Proof.
  intros Hc A Hp E. unfold Alt_parse. destruct (g1 l) as [[r1 ev1]|] eqn:E1; [|done].
  destruct (H1 s l r1 ev1 Hc A Hp E1) as (s1 & Ef & D). rewrite (io_bind_Val _ _ _ _ _ Ef).
  destruct r1 as [l1|]; cbn [recognised]; [injection E as <- <-; by exists s1|].
  destruct (g2 l) as [[r2 ev2]|] eqn:E2; [|done]. injection E as <- <-.
  destruct (H2 s1 l r2 ev2) as (s2 & Ef2 & D2);
    [rewrite (does_crop _ _ _ _ D); done|by eapply at_list_same; [done|apply D|apply D]|by eapply does_posts|done|].
  rewrite (io_bind_Val _ _ _ _ _ Ef2). exists s2. split; [by destruct r2|].
  destruct D as [F Ev Ac], D2 as [F2 Ev2 Ac2]. split; [by eapply frame_trans|by rewrite Ev2, Ev, app_assoc|].
  destruct r2; [done|congruence].
Qed.

Lemma Seq_follows s l r ev : ps_crop s = crop -> at_list s l -> ps_posts s = [] ->
  match l with [] => Some (None, []) | _ =>
    match g1 l with Some (Some l', ev) => with_events ev (g2 l') | r => r end end = Some (r, ev) ->
  exists s', Seq_parse f1 f2 s = Ret (Val (recognised r), s') /\ does s r ev s'.
Proof.
  intros Hc A Hp E. unfold Seq_parse. rewrite (io_bind_Val _ _ _ _ _ (ended_ok s l A)).
  destruct l as [|n l].
  { injection E as <- <-. exists s. split; [done|]. split; [done|by rewrite app_nil_r|done]. }
  rewrite (io_bind_Val DtdParser_mark _ s (cx_i (ps_cur s)) s) by done.
  assert (forall s1 ev1, frame s s1 -> ps_events s1 = ps_events s ++ ev1 -> exists s',
    DtdParser_backtrack (cx_i (ps_cur s)) s1 = Ret (Val false, s') /\ does s None ev1 s') as Back.
  { intros s1 ev1 F Ev. destruct (backtrack_ok s s1 (n :: l) A F) as (s2 & Eb & Ec & F2 & Ev2).
    exists s2. split; [done|]. split; [done|congruence|done]. }
  destruct (g1 (n :: l)) as [[r1 ev1]|] eqn:E1; [|done].
  destruct (H1 s (n :: l) r1 ev1 Hc A Hp E1) as (s1 & Ef & D). rewrite (io_bind_Val _ _ _ _ _ Ef).
  destruct r1 as [l1|]; cbn [recognised negb].
  - destruct (g2 l1) as [[r2 ev2]|] eqn:E2; [|done]. injection E as <- <-.
    destruct (H2 s1 l1 r2 ev2) as (s2 & Ef2 & D2);
      [rewrite (does_crop _ _ _ _ D); done|apply D|by eapply does_posts|done|].
    rewrite (io_bind_Val _ _ _ _ _ Ef2). destruct r2 as [l2|]; cbn [recognised negb].
    + exists s2. split; [done|]. by eapply does_trans.
    + apply Back; [by eapply frame_trans; [apply D|apply D2]|].
      destruct D as [_ Ev _], D2 as [_ Ev2 _]. by rewrite Ev2, Ev, app_assoc.
  - injection E as <- <-. apply Back; apply D.
Qed.

Lemma peg_repeat_some n l r ev : peg_repeat g1 n l = Some (r, ev) -> recognised r = true.
Proof.
  revert l r ev. induction n as [|n IH]; intros l r ev E; [done|]. cbn in E.
  destruct l as [|x l]; [by injection E as <- _|]. destruct (g1 (x :: l)) as [[[l1|] ev1]|]; [|by injection E as <- _|done].
  destruct (peg_repeat g1 n l1) as [[r2 ev2]|] eqn:E2; [|done]. injection E as <- _. by apply IH in E2.
Qed.

Lemma Repeat_loop n : forall l fuel s0 s ev r ev', ps_crop s = crop -> ps_posts s = [] ->
  does s0 (Some l) ev s -> peg_repeat g1 n l = Some (r, ev') -> (n <= fuel)%nat ->
  exists s', io_iter fuel (fun _ : unit =>
    e ← DtdParser_ended;
    if e : bool then mret (inr true) else
    b ← f1;
    mret (if b : bool then inl tt else inr true)) tt s = Ret (Val true, s') /\ does s0 r (ev ++ ev') s'.
Proof.
  induction n as [|n IH]; intros l fuel s0 s ev r ev' Hc Hp D E Hf; [done|]. destruct fuel as [|fuel]; [lia|].
  cbn in E. pose proof (do_at _ _ _ _ D) as A. pose proof (ended_ok s _ A) as Ee.
  destruct l as [|x l].
  { injection E as <- <-. exists s. rewrite app_nil_r. split; [|done]. apply io_iter_inr.
    by rewrite (io_bind_Val _ _ _ _ _ Ee). }
  destruct (g1 (x :: l)) as [[r1 ev1]|] eqn:E1; [|done].
  destruct (H1 s (x :: l) r1 ev1 Hc A Hp E1) as (s1 & Ef & D1). destruct r1 as [l1|]; cbn [recognised] in Ef.
  - destruct (peg_repeat g1 n l1) as [[r2 ev2]|] eqn:E2; [|done]. injection E as <- <-.
    erewrite io_iter_inl by (rewrite (io_bind_Val _ _ _ _ _ Ee), (io_bind_Val _ _ _ _ _ Ef); done).
    rewrite app_assoc. apply (IH l1 fuel s0 s1 (ev ++ ev1) r2 ev2); [|by eapply does_posts| |done|lia].
    + by rewrite (does_crop _ _ _ _ D1).
    + by eapply does_trans.
  - injection E as <- <-. exists s1. split; [|by eapply does_failed].
    apply io_iter_inr. by rewrite (io_bind_Val _ _ _ _ _ Ee), (io_bind_Val _ _ _ _ _ Ef).
Qed.

Lemma Repeat_follows s l r ev : ps_crop s = crop -> at_list s l -> ps_posts s = [] ->
  peg_repeat g1 (S (length l)) l = Some (r, ev) ->
  exists s', Repeat_parse f1 s = Ret (Val (recognised r), s') /\ does s r ev s'.
Proof.
  intros Hc A Hp E. unfold Repeat_parse. rewrite get_bind, (peg_repeat_some _ _ _ _ E).
  pose proof (fuel_ok s l A). apply (Repeat_loop (S (length l)) l (loop_fuel s) s s [] r ev); try done.
  by apply does_refl.
Qed.

End Composed.

(** *** Elements *)

(** The content is recognised up to the last node. *)
Definition whole (r : option (list xnode)) : bool := match r with Some [] => true | _ => false end.

(** Only the fields of the attributes and the last error may change. *)
Definition quiet (s s' : parser) : Prop := frame s s' /\ ps_cur s' = ps_cur s /\ ps_events s' = ps_events s.
Lemma quiet_refl s : quiet s s.
Proof. done. Qed.
Lemma quiet_trans s1 s2 s3 : quiet s1 s2 -> quiet s2 s3 -> quiet s1 s3.
Proof. intros (F1 & C1 & E1) (F2 & C2 & E2). split; [by eapply frame_trans|]. split; congruence. Qed.
Lemma set_val_quiet k v s : exists s', set_val k v s = Ret (Val tt, s') /\ quiet s s'.
Proof. eexists. by split. Qed.

Lemma att_reset_quiet k a s : simple_att a -> exists s', att_reset k a s = Ret (Val tt, s') /\ quiet s s'.
Proof. unfold att_reset, simple_att. intros Ha. destruct (at_kind a); try done; eexists; (split; [reflexivity|repeat split]). Qed.

Lemma att_parse_ok k a s n : cx_node (ps_cur s) = Some n -> simple_att a ->
  exists s', att_parse k a s = Ret (Val (att_ok n a), s') /\ quiet s s'.
Proof.
  intros En Ha. unfold att_parse, att_ok.
  assert (DtdParser_current s = Ret (Val n, s)) as Ec by (unfold DtdParser_current; rewrite get_bind, En; done).
  rewrite (io_bind_Val _ _ _ _ _ Ec). destruct (xatt n (at_name a)) as [v|].
  - rewrite get_bind. unfold att_process, simple_att in *. destruct (at_kind a); try done; eexists; (split; [reflexivity|repeat split]).
  - destruct (att_reset_quiet k a s Ha) as (s' & E & Q). rewrite (io_bind_Val _ _ _ _ _ E). by exists s'.
Qed.

Lemma parse_attrs_ok id attrs : forall j s n, cx_node (ps_cur s) = Some n -> Forall simple_att attrs ->
  exists s', parse_attrs id j attrs s = Ret (Val (forallb (att_ok n) attrs), s') /\ quiet s s'.
Proof.
  induction attrs as [|a attrs IH]; intros j s n En Ha; [by exists s|]. inversion Ha; subst. cbn [parse_attrs forallb].
  destruct (att_parse_ok (id, j) a s n En) as (s1 & E1 & Q1); [done|]. rewrite (io_bind_Val _ _ _ _ _ E1).
  destruct (att_ok n a); cbn [andb];
    [|eexists; split; [reflexivity|]; eapply quiet_trans; [exact Q1|by repeat split]].
  destruct (IH (S j) s1 n) as (s2 & E2 & Q2); [by rewrite (proj1 (proj2 Q1))|done|].
  exists s2. split; [done|by eapply quiet_trans].
Qed.

Section Element.
Context (getRef : list fevent -> nat -> Z) (getPatchRef : list fevent -> nat * nat -> Z).
Context (crop : bool) (con : PM bool) (g : list xnode -> outcome_of) (Hg : follows crop con g).

(** [begin()] without attribute to post-process. *)
Lemma begin_ok id s n : cx_node (ps_cur s) = Some n -> ps_posts s = [] ->
  exists s', DtdParser_begin getRef getPatchRef id s = Ret (Val tt, s') /\
    ps_stack s' = ps_cur s :: ps_stack s /\ cx_elt (ps_cur s') = id /\
    at_list s' (visible (ps_crop s) (xchildren n)) /\ ps_crop s' = ps_crop s /\ ps_map s' = ps_map s /\
    ps_patches s' = ps_patches s /\ ps_posts s' = [] /\ ps_events s' = ps_events s ++ [EvBegin id].
Proof.
  intros En Hp. unfold DtdParser_begin, emit. rewrite modify_bind, get_bind. cbn [ps_posts]. rewrite Hp.
  cbn [mapM_]. rewrite (io_bind_Val (mret tt) _ _ tt _ eq_refl), modify_bind.
  unfold DtdParser_recordError. rewrite !modify_bind.
  match goal with |- context [DtdParser_setNode ?x] => set (s1 := x) end.
  destruct (setNode_ok s1 (ps_cur s) (ps_stack s) n) as (s' & E & A & F & Ev); [done|done|done|].
  exists s'. split; [done|]. split; [apply F|]. split; [apply F|]. split; [exact A|].
  split; [apply F|]. split; [apply F|]. split; [apply F|]. split; [apply F|done].
Qed.

(** The content of an element whose name and attributes are right. *)
Lemma Element_content_ok id s n r ev : cx_node (ps_cur s) = Some n -> ps_posts s = [] -> ps_crop s = crop ->
  g (visible crop (xchildren n)) = Some (r, ev) ->
  exists s', frame s s' /\ ps_cur s' = ps_cur s /\
    if whole r then
      ps_events s' = ps_events s ++ EvBegin id :: ev ++ [EvEnd id] /\
      Element_content getRef getPatchRef id con s = (DtdParser_next ;; mret true) s'
    else
      ps_events s' = ps_events s ++ EvBegin id :: ev ++ [EvBacktrack id] /\
      Element_content getRef getPatchRef id con s = Ret (Val false, s').
Proof.
  intros En Hp Hc E. destruct (begin_ok id s n En Hp) as (s1 & Eb & B1 & B2 & B3 & B4 & B5 & B6 & B7 & B8).
  unfold Element_content. rewrite (io_bind_Val _ _ _ _ _ Eb). rewrite Hc in B3.
  destruct (Hg s1 (visible crop (xchildren n)) r ev) as (s2 & Ec & D); [congruence|done|done|done|].
  rewrite (io_bind_Val _ _ _ _ _ Ec). destruct D as [F2 Ev2 A2].
  assert (DtdParser_ended s2 = Ret (Val (match cx_node (ps_cur s2) with None => true | _ => false end), s2)) as Ee
    by done. rewrite (io_bind_Val _ _ _ _ _ Ee).
  assert (exists s3, (if match cx_node (ps_cur s2) with None => true | _ => false end
     then mret (recognised r) else DtdParser_recordError ;; mret false) s2
     = Ret (Val (whole r), s3) /\ quiet s2 s3) as (s3 & E3 & Q3).
  { destruct r as [l|].
    - rewrite (at_node s2 l A2). destruct l as [|x l]; cbn [head recognised].
      + by exists s2.
      + by eexists.
    - destruct (cx_node (ps_cur s2)); by eexists. }
  rewrite (io_bind_Val _ _ _ _ _ E3). destruct Q3 as (F3 & C3 & Ev3).
  assert (ps_stack s3 = ps_cur s :: ps_stack s) as Es3 by (rewrite (fr_stack _ _ F3), (fr_stack _ _ F2); done).
  assert (cx_elt (ps_cur s3) = id) as Eid by (rewrite (fr_elt _ _ F3), (fr_elt _ _ F2); done).
  exists (mkPs (ps_crop s3) (ps_cur s) (ps_stack s) (ps_map s3) (ps_patches s3) (ps_last_error s3) (ps_posts s3)
    (ps_vals s3) (ps_events s3 ++ [if whole r then EvEnd id else EvBacktrack id])).
  pose proof (frame_trans _ _ _ F2 F3) as F. split; [|split; [done|]].
  { destruct F. split; cbn; congruence. }
  unfold DtdParser_end.
  destruct (whole r); (split; [cbn [ps_events]; rewrite Ev3, Ev2, B8; by app_norm|]); rewrite io_bind_assoc, get_bind, Es3, Eid; done.
Qed.
End Element.

(** *** All contents *)

Section Parser.
Context (getRef : list fevent -> nat -> Z) (getPatchRef : list fevent -> nat * nat -> Z) (crop : bool).

(** An element at any place: it is refused, or the parser goes to the next node. *)
Lemma Element_ok id name attrs con g s n r ev : follows crop con g ->
  cx_node (ps_cur s) = Some n -> ps_posts s = [] -> ps_crop s = crop -> Forall simple_att attrs ->
  match n with
  | XElem ename atts kids =>
      if bool_decide (ename = name) && forallb (att_ok n) attrs then
        match g (visible crop kids) with
        | None => None
        | Some (Some [], ev) => Some (true, EvBegin id :: ev ++ [EvEnd id])
        | Some (_, ev) => Some (false, EvBegin id :: ev ++ [EvBacktrack id])
        end
      else Some (false, [])
  | _ => Some (false, [])
  end = Some (r, ev) ->
  exists s', frame s s' /\ ps_cur s' = ps_cur s /\ ps_events s' = ps_events s ++ ev /\
    Element_parse getRef getPatchRef id name attrs con s
      = if r : bool then (DtdParser_next ;; mret true) s' else Ret (Val false, s').
Proof.
  intros Hg En Hp Hc Ha E. unfold Element_parse.
  assert (DtdParser_ended s = Ret (Val false, s)) as Ee by (unfold DtdParser_ended; rewrite get_bind, En; done).
  assert (DtdParser_current s = Ret (Val n, s)) as Ec by (unfold DtdParser_current; rewrite get_bind, En; done).
  rewrite (io_bind_Val _ _ _ _ _ Ee), (io_bind_Val _ _ _ _ _ Ec).
  destruct n as [t|ename atts kids|]; try (injection E as <- <-; exists s; by rewrite app_nil_r).
  destruct (bool_decide_reflect (ename = name)) as [->|Hn]; cbn [andb] in E.
  2: { injection E as <- <-. exists s. rewrite bool_decide_true, app_nil_r by done. done. }
  rewrite bool_decide_false by (intros H; by apply H).
  destruct (parse_attrs_ok id attrs 0 s _ En Ha) as (s1 & E1 & F1 & C1 & Ev1).
  rewrite (io_bind_Val _ _ _ _ _ E1).
  destruct (forallb _ attrs); cbn [negb]; [|injection E as <- <-; exists s1; by rewrite app_nil_r].
  destruct (g (visible crop kids)) as [[r1 ev1]|] eqn:Eg; [|done].
  destruct (Element_content_ok getRef getPatchRef crop con g Hg id s1 (XElem name atts kids) r1 ev1)
    as (s' & F & C & X); [by rewrite C1|by rewrite (fr_posts _ _ F1)|by rewrite (fr_crop _ _ F1)|done|].
  exists s'. split; [by eapply frame_trans|]. split; [congruence|].
  destruct r1 as [[|x l]|]; cbn [whole] in X; injection E as <- <-; rewrite Ev1 in X; exact X.
Qed.

Lemma Element_follows id name attrs con g : follows crop con g -> Forall simple_att attrs ->
  follows crop (Element_parse getRef getPatchRef id name attrs con) (fun l =>
    match l with
    | XElem ename atts kids :: l' =>
        if bool_decide (ename = name) && forallb (att_ok (XElem ename atts kids)) attrs then
          match g (visible crop kids) with
          | None => None
          | Some (Some [], ev) => Some (Some l', EvBegin id :: ev ++ [EvEnd id])
          | Some (_, ev) => Some (None, EvBegin id :: ev ++ [EvBacktrack id])
          end
        else Some (None, [])
    | _ => Some (None, [])
    end).
Proof.
  intros Hg Ha s l r ev Hc A Hp E. pose proof (at_node s l A) as En.
  destruct l as [|n l]; cbn [head] in En.
  { injection E as <- <-. unfold Element_parse. rewrite (io_bind_Val _ _ _ _ _ (ended_ok s [] A)).
    exists s. split; [done|]. split; [done|by rewrite app_nil_r|done]. }
  assert (exists b, (b = true <-> r = Some l) /\ (b = false <-> r = None) /\
    match n with
    | XElem ename atts kids =>
        if bool_decide (ename = name) && forallb (att_ok n) attrs then
          match g (visible crop kids) with
          | None => None
          | Some (Some [], ev) => Some (true, EvBegin id :: ev ++ [EvEnd id])
          | Some (_, ev) => Some (false, EvBegin id :: ev ++ [EvBacktrack id])
          end
        else Some (false, [])
    | _ => Some (false, [])
    end = Some (b, ev)) as (b & B1 & B2 & B3).
  { destruct n as [t|ename atts kids|]; try (injection E as <- <-; by exists false).
    destruct (_ && _); [|injection E as <- <-; by exists false].
    destruct (g (visible crop kids)) as [[[[|y k]|] ev1]|]; [| | |done]; injection E as <- <-;
      [by exists true|by exists false|by exists false]. }
  destruct (Element_ok id name attrs con g s n b ev Hg En Hp Hc Ha B3) as (s1 & F & C & Ev & X).
  rewrite X. destruct b.
  - rewrite (proj1 B1 eq_refl). pose proof (at_list_same s s1 (n :: l) A C F) as A1.
    destruct (dtd_next_ok s1 n l A1) as (s' & Ex & A' & F' & Ev'). rewrite (io_bind_Val _ _ _ _ _ Ex).
    exists s'. split; [done|]. split; [by eapply frame_trans|congruence|done].
  - rewrite (proj1 B2 eq_refl). exists s1. split; [done|]. by split.
Qed.

(** The parser follows the reference on every content. *)
Lemma Content_follows c : simple c -> follows crop (Content_parse getRef getPatchRef c) (peg crop c).
Proof.
  induction c as [| | | |c IH|c1 IH1 c2 IH2|c1 IH1 c2 IH2|c IH|id name attrs c IH]; cbn [simple Content_parse peg];
    intros Hs.
  - apply follows_EMPTY.
  - apply follows_Ignored.
  - apply follows_PCDATA.
  - apply follows_ANY.
  - intros s l r ev. apply Optional_follows, IH, Hs.
  - intros s l r ev. apply Alt_follows; [apply IH1, Hs|apply IH2, Hs].
  - destruct Hs as (S1 & S2 & So). rewrite So. intros s l r ev Hc A Hp E.
    eapply Seq_follows; [by apply IH1|by apply IH2|done..|]. by destruct l.
  - intros s l r ev. apply Repeat_follows, IH, Hs.
  - apply Element_follows; [apply IH, Hs|apply Hs].
Qed.

End Parser.

(** ** The reference ends, and only accepts valid nodes *)

(** May be recognised without taking a node, when there is one. *)
Fixpoint nullable (c : content) : bool :=
  match c with
  | EMPTY | Ignored | PCDATA | ANY | Element _ _ _ _ => false
  | Optional _ | Repeat _ => true
  | Alt con1 con2 => nullable con1 || nullable con2
  | Seq con1 con2 => nullable con1 && nullable con2
  end.
(** What is repeated takes a node at each turn. *)
Fixpoint productive (c : content) : Prop :=
  match c with
  | EMPTY | Ignored | PCDATA | ANY => True
  | Optional con | Element _ _ _ con => productive con
  | Repeat con => productive con /\ nullable con = false
  | Alt con1 con2 | Seq con1 con2 => productive con1 /\ productive con2
  end.

(** The words of a content, as of a regular expression. *)
Inductive valid (crop : bool) : content -> list xnode -> Prop :=
  | v_EMPTY l : forallb blank l = true -> valid crop EMPTY l
  | v_Ignored l : valid crop Ignored l
  | v_PCDATA_none : valid crop PCDATA []
  | v_PCDATA t : valid crop PCDATA [XText t]
  | v_ANY l : valid crop ANY l
  | v_none c : valid crop (Optional c) []
  | v_some c l : valid crop c l -> valid crop (Optional c) l
  | v_alt1 c1 c2 l : valid crop c1 l -> valid crop (Alt c1 c2) l
  | v_alt2 c1 c2 l : valid crop c2 l -> valid crop (Alt c1 c2) l
  | v_seq c1 c2 l1 l2 : valid crop c1 l1 -> valid crop c2 l2 -> valid crop (Seq c1 c2) (l1 ++ l2)
  | v_stop c : valid crop (Repeat c) []
  | v_more c l1 l2 : valid crop c l1 -> valid crop (Repeat c) l2 -> valid crop (Repeat c) (l1 ++ l2)
  | v_elem id name attrs c atts kids :
      forallb (att_ok (XElem name atts kids)) attrs = true -> valid crop c (visible crop kids) ->
      valid crop (Element id name attrs c) [XElem name atts kids].

Section Reference.
Context (crop : bool).

(** [g] ends on [l], and takes a node if [strict]. *)
Definition total_on (g : list xnode -> outcome_of) (strict : bool) (l : list xnode) : Prop :=
  exists r ev, g l = Some (r, ev) /\ forall l', r = Some l' ->
    (length l' <= length l)%nat /\ (strict = true -> l <> [] -> (length l' < length l)%nat).

Lemma repeat_total g : (forall l, total_on g true l) -> forall n l, (length l < n)%nat ->
  total_on (peg_repeat g n) false l.
Proof.
  intros Hg. induction n as [|n IH]; intros l Hn; [lia|]. unfold total_on. cbn [peg_repeat].
  destruct l as [|x l]; [eexists _, _; split; [done|]; intros l' [= <-]; cbn; lia|].
  destruct (Hg (x :: l)) as (r & ev & -> & Hr). destruct r as [l1|].
  - destruct (Hr l1 eq_refl) as [_ Hl]. specialize (Hl eq_refl ltac:(done)).
    destruct (IH l1 ltac:(lia)) as (r2 & ev2 & -> & Hr2). cbn [with_events].
    eexists _, _. split; [done|]. intros l' ->. destruct (Hr2 l' eq_refl). split; [lia|done].
  - eexists _, _. split; [done|]. intros l' [= <-]. split; [lia|done].
Qed.

Lemma peg_total c : productive c -> forall l, total_on (peg crop c) (negb (nullable c)) l.
Proof.
  induction c as [| | | |c IH|c1 IH1 c2 IH2|c1 IH1 c2 IH2|c IH|id name attrs c IH]; cbn [productive nullable peg];
    intros Hp l; unfold total_on.
  - eexists _, _. split; [done|]. intros l'. destruct (forallb blank l); [|done]. intros [= <-].
    destruct l; cbn; split; intros; try done; lia.
  - eexists _, _. split; [done|]. intros l' [= <-]. destruct l; cbn; split; intros; try done; lia.
  - destruct l as [|[t|? ? ?|] l]; eexists _, _; (split; [done|]); intros l' [= <-]; cbn; split; intros; try done; lia.
  - eexists _, _. split; [done|]. intros l' [= <-]. destruct l; cbn; split; intros; try done; lia.
  - destruct l as [|x l]; [eexists _, _; split; [done|]; intros l' [= <-]; cbn; split; [lia|done]|].
    destruct (IH Hp (x :: l)) as (r & ev & -> & Hr). destruct r as [l1|]; eexists _, _; (split; [done|]).
    + intros l' [= <-]. destruct (Hr l1 eq_refl). split; [done|by intros [=]].
    + intros l' [= <-]. split; [lia|by intros [=]].
  - destruct Hp as [Hp1 Hp2]. destruct (IH1 Hp1 l) as (r & ev & -> & Hr). destruct r as [l1|].
    + eexists _, _. split; [done|]. intros l' [= <-]. destruct (Hr l1 eq_refl) as [Ha Hb].
      split; [done|]. destruct (nullable c1); [done|]. intros _. by apply Hb.
    + destruct (IH2 Hp2 l) as (r2 & ev2 & -> & Hr2). eexists _, _. split; [done|]. intros l' ->.
      destruct (Hr2 l' eq_refl) as [Ha Hb]. split; [done|]. destruct (nullable c1), (nullable c2); try done.
  - destruct Hp as [Hp1 Hp2]. destruct (bool_decide (l = []) && _); [by eexists _, _|].
    destruct (IH1 Hp1 l) as (r & ev & -> & Hr). destruct r as [l1|]; [|by eexists _, _].
    destruct (Hr l1 eq_refl) as [Ha Hb]. destruct (IH2 Hp2 l1) as (r2 & ev2 & -> & Hr2). cbn [with_events].
    eexists _, _. split; [done|]. intros l' ->. destruct (Hr2 l' eq_refl) as [Ha2 Hb2]. split; [lia|].
    destruct (nullable c1); cbn [negb andb]; [|intros _ Hl; specialize (Hb eq_refl Hl); lia].
    destruct (nullable c2); [done|]. intros _ Hl. destruct l1; [destruct l; [done|cbn in *; lia]|].
    specialize (Hb2 eq_refl ltac:(done)). lia.
  - apply repeat_total; [|lia]. intros k. destruct Hp as [Hp E]. specialize (IH Hp k). by rewrite E in IH.
  - destruct l as [|[t|ename atts kids|] l]; try by eexists _, _. destruct (_ && _); [|by eexists _, _].
    destruct (IH Hp (visible crop kids)) as (r & ev & -> & _).
    destruct r as [[|y k]|]; [|by eexists _, _|by eexists _, _]. eexists _, _. split; [done|].
    intros l' [= <-]. cbn. split; intros; lia.
Qed.

Lemma repeat_sound c n l l' ev : (forall k k' e, peg crop c k = Some (Some k', e) -> exists w, k = w ++ k' /\ valid crop c w) ->
  peg_repeat (peg crop c) n l = Some (Some l', ev) -> exists w, l = w ++ l' /\ valid crop (Repeat c) w.
Proof.
  intros Hc. revert l l' ev. induction n as [|n IH]; intros l l' ev E; [done|]. cbn in E.
  destruct l as [|x l]; [injection E as <- _; exists []; split; [done|constructor]|].
  destruct (peg crop c (x :: l)) as [[[l1|] ev1]|] eqn:E1; [|injection E as <- _; exists []; split; [done|constructor]|done].
  destruct (peg_repeat (peg crop c) n l1) as [[r2 ev2]|] eqn:E2; [|done]. injection E as -> _.
  destruct (Hc _ _ _ E1) as (w1 & -> & V1). destruct (IH _ _ _ E2) as (w2 & -> & V2).
  exists (w1 ++ w2). split; [by rewrite app_assoc|by constructor].
Qed.

Lemma peg_sound c : forall l l' ev, peg crop c l = Some (Some l', ev) -> exists w, l = w ++ l' /\ valid crop c w.
Proof.
  induction c as [| | | |c IH|c1 IH1 c2 IH2|c1 IH1 c2 IH2|c IH|id name attrs c IH]; cbn [peg]; intros l l' ev E.
  - destruct (forallb blank l) eqn:Eb; [|done]. injection E as <- _. exists l. rewrite app_nil_r. split; [done|by constructor].
  - injection E as <- _. exists l. rewrite app_nil_r. split; [done|constructor].
  - destruct l as [|[t|? ? ?|] l]; try done; injection E as <- _.
    + exists []. split; [done|constructor].
    + exists [XText t]. split; [done|constructor].
  - injection E as <- _. exists l. rewrite app_nil_r. split; [done|constructor].
  - destruct l as [|x l]; [injection E as <- _; exists []; split; [done|constructor]|].
    destruct (peg crop c (x :: l)) as [[[l1|] ev1]|] eqn:E1; [| |done]; injection E as <- _.
    + destruct (IH _ _ _ E1) as (w & -> & V). exists w. split; [done|by constructor].
    + exists []. split; [done|constructor].
  - destruct (peg crop c1 l) as [[[l1|] ev1]|] eqn:E1; [| |done].
    + injection E as <- _. destruct (IH1 _ _ _ E1) as (w & -> & V). exists w. split; [done|by apply v_alt1].
    + destruct (peg crop c2 l) as [[r2 ev2]|] eqn:E2; [|done]. injection E as -> _.
      destruct (IH2 _ _ _ E2) as (w & -> & V). exists w. split; [done|by apply v_alt2].
  - destruct (bool_decide (l = []) && _); [done|]. destruct (peg crop c1 l) as [[[l1|] ev1]|] eqn:E1; [|done|done].
    destruct (peg crop c2 l1) as [[r2 ev2]|] eqn:E2; [|done]. injection E as -> _.
    destruct (IH1 _ _ _ E1) as (w1 & -> & V1). destruct (IH2 _ _ _ E2) as (w2 & -> & V2).
    exists (w1 ++ w2). split; [by rewrite app_assoc|by constructor].
  - by eapply repeat_sound.
  - destruct l as [|[t|ename atts kids|] l]; try done.
    destruct (bool_decide_reflect (ename = name)) as [->|]; cbn [andb] in E; [|done].
    destruct (forallb _ attrs) eqn:Ea; [|done].
    destruct (peg crop c (visible crop kids)) as [[[[|y k]|] ev1]|] eqn:E1; try done. injection E as <- _.
    destruct (IH _ _ _ E1) as (w & Ew & V). rewrite app_nil_r in Ew. subst w.
    exists [XElem name atts kids]. split; [done|by constructor].
Qed.

End Reference.

(** ** Documents *)

Lemma io_seq_quiet {B} (m : PM unit) (k : PM B) s s1 : m s = Ret (Val tt, s1) -> (m ;; k) s = k s1.
Proof. intros E. by rewrite (io_bind_Val _ _ _ _ _ E). Qed.

Lemma reset_attrs_quiet id attrs : forall j s, Forall simple_att attrs ->
  exists s', reset_attrs id j attrs s = Ret (Val tt, s') /\ quiet s s'.
Proof.
  induction attrs as [|a attrs IH]; intros j s Ha; [by exists s|]. inversion Ha; subst. cbn [reset_attrs].
  destruct (att_reset_quiet (id, j) a s) as (s1 & E1 & Q1); [done|]. rewrite (io_seq_quiet _ _ _ _ E1).
  destruct (IH (S j) s1) as (s2 & E2 & Q2); [done|]. exists s2. split; [done|by eapply quiet_trans].
Qed.
Lemma Content_reset_quiet c : simple c -> forall s, exists s', Content_reset c s = Ret (Val tt, s') /\ quiet s s'.
Proof.
  induction c as [| | | |c IH|c1 IH1 c2 IH2|c1 IH1 c2 IH2|c IH|id name attrs c IH]; cbn [simple Content_reset];
    intros Hs s; try (by exists s); try (by apply IH).
  1-2: destruct (IH1 (proj1 Hs) s) as (s1 & E1 & Q1); rewrite (io_seq_quiet _ _ _ _ E1);
    destruct (IH2 ltac:(tauto) s1) as (s2 & E2 & Q2); exists s2; (split; [done|by eapply quiet_trans]).
  destruct (reset_attrs_quiet id attrs 0 s (proj1 Hs)) as (s1 & E1 & Q1). rewrite (io_seq_quiet _ _ _ _ E1).
  destruct (IH (proj2 Hs) s1) as (s2 & E2 & Q2). exists s2. split; [done|by eapply quiet_trans].
Qed.

Section Document.
Context (getRef : list fevent -> nat -> Z) (getPatchRef : list fevent -> nat * nat -> Z) (crop : bool).

(** The parser of a document follows the reference on its root. *)
Lemma document_ok id name attrs con x r ev : simple (Element id name attrs con) ->
  peg crop (Element id name attrs con) [x] = Some (r, ev) ->
  exists s, Element_parse_document getRef getPatchRef (Element id name attrs con) x crop
    = Ret (if recognised r then Val tt else Throw, s) /\ ps_events s = ev.
Proof.
  intros Hs E. unfold Element_parse_document, DtdParser_parse. rewrite !modify_bind.
  set (s0 := upd_posts [] _). destruct (Content_reset_quiet _ Hs s0) as (s1 & E1 & F1 & C1 & Ev1).
  rewrite (io_seq_quiet _ _ _ _ E1), !modify_bind. set (s2 := upd_error _ _).
  destruct (Element_ok getRef getPatchRef crop id name attrs (Content_parse getRef getPatchRef con)
    (peg crop con) s2 x (recognised r) ev) as (s3 & F3 & C3 & Ev3 & X).
  - apply Content_follows, Hs.
  - done.
  - exact (fr_posts _ _ F1).
  - exact (fr_crop _ _ F1).
  - apply Hs.
  - cbn [peg] in E. destruct x as [t|ename atts kids|]; try (by injection E as <- <-).
    destruct (_ && _); [|by injection E as <- <-].
    destruct (peg crop con (visible crop kids)) as [[[[|y k]|] ev1]|]; try done; by injection E as <- <-.
  - cbn [Content_parse]. cbn [peg] in E.
    assert (ps_events s3 = ev) as Ev by (rewrite Ev3; unfold s2; cbn; by rewrite Ev1).
    assert (ps_stack s3 = []) as Est by (rewrite (fr_stack _ _ F3); exact (fr_stack _ _ F1)).
    assert (ps_patches s3 = ∅) as Ep by (rewrite (fr_patches _ _ F3); exact (fr_patches _ _ F1)).
    destruct (recognised r).
    + set (s4 := upd_cur (mkCtx (cx_i (ps_cur s3) + 1) (cx_elt (ps_cur s3)) None) s3).
      assert (DtdParser_next s3 = Ret (Val tt, s4)) as En.
      { unfold DtdParser_next. rewrite modify_bind. unfold DtdParser_setNode. rewrite get_bind.
        cbn [ps_stack upd_cur]. by rewrite Est. }
      rewrite (io_seq_quiet _ _ _ _ En) in X. exists s4. split; [|done].
      rewrite (io_bind_Val _ _ _ _ _ X). cbn [negb]. rewrite get_bind.
      by rewrite bool_decide_true by exact Ep.
    + exists s3. split; [|done]. by rewrite (io_bind_Val _ _ _ _ _ X).
Qed.

End Document.

(** ** Theorems *)

(** [C4] The parser of a DTD.
    For a description whose attributes are neither identifiers, nor references, nor
    strict, in which what is repeated takes a node at each turn and no sequence may be
    empty, the parsing of any document ends, with or without the blank texts; it accepts
    exactly what the reference recognises, with exactly its calls of the factory,
    whatever the backtracking; and a document it accepts is valid for the description
    read as regular expressions over the children. *)
Theorem Dtd_parse_correct getRef getPatchRef crop id name attrs con x :
  simple (Element id name attrs con) -> productive con ->
  exists r ev s,
    peg crop (Element id name attrs con) [x] = Some (r, ev) /\
    Element_parse_document getRef getPatchRef (Element id name attrs con) x crop
      = Ret (if recognised r then Val tt else Throw, s) /\
    ps_events s = ev /\
    (recognised r = true -> valid crop (Element id name attrs con) [x]).
Proof.
  intros Hs Hp. destruct (peg_total crop (Element id name attrs con) Hp [x]) as (r & ev & E & Hr).
  destruct (document_ok getRef getPatchRef crop id name attrs con x r ev Hs E) as (s & Ed & Ev).
  exists r, ev, s. split; [done|]. split; [done|]. split; [done|]. intros R.
  destruct r as [l'|]; [|done]. destruct (Hr l' eq_refl) as [_ Hl]. specialize (Hl eq_refl ltac:(done)).
  destruct l'; [|cbn in Hl; lia]. destruct (peg_sound crop _ _ _ _ E) as (w & Ew & V).
  rewrite app_nil_r in Ew. by subst w.
Qed.

(** A training with its name and its sessions. *)
Definition training : content :=
  Element 0 (text "training") [mkAtt (text "id") REQUIRED (KString [])]
    (Seq (Element 1 (text "name") [] PCDATA) (Repeat (Element 2 (text "session") [] EMPTY))).
Definition a_training : xnode :=
  XElem (text "training") [(text "id", text "t")]
    [XElem (text "name") [] [XText (text "run")]; XText (text " "); XElem (text "session") [] []].

Lemma Dtd_parse_correct_witness :
  exists s, Element_parse_document (fun _ _ => 0) (fun _ _ => 0) training a_training true = Ret (Val tt, s) /\
    ps_events s = [EvBegin 0; EvBegin 1; EvPCDATA (text "run"); EvEnd 1; EvBegin 2; EvEnd 2; EvEnd 0] /\
    valid true training [a_training].
Proof.
  destruct (Dtd_parse_correct (fun _ _ => 0) (fun _ _ => 0) true 0 (text "training")
    [mkAtt (text "id") REQUIRED (KString [])]
    (Seq (Element 1 (text "name") [] PCDATA) (Repeat (Element 2 (text "session") [] EMPTY))) a_training)
    as (r & ev & s & E & Ed & Ev & V); [by repeat constructor|by repeat constructor|].
  vm_compute in E. injection E as <- <-. exists s. split; [exact Ed|]. split; [exact Ev|by apply V].
Defined.

(** *** What the code does not handle *)

Abbreviation parse_doc := (Element_parse_document (fun _ _ => 7) (fun _ _ => 0)).

(** A sequence refuses to start after the last node, even when both its parts accept
    to recognise nothing. *)
Example seq_at_end_refused :
  let a := Element 1 (text "a") [] EMPTY in
  let d := Element 0 (text "d") [] (Seq (Optional a) (Optional a)) in
  fst <$> parse_doc d (XElem (text "d") [] []) true = Ret Throw /\
  valid true d [XElem (text "d") [] []].
Proof.
  split; [by vm_compute|]. apply v_elem; [done|]. apply (v_seq _ _ _ [] []); apply v_none.
Qed.

(** The repetition of an optional content does not end on a node that it refuses. *)
Example repeat_optional_loops :
  let d := Element 0 (text "d") [] (Repeat (Optional (Element 1 (text "a") [] EMPTY))) in
  fst <$> parse_doc d (XElem (text "d") [] [XElem (text "b") [] []]) true = Crash OutOfFuel.
Proof. by vm_compute. Qed.

(** An identifier found in an element that is refused for another attribute is
    recorded for this element when the next one begins. *)
Example refused_identifier_recorded :
  let d := Alt (Element 1 (text "e") [mkAtt (text "id") 0 KID; mkAtt (text "k") REQUIRED KBase] EMPTY)
               (Element 2 (text "e") [] EMPTY) in
  (r ← parse_doc (Element 0 (text "d") [] d) (XElem (text "d") [] [XElem (text "e") [(text "id", text "x")] []]) true;
   Ret (r.1, ps_map r.2 !! text "x")) = Ret (Val tt, Some 7).
Proof. by vm_compute. Qed.

(** [reset()] of a text attribute leaves it marked as set. *)
Example string_reset_keeps_set :
  (r ← (set_val (1%nat, 0%nat) (true, text "v") ;; att_reset (1%nat, 0%nat) (mkAtt (text "a") 0 (KString [])))
         (DtdParser_make true);
   Ret (att_val (1%nat, 0%nat) r.2)) = Ret (true, []).
Proof. by vm_compute. Qed.
