(* ===== verification/Options.v ===== *)
(** * Options of command lines ([option_Manager.cpp], [include/elm/option/])

    A manager owns the table of the commands of its options; [parse] reads the
    arguments, gives their values to the options and keeps the others. Options are
    objects behind the interface [Option], here the class [OptionClass]; they are
    referred to by their address, an index in the list of objects. The state of the
    manager, the objects, the state of the application that derives from it and what
    is displayed make a [world]. A command ends with a value or with what was thrown,
    and the new world. *)

From stdpp Require Import list.
From S2P Require Import Prelude Compare TextOps Lists Streams Output Input Version.
#[local] Open Scope Z_scope.

(** ** Options *)

(* src/include/elm/option/Option.h:41-45 usage_t *)
Inductive usage_t := arg_none | arg_optional | arg_required.

#[export] Instance usage_eq_dec : EqDecision usage_t.
Proof. solve_decision. Defined.

(** What may leave a function: the exceptions, with their message, and
    [System::exit] with its status. *)
Inductive failure :=
  | OptionException (message : str)     (* a wrong command line *)
  | OtherException (message : str)      (* another [elm::Exception] *)
  | UnknownException
  | Exit (status : Z).

(** An option: [process] changes it and may throw. [o_get] is [SwitchOption::get],
    used for the options of the manager itself. *)
(* src/include/elm/option/Option.h:69-72 Option *)
Class OptionClass (O : Type) := {
  o_description : O -> str;
  o_usage : O -> usage_t;
  o_argDescription : O -> str;
  o_process : O -> str -> outcome (O * option failure);
  o_get : O -> bool }.
#[export] Hint Mode OptionClass ! : typeclass_instances.

(** What the manager relies on: an option processes any argument without a fault,
    does not change how it is used and does not throw the private exception. *)
Class OptionLaws (O : Type) `{OptionClass O} := {
  process_runs (o : O) arg : Forall (inw 8) arg -> runs (o_process o arg);
  process_keeps (o : O) arg o' f : o_process o arg = Ret (o', f) ->
    o_usage o' = o_usage o /\ f <> Some UnknownException }.

(** *** The switch *)
(* src/include/elm/option/SwitchOption.h:49-49 SwitchOption *)
Record SwitchOption := mkSwitch { sw_desc : str; sw_val : bool }.
(* src/src/option_SwitchOption.cpp:59-60 SwitchOption::SwitchOption *)
Definition SwitchOption_make (desc : str) : SwitchOption := mkSwitch desc false.
(* src/src/option_SwitchOption.cpp:50-52 SwitchOption::process *)
Definition SwitchOption_process (o : SwitchOption) (arg : str) : SwitchOption := mkSwitch (sw_desc o) true.

#[export] Instance SwitchOption_option : OptionClass SwitchOption := {
  o_description := sw_desc;
  o_usage _ := arg_none;
  o_argDescription _ := [];
  o_process o arg := Ret (SwitchOption_process o arg, None);
  o_get := sw_val }.
#[export] Instance SwitchOption_laws : OptionLaws SwitchOption.
Proof. split; [by eexists|]. by intros o arg o' f [= <- <-]. Qed.

(** *** Reading an argument *)

(** [T val; arg >> val; return val;] *)
(* src/include/elm/option/ValueOption.h:64-65 read *)
Class Readable (T : Type) := read : str -> outcome T.
Class ReadableLaw (T : Type) `{Readable T} := read_law : forall arg, Forall (inw 8) arg -> runs (read arg).

(* src/src/option_ValueOption.cpp:180-182 read *)
#[export] Instance read_string : Readable str := fun arg => Ret arg.

(** The state of the input is not looked at; an exception would go through [process],
    but the input on a text throws none. *)
Definition read_int (arg : str) : outcome Z :=
  r ← Input_scanLong (2 + length arg) 0 (Input_make (BlockInStream_make arg));
  match r.1 with Val x => Ret x | Throw => Crash Undefined end.

(** *** Options with a value *)

Section Values.
Context {T : Type} `{Readable T}.

(* src/include/elm/option/ValueOption.h:107-107 ValueOption *)
Record ValueOption := mkValue { vo_desc : str; vo_arg_desc : str; vo_use : usage_t; vo_val : T }.
(* src/include/elm/option/ValueOption.h:101-101 ValueOption::process *)
Definition ValueOption_process (o : ValueOption) (arg : str) : outcome ValueOption :=
  v ← read arg; Ret (mkValue (vo_desc o) (vo_arg_desc o) (vo_use o) v).

(* src/include/elm/option/ListOption.h:55-55 ListOption *)
Record ListOption := mkListOption { lo_desc : str; lo_arg_desc : str; lo_use : usage_t; lo_vals : list T }.
(* src/include/elm/option/ListOption.h:53-53 ListOption::process *)
Definition ListOption_process (o : ListOption) (arg : str) : outcome ListOption :=
  v ← read arg; Ret (mkListOption (lo_desc o) (lo_arg_desc o) (lo_use o) (lo_vals o ++ [v])).
(* src/include/elm/option/ListOption.h:38-38 ListOption::get *)
Definition ListOption_get (o : ListOption) (index : Z) : outcome T := rd (lo_vals o) index.

#[export] Instance ValueOption_option : OptionClass ValueOption := {
  o_description := vo_desc; o_usage := vo_use; o_argDescription := vo_arg_desc;
  o_process o arg := o' ← ValueOption_process o arg; Ret (o', None);
  o_get _ := false }.
#[export] Instance ListOption_option : OptionClass ListOption := {
  o_description := lo_desc; o_usage := lo_use; o_argDescription := lo_arg_desc;
  o_process o arg := o' ← ListOption_process o arg; Ret (o', None);
  o_get _ := false }.
End Values.
Arguments ValueOption : clear implicits.
Arguments ListOption : clear implicits.

(** A list of strings. *)
(* src/include/elm/option/StringList.h:46-47 StringList *)
Record StringList := mkStringList { sl_desc : str; sl_arg_desc : str; sl_args : list str }.
(* src/src/option_StringList.cpp:55-57 StringList::process *)
Definition StringList_process (o : StringList) (arg : str) : StringList :=
  mkStringList (sl_desc o) (sl_arg_desc o) (sl_args o ++ [arg]).
#[export] Instance StringList_option : OptionClass StringList := {
  o_description := sl_desc;
  o_usage _ := arg_required;
  o_argDescription := sl_arg_desc;
  o_process o arg := Ret (StringList_process o arg, None);
  o_get _ := false }.

(** *** One value in an enumeration *)

Definition quoted (s : str) : str := [34] ++ s ++ [34].

Section Enum.
Context {T : Type}.
(* src/include/elm/option/EnumOption.h:73-75 EnumOption *)
Record EnumOption := mkEnum { en_desc : str; en_val : T; en_vals : list (str * T); en_arg : str }.
(* src/include/elm/option/EnumOption.h:52-53 EnumOption::EnumOption *)
Definition EnumOption_make (desc arg : str) (vals : list (str * T)) (def : option T) : outcome EnumOption :=
  v ← (match def with Some v => Ret v | None => p ← rd vals 0; Ret p.2 end);
  Ret (mkEnum desc v vals arg).
(* src/include/elm/option/EnumOption.h:61-64 EnumOption::process *)
Definition EnumOption_process (o : EnumOption) (arg : str) : EnumOption * option failure :=
  match list_find (fun v => arg = v.1) (en_vals o) with
  | Some (_, v) => (mkEnum (en_desc o) v.2 (en_vals o) (en_arg o), None)
  | None => (o, Some (OptionException (text "bad value " ++ quoted arg)))
  end.
#[export] Instance EnumOption_option : OptionClass EnumOption := {
  o_description := en_desc;
  o_usage _ := arg_required;
  o_argDescription := en_arg;
  o_process o arg := Ret (EnumOption_process o arg);
  o_get _ := false }.
End Enum.
Arguments EnumOption : clear implicits.

(** Objects of several classes. *)
#[export] Instance sum_option {A B} `{OptionClass A, OptionClass B} : OptionClass (A + B) := {
  o_description o := match o with inl x => o_description x | inr x => o_description x end;
  o_usage o := match o with inl x => o_usage x | inr x => o_usage x end;
  o_argDescription o := match o with inl x => o_argDescription x | inr x => o_argDescription x end;
  o_process o arg := match o with
    | inl x => r ← o_process x arg; Ret (inl r.1, r.2)
    | inr x => r ← o_process x arg; Ret (inr r.1, r.2)
    end;
  o_get o := match o with inl x => o_get x | inr x => o_get x end }.

#[export] Instance read_Z : Readable Z := read_int.

(** *** The laws of the classes of the library *)

#[export] Instance read_string_law : ReadableLaw str.
Proof. intros arg _. by exists arg. Qed.

(** A number is always read: a wrong text gives 0, or the number it starts with. *)
Lemma read_int_runs arg : Forall (inw 8) arg -> runs (read_int arg).
Proof.
  intros Hb. unfold read_int.
  destruct (scanLong_runs bis_pending (2 + length arg) (Input_make (BlockInStream_make arg)) arg 0) as (v & i & ->);
    [by apply input_at_text|lia|]. by exists v.
Qed.
Lemma read_int_text v : - 2 ^ 31 < v < 2 ^ 31 -> Forall (inw 8) (int_text v) -> read_int (int_text v) = Ret v.
Proof.
  intros Hv Hb. unfold read_int.
  destruct (scanLong_ok bis_pending (2 + length (int_text v)) [] v (Input_make (BlockInStream_make (int_text v)))
    [] 0) as (i & -> & _); [cbn [app]; rewrite app_nil_r; by apply input_at_text|constructor|done|done|cbn; lia|done].
Qed.
#[export] Instance read_Z_law : ReadableLaw Z.
Proof. exact read_int_runs. Qed.

Section ValueLaws.
Context {T : Type} `{ReadableLaw T}.
#[export] Instance ValueOption_laws : OptionLaws (ValueOption T).
Proof.
  split; intros o arg.
  - intros Hb. destruct (read_law arg Hb) as [v E]. cbn. unfold ValueOption_process. rewrite E. by eexists.
  - intros o' f. cbn. unfold ValueOption_process. destruct (read arg); [|done]. cbn. by intros [= <- <-].
Qed.
#[export] Instance ListOption_laws : OptionLaws (ListOption T).
Proof.
  split; intros o arg.
  - intros Hb. destruct (read_law arg Hb) as [v E]. cbn. unfold ListOption_process. rewrite E. by eexists.
  - intros o' f. cbn. unfold ListOption_process. destruct (read arg); [|done]. cbn. by intros [= <- <-].
Qed.
End ValueLaws.

#[export] Instance StringList_laws : OptionLaws StringList.
Proof. split; [by eexists|]. by intros o arg o' f [= <- <-]. Qed.

#[export] Instance EnumOption_laws {T} : OptionLaws (EnumOption T).
Proof.
  split; [by eexists|]. intros o arg o' f. cbn. unfold EnumOption_process.
  destruct (list_find _ _) as [[n v]|]; by intros [= <- <-].
Qed.

#[export] Instance sum_laws {A B} `{OptionLaws A, OptionLaws B} : OptionLaws (A + B).
Proof.
  split; intros [x|x] arg.
  - intros Hb. destruct (process_runs x arg Hb) as [r E]. cbn. rewrite E. by eexists.
  - intros Hb. destruct (process_runs x arg Hb) as [r E]. cbn. rewrite E. by eexists.
  - intros o' f. cbn. destruct (o_process x arg) as [[x' g]|] eqn:E; [|done]. cbn. intros [= <- <-].
    by apply process_keeps in E.
  - intros o' f. cbn. destruct (o_process x arg) as [[x' g]|] eqn:E; [|done]. cbn. intros [= <- <-].
    by apply process_keeps in E.
Qed.

(** ** The manager *)

(* src/include/elm/option/Manager.h:53-60 Manager::Make *)
Record Make := mkMake {
  mk_program : str; mk_version : Version; mk_author : str; mk_copyright : str;
  mk_description : str; mk_free_argument_description : str;
  mk_help : bool; mk_version_opt : bool }.

(* src/include/elm/option/Manager.h:96-110 Manager *)
Record Manager := mkManager {
  m_info : Make;
  m_options : list nat;
  m_shorts : list (Z * nat);
  m_cmds : list (str * nat);
  m_help_opt : option nat;
  m_version_opt : option nat;
  m_frees : list str }.

Record world (O A : Type) := mkWorld {
  w_man : Manager; w_objs : list O; w_app : A; w_cout : str; w_cerr : str }.
Arguments mkWorld {O A} _ _ _ _ _.
Arguments w_man {O A} _.
Arguments w_objs {O A} _.
Arguments w_app {O A} _.
Arguments w_cout {O A} _.
Arguments w_cerr {O A} _.

(** Commands. *)
Definition Cmd (O A X : Type) : Type := world O A -> outcome ((X + failure) * world O A).
#[export] Instance cmd_ret {O A} : MRet (Cmd O A) := fun X x w => Ret (inl x, w).
#[export] Instance cmd_bind {O A} : MBind (Cmd O A) := fun X Y k m w =>
  match m w with
  | Ret (inl x, w') => k x w'
  | Ret (inr f, w') => Ret (inr f, w')
  | Crash f => Crash f
  end.
Definition fails {O A X} (f : failure) : Cmd O A X := fun w => Ret (inr f, w).
Definition gets {O A X} (g : world O A -> X) : Cmd O A X := fun w => Ret (inl (g w), w).
Definition run {O A X} (m : outcome X) : Cmd O A X := fun w => x ← m; Ret (inl x, w).
Definition maybe_fails {O A} (f : option failure) : Cmd O A unit :=
  match f with Some f => fails f | None => mret tt end.

Definition change_man {O A} (g : Manager -> Manager) : Cmd O A unit := fun w =>
  Ret (inl tt, mkWorld (g (w_man w)) (w_objs w) (w_app w) (w_cout w) (w_cerr w)).
(** A function of the application. *)
Definition change_app {O A} (g : A -> A * option failure) : Cmd O A unit := fun w =>
  let r := g (w_app w) in maybe_fails r.2 (mkWorld (w_man w) (w_objs w) r.1 (w_cout w) (w_cerr w)).
Definition set_object {O A} (a : nat) (o : O) : Cmd O A unit := fun w =>
  Ret (inl tt, mkWorld (w_man w) (<[a := o]> (w_objs w)) (w_app w) (w_cout w) (w_cerr w)).
(** [cout << s] and [cerr << s]. *)
Definition to_cout {O A} (s : str) : Cmd O A unit := fun w =>
  Ret (inl tt, mkWorld (w_man w) (w_objs w) (w_app w) (w_cout w ++ s) (w_cerr w)).
Definition to_cerr {O A} (s : str) : Cmd O A unit := fun w =>
  Ret (inl tt, mkWorld (w_man w) (w_objs w) (w_app w) (w_cout w) (w_cerr w ++ s)).
(** The line feed of [io::endl]. *)
Definition endl : str := [10].

(** *** Registration *)

Section Manager.
Context {O A : Type} `{OptionClass O}.
(** The functions that the application gives for [process] and [run]. *)
Context (app_process : A -> str -> A * option failure) (app_run : A -> A * option failure).
Abbreviation M := (Cmd O A).

(** [new] puts an object at the next address. *)
Definition new_object (o : O) : M nat := fun w =>
  Ret (inl (length (w_objs w)), mkWorld (w_man w) (w_objs w ++ [o]) (w_app w) (w_cout w) (w_cerr w)).

(* src/src/option_Manager.cpp:282-285 Manager::addOption *)
Definition Manager_addOption (option : nat) : M unit := change_man (fun m =>
  mkManager (m_info m) (m_options m ++ [option]) (m_shorts m) (m_cmds m)
    (m_help_opt m) (m_version_opt m) (m_frees m)).
(* src/src/option_Manager.cpp:292-294 Manager::removeOption *)
Definition Manager_removeOption (option : nat) : M unit := change_man (fun m =>
  mkManager (m_info m) (List_remove Nat.eqb (m_options m) option) (m_shorts m) (m_cmds m)
    (m_help_opt m) (m_version_opt m) (m_frees m)).

Definition put_cmd (cmd : str) (option : nat) : M unit := change_man (fun m =>
  mkManager (m_info m) (m_options m) (m_shorts m) (ListMap_put (m_cmds m) cmd option)
    (m_help_opt m) (m_version_opt m) (m_frees m)).
Definition put_short (cmd : Z) (option : nat) : M unit := change_man (fun m =>
  mkManager (m_info m) (m_options m) (ListMap_put (m_shorts m) cmd option) (m_cmds m)
    (m_help_opt m) (m_version_opt m) (m_frees m)).
Definition check_new (cmd : str) : M unit :=
  b ← gets (fun w => ListMap_hasKey (m_cmds (w_man w)) cmd); run (assertP (negb b)).

(* src/src/option_Manager.cpp:302-307 Manager::addShort *)
Definition Manager_addShort (cmd : Z) (option : nat) : M unit :=
  let str := [ch "-"; cmd] in
  check_new str ;; put_cmd str option ;; put_short cmd option.
(* src/src/option_Manager.cpp:315-319 Manager::addLong *)
Definition Manager_addLong (cmd : str) (option : nat) : M unit :=
  let str := text "--" ++ cmd in check_new str ;; put_cmd str option.
(* src/src/option_Manager.cpp:327-330 Manager::addCommand *)
Definition Manager_addCommand (cmd : str) (option : nat) : M unit :=
  check_new cmd ;; put_cmd cmd option.

(** A command of the form [-c] goes to both tables, the others to the first one. *)
(* src/src/option_Option.cpp:44-48 Option::Option *)
Definition add_command (cmd : str) (option : nat) : M unit :=
  match cmd with
  | [c0; c1] => if c0 =? ch "-" then Manager_addShort c1 option else Manager_addCommand cmd option
  | _ => Manager_addCommand cmd option
  end.
(** The loop on the commands of an option. *)
(* src/src/option_Option.cpp:43-49 Option::Option *)
Fixpoint add_commands (cmds : list str) (option : nat) : M unit :=
  match cmds with
  | [] => mret tt
  | cmd :: cmds => add_command cmd option ;; add_commands cmds option
  end.
(* src/src/option_Option.cpp:40-50 Option::Option *)
Definition Option_make (o : O) (cmds : list str) : M nat :=
  a ← new_object o; Manager_addOption a ;; add_commands cmds a ;; mret a.

(** The manager, with its own options; [switch] makes a switch of a description. *)
(* src/src/option_Manager.cpp:191-201 Manager::Manager *)
Definition Manager_make (switch : str -> O) (maker : Make) : M unit :=
  change_man (fun _ => mkManager maker [] [] [] None None []) ;;
  (if mk_help maker then
     a ← Option_make (switch (text "display this help message")) [text "-h"; text "--help"];
     change_man (fun m => mkManager (m_info m) (m_options m) (m_shorts m) (m_cmds m)
       (Some a) (m_version_opt m) (m_frees m))
   else mret tt) ;;
  (if mk_version_opt maker then
     a ← Option_make (switch (text "display this application version")) [text "--version"];
     change_man (fun m => mkManager (m_info m) (m_options m) (m_shorts m) (m_cmds m)
       (m_help_opt m) (Some a) (m_frees m))
   else mret tt).

(** *** Help *)

(* src/src/option_Manager.cpp:433-435 Manager::displayVersion *)
Definition Manager_displayVersion : M unit :=
  info ← gets (fun w => m_info (w_man w));
  to_cout (mk_program info ++ [32] ++ version_text (mk_version info) ++ endl).

Definition object_at (a : nat) : M O := w ← gets id; run (rd (w_objs w) (Z.of_nat a)).

(** The commands of an option in the part [l] of the table, the short or the long
    ones; [comma] tells that a command was displayed. *)
(* src/src/option_Manager.cpp:480-488 Manager::displayHelp *)
Fixpoint help_commands (longCommands : bool) (option : nat) (l : list (str * nat)) (comma : bool) : M bool :=
  match l with
  | [] => mret comma
  | (cmd, o) :: l =>
      if (o =? option)%nat then
        c ← run (rd cmd 1);
        if Bool.eqb (c =? ch "-") longCommands then
          (if comma then to_cerr (text ", ") else mret tt) ;; to_cerr cmd ;;
          help_commands longCommands option l true
        else help_commands longCommands option l comma
      else help_commands longCommands option l comma
  end.

(* src/src/option_Manager.cpp:492-501 Manager::displayHelp *)
Definition argument_text (o : O) : str :=
  match o_usage o with
  | arg_none => []
  | arg_optional => text " [" ++ o_argDescription o ++ text "]"
  | arg_required => text " " ++ o_argDescription o
  end.

(* src/src/option_Manager.cpp:466-505 Manager::displayHelp *)
Fixpoint help_options (l : list (str * nat)) (done : list nat) : M unit :=
  match l with
  | [] => mret tt
  | (_, option) :: l' =>
      if bool_decide (option ∈ done) then help_options l' done
      else
        comma ← help_commands false option l false;
        help_commands true option l comma ;;
        o ← object_at option;
        to_cerr (argument_text o) ;;
        to_cerr ([10; 9] ++ o_description o ++ endl) ;;
        help_options l' (done ++ [option])
  end.

(* src/src/option_Manager.cpp:443-463 Manager::displayHelp *)
Definition help_header (m : Manager) : str :=
  let info := m_info m in
  let opt s t := if bool_decide (s = []) then [] else t in
  mk_program info
  ++ (if Version_ne (mk_version info) Version_ZERO then text " V" ++ version_text (mk_version info) else [])
  ++ opt (mk_author info) (text " by " ++ mk_author info) ++ [10]
  ++ opt (mk_copyright info) (mk_copyright info ++ [10])
  ++ [10] ++ text "USAGE: " ++ mk_program info
  ++ (if bool_decide (m_options m = []) then [] else text " [OPTIONS]")
  ++ opt (mk_free_argument_description info) ([32] ++ mk_free_argument_description info) ++ [10]
  ++ opt (mk_description info) (mk_description info ++ [10])
  ++ [10] ++ text "OPTIONS may be:" ++ [10].

(* src/src/option_Manager.cpp:441-507 Manager::displayHelp *)
Definition Manager_displayHelp : M unit :=
  m ← gets w_man; to_cerr (help_header m) ;; help_options (m_cmds m) [].

(** *** Arguments *)

(** The first character of a C string. *)
Definition first_char (s : str) : Z := default 0 (head s).

Definition needs_no_argument (name : str) : str :=
  text "option " ++ quoted name ++ text " requires no argument.".
Definition needs_an_argument (name : str) : str :=
  text "option " ++ quoted name ++ text " requires an argument.".
Definition is_unknown (name : str) : str := text "option " ++ quoted name ++ text " is unknown.".
Definition is_unknown_letter (c : Z) (name : str) : str :=
  text "option '" ++ [c] ++ text "' in " ++ name ++ text " unknown !".

(** [i + 1 < argc && argv[i + 1][0] != '-'] *)
Definition next_is_free (i argc : Z) (argv : list str) : outcome bool :=
  if i + 1 <? argc then s ← rd argv (i + 1); Ret (negb (first_char s =? ch "-")) else Ret false.

(** The argument of an option and the new index. *)
(* src/src/option_Manager.cpp:231-254 Manager::processOption *)
Definition find_argument (use : usage_t) (i argc : Z) (argv : list str) (earg : option str) : M (str * Z) :=
  match use, earg with
  | arg_none, Some _ => name ← run (rd argv i); fails (OptionException (needs_no_argument name))
  | arg_none, None => mret ([], i)
  | _, Some e => mret (e, i)
  | _, None =>
      b ← run (next_is_free i argc argv);
      if (b : bool) then s ← run (rd argv (i + 1)); mret (s, i + 1)
      else match use with
           | arg_required => name ← run (rd argv i); fails (OptionException (needs_an_argument name))
           | _ => mret ([], i)
           end
  end.

(** [option->process(arg)] *)
Definition process_object (a : nat) (arg : str) : M unit :=
  o ← object_at a;
  r ← run (o_process o arg);
  set_object a r.1 ;; maybe_fails r.2.

Definition switch_on (a : option nat) : M bool :=
  match a with None => mret false | Some a => o ← object_at a; mret (o_get o) end.

(* src/src/option_Manager.cpp:257-265 Manager::processOption *)
Definition process_then_exit (a : nat) (arg : str) : M unit :=
  process_object a arg ;;
  m ← gets w_man;
  h ← switch_on (m_help_opt m);
  if (h : bool) then Manager_displayHelp ;; fails (Exit 1)
  else
    v ← switch_on (m_version_opt m);
    if (v : bool) then Manager_displayVersion ;; fails (Exit 1) else mret tt.

(** With the new value of [i]. *)
(* src/src/option_Manager.cpp:218-266 Manager::processOption *)
Definition Manager_processOption (opt : option nat) (i argc : Z) (argv : list str) (earg : option str) : M Z :=
  match opt with
  | None => fails UnknownException
  | Some a =>
      o ← object_at a;
      x ← find_argument (o_usage o) i argc argv earg;
      process_then_exit a x.1 ;; mret x.2
  end.

(** [_frees.add(arg); process(arg);] *)
(* src/src/option_Manager.cpp:409-410 Manager::parse *)
Definition free_argument (arg : str) : M unit :=
  change_man (fun m => mkManager (m_info m) (m_options m) (m_shorts m) (m_cmds m)
    (m_help_opt m) (m_version_opt m) (m_frees m ++ [arg])) ;;
  change_app (fun a => app_process a arg).

(** The loop on the letters [arg[j]], [j >= 1]. *)
(* src/src/option_Manager.cpp:415-420 Manager::parse *)
Fixpoint parse_letters (letters : str) (arg : str) (i argc : Z) (argv : list str) : M Z :=
  match letters with
  | [] => mret i
  | c :: letters =>
      option ← gets (fun w => ListMap_get (m_shorts (w_man w)) c);
      match option with
      | None => fails (OptionException (is_unknown_letter c arg))
      | Some _ => i ← Manager_processOption option i argc argv None; parse_letters letters arg i argc argv
      end
  end.

(** The option that an argument names, and its argument after [=]. *)
(* src/src/option_Manager.cpp:393-403 Manager::parse *)
Definition find_option (cmds : list (str * nat)) (arg : str) : outcome (option nat * option str) :=
  match ListMap_get cmds arg with
  | Some a => Ret (Some a, None)
  | None =>
      p ← index_of (ch "=") arg 0;
      if 0 <=? p then
        name ← substring arg 0 p; value ← substring_from arg (p + 1);
        Ret (ListMap_get cmds name, Some value)
      else Ret (None, None)
  end.

(** The body of the loop of [parse]. *)
(* src/src/option_Manager.cpp:391-426 Manager::parse *)
Definition parse_turn (i argc : Z) (argv : list str) : M Z :=
  arg ← run (rd argv i);
  m ← gets w_man;
  x ← run (find_option (m_cmds m) arg);
  match x.1 with
  | Some a => Manager_processOption (Some a) i argc argv x.2
  | None =>
      if (0 <? zlen arg) && negb (first_char arg =? ch "-") then free_argument arg ;; mret i
      else if (1 <? zlen arg) && negb (first_char (tail arg) =? ch "-") then
        parse_letters (tail arg) arg i argc argv
      else fails (OptionException (is_unknown arg))
  end.
Fixpoint parse_loop (fuel : nat) (i argc : Z) (argv : list str) : M unit :=
  match fuel with
  | Datatypes.O => run (Crash OutOfFuel)
  | S fuel => if i <? argc then i' ← parse_turn i argc argv; parse_loop fuel (i' + 1) argc argv else mret tt
  end.
(* src/src/option_Manager.cpp:388-427 Manager::parse *)
Definition Manager_parse (argc : Z) (argv : list str) : M unit :=
  run (assertP (0 <? argc)) ;; parse_loop (Z.to_nat argc) 1 argc argv.

(* src/src/option_Manager.cpp:366-367 Manager::manage *)
Definition parse_and_run (argc : Z) (argv : list str) : M unit :=
  Manager_parse argc argv ;;
  change_app app_run.
(* src/src/option_Manager.cpp:364-379 Manager::manage *)
Definition Manager_manage (argc : Z) (argv : list str) : M Z := fun w =>
  match parse_and_run argc argv w with
  | Ret (inl _, w') => Ret (inl 0, w')
  | Ret (inr (OptionException message), w') =>
      (Manager_displayHelp ;; to_cerr (text "ERROR: command line error: " ++ message ++ endl) ;; mret 1) w'
  | Ret (inr (OtherException message), w') => (to_cerr (text "ERROR: " ++ message ++ endl) ;; mret 2) w'
  | Ret (inr f, w') => Ret (inr f, w')
  | Crash f => Crash f
  end.
End Manager.

(** The functions of a manager that is not derived. *)
(* src/src/option_Manager.cpp:273-274 Manager::process *)
Definition Manager_process {A} (a : A) (arg : str) : A * option failure := (a, None).
(* src/src/option_Manager.cpp:343-344 Manager::run *)
Definition Manager_run {A} (a : A) : A * option failure := (a, None).

(** ** The language of command lines

    What the arguments mean, whatever the options do with their values: a list of
    events and, when the arguments are wrong, a message. *)

Inductive event := EvOption (a : nat) (arg : str) | EvFree (arg : str).

Section Language.
Context (cmds : list (str * nat)) (shorts : list (Z * nat)) (use : nat -> usage_t).

Definition dashed (s : str) : Prop := first_char s = ch "-".
(** No value comes next. *)
Definition no_value (rest : list str) : Prop := match rest with [] => True | s :: _ => dashed s end.

(** An argument that names an option, possibly with [=] and a value. *)
Inductive names : str -> nat -> option str -> Prop :=
  | names_exact s a : ListMap_get cmds s = Some a -> names s a None
  | names_value n v a : ListMap_get cmds (n ++ ch "=" :: v) = None -> ch "=" ∉ n ->
      ListMap_get cmds n = Some a -> names (n ++ ch "=" :: v) a (Some v).

(** [takes u cur e rest cur' v rest']: an option of usage [u], named by the argument
    [cur] with the value [e] and followed by [rest], is given [v]; the last
    argument used is [cur'] and [rest'] is left. *)
Inductive takes : usage_t -> str -> option str -> list str -> str -> str -> list str -> Prop :=
  | takes_none cur rest : takes arg_none cur None rest cur [] rest
  | takes_own u cur e rest : u <> arg_none -> takes u cur (Some e) rest cur e rest
  | takes_next u cur v rest : u <> arg_none -> ~ dashed v -> takes u cur None (v :: rest) v v rest
  | takes_nothing cur rest : no_value rest -> takes arg_optional cur None rest cur [] rest.

(** The wrong uses, with their messages. *)
Inductive misuses : usage_t -> str -> option str -> list str -> str -> Prop :=
  | misuses_none cur e rest : misuses arg_none cur (Some e) rest (needs_no_argument cur)
  | misuses_required cur rest : no_value rest ->
      misuses arg_required cur None rest (needs_an_argument cur).

(** Letters after a dash: all name options, which may each take a value from the
    arguments that follow; the result is what is left or a message. *)
Inductive letters (word : str) : str -> str -> list str -> list event -> list str + str -> Prop :=
  | letters_end cur rest : letters word [] cur rest [] (inl rest)
  | letters_option c l cur rest a v cur' rest' es r : ListMap_get shorts c = Some a ->
      takes (use a) cur None rest cur' v rest' -> letters word l cur' rest' es r ->
      letters word (c :: l) cur rest (EvOption a v :: es) r
  | letters_unknown c l cur rest : ListMap_get shorts c = None ->
      letters word (c :: l) cur rest [] (inr (is_unknown_letter c word))
  | letters_misused c l cur rest a msg : ListMap_get shorts c = Some a ->
      misuses (use a) cur None rest msg -> letters word (c :: l) cur rest [] (inr msg).

(** [reads args es r]: the arguments are the events [es], up to the end or to a
    mistake with its message. *)
Inductive reads : list str -> list event -> option str -> Prop :=
  | reads_end : reads [] [] None
  | reads_option s rest a e cur v rest' es r : names s a e ->
      takes (use a) s e rest cur v rest' -> reads rest' es r -> reads (s :: rest) (EvOption a v :: es) r
  | reads_misused s rest a e msg : names s a e -> misuses (use a) s e rest msg ->
      reads (s :: rest) [] (Some msg)
  | reads_free s rest es r : (forall a e, ~ names s a e) -> s <> [] -> ~ dashed s ->
      reads rest es r -> reads (s :: rest) (EvFree s :: es) r
  | reads_letters l rest es rest' es' r : (forall a e, ~ names (ch "-" :: l) a e) -> l <> [] -> ~ dashed l ->
      letters (ch "-" :: l) l (ch "-" :: l) rest es (inl rest') -> reads rest' es' r ->
      reads ((ch "-" :: l) :: rest) (es ++ es') r
  | reads_wrong_letters l rest es msg : (forall a e, ~ names (ch "-" :: l) a e) -> l <> [] -> ~ dashed l ->
      letters (ch "-" :: l) l (ch "-" :: l) rest es (inr msg) ->
      reads ((ch "-" :: l) :: rest) es (Some msg)
  | reads_unknown s rest : (forall a e, ~ names s a e) -> (s = [] \/ exists l, s = ch "-" :: l /\ (l = [] \/ dashed l)) ->
      reads (s :: rest) [] (Some (is_unknown s)).

(** Every argument can be read, in the first place as the code looks for options. *)
Lemma find_option_value n v : ListMap_get cmds (n ++ ch "=" :: v) = None -> ch "=" ∉ n ->
  find_option cmds (n ++ ch "=" :: v) = Ret (ListMap_get cmds n, Some v).
Proof.
  intros E Hn. unfold find_option. rewrite E, index_of_first by done. mred.
  rewrite (proj2 (Z.leb_le 0 _)), substring_start by lia. mred. by rewrite substring_after.
Qed.

Lemma find_option_named s a e : names s a e -> find_option cmds s = Ret (Some a, e).
Proof.
  intros [s' a' E|n v a' E Hn E']; [unfold find_option; by rewrite E|].
  by rewrite find_option_value, E'.
Qed.

Lemma find_option_cases s : (exists a e, names s a e) \/
  (forall a e, ~ names s a e) /\ exists e, find_option cmds s = Ret (None, e).
Proof.
  destruct (ListMap_get cmds s) as [a|] eqn:E; [left; exists a, None; by constructor|].
  destruct (decide (ch "=" ∈ s)) as [Hi|Hi].
  - apply list_elem_of_split_l in Hi as (n & v & -> & Hn).
    destruct (ListMap_get cmds n) as [a|] eqn:E'; [left; exists a, (Some v); by constructor|].
    right. split; [|exists (Some v); by rewrite find_option_value, E'].
    intros a e Hc. inversion Hc as [|n' v' a' Hc' Hn' E'' Ev]; subst; [congruence|].
    assert (n' = n) as ->; [|congruence].
    pose proof (split_app (ch "=") n v Hn) as S1. rewrite <- Ev, split_app in S1 by done. by injection S1.
  - right. split; [|exists None; unfold find_option; by rewrite E, index_of_no].
    intros a e Hc. inversion Hc; subst; [congruence|]. apply Hi, elem_of_app. right. by left.
Qed.

(** The options of the events are those of the commands, and their values come from
    the arguments. *)
Section Bytes.
Context (n : nat) (Hcmds : forall c a, ListMap_get cmds c = Some a -> (a < n)%nat)
  (Hshorts : forall c a, ListMap_get shorts c = Some a -> (a < n)%nat).
Abbreviation bytes := (Forall (inw 8)).

Definition event_ok (e : event) : Prop :=
  match e with EvOption a v => (a < n)%nat /\ bytes v | EvFree s => True end.

Lemma names_bytes s a e : names s a e -> bytes s -> (a < n)%nat /\ (forall v, e = Some v -> bytes v).
Proof.
  intros [s' a' E|m v a' _ _ E] Hs; (split; [by eapply Hcmds|]); intros u Eu; [done|].
  injection Eu as <-. apply list.Forall_app in Hs as [_ Hs]. by apply Forall_cons in Hs as [_ Hs].
Qed.
Lemma takes_bytes u cur e rest cur' v rest' : takes u cur e rest cur' v rest' ->
  (forall x, e = Some x -> bytes x) -> Forall bytes rest -> bytes v /\ Forall bytes rest'.
Proof.
  intros [] He Hr; [by split; [constructor|]|by split; [apply He|]| |by split; [constructor|]].
  by apply Forall_cons in Hr.
Qed.
Lemma letters_bytes word l cur rest es r : letters word l cur rest es r -> Forall bytes rest ->
  Forall event_ok es /\ (forall rest', r = inl rest' -> Forall bytes rest').
Proof.
  induction 1 as [cur rest|c l cur rest a v cur' rest' es r E Ht Hl IH|c l cur rest E|c l cur rest a msg E Hm];
    intros Hr; try (split; [constructor|]; intros ? [=]; by subst).
  apply takes_bytes in Ht as [Hv Hr']; [|done..]. destruct (IH Hr') as [Hes Hr''].
  split; [|done]. constructor; [split; [by eapply Hshorts|done]|done].
Qed.
Lemma reads_bytes args es r : reads args es r -> Forall bytes args -> Forall event_ok es.
Proof.
  induction 1 as [|s rest a e cur v rest' es r Hn Ht _ IH|s rest a e msg Hn Hm|s rest es r Hn He Hd _ IH
    |l rest es rest' es' r Hn He Hd Hl _ IH|l rest es msg Hn He Hd Hl|s rest Hn Hs]; intros Hb; try constructor.
  - apply Forall_cons in Hb as [Hs Hb]. apply names_bytes in Hn as [Ha He]; [|done].
    apply takes_bytes in Ht as [Hv Hr]; [|done..]. done.
  - apply Forall_cons in Hb as [Hs Hb]. apply names_bytes in Hn as [Ha He]; [|done].
    apply takes_bytes in Ht as [Hv Hr]; [|done..]. by apply IH.
  - done.
  - apply Forall_cons in Hb as [_ Hb]. by apply IH.
  - apply Forall_cons in Hb as [_ Hb]. apply letters_bytes in Hl as [Hes Hr]; [|done].
    apply list.Forall_app. split; [done|]. by apply IH, Hr.
  - apply Forall_cons in Hb as [_ Hb]. by apply letters_bytes in Hl as [Hes _].
Qed.
End Bytes.

Lemma takes_total u cur e rest :
  (exists cur' v rest', takes u cur e rest cur' v rest' /\ (length rest' <= length rest)%nat) \/
  (exists msg, misuses u cur e rest msg).
Proof.
  destruct (decide (u = arg_none)) as [->|Hu].
  { destruct e; [right; eexists; constructor|left; eexists _, _, _; by split; [constructor|]]. }
  destruct e as [e|]; [left; eexists _, _, _; by split; [constructor|]|].
  assert (no_value rest \/ exists v rest', rest = v :: rest' /\ ~ dashed v) as [Hn|(v & rest' & -> & Hv)].
  { destruct rest as [|v rest]; [by left|]. destruct (decide (first_char v = ch "-")) as [Hd|Hd];
      [by left|right; by exists v, rest]. }
  - destruct u; [done|left; eexists _, _, _; by split; [constructor|]|right; eexists; by constructor].
  - left. eexists _, _, _. split; [by constructor|]. cbn. lia.
Qed.

Lemma letters_total word l : forall cur rest, exists es r, letters word l cur rest es r /\
  match r with inl rest' => (length rest' <= length rest)%nat | inr _ => True end.
Proof.
  induction l as [|c l IH]; intros cur rest; [eexists _, _; by split; [constructor|cbn]|].
  destruct (ListMap_get shorts c) as [a|] eqn:E; [|eexists _, _; split; [by apply letters_unknown|done]].
  destruct (takes_total (use a) cur None rest) as [(cur' & v & rest' & Ht & Hl)|(msg & Hm)].
  - destruct (IH cur' rest') as (es & r & Hr & Hl'). eexists _, _. split; [by eapply letters_option|].
    destruct r; [lia|done].
  - eexists _, _. split; [by eapply letters_misused|done].
Qed.

Lemma letters_length word l cur rest es rest' :
  letters word l cur rest es (inl rest') -> (length rest' <= length rest)%nat.
Proof.
  remember (inl rest') as r eqn:Er. intros Hl. revert Er.
  induction Hl as [| ? ? ? ? ? ? ? ? ? ? ? Ht _ IH| |]; intros Er; try done; [by injection Er as <-|].
  specialize (IH Er). inversion Ht; subst; cbn in *; lia.
Qed.

Lemma reads_total args : exists es r, reads args es r.
Proof.
  remember (length args) as n eqn:Hn. revert args Hn. induction (lt_wf n) as [n _ IH]. intros args ->.
  destruct args as [|s rest]; [eexists _, _; constructor|].
  assert (forall rest', (length rest' <= length rest)%nat -> exists es r, reads rest' es r) as IH'.
  { intros rest' Hl. apply (IH (length rest')); [cbn; lia|done]. }
  destruct (find_option_cases s) as [(a & e & Hs)|[Hs _]].
  { destruct (takes_total (use a) s e rest) as [(cur & v & rest' & Ht & Hl)|(msg & Hm)].
    - destruct (IH' rest' Hl) as (es & r & Hr). eexists _, _. by eapply reads_option.
    - eexists _, _. by eapply reads_misused. }
  destruct (decide (s = [])) as [->|He]; [eexists _, _; apply reads_unknown; [done|by left]|].
  destruct (decide (first_char s = ch "-")) as [Hd|Hd];
    [|destruct (IH' rest ltac:(done)) as (es & r & Hr); eexists _, _; by apply reads_free].
  destruct s as [|c l]; [done|]. cbn in Hd. subst c.
  assert (l = [] \/ dashed l \/ (l <> [] /\ ~ dashed l)) as Hl
    by (destruct (decide (l = [])), (decide (first_char l = ch "-")); tauto).
  destruct Hl as [Hl|[Hl|[Hl Hd]]];
    [eexists _, _; apply reads_unknown; [done|]; right; exists l; tauto..|].
  destruct (letters_total (ch "-" :: l) l (ch "-" :: l) rest) as (es & [rest'|msg] & Hr & Hle).
  - destruct (IH' rest' Hle) as (es' & r & Hr'). eexists _, _. by eapply reads_letters.
  - eexists _, _. by eapply reads_wrong_letters.
Qed.
End Language.

(** ** Commands *)

Section Commands.
Context {O A : Type} `{OptionLaws O}.
Abbreviation M := (Cmd O A).

Lemma cmd_bind_inl {X Y} (m : M X) (k : X -> M Y) w x w' : m w = Ret (inl x, w') -> (m ≫= k) w = k x w'.
Proof. intros E. unfold mbind, cmd_bind. by rewrite E. Qed.
Lemma cmd_bind_inr {X Y} (m : M X) (k : X -> M Y) w f w' : m w = Ret (inr f, w') -> (m ≫= k) w = Ret (inr f, w').
Proof. intros E. unfold mbind, cmd_bind. by rewrite E. Qed.
Lemma cmd_bind_assoc {X Y U} (m : M X) (k : X -> M Y) (l : Y -> M U) w :
  ((m ≫= k) ≫= l) w = (m ≫= fun x => k x ≫= l) w.
Proof. unfold mbind, cmd_bind. by destruct (m w) as [[[x|f] w']|]. Qed.
Lemma cmd_bind_ext {X Y} (m : M X) (k l : X -> M Y) w :
  (forall x w', m w = Ret (inl x, w') -> k x w' = l x w') -> (m ≫= k) w = (m ≫= l) w.
Proof. unfold mbind, cmd_bind. destruct (m w) as [[[x|f] w']|] eqn:E; auto. Qed.
Lemma cmd_bind_inv {X Y} (m : M X) (k : X -> M Y) w y w' : (m ≫= k) w = Ret (inl y, w') ->
  exists x w1, m w = Ret (inl x, w1) /\ k x w1 = Ret (inl y, w').
Proof. unfold mbind, cmd_bind. destruct (m w) as [[[x|f] w1]|] eqn:E; [eauto|done|done]. Qed.

Lemma cmd_bind_eq {X Y} (m m' : M X) (k : X -> M Y) w : m w = m' w -> (m ≫= k) w = (m' ≫= k) w.
Proof. unfold mbind, cmd_bind. by intros ->. Qed.
Lemma run_bind {X Y} (x : X) (k : X -> M Y) w : (run (Ret x) ≫= k) w = k x w.
Proof. done. Qed.
Lemma gets_then {X Y} (g : world O A -> X) (k : X -> M Y) w : (gets g ≫= k) w = k (g w) w.
Proof. done. Qed.

(** [same w w']: the commands and the uses of options are those of [w]. *)
Record same (w w' : world O A) : Prop := {
  same_cmds : m_cmds (w_man w') = m_cmds (w_man w);
  same_shorts : m_shorts (w_man w') = m_shorts (w_man w);
  same_help : m_help_opt (w_man w') = m_help_opt (w_man w);
  same_version : m_version_opt (w_man w') = m_version_opt (w_man w);
  same_use : o_usage <$> w_objs w' = o_usage <$> w_objs w }.

#[export] Instance same_preorder : PreOrder same.
Proof.
  split; [by split|]. intros w1 w2 w3 [] []. split; congruence.
Qed.

(** A command that keeps them when it ends normally. *)
Definition keeping {X} (m : M X) : Prop := forall w x w', m w = Ret (inl x, w') -> same w w'.

Lemma keeping_bind {X Y} (m : M X) (k : X -> M Y) : keeping m -> (forall x, keeping (k x)) -> keeping (m ≫= k).
Proof.
  intros Hm Hk w y w' (x & w1 & E1 & E2)%cmd_bind_inv. etrans; [by eapply Hm|by eapply Hk].
Qed.
Lemma keeping_state {X} (m : M X) : (forall w, exists r, m w = Ret (r, w)) -> keeping m.
Proof. intros Hm w x w' E. destruct (Hm w) as (r & E'). rewrite E' in E. by injection E as _ <-. Qed.
Lemma keeping_ret {X} (x : X) : keeping (mret x).
Proof. apply keeping_state. by eexists. Qed.
Lemma keeping_gets {X} (g : world O A -> X) : keeping (gets g).
Proof. apply keeping_state. by eexists. Qed.
Lemma keeping_fails {X} f : keeping (fails (X := X) f).
Proof. apply keeping_state. by eexists. Qed.
Lemma keeping_run {X} (m : outcome X) : keeping (run m).
Proof. intros w x w' E. unfold run in E. destruct m; [|done]. by injection E as _ <-. Qed.
Lemma keeping_maybe f : keeping (maybe_fails f).
Proof. destruct f; [apply keeping_fails|apply keeping_ret]. Qed.
Lemma keeping_to_cerr s : keeping (to_cerr s).
Proof. intros w x w' [= _ <-]. by split. Qed.
Lemma keeping_to_cout s : keeping (to_cout s).
Proof. intros w x w' [= _ <-]. by split. Qed.
Lemma keeping_change_app g : keeping (change_app g).
Proof.
  intros w x w' E. unfold change_app in E.
  assert (same (mkWorld (w_man w) (w_objs w) (g (w_app w)).1 (w_cout w) (w_cerr w)) w') as [] by
    by eapply keeping_maybe. by split.
Qed.
End Commands.

Create HintDb options.
#[export] Hint Resolve keeping_bind keeping_ret keeping_gets keeping_fails keeping_run keeping_maybe
  keeping_to_cerr keeping_to_cout keeping_change_app : options.

(** Goes through a command made of commands that keep. *)
Ltac keeping :=
  repeat first
    [ progress intros
    | match goal with |- keeping (match ?x with _ => _ end) => destruct x end
    | solve [auto with options nocore]
    | apply keeping_bind ].

Section Parsing.
Context {O A : Type} `{OptionLaws O}.
Context (app_process : A -> str -> A * option failure) (app_run : A -> A * option failure).
Abbreviation M := (Cmd O A).
Implicit Types w : world O A.

Lemma object_at_keeps a : keeping (object_at (O := O) (A := A) a).
Proof. unfold object_at. keeping. Qed.
Lemma help_commands_keeps longs a l : forall comma, keeping (help_commands (O := O) (A := A) longs a l comma).
Proof. induction l as [|[c o] l IH]; intros comma; cbn; keeping; apply IH. Qed.
#[local] Hint Resolve object_at_keeps help_commands_keeps : options.
Lemma help_options_keeps l : forall done, keeping (help_options (O := O) (A := A) l done).
Proof. induction l as [|[c o] l IH]; intros dn; cbn; keeping; apply IH. Qed.
#[local] Hint Resolve help_options_keeps : options.
Lemma displayHelp_keeps : keeping (Manager_displayHelp (O := O) (A := A)).
Proof. unfold Manager_displayHelp. keeping. Qed.
Lemma displayVersion_keeps : keeping (Manager_displayVersion (O := O) (A := A)).
Proof. unfold Manager_displayVersion. keeping. Qed.
Lemma switch_on_keeps a : keeping (switch_on (O := O) (A := A) a).
Proof. unfold switch_on. keeping. Qed.
#[local] Hint Resolve displayHelp_keeps displayVersion_keeps switch_on_keeps : options.

Lemma object_at_ok w a o : w_objs w !! a = Some o -> object_at a w = Ret (inl o, w).
Proof.
  intros E. unfold object_at, gets, run. cbn. unfold mbind, cmd_bind. cbn.
  rewrite (rd_ok _ _ o) by (rewrite ?Nat2Z.id; done || lia). done.
Qed.
Lemma object_at_inv w a o w' : object_at a w = Ret (inl o, w') -> w_objs w !! a = Some o /\ w' = w.
Proof.
  unfold object_at, gets, run, mbind, cmd_bind. cbn. destruct (rd _ _) as [o'|] eqn:E; [|done].
  apply rd_inv in E as [_ E]. rewrite Nat2Z.id in E. cbn. by intros [= <- <-].
Qed.

Lemma process_object_keeps a arg : keeping (process_object (O := O) (A := A) a arg).
Proof.
  intros w [] w' (o & w1 & [Eo ->]%object_at_inv & E)%cmd_bind_inv.
  apply cmd_bind_inv in E as ([o' f] & w2 & E2 & E). unfold run in E2.
  destruct (o_process o arg) as [r|] eqn:Ep; [|done]. cbn in E2. injection E2 as -> <-. cbn in E.
  apply process_keeps in Ep as [Eu _].
  apply cmd_bind_inv in E as ([] & w3 & [= <-] & E). destruct f; [done|]. injection E as <-.
  split; [done..|]. cbn. rewrite list_fmap_insert. apply list_insert_id. by rewrite list_lookup_fmap, Eo, Eu.
Qed.
#[local] Hint Resolve process_object_keeps : options.
Lemma process_then_exit_keeps a arg : keeping (process_then_exit (O := O) (A := A) a arg).
Proof. unfold process_then_exit. keeping. Qed.
Lemma free_argument_keeps arg : keeping (free_argument (O := O) app_process arg).
Proof.
  unfold free_argument. keeping. intros w x w' [= _ <-]. by split.
Qed.
#[local] Hint Resolve process_then_exit_keeps free_argument_keeps : options.

(** *** What the events do *)

Definition run_event (e : event) : M unit :=
  match e with
  | EvOption a v => process_then_exit a v
  | EvFree s => free_argument app_process s
  end.
Fixpoint run_events (es : list event) : M unit :=
  match es with [] => mret tt | e :: es => run_event e ;; run_events es end.
(** The mistake that ends the arguments. *)
Definition finish (r : option str) : M unit :=
  match r with Some msg => fails (OptionException msg) | None => mret tt end.

Lemma run_event_keeps e : keeping (run_event e).
Proof. destruct e; cbn; keeping. Qed.
#[local] Hint Resolve run_event_keeps : options.

Lemma run_events_keeps es : keeping (run_events es).
Proof. induction es as [|e es IH]; cbn; keeping; apply IH. Qed.

Lemma run_events_app es es' w : run_events (es ++ es') w = (run_events es ;; run_events es') w.
Proof.
  revert w. induction es as [|e es IH]; intros w; [done|]. cbn [app run_events].
  rewrite cmd_bind_assoc. apply cmd_bind_ext. intros [] w' _. apply IH.
Qed.

(** How the option at an address is used. *)
Definition use_at (objs : list O) (a : nat) : usage_t := default arg_none (o_usage <$> objs !! a).

(** The invariant: the commands are sorted, have two characters at least and refer to
    objects, as the options of the manager do; the table of letters holds the
    commands of a dash and a letter. *)
Record world_ok w : Prop := {
  wok_map : map_ok (m_cmds (w_man w));
  wok_map_shorts : map_ok (m_shorts (w_man w));
  wok_long c a : ListMap_get (m_cmds (w_man w)) c = Some a -> 2 <= zlen c;
  wok_cmds c a : ListMap_get (m_cmds (w_man w)) c = Some a -> (a < length (w_objs w))%nat;
  wok_letters c : ListMap_get (m_shorts (w_man w)) c = ListMap_get (m_cmds (w_man w)) [ch "-"; c];
  wok_help a : m_help_opt (w_man w) = Some a -> (a < length (w_objs w))%nat;
  wok_version a : m_version_opt (w_man w) = Some a -> (a < length (w_objs w))%nat }.

Lemma wok_shorts w c a : world_ok w -> ListMap_get (m_shorts (w_man w)) c = Some a -> (a < length (w_objs w))%nat.
Proof. intros Hw. rewrite (wok_letters _ Hw). apply (wok_cmds _ Hw). Qed.

Lemma world_ok_same w w' : same w w' -> world_ok w -> world_ok w'.
Proof.
  intros [E1 E2 E3 E4 E5] []. apply (f_equal length) in E5. rewrite !length_fmap in E5.
  split; rewrite ?E1, ?E2, ?E3, ?E4, ?E5; done.
Qed.

Section From.
Context (w0 : world O A) (Hok : world_ok w0).
Let cmds := m_cmds (w_man w0).
Let shorts := m_shorts (w_man w0).
Let use := use_at (w_objs w0).

Lemma same_object w a : same w0 w -> (a < length (w_objs w0))%nat ->
  exists o, w_objs w !! a = Some o /\ o_usage o = use a.
Proof.
  intros [_ _ _ _ E] Ha. assert (a < length (w_objs w))%nat as Ha'.
  { apply (f_equal length) in E. rewrite !length_fmap in E. lia. }
  apply lookup_lt_is_Some_2 in Ha' as [o Ho]. exists o. split; [done|].
  unfold use, use_at. rewrite <- list_lookup_fmap, <- E, list_lookup_fmap, Ho. done.
Qed.

Variable argv : list str.
Let argc := zlen argv.

(** The arguments from the index [i]. *)
Definition from_arg (i : Z) (l : list str) : Prop := 0 <= i /\ drop (Z.to_nat i) argv = l.

Lemma from_cons i s l : from_arg i (s :: l) -> rd argv i = Ret s /\ i < argc /\ from_arg (i + 1) l.
Proof.
  intros [Hi E]. assert (argv !! Z.to_nat i = Some s) as Es.
  { rewrite <- (Nat.add_0_r (Z.to_nat i)), <- lookup_drop, E. done. }
  split; [by apply rd_ok|]. split; [apply lookup_lt_Some in Es; unfold argc; lia|]. split; [lia|].
  rewrite Z2Nat.inj_add, <- drop_drop, E by lia. done.
Qed.
Lemma from_nil i : from_arg i [] -> argc <= i.
Proof.
  intros [Hi E]. apply (f_equal length) in E. rewrite length_drop in E. cbn in E. unfold argc. lia.
Qed.

Lemma next_is_free_ok i s l : from_arg i (s :: l) ->
  next_is_free i argc argv = Ret (match l with [] => false | v :: _ => negb (first_char v =? ch "-") end).
Proof.
  intros (_ & _ & Hl)%from_cons. unfold next_is_free. destruct l as [|v l].
  - apply from_nil in Hl. by rewrite (proj2 (Z.ltb_ge _ _)) by lia.
  - apply from_cons in Hl as (E & Hi & _). by rewrite (proj2 (Z.ltb_lt _ _)), E by lia.
Qed.
Lemma no_value_free i s l : from_arg i (s :: l) -> no_value l -> next_is_free i argc argv = Ret false.
Proof.
  intros Hl Hn. rewrite (next_is_free_ok i s l Hl). destruct l as [|v l]; [done|].
  by rewrite (proj2 (Z.eqb_eq _ _) Hn).
Qed.

Lemma find_argument_takes u cur e rest cur' v rest' i w :
  takes u cur e rest cur' v rest' -> from_arg i (cur :: rest) ->
  let i' := i + (zlen rest - zlen rest') in
  find_argument u i argc argv e w = Ret (inl (v, i'), w) /\ from_arg i' (cur' :: rest').
Proof.
  intros [c r|u' c e' r Hu|u' c v' r Hu Hd|c r Hn] Hi; cbn zeta.
  - rewrite Z.sub_diag, Z.add_0_r. done.
  - rewrite Z.sub_diag, Z.add_0_r. by destruct u'.
  - apply from_cons in Hi as Hi'. destruct Hi' as (_ & _ & Hl). cbn [length].
    replace (i + (Z.of_nat (S (length r)) - zlen r)) with (i + 1) by lia. split; [|done].
    pose proof (from_cons _ _ _ Hl) as (E & _ & _).
    pose proof (next_is_free_ok i _ _ Hi) as En. cbn in En. rewrite (proj2 (Z.eqb_neq _ _) Hd) in En.
    unfold find_argument. destruct u'; [done|..]; rewrite En; unfold mbind, cmd_bind, run; cbn; by rewrite E.
  - rewrite Z.sub_diag, Z.add_0_r. split; [|done]. cbn. by rewrite (no_value_free i c r Hi Hn).
Qed.

Lemma find_argument_misuses u cur e rest msg i w : misuses u cur e rest msg -> from_arg i (cur :: rest) ->
  find_argument u i argc argv e w = Ret (inr (OptionException msg), w).
Proof.
  intros [c e' r|c r Hn] Hi; pose proof (from_cons _ _ _ Hi) as (E & _ & _); cbn;
    [|rewrite (no_value_free i c r Hi Hn)]; unfold mbind, cmd_bind, run; cbn; by rewrite E.
Qed.

Lemma processOption_takes w a cur e rest cur' v rest' i : same w0 w -> (a < length (w_objs w0))%nat ->
  takes (use a) cur e rest cur' v rest' -> from_arg i (cur :: rest) ->
  let i' := i + (zlen rest - zlen rest') in
  Manager_processOption (Some a) i argc argv e w = (run_event (EvOption a v) ;; mret i') w /\
  from_arg i' (cur' :: rest').
Proof.
  intros Hs Ha Ht Hi i'. destruct (same_object w a Hs Ha) as (o & Eo & Eu). rewrite <- Eu in Ht.
  destruct (find_argument_takes _ _ _ _ _ _ _ i w Ht Hi) as (E & Hi').
  split; [|done]. unfold Manager_processOption. rewrite (cmd_bind_inl _ _ _ _ _ (object_at_ok w a o Eo)).
  by rewrite (cmd_bind_inl _ _ _ _ _ E).
Qed.
Lemma processOption_misuses w a cur e rest msg i : same w0 w -> (a < length (w_objs w0))%nat ->
  misuses (use a) cur e rest msg -> from_arg i (cur :: rest) ->
  Manager_processOption (Some a) i argc argv e w = Ret (inr (OptionException msg), w).
Proof.
  intros Hs Ha Ht Hi. destruct (same_object w a Hs Ha) as (o & Eo & Eu). rewrite <- Eu in Ht.
  unfold Manager_processOption. rewrite (cmd_bind_inl _ _ _ _ _ (object_at_ok w a o Eo)).
  by rewrite (cmd_bind_inr _ _ _ _ _ (find_argument_misuses _ _ _ _ _ i w Ht Hi)).
Qed.
Lemma parse_letters_ok word l cur rest es r : letters shorts use word l cur rest es r ->
  forall i w, same w0 w -> from_arg i (cur :: rest) ->
  match r with
  | inl rest' => let i' := i + (zlen rest - zlen rest') in
      (exists cur', from_arg i' (cur' :: rest')) /\
      parse_letters l word i argc argv w = (run_events es ;; mret i') w
  | inr msg => parse_letters l word i argc argv w = (run_events es ;; fails (OptionException msg)) w
  end.
Proof.
  induction 1 as [cur rest|c l cur rest a v cur' rest' es r E Ht Hl IH|c l cur rest E|c l cur rest a msg E Hm];
    intros i w Hs Hi.
  - cbn zeta. rewrite Z.sub_diag, Z.add_0_r. split; [by exists cur|done].
  - pose proof (wok_shorts _ _ _ Hok E) as Ha.
    destruct (processOption_takes w a _ _ _ _ _ _ i Hs Ha Ht Hi) as [Ep Hi'].
    assert (forall k, parse_letters (c :: l) word i argc argv w = (run_events (EvOption a v :: es) ;; k) w <->
      (run_event (EvOption a v) ;; parse_letters l word (i + (zlen rest - zlen rest')) argc argv) w
      = (run_event (EvOption a v) ;; run_events es ;; k) w) as Hk.
    { intros k. cbn [parse_letters run_events]. rewrite gets_then, (same_shorts _ _ Hs).
      fold shorts. rewrite E, (cmd_bind_eq _ _ _ _ Ep), !cmd_bind_assoc. done. }
    destruct r as [rest''|msg].
    + cbn zeta. replace (i + (zlen rest - zlen rest'')) with
        (i + (zlen rest - zlen rest') + (zlen rest' - zlen rest'')) by lia.
      split; [by apply (IH _ w)|]. apply Hk, cmd_bind_ext. intros [] w' Ew. apply IH; [|done].
      etrans; [exact Hs|]. by eapply run_event_keeps.
    + apply Hk, cmd_bind_ext. intros [] w' Ew. apply IH; [|done].
      etrans; [exact Hs|]. by eapply run_event_keeps.
  - cbn [parse_letters]. rewrite gets_then, (same_shorts _ _ Hs). fold shorts. by rewrite E.
  - cbn [parse_letters]. rewrite gets_then, (same_shorts _ _ Hs). fold shorts. rewrite E.
    rewrite (cmd_bind_inr _ _ _ _ _ (processOption_misuses w a _ _ _ _ i Hs
      (wok_shorts _ _ _ Hok E) Hm Hi)). done.
Qed.

Lemma names_address s a e : names cmds s a e -> (a < length (w_objs w0))%nat.
Proof. intros [s' a' E|n v a' _ _ E]; by apply (wok_cmds _ Hok) in E. Qed.

Lemma parse_turn_start i s rest w : same w0 w -> from_arg i (s :: rest) ->
  parse_turn app_process i argc argv w =
  (x ← run (find_option cmds s);
   match x.1 with
   | Some a => Manager_processOption (Some a) i argc argv x.2
   | None =>
       if (0 <? zlen s) && negb (first_char s =? ch "-") then free_argument app_process s ;; mret i
       else if (1 <? zlen s) && negb (first_char (tail s) =? ch "-") then
         parse_letters (tail s) s i argc argv
       else fails (OptionException (is_unknown s))
   end) w.
Proof.
  intros Hs (E & _ & _)%from_cons. unfold parse_turn. by rewrite E, run_bind, gets_then, (same_cmds _ _ Hs).
Qed.

(** One turn of the loop that goes on, or that stops. *)
Lemma parse_loop_next fuel i i' s rest es k w : same w0 w -> from_arg i (s :: rest) ->
  parse_turn app_process i argc argv w = (run_events es ;; mret i') w ->
  (forall w', same w0 w' -> parse_loop app_process fuel (i' + 1) argc argv w' = k w') ->
  parse_loop app_process (S fuel) i argc argv w = (run_events es ;; k) w.
Proof.
  intros Hs (_ & Hi & _)%from_cons E Hk. cbn [parse_loop]. rewrite (proj2 (Z.ltb_lt _ _)) by done.
  rewrite (cmd_bind_eq _ _ _ _ E), cmd_bind_assoc. apply cmd_bind_ext. intros [] w' Ew. apply Hk.
  etrans; [exact Hs|]. by eapply run_events_keeps.
Qed.
Lemma parse_loop_stop fuel i s rest es f w : from_arg i (s :: rest) ->
  parse_turn app_process i argc argv w = (run_events es ;; fails f) w ->
  parse_loop app_process (S fuel) i argc argv w = (run_events es ;; fails f) w.
Proof.
  intros (_ & Hi & _)%from_cons E. cbn [parse_loop]. rewrite (proj2 (Z.ltb_lt _ _)) by done.
  rewrite (cmd_bind_eq _ _ _ _ E), cmd_bind_assoc. done.
Qed.

Lemma dashed_false s : ~ dashed s -> (first_char s =? ch "-") = false.
Proof. apply Z.eqb_neq. Qed.

Lemma turn_letters i l rest e w : find_option cmds (ch "-" :: l) = Ret (None, e) -> l <> [] -> ~ dashed l ->
  same w0 w -> from_arg i ((ch "-" :: l) :: rest) ->
  parse_turn app_process i argc argv w = parse_letters l (ch "-" :: l) i argc argv w.
Proof.
  intros En Hl Hd Hw Hi. rewrite (parse_turn_start _ _ _ _ Hw Hi), En, run_bind. cbn [fst snd tail].
  change (first_char (ch "-" :: l)) with (ch "-"). rewrite Z.eqb_refl, dashed_false by done.
  cbn [negb]. rewrite andb_false_r, (proj2 (Z.ltb_lt 1 _)); [done|].
  destruct l; [done|]. cbn [length]. lia.
Qed.

Lemma parse_loop_ok args es r : reads cmds shorts use args es r -> forall fuel i w,
  same w0 w -> from_arg i args -> (length args < fuel)%nat ->
  parse_loop app_process fuel i argc argv w = (run_events es ;; finish r) w.
Proof.
  assert (forall s, (forall a e, ~ names cmds s a e) -> exists e, find_option cmds s = Ret (None, e)) as Hno.
  { intros s Hs. destruct (find_option_cases cmds s) as [(a & e & Hn)|[_ Hn]]; [by destruct (Hs a e)|done]. }
  induction 1 as [|s rest a e cur v rest' es r Hn Ht _ IH|s rest a e msg Hn Hm|s rest es r Hn He Hd _ IH
    |l rest es rest' es' r Hn He Hd Hl _ IH|l rest es msg Hn He Hd Hl|s rest Hn Hs];
    intros fuel i w Hw Hi Hf; (destruct fuel as [|fuel]; [lia|]); cbn [length] in Hf.
  - apply from_nil in Hi. cbn. by rewrite (proj2 (Z.ltb_ge _ _)) by lia.
  - destruct (processOption_takes w a _ _ _ _ _ _ i Hw (names_address _ _ _ Hn) Ht Hi) as [Ep Hi'].
    rewrite (parse_loop_next fuel i (i + (zlen rest - zlen rest')) s rest [EvOption a v] (run_events es ;; finish r) w);
      [cbn [run_events]; by rewrite !cmd_bind_assoc|done|done| |].
    + rewrite (parse_turn_start _ _ _ _ Hw Hi), (find_option_named _ _ _ _ Hn), run_bind. cbn [fst snd].
      rewrite Ep. cbn [run_events]. by rewrite cmd_bind_assoc.
    + intros w' Hw'. apply from_cons in Hi' as (_ & _ & Hi'). apply IH; [done|done|].
      assert (length rest' <= length rest)%nat; [|lia]. inversion Ht; subst; cbn; lia.
  - rewrite (parse_loop_stop fuel i s rest [] (OptionException msg) w Hi); [done|].
    rewrite (parse_turn_start _ _ _ _ Hw Hi), (find_option_named _ _ _ _ Hn), run_bind. cbn [fst snd].
    by rewrite (processOption_misuses w a _ _ _ _ i Hw (names_address _ _ _ Hn) Hm Hi).
  - destruct (Hno s Hn) as (e & En). destruct s as [|c s]; [done|].
    rewrite (parse_loop_next fuel i i (c :: s) rest [EvFree (c :: s)] (run_events es ;; finish r) w);
      [cbn [run_events]; by rewrite !cmd_bind_assoc|done|done| |].
    + rewrite (parse_turn_start _ _ _ _ Hw Hi), En, run_bind. cbn [fst snd].
      rewrite dashed_false, (proj2 (Z.ltb_lt 0 _)) by (done || cbn [length]; lia).
      cbn [negb andb run_events]. by rewrite cmd_bind_assoc.
    + intros w' Hw'. apply from_cons in Hi as (_ & _ & Hi). apply IH; [done|done|lia].
  - destruct (Hno _ Hn) as (e & En). destruct (parse_letters_ok _ _ _ _ _ _ Hl i w Hw Hi) as [(cur & Hi') Ep].
    rewrite (parse_loop_next fuel i (i + (zlen rest - zlen rest')) (ch "-" :: l) rest es (run_events es' ;; finish r) w);
      [|done|done| |].
    + by rewrite (cmd_bind_eq _ _ _ _ (run_events_app _ _ _)), cmd_bind_assoc.
    + by rewrite (turn_letters i l rest e w).
    + intros w' Hw'. apply from_cons in Hi' as (_ & _ & Hi'). apply IH; [done|done|].
      apply letters_length in Hl. lia.
  - destruct (Hno _ Hn) as (e & En). apply (parse_loop_stop fuel i (ch "-" :: l) rest); [done|].
    rewrite (turn_letters i l rest e w) by done. by apply (parse_letters_ok _ _ _ _ _ _ Hl i w).
  - destruct (Hno _ Hn) as (e & En). rewrite (parse_loop_stop fuel i s rest [] (OptionException (is_unknown s)) w Hi); [done|].
    rewrite (parse_turn_start _ _ _ _ Hw Hi), En, run_bind. cbn [fst snd].
    destruct Hs as [->|(l & -> & Hl)]; [done|]. cbn [first_char head default tail length].
    rewrite Z.eqb_refl, andb_false_r. destruct Hl as [->|Hl]; [done|].
    by rewrite (proj2 (Z.eqb_eq _ _) Hl), andb_false_r.
Qed.
End From.

(** [parse] reads all the arguments after the name of the program. *)
Lemma parse_ok prog args es r w : world_ok w ->
  reads (m_cmds (w_man w)) (m_shorts (w_man w)) (use_at (w_objs w)) args es r ->
  Manager_parse app_process (zlen (prog :: args)) (prog :: args) w = (run_events es ;; finish r) w.
Proof.
  intros Hw Hr. unfold Manager_parse. rewrite (proj2 (Z.ltb_lt 0 _)) by (cbn [length]; lia).
  cbn [assertP]. rewrite run_bind. apply (parse_loop_ok w Hw (prog :: args) _ _ _ Hr); [done|done|cbn [length]; lia].
Qed.

(** *** The help *)

(** The world once [t] is displayed. *)
Definition report (t : str) w : world O A :=
  mkWorld (w_man w) (w_objs w) (w_app w) (w_cout w) (w_cerr w ++ t).

Lemma report_report t u w : report u (report t w) = report (t ++ u) w.
Proof. unfold report. cbn. by rewrite app_assoc. Qed.
Lemma report_nil w : report [] w = w.
Proof. destruct w. unfold report. cbn. by rewrite app_nil_r. Qed.
Lemma same_report t w : same w (report t w).
Proof. by split. Qed.

Definition long_command (c : str) : bool := bool_decide (c !! 1%nat = Some (ch "-")).
(** The short, or long, commands of an option. *)
Definition commands_of (longs : bool) (a : nat) (l : list (str * nat)) : list str :=
  (filter (fun p => p.2 = a /\ long_command p.1 = longs) l).*1.
Definition entry_commands (l : list (str * nat)) (a : nat) : list str :=
  commands_of false a l ++ commands_of true a l.

(** Texts separated by commas, with one first when [comma]. *)
Definition listed (comma : bool) (cs : list str) : str :=
  match cs with
  | [] => []
  | c :: cs => (if comma then text ", " else []) ++ c ++ concat ((fun c => text ", " ++ c) <$> cs)
  end.
Lemma listed_app comma cs cs' :
  listed comma cs ++ listed (comma || negb (bool_decide (cs = []))) cs' = listed comma (cs ++ cs').
Proof.
  destruct cs as [|c cs]; [cbn; by rewrite orb_false_r|]. cbn. rewrite orb_true_r.
  destruct cs' as [|c' cs']; cbn; [by rewrite !app_nil_r|].
  rewrite fmap_app, concat_app. cbn. by rewrite <- !app_assoc.
Qed.
Lemma listed_true cs : listed true cs = concat ((fun c => text ", " ++ c) <$> cs).
Proof. by destruct cs. Qed.

Definition entry_text (objs : list O) (l : list (str * nat)) (a : nat) : str :=
  match objs !! a with
  | None => []
  | Some o => listed false (entry_commands l a) ++ argument_text o ++ [10; 9] ++ o_description o ++ endl
  end.
(** The options in the order of their first commands. *)
Fixpoint help_order (l : list (str * nat)) (done : list nat) : list nat :=
  match l with
  | [] => []
  | (_, a) :: l => if bool_decide (a ∈ done) then help_order l done else a :: help_order l (done ++ [a])
  end.
Definition help_text w : str :=
  help_header (w_man w) ++
  concat (entry_text (w_objs w) (m_cmds (w_man w)) <$> help_order (m_cmds (w_man w)) []).

Lemma to_cerr_bind {Y} t (k : unit -> M Y) w : (to_cerr t ≫= k) w = k tt (report t w).
Proof. done. Qed.

Lemma help_commands_ok longs a l : (forall p, p ∈ l -> 2 <= zlen p.1) -> forall comma w,
  help_commands longs a l comma w = Ret (inl (comma || negb (bool_decide (commands_of longs a l = []))),
    report (listed comma (commands_of longs a l)) w).
Proof.
  induction l as [|[c o] l IH]; intros Hl comma w; cbn [help_commands].
  { cbn. by rewrite orb_false_r, report_nil. }
  assert (forall p, p ∈ l -> 2 <= zlen p.1) as Hl' by (intros p Hp; apply Hl; by right).
  assert (exists x, c !! 1%nat = Some x) as (x & Ex).
  { apply lookup_lt_is_Some_2. specialize (Hl (c, o) ltac:(by left)). cbn in Hl. lia. }
  assert (long_command c = (x =? ch "-")) as El.
  { unfold long_command. rewrite Ex. destruct (Z.eqb_spec x (ch "-")) as [->|Hn];
      [by rewrite bool_decide_eq_true_2|rewrite bool_decide_eq_false_2; congruence]. }
  destruct (Nat.eqb_spec o a) as [->|Hn].
  - rewrite (rd_ok _ _ x), run_bind by done. destruct (Bool.eqb (x =? ch "-") longs) eqn:Eb.
    + apply eqb_prop in Eb. assert (commands_of longs a ((c, a) :: l) = c :: commands_of longs a l) as ->.
      { unfold commands_of. rewrite filter_cons_True; [done|]. cbn. by rewrite El. }
      rewrite bool_decide_eq_false_2, orb_true_r by done. cbn [listed]. rewrite <- listed_true.
      destruct comma; [rewrite to_cerr_bind|rewrite (cmd_bind_inl _ _ w tt w) by done];
        rewrite to_cerr_bind, IH by done; by rewrite !report_report, <- ?app_assoc.
    + assert (commands_of longs a ((c, a) :: l) = commands_of longs a l) as ->; [|by apply IH].
      unfold commands_of. rewrite filter_cons_False; [done|]. cbn. rewrite El. intros [_ <-].
      by rewrite eqb_reflx in Eb.
  - assert (commands_of longs a ((c, o) :: l) = commands_of longs a l) as ->; [|by apply IH].
    unfold commands_of. rewrite filter_cons_False; [done|]. by intros [].
Qed.

Lemma commands_of_app longs a pre l : (forall p, p ∈ pre -> p.2 <> a) ->
  commands_of longs a (pre ++ l) = commands_of longs a l.
Proof.
  intros Hp. unfold commands_of. rewrite filter_app, filter_none; [done|].
  intros p Hin [E _]. by apply (Hp p).
Qed.

Lemma help_options_ok full w : (forall p, p ∈ full -> 2 <= zlen p.1 /\ (p.2 < length (w_objs w))%nat) ->
  forall l pre done t, full = pre ++ l -> (forall p, p ∈ pre -> p.2 ∈ done) ->
  help_options l done (report t w) =
    Ret (inl tt, report (t ++ concat (entry_text (w_objs w) full <$> help_order l done)) w).
Proof.
  intros Hf l. induction l as [|[c a] l IH]; intros pre dn t Efull Hpre; cbn [help_options help_order].
  { cbn. by rewrite app_nil_r. }
  assert (full = (pre ++ [(c, a)]) ++ l) as Efull' by by rewrite <- app_assoc.
  case_bool_decide as Hd.
  { apply (IH (pre ++ [(c, a)])); [done|]. intros p [Hp| ->%list_elem_of_singleton]%elem_of_app; [by apply Hpre|done]. }
  assert (forall p, p ∈ (c, a) :: l -> 2 <= zlen p.1) as Hl.
  { intros p Hp. apply Hf. rewrite Efull. apply elem_of_app. by right. }
  assert (forall longs, commands_of longs a ((c, a) :: l) = commands_of longs a full) as Ec.
  { intros longs. rewrite Efull, commands_of_app; [done|]. intros p Hp E. apply Hd. rewrite <- E. by apply Hpre. }
  destruct (lookup_lt_is_Some_2 (w_objs w) a) as [o Ho].
  { apply (Hf (c, a)). rewrite Efull. apply elem_of_app. right. by left. }
  rewrite (cmd_bind_inl _ _ _ _ _ (help_commands_ok _ _ _ Hl _ _)).
  rewrite (cmd_bind_inl _ _ _ _ _ (help_commands_ok _ _ _ Hl _ _)), !Ec.
  rewrite (cmd_bind_inl _ _ _ o _) by by apply object_at_ok.
  rewrite !to_cerr_bind, !report_report. rewrite (IH (pre ++ [(c, a)])); [|done|].
  - f_equal. f_equal. f_equal. cbn [fmap list_fmap concat]. unfold entry_text at 2. rewrite Ho.
    unfold entry_commands. rewrite <- listed_app. cbn [orb]. by rewrite <- !app_assoc.
  - intros p [Hp| ->%list_elem_of_singleton]%elem_of_app; apply elem_of_app; [left; by apply Hpre|right; by left].
Qed.

Lemma displayHelp_ok w : world_ok w -> Manager_displayHelp w = Ret (inl tt, report (help_text w) w).
Proof.
  intros Hw. unfold Manager_displayHelp. rewrite gets_then, to_cerr_bind.
  apply (help_options_ok (m_cmds (w_man w)) w) with (pre := []); [|done|by intros p ?%elem_of_nil].
  intros [c a] Hp. apply get_elem in Hp; [|apply Hw]. split; [by eapply wok_long|by eapply wok_cmds].
Qed.

Lemma help_order_spec l : forall done, NoDup (help_order l done) /\
  forall a, a ∈ help_order l done <-> a ∈ l.*2 /\ a ∉ done.
Proof.
  induction l as [|[c b] l IH]; intros dn; cbn; [split; [constructor|]; intros a; rewrite !elem_of_nil; tauto|].
  case_bool_decide as Hb.
  - destruct (IH dn) as [Hn Hs]. split; [done|]. intros a. rewrite Hs, elem_of_cons. naive_solver.
  - destruct (IH (dn ++ [b])) as [Hn Hs]. split.
    + constructor; [|done]. rewrite Hs, elem_of_app, list_elem_of_singleton. tauto.
    + intros a. rewrite !elem_of_cons, Hs, elem_of_app, list_elem_of_singleton.
      destruct (decide (a = b)) as [->|]; tauto.
Qed.

Lemma entry_commands_spec l a c : map_ok l -> c ∈ entry_commands l a <-> ListMap_get l c = Some a.
Proof.
  intros Hl. rewrite get_elem by done. unfold entry_commands. rewrite elem_of_app. unfold commands_of.
  split.
  - by intros [([c' a'] & -> & ([<- _] & Hp)%list_elem_of_filter)%list_elem_of_fmap
      |([c' a'] & -> & ([<- _] & Hp)%list_elem_of_filter)%list_elem_of_fmap].
  - intros Hp. destruct (long_command c) eqn:El; [right|left];
      apply list_elem_of_fmap; exists (c, a); (split; [done|]); by apply list_elem_of_filter.
Qed.

(** *** Commands without faults *)

(** [m] ends from [w], normally or not, with the same commands. *)
Definition safe {X} (m : M X) w : Prop := exists r w', m w = Ret (r, w') /\ same w w' /\ r <> inr UnknownException.

Lemma safe_bind {X Y} (m : M X) (k : X -> M Y) w : safe m w ->
  (forall x w', m w = Ret (inl x, w') -> same w w' -> safe (k x) w') -> safe (m ≫= k) w.
Proof.
  intros (r & w1 & E & Hs & Hu) Hk. destruct r as [x|f].
  - destruct (Hk x w1 E Hs) as (r & w2 & E2 & Hs2 & Hu2). exists r, w2.
    rewrite (cmd_bind_inl _ _ _ _ _ E). split_and!; [done|by etrans|done].
  - exists (inr f), w1. rewrite (cmd_bind_inr _ _ _ _ _ E). split_and!; [done|done|congruence].
Qed.
Lemma safe_ret {X} (x : X) w : safe (mret x) w.
Proof. by exists (inl x), w. Qed.
Lemma safe_fails {X} f w : f <> UnknownException -> safe (fails (X := X) f) w.
Proof. intros Hf. exists (inr f), w. split_and!; [done|done|congruence]. Qed.
Lemma safe_gets {X} (g : world O A -> X) w : safe (gets g) w.
Proof. by exists (inl (g w)), w. Qed.
Lemma safe_change_app g w : (g (w_app w)).2 <> Some UnknownException -> safe (change_app g) w.
Proof.
  intros Hg. unfold safe, change_app. destruct (g (w_app w)).2 as [f|];
    [exists (inr f)|exists (inl tt)]; eexists; (split; [reflexivity|split; [by split|congruence]]).
Qed.
Lemma safe_switch_on a w : (forall b, a = Some b -> (b < length (w_objs w))%nat) -> safe (switch_on a) w.
Proof.
  intros Ha. destruct a as [a|]; [|apply safe_ret]. destruct (lookup_lt_is_Some_2 (w_objs w) a) as [o Ho]; [by apply Ha|].
  cbn. exists (inl (o_get o)), w. by rewrite (cmd_bind_inl _ _ _ o w) by by apply object_at_ok.
Qed.

Lemma safe_process_object a v w : (a < length (w_objs w))%nat -> Forall (inw 8) v -> safe (process_object a v) w.
Proof.
  intros [o Ho]%lookup_lt_is_Some_2 Hv. destruct (process_runs o v Hv) as ([o' f] & Ep).
  pose proof (process_keeps _ _ _ _ Ep) as [Eu Hf]. unfold safe, process_object.
  rewrite (cmd_bind_inl _ _ _ o w) by by apply object_at_ok.
  rewrite (cmd_bind_inl _ _ w (o', f) w) by (unfold run; by rewrite Ep). cbn [fst snd].
  assert (same w (mkWorld (w_man w) (<[a := o']> (w_objs w)) (w_app w) (w_cout w) (w_cerr w))) as Hs.
  { split; [done..|]. cbn. rewrite list_fmap_insert. apply list_insert_id. by rewrite list_lookup_fmap, Ho, Eu. }
  destruct f as [f|]; [exists (inr f)|exists (inl tt)]; (eexists; split; [reflexivity|]; split; [done|congruence]).
Qed.

Lemma safe_process_then_exit a v w : world_ok w -> (a < length (w_objs w))%nat -> Forall (inw 8) v ->
  safe (process_then_exit a v) w.
Proof.
  intros Hw Ha Hv. apply safe_bind; [by apply safe_process_object|]. intros [] w1 _ Hs1.
  pose proof (world_ok_same _ _ Hs1 Hw) as Hw1.
  apply safe_bind; [apply safe_gets|]. intros m w2 [= <- <-] _.
  apply safe_bind; [apply safe_switch_on; apply Hw1|]. intros h w3 Eh Hs3.
  pose proof (world_ok_same _ _ Hs3 Hw1) as Hw3. destruct h.
  { apply safe_bind; [|intros [] w4 _ _; by apply safe_fails].
    eexists _, _. rewrite displayHelp_ok by done. split; [done|]. split; [apply same_report|done]. }
  apply safe_bind; [apply safe_switch_on; intros b Hb|].
  { rewrite <- (same_version _ _ Hs3) in Hb. by apply (wok_version _ Hw3). }
  intros [] w4 _ _; [|apply safe_ret]. apply safe_bind; [|intros [] w5 _ _; by apply safe_fails].
  eexists _, _. split; [reflexivity|]. by split; [split|].
Qed.

(** The functions of the application do not throw the exception of the manager. *)
Definition app_ok : Prop :=
  (forall a s, (app_process a s).2 <> Some UnknownException) /\ forall a, (app_run a).2 <> Some UnknownException.

Lemma safe_run_events es w : app_ok -> world_ok w -> Forall (event_ok (length (w_objs w))) es ->
  safe (run_events es) w.
Proof.
  intros Happ. revert w. induction es as [|e es IH]; intros w Hw Hes; [apply safe_ret|].
  apply Forall_cons in Hes as [He Hes]. apply safe_bind.
  - destruct e as [a v|s]; [by apply safe_process_then_exit; [|apply He..]|].
    apply safe_bind; [eexists _, _; split; [reflexivity|by split]|]. intros [] w1 _ _.
    apply safe_change_app, Happ.
  - intros [] w1 _ Hs. apply IH; [by eapply world_ok_same|].
    apply same_use, (f_equal length) in Hs. rewrite !length_fmap in Hs. by rewrite Hs.
Qed.

(** *** Registration *)

Lemma hasKey_get (l : list (str * nat)) k : ListMap_hasKey l k = bool_decide (is_Some (ListMap_get l k)).
Proof.
  unfold ListMap_hasKey, ListMap_get. by destruct (ListMap_lookup l k).
Qed.

Definition fresh (cmds : list str) w : Prop :=
  NoDup cmds /\ forall c, c ∈ cmds -> ListMap_get (m_cmds (w_man w)) c = None.

Lemma check_new_ok c w : check_new c w =
  if decide (ListMap_get (m_cmds (w_man w)) c = None) then Ret (inl tt, w) else Crash AssertFailed.
Proof.
  unfold check_new. rewrite gets_then, hasKey_get. unfold run.
  destruct (ListMap_get (m_cmds (w_man w)) c) eqn:E; case_decide; try done.
Qed.

Lemma add_command_ok c a w : world_ok w -> (a < length (w_objs w))%nat -> 2 <= zlen c ->
  if decide (ListMap_get (m_cmds (w_man w)) c = None) then
    exists w', add_command c a w = Ret (inl tt, w') /\ world_ok w' /\ w_objs w' = w_objs w /\
      m_info (w_man w') = m_info (w_man w) /\
      forall k, ListMap_get (m_cmds (w_man w')) k = if decide (k = c) then Some a else ListMap_get (m_cmds (w_man w)) k
  else add_command c a w = Crash AssertFailed.
Proof.
  intros Hw Ha Hc.
  destruct (put_ok (m_cmds (w_man w)) c a (wok_map _ Hw)) as (Hm & Hk & Ho).
  assert (forall k, ListMap_get (ListMap_put (m_cmds (w_man w)) c a) k =
    if decide (k = c) then Some a else ListMap_get (m_cmds (w_man w)) k) as Hg.
  { intros k. case_decide as E; [by subst|by apply Ho]. }
  assert ((exists c1, c = [ch "-"; c1] /\ add_command c a = Manager_addShort c1 a) \/
    (forall x, c <> [ch "-"; x]) /\ add_command c a = Manager_addCommand c a) as [(c1 & -> & ->)|[Hx ->]].
  { destruct c as [|c0 [|c1 [|c2 c]]]; [cbn in Hc; lia..| |right; by split].
    cbn. destruct (Z.eqb_spec c0 (ch "-")) as [->|]; [left; by exists c1|right; split; [|done]]. congruence. }
  - unfold Manager_addShort. destruct (decide _) as [E|E].
    + rewrite (cmd_bind_inl _ _ w tt w) by (rewrite check_new_ok; by rewrite decide_True).
      eexists. split; [reflexivity|]. cbn. split; [|done].
      destruct (put_ok (m_shorts (w_man w)) c1 a (wok_map_shorts _ Hw)) as (Hm' & Hk' & Ho'). destruct Hw.
      split; cbn; try done.
      * intros k b. rewrite Hg. case_decide as Ek; [by subst|apply wok_long0].
      * intros k b. rewrite Hg. case_decide as Ek; [by intros [= <-]|apply wok_cmds0].
      * intros k. rewrite Hg. destruct (decide (k = c1)) as [->|Hn]; [by rewrite decide_True|].
        rewrite decide_False by congruence. by rewrite Ho', wok_letters0.
    + unfold mbind, cmd_bind. rewrite check_new_ok. by rewrite decide_False.
  - unfold Manager_addCommand. destruct (decide _) as [E|E].
    + rewrite (cmd_bind_inl _ _ w tt w) by (rewrite check_new_ok; by rewrite decide_True).
      eexists. split; [reflexivity|]. cbn. split; [|done]. destruct Hw.
      split; cbn; try done.
      * intros k b. rewrite Hg. case_decide as Ek; [by subst|apply wok_long0].
      * intros k b. rewrite Hg. case_decide as Ek; [by intros [= <-]|apply wok_cmds0].
      * intros k. by rewrite Hg, decide_False, wok_letters0 by (symmetry; apply Hx).
    + unfold mbind, cmd_bind. rewrite check_new_ok. by rewrite decide_False.
Qed.

Lemma fresh_cons c cmds a w w1 : ListMap_get (m_cmds (w_man w)) c = None ->
  (forall k, ListMap_get (m_cmds (w_man w1)) k = if decide (k = c) then Some a else ListMap_get (m_cmds (w_man w)) k) ->
  fresh (c :: cmds) w <-> fresh cmds w1.
Proof.
  intros Ec E1. unfold fresh. rewrite NoDup_cons. split.
  - intros [[Hn Hd] Hf]. split; [done|]. intros k Hk. rewrite E1, decide_False by (intros ->; done).
    apply Hf. by right.
  - intros [Hd Hf]. split; [split; [|done]|].
    + intros Hc. apply Hf in Hc. rewrite E1 in Hc. by rewrite decide_True in Hc.
    + intros k [->|Hk]%elem_of_cons; [done|]. apply Hf in Hk. rewrite E1 in Hk. by case_decide.
Qed.

Lemma add_commands_ok cmds a : forall w, world_ok w -> (a < length (w_objs w))%nat ->
  Forall (fun c => 2 <= zlen c) cmds ->
  (fresh cmds w -> exists w', add_commands cmds a w = Ret (inl tt, w') /\ world_ok w' /\ w_objs w' = w_objs w /\
     forall k, ListMap_get (m_cmds (w_man w')) k = if decide (k ∈ cmds) then Some a else ListMap_get (m_cmds (w_man w)) k) /\
  (~ fresh cmds w -> add_commands cmds a w = Crash AssertFailed).
Proof.
  induction cmds as [|c cmds IH]; intros w Hw Ha Hl; cbn [add_commands].
  { split; [|intros Hf; exfalso; apply Hf; split; [constructor|by intros ? ?%elem_of_nil]].
    intros _. exists w. split_and!; [done..|]. intros k. rewrite decide_False by apply not_elem_of_nil. done. }
  apply Forall_cons in Hl as [Hc Hl]. pose proof (add_command_ok c a w Hw Ha Hc) as Hadd.
  destruct (decide (ListMap_get (m_cmds (w_man w)) c = None)) as [Ec|Ec].
  - destruct Hadd as (w1 & E & Hw1 & Eo & _ & E1). pose proof (fresh_cons c cmds a w w1 Ec E1) as Hf.
    rewrite (cmd_bind_inl _ _ _ _ _ E), Hf. destruct (IH w1 Hw1 ltac:(by rewrite Eo) Hl) as [Hok Hko].
    split; [|done]. intros Hfr. destruct (Hok Hfr) as (w' & E' & Hw' & Eo' & E2). exists w'.
    split_and!; [done|done|congruence|]. intros k. rewrite E2, E1.
    destruct (decide (k ∈ cmds)) as [Hk|Hk]; [by rewrite decide_True by by right|].
    destruct (decide (k = c)) as [->|Hn]; [by rewrite decide_True by by left|].
    rewrite decide_False; [done|]. by intros [->|?]%elem_of_cons.
  - split; [intros [_ Hf]; exfalso; apply Ec, Hf; by left|]. intros _. unfold mbind, cmd_bind. by rewrite Hadd.
Qed.

Lemma world_ok_new w o : world_ok w ->
  world_ok (mkWorld (mkManager (m_info (w_man w)) (m_options (w_man w) ++ [length (w_objs w)]) (m_shorts (w_man w))
    (m_cmds (w_man w)) (m_help_opt (w_man w)) (m_version_opt (w_man w)) (m_frees (w_man w)))
    (w_objs w ++ [o]) (w_app w) (w_cout w) (w_cerr w)).
Proof.
  intros []. split; cbn; rewrite ?length_app; try done; cbn.
  - intros c a Hc%wok_cmds0. lia.
  - intros a Hc%wok_help0. lia.
  - intros a Hc%wok_version0. lia.
Qed.

Lemma Option_make_ok (o : O) cmds w :
  world_ok w -> Forall (fun c => 2 <= zlen c) cmds ->
  (fresh cmds w -> exists w', Option_make o cmds w = Ret (inl (length (w_objs w)), w') /\ world_ok w' /\
     w_objs w' = w_objs w ++ [o] /\
     forall c, ListMap_get (m_cmds (w_man w')) c =
       if decide (c ∈ cmds) then Some (length (w_objs w)) else ListMap_get (m_cmds (w_man w)) c) /\
  (~ fresh cmds w -> Option_make o cmds w = Crash AssertFailed).
Proof.
  intros Hw Hc. unfold Option_make. erewrite cmd_bind_inl by reflexivity.
  unfold Manager_addOption. erewrite cmd_bind_inl by reflexivity. cbn.
  destruct (add_commands_ok cmds (length (w_objs w)) _ (world_ok_new w o Hw)) as [Hok Hko];
    [cbn; rewrite length_app; cbn; lia|done|].
  split.
  - intros Hf. destruct (Hok Hf) as (w' & E & Hw' & Eo & Eg). exists w'.
    rewrite (cmd_bind_inl _ _ _ _ _ E). by split_and!.
  - intros Hf. unfold mbind, cmd_bind. by rewrite (Hko Hf).
Qed.

Lemma world_ok_set_help w a : world_ok w -> (a < length (w_objs w))%nat ->
  world_ok (mkWorld (mkManager (m_info (w_man w)) (m_options (w_man w)) (m_shorts (w_man w)) (m_cmds (w_man w))
    (Some a) (m_version_opt (w_man w)) (m_frees (w_man w))) (w_objs w) (w_app w) (w_cout w) (w_cerr w)).
Proof. intros [] Ha. split; try done. by intros b [= <-]. Qed.
Lemma world_ok_set_version w a : world_ok w -> (a < length (w_objs w))%nat ->
  world_ok (mkWorld (mkManager (m_info (w_man w)) (m_options (w_man w)) (m_shorts (w_man w)) (m_cmds (w_man w))
    (m_help_opt (w_man w)) (Some a) (m_frees (w_man w))) (w_objs w) (w_app w) (w_cout w) (w_cerr w)).
Proof. intros [] Ha. split; try done. by intros b [= <-]. Qed.

(** The commands of a manager of which no option was made yet. *)
Definition own_commands (maker : Make) : list str :=
  (if mk_help maker then [text "-h"; text "--help"] else []) ++
  (if mk_version_opt maker then [text "--version"] else []).

Lemma Manager_make_ok switch maker w : exists w', Manager_make switch maker w = Ret (inl tt, w') /\ world_ok w' /\
  forall c, is_Some (ListMap_get (m_cmds (w_man w')) c) <-> c ∈ own_commands maker.
Proof.
  set (w0 := mkWorld (mkManager maker [] [] [] None None []) (w_objs w) (w_app w) (w_cout w) (w_cerr w)).
  assert (world_ok w0) as Hw0 by (split; try done; constructor).
  unfold Manager_make. rewrite (cmd_bind_inl _ _ w tt w0) by done.
  assert (exists w1, (if mk_help maker then
     a ← Option_make (switch (text "display this help message")) [text "-h"; text "--help"];
     change_man (fun m => mkManager (m_info m) (m_options m) (m_shorts m) (m_cmds m)
       (Some a) (m_version_opt m) (m_frees m))
   else mret tt) w0 = Ret (inl tt, w1) /\ world_ok w1 /\ forall c, is_Some (ListMap_get (m_cmds (w_man w1)) c) <->
     c ∈ (if mk_help maker then [text "-h"; text "--help"] else [])) as (w1 & E1 & Hw1 & C1).
  { destruct (mk_help maker).
    - destruct (Option_make_ok (switch (text "display this help message")) [text "-h"; text "--help"] w0 Hw0)
        as [Hm _]; [by repeat constructor|].
      destruct Hm as (w1 & E & Hw1 & Eo & Eg); [split; [by_decide|done]|].
      rewrite (cmd_bind_inl _ _ _ _ _ E). eexists. split; [reflexivity|].
      split; [apply world_ok_set_help; [done|rewrite Eo, length_app; cbn; lia]|]. intros c. cbn [w_man m_cmds].
      rewrite Eg. case_decide; [by split; [|eexists]|]. split; [by intros []|done].
    - exists w0. split_and!; [done|done|]. intros c. split; [by intros []|by intros ?%elem_of_nil]. }
  rewrite (cmd_bind_inl _ _ _ _ _ E1). unfold own_commands. destruct (mk_version_opt maker).
  - destruct (Option_make_ok (switch (text "display this application version")) [text "--version"] w1 Hw1)
      as [Hm _]; [by repeat constructor|].
    destruct Hm as (w2 & E & Hw2 & Eo & Eg).
    { split; [by_decide|]. intros c ->%list_elem_of_singleton. apply eq_None_not_Some. rewrite C1.
      destruct (mk_help maker); by_decide. }
    rewrite (cmd_bind_inl _ _ _ _ _ E). eexists. split; [reflexivity|].
    split; [apply world_ok_set_version; [done|rewrite Eo, length_app; cbn; lia]|]. intros c. cbn [w_man m_cmds].
    rewrite Eg, elem_of_app, <- C1. case_decide; [split; [by right|by eexists]|]. tauto.
  - exists w1. split_and!; [done|done|]. intros c. by rewrite C1, app_nil_r.
Qed.
End Parsing.

(** *** An example *)

(** The invariant, on the tables. *)
Lemma world_ok_tables {O A} (w : world O A) : let m := w_man w in
  map_ok (m_cmds m) -> map_ok (m_shorts m) ->
  Forall (fun p => 2 <= zlen p.1 /\ (p.2 < length (w_objs w))%nat) (m_cmds m) ->
  Forall (fun p => ([ch "-"; p.1], p.2) ∈ m_cmds m) (m_shorts m) ->
  Forall (fun p => p.1 = [ch "-"; default 0 (p.1 !! 1%nat)] ->
    (default 0 (p.1 !! 1%nat), p.2) ∈ m_shorts m) (m_cmds m) ->
  Forall (fun a => a < length (w_objs w))%nat (option_list (m_help_opt m) ++ option_list (m_version_opt m)) ->
  world_ok w.
Proof.
  intros m Hm Hs Hc Hsc Hcs Ho. rewrite list.Forall_forall in Hc.
  rewrite list.Forall_forall in Hsc. rewrite list.Forall_forall in Hcs. rewrite list.Forall_forall in Ho.
  split; try done.
  - intros c a Hp%get_elem; [|done]. by apply Hc in Hp as [].
  - intros c a Hp%get_elem; [|done]. by apply Hc in Hp as [].
  - intros c. apply option_eq. intros a. rewrite !get_elem by done. split; intros Hp.
    + by apply Hsc in Hp.
    + by apply (Hcs _ Hp).
  - intros a E. apply Ho. fold m in E. rewrite E. by left.
  - intros a E. apply Ho. fold m in E. rewrite E. apply elem_of_app. right. by left.
Qed.

Lemma first_mistake {O A} `{OptionLaws O} app_process msg (k : Cmd O A unit) w x w' :
  (run_events app_process [] ;; finish (Some msg) ;; k) w = Ret (x, w') -> x = inr (OptionException msg) /\ w' = w.
Proof. by intros [= <- <-]. Qed.

Definition Demo : Type := SwitchOption + (ValueOption Z + EnumOption Z).
Definition demo_start : world Demo (list str) :=
  mkWorld (mkManager (mkMake [] Version_ZERO [] [] [] [] false false) [] [] [] None None []) [] [] [] [].
Definition demo_options : Cmd Demo (list str) unit :=
  Manager_make (fun d => inl (SwitchOption_make d))
    (mkMake (text "prog") (mkVersion 1 2 3) [] [] [] (text "FILES") true true) ;;
  Option_make (inl (SwitchOption_make (text "be verbose"))) [text "-v"; text "--verbose"] ;;
  Option_make (inr (inl (mkValue (text "count") (text "N") arg_required 0))) [text "-n"; text "--count"] ;;
  e ← run (EnumOption_make (text "colour") (text "C") [(text "red", 1); (text "blue", 2)] None);
  Option_make (inr (inr e)) [text "--colour"] ;; mret tt.
Definition demo : world Demo (list str) :=
  match demo_options demo_start with Ret (_, w) => w | Crash _ => demo_start end.

Lemma demo_ok : world_ok demo.
Proof.
  apply world_ok_tables.
  - unfold map_ok. by_decide.
  - unfold map_ok. by_decide.
  - by_decide.
  - by_decide.
  - by_decide.
  - by_decide.
Qed.
(** ** Properties *)

(** [C36] An option whose commands have two characters at least, none of them being
    used already nor given twice, is registered under all its commands, and under
    nothing else: it becomes the next object, the other commands are unchanged and
    the manager stays well formed (sorted tables, the table of letters being that of
    the commands made of a dash and a character). *)
Theorem Option_make_registers {O A} `{OptionLaws O} (o : O) cmds (w : world O A) :
  world_ok w -> Forall (fun c => 2 <= zlen c) cmds -> fresh cmds w ->
  exists w', Option_make o cmds w = Ret (inl (length (w_objs w)), w') /\ world_ok w' /\
    w_objs w' = w_objs w ++ [o] /\
    forall c, ListMap_get (m_cmds (w_man w')) c =
      if decide (c ∈ cmds) then Some (length (w_objs w)) else ListMap_get (m_cmds (w_man w)) c.
Proof. intros Hw Hc. apply (Option_make_ok o cmds w Hw Hc). Qed.

Lemma Option_make_registers_witness :
  exists w, Option_make (inl (SwitchOption_make (text "x"))) [text "-x"; text "--extra"] demo = Ret (inl 5%nat, w) /\
    ListMap_get (m_cmds (w_man w)) (text "--extra") = Some 5%nat.
Proof.
  destruct (Option_make_registers (inl (SwitchOption_make (text "x"))) [text "-x"; text "--extra"] demo demo_ok)
    as (w & E & _ & _ & Hg); [by repeat constructor| |].
  { split; [by_decide|]. apply list.Forall_forall. by_decide. }
  exists w. split; [exact E|]. rewrite Hg. vm_compute. reflexivity.
Defined.
(** A command used already makes an assertion fail. *)
Example Option_make_used :
  Option_make (inl (SwitchOption_make (text "x"))) [text "-x"; text "--count"] demo = Crash AssertFailed.
Proof. vm_compute. reflexivity. Qed.

(** [C3] The arguments after the name of the program are read as the language of
    command lines tells, whatever the options do: every list of arguments has a
    reading, as events up to the end or to a mistake, and [parse] runs the events
    in order, each with its value, up to the first failure, then throws the
    message of the mistake, if any. *)
Theorem Manager_parse_reads {O A} `{OptionLaws O} app_process prog args (w : world O A) : world_ok w ->
  let reading := reads (m_cmds (w_man w)) (m_shorts (w_man w)) (use_at (w_objs w)) args in
  (exists es r, reading es r) /\
  forall es r, reading es r ->
    Manager_parse app_process (zlen (prog :: args)) (prog :: args) w = (run_events app_process es ;; finish r) w.
Proof. intros Hw. cbn zeta. split; [apply reads_total|]. intros es r. by apply parse_ok. Qed.

Lemma Manager_parse_reads_witness :
  let argv := [text "prog"; text "-vn"; text "12"; text "f"; text "--colour=blue"; text "-"] in
  (r ← Manager_parse Manager_process (zlen argv) argv demo;
   Ret (r.1, m_frees (w_man r.2), w_objs r.2 !! 3%nat)) =
  Ret (inr (OptionException (is_unknown (text "-"))), [text "f"],
       Some (inr (inl (mkValue (text "count") (text "N") arg_required 12)))).
Proof.
  cbv zeta. destruct (Manager_parse_reads Manager_process (text "prog")
    [text "-vn"; text "12"; text "f"; text "--colour=blue"; text "-"] demo demo_ok) as [_ H].
  assert (forall s, find_option (m_cmds (w_man demo)) s = Ret (None, None) ->
    forall a e, ~ names (m_cmds (w_man demo)) s a e) as Hn.
  { intros s E a e Hn. apply find_option_named in Hn. congruence. }
  rewrite (H [EvOption 2 []; EvOption 3 (text "12"); EvFree (text "f"); EvOption 4 (text "blue")]
    (Some (is_unknown (text "-")))); [vm_compute; reflexivity|].
  assert (use_at (w_objs demo) 2 = arg_none) as U2 by (vm_compute; reflexivity).
  assert (use_at (w_objs demo) 3 = arg_required) as U3 by (vm_compute; reflexivity).
  assert (use_at (w_objs demo) 4 = arg_required) as U4 by (vm_compute; reflexivity).
  apply (reads_letters _ _ _ (text "vn") _ [EvOption 2 []; EvOption 3 (text "12")]
    [text "f"; text "--colour=blue"; text "-"]); [apply Hn; vm_compute; reflexivity|by_decide|by_decide| |].
  - apply (letters_option _ _ _ _ _ _ _ 2%nat [] (text "-vn") [text "12"; text "f"; text "--colour=blue"; text "-"]);
      [vm_compute; reflexivity|rewrite U2; apply takes_none|].
    apply (letters_option _ _ _ _ _ _ _ 3%nat (text "12") (text "12") [text "f"; text "--colour=blue"; text "-"]);
      [vm_compute; reflexivity|rewrite U3; apply takes_next; by_decide|apply letters_end].
  - apply reads_free; [apply Hn; vm_compute; reflexivity|by_decide|by_decide|].
    apply (reads_option _ _ _ _ _ 4%nat (Some (text "blue")) (text "--colour=blue") _ [text "-"]).
    + apply (names_value _ (text "--colour") (text "blue")); [vm_compute; reflexivity|by_decide|vm_compute; reflexivity].
    + rewrite U4. apply takes_own. by_decide.
    + apply reads_unknown; [apply Hn; vm_compute; reflexivity|]. right. exists []. by split; [|left].
Defined.

(** The help of a well-formed manager is displayed: after the header, one entry
    for each option that has commands, in the order of their first commands, and in
    the entry each of its commands once, the short ones first, the argument and the
    description. *)
Theorem Manager_displayHelp_complete {O A} `{OptionLaws O} (w : world O A) : world_ok w ->
  let cmds := m_cmds (w_man w) in
  Manager_displayHelp w = Ret (inl tt, report (help_text w) w) /\
  NoDup (help_order cmds []) /\
  forall c a, ListMap_get cmds c = Some a <-> a ∈ help_order cmds [] /\ c ∈ entry_commands cmds a.
Proof.
  intros Hw cmds. split; [by apply displayHelp_ok|]. destruct (help_order_spec cmds []) as [Hn Ho]. split; [done|].
  intros c a. rewrite Ho, entry_commands_spec by apply Hw. split; [|tauto]. intros E. split; [|done].
  split; [|apply not_elem_of_nil]. apply get_elem in E; [|apply Hw]. apply list_elem_of_fmap. by exists (c, a).
Qed.

Lemma Manager_displayHelp_complete_witness : exists w, Manager_displayHelp demo = Ret (inl tt, w) /\
  w_cerr w = text "prog V1.2.3" ++ [10; 10] ++ text "USAGE: prog [OPTIONS] FILES" ++ [10; 10]
    ++ text "OPTIONS may be:" ++ [10]
    ++ text "--colour C" ++ [10; 9] ++ text "colour" ++ [10]
    ++ text "-n, --count N" ++ [10; 9] ++ text "count" ++ [10]
    ++ text "-h, --help" ++ [10; 9] ++ text "display this help message" ++ [10]
    ++ text "-v, --verbose" ++ [10; 9] ++ text "be verbose" ++ [10]
    ++ text "--version" ++ [10; 9] ++ text "display this application version" ++ [10].
Proof.
  destruct (Manager_displayHelp_complete demo demo_ok) as (E & _). eexists. split; [exact E|].
  vm_compute. reflexivity.
Defined.

(** [C37] [manage] catches what the command line and the application throw: it never
    faults; it returns 0 when all the events and [run] end normally; 1, once the
    help and the message are displayed, after the first mistake of the command line,
    found while reading or by an option; 2, once the message is displayed, after
    another exception; an exit stays an exit. *)
Theorem Manager_manage_status {O A} `{OptionLaws O} app_process app_run prog args es r (w : world O A) :
  world_ok w -> app_ok app_process app_run -> Forall (Forall (inw 8)) args ->
  reads (m_cmds (w_man w)) (m_shorts (w_man w)) (use_at (w_objs w)) args es r ->
  let manage := Manager_manage app_process app_run (zlen (prog :: args)) (prog :: args) w in
  exists x w', (run_events app_process es ;; finish r ;; change_app app_run) w = Ret (x, w') /\
  match x with
  | inl _ => manage = Ret (inl 0, w')
  | inr (OptionException msg) =>
      manage = Ret (inl 1, report (help_text w' ++ text "ERROR: command line error: " ++ msg ++ endl) w')
  | inr (OtherException msg) => manage = Ret (inl 2, report (text "ERROR: " ++ msg ++ endl) w')
  | inr UnknownException => False
  | inr (Exit status) => manage = Ret (inr (Exit status), w')
  end.
Proof.
  intros Hw Happ Hb Hr. cbn zeta. unfold Manager_manage, parse_and_run.
  rewrite (cmd_bind_eq _ _ _ w (parse_ok app_process prog args es r w Hw Hr)), cmd_bind_assoc.
  assert (safe (run_events app_process es ;; finish r ;; change_app app_run) w) as (x & w' & E & Hs & Hu).
  { apply safe_bind; [apply (safe_run_events app_process app_run); [done|done|]|].
    - eapply reads_bytes; [apply (wok_cmds _ Hw)|intros c a; by apply wok_shorts|done|done].
    - intros [] w1 _ Hs. apply safe_bind; [destruct r; [by apply safe_fails|apply safe_ret]|].
      intros [] w2 _ _. apply safe_change_app, Happ. }
  exists x, w'. split; [exact E|]. rewrite E.
  destruct x as [[]|[msg|msg| |status]]; [done| |done|done|done].
  rewrite (cmd_bind_inl _ _ _ _ _ (displayHelp_ok w' (world_ok_same _ _ Hs Hw))), to_cerr_bind, report_report.
  done.
Qed.

Lemma Manager_manage_status_witness :
  exists w, Manager_manage Manager_process Manager_run (zlen [text "prog"; text "--count"])
      [text "prog"; text "--count"] demo =
    Ret (inl 1, report (help_text w ++ text "ERROR: command line error: " ++ needs_an_argument (text "--count") ++ endl) w).
Proof.
  destruct (Manager_manage_status Manager_process Manager_run (text "prog") [text "--count"] []
    (Some (needs_an_argument (text "--count"))) demo demo_ok) as (x & w & E & Hx).
  - by split.
  - by_decide.
  - apply (reads_misused _ _ _ _ _ 3%nat None); [apply names_exact; vm_compute; reflexivity|].
    assert (use_at (w_objs demo) 3 = arg_required) as -> by (vm_compute; reflexivity). by apply misuses_required.
  - apply first_mistake in E as [-> ->]. by exists demo.
Defined.

(** *** What goes wrong *)

(** A removed option still answers to its commands. *)
Example removeOption_keeps_commands :
  (r ← (Manager_removeOption 2 ;; Manager_parse Manager_process 2 [text "prog"; text "-v"]
      : Cmd Demo (list str) unit) demo;
   Ret (r.1, m_options (w_man r.2), o_get (O := Demo) <$> w_objs r.2 !! 2%nat)) = Ret (inl tt, [0; 1; 3; 4]%nat, Some true).
Proof. vm_compute. reflexivity. Qed.

(** The help does not show the versions [x.0.y], nor [0.x.y]. *)
Example version_not_in_help :
  help_header (mkManager (mkMake (text "p") (mkVersion 1 0 0) [] [] [] [] false false) [] [] [] None None [])
  = text "p" ++ [10; 10] ++ text "USAGE: p" ++ [10; 10] ++ text "OPTIONS may be:" ++ [10].
Proof. vm_compute. reflexivity. Qed.

(** A value that is not a number is taken for 0, without any message. *)
Example wrong_number_accepted :
  (r ← Manager_parse Manager_process 2 [text "prog"; text "--count=many"] demo;
   Ret (r.1, w_objs r.2 !! 3%nat)) =
  Ret (inl tt, Some (inr (inl (mkValue (text "count") (text "N") arg_required 0)))).
Proof. vm_compute. reflexivity. Qed.

(** A negative number cannot be given as the next argument. *)
Example negative_argument_refused :
  fst <$> Manager_parse Manager_process 3 [text "prog"; text "--count"; text "-5"] demo =
  Ret (inr (OptionException (needs_an_argument (text "--count")))).
Proof. vm_compute. reflexivity. Qed.

(** Asking for help is an error for the caller of the program. *)
Example help_exits_with_1 :
  fst <$> Manager_manage Manager_process Manager_run 2 [text "prog"; text "--help"] demo = Ret (inr (Exit 1)).
Proof. vm_compute. reflexivity. Qed.
